(* ===== verification/_CoqProject ===== *)
-Q . S2P
Prelude.v
Ring.v
CircularBuffer.v
Fragmentation.v
Blocks.v
PoolClient.v
MemPoolDLL.v
MemPoolSLL.v
ProdCons.v
PacketRing.v
SensorRing.v
ListHeap.v
LoopLists.v
MergeLists.v
Intersection.v
DeleteNode.v
MaxXor.v
Tries.v
RateLimiter.v
Timer.v
WorkQueue.v
RandomSet.v
Uuid.v
DnsHash.v
Palindromes.v
ArithString.v
DigitStrings.v
Sequences.v
LeakDetector.v
LockFreeStack.v
SharedContainers.v
ArrayQueues.v
MemApis.v
Events.v
Filters.v
Dispatcher.v
Searches.v
LruSpec.v
ProbeTable.v
IndexList.v
LruCore.v
LruHash.v
PacketLru.v
LruSimple.v
CloneList.v
SignalBuffer.v
Semaphore.v
QueueThreads.v
CondWait.v
Singletons.v
Posix.v
Hostapd.v
PipePolls.v
Cat.v
Squares.v
CDigits.v
Devices.v
PacketThreads.v
StaticThreads.v
QueuePrograms.v
LogProgram.v
Receiver.v
HeapTable.v
ContainerPrograms.v
LockFreeProgram.v
SensorThreads.v
PollPrograms.v
ListDemos.v
AlgorithmDemos.v
CacheDemos.v
TimerProgram.v
ThreadMains.v
LanguageDemos.v
PoolDemos.v
Journal.v
CQuestion.v
BufferPrograms.v
SensorDoubles.v
MemPrograms.v
ToolMains.v
