(* ===== verification/Prelude.v ===== *)
(** * Verification of the interview-preparation code base

    The repository is a collection of small C and C++ programs: data structures
    (rings, pools, caches, tries, lists), concurrent components (blocking queues,
    thread pools, semaphores, lock-free structures), programs over system calls,
    and string and integer algorithms.  They do not call each other, so the
    development has a file or a few files per program; what the programs have in
    common is factored out into shared files and interfaces.  This file holds
    what all of them use.

    ** How the programs are modelled

    - A w-bit unsigned integer is a [Z] reduced by [u8], [u16], [u32], [u64];
      signed arithmetic that overflows is the failure [SignedOverflow] of [int].
      Array accesses are [vget] and [vset], with an access out of range as the
      failure [OutOfBounds]; dereferencing null or a freed node fails as well.
      A failing computation is an [outcome].
    - Pointer structures live in a finite map from addresses to nodes (0 is the
      null pointer) that is passed from call to call; [new] and [malloc] take
      the address from a parameter [alloc] that gives unused addresses, so that
      leaks, double frees and dangling pointers are visible.
    - A class or a set of globals is a record, a method a function on it.
    - Threads are steps of a relation: with a mutex one critical section (up to
      its release by returning or by blocking on a condition variable) is one
      step, without one every access to shared memory is.  Notifications,
      spurious wake-ups and arrivals of threads are steps of their own.  The
      theorems hold for every state reachable by [rtc].  Weak memory orders are
      not modelled.
    - Clocks, random generators, hash functions of the library, allocators and
      the operating system are parameters or arguments; what is assumed of them
      is a named hypothesis or class of the theorem, with a witness.
    - What a program prints is a result of its model where the program is about
      it, and left out elsewhere; sleeping is left out.

    ** Files

    Rings and queues (src/circularQueue, amazon, queue, stack)
    - Ring: the layout of a queue in an array; CircularBuffer: the static ring
      against a bounded queue; PacketRing: the three overwriting packet rings
      with their heap; SensorRing: the broadcast ring and its race; ArrayQueues:
      the queues and the stack in C.
    - ProdCons: the blocking buffer; SignalBuffer: its C version with a signal
      handler, simulated by ProdCons until the signal arrives; BufferPrograms:
      the two programs around them, [Enter] (C++) and [Sigint] (C), whose steps
      are steps of those systems.
    - PacketThreads and StaticThreads: the programs around the packet rings, with
      producer, consumer, main and signal handler; SensorThreads: the one around
      the broadcast ring, every access a step.
    Memory (src/memorypool, mem_apis, memoryLeakDetector)
    - Blocks: lists of blocks with first-fit and coalescing; PoolClient: the
      class [Pool] and what every client of a pool may rely on; MemPoolDLL and
      MemPoolSLL: the five allocators as instances; LeakDetector: the recorded
      allocations are exactly the live ones; MemApis: memcpy and memset;
      MemPrograms: their two programs; PoolDemos: the mains of the allocators,
      which print their block lists.
    Linked lists (src/pureStorage, packetHandler, arista, microsoft)
    - ListHeap: list segments and walks; LoopLists, MergeLists, Intersection,
      DeleteNode: the algorithms; CloneList: two ways to copy a list with random
      pointers.
    Caches and maps (src/lruCache, dnsCache, trie, pureStorage, routingTable.cpp)
    - LruSpec: the abstract LRU cache and the class [LruCache]; ProbeTable: open
      addressing, with the reinsertion after a removal; IndexList: lists threaded
      through an array; LruCore: the three views together; LruHash, PacketLru and
      LruSimple: the three caches.  Tries, DnsHash, RandomSet (with the class
      [IntTable] between the set and the hash table), HeapTable (the same table
      as linked nodes in a heap, with its destructor), MaxXor.
    Concurrency (src/threadPool, concurrency, semaphore, singleton, pureStorage)
    - WorkQueue: the thread pools; LockFreeStack; SharedContainers; Semaphore:
      the counting semaphore and callbacks that wait for an event; QueueThreads,
      CondWait: the producer/consumer programs; Singletons; Events; Timer.
    - Whole programs: QueuePrograms (a class [QueueProgram] with the six queue
      programs as instances, and the effects and faults of the workers' work),
      LogProgram (rate limiter, queue and file
      together), ContainerPrograms, LockFreeProgram, TimerProgram, and ThreadMains
      (a class [ThreadGroup]: mains that create threads and join them).
    Packets, messages and devices
    - Fragmentation: fragments reassembled in any order; its Module [Streams]:
      whole streams of packets and clean-ups; Dispatcher: the packet path; Receiver: capture and processor threads around it; RateLimiter;
      Filters; Devices: a LED port, rollover of timestamps, the routing table and
      the sensor filter; SensorDoubles: the filter and its main in IEEE binary64;
      Journal: the journals and their persistence.
    Programs over system calls (src/pollMechanisms)
    - Posix: programs as trees of calls and answers, executed against a script of
      answers, with weakest preconditions; Hostapd: the epoll event loop;
      PipePolls: the poll, epoll and select loops; PollPrograms: the programs
      around them; Cat: copying with read/write and with io_uring.
    Algorithms on strings and numbers
    - Uuid, Palindromes, ArithString, DigitStrings, CDigits (the C version of a
      function of DigitStrings), Sequences, Searches, Squares, CQuestion.
    Demonstrations
    - ListDemos, AlgorithmDemos, CacheDemos: the remaining mains and what they
      print; ToolMains: the mains of the command-line programs and their clocks;
      LanguageDemos: layout of structs, address arithmetic, intrinsics.

    ** What the theorems show

    - Refinement of an abstract specification by every sequence of calls: the
      rings (bounded queue, queue of the newest), the reassembler (sets of
      fragment numbers), the caches (LRU cache), sets
      and maps (RandomSet, DnsHash, Tries), the rate limiter (sliding window),
      the C buffer (the C++ buffer).
    - Safety in every interleaving: first-in first-out and no lost wake-up
      (ProdCons, SignalBuffer, WorkQueue, QueueThreads), at most k holders and no
      overflow of the count (Semaphore), one live instance (Singletons), LIFO
      without faults with one popping thread at a time (LockFreeStack), bounds
      of the shared indices (CondWait), descriptors that are open and of the
      right kind for every answer of the system (Hostapd).
    - A critical section or a worker's work that fails is not a step: the
      relations [faults] and [efaults] name the threads about to run one, and the
      theorems on ProdCons, PacketThreads and Receiver exclude them.
    - Whole programs: in every interleaving, how many steps they take, that they
      do not get stuck before [main] returns, and what they have printed,
      written or freed then (PacketThreads, StaticThreads, SensorThreads,
      BufferPrograms, QueuePrograms, LogProgram, Receiver, ContainerPrograms,
      LockFreeProgram, TimerProgram, ThreadMains, PollPrograms); the demonstrations by evaluation,
      for every address, time or random number they depend on.
    - Types: machine widths, indices in range and callbacks that are set in every
      state of the timer program.
    - Memory safety of clients: regions disjoint and inside the buffer, exact
      accounting of allocations, no leak and no double free.
    - Functional correctness of the algorithms, by equivalence with a reference
      definition where there is one (evaluation of expressions, next permutation,
      squares recognised by their distances, the four intersection algorithms).
    - Errors and termination: when an allocation fails, what an incomplete
      message leaves behind, that the removal from a probing table ends, that a
      copy ends when the calls make progress.
    - Where the code does not do what it means to, a lemma gives the input or the
      interleaving, next to the theorem that says when it does.

    ** Fuel

    Loops that are not structural take fuel, and running out of it is the failure
    [OutOfFuel] (or [OutFuel] for programs over system calls), which the theorems
    exclude.  The amounts are: the length of the list (or of the lasso, twice for
    the fast pointer) and one for the list algorithms, the number of digits or
    characters for strings, the size of the table for probing, the number of
    block headers and one for the pools, and the number of answers of the system for Hostapd
    (every round of a loop consumes one); each is proved to be enough.  The mains
    in the demonstration files run on fixed inputs with a constant that their
    evaluation shows to be enough.

    ** Not modelled

    stackOverflowDetect.c, which prints a distance between local variables that
    the compiler chooses, and files without a complete program (hashMap.cpp,
    getmedian.cpp, semaphore/binarySemaphore.c, and the notes at the end of
    microsoft/cQuestion.c).  Of modelled files: opening a capture (libpcap), the
    NLMSG macros of netlink, the printing of the times that the poll programs
    measure, the formatting of doubles, and destroying mutexes and conditions.
    The headers of the memory pools may lie at any address (C++ wants them
    aligned); the handler of SIGINT is one step, and that it calls functions that
    are not safe in a handler is ignored; [malloc] succeeds in DnsHash and in the
    whole programs of PacketThreads, and writes to an open file in LogProgram; a
    [realloc] to size 0 is not told apart from a failed one (LeakDetector).

    ** Open

    Torn copies and weak memory orders for SensorRing, SensorThreads and
    LockFreeStack. *)

From stdpp Require Import base list gmap strings numbers.
From Stdlib Require Import ZArith Lia.

#[global] Open Scope Z_scope.

(** ** Failing computations

    The C and C++ sources leave a computation in four ways that are not a
    normal return: a C++ exception, undefined behaviour of an array access or
    a pointer dereference, undefined behaviour of arithmetic, and (for the
    loops that are executed with fuel) not having returned yet.  Every partial
    operation of the development returns an [outcome]. *)

Inductive fault :=
  | OutOfBounds
  | NullDeref
  | DanglingPtr
  | DivByZero
  | SignedOverflow
  | Misaligned
  | Exn (msg : string)
  | OutOfFuel.

#[export] Instance fault_eq_dec : EqDecision fault.
Proof. solve_decision. Defined.

Inductive outcome (A : Type) :=
  | Ret (a : A)
  | Err (f : fault).
Arguments Ret {A} a.
Arguments Err {A} f.

#[export] Instance outcome_ret : MRet outcome := @Ret.
#[export] Instance outcome_bind : MBind outcome := λ A B k m,
  match m with Ret a => k a | Err f => Err f end.
#[export] Instance outcome_fmap : FMap outcome := λ A B g m,
  match m with Ret a => Ret (g a) | Err f => Err f end.

#[export] Instance outcome_eq_dec `{EqDecision A} : EqDecision (outcome A).
Proof. solve_decision. Defined.

(** [check b f] continues when [b] holds and fails with [f] otherwise. *)
Definition check (b : bool) (f : fault) : outcome unit :=
  if b then Ret tt else Err f.

Definition of_option {A} (f : fault) (o : option A) : outcome A :=
  match o with Some a => Ret a | None => Err f end.

Lemma bind_Ret {A B} (a : A) (k : A → outcome B) : (Ret a ≫= k) = k a.
Proof. done. Qed.

Lemma bind_Ret_inv {A B} (m : outcome A) (k : A → outcome B) b :
  (m ≫= k) = Ret b → ∃ a, m = Ret a ∧ k a = Ret b.
Proof. destruct m; simpl; [eauto|done]. Qed.

Lemma check_true b f : check b f = Ret tt ↔ b = true.
Proof. by destruct b. Qed.

(** ** Machine integers

    A [w]-bit unsigned integer is the [Z] in [0 .. 2^w); arithmetic on it is
    arithmetic on [Z] followed by [u8], [u16], [u32] or [u64].  An [int] is
    the [Z] in [-2^31 .. 2^31); signed overflow is undefined behaviour and is
    made visible by [int_ok]. *)

Definition u8 (z : Z) : Z := z mod 2 ^ 8.
Definition u16 (z : Z) : Z := z mod 2 ^ 16.
Definition u32 (z : Z) : Z := z mod 2 ^ 32.
Definition u64 (z : Z) : Z := z mod 2 ^ 64.

Definition INT_MAX : Z := 2 ^ 31 - 1.
Definition INT_MIN : Z := - 2 ^ 31.
Definition int_ok (z : Z) : bool := (INT_MIN <=? z) && (z <=? INT_MAX).
(** The result of an [int] computation, with overflow as a failure. *)
Definition int (z : Z) : outcome Z :=
  if int_ok z then Ret z else Err SignedOverflow.
(** Conversion to [int], as every supported compiler performs it. *)
Definition to_int (z : Z) : Z := (z + 2 ^ 31) mod 2 ^ 32 - 2 ^ 31.

(** Unsigned [a % b]. *)
Definition umod (a b : Z) : outcome Z :=
  if b =? 0 then Err DivByZero else Ret (a mod b).

Lemma umod_Ret a b : b ≠ 0 → umod a b = Ret (a mod b).
Proof. intros H. unfold umod. by destruct (Z.eqb_spec b 0). Qed.

Lemma u64_small z : 0 ≤ z < 2 ^ 64 → u64 z = z.
Proof. apply Z.mod_small. Qed.
Lemma u32_small z : 0 ≤ z < 2 ^ 32 → u32 z = z.
Proof. apply Z.mod_small. Qed.
Lemma u16_small z : 0 ≤ z < 2 ^ 16 → u16 z = z.
Proof. apply Z.mod_small. Qed.
Lemma u64_range z : 0 ≤ u64 z < 2 ^ 64.
Proof. by apply Z.mod_pos_bound. Qed.
Lemma u32_range z : 0 ≤ u32 z < 2 ^ 32.
Proof. by apply Z.mod_pos_bound. Qed.
Lemma u16_range z : 0 ≤ u16 z < 2 ^ 16.
Proof. by apply Z.mod_pos_bound. Qed.

(** ** Arrays and vectors

    [vget] and [vset] are [v[i]] and [v[i] = x] on a [std::vector] or a C
    array, with an access out of range as a failure. *)

Definition in_range {A} (l : list A) (i : Z) : bool :=
  (0 <=? i) && (i <? Z.of_nat (length l)).

Definition vget {A} (l : list A) (i : Z) : outcome A :=
  if in_range l i then of_option OutOfBounds (l !! Z.to_nat i)
  else Err OutOfBounds.

Definition vset {A} (l : list A) (i : Z) (x : A) : outcome (list A) :=
  if in_range l i then Ret (<[Z.to_nat i := x]> l) else Err OutOfBounds.

(** [v.resize(n, x)]. *)
Definition vresize {A} (l : list A) (n : nat) (x : A) : list A :=
  take n l ++ replicate (n - length l) x.

Lemma vresize_nil {A} n (x : A) : vresize [] n x = replicate n x.
Proof. unfold vresize. by rewrite take_nil, Nat.sub_0_r. Qed.

Lemma in_range_spec {A} (l : list A) i :
  in_range l i = true ↔ 0 ≤ i < Z.of_nat (length l).
Proof. unfold in_range. rewrite andb_true_iff, Z.leb_le, Z.ltb_lt. lia. Qed.

Lemma vget_Ret {A} (l : list A) i x :
  vget l i = Ret x ↔ 0 ≤ i ∧ l !! Z.to_nat i = Some x.
Proof.
  unfold vget, of_option. destruct (in_range l i) eqn:E.
  - apply in_range_spec in E. split.
    + intros H. destruct (l !! _); [|done]. inversion H. split; [lia|done].
    + by intros [_ ->].
  - split; [done|]. intros [H0 H]. apply lookup_lt_Some in H.
    enough (in_range l i = true) by congruence. apply in_range_spec. lia.
Qed.

Lemma vget_total {A} (l : list A) i :
  0 ≤ i < Z.of_nat (length l) → ∃ x, vget l i = Ret x ∧ l !! Z.to_nat i = Some x.
Proof.
  intros H. destruct (lookup_lt_is_Some_2 l (Z.to_nat i)) as [x Hx]; [lia|].
  exists x. split; [|done]. apply vget_Ret. split; [lia|done].
Qed.

Lemma vset_total {A} (l : list A) i x :
  0 ≤ i < Z.of_nat (length l) → vset l i x = Ret (<[Z.to_nat i := x]> l).
Proof. intros H. unfold vset. by rewrite (proj2 (in_range_spec l i) H). Qed.

Lemma vset_Ret {A} (l l' : list A) i x :
  vset l i x = Ret l' → 0 ≤ i < Z.of_nat (length l) ∧ l' = <[Z.to_nat i := x]> l.
Proof.
  unfold vset. destruct (in_range l i) eqn:E; [|done].
  apply in_range_spec in E. by intros [= <-].
Qed.

Arguments vget : simpl never.
Arguments vset : simpl never.
Arguments umod : simpl never.
Arguments u8 : simpl never.
Arguments u16 : simpl never.
Arguments u32 : simpl never.
Arguments u64 : simpl never.

(** ** Tactics and hints *)

(** Splits a hypothesis [(x ← m; k) = Ret b] into its steps. *)
Ltac inv_ret :=
  repeat match goal with
  | H : Ret _ = Ret _ |- _ => injection H as H; try subst
  | H : Err _ = Ret _ |- _ => discriminate H
  | H : Ret _ = Err _ |- _ => discriminate H
  | H : mret _ = Ret _ |- _ => injection H as H; try subst
  | H : (_ ≫= _) = Ret _ |- _ =>
      let a := fresh "a" in let Ha := fresh "Ha" in
      apply bind_Ret_inv in H as (a & Ha & H)
  | H : check _ _ = Ret _ |- _ => apply check_true in H
  end.

(** Case analysis on the boolean integer comparisons of the goal. *)
Ltac zcases :=
  repeat match goal with
  | |- context [Z.leb ?a ?b] => destruct (Z.leb_spec a b)
  | |- context [Z.ltb ?a ?b] => destruct (Z.ltb_spec a b)
  | |- context [Z.eqb ?a ?b] => destruct (Z.eqb_spec a b)
  end.

Create HintDb words.
Create Rewrite HintDb lens.
#[export] Hint Resolve u64_range u32_range u16_range : words.
#[export] Hint Rewrite @length_app @length_insert @length_replicate @length_fmap
  @length_take @length_drop @length_seq : lens.

(** ** Generic list lemmas *)

Lemma lookup_snoc_Some {A} (l : list A) x k y :
  (l ++ [x]) !! k = Some y →
  l !! k = Some y ∧ (k < length l)%nat ∨ k = length l ∧ y = x.
Proof.
  intros [H|[Hk H]]%lookup_app_Some.
  - left. split; [done|]. by eapply lookup_lt_Some.
  - right. destruct (k - length l)%nat eqn:E; simpl in H; [|done].
    simplify_eq. split; [lia|done].
Qed.

Lemma exists_last_or_nil {A} (l : list A) : l = [] ∨ ∃ l' x, l = l' ++ [x].
Proof. destruct l using rev_ind; eauto. Qed.

(** Number of elements that satisfy a boolean predicate. *)
Fixpoint countb {A} (p : A → bool) (l : list A) : nat :=
  match l with [] => 0 | x :: l => Nat.b2n (p x) + countb p l end.

Lemma countb_insert {A} (p : A → bool) (l : list A) i x y :
  l !! i = Some x → (countb p (<[i := y]> l) + Nat.b2n (p x) = countb p l + Nat.b2n (p y))%nat.
Proof.
  revert i. induction l as [|z l IH]; intros [|i] Hi; simpl in *; simplify_eq; try lia.
  specialize (IH i Hi). lia.
Qed.

Lemma countb_pos {A} (p : A → bool) (l : list A) i x :
  l !! i = Some x → p x = true → (0 < countb p l)%nat.
Proof.
  revert i. induction l as [|z l IH]; intros [|i] Hi Hp; simpl in *; simplify_eq.
  - rewrite Hp. simpl. lia.
  - specialize (IH i Hi Hp). lia.
Qed.

Lemma countb_pos_inv {A} (p : A → bool) (l : list A) :
  (0 < countb p l)%nat → ∃ i x, l !! i = Some x ∧ p x = true.
Proof.
  induction l as [|y l IH]; simpl; [lia|]. destruct (p y) eqn:E; [by exists 0%nat, y|].
  intros (i & x & ? & ?)%IH. by exists (S i), x.
Qed.

Lemma countb_zero {A} (p : A → bool) (l : list A) :
  countb p l = 0%nat ↔ ∀ i x, l !! i = Some x → p x = false.
Proof.
  split.
  - intros H i x Hi. destruct (p x) eqn:E; [|done].
    pose proof (countb_pos p l i x Hi E). lia.
  - induction l as [|z l IH]; intros H; simpl; [done|].
    rewrite (H 0%nat z eq_refl), IH; [done|]. intros i x Hi. by apply (H (S i)).
Qed.

Lemma countb_app {A} (p : A → bool) (l k : list A) : countb p (l ++ k) = (countb p l + countb p k)%nat.
Proof. induction l as [|x l IH]; simpl; [done|]. rewrite IH. lia. Qed.

Lemma countb_fmap {A B} (p : B → bool) (g : A → B) (l : list A) :
  countb p (g <$> l) = countb (λ x, p (g x)) l.
Proof. induction l as [|x l IH]; [done|]. rewrite fmap_cons. simpl. by rewrite IH. Qed.

Lemma NoDup_middle {A} (l r : list A) x : NoDup (l ++ x :: r) ↔ x ∉ l ++ r ∧ NoDup (l ++ r).
Proof. rewrite <- Permutation_middle. apply list.NoDup_cons. Qed.

(** Replacing one element under a [list] bind. *)
Lemma bind_insert {A B} (f : A → list B) (l : list A) i x y :
  l !! i = Some x → f x ++ (<[i := y]> l ≫= f) ≡ₚ f y ++ (l ≫= f).
Proof.
  revert i. induction l as [|z l IH]; intros [|i] Hi; simplify_eq/=; [solve_Permutation|].
  rewrite Permutation_app_swap_app, (IH i Hi). solve_Permutation.
Qed.

Lemma insert_cases {A} (l : list A) i x j y : <[i := x]> l !! j = Some y →
  j = i ∧ y = x ∨ j ≠ i ∧ l !! j = Some y.
Proof. intros [(-> & -> & _)|[? ?]]%list_lookup_insert_Some; [by left|right; split; congruence]. Qed.

(** The sum of a measure over a list. *)
Fixpoint total {A} (f : A → nat) (l : list A) : nat :=
  match l with [] => 0 | x :: l => f x + total f l end.

Lemma total_insert {A} (f : A → nat) (l : list A) i x y :
  l !! i = Some x → (total f (<[i := y]> l) + f x = total f l + f y)%nat.
Proof.
  revert i. induction l as [|z l IH]; intros [|i] Hi; simpl in *; simplify_eq; try lia.
  specialize (IH i Hi). lia.
Qed.

Lemma total_const {A} (f : A → nat) (l : list A) c : (∀ x, x ∈ l → f x = c) → total f l = (c * length l)%nat.
Proof.
  induction l as [|x l IH]; intros H; simpl; [lia|]. rewrite (H x), IH by (try (intros; apply H; by right); by left). lia.
Qed.

Lemma total_app {A} (f : A → nat) (l k : list A) : total f (l ++ k) = (total f l + total f k)%nat.
Proof. induction l as [|x l IH]; simpl; [done|]. rewrite IH. lia. Qed.

Lemma total_ext {A} (f g : A → nat) (l : list A) : (∀ x, x ∈ l → f x = g x) → total f l = total g l.
Proof. induction l as [|x l IH]; intros H; simpl; [done|]. rewrite (H x), IH; [done| |left]. intros y Hy. apply H. by right. Qed.

Lemma total_le {A} (f g : A → nat) (l : list A) c :
  (∀ x, x ∈ l → f x ≤ g x + c)%nat → (total f l ≤ total g l + c * length l)%nat.
Proof.
  induction l as [|x l IH]; intros H; simpl; [lia|]. pose proof (H x ltac:(left)).
  assert (total f l ≤ total g l + c * length l)%nat by (apply IH; intros y Hy; apply H; by right). lia.
Qed.

Lemma countb_length {A} (p : A → bool) (l : list A) : (countb p l ≤ length l)%nat.
Proof. induction l as [|x l IH]; simpl; [lia|]. destruct (p x); simpl; lia. Qed.

Lemma countb_all {A} (p : A → bool) (l : list A) :
  countb p l = length l ↔ ∀ i x, l !! i = Some x → p x = true.
Proof.
  induction l as [|z l IH]; simpl; [done|]. pose proof (countb_length p l). split.
  - intros H' [|i] x Hi; simpl in Hi; simplify_eq; [by destruct (p x); simpl in *; [|lia]|].
    apply (proj1 IH) with i; [|done]. destruct (p z); simpl in *; lia.
  - intros Hall. rewrite (Hall 0%nat z eq_refl). simpl. f_equal. apply IH. intros i x. apply (Hall (S i)).
Qed.

(** ** Strings *)

Lemma append_nil_r (s : string) : s +:+ "" = s.
Proof. induction s as [|c s IH]; [done|]. exact (f_equal (String.String c) IH). Qed.

Lemma append_assoc (s1 s2 s3 : string) : (s1 +:+ s2) +:+ s3 = s1 +:+ (s2 +:+ s3).
Proof. induction s1 as [|c s1 IH]; [done|]. exact (f_equal (String.String c) IH). Qed.
