(* ===== verification/Ring.v ===== *)
(** * Ring indices

    The circular buffers of circularQueue/ and the ring of
    amazon/emergingDevices store a queue in an array, the k-th oldest element
    in slot (tail + k) mod capacity.  [ring_rep] states this layout and the
    lemmas say what writing a slot and advancing an index do to the queue;
    every ring of the development is verified with them. *)

From stdpp Require Import base list numbers.
From Stdlib Require Import ZArith Lia.
From S2P Require Import Prelude.

Section ring.
Context {A : Type}.
Implicit Types (buf vs : list A) (x v : A) (t : Z).

Definition slot (n t : Z) (k : nat) : nat := Z.to_nat ((t + Z.of_nat k) mod n).

Definition ring_rep buf t vs : Prop :=
  ∀ k v, vs !! k = Some v → buf !! slot (Z.of_nat (length buf)) t k = Some v.

Lemma slot_lt n t k : 0 < n → (slot n t k < Z.to_nat n)%nat.
Proof. intros Hn. unfold slot. pose proof (Z.mod_pos_bound (t + Z.of_nat k) n). lia. Qed.

Lemma slot_inj n t j k :
  (j < Z.to_nat n)%nat → (k < Z.to_nat n)%nat → slot n t j = slot n t k → j = k.
Proof.
  unfold slot. intros Hj Hk H.
  assert (0 < n) by lia.
  pose proof (Z.mod_pos_bound (t + Z.of_nat j) n).
  pose proof (Z.mod_pos_bound (t + Z.of_nat k) n).
  assert ((t + Z.of_nat j) mod n = (t + Z.of_nat k) mod n) as E by lia.
  pose proof (Z.div_mod (t + Z.of_nat j) n ltac:(lia)) as Ej.
  pose proof (Z.div_mod (t + Z.of_nat k) n ltac:(lia)) as Ek.
  rewrite E in Ej. set (qj := (t + Z.of_nat j) / n) in *.
  set (qk := (t + Z.of_nat k) / n) in *.
  assert (Z.of_nat j - Z.of_nat k = n * (qj - qk)) by lia.
  assert (qj - qk = 0) by nia. nia.
Qed.

Lemma slot_0 n t : 0 ≤ t < n → slot n t 0 = Z.to_nat t.
Proof. intros H. unfold slot. rewrite Z.mod_small; f_equal; lia. Qed.

Lemma slot_S n t k : 0 < n → slot n ((t + 1) mod n) k = slot n t (S k).
Proof.
  intros Hn. unfold slot. rewrite Z.add_mod_idemp_l by lia. do 2 f_equal. lia.
Qed.

Lemma ring_rep_nil buf t : ring_rep buf t [].
Proof. intros k v H. by rewrite lookup_nil in H. Qed.

(** Writing the slot after the newest element enqueues. *)
Lemma ring_rep_push buf t vs x :
  (length vs < length buf)%nat → ring_rep buf t vs →
  ring_rep (<[slot (Z.of_nat (length buf)) t (length vs) := x]> buf) t (vs ++ [x]).
Proof.
  intros Hlen Hrep k v Hk. rewrite length_insert.
  apply lookup_snoc_Some in Hk as [[Hk Hlt]|[-> ->]].
  - rewrite list_lookup_insert_ne; [by apply Hrep|].
    intros E%slot_inj; lia.
  - apply list_lookup_insert_eq.
    pose proof (slot_lt (Z.of_nat (length buf)) t (length vs)). lia.
Qed.

(** Writing any other slot leaves the queue alone. *)
Lemma ring_rep_write buf t vs i x :
  (∀ k, (k < length vs)%nat → slot (Z.of_nat (length buf)) t k ≠ i) →
  ring_rep buf t vs → ring_rep (<[i := x]> buf) t vs.
Proof.
  intros Hi Hrep k v Hk. rewrite length_insert.
  rewrite list_lookup_insert_ne; [by apply Hrep|].
  apply lookup_lt_Some in Hk. intros E. by apply (Hi k).
Qed.

(** The oldest element is at [t]; advancing [t] dequeues it. *)
Lemma ring_rep_head buf t v vs :
  0 ≤ t < Z.of_nat (length buf) → ring_rep buf t (v :: vs) → buf !! Z.to_nat t = Some v.
Proof. intros Ht Hrep. rewrite <-(slot_0 (Z.of_nat (length buf))) by done. by apply Hrep. Qed.

Lemma ring_rep_tail buf t v vs :
  (0 < length buf)%nat → ring_rep buf t (v :: vs) →
  ring_rep buf ((t + 1) mod Z.of_nat (length buf)) vs.
Proof. intros Hn Hrep k w Hk. rewrite slot_S by lia. by apply Hrep. Qed.

(** Advancing the write index keeps it at the first free slot. *)
Lemma head_succ n t k :
  0 < n → ((t + Z.of_nat k) mod n + 1) mod n = (t + Z.of_nat (S k)) mod n.
Proof. intros Hn. rewrite Z.add_mod_idemp_l by lia. f_equal. lia. Qed.

Lemma head_after_pop n t k :
  0 < n → ((t + 1) mod n + Z.of_nat k) mod n = (t + Z.of_nat (S k)) mod n.
Proof. intros Hn. rewrite Z.add_mod_idemp_l by lia. f_equal. lia. Qed.

(** A slot of the queue is in use for exactly one position. *)
Lemma slot_other n t k : 0 ≤ t < n → (k < Z.to_nat n)%nat → k ≠ 0%nat → slot n t k ≠ Z.to_nat t.
Proof. intros Ht Hk Hne E. rewrite <-(slot_0 n t) in E by done. apply slot_inj in E; lia. Qed.

(** The write index meets the read index exactly when the ring is empty or full. *)
Lemma head_eq_tail n t k :
  0 ≤ t < n → (k ≤ Z.to_nat n)%nat →
  (t + Z.of_nat k) mod n = t ↔ k = 0%nat ∨ k = Z.to_nat n.
Proof.
  intros Ht Hk. split.
  - intros E. destruct (decide (k = Z.to_nat n)); [by right|left].
    apply (slot_inj n t k 0); [lia..|]. unfold slot. rewrite E.
    rewrite Z.mod_small; lia.
  - intros [->| ->]; [rewrite Z.mod_small; lia|].
    rewrite Z2Nat.id by lia. rewrite <-(Z.mul_1_l n) at 1.
    rewrite Z.mod_add, Z.mod_small; lia.
Qed.
End ring.
