(* ===== verification/CircularBuffer.v ===== *)
(** * circularQueue/circularBufferStatic.cpp

    The template class [CircularBuffer<T>]: a fixed-capacity FIFO queue in a
    vector, whose [push] and [pop] throw when the buffer is full or empty.
    [CircularBuffer] is the class, one definition per method.  The contract is
    the bounded queue of the section [spec], a capacity and a list; the
    refinement theorem compares every run of method calls, exceptions
    included.  The last part verifies the draining loop of [main] against an
    interface ([DrainableQueue]) which the class implements. *)

From stdpp Require Import base list numbers strings.
From Stdlib Require Import ZArith Lia.
From S2P Require Import Prelude Ring.

Section circular_buffer.
Context {T : Type}.
(** The value the vector's slots are initialised with, [T()]. *)
Context (T_default : T).

Record CircularBuffer := mkCircularBuffer {
  buffer_ : list T;
  capacity_ : Z;
  head_ : Z;
  tail_ : Z;
  size_ : Z;
}.

Definition new_CircularBuffer (capacity : Z) : CircularBuffer :=
  mkCircularBuffer (replicate (Z.to_nat capacity) T_default) capacity 0 0 0.

Definition empty (cb : CircularBuffer) : bool := size_ cb =? 0.
Definition full (cb : CircularBuffer) : bool := size_ cb =? capacity_ cb.
Definition size (cb : CircularBuffer) : Z := size_ cb.

Definition push (value : T) (cb : CircularBuffer) : outcome CircularBuffer :=
  if full cb then Err (Exn "Buffer is full") else
  b ← vset (buffer_ cb) (head_ cb) value;
  h ← umod (u64 (head_ cb + 1)) (capacity_ cb);
  Ret (mkCircularBuffer b (capacity_ cb) h (tail_ cb) (u64 (size_ cb + 1))).

Definition pop (cb : CircularBuffer) : outcome (T * CircularBuffer) :=
  if empty cb then Err (Exn "Buffer is empty") else
  value ← vget (buffer_ cb) (tail_ cb);
  t ← umod (u64 (tail_ cb + 1)) (capacity_ cb);
  Ret (value, mkCircularBuffer (buffer_ cb) (capacity_ cb) (head_ cb) t
                (u64 (size_ cb - 1))).

(** [cb] holds the queue [vs], oldest first. *)
Record cb_rep (cb : CircularBuffer) (vs : list T) : Prop := {
  rep_cap : capacity_ cb = Z.of_nat (length (buffer_ cb));
  rep_cap64 : capacity_ cb < 2 ^ 64;
  rep_size : size_ cb = Z.of_nat (length vs);
  rep_bound : (length vs ≤ length (buffer_ cb))%nat;
  rep_tail : 0 ≤ tail_ cb ∧ (capacity_ cb = 0 ∨ tail_ cb < capacity_ cb);
  rep_head : head_ cb = (tail_ cb + size_ cb) mod capacity_ cb;
  rep_ring : ring_rep (buffer_ cb) (tail_ cb) vs;
}.

Lemma new_CircularBuffer_rep capacity :
  0 ≤ capacity < 2 ^ 64 → cb_rep (new_CircularBuffer capacity) [].
Proof.
  intros Hc. split; simpl; autorewrite with lens; try lia.
  - destruct (Z.eq_dec capacity 0) as [->|]; [done|]. by rewrite Z.mod_0_l.
  - apply ring_rep_nil.
Qed.

Lemma full_rep cb vs : cb_rep cb vs → full cb = (Z.of_nat (length vs) =? capacity_ cb).
Proof. intros []. unfold full. by f_equal. Qed.
Lemma empty_rep cb vs : cb_rep cb vs → empty cb = (Z.of_nat (length vs) =? 0).
Proof. intros []. unfold empty. by f_equal. Qed.

Lemma push_rep cb vs x :
  cb_rep cb vs → Z.of_nat (length vs) ≠ capacity_ cb →
  ∃ cb', push x cb = Ret cb' ∧ cb_rep cb' (vs ++ [x]) ∧ capacity_ cb' = capacity_ cb.
Proof.
  intros R Hne. unfold push. rewrite (full_rep cb vs R), (proj2 (Z.eqb_neq _ _) Hne).
  destruct R as [Hc H64 Hs Hb Ht Hh Hr].
  assert (0 < capacity_ cb) by lia.
  pose proof (Z.mod_pos_bound (tail_ cb + size_ cb) (capacity_ cb)).
  rewrite vset_total by lia. simpl. rewrite umod_Ret by lia. simpl.
  eexists; split; [done|]. split; [|done].
  rewrite (u64_small (head_ cb + 1)), u64_small by lia.
  split; simpl; autorewrite with lens; simpl; try lia.
  - rewrite Hh, Hs, head_succ by lia. f_equal. lia.
  - replace (Z.to_nat (head_ cb)) with
      (slot (Z.of_nat (length (buffer_ cb))) (tail_ cb) (length vs)).
    + apply ring_rep_push; [lia|done].
    + unfold slot. by rewrite Hh, Hs, Hc.
Qed.

Lemma pop_rep cb v vs :
  cb_rep cb (v :: vs) →
  ∃ cb', pop cb = Ret (v, cb') ∧ cb_rep cb' vs ∧ capacity_ cb' = capacity_ cb.
Proof.
  intros R. unfold pop. rewrite (empty_rep cb (v :: vs) R).
  destruct R as [Hc H64 Hs Hb Ht Hh Hr]; simpl in *.
  assert (0 < capacity_ cb) by lia. assert (0 ≤ tail_ cb < capacity_ cb) by lia.
  rewrite (proj2 (vget_Ret _ _ v)); [|split; [lia|]].
  2: { apply ring_rep_head with vs; [lia|done]. }
  simpl. rewrite umod_Ret by lia. simpl.
  eexists; split; [done|]. split; [|done].
  rewrite (u64_small (tail_ cb + 1)), u64_small by lia.
  pose proof (Z.mod_pos_bound (tail_ cb + 1) (capacity_ cb)).
  split; simpl; try lia.
  - rewrite Hh, Hs, Z.add_mod_idemp_l by lia. f_equal. lia.
  - rewrite Hc. apply ring_rep_tail with v; [lia|done].
Qed.

(** ** The contract: a bounded queue *)

Inductive call := CPush (value : T) | CPop | CEmpty | CFull | CSize.
Inductive answer := AUnit | AVal (v : T) | ABool (b : bool) | ANum (n : Z) | AExn (f : fault).

(** One method call on the class; a throwing call leaves the object as it
    was before the call. *)
Definition exec (cb : CircularBuffer) (c : call) : answer * CircularBuffer :=
  match c with
  | CPush value => match push value cb with Ret cb' => (AUnit, cb') | Err f => (AExn f, cb) end
  | CPop => match pop cb with Ret (v, cb') => (AVal v, cb') | Err f => (AExn f, cb) end
  | CEmpty => (ABool (empty cb), cb)
  | CFull => (ABool (full cb), cb)
  | CSize => (ANum (size cb), cb)
  end.

Definition spec_exec (cap : Z) (vs : list T) (c : call) : answer * list T :=
  match c with
  | CPush value =>
      if Z.of_nat (length vs) =? cap then (AExn (Exn "Buffer is full"), vs)
      else (AUnit, vs ++ [value])
  | CPop => match vs with [] => (AExn (Exn "Buffer is empty"), []) | v :: vs' => (AVal v, vs') end
  | CEmpty => (ABool (Z.of_nat (length vs) =? 0), vs)
  | CFull => (ABool (Z.of_nat (length vs) =? cap), vs)
  | CSize => (ANum (Z.of_nat (length vs)), vs)
  end.

Fixpoint run {S} (f : S → call → answer * S) (s : S) (cs : list call) : list answer * S :=
  match cs with
  | [] => ([], s)
  | c :: cs => let '(a, s1) := f s c in let '(r, s2) := run f s1 cs in (a :: r, s2)
  end.

(** One call on the class and on the contract answer the same. *)
Lemma exec_refines cb vs c :
  cb_rep cb vs →
  (exec cb c).1 = (spec_exec (capacity_ cb) vs c).1 ∧
  cb_rep (exec cb c).2 (spec_exec (capacity_ cb) vs c).2 ∧
  capacity_ (exec cb c).2 = capacity_ cb.
Proof.
  intros R. destruct c; simpl.
  - destruct (Z.eqb_spec (Z.of_nat (length vs)) (capacity_ cb)) as [E|E].
    + unfold push. by rewrite (full_rep cb vs R), (proj2 (Z.eqb_eq _ _) E).
    + destruct (push_rep cb vs value R E) as (cb' & -> & ?). done.
  - destruct vs as [|v vs].
    + unfold pop. by rewrite (empty_rep cb [] R).
    + destruct (pop_rep cb v vs R) as (cb' & -> & ?). done.
  - by rewrite (empty_rep cb vs R).
  - by rewrite (full_rep cb vs R).
  - unfold size. by rewrite (rep_size cb vs R).
Qed.

Lemma run_refines cs : ∀ cb vs, cb_rep cb vs →
  (run exec cb cs).1 = (run (spec_exec (capacity_ cb)) vs cs).1 ∧
  cb_rep (run exec cb cs).2 (run (spec_exec (capacity_ cb)) vs cs).2.
Proof.
  induction cs as [|c cs IH]; intros cb vs R; simpl; [done|].
  destruct (exec_refines cb vs c R) as (Ha & R' & Hc).
  destruct (exec cb c) as [a cb'], (spec_exec _ vs c) as [a' vs']; simpl in *. subst a'.
  specialize (IH cb' vs' R'). rewrite Hc in IH.
  destruct (run exec cb' cs), (run _ vs' cs); simpl in *. by destruct IH as [-> ?].
Qed.

(** C34: every sequence of [push], [pop], [empty], [full] and [size] calls on
    a [CircularBuffer] of any capacity below 2^64 gives, call by call and
    exceptions included, the answers of a FIFO list that holds at most
    [capacity] elements, and the object represents that list at the end. *)
Theorem CircularBuffer_refines_bounded_fifo (capacity : Z) (cs : list call) :
  0 ≤ capacity < 2 ^ 64 →
  (run exec (new_CircularBuffer capacity) cs).1 = (run (spec_exec capacity) [] cs).1 ∧
  cb_rep (run exec (new_CircularBuffer capacity) cs).2 (run (spec_exec capacity) [] cs).2.
Proof. intros H. by apply (run_refines cs), new_CircularBuffer_rep. Qed.
End circular_buffer.

Arguments CircularBuffer T : clear implicits.
Arguments call T : clear implicits.
Arguments answer T : clear implicits.

Lemma CircularBuffer_refines_witness :
  (run exec (new_CircularBuffer 0 3)
     [CPush 1; CPush 2; CPush 3; CPush 9; CPop; CPush 4; CFull; CPop; CPop; CPop; CPop]).1 =
  [AUnit; AUnit; AUnit; AExn (Exn "Buffer is full"); AVal 1; AUnit; ABool true;
   AVal 2; AVal 3; AVal 4; AExn (Exn "Buffer is empty")].
Proof.
  etransitivity; [apply (CircularBuffer_refines_bounded_fifo 0 3); lia|reflexivity].
Defined.

(** ** Draining a queue

    [main] ends with [while (!cb.empty()) cout << cb.pop() << endl].  The loop
    needs only the following interface of the queue. *)

Class DrainableQueue (Q A : Type) := {
  dq_empty : Q → bool;
  dq_pop : Q → outcome (A * Q);
  dq_rep : Q → list A → Prop;
  dq_empty_spec q vs : dq_rep q vs → dq_empty q = match vs with [] => true | _ => false end;
  dq_pop_spec q v vs : dq_rep q (v :: vs) → ∃ q', dq_pop q = Ret (v, q') ∧ dq_rep q' vs;
}.

(** The loop, with the values it prints in order. *)
Fixpoint drain `{DrainableQueue Q A} (fuel : nat) (q : Q) : outcome (list A * Q) :=
  match fuel with
  | O => Err OutOfFuel
  | S fuel =>
      if dq_empty q then Ret ([], q)
      else '(v, q) ← dq_pop q; '(out, q) ← drain fuel q; Ret (v :: out, q)
  end.

Lemma drain_rep `{DrainableQueue Q A} fuel : ∀ (q : Q) (vs : list A),
  dq_rep q vs → (length vs < fuel)%nat → ∃ q', drain fuel q = Ret (vs, q') ∧ dq_rep q' [].
Proof.
  induction fuel as [|fuel IH]; intros q vs R Hf; [lia|]; simpl.
  rewrite (dq_empty_spec q vs R). destruct vs as [|v vs]; [eauto|].
  destruct (dq_pop_spec q v vs R) as (q1 & -> & R1); simpl in *.
  destruct (IH q1 vs R1 ltac:(lia)) as (q2 & -> & R2). simpl. eauto.
Qed.

#[export] Instance CircularBuffer_drainable {T} : DrainableQueue (CircularBuffer T) T.
Proof.
  refine {| dq_empty := empty; dq_pop := pop; dq_rep := cb_rep |}.
  - intros q vs R. rewrite (empty_rep q vs R). by destruct vs.
  - intros q v vs R. destruct (pop_rep q v vs R) as (q' & ? & ? & _). eauto.
Defined.

(** The draining loop of [main] terminates on every reachable
    [CircularBuffer], prints exactly the stored elements from oldest to newest
    and leaves the buffer empty; [length vs + 1] iterations are enough. *)
Theorem drain_CircularBuffer {T} (cb : CircularBuffer T) (vs : list T) :
  cb_rep cb vs →
  ∃ cb', drain (S (length vs)) cb = Ret (vs, cb') ∧ cb_rep cb' [] ∧ empty cb' = true.
Proof.
  intros R. destruct (drain_rep (H:=CircularBuffer_drainable) (S (length vs)) cb vs R) as (cb' & E & R'); [lia|].
  exists cb'. split; [done|]. split; [exact R'|]. by rewrite (empty_rep cb' [] R').
Qed.

Lemma drain_CircularBuffer_witness :
  ∃ cb', drain 3 (run exec (new_CircularBuffer 0 3) [CPush 7; CPop; CPush 8; CPush 9]).2
         = Ret ([8; 9], cb') ∧ cb_rep cb' [] ∧ empty cb' = true.
Proof.
  apply (drain_CircularBuffer _ [8; 9]).
  exact (proj2 (run_refines [CPush 7; CPop; CPush 8; CPush 9] _ []
    (new_CircularBuffer_rep 0 3 ltac:(lia)))).
Defined.
