(* ===== verification/Fragmentation.v ===== *)
(** * arista/interview1/packetFragmentation.cpp

    [Fragmenter::fragment] cuts a message into packets of a 12-byte header and
    at most 8 payload bytes; [Reassembler] collects packets per message id,
    prints the message when the last one arrives and discards incomplete
    messages after a timeout.  Bytes are integers in [0 .. 256); the header is
    the little-endian image that [memcpy] of the struct gives (4 + 2 + 2 + 4
    bytes, no padding).  [Clock::now()] is an argument, in nanoseconds; what
    the code prints is returned as a list of [event]s. *)

From stdpp Require Import base list gmap numbers fin_maps sets.
From Stdlib Require Import ZArith Lia.
From S2P Require Import Prelude.

Abbreviation bytes := (list Z).

Definition MAX_PAYLOAD : nat := 8.

Record FragmentHeader := mkFragmentHeader {
  message_id : Z;
  fragment_id : Z;
  hdr_total_fragments : Z;
  payload_size : Z;
}.

Record ReassemblyBuffer := mkReassemblyBuffer {
  total_fragments : Z;
  fragments : list bytes;
  received : list bool;
  received_count : Z;
  first_receive_time : Z;
}.

(** ** The header's byte image *)

Fixpoint le_bytes (n : nat) (z : Z) : bytes :=
  match n with O => [] | S n => z mod 256 :: le_bytes n (z / 256) end.
Fixpoint le_value (bs : bytes) : Z :=
  match bs with [] => 0 | b :: bs => b + 256 * le_value bs end.

Definition sizeof_hdr : nat := 12.

Definition encode_header (h : FragmentHeader) : bytes :=
  le_bytes 4 (message_id h) ++ le_bytes 2 (fragment_id h) ++
  le_bytes 2 (hdr_total_fragments h) ++ le_bytes 4 (payload_size h).

(** [memcpy(&hdr, packet.data(), sizeof(hdr))]. *)
Definition decode_header (packet : bytes) : outcome FragmentHeader :=
  check (bool_decide (sizeof_hdr ≤ length packet)%nat) OutOfBounds ≫= λ _,
  Ret (mkFragmentHeader
    (le_value (take 4 packet)) (le_value (take 2 (drop 4 packet)))
    (le_value (take 2 (drop 6 packet))) (le_value (take 4 (drop 8 packet)))).

(** ** Fragmenter *)

Definition total_of (message : bytes) : nat :=
  ((length message + MAX_PAYLOAD - 1) / MAX_PAYLOAD)%nat.

Definition fragment_at (message : bytes) (id : Z) (i : nat) : bytes :=
  let offset := (i * MAX_PAYLOAD)%nat in
  let len := Nat.min MAX_PAYLOAD (length message - offset) in
  let hdr := mkFragmentHeader id (u16 (Z.of_nat i)) (u16 (Z.of_nat (total_of message)))
               (u32 (Z.of_nat len)) in
  encode_header hdr ++ take len (drop offset message).

Definition fragment (message : bytes) (id : Z) : list bytes :=
  fragment_at message id <$> seq 0 (total_of message).

(** ** Reassembler *)

Inductive event :=
  | Received (fragment_id : Z)
  | Reassembled (message : bytes)
  | Discarded (message_id : Z).

Record Reassembler := mkReassembler {
  reassembly_map_ : gmap Z ReassemblyBuffer;
  timeout_seconds_ : Z;
}.

Definition set_map (r : Reassembler) (mp : gmap Z ReassemblyBuffer) : Reassembler :=
  mkReassembler mp (timeout_seconds_ r).

(** [operator[]] of the map default-constructs a missing buffer. *)
Definition buffer_at (r : Reassembler) (id : Z) : ReassemblyBuffer :=
  default (mkReassemblyBuffer 0 [] [] 0 0) (reassembly_map_ r !! id).

(** [full.insert(full.end(), fragments[i].begin(), fragments[i].end())] for
    the given indices in order. *)
Fixpoint collect (fs : list bytes) (ks : list nat) : outcome bytes :=
  match ks with
  | [] => Ret []
  | i :: ks => f ← vget fs (Z.of_nat i); rest ← collect fs ks; Ret (f ++ rest)
  end.

Definition assemble (id : Z) (r : Reassembler) : outcome (list event * Reassembler) :=
  let buffer := buffer_at r id in
  full ← collect (fragments buffer) (seq 0 (Z.to_nat (total_fragments buffer)));
  Ret ([Reassembled full], set_map r (delete id (reassembly_map_ r))).

(** The buffer a packet of [hdr] is stored in, initialised on first use. *)
Definition open_buffer (now : Z) (hdr : FragmentHeader) (buffer : ReassemblyBuffer)
    : ReassemblyBuffer :=
  match fragments buffer with
  | [] =>
      mkReassemblyBuffer (hdr_total_fragments hdr)
        (vresize [] (Z.to_nat (hdr_total_fragments hdr)) [])
        (vresize (received buffer) (Z.to_nat (hdr_total_fragments hdr)) false)
        0 now
  | _ => buffer
  end.

Definition processFragment (now : Z) (packet : bytes) (r : Reassembler)
    : outcome (list event * Reassembler) :=
  hdr ← decode_header packet;
  let buffer := open_buffer now hdr (buffer_at r (message_id hdr)) in
  seen ← vget (received buffer) (fragment_id hdr);
  '(ev, buffer) ←
    (if negb seen then
       fs ← vset (fragments buffer) (fragment_id hdr) (drop sizeof_hdr packet);
       rs ← vset (received buffer) (fragment_id hdr) true;
       Ret ([Received (fragment_id hdr)],
            mkReassemblyBuffer (total_fragments buffer) fs rs
              (u64 (received_count buffer + 1)) (first_receive_time buffer))
     else Ret ([], buffer));
  let r := set_map r (<[message_id hdr := buffer]> (reassembly_map_ r)) in
  if received_count buffer =? total_fragments buffer then
    '(ev', r) ← assemble (message_id hdr) r; Ret (ev ++ ev', r)
  else Ret (ev, r).

(** [duration_cast<seconds>(now - t).count()]. *)
Definition elapsed_seconds (now t : Z) : Z := Z.quot (now - t) (10 ^ 9).

Definition expired (r : Reassembler) (now : Z) (b : ReassemblyBuffer) : bool :=
  timeout_seconds_ r <? elapsed_seconds now (first_receive_time b).

Definition cleanupExpired (now : Z) (r : Reassembler) : list event * Reassembler :=
  (Discarded <$>
     (map_to_list (filter (λ kv, expired r now kv.2 = true) (reassembly_map_ r))).*1,
   set_map r (filter (λ kv, expired r now kv.2 = false) (reassembly_map_ r))).

(** Packets handed to [processFragment] one after the other. *)
Fixpoint processAll (ps : list (Z * bytes)) (r : Reassembler)
    : outcome (list event * Reassembler) :=
  match ps with
  | [] => Ret ([], r)
  | (now, p) :: ps =>
      '(ev, r) ← processFragment now p r;
      '(ev', r) ← processAll ps r; Ret (ev ++ ev', r)
  end.

Arguments open_buffer : simpl never.
Arguments fragment_at : simpl never.
Arguments decode_header : simpl never.

(** ** Header round trip *)

Lemma length_le_bytes n z : length (le_bytes n z) = n.
Proof. revert z. induction n; intros z; simpl; auto. Qed.

Lemma le_value_bytes n : ∀ z, 0 ≤ z < 256 ^ Z.of_nat n → le_value (le_bytes n z) = z.
Proof.
  induction n as [|n IH]; intros z Hz; [simpl in *; lia|].
  rewrite Nat2Z.inj_succ, Z.pow_succ_r in Hz by lia.
  cbn [le_bytes le_value]. rewrite IH.
  - pose proof (Z.div_mod z 256). lia.
  - split; [apply Z.div_pos; lia|]. apply Z.div_lt_upper_bound; lia.
Qed.

(** The field values fit the struct's field types. *)
Definition header_ok (h : FragmentHeader) : Prop :=
  0 ≤ message_id h < 2 ^ 32 ∧ 0 ≤ fragment_id h < 2 ^ 16 ∧
  0 ≤ hdr_total_fragments h < 2 ^ 16 ∧ 0 ≤ payload_size h < 2 ^ 32.

Lemma decode_encode_header h rest :
  header_ok h → decode_header (encode_header h ++ rest) = Ret h.
Proof.
  intros (H1 & H2 & H3 & H4). unfold decode_header, encode_header, sizeof_hdr.
  rewrite bool_decide_eq_true_2; simpl check; [|autorewrite with lens; rewrite !length_le_bytes; lia].
  simpl mbind. do 2 f_equal. destruct h as [a b c d]; simpl in *. f_equal.
  - exact (le_value_bytes 4 a H1).
  - exact (le_value_bytes 2 b H2).
  - exact (le_value_bytes 2 c H3).
  - exact (le_value_bytes 4 d H4).
Qed.

(** ** Payloads *)

Definition payload (message : bytes) (i : nat) : bytes :=
  take MAX_PAYLOAD (drop (i * MAX_PAYLOAD) message).

Arguments payload : simpl never.

Lemma take_min_length {A} n (l : list A) : take (n `min` length l) l = take n l.
Proof.
  destruct (decide (n ≤ length l)%nat); [by rewrite Nat.min_l|].
  rewrite Nat.min_r, !take_ge by lia. done.
Qed.

Lemma drop_fragment_at message id i :
  drop sizeof_hdr (fragment_at message id i) = payload message i.
Proof.
  unfold fragment_at, payload. rewrite <-length_drop, take_min_length.
  rewrite drop_app_length'; [done|].
  unfold encode_header. autorewrite with lens. by rewrite !length_le_bytes.
Qed.

Lemma concat_payloads message n :
  concat (payload message <$> seq 0 n) = take (n * MAX_PAYLOAD) message.
Proof.
  induction n as [|n IH]; [done|].
  rewrite seq_S, fmap_app, concat_app, IH. simpl. unfold payload at 1.
  rewrite app_nil_r, take_take_drop. f_equal. unfold MAX_PAYLOAD. lia.
Qed.

Lemma total_of_bounds message :
  (length message ≤ total_of message * MAX_PAYLOAD < length message + MAX_PAYLOAD)%nat.
Proof.
  unfold total_of, MAX_PAYLOAD.
  pose proof (Nat.div_mod_eq (length message + 8 - 1) 8).
  pose proof (Nat.mod_upper_bound (length message + 8 - 1) 8). lia.
Qed.

Lemma concat_all_payloads message :
  concat (payload message <$> seq 0 (total_of message)) = message.
Proof. rewrite concat_payloads. apply take_ge. pose proof (total_of_bounds message). lia. Qed.

Lemma collect_all (f : nat → bytes) fs ks :
  (∀ i, i ∈ ks → fs !! i = Some (f i)) → collect fs ks = Ret (concat (f <$> ks)).
Proof.
  induction ks as [|i ks IH]; intros H; [done|]; simpl.
  rewrite (proj2 (vget_Ret _ _ (f i))); [|split; [lia|rewrite Nat2Z.id; apply H; left]].
  simpl. rewrite IH; [done|]. intros j Hj. apply H. by right.
Qed.

(** ** Collecting one message

    The state of the buffer of one message is the set [S] of the fragment
    numbers that have arrived. *)

Section one_message.
Context (message : bytes) (id : Z).
Context (Hid : 0 ≤ id < 2 ^ 32) (Hlen : 1 ≤ Z.of_nat (length message) ≤ 65535 * 8).
Implicit Types (S : gset nat) (r : Reassembler) (ks : list (Z * nat)).

Local Abbreviation total := (total_of message).
Definition all_ids : gset nat := set_seq 0 total.

Lemma total_range : 1 ≤ Z.of_nat total ≤ 65535.
Proof. pose proof (total_of_bounds message). unfold MAX_PAYLOAD in *. lia. Qed.

Lemma decode_fragment_at i :
  (i < total)%nat →
  ∃ sz, decode_header (fragment_at message id i) =
        Ret (mkFragmentHeader id (Z.of_nat i) (Z.of_nat total) sz).
Proof.
  intros Hi. pose proof total_range. unfold fragment_at.
  rewrite !u16_small by lia. eexists.
  apply decode_encode_header. split; [done|]. simpl.
  split; [lia|]. split; [lia|]. apply u32_range.
Qed.

Record buf_rep (t0 : Z) (b : ReassemblyBuffer) (S : gset nat) : Prop := {
  br_total : total_fragments b = Z.of_nat total;
  br_frags : length (fragments b) = total;
  br_recv : length (received b) = total;
  br_frag i : (i < total)%nat →
    fragments b !! i = Some (if decide (i ∈ S) then payload message i else []);
  br_seen i : (i < total)%nat → received b !! i = Some (bool_decide (i ∈ S));
  br_count : received_count b = Z.of_nat (base.size S);
  br_sub : S ⊆ all_ids;
  br_time : first_receive_time b = t0;
}.

(** [r] has received exactly the fragments [S], the first at time [t0]. *)
Definition holds (t0 : Z) r S : Prop :=
  match reassembly_map_ r !! id with
  | None => S = ∅
  | Some b => buf_rep t0 b S ∧ S ≠ all_ids
  end.

Lemma size_all_ids : base.size all_ids = total.
Proof. apply size_set_seq. Qed.

Lemma elem_of_all_ids i : i ∈ all_ids ↔ (i < total)%nat.
Proof. unfold all_ids. rewrite elem_of_set_seq. lia. Qed.

Lemma full_iff_size S : S ⊆ all_ids → base.size S = total ↔ S = all_ids.
Proof.
  intros Hs. rewrite <-size_all_ids. split; [|by intros ->].
  intros E. apply set_subseteq_size_eq; [done|lia].
Qed.

(** The buffer a fragment goes to holds what has arrived so far. *)
Lemma open_buffer_rep now t0 r S i sz :
  holds t0 r S →
  (reassembly_map_ r !! id = None → now = t0) →
  buf_rep t0 (open_buffer now (mkFragmentHeader id i (Z.of_nat total) sz) (buffer_at r id)) S.
Proof.
  pose proof total_range. unfold holds, buffer_at. destruct (_ !! id) as [b|]; simpl.
  - intros [R _] _. unfold open_buffer. destruct (fragments b) eqn:E; [|done].
    pose proof (br_frags _ _ _ R) as L. rewrite E in L. simpl in L. lia.
  - intros -> Hn. unfold open_buffer. simpl. rewrite !vresize_nil, Nat2Z.id.
    split; simpl; autorewrite with lens; auto.
    + intros k Hk. rewrite lookup_replicate_2 by done. by rewrite decide_False by set_solver.
    + intros k Hk. rewrite lookup_replicate_2 by done. by rewrite bool_decide_eq_false_2 by set_solver.
    + set_solver.
Qed.

Lemma store_rep t0 b S i fs rs :
  buf_rep t0 b S → (i < total)%nat → i ∉ S →
  fs = <[i := payload message i]> (fragments b) → rs = <[i := true]> (received b) →
  buf_rep t0 (mkReassemblyBuffer (total_fragments b) fs rs (u64 (received_count b + 1))
                (first_receive_time b)) ({[i]} ∪ S).
Proof.
  pose proof total_range. intros R Hi Hni -> ->. destruct R as [Ht Hf Hr Hfr Hse Hc Hs Ht0].
  assert (base.size S ≤ total)%nat.
  { rewrite <-size_all_ids. by apply subseteq_size. }
  split; simpl; autorewrite with lens; auto.
  - intros k Hk. destruct (decide (k = i)) as [->|Hne].
    + rewrite list_lookup_insert_eq by lia. rewrite decide_True by set_solver. done.
    + rewrite list_lookup_insert_ne, Hfr by done. do 2 f_equal. apply decide_ext. set_solver.
  - intros k Hk. destruct (decide (k = i)) as [->|Hne].
    + rewrite list_lookup_insert_eq by lia. rewrite bool_decide_eq_true_2 by set_solver. done.
    + rewrite list_lookup_insert_ne, Hse by done. f_equal. apply bool_decide_ext. set_solver.
  - rewrite size_union, size_singleton by set_solver. rewrite u64_small by lia. lia.
  - apply union_subseteq. split; [|done]. apply singleton_subseteq_l, elem_of_all_ids. done.
Qed.

(** [assemble] prints the message once everything has arrived. *)
Lemma assemble_full t0 r b :
  reassembly_map_ r !! id = Some b → buf_rep t0 b all_ids →
  assemble id r = Ret ([Reassembled message], set_map r (delete id (reassembly_map_ r))).
Proof.
  intros Hb R. unfold assemble, buffer_at. rewrite Hb. simpl.
  rewrite (br_total _ _ _ R), Nat2Z.id.
  rewrite (collect_all (payload message)); simpl; [by rewrite concat_all_payloads|].
  intros i Hi%elem_of_seq. rewrite (br_frag _ _ _ R) by lia.
  rewrite decide_True; [done|]. apply elem_of_all_ids. lia.
Qed.

Lemma set_map_id r : set_map r (reassembly_map_ r) = r.
Proof. by destruct r. Qed.

(** A fragment that has not arrived yet is stored; the last one completes the
    message. *)
Lemma process_new now t0 r S i :
  holds t0 r S → (reassembly_map_ r !! id = None → now = t0) → (i < total)%nat → i ∉ S →
  ∃ b, buf_rep t0 b ({[i]} ∪ S) ∧
    processFragment now (fragment_at message id i) r =
    if decide ({[i]} ∪ S = all_ids)
    then Ret ([Received (Z.of_nat i); Reassembled message],
              set_map r (delete id (reassembly_map_ r)))
    else Ret ([Received (Z.of_nat i)], set_map r (<[id := b]> (reassembly_map_ r))).
Proof.
  intros Hh Hnow Hi Hni. destruct (decode_fragment_at i Hi) as [sz Hd].
  pose proof (open_buffer_rep now t0 r S (Z.of_nat i) sz Hh Hnow) as R.
  unfold processFragment. rewrite drop_fragment_at, Hd. simpl.
  set (b0 := open_buffer _ _ _) in *.
  rewrite (proj2 (vget_Ret _ _ false)); simpl.
  2: { split; [lia|]. rewrite Nat2Z.id, (br_seen _ _ _ R) by done.
       by rewrite bool_decide_eq_false_2. }
  rewrite (vset_total (fragments b0)) by (rewrite (br_frags _ _ _ R); lia). simpl.
  rewrite (vset_total (received b0)) by (rewrite (br_recv _ _ _ R); lia). simpl.
  rewrite Nat2Z.id.
  pose proof (store_rep t0 b0 S i _ _ R Hi Hni eq_refl eq_refl) as R'.
  set (b := mkReassemblyBuffer _ _ _ _ _) in *. exists b. split; [done|].
  change (u64 (received_count b0 + 1)) with (received_count b).
  change (total_fragments b0) with (total_fragments b).
  rewrite (br_count _ _ _ R'), (br_total _ _ _ R').
  pose proof (full_iff_size _ (br_sub _ _ _ R')) as Hfull.
  destruct (decide _) as [E|E].
  - rewrite (proj2 (Z.eqb_eq _ _)) by (rewrite (proj2 Hfull E); done).
    rewrite (assemble_full t0 _ b); simpl; [|apply lookup_insert_eq|by rewrite <-E].
    do 2 f_equal. unfold set_map. simpl. by rewrite delete_insert_eq.
  - rewrite (proj2 (Z.eqb_neq _ _)); [done|]. intros E'. apply E, Hfull. lia.
Qed.

(** A duplicate is ignored. *)
Lemma process_dup now t0 r S i :
  holds t0 r S → (i < total)%nat → i ∈ S →
  processFragment now (fragment_at message id i) r = Ret ([], r).
Proof.
  intros Hh Hi Hin. destruct (decode_fragment_at i Hi) as [sz Hd].
  pose proof total_range. unfold holds in Hh.
  unfold processFragment. rewrite drop_fragment_at, Hd. simpl. unfold buffer_at.
  destruct (reassembly_map_ r !! id) as [b|] eqn:Hb; [|set_solver]. simpl.
  destruct Hh as [R Hnf].
  assert (∀ h, open_buffer now h b = b) as ->.
  { intros h. unfold open_buffer. pose proof (br_frags _ _ _ R) as L.
    destruct (fragments b); [simpl in L; lia|done]. }
  rewrite (proj2 (vget_Ret _ _ true)); simpl.
  2: { split; [lia|]. rewrite Nat2Z.id, (br_seen _ _ _ R) by done.
       by rewrite bool_decide_eq_true_2. }
  rewrite insert_id, set_map_id by done.
  rewrite (br_count _ _ _ R), (br_total _ _ _ R), (proj2 (Z.eqb_neq _ _)); [done|].
  intros E. apply Hnf, (full_iff_size _ (br_sub _ _ _ R)). lia.
Qed.

Definition packets ks : list (Z * bytes) := (λ '(t, i), (t, fragment_at message id i)) <$> ks.
Definition ids ks : gset nat := list_to_set ks.*2.
Definition is_received (e : event) : Prop := ∃ i, e = Received i.

(** While something is missing, fragments are collected in any order and with
    any repetitions, and nothing else of the state changes. *)
Lemma collect_some t0 ks : ∀ r S,
  holds t0 r S → Forall (λ k, k < total)%nat ks.*2 → ids ks ∪ S ≠ all_ids →
  (reassembly_map_ r !! id = None → from_option fst t0 (head ks) = t0) →
  ∃ ev r', processAll (packets ks) r = Ret (ev, r') ∧ Forall is_received ev ∧
    holds t0 r' (ids ks ∪ S) ∧ timeout_seconds_ r' = timeout_seconds_ r ∧
    delete id (reassembly_map_ r') = delete id (reassembly_map_ r).
Proof.
  induction ks as [|[now i] ks IH]; intros r S Hh Hk Hne Ht0.
  { exists [], r. unfold ids. simpl. rewrite (left_id_L ∅ (∪)). auto. }
  apply Forall_cons_1 in Hk as [Hi Hk]. simpl in Hi, Ht0.
  replace (ids ((now, i) :: ks) ∪ S) with (ids ks ∪ ({[i]} ∪ S)) in *
    by (unfold ids; simpl; set_solver).
  cbn [packets fmap list_fmap processAll].
  destruct (decide (i ∈ S)) as [Hin|Hni].
  - rewrite (process_dup now t0 r S i) by done. simpl.
    replace ({[i]} ∪ S) with S in * by set_solver.
    destruct (IH r S) as (ev & r' & E & ?); auto.
    { intros Hn. unfold holds in Hh. rewrite Hn in Hh. set_solver. }
    fold (packets ks). rewrite E. simpl. eauto.
  - destruct (process_new now t0 r S i) as (b & R & E); auto.
    assert ({[i]} ∪ S ≠ all_ids) as Hne'.
    { intros E'. apply Hne. rewrite E'. apply set_eq. intros x.
      rewrite elem_of_union. split; [|auto]. intros [Hx|Hx]; [|done].
      unfold ids in Hx. apply elem_of_list_to_set in Hx.
      apply elem_of_all_ids. rewrite Forall_forall in Hk. by apply Hk. }
    rewrite decide_False in E by done. rewrite E. simpl.
    destruct (IH (set_map r (<[id:=b]> (reassembly_map_ r))) ({[i]} ∪ S))
      as (ev & r' & E2 & Hev & Hh' & Hto & Hd); auto.
    { unfold holds. simpl. by rewrite lookup_insert_eq. }
    { simpl. by rewrite lookup_insert_eq. }
    fold (packets ks). rewrite E2. simpl. do 2 eexists. split; [done|].
    split; [apply Forall_cons; split; [by eexists|done]|]. split; [done|]. split; [done|].
    rewrite Hd. simpl. by rewrite delete_insert_eq.
Qed.
End one_message.

(** ** The properties *)

Lemma processAll_app ps qs r ev r1 ev' r2 :
  processAll ps r = Ret (ev, r1) → processAll qs r1 = Ret (ev', r2) →
  processAll (ps ++ qs) r = Ret (ev ++ ev', r2).
Proof.
  revert r ev. induction ps as [|[now p] ps IH]; intros r ev; simpl.
  - by intros [= <- <-] ->.
  - destruct (processFragment now p r) as [[e1 r']|]; simpl; [|done].
    destruct (processAll ps r') as [[e2 r'']|] eqn:E; simpl; [|done].
    intros [= <- <-] Hq. rewrite (IH _ _ E Hq). simpl. by rewrite app_assoc.
Qed.

Lemma holds_fresh message id t0 r :
  reassembly_map_ r !! id = None → holds message id t0 r ∅.
Proof. intros H. unfold holds. by rewrite H. Qed.

(** The packet that completes the set delivers the message and restores the
    state from before the first packet. *)
Lemma complete_message message id r ks t j :
  0 ≤ id < 2 ^ 32 → 1 ≤ Z.of_nat (length message) ≤ 65535 * 8 →
  reassembly_map_ r !! id = None →
  Forall (λ k, k < total_of message)%nat (ks.*2 ++ [j]) → j ∉ ids ks →
  {[j]} ∪ ids ks = all_ids message →
  ∃ ev, processAll (packets message id (ks ++ [(t, j)])) r =
        Ret (ev ++ [Received (Z.of_nat j); Reassembled message], r) ∧ Forall is_received ev.
Proof.
  intros Hid Hlen Hn [Hk Hj]%Forall_app Hnj Hall. rewrite Forall_singleton in Hj.
  set (t0 := from_option fst t (head ks)).
  destruct (collect_some message id Hid Hlen t0 ks r ∅) as (ev & r' & E & Hev & Hh & Hto & Hd).
  - by apply holds_fresh.
  - done.
  - rewrite (right_id_L ∅ (∪)). intros E. rewrite E in Hnj.
    by apply Hnj, elem_of_all_ids.
  - intros _. unfold t0. by destruct ks.
  - rewrite (right_id_L ∅ (∪)) in Hh.
    destruct (process_new message id Hid Hlen t t0 r' (ids ks) j) as (b & _ & E2); auto.
    { intros Hn'. unfold holds in Hh. rewrite Hn' in Hh. unfold t0.
      destruct ks as [|[? ?] ?]; [done|]. unfold ids in Hh. simpl in Hh. set_solver. }
    rewrite decide_True in E2 by done.
    exists ev. split; [|done]. unfold packets. rewrite fmap_app.
    eapply processAll_app; [exact E|]. simpl. rewrite E2. simpl.
    assert (set_map r' (delete id (reassembly_map_ r')) = r) as ->; [|done].
    rewrite Hd, delete_id by done. unfold set_map. rewrite Hto. by destruct r.
Qed.

Lemma packets_zip message id ps l :
  ps.*2 = fragment_at message id <$> l →
  packets message id (zip ps.*1 l) = ps ∧ (zip ps.*1 l).*2 = l.
Proof.
  revert l. induction ps as [|[t p] ps IH]; intros [|i l] H; simpl in *; try done.
  injection H as -> H. destruct (IH l H) as [E1 E2]. split; f_equal; done.
Qed.

(** Whatever the order in which the packets of a message of 1 to 524280
    bytes are delivered and whenever they arrive, the reassembler accepts them
    all, prints the original message when the last one arrives and only then,
    and ends in the state it started from. *)
Theorem reassembly_any_order message id r ps :
  0 ≤ id < 2 ^ 32 → 1 ≤ Z.of_nat (length message) ≤ 65535 * 8 →
  reassembly_map_ r !! id = None → ps.*2 ≡ₚ fragment message id →
  ∃ ev, processAll ps r = Ret (ev ++ [Reassembled message], r) ∧ Forall is_received ev.
Proof.
  intros Hid Hlen Hn Hp. pose proof (total_range message Hlen) as Ht.
  apply Permutation_map_inv in Hp as (l & El & Hp).
  destruct (packets_zip message id ps l El) as [Eps Ezip].
  assert (NoDup l) as Hnd by (rewrite <-Hp; apply NoDup_seq).
  assert (∀ i, i ∈ l ↔ (i < total_of message)%nat) as Hmem.
  { intros i. rewrite <-Hp, elem_of_seq. lia. }
  destruct (exists_last_or_nil (zip ps.*1 l)) as [Ez|(ks & [t j] & Ez)].
  { rewrite Ez in Ezip. subst l. apply Permutation_length in Hp.
    rewrite length_seq in Hp. simpl in Hp. lia. }
  rewrite Ez, fmap_app in Ezip. rewrite Ez in Eps. simpl in Ezip. subst l.
  apply NoDup_app in Hnd as (_ & Hdisj & _).
  destruct (complete_message message id r ks t j) as (ev & E & Hev); auto.
  - apply Forall_forall. intros i Hi. by apply Hmem.
  - unfold ids. rewrite elem_of_list_to_set. intros Hj. apply (Hdisj j Hj). by left.
  - apply set_eq. intros i. unfold ids.
    rewrite elem_of_all_ids, <-Hmem, elem_of_app, elem_of_union, elem_of_list_to_set. set_solver.
  - exists (ev ++ [Received (Z.of_nat j)]). rewrite <-Eps, E. split.
    + by rewrite <-app_assoc.
    + apply Forall_app. split; [done|]. apply Forall_singleton. by eexists.
Qed.

Definition demo_message : bytes := Z.of_nat <$> seq 65 20.
Definition demo_reassembler : Reassembler := mkReassembler ∅ 3.

Lemma reassembly_any_order_witness :
  ∃ ev, processAll (zip [50; 60; 70] (rev (fragment demo_message 7))) demo_reassembler =
        Ret (ev ++ [Reassembled demo_message], demo_reassembler) ∧ Forall is_received ev.
Proof.
  apply (reassembly_any_order demo_message 7); [lia|vm_compute; intuition discriminate|done|].
  change ((zip [50; 60; 70] (rev (fragment demo_message 7))).*2)
    with (rev (fragment demo_message 7)).
  symmetry. apply Permutation_rev.
Defined.

(** What [cleanupExpired] does to one entry. *)
Lemma cleanupExpired_lookup now r id :
  reassembly_map_ (cleanupExpired now r).2 !! id =
  match reassembly_map_ r !! id with
  | Some b => if expired r now b then None else Some b
  | None => None
  end.
Proof.
  simpl. rewrite map_lookup_filter. destruct (_ !! id) as [b|]; simpl; [|done].
  case_guard as H; simpl; by destruct (expired r now b).
Qed.

Lemma cleanupExpired_discards now r id b :
  reassembly_map_ r !! id = Some b → expired r now b = true →
  Discarded id ∈ (cleanupExpired now r).1.
Proof.
  intros Hb He. simpl. apply list_elem_of_fmap. exists id. split; [done|].
  apply list_elem_of_fmap. exists (id, b). split; [done|].
  apply elem_of_map_to_list, map_lookup_filter_Some. done.
Qed.

Lemma fragment_indices message id ps :
  Forall (λ p, p ∈ fragment message id) ps →
  ∃ l, ps = fragment_at message id <$> l ∧ Forall (λ k, k < total_of message)%nat l.
Proof.
  induction 1 as [|p ps Hp _ (l & -> & Hl)]; [by exists []|].
  apply list_elem_of_fmap in Hp as (i & -> & Hi%elem_of_seq).
  exists (i :: l). split; [done|]. constructor; [lia|done].
Qed.

Lemma holds_nonempty message id t0 r S :
  holds message id t0 r S → S ≠ ∅ →
  ∃ b, reassembly_map_ r !! id = Some b ∧ buf_rep message t0 b S.
Proof. unfold holds. destruct (_ !! id) as [b|]; [intros [? _]; eauto|done]. Qed.

(** C30: while at least one packet of a message is lost, every other packet may
    arrive in any order and any number of times: nothing is printed but
    received fragments, the entries of other messages are untouched, and the
    partial message is discarded by exactly those [cleanupExpired] calls that
    happen more than [timeout_seconds_] whole seconds after its first packet. *)
Theorem lost_fragment_discarded message id r t p0 ps lost :
  0 ≤ id < 2 ^ 32 → 1 ≤ Z.of_nat (length message) ≤ 65535 * 8 →
  reassembly_map_ r !! id = None →
  Forall (λ p, p ∈ fragment message id) (p0 :: ps.*2) →
  lost ∈ fragment message id → lost ∉ p0 :: ps.*2 →
  ∃ ev r', processAll ((t, p0) :: ps) r = Ret (ev, r') ∧ Forall is_received ev ∧
    delete id (reassembly_map_ r') = reassembly_map_ r ∧
    ∀ now,
      (timeout_seconds_ r < elapsed_seconds now t →
         Discarded id ∈ (cleanupExpired now r').1 ∧
         reassembly_map_ (cleanupExpired now r').2 !! id = None) ∧
      (elapsed_seconds now t ≤ timeout_seconds_ r →
         is_Some (reassembly_map_ (cleanupExpired now r').2 !! id)).
Proof.
  intros Hid Hlen Hn Hps Hl Hnl.
  assert (∃ l, ((t, p0) :: ps).*2 = fragment_at message id <$> l ∧
               Forall (λ k, k < total_of message)%nat l) as (l & El & Hl').
  { apply (fragment_indices message id (p0 :: ps.*2) Hps). }
  destruct (packets_zip message id ((t, p0) :: ps) l El) as [Eps Ezip].
  set (ks := zip ((t, p0) :: ps).*1 l) in *.
  apply list_elem_of_fmap in Hl as (x & -> & Hx%elem_of_seq).
  destruct (collect_some message id Hid Hlen t ks r ∅)
    as (ev & r' & E & Hev & Hh & Hto & Hd).
  - by apply holds_fresh.
  - by rewrite Ezip.
  - rewrite (right_id_L ∅ (∪)). intros Eall.
    assert (x ∈ ids ks) as Hin by (rewrite Eall; apply elem_of_all_ids; lia).
    unfold ids in Hin. rewrite Ezip, elem_of_list_to_set in Hin. apply Hnl.
    change (p0 :: ps.*2) with (((t, p0) :: ps).*2). rewrite El.
    apply list_elem_of_fmap. eauto.
  - intros _. unfold ks. by destruct l.
  - exists ev, r'. rewrite <-Eps. split; [done|]. split; [done|].
    rewrite (right_id_L ∅ (∪)) in Hh. split; [by rewrite Hd, delete_id|].
    destruct (holds_nonempty message id t r' (ids ks)) as (b & Hb & R); [done| |].
    { unfold ids. rewrite Ezip. destruct l; [done|]. simpl. set_solver. }
    assert (∀ now, expired r' now b = (timeout_seconds_ r <? elapsed_seconds now t)) as Hex.
    { intros now. unfold expired. by rewrite Hto, (br_time _ _ _ _ R). }
    intros now. rewrite cleanupExpired_lookup, Hb, Hex. split; intros Hnow.
    + split; [|by rewrite (proj2 (Z.ltb_lt _ _) Hnow)].
      apply (cleanupExpired_discards now r' id b Hb). rewrite Hex. by apply Z.ltb_lt.
    + rewrite (proj2 (Z.ltb_ge _ _) Hnow). by eexists.
Qed.

Lemma lost_fragment_discarded_witness :
  ∃ p0 p1 p2 ev r', fragment demo_message 7 = [p0; p1; p2] ∧
    processAll [(0, p2); (5, p2); (9, p0)] demo_reassembler = Ret (ev, r') ∧
    Forall is_received ev ∧
    reassembly_map_ (cleanupExpired (4 * 10 ^ 9) r').2 !! 7 = None ∧
    is_Some (reassembly_map_ (cleanupExpired (3 * 10 ^ 9) r').2 !! 7).
Proof.
  do 3 eexists.
  destruct (lost_fragment_discarded demo_message 7 demo_reassembler 0
    (fragment_at demo_message 7 2)
    [(5, fragment_at demo_message 7 2); (9, fragment_at demo_message 7 0)]
    (fragment_at demo_message 7 1)) as (ev & r' & E & Hev & _ & Hnow).
  - lia.
  - vm_compute. intuition discriminate.
  - done.
  - repeat constructor; apply (bool_decide_unpack _); vm_compute; exact I.
  - apply (bool_decide_unpack _). vm_compute. exact I.
  - apply (bool_decide_unpack _). vm_compute. exact I.
  - exists ev, r'. split; [reflexivity|]. split; [exact E|]. split; [exact Hev|].
    split; [apply (Hnow (4 * 10 ^ 9)); vm_compute; reflexivity|].
    apply (Hnow (3 * 10 ^ 9)). vm_compute. discriminate.
Defined.

(** The fragment counter of the header is 16 bits wide and [fragment] does
    not check it: a message of more than 524280 and at most 524288 bytes is cut
    into 65536 packets that all announce zero fragments, and delivering any of
    them indexes an empty vector. *)
Theorem oversize_message_faults message id r now p :
  0 ≤ id < 2 ^ 32 → 65535 * 8 < Z.of_nat (length message) ≤ 65536 * 8 →
  reassembly_map_ r !! id = None → p ∈ fragment message id →
  processFragment now p r = Err OutOfBounds.
Proof.
  intros Hid Hlen Hn Hp. apply list_elem_of_fmap in Hp as (i & -> & Hi%elem_of_seq).
  pose proof (total_of_bounds message) as Ht. unfold MAX_PAYLOAD in Ht.
  assert (Z.of_nat (total_of message) = 65536) as Et by lia.
  unfold processFragment. rewrite drop_fragment_at. unfold fragment_at. rewrite Et.
  change (u16 65536) with 0. rewrite u16_small by lia.
  rewrite decode_encode_header; [|split; [done|]; simpl; pose proof (u32_range 0); split; [lia|]; split; [lia|apply u32_range]].
  simpl. unfold buffer_at. rewrite Hn. simpl. unfold open_buffer. simpl.
  unfold vget, in_range, vresize. simpl. by rewrite andb_false_intro2 by (apply Z.ltb_ge; lia).
Qed.

Lemma oversize_message_faults_witness :
  processFragment 0 (fragment_at (replicate (Z.to_nat 524288) 0) 1 0) demo_reassembler
  = Err OutOfBounds.
Proof.
  apply (oversize_message_faults (replicate (Z.to_nat 524288) 0) 1).
  - lia.
  - rewrite length_replicate. lia.
  - done.
  - apply list_elem_of_fmap. exists 0%nat. split; [done|]. apply elem_of_seq.
    pose proof (total_of_bounds (replicate (Z.to_nat 524288) 0)) as H.
    rewrite length_replicate in H. unfold MAX_PAYLOAD in H. lia.
Defined.

(** ** Streams of packets and clean-ups

    The reassembler against an abstract one that knows nothing of headers, vectors
    and counters: per message it keeps the time of the first packet and the set of
    fragment numbers that have arrived.  The stream may hold the packets of any
    number of messages, mixed, in any order, lost or repeated, with calls of
    [cleanupExpired] anywhere in between. *)

Module Streams.
(** Fragment [i] of message [id] arrives, or the expired messages are discarded. *)
Inductive action := Packet (now id : Z) (i : nat) | Cleanup (now : Z).

Section stream.
(** [body id] is the message that is sent with the number [id]. *)
Context (body : Z → bytes) (timeout : Z).

(** *** What the code does *)

Definition perform (a : action) (r : Reassembler) : outcome (list event * Reassembler) :=
  match a with
  | Packet now id i => p ← of_option OutOfBounds (fragment (body id) id !! i); processFragment now p r
  | Cleanup now => Ret (cleanupExpired now r)
  end.

(** The events of every action. *)
Fixpoint perform_all (as_ : list action) (r : Reassembler) : outcome (list (list event) * Reassembler) :=
  match as_ with
  | [] => Ret ([], r)
  | a :: as_ => '(ev, r) ← perform a r; '(evs, r) ← perform_all as_ r; Ret (ev :: evs, r)
  end.

(** *** What it should do *)

(** The messages of which something, but not everything, has arrived: when the
    first packet came, and which fragments are there. *)
Abbreviation partial := (gmap Z (Z * gset nat)).

Definition too_old (now : Z) (kv : Z * (Z * gset nat)) : Prop := timeout < elapsed_seconds now kv.2.1.

#[local] Instance too_old_dec now kv : Decision (too_old now kv).
Proof. unfold too_old. apply _. Defined.

Definition spec (a : action) (m : partial) : list event * partial :=
  match a with
  | Packet now id i =>
      let '(t0, X) := default (now, ∅) (m !! id) in
      let ev := if decide (i ∈ X) then [] else [Received (Z.of_nat i)] in
      if decide ({[i]} ∪ X = all_ids (body id)) then (ev ++ [Reassembled (body id)], delete id m)
      else (ev, <[id := (t0, {[i]} ∪ X)]> m)
  | Cleanup now =>
      (Discarded <$> (map_to_list (filter (too_old now) m)).*1, filter (λ kv, ¬ too_old now kv) m)
  end.

Fixpoint spec_all (as_ : list action) (m : partial) : list (list event) * partial :=
  match as_ with
  | [] => ([], m)
  | a :: as_ => let '(ev, m) := spec a m in let '(evs, m) := spec_all as_ m in (ev :: evs, m)
  end.

(** A packet of a message that the 16-bit counters of the header can describe. *)
Definition valid (a : action) : Prop :=
  match a with
  | Packet _ id i => 0 ≤ id < 2 ^ 32 ∧ 1 ≤ Z.of_nat (length (body id)) ≤ 65535 * 8 ∧ (i < total_of (body id))%nat
  | Cleanup _ => True
  end.

(** *** The simulation *)

Definition entry_rep (id : Z) (b : option ReassemblyBuffer) (e : option (Z * gset nat)) : Prop :=
  match b, e with
  | None, None => True
  | Some b, Some (t0, X) => buf_rep (body id) t0 b X ∧ X ≠ all_ids (body id) ∧ X ≠ ∅
  | _, _ => False
  end.

Record rep (r : Reassembler) (m : partial) : Prop := {
  rep_timeout : timeout_seconds_ r = timeout;
  rep_entry id : entry_rep id (reassembly_map_ r !! id) (m !! id);
}.

Lemma rep_holds r m id now : rep r m → let '(t0, X) := default (now, ∅) (m !! id) in
  holds (body id) id t0 r X ∧ (reassembly_map_ r !! id = None → now = t0).
Proof.
  intros [_ He]. specialize (He id). unfold holds. destruct (reassembly_map_ r !! id) as [b|], (m !! id) as [[t0 X]|]; simpl in *; try done.
  destruct He as (Hb & Hn & _). done.
Qed.

Lemma rep_update r m id b e mp : rep r m → entry_rep id b e →
  mp !! id = b → (∀ j, j ≠ id → mp !! j = reassembly_map_ r !! j) →
  rep (set_map r mp) (partial_alter (λ _, e) id m).
Proof.
  intros [Ht He] Hb Hi Hj. split; [done|]. intros j. simpl. destruct (decide (j = id)) as [->|Hne].
  - by rewrite Hi, lookup_partial_alter_eq.
  - by rewrite (Hj j Hne), lookup_partial_alter_ne by done.
Qed.

Lemma fragment_lookup message id i : (i < total_of message)%nat → fragment message id !! i = Some (fragment_at message id i).
Proof. intros Hi. unfold fragment. rewrite list_lookup_fmap, lookup_seq_lt by done. done. Qed.

Lemma packet_simulated now id i r m : rep r m → valid (Packet now id i) →
  ∃ r', perform (Packet now id i) r = Ret ((spec (Packet now id i) m).1, r') ∧ rep r' (spec (Packet now id i) m).2.
Proof.
  intros Hr (Hid & Hlen & Hi). pose proof (rep_holds r m id now Hr) as Hh. cbn [perform spec].
  rewrite fragment_lookup by done. cbn [of_option]. rewrite bind_Ret.
  destruct (default (now, ∅) (m !! id)) as [t0 X] eqn:Em. destruct Hh as [Hh Hnow].
  destruct (decide (i ∈ X)) as [Hin|Hni].
  - rewrite (process_dup (body id) id Hid Hlen now t0 r X i Hh Hi Hin). exists r.
    assert ({[i]} ∪ X = X) as -> by set_solver. unfold holds in Hh.
    destruct (m !! id) as [[t1 X1]|] eqn:Ek; simpl in Em; injection Em as <- <-; [|set_solver].
    pose proof (rep_entry _ _ Hr id) as He. rewrite Ek in He. destruct (reassembly_map_ r !! id) as [b|]; [|done].
    destruct He as (_ & Hne & _). rewrite decide_False by done. split; [done|]. by rewrite insert_id.
  - destruct (process_new (body id) id Hid Hlen now t0 r X i Hh Hnow Hi Hni) as (b & Hb & ->).
    destruct (decide ({[i]} ∪ X = all_ids (body id))) as [Hall|Hall]; (eexists; split; [done|]).
    + apply (rep_update r m id None None); [done|done|apply lookup_delete_eq|]. intros j Hj. by rewrite lookup_delete_ne.
    + apply (rep_update r m id (Some b) (Some (t0, {[i]} ∪ X))); [done| |apply lookup_insert_eq|].
      * split; [done|]. split; [done|set_solver].
      * intros j Hj. by rewrite lookup_insert_ne.
Qed.

Lemma expired_too_old r m id b t0 X now : rep r m → reassembly_map_ r !! id = Some b → m !! id = Some (t0, X) →
  expired r now b = true ↔ too_old now (id, (t0, X)).
Proof.
  intros [Ht He] Hb Hm. specialize (He id). rewrite Hb, Hm in He. destruct He as [Hbr _].
  unfold expired, too_old. simpl. rewrite Ht, (br_time _ _ _ _ Hbr). apply Z.ltb_lt.
Qed.

Lemma cleanup_simulated now r m : rep r m →
  (cleanupExpired now r).1 ≡ₚ (spec (Cleanup now) m).1 ∧ rep (cleanupExpired now r).2 (spec (Cleanup now) m).2.
Proof.
  intros Hr. split.
  - apply fmap_Permutation, NoDup_Permutation; [apply NoDup_fst_map_to_list..|]. intros id.
    rewrite !list_elem_of_fmap. pose proof (rep_entry _ _ Hr id) as He. split.
    + intros ([? b] & -> & [Hb Hx]%elem_of_map_to_list%map_lookup_filter_Some). simpl in *. rewrite Hb in He.
      destruct (m !! _) as [[t0 X]|] eqn:Em; [|done]. eexists (_, (t0, X)). split; [done|].
      apply elem_of_map_to_list, map_lookup_filter_Some. split; [done|]. by eapply expired_too_old.
    + intros ([? [t0 X]] & -> & [Em Hx]%elem_of_map_to_list%map_lookup_filter_Some). simpl in *. rewrite Em in He.
      destruct (reassembly_map_ r !! _) as [b|] eqn:Hb; [|done]. eexists (_, b). split; [done|].
      apply elem_of_map_to_list, map_lookup_filter_Some. split; [done|]. by eapply expired_too_old.
  - split; [apply (rep_timeout _ _ Hr)|]. intros id. rewrite cleanupExpired_lookup. simpl.
    pose proof (rep_entry _ _ Hr id) as He. rewrite map_lookup_filter.
    destruct (reassembly_map_ r !! id) as [b|] eqn:Hb, (m !! id) as [[t0 X]|] eqn:Em; simpl in *; try done.
    pose proof (expired_too_old r m id b t0 X now Hr Hb Em) as Hx.
    destruct (expired r now b); case_guard as Hg; simpl; try done.
    + by apply Hg, Hx.
    + by apply Hx in Hg.
Qed.

Lemma perform_simulated a r m : rep r m → valid a →
  ∃ ev r', perform a r = Ret (ev, r') ∧ ev ≡ₚ (spec a m).1 ∧ rep r' (spec a m).2.
Proof.
  intros Hr Hv. destruct a as [now id i|now].
  - destruct (packet_simulated now id i r m Hr Hv) as (r' & E & Hr'). by exists (spec (Packet now id i) m).1, r'.
  - destruct (cleanup_simulated now r m Hr) as [He Hr']. do 2 eexists. split; [|split; [exact He|exact Hr']].
    cbn [perform]. by destruct (cleanupExpired now r).
Qed.
End stream.

(** C4: whatever packets arrive: those of any number of messages of 1 to 524280
    bytes, mixed, in any order, some of them never and some of them many times,
    with calls of [cleanupExpired] at any time in between.  The reassembler never
    faults and does, action by action, what the abstract one does: it reports a
    fragment exactly when it is new for its message; it prints a message, byte
    for byte, exactly when the last missing fragment arrives, and forgets it; it
    discards exactly the incomplete messages whose first packet is more than
    [timeout] whole seconds old. *)
Theorem reassembler_refines_sets body timeout as_ :
  Forall (valid body) as_ →
  ∃ evs r', perform_all body as_ (mkReassembler ∅ timeout) = Ret (evs, r') ∧
    Forall2 (≡ₚ) evs (spec_all body timeout as_ ∅).1 ∧
    rep body timeout r' (spec_all body timeout as_ ∅).2.
Proof.
  intros Hv. assert (rep body timeout (mkReassembler ∅ timeout) ∅) as Hr by (split; [done|intros id; by rewrite !lookup_empty]).
  revert Hr. generalize (mkReassembler ∅ timeout), (∅ : gmap Z (Z * gset nat)).
  induction Hv as [|a as_ Ha _ IH]; intros r m Hr; cbn [perform_all spec_all]; [do 2 eexists; split; [done|]; split; [constructor|done]|].
  destruct (perform_simulated body timeout a r m Hr Ha) as (ev & r1 & E & Hev & Hr1). rewrite E, bind_Ret.
  destruct (spec body timeout a m) as [ev' m1]. simpl in *. destruct (IH r1 m1 Hr1) as (evs & r2 & -> & Hevs & Hr2).
  destruct (spec_all body timeout as_ m1) as [evs' m2]. rewrite bind_Ret. simpl in *.
  do 2 eexists. split; [done|]. split; [by constructor|done].
Qed.

(** Two messages mixed; the first arrives backwards, with a repeated packet and a
    clean-up in between, the second loses a packet and is discarded. *)
Definition demo_stream : list action :=
  [Packet 0 7 2; Packet 1 8 1; Packet 2 7 2; Cleanup (10 ^ 9); Packet 3 7 1; Packet 4 7 0; Cleanup (5 * 10 ^ 9)].

Lemma reassembler_refines_sets_witness :
  ∃ evs r', perform_all (λ _, demo_message) demo_stream demo_reassembler = Ret (evs, r') ∧
    Forall2 (≡ₚ) evs
      [[Received 2]; [Received 1]; []; []; [Received 1]; [Received 0; Reassembled demo_message]; [Discarded 8]].
Proof.
  destruct (reassembler_refines_sets (λ _, demo_message) 3 demo_stream) as (evs & r' & E & He & _).
  - repeat constructor; vm_compute; discriminate.
  - exists evs, r'. split; [exact E|]. vm_compute in He |- *. exact He.
Defined.
End Streams.
