(* ===== verification/Blocks.v ===== *)
(** * Block lists of the memory pools

    The four pools of memorypool/ carve one buffer into consecutive blocks, a
    header of [H] bytes followed by [size] payload bytes.  A pool's abstract
    state is the list of its blocks, (payload size, is free); the k-th block
    starts where the previous one ends.  This file holds the first-fit
    allocation and the coalescing of that abstract state and what they
    preserve; the files of the implementations prove that their pointer code
    performs these operations. *)

From stdpp Require Import base list numbers sorting.
From Stdlib Require Import ZArith Lia.
From S2P Require Import Prelude.

Abbreviation blocks := (list (Z * bool)).

Section blocks.
Context (H : Z) (H_pos : 0 < H).
Implicit Types (bs l r : blocks) (a s sz p : Z) (f : bool).

(** Bytes occupied by the blocks, headers included. *)
Fixpoint span bs : Z :=
  match bs with [] => 0 | (s, _) :: bs => H + s + span bs end.

Definition sizes_ok bs : Prop := Forall (λ b, 0 ≤ b.1) bs.

(** Payload addresses and sizes of the allocated blocks, the first block being
    at address [a]. *)
Fixpoint allocs a bs : list (Z * Z) :=
  match bs with
  | [] => []
  | (s, f) :: bs => (if f then [] else [(a + H, s)]) ++ allocs (a + H + s) bs
  end.

(** First fit: the block is split when more than [slack] bytes would remain
    behind a new header. *)
Definition take_block (slack : Z) s sz r : blocks :=
  if sz + H + slack <? s then (sz, false) :: (s - sz - H, true) :: r else (s, false) :: r.

Fixpoint first_fit (slack : Z) a bs sz : option (Z * blocks) :=
  match bs with
  | [] => None
  | (s, f) :: bs =>
      if f && (sz <=? s) then Some (a + H, take_block slack s sz bs)
      else '(p, bs') ← first_fit slack (a + H + s) bs sz; Some (p, (s, f) :: bs')
  end.

(** Merging a freed block of size [s] with free neighbours. *)
Definition merge_next s r : blocks :=
  match r with (ns, true) :: r => (s + (H + ns), true) :: r | _ => (s, true) :: r end.

Definition merge_prev l r : blocks :=
  match rev l, r with
  | (ps, true) :: l', (s, _) :: r' => rev l' ++ (ps + (H + s), true) :: r'
  | _, _ => l ++ r
  end.

Definition free_merge l s r : blocks := merge_prev l (merge_next s r).

(** No two adjacent blocks are both free. *)
Fixpoint coalesced bs : bool :=
  match bs with
  | (_, f1) :: ((_, f2) :: _) as bs' => negb (f1 && f2) && coalesced bs'
  | _ => true
  end.

Lemma span_app l r : span (l ++ r) = span l + span r.
Proof. induction l as [|[s f] l IH]; simpl; lia. Qed.

Lemma span_nonneg bs : sizes_ok bs → 0 ≤ span bs.
Proof. induction 1 as [|[s f] bs]; simpl in *; lia. Qed.

Lemma sizes_ok_app l r : sizes_ok (l ++ r) ↔ sizes_ok l ∧ sizes_ok r.
Proof. apply Forall_app. Qed.

Lemma sizes_ok_cons s f bs : sizes_ok ((s, f) :: bs) ↔ 0 ≤ s ∧ sizes_ok bs.
Proof. unfold sizes_ok. by rewrite Forall_cons. Qed.

Lemma allocs_app a l r : allocs a (l ++ r) = allocs a l ++ allocs (a + span l) r.
Proof.
  revert a. induction l as [|[s f] l IH]; intros a; simpl.
  - by rewrite Z.add_0_r.
  - rewrite IH, app_assoc. do 2 f_equal. lia.
Qed.

(** ** What allocation does *)

(** The allocated block is a free block that was large enough; the other
    blocks keep their places. *)
Lemma first_fit_Some slack a bs sz p bs' :
  first_fit slack a bs sz = Some (p, bs') →
  ∃ l s r, bs = l ++ (s, true) :: r ∧ sz ≤ s ∧ bs' = l ++ take_block slack s sz r ∧
           p = a + span l + H.
Proof.
  revert a p bs'. induction bs as [|[s f] bs IH]; intros a p bs' E; simpl in E; [done|].
  destruct (f && (sz <=? s)) eqn:Ef.
  - apply andb_true_iff in Ef as [-> Hle%Z.leb_le]. injection E as <- <-.
    exists [], s, bs. simpl. repeat split; try done; lia.
  - destruct (first_fit slack _ bs sz) as [[q bs1]|] eqn:E1; simpl in E; [|done].
    injection E as <- <-. apply IH in E1 as (l & s' & r & -> & Hle & -> & ->).
    exists ((s, f) :: l), s', r. simpl. repeat split; try done; lia.
Qed.

(** Allocation fails only when no free block is large enough. *)
Lemma first_fit_None slack a bs sz :
  first_fit slack a bs sz = None ↔ ∀ s, (s, true) ∈ bs → s < sz.
Proof.
  revert a. induction bs as [|[s f] bs IH]; intros a; simpl.
  { split; [|done]. intros _ s Hs. by apply not_elem_of_nil in Hs. }
  destruct (f && (sz <=? s)) eqn:Ef.
  - apply andb_true_iff in Ef as [-> Hle%Z.leb_le]. split; [done|].
    intros Hall. specialize (Hall s ltac:(left)). lia.
  - specialize (IH (a + H + s)). destruct (first_fit slack _ bs sz) as [[q bs1]|]; simpl.
    + split; [done|]. intros Hall. enough (Some (q, bs1) = None) by done.
      apply IH. intros s' Hs'. apply Hall. by right.
    + split; [|done]. intros _ s' [[= <- <-]|Hs']%elem_of_cons.
      * simpl in Ef. by apply Z.leb_gt in Ef.
      * by apply IH.
Qed.

Lemma take_block_span slack s sz r : span (take_block slack s sz r) = H + s + span r.
Proof. unfold take_block. destruct (_ <? _); simpl; lia. Qed.

Lemma take_block_sizes slack s sz r :
  0 ≤ slack → 0 ≤ sz ≤ s → sizes_ok r → sizes_ok (take_block slack s sz r).
Proof.
  intros Hs Hsz Hr. unfold take_block. destruct (Z.ltb_spec (sz + H + slack) s);
    repeat (apply sizes_ok_cons; split); simpl; try done; lia.
Qed.

Lemma take_block_allocs slack s sz r a :
  sz ≤ s →
  ∃ s', sz ≤ s' ∧ allocs a (take_block slack s sz r) = (a + H, s') :: allocs (a + H + s) r.
Proof.
  intros Hle. unfold take_block. destruct (_ <? _); simpl.
  - exists sz. split; [lia|]. do 2 f_equal. lia.
  - exists s. by split.
Qed.

Lemma coalesced_app l s f r :
  coalesced (l ++ (s, f) :: r) = coalesced (l ++ [(s, f)]) && coalesced ((s, f) :: r).
Proof.
  induction l as [|[s1 f1] l IH]; simpl.
  - by destruct r as [|[? ?] ?].
  - destruct l as [|[s2 f2] l]; simpl in *.
    + by rewrite andb_true_r.
    + by rewrite IH, andb_assoc.
Qed.

Lemma coalesced_last l s s' f : coalesced (l ++ [(s, f)]) = coalesced (l ++ [(s', f)]).
Proof.
  induction l as [|[s1 f1] l IH]; simpl; [done|].
  destruct l as [|[s2 f2] l]; simpl in *; [done|]. by rewrite IH.
Qed.

Lemma coalesced_last_used l s : coalesced (l ++ [(s, false)]) = coalesced l.
Proof.
  induction l as [|[s1 f1] l IH]; simpl; [done|].
  destruct l as [|[s2 f2] l]; simpl in *; [by destruct f1|]. by rewrite IH.
Qed.

Lemma coalesced_used s r : coalesced ((s, false) :: r) = coalesced r.
Proof. by destruct r as [|[? ?] ?]. Qed.

Lemma coalesced_same_flag s s' f r : coalesced ((s, f) :: r) = coalesced ((s', f) :: r).
Proof. by destruct r as [|[? ?] ?]. Qed.

Lemma take_block_coalesced slack l s sz r :
  coalesced (l ++ (s, true) :: r) = true → coalesced (l ++ take_block slack s sz r) = true.
Proof.
  rewrite coalesced_app. intros [Hl Hr]%andb_true_iff.
  assert (coalesced (l ++ [(s, false)]) = true) as Hl'.
  { rewrite coalesced_last_used. revert Hl. clear.
    induction l as [|[s1 f1] l IH]; [done|]. destruct l as [|[s2 f2] l]; [done|].
    simpl in *. intros [-> ?]%andb_true_iff. by rewrite IH. }
  unfold take_block. destruct (_ <? _); rewrite coalesced_app.
  - by rewrite (coalesced_last l sz s), Hl', coalesced_used, (coalesced_same_flag _ s), Hr.
  - rewrite Hl', coalesced_used. destruct r as [|[s1 f1] r]; [done|].
    simpl in Hr. by apply andb_true_iff in Hr as [_ ?].
Qed.

(** ** What freeing does *)

Lemma free_merge_snoc l ps pf s r :
  free_merge (l ++ [(ps, pf)]) s r =
  if pf then match merge_next s r with
             | (s', _) :: r' => l ++ (ps + (H + s'), true) :: r' | [] => [] end
  else (l ++ [(ps, false)]) ++ merge_next s r.
Proof.
  unfold free_merge, merge_prev. rewrite rev_unit. destruct pf.
  - unfold merge_next. rewrite rev_involutive. by destruct r as [|[? []] ?].
  - done.
Qed.

Lemma free_merge_nil s r : free_merge [] s r = merge_next s r.
Proof. done. Qed.

Lemma merge_next_shape s r :
  ∃ s' r', merge_next s r = (s', true) :: r' ∧ H + s' + span r' = H + s + span r ∧
    (0 ≤ s → sizes_ok r → 0 ≤ s' ∧ sizes_ok r') ∧
    (∀ a, allocs (a + H + s') r' = allocs (a + H + s) r) ∧
    (coalesced r = true → coalesced ((s', true) :: r') = true).
Proof.
  destruct r as [|[ns [|]] r]; simpl.
  - exists s, []. auto.
  - exists (s + (H + ns)), r. split; [done|]. split; [lia|]. split.
    { intros ? [? ?]%sizes_ok_cons. simpl in *. split; [lia|done]. }
    split; [|done]. intros a. f_equal. lia.
  - exists s, ((ns, false) :: r). split; [done|]. split; [simpl; lia|]. auto.
Qed.

Lemma merge_prev_shape l s' r' :
  ∃ l1 s1, merge_prev l ((s', true) :: r') = l1 ++ (s1, true) :: r' ∧
    span l1 + s1 = span l + s' ∧
    (sizes_ok l → 0 ≤ s' → sizes_ok l1 ∧ 0 ≤ s1) ∧
    (∀ a, allocs a l1 = allocs a l) ∧
    (coalesced l = true → coalesced (l1 ++ [(s1, true)]) = true).
Proof.
  destruct (exists_last_or_nil l) as [->|(l0 & [ps pf] & ->)].
  { exists [], s'. repeat split; done. }
  unfold merge_prev. rewrite rev_unit. destruct pf.
  - exists l0, (ps + (H + s')). rewrite rev_involutive. split; [done|].
    rewrite span_app. simpl. split; [lia|]. split.
    { intros [? [? _]%sizes_ok_cons]%sizes_ok_app ?. simpl in *. split; [done|lia]. }
    split; [|by rewrite (coalesced_last l0 (ps + (H + s')) ps)].
    intros a. by rewrite allocs_app, app_nil_r.
  - exists (l0 ++ [(ps, false)]), s'. split; [done|]. split; [done|]. split; [auto|].
    split; [done|]. intros Hc. rewrite <-app_assoc. simpl. by rewrite coalesced_app, Hc.
Qed.

(** Freeing keeps the blocks tiling the pool, removes exactly one allocated
    block, and restores the absence of adjacent free blocks. *)
Lemma free_merge_spec l s r :
  ∃ l1 s1 r1, free_merge l s r = l1 ++ (s1, true) :: r1 ∧
    span (free_merge l s r) = span (l ++ (s, false) :: r) ∧
    (sizes_ok (l ++ (s, false) :: r) → sizes_ok (free_merge l s r)) ∧
    (∀ a, allocs a (free_merge l s r) = allocs a l ++ allocs (a + span l + H + s) r) ∧
    (coalesced (l ++ (s, false) :: r) = true → coalesced (free_merge l s r) = true).
Proof.
  unfold free_merge. destruct (merge_next_shape s r) as (s' & r' & -> & Hsp & Hsz & Hal & Hco).
  destruct (merge_prev_shape l s' r') as (l1 & s1 & -> & Hsp1 & Hsz1 & Hal1 & Hco1).
  exists l1, s1, r'. split; [done|]. split; [rewrite !span_app; simpl; lia|]. split.
  { intros [Hl [Hs Hr]%sizes_ok_cons]%sizes_ok_app.
    destruct (Hsz Hs Hr) as [? ?]. destruct (Hsz1 Hl ltac:(done)) as [? ?].
    apply sizes_ok_app. split; [done|]. by apply sizes_ok_cons. }
  split.
  { intros a. rewrite allocs_app, Hal1. simpl. f_equal. rewrite <-Hal. f_equal. lia. }
  rewrite coalesced_app, coalesced_last_used, coalesced_used.
  intros [Hl Hr]%andb_true_iff. rewrite coalesced_app, (Hco1 Hl).
  rewrite (coalesced_same_flag s1 s'). by apply Hco.
Qed.

(** ** Allocated regions *)

Lemma allocs_lower a bs p s : sizes_ok bs → (p, s) ∈ allocs a bs → a + H ≤ p.
Proof.
  revert a. induction bs as [|[s1 f] bs IH]; intros a Hok Hin; simpl in *.
  { by apply not_elem_of_nil in Hin. }
  apply sizes_ok_cons in Hok as [? Hok]. apply elem_of_app in Hin as [Hin|Hin].
  - destruct f; [by apply not_elem_of_nil in Hin|].
    apply list_elem_of_singleton in Hin as [= -> ->]. lia.
  - apply IH in Hin; [lia|done].
Qed.

Lemma allocs_upper a bs p s : sizes_ok bs → (p, s) ∈ allocs a bs → p + s ≤ a + span bs.
Proof.
  revert a. induction bs as [|[s1 f] bs IH]; intros a Hok Hin; simpl in *.
  { by apply not_elem_of_nil in Hin. }
  apply sizes_ok_cons in Hok as [? Hok]. pose proof (span_nonneg bs Hok).
  apply elem_of_app in Hin as [Hin|Hin].
  - destruct f; [by apply not_elem_of_nil in Hin|].
    apply list_elem_of_singleton in Hin as [= -> ->]. lia.
  - apply IH in Hin; [lia|done].
Qed.

Definition apart (x y : Z * Z) : Prop := x.1 + x.2 + H ≤ y.1.

Lemma allocs_sorted a bs : sizes_ok bs → StronglySorted apart (allocs a bs).
Proof.
  revert a. induction bs as [|[s f] bs IH]; intros a Hok; simpl; [constructor|].
  apply sizes_ok_cons in Hok as [? Hok].
  destruct f; simpl; [by apply IH|]. constructor; [by apply IH|].
  apply Forall_forall. intros [p t] Hin. unfold apart. simpl.
  apply allocs_lower in Hin; [lia|done].
Qed.

Lemma allocs_NoDup a bs : sizes_ok bs → NoDup (allocs a bs).*1.
Proof.
  revert a. induction bs as [|[s f] bs IH]; intros a Hok; simpl; [constructor|].
  apply sizes_ok_cons in Hok as [? Hok].
  destruct f; simpl; [by apply IH|]. constructor; [|by apply IH].
  intros ([p t] & Ep & Hin)%list_elem_of_fmap. simpl in Ep. subst p.
  apply allocs_lower in Hin; [lia|done].
Qed.

(** An allocated region comes from an allocated block. *)
Lemma allocs_elem a bs p s :
  (p, s) ∈ allocs a bs → ∃ l r, bs = l ++ (s, false) :: r ∧ p = a + span l + H.
Proof.
  revert a. induction bs as [|[s1 f] bs IH]; intros a Hin; simpl in Hin.
  { by apply not_elem_of_nil in Hin. }
  apply elem_of_app in Hin as [Hin|Hin].
  - destruct f; [by apply not_elem_of_nil in Hin|].
    apply list_elem_of_singleton in Hin as [= -> ->]. exists [], bs. split; [done|]. simpl. lia.
  - apply IH in Hin as (l & r & -> & ->). exists ((s1, f) :: l), r. split; [done|]. simpl. lia.
Qed.

(** Two allocated regions at different addresses are disjoint, with room for
    a header between them. *)
Lemma allocs_apart a bs x y :
  sizes_ok bs → x ∈ allocs a bs → y ∈ allocs a bs → x.1 ≠ y.1 → apart x y ∨ apart y x.
Proof.
  intros Hok Hx Hy Hne. pose proof (allocs_sorted a bs Hok) as Hs.
  induction Hs as [|z l _ IH Hz]; [by apply not_elem_of_nil in Hx|].
  rewrite Forall_forall in Hz.
  apply elem_of_cons in Hx as [->|Hx]; apply elem_of_cons in Hy as [->|Hy]; auto. done.
Qed.

(** A coalesced pool without allocations is one free block. *)
Lemma no_allocs_one_block a bs :
  coalesced bs = true → allocs a bs = [] → bs ≠ [] → ∃ s, bs = [(s, true)].
Proof.
  destruct bs as [|[s f] bs]; [done|]. simpl. intros Hc Ha _.
  destruct f; [|done]. simpl in Ha. exists s. f_equal.
  destruct bs as [|[s2 f2] bs]; [done|]. simpl in Hc. by destruct f2.
Qed.

(** ** Coalescing passes over the whole list

    [squash] merges every run of free blocks into one, as the passes that stay
    on a block after merging do; [pass_once] moves on after a merge. *)

Fixpoint squash s f bs : blocks :=
  match bs with
  | [] => [(s, f)]
  | (ns, nf) :: bs => if f && nf then squash (s + (H + ns)) true bs else (s, f) :: squash ns nf bs
  end.

Definition squash_all bs : blocks :=
  match bs with [] => [] | (s, f) :: bs => squash s f bs end.

Fixpoint pass_once bs : blocks :=
  match bs with
  | (s, true) :: (ns, true) :: bs => (s + (H + ns), true) :: pass_once bs
  | b :: bs => b :: pass_once bs
  | [] => []
  end.

Lemma squash_spec bs : ∀ s f,
  squash s f bs ≠ [] ∧
  span (squash s f bs) = H + s + span bs ∧
  (0 ≤ s → sizes_ok bs → sizes_ok (squash s f bs)) ∧
  (∀ a, allocs a (squash s f bs) = allocs a ((s, f) :: bs)) ∧
  ∃ s' bs', squash s f bs = (s', f) :: bs' ∧ coalesced (squash s f bs) = true.
Proof.
  induction bs as [|[ns nf] bs IH]; intros s f.
  { simpl. repeat split; try done; [by intros; constructor|]. by exists s, []. }
  cbn [squash]. destruct (f && nf) eqn:E.
  - apply andb_true_iff in E as [-> ->].
    destruct (IH (s + (H + ns)) true) as (? & Hsp & Hsz & Hal & Hco).
    split; [done|]. split; [simpl; lia|]. split.
    + intros Hs [Hn Hok]%sizes_ok_cons. apply Hsz; [lia|done].
    + split; [|done]. intros a. rewrite Hal. simpl. f_equal. lia.
  - destruct (IH ns nf) as (? & Hsp & Hsz & Hal & s' & bs' & E' & Hco).
    split; [done|]. split; [simpl; lia|]. split.
    + intros Hs [Hn Hok]%sizes_ok_cons. apply sizes_ok_cons. auto.
    + split; [intros a; simpl; by rewrite Hal|].
      exists s, (squash ns nf bs). split; [done|]. rewrite E' in *. cbn [coalesced].
      rewrite E. exact Hco.
Qed.

Lemma squash_all_spec l s r :
  let bs := l ++ (s, true) :: r in
  squash_all bs ≠ [] ∧ span (squash_all bs) = span (l ++ (s, false) :: r) ∧
  (sizes_ok (l ++ (s, false) :: r) → sizes_ok (squash_all bs)) ∧
  (∀ a, allocs a (squash_all bs) = allocs a l ++ allocs (a + span l + H + s) r) ∧
  coalesced (squash_all bs) = true.
Proof.
  intros bs. assert (∃ s0 f0 bs0, bs = (s0, f0) :: bs0) as (s0 & f0 & bs0 & E).
  { unfold bs. destruct l as [|[? ?] ?]; simpl; eauto. }
  destruct (squash_spec bs0 s0 f0) as (? & Hsp & Hsz & Hal & s' & bs' & _ & Hco).
  assert (span bs = span (l ++ (s, false) :: r)) as Esp by (unfold bs; rewrite !span_app; done).
  rewrite E in *. simpl squash_all. split; [done|]. split; [rewrite Hsp; exact Esp|].
  split; [|split; [|done]].
  - intros [Hl Hr]%sizes_ok_app. assert (sizes_ok ((s0, f0) :: bs0)) as [? ?]%sizes_ok_cons.
    { rewrite <-E. apply sizes_ok_app. split; [done|].
      apply sizes_ok_cons in Hr. by apply sizes_ok_cons. }
    auto.
  - intros a. rewrite Hal, <-E. unfold bs. rewrite allocs_app. done.
Qed.

(** Two-step induction following [pass_once]. *)
Lemma blocks_pass_ind (P : blocks → Prop) :
  P [] → (∀ s ns bs, P bs → P ((s, true) :: (ns, true) :: bs)) →
  (∀ s f bs, (f = true → ∀ ns bs', bs ≠ (ns, true) :: bs') → P bs → P ((s, f) :: bs)) →
  ∀ bs, P bs.
Proof.
  intros H0 H2 H1 bs. remember (length bs) as n eqn:En. revert bs En.
  induction n as [n IH] using lt_wf_ind. intros [|[s f] bs] ->; [done|].
  destruct f.
  - destruct bs as [|[ns [|]] bs].
    + apply H1; done.
    + apply H2. apply (IH (length bs)); simpl; [lia|done].
    + apply H1; [by intros _ ? ? [=]|]. apply (IH (length ((ns, false) :: bs))); simpl; [lia|done].
  - apply H1; [done|]. apply (IH (length bs)); simpl; [lia|done].
Qed.

Lemma pass_once_cons s f bs :
  (f = true → ∀ ns bs', bs ≠ (ns, true) :: bs') → pass_once ((s, f) :: bs) = (s, f) :: pass_once bs.
Proof. intros Hne. destruct f, bs as [|[ns [|]] bs]; try done. by destruct (Hne eq_refl ns bs). Qed.

Lemma pass_once_spec bs :
  (bs ≠ [] → pass_once bs ≠ []) ∧ span (pass_once bs) = span bs ∧
  (sizes_ok bs → sizes_ok (pass_once bs)) ∧ (∀ a, allocs a (pass_once bs) = allocs a bs).
Proof.
  induction bs as [|s ns bs (_ & Hsp & Hsz & Hal)|s f bs Hne (_ & Hsp & Hsz & Hal)]
    using blocks_pass_ind; [done| |rewrite pass_once_cons by done];
    (split; [done|]; split; [simpl; lia|]; split).
  - intros [? [? ?]%sizes_ok_cons]%sizes_ok_cons. simpl. apply sizes_ok_cons. split; [lia|auto].
  - intros a. simpl. rewrite Hal. f_equal. lia.
  - intros [? ?]%sizes_ok_cons. apply sizes_ok_cons. auto.
  - intros a. simpl. by rewrite Hal.
Qed.

Lemma pass_once_release l s r :
  let bs := pass_once (l ++ (s, true) :: r) in
  span bs = span (l ++ (s, false) :: r) ∧
  (sizes_ok (l ++ (s, false) :: r) → sizes_ok bs) ∧
  (∀ a, allocs a bs = allocs a l ++ allocs (a + span l + H + s) r) ∧ bs ≠ [].
Proof.
  intros bs. destruct (pass_once_spec (l ++ (s, true) :: r)) as (Hne & Hsp & Hsz & Hal).
  fold bs in Hne, Hsp, Hsz, Hal. split; [rewrite Hsp, !span_app; done|]. split.
  - intros [? [? ?]%sizes_ok_cons]%sizes_ok_app. apply Hsz, sizes_ok_app.
    split; [done|]. by apply sizes_ok_cons.
  - split; [intros a; by rewrite Hal, allocs_app|]. apply Hne. by destruct l.
Qed.
End blocks.
