(* ===== verification/PoolClient.v ===== *)
(** * Clients of the memory pools

    What a memory pool promises to the program that uses it, as the class
    [Pool], and what follows for every client: [serve] runs a sequence of
    allocations and frees in which the client frees only regions it holds, and
    the lemmas show that the pool never faults, that the regions held are
    disjoint and inside the buffer, and when free blocks stay coalesced.  The
    files of the implementations provide the instances. *)

From stdpp Require Import base list numbers sets.
From Stdlib Require Import ZArith Lia.
From S2P Require Import Prelude Blocks.

Class Pool (P : Type) := {
  p_hdr : Z;                                (* bytes of a block header *)
  p_slack : Z;                              (* payload left over for a split, see [take_block] *)
  p_base : P → Z;
  p_size : P → Z;
  p_round : Z → Z;                          (* the size reserved for a request *)
  p_alloc : P → Z → outcome (Z * P);
  p_free : P → Z → outcome P;
  p_rep : P → blocks → Prop;
  p_release : blocks → Z → blocks → blocks; (* the blocks after a free *)
  p_hdr_pos : 0 < p_hdr;
  p_slack_nonneg : 0 ≤ p_slack;
  p_rep_ok mp bs : p_rep mp bs →
    0 < p_base mp ∧ span p_hdr bs = p_size mp ∧ sizes_ok bs ∧ bs ≠ [];
  p_alloc_ok mp bs sz : p_rep mp bs → 0 ≤ sz < 2 ^ 64 →
    match first_fit p_hdr p_slack (p_base mp) bs (p_round sz) with
    | None => p_alloc mp sz = Ret (0, mp)
    | Some (q, bs') => ∃ mp', p_alloc mp sz = Ret (q, mp') ∧ p_rep mp' bs' ∧
                              p_base mp' = p_base mp ∧ p_size mp' = p_size mp
    end;
  p_free_ok mp l s r : p_rep mp (l ++ (s, false) :: r) →
    ∃ mp', p_free mp (p_base mp + span p_hdr l + p_hdr) = Ret mp' ∧
           p_rep mp' (p_release l s r) ∧ p_base mp' = p_base mp ∧ p_size mp' = p_size mp;
  p_release_ok l s r :
    span p_hdr (p_release l s r) = span p_hdr (l ++ (s, false) :: r) ∧
    (sizes_ok (l ++ (s, false) :: r) → sizes_ok (p_release l s r)) ∧
    (∀ a, allocs p_hdr a (p_release l s r) =
          allocs p_hdr a l ++ allocs p_hdr (a + span p_hdr l + p_hdr + s) r) ∧
    p_release l s r ≠ [];
}.

Inductive request := ReqAlloc (sz : Z) | ReqFree (k : nat).

Section client.
Context `{Pool P}.
Implicit Types (mp : P) (bs : blocks) (rs : list request) (live : list (Z * Z)).

(** [live] lists the regions the client holds, with the size it asked for. *)
Fixpoint serve rs mp live : outcome (P * list (Z * Z)) :=
  match rs with
  | [] => Ret (mp, live)
  | ReqAlloc sz :: rs =>
      '(p, mp) ← p_alloc mp sz; serve rs mp (if p =? 0 then live else (p, sz) :: live)
  | ReqFree k :: rs =>
      match live !! k with
      | None => serve rs mp live
      | Some (p, _) => mp ← p_free mp p; serve rs mp (delete k live)
      end
  end.

(** Requests are [size_t] values that rounding does not wrap around. *)
Definition request_ok (r : request) : Prop :=
  match r with ReqAlloc sz => 0 ≤ sz < 2 ^ 64 ∧ sz ≤ p_round sz | ReqFree _ => True end.

Record pool_inv mp live bs : Prop := {
  pi_rep : p_rep mp bs;
  pi_live : live.*1 ≡ₚ (allocs p_hdr (p_base mp) bs).*1;
  pi_room p n : (p, n) ∈ live → ∃ s, (p, s) ∈ allocs p_hdr (p_base mp) bs ∧ 0 ≤ n ≤ s;
}.

Lemma pool_inv_alloc mp live bs sz q bs' mp' :
  pool_inv mp live bs → 0 ≤ sz ≤ p_round sz →
  first_fit p_hdr p_slack (p_base mp) bs (p_round sz) = Some (q, bs') →
  p_rep mp' bs' → p_base mp' = p_base mp → pool_inv mp' ((q, sz) :: live) bs' ∧ q ≠ 0.
Proof.
  intros [R Hl Hr] Hsz E R' Hp. pose proof p_hdr_pos.
  destruct (p_rep_ok mp bs R) as (Hb & _ & Hok & _).
  apply first_fit_Some in E as (l & s & r & -> & Hle & -> & ->).
  pose proof Hok as [Hokl _]%sizes_ok_app. pose proof (span_nonneg p_hdr p_hdr_pos l Hokl).
  split; [|lia].
  destruct (take_block_allocs p_hdr p_slack s (p_round sz) r (p_base mp + span p_hdr l) Hle)
    as (s' & Hs' & Ea).
  rewrite allocs_app in Hl, Hr. simpl in Hl, Hr.
  split; rewrite ?Hp, ?allocs_app, ?Ea; auto.
  - rewrite fmap_cons, Hl, !fmap_app, fmap_cons. simpl. apply Permutation_middle.
  - intros p n [[= -> ->]|Hin]%elem_of_cons.
    + exists s'. split; [set_solver|lia].
    + destruct (Hr p n Hin) as (t & Ht & ?). exists t. split; [set_solver|done].
Qed.

Lemma pool_inv_free mp live bs k p n :
  pool_inv mp live bs → live !! k = Some (p, n) →
  ∃ mp' l s r, bs = l ++ (s, false) :: r ∧ p_free mp p = Ret mp' ∧
    pool_inv mp' (delete k live) (p_release l s r) ∧
    p_base mp' = p_base mp ∧ p_size mp' = p_size mp.
Proof.
  intros [R Hl Hr] Hk. destruct (p_rep_ok mp bs R) as (_ & _ & Hok & _).
  destruct (Hr p n) as (s & Hin & Hn); [by eapply list_elem_of_lookup_2|].
  pose proof (allocs_NoDup p_hdr p_hdr_pos (p_base mp) bs Hok) as Hnd.
  apply allocs_elem in Hin as (l & r & -> & ->).
  destruct (p_free_ok mp l s r R) as (mp' & E & R' & Hp & Hps).
  destruct (p_release_ok l s r) as (_ & _ & Hal & _).
  exists mp', l, s, r. split; [done|]. split; [done|]. split; [|done].
  pose proof (delete_Permutation live k _ Hk) as Hperm.
  rewrite allocs_app in *. simpl in *. set (q := p_base mp + span p_hdr l + p_hdr) in *.
  assert (q ∉ (delete k live).*1) as Hfresh.
  { rewrite <-Hl, Hperm in Hnd. by apply NoDup_cons_1_1 in Hnd. }
  split; rewrite ?Hp, ?Hal; auto.
  - apply (Permutation_cons_inv (a := q)).
    rewrite <-fmap_cons with (f := fst) (x := (q, n)), <-Hperm, Hl.
    rewrite !fmap_app, fmap_cons. symmetry. apply Permutation_middle.
  - intros q' t Hq. destruct (Hr q' t) as (s2 & Hin2 & ?).
    { rewrite Hperm. by right. }
    exists s2. split; [|done].
    apply elem_of_app in Hin2 as [?|[Heq|?]%elem_of_cons]; [set_solver| |set_solver].
    injection Heq as -> ->. exfalso. apply Hfresh. apply list_elem_of_fmap. by exists (q, t).
Qed.

(** Serving keeps the invariant, and any property [I] of the blocks that
    allocation and release preserve. *)
Lemma serve_inv (I : blocks → Prop) rs :
  (∀ l s sz r, I (l ++ (s, true) :: r) → I (l ++ take_block p_hdr p_slack s sz r)) →
  (∀ l s r, I (l ++ (s, false) :: r) → I (p_release l s r)) →
  ∀ mp live bs, Forall request_ok rs → pool_inv mp live bs → I bs →
  ∃ mp' live' bs', serve rs mp live = Ret (mp', live') ∧ pool_inv mp' live' bs' ∧ I bs' ∧
                   p_base mp' = p_base mp ∧ p_size mp' = p_size mp.
Proof.
  intros Htake Hrel. induction rs as [|[sz|k] rs IH]; intros mp live bs Hrs Hinv HI; simpl;
    [eauto 10|..]; apply Forall_cons_1 in Hrs as [Hsz Hrs]; simpl in Hsz.
  - pose proof (p_alloc_ok mp bs sz (pi_rep _ _ _ Hinv) ltac:(lia)) as Hal.
    destruct (first_fit p_hdr p_slack (p_base mp) bs (p_round sz)) as [[q bs1]|] eqn:E.
    + destruct Hal as (mp1 & -> & R1 & Hp1 & Hs1). simpl.
      destruct (pool_inv_alloc mp live bs sz q bs1 mp1 Hinv) as [Hinv1 Hq]; [lia|done..|].
      rewrite (proj2 (Z.eqb_neq q 0) Hq).
      destruct (IH mp1 _ bs1 Hrs Hinv1) as (mp' & live' & bs' & E' & ? & ? & ? & ?).
      { apply first_fit_Some in E as (l & s & r & -> & _ & -> & _). by apply Htake. }
      exists mp', live', bs'. rewrite E', <-Hp1, <-Hs1. auto.
    + rewrite Hal. simpl. by apply (IH mp live bs).
  - destruct (live !! k) as [[p n]|] eqn:Ek; [|by apply (IH mp live bs)].
    destruct (pool_inv_free mp live bs k p n Hinv Ek)
      as (mp1 & l & s & r & -> & -> & Hinv1 & Hp1 & Hs1).
    simpl. destruct (IH mp1 _ _ Hrs Hinv1 (Hrel l s r HI)) as (mp' & live' & bs' & E' & ? & ? & ? & ?).
    exists mp', live', bs'. rewrite E', <-Hp1, <-Hs1. auto.
Qed.

(** The regions a client holds. *)
Definition inside (base sz : Z) live : Prop :=
  ∀ p n, (p, n) ∈ live → base + p_hdr ≤ p ∧ p + n ≤ base + sz.
Definition separated live : Prop :=
  ∀ i j p n q k, live !! i = Some (p, n) → live !! j = Some (q, k) → i ≠ j →
    p + n + p_hdr ≤ q ∨ q + k + p_hdr ≤ p.

Lemma pool_inv_inside mp live bs : pool_inv mp live bs → inside (p_base mp) (p_size mp) live.
Proof.
  intros [R Hl Hr] p n (s & Hin & Hn)%Hr. destruct (p_rep_ok mp bs R) as (_ & Hsp & Hok & _).
  pose proof (allocs_lower p_hdr p_hdr_pos _ bs p s Hok Hin).
  pose proof (allocs_upper p_hdr p_hdr_pos _ bs p s Hok Hin). lia.
Qed.

Lemma pool_inv_separated mp live bs : pool_inv mp live bs → separated live.
Proof.
  intros [R Hl Hr] i j p n q k Hi Hj Hne. destruct (p_rep_ok mp bs R) as (_ & _ & Hok & _).
  destruct (Hr p n) as (s & Hin & Hn); [by eapply list_elem_of_lookup_2|].
  destruct (Hr q k) as (t & Hin' & Hk); [by eapply list_elem_of_lookup_2|].
  assert (p ≠ q) as Hpq.
  { intros <-. apply Hne. eapply (NoDup_lookup live.*1).
    - rewrite Hl. by apply (allocs_NoDup _ p_hdr_pos).
    - by rewrite list_lookup_fmap, Hi.
    - by rewrite list_lookup_fmap, Hj. }
  destruct (allocs_apart p_hdr p_hdr_pos _ bs _ _ Hok Hin Hin' Hpq) as [Ha|Ha];
    unfold apart in Ha; simpl in Ha; lia.
Qed.

Lemma pool_inv_all_free mp bs :
  pool_inv mp [] bs → coalesced bs = true → bs = [(p_size mp - p_hdr, true)].
Proof.
  intros [R Hl Hr] Hc. destruct (p_rep_ok mp bs R) as (_ & Hsp & _ & Hne).
  symmetry in Hl. apply Permutation_nil_r, fmap_nil_inv in Hl.
  destruct (no_allocs_one_block p_hdr _ bs Hc Hl Hne) as [s ->].
  simpl in Hsp. do 2 f_equal. lia.
Qed.

Lemma pool_inv_fresh mp s : p_rep mp [(s, true)] → pool_inv mp [] [(s, true)].
Proof.
  intros R. split; [done|done|]. intros p n Hin. by apply not_elem_of_nil in Hin.
Qed.

(** Allocation fails exactly when no free block is large enough. *)
Lemma pool_alloc_null_iff mp live bs sz :
  pool_inv mp live bs → 0 ≤ sz < 2 ^ 64 → sz ≤ p_round sz →
  ((∃ mp', p_alloc mp sz = Ret (0, mp')) ↔ ∀ s, (s, true) ∈ bs → s < p_round sz) ∧
  ((∃ mp', p_alloc mp sz = Ret (0, mp')) → p_alloc mp sz = Ret (0, mp)).
Proof.
  intros Hinv Hn Hr. pose proof (pi_rep _ _ _ Hinv) as R.
  rewrite <-(first_fit_None p_hdr p_slack (p_base mp) bs (p_round sz)).
  pose proof (p_alloc_ok mp bs sz R Hn) as Hal.
  destruct (first_fit p_hdr p_slack (p_base mp) bs (p_round sz)) as [[q bs1]|] eqn:E1.
  - destruct Hal as (mp' & Ea & R' & Hp' & _).
    destruct (pool_inv_alloc mp live bs sz q bs1 mp' Hinv) as [_ Hq]; [lia|done..|].
    rewrite Ea. split; [split; [|done]|]; intros [? [= ? _]]; congruence.
  - rewrite Hal. split; [split; [done|eauto]|done].
Qed.
End client.
