(* ===== verification/MemPoolDLL.v ===== *)
(** * memorypool/memorypoolDLL.cpp and memorypoolDLL.c

    The pool allocator whose block headers form a doubly linked list.  The
    buffer's headers are a finite map from addresses to [MemBlock]s, pointers
    are addresses and 0 is the null pointer; a header that is merged away stays
    in memory, as in the program.  [alloc] and [free] are the methods of the
    C++ class, [mempool_init], [mempool_alloc] and [mempool_free] the functions
    of the C file.  User data is not modelled: the theorems show that it never
    overlaps a header.

    The loop of [alloc] runs with one unit of fuel per header in memory and one
    more, which the proofs show to be enough. *)

From stdpp Require Import base list gmap numbers.
From Stdlib Require Import ZArith Lia.
From S2P Require Import Prelude Blocks PoolClient.

(** [sizeof(MemBlock)]: three 8-byte words and a bool, padded. *)
Definition sizeof_MemBlock : Z := 32.

Record MemBlock := mkMemBlock {
  size : Z;
  next : Z;
  prev : Z;
  is_free : bool;
}.

Record MemPool := mkMemPool {
  pool : Z;
  poolSize : Z;
  head : Z;
  mem : gmap Z MemBlock;
}.

Definition with_mem (mp : MemPool) (m : gmap Z MemBlock) : MemPool :=
  mkMemPool (pool mp) (poolSize mp) (head mp) m.

Definition set_size (s : Z) (b : MemBlock) := mkMemBlock s (next b) (prev b) (is_free b).
Definition set_next (n : Z) (b : MemBlock) := mkMemBlock (size b) n (prev b) (is_free b).
Definition set_prev (p : Z) (b : MemBlock) := mkMemBlock (size b) (next b) p (is_free b).
Definition set_free (f : bool) (b : MemBlock) := mkMemBlock (size b) (next b) (prev b) f.

(** [*a], and [a->field = ...]. *)
Definition load (m : gmap Z MemBlock) (a : Z) : outcome MemBlock :=
  if a =? 0 then Err NullDeref else of_option DanglingPtr (m !! a).
Definition update (m : gmap Z MemBlock) (a : Z) (g : MemBlock → MemBlock)
    : outcome (gmap Z MemBlock) :=
  b ← load m a; Ret (<[a := g b]> m).

(** ** MemPool (C++) *)

(** The constructor; [base] is the address [new uint8_t[size]] returns. *)
Definition new_MemPool (base sz : Z) : MemPool :=
  mkMemPool base sz base {[ base := mkMemBlock (u64 (sz - sizeof_MemBlock)) 0 0 true ]}.

(** Splitting the block [current], whose header is [cur]. *)
Definition split_block (m : gmap Z MemBlock) (current : Z) (cur : MemBlock) (sz : Z)
    : outcome (gmap Z MemBlock) :=
  let newBlock := current + sizeof_MemBlock + sz in
  let m := <[newBlock := mkMemBlock (u64 (size cur - sz - sizeof_MemBlock)) (next cur) current true]> m in
  m ← (if next cur =? 0 then Ret m else update m (next cur) (set_prev newBlock));
  m ← update m current (set_next newBlock);
  update m current (set_size sz).

Fixpoint alloc_loop (fuel : nat) (m : gmap Z MemBlock) (current sz : Z)
    : outcome (Z * gmap Z MemBlock) :=
  match fuel with
  | O => Err OutOfFuel
  | S fuel =>
      if current =? 0 then Ret (0, m) else
      cur ← load m current;
      if is_free cur && (sz <=? size cur) then
        m ← (if u64 (sz + sizeof_MemBlock) <? size cur then split_block m current cur sz
             else Ret m);
        m ← update m current (set_free false);
        Ret (current + sizeof_MemBlock, m)
      else alloc_loop fuel m (next cur) sz
  end.

Definition alloc (mp : MemPool) (sz : Z) : outcome (Z * MemPool) :=
  '(p, m) ← alloc_loop (S (base.size (mem mp))) (mem mp) (head mp) sz;
  Ret (p, with_mem mp m).

(** Merge with the following block if it is free. *)
Definition coalesce_next (m : gmap Z MemBlock) (block : Z) : outcome (gmap Z MemBlock) :=
  b ← load m block;
  if next b =? 0 then Ret m else
  nb ← load m (next b);
  if negb (is_free nb) then Ret m else
  m ← update m block (set_size (u64 (size b + (sizeof_MemBlock + size nb))));
  let afterNext := next nb in
  m ← update m block (set_next afterNext);
  if afterNext =? 0 then Ret m else update m afterNext (set_prev block).

(** Merge into the preceding block if it is free. *)
Definition coalesce_prev (m : gmap Z MemBlock) (block : Z) : outcome (gmap Z MemBlock) :=
  b ← load m block;
  if prev b =? 0 then Ret m else
  pb ← load m (prev b);
  if negb (is_free pb) then Ret m else
  m ← update m (prev b) (set_size (u64 (size pb + (sizeof_MemBlock + size b))));
  m ← update m (prev b) (set_next (next b));
  if next b =? 0 then Ret m else update m (next b) (set_prev (prev b)).

Definition free (mp : MemPool) (ptr : Z) : outcome MemPool :=
  if ptr =? 0 then Ret mp else
  let block := ptr - sizeof_MemBlock in
  m ← update (mem mp) block (set_free true);
  m ← coalesce_next m block;
  m ← coalesce_prev m block;
  Ret (with_mem mp m).

(** ** The C functions

    [mempool_init] is given the address [malloc] returns, 0 for a failure;
    the null pool pointer is [None]. *)

Definition mempool_init (mp : option MemPool) (malloc : Z) (sz : Z) : option MemPool :=
  match mp with
  | None => None
  | Some mp =>
      Some (if (sz <=? sizeof_MemBlock) || (malloc =? 0) then mkMemPool 0 0 0 (mem mp)
            else mkMemPool malloc sz malloc
                   (<[malloc := mkMemBlock (u64 (sz - sizeof_MemBlock)) 0 0 true]> (mem mp)))
  end.

Definition mempool_alloc (mp : option MemPool) (sz : Z) : outcome (Z * option MemPool) :=
  match mp with
  | None => Ret (0, None)
  | Some mp => if head mp =? 0 then Ret (0, Some mp)
               else '(p, mp) ← alloc mp sz; Ret (p, Some mp)
  end.

Definition mempool_free (mp : option MemPool) (ptr : Z) : outcome (option MemPool) :=
  match mp with
  | None => Ret None
  | Some mp => mp ← free mp ptr; Ret (Some mp)
  end.

Definition mempool_destroy (mp : option MemPool) : option MemPool :=
  (λ mp, mkMemPool 0 0 0 ∅) <$> mp.

(** ** The header chain of a block list

    [chain m p a bs e]: the headers of [bs] are in memory from address [a] on,
    linked in both directions; [p] precedes the first and [e] follows the last. *)

Abbreviation HDR := sizeof_MemBlock.

Definition link (a s : Z) (bs : blocks) (e : Z) : Z :=
  match bs with [] => e | _ => a + HDR + s end.

Fixpoint chain (m : gmap Z MemBlock) (p a : Z) (bs : blocks) (e : Z) : Prop :=
  match bs with
  | [] => True
  | (s, f) :: bs => m !! a = Some (mkMemBlock s (link a s bs e) p f) ∧ chain m a (a + HDR + s) bs e
  end.

Fixpoint last_addr (p a : Z) (bs : blocks) : Z :=
  match bs with [] => p | (s, _) :: bs => last_addr a (a + HDR + s) bs end.

Abbreviation span := (Blocks.span HDR).

Lemma dll_H_pos : 0 < HDR. Proof. done. Qed.

Lemma dll_load_Some m a b : m !! a = Some b → a ≠ 0 → load m a = Ret b.
Proof. intros Hb Ha. unfold load. rewrite (proj2 (Z.eqb_neq a 0) Ha). by rewrite Hb. Qed.

Lemma dll_update_Some m a b g : m !! a = Some b → a ≠ 0 → update m a g = Ret (<[a := g b]> m).
Proof. intros Hb Ha. unfold update. by rewrite (dll_load_Some m a b). Qed.

Lemma dll_link_app a s l r e :
  link a s (l ++ r) e = link a s l (match r with [] => e | _ => a + HDR + s + span l end).
Proof. destruct l, r; simpl; try done. lia. Qed.

Lemma dll_chain_app m p a l r e :
  chain m p a (l ++ r) e ↔
  chain m p a l (match r with [] => e | _ => a + span l end) ∧
  chain m (last_addr p a l) (a + span l) r e.
Proof.
  revert p a. induction l as [|[s f] l IH]; intros p a; simpl.
  - rewrite Z.add_0_r. tauto.
  - rewrite IH, dll_link_app. replace (a + (HDR + s + span l)) with (a + HDR + s + span l) by lia.
    replace (match r with [] => e | _ => a + HDR + s + span l end)
      with (match r with [] => e | _ => a + HDR + s + span l end) by done.
    tauto.
Qed.

Lemma last_addr_snoc p a l s f : last_addr p a (l ++ [(s, f)]) = a + span l.
Proof.
  revert p a. induction l as [|[s1 f1] l IH]; intros p a; simpl; [lia|]. rewrite IH. lia.
Qed.

Lemma dll_chain_frame m m' p a bs e :
  sizes_ok bs → (∀ k, a ≤ k < a + span bs → m' !! k = m !! k) →
  chain m p a bs e → chain m' p a bs e.
Proof.
  revert p a. induction bs as [|[s f] bs IH]; intros p a Hok Hk; simpl; [done|].
  apply sizes_ok_cons in Hok as [Hs Hok]. pose proof (span_nonneg HDR dll_H_pos bs Hok).
  simpl in Hk. pose proof dll_H_pos.
  intros [Hm Hc]. rewrite Hk by lia. split; [done|]. apply IH; [done| |done].
  intros k Hk'. apply Hk. lia.
Qed.

(** Redirecting the back pointer of the first block. *)
Lemma chain_reprev m p p' a s f bs e :
  sizes_ok ((s, f) :: bs) → chain m p a ((s, f) :: bs) e →
  chain (<[a := mkMemBlock s (link a s bs e) p' f]> m) p' a ((s, f) :: bs) e.
Proof.
  intros [Hs Hok]%sizes_ok_cons [Hm Hc]. pose proof dll_H_pos. simpl. split; [apply lookup_insert_eq|].
  apply (dll_chain_frame m); [done| |done]. intros k Hk. apply lookup_insert_ne. lia.
Qed.

(** Fuel: a chain is not longer than the memory. *)
Lemma dll_chain_length m p a bs e :
  sizes_ok bs → chain m p a bs e → (length bs ≤ base.size m)%nat.
Proof.
  revert m p a. induction bs as [|[s f] bs IH]; intros m p a Hok Hc; simpl in *; [lia|].
  apply sizes_ok_cons in Hok as [Hs Hok]. destruct Hc as [Hm Hc].
  rewrite <-(insert_delete_id m a _ Hm), map_size_insert_None by apply lookup_delete_eq.
  apply le_n_S, (IH _ a (a + HDR + s)); [done|]. pose proof dll_H_pos.
  apply (dll_chain_frame m); [done| |done]. intros k Hk. apply lookup_delete_ne. lia.
Qed.

(** ** Allocation *)

Lemma split_block_spec m p a s sz bs :
  0 < a → a + HDR + s + span bs ≤ 2 ^ 64 → 0 ≤ sz → sz + HDR < s → sizes_ok bs →
  chain m p a ((s, true) :: bs) 0 →
  ∃ m', split_block m a (mkMemBlock s (link a s bs 0) p true) sz = Ret m' ∧
        m' !! a = Some (mkMemBlock sz (a + HDR + sz) p true) ∧
        chain m' a (a + HDR + sz) ((s - sz - HDR, true) :: bs) 0 ∧
        ∀ k, k < a → m' !! k = m !! k.
Proof.
  intros Ha Hb Hsz Hlt Hok [Hm Hc]. pose proof dll_H_pos. pose proof (span_nonneg HDR dll_H_pos bs Hok).
  unfold split_block. simpl. rewrite u64_small by lia.
  set (nb := a + HDR + sz). set (hb := mkMemBlock (s - sz - HDR) _ _ _).
  assert (∃ m2, (if link a s bs 0 =? 0 then Ret (<[nb:=hb]> m)
                 else update (<[nb:=hb]> m) (link a s bs 0) (set_prev nb)) = Ret m2 ∧
            m2 !! nb = Some hb ∧ chain m2 nb (a + HDR + s) bs 0 ∧
            ∀ k, k < a + HDR + s → k ≠ nb → m2 !! k = m !! k) as (m2 & -> & Hnb & Hc2 & Hk2).
  { destruct bs as [|[s2 f2] bs]; simpl link.
    - exists (<[nb:=hb]> m). rewrite lookup_insert_eq. simpl. repeat split.
      intros k _ Hne. by apply lookup_insert_ne.
    - rewrite (proj2 (Z.eqb_neq _ 0)) by lia. destruct Hc as [Hm2 Hc].
      erewrite dll_update_Some; [|rewrite lookup_insert_ne by lia; exact Hm2|lia].
      eexists; split; [done|]. unfold set_prev; simpl. split; [|split].
      + rewrite lookup_insert_ne by lia. apply lookup_insert_eq.
      + apply (chain_reprev _ a nb _ s2 f2 bs 0); [done|]. apply (dll_chain_frame m); [done| |by split].
        intros k Hk. apply lookup_insert_ne. lia.
      + intros k Hk Hne. rewrite !lookup_insert_ne by lia. done. }
  simpl. erewrite dll_update_Some; [|rewrite Hk2 by lia; exact Hm|lia]. simpl.
  erewrite dll_update_Some; [|apply lookup_insert_eq|lia]. unfold set_next, set_size; simpl.
  eexists; split; [done|]. split; [apply lookup_insert_eq|]. split.
  - apply (dll_chain_frame m2 _ a nb ((s - sz - HDR, true) :: bs) 0).
    + apply sizes_ok_cons. split; [lia|done].
    + intros k Hk. rewrite !lookup_insert_ne by (unfold nb in *; lia). done.
    + split.
      * rewrite Hnb. unfold hb, link. destruct bs; [done|]. do 2 f_equal. unfold nb. lia.
      * replace (nb + HDR + (s - sz - HDR)) with (a + HDR + s) by (unfold nb; lia). done.
  - intros k Hk. rewrite !lookup_insert_ne by lia. apply Hk2; lia.
Qed.

Definition first_addr (a : Z) (bs : blocks) : Z := match bs with [] => 0 | _ => a end.

Lemma dll_alloc_loop_spec bs : ∀ fuel m p a sz,
  0 < a → a + span bs ≤ 2 ^ 64 → 0 ≤ sz → sizes_ok bs → (length bs < fuel)%nat →
  chain m p a bs 0 →
  match first_fit HDR 0 a bs sz with
  | None => alloc_loop fuel m (first_addr a bs) sz = Ret (0, m)
  | Some (q, bs') =>
      ∃ m', alloc_loop fuel m (first_addr a bs) sz = Ret (q, m') ∧
            chain m' p a bs' 0 ∧ ∀ k, k < a → m' !! k = m !! k
  end.
Proof.
  induction bs as [|[s f] bs IH]; intros fuel m p a sz Ha Hb Hsz Hok Hf Hc;
    (destruct fuel as [|fuel]; [simpl in Hf; lia|]); [done|].
  apply sizes_ok_cons in Hok as [Hs Hok]. pose proof (span_nonneg HDR dll_H_pos bs Hok).
  pose proof dll_H_pos. simpl in Hb, Hf. pose proof Hc as [Hm Hc'].
  cbn [first_addr alloc_loop first_fit].
  rewrite (proj2 (Z.eqb_neq a 0)) by lia.
  rewrite (dll_load_Some m a _ Hm ltac:(lia)). simpl is_free. simpl size. simpl next.
  rewrite bind_Ret. cbn [is_free size next].
  destruct (f && (sz <=? s)) eqn:Ef.
  - apply andb_true_iff in Ef as [-> Hle%Z.leb_le]. rewrite u64_small by lia.
    unfold take_block. rewrite Z.add_0_r. destruct (Z.ltb_spec (sz + HDR) s) as [Hlt|Hge].
    + destruct (split_block_spec m p a s sz bs) as (m' & -> & Ha' & Hc2 & Hk); auto; [lia|].
      rewrite bind_Ret, (dll_update_Some m' a _ _ Ha' ltac:(lia)). eexists; split; [done|].
      split; [|intros k Hk'; rewrite lookup_insert_ne by lia; by apply Hk].
      split; [apply lookup_insert_eq|].
      apply (dll_chain_frame m' _ a (a + HDR + sz) ((s - sz - HDR, true) :: bs) 0); [|intros k Hk'|done].
      * apply sizes_ok_cons. split; [lia|done].
      * apply lookup_insert_ne. lia.
    + rewrite bind_Ret, (dll_update_Some m a _ _ Hm ltac:(lia)). eexists; split; [done|].
      split; [|intros k Hk; apply lookup_insert_ne; lia].
      split; [apply lookup_insert_eq|]. apply (dll_chain_frame m); [done| |done].
      intros k Hk. apply lookup_insert_ne. lia.
  - specialize (IH fuel m a (a + HDR + s) sz).
    replace (link a s bs 0) with (first_addr (a + HDR + s) bs) by done.
    destruct (first_fit HDR 0 (a + HDR + s) bs sz) as [[q bs']|] eqn:E.
    + destruct IH as (m' & -> & Hc2 & Hk); try done; try lia. simpl.
      eexists; split; [done|]. split; [|intros k Hk'; apply Hk; lia].
      split; [|done]. rewrite Hk by lia. rewrite Hm. do 2 f_equal.
      apply first_fit_Some in E as (l & s1 & r & -> & _ & -> & _).
      unfold link. destruct l; [|done]. unfold take_block. by destruct (_ <? _).
    + simpl. apply IH; try done; lia.
Qed.

(** ** Freeing *)

Lemma coalesce_next_spec m p c s r :
  0 < c → c + HDR + s + span r ≤ 2 ^ 64 → 0 ≤ s → sizes_ok r →
  chain m p c ((s, true) :: r) 0 →
  ∃ m', coalesce_next m c = Ret m' ∧ chain m' p c (merge_next HDR s r) 0 ∧
        ∀ k, k < c → m' !! k = m !! k.
Proof.
  intros Hc Hb Hs Hok [Hm Hr]. pose proof dll_H_pos. pose proof (span_nonneg HDR dll_H_pos r Hok).
  unfold coalesce_next. rewrite (dll_load_Some m c _ Hm ltac:(lia)), bind_Ret. cbn [next size].
  destruct r as [|[ns nf] r]; simpl link; [by exists m|].
  rewrite (proj2 (Z.eqb_neq _ 0)) by lia. pose proof Hr as [Hn Hr'].
  rewrite (dll_load_Some m _ _ Hn ltac:(lia)), bind_Ret. cbn [is_free size next].
  destruct nf; [|exists m; simpl; auto]. simpl negb. cbv iota.
  apply sizes_ok_cons in Hok as [Hns Hok]. simpl in Hb. pose proof (span_nonneg HDR dll_H_pos r Hok).
  rewrite (dll_update_Some m c _ _ Hm ltac:(lia)), bind_Ret.
  erewrite dll_update_Some; [|apply lookup_insert_eq|lia]. rewrite bind_Ret, insert_insert_eq.
  unfold set_size, set_next; cbn [size next prev is_free]. rewrite u64_small by lia.
  set (hc := mkMemBlock _ _ _ _). unfold merge_next.
  assert (link c (s + (HDR + ns)) r 0 = link (c + HDR + s) ns r 0) as El
    by (destruct r; simpl; lia).
  destruct r as [|[s2 f2] r].
  - simpl. exists (<[c:=hc]> m). split; [done|].
    split; [split; [apply lookup_insert_eq|done]|]. intros k Hk. apply lookup_insert_ne. lia.
  - simpl link. rewrite (proj2 (Z.eqb_neq _ 0)) by lia. pose proof Hr' as [Hn2 _].
    erewrite dll_update_Some; [|rewrite lookup_insert_ne by lia; exact Hn2|lia].
    eexists; split; [done|]. split.
    + split; [rewrite lookup_insert_ne, lookup_insert_eq by lia; unfold hc; by rewrite El|].
      replace (c + HDR + (s + (HDR + ns))) with (c + HDR + s + HDR + ns) by lia.
      apply (chain_reprev _ (c + HDR + s)); [done|].
      apply (dll_chain_frame m); [done| |done]. intros k Hk. apply lookup_insert_ne. lia.
    + intros k Hk. rewrite !lookup_insert_ne by lia. done.
Qed.

Lemma coalesce_prev_spec m a l s r :
  0 < a → a + span l + HDR + s + span r ≤ 2 ^ 64 → 0 ≤ s → sizes_ok l → sizes_ok r →
  chain m 0 a (l ++ (s, true) :: r) 0 →
  ∃ m', coalesce_prev m (a + span l) = Ret m' ∧
        chain m' 0 a (merge_prev HDR l ((s, true) :: r)) 0.
Proof.
  intros Ha Hb Hs Hl Hr Hc. pose proof dll_H_pos. pose proof (span_nonneg HDR dll_H_pos r Hr).
  pose proof (span_nonneg HDR dll_H_pos l Hl).
  pose proof Hc as [Hcl [Hm Hcr]]%dll_chain_app.
  unfold coalesce_prev. rewrite (dll_load_Some m _ _ Hm ltac:(lia)), bind_Ret. cbn [prev size next].
  destruct (exists_last_or_nil l) as [->|(l0 & [ps pf] & ->)]; [by exists m|].
  rewrite last_addr_snoc in *. rewrite span_app in *. simpl span in *.
  apply sizes_ok_app in Hl as [Hl0 [Hps _]%sizes_ok_cons]. pose proof (span_nonneg HDR dll_H_pos l0 Hl0).
  rewrite (proj2 (Z.eqb_neq _ 0)) by lia.
  pose proof Hcl as [Hcl0 [Hq _]]%dll_chain_app. simpl in Hq.
  rewrite (dll_load_Some m _ _ Hq ltac:(lia)), bind_Ret. cbn [is_free size next].
  unfold merge_prev. rewrite rev_unit. destruct pf; [|by exists m]. simpl negb. cbv iota.
  rewrite rev_involutive.
  rewrite (dll_update_Some m _ _ _ Hq ltac:(lia)), bind_Ret.
  erewrite dll_update_Some; [|apply lookup_insert_eq|lia]. rewrite bind_Ret, insert_insert_eq.
  unfold set_size, set_next; cbn [size next prev is_free]. rewrite u64_small by lia.
  set (q := a + span l0) in *. set (hq := mkMemBlock _ _ _ _).
  set (c := a + (span l0 + (HDR + ps + 0))) in *.
  assert (link q (ps + (HDR + s)) r 0 = link c s r 0) as El
    by (unfold q, c; destruct r; simpl; lia).
  assert (∀ m', (∀ k, k < c → m' !! k = <[q:=hq]> m !! k) →
            chain m' q (c + HDR + s) r 0 →
            chain m' 0 a (l0 ++ (ps + (HDR + s), true) :: r) 0) as Hfin.
  { intros m' Hk Hc'. apply dll_chain_app. split.
    - apply (dll_chain_frame m); [done| |done]. intros k Hk'.
      rewrite Hk, lookup_insert_ne by (unfold q, c in *; lia). done.
    - fold q. split; [rewrite Hk, lookup_insert_eq by (unfold q, c; lia); by rewrite El|].
      replace (q + HDR + (ps + (HDR + s))) with (c + HDR + s) by (unfold q, c; lia). done. }
  destruct r as [|[s2 f2] r].
  - simpl. eexists; split; [done|]. by apply Hfin.
  - simpl link. rewrite (proj2 (Z.eqb_neq _ 0)) by lia. pose proof Hcr as [Hn2 _].
    erewrite dll_update_Some; [|rewrite lookup_insert_ne by (unfold q, c; lia); exact Hn2|lia].
    eexists; split; [done|]. apply Hfin; [intros k Hk; apply lookup_insert_ne; lia|].
    apply (chain_reprev _ c); [done|]. apply (dll_chain_frame m); [done| |done].
    intros k Hk. apply lookup_insert_ne. unfold q, c in *. lia.
Qed.

(** ** The pool as a block list *)

Record rep (mp : MemPool) (bs : blocks) : Prop := {
  rep_head : head mp = pool mp;
  rep_base : 0 < pool mp ∧ pool mp + poolSize mp ≤ 2 ^ 64;
  rep_span : span bs = poolSize mp;
  rep_sizes : sizes_ok bs;
  rep_nonempty : bs ≠ [];
  rep_chain : chain (mem mp) 0 (pool mp) bs 0;
}.

Lemma dll_new_MemPool_rep base sz :
  0 < base → base + sz ≤ 2 ^ 64 → HDR ≤ sz → rep (new_MemPool base sz) [(sz - HDR, true)].
Proof.
  intros Hb H64 Hsz. pose proof dll_H_pos. unfold new_MemPool. rewrite u64_small by lia.
  split; simpl; try done; try lia.
  - repeat constructor. simpl. lia.
  - split; [apply lookup_singleton_eq|done].
Qed.

Lemma alloc_rep mp bs sz :
  rep mp bs → 0 ≤ sz →
  match first_fit HDR 0 (pool mp) bs sz with
  | None => alloc mp sz = Ret (0, mp)
  | Some (q, bs') => ∃ mp', alloc mp sz = Ret (q, mp') ∧ rep mp' bs' ∧
                            pool mp' = pool mp ∧ poolSize mp' = poolSize mp
  end.
Proof.
  intros [Hh [Hb H64] Hsp Hok Hne Hc] Hsz. unfold alloc. rewrite Hh.
  pose proof (dll_alloc_loop_spec bs (S (base.size (mem mp))) (mem mp) 0 (pool mp) sz Hb) as Hal.
  replace (first_addr (pool mp) bs) with (pool mp) in Hal by (by destruct bs).
  specialize (Hal ltac:(lia) Hsz Hok (le_n_S _ _ (dll_chain_length _ _ _ _ _ Hok Hc)) Hc).
  destruct (first_fit HDR 0 (pool mp) bs sz) as [[q bs']|] eqn:E.
  - destruct Hal as (m' & -> & Hc' & _). eexists; split; [done|]. split; [|done].
    apply first_fit_Some in E as (l & s & r & -> & Hle & -> & _).
    apply sizes_ok_app in Hok as [Hl [Hs Hr]%sizes_ok_cons].
    split; simpl; auto.
    + rewrite <-Hsp, !span_app, take_block_span. done.
    + apply sizes_ok_app. split; [done|]. apply take_block_sizes; first [done|lia].
    + unfold take_block. by destruct l, (_ <? _).
  - rewrite Hal. simpl. by destruct mp.
Qed.

Lemma free_rep mp l s r :
  rep mp (l ++ (s, false) :: r) →
  ∃ mp', free mp (pool mp + span l + HDR) = Ret mp' ∧ rep mp' (free_merge HDR l s r) ∧
         pool mp' = pool mp ∧ poolSize mp' = poolSize mp.
Proof.
  intros [Hh [Hb H64] Hsp Hok Hne Hc]. pose proof dll_H_pos.
  pose proof Hok as [Hl [Hs Hr]%sizes_ok_cons]%sizes_ok_app.
  pose proof (span_nonneg HDR dll_H_pos l Hl). pose proof (span_nonneg HDR dll_H_pos r Hr).
  rewrite span_app in Hsp. simpl in Hsp.
  unfold free. rewrite (proj2 (Z.eqb_neq _ 0)) by lia.
  replace (pool mp + span l + HDR - HDR) with (pool mp + span l) by lia.
  pose proof Hc as [Hcl [Hm Hcr]]%dll_chain_app.
  rewrite (dll_update_Some _ _ _ _ Hm) by lia. rewrite bind_Ret.
  set (m1 := <[_ := _]> (mem mp)).
  destruct (coalesce_next_spec m1 (last_addr 0 (pool mp) l) (pool mp + span l) s r)
    as (m2 & -> & Hc2 & Hk2); try done; try lia.
  { split; [apply lookup_insert_eq|]. apply (dll_chain_frame (mem mp)); [done| |done].
    intros k Hk. apply lookup_insert_ne. lia. }
  rewrite bind_Ret. destruct (merge_next_shape HDR dll_H_pos s r) as (s' & r' & E & Hspn & Hszn & _).
  destruct (Hszn Hs Hr) as [Hs' Hr'].
  destruct (coalesce_prev_spec m2 (pool mp) l s' r') as (m3 & -> & Hc3); try done; try lia.
  { rewrite <-E. apply dll_chain_app. split; [|done]. rewrite E.
    apply (dll_chain_frame (mem mp)); [done| |done]. intros k Hk.
    rewrite Hk2 by lia. apply lookup_insert_ne. lia. }
  rewrite bind_Ret. eexists; split; [done|]. split; [|done].
  destruct (free_merge_spec HDR dll_H_pos l s r) as (l1 & s1 & r1 & E1 & Hsp1 & Hsz1 & _).
  split; simpl; auto.
  - rewrite Hsp1, span_app. simpl. lia.
  - rewrite E1. by destruct l1.
  - unfold free_merge. by rewrite E.
Qed.

(** ** The pool interface *)

#[export] Instance DLL_pool : Pool MemPool.
Proof.
  refine {| p_hdr := HDR; p_slack := 0; p_base := pool; p_size := poolSize; p_round := id;
            p_alloc := alloc; p_free := free; p_rep := rep; p_release := free_merge HDR |}.
  - done.
  - done.
  - intros mp bs R. destruct R as [? [? ?] ? ? ? ?]. done.
  - intros mp bs sz R Hsz. apply alloc_rep; [done|lia].
  - apply free_rep.
  - intros l s r. destruct (free_merge_spec HDR dll_H_pos l s r) as (l1 & s1 & r1 & -> & ? & ? & ? & _).
    split; [done|]. split; [done|]. split; [done|]. by destruct l1.
Defined.

Lemma free_merge_coalesces l s r :
  coalesced (l ++ (s, false) :: r) = true → coalesced (p_release l s r) = true.
Proof. by destruct (free_merge_spec HDR dll_H_pos l s r) as (? & ? & ? & _ & _ & _ & _ & Hc). Qed.

(** ** The properties *)

Lemma DLL_serve base sz rs :
  0 < base → base + sz ≤ 2 ^ 64 → HDR ≤ sz → Forall request_ok rs →
  ∃ mp live bs, serve rs (new_MemPool base sz) [] = Ret (mp, live) ∧
    pool_inv mp live bs ∧ coalesced bs = true ∧ pool mp = base ∧ poolSize mp = sz.
Proof.
  intros Hb H64 Hsz Hrs.
  destruct (serve_inv (λ bs, coalesced bs = true) rs) with (mp := new_MemPool base sz)
    (live := @nil (Z * Z)) (bs := [(sz - HDR, true)])
    as (mp & live & bs & ?); [| |done| |done|by exists mp, live, bs].
  - intros l s n r. apply take_block_coalesced.
  - apply free_merge_coalesces.
  - by apply pool_inv_fresh, dll_new_MemPool_rep.
Qed.

(** C1: a client that only frees what it holds never makes the pool fault: for
    every sequence of allocations and frees the pool answers, the regions the
    client holds lie inside the buffer behind a header each, any two of them
    are disjoint with room for a header in between, and once everything has
    been freed, in whatever order, the buffer is one single free block again. *)
Theorem MemPool_client_safe base sz rs :
  0 < base → base + sz ≤ 2 ^ 64 → sizeof_MemBlock ≤ sz → Forall request_ok rs →
  ∃ mp live, serve rs (new_MemPool base sz) [] = Ret (mp, live) ∧
    inside base sz live ∧ separated live ∧
    (live = [] → mem mp !! base = Some (mkMemBlock (sz - sizeof_MemBlock) 0 0 true)).
Proof.
  intros Hb H64 Hsz Hrs.
  destruct (DLL_serve base sz rs Hb H64 Hsz Hrs) as (mp & live & bs & E & Hinv & Hc & <- & <-).
  exists mp, live. split; [done|]. split; [exact (pool_inv_inside mp live bs Hinv)|].
  split; [exact (pool_inv_separated mp live bs Hinv)|].
  intros ->. pose proof (rep_chain mp bs (pi_rep _ _ _ Hinv)) as Hch.
  rewrite (pool_inv_all_free mp bs Hinv Hc) in Hch. by destruct Hch.
Qed.

Lemma MemPool_client_safe_witness :
  ∃ mp live, serve [ReqAlloc 100; ReqAlloc 200; ReqAlloc 300; ReqFree 1; ReqFree 0; ReqFree 0]
               (new_MemPool 4096 1024) [] = Ret (mp, live) ∧ live = [] ∧
             mem mp !! 4096 = Some (mkMemBlock 992 0 0 true).
Proof.
  destruct (MemPool_client_safe 4096 1024
    [ReqAlloc 100; ReqAlloc 200; ReqAlloc 300; ReqFree 1; ReqFree 0; ReqFree 0])
    as (mp & live & E & _ & _ & Hfin).
  - lia.
  - lia.
  - vm_compute. discriminate.
  - repeat constructor; simpl; lia.
  - exists mp, live. split; [exact E|].
    assert (live = []) as ->; [|by split; [|apply Hfin]].
    vm_compute in E. injection E as _ E. by rewrite <-E.
Defined.

(** C23: in every state a client can reach, [alloc] returns the null pointer
    exactly when no free block of the list is as large as the request, and then
    changes nothing. *)
Theorem MemPool_alloc_null_iff base sz rs mp live n :
  0 < base → base + sz ≤ 2 ^ 64 → sizeof_MemBlock ≤ sz → Forall request_ok rs →
  serve rs (new_MemPool base sz) [] = Ret (mp, live) → 0 ≤ n < 2 ^ 64 →
  ∃ bs, rep mp bs ∧ coalesced bs = true ∧
    ((∃ mp', alloc mp n = Ret (0, mp')) ↔ ∀ s, (s, true) ∈ bs → s < n) ∧
    ((∃ mp', alloc mp n = Ret (0, mp')) → alloc mp n = Ret (0, mp)).
Proof.
  intros Hb H64 Hsz Hrs Hserve Hn.
  destruct (DLL_serve base sz rs Hb H64 Hsz Hrs) as (mp1 & live1 & bs & E & Hinv & Hc & _).
  rewrite Hserve in E. injection E as <- <-.
  exists bs. split; [by apply pi_rep in Hinv|]. split; [done|].
  exact (pool_alloc_null_iff mp live bs n Hinv Hn (Z.le_refl n)).
Qed.

Lemma MemPool_alloc_null_iff_witness :
  ∃ mp live bs, serve [ReqAlloc 100; ReqAlloc 200] (new_MemPool 4096 1024) [] = Ret (mp, live) ∧
    rep mp bs ∧ alloc mp 800 = Ret (0, mp).
Proof.
  destruct (serve [ReqAlloc 100; ReqAlloc 200] (new_MemPool 4096 1024) []) as [[mp live]|] eqn:E;
    [|vm_compute in E; discriminate E].
  destruct (MemPool_alloc_null_iff 4096 1024 [ReqAlloc 100; ReqAlloc 200] mp live 800)
    as (bs & R & _ & _ & Hnull).
  - lia.
  - lia.
  - vm_compute. discriminate.
  - repeat constructor; simpl; lia.
  - exact E.
  - lia.
  - exists mp, live, bs. split; [done|]. split; [exact R|]. apply Hnull.
    vm_compute in E. injection E as <- _. eexists. vm_compute. reflexivity.
Defined.

(** The C [mempool_init] refuses a buffer that cannot hold a header and
    every later [mempool_alloc] returns null, while the C++ constructor has no
    such check: for a buffer of fewer than [sizeof(MemBlock)] bytes the size of
    the first block wraps around and [alloc] hands out memory behind the
    buffer's end. *)
Theorem small_pool_C_refuses_Cpp_overruns mp base sz n :
  0 < base → 0 ≤ sz < sizeof_MemBlock → 0 ≤ n < 2 ^ 63 →
  (∃ mp', mempool_init (Some mp) base sz = Some mp' ∧
          mempool_alloc (Some mp') n = Ret (0, Some mp')) ∧
  (∃ mp', alloc (new_MemPool base sz) n = Ret (base + sizeof_MemBlock, mp')) ∧
  base + sz < base + sizeof_MemBlock.
Proof.
  intros Hb Hsz Hn. split; [|split; [|lia]].
  - simpl. rewrite (proj2 (Z.leb_le sz HDR)) by lia. simpl. eexists; split; [done|]. done.
  - unfold alloc, new_MemPool. simpl head. simpl mem. rewrite map_size_singleton.
    set (s := u64 (sz - HDR)).
    assert (s = sz - HDR + 2 ^ 64) as Es.
    { unfold s, u64. symmetry. apply (Z.mod_unique _ _ (-1)); unfold sizeof_MemBlock in *; lia. }
    unfold sizeof_MemBlock in *.
    cbn [alloc_loop head mem pool]. rewrite (proj2 (Z.eqb_neq base 0)) by lia.
    rewrite (dll_load_Some _ base _ (lookup_singleton_eq base _)) by lia. rewrite bind_Ret.
    cbn [is_free size next]. rewrite (proj2 (Z.leb_le n s)) by lia. simpl andb. cbv iota.
    unfold sizeof_MemBlock. rewrite (u64_small (n + 32)) by lia. rewrite (proj2 (Z.ltb_lt (n + 32) s)) by lia.
    unfold split_block. simpl next. simpl size. simpl (0 =? 0). cbv iota. rewrite bind_Ret.
    unfold sizeof_MemBlock.
    erewrite dll_update_Some; [|rewrite lookup_insert_ne by lia; apply lookup_singleton_eq|lia].
    rewrite bind_Ret. erewrite dll_update_Some; [|apply lookup_insert_eq|lia]. rewrite bind_Ret.
    erewrite dll_update_Some; [|apply lookup_insert_eq|lia]. rewrite !bind_Ret. by eexists.
Qed.

Lemma small_pool_witness :
  (∃ mp', alloc (new_MemPool 4096 16) 1000000 = Ret (4128, mp')) ∧ 4096 + 16 < 4128.
Proof.
  pose proof (small_pool_C_refuses_Cpp_overruns (mkMemPool 0 0 0 ∅) 4096 16 1000000) as W.
  destruct W as (_ & W1 & W2); [lia|vm_compute; intuition discriminate|lia|]. split; [exact W1|exact W2].
Defined.
