(* ===== verification/MemPoolSLL.v ===== *)
(** * memorypool/memorypoolSLL.cpp, memorypoolSLL.c and memorypool.c

    The three pool allocators whose block headers form a singly linked list.
    They share the header layout (24 bytes) and the first-fit search and differ
    in when a block is split, in the rounding of requests and in the coalescing
    pass of [free]: [alloc] and [free] are the methods of the C++ class,
    [mempool_init], [mempool_alloc] and [mempool_free] the functions of
    memorypoolSLL.c, and the definitions with the prefix [static_] those of
    memorypool.c, which serves a static 1024-byte buffer.

    Headers are a finite map from addresses to [MemBlock]s as in [MemPoolDLL];
    loops run with one unit of fuel per header and one more. *)

From stdpp Require Import base list gmap numbers.
From Stdlib Require Import ZArith Lia.
From S2P Require Import Prelude Blocks PoolClient.

(** [sizeof(MemBlock)]: two 8-byte words and a bool, padded. *)
Definition sizeof_MemBlock : Z := 24.
Abbreviation HDR := sizeof_MemBlock.
Abbreviation span := (Blocks.span HDR).

Record MemBlock := mkMemBlock {
  size : Z;
  next : Z;
  is_free : bool;
}.

Record MemPool := mkMemPool {
  pool : Z;
  poolSize : Z;
  head : Z;
  mem : gmap Z MemBlock;
}.

Definition with_mem (mp : MemPool) (m : gmap Z MemBlock) : MemPool :=
  mkMemPool (pool mp) (poolSize mp) (head mp) m.

Definition set_size (s : Z) (b : MemBlock) := mkMemBlock s (next b) (is_free b).
Definition set_next (n : Z) (b : MemBlock) := mkMemBlock (size b) n (is_free b).
Definition set_free (f : bool) (b : MemBlock) := mkMemBlock (size b) (next b) f.

Definition load (m : gmap Z MemBlock) (a : Z) : outcome MemBlock :=
  if a =? 0 then Err NullDeref else of_option DanglingPtr (m !! a).
Definition update (m : gmap Z MemBlock) (a : Z) (g : MemBlock → MemBlock)
    : outcome (gmap Z MemBlock) :=
  b ← load m a; Ret (<[a := g b]> m).

(** ** First-fit search, with the program's test for splitting a block *)

Fixpoint alloc_loop (splits : Z → Z → bool) (fuel : nat) (m : gmap Z MemBlock) (current sz : Z)
    : outcome (Z * gmap Z MemBlock) :=
  match fuel with
  | O => Err OutOfFuel
  | S fuel =>
      if current =? 0 then Ret (0, m) else
      cur ← load m current;
      if is_free cur && (sz <=? size cur) then
        m ← (if splits (size cur) sz then
               let newBlock := current + sizeof_MemBlock + sz in
               let m := <[newBlock := mkMemBlock (u64 (size cur - sz - sizeof_MemBlock))
                                        (next cur) true]> m in
               m ← update m current (set_size sz);
               update m current (set_next newBlock)
             else Ret m);
        m ← update m current (set_free false);
        Ret (current + sizeof_MemBlock, m)
      else alloc_loop splits fuel m (next cur) sz
  end.

(** [current->size > size + sizeof(MemBlock)] *)
Definition splits_gt (s sz : Z) : bool := u64 (sz + sizeof_MemBlock) <? s.
(** [current->size >= size + sizeof(mem_block_t) + 4] *)
Definition splits_ge4 (s sz : Z) : bool := u64 (u64 (sz + sizeof_MemBlock) + 4) <=? s.

(** The merge step the three coalescing passes share: absorb the next block. *)
Definition absorb (m : gmap Z MemBlock) (current : Z) (cur nb : MemBlock)
    : outcome (gmap Z MemBlock) :=
  m ← update m current (set_size (u64 (size cur + (sizeof_MemBlock + size nb))));
  update m current (set_next (next nb)).

(** ** MemPool (memorypoolSLL.cpp) *)

Definition new_MemPool (base sz : Z) : MemPool :=
  mkMemPool base sz base {[ base := mkMemBlock (u64 (sz - sizeof_MemBlock)) 0 true ]}.

Definition alloc (mp : MemPool) (sz : Z) : outcome (Z * MemPool) :=
  '(p, m) ← alloc_loop splits_gt (S (base.size (mem mp))) (mem mp) (head mp) sz;
  Ret (p, with_mem mp m).

(** [while (current != nullptr) { if (...) merge; current = current->next; }] *)
Fixpoint free_pass (fuel : nat) (m : gmap Z MemBlock) (current : Z) : outcome (gmap Z MemBlock) :=
  match fuel with
  | O => Err OutOfFuel
  | S fuel =>
      if current =? 0 then Ret m else
      cur ← load m current;
      m ← (if is_free cur && negb (next cur =? 0) then
             nb ← load m (next cur);
             if is_free nb then absorb m current cur nb else Ret m
           else Ret m);
      cur ← load m current;
      free_pass fuel m (next cur)
  end.

(** There is no null check in the C++ version. *)
Definition free (mp : MemPool) (ptr : Z) : outcome MemPool :=
  m ← update (mem mp) (ptr - sizeof_MemBlock) (set_free true);
  m ← free_pass (S (base.size m)) m (head mp);
  Ret (with_mem mp m).

(** ** memorypoolSLL.c

    [mempool_init] is given the address [malloc] returns, 0 for a failure; the
    null pool pointer is [None]. *)

Definition mempool_init (mp : option MemPool) (malloc : Z) (sz : Z) : option MemPool :=
  match mp with
  | None => None
  | Some mp =>
      Some (if (sz <=? sizeof_MemBlock) || (malloc =? 0) then mkMemPool 0 0 0 (mem mp)
            else mkMemPool malloc sz malloc
                   (<[malloc := mkMemBlock (u64 (sz - sizeof_MemBlock)) 0 true]> (mem mp)))
  end.

Definition mempool_alloc (mp : option MemPool) (sz : Z) : outcome (Z * option MemPool) :=
  match mp with
  | None => Ret (0, None)
  | Some mp =>
      if head mp =? 0 then Ret (0, Some mp) else
      '(p, m) ← alloc_loop splits_gt (S (base.size (mem mp))) (mem mp) (head mp) sz;
      Ret (p, Some (with_mem mp m))
  end.

(** [while (current != NULL) { if (...) { merge; continue; } current = current->next; }] *)
Fixpoint mempool_free_pass (fuel : nat) (m : gmap Z MemBlock) (current : Z)
    : outcome (gmap Z MemBlock) :=
  match fuel with
  | O => Err OutOfFuel
  | S fuel =>
      if current =? 0 then Ret m else
      cur ← load m current;
      if is_free cur && negb (next cur =? 0) then
        nb ← load m (next cur);
        if is_free nb then m ← absorb m current cur nb; mempool_free_pass fuel m current
        else mempool_free_pass fuel m (next cur)
      else mempool_free_pass fuel m (next cur)
  end.

Definition mempool_free (mp : option MemPool) (ptr : Z) : outcome (option MemPool) :=
  match mp with
  | None => Ret None
  | Some mp =>
      if (ptr =? 0) || (head mp =? 0) then Ret (Some mp) else
      m ← update (mem mp) (ptr - sizeof_MemBlock) (set_free true);
      m ← mempool_free_pass (S (base.size m)) m (head mp);
      Ret (Some (with_mem mp m))
  end.

Definition mempool_destroy (mp : option MemPool) : option MemPool :=
  (λ mp, mkMemPool 0 0 0 ∅) <$> mp.

(** ** memorypool.c *)

Definition POOL_SIZE : Z := 1024.
(** [(((x) + 3) & ~3)] on [size_t]. *)
Definition ALIGN4 (x : Z) : Z := Z.land (u64 (x + 3)) (u64 (Z.lnot 3)).

Definition static_mempool_init (pool_memory : Z) : MemPool :=
  mkMemPool pool_memory POOL_SIZE pool_memory
    {[ pool_memory := mkMemBlock (POOL_SIZE - sizeof_MemBlock) 0 true ]}.

Definition static_mempool_alloc (mp : MemPool) (req_size : Z) : outcome (Z * MemPool) :=
  '(p, m) ← alloc_loop splits_ge4 (S (base.size (mem mp))) (mem mp) (head mp) (ALIGN4 req_size);
  Ret (p, with_mem mp m).

(** [while (current && current->next) { if (...) merge; else current = current->next; }] *)
Fixpoint static_free_pass (fuel : nat) (m : gmap Z MemBlock) (current : Z)
    : outcome (gmap Z MemBlock) :=
  match fuel with
  | O => Err OutOfFuel
  | S fuel =>
      if current =? 0 then Ret m else
      cur ← load m current;
      if next cur =? 0 then Ret m else
      if is_free cur then
        nb ← load m (next cur);
        if is_free nb then m ← absorb m current cur nb; static_free_pass fuel m current
        else static_free_pass fuel m (next cur)
      else static_free_pass fuel m (next cur)
  end.

Definition static_mempool_free (mp : MemPool) (ptr : Z) : outcome MemPool :=
  if ptr =? 0 then Ret mp else
  m ← update (mem mp) (ptr - sizeof_MemBlock) (set_free true);
  m ← static_free_pass (S (base.size m)) m (head mp);
  Ret (with_mem mp m).

(** ** Header chains *)

Definition link (a s : Z) (bs : blocks) (e : Z) : Z :=
  match bs with [] => e | _ => a + HDR + s end.

Fixpoint chain (m : gmap Z MemBlock) (a : Z) (bs : blocks) (e : Z) : Prop :=
  match bs with
  | [] => True
  | (s, f) :: bs => m !! a = Some (mkMemBlock s (link a s bs e) f) ∧ chain m (a + HDR + s) bs e
  end.

Lemma sll_H_pos : 0 < HDR. Proof. done. Qed.

Lemma sll_load_Some m a b : m !! a = Some b → a ≠ 0 → load m a = Ret b.
Proof. intros Hb Ha. unfold load. rewrite (proj2 (Z.eqb_neq a 0) Ha). by rewrite Hb. Qed.

Lemma sll_update_Some m a b g : m !! a = Some b → a ≠ 0 → update m a g = Ret (<[a := g b]> m).
Proof. intros Hb Ha. unfold update. by rewrite (sll_load_Some m a b). Qed.

Lemma sll_link_app a s l r e :
  link a s (l ++ r) e = link a s l (match r with [] => e | _ => a + HDR + s + span l end).
Proof. destruct l, r; simpl; try done. lia. Qed.

Lemma sll_chain_app m a l r e :
  chain m a (l ++ r) e ↔
  chain m a l (match r with [] => e | _ => a + span l end) ∧ chain m (a + span l) r e.
Proof.
  revert a. induction l as [|[s f] l IH]; intros a; simpl.
  - rewrite Z.add_0_r. tauto.
  - rewrite IH, sll_link_app. replace (a + (HDR + s + span l)) with (a + HDR + s + span l) by lia.
    tauto.
Qed.

Lemma sll_chain_frame m m' a bs e :
  sizes_ok bs → (∀ k, a ≤ k < a + span bs → m' !! k = m !! k) →
  chain m a bs e → chain m' a bs e.
Proof.
  revert a. induction bs as [|[s f] bs IH]; intros a Hok Hk; simpl; [done|].
  apply sizes_ok_cons in Hok as [Hs Hok]. pose proof (span_nonneg HDR sll_H_pos bs Hok).
  simpl in Hk. pose proof sll_H_pos.
  intros [Hm Hc]. rewrite Hk by lia. split; [done|]. apply IH; [done| |done].
  intros k Hk'. apply Hk. lia.
Qed.

Lemma sll_chain_length m a bs e : sizes_ok bs → chain m a bs e → (length bs ≤ base.size m)%nat.
Proof.
  revert m a. induction bs as [|[s f] bs IH]; intros m a Hok Hc; simpl in *; [lia|].
  apply sizes_ok_cons in Hok as [Hs Hok]. destruct Hc as [Hm Hc].
  rewrite <-(insert_delete_id m a _ Hm), map_size_insert_None by apply lookup_delete_eq.
  apply le_n_S, (IH _ (a + HDR + s)); [done|]. pose proof sll_H_pos.
  apply (sll_chain_frame m); [done| |done]. intros k Hk. apply lookup_delete_ne. lia.
Qed.

Definition first_addr (a : Z) (bs : blocks) : Z := match bs with [] => 0 | _ => a end.

(** Writing the header of the first block. *)
Lemma chain_rehead m a s f s' f' bs bs' e :
  0 ≤ s → sizes_ok bs → chain m a ((s, f) :: bs) e →
  a + HDR + s' = a + HDR + s → bs' = bs →
  chain (<[a := mkMemBlock s' (link a s' bs' e) f']> m) a ((s', f') :: bs') e.
Proof.
  intros Hs Hok [Hm Hc] Ea ->. pose proof sll_H_pos. split; [apply lookup_insert_eq|].
  rewrite Ea. apply (sll_chain_frame m); [done| |done]. intros k Hk. apply lookup_insert_ne. lia.
Qed.

(** ** Allocation *)

Definition splits_like (splits : Z → Z → bool) (slack lim : Z) : Prop :=
  ∀ s n, 0 ≤ n ≤ s → s + HDR ≤ lim → splits s n = (n + HDR + slack <? s).

Lemma splits_gt_like : splits_like splits_gt 0 (2 ^ 64 - 1).
Proof.
  intros s n Hn Hs. unfold splits_gt. pose proof sll_H_pos.
  rewrite u64_small, Z.add_0_r by lia. done.
Qed.

Lemma splits_ge4_like : splits_like splits_ge4 3 POOL_SIZE.
Proof.
  intros s n Hn Hs. unfold splits_ge4, POOL_SIZE, sizeof_MemBlock in *.
  rewrite (u64_small (n + 24)), u64_small by lia.
  destruct (Z.leb_spec (n + 24 + 4) s), (Z.ltb_spec (n + 24 + 3) s); done || lia.
Qed.

Lemma sll_alloc_loop_spec splits slack lim bs : ∀ fuel m a sz,
  splits_like splits slack lim → 0 ≤ slack → span bs ≤ lim →
  0 < a → a + span bs ≤ 2 ^ 64 → 0 ≤ sz → sizes_ok bs → (length bs < fuel)%nat → chain m a bs 0 →
  match first_fit HDR slack a bs sz with
  | None => alloc_loop splits fuel m (first_addr a bs) sz = Ret (0, m)
  | Some (q, bs') =>
      ∃ m', alloc_loop splits fuel m (first_addr a bs) sz = Ret (q, m') ∧
            chain m' a bs' 0 ∧ ∀ k, k < a → m' !! k = m !! k
  end.
Proof.
  induction bs as [|[s f] bs IH]; intros fuel m a sz Hsp Hsl Hlim Ha Hb Hsz Hok Hf Hc;
    (destruct fuel as [|fuel]; [simpl in Hf; lia|]); [done|].
  apply sizes_ok_cons in Hok as [Hs Hok]. pose proof (span_nonneg HDR sll_H_pos bs Hok).
  pose proof sll_H_pos. simpl in Hb, Hf, Hlim. pose proof Hc as [Hm Hc'].
  cbn [first_addr alloc_loop first_fit].
  rewrite (proj2 (Z.eqb_neq a 0)) by lia.
  rewrite (sll_load_Some m a _ Hm), bind_Ret by lia. cbn [is_free size next].
  destruct (f && (sz <=? s)) eqn:Ef.
  - apply andb_true_iff in Ef as [-> Hle%Z.leb_le]. rewrite Hsp by lia.
    unfold take_block. destruct (Z.ltb_spec (sz + HDR + slack) s) as [Hlt|Hge].
    + rewrite u64_small by lia.
      erewrite sll_update_Some; [|rewrite lookup_insert_ne by lia; exact Hm|lia]. rewrite bind_Ret.
      erewrite sll_update_Some; [|apply lookup_insert_eq|lia]. rewrite bind_Ret, insert_insert_eq.
      erewrite sll_update_Some; [|apply lookup_insert_eq|lia]. rewrite bind_Ret, insert_insert_eq.
      unfold set_size, set_next, set_free; cbn [size next is_free].
      eexists; split; [done|]. split; [|intros k Hk; rewrite !lookup_insert_ne by lia; done].
      split; [apply lookup_insert_eq|]. split.
      * rewrite lookup_insert_ne, lookup_insert_eq by lia. do 2 f_equal.
        destruct bs; simpl; lia.
      * replace (a + HDR + sz + HDR + (s - sz - HDR)) with (a + HDR + s) by lia.
        apply (sll_chain_frame m); [done| |done]. intros k Hk. rewrite !lookup_insert_ne by lia. done.
    + rewrite bind_Ret, (sll_update_Some m a _ _ Hm) by lia. eexists; split; [done|].
      split; [|intros k Hk; apply lookup_insert_ne; lia].
      by apply (chain_rehead m a s true s false bs).
  - specialize (IH fuel m (a + HDR + s) sz Hsp Hsl).
    replace (link a s bs 0) with (first_addr (a + HDR + s) bs) by done.
    destruct (first_fit HDR slack (a + HDR + s) bs sz) as [[q bs']|] eqn:E.
    + destruct IH as (m' & -> & Hc2 & Hk); try done; try lia. simpl.
      eexists; split; [done|]. split; [|intros k Hk'; apply Hk; lia].
      split; [|done]. rewrite Hk by lia. rewrite Hm. do 2 f_equal.
      apply first_fit_Some in E as (l & s1 & r & -> & _ & -> & _).
      unfold link. destruct l; [|done]. unfold take_block. by destruct (_ <? _).
    + simpl. apply IH; try done; lia.
Qed.

(** ** Coalescing passes *)

Lemma absorb_spec m a s ns r e :
  0 < a → a + HDR + s + HDR + ns ≤ 2 ^ 64 → 0 ≤ s → 0 ≤ ns → sizes_ok r →
  chain m a ((s, true) :: (ns, true) :: r) e →
  ∃ m', absorb m a (mkMemBlock s (a + HDR + s) true) (mkMemBlock ns (link (a + HDR + s) ns r e) true)
          = Ret m' ∧
        chain m' a ((s + (HDR + ns), true) :: r) e ∧ ∀ k, k < a → m' !! k = m !! k.
Proof.
  intros Ha Hb Hs Hns Hok (Hm & Hn & Hc). pose proof sll_H_pos. unfold absorb. cbn [size next].
  rewrite (sll_update_Some m a _ _ Hm) by lia. rewrite bind_Ret.
  erewrite sll_update_Some; [|apply lookup_insert_eq|lia]. rewrite insert_insert_eq.
  unfold set_size, set_next; cbn [size next is_free]. rewrite u64_small by lia.
  eexists; split; [done|]. split; [|intros k Hk; apply lookup_insert_ne; lia]. split.
  - rewrite lookup_insert_eq. do 2 f_equal. destruct r; simpl; lia.
  - replace (a + HDR + (s + (HDR + ns))) with (a + HDR + s + HDR + ns) by lia.
    apply (sll_chain_frame m); [done| |done]. intros k Hk. apply lookup_insert_ne. lia.
Qed.

(** What a coalescing pass does to the chain of [bs]. *)
Definition passes (pass : nat → gmap Z MemBlock → Z → outcome (gmap Z MemBlock))
    (F : blocks → blocks) : Prop :=
  ∀ bs fuel m a, 0 < a → a + span bs ≤ 2 ^ 64 → sizes_ok bs → (length bs < fuel)%nat →
    chain m a bs 0 →
    ∃ m', pass fuel m (first_addr a bs) = Ret m' ∧ chain m' a (F bs) 0 ∧
          ∀ k, k < a → m' !! k = m !! k.

(** Prepending an untouched block to a coalesced tail. *)
Lemma chain_cons_pass (m m' : gmap Z MemBlock) a s f bs bs' :
  0 ≤ s → m !! a = Some (mkMemBlock s (link a s bs 0) f) →
  (bs = [] ↔ bs' = []) →
  chain m' (a + HDR + s) bs' 0 → (∀ k, k < a + HDR + s → m' !! k = m !! k) →
  chain m' a ((s, f) :: bs') 0 ∧ ∀ k, k < a → m' !! k = m !! k.
Proof.
  intros Hs Hm He Hc Hk. pose proof sll_H_pos. split; [|intros k Hka; apply Hk; lia].
  split; [|done]. rewrite Hk, Hm by lia. do 2 f_equal. destruct bs, bs'; try done; naive_solver.
Qed.

Lemma free_pass_spec : passes free_pass (pass_once HDR).
Proof.
  intros bs. induction bs as [|s ns bs IH|s f bs Hne IH] using blocks_pass_ind;
    intros fuel m a Ha Hb Hok Hf Hc; (destruct fuel as [|fuel]; [simpl in Hf; lia|]).
  - by exists m.
  - apply sizes_ok_cons in Hok as [Hs [Hns Hok]%sizes_ok_cons]. pose proof sll_H_pos.
    simpl in Hb, Hf. pose proof (span_nonneg HDR sll_H_pos bs Hok). pose proof Hc as (Hm & Hn & _).
    cbn [first_addr free_pass]. rewrite (proj2 (Z.eqb_neq a 0)) by lia.
    rewrite (sll_load_Some m a _ Hm), bind_Ret by lia. cbn [is_free size next link].
    rewrite (proj2 (Z.eqb_neq (a + HDR + s) 0)) by lia. simpl andb. cbv iota.
    rewrite (sll_load_Some m _ _ Hn), bind_Ret by lia. cbn [is_free].
    destruct (absorb_spec m a s ns bs 0) as (m1 & -> & Hc1 & Hk1); auto; [lia|].
    rewrite bind_Ret. destruct Hc1 as [Hm1 Hc1]. rewrite (sll_load_Some m1 a _ Hm1), bind_Ret by lia.
    cbn [next]. destruct (IH fuel m1 (a + HDR + (s + (HDR + ns)))) as (m2 & E2 & Hc2 & Hk2);
      auto; [lia..|].
    change (link a (s + (HDR + ns)) bs 0) with (first_addr (a + HDR + (s + (HDR + ns))) bs).
    exists m2. split; [done|]. cbn [pass_once].
    destruct (chain_cons_pass m1 m2 a (s + (HDR + ns)) true bs (pass_once HDR bs)) as [? Hk];
      [lia|done| |done|done|].
    { destruct (pass_once_spec HDR sll_H_pos bs) as [? _]. destruct bs; naive_solver. }
    split; [done|]. intros k Hka. by rewrite Hk, Hk1.
  - rewrite pass_once_cons by done. apply sizes_ok_cons in Hok as [Hs Hok]. pose proof sll_H_pos.
    simpl in Hb, Hf. pose proof (span_nonneg HDR sll_H_pos bs Hok). pose proof Hc as (Hm & Hc').
    cbn [first_addr free_pass]. rewrite (proj2 (Z.eqb_neq a 0)) by lia.
    rewrite (sll_load_Some m a _ Hm), bind_Ret by lia. cbn [is_free size next].
    assert ((if f && negb (link a s bs 0 =? 0)
             then nb ← load m (link a s bs 0);
                  if is_free nb then absorb m a (mkMemBlock s (link a s bs 0) f) nb else Ret m
             else Ret m) = Ret m) as ->.
    { destruct f; [|done]. destruct bs as [|[ns [|]] bs]; [done|by destruct (Hne eq_refl ns bs)|].
      simpl link. rewrite (proj2 (Z.eqb_neq _ 0)) by lia. simpl andb. cbv iota.
      destruct Hc' as [Hn _]. rewrite (sll_load_Some m _ _ Hn) by lia. done. }
    rewrite bind_Ret, (sll_load_Some m a _ Hm), bind_Ret by lia. cbn [next].
    destruct (IH fuel m (a + HDR + s)) as (m2 & E2 & Hc2 & Hk2); auto; [lia..|].
    exists m2. split; [done|]. apply (chain_cons_pass m _ _ _ _ bs); try done.
    destruct (pass_once_spec HDR sll_H_pos bs) as [? _]. destruct bs; naive_solver.
Qed.

(** The two passes that stay on a block after a merge.  They test the same
    condition, so one step lemma serves both. *)
Definition stays (pass : nat → gmap Z MemBlock → Z → outcome (gmap Z MemBlock)) : Prop :=
  (∀ fuel m, pass (S fuel) m 0 = Ret m) ∧
  (∀ fuel m a s f, a ≠ 0 → m !! a = Some (mkMemBlock s 0 f) →
     pass (S (S fuel)) m a = Ret m) ∧
  (∀ fuel m a s n f nb, a ≠ 0 → n ≠ 0 → m !! a = Some (mkMemBlock s n f) → m !! n = Some nb →
     pass (S fuel) m a =
     (if f && is_free nb then m ← absorb m a (mkMemBlock s n f) nb; pass fuel m a
      else pass fuel m n)).

Lemma mempool_free_pass_stays : stays mempool_free_pass.
Proof.
  split; [done|]. split.
  - intros fuel m a s f Ha Hm. cbn [mempool_free_pass]. rewrite (proj2 (Z.eqb_neq a 0) Ha).
    rewrite (sll_load_Some m a _ Hm Ha), bind_Ret. by destruct f.
  - intros fuel m a s n f nb Ha Hn Hm Hmn. cbn [mempool_free_pass].
    rewrite (proj2 (Z.eqb_neq a 0) Ha), (sll_load_Some m a _ Hm Ha), bind_Ret. cbn [is_free next].
    rewrite (proj2 (Z.eqb_neq n 0) Hn), (sll_load_Some m n _ Hmn Hn), bind_Ret.
    by destruct f, nb as [? ? []].
Qed.

Lemma static_free_pass_stays : stays static_free_pass.
Proof.
  split; [done|]. split.
  - intros fuel m a s f Ha Hm. cbn [static_free_pass]. rewrite (proj2 (Z.eqb_neq a 0) Ha).
    by rewrite (sll_load_Some m a _ Hm Ha), bind_Ret.
  - intros fuel m a s n f nb Ha Hn Hm Hmn. cbn [static_free_pass].
    rewrite (proj2 (Z.eqb_neq a 0) Ha), (sll_load_Some m a _ Hm Ha), bind_Ret. cbn [is_free next].
    rewrite (proj2 (Z.eqb_neq n 0) Hn), (sll_load_Some m n _ Hmn Hn), bind_Ret.
    by destruct f, nb as [? ? []].
Qed.

Lemma stays_squash pass : stays pass → passes pass (squash_all HDR).
Proof.
  intros (P0 & P1 & P2) [|[s f] bs] fuel m a Ha Hb Hok Hf Hc.
  { destruct fuel; [simpl in Hf; lia|]. by exists m. }
  cbn [first_addr squash_all]. apply sizes_ok_cons in Hok as [Hs Hok]. pose proof sll_H_pos.
  revert s f fuel m a Ha Hb Hs Hok Hf Hc.
  induction bs as [|[ns nf] bs IH]; intros s f fuel m a Ha Hb Hs Hok Hf Hc; pose proof Hc as [Hm Hc'].
  - destruct fuel as [|[|fuel]]; [simpl in Hf; lia..|].
    rewrite (P1 fuel m a s f) by (done || lia). by exists m.
  - destruct fuel as [|fuel]; [simpl in Hf; lia|]. apply sizes_ok_cons in Hok as [Hns Hok].
    pose proof (span_nonneg HDR sll_H_pos bs Hok). pose proof Hc' as [Hn _]. simpl in Hb, Hf.
    cbn [link] in Hm. rewrite (P2 fuel m a s (a + HDR + s) f _ ltac:(lia) ltac:(lia) Hm Hn). cbn [is_free squash].
    destruct (f && nf) eqn:E.
    + apply andb_true_iff in E as [-> ->].
      destruct (absorb_spec m a s ns bs 0) as (m1 & E1 & Hc1 & Hk1); auto; [lia|].
      rewrite E1, bind_Ret.
      destruct (IH (s + (HDR + ns)) true fuel m1 a) as (m2 & E2 & Hc2 & Hk2); auto; try (simpl; lia).
      exists m2. split; [done|]. split; [done|]. intros k Hk. by rewrite Hk2, Hk1.
    + destruct (IH ns nf fuel m (a + HDR + s)) as (m2 & E2 & Hc2 & Hk2); auto; try (simpl; lia).
      exists m2. split; [done|]. apply (chain_cons_pass m _ _ _ _ ((ns, nf) :: bs)); try done.
      destruct (squash_spec HDR sll_H_pos bs ns nf) as [? _]. naive_solver.
Qed.

(** ** The pools as block lists *)

Record rep (mp : MemPool) (bs : blocks) : Prop := {
  rep_head : head mp = pool mp;
  rep_base : 0 < pool mp ∧ pool mp + poolSize mp ≤ 2 ^ 64;
  rep_span : span bs = poolSize mp;
  rep_sizes : sizes_ok bs;
  rep_nonempty : bs ≠ [];
  rep_chain : chain (mem mp) (pool mp) bs 0;
}.

Lemma sll_new_MemPool_rep base sz :
  0 < base → base + sz ≤ 2 ^ 64 → HDR ≤ sz → rep (new_MemPool base sz) [(sz - HDR, true)].
Proof.
  intros Hb H64 Hsz. pose proof sll_H_pos. unfold new_MemPool. rewrite u64_small by lia.
  split; simpl; try done; try lia.
  - repeat constructor. simpl. lia.
  - split; [apply lookup_singleton_eq|done].
Qed.

Definition same_buffer (mp mp' : MemPool) : Prop :=
  pool mp' = pool mp ∧ poolSize mp' = poolSize mp.

(** The search on a represented pool. *)
Lemma alloc_loop_rep splits slack lim mp bs sz :
  splits_like splits slack lim → 0 ≤ slack → poolSize mp ≤ lim → rep mp bs → 0 ≤ sz →
  match first_fit HDR slack (pool mp) bs sz with
  | None => alloc_loop splits (S (base.size (mem mp))) (mem mp) (head mp) sz = Ret (0, mem mp)
  | Some (q, bs') =>
      ∃ m, alloc_loop splits (S (base.size (mem mp))) (mem mp) (head mp) sz = Ret (q, m) ∧
           rep (with_mem mp m) bs'
  end.
Proof.
  intros Hlike Hsl Hlim [Hh [Hb H64] Hsp Hok Hne Hc] Hsz. rewrite Hh.
  pose proof (sll_alloc_loop_spec splits slack lim bs (S (base.size (mem mp))) (mem mp) (pool mp) sz
    Hlike Hsl) as Hal.
  replace (first_addr (pool mp) bs) with (pool mp) in Hal by (by destruct bs).
  specialize (Hal ltac:(lia) Hb ltac:(lia) Hsz Hok (le_n_S _ _ (sll_chain_length _ _ _ _ Hok Hc)) Hc).
  destruct (first_fit HDR slack (pool mp) bs sz) as [[q bs']|] eqn:E; [|done].
  destruct Hal as (m' & -> & Hc' & _). exists m'. split; [done|].
  apply first_fit_Some in E as (l & s & r & -> & Hle & -> & _).
  apply sizes_ok_app in Hok as [Hl [Hs Hr]%sizes_ok_cons].
  split; simpl; auto.
  - rewrite <-Hsp, !span_app, take_block_span. done.
  - apply sizes_ok_app. split; [done|]. apply take_block_sizes; first [done|lia].
  - unfold take_block. by destruct l, (_ <? _).
Qed.

(** Marking a block free and running a coalescing pass. *)
Lemma free_pass_rep pass F mp l s r :
  passes pass F → rep mp (l ++ (s, false) :: r) →
  (let bs := F (l ++ (s, true) :: r) in
   span bs = span (l ++ (s, false) :: r) ∧ sizes_ok bs ∧ bs ≠ []) →
  0 < pool mp + span l ∧
  ∃ m1 m2, update (mem mp) (pool mp + span l + HDR - HDR) (set_free true) = Ret m1 ∧
    pass (S (base.size m1)) m1 (head mp) = Ret m2 ∧
    rep (with_mem mp m2) (F (l ++ (s, true) :: r)).
Proof.
  intros Hpass [Hh [Hb H64] Hsp Hok Hne Hc] (HspF & HszF & HneF). pose proof sll_H_pos.
  pose proof Hok as [Hl [Hs Hr]%sizes_ok_cons]%sizes_ok_app.
  pose proof (span_nonneg HDR sll_H_pos l Hl). pose proof (span_nonneg HDR sll_H_pos r Hr).
  split; [lia|].
  replace (pool mp + span l + HDR - HDR) with (pool mp + span l) by lia.
  pose proof Hc as [Hcl [Hm Hcr]]%sll_chain_app.
  rewrite (sll_update_Some _ _ _ _ Hm) by lia. unfold set_free; cbn [size next].
  set (m1 := <[_ := _]> (mem mp)).
  assert (chain m1 (pool mp) (l ++ (s, true) :: r) 0) as Hc1.
  { apply sll_chain_app. split.
    - apply (sll_chain_frame (mem mp)); [done| |done]. intros k Hk. apply lookup_insert_ne. lia.
    - split; [apply lookup_insert_eq|]. apply (sll_chain_frame (mem mp)); [done| |done].
      intros k Hk. apply lookup_insert_ne. lia. }
  assert (sizes_ok (l ++ (s, true) :: r)) as Hok1.
  { apply sizes_ok_app. split; [done|]. by apply sizes_ok_cons. }
  assert (span (l ++ (s, true) :: r) = poolSize mp) as Hsp1 by (by rewrite <-Hsp, !span_app).
  destruct (Hpass (l ++ (s, true) :: r) (S (base.size m1)) m1 (pool mp)) as (m2 & E & Hc2 & _);
    auto; [lia|apply le_n_S; by eapply sll_chain_length|].
  exists m1, m2. split; [done|]. split.
  - rewrite Hh, <-E. by destruct l.
  - split; simpl; auto. by rewrite HspF.
Qed.

(** ** Rounding *)

Lemma ALIGN4_spec x : 0 ≤ x < 2 ^ 64 - 3 → ALIGN4 x = 4 * ((x + 3) / 4).
Proof.
  intros Hx. unfold ALIGN4. rewrite u64_small by lia.
  replace (u64 (Z.lnot 3)) with (Z.ldiff (Z.ones 64) (Z.ones 2)) by reflexivity.
  assert (Z.land (x + 3) (Z.ldiff (Z.ones 64) (Z.ones 2)) = Z.ldiff (x + 3) (Z.ones 2)) as ->.
  { rewrite !Z.ldiff_land, Z.land_assoc, Z.land_ones, Z.mod_small by lia. done. }
  rewrite Z.ldiff_ones_r, Z.shiftl_mul_pow2, Z.shiftr_div_pow2 by lia.
  change (2 ^ 2) with 4. lia.
Qed.

Lemma ALIGN4_nonneg x : 0 ≤ ALIGN4 x.
Proof. unfold ALIGN4. apply Z.land_nonneg. left. apply u64_range. Qed.

Lemma ALIGN4_divide x : (4 | ALIGN4 x).
Proof.
  unfold ALIGN4. set (y := u64 (x + 3)).
  replace (u64 (Z.lnot 3)) with (Z.shiftl (Z.ones 62) 2) by reflexivity.
  apply Z.mod_divide; [lia|]. change 4 with (2 ^ 2). rewrite <-Z.land_ones by lia.
  apply Z.bits_inj'. intros n Hn. rewrite !Z.land_spec, Z.shiftl_spec, Z.bits_0 by done.
  destruct (decide (n < 2)) as [Hlt|Hge].
  - rewrite (Z.testbit_neg_r _ (n - 2)) by lia. by rewrite andb_false_r.
  - rewrite (Z.ones_spec_high 2 n) by lia. by rewrite andb_false_r.
Qed.

(** Payload sizes that are multiples of 4. *)
Definition aligned (bs : blocks) : Prop := Forall (λ b, (4 | b.1)) bs.

Lemma aligned_take slack l s sz r :
  aligned (l ++ (s, true) :: r) → (4 | sz) → aligned (l ++ take_block HDR slack s sz r).
Proof.
  unfold aligned, take_block. intros [Hl [Hs Hr]%Forall_cons_1]%Forall_app Hz.
  apply Forall_app. split; [done|]. simpl in Hs. destruct (_ <? _); repeat constructor; try done.
  simpl. apply Z.divide_sub_r; [by apply Z.divide_sub_r|]. by exists 6.
Qed.

Lemma aligned_squash bs s f : (4 | s) → aligned bs → aligned (squash HDR s f bs).
Proof.
  revert s f. induction bs as [|[ns nf] bs IH]; intros s f Hs Hb; simpl; [by repeat constructor|].
  apply Forall_cons_1 in Hb as [Hn Hb]. simpl in Hn. destruct (f && nf).
  - apply IH; [|done]. apply Z.divide_add_r; [done|]. apply Z.divide_add_r; [by exists 6|done].
  - constructor; [done|]. by apply IH.
Qed.

Lemma aligned_span bs : aligned bs → (4 | span bs).
Proof.
  induction 1 as [|[s f] bs Hs _ IH]; simpl in *; [by exists 0|].
  apply Z.divide_add_r; [|done]. apply Z.divide_add_r; [by exists 6|done].
Qed.

Lemma aligned_allocs a bs p s : aligned bs → (4 | a) → (p, s) ∈ allocs HDR a bs → (4 | p).
Proof.
  intros Hal Ha (l & r & -> & ->)%allocs_elem. apply Forall_app in Hal as [Hl _].
  apply Z.divide_add_r; [|by exists 6]. apply Z.divide_add_r; [done|]. by apply aligned_span.
Qed.

(** ** The pool interface, three times *)

Definition release_squash (l : blocks) (s : Z) (r : blocks) : blocks :=
  squash_all HDR (l ++ (s, true) :: r).
Definition release_once (l : blocks) (s : Z) (r : blocks) : blocks :=
  pass_once HDR (l ++ (s, true) :: r).

Definition SLL_cpp_pool : Pool MemPool.
Proof.
  refine {| p_hdr := HDR; p_slack := 0; p_base := pool; p_size := poolSize; p_round := id;
            p_alloc := alloc; p_free := free; p_rep := rep; p_release := release_once |}.
  - done.
  - done.
  - intros mp bs R. destruct R as [? [? ?] ? ? ? ?]. done.
  - intros mp bs sz R Hsz. unfold alloc, id.
    pose proof (alloc_loop_rep splits_gt 0 (2 ^ 64 - 1) mp bs sz splits_gt_like) as Hal.
    pose proof (rep_base _ _ R).
    specialize (Hal ltac:(lia) ltac:(lia) R ltac:(lia)).
    destruct (first_fit HDR 0 (pool mp) bs sz) as [[q bs']|].
    + destruct Hal as (m & -> & R'). simpl. eauto.
    + rewrite Hal. simpl. by destruct mp.
  - intros mp l s r R. destruct (pass_once_release HDR sll_H_pos l s r) as (? & Hsz & _ & ?).
    destruct (free_pass_rep _ _ mp l s r free_pass_spec R) as (_ & m1 & m2 & E1 & E2 & R').
    { split; [done|]. split; [apply Hsz, R|done]. }
    unfold free. rewrite E1, bind_Ret, E2, bind_Ret. eauto.
  - intros l s r. apply (pass_once_release HDR sll_H_pos).
Defined.

Definition SLL_c_pool : Pool (option MemPool).
Proof.
  refine {| p_hdr := HDR; p_slack := 0; p_base := from_option pool 0;
            p_size := from_option poolSize 0; p_round := id;
            p_alloc := mempool_alloc; p_free := mempool_free;
            p_rep := λ o bs, ∃ mp, o = Some mp ∧ rep mp bs; p_release := release_squash |}.
  - done.
  - done.
  - intros o bs (mp & -> & R). destruct R as [? [? ?] ? ? ? ?]. done.
  - intros o bs sz (mp & -> & R) Hsz. unfold mempool_alloc, id. simpl from_option.
    pose proof (alloc_loop_rep splits_gt 0 (2 ^ 64 - 1) mp bs sz splits_gt_like) as Hal.
    pose proof (rep_base _ _ R). pose proof (rep_head _ _ R) as Hh.
    specialize (Hal ltac:(lia) ltac:(lia) R ltac:(lia)).
    rewrite (proj2 (Z.eqb_neq (head mp) 0)) by lia.
    destruct (first_fit HDR 0 (pool mp) bs sz) as [[q bs']|].
    + destruct Hal as (m & -> & R'). simpl. eauto 10.
    + rewrite Hal. simpl. by destruct mp.
  - intros o l s r (mp & -> & R). destruct (squash_all_spec HDR sll_H_pos l s r) as (? & ? & Hsz & _).
    destruct (free_pass_rep _ _ mp l s r (stays_squash _ mempool_free_pass_stays) R)
      as (Hpos & m1 & m2 & E1 & E2 & R').
    { split; [done|]. split; [apply Hsz, R|done]. }
    pose proof (rep_base _ _ R). pose proof (rep_head _ _ R) as Hh. pose proof sll_H_pos.
    unfold mempool_free. simpl from_option.
    rewrite (proj2 (Z.eqb_neq (head mp) 0)), (proj2 (Z.eqb_neq _ 0)) by lia. simpl orb. cbv iota.
    rewrite E1, bind_Ret, E2, bind_Ret. eauto 10.
  - intros l s r. destruct (squash_all_spec HDR sll_H_pos l s r) as (? & ? & ? & ? & ?). done.
Defined.

Definition static_pool : Pool MemPool.
Proof.
  refine {| p_hdr := HDR; p_slack := 3; p_base := pool; p_size := poolSize; p_round := ALIGN4;
            p_alloc := static_mempool_alloc; p_free := static_mempool_free;
            p_rep := λ mp bs, rep mp bs ∧ poolSize mp = POOL_SIZE ∧ aligned bs;
            p_release := release_squash |}.
  - done.
  - done.
  - intros mp bs (R & _). destruct R as [? [? ?] ? ? ? ?]. done.
  - intros mp bs sz (R & Hps & Hal4) Hsz. unfold static_mempool_alloc.
    pose proof (alloc_loop_rep splits_ge4 3 POOL_SIZE mp bs (ALIGN4 sz) splits_ge4_like) as Hal.
    specialize (Hal ltac:(lia) ltac:(lia) R (ALIGN4_nonneg sz)).
    destruct (first_fit HDR 3 (pool mp) bs (ALIGN4 sz)) as [[q bs']|] eqn:E.
    + destruct Hal as (m & -> & R'). simpl. eexists; split; [done|]. split; [|done].
      split; [done|]. split; [done|].
      apply first_fit_Some in E as (l & s & r & -> & _ & -> & _).
      apply aligned_take; [done|]. apply ALIGN4_divide.
    + rewrite Hal. simpl. by destruct mp.
  - intros mp l s r (R & Hps & Hal4).
    destruct (squash_all_spec HDR sll_H_pos l s r) as (? & ? & Hsz & _).
    destruct (free_pass_rep _ _ mp l s r (stays_squash _ static_free_pass_stays) R)
      as (Hpos & m1 & m2 & E1 & E2 & R').
    { split; [done|]. split; [apply Hsz, R|done]. }
    pose proof sll_H_pos. unfold static_mempool_free. rewrite (proj2 (Z.eqb_neq _ 0)) by lia.
    rewrite E1, bind_Ret, E2, bind_Ret. eexists; split; [done|]. split; [|done].
    split; [done|]. split; [done|]. unfold release_squash, squash_all.
    assert (aligned (l ++ (s, true) :: r)) as Hal.
    { apply Forall_app in Hal4 as [? Ha]. apply Forall_cons_1 in Ha as [? ?]. apply Forall_app. split; [done|]. by constructor. }
    destruct (l ++ (s, true) :: r) as [|[s0 f0] bs0]; [done|].
    apply Forall_cons_1 in Hal as [? ?]. by apply aligned_squash.
  - intros l s r. destruct (squash_all_spec HDR sll_H_pos l s r) as (? & ? & ? & ? & ?). done.
Defined.

(** ** The properties *)

Definition one_block (mp : MemPool) (sz : Z) : Prop :=
  mem mp !! pool mp = Some (mkMemBlock (sz - sizeof_MemBlock) 0 true).

Lemma rep_one_block mp s : rep mp [(s, true)] → one_block mp (s + HDR).
Proof. intros R. destruct (rep_chain _ _ R) as [Hm _]. unfold one_block. rewrite Hm. simpl. do 2 f_equal. lia. Qed.

Lemma squash_release_coalesces l s r : coalesced (release_squash l s r) = true.
Proof. by destruct (squash_all_spec HDR sll_H_pos l s r) as (_ & _ & _ & _ & ?). Qed.

Lemma mempool_init_rep mp0 base sz :
  0 < base → base + sz ≤ 2 ^ 64 → HDR < sz →
  ∃ mp, mempool_init (Some mp0) base sz = Some mp ∧ pool mp = base ∧ poolSize mp = sz ∧
        rep mp [(sz - HDR, true)].
Proof.
  intros Hb H64 Hsz. pose proof sll_H_pos. unfold mempool_init.
  rewrite (proj2 (Z.leb_gt sz HDR)), (proj2 (Z.eqb_neq base 0)) by lia. simpl orb. cbv iota.
  eexists; split; [done|]. do 2 (split; [done|]). rewrite u64_small by lia.
  split; simpl; try done; try lia.
  - repeat constructor. simpl. lia.
  - split; [apply lookup_insert_eq|done].
Qed.

(** Clients of memorypoolSLL.c: for every sequence of allocations and
    frees of held regions the pool answers without a fault, the regions held
    are inside the buffer and pairwise disjoint, and when all have been freed,
    in whatever order, the list is one free block spanning the buffer. *)
Theorem mempool_SLL_client_safe mp0 base sz rs :
  0 < base → base + sz ≤ 2 ^ 64 → sizeof_MemBlock < sz →
  Forall (@request_ok _ SLL_c_pool) rs →
  ∃ mp live, @serve _ SLL_c_pool rs (mempool_init (Some mp0) base sz) [] = Ret (Some mp, live) ∧
    @inside _ SLL_c_pool base sz live ∧ @separated _ SLL_c_pool live ∧
    pool mp = base ∧ (live = [] → one_block mp sz).
Proof.
  intros Hb H64 Hsz Hrs.
  destruct (mempool_init_rep mp0 base sz Hb H64 Hsz) as (mp1 & -> & Eb & Es & R).
  destruct (serve_inv (H := SLL_c_pool) (λ bs, coalesced bs = true) rs) with
    (mp := Some mp1) (live := @nil (Z * Z)) (bs := [(sz - HDR, true)])
    as (o & live & bs & E & Hinv & Hc & Hp & Hs); [| |done| |done|].
  - intros l s n r. apply take_block_coalesced.
  - intros l s r _. apply squash_release_coalesces.
  - apply (pool_inv_fresh (H := SLL_c_pool)). by exists mp1.
  - pose proof (pool_inv_inside o live bs Hinv) as Hin.
    pose proof (pool_inv_separated o live bs Hinv) as Hsep.
    destruct (pi_rep _ _ _ Hinv) as (mp & -> & Rf). simpl in Hp, Hs, Hin.
    exists mp, live. rewrite Hp, Hs, Eb, Es in Hin. split; [done|]. do 2 (split; [done|]).
    split; [congruence|]. intros ->.
    pose proof (pool_inv_all_free (Some mp) bs Hinv Hc) as ->. simpl in Rf.
    replace sz with (poolSize mp - HDR + HDR) by lia. by apply rep_one_block.
Qed.

Lemma mempool_SLL_client_safe_witness :
  ∃ mp live, @serve _ SLL_c_pool
      [ReqAlloc 100; ReqAlloc 200; ReqAlloc 300; ReqFree 1; ReqFree 0; ReqFree 0]
      (mempool_init (Some (mkMemPool 0 0 0 ∅)) 4096 1024) [] = Ret (Some mp, live) ∧
    live = [] ∧ one_block mp 1024.
Proof.
  destruct (mempool_SLL_client_safe (mkMemPool 0 0 0 ∅) 4096 1024
    [ReqAlloc 100; ReqAlloc 200; ReqAlloc 300; ReqFree 1; ReqFree 0; ReqFree 0])
    as (mp & live & E & _ & _ & _ & Hfin).
  - lia.
  - lia.
  - vm_compute. reflexivity.
  - repeat constructor; unfold p_round; simpl; unfold id; lia.
  - exists mp, live. split; [exact E|].
    assert (live = []) as ->; [|by split; [|apply Hfin]].
    vm_compute in E. injection E as _ E. by rewrite <-E.
Defined.

Lemma request_ok_static sz : 0 ≤ sz < 2 ^ 64 - 3 → @request_ok _ static_pool (ReqAlloc sz).
Proof.
  intros Hsz. simpl. rewrite ALIGN4_spec by done. split; [lia|].
  pose proof (Z.div_mod (sz + 3) 4). pose proof (Z.mod_pos_bound (sz + 3) 4). lia.
Qed.

(** Clients of memorypool.c with requests below [SIZE_MAX - 3]: no fault,
    held regions are inside the static buffer, pairwise disjoint, at addresses
    that are multiples of 4 when the buffer is, and freeing everything leaves
    one free block. *)
Theorem mempool_static_client_safe pool_memory rs :
  0 < pool_memory → pool_memory + POOL_SIZE ≤ 2 ^ 64 → (4 | pool_memory) →
  Forall (λ r, match r with ReqAlloc sz => 0 ≤ sz < 2 ^ 64 - 3 | ReqFree _ => True end) rs →
  ∃ mp live, @serve _ static_pool rs (static_mempool_init pool_memory) [] = Ret (mp, live) ∧
    @inside _ static_pool pool_memory POOL_SIZE live ∧ @separated _ static_pool live ∧
    Forall (λ r, (4 | r.1)) live ∧ (live = [] → one_block mp POOL_SIZE).
Proof.
  intros Hb H64 H4 Hrs.
  destruct (serve_inv (H := static_pool) (λ bs, coalesced bs = true) rs) with
    (mp := static_mempool_init pool_memory) (live := @nil (Z * Z))
    (bs := [(POOL_SIZE - HDR, true)])
    as (mp & live & bs & E & Hinv & Hc & Hp & Hs); [| | | |done|].
  - intros l s n r. apply take_block_coalesced.
  - intros l s r _. apply squash_release_coalesces.
  - eapply Forall_impl; [|exact Hrs]. intros [sz|k] Hr; [by apply request_ok_static|done].
  - apply (pool_inv_fresh (H := static_pool)). split; [|split; [done|]].
    + apply (sll_new_MemPool_rep pool_memory POOL_SIZE); done.
    + repeat constructor. by exists 250.
  - pose proof (pool_inv_inside mp live bs Hinv) as Hin.
    pose proof (pool_inv_separated mp live bs Hinv) as Hsep.
    pose proof (pi_room _ _ _ Hinv) as Hroom.
    destruct (pi_rep _ _ _ Hinv) as (R & Hps & Hal). simpl in Hp, Hs, Hin, Hroom.
    exists mp, live. rewrite Hp, Hs in Hin. do 3 (split; [done|]). split.
    + apply Forall_forall. intros [p n] (s & Hin' & _)%list_elem_of_In%Hroom. simpl.
      rewrite Hp in Hin'. by eapply aligned_allocs.
    + intros ->. pose proof (pool_inv_all_free mp bs Hinv Hc) as ->. simpl in R.
      rewrite Hps in R. by apply rep_one_block in R.
Qed.

Lemma mempool_static_client_safe_witness :
  ∃ mp live, @serve _ static_pool [ReqAlloc 101; ReqAlloc 202; ReqFree 1; ReqAlloc 3]
      (static_mempool_init 4096) [] = Ret (mp, live) ∧
    live = [(4120, 3); (4248, 202)] ∧ Forall (λ r, (4 | r.1)) live.
Proof.
  destruct (mempool_static_client_safe 4096 [ReqAlloc 101; ReqAlloc 202; ReqFree 1; ReqAlloc 3])
    as (mp & live & E & _ & _ & Hal & _).
  - lia.
  - vm_compute. discriminate.
  - by exists 1024.
  - repeat constructor; lia.
  - exists mp, live. split; [exact E|]. split; [|exact Hal].
    vm_compute in E. injection E as _ E. by rewrite <-E.
Defined.

(** The C++ [free] does not merge runs of three free blocks, the C version
    does: freeing three blocks in the order first, third, second leaves two
    adjacent free blocks in the C++ pool, so that a request for 900 of the 1000
    free bytes is refused there and served by the C version. *)
Theorem SLL_cpp_leaves_fragments :
  let rs := [ReqAlloc 100; ReqAlloc 200; ReqAlloc 300; ReqFree 2; ReqFree 0; ReqFree 0] in
  (∃ mp, @serve _ SLL_cpp_pool rs (new_MemPool 4096 1024) [] = Ret (mp, []) ∧
         rep mp [(324, true); (652, true)] ∧ alloc mp 900 = Ret (0, mp)) ∧
  (∃ mp mp', @serve _ SLL_c_pool rs (mempool_init (Some (mkMemPool 0 0 0 ∅)) 4096 1024) []
               = Ret (mp, []) ∧ mempool_alloc mp 900 = Ret (4120, mp')).
Proof.
  intros rs. split.
  - destruct (@serve _ SLL_cpp_pool rs (new_MemPool 4096 1024) []) as [[mp live]|] eqn:E;
      vm_compute in E; [|discriminate E].
    injection E as <- <-. eexists. split; [reflexivity|]. split; [|vm_compute; reflexivity].
    split; [done|done|done|repeat constructor; simpl; lia|done|]. vm_compute. repeat split; reflexivity.
  - destruct (@serve _ SLL_c_pool rs (mempool_init (Some (mkMemPool 0 0 0 ∅)) 4096 1024) [])
      as [[mp live]|] eqn:E; vm_compute in E; [|discriminate E].
    injection E as <- <-. do 2 eexists. split; [reflexivity|]. vm_compute. reflexivity.
Qed.

(** [ALIGN4] wraps around for the last three [size_t] values, so that
    [mempool_alloc] answers such a request with a block of zero bytes. *)
Theorem ALIGN4_wraps :
  ALIGN4 (2 ^ 64 - 1) = 0 ∧
  ∃ mp, static_mempool_alloc (static_mempool_init 4096) (2 ^ 64 - 1) = Ret (4120, mp) ∧
        mem mp !! 4096 = Some (mkMemBlock 0 4120 false).
Proof. split; [reflexivity|]. eexists. split; vm_compute; reflexivity. Qed.
