(* ===== verification/ProdCons.v ===== *)
(** * circularQueue/circularBufferStaticProdCons.cpp

    The blocking bounded buffer with [push], [pop] and [stop], used by any
    number of producer and consumer threads.  The mutex makes a critical
    section atomic, so a step of the system is one critical section of one
    thread, from acquiring the mutex to releasing it by returning or by
    blocking on a condition variable.  [push_section] and [pop_section] are the
    bodies of the methods; [step] interleaves them with notifications (which
    wake an arbitrary waiting thread), spurious wake-ups and new calls. *)

From stdpp Require Import base list numbers relations.
From Stdlib Require Import ZArith Lia.
From S2P Require Import Prelude Ring CircularBuffer.

Section prod_cons.
Context {T : Type} (T_default : T).

(** The ring members are those of [CircularBuffer.CircularBuffer]. *)
Record Buffer := mkBuffer {
  ring : CircularBuffer T;
  running_ : bool;
}.

Definition new_Buffer (capacity : Z) : Buffer :=
  mkBuffer (new_CircularBuffer T_default capacity) true.

(** What a critical section ends with: [wait] on the condition variable, or a
    return. *)
Inductive section_end := Blocks | Returns (ok : bool) (item : option T) (b : Buffer).

Definition push_section (item : T) (b : Buffer) : outcome section_end :=
  let cb := ring b in
  if negb ((size_ cb <? capacity_ cb) || negb (running_ b)) then Ret Blocks else
  if negb (running_ b) then Ret (Returns false None b) else
  buf ← vset (buffer_ cb) (head_ cb) item;
  h ← umod (u64 (head_ cb + 1)) (capacity_ cb);
  Ret (Returns true None
         (mkBuffer (mkCircularBuffer buf (capacity_ cb) h (tail_ cb) (u64 (size_ cb + 1)))
                   (running_ b))).

Definition pop_section (b : Buffer) : outcome section_end :=
  let cb := ring b in
  if negb ((0 <? size_ cb) || negb (running_ b)) then Ret Blocks else
  if (size_ cb =? 0) && negb (running_ b) then Ret (Returns false None b) else
  item ← vget (buffer_ cb) (tail_ cb);
  t ← umod (u64 (tail_ cb + 1)) (capacity_ cb);
  Ret (Returns true (Some item)
         (mkBuffer (mkCircularBuffer (buffer_ cb) (capacity_ cb) (head_ cb) t (u64 (size_ cb - 1)))
                   (running_ b))).

Definition stop_section (b : Buffer) : Buffer := mkBuffer (ring b) false.

(** ** Threads *)

Inductive thread :=
  | Idle
  | Pushing (item : T)     (* in [push], about to test the predicate *)
  | Popping                (* in [pop], about to test the predicate *)
  | PushWaits (item : T)   (* blocked on [not_full_] *)
  | PopWaits.              (* blocked on [not_empty_] *)

Record system := mkSystem {
  buf : Buffer;
  threads : list thread;
  pushed : list T;         (* items of the pushes that returned true, in order *)
  popped : list T;         (* items returned by [pop], in order *)
}.

Definition wake (t : thread) : thread :=
  match t with PushWaits x => Pushing x | PopWaits => Popping | t => t end.
Definition waits_full (t : thread) : bool := match t with PushWaits _ => true | _ => false end.
Definition waits_empty (t : thread) : bool := match t with PopWaits => true | _ => false end.
Definition in_push (t : thread) : bool := match t with Pushing _ => true | _ => false end.
Definition in_pop (t : thread) : bool := match t with Popping => true | _ => false end.

(** [notify_one]: wakes one thread that waits on the condition, if there is one. *)
Inductive notify_one (waits : thread → bool) (ts : list thread) : list thread → Prop :=
  | notify_none : countb waits ts = 0%nat → notify_one waits ts ts
  | notify_some i t : ts !! i = Some t → waits t = true → notify_one waits ts (<[i := wake t]> ts).

Inductive step : system → system → Prop :=
  | step_call s i t : threads s !! i = Some Idle → (t = Popping ∨ ∃ x, t = Pushing x) →
      step s (mkSystem (buf s) (<[i := t]> (threads s)) (pushed s) (popped s))
  | step_push_blocks s i x : threads s !! i = Some (Pushing x) →
      push_section x (buf s) = Ret Blocks →
      step s (mkSystem (buf s) (<[i := PushWaits x]> (threads s)) (pushed s) (popped s))
  | step_push_fails s i x b : threads s !! i = Some (Pushing x) →
      push_section x (buf s) = Ret (Returns false None b) →
      step s (mkSystem b (<[i := Idle]> (threads s)) (pushed s) (popped s))
  | step_push s i x b ts : threads s !! i = Some (Pushing x) →
      push_section x (buf s) = Ret (Returns true None b) →
      notify_one waits_empty (<[i := Idle]> (threads s)) ts →
      step s (mkSystem b ts (pushed s ++ [x]) (popped s))
  | step_pop_blocks s i : threads s !! i = Some Popping →
      pop_section (buf s) = Ret Blocks →
      step s (mkSystem (buf s) (<[i := PopWaits]> (threads s)) (pushed s) (popped s))
  | step_pop_fails s i b : threads s !! i = Some Popping →
      pop_section (buf s) = Ret (Returns false None b) →
      step s (mkSystem b (<[i := Idle]> (threads s)) (pushed s) (popped s))
  | step_pop s i x b ts : threads s !! i = Some Popping →
      pop_section (buf s) = Ret (Returns true (Some x) b) →
      notify_one waits_full (<[i := Idle]> (threads s)) ts →
      step s (mkSystem b ts (pushed s) (popped s ++ [x]))
  | step_stop s :
      step s (mkSystem (stop_section (buf s)) (wake <$> threads s) (pushed s) (popped s))
  | step_spurious s i t : threads s !! i = Some t → waits_full t || waits_empty t = true →
      step s (mkSystem (buf s) (<[i := wake t]> (threads s)) (pushed s) (popped s)).

(** Thread [i] is about to run a critical section that faults; [step] has no step
    for it. *)
Inductive faults (s : system) (i : nat) : fault → Prop :=
  | push_faults x f : threads s !! i = Some (Pushing x) → push_section x (buf s) = Err f → faults s i f
  | pop_faults f : threads s !! i = Some Popping → pop_section (buf s) = Err f → faults s i f.

Definition initial (capacity : Z) (n : nat) : system :=
  mkSystem (new_Buffer capacity) (replicate n Idle) [] [].

Definition reachable (capacity : Z) (n : nat) (s : system) : Prop :=
  rtc step (initial capacity n) s.

(** ** The critical sections on a represented buffer *)

Lemma push_section_rep cb vs x run :
  cb_rep cb vs →
  (run = true ∧ Z.of_nat (length vs) = capacity_ cb ∧
     push_section x (mkBuffer cb run) = Ret Blocks) ∨
  (run = false ∧ push_section x (mkBuffer cb run) = Ret (Returns false None (mkBuffer cb run))) ∨
  (run = true ∧ Z.of_nat (length vs) < capacity_ cb ∧
     ∃ cb', push_section x (mkBuffer cb run) = Ret (Returns true None (mkBuffer cb' run)) ∧
            cb_rep cb' (vs ++ [x]) ∧ capacity_ cb' = capacity_ cb).
Proof.
  intros R. unfold push_section. cbn [ring running_].
  destruct run; [|right; left; split; [done|]; by rewrite orb_true_r].
  rewrite orb_false_r, (rep_size _ _ R). pose proof (rep_bound _ _ R). pose proof (rep_cap _ _ R).
  destruct (Z.ltb_spec (Z.of_nat (length vs)) (capacity_ cb)) as [Hlt|Hge]; simpl negb; cbv iota.
  - right; right. split; [done|]. split; [done|].
    destruct (push_rep cb vs x R) as (cb' & E & R' & Hc); [lia|].
    exists cb'. split; [|done]. unfold push in E. rewrite (full_rep cb vs R) in E.
    rewrite (proj2 (Z.eqb_neq _ _)) in E by lia. rewrite (rep_size _ _ R) in E.
    apply bind_Ret_inv in E as (b & -> & E). apply bind_Ret_inv in E as (h & -> & E).
    by injection E as <-.
  - left. split; [done|]. split; [lia|done].
Qed.

Lemma pop_section_rep cb vs run :
  cb_rep cb vs →
  (run = true ∧ vs = [] ∧ pop_section (mkBuffer cb run) = Ret Blocks) ∨
  (run = false ∧ vs = [] ∧
     pop_section (mkBuffer cb run) = Ret (Returns false None (mkBuffer cb run))) ∨
  (∃ v vs' cb', vs = v :: vs' ∧ cb_rep cb' vs' ∧ capacity_ cb' = capacity_ cb ∧
     pop_section (mkBuffer cb run) = Ret (Returns true (Some v) (mkBuffer cb' run))).
Proof.
  intros R. unfold pop_section. cbn [ring running_]. rewrite (rep_size _ _ R).
  destruct vs as [|v vs]; simpl length.
  { destruct run; simpl; auto. }
  right; right. destruct (pop_rep cb v vs R) as (cb' & E & R' & Hc).
  exists v, vs, cb'. do 3 (split; [done|]). simpl.
  unfold pop in E. rewrite (empty_rep cb _ R) in E. simpl in E. rewrite (rep_size _ _ R) in E.
  apply bind_Ret_inv in E as (w & -> & E). apply bind_Ret_inv in E as (h & -> & E).
  by injection E as <- <-.
Qed.

(** ** The invariant

    Items leave in the order they entered; the buffer never exceeds its
    capacity; and no wake-up is lost: while consumers wait, every stored item
    has a consumer that is awake to take it, while producers wait, every free
    slot has a producer awake to fill it, and nobody waits after [stop]. *)

Record inv (capacity : Z) (s : system) : Prop := {
  inv_rep : ∃ vs, cb_rep (ring (buf s)) vs ∧ pushed s = popped s ++ vs;
  inv_cap : capacity_ (ring (buf s)) = capacity;
  inv_consumers : countb waits_empty (threads s) = 0%nat ∨
    size_ (ring (buf s)) ≤ Z.of_nat (countb in_pop (threads s));
  inv_producers : countb waits_full (threads s) = 0%nat ∨
    capacity - size_ (ring (buf s)) ≤ Z.of_nat (countb in_push (threads s));
  inv_stopped : running_ (buf s) = false →
    countb waits_empty (threads s) = 0%nat ∧ countb waits_full (threads s) = 0%nat;
}.

Lemma countb_replicate_Idle (p : thread → bool) n : p Idle = false → countb p (replicate n Idle) = 0%nat.
Proof. intros Hp. induction n; simpl; [done|]. by rewrite Hp. Qed.

Lemma inv_initial capacity n : 0 ≤ capacity < 2 ^ 64 → inv capacity (initial capacity n).
Proof.
  intros Hc. split; simpl; try done; try (left; by apply countb_replicate_Idle).
  exists []. split; [by apply new_CircularBuffer_rep|done].
Qed.

(** The effect of a notification on the four counters. *)
Lemma notify_one_empty ts ts' :
  notify_one waits_empty ts ts' →
  countb waits_full ts' = countb waits_full ts ∧ countb in_push ts' = countb in_push ts ∧
  (countb waits_empty ts' = 0%nat ∧ countb in_pop ts' = countb in_pop ts ∧ ts' = ts ∨
   countb in_pop ts' = S (countb in_pop ts) ∧
   S (countb waits_empty ts') = countb waits_empty ts).
Proof.
  intros [Hz|i t Hi Hw]; [auto 10|]. destruct t; try done.
  pose proof (countb_insert waits_full ts i _ Popping Hi).
  pose proof (countb_insert in_push ts i _ Popping Hi).
  pose proof (countb_insert waits_empty ts i _ Popping Hi).
  pose proof (countb_insert in_pop ts i _ Popping Hi). simpl in *. lia.
Qed.

Lemma notify_one_full ts ts' :
  notify_one waits_full ts ts' →
  countb waits_empty ts' = countb waits_empty ts ∧ countb in_pop ts' = countb in_pop ts ∧
  (countb waits_full ts' = 0%nat ∧ countb in_push ts' = countb in_push ts ∧ ts' = ts ∨
   countb in_push ts' = S (countb in_push ts) ∧
   S (countb waits_full ts') = countb waits_full ts).
Proof.
  intros [Hz|i t Hi Hw]; [auto 10|]. destruct t as [| | |x|]; try done.
  pose proof (countb_insert waits_full ts i _ (Pushing x) Hi).
  pose proof (countb_insert in_push ts i _ (Pushing x) Hi).
  pose proof (countb_insert waits_empty ts i _ (Pushing x) Hi).
  pose proof (countb_insert in_pop ts i _ (Pushing x) Hi). simpl in *. lia.
Qed.

(** The counters after thread [i] changes state. *)
Ltac counters Hi t :=
  pose proof (countb_insert waits_full _ _ _ t Hi);
  pose proof (countb_insert in_push _ _ _ t Hi);
  pose proof (countb_insert waits_empty _ _ _ t Hi);
  pose proof (countb_insert in_pop _ _ _ t Hi); simpl in *.

Ltac solve_counts :=
  first [done | lia
        | match goal with H : _ → _ ∧ _ |- _ => let E := fresh in intros E; apply H in E; lia end].

Lemma inv_step_push capacity s i x s' :
  inv capacity s → threads s !! i = Some (Pushing x) →
  (∀ e, push_section x (buf s) = Ret e →
     match e with
     | Blocks => s' = mkSystem (buf s) (<[i := PushWaits x]> (threads s)) (pushed s) (popped s)
     | Returns false _ b => s' = mkSystem b (<[i := Idle]> (threads s)) (pushed s) (popped s)
     | Returns true _ b => ∃ ts, notify_one waits_empty (<[i := Idle]> (threads s)) ts ∧
                                 s' = mkSystem b ts (pushed s ++ [x]) (popped s)
     end) → inv capacity s'.
Proof.
  intros [(vs & R & Hq) Hcap Hc Hp Hst] Hi Hs. destruct s as [[cb run] ts pu po]; simpl in *.
  pose proof (rep_size _ _ R).
  destruct (push_section_rep cb vs x run R) as
    [(-> & Hfull & E)|[(-> & E)|(-> & Hlt & cb' & E & R' & Hc')]]; specialize (Hs _ E); simpl in Hs.
  - subst s'. counters Hi (PushWaits x). split; simpl; eauto; solve_counts.
  - subst s'. counters Hi Idle. split; simpl; eauto; solve_counts.
  - destruct Hs as (ts' & Hn & ->). counters Hi Idle. pose proof (rep_size _ _ R') as Hsz.
    rewrite length_app in Hsz. simpl in Hsz.
    apply notify_one_empty in Hn as (? & ? & Hn).
    split; simpl; try lia. exists (vs ++ [x]). split; [done|]. by rewrite Hq, app_assoc.
Qed.

Lemma inv_step_pop capacity s i s' :
  inv capacity s → threads s !! i = Some Popping →
  (∀ e, pop_section (buf s) = Ret e →
     match e with
     | Blocks => s' = mkSystem (buf s) (<[i := PopWaits]> (threads s)) (pushed s) (popped s)
     | Returns true (Some x) b => ∃ ts, notify_one waits_full (<[i := Idle]> (threads s)) ts ∧
                                        s' = mkSystem b ts (pushed s) (popped s ++ [x])
     | Returns _ _ b => s' = mkSystem b (<[i := Idle]> (threads s)) (pushed s) (popped s)
     end) → inv capacity s'.
Proof.
  intros [(vs & R & Hq) Hcap Hc Hp Hst] Hi Hs. destruct s as [[cb run] ts pu po]; simpl in *.
  pose proof (rep_size _ _ R).
  destruct (pop_section_rep cb vs run R) as
    [(-> & -> & E)|[(-> & -> & E)|(v & vs' & cb' & -> & R' & Hc' & E)]]; specialize (Hs _ E); simpl in *.
  - subst s'. counters Hi PopWaits. split; simpl; eauto; solve_counts.
  - subst s'. counters Hi Idle. split; simpl; eauto; solve_counts.
  - destruct Hs as (ts' & Hn & ->). counters Hi Idle. pose proof (rep_size _ _ R') as Hsz.
    apply notify_one_full in Hn as (? & ? & Hn).
    split; simpl; try lia; [|by intros [? ?]%Hst; lia].
    exists vs'. split; [done|]. by rewrite Hq, <-app_assoc.
Qed.

Lemma countb_wake (ts : list thread) :
  countb waits_empty (wake <$> ts) = 0%nat ∧ countb waits_full (wake <$> ts) = 0%nat.
Proof.
  rewrite !countb_fmap. split; apply countb_zero; by intros i [] _.
Qed.

Lemma inv_step capacity s s' : inv capacity s → step s s' → inv capacity s'.
Proof.
  intros Hinv Hstep. destruct Hstep as
    [s i t Hi Ht|s i x Hi E|s i x b Hi E|s i x b ts Hi E Hn|s i Hi E|s i b Hi E|s i x b ts Hi E Hn|s|s i t Hi Hw].
  - destruct Hinv as [Hr Hcap Hc Hp Hst]. destruct Ht as [->|[x ->]].
    + counters Hi Popping. split; simpl; auto; solve_counts.
    + counters Hi (Pushing x). split; simpl; auto; solve_counts.
  - apply (inv_step_push capacity s i x); auto. intros e E'. rewrite E in E'. by injection E' as <-.
  - apply (inv_step_push capacity s i x); auto. intros e E'. rewrite E in E'. by injection E' as <-.
  - apply (inv_step_push capacity s i x); auto. intros e E'. rewrite E in E'. injection E' as <-. eauto.
  - apply (inv_step_pop capacity s i); auto. intros e E'. rewrite E in E'. by injection E' as <-.
  - apply (inv_step_pop capacity s i); auto. intros e E'. rewrite E in E'. by injection E' as <-.
  - apply (inv_step_pop capacity s i); auto. intros e E'. rewrite E in E'. injection E' as <-. eauto.
  - destruct Hinv as [Hr Hcap Hc Hp Hst]. destruct (countb_wake (threads s)). split; simpl; auto.
  - destruct Hinv as [Hr Hcap Hc Hp Hst].
    destruct t as [|x| |x|]; try done.
    + counters Hi (Pushing x). split; simpl; auto; solve_counts.
    + counters Hi Popping. split; simpl; auto; solve_counts.
Qed.

Lemma reachable_inv capacity n s :
  0 ≤ capacity < 2 ^ 64 → reachable capacity n s → inv capacity s.
Proof.
  intros Hc Hr. pose proof (inv_initial capacity n Hc) as Hi.
  unfold reachable in Hr. induction Hr as [|s1 s2 s3 Hs _ IH]; [done|].
  apply IH. by eapply inv_step.
Qed.

(** ** The properties *)

(** The critical sections of a buffer in a good state return. *)
Lemma sections_return capacity s : inv capacity s →
  (∀ x, ∃ e, push_section x (buf s) = Ret e) ∧ (∃ e, pop_section (buf s) = Ret e).
Proof.
  intros [(vs & R & _) _ _ _ _]. destruct s as [[cb run] ts pu po]; simpl in *. split.
  - intros x. destruct (push_section_rep cb vs x run R) as [(_ & _ & ->)|[(_ & ->)|(_ & _ & cb' & -> & _)]]; eauto.
  - destruct (pop_section_rep cb vs run R) as [(_ & _ & ->)|[(_ & _ & ->)|(v & vs' & cb' & _ & _ & _ & ->)]]; eauto.
Qed.

(** C8: in every interleaving of any number of threads, the items popped so far
    followed by the items that the ring holds from its tail on are exactly the
    items pushed so far, in order; the ring never holds more than its capacity;
    and no thread is ever about to run a critical section that faults (an index
    out of range, a division by a zero capacity). *)
Theorem ProdCons_fifo capacity n s :
  0 ≤ capacity < 2 ^ 64 → reachable capacity n s →
  (∃ vs, pushed s = popped s ++ vs ∧ cb_rep (ring (buf s)) vs ∧ Z.of_nat (length vs) ≤ capacity) ∧
  (∀ i f, ¬ faults s i f).
Proof.
  intros Hc Hr. pose proof (reachable_inv capacity n s Hc Hr) as Hinv. split.
  - destruct Hinv as [(vs & R & Hq) Hcap _ _ _]. exists vs.
    pose proof (rep_bound _ _ R). pose proof (rep_cap _ _ R). split; [done|]. split; [done|]. lia.
  - destruct (sections_return capacity s Hinv) as [Hpu [e Hpo]].
    intros i f [x g _ E|g _ E]; [destruct (Hpu x) as [e' E']|]; congruence.
Qed.

(** C11: no wake-up is lost.  When no thread is awake inside a call, a thread
    that still waits in [pop] waits because the buffer is empty, a thread that
    waits in [push] because it is full, and the buffer has not been stopped;
    so producers and consumers are never blocked at the same time, and after
    [stop] nobody stays blocked. *)
Theorem ProdCons_no_lost_wakeup capacity n s :
  0 < capacity < 2 ^ 64 → reachable capacity n s →
  countb in_push (threads s) = 0%nat → countb in_pop (threads s) = 0%nat →
  (countb waits_empty (threads s) ≠ 0%nat → running_ (buf s) = true ∧ pushed s = popped s) ∧
  (countb waits_full (threads s) ≠ 0%nat →
     running_ (buf s) = true ∧ size_ (ring (buf s)) = capacity) ∧
  (countb waits_empty (threads s) = 0%nat ∨ countb waits_full (threads s) = 0%nat).
Proof.
  intros Hc Hr Hpu Hpo. destruct (reachable_inv capacity n s ltac:(lia) Hr)
    as [(vs & R & Hq) Hcap Hce Hcf Hst].
  pose proof (rep_size _ _ R). pose proof (rep_bound _ _ R). pose proof (rep_cap _ _ R).
  split; [|split; [|lia]]; intros Hw.
  - split; [destruct (running_ (buf s)); [done|lia]|].
    destruct vs; [by rewrite app_nil_r in Hq|]. simpl in *. lia.
  - split; [destruct (running_ (buf s)); [done|lia]|]. lia.
Qed.
End prod_cons.

Arguments Idle {T}.
Arguments Popping {T}.
Arguments PopWaits {T}.

(** A run with one producer and one consumer on a buffer of one slot: the
    consumer blocks first, then the producer's two pushes wake it. *)
Definition demo_state : system :=
  mkSystem (mkBuffer (mkCircularBuffer [7] 1 0 0 1) true) [Idle; Popping] [7] [].

Lemma demo_reachable : reachable 0 1 2 demo_state.
Proof.
  set (b0 := mkBuffer (mkCircularBuffer [0] 1 0 0 0) true).
  apply (rtc_l _ _ (mkSystem b0 [Idle; Popping] [] [])).
  { apply (step_call (initial 0 1 2) 1 Popping); [reflexivity|by left]. }
  apply (rtc_l _ _ (mkSystem b0 [Idle; PopWaits] [] [])).
  { by apply (step_pop_blocks (mkSystem b0 [Idle; Popping] [] []) 1). }
  apply (rtc_l _ _ (mkSystem b0 [Pushing 7; PopWaits] [] [])).
  { apply (step_call (mkSystem b0 [Idle; PopWaits] [] []) 0 (Pushing 7)); [reflexivity|].
    right. by exists 7. }
  apply rtc_once. apply (step_push (mkSystem b0 [Pushing 7; PopWaits] [] []) 0 7);
    [reflexivity|reflexivity|].
  by apply (notify_some waits_empty [Idle; PopWaits] 1 PopWaits).
Qed.

Lemma ProdCons_fifo_witness :
  (∃ vs, [7] = [] ++ vs ∧ cb_rep (mkCircularBuffer [7] 1 0 0 1) vs ∧ Z.of_nat (length vs) ≤ 1) ∧
  (∀ i f, ¬ faults demo_state i f).
Proof. apply (ProdCons_fifo 0 1 2 demo_state); [lia|exact demo_reachable]. Defined.

Definition demo_blocked : system :=
  mkSystem (mkBuffer (mkCircularBuffer [0] 1 0 0 0) true) [Idle; PopWaits] [] [].

Lemma demo_blocked_reachable : reachable 0 1 2 demo_blocked.
Proof.
  set (b0 := mkBuffer (mkCircularBuffer [0] 1 0 0 0) true).
  apply (rtc_l _ _ (mkSystem b0 [Idle; Popping] [] [])).
  { apply (step_call (initial 0 1 2) 1 Popping); [reflexivity|by left]. }
  apply rtc_once. by apply (step_pop_blocks (mkSystem b0 [Idle; Popping] [] []) 1).
Qed.

Lemma ProdCons_no_lost_wakeup_witness : true = true ∧ @nil Z = [].
Proof.
  apply (ProdCons_no_lost_wakeup 0 1 2 demo_blocked); [lia|exact demo_blocked_reachable|..];
    vm_compute; try reflexivity. discriminate.
Defined.
