(* ===== verification/PacketRing.v ===== *)
(** * circularQueue/cQueuePacketsDynamic.cpp, cQueuePacketsDynamic.c and
      cQueuePacketsStatic.c

    The overwriting packet rings: [enqueue] on a full ring drops the oldest
    packet.  The two dynamic versions keep pointers to heap packets; the heap is
    explicit, so that the theorems also say that every packet is freed exactly
    once and none is leaked.  The static version copies the payload into the
    slot.  A blocking [dequeue] that has to wait returns [None]; the critical
    sections of the mutex are the definitions.

    The three share one layout, [flag_rep]: the k-th oldest element is in slot
    (tail + k) mod capacity, and a flag tells a full ring from an empty one. *)

From stdpp Require Import base list gmap numbers sets.
From Stdlib Require Import ZArith Lia.
From S2P Require Import Prelude Ring.

Abbreviation bytes := (list Z).

(** ** The layout *)

Record flag_rep {A} (buf : list A) (head tail : Z) (full : bool) (vs : list A) : Prop := {
  fr_nonempty : (0 < length buf)%nat;
  fr_tail : 0 ≤ tail < Z.of_nat (length buf);
  fr_bound : (length vs ≤ length buf)%nat;
  fr_head : head = (tail + Z.of_nat (length vs)) mod Z.of_nat (length buf);
  fr_full : full = bool_decide (length vs = length buf);
  fr_ring : ring_rep buf tail vs;
}.

Section flag_rep.
Context {A : Type}.
Implicit Types (buf vs : list A) (h t : Z).

Lemma fr_head_range buf h t f vs :
  flag_rep buf h t f vs → 0 ≤ h < Z.of_nat (length buf).
Proof. intros [? ? ? -> ? ?]. apply Z.mod_pos_bound. lia. Qed.

(** The ring is empty exactly when the indices meet and the flag is off. *)
Lemma fr_empty buf h t f vs :
  flag_rep buf h t f vs → (negb f && (h =? t)) = bool_decide (vs = []).
Proof.
  intros [Hn Ht Hb Hh Hf Hr].
  pose proof (head_eq_tail (Z.of_nat (length buf)) t (length vs) Ht ltac:(lia)) as He.
  rewrite <-Hh, Nat2Z.id in He. subst f.
  destruct (Z.eqb_spec h t) as [E|E].
  - rewrite andb_true_r. apply He in E. case_bool_decide as E1; case_bool_decide as E2; simpl; try done.
    + subst vs. simpl in *. lia.
    + destruct E as [E%nil_length_inv|E]; done.
  - rewrite andb_false_r. case_bool_decide as E2; [|done]. subst vs. exfalso. apply E, He. by left.
Qed.

Lemma fr_push buf h t vs x :
  flag_rep buf h t false vs →
  flag_rep (<[Z.to_nat h := x]> buf) ((h + 1) mod Z.of_nat (length buf)) t
    ((h + 1) mod Z.of_nat (length buf) =? t) (vs ++ [x]).
Proof.
  intros [Hn Ht Hb Hh Hf Hr]. symmetry in Hf. apply bool_decide_eq_false in Hf.
  assert (0 < Z.of_nat (length buf)) by lia.
  assert ((h + 1) mod Z.of_nat (length buf) =
          (t + Z.of_nat (length (vs ++ [x]))) mod Z.of_nat (length buf)) as Eh.
  { rewrite Hh, head_succ, length_app by lia. simpl. do 3 f_equal. lia. }
  split; rewrite ?length_insert; try done.
  - rewrite length_app. simpl. lia.
  - pose proof (head_eq_tail (Z.of_nat (length buf)) t (length (vs ++ [x])) Ht) as He.
    rewrite <-Eh, Nat2Z.id, length_app in *. simpl in *.
    specialize (He ltac:(lia)). rewrite Nat.add_1_r in *.
    destruct (Z.eqb_spec ((h + 1) mod Z.of_nat (length buf)) t) as [E|E]; case_bool_decide; try done.
    + apply He in E. lia.
    + exfalso. apply E, He. by right.
  - replace (Z.to_nat h) with (slot (Z.of_nat (length buf)) t (length vs)).
    + apply ring_rep_push; [lia|done].
    + unfold slot. by rewrite Hh.
Qed.

Lemma fr_pop buf h t f v vs :
  flag_rep buf h t f (v :: vs) →
  buf !! Z.to_nat t = Some v ∧
  flag_rep buf h ((t + 1) mod Z.of_nat (length buf)) false vs.
Proof.
  intros [Hn Ht Hb Hh Hf Hr]. split; [by apply (ring_rep_head _ _ _ vs)|].
  simpl in *. pose proof (Z.mod_pos_bound (t + 1) (Z.of_nat (length buf)) ltac:(lia)).
  split; try done; try lia.
  - by rewrite head_after_pop by lia.
  - rewrite bool_decide_eq_false_2; [done|lia].
  - apply ring_rep_tail with v; [lia|done].
Qed.

(** Clearing the slot of a popped element. *)
Lemma fr_clear buf h t f v vs x :
  flag_rep buf h t f (v :: vs) →
  flag_rep (<[Z.to_nat t := x]> buf) h ((t + 1) mod Z.of_nat (length buf)) false vs.
Proof.
  intros R. destruct (fr_pop _ _ _ _ _ _ R) as [_ [Hn Ht Hb Hh Hf Hr]].
  destruct R as [_ Ht0 Hb0 _ _ _]. simpl in Hb0.
  split; rewrite ?length_insert; try done.
  apply ring_rep_write; [|done]. intros k Hk. rewrite slot_S by lia.
  apply slot_other; lia.
Qed.

(** Overwriting the oldest element of a full ring. *)
Lemma fr_overwrite buf h t v vs x :
  flag_rep buf h t true (v :: vs) →
  h = t ∧
  flag_rep (<[Z.to_nat t := x]> buf) ((t + 1) mod Z.of_nat (length buf))
    ((t + 1) mod Z.of_nat (length buf)) true (vs ++ [x]).
Proof.
  intros R. destruct (fr_pop _ _ _ _ _ _ R) as [_ R'].
  destruct R as [Hn Ht Hb Hh Hf Hr]. symmetry in Hf. apply bool_decide_eq_true in Hf.
  assert (h = t) as ->.
  { rewrite Hh. apply (head_eq_tail (Z.of_nat (length buf)) t); [done|lia|]. right. lia. }
  split; [done|]. pose proof (fr_push _ _ _ _ x R') as R2. by rewrite Z.eqb_refl in R2.
Qed.
End flag_rep.

(** ** PacketBuffer (C++) *)

Record Packet := mkPacket { data : bytes; timestamp : Z }.

Record PacketBuffer := mkPacketBuffer {
  buffer : list Z;          (* Packet pointers, 0 for nullptr *)
  head : Z;
  tail : Z;
  capacity : Z;
  isFull : bool;
  heap : gmap Z Packet;     (* the packets that have not been deleted *)
}.

Definition new_PacketBuffer (size : Z) : PacketBuffer :=
  mkPacketBuffer (replicate (Z.to_nat size) 0) 0 0 size false ∅.

(** [delete p]: nothing for the null pointer, a fault for a dangling one. *)
Definition delete_packet (h : gmap Z Packet) (p : Z) : outcome (gmap Z Packet) :=
  if p =? 0 then Ret h
  else match h !! p with Some _ => Ret (delete p h) | None => Err DanglingPtr end.

(** [addr] is the address [new] returns and [now] the clock. *)
Definition enqueue (addr now : Z) (d : bytes) (pb : PacketBuffer) : outcome PacketBuffer :=
  if isFull pb then
    old ← vget (buffer pb) (tail pb);
    h ← delete_packet (heap pb) old;
    b ← vset (buffer pb) (tail pb) addr;
    t ← umod (tail pb + 1) (capacity pb);
    Ret (mkPacketBuffer b t t (capacity pb) true (<[addr := mkPacket d now]> h))
  else
    b ← vset (buffer pb) (head pb) addr;
    hd ← umod (head pb + 1) (capacity pb);
    Ret (mkPacketBuffer b hd (tail pb) (capacity pb)
           (if hd =? tail pb then true else isFull pb)
           (<[addr := mkPacket d now]> (heap pb))).

Definition isEmpty (pb : PacketBuffer) : bool := negb (isFull pb) && (head pb =? tail pb).

(** [None]: the caller waits on the condition variable. *)
Definition dequeue (pb : PacketBuffer) : outcome (option (Z * PacketBuffer)) :=
  if isEmpty pb then Ret None else
  pkt ← vget (buffer pb) (tail pb);
  b ← vset (buffer pb) (tail pb) 0;
  t ← umod (tail pb + 1) (capacity pb);
  Ret (Some (pkt, mkPacketBuffer b (head pb) t (capacity pb) false (heap pb))).

Definition size (pb : PacketBuffer) : Z :=
  if isFull pb then capacity pb
  else if tail pb <=? head pb then head pb - tail pb
  else capacity pb - tail pb + head pb.

(** [~PacketBuffer] *)
Fixpoint delete_all (h : gmap Z Packet) (ps : list Z) : outcome (gmap Z Packet) :=
  match ps with [] => Ret h | p :: ps => h ← delete_packet h p; delete_all h ps end.

Definition destroy_PacketBuffer (pb : PacketBuffer) : outcome PacketBuffer :=
  h ← delete_all (heap pb) (buffer pb);
  Ret (mkPacketBuffer [] 0 0 (capacity pb) false h).

(** ** The C version with a heap

    [running] is the flag [main] clears; the payload's separate [malloc] is
    part of the packet's cell.  The results of the two calls of [malloc] are not
    tested: when one of them is null ([addr] is 0), storing through it faults. *)

Definition enqueue_c (addr now : Z) (d : bytes) (pb : PacketBuffer) : outcome PacketBuffer :=
  '(h, t) ← (if isFull pb then
               old ← vget (buffer pb) (tail pb);
               h ← (if old =? 0 then Err NullDeref else delete_packet (heap pb) old);
               t ← umod (tail pb + 1) (capacity pb);
               Ret (h, t)
             else Ret (heap pb, tail pb));
  _ ← check (negb (addr =? 0)) NullDeref;
  b ← vset (buffer pb) (head pb) addr;
  hd ← umod (head pb + 1) (capacity pb);
  Ret (mkPacketBuffer b hd t (capacity pb) (hd =? t) (<[addr := mkPacket d now]> h)).

(** [Ret (Some (0, _))] is the NULL returned at shutdown. *)
Definition dequeue_c (running : bool) (pb : PacketBuffer) : outcome (option (Z * PacketBuffer)) :=
  if (head pb =? tail pb) && negb (isFull pb) && running then Ret None else
  if negb running then Ret (Some (0, pb)) else
  pkt ← vget (buffer pb) (tail pb);
  b ← vset (buffer pb) (tail pb) 0;
  t ← umod (tail pb + 1) (capacity pb);
  Ret (Some (pkt, mkPacketBuffer b (head pb) t (capacity pb) false (heap pb))).

(** ** The contract: a queue that keeps the newest [cap] packets *)

Definition slide {A} (cap : nat) (vs : list A) (x : A) : list A :=
  if decide (length vs = cap) then List.tl vs ++ [x] else vs ++ [x].

(** A slide keeps a subsequence of what was put in. *)
Lemma slide_sublist cap (l vs w : list bytes) x :
  l ++ vs `sublist_of` w → l ++ slide cap vs x `sublist_of` w ++ [x].
Proof.
  intros H. unfold slide. destruct (decide _); rewrite app_assoc; apply sublist_app; try done.
  etransitivity; [|exact H]. apply sublist_app; [done|]. destruct vs; [done|]. by apply sublist_cons.
Qed.

Inductive op := OEnq (d : bytes) (now : Z) | ODeq.

(** The answers are those of the dequeues: [None] when the caller has to wait. *)
Fixpoint spec_run (cap : nat) (ops : list op) (vs : list bytes)
    : list (option bytes) * list bytes :=
  match ops with
  | [] => ([], vs)
  | OEnq d _ :: ops => spec_run cap ops (slide cap vs d)
  | ODeq :: ops =>
      let '(ans, vs') := spec_run cap ops (List.tl vs) in (List.head vs :: ans, vs')
  end.

(** A consumer reads the packet it dequeued and deletes it. *)
Definition consume (o : option (Z * PacketBuffer)) (pb : PacketBuffer)
    : outcome (option bytes * PacketBuffer) :=
  match o with
  | None => Ret (None, pb)
  | Some (p, pb) =>
      pkt ← of_option DanglingPtr (heap pb !! p);
      h ← delete_packet (heap pb) p;
      Ret (Some (data pkt), mkPacketBuffer (buffer pb) (head pb) (tail pb) (capacity pb) (isFull pb) h)
  end.

(** [alloc] gives the address [new] returns for a heap. *)
Definition exec_with (alloc : gmap Z Packet → Z)
    (enq : Z → Z → bytes → PacketBuffer → outcome PacketBuffer)
    (deq : PacketBuffer → outcome (option (Z * PacketBuffer))) :=
  fix run (ops : list op) (pb : PacketBuffer) : outcome (list (option bytes) * PacketBuffer) :=
  match ops with
  | [] => Ret ([], pb)
  | OEnq d now :: ops => pb ← enq (alloc (heap pb)) now d pb; run ops pb
  | ODeq :: ops =>
      o ← deq pb;
      '(a, pb) ← consume o pb;
      '(ans, pb) ← run ops pb;
      Ret (a :: ans, pb)
  end.

Definition run alloc := exec_with alloc enqueue dequeue.
Definition run_c alloc := exec_with alloc enqueue_c (dequeue_c true).

(** ** The representation *)

Abbreviation live := (filter (λ p : Z, p ≠ 0)).

Record pb_rep (pb : PacketBuffer) (ps : list Z) (vs : list bytes) : Prop := {
  pr_cap : capacity pb = Z.of_nat (length (buffer pb));
  pr_flag : flag_rep (buffer pb) (head pb) (tail pb) (isFull pb) ps;
  pr_slots : live (buffer pb) ≡ₚ ps;
  pr_nodup : NoDup ps;
  pr_heap : dom (heap pb) = list_to_set ps;
  pr_data : Forall2 (λ p d, data <$> heap pb !! p = Some d) ps vs;
}.

Lemma live_insert (l : list Z) i x y :
  l !! i = Some y → live [y] ++ live (<[i := x]> l) ≡ₚ live [x] ++ live l.
Proof.
  revert i. induction l as [|z l IH]; intros [|i] Hi; [done..| |].
  - simpl in Hi. injection Hi as ->. change (<[0%nat:=x]> (y :: l)) with ([x] ++ l).
    change (y :: l) with ([y] ++ l). rewrite !filter_app. solve_Permutation.
  - change (<[S i:=x]> (z :: l)) with ([z] ++ <[i:=x]> l). change (z :: l) with ([z] ++ l).
    rewrite !filter_app. specialize (IH i Hi).
    rewrite Permutation_app_swap_app, IH. solve_Permutation.
Qed.

Lemma live_unique (l : list Z) i j p :
  NoDup (live l) → l !! i = Some p → l !! j = Some p → p ≠ 0 → i = j.
Proof.
  revert i j. induction l as [|z l IH]; intros i j Hnd Hi Hj Hp; [done|].
  change (z :: l) with ([z] ++ l) in Hnd. rewrite filter_app in Hnd.
  apply NoDup_app in Hnd as (_ & Hz & Hnd).
  assert (∀ k, l !! k = Some p → z ≠ p) as Hne.
  { intros k Hk ->. apply (Hz p).
    - apply list_elem_of_filter. split; [done|by left].
    - apply list_elem_of_filter. split; [done|]. by eapply list_elem_of_lookup_2. }
  destruct i as [|i], j as [|j]; simpl in *; [done|..].
  - injection Hi as ->. by destruct (Hne j Hj).
  - injection Hj as ->. by destruct (Hne i Hi).
  - f_equal. by apply IH.
Qed.

Lemma pr_null pb ps vs p : pb_rep pb ps vs → p ∈ ps → p ≠ 0.
Proof. intros R. rewrite <-(pr_slots _ _ _ R). by intros [? _]%list_elem_of_filter. Qed.

(** The slot that is written next is free. *)
Lemma free_slot pb ps vs :
  pb_rep pb ps vs → isFull pb = false → buffer pb !! Z.to_nat (head pb) = Some 0.
Proof.
  intros R Hf. pose proof (fr_head_range _ _ _ _ _ (pr_flag _ _ _ R)) as Hh.
  destruct (lookup_lt_is_Some_2 (buffer pb) (Z.to_nat (head pb))) as [y Hy]; [lia|].
  rewrite Hy. f_equal. destruct (decide (y = 0)) as [|Hne]; [done|exfalso].
  assert (y ∈ ps) as Hin.
  { rewrite <-(pr_slots _ _ _ R). apply list_elem_of_filter. split; [done|].
    by eapply list_elem_of_lookup_2. }
  apply list_elem_of_lookup in Hin as [k Hk].
  pose proof (pr_flag _ _ _ R) as [Hn Ht Hb Hhd Hfl Hr].
  rewrite Hf in Hfl. symmetry in Hfl. apply bool_decide_eq_false in Hfl.
  pose proof (lookup_lt_Some _ _ _ Hk).
  assert (NoDup (live (buffer pb))) as Hnd by (rewrite (pr_slots _ _ _ R); apply R).
  pose proof (live_unique _ _ _ y Hnd Hy (Hr _ _ Hk) Hne) as E.
  rewrite Hhd in E. change (Z.to_nat ((tail pb + Z.of_nat (length ps)) mod Z.of_nat (length (buffer pb))))
    with (slot (Z.of_nat (length (buffer pb))) (tail pb) (length ps)) in E.
  apply slot_inj in E; lia.
Qed.

Lemma Forall2_heap_insert (h : gmap Z Packet) ps vs a pkt :
  a ∉ ps → Forall2 (λ p d, data <$> h !! p = Some d) ps vs →
  Forall2 (λ p d, data <$> <[a := pkt]> h !! p = Some d) ps vs.
Proof.
  intros Ha. induction 1 as [|p d ps vs Hp _ IH]; [constructor|].
  apply not_elem_of_cons in Ha as [? Ha]. constructor; [|by apply IH].
  by rewrite lookup_insert_ne.
Qed.

Lemma Forall2_heap_delete (h : gmap Z Packet) ps vs a :
  a ∉ ps → Forall2 (λ p d, data <$> h !! p = Some d) ps vs →
  Forall2 (λ p d, data <$> delete a h !! p = Some d) ps vs.
Proof.
  intros Ha. induction 1 as [|p d ps vs Hp _ IH]; [constructor|].
  apply not_elem_of_cons in Ha as [? Ha]. constructor; [|by apply IH].
  by rewrite lookup_delete_ne.
Qed.

Lemma delete_packet_Some h p : p ∈ dom h → p ≠ 0 → delete_packet h p = Ret (delete p h).
Proof.
  intros [x Hx]%elem_of_dom Hp. unfold delete_packet.
  by rewrite (proj2 (Z.eqb_neq p 0) Hp), Hx.
Qed.

Lemma new_PacketBuffer_rep cap : 0 < cap → pb_rep (new_PacketBuffer cap) [] [].
Proof.
  intros Hc. assert (live (replicate (Z.to_nat cap) 0) = []) as Hl.
  { induction (Z.to_nat cap); [done|]. simpl. by rewrite filter_cons_False by auto. }
  split; simpl; autorewrite with lens; [lia| |by rewrite Hl|constructor|set_solver|constructor].
  split; simpl; autorewrite with lens; try lia.
  - by rewrite Z.mod_small by lia.
  - rewrite bool_decide_eq_false_2; [done|lia].
  - apply ring_rep_nil.
Qed.

Lemma enqueue_rep_room pb ps vs a now d :
  pb_rep pb ps vs → isFull pb = false → a ≠ 0 → a ∉ dom (heap pb) →
  ∃ pb', enqueue a now d pb = Ret pb' ∧ pb_rep pb' (ps ++ [a]) (vs ++ [d]) ∧
         capacity pb' = capacity pb.
Proof.
  intros R Hf Ha Hfresh. pose proof (free_slot _ _ _ R Hf) as Hslot.
  pose proof (fr_head_range _ _ _ _ _ (pr_flag _ _ _ R)) as Hh.
  assert (a ∉ ps) as Hps by (rewrite (pr_heap _ _ _ R) in Hfresh; set_solver).
  unfold enqueue. rewrite Hf, vset_total, bind_Ret by done.
  pose proof (pr_cap _ _ _ R) as Hc. rewrite umod_Ret, bind_Ret by lia.
  eexists; split; [done|]. split; [|done].
  pose proof (pr_flag _ _ _ R) as Fl. rewrite Hf in Fl. rewrite Hc.
  pose proof (fr_push _ _ _ _ a Fl) as Fl'.
  split; simpl; rewrite ?length_insert; auto.
  - by destruct (_ =? tail pb).
  - pose proof (live_insert _ _ a _ Hslot) as Hp. rewrite filter_cons_False in Hp by auto.
    simpl in Hp. rewrite Hp, (filter_cons_True _ a []) by done. rewrite (pr_slots _ _ _ R).
    simpl. apply Permutation_cons_append.
  - apply NoDup_app. split; [apply R|]. split; [set_solver|apply NoDup_singleton].
  - rewrite dom_insert_L, (pr_heap _ _ _ R), list_to_set_app_L. set_solver.
  - apply Forall2_app; [apply Forall2_heap_insert; [done|apply R]|].
    constructor; [by rewrite lookup_insert_eq|constructor].
Qed.

Lemma enqueue_rep_full pb p ps v vs a now d :
  pb_rep pb (p :: ps) (v :: vs) → isFull pb = true → a ≠ 0 → a ∉ dom (heap pb) →
  ∃ pb', enqueue a now d pb = Ret pb' ∧ pb_rep pb' (ps ++ [a]) (vs ++ [d]) ∧
         capacity pb' = capacity pb ∧ enqueue_c a now d pb = Ret pb'.
Proof.
  intros R Hf Ha Hfresh.
  pose proof (pr_null _ _ _ p R ltac:(by left)) as Hp0.
  assert (p ∈ dom (heap pb)) as Hpd by (rewrite (pr_heap _ _ _ R); set_solver).
  pose proof (pr_nodup _ _ _ R) as Hnd. pose proof (NoDup_cons_1_1 _ _ Hnd) as Hpps.
  assert (a ∉ ps ∧ a ≠ p) as [Hps Hap].
  { rewrite (pr_heap _ _ _ R) in Hfresh. set_solver. }
  pose proof (pr_flag _ _ _ R) as Fl. rewrite Hf in Fl.
  destruct (fr_pop _ _ _ _ _ _ Fl) as [Hslot _].
  destruct (fr_overwrite _ _ _ _ _ a Fl) as [Hht Fl'].
  pose proof (fr_tail _ _ _ _ _ Fl) as Ht. pose proof (pr_cap _ _ _ R) as Hc.
  assert (vget (buffer pb) (tail pb) = Ret p) as Hget by (apply vget_Ret; split; [lia|done]).
  unfold enqueue, enqueue_c. rewrite Hf, Hht, Hget, !bind_Ret, (proj2 (Z.eqb_neq p 0) Hp0), (proj2 (Z.eqb_neq a 0) Ha).
  rewrite (delete_packet_Some _ _ Hpd Hp0), !bind_Ret. cbn [check negb].
  rewrite vset_total, umod_Ret, !bind_Ret by lia.
  eexists; split; [done|]. split; [|split; [done|]]; [|by rewrite Z.eqb_refl].
  rewrite Hc. split; simpl; rewrite ?length_insert; auto.
  - pose proof (live_insert _ _ a _ Hslot) as Hp. rewrite !filter_cons_True in Hp by done.
    rewrite (pr_slots _ _ _ R) in Hp. apply (Permutation_cons_inv (a := p)).
    change (p :: live (<[Z.to_nat (tail pb):=a]> (buffer pb)))
      with ((p :: live []) ++ live (<[Z.to_nat (tail pb):=a]> (buffer pb))).
    rewrite Hp. simpl. rewrite Permutation_swap. apply perm_skip, Permutation_cons_append.
  - apply NoDup_app. split; [by apply NoDup_cons_1_2 in Hnd|].
    split; [set_solver|apply NoDup_singleton].
  - rewrite dom_insert_L, dom_delete_L, (pr_heap _ _ _ R), list_to_set_app_L. set_solver.
  - pose proof (pr_data _ _ _ R) as HD. apply Forall2_cons_1 in HD as [_ HD].
    apply Forall2_app; [apply Forall2_heap_insert; [done|by apply Forall2_heap_delete]|].
    constructor; [by rewrite lookup_insert_eq|constructor].
Qed.

Lemma isFull_spec pb ps vs :
  pb_rep pb ps vs → isFull pb = bool_decide (length vs = length (buffer pb)).
Proof.
  intros R. rewrite (fr_full _ _ _ _ _ (pr_flag _ _ _ R)).
  by rewrite (Forall2_length _ _ _ (pr_data _ _ _ R)).
Qed.

(** The two versions of [enqueue] do the same, and implement [slide]. *)
Lemma enqueue_rep pb ps vs a now d :
  pb_rep pb ps vs → a ≠ 0 → a ∉ dom (heap pb) →
  ∃ pb' ps', enqueue a now d pb = Ret pb' ∧ enqueue_c a now d pb = Ret pb' ∧
    pb_rep pb' ps' (slide (length (buffer pb)) vs d) ∧ capacity pb' = capacity pb.
Proof.
  intros R Ha Hfresh. pose proof (isFull_spec _ _ _ R) as Hf. unfold slide.
  pose proof (Forall2_length _ _ _ (pr_data _ _ _ R)) as Hlen.
  pose proof (fr_nonempty _ _ _ _ _ (pr_flag _ _ _ R)).
  destruct (decide (length vs = length (buffer pb))) as [E|E].
  - rewrite bool_decide_eq_true_2 in Hf by done.
    destruct ps as [|p ps], vs as [|v vs]; simpl in *; try lia.
    destruct (enqueue_rep_full pb p ps v vs a now d) as (pb' & ? & ? & ? & ?); auto.
    exists pb', (ps ++ [a]). auto.
  - rewrite bool_decide_eq_false_2 in Hf by done.
    destruct (enqueue_rep_room pb ps vs a now d) as (pb' & E1 & ? & ?); auto.
    exists pb', (ps ++ [a]). split; [done|]. split; [|done].
    rewrite <-E1. unfold enqueue, enqueue_c. rewrite Hf, bind_Ret, (proj2 (Z.eqb_neq a 0) Ha). cbn [check negb]. rewrite bind_Ret.
    destruct (vset _ _ _); [|done]. rewrite !bind_Ret. destruct (umod _ _); [|done].
    rewrite !bind_Ret. by destruct (_ =? _).
Qed.

Lemma dequeue_c_running pb : dequeue_c true pb = dequeue pb.
Proof.
  unfold dequeue_c, dequeue, isEmpty. rewrite andb_true_r, andb_comm. by destruct (_ && _).
Qed.

Lemma dequeue_rep pb ps vs :
  pb_rep pb ps vs →
  ∃ pb' ps', (o ← dequeue pb; consume o pb) = Ret (List.head vs, pb') ∧
    pb_rep pb' ps' (List.tl vs) ∧ capacity pb' = capacity pb ∧
    length (buffer pb') = length (buffer pb).
Proof.
  intros R. unfold dequeue, isEmpty. rewrite (fr_empty _ _ _ _ _ (pr_flag _ _ _ R)).
  pose proof (pr_data _ _ _ R) as HD. case_bool_decide as E.
  { subst ps. apply Forall2_nil_inv_l in HD as ->. rewrite bind_Ret. simpl. by exists pb, []. }
  destruct HD as [|p d ps vs Hd HD]; [done|].
  pose proof (pr_flag _ _ _ R) as Fl. destruct (fr_pop _ _ _ _ _ _ Fl) as [Hslot _].
  pose proof (fr_clear _ _ _ _ _ _ 0 Fl) as Fl'. pose proof (fr_tail _ _ _ _ _ Fl) as Ht.
  pose proof (pr_cap _ _ _ R) as Hc. pose proof (pr_nodup _ _ _ R) as Hnd.
  pose proof (pr_null _ _ _ p R ltac:(by left)) as Hp0.
  rewrite (proj2 (vget_Ret _ _ p)), bind_Ret by (split; [lia|done]).
  rewrite vset_total, umod_Ret, !bind_Ret by lia. unfold consume. cbn [heap buffer].
  destruct (heap pb !! p) as [pkt|] eqn:Ep; [|done]. simpl in Hd. injection Hd as Hd.
  assert (p ∈ dom (heap pb)) as Hpd by (apply elem_of_dom; eauto).
  simpl of_option. rewrite bind_Ret, (delete_packet_Some _ _ Hpd Hp0), bind_Ret.
  simpl. rewrite Hd. eexists; exists ps; split; [done|]. split; [|by simpl; rewrite length_insert].
  rewrite Hc. split; simpl; rewrite ?length_insert; auto.
  - pose proof (live_insert _ _ 0 _ Hslot) as Hp.
    rewrite filter_cons_True, (filter_cons_False _ 0 []), (pr_slots _ _ _ R) in Hp by auto.
    by apply (Permutation_cons_inv (a := p)).
  - by apply NoDup_cons_1_2 in Hnd.
  - rewrite dom_delete_L, (pr_heap _ _ _ R). apply NoDup_cons_1_1 in Hnd. set_solver.
  - apply Forall2_heap_delete; [by apply NoDup_cons_1_1 in Hnd|done].
Qed.

Lemma delete_all_spec l h :
  NoDup (live l) → (∀ p, p ∈ live l → p ∈ dom h) →
  ∃ h', delete_all h l = Ret h' ∧ dom h' = dom h ∖ list_to_set (live l).
Proof.
  revert h. induction l as [|p l IH]; intros h Hnd Hin; simpl.
  { exists h. set_solver. }
  destruct (decide (p = 0)) as [->|Hp].
  - rewrite filter_cons_False in Hnd, Hin |- * by auto. by apply IH.
  - rewrite filter_cons_True in Hnd, Hin |- * by auto.
    rewrite delete_packet_Some, bind_Ret; [|apply Hin; by left|done].
    pose proof (NoDup_cons_1_1 _ _ Hnd). apply NoDup_cons_1_2 in Hnd.
    destruct (IH (delete p h) Hnd) as (h' & -> & Hd).
    { intros q Hq. rewrite dom_delete_L. specialize (Hin q). set_solver. }
    exists h'. split; [done|]. rewrite Hd, dom_delete_L. set_solver.
Qed.

Lemma destroy_rep pb ps vs :
  pb_rep pb ps vs → ∃ pb', destroy_PacketBuffer pb = Ret pb' ∧ heap pb' = ∅.
Proof.
  intros R. pose proof (pr_slots _ _ _ R) as Hs. unfold destroy_PacketBuffer.
  destruct (delete_all_spec (buffer pb) (heap pb)) as (h & -> & Hd).
  - rewrite Hs. apply R.
  - intros p. rewrite Hs, (pr_heap _ _ _ R). set_solver.
  - eexists; split; [done|]. simpl. apply dom_empty_inv_L.
    rewrite Hd, (pr_heap _ _ _ R). apply (list_to_set_perm_L (C := gset Z)) in Hs. rewrite Hs. set_solver.
Qed.

Lemma size_rep pb ps vs : pb_rep pb ps vs → size pb = Z.of_nat (length vs).
Proof.
  intros R. rewrite <-(Forall2_length _ _ _ (pr_data _ _ _ R)).
  pose proof (pr_flag _ _ _ R) as [Hn Ht Hb Hh Hf Hr]. unfold size.
  rewrite Hf, (pr_cap _ _ _ R). case_bool_decide as E; [lia|].
  set (n := Z.of_nat (length (buffer pb))) in *.
  destruct (decide (tail pb + Z.of_nat (length ps) < n)).
  - rewrite Z.mod_small in Hh by lia. rewrite (proj2 (Z.leb_le _ _)) by lia. lia.
  - assert (head pb = tail pb + Z.of_nat (length ps) - n) as ->.
    { rewrite Hh. symmetry. apply (Z.mod_unique _ _ 1); lia. }
    rewrite (proj2 (Z.leb_gt _ _)) by lia. lia.
Qed.

(** The runs of both versions follow the contract. *)
Lemma run_rep alloc ops : (∀ h, alloc h ≠ 0 ∧ alloc h ∉ dom h) → ∀ pb ps vs, pb_rep pb ps vs →
  let '(ans, vs') := spec_run (length (buffer pb)) ops vs in
  ∃ pb' ps', run alloc ops pb = Ret (ans, pb') ∧ run_c alloc ops pb = Ret (ans, pb') ∧
             pb_rep pb' ps' vs' ∧ capacity pb' = capacity pb.
Proof.
  intros Hal. induction ops as [|[d now|] ops IH]; intros pb ps vs R.
  - exists pb, ps. auto.
  - destruct (Hal (heap pb)) as [Ha Hfr].
    destruct (enqueue_rep pb ps vs _ now d R Ha Hfr) as (pb1 & ps1 & E1 & E2 & R1 & Hc).
    assert (length (buffer pb1) = length (buffer pb)) as El.
    { pose proof (pr_cap _ _ _ R). pose proof (pr_cap _ _ _ R1). lia. }
    specialize (IH _ _ _ R1). rewrite El in IH. simpl spec_run.
    destruct (spec_run _ ops _) as [ans vs']. destruct IH as (pb' & ps' & E & Ec & R' & Hc').
    exists pb', ps'. unfold run, run_c in *. cbn [exec_with]. rewrite E1, E2, !bind_Ret.
    rewrite <-Hc. auto.
  - destruct (dequeue_rep pb ps vs R) as (pb1 & ps1 & E1 & R1 & Hc & El).
    specialize (IH _ _ _ R1). rewrite El in IH. simpl spec_run.
    destruct (spec_run _ ops _) as [ans vs']. destruct IH as (pb' & ps' & E & Ec & R' & Hc').
    exists pb', ps'. unfold run, run_c in *. cbn [exec_with]. rewrite dequeue_c_running.
    apply bind_Ret_inv in E1 as (o & -> & E1). rewrite !bind_Ret, E1, !bind_Ret, E, Ec, <-Hc. auto.
Qed.

(** ** The properties of the dynamic versions *)

(** C24: every run of enqueues and dequeues on a fresh [PacketBuffer] is served
    without a fault, for any allocator that returns unused addresses: dequeues
    return the packets oldest first and wait exactly on an empty ring, an
    enqueue on a full ring drops the oldest packet, [size] is the number of
    packets held, and destroying the buffer leaves nothing allocated, so no
    packet is leaked or deleted twice. *)
Theorem PacketBuffer_keeps_newest alloc cap ops :
  (∀ h, alloc h ≠ 0 ∧ alloc h ∉ dom h) → 0 < cap →
  let '(ans, vs) := spec_run (Z.to_nat cap) ops [] in
  ∃ pb pb', run alloc ops (new_PacketBuffer cap) = Ret (ans, pb) ∧
    size pb = Z.of_nat (length vs) ∧ destroy_PacketBuffer pb = Ret pb' ∧ heap pb' = ∅.
Proof.
  intros Hal Hc. pose proof (run_rep alloc ops Hal _ _ _ (new_PacketBuffer_rep cap Hc)) as Hr.
  simpl buffer in Hr. rewrite length_replicate in Hr.
  destruct (spec_run _ ops []) as [ans vs]. destruct Hr as (pb & ps & E & _ & R & _).
  destruct (destroy_rep _ _ _ R) as (pb' & ? & ?). exists pb, pb'.
  by rewrite (size_rep _ _ _ R).
Qed.

(** A concrete allocator for the witnesses: one more than the largest address. *)
Definition bump (h : gmap Z Packet) : Z := 1 + map_fold (λ k _ m, Z.max k m) 0 h.

Lemma bump_fresh h : bump h ≠ 0 ∧ bump h ∉ dom h.
Proof.
  enough (0 ≤ map_fold (λ k _ m, Z.max k m) 0 h ∧
          ∀ k, k ∈ dom h → k ≤ map_fold (λ k _ m, Z.max k m) 0 h) as [H0 Hk].
  { unfold bump. split; [lia|]. intros Hin%Hk. lia. }
  induction h as [|i x m Hi Hf IH] using map_first_key_ind.
  { rewrite map_fold_empty. set_solver. }
  rewrite map_fold_insert_first_key by done. rewrite dom_insert_L. destruct IH as [? IH].
  split; [lia|]. intros k [->%elem_of_singleton|Hk%IH]%elem_of_union; lia.
Qed.

Lemma PacketBuffer_keeps_newest_witness :
  spec_run 2 [OEnq [1] 0; OEnq [2] 0; OEnq [3] 0; ODeq; ODeq; ODeq] []
    = ([Some [2]; Some [3]; None], []) ∧
  ∃ pb pb', run bump [OEnq [1] 0; OEnq [2] 0; OEnq [3] 0; ODeq; ODeq; ODeq] (new_PacketBuffer 2)
              = Ret ([Some [2]; Some [3]; None], pb) ∧
    size pb = 0 ∧ destroy_PacketBuffer pb = Ret pb' ∧ heap pb' = ∅.
Proof.
  split; [reflexivity|].
  exact (PacketBuffer_keeps_newest bump 2 [OEnq [1] 0; OEnq [2] 0; OEnq [3] 0; ODeq; ODeq; ODeq]
           bump_fresh ltac:(lia)).
Defined.

(** The C version computes the same as the C++ version: from a fresh buffer
    every run of enqueues and dequeues, while the buffer is running, gives the
    same packets and the same final state, although [enqueue] updates the
    indices in another order. *)
Theorem enqueue_c_equivalent alloc cap ops :
  (∀ h, alloc h ≠ 0 ∧ alloc h ∉ dom h) → 0 < cap →
  ∃ r, run alloc ops (new_PacketBuffer cap) = Ret r ∧
       run_c alloc ops (new_PacketBuffer cap) = Ret r.
Proof.
  intros Hal Hc. pose proof (run_rep alloc ops Hal _ _ _ (new_PacketBuffer_rep cap Hc)) as Hr.
  destruct (spec_run _ ops []) as [ans vs]. destruct Hr as (pb & ps & E & Ec & _). eauto.
Qed.

Lemma enqueue_c_equivalent_witness :
  ∃ r, run bump [OEnq [1] 0; OEnq [2] 0; ODeq; ODeq] (new_PacketBuffer 1) = Ret r ∧
       run_c bump [OEnq [1] 0; OEnq [2] 0; ODeq; ODeq] (new_PacketBuffer 1) = Ret r.
Proof.
  exact (enqueue_c_equivalent bump 1 [OEnq [1] 0; OEnq [2] 0; ODeq; ODeq] bump_fresh ltac:(lia)).
Defined.

(** A consumer that takes ten packets, as [consumer] does, waits forever
    when the producer's ten packets arrived first: in a ring of five the first
    five are gone, and the sixth dequeue finds the ring empty. *)
Theorem consumer_of_ten_waits_forever now :
  let enqueues := (λ i, OEnq [u8 (Z.of_nat i); u8 (Z.of_nat i + 1)] now) <$> seq 0 10 in
  ∃ pb, run bump (enqueues ++ replicate 10 ODeq) (new_PacketBuffer 5) =
        Ret ([Some [5; 6]; Some [6; 7]; Some [7; 8]; Some [8; 9]; Some [9; 10]] ++ replicate 5 None, pb).
Proof.
  intros enqueues.
  pose proof (run_rep bump (enqueues ++ replicate 10 ODeq) bump_fresh _ _ _
                (new_PacketBuffer_rep 5 ltac:(lia))) as Hr.
  destruct (spec_run (length (buffer (new_PacketBuffer 5))) (enqueues ++ replicate 10 ODeq) [])
    as [ans vs] eqn:E.
  vm_compute in E. injection E as <- <-. destruct Hr as (pb & ps & Er & _). by exists pb.
Qed.

(** ** cQueuePacketsStatic.c *)

Definition MAX_PACKET_SIZE : Z := 1024.
Definition BUFFER_CAPACITY : Z := 8.

Record SPacket := mkSPacket { sdata : bytes; ssize : Z; stimestamp : Z }.

Record SBuffer := mkSBuffer {
  sbuffer : list SPacket;
  shead : Z;
  stail : Z;
  is_full : bool;
}.

Definition packet_buffer_init (pb : SBuffer) : SBuffer := mkSBuffer (sbuffer pb) 0 0 false.

(** [memcpy(dst, src, n)] with [n] the length of [src]. *)
Definition memcpy (dst src : bytes) : bytes := src ++ drop (length src) dst.

Definition packet_buffer_push (now : Z) (d : bytes) (pb : SBuffer) : outcome (Z * SBuffer) :=
  let size := Z.of_nat (length d) in
  if MAX_PACKET_SIZE <? size then Ret (-1, pb) else
  pkt ← vget (sbuffer pb) (shead pb);
  b ← vset (sbuffer pb) (shead pb) (mkSPacket (memcpy (sdata pkt) d) size now);
  let h := (shead pb + 1) mod BUFFER_CAPACITY in
  let t := if is_full pb then (stail pb + 1) mod BUFFER_CAPACITY else stail pb in
  Ret (0, mkSBuffer b h t (h =? t)).

(** [None]: the caller waits; -1 with no packet: shutting down. *)
Definition packet_buffer_pop (g_running : bool) (pb : SBuffer)
    : outcome (option (Z * option SPacket * SBuffer)) :=
  if (shead pb =? stail pb) && negb (is_full pb) && g_running then Ret None else
  if negb g_running then Ret (Some (-1, None, pb)) else
  pkt ← vget (sbuffer pb) (stail pb);
  Ret (Some (0, Some pkt,
       mkSBuffer (sbuffer pb) (shead pb) ((stail pb + 1) mod BUFFER_CAPACITY) false)).

(** The bytes of a packet that its size covers. *)
Definition payload (p : SPacket) : bytes := take (Z.to_nat (ssize p)) (sdata p).

Fixpoint static_run (ops : list op) (pb : SBuffer) : outcome (list (option bytes) * SBuffer) :=
  match ops with
  | [] => Ret ([], pb)
  | OEnq d now :: ops => '(_, pb) ← packet_buffer_push now d pb; static_run ops pb
  | ODeq :: ops =>
      o ← packet_buffer_pop true pb;
      let '(a, pb) := match o with
                      | Some (_, r, pb) => (payload <$> r, pb)
                      | None => (None, pb)
                      end in
      '(ans, pb) ← static_run ops pb;
      Ret (a :: ans, pb)
  end.

(** Requests that the size check lets through. *)
Definition fits (o : op) : bool :=
  match o with OEnq d _ => Z.of_nat (length d) <=? MAX_PACKET_SIZE | ODeq => true end.

Record sb_rep (pb : SBuffer) (ps : list SPacket) (vs : list bytes) : Prop := {
  sb_len : length (sbuffer pb) = 8%nat;
  sb_flag : flag_rep (sbuffer pb) (shead pb) (stail pb) (is_full pb) ps;
  sb_data : payload <$> ps = vs;
}.

Lemma push_static_rep now d pb ps vs :
  sb_rep pb ps vs → fits (OEnq d now) = true →
  ∃ pb' ps', packet_buffer_push now d pb = Ret (0, pb') ∧ sb_rep pb' ps' (slide 8 vs d).
Proof.
  intros [Hlen Fl Hv] Hfit%Z.leb_le. pose proof (fr_head_range _ _ _ _ _ Fl) as Hh.
  unfold packet_buffer_push. rewrite (proj2 (Z.ltb_ge _ _)) by done.
  destruct (vget_total (sbuffer pb) (shead pb) Hh) as (old & -> & _).
  rewrite bind_Ret, vset_total, bind_Ret by done.
  set (np := mkSPacket _ _ now).
  assert (payload np = d) as Hnp.
  { unfold payload, np, memcpy. simpl. rewrite Nat2Z.id. by rewrite take_app_length. }
  assert (BUFFER_CAPACITY = Z.of_nat (length (sbuffer pb))) as -> by (by rewrite Hlen).
  pose proof (f_equal length Hv) as Hl. rewrite length_fmap in Hl.
  unfold slide. destruct (decide (length vs = 8%nat)) as [E|E].
  - pose proof (fr_full _ _ _ _ _ Fl) as Hf. rewrite bool_decide_eq_true_2 in Hf by lia.
    destruct ps as [|p ps]; [simpl in *; lia|]. rewrite Hf in *.
    destruct (fr_overwrite _ _ _ _ _ np Fl) as [Hht Fl']. rewrite Hht, Z.eqb_refl.
    do 2 eexists; split; [done|]. split; simpl; [by rewrite length_insert|exact Fl'|].
    rewrite fmap_app, <-Hv. simpl. by rewrite Hnp.
  - pose proof (fr_full _ _ _ _ _ Fl) as Hf. rewrite bool_decide_eq_false_2 in Hf by lia.
    rewrite Hf in *. pose proof (fr_push _ _ _ _ np Fl) as Fl'.
    do 2 eexists; split; [done|]. split; simpl; [by rewrite length_insert|exact Fl'|].
    rewrite fmap_app, <-Hv. simpl. by rewrite Hnp.
Qed.

Lemma pop_static_rep pb ps vs :
  sb_rep pb ps vs →
  (vs = [] ∧ packet_buffer_pop true pb = Ret None) ∨
  ∃ p pb' ps', packet_buffer_pop true pb = Ret (Some (0, Some p, pb')) ∧
    List.head vs = Some (payload p) ∧ sb_rep pb' ps' (List.tl vs).
Proof.
  intros [Hlen Fl Hv]. unfold packet_buffer_pop.
  rewrite andb_true_r, andb_comm, (fr_empty _ _ _ _ _ Fl).
  case_bool_decide as E; [left; by subst|right].
  destruct ps as [|p ps]; [done|]. destruct (fr_pop _ _ _ _ _ _ Fl) as [Hs Fl'].
  pose proof (fr_tail _ _ _ _ _ Fl). simpl negb. cbv iota.
  rewrite (proj2 (vget_Ret _ _ p)), bind_Ret by (split; [lia|done]).
  exists p. do 2 eexists. split; [done|]. subst vs. split; [done|].
  split; simpl; [done| |done]. rewrite Hlen in Fl'. exact Fl'.
Qed.

(** The statically allocated ring serves every run of pushes and pops
    like the queue of the eight newest packets; packets of more than
    [MAX_PACKET_SIZE] bytes are refused and leave no trace, and the payload
    popped has no stale bytes of an earlier packet. *)
Theorem packet_buffer_keeps_newest pb0 ops :
  length (sbuffer pb0) = 8%nat →
  ∃ pb, static_run ops (packet_buffer_init pb0) = Ret ((spec_run 8 (filter (λ o, fits o = true) ops) []).1, pb).
Proof.
  intros Hlen.
  enough (∀ pb ps vs, sb_rep pb ps vs →
    ∃ pb', static_run ops pb = Ret ((spec_run 8 (filter (λ o, fits o = true) ops) vs).1, pb')) as Hr.
  { apply (Hr _ [] []). split; [done| |done]. simpl.
    split; simpl; rewrite ?Hlen; try done; try lia; apply ring_rep_nil. }
  clear. induction ops as [|[d now|] ops IH]; intros pb ps vs R; [by exists pb|..].
  - cbn [static_run]. destruct (fits (OEnq d now)) eqn:Ef.
    + rewrite filter_cons_True by done.
      destruct (push_static_rep now d pb ps vs R Ef) as (pb1 & ps1 & -> & R1).
      rewrite bind_Ret. by apply (IH _ _ _ R1).
    + rewrite filter_cons_False by (by rewrite Ef). unfold packet_buffer_push.
      apply Z.leb_gt in Ef. rewrite (proj2 (Z.ltb_lt _ _)) by done. rewrite bind_Ret. by apply (IH _ _ _ R).
  - cbn [static_run]. rewrite filter_cons_True by done. cbn [spec_run].
    destruct (pop_static_rep pb ps vs R) as [[-> ->]|(p & pb1 & ps1 & -> & Hhd & R1)]; rewrite bind_Ret.
    + destruct (IH _ _ _ R) as (pb' & ->). rewrite bind_Ret. simpl List.tl.
      destruct (spec_run 8 _ []). by exists pb'.
    + destruct (IH _ _ _ R1) as (pb' & ->). rewrite bind_Ret, Hhd.
      destruct (spec_run 8 _ (List.tl vs)). by exists pb'.
Qed.

Lemma packet_buffer_keeps_newest_witness :
  let pb0 := mkSBuffer (replicate 8 (mkSPacket (replicate 1024 170) 1024 0)) 3 5 true in
  ∃ pb, static_run [OEnq [1; 2] 0; OEnq (replicate 1025 9) 0; OEnq [3] 0; ODeq; ODeq; ODeq]
          (packet_buffer_init pb0) = Ret ([Some [1; 2]; Some [3]; None], pb).
Proof.
  intros pb0. exact (packet_buffer_keeps_newest pb0
    [OEnq [1; 2] 0; OEnq (replicate 1025 9) 0; OEnq [3] 0; ODeq; ODeq; ODeq] eq_refl).
Defined.
