(* ===== verification/SensorRing.v ===== *)
(** * amazon/emergingDevices/producerConsumer.cpp

    The lock-free broadcast ring: one producer writes samples, every consumer
    reads the stream at its own pace and skips ahead when it was overrun.  The
    operations are modelled as the atomic sequences of loads and stores they
    consist of: [consume] is [consume_load] (both index loads, the checks and
    the skip) followed by [consume_read] (the copy out of the buffer and the
    store of the read index), and a step of another thread may come in between.

    The contract is the stream [hist] of all samples produced. *)

From stdpp Require Import base list numbers.
From Stdlib Require Import ZArith Lia.
From S2P Require Import Prelude.

Definition BUFFER_SIZE : Z := 1024.
Definition NUM_CONSUMERS : nat := 2.

(** [value] is the bit pattern of the float. *)
Record Sample := mkSample { timestamp : Z; value : Z }.
Definition Sample_default : Sample := mkSample 0 0.

Record LockFreeRingBuffer := mkRing {
  buffer : list Sample;
  writeIndex : Z;
  readIndex : list Z;
}.

Definition new_LockFreeRingBuffer : LockFreeRingBuffer :=
  mkRing (replicate (Z.to_nat BUFFER_SIZE) Sample_default) 0 (replicate NUM_CONSUMERS 0).

Definition produce (s : Sample) (rb : LockFreeRingBuffer) : outcome LockFreeRingBuffer :=
  let idx := writeIndex rb in
  b ← vset (buffer rb) (Z.land idx (BUFFER_SIZE - 1)) s;
  Ret (mkRing b (u64 (idx + 1)) (readIndex rb)).

(** The read position, or [None] when there is no new data. *)
Definition consume_load (consumerId : Z) (rb : LockFreeRingBuffer) : outcome (option Z) :=
  r ← vget (readIndex rb) consumerId;
  let w := writeIndex rb in
  if w <=? r then Ret None else
  Ret (Some (if BUFFER_SIZE <? u64 (w - r) then u64 (w - BUFFER_SIZE) else r)).

Definition consume_read (consumerId r : Z) (rb : LockFreeRingBuffer)
    : outcome (Sample * LockFreeRingBuffer) :=
  out ← vget (buffer rb) (Z.land r (BUFFER_SIZE - 1));
  ri ← vset (readIndex rb) consumerId (u64 (r + 1));
  Ret (out, mkRing (buffer rb) (writeIndex rb) ri).

Definition consume (consumerId : Z) (rb : LockFreeRingBuffer)
    : outcome (option Sample * LockFreeRingBuffer) :=
  o ← consume_load consumerId rb;
  match o with
  | None => Ret (None, rb)
  | Some r => '(out, rb) ← consume_read consumerId r rb; Ret (Some out, rb)
  end.

(** ** The contract *)

Inductive op := OProduce (s : Sample) | OConsume (consumerId : nat).

Fixpoint run (ops : list op) (rb : LockFreeRingBuffer)
    : outcome (list (option Sample) * LockFreeRingBuffer) :=
  match ops with
  | [] => Ret ([], rb)
  | OProduce s :: ops => rb ← produce s rb; run ops rb
  | OConsume k :: ops =>
      '(a, rb) ← consume (Z.of_nat k) rb; '(ans, rb) ← run ops rb; Ret (a :: ans, rb)
  end.

(** A consumer at position [r] of the stream reads the oldest sample that is
    still among the last [BUFFER_SIZE]. *)
Definition next_read (hist : list Sample) (r : nat) : nat :=
  Nat.max r (length hist - Z.to_nat BUFFER_SIZE).

Fixpoint spec_run (ops : list op) (hist : list Sample) (reads : list nat) : list (option Sample) :=
  match ops with
  | [] => []
  | OProduce s :: ops => spec_run ops (hist ++ [s]) reads
  | OConsume k :: ops =>
      let i := next_read hist (default 0%nat (reads !! k)) in
      match hist !! i with
      | None => None :: spec_run ops hist reads
      | Some s => Some s :: spec_run ops hist (<[k := S i]> reads)
      end
  end.

(** ** The representation *)

Record rep (rb : LockFreeRingBuffer) (hist : list Sample) (reads : list nat) : Prop := {
  rep_len : length (buffer rb) = Z.to_nat BUFFER_SIZE;
  rep_write : writeIndex rb = Z.of_nat (length hist);
  rep_window i s : (length hist - Z.to_nat BUFFER_SIZE ≤ i)%nat → hist !! i = Some s →
    buffer rb !! Z.to_nat (Z.of_nat i mod BUFFER_SIZE) = Some s;
  rep_reads : readIndex rb = Z.of_nat <$> reads;
  rep_behind : Forall (λ r, (r ≤ length hist)%nat) reads;
}.

Lemma mask_mod i : 0 ≤ i → Z.land i (BUFFER_SIZE - 1) = i mod BUFFER_SIZE.
Proof. intros Hi. change (BUFFER_SIZE - 1) with (Z.ones 10). by rewrite Z.land_ones. Qed.

Lemma mod_range i : 0 ≤ i mod BUFFER_SIZE < BUFFER_SIZE.
Proof. by apply Z.mod_pos_bound. Qed.

Lemma window_distinct i n :
  n - BUFFER_SIZE < i < n → i mod BUFFER_SIZE ≠ n mod BUFFER_SIZE.
Proof.
  intros Hi E. assert ((n - i) mod BUFFER_SIZE = 0) as H0.
  { rewrite Zminus_mod, E, Z.sub_diag. done. }
  rewrite Z.mod_small in H0 by (unfold BUFFER_SIZE in *; lia). lia.
Qed.

Lemma produce_rep s rb hist reads :
  rep rb hist reads → Z.of_nat (length hist) + 1 < 2 ^ 64 →
  ∃ rb', produce s rb = Ret rb' ∧ rep rb' (hist ++ [s]) reads ∧
         readIndex rb' = readIndex rb ∧
         buffer rb' = <[Z.to_nat (Z.of_nat (length hist) mod BUFFER_SIZE) := s]> (buffer rb).
Proof.
  intros [Hl Hw Hwin Hr Hb] H64. unfold produce. rewrite mask_mod by lia.
  pose proof (mod_range (writeIndex rb)).
  rewrite vset_total, bind_Ret by (rewrite Hl; unfold BUFFER_SIZE in *; lia).
  rewrite Hw, u64_small by lia.
  eexists; split; [done|]. split; [|done].
  split; simpl; rewrite ?length_insert; auto.
  - rewrite length_app. simpl. lia.
  - intros i s' Hi Hs'. rewrite length_app in Hi. simpl in Hi.
    apply lookup_snoc_Some in Hs' as [[Hs' Hlt]|[-> ->]].
    + rewrite list_lookup_insert_ne; [apply Hwin; [lia|done]|].
      pose proof (mod_range (Z.of_nat (length hist))). pose proof (mod_range (Z.of_nat i)).
      intros E%Z2Nat.inj; [|lia..]. symmetry in E.
      apply window_distinct in E; [done|]. unfold BUFFER_SIZE in *. lia.
    + apply list_lookup_insert_eq. rewrite Hl. unfold BUFFER_SIZE in *.
      pose proof (mod_range (Z.of_nat (length hist))). unfold BUFFER_SIZE in *. lia.
  - eapply Forall_impl; [|exact Hb]. intros r. rewrite length_app. simpl. lia.
Qed.

Lemma reads_lookup rb hist reads k r :
  rep rb hist reads → reads !! k = Some r →
  vget (readIndex rb) (Z.of_nat k) = Ret (Z.of_nat r) ∧ (r ≤ length hist)%nat.
Proof.
  intros R Hk. split.
  - apply vget_Ret. split; [lia|]. by rewrite Nat2Z.id, (rep_reads _ _ _ R), list_lookup_fmap, Hk.
  - pose proof (rep_behind _ _ _ R) as Hb. by eapply Forall_lookup in Hb.
Qed.

Lemma consume_load_rep rb hist reads k r :
  rep rb hist reads → Z.of_nat (length hist) < 2 ^ 64 → reads !! k = Some r →
  consume_load (Z.of_nat k) rb =
    Ret (if decide (r = length hist) then None else Some (Z.of_nat (next_read hist r))).
Proof.
  intros R H64 Hk. destruct (reads_lookup _ _ _ _ _ R Hk) as [Hg Hle].
  unfold consume_load. rewrite Hg, bind_Ret, (rep_write _ _ _ R).
  destruct (decide (r = length hist)) as [->|Hne].
  - by rewrite Z.leb_refl.
  - rewrite (proj2 (Z.leb_gt _ _)) by lia. rewrite u64_small by lia. unfold next_read.
    destruct (Z.ltb_spec BUFFER_SIZE (Z.of_nat (length hist) - Z.of_nat r)) as [Hlt|Hge];
      unfold BUFFER_SIZE in *; [rewrite u64_small by lia|]; do 2 f_equal; lia.
Qed.

Lemma consume_read_rep rb hist reads k i s :
  rep rb hist reads → Z.of_nat (length hist) < 2 ^ 64 → (k < length reads)%nat →
  (length hist - Z.to_nat BUFFER_SIZE ≤ i)%nat → hist !! i = Some s →
  ∃ rb', consume_read (Z.of_nat k) (Z.of_nat i) rb = Ret (s, rb') ∧
         rep rb' hist (<[k := S i]> reads).
Proof.
  intros R H64 Hk Hi Hs. pose proof (lookup_lt_Some _ _ _ Hs) as Hlt.
  unfold consume_read. rewrite mask_mod by lia. pose proof (mod_range (Z.of_nat i)).
  rewrite (proj2 (vget_Ret _ _ s)), bind_Ret by (split; [lia|by apply (rep_window _ _ _ R)]).
  rewrite (rep_reads _ _ _ R), vset_total, bind_Ret by (rewrite length_fmap; lia).
  eexists; split; [done|]. split; simpl; try apply R.
  - rewrite Nat2Z.id, u64_small by lia. rewrite list_fmap_insert. f_equal. lia.
  - apply Forall_insert; [apply R|lia].
Qed.

(** Every sequential run of the ring serves each consumer the stream of
    produced samples in order, from where that consumer stands: no sample is
    invented or repeated, a consumer at most [BUFFER_SIZE] samples behind loses
    nothing, one further behind skips to the oldest sample still stored, and
    consumers do not disturb each other. *)
Theorem ring_serves_stream ops :
  Forall (λ o, match o with OConsume k => (k < NUM_CONSUMERS)%nat | _ => True end) ops →
  Z.of_nat (length ops) < 2 ^ 64 →
  ∃ rb, run ops new_LockFreeRingBuffer = Ret (spec_run ops [] (replicate NUM_CONSUMERS 0%nat), rb).
Proof.
  intros Hops H64.
  enough (∀ rb hist reads, rep rb hist reads → length reads = NUM_CONSUMERS →
    Z.of_nat (length hist + length ops) < 2 ^ 64 →
    ∃ rb', run ops rb = Ret (spec_run ops hist reads, rb')) as Hr.
  { apply Hr; [|done|simpl; lia]. split; simpl; try done.
    repeat constructor. }
  clear H64. induction Hops as [|[s|k] ops Ho _ IH]; intros rb hist reads R Hn H64; simpl in H64 |- *.
  - by exists rb.
  - destruct (produce_rep s rb hist reads R) as (rb1 & -> & R1 & _); [lia|]. rewrite bind_Ret.
    apply IH; [done..|]. rewrite length_app. simpl. lia.
  - destruct (lookup_lt_is_Some_2 reads k) as [r Hk]; [lia|].
    destruct (reads_lookup _ _ _ _ _ R Hk) as [_ Hle].
    unfold consume. rewrite (consume_load_rep _ _ _ _ r R) by (done || lia).
    rewrite bind_Ret, Hk. simpl default.
    destruct (decide (r = length hist)) as [->|Hne].
    + replace (next_read hist (length hist)) with (length hist) by (unfold next_read; lia).
      rewrite lookup_ge_None_2 by lia. rewrite bind_Ret.
      destruct (IH rb hist reads R Hn) as (rb' & ->); [lia|]. by exists rb'.
    + destruct (lookup_lt_is_Some_2 hist (next_read hist r)) as [s Hs].
      { unfold next_read, BUFFER_SIZE. lia. }
      destruct (consume_read_rep rb hist reads k (next_read hist r) s R ltac:(lia) ltac:(lia))
        as (rb1 & -> & R1); [unfold next_read; lia|done|].
      rewrite Hs, !bind_Ret.
      destruct (IH rb1 hist _ R1) as (rb' & ->); [by rewrite length_insert|lia|]. by exists rb'.
Qed.

Lemma ring_serves_stream_witness :
  let s i := mkSample i 0 in
  ∃ rb, run [OProduce (s 1); OConsume 0; OProduce (s 2); OConsume 1; OConsume 0; OConsume 0]
          new_LockFreeRingBuffer = Ret ([Some (s 1); Some (s 1); Some (s 2); None], rb).
Proof.
  intros s. apply (ring_serves_stream
    [OProduce (s 1); OConsume 0; OProduce (s 2); OConsume 1; OConsume 0; OConsume 0]).
  - repeat constructor.
  - reflexivity.
Defined.

(** The producer can overrun a consumer between the consumer's overrun
    check and its copy.  When a consumer that is a full ring behind has passed
    the check and one more sample is produced, it reads that newest sample, and
    its next read is an older one: the samples it delivers go backwards. *)
Theorem overrun_race rb hist reads k r s :
  rep rb hist reads → Z.of_nat (length hist) + 1 < 2 ^ 64 →
  reads !! k = Some r → (r + Z.to_nat BUFFER_SIZE ≤ length hist)%nat →
  ∃ i rb1 rb2 old,
    consume_load (Z.of_nat k) rb = Ret (Some i) ∧          (* the check *)
    produce s rb = Ret rb1 ∧                               (* the producer runs *)
    consume_read (Z.of_nat k) i rb1 = Ret (s, rb2) ∧       (* the copy *)
    (∃ rb3, consume (Z.of_nat k) rb2 = Ret (Some old, rb3)) ∧
    (hist ++ [s]) !! length hist = Some s ∧
    ∃ j, (hist ++ [s]) !! j = Some old ∧ (j < length hist)%nat.
Proof.
  intros R H64 Hk Hfar. pose proof (lookup_lt_Some _ _ _ Hk) as Hkl.
  assert (0 < Z.to_nat BUFFER_SIZE)%nat by (unfold BUFFER_SIZE; lia).
  set (i := (length hist - Z.to_nat BUFFER_SIZE)%nat).
  exists (Z.of_nat i). rewrite (consume_load_rep _ _ _ _ r R) by (done || lia).
  rewrite decide_False by lia.
  destruct (produce_rep s rb hist reads R H64) as (rb1 & E1 & R1 & Hri & Hb).
  assert (consume_read (Z.of_nat k) (Z.of_nat i) rb1 =
          Ret (s, mkRing (buffer rb1) (writeIndex rb1) (<[k := Z.of_nat (S i)]> (readIndex rb1)))) as E2.
  { unfold consume_read. rewrite mask_mod by lia. pose proof (mod_range (Z.of_nat i)).
    rewrite (proj2 (vget_Ret _ _ s)).
    - rewrite bind_Ret, vset_total by (rewrite (rep_reads _ _ _ R1), length_fmap; lia).
      rewrite bind_Ret, Nat2Z.id, u64_small by lia. do 4 f_equal. lia.
    - split; [lia|]. rewrite Hb. replace (Z.of_nat i mod BUFFER_SIZE) with (Z.of_nat (length hist) mod BUFFER_SIZE).
      + apply list_lookup_insert_eq. rewrite (rep_len _ _ _ R).
        pose proof (mod_range (Z.of_nat (length hist))). unfold BUFFER_SIZE in *. lia.
      + replace (Z.of_nat (length hist)) with (Z.of_nat i + 1 * BUFFER_SIZE)
          by (unfold i, BUFFER_SIZE in *; lia). by rewrite Z.mod_add. }
  set (rb2 := mkRing _ _ _) in E2.
  assert (rep rb2 (hist ++ [s]) (<[k := S i]> reads)) as R2.
  { destruct R1 as [? ? ? Hr ?]. split; simpl; auto; [by rewrite Hr, list_fmap_insert|].
    apply Forall_insert; [done|]. rewrite length_app. simpl. lia. }
  destruct (lookup_lt_is_Some_2 (hist ++ [s]) (S i)) as [old Hold]; [rewrite length_app; cbn [length]; lia|].
  assert (<[k:=S i]> reads !! k = Some (S i)) as Hk2 by (by apply list_lookup_insert_eq).
  assert (next_read (hist ++ [s]) (S i) = S i) as Hnext.
  { unfold next_read. rewrite length_app. cbn [length]. lia. }
  exists rb1, rb2, old. split; [by unfold next_read; do 3 f_equal; lia|].
  do 2 (split; [done|]). split; [|split].
  - unfold consume. rewrite (consume_load_rep _ _ _ _ (S i) R2); [|rewrite length_app; simpl; lia|done].
    rewrite decide_False by (rewrite length_app; cbn [length]; lia).
    rewrite bind_Ret, Hnext.
    destruct (consume_read_rep rb2 _ _ k (S i) old R2) as (rb3 & -> & _);
      rewrite ?length_app, ?length_insert; cbn [length]; [lia|lia|lia|done|].
    by exists rb3.
  - by rewrite lookup_app_r, Nat.sub_diag by lia.
  - exists (S i). split; [done|]. unfold i, BUFFER_SIZE in *. lia.
Qed.

Lemma overrun_race_witness :
  let s i := mkSample (Z.of_nat i) 0 in
  let hist := s <$> seq 0 1024 in
  let rb := mkRing hist 1024 [0; 0] in
  ∃ i rb1 rb2, consume_load 0 rb = Ret (Some i) ∧ produce (s 1024%nat) rb = Ret rb1 ∧
               consume_read 0 i rb1 = Ret (s 1024%nat, rb2).
Proof.
  intros s hist rb.
  destruct (overrun_race rb hist [0%nat; 0%nat] 0 0 (s 1024%nat)) as (i & rb1 & rb2 & old & W1 & W2 & W3 & _).
  - split; [reflexivity|reflexivity| |reflexivity|].
    + intros i t _ Hi. assert (i < 1024)%nat by (apply lookup_lt_Some in Hi; vm_compute in Hi; lia).
      rewrite Z.mod_small by (unfold BUFFER_SIZE; lia). by rewrite Nat2Z.id.
    + repeat constructor; apply Nat.le_0_l.
  - reflexivity.
  - reflexivity.
  - by vm_compute.
  - by exists i, rb1, rb2.
Defined.
