(* ===== verification/ListHeap.v ===== *)
(** * Linked lists in a heap

    The singly linked lists of pureStorage/, packetHandler/ and arista/: nodes
    with an int and a next pointer at addresses of a finite map, 0 being the
    null pointer.  [lseg h p l q] says that following the next pointers from
    [p] visits the nodes [l] and ends at [q]; [walk] is the same as a function
    of the number of steps, which is how the two-pointer algorithms are
    verified. *)

From stdpp Require Import base list gmap numbers sets.
From Stdlib Require Import ZArith Lia.
From S2P Require Import Prelude.

Record ListNode := mkListNode { val : Z; next : Z }.
Abbreviation heap := (gmap Z ListNode).

(** [*p], [p->next] and [p->next = q]. *)
Definition load (h : heap) (p : Z) : outcome ListNode :=
  if p =? 0 then Err NullDeref else of_option DanglingPtr (h !! p).
Definition get_next (h : heap) (p : Z) : outcome Z := nd ← load h p; Ret (next nd).
Definition set_next (h : heap) (p q : Z) : outcome heap :=
  nd ← load h p; Ret (<[p := mkListNode (val nd) q]> h).

Fixpoint lseg (h : heap) (p : Z) (l : list Z) (q : Z) : Prop :=
  match l with
  | [] => p = q
  | a :: l => p = a ∧ a ≠ 0 ∧ ∃ nd, h !! a = Some nd ∧ lseg h (next nd) l q
  end.

(** The values of the nodes. *)
Definition vals (h : heap) (l : list Z) : list Z := (λ a, default 0 (val <$> h !! a)) <$> l.

Lemma load_Some h p nd : h !! p = Some nd → p ≠ 0 → load h p = Ret nd.
Proof. intros Hp Hne. unfold load. by rewrite (proj2 (Z.eqb_neq p 0) Hne), Hp. Qed.

Lemma get_next_Some h p nd : h !! p = Some nd → p ≠ 0 → get_next h p = Ret (next nd).
Proof. intros Hp Hne. unfold get_next. by rewrite (load_Some h p nd). Qed.

Lemma set_next_Some h p q nd :
  h !! p = Some nd → p ≠ 0 → set_next h p q = Ret (<[p := mkListNode (val nd) q]> h).
Proof. intros Hp Hne. unfold set_next. by rewrite (load_Some h p nd). Qed.

Lemma lseg_app h p l1 l2 q : lseg h p (l1 ++ l2) q ↔ ∃ m, lseg h p l1 m ∧ lseg h m l2 q.
Proof.
  revert p. induction l1 as [|a l1 IH]; intros p; simpl.
  - split; [eauto|]. by intros (m & -> & ?).
  - split.
    + intros (-> & Ha & nd & Hnd & (m & ? & ?)%IH). exists m. eauto 10.
    + intros (m & (-> & Ha & nd & Hnd & ?) & ?). do 2 (split; [done|]). exists nd.
      split; [done|]. apply IH. eauto.
Qed.

Lemma lseg_frame h h' p l q :
  (∀ a, a ∈ l → h' !! a = h !! a) → lseg h p l q → lseg h' p l q.
Proof.
  revert p. induction l as [|a l IH]; intros p Hf; simpl; [done|].
  intros (-> & Ha & nd & Hnd & Hl). do 2 (split; [done|]). exists nd.
  split; [rewrite Hf; [done|by left]|]. apply IH; [|done]. intros b Hb. apply Hf. by right.
Qed.

Lemma lseg_nonnull h p l q : lseg h p l q → 0 ∉ l.
Proof.
  revert p. induction l as [|a l IH]; intros p; simpl; [intros _; apply not_elem_of_nil|].
  intros (-> & Ha & nd & _ & Hl). apply not_elem_of_cons. split; [done|by eapply IH].
Qed.

(** The node after [k] steps, and the end afterwards. *)
Lemma lseg_lookup h p l q k a :
  lseg h p l q → l !! k = Some a →
  a ≠ 0 ∧ ∃ nd, h !! a = Some nd ∧ next nd = default q (l !! S k).
Proof.
  revert p k. induction l as [|b l IH]; intros p k; [done|].
  intros (-> & Hb & nd & Hnd & Hl) Hk. destruct k as [|k].
  - injection Hk as ->. split; [done|]. exists nd. split; [done|].
    simpl. destruct l; simpl in *; [done|]. by destruct Hl.
  - exact (IH _ k Hl Hk).
Qed.

Lemma lseg_head h p l q : lseg h p l q → p = default q (l !! 0%nat).
Proof. destruct l; simpl; [done|]. by intros [-> _]. Qed.

(** A null-terminated list is determined by its first node, so it has no node
    twice. *)
Lemma lseg_functional h p l1 l2 : lseg h p l1 0 → lseg h p l2 0 → l1 = l2.
Proof.
  revert p l2. induction l1 as [|a l1 IH]; intros p [|b l2]; simpl; try done.
  - by intros -> [? [? _]].
  - by intros [-> [? _]] ->.
  - intros (-> & _ & nd & Hnd & H1) (<- & _ & nd' & Hnd' & H2).
    simplify_eq. f_equal. by eapply IH.
Qed.

Lemma lseg_NoDup h p l : lseg h p l 0 → NoDup l.
Proof.
  revert p. induction l as [|a l IH]; intros p; simpl; [constructor|].
  intros (-> & Ha & nd & Hnd & Hl). constructor; [|by eapply IH].
  intros (l1 & l2 & ->)%list_elem_of_split. apply lseg_app in Hl as (m & Hl1 & Hl2).
  assert (lseg h a (a :: l1 ++ a :: l2) 0) as H1.
  { simpl. do 2 (split; [done|]). exists nd. split; [done|]. apply lseg_app. eauto. }
  assert (m = a) as -> by (by destruct Hl2).
  pose proof (lseg_functional _ _ _ _ H1 Hl2) as E. apply (f_equal length) in E.
  simpl in E. rewrite length_app in E. simpl in E. lia.
Qed.

(** ** Walks *)

(** [w] follows the next pointers of [h] and stays at the null pointer. *)
Definition walks (h : heap) (w : nat → Z) : Prop :=
  ∀ k, w k ≠ 0 → get_next h (w k) = Ret (w (S k)).

(** The walk along a null-terminated list. *)
Definition list_walk (l : list Z) (k : nat) : Z := default 0 (l !! k).

Lemma list_walk_walks h p l : lseg h p l 0 → walks h (list_walk l) ∧ p = list_walk l 0.
Proof.
  intros Hl. split; [|by apply (lseg_head h)].
  intros k. unfold list_walk. destruct (l !! k) as [a|] eqn:Ek; [|done]. intros _.
  destruct (lseg_lookup h p l 0 k a Hl Ek) as (Ha & nd & Hnd & Hn).
  simpl. by rewrite (get_next_Some h a nd Hnd Ha), Hn.
Qed.

Lemma list_walk_zero h p l k : lseg h p l 0 → list_walk l k = 0 ↔ (length l ≤ k)%nat.
Proof.
  intros Hl. unfold list_walk. destruct (l !! k) as [a|] eqn:Ek; simpl.
  - pose proof (lookup_lt_Some _ _ _ Ek). split; [|lia]. intros ->.
    exfalso. apply (lseg_nonnull _ _ _ _ Hl). by eapply list_elem_of_lookup_2.
  - apply lookup_ge_None in Ek. done.
Qed.

(** The walk along a list that ends in a cycle. *)
Definition lasso (h : heap) (p : Z) (stem cyc : list Z) : Prop :=
  cyc ≠ [] ∧ NoDup (stem ++ cyc) ∧ ∃ c, lseg h p stem c ∧ lseg h c cyc c.

Section lasso.
Context (h : heap) (p : Z) (stem cyc : list Z) (HL : lasso h p stem cyc).
Let mu := length stem.
Let lam := length cyc.

Definition lasso_index (k : nat) : nat :=
  if decide (k < mu)%nat then k else (mu + (k - mu) mod lam)%nat.
Definition lasso_walk (k : nat) : Z := default 0 ((stem ++ cyc) !! lasso_index k).

Lemma lam_pos : (0 < lam)%nat.
Proof. destruct HL as [Hc _]. unfold lam. destruct cyc; simpl; [done|lia]. Qed.

Lemma lasso_index_lt k : (lasso_index k < length (stem ++ cyc))%nat.
Proof.
  pose proof lam_pos. unfold lasso_index. rewrite length_app. fold mu lam.
  destruct (decide (k < mu)%nat); [lia|]. pose proof (Nat.mod_upper_bound (k - mu) lam). lia.
Qed.

Lemma lasso_walk_lookup k : (stem ++ cyc) !! lasso_index k = Some (lasso_walk k).
Proof.
  unfold lasso_walk. destruct (lookup_lt_is_Some_2 _ _ (lasso_index_lt k)) as [a ->]. done.
Qed.

Lemma lasso_walk_eq a b : lasso_walk a = lasso_walk b ↔ lasso_index a = lasso_index b.
Proof.
  split; [|unfold lasso_walk; by intros ->]. intros E. destruct HL as (_ & Hnd & _).
  eapply NoDup_lookup; [exact Hnd|apply lasso_walk_lookup|]. rewrite E. apply lasso_walk_lookup.
Qed.

Lemma lasso_walk_nonnull k : lasso_walk k ≠ 0.
Proof.
  pose proof (lasso_walk_lookup k) as Hk. destruct HL as (_ & _ & c & H1 & H2).
  apply lookup_app_Some in Hk as [Hk|[_ Hk]]; by eapply lseg_lookup in Hk as [? _].
Qed.

Lemma lasso_head : p = lasso_walk 0.
Proof.
  destruct HL as (Hne & _ & c & H1 & H2). unfold lasso_walk, lasso_index.
  destruct (decide (0 < mu)%nat) as [Hlt|Hge].
  - rewrite lookup_app_l by done. rewrite (lseg_head _ _ _ _ H1).
    by destruct (lookup_lt_is_Some_2 stem 0 Hlt) as [a ->].
  - unfold mu in *. destruct stem; simpl in *; [|lia]. rewrite Nat.Div0.mod_0_l. subst p.
    rewrite (lseg_head _ _ _ _ H2) at 1. by destruct cyc.
Qed.

Lemma lasso_next_index k :
  (stem ++ cyc) !! S (lasso_index k) = Some (lasso_walk (S k)) ∨
  S (lasso_index k) = (mu + lam)%nat ∧ lasso_index (S k) = mu.
Proof.
  pose proof lam_pos. destruct (decide (S (lasso_index k) = mu + lam)%nat) as [E|E].
  - right. split; [done|]. unfold lasso_index in *.
    destruct (decide (k < mu)%nat) as [Hk|Hk]; [lia|]. rewrite decide_False by lia.
    replace (S k - mu)%nat with (k - mu + 1)%nat by lia.
    rewrite <-Nat.Div0.add_mod_idemp_l.
    replace ((k - mu) mod lam)%nat with (lam - 1)%nat by lia.
    replace (lam - 1 + 1)%nat with lam by lia. rewrite Nat.Div0.mod_same. lia.
  - left. rewrite <-lasso_walk_lookup. f_equal. unfold lasso_index in *.
    destruct (decide (k < mu)%nat) as [Hk|Hk].
    + destruct (decide (S k < mu)%nat); [done|]. replace (S k - mu)%nat with 0%nat by lia.
      rewrite Nat.Div0.mod_0_l. lia.
    + rewrite decide_False by lia. replace (S k - mu)%nat with (k - mu + 1)%nat by lia.
      pose proof (Nat.mod_upper_bound (k - mu) lam ltac:(lia)).
      rewrite <-(Nat.Div0.add_mod_idemp_l (k - mu)), (Nat.mod_small (_ + 1)) by lia. lia.
Qed.

Lemma lasso_walks : walks h lasso_walk.
Proof.
  intros k _. pose proof (lasso_walk_lookup k) as Hk. destruct HL as (Hne & _ & c & H1 & H2).
  assert (lseg h p (stem ++ cyc) c) as Hall by (apply lseg_app; eauto).
  destruct (lseg_lookup _ _ _ _ _ _ Hall Hk) as (Ha & nd & Hnd & Hn).
  rewrite (get_next_Some h _ nd Hnd Ha), Hn. f_equal.
  destruct (lasso_next_index k) as [E|[E1 E2]]; [by rewrite E|].
  rewrite lookup_ge_None_2 by (rewrite length_app; fold mu lam; lia). simpl.
  pose proof (lasso_walk_lookup (S k)) as Hs. rewrite E2 in Hs. unfold mu in Hs.
  rewrite lookup_app_r, Nat.sub_diag in Hs by lia. rewrite (lseg_head _ _ _ _ H2), Hs. done.
Qed.

(** Two positions coincide exactly when both are on the cycle, a multiple of
    its length apart. *)
Lemma lasso_index_shift a d :
  lasso_index a = lasso_index (a + d) ↔ d = 0%nat ∨ (mu ≤ a)%nat ∧ (lam | d)%nat.
Proof.
  pose proof lam_pos. unfold lasso_index.
  destruct (decide (a < mu)%nat), (decide (a + d < mu)%nat); [lia| | |].
  - pose proof (Nat.mod_upper_bound (a + d - mu) lam). lia.
  - lia.
  - assert (a + d - mu = (a - mu) + d)%nat as -> by lia. split.
    + intros E. right. split; [lia|]. apply Nat.Lcm0.mod_divide.
      assert (((a - mu) + d) mod lam = (a - mu) mod lam)%nat as E' by lia.
      pose proof (Nat.div_mod ((a - mu) + d) lam ltac:(lia)) as D1.
      pose proof (Nat.div_mod (a - mu) lam ltac:(lia)) as D2.
      rewrite E' in D1. apply Nat.Lcm0.mod_divide.
      exists ((a - mu + d) / lam - (a - mu) / lam)%nat.
      assert ((a - mu) / lam ≤ (a - mu + d) / lam)%nat by (apply Nat.Div0.div_le_mono; lia). nia.
    + intros [->|[_ [q ->]]]; [by rewrite Nat.add_0_r|].
      by rewrite Nat.Div0.mod_add.
Qed.

Lemma lasso_entry : lasso_walk mu = default 0 (cyc !! 0%nat).
Proof.
  unfold lasso_walk, lasso_index. rewrite decide_False, Nat.sub_diag, Nat.Div0.mod_0_l, Nat.add_0_r by lia.
  unfold mu. by rewrite lookup_app_r, Nat.sub_diag by lia.
Qed.
End lasso.

(** The first position where a decidable property holds. *)
Lemma first_true (P : nat → bool) n :
  P n = true → ∃ m, (m ≤ n)%nat ∧ P m = true ∧ ∀ k, (k < m)%nat → P k = false.
Proof.
  revert P. induction n as [|n IH]; intros P Hn.
  { exists 0%nat. split; [lia|]. split; [done|]. lia. }
  destruct (P 0%nat) eqn:E0.
  { exists 0%nat. split; [lia|]. split; [done|]. lia. }
  destruct (IH (λ k, P (S k)) Hn) as (m & ? & ? & Hk). exists (S m). split; [lia|].
  split; [done|]. intros [|k] Hlt; [done|]. apply Hk. lia.
Qed.
