(* ===== verification/LoopLists.v ===== *)
(** * pureStorage/detectLoopLinkedList.cpp and middleNodeLinkedList.cpp

    The slow/fast pointer algorithms.  [chase] is the loop that the three
    methods [detectLoop], [startOfLoop] and [fixLoop] share; loops run with
    fuel and the theorems give an amount that suffices.  The theorems cover
    both shapes a list can have: null-terminated, and ending in a cycle
    ([ListHeap.lasso]). *)

From stdpp Require Import base list gmap numbers sets.
From Stdlib Require Import ZArith Lia.
From S2P Require Import Prelude ListHeap.

(** The loop [while (fast && fast->next) { ...; if (slow == fast) ... }]: the
    pointers where it ends and whether they met. *)
Fixpoint chase (fuel : nat) (h : heap) (slow fast : Z) : outcome (Z * Z * bool) :=
  match fuel with
  | O => Err OutOfFuel
  | S fuel =>
      if fast =? 0 then Ret (slow, fast, false) else
      fnext ← get_next h fast;
      if fnext =? 0 then Ret (slow, fast, false) else
      slow ← get_next h slow;
      fast ← get_next h fnext;
      if slow =? fast then Ret (slow, fast, true) else chase fuel h slow fast
  end.

Definition detectLoop (fuel : nat) (h : heap) (head : Z) : outcome bool :=
  '(_, _, met) ← chase fuel h head head; Ret met.

(** [while (slow != fast) { slow = slow->next; fast = fast->next; }] *)
Fixpoint meet (fuel : nat) (h : heap) (slow fast : Z) : outcome Z :=
  match fuel with
  | O => Err OutOfFuel
  | S fuel =>
      if slow =? fast then Ret slow else
      slow ← get_next h slow;
      fast ← get_next h fast;
      meet fuel h slow fast
  end.

Definition startOfLoop (fuel : nat) (h : heap) (head : Z) : outcome Z :=
  '(_, fast, _) ← chase fuel h head head;
  if fast =? 0 then Ret 0 else
  fnext ← get_next h fast;
  if fnext =? 0 then Ret 0 else
  meet fuel h head fast.

(** [while (slow->next != fast->next) { ... }] and [fast->next = nullptr]. *)
Fixpoint cut (fuel : nat) (h : heap) (slow fast : Z) : outcome heap :=
  match fuel with
  | O => Err OutOfFuel
  | S fuel =>
      slow' ← get_next h slow;
      fast' ← get_next h fast;
      if slow' =? fast' then set_next h fast 0 else cut fuel h slow' fast'
  end.

Definition fixLoop (fuel : nat) (h : heap) (head : Z) : outcome (bool * heap) :=
  '(slow, fast, _) ← chase fuel h head head;
  if slow =? fast then h ← cut fuel h head fast; Ret (true, h) else Ret (false, h).

(** middleNodeLinkedList.cpp *)
Fixpoint middle_loop (fuel : nat) (h : heap) (slow fast : Z) : outcome Z :=
  match fuel with
  | O => Err OutOfFuel
  | S fuel =>
      if fast =? 0 then Ret slow else
      fnext ← get_next h fast;
      if fnext =? 0 then Ret slow else
      slow ← get_next h slow;
      fast ← get_next h fnext;
      middle_loop fuel h slow fast
  end.

Definition middleNode (fuel : nat) (h : heap) (head : Z) : outcome Z := middle_loop fuel h head head.

(** ** The chase along a walk *)

Lemma chase_step fuel h w j :
  walks h w → w j ≠ 0 → w (2 * j)%nat ≠ 0 → w (S (2 * j)) ≠ 0 →
  chase (S fuel) h (w j) (w (2 * j)%nat) =
    if w (S j) =? w (2 * S j)%nat then Ret (w (S j), w (2 * S j)%nat, true)
    else chase fuel h (w (S j)) (w (2 * S j)%nat).
Proof.
  intros Hw H0 H1 H2. cbn [chase].
  rewrite (proj2 (Z.eqb_neq _ _) H1), (Hw _ H1), bind_Ret.
  rewrite (proj2 (Z.eqb_neq _ _) H2), (Hw _ H0), bind_Ret, (Hw _ H2), bind_Ret.
  by replace (2 * S j)%nat with (S (S (2 * j))) by lia.
Qed.

(** The pointers run until they meet, if they meet before the end. *)
Lemma chase_meets h w n : walks h w → ∀ fuel j, (n < fuel)%nat →
  (∀ k, (k ≤ S (2 * (j + n)))%nat → w k ≠ 0) →
  (∀ k, (j < k ≤ j + n)%nat → w k ≠ w (2 * k)%nat) →
  w (S (j + n)) = w (2 * S (j + n))%nat →
  chase fuel h (w j) (w (2 * j)%nat) = Ret (w (S (j + n)), w (2 * S (j + n))%nat, true).
Proof.
  intros Hw. induction n as [|n IH]; intros fuel j Hf Hnz Hne Heq;
    (destruct fuel as [|fuel]; [lia|]); rewrite chase_step by (try done; apply Hnz; lia).
  - rewrite Nat.add_0_r in *. rewrite Heq. by rewrite Z.eqb_refl.
  - rewrite (proj2 (Z.eqb_neq _ _)) by (apply Hne; lia).
    replace (j + S n)%nat with (S j + n)%nat in * by lia.
    apply IH; [lia|done| |done]. intros k Hk. apply Hne. lia.
Qed.

(** On a null-terminated list the fast pointer falls off the end. *)
Lemma chase_ends h p l : lseg h p l 0 → ∀ n fuel j,
  (length l = 2 * (j + n) ∨ length l = S (2 * (j + n)))%nat → (n < fuel)%nat →
  chase fuel h (list_walk l j) (list_walk l (2 * j)) =
    Ret (list_walk l (j + n), list_walk l (2 * (j + n)), false).
Proof.
  intros Hl. destruct (list_walk_walks h p l Hl) as [Hw _].
  pose proof (lseg_NoDup _ _ _ Hl) as Hnd.
  pose proof (λ k, list_walk_zero h p l k Hl) as Hz.
  induction n as [|n IH]; intros fuel j Hlen Hf; (destruct fuel as [|fuel]; [lia|]).
  - rewrite Nat.add_0_r in *. cbn [chase]. destruct (Z.eqb_spec (list_walk l (2 * j)) 0) as [E|E]; [done|].
    rewrite (Hw _ E), bind_Ret. rewrite Hz in E.
    assert (list_walk l (S (2 * j)) = 0) as -> by (apply Hz; lia). done.
  - rewrite chase_step; [|done|rewrite Hz; lia..].
    rewrite (proj2 (Z.eqb_neq _ _)).
    + replace (j + S n)%nat with (S j + n)%nat in * by lia. apply IH; lia.
    + unfold list_walk. intros E.
      destruct (lookup_lt_is_Some_2 l (S j)) as [a Ha]; [lia|].
      rewrite Ha in E. destruct (l !! (2 * S j)%nat) as [b|] eqn:Eb; simpl in E.
      * subst b. pose proof (NoDup_lookup _ _ _ _ Hnd Ha Eb). lia.
      * subst a. apply (lseg_nonnull _ _ _ _ Hl). by eapply list_elem_of_lookup_2.
Qed.

Lemma chase_list h p l fuel :
  lseg h p l 0 → (length l < fuel)%nat →
  ∃ slow fast, chase fuel h p p = Ret (slow, fast, false) ∧ slow = list_walk l (length l / 2) ∧
    (fast = 0 ∨ fast ≠ 0 ∧ get_next h fast = Ret 0) ∧ (slow = fast → (length l ≤ 1)%nat).
Proof.
  intros Hl Hf. destruct (list_walk_walks h p l Hl) as [Hw Hp].
  pose proof (λ k, list_walk_zero h p l k Hl) as Hz.
  set (n := (length l / 2)%nat).
  assert (length l = 2 * n ∨ length l = S (2 * n))%nat as Hn.
  { pose proof (Nat.div_mod (length l) 2). pose proof (Nat.mod_upper_bound (length l) 2). lia. }
  exists (list_walk l n), (list_walk l (2 * n)).
  pose proof (chase_ends h p l Hl n fuel 0 Hn ltac:(lia)) as E. simpl in E.
  rewrite <-Hp in E. split; [exact E|]. split; [done|]. split.
  - destruct (Z.eqb_spec (list_walk l (2 * n)) 0) as [E0|E0]; [by left|right].
    split; [done|]. rewrite (Hw _ E0). f_equal. apply Hz. rewrite Hz in E0. lia.
  - intros Eq. destruct (decide (length l ≤ 1)%nat) as [|Hgt]; [done|exfalso].
    unfold list_walk in Eq. destruct (lookup_lt_is_Some_2 l n) as [a Ha]; [lia|].
    rewrite Ha in Eq. destruct (l !! (2 * n)%nat) as [b|] eqn:Eb; simpl in Eq.
    + subst b. pose proof (NoDup_lookup _ _ _ _ (lseg_NoDup _ _ _ Hl) Ha Eb). lia.
    + subst a. apply (lseg_nonnull _ _ _ _ Hl). by eapply list_elem_of_lookup_2.
Qed.

(** On a lasso they meet after a positive multiple of the cycle's length, on
    the cycle. *)
Lemma chase_lasso h p stem cyc fuel :
  lasso h p stem cyc → (length stem + length cyc < fuel)%nat →
  ∃ i, chase fuel h p p = Ret (lasso_walk stem cyc i, lasso_walk stem cyc i, true) ∧
       (0 < i)%nat ∧ (length stem ≤ i)%nat ∧ (length cyc | i)%nat.
Proof.
  intros HL Hf. set (w := lasso_walk stem cyc). set (mu := length stem) in *.
  set (lam := length cyc) in *. pose proof (lam_pos _ _ _ _ HL) as Hlam. fold lam in Hlam.
  set (P := λ i, bool_decide (w (S i) = w (2 * S i)%nat)).
  assert (∀ i, P i = true ↔ (mu ≤ S i)%nat ∧ (lam | S i)%nat) as HP.
  { intros i. unfold P. rewrite bool_decide_eq_true. unfold w. rewrite (lasso_walk_eq h p) by done.
    replace (2 * S i)%nat with (S i + S i)%nat by lia.
    rewrite (lasso_index_shift h p) by done. fold mu lam. split; [intros [?|?]; [lia|done]|auto]. }
  destruct (first_true P (lam * S (mu / lam) - 1)%nat) as (i & Hle & Hi & Hmin).
  { apply HP. pose proof (Nat.div_mod mu lam ltac:(lia)). pose proof (Nat.mod_upper_bound mu lam ltac:(lia)).
    replace (S (lam * S (mu / lam) - 1))%nat with (lam * S (mu / lam))%nat by nia.
    split; [nia|]. exists (S (mu / lam))%nat. lia. }
  assert (lam * S (mu / lam) ≤ mu + lam)%nat.
  { pose proof (Nat.div_mod mu lam ltac:(lia)). nia. }
  exists (S i). apply HP in Hi as Hi'. split; [|split; [lia|done]].
  unfold P in Hi. apply bool_decide_eq_true in Hi.
  rewrite (lasso_head h p stem cyc HL).
  pose proof (chase_meets h w i (lasso_walks h p stem cyc HL) fuel 0) as E.
  unfold w in *. simpl in E, Hi. rewrite E; [by rewrite <-Hi|lia| | |done].
  - intros k _. by apply (lasso_walk_nonnull h p).
  - intros k Hk Eq. specialize (Hmin (k - 1)%nat ltac:(lia)). unfold P in Hmin.
    apply bool_decide_eq_false in Hmin. apply Hmin.
    replace (S (k - 1))%nat with k by lia. by replace (2 * k)%nat with (k + (k + 0))%nat in * by lia.
Qed.

(** ** The properties *)

(** C27: [detectLoop] answers and is right: false on every null-terminated list,
    true on every list that runs into a cycle; as many iterations as the list
    has nodes, and one more, suffice. *)
Theorem detectLoop_correct h p l stem cyc fuel :
  (lseg h p l 0 → (length l < fuel)%nat → detectLoop fuel h p = Ret false) ∧
  (lasso h p stem cyc → (length stem + length cyc < fuel)%nat → detectLoop fuel h p = Ret true).
Proof.
  unfold detectLoop. split.
  - intros Hl Hf. by destruct (chase_list h p l fuel Hl Hf) as (? & ? & -> & _).
  - intros HL Hf. by destruct (chase_lasso h p stem cyc fuel HL Hf) as (i & -> & _).
Qed.

(** The heap of the witnesses: 1 -> 2 -> 3 -> 4 -> 2. *)
Definition demo_heap : heap :=
  {[ 1 := mkListNode 10 2; 2 := mkListNode 20 3; 3 := mkListNode 30 4; 4 := mkListNode 40 2 ]}.

Lemma demo_lasso : lasso demo_heap 1 [1] [2; 3; 4].
Proof.
  split; [done|]. split; [apply (bool_decide_unpack _); by vm_compute|].
  exists 2. split; vm_compute; repeat eexists; try done.
Qed.

Lemma detectLoop_correct_witness : detectLoop 5 demo_heap 1 = Ret true.
Proof. apply (detectLoop_correct demo_heap 1 [] [1] [2; 3; 4]); [exact demo_lasso|simpl; lia]. Defined.

Lemma meet_lasso h p stem cyc i :
  lasso h p stem cyc → (0 < i)%nat → (length stem ≤ i)%nat → (length cyc | i)%nat →
  ∀ n j fuel, (j + n = length stem)%nat → (n < fuel)%nat →
  meet fuel h (lasso_walk stem cyc j) (lasso_walk stem cyc (j + i)) =
    Ret (lasso_walk stem cyc (length stem)).
Proof.
  intros HL Hi0 Hi Hdiv n. induction n as [|n IH]; intros j fuel Hj Hf;
    (destruct fuel as [|fuel]; [lia|]); cbn [meet].
  - replace j with (length stem) by lia.
    assert (lasso_walk stem cyc (length stem) = lasso_walk stem cyc (length stem + i)) as <-.
    { apply (lasso_walk_eq h p); [done|]. apply (lasso_index_shift h p); auto. }
    by rewrite Z.eqb_refl.
  - rewrite (proj2 (Z.eqb_neq _ _)).
    + rewrite !(lasso_walks h p stem cyc HL) by (by apply (lasso_walk_nonnull h p)).
      rewrite !bind_Ret. apply (IH (S j) fuel); lia.
    + rewrite (lasso_walk_eq h p), (lasso_index_shift h p) by done. lia.
Qed.

(** C35: [startOfLoop] returns the node where the cycle begins, and the null
    pointer on a null-terminated list. *)
Theorem startOfLoop_correct h p l stem cyc fuel :
  (lseg h p l 0 → (length l < fuel)%nat → startOfLoop fuel h p = Ret 0) ∧
  (lasso h p stem cyc → (length stem + length cyc < fuel)%nat →
   ∃ c, List.head cyc = Some c ∧ startOfLoop fuel h p = Ret c).
Proof.
  unfold startOfLoop. split.
  - intros Hl Hf. destruct (chase_list h p l fuel Hl Hf) as (s & f & -> & _ & Hend & _).
    rewrite bind_Ret. destruct Hend as [->|[Hf0 Hn]]; [done|].
    by rewrite (proj2 (Z.eqb_neq _ _) Hf0), Hn.
  - intros HL Hf. destruct (chase_lasso h p stem cyc fuel HL Hf) as (i & -> & Hi0 & Hi & Hdiv).
    rewrite bind_Ret, (proj2 (Z.eqb_neq _ _)) by (by apply (lasso_walk_nonnull h p)).
    rewrite (lasso_walks h p stem cyc HL), bind_Ret by (by apply (lasso_walk_nonnull h p)).
    rewrite (proj2 (Z.eqb_neq _ _)) by (by apply (lasso_walk_nonnull h p)).
    pose proof (meet_lasso h p stem cyc i HL Hi0 Hi Hdiv (length stem) 0 fuel) as E.
    simpl in E. rewrite <-(lasso_head h p stem cyc HL) in E. rewrite E by lia. rewrite (lasso_entry stem cyc).
    destruct HL as [Hne _]. destruct cyc as [|c cyc]; [done|]. by exists c.
Qed.

Lemma startOfLoop_correct_witness : ∃ c, Some 2 = Some c ∧ startOfLoop 5 demo_heap 1 = Ret c.
Proof.
  apply (startOfLoop_correct demo_heap 1 [] [1] [2; 3; 4] 5); [exact demo_lasso|simpl; lia].
Defined.

(** [middleNode] returns the node at position length/2 (the second of two
    middles), and the null pointer for the empty list. *)
Theorem middleNode_correct h p l fuel :
  lseg h p l 0 → (length l < fuel)%nat →
  middleNode fuel h p = Ret (default 0 (l !! (length l / 2)%nat)).
Proof.
  intros Hl Hf. destruct (list_walk_walks h p l Hl) as [Hw Hp].
  pose proof (λ k, list_walk_zero h p l k Hl) as Hz. unfold middleNode.
  change (default 0 (l !! (length l / 2)%nat)) with (list_walk l (length l / 2)).
  set (n := (length l / 2)%nat).
  assert (length l = 2 * n ∨ length l = S (2 * n))%nat as Hn.
  { pose proof (Nat.div_mod (length l) 2). pose proof (Nat.mod_upper_bound (length l) 2). lia. }
  enough (∀ m fuel j, (j + m = n)%nat → (m < fuel)%nat →
            middle_loop fuel h (list_walk l j) (list_walk l (2 * j)) = Ret (list_walk l n)) as Hm.
  { rewrite Hp. apply (Hm n fuel 0%nat); lia. }
  induction m as [|m IH]; intros fl j Hj Hfl; (destruct fl as [|fl]; [lia|]); cbn [middle_loop].
  - replace j with n in * by lia. destruct (Z.eqb_spec (list_walk l (2 * n)) 0) as [E|E]; [done|].
    rewrite (Hw _ E), bind_Ret. rewrite Hz in E.
    assert (list_walk l (S (2 * n)) = 0) as -> by (apply Hz; lia). done.
  - assert (list_walk l (2 * j) ≠ 0 ∧ list_walk l (S (2 * j)) ≠ 0 ∧ list_walk l j ≠ 0) as (H1 & H2 & H3)
      by (rewrite !Hz; lia).
    rewrite (proj2 (Z.eqb_neq _ _) H1), (Hw _ H1), bind_Ret.
    rewrite (proj2 (Z.eqb_neq _ _) H2), (Hw _ H3), bind_Ret, (Hw _ H2), bind_Ret.
    replace (S (S (2 * j))) with (2 * S j)%nat by lia. apply IH; lia.
Qed.

Lemma middleNode_correct_witness :
  middleNode 5 {[ 1 := mkListNode 10 2; 2 := mkListNode 20 3; 3 := mkListNode 30 4; 4 := mkListNode 40 0 ]} 1
  = Ret 3.
Proof.
  apply (middleNode_correct _ 1 [1; 2; 3; 4]); [|simpl; lia].
  vm_compute. repeat eexists; done.
Defined.

(** The last node of the cycle is the one before the entry, a full turn later. *)
Lemma lasso_walk_last h p stem cyc z i :
  lasso h p stem (cyc ++ [z]) → (0 < i)%nat → (0 < length stem)%nat →
  (length stem ≤ i)%nat → (length (cyc ++ [z]) | i)%nat →
  lasso_walk stem (cyc ++ [z]) (length stem - 1 + i) = z.
Proof.
  intros HL Hi0 Hs Hi [q Hq]. pose proof (lam_pos _ _ _ _ HL).
  unfold lasso_walk, lasso_index. rewrite decide_False by lia.
  set (lam := length (cyc ++ [z])) in *.
  destruct q as [|q]; [lia|].
  replace (length stem - 1 + i - length stem)%nat with (lam - 1 + q * lam)%nat by lia.
  rewrite Nat.Div0.mod_add, Nat.mod_small by lia.
  rewrite lookup_app_r, Nat.add_comm, Nat.add_sub by lia.
  unfold lam. rewrite length_app. simpl. rewrite Nat.add_sub.
  by rewrite lookup_app_r, Nat.sub_diag by lia.
Qed.

Lemma cut_lasso h p stem cyc i :
  lasso h p stem cyc → (0 < i)%nat → (length stem ≤ i)%nat → (length cyc | i)%nat →
  ∀ n j fuel, (S (j + n) = length stem)%nat → (n < fuel)%nat →
  cut fuel h (lasso_walk stem cyc j) (lasso_walk stem cyc (j + i)) =
    set_next h (lasso_walk stem cyc (length stem - 1 + i)) 0.
Proof.
  intros HL Hi0 Hi Hdiv n. induction n as [|n IH]; intros j fuel Hj Hf;
    (destruct fuel as [|fuel]; [lia|]); cbn [cut];
    rewrite !(lasso_walks h p stem cyc HL) by (by apply (lasso_walk_nonnull h p)); rewrite !bind_Ret.
  - assert (lasso_walk stem cyc (S j) = lasso_walk stem cyc (S (j + i))) as <-.
    { apply (lasso_walk_eq h p); [done|]. apply (lasso_index_shift h p stem cyc HL (S j) i). right.
      split; [lia|done]. }
    rewrite Z.eqb_refl. by replace (length stem - 1)%nat with j by lia.
  - rewrite (proj2 (Z.eqb_neq _ _)).
    + apply (IH (S j) fuel); lia.
    + rewrite (lasso_walk_eq h p) by done.
      pose proof (lasso_index_shift h p stem cyc HL (S j) i) as E. simpl in E. rewrite E. lia.
Qed.

Lemma lseg_cut h p l z q nd :
  NoDup (l ++ [z]) → lseg h p (l ++ [z]) q → h !! z = Some nd →
  lseg (<[z := mkListNode (val nd) 0]> h) p (l ++ [z]) 0.
Proof.
  intros (_ & Hz & _)%NoDup_app (m & H1 & H2)%lseg_app Hnd. apply lseg_app. exists m. split.
  - apply (lseg_frame h); [|done]. intros a Ha. apply lookup_insert_ne.
    intros <-. apply (Hz z Ha). by left.
  - destruct H2 as (-> & Hz0 & _). simpl. do 2 (split; [done|]).
    eexists. split; [apply lookup_insert_eq|done].
Qed.

Lemma vals_set_next h z nd q l :
  h !! z = Some nd → vals (<[z := mkListNode (val nd) q]> h) l = vals h l.
Proof.
  intros Hz. unfold vals. apply list_fmap_ext. intros _ a _. destruct (decide (a = z)) as [->|Hne].
  - by rewrite lookup_insert_eq, Hz.
  - by rewrite lookup_insert_ne.
Qed.

(** When the cycle does not include the head, [fixLoop] reports true and
    turns the list into a null-terminated one with the same nodes and values in
    the same order; on a null-terminated list of two or more nodes it reports
    false and changes nothing. *)
Theorem fixLoop_correct h p l stem cyc fuel :
  (lseg h p l 0 → (2 ≤ length l < fuel)%nat → fixLoop fuel h p = Ret (false, h)) ∧
  (lasso h p stem cyc → stem ≠ [] → (length stem + length cyc < fuel)%nat →
   ∃ h', fixLoop fuel h p = Ret (true, h') ∧ lseg h' p (stem ++ cyc) 0 ∧
         vals h' (stem ++ cyc) = vals h (stem ++ cyc)).
Proof.
  unfold fixLoop. split.
  - intros Hl Hf. destruct (chase_list h p l fuel Hl ltac:(lia)) as (s & f & -> & _ & _ & Hlen).
    rewrite bind_Ret, (proj2 (Z.eqb_neq s f)); [done|]. intros E%Hlen. lia.
  - intros HL Hne Hf. destruct (chase_lasso h p stem cyc fuel HL Hf) as (i & -> & Hi0 & Hi & Hdiv).
    rewrite bind_Ret, Z.eqb_refl.
    assert (0 < length stem)%nat by (destruct stem; simpl; [done|lia]).
    pose proof (cut_lasso h p stem cyc i HL Hi0 Hi Hdiv (length stem - 1) 0 fuel) as E.
    simpl in E. rewrite <-(lasso_head h p stem cyc HL) in E. rewrite E by lia.
    destruct (exists_last_or_nil cyc) as [->|(cyc' & z & ->)]; [by destruct HL|].
    rewrite (lasso_walk_last h p stem cyc' z i) by done.
    pose proof HL as (_ & Hnd & c & H1 & H2).
    assert (lseg h p (stem ++ cyc' ++ [z]) c) as Hall by (apply lseg_app; eauto).
    rewrite app_assoc in *.
    destruct (lseg_lookup h p ((stem ++ cyc') ++ [z]) c (length (stem ++ cyc')) z Hall)
      as (Hz0 & nd & Hz & _); [by rewrite lookup_app_r, Nat.sub_diag by lia|].
    rewrite (set_next_Some h z 0 nd Hz Hz0), bind_Ret. eexists. split; [done|].
    split; [by apply (lseg_cut h p _ z c)|by apply vals_set_next].
Qed.

Lemma fixLoop_correct_witness :
  ∃ h', fixLoop 5 demo_heap 1 = Ret (true, h') ∧ lseg h' 1 [1; 2; 3; 4] 0 ∧
        vals h' [1; 2; 3; 4] = vals demo_heap [1; 2; 3; 4].
Proof.
  apply (fixLoop_correct demo_heap 1 [] [1] [2; 3; 4]); [exact demo_lasso|done|simpl; lia].
Defined.

(** Where [fixLoop] is wrong.  When the cycle includes the head, it reports
    success but cuts behind the head, so that all other nodes are lost; on a
    list of one node, which has no cycle, it reports that it fixed one; and on
    the empty list it dereferences the null pointer. *)
Theorem fixLoop_wrong h p cyc a fuel :
  (lasso h p [] cyc → (length cyc < fuel)%nat →
   ∃ h', fixLoop fuel h p = Ret (true, h') ∧ lseg h' p [p] 0) ∧
  (lseg h a [a] 0 → (1 < fuel)%nat → fixLoop fuel h a = Ret (true, h)) ∧
  ((0 < fuel)%nat → fixLoop fuel h 0 = Err NullDeref).
Proof.
  unfold fixLoop. split; [|split].
  - intros HL Hf. destruct (chase_lasso h p [] cyc fuel HL Hf) as (i & -> & Hi0 & Hi & Hdiv).
    rewrite bind_Ret, Z.eqb_refl.
    assert (lasso_walk [] cyc i = p) as ->.
    { rewrite (lasso_head h p [] cyc HL). symmetry. apply (lasso_walk_eq h p); [done|].
      apply (lasso_index_shift h p [] cyc HL 0 i). right. split; [simpl; lia|done]. }
    destruct fuel as [|fuel]; [lia|]. cbn [cut].
    pose proof (lasso_walks h p [] cyc HL 0%nat) as Hn. rewrite <-(lasso_head h p [] cyc HL) in Hn.
    assert (p ≠ 0) as Hp.
    { rewrite (lasso_head h p [] cyc HL). by apply (lasso_walk_nonnull h p). }
    rewrite (Hn Hp), !bind_Ret, Z.eqb_refl.
    unfold get_next, load in Hn. rewrite (proj2 (Z.eqb_neq p 0) Hp) in Hn.
    destruct (h !! p) as [nd|] eqn:Hnd; [|by specialize (Hn Hp)].
    rewrite (set_next_Some h p 0 nd Hnd Hp), bind_Ret. eexists. split; [done|].
    simpl. do 2 (split; [done|]). eexists. split; [apply lookup_insert_eq|done].
  - intros (_ & Ha & nd & Hnd & Hn) Hf. simpl in Hn.
    destruct fuel as [|fuel]; [lia|]. cbn [chase]. rewrite (proj2 (Z.eqb_neq a 0) Ha).
    rewrite (get_next_Some h a nd Hnd Ha), bind_Ret, Hn. simpl (0 =? 0). cbv iota.
    rewrite bind_Ret, Z.eqb_refl. cbn [cut].
    rewrite (get_next_Some h a nd Hnd Ha), !bind_Ret, Z.eqb_refl, (set_next_Some h a 0 nd Hnd Ha), bind_Ret.
    destruct nd as [v n]; simpl in *. subst n. by rewrite insert_id.
  - intros Hf. by destruct fuel; [lia|].
Qed.

Lemma fixLoop_wrong_witness :
  ∃ h', fixLoop 4 demo_heap 2 = Ret (true, h') ∧ lseg h' 2 [2] 0.
Proof.
  apply (fixLoop_wrong demo_heap 2 [2; 3; 4] 0); [|simpl; lia].
  split; [done|]. split; [apply (bool_decide_unpack _); by vm_compute|].
  exists 2. split; vm_compute; repeat eexists; done.
Defined.
