(* ===== verification/MergeLists.v ===== *)
(** * pureStorage/mergeLinkedList.cpp

    Merging two sorted lists in place, recursively and with a dummy node.  Both
    are shown to relink the nodes of their inputs in the order of [merge], so
    they agree with each other, and sorted inputs give a sorted result. *)

From stdpp Require Import base list gmap numbers sets sorting.
From Stdlib Require Import ZArith Lia.
From S2P Require Import Prelude ListHeap.

Fixpoint mergeTwoListsRecursive (fuel : nat) (h : heap) (l1 l2 : Z) : outcome (Z * heap) :=
  match fuel with
  | O => Err OutOfFuel
  | S fuel =>
      if l1 =? 0 then Ret (l2, h) else
      if l2 =? 0 then Ret (l1, h) else
      n1 ← load h l1;
      n2 ← load h l2;
      if val n1 <? val n2 then
        '(r, h) ← mergeTwoListsRecursive fuel h (next n1) l2;
        h ← set_next h l1 r;
        Ret (l1, h)
      else
        '(r, h) ← mergeTwoListsRecursive fuel h l1 (next n2);
        h ← set_next h l2 r;
        Ret (l2, h)
  end.

(** [next->next = x], where [next] is the dummy node ([None], whose next
    pointer is [dummy]) or a list node. *)
Definition link (h : heap) (dummy : Z) (last : option Z) (x : Z) : outcome (Z * heap) :=
  match last with
  | None => Ret (x, h)
  | Some a => h ← set_next h a x; Ret (dummy, h)
  end.

(** The loop and the assignment behind it; returns [dummy.next]. *)
Fixpoint merge_loop (fuel : nat) (h : heap) (dummy : Z) (last : option Z) (l1 l2 : Z)
    : outcome (Z * heap) :=
  match fuel with
  | O => Err OutOfFuel
  | S fuel =>
      if negb (l1 =? 0) && negb (l2 =? 0) then
        n1 ← load h l1;
        n2 ← load h l2;
        if val n1 <? val n2 then
          '(dummy, h) ← link h dummy last l1;
          l1' ← get_next h l1;
          merge_loop fuel h dummy (Some l1) l1' l2
        else
          '(dummy, h) ← link h dummy last l2;
          l2' ← get_next h l2;
          merge_loop fuel h dummy (Some l2) l1 l2'
      else if negb (l1 =? 0) then link h dummy last l1
      else link h dummy last l2
  end.

Definition mergeTwoLists (fuel : nat) (h : heap) (l1 l2 : Z) : outcome (Z * heap) :=
  merge_loop fuel h 0 None l1 l2.

(** ** The order of the result *)

Definition val_at (h : heap) (a : Z) : Z := default 0 (val <$> h !! a).

Fixpoint merge (v : Z → Z) (l1 : list Z) : list Z → list Z :=
  fix go (l2 : list Z) : list Z :=
    match l1, l2 with
    | [], _ => l2
    | _, [] => l1
    | a :: l1', b :: l2' => if v a <? v b then a :: merge v l1' l2 else b :: go l2'
    end.

Lemma merge_nil_l v l : merge v [] l = l.
Proof. by destruct l. Qed.
Lemma merge_nil_r v l : merge v l [] = l.
Proof. by destruct l. Qed.
Lemma merge_cons v a l1 b l2 :
  merge v (a :: l1) (b :: l2) =
  if v a <? v b then a :: merge v l1 (b :: l2) else b :: merge v (a :: l1) l2.
Proof. done. Qed.

(** Induction on two lists of which one gets shorter. *)
Lemma two_lists_ind (P : list Z → list Z → Prop) :
  (∀ l, P [] l) → (∀ l, P l []) →
  (∀ a l1 b l2, P l1 (b :: l2) → P (a :: l1) l2 → P (a :: l1) (b :: l2)) → ∀ l1 l2, P l1 l2.
Proof. intros H1 H2 H3. induction l1 as [|a l1 IH]; [done|]. induction l2; auto. Qed.

(** Case names [l], [l] and [a l1 b l2 IH1 IH2]. *)
Ltac two_ind l1 l2 :=
  pattern l1, l2; apply two_lists_ind; clear l1 l2;
  [intros l|intros l|intros a l1 b l2 IH1 IH2].

Lemma merge_ext v v' l1 l2 :
  (∀ a, a ∈ l1 ++ l2 → v a = v' a) → merge v l1 l2 = merge v' l1 l2.
Proof.
  two_ind l1 l2; intros Hv.
  - by rewrite !merge_nil_l.
  - by rewrite !merge_nil_r.
  - rewrite !merge_cons, (Hv a), (Hv b) by set_solver.
    rewrite IH1, IH2 by set_solver. done.
Qed.

Lemma merge_Permutation v l1 l2 : merge v l1 l2 ≡ₚ l1 ++ l2.
Proof.
  two_ind l1 l2.
  - by rewrite merge_nil_l.
  - by rewrite merge_nil_r, app_nil_r.
  - rewrite merge_cons. destruct (_ <? _).
    + by rewrite IH1.
    + rewrite IH2. by rewrite Permutation_middle.
Qed.

Definition sorted_by (v : Z → Z) (l : list Z) : Prop := StronglySorted (λ a b, v a ≤ v b) l.

Lemma merge_sorted v l1 l2 : sorted_by v l1 → sorted_by v l2 → sorted_by v (merge v l1 l2).
Proof.
  unfold sorted_by.
  two_ind l1 l2; intros H1 H2.
  - by rewrite merge_nil_l.
  - by rewrite merge_nil_r.
  - rewrite merge_cons. apply StronglySorted_inv in H1 as H1'. apply StronglySorted_inv in H2 as H2'.
    destruct H1' as [S1 F1], H2' as [S2 F2].
    assert (∀ x y l, v x ≤ v y → Forall (λ c, v y ≤ v c) l → Forall (λ c, v x ≤ v c) l) as Himp.
    { intros x y l Hxy HF. eapply Forall_impl; [exact HF|]. simpl. lia. }
    destruct (Z.ltb_spec (v a) (v b)); constructor; auto; rewrite merge_Permutation;
      apply Forall_app; split; auto; constructor; try lia; eapply Himp; eauto; lia.
Qed.

(** ** The recursive version *)

(** The heaps agree outside [l], and everywhere in the values. *)
Definition relinked (l : list Z) (h h' : heap) : Prop :=
  ∀ a, val <$> h' !! a = val <$> h !! a ∧ (a ∉ l → h' !! a = h !! a).

Lemma relinked_refl l h : relinked l h h.
Proof. done. Qed.

Lemma relinked_set l h a nd n :
  a ∈ l → h !! a = Some nd → relinked l h (<[a := mkListNode (val nd) n]> h).
Proof.
  intros Hin Ha b. destruct (decide (a = b)) as [<-|Hne].
  - by rewrite lookup_insert_eq, Ha.
  - by rewrite lookup_insert_ne.
Qed.

Lemma relinked_trans l h1 h2 h3 : relinked l h1 h2 → relinked l h2 h3 → relinked l h1 h3.
Proof.
  intros H1 H2 a. destruct (H1 a) as [E1 F1], (H2 a) as [E2 F2].
  split; [by rewrite E2|]. intros Hn. by rewrite F2, F1.
Qed.

Lemma relinked_weaken l l' h h' : l ⊆ l' → relinked l h h' → relinked l' h h'.
Proof. intros Hl H a. destruct (H a). split; [done|]. intros Hn. set_solver. Qed.

Lemma relinked_val l h h' a : relinked l h h' → val_at h' a = val_at h a.
Proof. intros H. unfold val_at. by destruct (H a) as [-> _]. Qed.

Lemma val_at_Some h a nd : h !! a = Some nd → val_at h a = val nd.
Proof. intros Ha. unfold val_at. by rewrite Ha. Qed.

Lemma merge_recursive_spec l1 l2 : ∀ fuel h p1 p2,
  lseg h p1 l1 0 → lseg h p2 l2 0 → NoDup (l1 ++ l2) → (length l1 + length l2 < fuel)%nat →
  ∃ r h', mergeTwoListsRecursive fuel h p1 p2 = Ret (r, h') ∧
    lseg h' r (merge (val_at h) l1 l2) 0 ∧ relinked (l1 ++ l2) h h'.
Proof.
  two_ind l1 l2; intros fuel h p1 p2 H1 H2 Hnd Hf; (destruct fuel as [|fuel]; [simpl in Hf; lia|]).
  - simpl in H1. subst p1. exists p2, h. rewrite merge_nil_l. auto using relinked_refl.
  - simpl in H2. subst p2. exists p1, h. rewrite merge_nil_r. cbn [mergeTwoListsRecursive].
    destruct (Z.eqb_spec p1 0) as [->|Hp]; [|by auto using relinked_refl].
    destruct l; [by auto using relinked_refl|by destruct H1 as [? [? _]]].
  - pose proof H1 as (-> & Ha & na & Hna & H1').
    pose proof H2 as (-> & Hb & nb & Hnb & H2').
    cbn [mergeTwoListsRecursive].
    rewrite (proj2 (Z.eqb_neq a 0) Ha), (proj2 (Z.eqb_neq b 0) Hb).
    rewrite (load_Some h a na Hna Ha), (load_Some h b nb Hnb Hb), !bind_Ret.
    rewrite merge_cons, (val_at_Some h a na Hna), (val_at_Some h b nb Hnb).
    destruct (val na <? val nb).
    + simpl in Hnd. pose proof (NoDup_cons_1_1 _ _ Hnd) as Hfr. apply NoDup_cons_1_2 in Hnd.
      destruct (IH1 fuel h (next na) b H1' H2 Hnd) as (r & h' & -> & Hl & Hr); [simpl in *; lia|].
      rewrite bind_Ret. destruct (Hr a) as [_ Hsame]. rewrite (set_next_Some h' a r na), bind_Ret
        by (try done; by rewrite Hsame).
      exists a. eexists. split; [done|]. split.
      * simpl. do 2 (split; [done|]). eexists. split; [apply lookup_insert_eq|]. simpl.
        apply (lseg_frame h'); [|done]. intros c Hc. apply lookup_insert_ne. intros <-.
        apply Hfr. by rewrite <-(merge_Permutation (val_at h)).
      * eapply relinked_trans; [eapply relinked_weaken; [|exact Hr]; set_solver|].
        apply relinked_set; [set_solver|by rewrite Hsame].
    + assert (b ∉ (a :: l1) ++ l2 ∧ NoDup ((a :: l1) ++ l2)) as [Hfr Hnd'].
      { rewrite <-Permutation_middle in Hnd. split; [by apply NoDup_cons_1_1 in Hnd|].
        by apply NoDup_cons_1_2 in Hnd. }
      destruct (IH2 fuel h a (next nb) H1 H2' Hnd') as (r & h' & -> & Hl & Hr); [simpl in *; lia|].
      rewrite bind_Ret. destruct (Hr b) as [_ Hsame]. rewrite (set_next_Some h' b r nb), bind_Ret
        by (try done; by rewrite Hsame).
      exists b. eexists. split; [done|]. split.
      * simpl. do 2 (split; [done|]). eexists. split; [apply lookup_insert_eq|]. simpl.
        apply (lseg_frame h'); [|done]. intros c Hc. apply lookup_insert_ne. intros <-.
        apply Hfr. by rewrite <-(merge_Permutation (val_at h)).
      * eapply relinked_trans; [eapply relinked_weaken; [|exact Hr]; set_solver|].
        apply relinked_set; [set_solver|by rewrite Hsame].
Qed.

(** ** The version with a dummy node *)

(** The nodes [D] appended so far hang off the dummy; [last] is the last. *)
Definition attached (h : heap) (dummy : Z) (last : option Z) (D : list Z) : Prop :=
  match last with
  | None => D = []
  | Some d => ∃ D', D = D' ++ [d] ∧ lseg h dummy D' d ∧ d ≠ 0 ∧ is_Some (h !! d)
  end.

Lemma link_spec h dummy last D x :
  attached h dummy last D → NoDup D →
  ∃ dummy' h', link h dummy last x = Ret (dummy', h') ∧ lseg h' dummy' D x ∧ relinked D h h'.
Proof.
  destruct last as [d|]; simpl.
  - intros (D' & -> & HD & Hd & nd & Hnd) Hdup. rewrite (set_next_Some h d x nd Hnd Hd), bind_Ret.
    do 2 eexists. split; [done|]. split.
    + apply lseg_app. exists d. split.
      * apply (lseg_frame h); [|done]. intros a Ha. apply lookup_insert_ne. intros <-.
        apply NoDup_app in Hdup as (_ & Hno & _). apply (Hno d Ha). by left.
      * simpl. do 2 (split; [done|]). eexists. by split; [apply lookup_insert_eq|].
    + apply relinked_set; [set_solver|done].
  - intros -> _. do 2 eexists. split; [done|]. split; [done|]. apply relinked_refl.
Qed.

Lemma lseg_relinked l h h' p k q :
  relinked l h h' → (∀ a, a ∈ k → a ∉ l) → lseg h p k q → lseg h' p k q.
Proof. intros Hr Hd. apply lseg_frame. intros a Ha. by apply Hr, Hd. Qed.

(** Appending the first node of a list: it becomes the last one attached. *)
Lemma attach_node h h' dummy D a na :
  lseg h' dummy D a → a ≠ 0 → h !! a = Some na → relinked D h h' → a ∉ D →
  h' !! a = Some na ∧ attached h' dummy (Some a) (D ++ [a]).
Proof.
  intros HD Ha Hna Hr Hfr. destruct (Hr a) as [_ Hsame]. rewrite (Hsame Hfr).
  split; [done|]. exists D. repeat split; try done. rewrite (Hsame Hfr). eauto.
Qed.

(** The rest of a list is linked as it is. *)
Lemma link_rest h dummy last D p l : attached h dummy last D → NoDup (D ++ l) → lseg h p l 0 →
  ∃ r h', link h dummy last p = Ret (r, h') ∧ lseg h' r (D ++ l) 0 ∧ relinked D h h'.
Proof.
  intros HD (HndD & Hdis & _)%NoDup_app Hp. destruct (link_spec h dummy last D p HD HndD) as (r & h' & -> & Hl & Hr).
  exists r, h'. split_and!; [done| |done]. apply lseg_app. exists p. split; [done|].
  apply (lseg_relinked D h); [done| |done]. intros a Ha Ha'. by apply (Hdis a).
Qed.

(** A node is linked behind what is done; lists of other nodes stay as they are. *)
Lemma link_node h dummy last D a na : attached h dummy last D → NoDup D → a ∉ D → a ≠ 0 → h !! a = Some na →
  ∃ dm h', link h dummy last a = Ret (dm, h') ∧ h' !! a = Some na ∧ attached h' dm (Some a) (D ++ [a]) ∧
    relinked D h h' ∧ (∀ p l, (∀ c, c ∈ D → c ∉ l) → lseg h p l 0 → lseg h' p l 0).
Proof.
  intros HD HndD Hfr Ha Hna. destruct (link_spec h dummy last D a HD HndD) as (dm & h' & E & Hl & Hr).
  destruct (attach_node h h' dm D a na Hl Ha Hna Hr Hfr) as [Hna' Hat]. exists dm, h'. split_and!; try done.
  intros p l Hdis Hp. apply (lseg_relinked D h); [done| |done]. intros c Hc Hc'. by apply (Hdis c).
Qed.

Lemma merge_loop_spec l1 l2 : ∀ fuel h dummy last D p1 p2,
  attached h dummy last D → lseg h p1 l1 0 → lseg h p2 l2 0 →
  NoDup (D ++ l1 ++ l2) → (length l1 + length l2 < fuel)%nat →
  ∃ r h', merge_loop fuel h dummy last p1 p2 = Ret (r, h') ∧
    lseg h' r (D ++ merge (val_at h) l1 l2) 0 ∧ relinked (D ++ l1 ++ l2) h h'.
Proof.
  two_ind l1 l2; intros fuel h dummy last D p1 p2 HD H1 H2 Hnd Hf;
    (destruct fuel as [|fuel]; [simpl in Hf; lia|]); pose proof Hnd as (HndD & Hdis & _)%NoDup_app.
  - simpl in H1. subst p1. cbn [merge_loop]. simpl negb. simpl andb. cbv iota.
    destruct (link_rest h dummy last D p2 l) as (r & h' & -> & Hl & Hr); [done..|].
    exists r, h'. rewrite merge_nil_l. split_and!; [done|done|]. eapply relinked_weaken; [|exact Hr]. set_solver.
  - simpl in H2. subst p2. cbn [merge_loop]. rewrite Z.eqb_refl, andb_false_r. cbv iota.
    assert ((if negb (p1 =? 0) then link h dummy last p1 else link h dummy last 0) =
            link h dummy last p1) as -> by (by destruct (Z.eqb_spec p1 0) as [->|]).
    rewrite app_nil_r in Hnd. destruct (link_rest h dummy last D p1 l) as (r & h' & -> & Hl & Hr); [done..|].
    exists r, h'. rewrite merge_nil_r. split_and!; [done|done|]. eapply relinked_weaken; [|exact Hr]. set_solver.
  - pose proof H1 as (-> & Ha & na & Hna & H1').
    pose proof H2 as (-> & Hb & nb & Hnb & H2').
    cbn [merge_loop]. rewrite (proj2 (Z.eqb_neq a 0) Ha), (proj2 (Z.eqb_neq b 0) Hb). simpl andb. cbv iota.
    rewrite (load_Some h a na Hna Ha), (load_Some h b nb Hnb Hb), !bind_Ret.
    rewrite merge_cons, (val_at_Some h a na Hna), (val_at_Some h b nb Hnb).
    destruct (val na <? val nb).
    + destruct (link_node h dummy last D a na HD HndD) as (dm & h1 & -> & Hna1 & Hat & Hr & Hkeep); [set_solver|done|done|].
      rewrite bind_Ret, (get_next_Some h1 a na Hna1 Ha), bind_Ret.
      destruct (IH1 fuel h1 dm (Some a) (D ++ [a]) (next na) b Hat) as (r & h' & -> & Hl' & Hr');
        [apply Hkeep; [set_solver|done]..|by rewrite <-app_assoc|simpl in *; lia|].
      exists r, h'. split; [done|]. rewrite <-app_assoc in Hl', Hr'. split.
      * rewrite (merge_ext (val_at h) (val_at h1)); [done|]. intros c _. by rewrite (relinked_val D h h1).
      * eapply relinked_trans; [eapply relinked_weaken; [|exact Hr]; set_solver|exact Hr'].
    + destruct (link_node h dummy last D b nb HD HndD) as (dm & h1 & -> & Hnb1 & Hat & Hr & Hkeep); [set_solver|done|done|].
      rewrite bind_Ret, (get_next_Some h1 b nb Hnb1 Hb), bind_Ret.
      destruct (IH2 fuel h1 dm (Some b) (D ++ [b]) a (next nb) Hat) as (r & h' & -> & Hl' & Hr');
        [apply Hkeep; [set_solver|done]..| |simpl in *; lia|].
      { by assert ((D ++ [b]) ++ (a :: l1) ++ l2 ≡ₚ D ++ (a :: l1) ++ b :: l2) as -> by solve_Permutation. }
      exists r, h'. split; [done|]. rewrite <-app_assoc in Hl', Hr'. split.
      * rewrite (merge_ext (val_at h) (val_at h1)); [done|]. intros c _. by rewrite (relinked_val D h h1).
      * eapply relinked_trans; [eapply relinked_weaken; [|exact Hr]; set_solver|].
        eapply relinked_weaken; [|exact Hr']. set_solver.
Qed.

(** ** The property *)

(** Both versions merge two disjoint lists in place: they return the head
    of a null-terminated list of exactly the nodes of the two inputs, with all
    values unchanged and every other node untouched; the two versions link the
    nodes in the same order; and if both inputs are sorted by value, so is the
    result. *)
Theorem merge_correct h p1 p2 l1 l2 fuel :
  lseg h p1 l1 0 → lseg h p2 l2 0 → NoDup (l1 ++ l2) → (length l1 + length l2 < fuel)%nat →
  ∃ m r1 h1 r2 h2,
    mergeTwoListsRecursive fuel h p1 p2 = Ret (r1, h1) ∧ lseg h1 r1 m 0 ∧ relinked (l1 ++ l2) h h1 ∧
    mergeTwoLists fuel h p1 p2 = Ret (r2, h2) ∧ lseg h2 r2 m 0 ∧ relinked (l1 ++ l2) h h2 ∧
    m ≡ₚ l1 ++ l2 ∧
    (sorted_by (val_at h) l1 → sorted_by (val_at h) l2 → sorted_by (val_at h) m).
Proof.
  intros H1 H2 Hnd Hf. exists (merge (val_at h) l1 l2).
  destruct (merge_recursive_spec l1 l2 fuel h p1 p2 H1 H2 Hnd Hf) as (r1 & h1 & ? & ? & ?).
  destruct (merge_loop_spec l1 l2 fuel h 0 None [] p1 p2 eq_refl H1 H2 Hnd Hf) as (r2 & h2 & ? & ? & ?).
  exists r1, h1, r2, h2. do 6 (split; [done|]). split; [apply merge_Permutation|].
  apply merge_sorted.
Qed.

Definition demo_heap : heap :=
  {[ 1 := mkListNode 1 3; 3 := mkListNode 3 5; 5 := mkListNode 5 0;
     2 := mkListNode 2 4; 4 := mkListNode 3 6; 6 := mkListNode 6 0 ]}.

Lemma merge_correct_witness :
  ∃ m r1 h1, mergeTwoListsRecursive 10 demo_heap 1 2 = Ret (r1, h1) ∧ lseg h1 r1 m 0 ∧
             m ≡ₚ [1; 3; 5] ++ [2; 4; 6].
Proof.
  destruct (merge_correct demo_heap 1 2 [1; 3; 5] [2; 4; 6] 10) as
    (m & r1 & h1 & r2 & h2 & W1 & W2 & _ & _ & _ & _ & W3 & _).
  - vm_compute. repeat eexists; done.
  - vm_compute. repeat eexists; done.
  - apply (bool_decide_unpack _). by vm_compute.
  - simpl. lia.
  - exists m, r1, h1. split; [exact W1|]. split; [exact W2|exact W3].
Defined.
