(* ===== verification/Intersection.v ===== *)
(** * packetHandler/intersectionOfLinkedLists.cpp

    Four algorithms that find the first node two lists share.  When the lists
    are [a ++ c] and [b ++ c] with nothing else in common, all four return the
    first node of [c], or the null pointer when [c] is empty. *)

From stdpp Require Import base list gmap numbers sets.
From Stdlib Require Import ZArith Lia.
From S2P Require Import Prelude ListHeap.

(** [while (ptrA != ptrB) { ptrA = ptrA ? ptrA->next : headB; ... }] *)
Fixpoint swap_loop (fuel : nat) (h : heap) (headA headB ptrA ptrB : Z) : outcome Z :=
  match fuel with
  | O => Err OutOfFuel
  | S fuel =>
      if ptrA =? ptrB then Ret ptrA else
      ptrA ← (if ptrA =? 0 then Ret headB else get_next h ptrA);
      ptrB ← (if ptrB =? 0 then Ret headA else get_next h ptrB);
      swap_loop fuel h headA headB ptrA ptrB
  end.

Definition getIntersectionNode (fuel : nat) (h : heap) (headA headB : Z) : outcome Z :=
  if (headA =? 0) || (headB =? 0) then Ret 0 else swap_loop fuel h headA headB headA headB.

(** The inner loop of the brute-force search: is [currA] in the list at [currB]? *)
Fixpoint brute_inner (fuel : nat) (h : heap) (currA currB : Z) : outcome bool :=
  match fuel with
  | O => Err OutOfFuel
  | S fuel =>
      if currB =? 0 then Ret false else
      if currA =? currB then Ret true else
      n ← get_next h currB; brute_inner fuel h currA n
  end.

Fixpoint brute_outer (fuel fuelB : nat) (h : heap) (currA headB : Z) : outcome Z :=
  match fuel with
  | O => Err OutOfFuel
  | S fuel =>
      if currA =? 0 then Ret 0 else
      found ← brute_inner fuelB h currA headB;
      if (found : bool) then Ret currA else
      n ← get_next h currA; brute_outer fuel fuelB h n headB
  end.

Definition getIntersectionNodeBruteForce (fuel : nat) (h : heap) (headA headB : Z) : outcome Z :=
  brute_outer fuel fuel h headA headB.

Fixpoint collect_nodes (fuel : nat) (h : heap) (nodes : gset Z) (currB : Z) : outcome (gset Z) :=
  match fuel with
  | O => Err OutOfFuel
  | S fuel =>
      if currB =? 0 then Ret nodes else
      n ← get_next h currB; collect_nodes fuel h ({[currB]} ∪ nodes) n
  end.

Fixpoint find_node (fuel : nat) (h : heap) (nodes : gset Z) (currA : Z) : outcome Z :=
  match fuel with
  | O => Err OutOfFuel
  | S fuel =>
      if currA =? 0 then Ret 0 else
      if bool_decide (currA ∈ nodes) then Ret currA else
      n ← get_next h currA; find_node fuel h nodes n
  end.

Definition getIntersectionNodeUsingHashing (fuel : nat) (h : heap) (headA headB : Z) : outcome Z :=
  nodesInB ← collect_nodes fuel h ∅ headB; find_node fuel h nodesInB headA.

(** [int len]: a list of more than [INT_MAX] nodes overflows. *)
Fixpoint list_length (fuel : nat) (h : heap) (curr len : Z) : outcome Z :=
  match fuel with
  | O => Err OutOfFuel
  | S fuel =>
      if curr =? 0 then Ret len else
      len ← int (len + 1);
      n ← get_next h curr; list_length fuel h n len
  end.

Fixpoint advance (k : nat) (h : heap) (curr : Z) : outcome Z :=
  match k with O => Ret curr | S k => n ← get_next h curr; advance k h n end.

Fixpoint lockstep (fuel : nat) (h : heap) (currA currB : Z) : outcome Z :=
  match fuel with
  | O => Err OutOfFuel
  | S fuel =>
      if (currA =? 0) || (currB =? 0) then Ret 0 else
      if currA =? currB then Ret currA else
      a ← get_next h currA;
      b ← get_next h currB;
      lockstep fuel h a b
  end.

Definition getIntersectionNodeUsingLengthDifference (fuel : nat) (h : heap) (headA headB : Z)
    : outcome Z :=
  lenA ← list_length fuel h headA 0;
  lenB ← list_length fuel h headB 0;
  if lenB <? lenA then
    currA ← advance (Z.to_nat (lenA - lenB)) h headA; lockstep fuel h currA headB
  else
    currB ← advance (Z.to_nat (lenB - lenA)) h headB; lockstep fuel h headA currB.

(** ** The shape of two intersecting lists *)

Record meets_at (h : heap) (headA headB : Z) (a b c : list Z) : Prop := {
  ma_A : lseg h headA (a ++ c) 0;
  ma_B : lseg h headB (b ++ c) 0;
  ma_disjoint : ∀ x, x ∈ a → x ∉ b;
}.

Definition first_common (c : list Z) : Z := default 0 (c !! 0%nat).

Lemma meets_at_sym h pA pB a b c : meets_at h pA pB a b c → meets_at h pB pA b a c.
Proof. intros [? ? Hd]. split; try done. intros x Hb Ha. by apply (Hd x). Qed.

Section shape.
Context (h : heap) (headA headB : Z) (a b c : list Z) (HM : meets_at h headA headB a b c).

Lemma ma_facts :
  0 ∉ a ∧ 0 ∉ b ∧ 0 ∉ c ∧ NoDup c ∧ (∀ x, x ∈ c → x ∉ a) ∧ (∀ x, x ∈ c → x ∉ b) ∧ NoDup a ∧ NoDup b.
Proof.
  destruct HM as [HA HB _].
  pose proof (lseg_nonnull _ _ _ _ HA). pose proof (lseg_nonnull _ _ _ _ HB).
  pose proof (lseg_NoDup _ _ _ HA) as (Ha & HdA & Hc)%NoDup_app.
  pose proof (lseg_NoDup _ _ _ HB) as (Hb & HdB & _)%NoDup_app. set_solver.
Qed.

(** The nodes a pointer of the two-pointer algorithm passes: its own list, the
    null pointer, the other list. *)
Definition tour (a b : list Z) (k : nat) : Z := default 0 ((a ++ c ++ [0] ++ b ++ c) !! k).

Lemma tour_cases k :
  (k < length a + length c + 1 + length b)%nat →
  (k < length a)%nat ∧ a !! k = Some (tour a b k) ∨
  (length a ≤ k)%nat ∧ c !! (k - length a)%nat = Some (tour a b k) ∨
  (k = length a + length c)%nat ∧ tour a b k = 0 ∨
  (length a + length c < k)%nat ∧ b !! (k - length a - length c - 1)%nat = Some (tour a b k).
Proof.
  intros Hk. unfold tour. destruct (decide (k < length a)%nat).
  { left. split; [done|]. rewrite lookup_app_l by done.
    destruct (lookup_lt_is_Some_2 a k) as [x Hx]; [done|]. by rewrite Hx. }
  right. rewrite lookup_app_r by lia. destruct (decide (k < length a + length c)%nat).
  { left. split; [lia|]. rewrite lookup_app_l by lia.
    destruct (lookup_lt_is_Some_2 c (k - length a)%nat) as [x Hx]; [lia|]. by rewrite Hx. }
  right. rewrite lookup_app_r by lia. destruct (decide (k = length a + length c)%nat) as [->|].
  { left. split; [done|]. by replace (length a + length c - length a - length c)%nat with 0%nat by lia. }
  right. split; [lia|]. replace (k - length a - length c)%nat with (S (k - length a - length c - 1)) by lia.
  simpl. rewrite lookup_app_l by lia.
  destruct (lookup_lt_is_Some_2 b (k - length a - length c - 1)%nat) as [x Hx]; [lia|].
  by rewrite Nat.sub_0_r, Hx.
Qed.

Lemma tour_end : tour a b (length a + length c + 1 + length b) = first_common c.
Proof.
  unfold tour, first_common. rewrite !lookup_app_r by (simpl; lia). simpl.
  replace (length a + length c + 1 + length b - length a - length c - 1 - length b)%nat with 0%nat by lia.
  done.
Qed.

Lemma tour_meet_same : length a = length b → tour a b (length a) = first_common c.
Proof.
  clear HM. intros E. unfold tour, first_common. rewrite lookup_app_r, Nat.sub_diag by lia.
  by destruct c.
Qed.

(** One step of a pointer. *)
Lemma tour_step k :
  (k < length a + length c + 1 + length b)%nat →
  (if tour a b k =? 0 then Ret headB else get_next h (tour a b k)) = Ret (tour a b (S k)).
Proof.
  intros Hk. destruct HM as [HA HB _]. pose proof ma_facts as (H0a & H0b & H0c & _).
  unfold tour. destruct (decide (k < length (a ++ c))%nat) as [Hlt|Hge].
  - assert (a ++ c ++ [0] ++ b ++ c = (a ++ c) ++ [0] ++ b ++ c) as -> by (by rewrite <-!app_assoc).
    destruct (lookup_lt_is_Some_2 (a ++ c) k Hlt) as [x Hx].
    destruct (lseg_lookup _ _ _ _ _ _ HA Hx) as (Hx0 & nd & Hnd & Hn).
    rewrite lookup_app_l, Hx by done. simpl. rewrite (proj2 (Z.eqb_neq x 0) Hx0).
    rewrite (get_next_Some h x nd Hnd Hx0), Hn. f_equal.
    destruct (decide (S k < length (a ++ c))%nat) as [Hlt'|Hge'].
    + by rewrite (lookup_app_l (a ++ c)) by done.
    + rewrite (lookup_ge_None_2 (a ++ c)) by lia.
      rewrite (lookup_app_r (a ++ c)) by lia.
      by replace (S k - length (a ++ c))%nat with 0%nat by lia.
  - rewrite length_app in Hge.
    assert (a ++ c ++ [0] ++ b ++ c = ((a ++ c) ++ [0]) ++ b ++ c) as -> by (by rewrite <-!app_assoc).
    destruct (decide (k = length a + length c)%nat) as [->|Hne].
    + rewrite lookup_app_l by (rewrite !length_app; simpl; lia).
      rewrite lookup_app_r by (rewrite length_app; lia).
      rewrite length_app, Nat.sub_diag. simpl.
      rewrite (lookup_app_r ((a ++ c) ++ [0])) by (rewrite !length_app; simpl; lia).
      rewrite (lseg_head _ _ _ _ HB), !length_app. simpl.
      by replace (S (length a + length c) - (length a + length c + 1))%nat with 0%nat by lia.
    + rewrite !(lookup_app_r ((a ++ c) ++ [0])) by (rewrite !length_app; simpl; lia).
      rewrite !length_app. simpl.
      set (j := (k - (length a + length c + 1))%nat).
      replace (S k - (length a + length c + 1))%nat with (S j) by (unfold j; lia).
      destruct (lookup_lt_is_Some_2 (b ++ c) j) as [x Hx]; [rewrite length_app; unfold j; lia|].
      destruct (lseg_lookup _ _ _ _ _ _ HB Hx) as (Hx0 & nd & Hnd & Hn).
      rewrite Hx. simpl.
      by rewrite (proj2 (Z.eqb_neq x 0) Hx0), (get_next_Some h x nd Hnd Hx0), Hn.
Qed.

Lemma tour_start : tour a b 0 = headA.
Proof.
  unfold tour. destruct HM as [HA _ _]. rewrite (lseg_head _ _ _ _ HA).
  assert (a ++ c ++ [0] ++ b ++ c = (a ++ c) ++ [0] ++ b ++ c) as -> by (by rewrite <-!app_assoc).
  by destruct (a ++ c).
Qed.
End shape.

(** ** The four algorithms *)

Lemma tours_differ h pA pB a b c k :
  meets_at h pA pB a b c → (k < length a + length c + 1 + length b)%nat →
  (length a = length b → (k < length a)%nat) → tour c a b k ≠ tour c b a k.
Proof.
  intros HM Hk Hlen E. pose proof (ma_facts _ _ _ _ _ _ HM) as (H0a & H0b & H0c & Hnd & Hca & Hcb & Hna & Hnb).
  pose proof (ma_disjoint _ _ _ _ _ _ HM) as Hab.
  pose proof (tour_cases a b c k Hk) as HA.
  pose proof (tour_cases b a c k ltac:(lia)) as HB. rewrite <-E in HB.
  generalize dependent (tour c a b k). intros x E HA HB. clear E.
  specialize (Hca x). specialize (Hcb x). specialize (Hab x).
  assert (x = 0 → x ∉ a ∧ x ∉ b ∧ x ∉ c) as H0 by (by intros ->).
  assert (∀ (l : list Z) j, l !! j = Some x → x ∈ l) as Hin
    by (intros l j; apply list_elem_of_lookup_2).
  destruct HA as [[? HA]|[[? HA]|[[? HA]|[? HA]]]];
    destruct HB as [[? HB]|[[? HB]|[[? HB]|[? HB]]]];
    try (pose proof (Hin _ _ HA)); try (pose proof (Hin _ _ HB)); try tauto; try lia.
  - pose proof (NoDup_lookup _ _ _ _ Hna HA HB). lia.
  - pose proof (NoDup_lookup _ _ _ _ Hnd HA HB). lia.
  - pose proof (NoDup_lookup _ _ _ _ Hnb HA HB). lia.
Qed.

Lemma swap_loop_correct h pA pB a b c : meets_at h pA pB a b c →
  ∀ n k fuel, (k + n = if decide (length a = length b) then length a
                       else length a + length c + 1 + length b)%nat → (n < fuel)%nat →
  swap_loop fuel h pA pB (tour c a b k) (tour c b a k) = Ret (first_common c).
Proof.
  intros HM. induction n as [|n IH]; intros k fuel Hk Hf; (destruct fuel as [|fuel]; [lia|]);
    cbn [swap_loop].
  - assert (tour c a b k = first_common c ∧ tour c b a k = first_common c) as [-> ->].
    { rewrite Nat.add_0_r in Hk. destruct (decide (length a = length b)) as [E|E]; subst k.
      - split; [by apply tour_meet_same|]. rewrite E. by apply tour_meet_same.
      - split; [apply tour_end|]. rewrite <-(tour_end b a c). f_equal. lia. }
    by rewrite Z.eqb_refl.
  - assert (k < length a + length c + 1 + length b)%nat
      by (destruct (decide (length a = length b)); lia).
    rewrite (proj2 (Z.eqb_neq _ _)).
    + rewrite (tour_step h pA pB a b c HM) by done. rewrite bind_Ret.
      rewrite (tour_step h pB pA b a c (meets_at_sym _ _ _ _ _ _ HM)) by lia. rewrite bind_Ret.
      apply IH; lia.
    + apply (tours_differ h pA pB); [done..|]. intros E. rewrite decide_True in Hk by done. lia.
Qed.

Lemma getIntersectionNode_correct h pA pB a b c fuel :
  meets_at h pA pB a b c → (length a + length b + length c + 1 < fuel)%nat →
  getIntersectionNode fuel h pA pB = Ret (first_common c).
Proof.
  intros HM Hf. unfold getIntersectionNode.
  assert (∀ p x y, lseg h p (x ++ y) 0 → p = 0 → y = []) as Hnull.
  { intros p x y Hl ->. destruct x, y; try done; by destruct Hl as [? [? _]]. }
  destruct (Z.eqb_spec pA 0) as [E|_]; [by rewrite (Hnull _ _ _ (ma_A _ _ _ _ _ _ HM) E)|].
  destruct (Z.eqb_spec pB 0) as [E|_]; [by rewrite (Hnull _ _ _ (ma_B _ _ _ _ _ _ HM) E)|].
  simpl orb. cbv iota.
  pose proof (tour_start h pA pB a b c HM) as EA.
  pose proof (tour_start h pB pA b a c (meets_at_sym _ _ _ _ _ _ HM)) as EB.
  pose proof (swap_loop_correct h pA pB a b c HM
    (if decide (length a = length b) then length a else length a + length c + 1 + length b)%nat
    0 fuel eq_refl) as E.
  rewrite EA, EB in E. apply E. destruct (decide _); lia.
Qed.

(** Searching for the first node of a list that satisfies a test. *)
Lemma brute_inner_spec h x l : ∀ p fuel,
  lseg h p l 0 → (length l < fuel)%nat → brute_inner fuel h x p = Ret (bool_decide (x ∈ l)).
Proof.
  induction l as [|y l IH]; intros p fuel Hl Hf; (destruct fuel as [|fuel]; [simpl in Hf; lia|]).
  - simpl in Hl. by subst p.
  - destruct Hl as (-> & Hy & nd & Hnd & Hl). cbn [brute_inner]. rewrite (proj2 (Z.eqb_neq y 0) Hy).
    destruct (Z.eqb_spec x y) as [->|Hne].
    + rewrite bool_decide_eq_true_2; [done|by left].
    + rewrite (get_next_Some h y nd Hnd Hy), bind_Ret, (IH _ fuel Hl) by (simpl in Hf; lia).
      f_equal. apply bool_decide_ext. set_solver.
Qed.

Lemma collect_nodes_spec h l : ∀ p fuel s,
  lseg h p l 0 → (length l < fuel)%nat → collect_nodes fuel h s p = Ret (list_to_set l ∪ s).
Proof.
  induction l as [|y l IH]; intros p fuel s Hl Hf; (destruct fuel as [|fuel]; [simpl in Hf; lia|]).
  - simpl in Hl. subst p. simpl. f_equal. set_solver.
  - destruct Hl as (-> & Hy & nd & Hnd & Hl). cbn [collect_nodes]. rewrite (proj2 (Z.eqb_neq y 0) Hy).
    rewrite (get_next_Some h y nd Hnd Hy), bind_Ret, (IH _ fuel _ Hl) by (simpl in Hf; lia).
    f_equal. set_solver.
Qed.

(** Both searches walk over [a], which has no node of the other list, and stop
    at the first node of [c]. *)
Lemma brute_outer_spec h l c : ∀ a p fuel fuelB q,
  lseg h p (a ++ c) 0 → lseg h q l 0 → (∀ x, x ∈ a → x ∉ l) → (∀ x, x ∈ c → x ∈ l) →
  (length l < fuelB)%nat → (length (a ++ c) < fuel)%nat →
  brute_outer fuel fuelB h p q = Ret (first_common c).
Proof.
  induction a as [|y a IH]; intros p fuel fuelB q Hl Hq Hno Hyes HfB Hf;
    (destruct fuel as [|fuel]; [simpl in Hf; lia|]); cbn [brute_outer].
  - destruct c as [|y c]; [simpl in Hl; by subst p|]. simpl in Hl.
    destruct Hl as (-> & Hy & _). rewrite (proj2 (Z.eqb_neq y 0) Hy).
    rewrite (brute_inner_spec h y l q fuelB), bind_Ret by done.
    rewrite bool_decide_eq_true_2; [done|]. apply Hyes. by left.
  - destruct Hl as (-> & Hy & nd & Hnd & Hl). rewrite (proj2 (Z.eqb_neq y 0) Hy).
    rewrite (brute_inner_spec h y l q fuelB), bind_Ret by done.
    rewrite bool_decide_eq_false_2; [|apply Hno; by left].
    rewrite (get_next_Some h y nd Hnd Hy), bind_Ret. apply IH; auto; [|simpl in Hf; lia].
    intros x Hx. apply Hno. by right.
Qed.

Lemma find_node_spec h (l : gset Z) c : ∀ a p fuel,
  lseg h p (a ++ c) 0 → (∀ x, x ∈ a → x ∉ l) → (∀ x, x ∈ c → x ∈ l) →
  (length (a ++ c) < fuel)%nat → find_node fuel h l p = Ret (first_common c).
Proof.
  induction a as [|y a IH]; intros p fuel Hl Hno Hyes Hf;
    (destruct fuel as [|fuel]; [simpl in Hf; lia|]); cbn [find_node].
  - destruct c as [|y c]; [simpl in Hl; by subst p|]. simpl in Hl.
    destruct Hl as (-> & Hy & _). rewrite (proj2 (Z.eqb_neq y 0) Hy).
    rewrite bool_decide_eq_true_2; [done|]. apply Hyes. by left.
  - destruct Hl as (-> & Hy & nd & Hnd & Hl). rewrite (proj2 (Z.eqb_neq y 0) Hy).
    rewrite bool_decide_eq_false_2; [|apply Hno; by left].
    rewrite (get_next_Some h y nd Hnd Hy), bind_Ret. apply IH; auto; [|simpl in Hf; lia].
    intros x Hx. apply Hno. by right.
Qed.

Lemma list_length_spec h l : ∀ p fuel n,
  lseg h p l 0 → (length l < fuel)%nat → 0 ≤ n → n + Z.of_nat (length l) ≤ INT_MAX →
  list_length fuel h p n = Ret (n + Z.of_nat (length l)).
Proof.
  induction l as [|y l IH]; intros p fuel n Hl Hf Hn Hmax; (destruct fuel as [|fuel]; [simpl in Hf; lia|]).
  - simpl in Hl. subst p. simpl. f_equal. lia.
  - destruct Hl as (-> & Hy & nd & Hnd & Hl). cbn [list_length]. rewrite (proj2 (Z.eqb_neq y 0) Hy).
    simpl in Hf, Hmax. unfold int, int_ok, INT_MIN.
    rewrite (proj2 (Z.leb_le _ (n + 1))), (proj2 (Z.leb_le (n + 1) _)) by lia. simpl andb. cbv iota.
    rewrite bind_Ret, (get_next_Some h y nd Hnd Hy), bind_Ret, (IH _ fuel (n + 1) Hl) by lia.
    simpl. f_equal. lia.
Qed.

Lemma advance_spec h l1 l2 : ∀ p, lseg h p (l1 ++ l2) 0 →
  ∃ q, advance (length l1) h p = Ret q ∧ lseg h q l2 0.
Proof.
  induction l1 as [|y l1 IH]; intros p Hl; [by exists p|].
  destruct Hl as (-> & Hy & nd & Hnd & Hl). simpl.
  rewrite (get_next_Some h y nd Hnd Hy), bind_Ret. by apply IH.
Qed.

Lemma lockstep_spec h c : ∀ a b p q fuel,
  length a = length b → lseg h p (a ++ c) 0 → lseg h q (b ++ c) 0 → (∀ x, x ∈ a → x ∉ b) →
  (length (a ++ c) < fuel)%nat → lockstep fuel h p q = Ret (first_common c).
Proof.
  induction a as [|x a IH]; intros [|y b] p q fuel Hlen Hp Hq Hd Hf; try done;
    (destruct fuel as [|fuel]; [simpl in Hf; lia|]); cbn [lockstep].
  - destruct c as [|z c]; [simpl in Hp; by subst p|].
    destruct Hp as (-> & Hz & _), Hq as (-> & _). rewrite (proj2 (Z.eqb_neq z 0) Hz).
    simpl orb. by rewrite Z.eqb_refl.
  - destruct Hp as (-> & Hx & nx & Hnx & Hp), Hq as (-> & Hy & ny & Hny & Hq).
    rewrite (proj2 (Z.eqb_neq x 0) Hx), (proj2 (Z.eqb_neq y 0) Hy). simpl orb. cbv iota.
    rewrite (proj2 (Z.eqb_neq x y)) by (intros ->; apply (Hd y); by left).
    rewrite (get_next_Some h x nx Hnx Hx), (get_next_Some h y ny Hny Hy), !bind_Ret.
    apply (IH b); auto; [|simpl in Hf; lia]. intros z Hz Hz'. apply (Hd z); by right.
Qed.

(** The four algorithms agree: on two null-terminated lists whose common
    nodes are exactly their common tail [c] (of fewer than 2^31 nodes each) all
    of them return the first node of [c], or the null pointer when the lists
    share nothing. *)
Theorem intersection_algorithms_agree h pA pB a b c fuel :
  meets_at h pA pB a b c → (length a + length b + length c + 1 < fuel)%nat →
  Z.of_nat (length a + length b + length c) ≤ INT_MAX →
  getIntersectionNode fuel h pA pB = Ret (first_common c) ∧
  getIntersectionNodeBruteForce fuel h pA pB = Ret (first_common c) ∧
  getIntersectionNodeUsingHashing fuel h pA pB = Ret (first_common c) ∧
  getIntersectionNodeUsingLengthDifference fuel h pA pB = Ret (first_common c).
Proof.
  intros HM Hf Hmax. pose proof HM as [HA HB Hd].
  pose proof (ma_facts _ _ _ _ _ _ HM) as (_ & _ & _ & _ & Hca & Hcb & _).
  pose proof (length_app a c). pose proof (length_app b c).
  split; [by apply (getIntersectionNode_correct h pA pB a b c)|]. split; [|split].
  - apply (brute_outer_spec h (b ++ c) c a); auto; try lia; set_solver.
  - unfold getIntersectionNodeUsingHashing.
    rewrite (collect_nodes_spec h (b ++ c) pB fuel ∅ HB), bind_Ret by lia.
    apply (find_node_spec h _ c a); auto; try lia; set_solver.
  - unfold getIntersectionNodeUsingLengthDifference.
    rewrite (list_length_spec h (a ++ c) pA fuel 0 HA), bind_Ret by lia.
    rewrite (list_length_spec h (b ++ c) pB fuel 0 HB), bind_Ret by lia.
    destruct (Z.ltb_spec (0 + Z.of_nat (length (b ++ c))) (0 + Z.of_nat (length (a ++ c)))).
    + set (d := (length a - length b)%nat).
      rewrite <-(take_drop d a), <-app_assoc in HA.
      destruct (advance_spec h _ _ _ HA) as (q & Eq & Hq).
      rewrite length_take in Eq. replace (Z.to_nat _) with (d `min` length a)%nat by lia.
      rewrite Eq, bind_Ret. apply (lockstep_spec h c (drop d a) b); auto.
      * rewrite length_drop. lia.
      * intros x Hx. apply Hd. rewrite <-(take_drop d a). set_solver.
      * rewrite length_app, length_drop. lia.
    + set (d := (length b - length a)%nat).
      rewrite <-(take_drop d b), <-app_assoc in HB.
      destruct (advance_spec h _ _ _ HB) as (q & Eq & Hq).
      rewrite length_take in Eq. replace (Z.to_nat _) with (d `min` length b)%nat by lia.
      rewrite Eq, bind_Ret. apply (lockstep_spec h c a (drop d b)); auto; [|..|lia].
      * rewrite length_drop. lia.
      * intros x Hx Hx'. apply (Hd x Hx). rewrite <-(take_drop d b). set_solver.
Qed.

(** The lists of [main]: 4 1 2 8 4 5 and 5 0 1 8 4 5, at addresses 1 .. 9. *)
Definition demo_heap : heap :=
  {[ 1 := mkListNode 4 2; 2 := mkListNode 1 3; 3 := mkListNode 2 7;
     4 := mkListNode 5 5; 5 := mkListNode 0 6; 6 := mkListNode 1 7;
     7 := mkListNode 8 8; 8 := mkListNode 4 9; 9 := mkListNode 5 0 ]}.

Lemma intersection_algorithms_agree_witness :
  getIntersectionNode 20 demo_heap 1 4 = Ret 7 ∧
  getIntersectionNodeBruteForce 20 demo_heap 1 4 = Ret 7 ∧
  getIntersectionNodeUsingHashing 20 demo_heap 1 4 = Ret 7 ∧
  getIntersectionNodeUsingLengthDifference 20 demo_heap 1 4 = Ret 7.
Proof.
  apply (intersection_algorithms_agree demo_heap 1 4 [1; 2; 3] [4; 5; 6] [7; 8; 9]).
  - split; [vm_compute; repeat eexists; done|vm_compute; repeat eexists; done|].
    intros x Hx Hx'. repeat (apply elem_of_cons in Hx as [->|Hx]); [set_solver..|set_solver].
  - simpl. lia.
  - vm_compute. discriminate.
Defined.
