(* ===== verification/DeleteNode.v ===== *)
(** * arista/deleteNode.cpp

    [SingleLinkedList]: appending, deleting a node given only a pointer to it,
    and the destructor.  The heap is explicit, so the theorems also account for
    every node that is freed. *)

From stdpp Require Import base list gmap numbers sets.
From Stdlib Require Import ZArith Lia.
From S2P Require Import Prelude ListHeap.

Record SingleLinkedList := mkSLL { head : Z; nodes : heap }.

Definition new_SingleLinkedList (h : heap) : SingleLinkedList := mkSLL 0 h.

(** [delete p] *)
Definition delete_node (h : heap) (p : Z) : outcome heap :=
  if p =? 0 then Ret h else _ ← load h p; Ret (delete p h).

(** [while (curr->next) curr = curr->next;] *)
Fixpoint last_node (fuel : nat) (h : heap) (curr : Z) : outcome Z :=
  match fuel with
  | O => Err OutOfFuel
  | S fuel => n ← get_next h curr; if n =? 0 then Ret curr else last_node fuel h n
  end.

(** [addr] is the address [new] returns. *)
Definition insert (fuel : nat) (addr v : Z) (l : SingleLinkedList) : outcome SingleLinkedList :=
  let h := <[addr := mkListNode v 0]> (nodes l) in
  if head l =? 0 then Ret (mkSLL addr h) else
  curr ← last_node fuel h (head l);
  h ← set_next h curr addr;
  Ret (mkSLL (head l) h).

Definition deleteNode (node : Z) (l : SingleLinkedList) : outcome SingleLinkedList :=
  if node =? 0 then Ret l else
  n ← load (nodes l) node;
  nx ← load (nodes l) (next n);
  let h := <[node := mkListNode (val nx) (next nx)]> (nodes l) in
  h ← delete_node h (next n);
  Ret (mkSLL (head l) h).

(** [~SingleLinkedList] *)
Fixpoint destroy_from (fuel : nat) (h : heap) (current : Z) : outcome heap :=
  match fuel with
  | O => Err OutOfFuel
  | S fuel =>
      if current =? 0 then Ret h else
      n ← get_next h current; h ← delete_node h current; destroy_from fuel h n
  end.

Definition destroy (fuel : nat) (l : SingleLinkedList) : outcome heap :=
  destroy_from fuel (nodes l) (head l).

(** ** The list an object holds: its nodes, and nothing else in the heap *)

Record holds (l : SingleLinkedList) (addrs vs : list Z) : Prop := {
  h_list : lseg (nodes l) (head l) addrs 0;
  h_vals : vals (nodes l) addrs = vs;
  h_dom : dom (nodes l) = list_to_set addrs;
}.

Lemma vals_insert_ne h l a nd : a ∉ l → vals (<[a := nd]> h) l = vals h l.
Proof.
  intros Ha. apply list_fmap_ext. intros i b Hb. rewrite lookup_insert_ne; [done|].
  intros <-. apply Ha. by eapply list_elem_of_lookup_2.
Qed.

Lemma vals_delete_ne h l a : a ∉ l → vals (delete a h) l = vals h l.
Proof.
  intros Ha. apply list_fmap_ext. intros i b Hb. rewrite lookup_delete_ne; [done|].
  intros <-. apply Ha. by eapply list_elem_of_lookup_2.
Qed.

Lemma last_node_spec h l z : ∀ p fuel,
  lseg h p (l ++ [z]) 0 → (length l < fuel)%nat → last_node fuel h p = Ret z.
Proof.
  induction l as [|a l IH]; intros p fuel Hl Hf; (destruct fuel as [|fuel]; [simpl in Hf; lia|]);
    destruct Hl as (-> & Ha & nd & Hnd & Hl); cbn [last_node];
    rewrite (get_next_Some h _ nd Hnd Ha), bind_Ret.
  - simpl in Hl. by rewrite Hl.
  - rewrite (proj2 (Z.eqb_neq (next nd) 0)).
    + apply IH; [done|simpl in Hf; lia].
    + destruct l; by destruct Hl as (-> & ? & _).
Qed.

Lemma insert_holds l addrs vs addr v fuel :
  holds l addrs vs → addr ≠ 0 → addr ∉ addrs → (length addrs < fuel)%nat →
  ∃ l', insert fuel addr v l = Ret l' ∧ holds l' (addrs ++ [addr]) (vs ++ [v]).
Proof.
  intros [Hl Hv Hd] Ha Hfr Hf.
  unfold insert. set (h := <[addr:=_]> (nodes l)).
  assert (lseg h (head l) addrs 0) as Hh.
  { apply (lseg_frame (nodes l)); [|done]. intros b Hb. apply lookup_insert_ne. set_solver. }
  destruct (exists_last_or_nil addrs) as [->|(l0 & z & ->)].
  + simpl in Hl. rewrite Hl. eexists. split; [done|]. split; simpl.
    * do 2 (split; [done|]). eexists. by split; [apply lookup_insert_eq|].
    * subst vs. unfold vals, h. simpl. by rewrite lookup_insert_eq.
    * unfold h. rewrite dom_insert_L, Hd. set_solver.
  + rewrite (proj2 (Z.eqb_neq (head l) 0)).
    2:{ destruct l0; by destruct Hl as (-> & ? & _). }
    rewrite (last_node_spec h l0 z), bind_Ret by (try done; rewrite length_app in Hf; simpl in Hf; lia).
    pose proof (lseg_NoDup _ _ _ Hl) as Hnd.
    apply lseg_app in Hh as (m & Hh0 & -> & Hz & nd & Hnz & Hn). simpl in Hn.
    rewrite (set_next_Some h z addr nd Hnz Hz), bind_Ret. eexists. split; [done|]. simpl.
    assert (z ≠ addr) by set_solver. split; simpl.
    * rewrite <-app_assoc. apply lseg_app. exists z. split.
      -- apply (lseg_frame h); [|done]. intros b Hb. apply lookup_insert_ne. intros <-.
         apply NoDup_app in Hnd as (_ & Hno & _). apply (Hno z Hb). by left.
      -- simpl. do 2 (split; [done|]). eexists. split; [apply lookup_insert_eq|]. simpl.
         do 2 (split; [done|]). exists (mkListNode v 0).
         rewrite lookup_insert_ne by done. split; [apply lookup_insert_eq|done].
    * rewrite <-Hv. unfold vals at 1. rewrite fmap_app. f_equal.
      -- transitivity (vals h (l0 ++ [z])); [|by apply vals_insert_ne].
         apply list_fmap_ext. intros i b _. destruct (decide (z = b)) as [<-|Hne].
         ++ by rewrite lookup_insert_eq, Hnz.
         ++ by rewrite lookup_insert_ne.
      -- simpl. rewrite lookup_insert_ne by done. unfold h. by rewrite lookup_insert_eq.
    * rewrite dom_insert_L. unfold h. rewrite dom_insert_L, Hd. set_solver.
Qed.

Lemma deleteNode_holds l pre a b post vs :
  holds l (pre ++ a :: b :: post) vs →
  ∃ l', deleteNode a l = Ret l' ∧
        holds l' (pre ++ a :: post) (vals (nodes l) pre ++ vals (nodes l) (b :: post)).
Proof.
  intros [Hl Hv Hd].
  unfold deleteNode. pose proof (lseg_NoDup _ _ _ Hl) as Hnd.
  pose proof Hl as (m & Hpre & -> & Ha0 & na & Hna & Hb)%lseg_app.
  destruct Hb as (Hnext & Hb0 & nb & Hnb & Hpost).
  apply NoDup_app in Hnd as (_ & Hdis & Hnd2).
  pose proof (NoDup_cons_1_1 _ _ Hnd2) as Hab. apply NoDup_cons_1_2, NoDup_cons_1_1 in Hnd2 as Hbp.
  rewrite (proj2 (Z.eqb_neq a 0) Ha0), (load_Some _ a na Hna Ha0), bind_Ret, Hnext.
  rewrite (load_Some _ b nb Hnb Hb0), bind_Ret. unfold delete_node.
  rewrite (proj2 (Z.eqb_neq b 0) Hb0).
  assert (a ≠ b) by set_solver.
  rewrite (load_Some _ b nb), !bind_Ret by (rewrite ?lookup_insert_ne; done).
  eexists. split; [done|]. split; simpl.
  + apply lseg_app. exists a. split.
    * apply (lseg_frame (nodes l)); [|done]. intros c Hc. specialize (Hdis c Hc).
      rewrite lookup_delete_ne, lookup_insert_ne by set_solver. done.
    * simpl. do 2 (split; [done|]). eexists.
      rewrite lookup_delete_ne, lookup_insert_eq by done. split; [done|]. simpl.
      apply (lseg_frame (nodes l)); [|done]. intros c Hc.
      rewrite lookup_delete_ne, lookup_insert_ne by set_solver. done.
  + unfold vals at 1. rewrite fmap_app, fmap_cons. f_equal; [|f_equal].
    * change (vals (delete b (<[a:=mkListNode (val nb) (next nb)]> (nodes l))) pre = vals (nodes l) pre).
      rewrite vals_delete_ne, vals_insert_ne; [done|..]; intros Hin; apply (Hdis _ Hin); set_solver.
    * by rewrite lookup_delete_ne, lookup_insert_eq, Hnb by done.
    * change (vals (delete b (<[a:=mkListNode (val nb) (next nb)]> (nodes l))) post = vals (nodes l) post).
      rewrite vals_delete_ne, vals_insert_ne; [done|set_solver..].
  + rewrite dom_delete_L, dom_insert_L, Hd, !list_to_set_app_L. simpl.
    assert (b ∉ pre) by (intros Hin; apply (Hdis b Hin); set_solver). set_solver.
Qed.

Lemma destroy_holds l addrs vs fuel :
  holds l addrs vs → (length addrs < fuel)%nat → destroy fuel l = Ret ∅.
Proof.
  intros [Hl _ Hd] Hf.
  unfold destroy. revert Hl Hd Hf. generalize (head l) (nodes l) fuel. clear.
  induction addrs as [|a addrs IH]; intros p h fuel Hl Hd Hf;
    (destruct fuel as [|fuel]; [simpl in Hf; lia|]); cbn [destroy_from].
  + simpl in Hl. subst p. simpl. f_equal. apply dom_empty_inv_L. set_solver.
  + pose proof (lseg_NoDup _ _ _ Hl) as Hnd. apply NoDup_cons_1_1 in Hnd.
    destruct Hl as (-> & Ha & nd & Hnd' & Hl). rewrite (proj2 (Z.eqb_neq a 0) Ha).
    rewrite (get_next_Some h a nd Hnd' Ha), bind_Ret. unfold delete_node.
    rewrite (proj2 (Z.eqb_neq a 0) Ha), (load_Some h a nd Hnd' Ha), !bind_Ret.
    apply IH; [|rewrite dom_delete_L, Hd; set_solver|simpl in Hf; lia].
    apply (lseg_frame h); [|done]. intros b Hb. apply lookup_delete_ne. set_solver.
Qed.

(** [insert] appends a value, [deleteNode] on any node but the last removes
    exactly that node's value and frees one node, and the destructor frees the
    whole list; none of them faults. *)
Theorem SingleLinkedList_correct l addrs vs addr v fuel :
  holds l addrs vs → addr ≠ 0 → addr ∉ addrs → (length addrs < fuel)%nat →
  (∃ l', insert fuel addr v l = Ret l' ∧ holds l' (addrs ++ [addr]) (vs ++ [v])) ∧
  (∀ pre a b post, addrs = pre ++ a :: b :: post →
     ∃ l', deleteNode a l = Ret l' ∧
           holds l' (pre ++ a :: post) (vals (nodes l) pre ++ vals (nodes l) (b :: post))) ∧
  destroy fuel l = Ret ∅.
Proof.
  intros Hl Ha Hfr Hf. split; [by apply insert_holds|]. split.
  - intros pre a b post ->. by eapply deleteNode_holds.
  - by eapply destroy_holds.
Qed.

Definition demo_list : SingleLinkedList :=
  mkSLL 11 {[ 11 := mkListNode 1 12; 12 := mkListNode 2 13; 13 := mkListNode 3 0 ]}.

Lemma SingleLinkedList_correct_witness :
  (∃ l', insert 9 14 4 demo_list = Ret l' ∧ holds l' [11; 12; 13; 14] [1; 2; 3; 4]) ∧
  (∃ l', deleteNode 12 demo_list = Ret l' ∧ holds l' [11; 12] [1; 3]) ∧
  destroy 9 demo_list = Ret ∅.
Proof.
  destruct (SingleLinkedList_correct demo_list [11; 12; 13] [1; 2; 3] 14 4 9) as (W1 & W2 & W3).
  - split; [vm_compute; repeat eexists; done|reflexivity|set_solver].
  - done.
  - set_solver.
  - simpl. lia.
  - split; [exact W1|]. split; [|exact W3]. exact (W2 [11] 12 13 [] eq_refl).
Defined.

(** [deleteNode] cannot delete the last node: it dereferences the null
    pointer that follows it. *)
Theorem deleteNode_last_faults l pre a :
  lseg (nodes l) (head l) (pre ++ [a]) 0 → deleteNode a l = Err NullDeref.
Proof.
  intros (m & _ & -> & Ha & nd & Hnd & Hn)%lseg_app. simpl in Hn. unfold deleteNode.
  by rewrite (proj2 (Z.eqb_neq a 0) Ha), (load_Some _ a nd Hnd Ha), bind_Ret, Hn.
Qed.

Lemma deleteNode_last_faults_witness : deleteNode 13 demo_list = Err NullDeref.
Proof. apply (deleteNode_last_faults demo_list [11; 12] 13). vm_compute. repeat eexists; done. Defined.
