(* ===== verification/MaxXor.v ===== *)
(** * maxXOR/main.cpp

    Maximum XOR of two numbers with a binary trie.  The nodes of a trie have
    one owner, so the trie is a tree; a node pointer into it is the path from
    the root, which keeps the aliasing of [insertAndGetMaxXOR] explicit: its
    two pointers walk over one trie that is modified on the way. *)

From stdpp Require Import base list numbers sets.
From Stdlib Require Import ZArith Lia.
From S2P Require Import Prelude.

Inductive TrieNode := Null | Node (child0 child1 : TrieNode).

Definition child (t : TrieNode) (b : bool) : TrieNode :=
  match t with Null => Null | Node c0 c1 => if b then c1 else c0 end.
Definition is_null (t : TrieNode) : bool := match t with Null => true | Node _ _ => false end.

(** The node a pointer points to. *)
Fixpoint node_at (t : TrieNode) (p : list bool) : TrieNode :=
  match p with [] => t | b :: p => node_at (child t b) p end.

Fixpoint set_at (t : TrieNode) (p : list bool) (u : TrieNode) {struct p} : TrieNode :=
  match p, t with
  | [], _ => u
  | _, Null => Null
  | b :: p, Node c0 c1 => if b then Node c0 (set_at c1 p u) else Node (set_at c0 p u) c1
  end.

(** [p->child[b]], and [p->child[b] = new TrieNode()]. *)
Definition get_child (t : TrieNode) (p : list bool) (b : bool) : outcome TrieNode :=
  if is_null (node_at t p) then Err NullDeref else Ret (child (node_at t p) b).
Definition new_child (t : TrieNode) (p : list bool) (b : bool) : TrieNode :=
  set_at t (p ++ [b]) (Node Null Null).

(** [(num >> i) & 1] *)
Definition bit (num : Z) (i : nat) : bool := Z.land (Z.shiftr num (Z.of_nat i)) 1 =? 1.

(** [maxXor |= (1 << i)] on int. *)
Definition set_bit (m : Z) (i : nat) : Z := to_int (Z.lor m (Z.shiftl 1 (Z.of_nat i))).

Definition new_Trie : TrieNode := Node Null Null.

Fixpoint insert_loop (n : nat) (num : Z) (t : TrieNode) (node : list bool) : outcome TrieNode :=
  match n with
  | O => Ret t
  | S i =>
      let b := bit num i in
      c ← get_child t node b;
      let t := if is_null c then new_child t node b else t in
      insert_loop i num t (node ++ [b])
  end.

Definition insert (num : Z) (t : TrieNode) : outcome TrieNode := insert_loop 32 num t [].

Fixpoint query_loop (n : nat) (num : Z) (t : TrieNode) (node : list bool) (maxXor : Z) : outcome Z :=
  match n with
  | O => Ret maxXor
  | S i =>
      let b := bit num i in
      c ← get_child t node (negb b);
      if is_null c then query_loop i num t (node ++ [b]) maxXor
      else query_loop i num t (node ++ [negb b]) (set_bit maxXor i)
  end.

Definition getMaxXOR (num : Z) (t : TrieNode) : outcome Z := query_loop 32 num t [] 0.

Fixpoint both_loop (n : nat) (num : Z) (t : TrieNode) (insertNode queryNode : list bool) (maxXor : Z)
    : outcome (Z * TrieNode) :=
  match n with
  | O => Ret (maxXor, t)
  | S i =>
      let b := bit num i in
      c ← get_child t insertNode b;
      let t := if is_null c then new_child t insertNode b else t in
      let insertNode := insertNode ++ [b] in
      o ← get_child t queryNode (negb b);
      if is_null o then both_loop i num t insertNode (queryNode ++ [b]) maxXor
      else both_loop i num t insertNode (queryNode ++ [negb b]) (set_bit maxXor i)
  end.

Definition insertAndGetMaxXOR (num : Z) (t : TrieNode) : outcome (Z * TrieNode) :=
  both_loop 32 num t [] [] 0.

Fixpoint max_loop (nums : list Z) (t : TrieNode) (maxResult : Z) : outcome Z :=
  match nums with
  | [] => Ret maxResult
  | num :: nums => '(r, t) ← insertAndGetMaxXOR num t; max_loop nums t (Z.max maxResult r)
  end.

Definition findMaximumXOR (nums : list Z) : outcome Z := max_loop nums new_Trie 0.

(** ** The interleaved loop is insertion followed by the query *)

Lemma node_at_app t p r : node_at t (p ++ r) = node_at (node_at t p) r.
Proof. revert t. induction p as [|b p IH]; intros t; simpl; auto. Qed.

Lemma node_at_Null p : node_at Null p = Null.
Proof. induction p; simpl; auto. Qed.

Lemma get_child_Ret t p b :
  is_null (node_at t p) = false → get_child t p b = Ret (child (node_at t p) b).
Proof. intros Hp. unfold get_child. by rewrite Hp. Qed.

(** Replacing a node does not change which nodes exist up to its depth, when
    it existed or its place was empty and is now filled. *)
Lemma set_at_same_level t p u r :
  (length r ≤ length p)%nat → r ≠ p → is_null (node_at (set_at t p u) r) = is_null (node_at t r).
Proof.
  revert t r. induction p as [|b p IH]; intros t r Hlen Hne.
  { destruct r; simpl in Hlen; [done|lia]. }
  destruct t as [|c0 c1]; [done|]. destruct r as [|b' r]; [by simpl; destruct b|].
  simpl in Hlen. simpl set_at. destruct b, b'; simpl; try done;
    (apply IH; [lia|by intros ->]).
Qed.

Lemma node_at_set_at t p u : is_null (node_at t (removelast p)) = false ∨ p = [] → node_at (set_at t p u) p = u.
Proof.
  revert t. induction p as [|b p IH]; intros t [H|H]; try done.
  destruct p as [|b' p].
  - simpl in H. destruct t as [|c0 c1]; [done|]. by destruct b.
  - destruct t as [|c0 c1].
    + exfalso. simpl in H. by rewrite node_at_Null in H.
    + destruct b; simpl; apply IH; left; exact H.
Qed.

Lemma new_child_null t p b r :
  is_null (node_at t p) = false → (length r ≤ S (length p))%nat → r ≠ p ++ [b] →
  is_null (node_at (new_child t p b) r) = is_null (node_at t r).
Proof.
  intros Hp Hlen Hne. apply set_at_same_level; [rewrite length_app; simpl; lia|done].
Qed.

Lemma new_child_child t p b :
  is_null (node_at t p) = false → is_null (node_at (new_child t p b) (p ++ [b])) = false.
Proof. intros Hp. unfold new_child. rewrite node_at_set_at; [done|]. left. by rewrite removelast_last. Qed.

(** Insertion below [p] leaves the nodes up to the depth of [p] alone. *)
Lemma insert_loop_level n num : ∀ t p,
  is_null (node_at t p) = false →
  ∃ t', insert_loop n num t p = Ret t' ∧
    ∀ r, (length r ≤ length p)%nat → is_null (node_at t' r) = is_null (node_at t r).
Proof.
  induction n as [|i IH]; intros t p Hp; [by exists t|]. cbn [insert_loop].
  rewrite get_child_Ret by done. rewrite bind_Ret. set (b := bit num i). set (t1 := if is_null _ then _ else t).
  assert (is_null (node_at t1 (p ++ [b])) = false ∧
          ∀ r, (length r ≤ length p)%nat → is_null (node_at t1 r) = is_null (node_at t r)) as [H1 H2].
  { unfold t1. destruct (is_null (child (node_at t p) b)) eqn:Ec.
    - split; [by apply new_child_child|]. intros r Hr. apply new_child_null; [done|lia|].
      intros ->. rewrite length_app in Hr. simpl in Hr. lia.
    - split; [|done]. by rewrite node_at_app. }
  destruct (IH t1 (p ++ [b]) H1) as (t' & E & Hr). exists t'. split; [done|].
  intros r Hlen. rewrite Hr by (rewrite length_app; simpl; lia). by apply H2.
Qed.

Lemma both_loop_split n num : ∀ t p q m,
  is_null (node_at t p) = false → length p = length q →
  both_loop n num t p q m =
    (t' ← insert_loop n num t p; m' ← query_loop n num t' q m; Ret (m', t')).
Proof.
  induction n as [|i IH]; intros t p q m Hp Hlen; [done|].
  cbn [both_loop insert_loop query_loop]. rewrite !(get_child_Ret t p) by done. rewrite !bind_Ret.
  set (b := bit num i). set (t1 := if is_null _ then _ else t).
  assert (is_null (node_at t1 (p ++ [b])) = false) as H1.
  { unfold t1. destruct (is_null (child (node_at t p) b)) eqn:Ec; [by apply new_child_child|].
    by rewrite node_at_app. }
  destruct (insert_loop_level i num t1 (p ++ [b]) H1) as (t' & E & Hr).
  rewrite E, bind_Ret. unfold get_child.
  assert (∀ r, (length r ≤ S (length q))%nat → is_null (node_at t' r) = is_null (node_at t1 r)) as Hr'.
  { intros r Hrl. apply Hr. rewrite length_app. simpl. lia. }
  rewrite (Hr' q) by lia. destruct (is_null (node_at t1 q)); [done|]. rewrite !bind_Ret.
  assert (is_null (child (node_at t' q) (negb b)) = is_null (child (node_at t1 q) (negb b))) as ->.
  { specialize (Hr' (q ++ [negb b])). rewrite !node_at_app in Hr'. apply Hr'.
    rewrite length_app. simpl. lia. }
  destruct (is_null (child (node_at t1 q) (negb b))).
  - rewrite IH by (try done; rewrite !length_app; simpl; lia). by rewrite E.
  - rewrite IH by (try done; rewrite !length_app; simpl; lia). by rewrite E.
Qed.

(** ** The trie as a set of bit strings *)

Fixpoint bits (n : nat) (x : Z) : list bool :=
  match n with O => [] | S i => bit x i :: bits i x end.

Fixpoint holds (t : TrieNode) (l : list bool) : bool :=
  match l with [] => negb (is_null t) | b :: l => holds (child t b) l end.

(** Every inner node down to depth [n] has a child. *)
Fixpoint wf (n : nat) (t : TrieNode) : Prop :=
  match n, t with
  | O, _ | _, Null => True
  | S i, Node c0 c1 => wf i c0 ∧ wf i c1 ∧ is_null c0 && is_null c1 = false
  end.

Definition set_child (t : TrieNode) (b : bool) (u : TrieNode) : TrieNode :=
  match t with Null => Null | Node c0 c1 => if b then Node c0 u else Node u c1 end.

Fixpoint add (l : list bool) (t : TrieNode) : TrieNode :=
  match l with
  | [] => t
  | b :: l => let c := child t b in
              set_child t b (add l (if is_null c then Node Null Null else c))
  end.

Lemma set_at_snoc t p b u :
  is_null (node_at t p) = false → set_at t (p ++ [b]) u = set_at t p (set_child (node_at t p) b u).
Proof.
  revert t. induction p as [|b' p IH]; intros t Hp.
  - destruct t; [done|]. by destruct b.
  - destruct t as [|c0 c1]; [done|]. simpl in *. destruct b'; by rewrite IH.
Qed.

Lemma set_at_set_at t p u v : set_at (set_at t p u) p v = set_at t p v.
Proof.
  revert t. induction p as [|b p IH]; intros t; [done|]. destruct t as [|c0 c1]; [done|].
  destruct b; simpl; by rewrite IH.
Qed.

Lemma set_at_id t p : is_null (node_at t p) = false → set_at t p (node_at t p) = t.
Proof.
  revert t. induction p as [|b p IH]; intros t Hp; [done|].
  destruct t as [|c0 c1]; [done|]. destruct b; simpl in *; by rewrite IH.
Qed.

Lemma insert_loop_add n num : ∀ t p,
  is_null (node_at t p) = false →
  insert_loop n num t p = Ret (set_at t p (add (bits n num) (node_at t p))).
Proof.
  induction n as [|i IH]; intros t p Hp; cbn [insert_loop bits add].
  { by rewrite set_at_id. }
  rewrite get_child_Ret by done. rewrite bind_Ret. set (b := bit num i).
  destruct (is_null (child (node_at t p) b)) eqn:Ec.
  - rewrite IH by (by apply new_child_child). unfold new_child. f_equal.
    rewrite set_at_set_at, node_at_set_at by (left; by rewrite removelast_last).
    by rewrite set_at_snoc.
  - rewrite IH by (by rewrite node_at_app). rewrite node_at_app. simpl.
    by rewrite set_at_snoc.
Qed.

Lemma add_nonnull l t : is_null t = false → is_null (add l t) = false.
Proof. intros Ht. destruct l as [|b l]; [done|]. simpl. destruct t; [done|]. by destruct b. Qed.

Lemma holds_Null l : holds Null l = false.
Proof. induction l; simpl; auto. Qed.

Lemma trie_holds_fresh l b l' : holds (Node Null Null) (b :: l) = false ∧ (l' = [] → holds (Node Null Null) l' = true).
Proof. split; [simpl; destruct b; apply holds_Null|by intros ->]. Qed.

Lemma holds_add l : ∀ t l', is_null t = false → length l = length l' →
  holds (add l t) l' = holds t l' || bool_decide (l = l').
Proof.
  induction l as [|b l IH]; intros t [|b' l'] Ht Hlen; try done.
  { simpl. by rewrite Ht. }
  injection Hlen as Hlen. destruct t as [|c0 c1]; [done|].
  assert (∀ c, holds (add l (if is_null c then Node Null Null else c)) l' =
               holds c l' || bool_decide (l = l')) as Hc.
  { intros c. rewrite IH; [|by destruct c|done]. destruct c as [|]; [|done].
    rewrite holds_Null. destruct l' as [|b'' l'].
    - destruct l; [done|done].
    - cbn [is_null]. by rewrite (proj1 (trie_holds_fresh l' b'' [])). }
  destruct b, b'; cbn [add set_child child holds]; rewrite ?Hc;
    try (rewrite bool_decide_eq_false_2 by (by intros [=]); by rewrite orb_false_r);
    f_equal; apply bool_decide_ext; naive_solver.
Qed.

Lemma wf_add l : ∀ t, is_null t = false → wf (length l) t ∨ t = Node Null Null → wf (length l) (add l t).
Proof.
  induction l as [|b l IH]; intros t Ht Hwf; [done|]. destruct t as [|c0 c1]; [done|].
  assert (wf (length l) c0 ∧ wf (length l) c1) as [H0 H1].
  { destruct Hwf as [(? & ? & _)|[= -> ->]]; [done|]. by destruct l. }
  assert (∀ c, wf (length l) c → wf (length l) (add l (if is_null c then Node Null Null else c)) ∧
               is_null (add l (if is_null c then Node Null Null else c)) = false) as Hc.
  { intros c Hw. split; [apply IH; destruct c; auto|apply add_nonnull; by destruct c]. }
  destruct b; simpl.
  - destruct (Hc c1 H1) as [? ->]. by rewrite andb_false_r.
  - destruct (Hc c0 H0) as [? ->]. done.
Qed.

(** ** The greedy query finds the largest XOR *)

(** The XOR of two bit strings of equal length. *)
Fixpoint xval (l1 l2 : list bool) : Z :=
  match l1, l2 with
  | b1 :: l1, b2 :: l2 => (if eqb b1 b2 then 0 else 2 ^ Z.of_nat (length l1)) + xval l1 l2
  | _, _ => 0
  end.

Lemma xval_bound l1 l2 : 0 ≤ xval l1 l2 < 2 ^ Z.of_nat (length l1).
Proof.
  revert l2. induction l1 as [|b1 l1 IH]; intros l2; simpl length; [done|].
  rewrite Nat2Z.inj_succ, Z.pow_succ_r by lia. pose proof (Z.pow_pos_nonneg 2 (Z.of_nat (length l1))).
  destruct l2 as [|b2 l2]; simpl; [lia|]. specialize (IH l2). destruct (eqb b1 b2); lia.
Qed.

Lemma length_bits n x : length (bits n x) = n.
Proof. induction n; simpl; auto. Qed.

Lemma bit_testbit x i : bit x i = Z.testbit x (Z.of_nat i).
Proof.
  unfold bit. change 1 with (Z.ones 1) at 1. rewrite Z.land_ones, Z.shiftr_div_pow2 by lia.
  change (2 ^ 1) with 2. pose proof (Z.testbit_spec' x (Z.of_nat i) ltac:(lia)) as E.
  rewrite <-E. by destruct (Z.testbit x (Z.of_nat i)).
Qed.

Lemma xval_lxor n a b : xval (bits n a) (bits n b) = Z.lxor a b mod 2 ^ Z.of_nat n.
Proof.
  induction n as [|i IH]; [by rewrite Z.mod_1_r|]. cbn [bits xval]. rewrite IH, length_bits.
  rewrite Nat2Z.inj_succ, Z.pow_succ_r, (Z.mul_comm 2), Z.rem_mul_r by lia.
  rewrite <-(Z.testbit_spec' (Z.lxor a b) (Z.of_nat i)), Z.lxor_spec by lia.
  rewrite !bit_testbit. destruct (Z.testbit a (Z.of_nat i)), (Z.testbit b (Z.of_nat i)); simpl; lia.
Qed.

Lemma set_bit_add m i :
  (i < 31)%nat → (∃ k, m = k * 2 ^ Z.of_nat (S i)) → 0 ≤ m → m + 2 ^ Z.of_nat i < 2 ^ 31 →
  set_bit m i = m + 2 ^ Z.of_nat i.
Proof.
  intros Hi [k ->] Hm Hlt. unfold set_bit. rewrite Z.shiftl_1_l.
  pose proof (Z.pow_pos_nonneg 2 (Z.of_nat i) ltac:(lia) ltac:(lia)).
  assert (Z.lor (k * 2 ^ Z.of_nat (S i)) (2 ^ Z.of_nat i) = k * 2 ^ Z.of_nat (S i) + 2 ^ Z.of_nat i) as ->.
  { rewrite Z.add_nocarry_lxor, Z.lxor_lor; try done; apply Z.bits_inj'; intros n Hn;
      rewrite Z.land_spec, Z.bits_0, Z.pow2_bits_eqb by lia;
      destruct (Z.eqb_spec (Z.of_nat i) n) as [<-|]; rewrite ?andb_false_r, ?andb_true_r; try done;
      by rewrite Z.mul_pow2_bits_low by lia. }
  unfold to_int. rewrite Z.mod_small by lia. lia.
Qed.

Lemma query_loop_S i num t p m :
  query_loop (S i) num t p m =
    (c ← get_child t p (negb (bit num i));
     if is_null c then query_loop i num t (p ++ [bit num i]) m
     else query_loop i num t (p ++ [negb (bit num i)]) (set_bit m i)).
Proof. done. Qed.

Lemma holds_child t b l : holds t (b :: l) = holds (child t b) l.
Proof. done. Qed.

Lemma holds_not_null t l : holds t l = true → is_null t = false.
Proof. destruct t; [by rewrite holds_Null|done]. Qed.

(** The greedy walk below a node at height [n <= 31]: it returns the XOR with a
    number the trie holds, and no number it holds gives more. *)
Lemma query_loop_max n num : ∀ t p m,
  (n ≤ 31)%nat → wf n (node_at t p) → is_null (node_at t p) = false →
  (∃ k, m = k * 2 ^ Z.of_nat n) → 0 ≤ m → m + 2 ^ Z.of_nat n ≤ 2 ^ 31 →
  ∃ y, length y = n ∧ holds (node_at t p) y = true ∧
       query_loop n num t p m = Ret (m + xval (bits n num) y) ∧
       ∀ z, length z = n → holds (node_at t p) z = true → xval (bits n num) z ≤ xval (bits n num) y.
Proof.
  induction n as [|i IH]; intros t p m Hn Hwf Hnn [k Hk] Hm Hlt.
  { exists []. simpl. rewrite Hnn, Z.add_0_r. by repeat split. }
  cbn [query_loop bits xval]. rewrite get_child_Ret by done. rewrite bind_Ret.
  set (b := bit num i). pose proof (Z.pow_pos_nonneg 2 (Z.of_nat i) ltac:(lia) ltac:(lia)).
  assert (2 ^ Z.of_nat (S i) = 2 * 2 ^ Z.of_nat i) as E2
    by (rewrite Nat2Z.inj_succ, Z.pow_succ_r by lia; lia).
  assert (∀ c, wf i (child (node_at t p) c)) as Hwfc.
  { intros c. destruct (node_at t p) as [|c0 c1]; [done|]. destruct Hwf as (? & ? & _). by destruct c. }
  destruct (is_null (child (node_at t p) (negb b))) eqn:Eo.
  - assert (is_null (child (node_at t p) b) = false) as Eb.
    { destruct (node_at t p) as [|c0 c1]; [done|]. destruct Hwf as (_ & _ & Hw).
      destruct b; simpl in *; by destruct (is_null c0), (is_null c1). }
    destruct (IH t (p ++ [b]) m) as (y & Hy & Hh & E & Hmax); rewrite ?node_at_app; simpl; try done; try lia;
      [exists (2 * k); lia|].
    exists (b :: y). simpl. rewrite node_at_app in Hh, Hmax. simpl in Hh, Hmax. rewrite eqb_reflx, E.
    split; [lia|]. split; [done|]. split; [f_equal; lia|].
    intros [|c z] Hz Hhz; [done|]. injection Hz as Hz. simpl in Hhz.
    destruct (eqb b c) eqn:Ec.
    + apply eqb_prop in Ec as <-. simpl. pose proof (Hmax z Hz Hhz). lia.
    + assert (c = negb b) as -> by (by destruct b, c).
      apply holds_not_null in Hhz. by rewrite Eo in Hhz.
  - destruct (IH t (p ++ [negb b]) (set_bit m i)) as (y & Hy & Hh & E & Hmax);
      rewrite ?node_at_app; simpl; try done; try lia.
    { rewrite set_bit_add by (try done; eauto; lia). exists (2 * k + 1). lia. }
    { rewrite set_bit_add by (try done; eauto; lia). lia. }
    { rewrite set_bit_add by (try done; eauto; lia). lia. }
    exists (negb b :: y). simpl. rewrite node_at_app in Hh, Hmax. simpl in Hh, Hmax.
    rewrite E, (set_bit_add m i) by (try done; eauto; lia). rewrite length_bits.
    split; [lia|]. split; [done|].
    assert (eqb b (negb b) = false) as -> by (by destruct b). split; [f_equal; lia|].
    intros [|c z] Hz Hhz; [done|]. injection Hz as Hz. simpl in Hhz.
    destruct (eqb b c) eqn:Ec.
    + pose proof (xval_bound (bits i num) z) as Hb. rewrite length_bits in Hb.
      pose proof (xval_bound (bits i num) y). lia.
    + assert (c = negb b) as -> by (by destruct b, c). pose proof (Hmax z Hz Hhz). lia.
Qed.

(** The trie of height [n] that holds exactly the numbers of [S]. *)
Record trie_rep (n : nat) (t : TrieNode) (S : list Z) : Prop := {
  tr_root : is_null t = false;
  tr_wf : wf n t ∨ t = new_Trie ∧ S = [];
  tr_holds l : length l = n → holds t l = true ↔ ∃ x, x ∈ S ∧ l = bits n x;
}.

Lemma trie_rep_add n t S num : trie_rep n t S → trie_rep n (add (bits n num) t) (num :: S).
Proof.
  intros [Hroot Hwf Hh]. split.
  - by apply add_nonnull.
  - left. pose proof (wf_add (bits n num) t Hroot) as Hw. rewrite length_bits in Hw. apply Hw.
    destruct Hwf as [?|[-> _]]; auto.
  - intros l Hl. rewrite holds_add by (done || by rewrite length_bits).
    rewrite orb_true_iff, Hh, bool_decide_eq_true by done. split.
    + intros [(x & Hx & ->)|<-]; [exists x|exists num]; (split; [|done]); [by right|by left].
    + intros (x & [->|Hx]%elem_of_cons & ->); [by right|left; eauto].
Qed.

(** When no number has the top bit set, the trie has only a 0-child at the top. *)
Lemma trie_rep_top i t S :
  (i ≤ 31)%nat → trie_rep (Datatypes.S i) t S → S ≠ [] → (∀ x, x ∈ S → bit x i = false) →
  is_null (child t true) = true ∧ is_null (child t false) = false ∧ wf i (child t false).
Proof.
  intros Hi [Hroot [Hwf|[_ ->]] Hh] HS Htop; [|done]. destruct t as [|d0 d1]; [done|].
  destruct Hwf as (Hw0 & Hw1 & Hw). cbn [child]. destruct d1 as [|c0 c1].
  { split; [done|]. by rewrite andb_true_r in Hw. }
  exfalso. destruct (query_loop_max i 0 (Node c0 c1) [] 0) as (y & Hy & Hhy & _); try done; [by exists 0| |].
  { apply Z.pow_le_mono_r; lia. }
  destruct (proj1 (Hh (true :: y) ltac:(by rewrite <-Hy)) Hhy) as (x & Hx & Ex).
  injection Ex as Eb _. by rewrite Htop in Eb.
Qed.

Lemma query_max i t S num :
  (i ≤ 31)%nat → trie_rep (Datatypes.S i) t S → S ≠ [] → (∀ x, x ∈ S → bit x i = false) →
  bit num i = false →
  ∃ r, query_loop (Datatypes.S i) num t [] 0 = Ret r ∧
    (∃ x, x ∈ S ∧ r = xval (bits i num) (bits i x)) ∧
    (∀ x, x ∈ S → xval (bits i num) (bits i x) ≤ r).
Proof.
  intros Hi R HS Htop Hnum. destruct (trie_rep_top i t S Hi R HS Htop) as (Hc1 & Hc0 & Hwf).
  destruct R as [Hroot _ Hh]. rewrite query_loop_S, Hnum. cbn [negb].
  rewrite get_child_Ret by done. rewrite bind_Ret. cbn [node_at]. rewrite Hc1.
  destruct (query_loop_max i num t [false] 0) as (y & Hy & Hhy & E & Hmax); try done; [by exists 0| |].
  { apply Z.pow_le_mono_r; lia. }
  cbn [node_at] in Hhy, Hmax. change ([] ++ [false]) with [false].
  rewrite E. eexists. split; [done|]. rewrite Z.add_0_l. split.
  - destruct (proj1 (Hh (false :: y) ltac:(by rewrite <-Hy)) Hhy) as (x & Hx & Ex).
    injection Ex as _ ->. by exists x.
  - intros x Hx. apply Hmax; [apply length_bits|]. rewrite <-holds_child.
    apply Hh; [simpl; by rewrite length_bits|]. exists x. split; [done|]. cbn [bits]. by rewrite Htop.
Qed.

Definition nonneg_int (x : Z) : Prop := 0 ≤ x ≤ INT_MAX.

Lemma nonneg_sign x : nonneg_int x → bit x 31 = false.
Proof. intros [H0 H1]. rewrite bit_testbit. apply Z.bits_above_log2; [done|].
  destruct (Z.eq_dec x 0) as [->|]; [done|]. apply Z.log2_lt_pow2; unfold INT_MAX in *; lia. Qed.

Lemma xval_nonneg a x : nonneg_int a → nonneg_int x →
  xval (bits 31 a) (bits 31 x) = Z.lxor a x.
Proof.
  intros Ha Hx. rewrite xval_lxor. apply Z.mod_small.
  unfold nonneg_int, INT_MAX in *.
  assert (0 ≤ Z.lxor a x) as H0 by (apply Z.lxor_nonneg; lia). split; [done|].
  destruct (Z.eq_dec (Z.lxor a x) 0) as [->|]; [done|]. apply Z.log2_lt_pow2; [lia|].
  pose proof (Z.log2_lxor a x ltac:(lia) ltac:(lia)).
  assert (∀ z, 0 ≤ z < 2 ^ 31 → Z.log2 z < 31) as Hl.
  { intros z Hz. destruct (Z.eq_dec z 0) as [->|]; [done|]. apply Z.log2_lt_pow2; lia. }
  pose proof (Hl a ltac:(lia)). pose proof (Hl x ltac:(lia)). lia.
Qed.

Lemma insertAndGetMaxXOR_spec t S num :
  trie_rep 32 t S → Forall nonneg_int S → nonneg_int num →
  ∃ r t', insertAndGetMaxXOR num t = Ret (r, t') ∧ trie_rep 32 t' (num :: S) ∧
    (∃ x, x ∈ num :: S ∧ r = Z.lxor num x) ∧ (∀ x, x ∈ num :: S → Z.lxor num x ≤ r).
Proof.
  intros R HS Hnum. unfold insertAndGetMaxXOR. pose proof (tr_root _ _ _ R) as Hroot.
  rewrite both_loop_split, insert_loop_add, bind_Ret by done. cbn [node_at set_at].
  assert (∀ x, x ∈ num :: S → nonneg_int x) as Hnn.
  { intros x [->|Hx]%elem_of_cons; [done|]. rewrite Forall_forall in HS. by apply HS. }
  pose proof (trie_rep_add 32 t S num R) as R'.
  destruct (query_max 31 (add (bits 32 num) t) (num :: S) num) as (r & E & (x & Hx & Er) & Hr); try done.
  { intros x Hx. by apply nonneg_sign, Hnn. }
  { by apply nonneg_sign. }
  rewrite E, bind_Ret. do 2 eexists. split; [done|]. split; [done|]. split.
  - exists x. split; [done|]. rewrite Er. apply xval_nonneg; auto.
  - intros y Hy. rewrite <-xval_nonneg by auto. by apply Hr.
Qed.

Lemma max_loop_spec nums : ∀ t S m,
  trie_rep 32 t S → Forall nonneg_int S → Forall nonneg_int nums → 0 ≤ m →
  (∀ x y, x ∈ S → y ∈ S → Z.lxor x y ≤ m) →
  ∃ r, max_loop nums t m = Ret r ∧ m ≤ r ∧
    (∀ x y, x ∈ nums ++ S → y ∈ nums ++ S → Z.lxor x y ≤ r) ∧
    (r = m ∨ ∃ x y, x ∈ nums ++ S ∧ y ∈ nums ++ S ∧ r = Z.lxor x y).
Proof.
  induction nums as [|a nums IH]; intros t S m R HS Hn Hm Hmax; simpl.
  { exists m. split; [done|]. split; [lia|]. split; [done|by left]. }
  apply Forall_cons_1 in Hn as [Ha Hn].
  destruct (insertAndGetMaxXOR_spec t S a R HS Ha) as (r & t' & -> & R' & (x & Hx & Ex) & Hr).
  rewrite bind_Ret.
  destruct (IH t' (a :: S) (Z.max m r) R') as (r' & -> & Hle & Hall & Hex); auto.
  - lia.
  - intros y z Hy Hz. apply elem_of_cons in Hy as [->|Hy]; [specialize (Hr z Hz); lia|].
    apply elem_of_cons in Hz as [->|Hz]; [rewrite Z.lxor_comm; specialize (Hr y ltac:(set_solver)); lia|].
    specialize (Hmax y z Hy Hz). lia.
  - exists r'. split; [done|]. split; [lia|].
    assert (∀ z, z ∈ nums ++ a :: S ↔ z ∈ a :: nums ++ S) as Hperm by (intros z; set_solver).
    split; [intros y z; rewrite <-!Hperm; apply Hall|].
    destruct Hex as [->|(y & z & Hy & Hz & ->)].
    + destruct (Z.max_spec m r) as [[_ ->]|[_ ->]]; [|by left].
      right. exists a, x. set_solver.
    + right. exists y, z. by rewrite <-!Hperm.
Qed.

(** C18: [findMaximumXOR] on non-negative ints never dereferences a null
    pointer and returns the largest XOR of two of the numbers (of a number with
    itself when there is only one), and 0 for no numbers. *)
Theorem findMaximumXOR_correct nums :
  Forall nonneg_int nums →
  ∃ r, findMaximumXOR nums = Ret r ∧
    (∀ x y, x ∈ nums → y ∈ nums → Z.lxor x y ≤ r) ∧
    (nums = [] → r = 0) ∧ (nums ≠ [] → ∃ x y, x ∈ nums ∧ y ∈ nums ∧ r = Z.lxor x y).
Proof.
  intros Hn. destruct (max_loop_spec nums new_Trie [] 0) as (r & E & _ & Hall & Hex); try done.
  - split; [done|by right|]. intros l Hl. destruct l as [|b l]; [done|].
    unfold new_Trie. rewrite (proj1 (trie_holds_fresh l b [])). split; [done|]. by intros (x & ?%elem_of_nil & _).
  - intros x y ?%elem_of_nil. done.
  - rewrite app_nil_r in Hall, Hex. exists r. split; [done|]. split; [done|]. split.
    + intros ->. destruct Hex as [->|(x & y & ?%elem_of_nil & _)]; done.
    + intros Hne. destruct Hex as [->|?]; [|done]. destruct nums as [|a nums]; [done|].
      exists a, a. rewrite Z.lxor_nilpotent. split; [by left|]. split; [by left|done].
Qed.

Lemma findMaximumXOR_correct_witness :
  ∃ r, findMaximumXOR [3; 10; 5; 25; 2; 8] = Ret r ∧
       ∀ x y, x ∈ [3; 10; 5; 25; 2; 8] → y ∈ [3; 10; 5; 25; 2; 8] → Z.lxor x y ≤ r.
Proof.
  destruct (findMaximumXOR_correct [3; 10; 5; 25; 2; 8]) as (r & W1 & W2 & _).
  - repeat constructor; vm_compute; discriminate.
  - exists r. split; [exact W1|exact W2].
Defined.

(** With a negative number among the inputs the query prefers a partner of
    the other sign, whose XOR is negative, and misses the maximum: for -1, 0, 1
    the result is 0 although 0 XOR 1 is 1. *)
Theorem findMaximumXOR_negative : findMaximumXOR [-1; 0; 1] = Ret 0 ∧ Z.lxor 0 1 = 1.
Proof. split; vm_compute; reflexivity. Qed.
