(* ===== verification/Tries.v ===== *)
(** * trie/trie.cpp and dnsCache/dnsCacheTrie.cpp

    Two tries over arrays of child pointers.  Nodes have one owner and are never
    moved, so a node pointer is the list of child indices from the root, and a
    trie is the finite map from the pointers of its nodes to the nodes' data;
    [p->child[i]] is null when the map has no node at [p ++ [i]].  The walks of
    both programs are [insert_walk] and [search_walk], with the index function
    and the size of the child array as parameters; an index outside the array is
    a fault.

    Both programs are shown to implement a map from the words over their
    alphabet to the data stored last. *)

From stdpp Require Import base list gmap numbers strings.
From Stdlib Require Import ZArith Lia Ascii.
From S2P Require Import Prelude.

(** A [char] as its code. *)
Definition code (c : ascii) : Z := Z.of_N (N_of_ascii c).
Fixpoint chars (s : string) : list Z :=
  match s with EmptyString => [] | String c s => code c :: chars s end.

Section walks.
Context {I : Type} (blank : I) (width : Z) (index : Z → Z).
Abbreviation trie := (gmap (list Z) I).
Implicit Types (t : trie) (p : list Z).

Definition child_slot (c : Z) : outcome Z :=
  let i := index c in if (0 <=? i) && (i <? width) then Ret i else Err OutOfBounds.

(** Follow the characters from node [p], creating the missing nodes. *)
Fixpoint insert_walk t p (cs : list Z) : outcome (trie * list Z) :=
  match cs with
  | [] => Ret (t, p)
  | c :: cs =>
      i ← child_slot c;
      let t := match t !! (p ++ [i]) with None => <[p ++ [i] := blank]> t | Some _ => t end in
      insert_walk t (p ++ [i]) cs
  end.

(** Follow the characters; [None] when a child is missing. *)
Fixpoint search_walk t p (cs : list Z) : outcome (option (list Z)) :=
  match cs with
  | [] => Ret (Some p)
  | c :: cs =>
      i ← child_slot c;
      match t !! (p ++ [i]) with
      | None => Ret None
      | Some _ => search_walk t (p ++ [i]) cs
      end
  end.

(** ** What the walks do *)

Definition letter (c : Z) : Prop := 0 ≤ index c < width.
Definition word (cs : list Z) : Prop := Forall letter cs.

(** A trie has a root and every node's parent. *)
Definition closed t : Prop := is_Some (t !! []) ∧ ∀ p i, is_Some (t !! (p ++ [i])) → is_Some (t !! p).
Definition data t p : I := default blank (t !! p).

Lemma child_slot_Ret c : letter c → child_slot c = Ret (index c).
Proof.
  intros Hc. unfold child_slot, letter in *.
  by rewrite (proj2 (Z.leb_le _ _)), (proj2 (Z.ltb_lt _ _)) by lia.
Qed.

Lemma closed_insert t p i x : closed t → is_Some (t !! p) → closed (<[p ++ [i] := x]> t).
Proof.
  intros [Hr Hc] Hp. split.
  - by rewrite lookup_insert_ne by (by destruct p).
  - intros q j Hq. destruct (decide (p ++ [i] = q)) as [<-|Hne]; [by rewrite lookup_insert_eq; eauto|].
    rewrite lookup_insert_ne by done. destruct (decide (p ++ [i] = q ++ [j])) as [E|Hne'].
    + apply app_inj_tail in E as [<- _]. done.
    + rewrite lookup_insert_ne in Hq by done. by apply (Hc q j).
Qed.

Lemma insert_walk_spec cs : ∀ t p, word cs → closed t → is_Some (t !! p) →
  ∃ t', insert_walk t p cs = Ret (t', p ++ (index <$> cs)) ∧ closed t' ∧
        is_Some (t' !! (p ++ (index <$> cs))) ∧ ∀ q, data t' q = data t q.
Proof.
  induction cs as [|c cs IH]; intros t p Hw Hcl Hp; simpl.
  { exists t. rewrite app_nil_r. auto. }
  apply Forall_cons_1 in Hw as [Hc Hw]. rewrite child_slot_Ret, bind_Ret by done.
  set (i := index c). set (t1 := match t !! (p ++ [i]) with None => _ | Some _ => _ end).
  assert (closed t1 ∧ is_Some (t1 !! (p ++ [i])) ∧ ∀ q, data t1 q = data t q) as (H1 & H2 & H3).
  { unfold t1. destruct (t !! (p ++ [i])) as [x|] eqn:E; [by rewrite E; eauto|].
    split; [by apply closed_insert|]. split; [by rewrite lookup_insert_eq; eauto|].
    intros q. unfold data. destruct (decide (p ++ [i] = q)) as [<-|Hne].
    - by rewrite lookup_insert_eq, E.
    - by rewrite lookup_insert_ne. }
  destruct (IH t1 (p ++ [i]) Hw H1 H2) as (t' & -> & Hcl' & Hs & Hd).
  exists t'. rewrite <-app_assoc in *. simpl in *. split; [done|]. split; [done|]. split; [done|].
  intros q. by rewrite Hd, H3.
Qed.

Lemma closed_prefix t p q : closed t → is_Some (t !! (p ++ q)) → is_Some (t !! p).
Proof.
  intros [_ Hc]. induction q as [|i q IH] using rev_ind; [by rewrite app_nil_r|].
  rewrite app_assoc. intros H%Hc. by apply IH.
Qed.

Lemma search_walk_spec cs : ∀ t p, word cs → closed t → is_Some (t !! p) →
  search_walk t p cs =
    Ret (match t !! (p ++ (index <$> cs)) with Some _ => Some (p ++ (index <$> cs)) | None => None end).
Proof.
  induction cs as [|c cs IH]; intros t p Hw Hcl Hp; cbn [search_walk].
  { rewrite app_nil_r. by destruct Hp as [x ->]. }
  apply Forall_cons_1 in Hw as [Hc Hw]. rewrite child_slot_Ret, bind_Ret by done.
  assert (p ++ (index <$> c :: cs) = (p ++ [index c]) ++ (index <$> cs)) as ->
    by (by rewrite fmap_cons, <-app_assoc).
  destruct (t !! (p ++ [index c])) as [x|] eqn:E; [apply IH; eauto|].
  destruct (t !! ((p ++ [index c]) ++ (index <$> cs))) as [y|] eqn:Ey; [|done].
  destruct (closed_prefix t (p ++ [index c]) (index <$> cs) Hcl) as [z Hz]; [eauto|].
  by rewrite E in Hz.
Qed.
End walks.

(** ** trie/trie.cpp *)

Definition trie_index (c : Z) : Z := c - 97.

Definition new_Trie : gmap (list Z) bool := {[ [] := false ]}.

Definition insert (w : string) (t : gmap (list Z) bool) : outcome (gmap (list Z) bool) :=
  '(t, node) ← insert_walk false 26 trie_index t [] (chars w);
  Ret (<[node := true]> t).

Definition search (w : string) (t : gmap (list Z) bool) : outcome bool :=
  o ← search_walk 26 trie_index t [] (chars w);
  match o with
  | None => Ret false
  | Some node => of_option NullDeref (t !! node)
  end.

Fixpoint insert_all (ws : list string) (t : gmap (list Z) bool) : outcome (gmap (list Z) bool) :=
  match ws with [] => Ret t | w :: ws => t ← insert w t; insert_all ws t end.

Definition lowercase (w : string) : Prop := word 26 trie_index (chars w).

(** ** dnsCache/dnsCacheTrie.cpp *)

Definition CHARS : Z := 27.
Definition getIndex (c : Z) : Z := if c =? 46 then 26 else c - 97.
Definition getCharFromIndex (i : Z) : Z := if i =? 26 then 46 else 97 + i.

(** A node's [isLeaf] and [ipAdd]. *)
Record dns_node := mkDns { isLeaf : bool; ipAdd : option string }.
Definition dns_blank : dns_node := mkDns false None.
Definition newTrieNode : gmap (list Z) dns_node := {[ [] := dns_blank ]}.

Definition dns_insert (URL ip : string) (t : gmap (list Z) dns_node) : outcome (gmap (list Z) dns_node) :=
  '(t, pCrawl) ← insert_walk dns_blank CHARS getIndex t [] (chars URL);
  Ret (<[pCrawl := mkDns true (Some ip)]> t).

Definition searchDNSCache (URL : string) (t : gmap (list Z) dns_node) : outcome (option string) :=
  o ← search_walk CHARS getIndex t [] (chars URL);
  match o with
  | None => Ret None
  | Some pCrawl => nd ← of_option NullDeref (t !! pCrawl);
                   Ret (if isLeaf nd then ipAdd nd else None)
  end.

Fixpoint dns_insert_all (es : list (string * string)) (t : gmap (list Z) dns_node)
    : outcome (gmap (list Z) dns_node) :=
  match es with [] => Ret t | (u, ip) :: es => t ← dns_insert u ip t; dns_insert_all es t end.

(** ** Words and their paths *)

Lemma code_inj c d : code c = code d → c = d.
Proof. unfold code. intros E%N2Z.inj. by rewrite <-(ascii_N_embedding c), E, ascii_N_embedding. Qed.

Lemma chars_inj s s' : chars s = chars s' → s = s'.
Proof.
  revert s'. induction s as [|c s IH]; intros [|c' s']; simpl; try done.
  intros [= E%code_inj E']. subst. f_equal. by apply IH.
Qed.

Lemma fmap_inj_on (P : Z → Prop) (index : Z → Z) cs cs' :
  (∀ c c', P c → P c' → index c = index c' → c = c') →
  Forall P cs → Forall P cs' → index <$> cs = index <$> cs' → cs = cs'.
Proof.
  intros Hinj. revert cs'. induction cs as [|c cs IH]; intros [|c' cs'] H1 H2; simpl; try done.
  apply Forall_cons_1 in H1 as [? ?]. apply Forall_cons_1 in H2 as [? ?].
  intros [= E E']. f_equal; auto.
Qed.

(** ** The map the word trie implements *)

Record trie_rep (t : gmap (list Z) bool) (S : list string) : Prop := {
  tr_closed : closed t;
  tr_words w : lowercase w → data false t (trie_index <$> chars w) = bool_decide (w ∈ S);
}.

Lemma insert_rep t S w : trie_rep t S → lowercase w → ∃ t', insert w t = Ret t' ∧ trie_rep t' (w :: S).
Proof.
  intros [Hcl Hd] Hw. unfold insert.
  destruct (insert_walk_spec false 26 trie_index (chars w) t [] Hw Hcl) as (t1 & -> & Hcl1 & Hs & Hd1);
    [apply Hcl|]. rewrite bind_Ret. simpl app in *. eexists. split; [done|]. split.
  - destruct Hcl1 as [Hr Hc]. split.
    + destruct (decide (trie_index <$> chars w = [])) as [E|E]; [rewrite E, lookup_insert_eq; eauto|].
      by rewrite lookup_insert_ne.
    + intros p i Hp. destruct (decide (trie_index <$> chars w = p)) as [<-|Hne];
        [rewrite lookup_insert_eq; eauto|]. rewrite lookup_insert_ne by done.
      destruct (decide (trie_index <$> chars w = p ++ [i])) as [E|E].
      * apply (Hc p i). by rewrite <-E.
      * rewrite lookup_insert_ne in Hp by done. by apply (Hc p i).
  - intros w' Hw'. unfold data. destruct (decide (w = w')) as [<-|Hne].
    + rewrite lookup_insert_eq, bool_decide_eq_true_2; [done|by left].
    + rewrite lookup_insert_ne.
      * change (default false (t1 !! (trie_index <$> chars w'))) with (data false t1 (trie_index <$> chars w')).
        rewrite Hd1, Hd by done. apply bool_decide_ext. rewrite elem_of_cons. naive_solver.
      * intros E. apply Hne, chars_inj.
        apply (fmap_inj_on (letter 26 trie_index) trie_index); try done. unfold trie_index. intros; lia.
Qed.

Lemma search_rep t S w : trie_rep t S → lowercase w → search w t = Ret (bool_decide (w ∈ S)).
Proof.
  intros [Hcl Hd] Hw. unfold search. rewrite search_walk_spec, bind_Ret by (try done; apply Hcl).
  simpl app. rewrite <-Hd by done. unfold data.
  destruct (t !! (trie_index <$> chars w)) as [b|] eqn:Et; [by rewrite Et|done].
Qed.

Lemma insert_all_rep ws : ∀ t S, trie_rep t S → Forall lowercase ws →
  ∃ t', insert_all ws t = Ret t' ∧ trie_rep t' (rev ws ++ S).
Proof.
  induction ws as [|w ws IH]; intros t S R Hws; simpl; [eauto|].
  apply Forall_cons_1 in Hws as [Hw Hws]. destruct (insert_rep t S w R Hw) as (t1 & -> & R1).
  rewrite bind_Ret. destruct (IH t1 _ R1 Hws) as (t' & -> & R'). exists t'. split; [done|].
  by rewrite <-app_assoc.
Qed.

Lemma new_Trie_rep : trie_rep new_Trie [].
Proof.
  unfold new_Trie. split.
  - split; [rewrite lookup_singleton_eq; eauto|]. intros p i. rewrite lookup_singleton_ne by (by destruct p).
    by intros [? ?].
  - intros w Hw. unfold data. destruct (trie_index <$> chars w) as [|x l].
    + by rewrite lookup_singleton_eq.
    + by rewrite lookup_singleton_ne.
Qed.

(** After inserting any lower-case words into a new trie, [search] answers
    for every lower-case word whether it was inserted (a prefix of an inserted
    word is not found unless it was inserted itself), and nothing faults. *)
Theorem Trie_search_correct ws w :
  Forall lowercase ws → lowercase w →
  ∃ t, insert_all ws new_Trie = Ret t ∧ search w t = Ret (bool_decide (w ∈ ws)).
Proof.
  intros Hws Hw. destruct (insert_all_rep ws _ _ new_Trie_rep Hws) as (t & -> & R).
  exists t. split; [done|]. rewrite (search_rep t _ w R Hw). f_equal. apply bool_decide_ext.
  rewrite app_nil_r, !list_elem_of_In. symmetry. apply in_rev.
Qed.

Lemma Trie_search_correct_witness :
  ∃ t, insert_all ["apple"; "app"; "banana"] new_Trie = Ret t ∧ search "a" t = Ret false.
Proof.
  apply (Trie_search_correct ["apple"; "app"; "banana"] "a").
  - repeat constructor; vm_compute; intuition discriminate.
  - repeat constructor; vm_compute; intuition discriminate.
Defined.

(** ** The map the DNS trie implements *)

(** Domain names: lower-case letters and dots. *)
Definition domain_char (c : Z) : Prop := c = 46 ∨ 97 ≤ c ≤ 122.
Definition domain (u : string) : Prop := Forall domain_char (chars u).

Definition is_domain (u : string) : bool :=
  forallb (λ c, (c =? 46) || ((97 <=? c) && (c <=? 122))) (chars u).

Lemma is_domain_ok u : is_domain u = true → domain u.
Proof.
  unfold is_domain, domain. induction (chars u) as [|c cs IH]; simpl; [constructor|].
  intros [Hc Hcs]%andb_true_iff. constructor; [|by apply IH]. unfold domain_char.
  apply orb_true_iff in Hc as [Hc|Hc]; [left|right]; lia.
Qed.

Lemma domain_word u : domain u → word CHARS getIndex (chars u).
Proof.
  intros Hu. eapply Forall_impl; [exact Hu|]. intros c Hc. unfold letter, getIndex, CHARS, domain_char in *.
  destruct (Z.eqb_spec c 46); lia.
Qed.

Lemma getIndex_inj c c' : domain_char c → domain_char c' → getIndex c = getIndex c' → c = c'.
Proof. unfold domain_char, getIndex. destruct (Z.eqb_spec c 46), (Z.eqb_spec c' 46); lia. Qed.

(** A node's answer to a search that ends there. *)
Definition answer (nd : dns_node) : option string := if isLeaf nd then ipAdd nd else None.

Record dns_rep (t : gmap (list Z) dns_node) (M : gmap string string) : Prop := {
  dr_closed : closed t;
  dr_map u : domain u → answer (data dns_blank t (getIndex <$> chars u)) = M !! u;
}.

Lemma closed_update {I} (t : gmap (list Z) I) p x : closed t → is_Some (t !! p) → closed (<[p := x]> t).
Proof.
  intros [Hr Hc] Hp. split.
  - destruct (decide (p = [])) as [->|]; [rewrite lookup_insert_eq; eauto|by rewrite lookup_insert_ne].
  - intros q i Hq. destruct (decide (p = q)) as [<-|]; [rewrite lookup_insert_eq; eauto|].
    rewrite lookup_insert_ne by done. apply (Hc q i).
    destruct (decide (p = q ++ [i])) as [<-|]; [done|]. by rewrite lookup_insert_ne in Hq.
Qed.

Lemma dns_insert_rep t M u ip :
  dns_rep t M → domain u → ∃ t', dns_insert u ip t = Ret t' ∧ dns_rep t' (<[u := ip]> M).
Proof.
  intros [Hcl Hd] Hu. pose proof (domain_word u Hu) as Hw. unfold dns_insert.
  destruct (insert_walk_spec dns_blank CHARS getIndex (chars u) t [] Hw Hcl) as (t1 & -> & Hcl1 & Hs & Hd1);
    [apply Hcl|]. rewrite bind_Ret. simpl app in *. eexists. split; [done|].
  split; [by apply closed_update|].
  intros u' Hu'. unfold data. destruct (decide (u = u')) as [<-|Hne].
  - by rewrite !lookup_insert_eq.
  - rewrite !lookup_insert_ne; [|done|].
    + rewrite <-Hd by done. by rewrite <-Hd1.
    + intros E. apply Hne, chars_inj.
      apply (fmap_inj_on domain_char getIndex); try done. apply getIndex_inj.
Qed.

Lemma searchDNSCache_rep t M u : dns_rep t M → domain u → searchDNSCache u t = Ret (M !! u).
Proof.
  intros [Hcl Hd] Hu. unfold searchDNSCache.
  rewrite search_walk_spec, bind_Ret by (try apply domain_word; try done; apply Hcl).
  simpl app. rewrite <-Hd by done. unfold data.
  destruct (t !! (getIndex <$> chars u)) as [nd|] eqn:Et; [by rewrite Et|done].
Qed.

Lemma dns_insert_all_rep es : ∀ t M, dns_rep t M → Forall (λ e, domain e.1) es →
  ∃ t', dns_insert_all es t = Ret t' ∧ dns_rep t' (foldl (λ M e, <[e.1 := e.2]> M) M es).
Proof.
  induction es as [|[u ip] es IH]; intros t M R Hes; simpl; [eauto|].
  apply Forall_cons_1 in Hes as [Hu Hes]. destruct (dns_insert_rep t M u ip R Hu) as (t1 & -> & R1).
  rewrite bind_Ret. by apply IH.
Qed.

(** The DNS trie is a map: after inserting any list of domain names with
    addresses, [searchDNSCache] returns for every domain name the address
    inserted last for it, and null if there was none. *)
Theorem dns_trie_is_map es u :
  Forall (λ e, domain e.1) es → domain u →
  ∃ t, dns_insert_all es newTrieNode = Ret t ∧
       searchDNSCache u t = Ret (foldl (λ M e, <[e.1 := e.2]> M) (∅ : gmap string string) es !! u).
Proof.
  intros Hes Hu. unfold newTrieNode.
  destruct (dns_insert_all_rep es {[ [] := dns_blank ]} ∅) as (t & -> & R); [|done|].
  - split.
    + split; [rewrite lookup_singleton_eq; eauto|]. intros p i.
      rewrite lookup_singleton_ne by (by destruct p). by intros [? ?].
    + intros v Hv. unfold data. rewrite lookup_empty.
      destruct (getIndex <$> chars v) as [|x l];
        [by rewrite lookup_singleton_eq|by rewrite lookup_singleton_ne].
  - exists t. split; [done|]. by apply searchDNSCache_rep.
Qed.

Lemma dns_trie_is_map_witness :
  ∃ t, dns_insert_all [("www.samsung.com", "107.108.11.123"); ("www.google.in", "74.125.200.106");
                       ("www.samsung.com", "1.2.3.4")] newTrieNode = Ret t ∧
       searchDNSCache "www.samsung.com" t = Ret (Some "1.2.3.4").
Proof.
  apply (dns_trie_is_map [("www.samsung.com", "107.108.11.123"); ("www.google.in", "74.125.200.106");
                          ("www.samsung.com", "1.2.3.4")] "www.samsung.com").
  - repeat (apply List.Forall_cons; [apply is_domain_ok; reflexivity|]). constructor.
  - apply is_domain_ok. reflexivity.
Defined.

(** [getIndex] maps the character behind 'z' to the slot of the dot, so a
    name with '{' in place of a dot resolves like the name with the dot. *)
Theorem getIndex_collides :
  ∃ t, dns_insert "a.b" "1.2.3.4" newTrieNode = Ret t ∧ searchDNSCache "a{b" t = Ret (Some "1.2.3.4").
Proof. eexists. split; vm_compute; reflexivity. Qed.
