(* ===== verification/RateLimiter.v ===== *)
(** * pureStorage/rateLimiter.cpp: RateLimiter

    The sliding-window limiter: a log of the granted requests per key.  Times
    are the clock's nanoseconds; the program takes the time before it takes the
    mutex, so that the theorems, which need the calls of a key to come in the
    order of their times, say so. *)

From stdpp Require Import base list gmap numbers strings.
From Stdlib Require Import ZArith Lia.
From S2P Require Import Prelude.

Record RateLimiter := mkRateLimiter {
  max_requests : Z;
  window : Z;                        (* milliseconds *)
  logs : gmap string (list Z);
}.

Definition new_RateLimiter (maxReq window_ms : Z) : RateLimiter := mkRateLimiter maxReq window_ms ∅.

(** [duration_cast<milliseconds>(now - t) > window] *)
Definition expired (rl : RateLimiter) (now t : Z) : bool :=
  window rl <? Z.quot (now - t) (10 ^ 6).

Fixpoint drop_expired (rl : RateLimiter) (now : Z) (q : list Z) : list Z :=
  match q with
  | [] => []
  | t :: q' => if expired rl now t then drop_expired rl now q' else q
  end.

(** [q.size() < max_requests] compares in [size_t]. *)
Definition allowRequest (key : string) (now : Z) (rl : RateLimiter) : bool * RateLimiter :=
  let q := drop_expired rl now (default [] (logs rl !! key)) in
  if Z.of_nat (length q) <? u64 (max_requests rl) then
    (true, mkRateLimiter (max_requests rl) (window rl) (<[key := q ++ [now]]> (logs rl)))
  else (false, mkRateLimiter (max_requests rl) (window rl) (<[key := q]> (logs rl))).

(** A sequence of requests, and the answers. *)
Fixpoint run (reqs : list (string * Z)) (rl : RateLimiter) : list bool * RateLimiter :=
  match reqs with
  | [] => ([], rl)
  | (key, now) :: reqs =>
      let '(a, rl) := allowRequest key now rl in
      let '(ans, rl) := run reqs rl in (a :: ans, rl)
  end.

(** The times of the granted requests of a key. *)
Fixpoint granted (key : string) (reqs : list (string * Z)) (ans : list bool) : list Z :=
  match reqs, ans with
  | (k, t) :: reqs, a :: ans =>
      (if bool_decide (k = key) && a then [t] else []) ++ granted key reqs ans
  | _, _ => []
  end.

(** The requests come in the order of their times. *)
Fixpoint ordered (last : Z) (reqs : list (string * Z)) : Prop :=
  match reqs with [] => True | (_, t) :: reqs => last ≤ t ∧ ordered t reqs end.

(** ** The invariant of one key's log

    [G] are the grants of the key so far; the log is a suffix of it, and what
    is missing had expired at time [last]. *)

Record log_inv (rl : RateLimiter) (last : Z) (G q : list Z) : Prop := {
  li_split : ∃ old, G = old ++ q ∧ Forall (λ t, expired rl last t = true) old;
  li_past : Forall (λ t, t ≤ last) G;
  li_spaced i a b : G !! i = Some a → G !! (i + Z.to_nat (max_requests rl))%nat = Some b →
    expired rl b a = true;
  li_small : (length q ≤ Z.to_nat (max_requests rl))%nat;
}.

Lemma expired_mono rl now now' t : now ≤ now' → t ≤ now → expired rl now t = true → expired rl now' t = true.
Proof.
  intros Hle Ht. unfold expired. rewrite !Z.ltb_lt. intros H.
  pose proof (Z.quot_le_mono (now - t) (now' - t) (10 ^ 6)). lia.
Qed.

Lemma drop_expired_spec rl now q :
  ∃ old, q = old ++ drop_expired rl now q ∧ Forall (λ t, expired rl now t = true) old ∧
         match drop_expired rl now q with [] => True | t :: _ => expired rl now t = false end.
Proof.
  induction q as [|t q (old & E & Ho & Hd)]; simpl; [by exists []|].
  destruct (expired rl now t) eqn:Et.
  - exists (t :: old). simpl. rewrite <-E. split; [done|]. split; [by constructor|done].
  - exists []. simpl. rewrite Et. split; [done|]. split; [constructor|done].
Qed.

Lemma log_inv_later rl last now G q :
  log_inv rl last G q → last ≤ now → log_inv rl now G q.
Proof.
  intros [(old & -> & Ho) Hp Hs Hsm] Hle. split; auto.
  - exists old. split; [done|]. apply Forall_app in Hp as [Hp _].
    apply Forall_forall. intros t Ht. rewrite Forall_forall in Ho, Hp.
    apply (expired_mono rl last); auto.
  - eapply Forall_impl; [exact Hp|]. simpl. intros; lia.
Qed.

(** One request: the log drops what expired and may take the new time. *)
Lemma log_inv_request rl now G q :
  0 ≤ max_requests rl ≤ INT_MAX → log_inv rl now G q →
  let q' := drop_expired rl now q in
  if Z.of_nat (length q') <? u64 (max_requests rl) then log_inv rl now (G ++ [now]) (q' ++ [now])
  else log_inv rl now G q' ∧
       (max_requests rl = 0 ∨
        ∃ a, G !! (length G - Z.to_nat (max_requests rl))%nat = Some a ∧ expired rl now a = false).
Proof.
  intros Hmax [(old & EG & Ho) Hp Hs Hsm] q'. unfold INT_MAX in Hmax. rewrite u64_small by lia.
  destruct (drop_expired_spec rl now q) as (old' & Eq & Ho' & Hd). fold q' in Eq, Hd.
  assert (∃ old2, G = old2 ++ q' ∧ Forall (λ t, expired rl now t = true) old2) as (old2 & EG2 & Ho2).
  { exists (old ++ old'). rewrite <-app_assoc, <-Eq. split; [done|]. by apply Forall_app. }
  assert (length q' ≤ length q)%nat by (rewrite Eq, length_app; lia).
  destruct (Z.ltb_spec (Z.of_nat (length q')) (max_requests rl)) as [Hlt|Hge].
  - split.
    + exists old2. by rewrite EG2, <-app_assoc.
    + apply Forall_app. split; [done|]. by repeat constructor.
    + intros i a b Ha Hb. apply lookup_snoc_Some in Hb as [[Hb _]|[Ei ->]].
      * apply lookup_snoc_Some in Ha as [[Ha _]|[-> ->]]; [by apply (Hs i)|].
        apply lookup_lt_Some in Hb. lia.
      * apply lookup_snoc_Some in Ha as [[Ha Hi]|[-> ->]]; [|lia].
        rewrite EG2 in Ha, Ei. rewrite length_app in Ei.
        apply lookup_app_Some in Ha as [Ha|[Hlen _]]; [|lia].
        rewrite Forall_forall in Ho2. apply Ho2. by eapply list_elem_of_lookup_2.
    + rewrite length_app. simpl. lia.
  - split.
    + split; [eauto|done|done|lia].
    + destruct (decide (max_requests rl = 0)) as [E0|E0]; [by left|right].
      destruct q' as [|a q']; [simpl in Hge; lia|]. exists a. split; [|done].
      rewrite EG2, length_app. replace (length old2 + length (a :: q') - Z.to_nat (max_requests rl))%nat
        with (length old2 + 0)%nat by lia.
      by rewrite lookup_app_r, Nat.add_0_r, Nat.sub_diag by lia.
Qed.

(** ** Runs *)

Definition key_log (rl : RateLimiter) (key : string) : list Z := default [] (logs rl !! key).

(** The invariant of every key; [H] lists the requests so far with their answers. *)
Definition limiter_inv (rl : RateLimiter) (last : Z) (G : string → list Z) : Prop :=
  ∀ key, log_inv rl last (G key) (key_log rl key).

Definition same_limits (rl rl' : RateLimiter) : Prop :=
  max_requests rl' = max_requests rl ∧ window rl' = window rl.

Lemma log_inv_limits rl rl' last G q : same_limits rl rl' → log_inv rl last G q → log_inv rl' last G q.
Proof.
  intros [Hm Hw] [Hs Hp Hsp Hl]. unfold expired in *.
  split; unfold expired; rewrite ?Hm, ?Hw; auto.
Qed.

Lemma allowRequest_inv rl last G key now :
  0 ≤ max_requests rl ≤ INT_MAX → limiter_inv rl last G → last ≤ now →
  let '(a, rl') := allowRequest key now rl in
  same_limits rl rl' ∧
  limiter_inv rl' now (λ k, G k ++ (if bool_decide (key = k) && a then [now] else [])) ∧
  (a = false → max_requests rl = 0 ∨
     ∃ t, G key !! (length (G key) - Z.to_nat (max_requests rl))%nat = Some t ∧ expired rl now t = false).
Proof.
  intros Hmax Hinv Hle. unfold allowRequest. fold (key_log rl key).
  pose proof (log_inv_request rl now (G key) (key_log rl key) Hmax
                (log_inv_later _ _ _ _ _ (Hinv key) Hle)) as Hreq. simpl in Hreq.
  assert (∀ q' k, key ≠ k → log_inv rl now (G k ++ []) (default [] (<[key := q']> (logs rl) !! k))) as Hother.
  { intros q' k Hne. rewrite app_nil_r, lookup_insert_ne by done. by apply (log_inv_later rl last). }
  destruct (_ <? _).
  - split; [done|]. split; [|done]. intros k.
    apply (log_inv_limits rl); [done|]. unfold key_log; cbn [logs].
    case_bool_decide as E; [subst k|by apply Hother]. by rewrite lookup_insert_eq.
  - destruct Hreq as [Hreq Hden]. split; [done|]. split; [|by intros _]. intros k.
    apply (log_inv_limits rl); [done|]. unfold key_log; cbn [logs]. rewrite andb_false_r.
    destruct (decide (key = k)) as [<-|Hne]; [|by apply Hother].
    by rewrite lookup_insert_eq, app_nil_r.
Qed.

(** Every denial has its reason: the last [max_requests] grants of the key are
    all within the window. *)
Fixpoint denials_justified (rl : RateLimiter) (G : string → list Z) (reqs : list (string * Z)) (ans : list bool) : Prop :=
  match reqs, ans with
  | (key, now) :: reqs, a :: ans =>
      (a = false → max_requests rl = 0 ∨
         ∃ t, G key !! (length (G key) - Z.to_nat (max_requests rl))%nat = Some t ∧
              expired rl now t = false) ∧
      denials_justified rl (λ k, G k ++ (if bool_decide (key = k) && a then [now] else [])) reqs ans
  | _, _ => True
  end.

Lemma denials_limits rl rl' reqs : ∀ G ans,
  same_limits rl rl' → denials_justified rl' G reqs ans → denials_justified rl G reqs ans.
Proof.
  induction reqs as [|[key now] reqs IH]; intros G [|a ans] [Hm Hw]; simpl; auto.
  unfold expired in *. rewrite Hm, Hw. intros [Ha Hd]. split; [done|]. by apply IH.
Qed.

Lemma run_inv reqs : ∀ rl last G,
  0 ≤ max_requests rl ≤ INT_MAX → limiter_inv rl last G → ordered last reqs →
  let '(ans, rl') := run reqs rl in
  ∃ last', same_limits rl rl' ∧ limiter_inv rl' last' (λ k, G k ++ granted k reqs ans) ∧
           denials_justified rl G reqs ans.
Proof.
  induction reqs as [|[key now] reqs IH]; intros rl last G Hmax Hinv Hord; simpl.
  { exists last. split; [done|]. split; [|done]. intros k. rewrite app_nil_r. apply Hinv. }
  destruct Hord as [Hle Hord].
  pose proof (allowRequest_inv rl last G key now Hmax Hinv Hle) as Hreq.
  destruct (allowRequest key now rl) as [a rl1]. destruct Hreq as (Hlim & Hinv1 & Hden).
  pose proof Hlim as [Hm _]. specialize (IH rl1 now _ ltac:(by rewrite Hm) Hinv1 Hord).
  destruct (run reqs rl1) as [ans rl'] eqn:E. destruct IH as (last' & [Hm' Hw'] & Hinv' & Hd).
  exists last'. split; [destruct Hlim; split; congruence|]. split.
  - intros k. specialize (Hinv' k). cbv beta in Hinv'. by rewrite <-app_assoc in Hinv'.
  - split; [done|]. by apply (denials_limits rl rl1).
Qed.

(** The limiter enforces its limit exactly, for requests in the order of
    their times.  Of the grants of one key, each is followed by the
    [maxReq]-th later one only after more than [window_ms] full milliseconds,
    so no window holds more than [maxReq] grants; and a request is denied only
    when the last [maxReq] grants of its key are all inside its window. *)
Theorem RateLimiter_correct maxReq window_ms reqs :
  0 ≤ maxReq ≤ INT_MAX → ordered 0 reqs →
  let '(ans, _) := run reqs (new_RateLimiter maxReq window_ms) in
  (∀ key i a b, granted key reqs ans !! i = Some a →
     granted key reqs ans !! (i + Z.to_nat maxReq)%nat = Some b →
     window_ms < Z.quot (b - a) (10 ^ 6)) ∧
  denials_justified (new_RateLimiter maxReq window_ms) (λ _, []) reqs ans.
Proof.
  intros Hmax Hord.
  pose proof (run_inv reqs (new_RateLimiter maxReq window_ms) 0 (λ _, []) Hmax) as Hrun.
  assert (limiter_inv (new_RateLimiter maxReq window_ms) 0 (λ _, [])) as H0.
  { intros key. unfold key_log. simpl. rewrite lookup_empty. simpl.
    split; [by exists []|constructor|done|simpl; lia]. }
  specialize (Hrun H0 Hord). destruct (run reqs _) as [ans rl'].
  destruct Hrun as (last' & [Hm Hw] & Hinv & Hd). split; [|done].
  intros key i a b Ha Hb. pose proof (li_spaced _ _ _ _ (Hinv key) i a b) as Hs.
  rewrite Hm in Hs. simpl in Hs. specialize (Hs Ha Hb). unfold expired in Hs. rewrite Hw in Hs.
  by apply Z.ltb_lt in Hs.
Qed.

Lemma RateLimiter_correct_witness :
  let reqs := [("u", 0); ("u", 10 ^ 6); ("u", 2 * 10 ^ 6); ("u", 3 * 10 ^ 9)] in
  let '(ans, _) := run reqs (new_RateLimiter 2 2000) in
  denials_justified (new_RateLimiter 2 2000) (λ _, []) reqs ans ∧ ans = [true; true; false; true].
Proof.
  intros reqs. pose proof (RateLimiter_correct 2 2000 reqs) as W.
  destruct (run reqs (new_RateLimiter 2 2000)) as [ans rl] eqn:E.
  destruct W as [_ W].
  - vm_compute. intuition discriminate.
  - vm_compute. intuition discriminate.
  - split; [exact W|]. vm_compute in E. by injection E as <- _.
Defined.

(** The comparison of [q.size()] with a negative limit is made in
    [size_t], so a negative limit allows every request. *)
Theorem negative_limit_allows_all maxReq window_ms key now lg :
  - 2 ^ 31 ≤ maxReq < 0 →
  Z.of_nat (length (default [] (lg !! key))) < 2 ^ 63 →
  (allowRequest key now (mkRateLimiter maxReq window_ms lg)).1 = true.
Proof.
  intros Hm Hlen. unfold allowRequest. cbn [max_requests logs].
  destruct (drop_expired_spec (mkRateLimiter maxReq window_ms lg) now (default [] (lg !! key)))
    as (old & E & _).
  assert (length (drop_expired (mkRateLimiter maxReq window_ms lg) now (default [] (lg !! key))) ≤
          length (default [] (lg !! key)))%nat by (rewrite E at 2; rewrite length_app; lia).
  assert (u64 maxReq = maxReq + 2 ^ 64) as ->.
  { unfold u64. symmetry. apply (Z.mod_unique _ _ (-1)); lia. }
  rewrite (proj2 (Z.ltb_lt _ _)); [done|]. lia.
Qed.

Lemma negative_limit_allows_all_witness :
  (allowRequest "u" 5 (mkRateLimiter (-1) 10 {["u" := [1; 2; 3]]})).1 = true.
Proof.
  apply (negative_limit_allows_all (-1) 10 "u" 5 {["u" := [1; 2; 3]]}).
  - lia.
  - reflexivity.
Defined.
