(* ===== verification/Timer.v ===== *)
(** * timer/timer_pthread.cpp

    Software timers: a table of [MAX_TASK] timers that [TimerInterruptFunction]
    advances on every tick, and a queue of expired timers whose callbacks
    [RunTasks] calls.  All functions run under one mutex, so a run is a sequence
    of their calls.  A callback is the number of the function; the null pointer
    is [None], and calling it is a fault. *)

From stdpp Require Import base list numbers.
From Stdlib Require Import ZArith Lia.
From S2P Require Import Prelude.

Record TimerTask_t := mkTimerTask {
  timer_enable : bool;
  periodic : bool;
  reload_timeout_value : Z;
  curr_timeout_value : Z;
  Callback : option Z;
}.

Definition MAX_TASK : Z := 5.

Record state := mkState {
  TimerTask : list TimerTask_t;
  Task_queue : list Z;
  called : list Z;            (* callbacks called so far *)
}.

(** Zero-initialised globals. *)
Definition blank_task : TimerTask_t := mkTimerTask false false 0 0 None.
Definition initial : state := mkState (replicate (Z.to_nat MAX_TASK) blank_task) [] [].

(** One iteration of the interrupt's loop: the new entry and whether it expired. *)
Definition tick_task (t : TimerTask_t) : TimerTask_t * bool :=
  if timer_enable t then
    if curr_timeout_value t =? 0 then
      (if negb (periodic t)
       then mkTimerTask false (periodic t) (reload_timeout_value t) (curr_timeout_value t) (Callback t)
       else mkTimerTask (timer_enable t) (periodic t) (reload_timeout_value t)
              (reload_timeout_value t) (Callback t), true)
    else (mkTimerTask (timer_enable t) (periodic t) (reload_timeout_value t)
            (u32 (curr_timeout_value t - 1)) (Callback t), false)
  else (t, false).

Fixpoint interrupt_loop (timer_index : Z) (ts : list TimerTask_t) (q : list Z)
    : list TimerTask_t * list Z :=
  match ts with
  | [] => ([], q)
  | t :: ts =>
      let '(t, fired) := tick_task t in
      let '(ts, q) := interrupt_loop (timer_index + 1) ts (if (fired : bool) then q ++ [timer_index] else q) in
      (t :: ts, q)
  end.

Definition TimerInterruptFunction (s : state) : state :=
  let '(ts, q) := interrupt_loop 0 (TimerTask s) (Task_queue s) in mkState ts q (called s).

(** The first slot whose timer is not enabled; [None] leaves [*timerId] unset. *)
Fixpoint find_slot (timer_index : Z) (ts : list TimerTask_t) : option Z :=
  match ts with
  | [] => None
  | t :: ts => if negb (timer_enable t) then Some timer_index else find_slot (timer_index + 1) ts
  end.

Definition timer_start (pCallback : option Z) (timeout : Z) (per : bool) (s : state)
    : option Z * state :=
  match find_slot 0 (TimerTask s) with
  | None => (None, s)
  | Some i => (Some i, mkState (<[Z.to_nat i := mkTimerTask true per timeout timeout pCallback]> (TimerTask s))
                         (Task_queue s) (called s))
  end.

(** The table is read before the index is checked. *)
Definition timer_stop (timerId : Z) (s : state) : outcome state :=
  t ← vget (TimerTask s) timerId;
  if negb (timer_enable t) then Ret s
  else if timerId <? MAX_TASK then
    ts ← vset (TimerTask s) timerId (mkTimerTask false false 4294967295 4294967295 None);
    Ret (mkState ts (Task_queue s) (called s))
  else Ret s.

(** One round of [RunTasksThread]: empties the queue. *)
Fixpoint run_queue (ts : list TimerTask_t) (q : list Z) : outcome (list Z) :=
  match q with
  | [] => Ret []
  | i :: q =>
      t ← vget ts i;
      f ← of_option NullDeref (Callback t);
      fs ← run_queue ts q;
      Ret (f :: fs)
  end.

Definition RunTasks (s : state) : outcome state :=
  fs ← run_queue (TimerTask s) (Task_queue s);
  Ret (mkState (TimerTask s) [] (called s ++ fs)).

Fixpoint stop_from (task_index : nat) (s : state) : outcome state :=
  match task_index with
  | O => Ret s
  | S n => s ← timer_stop (MAX_TASK - Z.of_nat task_index) s; stop_from n s
  end.

Definition InitTimerTask (s : state) : outcome state := stop_from (Z.to_nat MAX_TASK) s.

(** ** Ticks of one timer *)

Fixpoint ticks (k : nat) (s : state) : state :=
  match k with O => s | S k => ticks k (TimerInterruptFunction s) end.

Fixpoint tick_many (k : nat) (t : TimerTask_t) : TimerTask_t * nat :=
  match k with
  | O => (t, 0%nat)
  | S k => let '(t, f) := tick_task t in let '(t, n) := tick_many k t in (t, (Nat.b2n f + n)%nat)
  end.

Lemma interrupt_loop_spec ts : ∀ i q,
  (interrupt_loop i ts q).1 = (λ t, (tick_task t).1) <$> ts ∧
  ∀ j t, ts !! j = Some t →
    countb (Z.eqb (i + Z.of_nat j)) (interrupt_loop i ts q).2 =
    (countb (Z.eqb (i + Z.of_nat j)) q + Nat.b2n (tick_task t).2)%nat.
Proof.
  assert (∀ ts i q z, (z < i)%Z → countb (Z.eqb z) (interrupt_loop i ts q).2 = countb (Z.eqb z) q) as Hlow.
  { clear ts. induction ts as [|t ts IH]; intros i q z Hz; simpl; [done|].
    destruct (tick_task t) as [t' f]. specialize (IH (i + 1) (if f then q ++ [i] else q) z).
    destruct (interrupt_loop (i + 1) ts _) as [ts' q']. simpl in *. rewrite IH by lia.
    destruct f; [|done]. rewrite countb_app; simpl; rewrite (proj2 (Z.eqb_neq z i)) by lia. simpl. lia. }
  induction ts as [|t ts IH]; intros i q; simpl; [split; [done|]; by intros []|].
  destruct (tick_task t) as [t' f] eqn:Et. specialize (IH (i + 1) (if f then q ++ [i] else q)).
  specialize (Hlow ts (i + 1) (if f then q ++ [i] else q) i).
  destruct (interrupt_loop (i + 1) ts _) as [ts' q']. simpl in *. destruct IH as [-> IH].
  split; [done|]. intros [|j] u Hu; simpl in Hu.
  - injection Hu as <-. rewrite Et, Z.add_0_r, Hlow by lia. destruct f; simpl; [|lia].
    rewrite countb_app; simpl; rewrite Z.eqb_refl. done.
  - replace (i + Z.of_nat (S j)) with (i + 1 + Z.of_nat j) by lia. rewrite (IH j u Hu).
    destruct f; [|done]. rewrite countb_app; simpl; rewrite (proj2 (Z.eqb_neq _ i)) by lia. simpl. lia.
Qed.

(** The ticks of the system act on every timer separately. *)
Lemma ticks_spec k : ∀ s i t, TimerTask s !! i = Some t →
  let '(t', n) := tick_many k t in
  TimerTask (ticks k s) !! i = Some t' ∧
  countb (Z.eqb (Z.of_nat i)) (Task_queue (ticks k s)) =
    (countb (Z.eqb (Z.of_nat i)) (Task_queue s) + n)%nat.
Proof.
  induction k as [|k IH]; intros s i t Hi; simpl; [split; [done|lia]|].
  destruct (tick_task t) as [t1 f] eqn:Et.
  destruct (interrupt_loop_spec (TimerTask s) 0 (Task_queue s)) as [H1 H2].
  assert (TimerTask (TimerInterruptFunction s) !! i = Some t1 ∧
          countb (Z.eqb (Z.of_nat i)) (Task_queue (TimerInterruptFunction s)) =
          (countb (Z.eqb (Z.of_nat i)) (Task_queue s) + Nat.b2n f)%nat) as [Ha Hb].
  { unfold TimerInterruptFunction. specialize (H2 i t Hi). rewrite Z.add_0_l, Et in H2.
    destruct (interrupt_loop 0 (TimerTask s) (Task_queue s)) as [ts q]. simpl in *. subst ts.
    rewrite list_lookup_fmap, Hi. simpl. by rewrite Et. }
  specialize (IH _ i t1 Ha). destruct (tick_many k t1) as [t' n]. destruct IH as [-> ->].
  split; [done|]. rewrite Hb. lia.
Qed.

(** A running timer counts down to its first expiry. *)
Lemma tick_many_down per r cb k : ∀ m,
  (k ≤ m)%nat → Z.of_nat m < 2 ^ 32 →
  tick_many k (mkTimerTask true per r (Z.of_nat m) cb) = (mkTimerTask true per r (Z.of_nat (m - k)) cb, 0%nat).
Proof.
  induction k as [|k IH]; intros m Hk Hm; cbn [tick_many]; [by rewrite Nat.sub_0_r|].
  unfold tick_task. cbn [timer_enable curr_timeout_value periodic reload_timeout_value Callback].
  rewrite (proj2 (Z.eqb_neq (Z.of_nat m) 0)), u32_small by lia.
  replace (Z.of_nat m - 1) with (Z.of_nat (m - 1)) by lia. rewrite IH by lia.
  simpl. do 3 f_equal. lia.
Qed.

Lemma tick_many_add a b t :
  tick_many (a + b) t =
  let '(t1, n1) := tick_many a t in let '(t2, n2) := tick_many b t1 in (t2, (n1 + n2)%nat).
Proof.
  revert t. induction a as [|a IH]; intros t; simpl.
  - by destruct (tick_many b t).
  - destruct (tick_task t) as [t' f]. rewrite IH. destruct (tick_many a t') as [t1 n1].
    destruct (tick_many b t1) as [t2 n2]. f_equal. lia.
Qed.

(** A periodic timer is back in its initial state every [r + 1] ticks, having
    expired once. *)
Lemma tick_many_period r cb q k : (k ≤ r)%nat → Z.of_nat r < 2 ^ 32 →
  tick_many (q * S r + k) (mkTimerTask true true (Z.of_nat r) (Z.of_nat r) cb) =
    (mkTimerTask true true (Z.of_nat r) (Z.of_nat (r - k)) cb, q).
Proof.
  intros Hk Hr. induction q as [|q IH]; [by apply tick_many_down|].
  replace (S q * S r + k)%nat with (r + (1 + (q * S r + k)))%nat by lia.
  rewrite tick_many_add, tick_many_down, Nat.sub_diag by lia.
  rewrite tick_many_add. cbn [tick_many]. unfold tick_task.
  cbn [timer_enable curr_timeout_value periodic reload_timeout_value Callback]. simpl (Z.of_nat 0 =? 0).
  cbv iota. cbn [negb]. rewrite IH. done.
Qed.

(** A one-shot timer expires once, on tick [r + 1], and is then disabled. *)
Lemma tick_many_oneshot r cb k : (r < k)%nat → Z.of_nat r < 2 ^ 32 →
  tick_many k (mkTimerTask true false (Z.of_nat r) (Z.of_nat r) cb) =
    (mkTimerTask false false (Z.of_nat r) 0 cb, 1%nat).
Proof.
  intros Hk Hr. replace k with (r + (1 + (k - r - 1)))%nat by lia.
  rewrite tick_many_add, tick_many_down, Nat.sub_diag by lia.
  rewrite tick_many_add. cbn [tick_many]. unfold tick_task.
  cbn [timer_enable curr_timeout_value periodic reload_timeout_value Callback]. simpl (Z.of_nat 0 =? 0).
  cbv iota. cbn [negb].
  assert (∀ n t, timer_enable t = false → tick_many n t = (t, 0%nat)) as ->.
  { intros n t Ht. induction n as [|n IH]; [done|]. cbn [tick_many]. unfold tick_task. by rewrite Ht, IH. }
  - done.
  - done.
Qed.

(** ** The properties *)

Lemma find_slot_spec ts : ∀ i j, find_slot i ts = Some j →
  ∃ k, j = i + Z.of_nat k ∧ (k < length ts)%nat.
Proof.
  induction ts as [|t ts IH]; intros i j; simpl; [done|]. destruct (negb (timer_enable t)).
  - intros [= <-]. exists 0%nat. lia.
  - intros (k & -> & ?)%IH. exists (S k). lia.
Qed.

Lemma timer_start_slot cb n per s i s' :
  timer_start cb n per s = (Some i, s') →
  ∃ k, i = Z.of_nat k ∧ TimerTask s' !! k = Some (mkTimerTask true per n n cb) ∧ Task_queue s' = Task_queue s.
Proof.
  unfold timer_start. destruct (find_slot 0 (TimerTask s)) as [j|] eqn:E; [|done].
  intros [= <- <-]. apply find_slot_spec in E as (k & -> & Hk). exists k.
  replace (0 + Z.of_nat k) with (Z.of_nat k) by lia. split; [done|]. simpl. rewrite Nat2Z.id.
  by rewrite list_lookup_insert_eq.
Qed.

(** A periodic timer started with timeout [n] expires every [n + 1] ticks,
    not every [n]: after [k] ticks it has been queued exactly [k / (n + 1)]
    times.  A one-shot timer is queued exactly once, on tick [n + 1], and is
    disabled from then on. *)
Theorem timer_expiries cb n per s i s' k :
  timer_start cb (Z.of_nat n) per s = (Some i, s') → Z.of_nat n < 2 ^ 32 →
  countb (Z.eqb i) (Task_queue s) = 0%nat →
  if per then countb (Z.eqb i) (Task_queue (ticks k s')) = (k / S n)%nat
  else countb (Z.eqb i) (Task_queue (ticks k s')) = (if decide (n < k)%nat then 1 else 0)%nat ∧
       (timer_enable <$> TimerTask (ticks k s') !! Z.to_nat i) = Some (negb (bool_decide (n < k)%nat)).
Proof.
  intros Hst Hn H0. apply timer_start_slot in Hst as (j & -> & Hj & Hq).
  pose proof (ticks_spec k s' j _ Hj) as Ht. rewrite Hq, H0 in Ht. rewrite Nat2Z.id.
  destruct per.
  - pose proof (Nat.div_mod k (S n) ltac:(lia)) as Ek.
    pose proof (Nat.mod_upper_bound k (S n) ltac:(lia)).
    rewrite Ek, Nat.mul_comm in Ht. rewrite tick_many_period in Ht by lia.
    rewrite <-Nat.mul_comm, <-Ek in Ht. by destruct Ht.
  - destruct (decide (n < k)%nat) as [Hk|Hk].
    + rewrite tick_many_oneshot in Ht by done. destruct Ht as [-> ->].
      rewrite bool_decide_eq_true_2 by done. done.
    + rewrite tick_many_down in Ht by lia. destruct Ht as [-> ->].
      rewrite bool_decide_eq_false_2 by done. done.
Qed.

Lemma timer_expiries_witness :
  countb (Z.eqb 0) (Task_queue (ticks 30 (timer_start (Some 1) 2 true initial).2)) = 10%nat.
Proof.
  apply (timer_expiries (Some 1) 2 true initial 0 (timer_start (Some 1) 2 true initial).2 30).
  - reflexivity.
  - reflexivity.
  - reflexivity.
Defined.

(** Stopping a timer that has expired but whose callback has not run yet
    makes the task thread call a null pointer: the queue still holds the timer,
    while [timer_stop] has cleared its callback. *)
Theorem stop_with_queued_task s i t q :
  TimerTask s !! i = Some t → timer_enable t = true → (i < 5)%nat → length (TimerTask s) = 5%nat →
  Task_queue s = Z.of_nat i :: q →
  ∃ s', timer_stop (Z.of_nat i) s = Ret s' ∧ RunTasks s' = Err NullDeref.
Proof.
  intros Hi Ht Hlt Hlen Hq. unfold timer_stop.
  rewrite (proj2 (vget_Ret _ _ t)) by (split; [lia|by rewrite Nat2Z.id]).
  rewrite bind_Ret, Ht. cbn [negb]. unfold MAX_TASK. rewrite (proj2 (Z.ltb_lt _ _)) by lia.
  rewrite vset_total, bind_Ret by lia. eexists. split; [done|].
  unfold RunTasks. cbn [TimerTask Task_queue]. rewrite Hq. cbn [run_queue].
  rewrite (proj2 (vget_Ret _ _ (mkTimerTask false false 4294967295 4294967295 None))); [done|].
  split; [lia|]. apply list_lookup_insert_eq. lia.
Qed.

Lemma stop_with_queued_task_witness :
  let s := ticks 1 (timer_start (Some 7) 0 true initial).2 in
  ∃ s', timer_stop 0 s = Ret s' ∧ RunTasks s' = Err NullDeref.
Proof.
  intros s. apply (stop_with_queued_task s 0 (mkTimerTask true true 0 0 (Some 7)) []);
    vm_compute; try reflexivity. lia.
Defined.

(** [timer_stop] reads the table before it checks the index. *)
Lemma timer_stop_bounds timerId s :
  length (TimerTask s) = 5%nat → MAX_TASK ≤ timerId → timer_stop timerId s = Err OutOfBounds.
Proof.
  intros Hlen Hid. unfold timer_stop.
  assert (vget (TimerTask s) timerId = Err OutOfBounds) as ->; [|done].
  unfold vget, in_range, MAX_TASK in *. by rewrite (proj2 (Z.ltb_ge timerId _)), andb_false_r by lia.
Qed.
