(* ===== verification/WorkQueue.v ===== *)
(** * The thread pools and blocking queues

    threadPool/main_w_function.cpp, main_w_functor.cpp, main_w_lambda.cpp,
    blockingQueueThreadPool.cpp, the [BlockingQueue] of
    pureStorage/rateLimiter.cpp and the queue of
    concurrency/producerConsumer/mutex_cv_refactor.cpp share one design: a FIFO
    queue of jobs and a stop flag under a mutex, one condition variable,
    producers that push under the mutex and notify after releasing it, and
    workers that loop: wait, take a job, run it without the mutex, until the
    queue is stopped and empty.

    Each program's worker section is a definition of its own; [step] is the
    interleaving of the critical sections, of the notifications that come after
    them, of spurious wake-ups and of the jobs' ends. *)

From stdpp Require Import base list numbers relations.
From Stdlib Require Import ZArith Lia.
From S2P Require Import Prelude.

Section work_queue.
Context {T : Type}.
Implicit Types (tasks : list T) (x : T).

(** What a worker's critical section ends with; [Faults] is [front()] on an empty
    queue. *)
Inductive section_end := Waits | Exits | Takes (x : T) (tasks : list T) | Faults.

(** ** The critical sections *)

(** main_w_function.cpp: [while (!stop && tasks.empty()) wait; ...] *)
Definition workerThread (stop : bool) tasks : section_end :=
  if negb stop && bool_decide (tasks = []) then Waits else
  if stop && bool_decide (tasks = []) then Exits else
  match tasks with [] => Faults | x :: tasks => Takes x tasks end.

(** main_w_functor.cpp *)
Definition functor_workerThread (stop : bool) tasks : section_end :=
  if negb stop && bool_decide (tasks = []) then Waits else
  if stop && bool_decide (tasks = []) then Exits else
  match tasks with [] => Faults | x :: tasks => Takes x tasks end.

(** main_w_lambda.cpp: [condition.wait(lock, [this] { return stop || !tasks.empty(); })] *)
Definition lambda_worker (stop : bool) tasks : section_end :=
  if negb (stop || negb (bool_decide (tasks = []))) then Waits else
  if stop && bool_decide (tasks = []) then Exits else
  match tasks with [] => Faults | x :: tasks => Takes x tasks end.

(** [BlockingQueue::pop] of blockingQueueThreadPool.cpp: true with a value, or false. *)
Definition pop (done : bool) (internal_queue : list T) : section_end :=
  if negb (negb (bool_decide (internal_queue = [])) || done) then Waits else
  if bool_decide (internal_queue = []) && done then Exits else
  match internal_queue with [] => Faults | x :: q => Takes x q end.

(** [BlockingQueue::pop] of rateLimiter.cpp *)
Definition log_pop (stop : bool) (q : list T) : section_end :=
  if negb (negb (bool_decide (q = [])) || stop) then Waits else
  if stop && bool_decide (q = []) then Exits else
  match q with [] => Faults | msg :: q => Takes msg q end.

(** [ThreadSafeQueue<T>::pop] of mutex_cv_refactor.cpp: there is no stop flag. *)
Definition tsq_pop (q : list T) : section_end :=
  if bool_decide (q = []) then Waits else
  match q with [] => Faults | x :: q => Takes x q end.

(** [enqueue] and [push]. *)
Definition enqueue x tasks : list T := tasks ++ [x].

Lemma workerThread_no_fault stop tasks : workerThread stop tasks ≠ Faults.
Proof. by destruct stop, tasks. Qed.

Lemma worker_sections_agree stop tasks :
  functor_workerThread stop tasks = workerThread stop tasks ∧
  lambda_worker stop tasks = workerThread stop tasks ∧
  pop stop tasks = workerThread stop tasks ∧
  log_pop stop tasks = workerThread stop tasks ∧
  (stop = false → tsq_pop tasks = workerThread stop tasks).
Proof. destruct stop, tasks; repeat split; try done; by intros. Qed.

(** ** The system *)

Inductive worker :=
  | Testing              (* about to enter the critical section *)
  | Waiting              (* blocked on the condition variable *)
  | Running (x : T)      (* runs a job, without the mutex *)
  | Exited.

Record system := mkSystem {
  tasks : list T;
  stop : bool;
  workers : list worker;
  notifies : nat;             (* producers between unlocking and notify_one *)
  stopping : bool;            (* the stopper is between unlocking and notify_all *)
  pushed : list T;            (* all jobs pushed, in order *)
  taken : list T;             (* all jobs taken, in order *)
  at_stop : option (list T);  (* the jobs pushed when the queue was stopped *)
}.

Definition wake (w : worker) : worker := match w with Waiting => Testing | w => w end.
Definition is_waiting (w : worker) : bool := match w with Waiting => true | _ => false end.
Definition is_testing (w : worker) : bool := match w with Testing => true | _ => false end.
Definition is_exited (w : worker) : bool := match w with Exited => true | _ => false end.

Inductive notify_one (ws : list worker) : list worker → Prop :=
  | notify_none : countb is_waiting ws = 0%nat → notify_one ws ws
  | notify_some i : ws !! i = Some Waiting → notify_one ws (<[i := Testing]> ws).

Definition with_workers (s : system) ws : system :=
  mkSystem (tasks s) (stop s) ws (notifies s) (stopping s) (pushed s) (taken s) (at_stop s).

Inductive step : system → system → Prop :=
  | step_push s x :
      step s (mkSystem (enqueue x (tasks s)) (stop s) (workers s) (S (notifies s)) (stopping s)
                (pushed s ++ [x]) (taken s) (at_stop s))
  | step_notify s n ws : notifies s = S n → notify_one (workers s) ws →
      step s (mkSystem (tasks s) (stop s) ws n (stopping s) (pushed s) (taken s) (at_stop s))
  | step_stop s :
      step s (mkSystem (tasks s) true (workers s) (notifies s) true (pushed s) (taken s)
                (Some (default (pushed s) (at_stop s))))
  | step_notify_all s : stopping s = true →
      step s (mkSystem (tasks s) (stop s) (wake <$> workers s) (notifies s) false
                (pushed s) (taken s) (at_stop s))
  | step_waits s i : workers s !! i = Some Testing → workerThread (stop s) (tasks s) = Waits →
      step s (with_workers s (<[i := Waiting]> (workers s)))
  | step_exits s i : workers s !! i = Some Testing → workerThread (stop s) (tasks s) = Exits →
      step s (with_workers s (<[i := Exited]> (workers s)))
  | step_takes s i x ts : workers s !! i = Some Testing → workerThread (stop s) (tasks s) = Takes x ts →
      step s (mkSystem ts (stop s) (<[i := Running x]> (workers s)) (notifies s) (stopping s)
                (pushed s) (taken s ++ [x]) (at_stop s))
  | step_finish s i x : workers s !! i = Some (Running x) →
      step s (with_workers s (<[i := Testing]> (workers s)))
  | step_spurious s i : workers s !! i = Some Waiting →
      step s (with_workers s (<[i := Testing]> (workers s))).

(** [ThreadPool(numThreads)]: at least one worker, except in the lambda version. *)
Definition new_ThreadPool (numThreads : nat) : system :=
  let n := if decide (numThreads = 0)%nat then 1%nat else numThreads in
  mkSystem [] false (replicate n Testing) 0 false [] [] None.
Definition new_ThreadPool_lambda (numThreads : nat) : system :=
  mkSystem [] false (replicate numThreads Testing) 0 false [] [] None.

(** ** The invariant *)

Record inv (s : system) : Prop := {
  inv_fifo : pushed s = taken s ++ tasks s;
  inv_wake : countb is_waiting (workers s) = 0%nat ∨
    (length (tasks s) ≤ countb is_testing (workers s) + notifies s)%nat;
  inv_stop : stop s = true → countb is_waiting (workers s) = 0%nat ∨ stopping s = true;
  inv_at_stop : ∀ l, at_stop s = Some l → l `prefix_of` pushed s;
  inv_stopped : stop s = true ↔ is_Some (at_stop s);
  inv_exited : (0 < countb is_exited (workers s))%nat →
    ∃ l, at_stop s = Some l ∧ l `prefix_of` taken s;
}.

Lemma wq_inv_initial ws :
  Forall (eq Testing) ws → inv (mkSystem [] false ws 0 false [] [] None).
Proof.
  intros Hws. assert (∀ p, p Testing = false → countb p ws = 0%nat) as Hz.
  { intros p Hp. apply countb_zero. intros i w Hw. by rewrite <-(Forall_lookup_1 _ _ _ _ Hws Hw). }
  split; simpl; [done|left; by apply Hz|done|done| |].
  - split; [done|]. by intros [? ?].
  - rewrite (Hz is_exited) by done. lia.
Qed.

Ltac counts Hi w :=
  pose proof (countb_insert is_waiting _ _ _ w Hi);
  pose proof (countb_insert is_testing _ _ _ w Hi);
  pose proof (countb_insert is_exited _ _ _ w Hi); simpl in *.

Lemma notify_one_counts ws ws' : notify_one ws ws' →
  countb is_exited ws' = countb is_exited ws ∧
  (countb is_waiting ws' = 0%nat ∧ ws' = ws ∨
   countb is_testing ws' = S (countb is_testing ws) ∧
   S (countb is_waiting ws') = countb is_waiting ws).
Proof. intros [Hz|i Hi]; [auto|]. counts Hi Testing. lia. Qed.

Lemma wake_counts ws :
  countb is_waiting (wake <$> ws) = 0%nat ∧ countb is_exited (wake <$> ws) = countb is_exited ws.
Proof.
  rewrite !countb_fmap. split.
  - apply countb_zero. by intros i [] _.
  - induction ws as [|w ws IH]; simpl; [done|]. rewrite IH. by destruct w.
Qed.

Lemma wq_inv_step s s' : inv s → step s s' → inv s'.
Proof.
  intros [Hf Hw Hs Hp Hst He] Hstep. destruct Hstep as
    [s x|s n ws Hn Hws|s|s Hstop|s i Hi E|s i Hi E|s i x ts Hi E|s i x Hi|s i Hi];
    unfold with_workers, enqueue in *; simpl in *.
  - split; simpl; auto.
    + by rewrite Hf, app_assoc.
    + rewrite length_app. simpl. lia.
    + intros l Hl. by apply prefix_app_r, Hp.
  - apply notify_one_counts in Hws as [Hex Hws]. split; simpl; auto; try lia.
    + intros Hstp. destruct (Hs Hstp); [left; lia|by right].
    + rewrite Hex. done.
  - split; simpl; auto.
    + intros l [= <-]. destruct (at_stop s) as [l|] eqn:El; simpl; [by apply Hp|done].
    + split; [eauto|done].
    + intros (l & Hl & Hpre)%He. exists l. by rewrite Hl.
  - destruct (wake_counts (workers s)) as [Hz Hex]. split; simpl; auto. rewrite Hex. done.
  - counts Hi Waiting. unfold workerThread in E.
    destruct (stop s) eqn:Estop, (tasks s) as [|y tl] eqn:Et; try done.
    split; simpl; rewrite ?Et, ?Estop; auto; try done; try lia.
    intros Hx. apply He. lia.
  - counts Hi Exited. unfold workerThread in E.
    destruct (stop s) eqn:Estop, (tasks s) as [|y tl] eqn:Et; try done.
    split; simpl; rewrite ?Et, ?Estop; auto; try done; try lia.
    + intros _. destruct (Hs eq_refl); [left; lia|by right].
    + intros _. destruct Hst as [[l Hl] _]; [done|]. exists l. split; [done|].
      rewrite app_nil_r in Hf. rewrite <-Hf. by apply Hp.
  - counts Hi (Running x). unfold workerThread in E.
    destruct (tasks s) as [|y tl] eqn:Et; [by destruct (stop s)|].
    assert (y = x ∧ tl = ts) as [-> ->] by (destruct (stop s); by injection E as -> ->).
    split; simpl; auto.
    + by rewrite Hf, <-app_assoc.
    + simpl in Hw. lia.
    + intros Hstp. destruct (Hs Hstp); [left; lia|by right].
    + intros Hx. destruct He as (l & Hl & Hpre); [lia|]. exists l. split; [done|]. by apply prefix_app_r.
  - counts Hi Testing. split; simpl; auto; try lia.
    + intros Hstp. destruct (Hs Hstp); [left; lia|by right].
    + intros Hx. apply He. lia.
  - counts Hi Testing. split; simpl; auto; try lia.
    + intros Hstp. destruct (Hs Hstp); [left; lia|by right].
    + intros Hx. apply He. lia.
Qed.

Lemma wq_reachable_inv s0 s : inv s0 → rtc step s0 s → inv s.
Proof. intros H0 Hr. induction Hr as [|s1 s2 s3 Hs _ IH]; [done|]. apply IH. by eapply wq_inv_step. Qed.

Lemma new_ThreadPool_inv n : inv (new_ThreadPool n).
Proof. apply wq_inv_initial. apply Forall_replicate. done. Qed.

(** ** The properties *)

Lemma testing_steps s i : workers s !! i = Some Testing → ∃ s', step s s'.
Proof.
  intros Hi. destruct (workerThread (stop s) (tasks s)) as [| |x ts|] eqn:E.
  - eexists. by apply (step_waits s i).
  - eexists. by apply (step_exits s i).
  - eexists. by apply (step_takes s i x ts).
  - by destruct (workerThread_no_fault (stop s) (tasks s)).
Qed.

(** C12: in every interleaving, the jobs taken are the jobs pushed, each once and
    in the order of the pushes; and when some worker of a stopped pool has
    exited, every job that was pushed before the stop has been taken, so the
    destructor's joins wait for all of them. *)
Theorem ThreadPool_runs_every_job n s :
  rtc step (new_ThreadPool n) s →
  pushed s = taken s ++ tasks s ∧
  (∀ i, workers s !! i = Some Exited →
     ∃ l, at_stop s = Some l ∧ l `prefix_of` taken s).
Proof.
  intros Hr. pose proof (wq_reachable_inv _ _ (new_ThreadPool_inv n) Hr) as Hinv.
  split; [by apply inv_fifo|]. intros i Hi. apply (inv_exited s Hinv).
  by apply (countb_pos _ _ i Exited).
Qed.

(** C13: no wake-up is lost although producers notify after releasing the mutex:
    when no notification is pending and no worker is awake outside a job, a
    worker that waits means that the queue is empty and not stopped. *)
Theorem ThreadPool_no_lost_wakeup n s :
  rtc step (new_ThreadPool n) s →
  notifies s = 0%nat → stopping s = false → countb is_testing (workers s) = 0%nat →
  countb is_waiting (workers s) ≠ 0%nat → tasks s = [] ∧ stop s = false.
Proof.
  intros Hr Hn Hst Ht Hw. pose proof (wq_reachable_inv _ _ (new_ThreadPool_inv n) Hr) as Hinv.
  split.
  - destruct (inv_wake s Hinv) as [?|Hl]; [done|]. destruct (tasks s); [done|]. simpl in Hl. lia.
  - destruct (stop s) eqn:E; [|done]. destruct (inv_stop s Hinv E) as [?|?]; [done|congruence].
Qed.
End work_queue.

Arguments Waiting {T}.
Arguments Testing {T}.
Arguments Exited {T}.

(** One worker, one job: the worker waits, the job is pushed and notified. *)
Definition demo_running : system :=
  mkSystem [] false [Running 5] 0 false [5] [5] None.

Lemma demo_running_reachable : rtc step (new_ThreadPool 0) demo_running.
Proof.
  apply (rtc_l _ _ (mkSystem [5] false [Testing] 1 false [5] [] None)).
  { apply (step_push (new_ThreadPool 0) 5). }
  apply (rtc_l _ _ (mkSystem [] false [Running 5] 1 false [5] [5] None)).
  { by apply (step_takes (mkSystem [5] false [Testing] 1 false [5] [] None) 0 5 []). }
  apply rtc_once. apply (step_notify (mkSystem [] false [Running 5] 1 false [5] [5] None) 0); [done|].
  by apply notify_none.
Qed.

Lemma ThreadPool_runs_every_job_witness :
  pushed demo_running = taken demo_running ++ tasks demo_running.
Proof. apply (ThreadPool_runs_every_job 0 demo_running). exact demo_running_reachable. Defined.

Definition demo_waiting : @system Z := mkSystem [] false [Waiting] 0 false [] [] None.

Lemma demo_waiting_reachable : rtc step (new_ThreadPool 1) demo_waiting.
Proof. apply rtc_once. by apply (step_waits (new_ThreadPool 1) 0). Qed.

Lemma ThreadPool_no_lost_wakeup_witness : @nil Z = [] ∧ false = false.
Proof.
  apply (ThreadPool_no_lost_wakeup 1 demo_waiting); [exact demo_waiting_reachable|reflexivity..|].
  vm_compute. discriminate.
Defined.

(** The lambda version accepts a pool of no workers: whatever is pushed
    stays in the queue forever. *)
Theorem ThreadPool_lambda_zero_workers {T} (s : @system T) :
  rtc step (new_ThreadPool_lambda 0) s → taken s = [] ∧ tasks s = pushed s.
Proof.
  intros Hr. enough (workers s = [] ∧ taken s = [] ∧ tasks s = pushed s) as [_ ?] by done.
  assert (workers (@new_ThreadPool_lambda T 0) = [] ∧ taken (@new_ThreadPool_lambda T 0) = [] ∧
          tasks (@new_ThreadPool_lambda T 0) = pushed (@new_ThreadPool_lambda T 0)) as H0 by done.
  revert H0. induction Hr as [s0|s1 s2 s3 Hs _ IH]; intros (Hw & Ht & Hq); [done|]. apply IH. clear IH.
  destruct Hs as [s x|s n ws Hn Hws|s|s Hstop|s i Hi E|s i Hi E|s i x ts Hi E|s i x Hi|s i Hi];
    simpl in *; rewrite ?Hw in *; try done.
  - unfold enqueue. rewrite Hq. done.
  - by destruct Hws.
Qed.

Lemma ThreadPool_lambda_zero_workers_witness :
  taken (mkSystem [7] false [] 1 false [7] [] None) = [].
Proof.
  apply (ThreadPool_lambda_zero_workers (mkSystem [7] false [] 1 false [7] [] None)).
  apply rtc_once. apply (step_push (new_ThreadPool_lambda 0) 7).
Defined.
