(* ===== verification/RandomSet.v ===== *)
(** * pureStorage/getRandom.cpp

    [CustomHashTable] (separate chaining over 100 buckets) and [RandomizedSet],
    which keeps the values in a vector and their positions in the table.  A
    chain is owned by its bucket, so it is the list of its nodes from the head.
    The set is verified against the class [IntTable] of what it uses of the
    table; the table's own lemmas discharge the class.  The random generator is
    a parameter: a function from its state and two bounds to a number and the
    next state. *)

From stdpp Require Import base list gmap sets strings numbers.
From Stdlib Require Import ZArith Lia.
From S2P Require Import Prelude.

(** ** The hash table *)

Record Node := mkNode { key : Z; value : Z }.

Definition CAPACITY : Z := 100.

Record CustomHashTable := mkTable { buckets : list (list Node); size : Z }.

Definition new_CustomHashTable : CustomHashTable :=
  mkTable (vresize [] (Z.to_nat CAPACITY) []) CAPACITY.

(** [abs(key) % CAPACITY]: [abs(INT_MIN)] overflows. *)
Definition hash (k : Z) : outcome Z := a ← int (Z.abs k); Ret (Z.rem a CAPACITY).

(** The search loop of [insert]: the chain with the value replaced, if the key
    is there. *)
Fixpoint update_value (k v : Z) (current : list Node) : option (list Node) :=
  match current with
  | [] => None
  | n :: next =>
      if key n =? k then Some (mkNode (key n) v :: next)
      else (λ c, n :: c) <$> update_value k v next
  end.

Definition insert_key (k v : Z) (t : CustomHashTable) : outcome CustomHashTable :=
  index ← hash k;
  current ← vget (buckets t) index;
  let chain := match update_value k v current with
               | Some c => c
               | None => mkNode k v :: current
               end in
  bs ← vset (buckets t) index chain;
  Ret (mkTable bs (size t)).

Fixpoint find_chain (k : Z) (current : list Node) : option Z :=
  match current with
  | [] => None
  | n :: next => if key n =? k then Some (value n) else find_chain k next
  end.

(** [Some] for true with the value stored in the out parameter. *)
Definition find (k : Z) (t : CustomHashTable) : outcome (option Z) :=
  index ← hash k;
  current ← vget (buckets t) index;
  Ret (find_chain k current).

Fixpoint erase_chain (k : Z) (current : list Node) : option (list Node) :=
  match current with
  | [] => None
  | n :: next =>
      if key n =? k then Some next else (λ c, n :: c) <$> erase_chain k next
  end.

Definition erase (k : Z) (t : CustomHashTable) : outcome (bool * CustomHashTable) :=
  index ← hash k;
  current ← vget (buckets t) index;
  match erase_chain k current with
  | Some c => bs ← vset (buckets t) index c; Ret (true, mkTable bs (size t))
  | None => Ret (false, t)
  end.

(** ** What the set uses of the table *)

(** The keys that the table can hash. *)
Definition key_ok (k : Z) : Prop := INT_MIN < k ≤ INT_MAX.

Class IntTable (H : Type) := {
  t_new : H;
  t_insert : Z → Z → H → outcome H;
  t_find : Z → H → outcome (option Z);
  t_erase : Z → H → outcome (bool * H);
  t_model : H → Z → option Z;
  t_wf : H → Prop;
  t_new_spec : t_wf t_new ∧ ∀ k, t_model t_new k = None;
  t_find_spec h k : t_wf h → key_ok k → t_find k h = Ret (t_model h k);
  t_insert_spec h k v : t_wf h → key_ok k →
    ∃ h', t_insert k v h = Ret h' ∧ t_wf h' ∧
      ∀ k', t_model h' k' = if decide (k' = k) then Some v else t_model h k';
  t_erase_spec h k : t_wf h → key_ok k →
    ∃ h', t_erase k h = Ret (bool_decide (is_Some (t_model h k)), h') ∧ t_wf h' ∧
      ∀ k', t_model h' k' = if decide (k' = k) then None else t_model h k';
}.

(** ** The randomized set *)

Section randomized_set.
Context {H : Type} `{IntTable H}.

Record RandomizedSet := mkSet { vals : list Z; indexMap : H }.

Definition new_RandomizedSet : RandomizedSet := mkSet [] t_new.

Definition insert (val : Z) (s : RandomizedSet) : outcome (bool * RandomizedSet) :=
  found ← t_find val (indexMap s);
  match found with
  | Some _ => Ret (false, s)
  | None =>
      im ← t_insert val (to_int (Z.of_nat (length (vals s)))) (indexMap s);
      Ret (true, mkSet (vals s ++ [val]) im)
  end.

Definition remove (val : Z) (s : RandomizedSet) : outcome (bool * RandomizedSet) :=
  found ← t_find val (indexMap s);
  match found with
  | None => Ret (false, s)
  | Some index =>
      lastVal ← of_option OutOfBounds (list.last (vals s));
      l ← vset (vals s) index lastVal;
      im ← t_insert lastVal index (indexMap s);
      let l := take (length l - 1) l in
      r ← t_erase val im;
      Ret (true, mkSet l (snd r))
  end.

(** [uniform_int_distribution<> dis(0, list.size() - 1); list[dis(gen)]]; the
    distribution requires [a <= b]. *)
Definition getRandom {G} (dis : Z → Z → G → Z * G) (gen : G) (s : RandomizedSet)
    : outcome (Z * G) :=
  let b := to_int (u64 (Z.of_nat (length (vals s)) - 1)) in
  _ ← check (0 <=? b) (Exn "uniform_int_distribution: a > b");
  let r := dis 0 b gen in
  x ← vget (vals s) (fst r);
  Ret (x, snd r).

(** *** The representation invariant *)

(** The table maps each value of the vector to its position, and nothing else. *)
Record set_wf (s : RandomizedSet) : Prop := {
  wf_table : t_wf (indexMap s);
  wf_model k i : t_model (indexMap s) k = Some i ↔
    0 ≤ i ∧ vals s !! Z.to_nat i = Some k;
  wf_keys : Forall key_ok (vals s);
}.

Lemma wf_NoDup s : set_wf s → NoDup (vals s).
Proof.
  intros Hwf. apply NoDup_alt. intros i j x Hi Hj.
  pose proof (proj2 (wf_model s Hwf x (Z.of_nat i))) as Ei.
  pose proof (proj2 (wf_model s Hwf x (Z.of_nat j))) as Ej.
  rewrite Nat2Z.id in Ei, Ej. rewrite Ei in Ej by (split; [lia|done]).
  assert (Some (Z.of_nat i) = Some (Z.of_nat j)) as E by (apply Ej; split; [lia|done]).
  injection E. lia.
Qed.

Lemma wf_member s k : set_wf s → is_Some (t_model (indexMap s) k) ↔ k ∈ vals s.
Proof.
  intros Hwf. rewrite list_elem_of_lookup. split.
  - intros [i Hi]. apply (wf_model s Hwf) in Hi as [_ Hi]. eauto.
  - intros [i Hi]. exists (Z.of_nat i). apply (wf_model s Hwf). rewrite Nat2Z.id. split; [lia|done].
Qed.

Lemma new_wf : set_wf new_RandomizedSet.
Proof.
  destruct t_new_spec as [Hwf Hm]. split; simpl; [done| |constructor].
  intros k i. rewrite Hm. split; [done|]. by intros [_ ?].
Qed.

Lemma to_int_small z : 0 ≤ z < 2 ^ 31 → to_int z = z.
Proof. intros Hz. unfold to_int. rewrite Z.mod_small; lia. Qed.

Lemma insert_spec val s : set_wf s → key_ok val → Z.of_nat (length (vals s)) < 2 ^ 31 →
  ∃ s', insert val s = Ret (bool_decide (val ∉ vals s), s') ∧ set_wf s' ∧
    vals s' = if decide (val ∈ vals s) then vals s else vals s ++ [val].
Proof.
  intros Hwf Hk Hlen. unfold insert. rewrite t_find_spec; [|apply Hwf|done]. simpl.
  pose proof (wf_member s val Hwf) as Hmem. destruct (t_model _ val) as [i|] eqn:E.
  - assert (val ∈ vals s) by (apply Hmem; eauto). exists s.
    rewrite bool_decide_false, decide_True by tauto. done.
  - assert (val ∉ vals s) by (intros Hv; apply Hmem in Hv as [? ?]; congruence).
    destruct (t_insert_spec (indexMap s) val (Z.of_nat (length (vals s)))) as (h' & Ei & Hh & Hm);
      [apply Hwf|done|].
    rewrite to_int_small by lia. rewrite Ei. simpl. eexists.
    rewrite bool_decide_true, decide_False by done. split; [done|]. split; [|done].
    split; simpl; [done| |apply Forall_app_2; [apply Hwf|by constructor]].
    intros k i. rewrite Hm. case_decide as Hkv.
    + subst k. split.
      * intros [= <-]. split; [lia|]. rewrite Nat2Z.id, lookup_app_r, Nat.sub_diag by lia. done.
      * intros [Hi Hl]. apply lookup_snoc_Some in Hl as [[Hl _]|[Hl _]].
        { by apply list_elem_of_lookup_2 in Hl. }
        f_equal. lia.
    + rewrite (wf_model s Hwf). split.
      * intros [Hi Hl]. split; [done|]. by apply lookup_app_l_Some.
      * intros [Hi Hl]. split; [done|]. apply lookup_snoc_Some in Hl as [[Hl _]|[_ Hl]]; [done|congruence].
Qed.

(** The vector after a removal: the last element moved into the hole. *)
Definition swap_remove (i : nat) (l : list Z) (x : Z) : list Z :=
  take (length l - 1) (<[i := x]> l).

Lemma NoDup_index {A} (l : list A) i j x :
  NoDup l → l !! i = Some x → l !! j = Some x → i = j.
Proof. intros Hnd Hi Hj. by eapply NoDup_lookup. Qed.

Lemma swap_remove_lookup l0 x i val k j :
  NoDup (l0 ++ [x]) → (l0 ++ [x]) !! i = Some val →
  swap_remove i (l0 ++ [x]) x !! j = Some k ↔
  k ≠ val ∧ (if decide (k = x) then j = i else (l0 ++ [x]) !! j = Some k).
Proof.
  intros Hnd Hi. pose proof (lookup_lt_Some _ _ _ Hi) as Hlt.
  assert ((l0 ++ [x]) !! length l0 = Some x) as Hx by by rewrite lookup_app_r, Nat.sub_diag.
  unfold swap_remove. rewrite length_app in *. simpl in *.
  rewrite Nat.add_sub, lookup_take_Some, list_lookup_insert_Some, length_app. simpl.
  split.
  - intros [[(-> & -> & _)|[Hne Hj]] Hjl].
    + rewrite decide_True by done. split; [|done]. intros ->.
      pose proof (NoDup_index _ _ _ _ Hnd Hi Hx). lia.
    + split; [intros ->; by pose proof (NoDup_index _ _ _ _ Hnd Hi Hj)|].
      case_decide; [|done]. subst k. pose proof (NoDup_index _ _ _ _ Hnd Hj Hx). lia.
  - intros [Hk Hj]. case_decide as Hkx.
    + subst k j. assert (i ≠ length l0) by (intros ->; congruence).
      split; [left; split_and!; [done..|lia]|lia].
    + assert (i ≠ j) by (intros ->; congruence). assert (j ≠ length l0) by (intros ->; congruence).
      apply lookup_lt_Some in Hj as Hjl. rewrite length_app in Hjl. simpl in Hjl.
      split; [by right|lia].
Qed.

Lemma remove_spec val s : set_wf s → key_ok val →
  ∃ s', remove val s = Ret (bool_decide (val ∈ vals s), s') ∧ set_wf s' ∧
    (∀ x, x ∈ vals s' ↔ x ∈ vals s ∧ x ≠ val).
Proof.
  intros Hwf Hk. unfold remove. rewrite t_find_spec; [|apply Hwf|done]. simpl.
  pose proof (wf_member s val Hwf) as Hmem. pose proof (wf_NoDup s Hwf) as Hnd.
  destruct (t_model _ val) as [i|] eqn:E; simpl; last first.
  { assert (val ∉ vals s) by (intros Hv; apply Hmem in Hv as [? ?]; congruence).
    exists s. rewrite bool_decide_false by done. split_and!; [done..|]. naive_solver. }
  rewrite bool_decide_true by (apply Hmem; eauto). clear Hmem.
  apply (wf_model s Hwf) in E as [Hi0 Hi].
  destruct (exists_last_or_nil (vals s)) as [Hl|(l0 & x & Hl)]; [by rewrite Hl in Hi|].
  pose proof (lookup_lt_Some _ _ _ Hi) as Hlt.
  assert (key_ok x) as Hkx.
  { eapply (Forall_lookup_1 _ (vals s)); [apply Hwf|]. rewrite Hl. by rewrite lookup_app_r, Nat.sub_diag. }
  pose proof (wf_model s Hwf) as Hm. pose proof (wf_keys s Hwf) as Hks.
  rewrite Hl in *. rewrite last_snoc. simpl. rewrite vset_total by (rewrite ?length_app in *; simpl in *; lia). simpl.
  destruct (t_insert_spec (indexMap s) x i) as (h1 & E1 & W1 & M1); [apply Hwf|done|].
  rewrite E1. simpl. destruct (t_erase_spec h1 val) as (h2 & E2 & W2 & M2); [done..|].
  rewrite E2. simpl. rewrite length_insert. fold (swap_remove (Z.to_nat i) (l0 ++ [x]) x).
  pose proof (λ k j, swap_remove_lookup l0 x (Z.to_nat i) val k j Hnd Hi) as Hl'.
  eexists. split; [done|]. split; [split; simpl; [done| |]|simpl].
  - intros k j. rewrite M2, M1, Hl'. repeat case_decide; subst; [naive_solver..| |].
    + split; [intros [= <-]; done|]. intros (? & _ & ?). f_equal. lia.
    + rewrite Hm. naive_solver.
  - apply Forall_lookup_2. intros j k [_ Hd]%Hl'. case_decide; [by subst|].
    by eapply Forall_lookup_1.
  - intros k. rewrite !list_elem_of_lookup. setoid_rewrite Hl'. case_decide; [|naive_solver].
    subst k. split; [|naive_solver]. intros (j & ? & ?). split; [|done].
    exists (length l0). by rewrite lookup_app_r, Nat.sub_diag.
Qed.

(** *** Runs of the set *)

Inductive op := Insert (val : Z) | Remove (val : Z).

Definition op_val (o : op) : Z := match o with Insert v => v | Remove v => v end.

Definition apply_op (o : op) : RandomizedSet → outcome (bool * RandomizedSet) :=
  match o with Insert v => insert v | Remove v => remove v end.

Fixpoint run (os : list op) (s : RandomizedSet) : outcome (list bool * RandomizedSet) :=
  match os with
  | [] => Ret ([], s)
  | o :: os =>
      r ← apply_op o s;
      rs ← run os (snd r);
      Ret (fst r :: fst rs, snd rs)
  end.

(** The specification: a finite set of numbers. *)
Definition spec_op (o : op) (X : gset Z) : bool * gset Z :=
  match o with
  | Insert v => (bool_decide (v ∉ X), {[v]} ∪ X)
  | Remove v => (bool_decide (v ∈ X), X ∖ {[v]})
  end.

Fixpoint spec_run (os : list op) (X : gset Z) : list bool * gset Z :=
  match os with
  | [] => ([], X)
  | o :: os =>
      let r := spec_op o X in
      let rs := spec_run os (snd r) in (fst r :: fst rs, snd rs)
  end.

Lemma apply_op_spec o s X : set_wf s → key_ok (op_val o) →
  Z.of_nat (length (vals s)) < 2 ^ 31 → (∀ x, x ∈ vals s ↔ x ∈ X) →
  ∃ s', apply_op o s = Ret (fst (spec_op o X), s') ∧ set_wf s' ∧
    (∀ x, x ∈ vals s' ↔ x ∈ snd (spec_op o X)) ∧ (length (vals s') ≤ S (length (vals s)))%nat.
Proof.
  intros Hwf Hk Hlen HX. destruct o as [v|v]; simpl in *.
  - destruct (insert_spec v s) as (s' & E & Hwf' & Hv); [done..|]. exists s'. rewrite E, Hv.
    split; [by rewrite (bool_decide_ext _ (v ∉ X)) by (by rewrite HX)|]. split; [done|].
    case_decide; split; intros; rewrite ?length_app; simpl; try lia; set_solver.
  - destruct (remove_spec v s) as (s' & E & Hwf' & Hv); [done..|]. exists s'. rewrite E.
    split; [by rewrite (bool_decide_ext _ (v ∈ X)) by (by rewrite HX)|]. split; [done|].
    split; [set_solver|]. transitivity (length (vals s)); [|lia].
    apply submseteq_length, NoDup_submseteq; [by apply wf_NoDup|]. set_solver.
Qed.

Lemma run_spec os : ∀ s X, set_wf s → Forall (key_ok ∘ op_val) os →
  Z.of_nat (length (vals s) + length os) < 2 ^ 31 → (∀ x, x ∈ vals s ↔ x ∈ X) →
  ∃ s', run os s = Ret (fst (spec_run os X), s') ∧ set_wf s' ∧
    (∀ x, x ∈ vals s' ↔ x ∈ snd (spec_run os X)) ∧
    Z.of_nat (length (vals s')) < 2 ^ 31.
Proof.
  induction os as [|o os IH]; intros s X Hwf Hks Hlen HX; simpl in *.
  { exists s. split_and!; try done. lia. }
  apply Forall_cons_1 in Hks as [Hk Hks].
  destruct (apply_op_spec o s X) as (s1 & E1 & W1 & X1 & L1); [done..|lia|done|].
  destruct (IH s1 (snd (spec_op o X))) as (s2 & E2 & R2); [done..|lia|done|].
  exists s2. rewrite E1. simpl. rewrite E2. done.
Qed.

(** The generator's contract: a number within the bounds. *)
Definition in_bounds {G} (dis : Z → Z → G → Z * G) : Prop :=
  ∀ a b g, a ≤ b → a ≤ fst (dis a b g) ≤ b.

Lemma getRandom_spec {G} (dis : Z → Z → G → Z * G) g s :
  set_wf s → vals s ≠ [] → Z.of_nat (length (vals s)) < 2 ^ 31 → in_bounds dis →
  ∃ x, getRandom dis g s = Ret (x, snd (dis 0 (Z.of_nat (length (vals s)) - 1) g)) ∧
    vals s !! Z.to_nat (fst (dis 0 (Z.of_nat (length (vals s)) - 1) g)) = Some x.
Proof.
  intros Hwf Hne Hlen Hdis. unfold getRandom.
  assert (0 < length (vals s))%nat by (destruct (vals s); simpl; [done|lia]).
  rewrite u64_small, to_int_small by lia.
  destruct (Z.leb_spec 0 (Z.of_nat (length (vals s)) - 1)); [simpl|lia].
  specialize (Hdis 0 (Z.of_nat (length (vals s)) - 1) g ltac:(lia)).
  destruct (vget_total (vals s) (fst (dis 0 (Z.of_nat (length (vals s)) - 1) g)))
    as (x & Ex & Hx); [lia|]. rewrite Ex. eauto.
Qed.

Lemma getRandom_empty {G} (dis : Z → Z → G → Z * G) g s : vals s = [] →
  getRandom dis g s = Err (Exn "uniform_int_distribution: a > b").
Proof. intros E. unfold getRandom. by rewrite E. Qed.
End randomized_set.

(** ** The table implements the interface *)

Lemma hash_Ret k : key_ok k → hash k = Ret (Z.abs k mod 100) ∧ 0 ≤ Z.abs k mod 100 < 100.
Proof.
  intros [Hlo Hhi]. unfold hash, int, int_ok, INT_MIN, INT_MAX, CAPACITY in *.
  rewrite (proj2 (Z.leb_le _ _)), (proj2 (Z.leb_le _ _)) by lia. simpl.
  rewrite Z.rem_mod_nonneg by lia. split; [done|]. by apply Z.mod_pos_bound.
Qed.

(** The chain that serves a key. *)
Definition chain_of (t : CustomHashTable) (k : Z) : list Node :=
  buckets t !!! Z.to_nat (Z.abs k mod 100).

Definition table_model (t : CustomHashTable) (k : Z) : option Z := find_chain k (chain_of t k).

Definition table_wf (t : CustomHashTable) : Prop :=
  length (buckets t) = 100%nat ∧ Forall (λ c, NoDup (key <$> c)) (buckets t).

Lemma update_value_spec k v c : NoDup (key <$> c) →
  let c' := match update_value k v c with Some c' => c' | None => mkNode k v :: c end in
  NoDup (key <$> c') ∧
  ∀ k', find_chain k' c' = if decide (k' = k) then Some v else find_chain k' c.
Proof.
  intros Hnd. destruct (update_value k v c) as [c'|] eqn:E; simpl.
  - assert (key <$> c' = key <$> c) as Hk.
    { revert c' E. clear Hnd. induction c as [|n c IH]; intros c' E; simpl in E; [done|].
      destruct (Z.eqb_spec (key n) k); [by simplify_eq|].
      destruct (update_value k v c); simplify_eq/=. by rewrite (IH _ eq_refl). }
    rewrite Hk. split; [done|]. clear Hnd Hk. revert c' E.
    induction c as [|n c IH]; intros c' E k'; simpl in E; [done|].
    destruct (Z.eqb_spec (key n) k); simplify_eq/=.
    + zcases; case_decide; congruence.
    + destruct (update_value k v c) as [c1|]; simplify_eq/=. rewrite (IH c1 eq_refl).
      zcases; case_decide; congruence.
  - assert (k ∉ key <$> c).
    { clear Hnd. induction c as [|n c IH]; simpl in *; [set_solver|].
      destruct (Z.eqb_spec (key n) k); [done|]. destruct (update_value k v c); [done|].
      apply not_elem_of_cons. split; [congruence|]. by apply IH. }
    split; [by constructor|]. intros k'. zcases; case_decide; congruence.
Qed.

Lemma find_chain_None k c : find_chain k c = None ↔ k ∉ key <$> c.
Proof.
  induction c as [|n c IH]; simpl; [set_solver|]. rewrite not_elem_of_cons.
  destruct (Z.eqb_spec (key n) k); [naive_solver|]. rewrite IH. naive_solver.
Qed.

Lemma erase_chain_spec k c : NoDup (key <$> c) →
  match erase_chain k c with
  | Some c' => is_Some (find_chain k c) ∧ NoDup (key <$> c') ∧ (key <$> c') ⊆ (key <$> c) ∧
      ∀ k', find_chain k' c' = if decide (k' = k) then None else find_chain k' c
  | None => find_chain k c = None
  end.
Proof.
  induction c as [|n c IH]; csimpl; [done|]. intros [Hn Hnd]%list.NoDup_cons.
  specialize (IH Hnd). destruct (Z.eqb_spec (key n) k) as [Hk|Hk].
  - split_and!; [eauto|done|set_solver|]. intros k'. case_decide; subst.
    + by apply find_chain_None.
    + zcases; [congruence|done].
  - destruct (erase_chain k c) as [c'|]; csimpl; [|done].
    destruct IH as (Hs & Hnd' & Hsub & Hf). split_and!; [done| |set_solver|].
    + apply list.NoDup_cons. split; [set_solver|done].
    + intros k'. rewrite Hf. zcases; case_decide; congruence.
Qed.

Lemma chain_lookup t k : table_wf t → key_ok k →
  vget (buckets t) (Z.abs k mod 100) = Ret (chain_of t k) ∧ NoDup (key <$> chain_of t k).
Proof.
  intros [Hlen Hnd] Hk. destruct (hash_Ret k Hk) as [_ Hb].
  destruct (vget_total (buckets t) (Z.abs k mod 100)) as (c & E & Hc); [lia|].
  unfold chain_of. rewrite (list_lookup_total_correct _ _ _ Hc). split; [done|].
  by eapply (Forall_lookup_1 _ _ _ _ Hnd) in Hc.
Qed.

(** Replacing the chain of [k] by one that agrees with it on all keys but [k]. *)
Lemma table_set t k c r : table_wf t → key_ok k → NoDup (key <$> c) →
  (∀ k', find_chain k' c = if decide (k' = k) then r else find_chain k' (chain_of t k)) →
  ∃ bs, vset (buckets t) (Z.abs k mod 100) c = Ret bs ∧ table_wf (mkTable bs (size t)) ∧
    ∀ k', table_model (mkTable bs (size t)) k' = if decide (k' = k) then r else table_model t k'.
Proof.
  intros [Hlen Hnd] Hk Hc Hf. destruct (hash_Ret k Hk) as [_ Hb].
  eexists. rewrite vset_total by lia. split; [done|]. split.
  - split; simpl; [by rewrite length_insert|]. by apply Forall_insert.
  - intros k'. unfold table_model, chain_of in *. simpl.
    destruct (decide (Z.to_nat (Z.abs k' mod 100) = Z.to_nat (Z.abs k mod 100))) as [->|Hne].
    + rewrite list_lookup_total_insert_eq by lia. apply Hf.
    + rewrite list_lookup_total_insert_ne by done. case_decide; [by subst|done].
Qed.

#[export] Program Instance table_IntTable : IntTable CustomHashTable := {|
  t_new := new_CustomHashTable;
  t_insert := insert_key;
  t_find := find;
  t_erase := erase;
  t_model := table_model;
  t_wf := table_wf;
|}.
Next Obligation.
  split; [split; [done|by repeat constructor]|]. intros k. unfold table_model, chain_of.
  unfold new_CustomHashTable. simpl buckets. rewrite vresize_nil, lookup_total_replicate_2; [done|].
  pose proof (Z.mod_pos_bound (Z.abs k) 100). unfold CAPACITY. lia.
Qed.
Next Obligation.
  intros h k Hwf Hk. unfold find. rewrite (proj1 (hash_Ret k Hk)). simpl.
  by rewrite (proj1 (chain_lookup h k Hwf Hk)).
Qed.
Next Obligation.
  intros h k v Hwf Hk. unfold insert_key. rewrite (proj1 (hash_Ret k Hk)). simpl.
  destruct (chain_lookup h k Hwf Hk) as [-> Hnd]. simpl.
  destruct (update_value_spec k v _ Hnd) as [Hnd' Hf].
  destruct (table_set h k _ (Some v) Hwf Hk Hnd' Hf) as (bs & -> & Hr). eexists. by split.
Qed.
Next Obligation.
  intros h k Hwf Hk. unfold erase. rewrite (proj1 (hash_Ret k Hk)). simpl.
  destruct (chain_lookup h k Hwf Hk) as [-> Hnd]. simpl.
  pose proof (erase_chain_spec k _ Hnd) as Hs. destruct (erase_chain k _) as [c|].
  - destruct Hs as (Hs & Hnd' & _ & Hf).
    destruct (table_set h k c None Hwf Hk Hnd' Hf) as (bs & -> & Hr). simpl. eexists.
    rewrite bool_decide_true by done. by split.
  - exists h. rewrite bool_decide_false; [|unfold table_model; rewrite Hs; by intros [? ?]].
    split_and!; [done..|]. intros k'. case_decide; [by subst|done].
Qed.

(** ** The properties *)

(** C15: every run of insertions and removals on the real table answers and
    leaves the values of a mathematical set, the vector holds each member
    exactly once, and [getRandom] on a non-empty set returns the member that
    the generator picks; keys are [int]s other than [INT_MIN]. *)
Theorem RandomizedSet_is_set {G} (dis : Z → Z → G → Z * G) g os :
  Forall (key_ok ∘ op_val) os → Z.of_nat (length os) < 2 ^ 31 → in_bounds dis →
  ∃ s : RandomizedSet (H := CustomHashTable),
    run os new_RandomizedSet = Ret (fst (spec_run os ∅), s) ∧
    NoDup (vals s) ∧ list_to_set (vals s) = snd (spec_run os ∅) ∧
    match vals s with
    | [] => getRandom dis g s = Err (Exn "uniform_int_distribution: a > b")
    | _ => ∃ x, fst <$> getRandom dis g s = Ret x ∧ x ∈ snd (spec_run os ∅) ∧
        vals s !! Z.to_nat (fst (dis 0 (Z.of_nat (length (vals s)) - 1) g)) = Some x
    end.
Proof.
  intros Hks Hlen Hdis.
  destruct (run_spec os new_RandomizedSet ∅ new_wf Hks) as (s & E & Hwf & HX & Hl);
    [simpl; lia|set_solver|].
  exists s. split; [done|]. split; [by apply wf_NoDup|]. split; [set_solver|].
  destruct (vals s) as [|y l] eqn:Ev; [by apply getRandom_empty|]. rewrite <- Ev in *.
  destruct (getRandom_spec dis g s Hwf) as (x & Ex & Hx); [by rewrite Ev|done..|].
  exists x. rewrite Ex. split; [done|]. split; [|done].
  apply HX. by apply list_elem_of_lookup_2 in Hx.
Qed.

Definition demo_ops : list op := [Insert 1; Insert 101; Insert (-1); Insert 1; Remove 1; Remove 7].

(** A generator that returns the middle of the range. *)
Definition mid (a b : Z) (g : unit) : Z * unit := ((a + b) / 2, g).

Lemma RandomizedSet_is_set_witness :
  ∃ s : RandomizedSet (H := CustomHashTable),
    run demo_ops new_RandomizedSet = Ret ([true; true; true; false; true; false], s).
Proof.
  destruct (RandomizedSet_is_set mid tt demo_ops) as (s & E & _).
  - repeat constructor; vm_compute; try discriminate.
  - reflexivity.
  - intros a b g Hab. simpl. split; [apply Z.div_le_lower_bound|apply Z.div_le_upper_bound]; lia.
  - exists s. etransitivity; [exact E|]. reflexivity.
Defined.

(** [abs(INT_MIN)] overflows: the smallest [int] cannot be inserted. *)
Lemma hash_INT_MIN : hash INT_MIN = Err SignedOverflow.
Proof. reflexivity. Qed.
