(* ===== verification/Uuid.v ===== *)
(** * bl-ble/convertUUIDStrtoInt.cpp and convertUUIDStrtoInt.c

    The two parsers of 128-bit UUIDs and their printers.  A [char] is the [Z]
    in [-128 .. 128), a string the list of its characters. *)

From stdpp Require Import base list strings numbers.
From Stdlib Require Import ZArith Lia.
From S2P Require Import Prelude.

(** The character codes the sources name. *)
Definition ch0 : Z := 48.
Definition ch9 : Z := 57.
Definition cha : Z := 97.
Definition chf : Z := 102.
Definition chA : Z := 65.
Definition chF : Z := 70.

Definition between (lo c hi : Z) : bool := (lo <=? c) && (c <=? hi).

(** [isxdigit] of the C locale. *)
Definition isxdigit (c : Z) : bool :=
  between ch0 c ch9 || between cha c chf || between chA c chF.

(** ** The C++ version *)

Record UUID128 := mkUUID { hi : Z; lo : Z }.

Definition hexNibble (c : Z) : outcome Z :=
  if between ch0 c ch9 then Ret (u8 (c - ch0)) else
  if between cha c chf then Ret (u8 (c - cha + 10)) else
  if between chA c chF then Ret (u8 (c - chA + 10)) else
  Err (Exn "Invalid hex character in UUID").

(** [for (i; n times) acc = (acc << 4) | hexNibble(hex[i])] *)
Fixpoint nibble_loop (n : nat) (i : Z) (hex : list Z) (acc : Z) : outcome Z :=
  match n with
  | O => Ret acc
  | S n =>
      c ← vget hex i;
      d ← hexNibble c;
      nibble_loop n (i + 1) hex (Z.lor (u64 (Z.shiftl acc 4)) d)
  end.

(** [Some] for true with the value stored; [catch (...)] returns false, which
    does not catch an access out of bounds. *)
Definition parseUUID128 (input : list Z) : outcome (option UUID128) :=
  let hex := filter (λ c, isxdigit (u8 c) = true) input in
  if negb (Z.of_nat (length hex) =? 32) then Ret None else
  match (h ← nibble_loop 16 0 hex 0; l ← nibble_loop 16 16 hex 0; Ret (mkUUID h l)) with
  | Ret u => Ret (Some u)
  | Err (Exn _) => Ret None
  | Err f => Err f
  end.

Definition hex_char (d : Z) : Z := if d <? 10 then ch0 + d else cha + (d - 10).

(** What [std::hex] prints: no leading zeros; 16 digits are enough for 64 bits. *)
Fixpoint hex_digits (n : nat) (z : Z) : list Z :=
  match n with
  | O => []
  | S n => if z <? 16 then [hex_char z] else hex_digits n (z / 16) ++ [hex_char (z mod 16)]
  end.

(** [setfill('0') << setw(w)]. *)
Definition padded (w : nat) (s : list Z) : list Z := replicate (w - length s) ch0 ++ s.

Definition uuidToString (u : UUID128) : list Z :=
  padded 16 (hex_digits 16 (hi u)) ++ padded 16 (hex_digits 16 (lo u)).

Definition uuid_eqb (a b : UUID128) : bool := (hi a =? hi b) && (lo a =? lo b).

(** ** The C version *)

Definition hex_nibble (c : Z) : Z :=
  if between ch0 c ch9 then u8 (c - ch0) else
  if between cha c chf then u8 (c - cha + 10) else
  if between chA c chF then u8 (c - chA + 10) else 255.

(** The collecting loop: stops at the terminator or after 32 digits. *)
Fixpoint collect (p : list Z) (hex : list Z) : list Z :=
  match p with
  | [] => hex
  | c :: p =>
      if (c =? 0) || negb (Z.of_nat (length hex) <? 32) then hex
      else collect p (if isxdigit (u8 c) then hex ++ [c] else hex)
  end.

Definition u128 (z : Z) : Z := z mod 2 ^ 128.

(** The parsing loop: the returned value and [*out]. *)
Fixpoint parse_loop (n : nat) (i : Z) (hex : list Z) (out : Z) : outcome (Z * Z) :=
  match n with
  | O => Ret (0, out)
  | S n =>
      c ← vget hex i;
      let nib := hex_nibble c in
      if nib =? 255 then Ret (-1, out)
      else parse_loop n (i + 1) hex (Z.lor (u128 (Z.shiftl out 4)) nib)
  end.

(** [None] is a null pointer. *)
Definition parse_uuid128 (str : option (list Z)) (out : option Z) : outcome (Z * option Z) :=
  match str, out with
  | Some s, Some _ =>
      let hex := collect s [] in
      if negb (Z.of_nat (length hex) =? 32) then Ret (-1, out)
      else r ← parse_loop 32 0 hex 0; Ret (fst r, Some (snd r))
  | _, _ => Ret (-1, out)
  end.

Definition digits : list Z := [48;49;50;51;52;53;54;55;56;57;97;98;99;100;101;102].

(** [bytes[15]], then [bytes[14]], ...: the last byte is stored first. *)
Fixpoint extract_bytes (n : nat) (temp : Z) (bytes : list Z) : list Z :=
  match n with
  | O => bytes
  | S n => extract_bytes n (Z.shiftr temp 8) (Z.land temp 255 :: bytes)
  end.

Fixpoint put_bytes (bytes : list Z) : outcome (list Z) :=
  match bytes with
  | [] => Ret []
  | b :: bytes =>
      h ← vget digits (Z.land (Z.shiftr b 4) 15);
      l ← vget digits (Z.land b 15);
      rest ← put_bytes bytes;
      Ret (h :: l :: rest)
  end.

Definition print_uuid128 (u : Z) : outcome (list Z) := put_bytes (extract_bytes 16 u []).

(** ** Nibbles *)

(** The value of a list of nibbles, most significant first, and the [n] nibbles
    of a number. *)
Definition nib_val (acc : Z) (ds : list Z) : Z := foldl (λ a d, a * 16 + d) acc ds.

Fixpoint nibs (n : nat) (z : Z) : list Z :=
  match n with O => [] | S n => nibs n (z / 16) ++ [z mod 16] end.

Definition nibble (d : Z) : Prop := 0 ≤ d < 16.

Lemma nib_val_app acc a b : nib_val acc (a ++ b) = nib_val (nib_val acc a) b.
Proof. unfold nib_val. apply foldl_app. Qed.

Lemma nibs_length n : ∀ z, length (nibs n z) = n.
Proof. induction n as [|n IH]; intros z; simpl; [done|]. rewrite length_app, IH. simpl. lia. Qed.

Lemma nibs_nibble n : ∀ z, Forall nibble (nibs n z).
Proof.
  induction n as [|n IH]; intros z; simpl; [constructor|].
  apply Forall_app_2; [apply IH|]. repeat constructor; apply Z.mod_pos_bound; lia.
Qed.

Lemma nib_val_nibs n : ∀ z, 0 ≤ z < 16 ^ Z.of_nat n → nib_val 0 (nibs n z) = z.
Proof.
  induction n as [|n IH]; intros z Hz; simpl.
  - unfold nib_val. simpl in *. lia.
  - rewrite Nat2Z.inj_succ, Z.pow_succ_r in Hz by lia.
    rewrite nib_val_app, IH.
    + unfold nib_val. simpl. pose proof (Z.div_mod z 16). lia.
    + split; [apply Z.div_pos; lia|apply Z.div_lt_upper_bound; lia].
Qed.

Lemma nibs_nib_val ds : Forall nibble ds → nibs (length ds) (nib_val 0 ds) = ds.
Proof.
  induction ds as [|d ds IH] using rev_ind; intros Hds; [done|].
  apply Forall_app in Hds as [Hds Hd%Forall_cons_1]. destruct Hd as [Hd _]. unfold nibble in Hd.
  rewrite length_app, Nat.add_1_r, nib_val_app. simpl.
  unfold nib_val at 1 2. simpl. fold (nib_val 0 ds).
  rewrite Z.div_add_l, Z.div_small, Z.add_0_r, IH by (done || lia).
  f_equal. f_equal. rewrite Z.add_comm, Z.mod_add, Z.mod_small by lia. done.
Qed.

Lemma nib_val_bound ds : Forall nibble ds → ∀ acc, 0 ≤ acc →
  0 ≤ nib_val acc ds < (acc + 1) * 16 ^ Z.of_nat (length ds).
Proof.
  induction 1 as [|d ds Hd Hds IH]; intros acc Hacc.
  - unfold nib_val. simpl. lia.
  - unfold nibble in Hd. specialize (IH (acc * 16 + d) ltac:(lia)).
    change (nib_val acc (d :: ds)) with (nib_val (acc * 16 + d) ds).
    simpl length. rewrite Nat2Z.inj_succ, Z.pow_succ_r by lia. nia.
Qed.

Lemma nib_val_acc ds : ∀ acc,
  nib_val acc ds = acc * 16 ^ Z.of_nat (length ds) + nib_val 0 ds.
Proof.
  induction ds as [|d ds IH]; intros acc; [unfold nib_val; simpl; lia|].
  change (nib_val acc (d :: ds)) with (nib_val (acc * 16 + d) ds).
  change (nib_val 0 (d :: ds)) with (nib_val (0 * 16 + d) ds).
  rewrite IH, (IH (0 * 16 + d)). simpl length. rewrite Nat2Z.inj_succ, Z.pow_succ_r by lia. lia.
Qed.

Lemma lor_nibble a d : nibble d → Z.lor (Z.shiftl a 4) d = a * 16 + d.
Proof.
  intros Hd. rewrite Z.shiftl_mul_pow2 by lia. change (2 ^ 4) with 16.
  assert (Z.land (a * 16) d = 0) as E.
  { apply Z.bits_inj'. intros i Hi. rewrite Z.land_spec, Z.bits_0.
    change 16 with (2 ^ 4). destruct (Z.ltb_spec i 4).
    - by rewrite Z.mul_pow2_bits_low by lia.
    - rewrite (Z.bits_above_log2 d), andb_false_r; [done|unfold nibble in Hd; lia|].
      unfold nibble in Hd. destruct (decide (d = 0)) as [->|]; [simpl; lia|].
      apply Z.log2_lt_pow2; [lia|]. apply Z.lt_le_trans with (2 ^ 4); [lia|].
      apply Z.pow_le_mono_r; lia. }
  rewrite <- (Z.add_lor_land (a * 16) d), E. lia.
Qed.

(** ** Characters *)

Definition char_ok (c : Z) : Prop := -128 ≤ c < 128.
Definition hexc (c : Z) : Prop := isxdigit c = true.
Definition tolower (c : Z) : Z := if between chA c chF then c + 32 else c.

Lemma between_spec lo c hi : between lo c hi = true ↔ lo ≤ c ≤ hi.
Proof. unfold between. rewrite andb_true_iff, !Z.leb_le. done. Qed.

Lemma hexc_cases c : hexc c ↔ 48 ≤ c ≤ 57 ∨ 97 ≤ c ≤ 102 ∨ 65 ≤ c ≤ 70.
Proof. unfold hexc, isxdigit. rewrite !orb_true_iff, !between_spec. unfold ch0, ch9, cha, chf, chA, chF. tauto. Qed.

Lemma hexc_u8 c : char_ok c → isxdigit (u8 c) = true ↔ hexc c.
Proof.
  intros Hc. change (isxdigit (u8 c) = true) with (hexc (u8 c)). rewrite !hexc_cases.
  unfold u8, char_ok in *. destruct (decide (0 ≤ c)).
  - rewrite Z.mod_small by lia. done.
  - rewrite <- (Z.mod_add c 1), Z.mod_small by lia. lia.
Qed.

(** The tests of a hexadecimal digit, decided. *)
Ltac hex_cases :=
  unfold hexNibble, hex_nibble, tolower, nibble, between,
    ch0, ch9, cha, chf, chA, chF, u8 in *;
  zcases; simpl; try lia; try rewrite Z.mod_small by lia;
  unfold hex_char, ch0, cha; zcases; try lia.

Lemma hexNibble_hexc c : hexc c →
  hexNibble c = Ret (hex_nibble c) ∧ nibble (hex_nibble c) ∧ hex_char (hex_nibble c) = tolower c.
Proof.
  intros Hc%hexc_cases. split; [|split].
  - hex_cases; done.
  - hex_cases.
  - hex_cases.
Qed.

Lemma hex_char_hexc d : nibble d → hexc (hex_char d) ∧ hex_nibble (hex_char d) = d.
Proof. intros Hd. rewrite hexc_cases. unfold hex_char; split; hex_cases. Qed.

Lemma digits_lookup d : nibble d → vget digits d = Ret (hex_char d).
Proof.
  intros Hd. unfold nibble in Hd. apply vget_Ret. split; [lia|].
  assert (d = 0 ∨ d = 1 ∨ d = 2 ∨ d = 3 ∨ d = 4 ∨ d = 5 ∨ d = 6 ∨ d = 7 ∨ d = 8 ∨ d = 9 ∨
    d = 10 ∨ d = 11 ∨ d = 12 ∨ d = 13 ∨ d = 14 ∨ d = 15) as Hc by lia.
  repeat destruct Hc as [->|Hc]; try reflexivity. by subst.
Qed.

(** ** The parsing loops *)

Lemma hexc_nibbles cs : Forall hexc cs → Forall nibble (hex_nibble <$> cs).
Proof.
  intros Hcs. apply Forall_fmap. eapply Forall_impl; [|exact Hcs].
  intros c Hc. by apply hexNibble_hexc.
Qed.

Lemma lookup_drop_cons {A} (l : list A) i x :
  l !! i = Some x → drop i l = x :: drop (S i) l.
Proof. apply drop_S. Qed.

Lemma nibble_loop_spec hex n : Forall hexc hex → ∀ i acc,
  0 ≤ acc → (acc + 1) * 16 ^ Z.of_nat n ≤ 2 ^ 64 → (i + n ≤ length hex)%nat →
  nibble_loop n (Z.of_nat i) hex acc =
    Ret (nib_val acc (hex_nibble <$> take n (drop i hex))).
Proof.
  intros Hhex. induction n as [|n IH]; intros i acc Hacc Hb Hi; [by rewrite take_0|].
  destruct (lookup_lt_is_Some_2 hex i) as [c Hc]; [lia|].
  pose proof (Forall_lookup_1 _ _ _ _ Hhex Hc) as (E & Hd & _)%hexNibble_hexc.
  rewrite (drop_S _ _ _ Hc). cbn [nibble_loop].
  rewrite (proj2 (vget_Ret hex (Z.of_nat i) c)) by (rewrite Nat2Z.id; split; [lia|done]).
  rewrite bind_Ret, E, bind_Ret.
  rewrite Nat2Z.inj_succ, Z.pow_succ_r in Hb by lia.
  pose proof (Z.pow_pos_nonneg 16 (Z.of_nat n) ltac:(lia) ltac:(lia)).
  assert (acc * 16 + 16 ≤ 2 ^ 64) by nia.
  rewrite u64_small, lor_nibble by (done || (rewrite Z.shiftl_mul_pow2 by lia; lia)).
  replace (Z.of_nat i + 1) with (Z.of_nat (S i)) by lia. unfold nibble in Hd.
  rewrite IH by (lia || nia). done.
Qed.

Lemma parse_loop_spec hex n : Forall hexc hex → ∀ i acc,
  0 ≤ acc → (acc + 1) * 16 ^ Z.of_nat n ≤ 2 ^ 128 → (i + n ≤ length hex)%nat →
  parse_loop n (Z.of_nat i) hex acc =
    Ret (0, nib_val acc (hex_nibble <$> take n (drop i hex))).
Proof.
  intros Hhex. induction n as [|n IH]; intros i acc Hacc Hb Hi; [by rewrite take_0|].
  destruct (lookup_lt_is_Some_2 hex i) as [c Hc]; [lia|].
  pose proof (Forall_lookup_1 _ _ _ _ Hhex Hc) as (_ & Hd & _)%hexNibble_hexc.
  rewrite (drop_S _ _ _ Hc). cbn [parse_loop].
  rewrite (proj2 (vget_Ret hex (Z.of_nat i) c)) by (rewrite Nat2Z.id; split; [lia|done]).
  rewrite bind_Ret. cbv zeta. pose proof Hd as [Hd0 Hd1].
  destruct (Z.eqb_spec (hex_nibble c) 255); [lia|].
  rewrite Nat2Z.inj_succ, Z.pow_succ_r in Hb by lia.
  pose proof (Z.pow_pos_nonneg 16 (Z.of_nat n) ltac:(lia) ltac:(lia)).
  assert (acc * 16 + 16 ≤ 2 ^ 128) by nia.
  assert (u128 (Z.shiftl acc 4) = Z.shiftl acc 4) as ->.
  { apply Z.mod_small. rewrite Z.shiftl_mul_pow2 by lia. lia. }
  rewrite lor_nibble by done.
  replace (Z.of_nat i + 1) with (Z.of_nat (S i)) by lia.
  rewrite IH by (lia || nia). done.
Qed.

(** The hexadecimal digits of an input. *)
Definition hex_of (s : list Z) : list Z := filter (λ c, isxdigit (u8 c) = true) s.

Lemma hex_of_hexc s : Forall char_ok s → Forall hexc (hex_of s).
Proof.
  intros Hs. apply Forall_lookup_2. intros i c Hc%list_elem_of_lookup_2.
  apply list_elem_of_filter in Hc as [Hx Hc]. apply hexc_u8; [|done].
  exact (proj1 (list.Forall_forall char_ok s) Hs c Hc).
Qed.

Lemma collect_spec s : Forall (λ c, c ≠ 0) s → ∀ hex, (length hex ≤ 32)%nat →
  collect s hex = take 32 (hex ++ hex_of s).
Proof.
  induction 1 as [|c s Hc Hs IH]; intros hex Hlen; cbn [collect].
  - unfold hex_of. rewrite filter_nil, app_nil_r, take_ge by lia. done.
  - destruct (Z.eqb_spec c 0); [done|]. cbn [orb].
    destruct (Z.ltb_spec (Z.of_nat (length hex)) 32); cbn [negb]; last first.
    { by rewrite take_app_le, take_ge by lia. }
    unfold hex_of. rewrite filter_cons. fold (hex_of s).
    destruct (isxdigit (u8 c)).
    + rewrite IH by (rewrite length_app; simpl; lia). rewrite decide_True by done.
      by rewrite <- app_assoc.
    + rewrite IH by lia. by rewrite decide_False.
Qed.

(** The two parsers, on strings without terminator inside. *)
Lemma parseUUID128_spec s : Forall char_ok s →
  parseUUID128 s = Ret (if decide (length (hex_of s) = 32%nat)
    then Some (mkUUID (nib_val 0 (hex_nibble <$> take 16 (hex_of s)))
                      (nib_val 0 (hex_nibble <$> drop 16 (hex_of s))))
    else None).
Proof.
  intros Hs. unfold parseUUID128. fold (hex_of s). cbv zeta.
  pose proof (hex_of_hexc s Hs) as Hh. destruct (decide (length (hex_of s) = 32%nat)) as [Hl|Hl].
  - rewrite Hl. cbn [negb Z.eqb]. change (Z.of_nat 32 =? 32) with true. cbn [negb].
    pose proof (nibble_loop_spec _ 16 Hh 0 0 ltac:(lia) ltac:(done) ltac:(lia)) as E1.
    pose proof (nibble_loop_spec _ 16 Hh 16 0 ltac:(lia) ltac:(done) ltac:(lia)) as E2.
    change (Z.of_nat 0) with 0 in E1. change (Z.of_nat 16) with 16 in E2. rewrite E1, E2.
    simpl mbind. rewrite drop_0, (take_ge (drop 16 _)); [done|]. rewrite length_drop. lia.
  - destruct (Z.eqb_spec (Z.of_nat (length (hex_of s))) 32); [lia|done].
Qed.

Lemma parse_uuid128_spec s o : Forall char_ok s → Forall (λ c, c ≠ 0) s →
  parse_uuid128 (Some s) (Some o) = Ret (if decide (32 ≤ length (hex_of s))%nat
    then (0, Some (nib_val 0 (hex_nibble <$> take 32 (hex_of s)))) else (-1, Some o)).
Proof.
  intros Hs Hn. unfold parse_uuid128. rewrite collect_spec by (done || simpl; lia).
  rewrite app_nil_l, length_take. cbv zeta.
  pose proof (hex_of_hexc s Hs) as Hh. destruct (decide (32 ≤ length (hex_of s))%nat).
  - rewrite Nat.min_l by done. change (Z.of_nat 32 =? 32) with true. cbn [negb].
    pose proof (parse_loop_spec (take 32 (hex_of s)) 32 (Forall_take _ _ _ Hh) 0 0
      ltac:(lia) ltac:(done) ltac:(rewrite length_take; lia)) as E1.
    change (Z.of_nat 0) with 0 in E1. rewrite E1.
    simpl mbind. by rewrite drop_0, take_take, Nat.min_id.
  - destruct (Z.eqb_spec (Z.of_nat (32 `min` length (hex_of s))) 32); [lia|done].
Qed.

(** ** The printers *)

Lemma nibs_zero n : nibs n 0 = replicate n 0.
Proof.
  induction n as [|n IH]; [done|]. cbn [nibs]. rewrite Z.div_0_l, IH by lia.
  change (0 mod 16) with 0. by rewrite <- replicate_cons_app.
Qed.

Lemma padded_hex n : ∀ z, 0 ≤ z < 16 ^ Z.of_nat n → (0 < n)%nat →
  padded n (hex_digits n z) = hex_char <$> nibs n z.
Proof.
  induction n as [|n IH]; intros z Hz Hn; [lia|]. cbn [hex_digits nibs].
  rewrite Nat2Z.inj_succ, Z.pow_succ_r in Hz by lia. rewrite fmap_app.
  destruct (Z.ltb_spec z 16) as [Hs|Hs].
  - rewrite Z.div_small, Z.mod_small, nibs_zero, fmap_replicate by lia.
    unfold padded. simpl. by rewrite Nat.sub_0_r.
  - assert (0 < n)%nat. { destruct n; [|lia]. simpl in Hz. lia. }
    rewrite <- IH; [|split; [apply Z.div_pos|apply Z.div_lt_upper_bound]; lia|done].
    unfold padded. rewrite length_app. simpl. rewrite <- app_assoc. f_equal. f_equal. lia.
Qed.

Lemma uuidToString_nibs u : 0 ≤ hi u < 2 ^ 64 → 0 ≤ lo u < 2 ^ 64 →
  uuidToString u = hex_char <$> (nibs 16 (hi u) ++ nibs 16 (lo u)).
Proof. intros Hh Hl. unfold uuidToString. rewrite !padded_hex by (simpl; lia). by rewrite fmap_app. Qed.

Lemma put_extract n : ∀ z bytes r, 0 ≤ z → put_bytes bytes = Ret r →
  put_bytes (extract_bytes n z bytes) = Ret ((hex_char <$> nibs (2 * n) z) ++ r).
Proof.
  induction n as [|n IH]; intros z bytes r Hz Hr; [done|].
  replace (2 * S n)%nat with (S (S (2 * n))) by lia. cbn [extract_bytes nibs].
  rewrite (IH _ _ (hex_char (z / 16 mod 16) :: hex_char (z mod 16) :: r)).
  - f_equal. rewrite !fmap_app, <- !app_assoc. rewrite Z.shiftr_div_pow2 by lia.
    change (2 ^ 8) with (16 * 16). by rewrite Z.div_div by lia.
  - apply Z.shiftr_nonneg. done.
  - cbn [put_bytes]. change 255 with (Z.ones 8). change 15 with (Z.ones 4).
    rewrite !Z.land_ones, Z.shiftr_div_pow2 by lia.
    change (2 ^ 4) with 16. change (2 ^ 8) with (16 * 16).
    rewrite (Z.rem_mul_r z 16 16) by lia.
    assert (((z mod 16 + 16 * ((z / 16) mod 16)) / 16) = (z / 16) mod 16) as ->.
    { pose proof (Z.mod_pos_bound z 16). rewrite Z.mul_comm, Z.div_add, Z.div_small by lia. lia. }
    rewrite Z.mod_mod by lia.
    assert ((z mod 16 + 16 * ((z / 16) mod 16)) mod 16 = z mod 16) as ->.
    { rewrite Z.mul_comm, Z.mod_add, Z.mod_mod by lia. done. }
    rewrite !digits_lookup by (apply Z.mod_pos_bound; lia). simpl mbind. by rewrite Hr.
Qed.

Lemma print_uuid128_nibs z : 0 ≤ z → print_uuid128 z = Ret (hex_char <$> nibs 32 z).
Proof. intros Hz. unfold print_uuid128. rewrite (put_extract 16 z [] []) by done. by rewrite app_nil_r. Qed.

(** ** The properties *)

Lemma printed_digits ds : Forall nibble ds →
  Forall char_ok (hex_char <$> ds) ∧ Forall (λ c, c ≠ 0) (hex_char <$> ds) ∧
  hex_of (hex_char <$> ds) = hex_char <$> ds ∧
  (∀ l, Forall nibble l → hex_nibble <$> (hex_char <$> l) = l).
Proof.
  intros Hds. assert (Forall (λ c, hexc c ∧ char_ok c) (hex_char <$> ds)) as Hc.
  { apply Forall_fmap. eapply Forall_impl; [|exact Hds]. intros d [Hh%hexc_cases _]%hex_char_hexc.
    split; [by apply hexc_cases|]. unfold char_ok. simpl in *. lia. }
  split_and!.
  - eapply Forall_impl; [|exact Hc]. by intros c [_ ?].
  - eapply Forall_impl; [|exact Hc]. intros c [Hh%hexc_cases _]. simpl. lia.
  - unfold hex_of. induction Hc as [|c l [Hh Hk] _ IH]; [done|]. rewrite filter_cons, IH.
    by rewrite decide_True by (by apply hexc_u8).
  - intros l. induction 1 as [|d l Hd _ IH]; csimpl; [done|].
    rewrite IH. f_equal. by apply hex_char_hexc.
Qed.

Lemma uuid_nibbles a b : Forall nibble a → Forall nibble b → length a = 16%nat → length b = 16%nat →
  nib_val 0 a * 2 ^ 64 + nib_val 0 b = nib_val 0 (a ++ b) ∧
  0 ≤ nib_val 0 a < 2 ^ 64 ∧ 0 ≤ nib_val 0 b < 2 ^ 64.
Proof.
  intros Ha Hb La Lb. pose proof (nib_val_bound a Ha 0 ltac:(lia)) as Ba.
  pose proof (nib_val_bound b Hb 0 ltac:(lia)) as Bb.
  rewrite nib_val_app, (nib_val_acc b (nib_val 0 a)).
  rewrite La in Ba. rewrite Lb in Bb |- *. change (16 ^ Z.of_nat 16) with (2 ^ 64) in *. lia.
Qed.

(** C21: printing and parsing back gives the same UUID, for every UUID, in both
    languages: the C parser reads from the C++ printer's output the 128-bit
    number of the two halves, and the C printer prints the same digits. *)
Theorem uuid_roundtrip u o :
  0 ≤ hi u < 2 ^ 64 → 0 ≤ lo u < 2 ^ 64 →
  parseUUID128 (uuidToString u) = Ret (Some u) ∧
  parse_uuid128 (Some (uuidToString u)) (Some o) = Ret (0, Some (hi u * 2 ^ 64 + lo u)) ∧
  print_uuid128 (hi u * 2 ^ 64 + lo u) = Ret (uuidToString u).
Proof.
  intros Hh Hl. rewrite uuidToString_nibs by done.
  destruct (uuid_nibbles (nibs 16 (hi u)) (nibs 16 (lo u))) as (Ev & _ & _);
    [apply nibs_nibble|apply nibs_nibble|apply nibs_length|apply nibs_length|].
  rewrite !nib_val_nibs in Ev by done. set (ds := nibs 16 (hi u) ++ nibs 16 (lo u)) in *.
  assert (Forall nibble ds) as Hds by (apply Forall_app_2; apply nibs_nibble).
  assert (length ds = 32%nat) as Hlen by (subst ds; by rewrite length_app, !nibs_length).
  destruct (printed_digits ds Hds) as (Hc & Hn & Hx & Hb).
  rewrite parseUUID128_spec, parse_uuid128_spec by done. rewrite Hx, length_fmap, Hlen.
  rewrite !decide_True by lia. rewrite <- fmap_take, <- fmap_drop, !Hb by by (apply Forall_take || apply Forall_drop).
  split_and!.
  - do 2 f_equal. subst ds. rewrite take_app_length', drop_app_length' by (by rewrite nibs_length).
    rewrite !nib_val_nibs by done. by destruct u.
  - by rewrite take_ge, Hb, Ev by (rewrite ?length_fmap, ?Hlen; done || lia).
  - rewrite print_uuid128_nibs by lia. by rewrite Ev, <- Hlen, nibs_nib_val.
Qed.

Lemma uuid_roundtrip_witness :
  parseUUID128 (uuidToString (mkUUID 6128981282234515924 0)) = Ret (Some (mkUUID 6128981282234515924 0)).
Proof. apply (uuid_roundtrip (mkUUID 6128981282234515924 0) 7); split; vm_compute; congruence. Defined.

(** The C++ parser accepts exactly the strings with 32 hexadecimal digits,
    whatever stands between them, and the UUID it returns prints as those
    digits in lower case; the C parser accepts exactly those with 32 digits or
    more, and returns the number of the first 32. *)
Theorem uuid_accepts s o :
  Forall char_ok s → Forall (λ c, c ≠ 0) s →
  (if decide (length (hex_of s) = 32%nat)
   then ∃ u, parseUUID128 s = Ret (Some u) ∧ uuidToString u = tolower <$> hex_of s
   else parseUUID128 s = Ret None) ∧
  (if decide (32 ≤ length (hex_of s))%nat
   then ∃ z, parse_uuid128 (Some s) (Some o) = Ret (0, Some z) ∧
        print_uuid128 z = Ret (tolower <$> take 32 (hex_of s))
   else parse_uuid128 (Some s) (Some o) = Ret (-1, Some o)).
Proof.
  intros Hs Hn. rewrite parseUUID128_spec, parse_uuid128_spec by done.
  pose proof (hex_of_hexc s Hs) as Hh.
  assert (∀ l, Forall hexc l → hex_char <$> (hex_nibble <$> l) = tolower <$> l) as Hlow.
  { induction 1 as [|c l Hc _ IH]; csimpl; [done|]. rewrite IH. f_equal. by apply hexNibble_hexc. }
  split.
  - destruct (decide (length (hex_of s) = 32%nat)) as [Hl|]; [|done]. eexists. split; [done|].
    destruct (uuid_nibbles (hex_nibble <$> take 16 (hex_of s)) (hex_nibble <$> drop 16 (hex_of s)))
      as (_ & Ha & Hb); [apply hexc_nibbles; by apply Forall_take|apply hexc_nibbles; by apply Forall_drop
      |rewrite length_fmap, length_take; lia|rewrite length_fmap, length_drop; lia|].
    rewrite uuidToString_nibs by done. cbn [hi lo].
    rewrite <- (Hlow _ Hh). f_equal.
    trans ((hex_nibble <$> take 16 (hex_of s)) ++ (hex_nibble <$> drop 16 (hex_of s)));
      [f_equal|by rewrite <- fmap_app, take_drop].
    + rewrite <- (nibs_nib_val (hex_nibble <$> take 16 (hex_of s))) at 2
        by (apply hexc_nibbles; by apply Forall_take).
      by rewrite length_fmap, length_take, Nat.min_l by lia.
    + rewrite <- (nibs_nib_val (hex_nibble <$> drop 16 (hex_of s))) at 2
        by (apply hexc_nibbles; by apply Forall_drop).
      by rewrite length_fmap, length_drop, Hl.
  - destruct (decide (32 ≤ length (hex_of s))%nat); [|done]. eexists. split; [done|].
    pose proof (hexc_nibbles _ (Forall_take _ 32 _ Hh)) as Hnib.
    rewrite print_uuid128_nibs by (apply (nib_val_bound _ Hnib 0); lia).
    rewrite <- Hlow by by apply Forall_take. f_equal. f_equal.
    rewrite <- (nibs_nib_val _ Hnib) at 2. by rewrite length_fmap, length_take, Nat.min_l by lia.
Qed.

(** ["550e8400-..."] with 33 digits: the C++ parser refuses it, the C parser
    drops the last digit. *)
Lemma uuid_accepts_witness :
  ∃ z, parse_uuid128 (Some (replicate 33 97)) (Some 0) = Ret (0, Some z).
Proof.
  destruct (uuid_accepts (replicate 33 97) 0) as [_ H].
  - apply Forall_replicate. by vm_compute.
  - by apply Forall_replicate.
  - destruct H as (z & Hz & _). by exists z.
Defined.

Lemma parsers_disagree :
  parseUUID128 (replicate 33 97) = Ret None ∧
  parse_uuid128 (Some (replicate 33 97)) (Some 0) = Ret (0, Some (nib_val 0 (replicate 32 10))).
Proof. split; vm_compute; reflexivity. Qed.
