(* ===== verification/DnsHash.v ===== *)
(** * dnsCache/dnsCacheHashMap.cpp

    A DNS cache: 128 buckets of chained records, each an A record with up to
    five addresses or a CNAME, with an expiry time; [resolve] follows CNAMEs up
    to a depth.  A C string is the list of its characters before the
    terminator, the clock an argument. *)

From stdpp Require Import base list numbers.
From Stdlib Require Import ZArith Lia.
From S2P Require Import Prelude.

Definition TABLE_SIZE : Z := 128.
Definition MAX_IPS : Z := 5.
Definition MAX_DOMAIN_LEN : Z := 256.
Definition MAX_CNAME_DEPTH : Z := 5.

Inductive record_type_t := RECORD_A | RECORD_CNAME.

Record dns_record_t := mkRecord {
  domain : list Z;
  type : record_type_t;
  ips : list (list Z);
  ip_count : Z;
  cname : list Z;
  expiry : Z;
}.

(** A bucket: the records from its head pointer on; [Dangling] is a pointer to
    a freed record. *)
Inductive chain := Null | Rec (r : dns_record_t) (next : chain) | Dangling.

Definition dns_table := list chain.
Definition empty_table : dns_table := replicate (Z.to_nat TABLE_SIZE) Null.

Fixpoint hash_loop (str : list Z) (h : Z) : Z :=
  match str with [] => h | c :: str => hash_loop str (u32 (u32 (h * 31) + c)) end.

Definition hash (str : list Z) : outcome Z := umod (hash_loop str 0) TABLE_SIZE.

(** [strncpy(dst, src, n)] into zeroed memory of more than [n] bytes. *)
Definition strncpy (src : list Z) (n : Z) : list Z := take (Z.to_nat n) src.

(** [for (i = 0; i < ip_count; i++) strncpy(rec->ips[i], ips[i], 15)] *)
Fixpoint copy_ips (n : nat) (i : Z) (src : list (list Z)) : outcome (list (list Z)) :=
  match n with
  | O => Ret []
  | S n =>
      ip ← vget src i;
      rest ← copy_ips n (i + 1) src;
      Ret (strncpy ip 15 :: rest)
  end.

(** [rec->next = dns_table[index]; dns_table[index] = rec;] *)
Definition push_record (index : Z) (r : dns_record_t) (t : dns_table) : outcome dns_table :=
  head ← vget t index; vset t index (Rec r head).

(** [mem] says whether [malloc] succeeds, [now] is [time(NULL)]. *)
Definition insert_a_record (mem : bool) (now : Z) (d : list Z) (ips : list (list Z))
    (count ttl_seconds : Z) (t : dns_table) : outcome dns_table :=
  index ← hash d;
  if negb mem then Ret t else
  let count := if MAX_IPS <? count then MAX_IPS else count in
  copied ← copy_ips (Z.to_nat count) 0 ips;
  push_record index (mkRecord (strncpy d (MAX_DOMAIN_LEN - 1)) RECORD_A copied count []
    (now + ttl_seconds)) t.

Definition insert_cname_record (mem : bool) (now : Z) (d cname : list Z) (ttl_seconds : Z)
    (t : dns_table) : outcome dns_table :=
  index ← hash d;
  if negb mem then Ret t else
  push_record index (mkRecord (strncpy d (MAX_DOMAIN_LEN - 1)) RECORD_CNAME [] 0
    (strncpy cname (MAX_DOMAIN_LEN - 1)) (now + ttl_seconds)) t.

Fixpoint find_chain (d : list Z) (curr : chain) : outcome (option dns_record_t) :=
  match curr with
  | Null => Ret None
  | Rec r next => if bool_decide (domain r = d) then Ret (Some r) else find_chain d next
  | Dangling => Err DanglingPtr
  end.

Definition find_record (d : list Z) (t : dns_table) : outcome (option dns_record_t) :=
  index ← hash d;
  curr ← vget t index;
  find_chain d curr.

(** The lines that [resolve] prints. *)
Inductive message :=
  | LoopDetected
  | NoRecord (d : list Z)
  | Expired (d : list Z)
  | ARecord (d : list Z) (ips : list (list Z))
  | IsCname (d cname : list Z).

(** [now depth] is the time read by the call at that depth. *)
Fixpoint resolve (fuel : nat) (now : Z → Z) (t : dns_table) (d : list Z) (depth : Z)
    : outcome (Z * list message) :=
  match fuel with
  | O => Err OutOfFuel
  | S fuel =>
      if MAX_CNAME_DEPTH <? depth then Ret (0, [LoopDetected]) else
      rec ← find_record d t;
      match rec with
      | None => Ret (0, [NoRecord d])
      | Some r =>
          if expiry r <? now depth then Ret (0, [Expired d]) else
          match type r with
          | RECORD_A => Ret (1, [ARecord d (take (Z.to_nat (ip_count r)) (ips r))])
          | RECORD_CNAME =>
              o ← resolve fuel now t (cname r) (depth + 1);
              Ret (fst o, IsCname d (cname r) :: snd o)
          end
      end
  end.

(** Frees the records of one bucket; the head pointer keeps its value. *)
Fixpoint free_chain (curr : chain) : outcome unit :=
  match curr with
  | Null => Ret tt
  | Rec _ next => free_chain next
  | Dangling => Err DanglingPtr
  end.

Definition dangle (c : chain) : chain := match c with Rec _ _ => Dangling | c => c end.

Fixpoint cleanup (t : dns_table) : outcome dns_table :=
  match t with
  | [] => Ret []
  | c :: t => _ ← free_chain c; rest ← cleanup t; Ret (dangle c :: rest)
  end.

(** ** The insertions as one operation *)

Inductive insertion :=
  | InsertA (now : Z) (d : list Z) (addrs : list (list Z)) (ttl : Z)
  | InsertCname (now : Z) (d c : list Z) (ttl : Z).

Definition apply_insertion (i : insertion) : dns_table → outcome dns_table :=
  match i with
  | InsertA now d addrs ttl => insert_a_record true now d addrs (Z.of_nat (length addrs)) ttl
  | InsertCname now d c ttl => insert_cname_record true now d c ttl
  end.

Fixpoint insert_all (ops : list insertion) (t : dns_table) : outcome dns_table :=
  match ops with [] => Ret t | i :: ops => t' ← apply_insertion i t; insert_all ops t' end.

(** ** The specification *)

Definition name_of (i : insertion) : list Z :=
  match i with InsertA _ d _ _ => d | InsertCname _ d _ _ => d end.

(** The names that fit in a record. *)
Definition name_ok (i : insertion) : Prop := (length (name_of i) ≤ 255)%nat.

(** The record that an insertion stores: at most five addresses of at most
    fifteen characters, a canonical name of at most 255. *)
Definition record_of (i : insertion) : dns_record_t :=
  match i with
  | InsertA now d addrs ttl =>
      mkRecord d RECORD_A (take 15 <$> take 5 addrs) (Z.of_nat (length (take 5 addrs))) [] (now + ttl)
  | InsertCname now d c ttl => mkRecord d RECORD_CNAME [] 0 (take 255 c) (now + ttl)
  end.

(** The cache as a map: the last insertion of a name counts. *)
Fixpoint lookup_spec (f : list Z → option dns_record_t) (ops : list insertion)
    : list Z → option dns_record_t :=
  match ops with
  | [] => f
  | i :: ops =>
      lookup_spec (λ d, if decide (d = name_of i) then Some (record_of i) else f d) ops
  end.

(** [resolves f now depth d addrs]: a chain of unexpired CNAMEs, the last at
    depth 5 at most, leads from [d] to an unexpired A record with these
    addresses. *)
Inductive resolves (f : list Z → option dns_record_t) (now : Z → Z)
    : Z → list Z → list (list Z) → Prop :=
  | resolves_a depth d r : depth ≤ 5 → f d = Some r → now depth ≤ expiry r →
      type r = RECORD_A →
      resolves f now depth d (take (Z.to_nat (ip_count r)) (ips r))
  | resolves_cname depth d r addrs : depth ≤ 5 → f d = Some r → now depth ≤ expiry r →
      type r = RECORD_CNAME → resolves f now (depth + 1) (cname r) addrs →
      resolves f now depth d addrs.

Definition models (t : dns_table) (f : list Z → option dns_record_t) : Prop :=
  length t = 128%nat ∧ Forall (λ c, free_chain c = Ret tt) t ∧ ∀ d, find_record d t = Ret (f d).

(** ** The insertions implement the map *)

Lemma hash_range d : ∃ i, hash d = Ret i ∧ 0 ≤ i < 128.
Proof. eexists. split; [by apply umod_Ret|]. by apply Z.mod_pos_bound. Qed.

Lemma empty_models : models empty_table (λ _, None).
Proof.
  split; [done|]. split; [by apply Forall_replicate|].
  intros d. unfold find_record. destruct (hash_range d) as (i & -> & Hi). simpl.
  rewrite (proj2 (vget_Ret empty_table i Null)); [done|]. split; [lia|].
  apply lookup_replicate. split; [done|]. unfold TABLE_SIZE. lia.
Qed.

(** A record pushed in the bucket of its own name. *)
Lemma push_record_models t f r i : models t f → hash (domain r) = Ret i →
  ∃ t', push_record i r t = Ret t' ∧
    models t' (λ d, if decide (d = domain r) then Some r else f d).
Proof.
  intros (Hlen & Hlive & Hf) Hi. destruct (hash_range (domain r)) as (j & Hj & Hb).
  assert (j = i) as -> by congruence. unfold push_record.
  destruct (vget_total t i) as (head & Eh & Hh); [lia|]. rewrite Eh. simpl.
  rewrite vset_total by lia. eexists. split; [done|]. split; [by rewrite length_insert|].
  split; [apply Forall_insert; [done|]; by apply (Forall_lookup_1 _ _ _ _ Hlive Hh)|].
  intros d. specialize (Hf d). unfold find_record in *.
  destruct (hash_range d) as (k & Hk & Hkb). rewrite Hk in *. simpl in *.
  destruct (decide (k = i)) as [->|Hne].
  - rewrite Eh in Hf. simpl in Hf.
    rewrite (proj2 (vget_Ret _ _ (Rec r head))) by (split; [lia|]; apply list_lookup_insert_eq; lia).
    simpl. case_bool_decide; case_decide; congruence.
  - destruct (vget_total t k) as (c & Ec & Hc); [lia|]. rewrite Ec in Hf. simpl in Hf.
    rewrite (proj2 (vget_Ret _ _ c)) by (split; [lia|]; rewrite list_lookup_insert_ne by lia; done).
    simpl. rewrite Hf. case_decide; [congruence|done].
Qed.

Lemma copy_ips_spec src n : ∀ i, (i + n ≤ length src)%nat →
  copy_ips n (Z.of_nat i) src = Ret (take 15 <$> take n (drop i src)).
Proof.
  induction n as [|n IH]; intros i Hi; [done|].
  destruct (lookup_lt_is_Some_2 src i) as [ip Hip]; [lia|].
  rewrite (drop_S _ _ _ Hip). simpl copy_ips.
  rewrite (proj2 (vget_Ret src (Z.of_nat i) ip)) by (rewrite Nat2Z.id; split; [lia|done]).
  simpl. replace (Z.of_nat i + 1) with (Z.of_nat (S i)) by lia. rewrite IH by lia. done.
Qed.

Lemma apply_insertion_models i t f : models t f → name_ok i →
  ∃ t', apply_insertion i t = Ret t' ∧
    models t' (λ d, if decide (d = name_of i) then Some (record_of i) else f d).
Proof.
  intros Hm Hn. destruct (hash_range (name_of i)) as (j & Hj & Hb).
  assert (∀ d, (length d ≤ 255)%nat → strncpy d (MAX_DOMAIN_LEN - 1) = d) as Hcpy.
  { intros d Hd. unfold strncpy, MAX_DOMAIN_LEN. apply take_ge. lia. }
  destruct i as [now d addrs ttl|now d c ttl]; simpl in *; unfold name_ok in Hn; simpl in Hn.
  - unfold insert_a_record. rewrite Hj. simpl. unfold MAX_IPS.
    assert ((if 5 <? Z.of_nat (length addrs) then 5 else Z.of_nat (length addrs)) =
      Z.of_nat (length (take 5 addrs))) as -> by (rewrite length_take; zcases; lia).
    pose proof (copy_ips_spec addrs (length (take 5 addrs)) 0) as Hc.
    change (Z.of_nat 0) with 0 in Hc. rewrite Nat2Z.id, Hc by (rewrite length_take; lia). simpl.
    rewrite drop_0, Hcpy by done.
    replace (take (length (take 5 addrs)) addrs) with (take 5 addrs)
      by (rewrite length_take; destruct (Nat.min_spec 5 (length addrs)) as [[? ->]|[? ->]];
          [done|by rewrite !take_ge by lia]).
    apply (push_record_models t f (record_of (InsertA now d addrs ttl)) j Hm Hj).
  - unfold insert_cname_record. rewrite Hj. simpl. rewrite Hcpy by done.
    apply (push_record_models t f (record_of (InsertCname now d c ttl)) j Hm Hj).
Qed.

Lemma insert_all_models ops : ∀ t f, models t f → Forall name_ok ops →
  ∃ t', insert_all ops t = Ret t' ∧ models t' (lookup_spec f ops).
Proof.
  induction ops as [|i ops IH]; intros t f Hm Hn; simpl; [by exists t|].
  apply Forall_cons_1 in Hn as [Hi Hn].
  destruct (apply_insertion_models i t f Hm Hi) as (t1 & -> & Hm1). simpl. by apply IH.
Qed.

(** ** Resolving *)

Lemma resolve_spec t f now : models t f → ∀ fuel d depth, depth ≤ 6 → 6 - depth < Z.of_nat fuel →
  ∃ res msgs, resolve fuel now t d depth = Ret (res, msgs) ∧
    (res = 1 ∧ (∃ addrs e, resolves f now depth d addrs ∧ list.last msgs = Some (ARecord e addrs)) ∨
     res = 0 ∧ ∀ addrs, ~ resolves f now depth d addrs).
Proof.
  intros (_ & _ & Hf). induction fuel as [|fuel IH]; intros d depth Hd Hfuel; [lia|]. simpl.
  unfold MAX_CNAME_DEPTH. destruct (Z.ltb_spec 5 depth) as [Hlt|Hle].
  { do 2 eexists. split; [done|]. right. split; [done|]. intros addrs Hr. inversion Hr; lia. }
  rewrite Hf. simpl. destruct (f d) as [r|] eqn:Er; last first.
  { do 2 eexists. split; [done|]. right. split; [done|]. intros addrs Hr. inversion Hr; congruence. }
  destruct (Z.ltb_spec (expiry r) (now depth)) as [Hexp|Hexp].
  { do 2 eexists. split; [done|]. right. split; [done|].
    intros addrs Hr. inversion Hr; simplify_eq; lia. }
  destruct (type r) eqn:Et.
  { do 2 eexists. split; [done|]. left. split; [done|]. do 2 eexists. split; [by apply resolves_a|done]. }
  destruct (IH (cname r) (depth + 1)) as (res & msgs & E & Hres); [lia..|]. rewrite E. simpl.
  do 2 eexists. split; [done|]. destruct Hres as [(-> & addrs & e & Hr & Hl)|(-> & Hno)].
  - left. split; [done|]. exists addrs, e. split; [by eapply resolves_cname|].
    destruct msgs; [done|]. done.
  - right. split; [done|]. intros addrs Hr. inversion Hr; simplify_eq; [congruence|]. by eapply Hno.
Qed.

(** ** The properties *)

(** C17: after any insertions of names that fit in a record, a lookup finds the
    last record inserted for the name and nothing else; [resolve] always
    returns (7 nested calls at most, CNAME loops included), and answers 1,
    printing the addresses, exactly when a chain of at most five unexpired
    CNAMEs leads to an unexpired A record. *)
Theorem dns_cache_correct ops now d :
  Forall name_ok ops →
  ∃ t, insert_all ops empty_table = Ret t ∧
    (∀ e, find_record e t = Ret (lookup_spec (λ _, None) ops e)) ∧
    ∃ res msgs, resolve 7 now t d 0 = Ret (res, msgs) ∧
      (res = 1 ∧ (∃ addrs e, resolves (lookup_spec (λ _, None) ops) now 0 d addrs ∧
                    list.last msgs = Some (ARecord e addrs)) ∨
       res = 0 ∧ ∀ addrs, ~ resolves (lookup_spec (λ _, None) ops) now 0 d addrs).
Proof.
  intros Hn. destruct (insert_all_models ops _ _ empty_models Hn) as (t & E & Hm).
  exists t. split; [done|]. split; [apply Hm|]. apply (resolve_spec t _ now Hm); lia.
Qed.

(** A record and an alias, as in [main], and a name that is its own alias. *)
Definition demo_insertions : list insertion :=
  [InsertA 0 [115; 46; 99] [[49; 46; 49]; [49; 46; 50]] 60;
   InsertCname 0 [119; 46; 115] [115; 46; 99] 60; InsertCname 0 [108] [108] 60].

Lemma dns_cache_correct_witness : ∃ t, insert_all demo_insertions empty_table = Ret t.
Proof.
  destruct (dns_cache_correct demo_insertions (λ _, 10) [119; 46; 115]) as (t & E & _).
  - repeat constructor; vm_compute; lia.
  - by exists t.
Defined.

Lemma demo_resolve : ∃ t, insert_all demo_insertions empty_table = Ret t ∧
  resolve 7 (λ _, 10) t [119; 46; 115] 0 =
    Ret (1, [IsCname [119; 46; 115] [115; 46; 99]; ARecord [115; 46; 99] [[49; 46; 49]; [49; 46; 50]]]) ∧
  fst <$> resolve 7 (λ _, 10) t [108] 0 = Ret 0.
Proof. eexists. split; [vm_compute; reflexivity|]. split; vm_compute; reflexivity. Qed.

Lemma cleanup_spec t : Forall (λ c, free_chain c = Ret tt) t → cleanup t = Ret (dangle <$> t).
Proof. induction 1 as [|c t Hc _ IH]; simpl; [done|]. by rewrite Hc, bind_Ret, IH. Qed.

(** [cleanup] frees every record once but keeps the bucket pointers: after
    it, a lookup of any cached name reads freed memory, and a second [cleanup]
    frees it again. *)
Theorem cleanup_dangles ops t d r :
  Forall name_ok ops → insert_all ops empty_table = Ret t →
  lookup_spec (λ _, None) ops d = Some r →
  ∃ t', cleanup t = Ret t' ∧ find_record d t' = Err DanglingPtr ∧ cleanup t' = Err DanglingPtr.
Proof.
  intros Hn E Hr. destruct (insert_all_models ops _ _ empty_models Hn) as (t1 & E1 & Hm).
  assert (t1 = t) as -> by congruence. destruct Hm as (Hlen & Hlive & Hf).
  exists (dangle <$> t). split; [by apply cleanup_spec|].
  specialize (Hf d). unfold find_record in *. rewrite Hr in Hf.
  destruct (hash_range d) as (i & Ei & Hi). rewrite Ei in *. simpl in *.
  destruct (vget_total t i) as (c & Ec & Hc); [lia|]. rewrite Ec in Hf. simpl in Hf.
  pose proof (Forall_lookup_1 _ _ _ _ Hlive Hc) as Hlc. simpl in Hlc.
  assert ((dangle <$> t) !! Z.to_nat i = Some Dangling) as Hd.
  { rewrite list_lookup_fmap, Hc. by destruct c. }
  split; [by rewrite (proj2 (vget_Ret _ _ Dangling)) by (split; [lia|done])|].
  clear -Hd Hlive. remember (Z.to_nat i) as k eqn:Hk. clear i Hk. revert k Hd.
  induction Hlive as [|c t Hc _ IH]; intros [|k] Hd; csimpl in *; simplify_eq.
  - by rewrite Hd.
  - destruct c; csimpl; [|done..]. by rewrite (IH k Hd).
Qed.

Lemma cleanup_dangles_witness :
  ∃ t t', insert_all demo_insertions empty_table = Ret t ∧ cleanup t = Ret t' ∧
    find_record [108] t' = Err DanglingPtr.
Proof.
  destruct (insert_all demo_insertions empty_table) as [t|] eqn:E; [|vm_compute in E; discriminate].
  destruct (cleanup_dangles demo_insertions t [108] (record_of (InsertCname 0 [108] [108] 60)))
    as (t' & H1 & H2 & _); [repeat constructor; vm_compute; lia|exact E|vm_compute; reflexivity|].
  exists t, t'. done.
Defined.

(** A name of more than 255 characters is stored truncated, in the bucket of the
    full name: it is not found again. *)
Lemma long_name_lost : ∃ t, insert_cname_record true 0 (replicate 256 97) [98] 60 empty_table = Ret t ∧
  find_record (replicate 256 97) t = Ret None.
Proof. eexists. split; [vm_compute; reflexivity|]. vm_compute. reflexivity. Qed.
