(* ===== verification/Palindromes.v ===== *)
(** * pureStorage/countPalindromes.cpp and longestPalindrome.cpp

    Palindromic substrings by expansion around the centres.  A string is the
    list of its characters. *)

From stdpp Require Import base list sets strings numbers.
From Stdlib Require Import ZArith Lia.
From S2P Require Import Prelude.

(** [s.substr(pos, len)]: throws when [pos > size()], clips the length. *)
Definition substr {A} (s : list A) (pos len : Z) : outcome (list A) :=
  if Z.of_nat (length s) <? pos then Err (Exn "out_of_range")
  else Ret (take (Z.to_nat len) (drop (Z.to_nat pos) s)).

(** ** countPalindromes.cpp *)

(** The loop of [expand]: [result] is the member that collects the substrings. *)
Fixpoint expand_loop (fuel : nat) (s : list Z) (n left right c : Z) (result : list (list Z))
    : outcome (Z * list (list Z)) :=
  match fuel with
  | O => Err OutOfFuel
  | S fuel =>
      if negb ((0 <=? left) && (right <? n)) then Ret (c, result) else
      a ← vget s left;
      b ← vget s right;
      if negb (a =? b) then Ret (c, result) else
      t ← substr s left (right - left + 1);
      c ← int (c + 1);
      expand_loop fuel s n (left - 1) (right + 1) c (result ++ [t])
  end.

Definition expand (s : list Z) (left right : Z) (result : list (list Z))
    : outcome (Z * list (list Z)) :=
  expand_loop (S (length s)) s (to_int (Z.of_nat (length s))) left right 0 result.

Fixpoint count_loop (k : nat) (s : list Z) (i count : Z) (result : list (list Z))
    : outcome (Z * list (list Z)) :=
  match k with
  | O => Ret (count, result)
  | S k =>
      r ← expand s i i result;
      count ← int (count + fst r);
      r ← expand s i (i + 1) (snd r);
      count ← int (count + fst r);
      count_loop k s (i + 1) count (snd r)
  end.

Definition countPalindromes (s : list Z) (result : list (list Z)) : outcome (Z * list (list Z)) :=
  count_loop (Z.to_nat (to_int (Z.of_nat (length s)))) s 0 0 result.

(** ** longestPalindrome.cpp *)

Fixpoint centre_loop (fuel : nat) (s : list Z) (left right : Z) : outcome Z :=
  match fuel with
  | O => Err OutOfFuel
  | S fuel =>
      if negb ((0 <=? left) && (right <? Z.of_nat (length s))) then Ret (right - left - 1) else
      a ← vget s left;
      b ← vget s right;
      if negb (a =? b) then Ret (right - left - 1)
      else centre_loop fuel s (left - 1) (right + 1)
  end.

Definition expandAroundCenter (s : list Z) (left right : Z) : outcome Z :=
  centre_loop (S (length s)) s left right.

Fixpoint longest_loop (k : nat) (s : list Z) (i start end_ : Z) : outcome (Z * Z) :=
  match k with
  | O => Ret (start, end_)
  | S k =>
      len1 ← expandAroundCenter s i i;
      len2 ← expandAroundCenter s i (i + 1);
      let len := Z.max len1 len2 in
      if end_ - start + 1 <? len
      then longest_loop k s (i + 1) (i - Z.quot (len - 1) 2) (i + Z.quot len 2)
      else longest_loop k s (i + 1) start end_
  end.

Definition longestPalindrome (s : list Z) : outcome (list Z) :=
  match s with
  | [] => Ret []
  | _ =>
      r ← longest_loop (length s) s 0 0 0;
      substr s (fst r) (snd r - fst r + 1)
  end.

Fixpoint is_palindrome_loop (fuel : nat) (str : list Z) (left right : Z) : outcome bool :=
  match fuel with
  | O => Err OutOfFuel
  | S fuel =>
      if negb (left <? right) then Ret true else
      a ← vget str left;
      b ← vget str right;
      if negb (a =? b) then Ret false
      else is_palindrome_loop fuel str (left + 1) (right - 1)
  end.

Definition isPalindrome (str : list Z) (left right : Z) : outcome bool :=
  is_palindrome_loop (S (length str)) str left right.

Fixpoint brute_inner (k : nat) (s : list Z) (i j start maxLength : Z) : outcome (Z * Z) :=
  match k with
  | O => Ret (start, maxLength)
  | S k =>
      p ← isPalindrome s i j;
      if p && (maxLength <? j - i + 1)
      then brute_inner k s i (j + 1) i (j - i + 1)
      else brute_inner k s i (j + 1) start maxLength
  end.

Fixpoint brute_outer (k : nat) (s : list Z) (n i start maxLength : Z) : outcome (Z * Z) :=
  match k with
  | O => Ret (start, maxLength)
  | S k =>
      r ← brute_inner (Z.to_nat (n - i)) s i i start maxLength;
      brute_outer k s n (i + 1) (fst r) (snd r)
  end.

Definition longestPalindromeBruteForce (s : list Z) : outcome (list Z) :=
  let n := to_int (Z.of_nat (length s)) in
  if n =? 0 then Ret [] else
  r ← brute_outer (Z.to_nat n) s n 0 0 1;
  substr s (fst r) (fst r + snd r).

(** ** Specification *)

(** The substring [s[i..j]]. *)
Definition sub (s : list Z) (i j : Z) : list Z :=
  take (Z.to_nat (j - i + 1)) (drop (Z.to_nat i) s).

(** [s[i..j]] reads the same in both directions, by positions. *)
Definition pal (s : list Z) (i j : Z) : Prop :=
  ∀ k, i ≤ k ≤ j → s !! Z.to_nat k = s !! Z.to_nat (i + j - k).

Definition inside (s : list Z) (i j : Z) : Prop := 0 ≤ i ≤ j ∧ j < Z.of_nat (length s).

Lemma sub_length s i j : inside s i j → length (sub s i j) = Z.to_nat (j - i + 1).
Proof. unfold inside, sub. intros H. rewrite length_take, length_drop. lia. Qed.

Lemma sub_lookup s i j k : inside s i j → (k < Z.to_nat (j - i + 1))%nat →
  sub s i j !! k = s !! Z.to_nat (i + Z.of_nat k).
Proof.
  unfold inside, sub. intros H Hk. rewrite lookup_take_lt, lookup_drop by done. f_equal. lia.
Qed.

Lemma pal_reverse s i j : inside s i j → pal s i j ↔ reverse (sub s i j) = sub s i j.
Proof.
  intros Hin. pose proof (sub_length s i j Hin) as Hlen. unfold inside in Hin. split.
  - intros Hp. apply list_eq. intros k. destruct (decide (k < Z.to_nat (j - i + 1))%nat) as [Hk|Hk].
    + rewrite reverse_lookup, Hlen by lia. rewrite !sub_lookup by (done || lia).
      rewrite (Hp (i + Z.of_nat k)) by lia. f_equal. lia.
    + rewrite !lookup_ge_None_2 by (rewrite ?length_reverse; lia). done.
  - intros Hr k Hk. pose proof (sub_lookup s i j (Z.to_nat (k - i)) Hin ltac:(lia)) as E1.
    pose proof (sub_lookup s i j (Z.to_nat (j - k)) Hin ltac:(lia)) as E2.
    rewrite <- Hr, reverse_lookup, Hlen in E1 by lia.
    replace (Z.to_nat (j - i + 1) - S (Z.to_nat (k - i)))%nat with (Z.to_nat (j - k)) in E1 by lia.
    rewrite E1 in E2. etransitivity; [|etransitivity; [exact E2|]]; f_equal; lia.
Qed.

(** Stripping and adding the two ends. *)
Lemma pal_inner s i j : pal s i j → i < j → pal s (i + 1) (j - 1).
Proof. intros Hp Hij k Hk. rewrite (Hp k) by lia. f_equal. lia. Qed.

Lemma pal_outer s i j : i ≤ j + 1 → pal s (i + 1) (j - 1) →
  s !! Z.to_nat i = s !! Z.to_nat j → pal s i j.
Proof.
  intros Hij Hp He k Hk. destruct (decide (k = i)) as [->|].
  { rewrite He. f_equal. lia. }
  destruct (decide (k = j)) as [->|].
  { rewrite <- He. f_equal. lia. }
  rewrite (Hp k) by lia. f_equal. lia.
Qed.

Lemma pal_ends s i j : pal s i j → i ≤ j → s !! Z.to_nat i = s !! Z.to_nat j.
Proof. intros Hp Hij. rewrite (Hp i) by lia. f_equal. lia. Qed.

(** Shrinking by [d] around the centre. *)
Lemma pal_shrink s d : ∀ i j, pal s i j → (i + Z.of_nat d ≤ j - Z.of_nat d + 1) →
  pal s (i + Z.of_nat d) (j - Z.of_nat d).
Proof.
  intros i j Hp Hd k Hk. rewrite (Hp k) by lia. f_equal. lia.
Qed.

(** ** Expansion around a centre *)

(** The expansion from [l, r] is palindromic exactly [m] times. *)
Definition expansion (s : list Z) (l r : Z) (m : nat) : Prop :=
  (∀ k, (k < m)%nat → inside s (l - Z.of_nat k) (r + Z.of_nat k) ∧ pal s (l - Z.of_nat k) (r + Z.of_nat k)) ∧
  ~ (inside s (l - Z.of_nat m) (r + Z.of_nat m) ∧ pal s (l - Z.of_nat m) (r + Z.of_nat m)).

Definition pairs (l r : Z) (m : nat) : list (Z * Z) :=
  (λ k, (l - Z.of_nat k, r + Z.of_nat k)) <$> seq 0 m.

Lemma expansion_pairs s l r m i j : l ≤ r → expansion s l r m →
  (i, j) ∈ pairs l r m ↔ i + j = l + r ∧ i ≤ l ∧ inside s i j ∧ pal s i j.
Proof.
  intros Hlr [Hin Hout]. unfold pairs. rewrite list_elem_of_fmap. split.
  - intros (k & [= -> ->] & Hk%elem_of_seq). split_and!; [lia|lia|by apply Hin; lia..].
  - intros (Hsum & Hi & Hins & Hp). exists (Z.to_nat (l - i)). split; [f_equal; lia|].
    apply elem_of_seq. split; [lia|]. destruct (decide (Z.to_nat (l - i) < m)%nat); [lia|].
    destruct Hout. unfold inside in *. split; [lia|].
    replace (l - Z.of_nat m) with (i + Z.of_nat (Z.to_nat (l - i) - m)) by lia.
    replace (r + Z.of_nat m) with (j - Z.of_nat (Z.to_nat (l - i) - m)) by lia.
    apply pal_shrink; [done|lia].
Qed.

Lemma pairs_NoDup l r m : NoDup (pairs l r m).
Proof. unfold pairs. apply (list.NoDup_fmap_2_strong _); [|apply NoDup_seq]. intros x y _ _ [= ? ?]. lia. Qed.

Lemma pairs_S l r m : pairs l r (S m) = (l, r) :: pairs (l - 1) (r + 1) m.
Proof.
  unfold pairs. simpl. f_equal; [f_equal; lia|]. rewrite <- fmap_S_seq, <- list_fmap_compose.
  apply list_fmap_ext. intros k x _. unfold compose. f_equal; lia.
Qed.

Lemma expansion_0 s l r : ~ (inside s l r ∧ pal s l r) → expansion s l r 0.
Proof. intros H. split; [lia|]. by rewrite Z.sub_0_r, Z.add_0_r. Qed.

Lemma expansion_S s l r m : inside s l r → pal s l r → expansion s (l - 1) (r + 1) m →
  expansion s l r (S m).
Proof.
  intros Hin Hp [H1 H2]. split.
  - intros [|k] Hk; [by rewrite Z.sub_0_r, Z.add_0_r|].
    replace (l - Z.of_nat (S k)) with (l - 1 - Z.of_nat k) by lia.
    replace (r + Z.of_nat (S k)) with (r + 1 + Z.of_nat k) by lia. apply H1. lia.
  - replace (l - Z.of_nat (S m)) with (l - 1 - Z.of_nat m) by lia.
    by replace (r + Z.of_nat (S m)) with (r + 1 + Z.of_nat m) by lia.
Qed.

(** One test of either loop: it fails, or the characters are equal and the pair
    is palindromic. *)
Lemma expansion_test s l r : l ≤ r → pal s (l + 1) (r - 1) → inside s l r →
  ∃ a b, vget s l = Ret a ∧ vget s r = Ret b ∧ (a = b ↔ pal s l r).
Proof.
  intros Hlr Hp Hin. unfold inside in Hin.
  destruct (vget_total s l) as (a & Ea & Ha); [lia|]. destruct (vget_total s r) as (b & Eb & Hb); [lia|].
  exists a, b. split_and!; [done..|]. split.
  - intros ->. apply pal_outer; [lia|done|congruence].
  - intros Hq%pal_ends; [congruence|done].
Qed.

Lemma inside_test s l r : l ≤ r →
  (0 <=? l) && (r <? Z.of_nat (length s)) = true ↔ inside s l r.
Proof. intros H. unfold inside. rewrite andb_true_iff, Z.leb_le, Z.ltb_lt. lia. Qed.

Lemma centre_loop_spec s fuel : ∀ l r, l ≤ r → l + 1 < Z.of_nat fuel → (0 < fuel)%nat →
  pal s (l + 1) (r - 1) →
  ∃ m, centre_loop fuel s l r = Ret (r - l - 1 + 2 * Z.of_nat m) ∧ expansion s l r m.
Proof.
  induction fuel as [|fuel IH]; intros l r Hlr Hf Hf0 Hp; [lia|]. simpl.
  destruct ((0 <=? l) && _) eqn:E; simpl; last first.
  { exists 0%nat. split; [f_equal; lia|]. apply expansion_0. intros [Hin _].
    apply inside_test in Hin; [|done]. congruence. }
  apply inside_test in E; [|done].
  destruct (expansion_test s l r Hlr Hp E) as (a & b & -> & -> & Hab). simpl.
  destruct (Z.eqb_spec a b) as [Heq|Hne]; simpl; last first.
  { exists 0%nat. split; [f_equal; lia|]. apply expansion_0. tauto. }
  assert (pal s l r) as Hq by tauto. unfold inside in E.
  destruct (IH (l - 1) (r + 1)) as (m & Em & Hm); [lia..| |].
  { by replace (l - 1 + 1) with l by lia; replace (r + 1 - 1) with r by lia. }
  exists (S m). split; [rewrite Em; f_equal; lia|]. by apply expansion_S.
Qed.

Lemma substr_sub s l r : inside s l r → substr s l (r - l + 1) = Ret (sub s l r).
Proof. unfold inside, substr. intros H. destruct (Z.ltb_spec (Z.of_nat (length s)) l); [lia|done]. Qed.

Lemma int_small z : 0 ≤ z < 2 ^ 31 → int z = Ret z.
Proof.
  intros Hz. unfold int, int_ok, INT_MIN, INT_MAX.
  rewrite (proj2 (Z.leb_le _ _)), (proj2 (Z.leb_le _ _)) by lia. done.
Qed.

Lemma expand_loop_spec s fuel : ∀ l r c res, l ≤ r → l + 1 < Z.of_nat fuel → (0 < fuel)%nat →
  pal s (l + 1) (r - 1) → 0 ≤ c → c + Z.of_nat fuel < 2 ^ 31 →
  ∃ m, expand_loop fuel s (Z.of_nat (length s)) l r c res =
         Ret (c + Z.of_nat m, res ++ ((λ p, sub s p.1 p.2) <$> pairs l r m)) ∧
       expansion s l r m ∧ (m < fuel)%nat.
Proof.
  induction fuel as [|fuel IH]; intros l r c res Hlr Hf Hf0 Hp Hc Hcf; [lia|]. simpl.
  destruct ((0 <=? l) && _) eqn:E; simpl; last first.
  { exists 0%nat. split; [by rewrite app_nil_r, Z.add_0_r|]. split; [|lia].
    apply expansion_0. intros [Hin _]. apply inside_test in Hin; [|done]. congruence. }
  apply inside_test in E; [|done].
  destruct (expansion_test s l r Hlr Hp E) as (a & b & -> & -> & Hab). simpl.
  destruct (Z.eqb_spec a b) as [Heq|Hne]; simpl; last first.
  { exists 0%nat. split; [by rewrite app_nil_r, Z.add_0_r|]. split; [|lia]. apply expansion_0. tauto. }
  assert (pal s l r) as Hq by tauto. rewrite substr_sub by done. simpl.
  rewrite int_small by lia. simpl. unfold inside in E.
  destruct (IH (l - 1) (r + 1) (c + 1) (res ++ [sub s l r])) as (m & Em & Hm & Hmf); [lia..| |lia|lia|].
  { by replace (l - 1 + 1) with l by lia; replace (r + 1 - 1) with r by lia. }
  exists (S m). split; [|split; [by apply expansion_S|lia]].
  rewrite Em, pairs_S, <- app_assoc. do 2 f_equal. lia.
Qed.

Lemma pal_empty s i j : j ≤ i → pal s i j.
Proof. intros H k Hk. f_equal. lia. Qed.

(** The palindromes centred at [i]: of odd length, then of even length. *)
Lemma centres_spec s i res : 0 ≤ i < Z.of_nat (length s) → Z.of_nat (length s) < 2 ^ 30 →
  ∃ m1 m2, expansion s i i m1 ∧ expansion s i (i + 1) m2 ∧
    (m1 ≤ length s)%nat ∧ (m2 ≤ length s)%nat ∧
    expand s i i res = Ret (Z.of_nat m1, res ++ ((λ p, sub s p.1 p.2) <$> pairs i i m1)) ∧
    (∀ res', expand s i (i + 1) res' =
      Ret (Z.of_nat m2, res' ++ ((λ p, sub s p.1 p.2) <$> pairs i (i + 1) m2))) ∧
    expandAroundCenter s i i = Ret (2 * Z.of_nat m1 - 1) ∧
    expandAroundCenter s i (i + 1) = Ret (2 * Z.of_nat m2).
Proof.
  intros Hi Hlen. unfold expand, expandAroundCenter.
  assert (to_int (Z.of_nat (length s)) = Z.of_nat (length s)) as ->.
  { unfold to_int. rewrite Z.mod_small; lia. }
  destruct (expand_loop_spec s (S (length s)) i i 0 res) as (m1 & E1 & H1 & L1);
    [lia..|by apply pal_empty; lia|lia|lia|].
  assert (pal s (i + 1) (i + 1 - 1)) as Hp2 by (apply pal_empty; lia).
  destruct (centre_loop_spec s (S (length s)) i (i + 1)) as (m2 & E2 & H2); [lia..|done|].
  destruct (centre_loop_spec s (S (length s)) i i) as (m1' & E1' & H1'); [lia..|by apply pal_empty; lia|].
  assert (∀ l r a b, l ≤ r → expansion s l r a → expansion s l r b → a = b) as Huniq.
  { intros l r a b Hlr [A1 A2] [B1 B2]. destruct (Nat.lt_trichotomy a b) as [?|[?|?]]; [|done|].
    - destruct A2. by apply B1.
    - destruct B2. by apply A1. }
  assert (m1' = m1) as -> by (eapply Huniq; [|done..]; lia).
  assert (∀ res', (m2 ≤ length s)%nat ∧ expand_loop (S (length s)) s (Z.of_nat (length s)) i (i + 1) 0 res' =
      Ret (Z.of_nat m2, res' ++ ((λ p, sub s p.1 p.2) <$> pairs i (i + 1) m2))) as E3.
  { intros res'. destruct (expand_loop_spec s (S (length s)) i (i + 1) 0 res') as (m & E & H & L);
      [lia..|done|lia|lia|]. assert (m = m2) as -> by (eapply Huniq; [|done..]; lia).
    rewrite E. split; [lia|done]. }
  exists m1, m2. split_and!; [done|done|lia|apply (E3 res)| |apply E3| |].
  - rewrite E1. by rewrite Z.add_0_l.
  - rewrite E1'. f_equal. lia.
  - rewrite E2. f_equal. lia.
Qed.

(** ** Counting *)

(** All [0 <= i <= j < n]. *)
Definition index_pairs (n : nat) : list (Z * Z) :=
  i ← seqZ 0 (Z.of_nat n); j ← seqZ i (Z.of_nat n - i); [(i, j)].

(** The palindromes among all non-empty substrings, with multiplicity. *)
Definition palindromic_substrings (s : list Z) : list (list Z) :=
  filter (λ t, reverse t = t) ((λ p, sub s p.1 p.2) <$> index_pairs (length s)).

Lemma elem_of_index_pairs n i j : (i, j) ∈ index_pairs n ↔ 0 ≤ i ≤ j ∧ j < Z.of_nat n.
Proof.
  unfold index_pairs. rewrite list_elem_of_bind. setoid_rewrite list_elem_of_bind.
  setoid_rewrite elem_of_seqZ. setoid_rewrite list_elem_of_singleton. split.
  - intros (a & (b & [= -> ->] & Hb) & Ha). lia.
  - intros H. exists i. split; [|lia]. exists j. split; [done|lia].
Qed.

Lemma NoDup_index_pairs n : NoDup (index_pairs n).
Proof.
  unfold index_pairs. apply list.NoDup_bind; [| |apply NoDup_seqZ].
  - intros i1 i2 [a b] _ _ H1 H2. set_solver.
  - intros i _. apply list.NoDup_bind; [set_solver|intros; apply NoDup_singleton|apply NoDup_seqZ].
Qed.

Lemma filter_fmap_filter {A B} (f : A → B) (P : B → Prop) (Q : A → Prop)
    `{!∀ x, Decision (P x), !∀ x, Decision (Q x)} l :
  Forall (λ x, P (f x) ↔ Q x) l → filter P (f <$> l) = f <$> filter Q l.
Proof.
  induction 1 as [|x l Hx _ IH]; [done|]. rewrite fmap_cons, !filter_cons, IH.
  destruct (decide (P (f x))), (decide (Q x)); try done; tauto.
Qed.

Lemma NoDup_app_sums (P Q : list (Z * Z)) (c : Z) :
  NoDup P → NoDup Q → (∀ a b, (a, b) ∈ P → a + b = c) → (∀ a b, (a, b) ∈ Q → c < a + b) →
  NoDup (P ++ Q).
Proof.
  intros HP HQ Hs Ht. apply list.NoDup_app. split_and!; [done| |done].
  intros [a b] Ha Hb. apply Hs in Ha. apply Ht in Hb. lia.
Qed.

Lemma count_loop_spec s k : Z.of_nat (length s) ≤ 1000 → ∀ i count res,
  0 ≤ i → i + Z.of_nat k = Z.of_nat (length s) → 0 ≤ count → count + 2000 * Z.of_nat k < 2 ^ 31 →
  ∃ P, count_loop k s i count res =
         Ret (count + Z.of_nat (length P), res ++ ((λ p, sub s p.1 p.2) <$> P)) ∧
       NoDup P ∧ ∀ a b, (a, b) ∈ P ↔ inside s a b ∧ pal s a b ∧ 2 * i ≤ a + b.
Proof.
  intros Hlen. induction k as [|k IH]; intros i count res Hi Hik Hc Hb; cbn [count_loop].
  { exists []. split; [by rewrite app_nil_r, Z.add_0_r|]. split; [constructor|].
    intros a b. rewrite elem_of_nil. unfold inside. lia. }
  destruct (centres_spec s i res) as (m1 & m2 & X1 & X2 & L1 & L2 & E1 & E2 & _); [lia..|].
  rewrite E1, bind_Ret. cbn [fst snd]. rewrite int_small, bind_Ret by lia.
  rewrite E2, bind_Ret. cbn [fst snd]. rewrite int_small, bind_Ret by lia.
  destruct (IH (i + 1) (count + Z.of_nat m1 + Z.of_nat m2)
    ((res ++ ((λ p, sub s p.1 p.2) <$> pairs i i m1)) ++ ((λ p, sub s p.1 p.2) <$> pairs i (i + 1) m2)))
    as (P & EP & HnP & HP); [lia..|].
  pose proof (λ a b, expansion_pairs s i i m1 a b (Z.le_refl i) X1) as M1.
  pose proof (λ a b, expansion_pairs s i (i + 1) m2 a b ltac:(lia) X2) as M2.
  exists (pairs i i m1 ++ pairs i (i + 1) m2 ++ P). split; [|split].
  - rewrite EP. f_equal. f_equal; [|by rewrite !fmap_app, <- !app_assoc].
    rewrite !length_app. unfold pairs. rewrite !length_fmap, !length_seq. lia.
  - apply (NoDup_app_sums _ _ (2 * i)); [apply pairs_NoDup| |intros a b (?&?&?&?)%M1; lia|].
    + apply (NoDup_app_sums _ _ (2 * i + 1)); [apply pairs_NoDup|done| |].
      * intros a b (?&?&?&?)%M2. lia.
      * intros a b (?&?&?)%HP. lia.
    + intros a b [(?&?&?&?)%M2|(?&?&?)%HP]%elem_of_app; lia.
  - intros a b. rewrite !elem_of_app, M1, M2, HP. split.
    + intros [(?&?&?&?)|[(?&?&?&?)|(?&?&?)]]; split_and!; (done || lia).
    + intros (Hin & Hp & Hs). unfold inside in Hin.
      destruct (decide (a + b = 2 * i)); [left; split_and!; (done || lia)|].
      destruct (decide (a + b = 2 * i + 1)); [right; left; split_and!; (done || lia)|].
      right. right. split_and!; (done || lia).
Qed.

(** For strings within the stated limit of 1000 characters,
    [countPalindromes] collects exactly the palindromes among all non-empty
    substrings, each position counted once, and returns their number. *)
Theorem countPalindromes_correct s :
  Z.of_nat (length s) ≤ 1000 →
  ∃ result, countPalindromes s [] = Ret (Z.of_nat (length result), result) ∧
    result ≡ₚ palindromic_substrings s.
Proof.
  intros Hlen. unfold countPalindromes.
  assert (to_int (Z.of_nat (length s)) = Z.of_nat (length s)) as ->.
  { unfold to_int. rewrite Z.mod_small; lia. }
  destruct (count_loop_spec s (length s) Hlen 0 0 []) as (P & EP & HnP & HP); [lia..|].
  rewrite Nat2Z.id, EP. exists ((λ p, sub s p.1 p.2) <$> P).
  split; [by rewrite Z.add_0_l, length_fmap|].
  unfold palindromic_substrings.
  rewrite (filter_fmap_filter _ _ (λ p, reverse (sub s p.1 p.2) = sub s p.1 p.2))
    by (apply Forall_lookup_2; done).
  apply fmap_Permutation, NoDup_Permutation; [done|apply list.NoDup_filter, NoDup_index_pairs|].
  intros [a b]. rewrite HP, list_elem_of_filter, elem_of_index_pairs. simpl. split.
  - intros (Hin & Hp & _). split; [by apply pal_reverse|done].
  - intros [Hr Hin]. split; [done|]. split; [by apply pal_reverse|lia].
Qed.

Lemma countPalindromes_correct_witness :
  ∃ result, countPalindromes [97; 98; 97; 98; 97] [] = Ret (Z.of_nat (length result), result).
Proof.
  destruct (countPalindromes_correct [97; 98; 97; 98; 97]) as (r & E & _).
  - vm_compute. discriminate.
  - by exists r.
Defined.

Lemma count_ababa : fst <$> countPalindromes [97; 98; 97; 98; 97] [] = Ret 9.
Proof. reflexivity. Qed.

(** ** The longest palindrome *)

Definition best (s : list Z) (i st en : Z) : Prop :=
  inside s st en ∧ pal s st en ∧ ∀ a b, inside s a b → pal s a b → a + b < 2 * i → b - a ≤ en - st.

(** The longest palindrome of a centre. *)
Lemma expansion_longest s l r m a b : l ≤ r → expansion s l r m → inside s a b → pal s a b →
  a + b = l + r → b - a + 1 ≤ r - l - 1 + 2 * Z.of_nat m.
Proof.
  intros Hlr Hx Hin Hp Hsum. unfold inside in Hin.
  assert ((a, b) ∈ pairs l r m ∨ l < a) as [Hab|?].
  { destruct (decide (l < a)); [by right|left]. apply (expansion_pairs s); [done..|]. split_and!; (done || lia). }
  - unfold pairs in Hab. apply list_elem_of_fmap in Hab as (k & [= -> ->] & Hk%elem_of_seq). lia.
  - lia.
Qed.

Lemma longest_loop_spec s k : Z.of_nat (length s) < 2 ^ 30 → ∀ i st en,
  0 ≤ i → i + Z.of_nat k = Z.of_nat (length s) → best s i st en →
  ∃ st' en', longest_loop k s i st en = Ret (st', en') ∧ best s (Z.of_nat (length s)) st' en'.
Proof.
  intros Hlen. induction k as [|k IH]; intros i st en Hi Hik Hb; cbn [longest_loop].
  { exists st, en. split; [done|]. by replace (Z.of_nat (length s)) with i by lia. }
  destruct (centres_spec s i []) as (m1 & m2 & X1 & X2 & _ & _ & _ & _ & E1 & E2); [lia..|].
  rewrite E1, bind_Ret, E2, bind_Ret. cbv zeta. destruct Hb as (Hin & Hp & Hmax).
  assert (∀ a b, inside s a b → pal s a b → a + b < 2 * (i + 1) →
    b - a ≤ en - st ∨ b - a + 1 ≤ Z.max (2 * Z.of_nat m1 - 1) (2 * Z.of_nat m2)) as Hnew.
  { intros a b Ha Hpa Hs. destruct (decide (a + b < 2 * i)); [left; by apply Hmax|right].
    destruct (decide (a + b = i + i)).
    - pose proof (expansion_longest s i i m1 a b ltac:(lia) X1 Ha Hpa). lia.
    - pose proof (expansion_longest s i (i + 1) m2 a b ltac:(lia) X2 Ha Hpa). lia. }
  unfold inside in Hin.
  destruct (Z.ltb_spec (en - st + 1) (Z.max (2 * Z.of_nat m1 - 1) (2 * Z.of_nat m2))) as [Hlt|Hge].
  - apply IH; [lia..|]. rewrite !Z.quot_div_nonneg by lia.
    destruct (Z.max_spec (2 * Z.of_nat m1 - 1) (2 * Z.of_nat m2)) as [[Hm Hx]|[Hm Hx]];
      rewrite Hx in *; clear Hx.
    + replace (i - _) with (i - Z.of_nat (m2 - 1)) by (Z.to_euclidean_division_equations; lia).
      replace (i + 2 * Z.of_nat m2 / 2) with (i + 1 + Z.of_nat (m2 - 1)) by (Z.to_euclidean_division_equations; lia).
      destruct (proj1 X2 (m2 - 1)%nat) as [Hin' Hp']; [lia|]. split_and!; [done..|].
      intros a b Ha Hpa Hs. specialize (Hnew a b Ha Hpa Hs). lia.
    + replace (i - _) with (i - Z.of_nat (m1 - 1)) by (Z.to_euclidean_division_equations; lia).
      replace (i + (2 * Z.of_nat m1 - 1) / 2) with (i + Z.of_nat (m1 - 1)) by (Z.to_euclidean_division_equations; lia).
      destruct (proj1 X1 (m1 - 1)%nat) as [Hin' Hp']; [lia|]. split_and!; [done..|].
      intros a b Ha Hpa Hs. specialize (Hnew a b Ha Hpa Hs). lia.
  - apply IH; [lia..|]. split_and!; [done..|].
    intros a b Ha Hpa Hs. specialize (Hnew a b Ha Hpa Hs). lia.
Qed.

(** [longestPalindrome] returns a palindromic substring, and no palindromic
    substring is longer. *)
Theorem longestPalindrome_correct s :
  s ≠ [] → Z.of_nat (length s) < 2 ^ 30 →
  ∃ t, longestPalindrome s = Ret t ∧ t ∈ palindromic_substrings s ∧
    ∀ t', t' ∈ palindromic_substrings s → (length t' ≤ length t)%nat.
Proof.
  intros Hne Hlen. assert (0 < length s)%nat by (destruct s; simpl; [done|lia]).
  destruct (longest_loop_spec s (length s) Hlen 0 0 0) as (st & en & E & Hin & Hp & Hmax); [lia..| |].
  { split_and!; [unfold inside; lia|by apply pal_empty; lia|]. unfold inside. lia. }
  exists (sub s st en). unfold longestPalindrome. destruct s as [|c s']; [done|].
  remember (c :: s') as s eqn:Hs. clear Hs c s'. rewrite E, bind_Ret. cbn [fst snd].
  split; [by apply substr_sub|]. unfold palindromic_substrings. split.
  - apply list_elem_of_filter. split; [by apply pal_reverse|].
    apply list_elem_of_fmap. exists (st, en). split; [done|]. by apply elem_of_index_pairs.
  - intros t' [Hr ([a b] & -> & Hab%elem_of_index_pairs)%list_elem_of_fmap]%list_elem_of_filter.
    simpl in *. rewrite !sub_length by done. apply pal_reverse in Hr; [|done].
    specialize (Hmax a b Hab Hr). unfold inside in *. lia.
Qed.

Lemma longestPalindrome_correct_witness :
  ∃ t, longestPalindrome [98; 97; 98; 97; 100] = Ret t ∧ t ∈ palindromic_substrings [98; 97; 98; 97; 100].
Proof.
  destruct (longestPalindrome_correct [98; 97; 98; 97; 100]) as (t & E & Ht & _).
  - discriminate.
  - reflexivity.
  - exists t. split; [exact E|exact Ht].
Defined.

(** The brute-force version passes the end of the substring as its length: on
    "xaay" it returns "aay", which is not a palindrome. *)
Lemma brute_force_wrong :
  longestPalindromeBruteForce [120; 97; 97; 121] = Ret [97; 97; 121] ∧
  longestPalindrome [120; 97; 97; 121] = Ret [97; 97].
Proof. split; reflexivity. Qed.
