(* ===== verification/ArithString.v ===== *)
(** * arithmeticString.cpp

    [evaluateExpression]: sums of products of decimal numbers, in one pass with
    four variables.  [long long] overflow is a failure. *)

From stdpp Require Import base list numbers.
From Stdlib Require Import ZArith Lia.
From S2P Require Import Prelude.

Definition LLONG_MAX : Z := 2 ^ 63 - 1.
Definition LLONG_MIN : Z := - 2 ^ 63.

Definition long_long (z : Z) : outcome Z :=
  if (LLONG_MIN <=? z) && (z <=? LLONG_MAX) then Ret z else Err SignedOverflow.

(** The characters of the source. *)
Definition plus : Z := 43.
Definition star : Z := 42.
Definition zero : Z := 48.
Definition isdigit (c : Z) : bool := (48 <=? c) && (c <=? 57).

Record vars := mkVars { result : Z; current_term : Z; last_op : Z; current_num : Z }.

(** [if (last_op == '+') ... else if (last_op == '*') ...] *)
Definition apply_op (v : vars) : outcome vars :=
  if last_op v =? plus then
    r ← long_long (result v + current_term v);
    Ret (mkVars r (current_num v) (last_op v) (current_num v))
  else if last_op v =? star then
    t ← long_long (current_term v * current_num v);
    Ret (mkVars (result v) t (last_op v) (current_num v))
  else Ret v.

(** The body of the loop. *)
Definition feed (v : vars) (c : Z) : outcome vars :=
  if isdigit c then
    n ← long_long (current_num v * 10);
    n ← long_long (n + (c - zero));
    Ret (mkVars (result v) (current_term v) (last_op v) n)
  else if (c =? plus) || (c =? star) then
    v ← apply_op v;
    Ret (mkVars (result v) (current_term v) c 0)
  else Ret v.

Fixpoint feed_all (v : vars) (s : list Z) : outcome vars :=
  match s with [] => Ret v | c :: s => v ← feed v c; feed_all v s end.

Definition evaluateExpression (expression : list Z) : outcome Z :=
  v ← feed_all (mkVars 0 0 plus 0) expression;
  v ← apply_op v;
  long_long (result v + current_term v).

(** ** The specification: split at [+], split at [*], read the digits *)

Fixpoint split_on (sep : Z) (s : list Z) : list (list Z) :=
  match s with
  | [] => [[]]
  | c :: s =>
      match split_on sep s with
      | f :: fs => if c =? sep then [] :: f :: fs else (c :: f) :: fs
      | [] => []
      end
  end.

(** The decimal number of the digits of a factor; other characters are skipped. *)
Definition decimal (n : Z) (f : list Z) : Z :=
  foldl (λ n c, if isdigit c then n * 10 + (c - zero) else n) n f.

Definition product (fs : list Z) : Z := foldr Z.mul 1 fs.
Definition sum (ts : list Z) : Z := foldr Z.add 0 ts.

(** [g] is applied to each factor: the identity for the value. *)
Definition value_with (g : Z → Z) (s : list Z) : Z :=
  sum ((λ t, product ((λ f, g (decimal 0 f)) <$> split_on star t)) <$> split_on plus s).

Definition value (s : list Z) : Z := value_with (λ n, n) s.

Definition at_least_1 (n : Z) : Z := Z.max 1 n.

(** A bound of all intermediate results: the value with zero factors read as 1. *)
Definition magnitude (s : list Z) : Z := value_with at_least_1 s.

(** ** The value by one pass *)

Fixpoint scan (g : Z → Z) (p n : Z) (s : list Z) : Z :=
  match s with
  | [] => p * g n
  | c :: s =>
      if isdigit c then scan g p (n * 10 + (c - zero)) s
      else if c =? plus then p * g n + scan g 1 0 s
      else if c =? star then scan g (p * g n) 0 s
      else scan g p n s
  end.

(** The value of the rest of a string whose first factor has begun with [n] and
    whose first term with the product [p]. *)
Definition rest_value (g : Z → Z) (p n : Z) (s : list Z) : Z :=
  match split_on plus s with
  | [] => 0
  | t :: ts =>
      match split_on star t with
      | [] => 0
      | f :: fs => p * (g (decimal n f) * product ((λ f, g (decimal 0 f)) <$> fs))
      end + sum ((λ t, product ((λ f, g (decimal 0 f)) <$> split_on star t)) <$> ts)
  end.

Lemma split_on_cons sep c s : ∃ f fs, split_on sep s = f :: fs ∧
  split_on sep (c :: s) = if c =? sep then [] :: f :: fs else (c :: f) :: fs.
Proof.
  assert (∃ f fs, split_on sep s = f :: fs) as (f & fs & E).
  { induction s as [|a s (f & fs & IH)]; simpl; [eauto|]. rewrite IH. destruct (a =? sep); eauto. }
  exists f, fs. split; [done|]. simpl. by rewrite E.
Qed.

Lemma scan_rest g s : ∀ p n, scan g p n s = rest_value g p n s.
Proof.
  induction s as [|c s IH]; intros p n; unfold rest_value.
  { simpl. unfold product. simpl. lia. }
  destruct (split_on_cons plus c s) as (t & ts & Et & ->).
  cbn [scan]. rewrite !IH. unfold rest_value. rewrite Et.
  destruct (Z.eqb_spec c plus) as [->|Hp].
  - change (isdigit plus) with false.
    destruct (split_on_cons star 0 t) as (f & fs & Ef & _).
    unfold product, decimal. csimpl. rewrite Ef. csimpl. lia.
  - destruct (split_on_cons star c t) as (f & fs & Ef & ->). rewrite Ef.
    destruct (Z.eqb_spec c star) as [->|Hs].
    + change (isdigit star) with false. unfold product, decimal. csimpl. lia.
    + unfold decimal. csimpl. destruct (isdigit c); done.
Qed.

Lemma value_scan g s : value_with g s = scan g 1 0 s.
Proof.
  rewrite scan_rest. unfold value_with, rest_value.
  destruct (split_on plus s) as [|t ts]; [done|]. csimpl.
  destruct (split_on_cons star 0 t) as (f & fs & -> & _). unfold product. csimpl. lia.
Qed.

(** ** The loop computes it *)

(** What the variables stand for when [s] is still to be read. *)
Definition meaning (g : Z → Z) (v : vars) (s : list Z) : Z :=
  if last_op v =? plus then result v + current_term v + scan g 1 (current_num v) s
  else result v + scan g (current_term v) (current_num v) s.

Definition op_ok (v : vars) : Prop := last_op v = plus ∨ last_op v = star.

Lemma long_long_Ret z x : long_long z = Ret x → x = z.
Proof. unfold long_long. destruct (_ && _); [by intros [= ->]|done]. Qed.

Lemma apply_op_value v v' : op_ok v → apply_op v = Ret v' →
  result v' + current_term v' = meaning (λ n, n) v [].
Proof.
  unfold apply_op, meaning. intros [E|E]; rewrite E; simpl.
  - intros H. inv_ret. apply long_long_Ret in Ha. subst. simpl. lia.
  - intros H. inv_ret. apply long_long_Ret in Ha. subst. simpl. lia.
Qed.

Lemma feed_value v c v' s : op_ok v → feed v c = Ret v' →
  op_ok v' ∧ meaning (λ n, n) v' s = meaning (λ n, n) v (c :: s).
Proof.
  unfold feed. intros Hop H. destruct (isdigit c) eqn:Hd.
  - inv_ret. apply long_long_Ret in Ha, Ha0. subst. split; [done|].
    unfold meaning. simpl. rewrite Hd. done.
  - destruct ((c =? plus) || (c =? star)) eqn:Hc; last first.
    + inv_ret. split; [done|]. apply orb_false_iff in Hc as [H1 H2].
      unfold meaning. simpl. rewrite Hd, H1, H2. done.
    + inv_ret. apply (apply_op_value v) in Ha as Hv; [|done].
      assert (op_ok (mkVars (result a) (current_term a) c 0)) as Hok.
      { apply orb_true_iff in Hc as [->%Z.eqb_eq| ->%Z.eqb_eq]; [by left|by right]. }
      split; [done|]. destruct Hok as [E|E]; simpl in E; subst c; unfold meaning; simpl.
      * rewrite Hv. unfold meaning. simpl. destruct (last_op v =? plus); lia.
      * clear Hv Hc Hd. unfold apply_op in Ha. destruct Hop as [E|E]; rewrite E in *; simpl in *;
          inv_ret; apply long_long_Ret in Ha0; subst; simpl; [|done].
        f_equal. f_equal. lia.
Qed.

Lemma feed_all_value s : ∀ v v', op_ok v → feed_all v s = Ret v' →
  op_ok v' ∧ meaning (λ n, n) v' [] = meaning (λ n, n) v s.
Proof.
  induction s as [|c s IH]; intros v v' Hop H; simpl in H; inv_ret; [done|].
  destruct (feed_value v c a s Hop Ha) as [Hop' <-]. by apply IH.
Qed.

(** ** Absence of overflow *)

Lemma long_long_ok z : 0 ≤ z ≤ LLONG_MAX → long_long z = Ret z.
Proof.
  unfold long_long, LLONG_MAX, LLONG_MIN. intros H.
  rewrite (proj2 (Z.leb_le _ _)), (proj2 (Z.leb_le _ _)) by lia. done.
Qed.

Lemma at_least_1_ge n : 1 ≤ at_least_1 n ∧ n ≤ at_least_1 n.
Proof. unfold at_least_1. lia. Qed.

Lemma scan_max_ge s : ∀ p n, 1 ≤ p → 0 ≤ n → p * at_least_1 n ≤ scan at_least_1 p n s.
Proof.
  induction s as [|c s IH]; intros p n Hp Hn; cbn [scan]; [lia|].
  pose proof (at_least_1_ge n). destruct (isdigit c) eqn:Hd.
  - apply andb_true_iff in Hd as [H1%Z.leb_le H2%Z.leb_le]. unfold zero.
    etransitivity; [|apply IH; lia]. unfold at_least_1. nia.
  - destruct (c =? plus).
    { specialize (IH 1 0 ltac:(lia) ltac:(lia)). change (1 * at_least_1 0) with 1 in IH. lia. }
    destruct (c =? star); [|by apply IH].
    etransitivity; [|apply IH; nia]. change (at_least_1 0) with 1. lia.
Qed.

Lemma scan_max_mono s : ∀ p p' n, 0 ≤ p ≤ p' → scan at_least_1 p n s ≤ scan at_least_1 p' n s.
Proof.
  induction s as [|c s IH]; intros p p' n Hp; cbn [scan];
    pose proof (at_least_1_ge n); [nia|].
  destruct (isdigit c); [by apply IH|]. destruct (c =? plus); [apply Z.add_le_mono_r; nia|].
  destruct (c =? star); [apply IH; nia|by apply IH].
Qed.

(** The invariant of a run without overflow. *)
Definition bounded (v : vars) (s : list Z) : Prop :=
  op_ok v ∧ 0 ≤ result v ∧ 0 ≤ current_term v ∧ 0 ≤ current_num v ∧
  (if last_op v =? plus
   then result v + current_term v + scan at_least_1 1 (current_num v) s ≤ LLONG_MAX
   else result v + scan at_least_1 (at_least_1 (current_term v)) (current_num v) s ≤ LLONG_MAX).

Lemma bounded_cases v s : bounded v s →
  (last_op v = plus ∧ result v + current_term v + scan at_least_1 1 (current_num v) s ≤ LLONG_MAX ∨
   last_op v = star ∧ result v + scan at_least_1 (at_least_1 (current_term v)) (current_num v) s ≤ LLONG_MAX).
Proof. intros ([E|E] & _ & _ & _ & H); rewrite E in H; [by left|by right]. Qed.

Lemma apply_op_bounded v s : bounded v s → ∃ v', apply_op v = Ret v' ∧
  0 ≤ result v' ∧ 0 ≤ current_term v' ∧ result v' + current_term v' ≤ LLONG_MAX ∧
  result v' = (if last_op v =? plus then result v + current_term v else result v) ∧
  current_term v' = (if last_op v =? plus then current_num v else current_term v * current_num v).
Proof.
  intros Hb. pose proof (bounded_cases v s Hb) as Hc. destruct Hb as (_ & Hr & Ht & Hn & _).
  pose proof (at_least_1_ge (current_num v)). pose proof (at_least_1_ge (current_term v)).
  unfold apply_op. destruct Hc as [[E Hc]|[E Hc]]; rewrite E; simpl.
  - pose proof (scan_max_ge s 1 (current_num v) ltac:(lia) Hn).
    rewrite long_long_ok by lia. simpl. eexists. split; [done|]. simpl. lia.
  - pose proof (scan_max_ge s (at_least_1 (current_term v)) (current_num v) ltac:(lia) Hn).
    assert (0 ≤ current_term v * current_num v ≤ at_least_1 (current_term v) * at_least_1 (current_num v)) by nia.
    set (M := at_least_1 (current_term v) * at_least_1 (current_num v)) in *. clearbody M.
    set (P := current_term v * current_num v) in *. clearbody P.
    rewrite long_long_ok by lia. simpl. eexists. split; [done|]. simpl. lia.
Qed.

Lemma feed_bounded v c s : bounded v (c :: s) → ∃ v', feed v c = Ret v' ∧ bounded v' s.
Proof.
  intros Hb. pose proof (bounded_cases v _ Hb) as Hc. pose proof Hb as (Hop & Hr & Ht & Hn & _).
  pose proof (at_least_1_ge (current_num v)). pose proof (at_least_1_ge (current_term v)).
  unfold feed. cbn [scan] in Hc. destruct (isdigit c) eqn:Hd.
  - pose proof Hd as [H1%Z.leb_le H2%Z.leb_le]%andb_true_iff. unfold zero in *.
    pose proof (at_least_1_ge (current_num v * 10 + (c - 48))).
    pose proof (scan_max_ge s 1 (current_num v * 10 + (c - 48)) ltac:(lia) ltac:(lia)).
    pose proof (scan_max_ge s (at_least_1 (current_term v)) (current_num v * 10 + (c - 48)) ltac:(lia) ltac:(lia)).
    assert (current_num v * 10 + (c - 48) ≤ LLONG_MAX) by (destruct Hc as [[_ Hc]|[_ Hc]]; nia).
    rewrite long_long_ok by lia. simpl. rewrite long_long_ok by lia. simpl.
    eexists. split; [done|]. split_and!; simpl; try done; try lia.
    destruct Hc as [[-> Hc]|[-> Hc]]; done.
  - destruct ((c =? plus) || (c =? star)) eqn:Hcc; last first.
    { eexists. split; [done|]. apply orb_false_iff in Hcc as [E1 E2]. rewrite E1, E2 in Hc.
      split_and!; try done. destruct Hc as [[-> Hc]|[-> Hc]]; done. }
    destruct (apply_op_bounded v _ Hb) as (v' & -> & Hr' & Ht' & _ & Er & Et). simpl.
    eexists. split; [done|]. apply orb_true_iff in Hcc as [Ec%Z.eqb_eq|Ec%Z.eqb_eq]; subst c.
    + split_and!; simpl; try done; [by left|].
      destruct Hc as [[E Hc]|[E Hc]]; rewrite E in *; simpl in *; [lia|].
      assert (current_term v * current_num v ≤ at_least_1 (current_term v) * at_least_1 (current_num v)) by nia. lia.
    + split_and!; simpl; try done; [by right|].
      destruct Hc as [[E Hc]|[E Hc]]; rewrite E in *; simpl in *; rewrite Er, Et.
      * by rewrite Z.mul_1_l in Hc.
      * etransitivity; [|exact Hc]. apply Z.add_le_mono_l, scan_max_mono. unfold at_least_1. nia.
Qed.

Lemma feed_all_bounded s : ∀ v, bounded v s → ∃ v', feed_all v s = Ret v' ∧ bounded v' [].
Proof.
  induction s as [|c s IH]; intros v Hb; simpl; [by exists v|].
  destruct (feed_bounded v c s Hb) as (v1 & -> & Hb1). simpl. by apply IH.
Qed.

(** ** The property *)

(** Whenever [evaluateExpression] returns, on any string, the result is the
    sum over the [+]-separated terms of the product of their [*]-separated
    decimal factors; and it does return, without overflow, when that value with
    zero factors read as one fits in a [long long]. *)
Theorem evaluateExpression_correct s :
  (∀ r, evaluateExpression s = Ret r → r = value s) ∧
  (magnitude s ≤ LLONG_MAX → evaluateExpression s = Ret (value s)).
Proof.
  assert (∀ r, evaluateExpression s = Ret r → r = value s) as Hval.
  { intros r H. unfold evaluateExpression in H. inv_ret. apply long_long_Ret in H. subst r.
    destruct (feed_all_value s (mkVars 0 0 plus 0) a) as [Hop Hm]; [by left|done|].
    rewrite (apply_op_value a a0 Hop Ha0), Hm. unfold meaning, value. rewrite value_scan. done. }
  split; [done|]. intros Hmag.
  assert (∃ r, evaluateExpression s = Ret r) as [r Hr]; [|by rewrite Hr, (Hval r Hr)].
  unfold evaluateExpression. destruct (feed_all_bounded s (mkVars 0 0 plus 0)) as (v & -> & Hb).
  { split_and!; simpl; try lia; [by left|]. unfold magnitude in Hmag. by rewrite value_scan in Hmag. }
  simpl. destruct (apply_op_bounded v _ Hb) as (v' & -> & H1 & H2 & H3 & _). simpl.
  rewrite long_long_ok by lia. eauto.
Qed.

(** ["12 + 3 * 5"] *)
Lemma evaluate_demo : evaluateExpression [49; 50; 32; 43; 32; 51; 32; 42; 32; 53] = Ret 27.
Proof. reflexivity. Qed.
