(* ===== verification/DigitStrings.v ===== *)
(** * Digit strings: arista/nextGreaterElement.cpp, removeDigit.cpp and
    removeOneDigitToMin.cpp

    A string is the list of its characters; comparison of strings is
    lexicographic. *)

From stdpp Require Import base list sets strings numbers sorting.
From Stdlib Require Import ZArith Lia.
From S2P Require Import Prelude.

(** [swap(N[i], N[j])] *)
Definition swap (i j : Z) (N : list Z) : outcome (list Z) :=
  a ← vget N i; b ← vget N j; N ← vset N i b; vset N j a.

(** [reverse(N.begin() + i, N.end())] *)
Definition reverse_from (i : Z) (N : list Z) : list Z :=
  take (Z.to_nat i) N ++ reverse (drop (Z.to_nat i) N).

(** ** nextPermutation *)

(** "Not Possible" *)
Definition NotPossible : list Z := [78; 111; 116; 32; 80; 111; 115; 115; 105; 98; 108; 101].

(** [for (i = ...; i > 0; i--) if (N[i] > N[i - 1]) break;] *)
Fixpoint pivot_loop (i : nat) (N : list Z) : outcome Z :=
  match i with
  | O => Ret 0
  | S i' =>
      a ← vget N (Z.of_nat i);
      b ← vget N (Z.of_nat i');
      if b <? a then Ret (Z.of_nat i) else pivot_loop i' N
  end.

(** [for (j = ...; j >= i; j--) if (N[i - 1] < N[j]) { swap; break; }]: [k] is
    the number of positions left. *)
Fixpoint swap_loop (k : nat) (i j : Z) (N : list Z) : outcome (list Z) :=
  match k with
  | O => Ret N
  | S k =>
      a ← vget N (i - 1);
      b ← vget N j;
      if a <? b then swap (i - 1) j N else swap_loop k i (j - 1) N
  end.

Definition nextPermutation (N : list Z) : outcome (list Z) :=
  if Z.of_nat (length N) =? 1 then Ret NotPossible else
  let last := to_int (u64 (Z.of_nat (length N) - 1)) in
  i ← (if 0 <? last then pivot_loop (Z.to_nat last) N else Ret last);
  _ ← vget N i;
  if i =? 0 then Ret NotPossible else
  N ← swap_loop (Z.to_nat (last - i + 1)) i last N;
  Ret (reverse_from i N).

(** ** nextGreaterElement *)

(** The decimal digits of a non-negative number; [n] digits at most. *)
Fixpoint dec_digits (n : nat) (z : Z) : list Z :=
  match n with
  | O => []
  | S n => if z <? 10 then [48 + z] else dec_digits n (z / 10) ++ [48 + z mod 10]
  end.

Definition to_string (n : Z) : list Z :=
  if n <? 0 then 45 :: dec_digits 10 (- n) else dec_digits 10 n.

Definition isdigit (c : Z) : bool := (48 <=? c) && (c <=? 57).

Fixpoint leading_digits (s : list Z) : list Z :=
  match s with c :: s => if isdigit c then c :: leading_digits s else [] | [] => [] end.

(** The number that a list of digits denotes. *)
Definition num_val (s : list Z) : Z := foldl (λ n c, n * 10 + (c - 48)) 0 s.

(** [stol]: an optional minus sign, then the longest run of digits; no digits
    is an exception. *)
Definition stol (s : list Z) : outcome Z :=
  let neg := match s with 45 :: _ => true | _ => false end in
  let ds := leading_digits (if neg then drop 1 s else s) in
  match ds with
  | [] => Err (Exn "stol")
  | _ => Ret (if neg then - num_val ds else num_val ds)
  end.

(** [while (pivotIndex >= 0 && digits[pivotIndex] >= digits[pivotIndex + 1]) pivotIndex--;]
    with [k = pivotIndex + 1]. *)
Fixpoint find_pivot (k : nat) (digits : list Z) : outcome Z :=
  match k with
  | O => Ret (-1)
  | S p =>
      a ← vget digits (Z.of_nat p);
      b ← vget digits (Z.of_nat p + 1);
      if b <=? a then find_pivot p digits else Ret (Z.of_nat p)
  end.

(** [while (digits[pivotIndex] >= digits[swapIndex]) swapIndex--;] *)
Fixpoint find_swap (fuel : nat) (pivotIndex swapIndex : Z) (digits : list Z) : outcome Z :=
  match fuel with
  | O => Err OutOfFuel
  | S fuel =>
      a ← vget digits pivotIndex;
      b ← vget digits swapIndex;
      if b <=? a then find_swap fuel pivotIndex (swapIndex - 1) digits else Ret swapIndex
  end.

Definition nextGreaterElement (n : Z) : outcome Z :=
  let digits := to_string n in
  let length := Z.of_nat (length digits) in
  pivotIndex ← find_pivot (Z.to_nat (length - 1)) digits;
  if pivotIndex <? 0 then Ret (-1) else
  swapIndex ← find_swap (Z.to_nat length) pivotIndex (length - 1) digits;
  digits ← swap pivotIndex swapIndex digits;
  let digits := reverse_from (pivotIndex + 1) digits in
  result ← stol digits;
  Ret (if INT_MAX <? result then -1 else result).

(** ** removeDigit *)

(** [operator<] of strings. *)
Fixpoint str_ltb (a b : list Z) : bool :=
  match a, b with
  | _, [] => false
  | [], _ :: _ => true
  | x :: a, y :: b => (x <? y) || (x =? y) && str_ltb a b
  end.

(** [number.substr(0, i) + number.substr(i + 1)] *)
Definition without (number : list Z) (i : nat) : list Z := take i number ++ drop (S i) number.

Fixpoint remove_loop (k : nat) (i : nat) (number : list Z) (digit : Z) (maxResult : list Z)
    : outcome (list Z) :=
  match k with
  | O => Ret maxResult
  | S k =>
      currentChar ← vget number (Z.of_nat i);
      let candidateNumber := without number i in
      remove_loop k (S i) number digit
        (if (currentChar =? digit) && str_ltb maxResult candidateNumber
         then candidateNumber else maxResult)
  end.

Definition removeDigit (number : list Z) (digit : Z) : outcome (list Z) :=
  remove_loop (Z.to_nat (to_int (Z.of_nat (length number)))) 0 number digit [48].

(** ** removeOneDigitToMin *)

(** The first [i < n - 1] with [num[i] > num[i + 1]], erased. *)
Fixpoint erase_loop (k : nat) (i : nat) (num : list Z) : outcome (bool * list Z) :=
  match k with
  | O => Ret (false, num)
  | S k =>
      a ← vget num (Z.of_nat i);
      b ← vget num (Z.of_nat i + 1);
      if b <? a then Ret (true, without num i) else erase_loop k (S i) num
  end.

(** [num.substr(num.find_first_not_of('0'))], or "0". *)
Fixpoint strip_zeros (num : list Z) : list Z :=
  match num with
  | [] => [48]
  | c :: num' => if c =? 48 then strip_zeros num' else num
  end.

Definition removeOneDigitToMin (num : list Z) : outcome (list Z) :=
  let n := to_int (Z.of_nat (length num)) in
  if n <=? 1 then Ret [48] else
  r ← erase_loop (Z.to_nat (n - 1)) 0 num;
  match r with
  | (removed, num) =>
      Ret (strip_zeros (if (removed : bool) then num else take (length num - 1) num))
  end.

(** ** The lexicographic order *)

Fixpoint lex_lt (a b : list Z) : Prop :=
  match a, b with
  | _, [] => False
  | [], _ :: _ => True
  | x :: a, y :: b => x < y ∨ x = y ∧ lex_lt a b
  end.

Lemma str_ltb_lex a b : str_ltb a b = true ↔ lex_lt a b.
Proof.
  revert b. induction a as [|x a IH]; intros [|y b]; simpl; try done.
  rewrite orb_true_iff, andb_true_iff, Z.ltb_lt, Z.eqb_eq, IH. done.
Qed.

Lemma lex_lt_app p a b : lex_lt (p ++ a) (p ++ b) ↔ lex_lt a b.
Proof. induction p as [|x p IH]; simpl; [done|]. rewrite IH. split; [intros [?|[_ ?]]; [lia|done]|tauto]. Qed.

Lemma lex_lt_irrefl a : ~ lex_lt a a.
Proof. induction a as [|x a IH]; simpl; [tauto|]. intros [?|[_ ?]]; [lia|tauto]. Qed.

Lemma lex_lt_trans a : ∀ b c, lex_lt a b → lex_lt b c → lex_lt a c.
Proof.
  induction a as [|x a IH]; intros [|y b] [|z c]; simpl; try done.
  intros [?|[-> ?]] [?|[-> ?]]; try (left; lia). right. split; [done|]. by eapply IH.
Qed.

Lemma lex_total a : ∀ b, lex_lt a b ∨ a = b ∨ lex_lt b a.
Proof.
  induction a as [|x a IH]; intros [|y b]; simpl; auto.
  destruct (Z.lt_trichotomy x y) as [?|[->|?]]; auto. destruct (IH b) as [?|[->|?]]; auto.
Qed.

(** Between two strings with a common prefix. *)
Lemma lex_between p : ∀ a b m, length m = length (p ++ a) → length a = length b →
  lex_lt (p ++ a) m → lex_lt m (p ++ b) → ∃ m', m = p ++ m' ∧ lex_lt a m' ∧ lex_lt m' b.
Proof.
  induction p as [|x p IH]; intros a b m Hl Hab; simpl; [eauto|].
  destruct m as [|y m]; [done|]. simpl in *. intros [?|[Hx H1]] [?|[Hy H2]]; try lia. subst y.
  destruct (IH a b m) as (m' & -> & H3); [lia|done..|]. by exists m'.
Qed.

(** Digit strings of one length are ordered as their numbers are. *)
Definition digit_ok (c : Z) : Prop := 48 ≤ c ≤ 57.

Lemma num_val_snoc s c : num_val (s ++ [c]) = num_val s * 10 + (c - 48).
Proof. unfold num_val. by rewrite foldl_snoc. Qed.

Lemma num_val_cons c s : num_val (c :: s) = (c - 48) * 10 ^ Z.of_nat (length s) + num_val s.
Proof.
  induction s as [|d s IH] using rev_ind; [unfold num_val; simpl; lia|].
  rewrite app_comm_cons, !num_val_snoc, IH, length_app. simpl length.
  rewrite Nat2Z.inj_add, Z.pow_add_r by lia. change (10 ^ Z.of_nat 1) with 10. lia.
Qed.

Lemma num_val_bound s : Forall digit_ok s → 0 ≤ num_val s < 10 ^ Z.of_nat (length s).
Proof.
  induction 1 as [|c s Hc _ IH]; [unfold num_val; simpl; lia|]. unfold digit_ok in Hc.
  rewrite num_val_cons. simpl length. rewrite Nat2Z.inj_succ, Z.pow_succ_r by lia. nia.
Qed.

Lemma lex_num a : ∀ b, Forall digit_ok a → Forall digit_ok b → length a = length b →
  lex_lt a b ↔ num_val a < num_val b.
Proof.
  induction a as [|x a IH]; intros [|y b] Ha Hb Hl; try done.
  apply Forall_cons_1 in Ha as [Hx Ha]. apply Forall_cons_1 in Hb as [Hy Hb].
  simpl in Hl. injection Hl as Hl. unfold digit_ok in *.
  cbn [lex_lt]. rewrite (IH b) by done. rewrite !num_val_cons, Hl.
  pose proof (num_val_bound a Ha) as Ba. pose proof (num_val_bound b Hb) as Bb. rewrite Hl in Ba.
  split; [intros [?|[-> ?]]; nia|]. intros Hlt.
  destruct (Z.lt_trichotomy x y) as [?|[->|?]]; [by left|right; lia|nia].
Qed.

(** ** The next permutation of a list *)

Definition decreasing : list Z → Prop := StronglySorted Z.ge.
Definition increasing : list Z → Prop := StronglySorted Z.le.

Lemma increasing_min s : increasing s → ∀ t, t ≡ₚ s → ~ lex_lt t s.
Proof.
  induction 1 as [|a s Hs IH Ha]; intros [|b t] Hp; simpl;
    try (by pose proof (Permutation_length Hp)); [tauto|].
  assert (b ∈ a :: s) as Hb by (rewrite <- Hp; left).
  intros [Hlt|[-> Hl]].
  - apply elem_of_cons in Hb as [->|Hb]; [lia|].
    pose proof (proj1 (list.Forall_forall _ _) Ha b Hb). simpl in *. lia.
  - apply Permutation_cons_inv in Hp. by apply (IH t Hp).
Qed.

Lemma decreasing_max s : decreasing s → ∀ t, t ≡ₚ s → ~ lex_lt s t.
Proof.
  induction 1 as [|a s Hs IH Ha]; intros [|b t] Hp; simpl;
    try (by pose proof (Permutation_length Hp)); [tauto|].
  assert (b ∈ a :: s) as Hb by (rewrite <- Hp; left).
  intros [Hlt|[-> Hl]].
  - apply elem_of_cons in Hb as [->|Hb]; [lia|].
    pose proof (proj1 (list.Forall_forall _ _) Ha b Hb). simpl in *. lia.
  - apply Permutation_cons_inv in Hp. by apply (IH t Hp).
Qed.

Lemma decreasing_app a b : decreasing (a ++ b) ↔
  decreasing a ∧ decreasing b ∧ ∀ x y, x ∈ a → y ∈ b → Z.ge x y.
Proof.
  induction a as [|c a IH]; simpl.
  - split; [intros; split_and!; [constructor|done|set_solver]|tauto].
  - split.
    + intros [Hd%IH Hc]%StronglySorted_inv. apply Forall_app in Hc as [Hc1 Hc2].
      destruct Hd as (Hd1 & Hd2 & Hd3). split_and!; [by constructor|done|].
      intros x y [->|Hx]%elem_of_cons Hy; [|by apply Hd3].
      by apply (proj1 (list.Forall_forall _ _) Hc2).
    + intros ([Hd Hc]%StronglySorted_inv & Hb & Hcr). constructor.
      * apply IH. split_and!; [done..|]. intros x y Hx Hy. apply Hcr; [by right|done].
      * apply Forall_app_2; [done|]. apply list.Forall_forall. intros y Hy. apply Hcr; [left|done].
Qed.

Lemma decreasing_reverse s : decreasing s → increasing (reverse s).
Proof.
  induction s as [|c s IH] using rev_ind; [constructor|].
  rewrite reverse_snoc. intros (Hs & _ & Hc)%decreasing_app. constructor; [by apply IH|].
  apply list.Forall_forall. intros x Hx. rewrite elem_of_reverse in Hx.
  pose proof (Hc x c Hx ltac:(left)). lia.
Qed.

(** The successor: [p] is the pivot, [x] the last element above it. *)
Lemma next_permutation_least pre p A x B :
  let N := pre ++ p :: A ++ x :: B in
  let R := pre ++ x :: reverse (A ++ p :: B) in
  decreasing (A ++ x :: B) → p < x → Forall (λ y, y ≤ p) B →
  R ≡ₚ N ∧ lex_lt N R ∧ ∀ M, M ≡ₚ N → lex_lt N M → ~ lex_lt M R.
Proof.
  intros N R Hdec Hpx HB. subst N R. split; [|split].
  - apply Permutation_app_head. rewrite reverse_Permutation. solve_Permutation.
  - apply lex_lt_app. simpl. by left.
  - intros M HM H1 H2. pose proof (Permutation_length HM) as Hlen.
    destruct (lex_between pre (p :: A ++ x :: B) (x :: reverse (A ++ p :: B)) M) as (M' & -> & L1 & L2);
      [done| |done..|].
    { simpl. rewrite length_reverse, !length_app. done. }
    apply Permutation_app_inv_l in HM. clear H1 H2 Hlen.
    destruct M' as [|m M']; [done|]. simpl in L1, L2.
    apply decreasing_app in Hdec as HAB. destruct HAB as (HA & HxB & HAx).
    destruct L1 as [L1|[-> L1]].
    + destruct L2 as [L2|[-> L2]].
      * assert (m ∈ p :: A ++ x :: B) as Hm by (rewrite <- HM; left).
        apply elem_of_cons in Hm as [->|Hm]; [lia|]. apply elem_of_app in Hm as [Hm|Hm].
        { pose proof (HAx m x Hm ltac:(left)). lia. }
        apply elem_of_cons in Hm as [->|Hm]; [lia|].
        pose proof (proj1 (list.Forall_forall _ _) HB m Hm). simpl in *. lia.
      * apply (increasing_min (reverse (A ++ p :: B))) with M'; [| |done].
        { apply decreasing_reverse, decreasing_app. apply StronglySorted_inv in HxB as [HB' HxB].
          split_and!; [done| |].
          - constructor; [done|]. apply (list.Forall_impl _ _ _ HB). simpl. lia.
          - intros a b Ha [->|Hb]%elem_of_cons.
            + pose proof (HAx a x Ha ltac:(left)). lia.
            + by apply HAx; [|right]. }
        rewrite reverse_Permutation. apply (Permutation_cons_inv (a := x)). rewrite HM.
        solve_Permutation.
    + apply (decreasing_max (A ++ x :: B) Hdec M'); [|done]. by apply Permutation_cons_inv in HM.
Qed.

Lemma decreasing_no_next N M : decreasing N → M ≡ₚ N → ~ lex_lt N M.
Proof. intros Hd Hp. by apply decreasing_max. Qed.

(** ** The loops *)

Lemma vget_lookup {A} (l : list A) i x : l !! i = Some x → vget l (Z.of_nat i) = Ret x.
Proof. intros H. apply vget_Ret. rewrite Nat2Z.id. split; [lia|done]. Qed.

(** [k] is the pivot position of [N]. *)
Definition pivot (N : list Z) (k : nat) : Prop :=
  ∃ p y, N !! k = Some p ∧ N !! S k = Some y ∧ p < y ∧ decreasing (drop (S k) N).

Lemma decreasing_drop N i p : N !! i = Some p → decreasing (drop (S i) N) →
  (∀ y, N !! S i = Some y → y ≤ p) → decreasing (drop i N).
Proof.
  intros Hp Hd Hy. rewrite (drop_S _ _ _ Hp). constructor; [done|].
  destruct (N !! S i) as [y|] eqn:Ey; last first.
  { apply lookup_ge_None in Ey. rewrite drop_ge by done. constructor. }
  rewrite (drop_S _ _ _ Ey) in *. apply StronglySorted_inv in Hd as [_ Hd].
  specialize (Hy y eq_refl). constructor; [lia|]. apply (list.Forall_impl _ _ _ Hd). lia.
Qed.

Lemma pivot_loop_spec N i : (i < length N)%nat → decreasing (drop i N) →
  pivot_loop i N = Ret 0 ∧ decreasing N ∨
  ∃ k, pivot_loop i N = Ret (Z.of_nat (S k)) ∧ pivot N k.
Proof.
  induction i as [|i IH]; intros Hi Hd; [by left|]. cbn [pivot_loop].
  destruct (lookup_lt_is_Some_2 N (S i) Hi) as [a Ha].
  destruct (lookup_lt_is_Some_2 N i) as [b Hb]; [lia|].
  rewrite (vget_lookup N (S i) a Ha), bind_Ret, (vget_lookup N i b Hb), bind_Ret.
  destruct (Z.ltb_spec b a) as [Hlt|Hge].
  - right. exists i. split; [done|]. by exists b, a.
  - apply IH; [lia|]. apply (decreasing_drop N i b); [done..|]. naive_solver.
Qed.

Lemma find_pivot_spec N k : (k < length N)%nat → decreasing (drop k N) →
  find_pivot k N = Ret (-1) ∧ decreasing N ∨
  ∃ k', find_pivot k N = Ret (Z.of_nat k') ∧ pivot N k'.
Proof.
  induction k as [|k IH]; intros Hk Hd; [by left|]. cbn [find_pivot].
  destruct (lookup_lt_is_Some_2 N (S k) Hk) as [b Hb].
  destruct (lookup_lt_is_Some_2 N k) as [a Ha]; [lia|].
  rewrite (vget_lookup N k a Ha), bind_Ret. replace (Z.of_nat k + 1) with (Z.of_nat (S k)) by lia.
  rewrite (vget_lookup N (S k) b Hb), bind_Ret. destruct (Z.leb_spec b a) as [Hle|Hlt].
  - apply IH; [lia|]. apply (decreasing_drop N k a); [done..|]. naive_solver.
  - right. exists k. split; [done|]. by exists a, b.
Qed.

(** [j] is the last position with an element above the pivot. *)
Definition swap_pos (N : list Z) (k j : nat) : Prop :=
  ∃ p x, N !! k = Some p ∧ N !! j = Some x ∧ (k < j)%nat ∧ p < x ∧ Forall (λ y, y ≤ p) (drop (S j) N).

Lemma swap_step N k j p b : pivot N k → N !! k = Some p → N !! j = Some b → (k < j)%nat →
  Forall (λ y, y ≤ p) (drop (S j) N) →
  p < b ∧ swap_pos N k j ∨ b ≤ p ∧ (S k < j)%nat ∧ Forall (λ y, y ≤ p) (drop j N).
Proof.
  intros (p' & y & Hp' & Hy & Hlt & _) Hp Hb Hkj Hall. assert (p' = p) as -> by congruence.
  destruct (decide (p < b)); [left; split; [done|]; by exists p, b|right].
  split; [lia|]. split; [|rewrite (drop_S _ _ _ Hb); constructor; [lia|done]].
  destruct (decide (j = S k)) as [->|]; [simplify_eq; lia|lia].
Qed.

Lemma swap_loop_spec N k n : pivot N k → ∀ j p, N !! k = Some p → (j < length N)%nat → (k < j)%nat →
  Forall (λ y, y ≤ p) (drop (S j) N) → n = (j - k)%nat →
  ∃ j', swap_loop n (Z.of_nat (S k)) (Z.of_nat j) N = swap (Z.of_nat k) (Z.of_nat j') N ∧ swap_pos N k j'.
Proof.
  intros Hpiv. induction n as [|n IH]; intros j p Hp Hj Hkj Hall Hn; [lia|]. cbn [swap_loop].
  destruct (lookup_lt_is_Some_2 N j Hj) as [b Hb].
  replace (Z.of_nat (S k) - 1) with (Z.of_nat k) by lia.
  rewrite (vget_lookup N k p Hp), bind_Ret, (vget_lookup N j b Hb), bind_Ret.
  destruct (swap_step N k j p b Hpiv Hp Hb Hkj Hall) as [[Hlt Hs]|(Hle & Hk & Hall')].
  - rewrite (proj2 (Z.ltb_lt _ _)) by done. eauto.
  - rewrite (proj2 (Z.ltb_ge _ _)) by done.
    replace (Z.of_nat j - 1) with (Z.of_nat (j - 1)) by lia.
    apply (IH (j - 1)%nat p); [done|lia|lia| |lia]. by replace (S (j - 1)) with j by lia.
Qed.

Lemma find_swap_spec N k fuel : pivot N k → ∀ j p, N !! k = Some p → (j < length N)%nat → (k < j)%nat →
  Forall (λ y, y ≤ p) (drop (S j) N) → (j - k < fuel)%nat →
  ∃ j', find_swap fuel (Z.of_nat k) (Z.of_nat j) N = Ret (Z.of_nat j') ∧ swap_pos N k j'.
Proof.
  intros Hpiv. induction fuel as [|fuel IH]; intros j p Hp Hj Hkj Hall Hn; [lia|]. cbn [find_swap].
  destruct (lookup_lt_is_Some_2 N j Hj) as [b Hb].
  rewrite (vget_lookup N k p Hp), bind_Ret, (vget_lookup N j b Hb), bind_Ret.
  destruct (swap_step N k j p b Hpiv Hp Hb Hkj Hall) as [[Hlt Hs]|(Hle & Hk & Hall')].
  - rewrite (proj2 (Z.leb_gt _ _)) by done. eauto.
  - rewrite (proj2 (Z.leb_le _ _)) by done.
    replace (Z.of_nat j - 1) with (Z.of_nat (j - 1)) by lia.
    apply (IH (j - 1)%nat p); [done|lia|lia| |lia]. by replace (S (j - 1)) with j by lia.
Qed.

Lemma swap_decomposed pre p A x B :
  swap (Z.of_nat (length pre)) (Z.of_nat (length pre + S (length A))) (pre ++ p :: A ++ x :: B) =
  Ret (pre ++ x :: A ++ p :: B).
Proof.
  unfold swap. rewrite (vget_lookup _ (length pre) p) by by apply list_lookup_middle.
  rewrite (vget_lookup _ (length pre + S (length A)) x); last first.
  { change (pre ++ p :: A ++ x :: B) with (pre ++ (p :: A) ++ x :: B). rewrite app_assoc. apply list_lookup_middle. rewrite length_app. done. }
  rewrite !bind_Ret. rewrite vset_total by (autorewrite with lens; simpl; lia).
  rewrite bind_Ret, Nat2Z.id, insert_app_r_alt, Nat.sub_diag by lia. simpl.
  rewrite vset_total by (autorewrite with lens; simpl; autorewrite with lens; simpl; lia).
  rewrite Nat2Z.id, insert_app_r_alt by lia.
  replace (length pre + S (length A) - length pre)%nat with (S (length A)) by lia. simpl.
  by rewrite insert_app_r_alt, Nat.sub_diag by lia.
Qed.

Lemma decompose (N : list Z) k j p x : N !! k = Some p → N !! j = Some x → (k < j)%nat →
  ∃ pre A B, N = pre ++ p :: A ++ x :: B ∧ length pre = k ∧ j = (length pre + S (length A))%nat.
Proof.
  intros Hp Hx Hkj. exists (take k N), (take (j - S k) (drop (S k) N)), (drop (S j) N).
  pose proof (lookup_lt_Some _ _ _ Hp). pose proof (lookup_lt_Some _ _ _ Hx).
  split; [|rewrite !length_take, !length_drop; split; lia].
  rewrite <- (take_drop_middle N k p Hp) at 1. do 2 f_equal.
  rewrite <- (take_drop_middle (drop (S k) N) (j - S k) x) at 1.
  - do 2 f_equal. rewrite drop_drop. f_equal. lia.
  - rewrite lookup_drop. rewrite <- Hx. f_equal. lia.
Qed.

(** Swapping and reversing at these positions gives the successor. *)
Lemma swap_reverse_next N k j : pivot N k → swap_pos N k j →
  ∃ S', swap (Z.of_nat k) (Z.of_nat j) N = Ret S' ∧
    let R := reverse_from (Z.of_nat k + 1) S' in
    R ≡ₚ N ∧ lex_lt N R ∧ ∀ M, M ≡ₚ N → lex_lt N M → ~ lex_lt M R.
Proof.
  intros (p & y & Hp & _ & _ & Hdec) (p' & x & Hp' & Hx & Hkj & Hlt & Hall). assert (p = p') as -> by congruence.
  destruct (decompose N k j p' x Hp Hx Hkj) as (pre & A & B & -> & <- & ->). clear Hp Hp' Hx Hkj.
  rewrite swap_decomposed. eexists. split; [done|]. unfold reverse_from.
  replace (Z.to_nat (Z.of_nat (length pre) + 1)) with (length (pre ++ [x])) by (rewrite length_app; simpl; lia).
  replace (pre ++ x :: A ++ p' :: B) with ((pre ++ [x]) ++ A ++ p' :: B) by by rewrite <- app_assoc.
  rewrite take_app_length, drop_app_length, <- app_assoc. apply next_permutation_least; [|done|].
  - replace (S (length pre)) with (length (pre ++ [p'])) in Hdec by (rewrite length_app; simpl; lia).
    replace (pre ++ p' :: A ++ x :: B) with ((pre ++ [p']) ++ A ++ x :: B) in Hdec by by rewrite <- app_assoc.
    by rewrite drop_app_length in Hdec.
  - replace (S (length pre + S (length A))) with (length ((pre ++ p' :: A) ++ [x])) in Hall
      by (rewrite !length_app; simpl; lia).
    replace (pre ++ p' :: A ++ x :: B) with (((pre ++ p' :: A) ++ [x]) ++ B) in Hall
      by by rewrite <- !app_assoc.
    by rewrite drop_app_length in Hall.
Qed.

Lemma decreasing_last N : decreasing (drop (length N - 1) N).
Proof.
  destruct (exists_last_or_nil N) as [->|(l & x & ->)]; [constructor|].
  rewrite length_app, Nat.add_sub, drop_app_length. repeat constructor.
Qed.

(** ** The properties of the next permutation *)

Lemma to_int_of_nat n : Z.of_nat n < 2 ^ 31 → to_int (Z.of_nat n) = Z.of_nat n.
Proof. intros H. unfold to_int. rewrite Z.mod_small; lia. Qed.

(** C39: on a non-empty string, [nextPermutation] returns the lexicographically
    smallest permutation greater than the string, and "Not Possible" exactly
    when there is no greater permutation. *)
Theorem nextPermutation_correct N :
  (0 < length N)%nat → Z.of_nat (length N) < 2 ^ 31 →
  (∃ R, nextPermutation N = Ret R ∧ R ≡ₚ N ∧ lex_lt N R ∧
     ∀ M, M ≡ₚ N → lex_lt N M → ~ lex_lt M R) ∨
  (nextPermutation N = Ret NotPossible ∧ ∀ M, M ≡ₚ N → ~ lex_lt N M).
Proof.
  intros H0 Hlen. unfold nextPermutation.
  destruct (Z.eqb_spec (Z.of_nat (length N)) 1) as [H1|H1].
  { right. split; [done|]. intros M HM. apply decreasing_max; [|done].
    destruct N as [|x [|y N]]; simpl in *; try lia. repeat constructor. }
  rewrite u64_small by lia. replace (Z.of_nat (length N) - 1) with (Z.of_nat (length N - 1)) by lia.
  rewrite to_int_of_nat by lia. cbv zeta. rewrite (proj2 (Z.ltb_lt _ _)), Nat2Z.id by lia.
  destruct (pivot_loop_spec N (length N - 1)) as [[-> Hd]|(k & -> & Hpiv)];
    [lia|apply decreasing_last| |]; rewrite bind_Ret.
  - right. split; [|intros M HM; by apply decreasing_max].
    destruct (vget_total N 0) as (x & -> & _); [lia|]. done.
  - left. pose proof Hpiv as (p & y & Hp & Hy & _ & _). pose proof (lookup_lt_Some _ _ _ Hy).
    rewrite (vget_lookup N (S k) y Hy), bind_Ret. destruct (Z.eqb_spec (Z.of_nat (S k)) 0); [lia|].
    destruct (swap_loop_spec N k (length N - 1 - k) Hpiv (length N - 1) p Hp) as (j & Ej & Hj);
      [lia|lia|rewrite drop_ge by lia; constructor|done|].
    replace (Z.to_nat _) with (length N - 1 - k)%nat by lia. rewrite Ej.
    destruct (swap_reverse_next N k j Hpiv Hj) as (N' & -> & HR). rewrite bind_Ret.
    eexists. split; [done|]. by replace (Z.of_nat (S k)) with (Z.of_nat k + 1) by lia.
Qed.

(** "218765" gives "251678". *)
Lemma nextPermutation_correct_witness :
  ∃ R, nextPermutation [50; 49; 56; 55; 54; 53] = Ret R ∧ R ≡ₚ [50; 49; 56; 55; 54; 53].
Proof.
  destruct (nextPermutation_correct [50; 49; 56; 55; 54; 53]) as [(R & E & HR & _)|[E _]].
  - simpl. lia.
  - reflexivity.
  - exists R. done.
  - vm_compute in E. discriminate E.
Defined.

Lemma nextPermutation_demo : nextPermutation [50; 49; 56; 55; 54; 53] = Ret [50; 53; 49; 54; 55; 56].
Proof. reflexivity. Qed.

(** [N[N.length() - 1]] is read before the empty string is excluded. *)
Lemma nextPermutation_empty : nextPermutation [] = Err OutOfBounds.
Proof. reflexivity. Qed.

Lemma dec_digits_spec n : ∀ z, 0 ≤ z < 10 ^ Z.of_nat n → (0 < n)%nat →
  Forall digit_ok (dec_digits n z) ∧ num_val (dec_digits n z) = z ∧
  (0 < length (dec_digits n z) ≤ n)%nat.
Proof.
  induction n as [|n IH]; intros z Hz Hn; [lia|]. cbn [dec_digits].
  rewrite Nat2Z.inj_succ, Z.pow_succ_r in Hz by lia. destruct (Z.ltb_spec z 10).
  - split; [repeat constructor; unfold digit_ok; lia|]. unfold num_val. simpl. lia.
  - assert (0 < n)%nat by (destruct n; simpl in *; lia).
    destruct (IH (z / 10)) as (H1 & H2 & H3); [|done|].
    { split; [apply Z.div_pos|apply Z.div_lt_upper_bound]; lia. }
    pose proof (Z.mod_pos_bound z 10 ltac:(lia)). split; [|split].
    + apply Forall_app_2; [done|]. repeat constructor; unfold digit_ok; lia.
    + rewrite num_val_snoc, H2. pose proof (Z.div_mod z 10). lia.
    + rewrite length_app. simpl. lia.
Qed.

Lemma leading_digits_all s : Forall digit_ok s → leading_digits s = s.
Proof.
  induction 1 as [|c s Hc _ IH]; simpl; [done|]. unfold isdigit, digit_ok in *.
  rewrite (proj2 (Z.leb_le _ _)), (proj2 (Z.leb_le _ _)) by lia. simpl. by rewrite IH.
Qed.

Lemma stol_digits s : Forall digit_ok s → s ≠ [] → stol s = Ret (num_val s).
Proof.
  intros Hs Hne. unfold stol. destruct s as [|c s]; [done|].
  assert (match c :: s with 45 :: _ => true | _ => false end = false) as ->.
  { apply Forall_cons_1 in Hs as [Hc _]. unfold digit_ok in Hc.
    destruct (decide (c = 45)); [lia|].
    destruct c as [|q|q]; try done. do 6 (destruct q as [q|q|]; try done; try lia). }
  cbv zeta. by rewrite (leading_digits_all (c :: s) Hs).
Qed.

(** For a non-negative [int], [nextGreaterElement] returns the least number
    above [n] with the same digits, and -1 exactly when every such number
    exceeds [INT_MAX] or there is none. *)
Theorem nextGreaterElement_correct n :
  0 ≤ n ≤ INT_MAX →
  ∃ r, nextGreaterElement n = Ret r ∧
    (n < r ≤ INT_MAX ∧ (∃ R, R ≡ₚ to_string n ∧ num_val R = r) ∧
       (∀ M, M ≡ₚ to_string n → n < num_val M → r ≤ num_val M) ∨
     r = -1 ∧ ∀ M, M ≡ₚ to_string n → n < num_val M → INT_MAX < num_val M).
Proof.
  intros Hn. unfold INT_MAX in Hn. unfold nextGreaterElement. cbv zeta.
  assert (to_string n = dec_digits 10 n) as E.
  { unfold to_string. by rewrite (proj2 (Z.ltb_ge _ _)) by lia. }
  destruct (dec_digits_spec 10 n) as (Hd & Hv & Hlen); [simpl; lia|lia|]. rewrite <- E in *. clear E.
  set (N := to_string n) in *. clearbody N.
  assert (∀ M, M ≡ₚ N → Forall digit_ok M ∧ (lex_lt N M ↔ n < num_val M)) as Hlex.
  { intros M HM. assert (Forall digit_ok M) by by rewrite HM. split; [done|].
    rewrite lex_num by (done || by rewrite HM). by rewrite Hv. }
  replace (Z.to_nat (Z.of_nat (length N) - 1)) with (length N - 1)%nat by lia.
  destruct (find_pivot_spec N (length N - 1)) as [[-> Hdec]|(k & -> & Hpiv)];
    [lia|apply decreasing_last| |]; rewrite bind_Ret.
  { eexists. split; [done|]. right. split; [done|]. intros M HM Hlt. exfalso.
    by apply (decreasing_max N Hdec M HM), Hlex. }
  rewrite (proj2 (Z.ltb_ge _ _)) by lia. pose proof Hpiv as (p & y & Hp & Hy & _ & _).
  pose proof (lookup_lt_Some _ _ _ Hy).
  replace (Z.of_nat (length N) - 1) with (Z.of_nat (length N - 1)) by lia. rewrite Nat2Z.id.
  destruct (find_swap_spec N k (length N) Hpiv (length N - 1) p Hp) as (j & -> & Hj);
    [lia|lia|rewrite drop_ge by lia; constructor|lia|]. rewrite bind_Ret.
  destruct (swap_reverse_next N k j Hpiv Hj) as (N' & -> & HR & HlR & Hmin). rewrite bind_Ret.
  set (R := reverse_from _ N') in *. clearbody R. destruct (Hlex R HR) as [HdR HlR'].
  rewrite stol_digits; [|done|intros ->; by apply Permutation_length in HR; simpl in HR; lia].
  rewrite bind_Ret. apply HlR' in HlR.
  assert (∀ M, M ≡ₚ N → n < num_val M → num_val R ≤ num_val M) as Hle.
  { intros M HM Hlt. destruct (Hlex M HM) as [HdM HlM]. apply Z.nlt_ge. intros Hc.
    apply (Hmin M HM); [by apply HlM|]. apply lex_num; [done..|by rewrite HM, HR|done]. }
  eexists. split; [done|]. unfold INT_MAX. destruct (Z.ltb_spec (2 ^ 31 - 1) (num_val R)).
  - right. split; [done|]. intros M HM Hlt. specialize (Hle M HM Hlt). lia.
  - left. split; [lia|]. split; [by exists R|done].
Qed.

Lemma nextGreaterElement_correct_witness : ∃ r, nextGreaterElement 218765 = Ret r.
Proof.
  destruct (nextGreaterElement_correct 218765) as (r & E & _).
  - split; vm_compute; discriminate.
  - by exists r.
Defined.

(** A minus sign takes part in the permutation: -5 becomes "5-", read as 5. *)
Lemma nextGreaterElement_negative : nextGreaterElement (-5) = Ret 5 ∧ nextGreaterElement (-12) = Ret (-21).
Proof. split; reflexivity. Qed.

(** ** Removing a digit *)

Lemma without_length number i : (i < length number)%nat → length (without number i) = (length number - 1)%nat.
Proof. intros H. unfold without. rewrite length_app, length_take, length_drop. lia. Qed.

Lemma without_digits number i : Forall digit_ok number → Forall digit_ok (without number i).
Proof. intros H. apply Forall_app_2; [by apply Forall_take|by apply Forall_drop]. Qed.

(** The maximum so far: the initial "0" or a candidate, and not below any candidate. *)
Definition max_so_far (number : list Z) (digit : Z) (i : nat) (r : list Z) : Prop :=
  (r = [48] ∨ ∃ j, number !! j = Some digit ∧ r = without number j) ∧
  ∀ j, (j < i)%nat → number !! j = Some digit → ~ lex_lt r (without number j).

Lemma remove_loop_spec number digit k : ∀ i r, (i + k = length number)%nat →
  max_so_far number digit i r →
  ∃ r', remove_loop k i number digit r = Ret r' ∧ max_so_far number digit (length number) r'.
Proof.
  induction k as [|k IH]; intros i r Hik Hr; cbn [remove_loop].
  { exists r. split; [done|]. by replace (length number) with i by lia. }
  destruct (lookup_lt_is_Some_2 number i) as [c Hc]; [lia|].
  rewrite (vget_lookup _ _ _ Hc), bind_Ret. cbv zeta. apply IH; [lia|].
  destruct Hr as [Hr1 Hr2]. destruct (Z.eqb_spec c digit) as [->|Hne]; cbn [andb]; last first.
  { split; [done|]. intros j Hj Hd. destruct (decide (j = i)) as [->|]; [congruence|]. apply Hr2; [lia|done]. }
  destruct (str_ltb r (without number i)) eqn:El.
  - apply str_ltb_lex in El. split; [right; eauto|]. intros j Hj Hd Hlt.
    destruct (decide (j = i)) as [->|]; [by apply lex_lt_irrefl in Hlt|].
    apply (Hr2 j); [lia|done|]. by eapply lex_lt_trans.
  - split; [done|]. intros j Hj Hd Hlt. destruct (decide (j = i)) as [->|]; [|by apply (Hr2 j); [lia|..]].
    apply str_ltb_lex in Hlt. congruence.
Qed.

(** On a string of digits, [removeDigit] returns "0" or the string without
    one occurrence of the digit, and no removal of an occurrence gives a larger
    number. *)
Theorem removeDigit_correct number digit :
  Forall digit_ok number → Z.of_nat (length number) < 2 ^ 31 →
  ∃ r, removeDigit number digit = Ret r ∧
    (r = [48] ∨ ∃ i, number !! i = Some digit ∧ r = without number i) ∧
    ∀ i, number !! i = Some digit → num_val (without number i) ≤ num_val r.
Proof.
  intros Hd Hlen. unfold removeDigit. rewrite to_int_of_nat, Nat2Z.id by done.
  destruct (remove_loop_spec number digit (length number) 0 [48]) as (r & E & Hr & Hmax);
    [lia|split; [by left|lia]|].
  exists r. split; [done|]. split; [done|]. intros i Hi.
  pose proof (lookup_lt_Some _ _ _ Hi) as Hlt. specialize (Hmax i Hlt Hi).
  destruct Hr as [->|(j & Hj & ->)].
  - pose proof (without_digits number i Hd) as Hw. destruct (without number i) as [|c w]; [done|].
    apply Forall_cons_1 in Hw as [Hc _]. unfold digit_ok in Hc. simpl in Hmax.
    destruct w; [|exfalso; apply Hmax; destruct (decide (48 = c)); [by right|left; lia]].
    unfold num_val. simpl. destruct (decide (c = 48)); [lia|]. exfalso. apply Hmax. left. lia.
  - pose proof (lookup_lt_Some _ _ _ Hj). apply Z.nlt_ge. intros Hc. apply Hmax.
    apply lex_num; [by apply without_digits..| |done]. by rewrite !without_length.
Qed.

Lemma removeDigit_correct_witness : ∃ r, removeDigit [49; 50; 51; 49; 53; 49] 49 = Ret r ∧
  num_val (without [49; 50; 51; 49; 53; 49] 3) ≤ num_val r.
Proof.
  destruct (removeDigit_correct [49; 50; 51; 49; 53; 49] 49) as (r & E & _ & H).
  - repeat constructor; unfold digit_ok; lia.
  - reflexivity.
  - exists r. split; [exact E|]. apply H. reflexivity.
Defined.

(** The greedy removal, by recursion on the string. *)
Fixpoint greedy (l : list Z) : list Z :=
  match l with
  | [] => []
  | a :: l' => match l' with [] => [] | b :: _ => if b <? a then l' else a :: greedy l' end
  end.

Lemma erase_loop_spec num k : ∀ i, (i + S k = length num)%nat →
  ∃ b l, erase_loop k i num = Ret (b, l) ∧
    (if (b : bool) then l else take (length l - 1) l) = take i num ++ greedy (drop i num).
Proof.
  induction k as [|k IH]; intros i Hi; cbn [erase_loop].
  - exists false, num. split; [done|].
    destruct (lookup_lt_is_Some_2 num i) as [x Hx]; [lia|].
    rewrite (drop_S _ _ _ Hx), drop_ge by lia. simpl. rewrite app_nil_r. f_equal. lia.
  - destruct (lookup_lt_is_Some_2 num i) as [a Ha]; [lia|].
    destruct (lookup_lt_is_Some_2 num (S i)) as [b Hb]; [lia|].
    rewrite (vget_lookup _ _ _ Ha), bind_Ret.
    replace (Z.of_nat i + 1) with (Z.of_nat (S i)) by lia. rewrite (vget_lookup _ _ _ Hb), bind_Ret.
    rewrite (drop_S _ _ _ Ha), (drop_S _ _ _ Hb). cbn [greedy]. destruct (Z.ltb_spec b a).
    + do 2 eexists. split; [done|]. cbn. unfold without. by rewrite (drop_S _ _ _ Hb).
    + destruct (IH (S i)) as (r & l & E & Hl); [lia|]. exists r, l. split; [done|]. rewrite Hl.
      rewrite (drop_S _ _ _ Hb), (take_S_r _ _ _ Ha), <- app_assoc. done.
Qed.

(** It is one of the removals and lexicographically least. *)
Lemma greedy_min l : l ≠ [] →
  (∃ i, (i < length l)%nat ∧ greedy l = without l i) ∧
  ∀ i, (i < length l)%nat → ~ lex_lt (without l i) (greedy l).
Proof.
  induction l as [|a l IH]; intros Hne; [done|]. destruct l as [|b l].
  { split; [exists 0%nat; split; [simpl; lia|done]|]. intros [|i] Hi; simpl in *; [tauto|lia]. }
  destruct IH as [(j & Hj & Ej) Hmin]; [done|]. cbn [greedy]. destruct (Z.ltb_spec b a) as [Hlt|Hge].
  - split; [exists 0%nat; split; [simpl; lia|done]|]. intros [|i] Hi.
    + apply lex_lt_irrefl.
    + unfold without. simpl. intros [?|[? _]]; lia.
  - split.
    + exists (S j). split; [simpl in *; lia|]. change (without (a :: b :: l) (S j)) with (a :: without (b :: l) j).
      f_equal. exact Ej.
    + intros [|i] Hi.
      * change (without (a :: b :: l) 0) with (b :: l). simpl. intros [?|[? Hl]]; [lia|].
        apply (Hmin 0%nat); [simpl; lia|]. exact Hl.
      * change (without (a :: b :: l) (S i)) with (a :: without (b :: l) i). simpl lex_lt.
        intros [?|[_ Hl]]; [lia|]. apply (Hmin i); [simpl in *; lia|]. exact Hl.
Qed.

Lemma strip_zeros_spec l : num_val (strip_zeros l) = num_val l ∧
  (strip_zeros l = [48] ∨ ∃ c l', strip_zeros l = c :: l' ∧ c ≠ 48).
Proof.
  induction l as [|c l [IH1 IH2]]; cbn [strip_zeros]; [split; [reflexivity|by left]|].
  destruct (Z.eqb_spec c 48) as [->|Hc]; [|split; [done|right; eauto]].
  split; [|done]. rewrite IH1, num_val_cons. lia.
Qed.

(** On a string of two or more digits, [removeOneDigitToMin] returns,
    without leading zeros, the smallest number that the removal of one digit
    can give. *)
Theorem removeOneDigitToMin_correct num :
  Forall digit_ok num → 2 ≤ Z.of_nat (length num) < 2 ^ 31 →
  ∃ r, removeOneDigitToMin num = Ret r ∧
    (∃ i, (i < length num)%nat ∧ num_val r = num_val (without num i)) ∧
    (∀ i, (i < length num)%nat → num_val r ≤ num_val (without num i)) ∧
    (r = [48] ∨ ∃ c l, r = c :: l ∧ c ≠ 48).
Proof.
  intros Hd Hlen. unfold removeOneDigitToMin. rewrite to_int_of_nat by lia. cbv zeta.
  rewrite (proj2 (Z.leb_gt _ _)) by lia.
  destruct (erase_loop_spec num (Z.to_nat (Z.of_nat (length num) - 1)) 0) as (b & l & -> & Hl); [lia|].
  rewrite bind_Ret, Hl. simpl app. rewrite drop_0.
  destruct (strip_zeros_spec (greedy num)) as [Hv Hz].
  destruct (greedy_min num) as [(i & Hi & Ei) Hmin]; [intros ->; simpl in Hlen; lia|].
  eexists. split; [done|]. rewrite Hv. split; [exists i; by rewrite <- Ei|]. split; [|done].
  intros j Hj. rewrite Ei in *. apply Z.nlt_ge. intros Hc. apply (Hmin j Hj).
  apply lex_num; [by apply without_digits..| |done]. by rewrite !without_length.
Qed.

Lemma removeOneDigitToMin_correct_witness : ∃ r, removeOneDigitToMin [49; 52; 51; 53; 54] = Ret r ∧
  num_val r ≤ num_val (without [49; 52; 51; 53; 54] 0).
Proof.
  destruct (removeOneDigitToMin_correct [49; 52; 51; 53; 54]) as (r & E & _ & H & _).
  - repeat constructor; unfold digit_ok; lia.
  - split; vm_compute; [discriminate|reflexivity].
  - exists r. split; [exact E|]. apply H. simpl. lia.
Defined.
