(* ===== verification/Sequences.v ===== *)
(** * pureStorage/longestConsecutiveSequence.cpp

    The longest run of consecutive integers in an array, by hashing and by
    sorting.  [std::sort] of a [vector<int>] is stdpp's merge sort: the sorted
    permutation of a list of integers is unique. *)

From stdpp Require Import base list sets gmap numbers sorting.
From Stdlib Require Import ZArith Lia.
From S2P Require Import Prelude.

(** ** longestConsecutive *)

(** [while (set.count(y)) y++;] *)
Fixpoint count_up (fuel : nat) (set : gset Z) (y : Z) : outcome Z :=
  match fuel with
  | O => Err OutOfFuel
  | S fuel => if decide (y ∈ set) then y ← int (y + 1); count_up fuel set y else Ret y
  end.

Fixpoint scan (set : gset Z) (nums : list Z) (max : Z) : outcome Z :=
  match nums with
  | [] => Ret max
  | num :: nums =>
      before ← int (num - 1);
      if decide (before ∈ set) then scan set nums max else
      y ← int (num + 1);
      y ← count_up (S (size set)) set y;
      len ← int (y - num);
      scan set nums (Z.max max len)
  end.

Definition longestConsecutive (nums : list Z) : outcome Z :=
  scan (list_to_set nums) nums 0.

(** ** longestConsecutiveSorting *)

(** The loop from [i = 1] on: [prev] is [nums[i - 1]]. *)
Fixpoint sorted_loop (prev : Z) (nums : list Z) (max count : Z) : outcome Z :=
  match nums with
  | [] => Ret (Z.max max count)
  | num :: nums =>
      next ← int (prev + 1);
      if num =? next then count ← int (count + 1); sorted_loop num nums max count
      else if num =? prev then sorted_loop num nums max count
      else sorted_loop num nums (Z.max max count) 1
  end.

Definition longestConsecutiveSorting (nums : list Z) : outcome Z :=
  match merge_sort Z.le nums with
  | [] => Ret (Z.max 0 1)
  | x :: nums => sorted_loop x nums 0 1
  end.

(** ** Specification *)

(** [x, x + 1, ..., x + L - 1] all occur. *)
Definition run (S : gset Z) (x L : Z) : Prop := ∀ k, 0 ≤ k < L → x + k ∈ S.

Definition longest (S : gset Z) (m : Z) : Prop :=
  (∃ x, run S x m) ∧ ∀ x L, run S x L → L ≤ m.

(** The numbers whose neighbours are [int]s. *)
Definition num_ok (x : Z) : Prop := INT_MIN < x < INT_MAX.

Lemma int_between z : INT_MIN ≤ z ≤ INT_MAX → int z = Ret z.
Proof. intros [H1 H2]. unfold int, int_ok. by rewrite (proj2 (Z.leb_le _ _) H1), (proj2 (Z.leb_le _ _) H2). Qed.

Lemma run_size (S : gset Z) x L : run S x L → L ≤ Z.of_nat (size S).
Proof.
  intros Hr. destruct (decide (0 ≤ L)); [|lia].
  assert ((list_to_set (seqZ x L) : gset Z) ⊆ S) as Hsub.
  { intros y. rewrite elem_of_list_to_set, elem_of_seqZ. intros Hy.
    replace y with (x + (y - x)) by lia. apply Hr. lia. }
  apply subseteq_size in Hsub. rewrite size_list_to_set, length_seqZ in Hsub by apply NoDup_seqZ. lia.
Qed.

(** Counting up from [y] stops at the end of the run. *)
Lemma count_up_spec S y0 fuel : (∀ x, x ∈ S → num_ok x) → ∀ y, run S y0 (y - y0) → y0 ≤ y →
  INT_MIN ≤ y ≤ INT_MAX → Z.of_nat (size S) < y - y0 + Z.of_nat fuel →
  ∃ y', count_up fuel S y = Ret y' ∧ y ≤ y' ≤ INT_MAX ∧ run S y0 (y' - y0) ∧ y' ∉ S.
Proof.
  intros Hok. induction fuel as [|fuel IH]; intros y Hr Hy Hi Hf.
  { pose proof (run_size S y0 _ Hr). lia. }
  simpl. destruct (decide (y ∈ S)) as [Hin|Hout]; [|exists y; split_and!; (done || lia)].
  pose proof (Hok y Hin) as [? ?]. rewrite int_between by lia. simpl.
  destruct (IH (y + 1)) as (y' & -> & H1 & H2 & H3); [|lia..|].
  { intros k Hk. destruct (decide (k = y - y0)) as [->|]; [by replace (y0 + (y - y0)) with y by lia|].
    apply Hr. lia. }
  exists y'. split_and!; (done || lia).
Qed.

(** Every non-empty run lies in one whose predecessor does not occur. *)
Lemma run_start (S : gset Z) : ∀ n x L, Z.of_nat (size S) < L + Z.of_nat n → 0 < L → run S x L →
  ∃ s, s ≤ x ∧ s ∈ S ∧ s - 1 ∉ S ∧ run S s (x + L - s).
Proof.
  induction n as [|n IH]; intros x L Hn HL Hr.
  { pose proof (run_size S x L Hr). lia. }
  destruct (decide (x - 1 ∈ S)) as [Hin|Hout].
  - destruct (IH (x - 1) (L + 1)) as (s & H1 & H2 & H3 & H4); [lia..| |].
    + intros k Hk. destruct (decide (k = 0)) as [->|]; [by rewrite Z.add_0_r|].
      replace (x - 1 + k) with (x + (k - 1)) by lia. apply Hr. lia.
    + exists s. replace (x + L - s) with (x - 1 + (L + 1) - s) by lia. split_and!; (done || lia).
  - exists x. replace (x + L - x) with L by lia. split_and!; try done.
    rewrite <- (Z.add_0_r x). apply Hr. lia.
Qed.

(** [max] is reached by a run and bounds the runs that start in [done]. *)
Definition best_of (S : gset Z) (done : list Z) (max : Z) : Prop :=
  0 ≤ max ∧ (∃ x, run S x max) ∧ ∀ x L, x ∈ done → x - 1 ∉ S → run S x L → L ≤ max.

Lemma size_list_to_set_le (l : list Z) : (size (list_to_set l : gset Z) ≤ length l)%nat.
Proof.
  change (size ?X) with (length (elements X)).
  apply submseteq_length, NoDup_submseteq; [apply NoDup_elements|].
  intros x. by rewrite elem_of_elements, elem_of_list_to_set.
Qed.

Lemma scan_spec S nums : (∀ x, x ∈ S → num_ok x) → Z.of_nat (size S) ≤ INT_MAX →
  ∀ seen max, (∀ x, x ∈ nums → x ∈ S) → best_of S seen max →
  ∃ m, scan S nums max = Ret m ∧ best_of S (seen ++ nums) m.
Proof.
  intros Hok Hsz. induction nums as [|num nums IH]; intros seen max Hin Hb; cbn [scan].
  { exists max. by rewrite app_nil_r. }
  assert (num ∈ S) as Hnum by (apply Hin; left). pose proof (Hok num Hnum) as [? ?].
  assert (∀ x, x ∈ nums → x ∈ S) as Hin' by (intros; apply Hin; by right).
  destruct Hb as (Hmax & Hx & Hb). rewrite (int_between (num - 1)), bind_Ret by lia.
  replace (seen ++ num :: nums) with ((seen ++ [num]) ++ nums) by by rewrite <- app_assoc.
  destruct (decide (num - 1 ∈ S)) as [Hprev|Hprev].
  { apply IH; [done|]. split_and!; [done..|].
    intros x L [Hx'|Hx'%list_elem_of_singleton]%elem_of_app; [by apply Hb|by subst x]. }
  rewrite (int_between (num + 1)), bind_Ret by lia.
  destruct (count_up_spec S num (Datatypes.S (size S)) Hok (num + 1)) as (y & -> & Hy & Hry & Hyn);
    [|lia..|].
  { intros k Hk. by replace (num + k) with num by lia. }
  rewrite bind_Ret. pose proof (run_size S num _ Hry).
  rewrite (int_between (y - num)), bind_Ret by (unfold INT_MIN, INT_MAX in *; lia). apply IH; [done|]. split_and!; [lia| |].
  - destruct (Z.max_spec max (y - num)) as [[_ ->]|[_ ->]]; [by exists num|done].
  - intros x L [Hx'|Hx'%list_elem_of_singleton]%elem_of_app Hp Hr; [specialize (Hb x L Hx' Hp Hr); lia|]. subst x.
    destruct (decide (y - num < L)); [|lia]. exfalso. apply Hyn.
    replace y with (num + (y - num)) by lia. apply Hr. lia.
Qed.

Lemma longestConsecutive_spec nums : Forall num_ok nums → Z.of_nat (length nums) ≤ INT_MAX →
  ∃ m, longestConsecutive nums = Ret m ∧ longest (list_to_set nums) m.
Proof.
  intros Hok Hlen. unfold longestConsecutive. set (S := list_to_set nums : gset Z).
  assert (∀ x, x ∈ S → num_ok x) as HokS.
  { intros x Hx%elem_of_list_to_set. by apply (proj1 (list.Forall_forall _ _) Hok). }
  assert (Z.of_nat (size S) ≤ INT_MAX) as Hsz.
  { pose proof (size_list_to_set_le nums) as Hle. fold S in Hle. lia. }
  destruct (scan_spec S nums HokS Hsz [] 0) as (m & -> & Hm & Hx & Hb).
  - intros x Hx. by apply elem_of_list_to_set.
  - split_and!; [done|exists 0; intros k; lia|]. intros x L Hx. by apply elem_of_nil in Hx.
  - exists m. split; [done|]. split; [done|]. intros x L Hr. destruct (decide (0 < L)); [|lia].
    destruct (run_start S (Datatypes.S (size S)) x L) as (s & H1 & H2 & H3 & H4); [lia..|done|].
    assert (x + L - s ≤ m); [|lia]. apply (Hb s); [by apply elem_of_list_to_set in H2|done..].
Qed.

(** ** The sorting version *)

(** The state of the loop after the elements of [P], the largest of them [prev]. *)
Record loop_inv (P : gset Z) (prev max count : Z) : Prop := {
  inv_prev : prev ∈ P;
  inv_upper y : y ∈ P → y ≤ prev;
  inv_count : 1 ≤ count;
  inv_run : run P (prev - count + 1) count;
  inv_left : prev - count ∉ P;
  inv_max : 0 ≤ max ∧ ∃ x, run P x max;
  inv_bound x L : run P x L → L ≤ Z.max max count;
}.

Lemma run_mono (P Q : gset Z) x L : P ⊆ Q → run P x L → run Q x L.
Proof. intros HPQ Hr k Hk. apply HPQ, Hr, Hk. Qed.

(** A run of [P] and a new largest element either avoids it or ends with it. *)
Lemma run_add (P : gset Z) v x L : (∀ y, y ∈ P → y < v) → run ({[v]} ∪ P) x L →
  run P x L ∨ 1 ≤ L ∧ x + L - 1 = v ∧ run P x (L - 1).
Proof.
  intros Hv Hr. destruct (decide (x ≤ v < x + L)) as [Hin|Hout].
  - assert (x + L - 1 = v) as Hend.
    { destruct (decide (x + L - 1 = v)); [done|].
      pose proof (Hr (v + 1 - x) ltac:(lia)) as H. replace (x + (v + 1 - x)) with (v + 1) in H by lia.
      apply elem_of_union in H as [H|H]; [apply elem_of_singleton in H; lia|].
      apply Hv in H. lia. }
    right. split_and!; [lia|done|]. intros k Hk. specialize (Hr k ltac:(lia)).
    apply elem_of_union in Hr as [H%elem_of_singleton|H]; [lia|done].
  - left. intros k Hk. specialize (Hr k Hk).
    apply elem_of_union in Hr as [H%elem_of_singleton|H]; [lia|done].
Qed.

Lemma loop_inv_next P prev max count : loop_inv P prev max count →
  loop_inv ({[prev + 1]} ∪ P) (prev + 1) max (count + 1).
Proof.
  intros [Hp Hu Hc Hr Hl [Hm [xm Hxm]] Hb].
  assert (∀ y, y ∈ P → y < prev + 1) as Hlt by (intros y Hy; apply Hu in Hy; lia).
  split; [set_solver| |lia| | | |].
  - intros y [->%elem_of_singleton|Hy%Hu]%elem_of_union; lia.
  - intros k Hk. replace (prev + 1 - (count + 1) + 1 + k) with (prev - count + 1 + k) by lia.
    destruct (decide (k = count)) as [->|]; [|apply elem_of_union; right; apply Hr; lia].
    replace (prev - count + 1 + count) with (prev + 1) by lia. set_solver.
  - replace (prev + 1 - (count + 1)) with (prev - count) by lia.
    intros [H%elem_of_singleton|H]%elem_of_union; [lia|done].
  - split; [done|]. exists xm. by eapply run_mono; [|exact Hxm]; set_solver.
  - intros x L [H|(HL & Hx & H)]%run_add; [specialize (Hb x L H); lia| |done].
    destruct (decide (L ≤ count + 1)); [lia|]. exfalso. apply Hl.
    replace (prev - count) with (x + (prev - count - x)) by lia. apply H. lia.
Qed.

Lemma loop_inv_gap P prev max count v : loop_inv P prev max count → prev + 1 < v →
  loop_inv ({[v]} ∪ P) v (Z.max max count) 1.
Proof.
  intros [Hp Hu Hc Hr Hl [Hm [xm Hxm]] Hb] Hv.
  assert (∀ y, y ∈ P → y < v) as Hlt by (intros y Hy; apply Hu in Hy; lia).
  assert (v - 1 ∉ P) as Hgap by (intros H%Hu; lia).
  split; [set_solver| |lia| | | |].
  - intros y [->%elem_of_singleton|Hy%Hu]%elem_of_union; lia.
  - intros k Hk. replace (v - 1 + 1 + k) with v by lia. set_solver.
  - intros [H%elem_of_singleton|H]%elem_of_union; [lia|done].
  - split; [lia|]. destruct (Z.max_spec max count) as [[_ ->]|[_ ->]].
    + exists (prev - count + 1). by eapply run_mono; [|exact Hr]; set_solver.
    + exists xm. by eapply run_mono; [|exact Hxm]; set_solver.
  - intros x L [H|(HL & Hx & H)]%run_add; [specialize (Hb x L H); lia| |done].
    destruct (decide (L ≤ 1)); [lia|]. exfalso. apply Hgap.
    replace (v - 1) with (x + (L - 2)) by lia. apply H. lia.
Qed.

Lemma sorted_loop_spec nums : ∀ P prev max count,
  StronglySorted Z.le (prev :: nums) → Forall num_ok (prev :: nums) → loop_inv P prev max count →
  Z.of_nat (size (P ∪ list_to_set nums)) ≤ INT_MAX →
  ∃ m, sorted_loop prev nums max count = Ret m ∧ longest (P ∪ list_to_set nums) m.
Proof.
  induction nums as [|v nums IH]; intros P prev max count Hs Hok Hinv Hsz; cbn [sorted_loop].
  { exists (Z.max max count). split; [done|]. replace (P ∪ _) with P by set_solver.
    destruct Hinv as [_ _ Hc Hr _ [Hm [xm Hxm]] Hb]. split; [|done].
    destruct (Z.max_spec max count) as [[_ ->]|[_ ->]]; eauto. }
  apply StronglySorted_inv in Hs as [Hs Hle]. apply Forall_cons_1 in Hle as [Hle _].
  apply Forall_cons_1 in Hok as [[Hp1 Hp2] Hok]. rewrite (int_between (prev + 1)), bind_Ret by lia.
  assert (P ∪ list_to_set (v :: nums) = ({[v]} ∪ P) ∪ list_to_set nums) as E by set_solver.
  rewrite E in *. destruct (Z.eqb_spec v (prev + 1)) as [->|Hn1].
  - pose proof (loop_inv_next P prev max count Hinv) as Hinv'.
    assert (count + 1 ≤ INT_MAX) as Hc.
    { etransitivity; [|exact Hsz]. etransitivity; [apply (run_size _ _ _ (inv_run _ _ _ _ Hinv'))|].
      apply inj_le, subseteq_size. set_solver. }
    pose proof (inv_count _ _ _ _ Hinv). rewrite int_between, bind_Ret by (unfold INT_MIN; lia).
    by apply IH.
  - destruct (Z.eqb_spec v prev) as [->|Hn2].
    + apply IH; [done..| |done]. replace ({[prev]} ∪ P) with P; [done|].
      pose proof (inv_prev _ _ _ _ Hinv). set_solver.
    + apply IH; [done..| |done]. apply (loop_inv_gap P prev); [done|lia].
Qed.

Lemma longestConsecutiveSorting_spec nums : nums ≠ [] → Forall num_ok nums →
  Z.of_nat (length nums) ≤ INT_MAX →
  ∃ m, longestConsecutiveSorting nums = Ret m ∧ longest (list_to_set nums) m.
Proof.
  intros Hne Hok Hlen. unfold longestConsecutiveSorting.
  pose proof (merge_sort_Permutation Z.le nums) as Hp.
  pose proof (StronglySorted_merge_sort Z.le nums) as Hs.
  destruct (merge_sort Z.le nums) as [|x l].
  { apply Permutation_nil in Hp. done. }
  assert (list_to_set nums = {[x]} ∪ list_to_set l :> gset Z) as ->.
  { apply set_eq. intros y. rewrite elem_of_list_to_set, <- Hp, elem_of_cons. set_solver. }
  apply sorted_loop_spec; [done|by rewrite Hp| |].
  - split; [set_solver|set_solver|lia| | |split; [lia|exists 0; intros k; lia]|].
    + intros k Hk. replace (x - 1 + 1 + k) with x by lia. set_solver.
    + intros H%elem_of_singleton. lia.
    + intros y L Hr. pose proof (run_size _ _ _ Hr). rewrite size_singleton in *. lia.
  - change ({[x]} ∪ list_to_set l) with (list_to_set (x :: l) : gset Z).
    pose proof (size_list_to_set_le (x :: l)). rewrite Hp in *. lia.
Qed.

(** On every non-empty array whose numbers are not the extreme [int]s, the
    hashing and the sorting version return the same length, that of the longest
    run of consecutive numbers that all occur in the array. *)
Theorem longestConsecutive_versions_agree nums :
  nums ≠ [] → Forall num_ok nums → Z.of_nat (length nums) ≤ INT_MAX →
  ∃ m, longestConsecutive nums = Ret m ∧ longestConsecutiveSorting nums = Ret m ∧
    longest (list_to_set nums) m.
Proof.
  intros Hne Hok Hlen. destruct (longestConsecutive_spec nums Hok Hlen) as (m & E & [x Hx] & Hm).
  destruct (longestConsecutiveSorting_spec nums Hne Hok Hlen) as (m' & E' & [x' Hx'] & Hm').
  assert (m = m') as <-; [|by exists m; split_and!; [..|split; [exists x|]]].
  apply Z.le_antisymm; [by eapply Hm'|by eapply Hm].
Qed.

Lemma longestConsecutive_versions_agree_witness :
  ∃ m, longestConsecutive [100; 4; 200; 1; 3; 2] = Ret m ∧
       longestConsecutiveSorting [100; 4; 200; 1; 3; 2] = Ret m.
Proof.
  destruct (longestConsecutive_versions_agree [100; 4; 200; 1; 3; 2]) as (m & H1 & H2 & _).
  - discriminate.
  - repeat constructor.
  - vm_compute. discriminate.
  - exists m. split; [exact H1|exact H2].
Defined.

(** On the empty array the versions differ. *)
Lemma longestConsecutive_empty :
  longestConsecutive [] = Ret 0 ∧ longestConsecutiveSorting [] = Ret 1.
Proof. split; reflexivity. Qed.
