(* ===== verification/LeakDetector.v ===== *)
(** * memoryLeakDetector/detector.cpp

    The wrapped allocator that records every allocation in a list.  The real
    allocator is code outside the repository: the class [Allocator] is what
    [malloc], [calloc], [realloc] and [free] are documented to do, on an
    abstract heap whose live blocks are a map from addresses to sizes.  The
    records are themselves blocks of that heap. *)

From stdpp Require Import base list gmap strings numbers relations.
From Stdlib Require Import ZArith Lia.
From S2P Require Import Prelude.

(** [sizeof(mem_entry_t)]: two words, a pointer, a padded int and a pointer. *)
Definition sizeof_entry : Z := 40.

Record mem_entry_t := mkEntry { ptr : Z; esize : Z; file : string; line : Z }.

(** The list from [head]: each record with its own address. *)
Definition entries := list (Z * mem_entry_t).

(** ** The real allocator *)

Class Allocator (H : Type) := {
  live : H → gmap Z Z;
  real_malloc : Z → H → Z * H;
  real_calloc : Z → Z → H → Z * H;
  real_realloc : Z → Z → H → Z * H;
  real_free : Z → H → H;
  (** A block that is not live yet, or null and an unchanged heap. *)
  malloc_spec n h :
    let '(p, h') := real_malloc n h in
    p = 0 ∧ live h' = live h ∨ p ≠ 0 ∧ live h !! p = None ∧ live h' = <[p := n]> (live h);
  calloc_spec k n h :
    let '(p, h') := real_calloc k n h in
    p = 0 ∧ live h' = live h ∨
    p ≠ 0 ∧ k * n < 2 ^ 64 ∧ live h !! p = None ∧ live h' = <[p := k * n]> (live h);
  (** On success the old block is gone; on failure it is still there. *)
  realloc_spec p n h : p = 0 ∨ is_Some (live h !! p) →
    let '(q, h') := real_realloc p n h in
    q = 0 ∧ live h' = live h ∨
    q ≠ 0 ∧ delete p (live h) !! q = None ∧ live h' = <[q := n]> (delete p (live h));
  free_spec p h : is_Some (live h !! p) → live (real_free p h) = delete p (live h);
  null_not_live h : live h !! 0 = None;
}.

Section detector.
Context {H : Type} `{Allocator H}.
Implicit Types (h : H) (head : entries).

(** ** The detector *)

Definition add_entry (p size : Z) (file : string) (line : Z) head h : outcome (entries * H) :=
  let '(entry, h) := real_malloc sizeof_entry h in
  if entry =? 0 then Err NullDeref else
  Ret ((entry, mkEntry p size file line) :: head, h).

(** The search of [remove_entry]: the record unlinked and its address. *)
Fixpoint unlink (p : Z) head : option (Z * entries) :=
  match head with
  | [] => None
  | (a, e) :: next =>
      if ptr e =? p then Some (a, next)
      else '(b, next) ← unlink p next; Some (b, (a, e) :: next)
  end.

(** The flag says whether the warning is printed. *)
Definition remove_entry (p : Z) head h : bool * entries * H :=
  match unlink p head with
  | Some (tmp, head) => (false, head, real_free tmp h)
  | None => (true, head, h)
  end.

Definition report_leaks head : list mem_entry_t := head.*2.

Definition my_malloc (size : Z) (file : string) (line : Z) head h : outcome (Z * entries * H) :=
  let '(p, h) := real_malloc size h in
  if p =? 0 then Ret (p, head, h) else
  '(head, h) ← add_entry p size file line head h; Ret (p, head, h).

Definition my_calloc (nmemb size : Z) (file : string) (line : Z) head h : outcome (Z * entries * H) :=
  let '(p, h) := real_calloc nmemb size h in
  if p =? 0 then Ret (p, head, h) else
  '(head, h) ← add_entry p (u64 (nmemb * size)) file line head h; Ret (p, head, h).

Definition my_realloc (p size : Z) (file : string) (line : Z) head h : outcome (Z * entries * H) :=
  let '(warned, head, h) := if p =? 0 then (false, head, h) else remove_entry p head h in
  let '(new_ptr, h) := real_realloc p size h in
  if new_ptr =? 0 then Ret (new_ptr, head, h) else
  '(head, h) ← add_entry new_ptr size file line head h; Ret (new_ptr, head, h).

Definition my_free (p : Z) head h : bool * entries * H :=
  if p =? 0 then (false, head, h) else
  let '(warned, head, h) := remove_entry p head h in
  (warned, head, real_free p h).

(** ** The invariant *)

(** The client's blocks and the records' own blocks, as one map. *)
Definition blocks head : gmap Z Z :=
  list_to_map ((λ x, (ptr x.2, esize x.2)) <$> head) ∪
  list_to_map ((λ x, (x.1, sizeof_entry)) <$> head).

Definition addresses head : list Z := (λ x, ptr x.2) <$> head.

(** The records are exactly the live blocks, each block recorded once. *)
Record tracked head h : Prop := {
  tr_nodup : NoDup (addresses head ++ head.*1);
  tr_live : live h = blocks head;
}.

(** A block with its record put in front. *)
Lemma blocks_cons a e head : ptr e ≠ a → a ∉ addresses head →
  blocks ((a, e) :: head) = <[a := sizeof_entry]> (<[ptr e := esize e]> (blocks head)).
Proof.
  intros Hne Ha. unfold blocks. simpl.
  rewrite <- insert_union_l, <- insert_union_r; [by rewrite insert_insert_ne|].
  apply not_elem_of_list_to_map_1. rewrite <- list_fmap_compose. exact Ha.
Qed.

Lemma blocks_None p head : blocks head !! p = None ↔ p ∉ addresses head ++ head.*1.
Proof.
  unfold blocks. rewrite lookup_union_None, not_elem_of_app. f_equiv.
  - rewrite <- not_elem_of_list_to_map, <- list_fmap_compose. done.
  - rewrite <- not_elem_of_list_to_map, <- list_fmap_compose. done.
Qed.

(** The ledger: the client's live blocks with their origin. *)
Definition ledger head : gmap Z mem_entry_t := list_to_map ((λ x, (ptr x.2, x.2)) <$> head).

Lemma NoDup_keys {B} (f : Z * mem_entry_t → Z * B) head :
  NoDup ((λ x, (f x).1) <$> head) → NoDup (f <$> head).*1.
Proof. by rewrite <- list_fmap_compose. Qed.

Lemma maps_permutation head1 head2 : head1 ≡ₚ head2 → NoDup (addresses head1 ++ head1.*1) →
  NoDup (addresses head2 ++ head2.*1) ∧ blocks head1 = blocks head2 ∧ ledger head1 = ledger head2.
Proof.
  intros Hp Hnd. split; [by unfold addresses in *; rewrite <- Hp|].
  apply list.NoDup_app in Hnd as (Hn1 & _ & Hn2). unfold blocks, ledger, addresses in *.
  rewrite (list_to_map_proper ((λ x, (ptr x.2, esize x.2)) <$> head1) ((λ x, (ptr x.2, esize x.2)) <$> head2)),
    (list_to_map_proper ((λ x, (x.1, sizeof_entry)) <$> head1) ((λ x, (x.1, sizeof_entry)) <$> head2)),
    (list_to_map_proper ((λ x, (ptr x.2, x.2)) <$> head1) ((λ x, (ptr x.2, x.2)) <$> head2));
    [done|by apply NoDup_keys|by rewrite Hp|by apply NoDup_keys|by rewrite Hp|by apply NoDup_keys|by rewrite Hp].
Qed.

Lemma unlink_spec p head : match unlink p head with
  | Some (a, head') => ∃ e, ptr e = p ∧ head ≡ₚ (a, e) :: head'
  | None => p ∉ addresses head
  end.
Proof.
  induction head as [|[a e] head IH]; simpl; [apply not_elem_of_nil|].
  destruct (Z.eqb_spec (ptr e) p) as [E|E]; [by exists e|].
  destruct (unlink p head) as [[b head']|]; simpl.
  - destruct IH as (e' & He & Hp). exists e'. split; [done|]. rewrite Hp. constructor.
  - unfold addresses. csimpl. apply not_elem_of_cons. split; [congruence|done].
Qed.

Lemma ledger_lookup head p : is_Some (ledger head !! p) ↔ p ∈ addresses head.
Proof.
  unfold ledger, addresses. rewrite <- not_eq_None_Some, <- not_elem_of_list_to_map, <- list_fmap_compose.
  split; [intros Hn|tauto]. destruct (decide (p ∈ (λ x, ptr x.2) <$> head)); [done|]. by destruct Hn.
Qed.

(** A fresh block, recorded. *)
Lemma add_entry_tracked p n f l head h1 r : NoDup (addresses head ++ head.*1) →
  blocks head !! p = None → live h1 = <[p := n]> (blocks head) → add_entry p n f l head h1 = Ret r →
  tracked r.1 r.2 ∧ ledger r.1 = <[p := mkEntry p n f l]> (ledger head).
Proof.
  intros Hnd Hfresh Hl1. unfold add_entry.
  pose proof (malloc_spec sizeof_entry h1) as Hm. destruct (real_malloc sizeof_entry h1) as [a h2].
  destruct (Z.eqb_spec a 0) as [|Ha]; [done|]. intros [= <-]. simpl.
  destruct Hm as [[? _]|(_ & Hfa & Hl2)]; [done|]. rewrite Hl1 in Hfa, Hl2.
  apply lookup_insert_None in Hfa as [Hfa Hpa].
  apply blocks_None in Hfresh as Hfp. apply blocks_None in Hfa.
  apply not_elem_of_app in Hfp as [Hp1 Hp2]. apply not_elem_of_app in Hfa as [Ha1 Ha2].
  split; [|done]. split; cbn [fst snd].
  - apply list.NoDup_app in Hnd as (N1 & N2 & N3).
    change (NoDup ((p :: addresses head) ++ a :: head.*1)). apply list.NoDup_app. split_and!.
    + by constructor.
    + intros x [->|Hx]%elem_of_cons [->|Hx2]%elem_of_cons; try done. by apply (N2 x).
    + by constructor.
  - rewrite Hl2, blocks_cons; [done|simpl; congruence|done].
Qed.

(** A recorded block, unlinked and its record freed: only the block itself is
    left over in the heap. *)
Lemma remove_entry_tracked p head h : tracked head h → is_Some (ledger head !! p) →
  ∃ head' h' n, remove_entry p head h = (false, head', h') ∧
    NoDup (addresses head' ++ head'.*1) ∧ live h' = <[p := n]> (blocks head') ∧
    blocks head' !! p = None ∧ p ≠ 0 ∧ ledger head' = delete p (ledger head).
Proof.
  intros [Hnd Hl] Hp%ledger_lookup. unfold remove_entry. pose proof (unlink_spec p head) as Hu.
  destruct (unlink p head) as [[a head']|]; [|done]. destruct Hu as (e & He & Hperm).
  destruct (maps_permutation _ _ Hperm Hnd) as (Hnd' & Eb & El). simpl in Hnd'.
  apply NoDup_cons in Hnd' as [Hpa Hnd'']. rewrite He in Hpa.
  apply not_elem_of_app in Hpa as [Hp1 Hp2]. apply not_elem_of_cons in Hp2 as [Hpa Hp2].
  fold (addresses head') in *. rewrite <- Permutation_middle in Hnd''.
  apply NoDup_cons in Hnd'' as [Ha Hnd'']. apply not_elem_of_app in Ha as [Ha1 Ha2].
  rewrite blocks_cons in Eb by (try rewrite He; done).
  exists head', (real_free a h), (esize e). split; [done|].
  assert (blocks head' !! p = None) as HpN by (apply blocks_None, not_elem_of_app; done).
  assert (blocks head' !! a = None) as HaN by (apply blocks_None, not_elem_of_app; done).
  split_and!; [done| |done| |].
  - rewrite free_spec by (rewrite Hl, Eb, lookup_insert_eq; eauto).
    rewrite Hl, Eb, delete_insert_id, He; [done|]. rewrite lookup_insert_ne; [done|congruence].
  - intros ->. pose proof (null_not_live h) as Hn. rewrite Hl, Eb, He in Hn.
    rewrite lookup_insert_ne, lookup_insert_eq in Hn by congruence. done.
  - rewrite El. unfold ledger. simpl. rewrite He, delete_insert_id; [done|].
    apply not_elem_of_list_to_map_1. rewrite <- list_fmap_compose. exact Hp1.
Qed.

(** ** The client *)

Inductive op :=
  | Malloc (size : Z) (f : string) (l : Z)
  | Calloc (nmemb size : Z) (f : string) (l : Z)
  | Realloc (p size : Z) (f : string) (l : Z)
  | Free (p : Z).

(** The returned pointer ([Free] returns none) and the new state. *)
Definition exec (o : op) head h : outcome (Z * entries * H) :=
  match o with
  | Malloc n f l => my_malloc n f l head h
  | Calloc k n f l => my_calloc k n f l head h
  | Realloc p n f l => my_realloc p n f l head h
  | Free p => let '(_, head, h) := my_free p head h in Ret (0, head, h)
  end.

(** Pointers are passed back only while they are live; [realloc] and [free]
    accept null. *)
Definition valid (o : op) (L : gmap Z mem_entry_t) : Prop :=
  match o with
  | Realloc p _ _ _ | Free p => p = 0 ∨ is_Some (L !! p)
  | _ => True
  end.

(** What the client owns after an operation that returned [r]. *)
Definition owns (o : op) (r : Z) (L : gmap Z mem_entry_t) : gmap Z mem_entry_t :=
  match o with
  | Malloc n f l => if r =? 0 then L else <[r := mkEntry r n f l]> L
  | Calloc k n f l => if r =? 0 then L else <[r := mkEntry r (k * n) f l]> L
  | Realloc p n f l => if r =? 0 then L else <[r := mkEntry r n f l]> (delete p L)
  | Free p => delete p L
  end.

Definition realloc_failed (o : op) (r : Z) : bool :=
  match o with Realloc p _ _ _ => negb (p =? 0) && (r =? 0) | _ => false end.

(** Sizes are not negative. *)
Definition sizes_ok (o : op) : Prop :=
  match o with Calloc k n _ _ => 0 ≤ k * n | _ => True end.

(** Runs in which no [realloc] of a block fails. *)
Inductive reach : entries → H → gmap Z mem_entry_t → Prop :=
  | reach_init h : live h = ∅ → reach [] h ∅
  | reach_step head h L o r head' h' : reach head h L → valid o L → sizes_ok o →
      exec o head h = Ret (r, head', h') → realloc_failed o r = false →
      reach head' h' (owns o r L).

(** The common end of the allocating wrappers. *)
Lemma record_tracked (p n : Z) f l head h1 r : NoDup (addresses head ++ head.*1) →
  p ≠ 0 → blocks head !! p = None → live h1 = <[p := n]> (blocks head) →
  ('(hd, h2) ← add_entry p n f l head h1; Ret (p, hd, h2)) = Ret r →
  r.1.1 = p ∧ tracked r.1.2 r.2 ∧ ledger r.1.2 = <[p := mkEntry p n f l]> (ledger head).
Proof.
  intros Hnd Hp Hf Hl H1. inv_ret. destruct a as [hd h2]. inv_ret. simpl. split; [done|].
  by apply (add_entry_tracked p n f l head h1 (hd, h2)).
Qed.

Lemma malloc_tracked n f l head h r : tracked head h → my_malloc n f l head h = Ret r →
  tracked r.1.2 r.2 ∧ ledger r.1.2 = owns (Malloc n f l) r.1.1 (ledger head).
Proof.
  intros [Hnd Hl] Hex. unfold my_malloc in Hex. pose proof (malloc_spec n h) as Hm.
  destruct (real_malloc n h) as [p h1]. destruct (Z.eqb_spec p 0) as [->|Hp].
  - inv_ret. destruct Hm as [[_ Hl1]|[? _]]; [|done]. split; [|done]. split; [done|simpl; congruence].
  - destruct Hm as [[? _]|(_ & Hf & Hl1)]; [done|]. rewrite Hl in *.
    destruct (record_tracked p n f l head h1 r Hnd Hp Hf Hl1 Hex) as (-> & Ht & El).
    split; [done|]. simpl. by rewrite (proj2 (Z.eqb_neq p 0) Hp).
Qed.

Lemma calloc_tracked k n f l head h r : tracked head h → 0 ≤ k * n →
  my_calloc k n f l head h = Ret r →
  tracked r.1.2 r.2 ∧ ledger r.1.2 = owns (Calloc k n f l) r.1.1 (ledger head).
Proof.
  intros [Hnd Hl] Hs Hex. unfold my_calloc in Hex. pose proof (calloc_spec k n h) as Hm.
  destruct (real_calloc k n h) as [p h1]. destruct (Z.eqb_spec p 0) as [->|Hp].
  - inv_ret. destruct Hm as [[_ Hl1]|[? _]]; [|done]. split; [|done]. split; [done|simpl; congruence].
  - destruct Hm as [[? _]|(_ & Hb & Hf & Hl1)]; [done|]. rewrite Hl in *. rewrite u64_small in Hex by lia.
    destruct (record_tracked p (k * n) f l head h1 r Hnd Hp Hf Hl1 Hex) as (-> & Ht & El).
    split; [done|]. simpl. by rewrite (proj2 (Z.eqb_neq p 0) Hp).
Qed.

Lemma free_tracked p head h : tracked head h → p = 0 ∨ is_Some (ledger head !! p) →
  ∃ head' h', my_free p head h = (false, head', h') ∧ tracked head' h' ∧
    ledger head' = delete p (ledger head).
Proof.
  intros Ht Hv. unfold my_free. destruct (Z.eqb_spec p 0) as [->|Hp].
  - exists head, h. split; [done|]. split; [done|]. rewrite delete_id; [done|].
    apply eq_None_not_Some. intros Hs. apply ledger_lookup in Hs as Hs'.
    destruct (remove_entry_tracked 0 head h Ht Hs) as (? & ? & ? & _ & _ & _ & _ & ? & _). done.
  - destruct Hv as [?|Hs]; [done|].
    destruct (remove_entry_tracked p head h Ht Hs) as (hd & h1 & n & -> & Hnd & Hl & HN & _ & El).
    exists hd, (real_free p h1). split; [done|]. split; [|done]. split; [done|].
    rewrite free_spec by (rewrite Hl, lookup_insert_eq; eauto). by rewrite Hl, delete_insert_id.
Qed.

(** [realloc] of null is [malloc]; of a recorded block it moves the record. *)
Lemma realloc_tracked p n f l head h r : tracked head h → p = 0 ∨ is_Some (ledger head !! p) →
  my_realloc p n f l head h = Ret r → realloc_failed (Realloc p n f l) r.1.1 = false →
  tracked r.1.2 r.2 ∧ ledger r.1.2 = owns (Realloc p n f l) r.1.1 (ledger head).
Proof.
  intros Ht Hv Hex Hrf. unfold my_realloc in Hex.
  assert (∃ hd h1, (if p =? 0 then (false, head, h) else remove_entry p head h) = (false, hd, h1) ∧
    NoDup (addresses hd ++ hd.*1) ∧ delete p (live h1) = blocks hd ∧
    (p = 0 ∧ hd = head ∧ live h1 = blocks hd ∨ p ≠ 0 ∧ is_Some (live h1 !! p)) ∧
    ledger hd = delete p (ledger head)) as (hd & h1 & E & Hnd & Hl & Hc & El).
  { destruct (free_tracked p head h Ht Hv) as (_ & _ & _ & _ & _). destruct (Z.eqb_spec p 0) as [->|Hp].
    - exists head, h. destruct Ht as [Hnd Hl]. split_and!; [done..| |by left|].
      + rewrite delete_id, Hl; [done|apply null_not_live].
      + rewrite delete_id; [done|]. apply eq_None_not_Some. intros Hs%ledger_lookup.
        pose proof (null_not_live h) as Hn. rewrite Hl in Hn. apply blocks_None in Hn. set_solver.
    - destruct Hv as [?|Hs]; [done|].
      destruct (remove_entry_tracked p head h Ht Hs) as (hd & h1 & m & -> & Hnd & Hl & HN & _ & El).
      exists hd, h1. split_and!; [done..| |right|done].
      + by rewrite Hl, delete_insert_id.
      + split; [done|]. rewrite Hl, lookup_insert_eq. eauto. }
  rewrite E in Hex.
  pose proof (realloc_spec p n h1 ltac:(destruct Hc as [[-> _]|[_ ?]]; [by left|by right])) as Hm.
  destruct (real_realloc p n h1) as [q h2]. destruct (Z.eqb_spec q 0) as [->|Hq].
  - inv_ret. simpl in *. destruct Hc as [(-> & -> & Hl1)|[Hp _]].
    + destruct Hm as [[_ Hl2]|[? _]]; [|done]. split; [|done]. split; [done|congruence].
    + by rewrite (proj2 (Z.eqb_neq p 0) Hp) in Hrf.
  - destruct Hm as [[? _]|(_ & Hf & Hl2)]; [done|]. rewrite Hl in *.
    destruct (record_tracked q n f l hd h2 r Hnd Hq Hf Hl2 Hex) as (-> & Ht' & El').
    split; [done|]. simpl. by rewrite (proj2 (Z.eqb_neq q 0) Hq), El', El.
Qed.

Lemma reach_tracked head h L : reach head h L → tracked head h ∧ ledger head = L.
Proof.
  induction 1 as [h Hl|head h L o r head' h' _ [Ht <-] Hv Hs Hex Hrf].
  { split; [|done]. split; [constructor|]. rewrite Hl. done. }
  destruct o as [n f l|k n f l|p n f l|p].
  - by apply (malloc_tracked n f l head h (r, head', h')).
  - by apply (calloc_tracked k n f l head h (r, head', h')).
  - by apply (realloc_tracked p n f l head h (r, head', h')).
  - destruct (free_tracked p head h Ht Hv) as (hd & h1 & E & Ht' & El).
    simpl in Hex. rewrite E in Hex. by inv_ret; simplify_eq.
Qed.

(** ** The properties *)

(** C19: as long as no [realloc] of a block fails, the report lists exactly the
    blocks the client owns, each once, with the size and origin of their last
    allocation; and the heap holds these blocks and the detector's records of
    them and nothing else. *)
Theorem LeakDetector_exact head h L :
  reach head h L →
  report_leaks head ≡ₚ (map_to_list L).*2 ∧
  live h = (esize <$> L) ∪ list_to_map ((λ x, (x.1, sizeof_entry)) <$> head).
Proof.
  intros [[Hnd Hl] <-]%reach_tracked.
  assert (NoDup ((λ x, (ptr x.2, x.2)) <$> head).*1) as Hk.
  { apply list.NoDup_app in Hnd as (Hn & _). by apply NoDup_keys. }
  split.
  - unfold ledger. rewrite map_to_list_to_map by done. rewrite <- list_fmap_compose. done.
  - rewrite Hl. unfold blocks. f_equal. unfold ledger. clear.
    induction head as [|[a e] head IH]; [simpl; by rewrite fmap_empty|]. csimpl. by rewrite fmap_insert, IH.
Qed.
End detector.

(** ** A concrete allocator

    Blocks at fresh addresses; [realloc] refuses more than 1000 bytes. *)

Definition fresh_address (h : gmap Z Z) : Z := fresh ({[0]} ∪ dom h : gset Z).

Lemma fresh_address_spec h : fresh_address h ≠ 0 ∧ h !! fresh_address h = None.
Proof.
  pose proof (is_fresh ({[0]} ∪ dom h : gset Z)) as Hf. unfold fresh_address.
  apply not_elem_of_union in Hf as [H1 H2]. split; [set_solver|by apply not_elem_of_dom].
Qed.

#[export] Program Instance simple_Allocator : Allocator (gmap Z Z) := {|
  live h := delete 0 h;
  real_malloc n h := (fresh_address h, <[fresh_address h := n]> h);
  real_calloc k n h := if k * n <? 2 ^ 64 then (fresh_address h, <[fresh_address h := k * n]> h) else (0, h);
  real_realloc p n h := if n <? 1000 then (fresh_address h, <[fresh_address h := n]> (delete p h)) else (0, h);
  real_free p h := delete p h;
|}.
Next Obligation.
  intros n h. destruct (fresh_address_spec h) as [H1 H2]. simpl. right.
  rewrite delete_insert_ne, lookup_delete_ne by done. done.
Qed.
Next Obligation.
  intros k n h. destruct (fresh_address_spec h) as [H1 H2]. simpl.
  destruct (Z.ltb_spec (k * n) (2 ^ 64)); [right|by left].
  rewrite delete_insert_ne, lookup_delete_ne by done. done.
Qed.
Next Obligation.
  intros p n h _. destruct (fresh_address_spec h) as [H1 H2]. simpl.
  destruct (Z.ltb_spec n 1000); [right|by left].
  rewrite delete_insert_ne by done. rewrite delete_delete. split_and!; [done| |done].
  rewrite lookup_delete_ne by done. apply lookup_delete_None. by right.
Qed.
Next Obligation. intros p h _. simpl. by rewrite delete_delete. Qed.
Next Obligation. intros h. simpl. apply lookup_delete_eq. Qed.

(** A block allocated, a second one allocated and freed. *)
Lemma demo_reach : ∃ head h r1 r2, reach (H := gmap Z Z) head h
  (owns (Free r2) 0 (owns (Malloc 200 "b.c" 2) r2 (owns (Malloc 100 "a.c" 1) r1 ∅))).
Proof.
  destruct (exec (Malloc 100 "a.c" 1) [] (∅ : gmap Z Z)) as [[[r1 hd1] h1]|] eqn:E1;
    [|vm_compute in E1; discriminate].
  destruct (exec (Malloc 200 "b.c" 2) hd1 h1) as [[[r2 hd2] h2]|] eqn:E2;
    [|vm_compute in E1; inversion E1; subst; vm_compute in E2; discriminate].
  destruct (exec (Free r2) hd2 h2) as [[[r3 hd3] h3]|] eqn:E3;
    [|simpl in E3; destruct (my_free r2 hd2 h2) as [[? ?] ?]; discriminate].
  exists hd3, h3, r1, r2. assert (r3 = 0) as ->.
  { simpl in E3. destruct (my_free r2 hd2 h2) as [[? ?] ?]. by inversion E3. }
  apply (reach_step hd2 h2 _ (Free r2) 0); [| |done|exact E3|done].
  - apply (reach_step hd1 h1 _ (Malloc 200 "b.c" 2) r2); [|done|done|exact E2|done].
    apply (reach_step [] ∅ _ (Malloc 100 "a.c" 1) r1); [by apply reach_init|done|done|exact E1|done].
  - right. vm_compute in E1. inversion E1; subst. vm_compute in E2. inversion E2; subst.
    vm_compute. eauto.
Qed.

Lemma LeakDetector_exact_witness : ∃ head : entries, ∃ L : gmap Z mem_entry_t, report_leaks head ≡ₚ (map_to_list L).*2.
Proof.
  destruct demo_reach as (head & h & r1 & r2 & Hr). exists head. eexists.
  exact (proj1 (LeakDetector_exact head h _ Hr)).
Defined.

(** A [realloc] that fails: the old block is still live and owned, but its
    record is gone, so the leak is not reported. *)
Lemma realloc_failure_hides_leak :
  ∃ head h h' p, exec (Malloc 100 "a.c" 1) [] (∅ : gmap Z Z) = Ret (p, head, h) ∧
    exec (Realloc p 5000 "a.c" 2) head h = Ret (0, [], h') ∧
    is_Some (live h' !! p) ∧ report_leaks [] = [].
Proof.
  destruct (exec (Malloc 100 "a.c" 1) [] (∅ : gmap Z Z)) as [[[p hd] h]|] eqn:E; [|by vm_compute in E].
  exists hd, h. vm_compute in E. inversion E; subst. do 2 eexists. split; [done|].
  split; [vm_compute; reflexivity|]. split; [vm_compute; eauto|done].
Qed.
