(* ===== verification/LockFreeStack.v ===== *)
(** * threadPool/lockFreeStack.cpp

    The Treiber stack with [compare_exchange_weak].  Nodes live on an explicit
    heap, a deleted node is no longer there, and a read of a node that is not
    there is a fault of the system.  Every atomic operation and every access to
    a shared node is a step of its own, interleaved arbitrarily; the weak
    exchange may fail spuriously.  Weak-memory reordering is not modelled. *)

From stdpp Require Import base list gmap numbers relations.
From Stdlib Require Import ZArith Lia.
From S2P Require Import Prelude.

Record Node := mkNode { value : Z; next : Z }.

(** Where a thread is: 0 is the null pointer. *)
Inductive thread :=
  | Idle
  | PushLoad (newNode : Z)          (* allocated, before [head.load] *)
  | PushCas (newNode : Z)           (* before [compare_exchange_weak] *)
  | PopLoad                         (* before [head.load] *)
  | PopNext (oldHead : Z)           (* [oldHead] not null, before reading [oldHead->next] *)
  | PopCas (oldHead desired : Z)    (* before [compare_exchange_weak] *)
  | PopWon (oldHead : Z)            (* after the exchange, before reading and deleting *)
  | Fault.                          (* touched a deleted node *)

Record system := mkSystem {
  heap : gmap Z Node;
  head : Z;
  threads : list thread;
  stack : list Z;      (* the values by the order of the exchanges, top first *)
  taken : list Z;      (* the values removed by the exchanges, in order *)
  returned : list Z;   (* the values that [pop] returned, in order *)
}.

Definition new_LockFreeStack (n : nat) : system := mkSystem ∅ 0 (replicate n Idle) [] [] [].

Definition goto (s : system) (i : nat) (t : thread) : system :=
  mkSystem (heap s) (head s) (<[i := t]> (threads s)) (stack s) (taken s) (returned s).
Definition with_heap (s : system) (h : gmap Z Node) : system :=
  mkSystem h (head s) (threads s) (stack s) (taken s) (returned s).

(** [oldHead] null ends the loop of [pop], which returns -1. *)
Definition pop_retry (oldHead : Z) : thread := if oldHead =? 0 then Idle else PopNext oldHead.

Definition popping (t : thread) : bool :=
  match t with PopLoad | PopNext _ | PopCas _ _ | PopWon _ => true | _ => false end.

(** [guard] says when a thread may start a [pop]. *)
Inductive step (guard : list thread → Prop) : system → system → Prop :=
  | step_push s i v a : threads s !! i = Some Idle → a ≠ 0 → heap s !! a = None →
      step guard s (with_heap (goto s i (PushLoad a)) (<[a := mkNode v 0]> (heap s)))
  | step_push_load s i a n : threads s !! i = Some (PushLoad a) → heap s !! a = Some n →
      step guard s (with_heap (goto s i (PushCas a)) (<[a := mkNode (value n) (head s)]> (heap s)))
  | step_push_cas s i a n : threads s !! i = Some (PushCas a) → heap s !! a = Some n →
      next n = head s →
      step guard s (mkSystem (heap s) a (<[i := Idle]> (threads s)) (value n :: stack s)
                      (taken s) (returned s))
  | step_push_retry s i a n : threads s !! i = Some (PushCas a) → heap s !! a = Some n →
      step guard s (with_heap s (<[a := mkNode (value n) (head s)]> (heap s)))
  | step_pop s i : threads s !! i = Some Idle → guard (threads s) →
      step guard s (goto s i PopLoad)
  | step_pop_load s i : threads s !! i = Some PopLoad →
      step guard s (goto s i (pop_retry (head s)))
  | step_pop_next s i o n : threads s !! i = Some (PopNext o) → heap s !! o = Some n →
      step guard s (goto s i (PopCas o (next n)))
  | step_pop_next_fault s i o : threads s !! i = Some (PopNext o) → heap s !! o = None →
      step guard s (goto s i Fault)
  | step_pop_cas s i o d : threads s !! i = Some (PopCas o d) → head s = o →
      step guard s (mkSystem (heap s) d (<[i := PopWon o]> (threads s)) (tail (stack s))
                      (taken s ++ take 1 (stack s)) (returned s))
  | step_pop_cas_fail s i o d : threads s !! i = Some (PopCas o d) →
      step guard s (goto s i (pop_retry (head s)))
  | step_pop_won s i o n : threads s !! i = Some (PopWon o) → heap s !! o = Some n →
      step guard s (mkSystem (delete o (heap s)) (head s) (<[i := Idle]> (threads s)) (stack s)
                      (taken s) (returned s ++ [value n]))
  | step_pop_won_fault s i o : threads s !! i = Some (PopWon o) → heap s !! o = None →
      step guard s (goto s i Fault).

(** As in the program: nothing keeps threads from popping at the same time. *)
Definition any_pops : list thread → Prop := λ _, True.
(** At most one thread pops at a time. *)
Definition one_popper : list thread → Prop := λ ts, countb popping ts = 0%nat.

(** ** The invariant with one popper *)

(** The nodes [A] hold the values [vs], linked from [p]. *)
Fixpoint chain (h : gmap Z Node) (p : Z) (A vs : list Z) : Prop :=
  match A, vs with
  | [], [] => p = 0
  | a :: A, v :: vs => p = a ∧ a ≠ 0 ∧ ∃ n, h !! a = Some (mkNode v n) ∧ chain h n A vs
  | _, _ => False
  end.

Lemma chain_insert h p A vs a n : a ∉ A → chain h p A vs → chain (<[a := n]> h) p A vs.
Proof.
  revert p vs. induction A as [|b A IH]; intros p [|v vs]; simpl; try done.
  intros [Hab Ha]%not_elem_of_cons (-> & Hb & m & Hm & Hc). split; [done|]. split; [done|].
  exists m. rewrite lookup_insert_ne by congruence. split; [done|]. by apply IH.
Qed.

Lemma chain_delete h p A vs a : a ∉ A → chain h p A vs → chain (delete a h) p A vs.
Proof.
  revert p vs. induction A as [|b A IH]; intros p [|v vs]; simpl; try done.
  intros [Hab Ha]%not_elem_of_cons (-> & Hb & m & Hm & Hc). split; [done|]. split; [done|].
  exists m. rewrite lookup_delete_ne by congruence. split; [done|]. by apply IH.
Qed.

(** What holds of each thread; [A] are the nodes of the stack. *)
Definition thread_ok (s : system) (A : list Z) (t : thread) : Prop :=
  match t with
  | Idle | PopLoad => True
  | PushLoad a | PushCas a => a ≠ 0 ∧ a ∉ A ∧ is_Some (heap s !! a)
  | PopNext o => o ∈ A
  | PopCas o d => o ∈ A ∧ ∃ v, heap s !! o = Some (mkNode v d)
  | PopWon o => o ∉ A ∧ ∃ v d, heap s !! o = Some (mkNode v d) ∧ taken s = returned s ++ [v]
  | Fault => False
  end.

(** The node that a thread owns. *)
Definition owned (t : thread) : option Z :=
  match t with PushLoad a | PushCas a | PopWon a => Some a | _ => None end.

Definition won (t : thread) : bool := match t with PopWon _ => true | _ => false end.

Record inv (s : system) (A : list Z) : Prop := {
  inv_chain : chain (heap s) (head s) A (stack s);
  inv_nodup : NoDup A;
  inv_threads i t : threads s !! i = Some t → thread_ok s A t;
  inv_owned i j t u a : threads s !! i = Some t → threads s !! j = Some u →
    owned t = Some a → owned u = Some a → i = j;
  inv_one : (countb popping (threads s) ≤ 1)%nat;
  inv_done : countb won (threads s) = 0%nat → returned s = taken s;
}.

Lemma chain_in h p A vs a : chain h p A vs → a ∈ A → a ≠ 0 ∧ is_Some (h !! a).
Proof.
  revert p vs. induction A as [|b A IH]; intros p [|v vs]; simpl; try done; [set_solver|].
  intros (-> & Hb & m & Hm & Hc) [->|Ha]%elem_of_cons; [eauto|by eapply IH].
Qed.

Lemma chain_head h p A vs : chain h p A vs → p ≠ 0 → p ∈ A.
Proof. destruct A, vs; simpl; try done. intros [-> _] _. left. Qed.

Lemma countb_two {A} (p : A → bool) l i j x y : l !! i = Some x → l !! j = Some y →
  p x = true → p y = true → (countb p l ≤ 1)%nat → i = j.
Proof.
  intros Hi Hj Hx Hy Hc. destruct (decide (i = j)) as [|Hne]; [done|].
  assert (countb p l = S (countb p (take i l ++ drop (S i) l)))%nat as Hs.
  { rewrite <- (take_drop_middle l i x Hi) at 1. clear -Hx.
    induction (take i l) as [|z t IH]; simpl; [by rewrite Hx|]. rewrite IH. lia. }
  assert (∃ k, (take i l ++ drop (S i) l) !! k = Some y) as [k Hk].
  { apply list_elem_of_lookup. apply elem_of_app. destruct (decide (j < i)%nat).
    - left. apply list_elem_of_lookup. exists j. by rewrite lookup_take_lt.
    - right. apply list_elem_of_lookup. exists (j - S i)%nat. rewrite lookup_drop.
      replace (S i + (j - S i))%nat with j by lia. done. }
  pose proof (countb_pos p _ k y Hk Hy). lia.
Qed.

(** *** Threads that did not move *)

(** A write to a node outside the stack that the thread has not won. *)
Lemma thread_ok_insert s A u a n : a ∉ A → (∀ o, u = PopWon o → o ≠ a) →
  thread_ok s A u → thread_ok (with_heap s (<[a := n]> (heap s))) A u.
Proof.
  intros Ha Hw. destruct u as [|b|b| |o|o d|o|]; simpl; try done.
  - intros (? & ? & ?). split_and!; [done..|]. rewrite lookup_insert. case_decide; eauto.
  - intros (? & ? & ?). split_and!; [done..|]. rewrite lookup_insert. case_decide; eauto.
  - intros (Ho & v & Hv). split; [done|]. exists v. rewrite lookup_insert_ne; [done|congruence].
  - intros (Ho & v & d & Hv & Ht). split; [done|]. exists v, d.
    rewrite lookup_insert_ne; [done|]. intros <-. by eapply Hw.
Qed.

(** Ownership stays unique when a thread gets a node nobody else owns. *)
Lemma owned_insert (ts : list thread) i t' :
  (∀ i j t u a, ts !! i = Some t → ts !! j = Some u → owned t = Some a → owned u = Some a → i = j) →
  (∀ a j u, owned t' = Some a → j ≠ i → ts !! j = Some u → owned u ≠ Some a) →
  ∀ k j t u a, <[i := t']> ts !! k = Some t → <[i := t']> ts !! j = Some u →
    owned t = Some a → owned u = Some a → k = j.
Proof.
  intros Hold Hnew k j t u a Hk Hj Ht Hu.
  apply insert_cases in Hk as [[-> ->]|[Hki Hk]]; apply insert_cases in Hj as [[-> ->]|[Hji Hj]]; try done.
  - by destruct (Hnew a j u Ht Hji Hj).
  - by destruct (Hnew a k t Hu Hki Hk).
  - by eapply Hold.
Qed.

(** *** Steps of a push *)

Lemma count_move (p : thread → bool) ts i t t' : ts !! i = Some t → p t' = p t →
  countb p (<[i := t']> ts) = countb p ts.
Proof. intros Hi Hp. pose proof (countb_insert p ts i t t' Hi) as H. rewrite Hp in H. lia. Qed.

(** A thread that owns [a], or takes a fresh [a], writes to it. *)
Lemma inv_write s A i t t' a n : inv s A → threads s !! i = Some t → a ∉ A → a ≠ 0 →
  (∀ j u, j ≠ i → threads s !! j = Some u → owned u ≠ Some a) →
  popping t = false → popping t' = false → owned t' = Some a →
  (t' = PushLoad a ∨ t' = PushCas a) →
  inv (with_heap (goto s i t') (<[a := n]> (heap s))) A.
Proof.
  intros [Hc Hn Hth Ho H1 Hd] Hi Ha Ha0 Hother Hp Hp' Ht' Hcases. split; simpl.
  - by apply chain_insert.
  - done.
  - intros j u [[-> ->]|[Hji Hj]]%insert_cases.
    + destruct Hcases as [->| ->]; simpl; rewrite lookup_insert_eq; eauto.
    + apply (thread_ok_insert s A u a n Ha); [|by apply Hth in Hj].
      intros o -> ->. by apply (Hother j (PopWon a)).
  - apply owned_insert; [done|]. intros b j u Hb Hji Hj. rewrite Ht' in Hb.
    injection Hb as <-. by apply (Hother j).
  - rewrite (count_move popping (threads s) i t) by congruence. done.
  - rewrite (count_move won (threads s) i t); [done..|].
    destruct t; try done; by destruct Hcases as [->| ->].
Qed.

Lemma inv_push_cas s A i a n : inv s A → threads s !! i = Some (PushCas a) →
  heap s !! a = Some n → next n = head s →
  inv (mkSystem (heap s) a (<[i := Idle]> (threads s)) (value n :: stack s) (taken s) (returned s)) (a :: A).
Proof.
  intros [Hc Hn Hth Ho H1 Hd] Hi Hh Hnx. destruct (Hth _ _ Hi) as (Ha0 & HaA & _).
  assert (∀ j u, j ≠ i → threads s !! j = Some u → owned u ≠ Some a) as Hother.
  { intros j u Hji Hj Hu. apply Hji. by eapply (Ho j i u (PushCas a) a). }
  split; simpl.
  - split; [done|]. split; [done|]. exists (next n). rewrite Hnx at 2. destruct n; done.
  - by constructor.
  - intros j u [[-> ->]|[Hji Hj]]%insert_cases; [done|].
    pose proof (Hth j u Hj) as Hu. pose proof (Hother j u Hji Hj) as Hou.
    destruct u as [|b|b| |o|o d|o|]; simpl in *; try done.
    + destruct Hu as (? & ? & ?). split_and!; [done| |done]. apply not_elem_of_cons. split; [congruence|done].
    + destruct Hu as (? & ? & ?). split_and!; [done| |done]. apply not_elem_of_cons. split; [congruence|done].
    + by right.
    + destruct Hu. split; [by right|done].
    + destruct Hu as (? & ?). split; [|done]. apply not_elem_of_cons. split; [congruence|done].
  - by apply owned_insert.
  - by rewrite (count_move popping (threads s) i (PushCas a)).
  - by rewrite (count_move won (threads s) i (PushCas a)).
Qed.

(** *** Steps of a pop *)

(** A step that only moves thread [i], without nodes of its own. *)
Lemma inv_goto s A i t t' : inv s A → threads s !! i = Some t → thread_ok s A t' → owned t' = None →
  (countb popping (<[i := t']> (threads s)) ≤ 1)%nat → won t = false → won t' = false →
  inv (goto s i t') A.
Proof.
  intros [Hc Hn Hth Ho H1 Hd] Hi Hok Hown Hpop Hw Hw'. split; simpl; try done.
  - intros j u [[-> ->]|[Hji Hj]]%insert_cases; [done|]. by apply (Hth j).
  - apply owned_insert; [done|]. intros b j u Hb. congruence.
  - rewrite (count_move won (threads s) i t) by congruence. done.
Qed.

Lemma count_popping_le (ts : list thread) i t t' : ts !! i = Some t → popping t = true →
  (countb popping ts ≤ 1)%nat → (countb popping (<[i := t']> ts) ≤ 1)%nat.
Proof.
  intros Hi Hp Hle. pose proof (countb_insert popping ts i t t' Hi) as H. rewrite Hp in H.
  destruct (popping t'); simpl in H; lia.
Qed.

Lemma inv_pop_retry s A i t : inv s A → threads s !! i = Some t → popping t = true → won t = false →
  inv (goto s i (pop_retry (head s))) A.
Proof.
  intros Hinv Hi Hp Hw. pose proof Hinv as [Hc _ _ _ H1 _]. unfold pop_retry.
  destruct (Z.eqb_spec (head s) 0) as [E|E]; apply (inv_goto s A i t); try done;
    try (by apply (count_popping_le _ _ t)). simpl. by eapply chain_head.
Qed.

Lemma inv_pop_cas s A i o d : inv s A → threads s !! i = Some (PopCas o d) → head s = o →
  ∃ A', inv (mkSystem (heap s) d (<[i := PopWon o]> (threads s)) (tail (stack s))
               (taken s ++ take 1 (stack s)) (returned s)) A'.
Proof.
  intros [Hc Hn Hth Ho H1 Hd] Hi Hhd. destruct (Hth _ _ Hi) as [HoA (v & Hv)].
  destruct A as [|o' A]; [by apply elem_of_nil in HoA|].
  destruct (stack s) as [|v' vs] eqn:Es; simpl in Hc; [done|].
  destruct Hc as (Ehd & Ho0 & m & Hm & Hc). assert (o' = o) as -> by congruence.
  rewrite Hv in Hm. injection Hm as <- <-.
  apply NoDup_cons in Hn as [HoA' Hn]. exists A.
  assert (∀ j u, j ≠ i → threads s !! j = Some u → popping u = false) as Hsingle.
  { intros j u Hji Hj. destruct (popping u) eqn:Eu; [|done].
    destruct Hji. by eapply (countb_two popping (threads s) j i u). }
  assert (countb won (threads s) = 0%nat) as Hw0.
  { apply countb_zero. intros j u Hj. destruct (decide (j = i)) as [->|Hji]; [by simplify_eq|].
    specialize (Hsingle j u Hji Hj). by destruct u. }
  split; simpl.
  - done.
  - done.
  - intros j u [[-> ->]|[Hji Hj]]%insert_cases.
    + simpl. split; [done|]. exists v, d. split; [done|]. by rewrite (Hd Hw0).
    + pose proof (Hth j u Hj) as Hu. specialize (Hsingle j u Hji Hj).
      destruct u; simpl in *; try done; destruct Hu as (? & ?%not_elem_of_cons & ?); tauto.
  - apply owned_insert; [done|]. intros b j u [= <-] Hji Hj Hu.
    pose proof (Hth j u Hj) as Hok. specialize (Hsingle j u Hji Hj).
    destruct u; simpl in *; simplify_eq; destruct Hok as (_ & Hnot & _); set_solver.
  - by apply (count_popping_le _ _ (PopCas o d)).
  - intros Hz. pose proof (countb_insert won (threads s) i _ (PopWon o) Hi) as Hcount.
    simpl in Hcount. lia.
Qed.

Lemma inv_pop_won s A i o n : inv s A → threads s !! i = Some (PopWon o) → heap s !! o = Some n →
  inv (mkSystem (delete o (heap s)) (head s) (<[i := Idle]> (threads s)) (stack s)
         (taken s) (returned s ++ [value n])) A.
Proof.
  intros [Hc Hn Hth Ho H1 Hd] Hi Hh. destruct (Hth _ _ Hi) as (HoA & v & d & Hv & Ht). simplify_eq.
  assert (∀ j u, j ≠ i → threads s !! j = Some u → popping u = false) as Hsingle.
  { intros j u Hji Hj. destruct (popping u) eqn:Eu; [|done].
    destruct Hji. by eapply (countb_two popping (threads s) j i u). }
  split; simpl.
  - by apply chain_delete.
  - done.
  - intros j u [[-> ->]|[Hji Hj]]%insert_cases; [done|].
    pose proof (Hth j u Hj) as Hu. specialize (Hsingle j u Hji Hj).
    assert (owned u ≠ Some o) as Hou.
    { intros Hou. apply Hji. by eapply (Ho j i u (PopWon o) o). }
    destruct u; simpl in *; try done; destruct Hu as (? & ? & ?);
      (split_and!; [done..|]); rewrite lookup_delete_ne; (done || congruence).
  - by apply owned_insert.
  - by apply (count_popping_le _ _ (PopWon o)).
  - by rewrite Ht.
Qed.

(** ** Preservation *)

Lemma lf_inv_step s s' A : inv s A → step one_popper s s' → ∃ A', inv s' A'.
Proof.
  intros Hinv Hs. pose proof Hinv as [Hc Hn Hth Ho H1 Hd].
  destruct Hs as [s i v a Hi Ha0 Hf|s i a n Hi Hh|s i a n Hi Hh Hnx|s i a n Hi Hh|s i Hi Hg|s i Hi
    |s i o n Hi Hh|s i o Hi Hh|s i o d Hi Hhd|s i o d Hi|s i o n Hi Hh|s i o Hi Hh];
    try pose proof (Hth _ _ Hi) as Hok; simpl in Hok.
  - exists A. apply (inv_write s A i Idle); try done; [| |by left].
    + intros Ha. destruct (chain_in _ _ _ _ _ Hc Ha) as [_ [? ?]]. congruence.
    + intros j u _ Hj Hu. specialize (Hth j u Hj).
      destruct u as [| | | | | |o|]; simplify_eq/=.
      * destruct Hth as (_ & _ & [? ?]). congruence.
      * destruct Hth as (_ & _ & [? ?]). congruence.
      * destruct Hth as (_ & ? & ? & ? & _). congruence.
  - exists A. apply (inv_write s A i (PushLoad a)); try done; try apply Hok; [|by right].
    intros j u Hji Hj Hu. apply Hji. by eapply (Ho j i u _ a).
  - exists (a :: A). by apply inv_push_cas.
  - exists A. replace (with_heap s _) with (with_heap (goto s i (PushCas a)) (<[a := mkNode (value n) (head s)]> (heap s)))
      by (unfold with_heap, goto; simpl; by rewrite list_insert_id).
    apply (inv_write s A i (PushCas a)); try done; try apply Hok; [|by right].
    intros j u Hji Hj Hu. apply Hji. by eapply (Ho j i u _ a).
  - exists A. apply (inv_goto s A i Idle); try done. unfold one_popper in Hg.
    pose proof (countb_insert popping (threads s) i _ PopLoad Hi) as Hcount. simpl in Hcount. lia.
  - exists A. by apply (inv_pop_retry s A i PopLoad).
  - exists A. apply (inv_goto s A i (PopNext o)); try done.
    + simpl. split; [done|]. exists (value n). by destruct n.
    + by apply (count_popping_le _ _ (PopNext o)).
  - destruct (chain_in _ _ _ _ _ Hc Hok) as [_ [? ?]]. congruence.
  - by apply (inv_pop_cas s A).
  - exists A. by apply (inv_pop_retry s A i (PopCas o d)).
  - exists A. by apply inv_pop_won.
  - destruct Hok as (_ & ? & ? & ? & _). congruence.
Qed.

Lemma lf_inv_reachable n s : rtc (step one_popper) (new_LockFreeStack n) s → ∃ A, inv s A.
Proof.
  intros Hr. assert (inv (new_LockFreeStack n) []) as H0.
  { split; simpl; try done; [constructor| | |].
    - intros i t [-> _]%lookup_replicate. done.
    - intros i j t u a [-> _]%lookup_replicate _. done.
    - rewrite (proj2 (countb_zero popping (replicate n Idle))); [lia|]. intros i t [-> _]%lookup_replicate. done. }
  assert (∃ A, inv (new_LockFreeStack n) A) as Hex by eauto. clear H0. revert Hex.
  induction Hr as [|s1 s2 s3 Hs _ IH]; [done|]. intros [A HA]. apply IH. by eapply lf_inv_step.
Qed.

(** ** The properties *)

(** C9: with any number of pushing threads and at most one popping thread at a
    time, in every interleaving the linked nodes hold exactly the values of the
    stack in the order of the exchanges, no deleted node is touched, and the
    values that [pop] returned are those removed by its exchanges, in order. *)
Theorem LockFreeStack_lifo n s :
  rtc (step one_popper) (new_LockFreeStack n) s →
  (∃ A, NoDup A ∧ chain (heap s) (head s) A (stack s)) ∧
  (∀ i, threads s !! i ≠ Some Fault) ∧
  returned s `prefix_of` taken s.
Proof.
  intros [A HA]%lf_inv_reachable. pose proof HA as [Hc Hn Hth Ho H1 Hd].
  split; [by exists A|]. split; [intros i Hi; by apply (Hth i Fault)|].
  destruct (decide (countb won (threads s) = 0%nat)) as [Hz|Hnz]; [by rewrite (Hd Hz)|].
  assert (∃ i o, threads s !! i = Some (PopWon o)) as (i & o & Hi).
  { clear -Hnz. induction (threads s) as [|t ts IH]; [done|]. simpl in Hnz.
    destruct (won t) eqn:E; [destruct t; try done; by exists 0%nat, oldHead|].
    destruct IH as (i & o & Hi); [simpl in Hnz; lia|]. by exists (S i), o. }
  destruct (Hth _ _ Hi) as (_ & v & d & _ & Ht). rewrite Ht. by apply prefix_app_r.
Qed.

(** Takes one step of a concrete run. *)
Ltac run_step rule := eapply rtc_l; [eapply rule; (reflexivity || discriminate || exact I)|].

(** One thread pushes 7 and pops it. *)
Lemma demo_run : ∃ s, rtc (step one_popper) (new_LockFreeStack 1) s ∧ returned s = [7] ∧ stack s = [].
Proof.
  eexists. split.
  - run_step (step_push one_popper (new_LockFreeStack 1) 0 7 1).
    run_step (λ s, step_push_load one_popper s 0 1 (mkNode 7 0)).
    run_step (λ s, step_push_cas one_popper s 0 1 (mkNode 7 0)).
    run_step (λ s, step_pop one_popper s 0).
    run_step (λ s, step_pop_load one_popper s 0).
    run_step (λ s, step_pop_next one_popper s 0 1 (mkNode 7 0)).
    run_step (λ s, step_pop_cas one_popper s 0 1 0).
    run_step (λ s, step_pop_won one_popper s 0 1 (mkNode 7 0)).
    apply rtc_refl.
  - split; reflexivity.
Qed.

Lemma LockFreeStack_lifo_witness : ∃ s, returned s = [7] ∧ ∀ i, threads s !! i ≠ Some Fault.
Proof.
  destruct demo_run as (s & Hr & H7 & _). exists s. split; [exact H7|].
  apply (LockFreeStack_lifo 1 s Hr).
Defined.

(** Two threads that pop at the same time: one loads the head, the other removes
    and deletes that node, and the first reads [oldHead->next] of the deleted
    node. *)
Lemma concurrent_pops_use_after_free :
  ∃ s, rtc (step any_pops) (new_LockFreeStack 2) s ∧ threads s !! 0%nat = Some Fault.
Proof.
  eexists. split.
  - run_step (step_push any_pops (new_LockFreeStack 2) 0 7 1).
    run_step (λ s, step_push_load any_pops s 0 1 (mkNode 7 0)).
    run_step (λ s, step_push_cas any_pops s 0 1 (mkNode 7 0)).
    run_step (λ s, step_pop any_pops s 0).
    run_step (λ s, step_pop_load any_pops s 0).
    run_step (λ s, step_pop any_pops s 1).
    run_step (λ s, step_pop_load any_pops s 1).
    run_step (λ s, step_pop_next any_pops s 1 1 (mkNode 7 0)).
    run_step (λ s, step_pop_cas any_pops s 1 1 0).
    run_step (λ s, step_pop_won any_pops s 1 1 (mkNode 7 0)).
    run_step (λ s, step_pop_next_fault any_pops s 0 1).
    apply rtc_refl.
  - reflexivity.
Qed.
