(* ===== verification/SharedContainers.v ===== *)
(** * threadPool/threadPoolStack.cpp, threadSafeQueue.cpp and stack/stack.cpp

    The stack and the queue behind a mutex: every operation is one critical
    section, so a concurrent run is a sequence of operations.  The linked nodes
    live on an explicit heap, as in LockFreeStack. *)

From stdpp Require Import base list gmap sets numbers.
From Stdlib Require Import ZArith Lia.
From S2P Require Import Prelude LockFreeStack.

(** Reading a node through a pointer. *)
Definition load (h : gmap Z Node) (p : Z) : outcome Node :=
  if p =? 0 then Err NullDeref else of_option DanglingPtr (h !! p).

(** ** ThreadSafeStack *)

Record ThreadSafeStack := mkStack { s_heap : gmap Z Node; s_head : Z }.

Definition new_ThreadSafeStack : ThreadSafeStack := mkStack ∅ 0.

(** [newNode] is the address that [new Node(value)] returns. *)
Definition stack_push (newNode value : Z) (s : ThreadSafeStack) : outcome ThreadSafeStack :=
  let h := <[newNode := mkNode value 0]> (s_heap s) in
  n ← load h newNode;
  Ret (mkStack (<[newNode := mkNode (LockFreeStack.value n) (s_head s)]> h) newNode).

Definition stack_pop (s : ThreadSafeStack) : outcome (Z * ThreadSafeStack) :=
  if s_head s =? 0 then Ret (-1, s) else
  let oldHead := s_head s in
  n ← load (s_heap s) oldHead;
  Ret (value n, mkStack (delete oldHead (s_heap s)) (next n)).

(** ** ThreadSafeQueue *)

Record ThreadSafeQueue := mkQueue { q_heap : gmap Z Node; q_head : Z; q_tail : Z }.

Definition new_ThreadSafeQueue : ThreadSafeQueue := mkQueue ∅ 0 0.

Definition queue_push (newNode value : Z) (q : ThreadSafeQueue) : outcome ThreadSafeQueue :=
  let h := <[newNode := mkNode value 0]> (q_heap q) in
  if q_tail q =? 0 then Ret (mkQueue h newNode newNode) else
  t ← load h (q_tail q);
  Ret (mkQueue (<[q_tail q := mkNode (LockFreeStack.value t) newNode]> h) (q_head q) newNode).

Definition queue_pop (q : ThreadSafeQueue) : outcome (Z * ThreadSafeQueue) :=
  if q_head q =? 0 then Ret (-1, q) else
  let oldHead := q_head q in
  n ← load (q_heap q) oldHead;
  let head := next n in
  let tail := if head =? 0 then 0 else q_tail q in
  Ret (value n, mkQueue (delete oldHead (q_heap q)) head tail).

(** ** Stack of stack/stack.cpp *)

Record Stack := mkVStack { v_stack : list Z; v_top : Z }.

Definition new_Stack : Stack := mkVStack [] (-1).
Definition isEmpty (s : Stack) : bool := v_top s =? -1.
Definition push (val : Z) (s : Stack) : outcome Stack :=
  top ← int (v_top s + 1); Ret (mkVStack (v_stack s ++ [val]) top).
Definition pop (s : Stack) : outcome (Z * Stack) :=
  if isEmpty s then Ret (-1, s) else
  val ← vget (v_stack s) (v_top s);
  Ret (val, mkVStack (take (length (v_stack s) - 1) (v_stack s)) (v_top s - 1)).

(** ** Representation *)

(** The heap holds the nodes of the chain and nothing else. *)
Definition stack_rep (s : ThreadSafeStack) (vs : list Z) : Prop :=
  ∃ A, NoDup A ∧ chain (s_heap s) (s_head s) A vs ∧ dom (s_heap s) = list_to_set A.

Definition queue_rep (q : ThreadSafeQueue) (vs : list Z) : Prop :=
  ∃ A, NoDup A ∧ chain (q_heap q) (q_head q) A vs ∧ dom (q_heap q) = list_to_set A ∧
    q_tail q = default 0 (list.last A).

Lemma chain_load h a A vs : chain h a A vs → a ≠ 0 →
  ∃ v n A' vs', A = a :: A' ∧ vs = v :: vs' ∧ load h a = Ret (mkNode v n) ∧ chain h n A' vs'.
Proof.
  destruct A as [|a' A], vs as [|v vs]; simpl; try done.
  intros (-> & Ha & n & Hn & Hc) _. exists v, n, A, vs. unfold load.
  rewrite (proj2 (Z.eqb_neq a' 0) Ha), Hn. done.
Qed.

Lemma chain_null h A vs : chain h 0 A vs → A = [] ∧ vs = [].
Proof. destruct A, vs; simpl; try done. intros (<- & ? & _). done. Qed.

Lemma stack_push_spec s vs a v : stack_rep s vs → a ≠ 0 → s_heap s !! a = None →
  ∃ s', stack_push a v s = Ret s' ∧ stack_rep s' (v :: vs).
Proof.
  intros (A & Hnd & Hc & Hdom) Ha Hf. unfold stack_push, load.
  rewrite (proj2 (Z.eqb_neq a 0) Ha), lookup_insert_eq. simpl. eexists. split; [done|].
  assert (a ∉ A) as HaA.
  { intros HaA. apply not_elem_of_dom in Hf. rewrite Hdom in Hf. set_solver. }
  exists (a :: A). split; [by constructor|]. rewrite insert_insert_eq. split; simpl.
  - split; [done|]. split; [done|]. exists (s_head s). rewrite lookup_insert_eq. split; [done|].
    by apply chain_insert.
  - rewrite dom_insert_L, Hdom. done.
Qed.

Lemma stack_pop_spec s vs : stack_rep s vs →
  ∃ s', stack_pop s = Ret (default (-1) (hd_error vs), s') ∧ stack_rep s' (tail vs).
Proof.
  intros (A & Hnd & Hc & Hdom). unfold stack_pop. destruct (Z.eqb_spec (s_head s) 0) as [E|E].
  - rewrite E in Hc. apply chain_null in Hc as Hnil. destruct Hnil as [-> ->]. exists s.
    split; [done|]. exists []. simpl. split_and!; [done|by rewrite E|done].
  - destruct (chain_load _ _ _ _ Hc E) as (v & n & A' & vs' & -> & -> & -> & Hc'). simpl.
    apply list.NoDup_cons in Hnd as [Ha Hnd]. eexists. split; [done|]. exists A'. simpl.
    split_and!; [done|by apply chain_delete|]. rewrite dom_delete_L, Hdom. set_solver.
Qed.

(** Appending a node at the end of a chain. *)
Lemma chain_snoc h p A vs t a v : chain h p (A ++ [t]) vs → NoDup (A ++ [t]) → a ∉ A ++ [t] → a ≠ 0 →
  ∃ w, load (<[a := mkNode v 0]> h) t = Ret (mkNode w 0) ∧
    chain (<[t := mkNode w a]> (<[a := mkNode v 0]> h)) p (A ++ [t; a]) (vs ++ [v]).
Proof.
  intros Hc Hnd Ha Ha0. revert p vs Hc. induction A as [|b A IH]; intros p [|x vs]; simpl; try done.
  - intros (-> & Ht & n & Hn & Hc). destruct vs; simpl in Hc; [subst n|done].
    assert (a ≠ t) by set_solver. exists x. unfold load.
    rewrite (proj2 (Z.eqb_neq t 0) Ht), lookup_insert_ne, Hn by congruence. split; [done|].
    split_and!; [done..|]. exists a. rewrite lookup_insert_eq. split; [done|].
    split_and!; [done..|]. exists 0. rewrite lookup_insert_ne, lookup_insert_eq by congruence. done.
  - simpl in Hnd. apply list.NoDup_cons in Hnd as [Hb Hnd]. simpl in Ha. apply not_elem_of_cons in Ha as [Hab Ha].
    intros (-> & Hb0 & n & Hn & Hc). destruct (IH Hnd Ha n vs Hc) as (w & Hw & Hc').
    exists w. split; [done|]. split_and!; [done..|]. exists n. split; [|done].
    rewrite !lookup_insert_ne; [done|congruence|set_solver].
Qed.

Lemma queue_push_spec q vs a v : queue_rep q vs → a ≠ 0 → q_heap q !! a = None →
  ∃ q', queue_push a v q = Ret q' ∧ queue_rep q' (vs ++ [v]).
Proof.
  intros (A & Hnd & Hc & Hdom & Ht) Ha Hf.
  assert (a ∉ A) as HaA.
  { intros HaA. apply not_elem_of_dom in Hf. rewrite Hdom in Hf. set_solver. }
  unfold queue_push. destruct (exists_last_or_nil A) as [->|(A' & t & ->)].
  - simpl in Ht. rewrite Ht. simpl. destruct vs; [|done]. eexists. split; [done|]. exists [a]. simpl.
    split_and!; [apply NoDup_singleton|done|done|exists 0; by rewrite lookup_insert_eq| |done].
    rewrite dom_insert_L, Hdom. set_solver.
  - rewrite last_snoc in Ht. simpl in Ht.
    assert (t ≠ 0) as Ht0 by (eapply chain_in; [exact Hc|set_solver]).
    rewrite Ht, (proj2 (Z.eqb_neq t 0) Ht0).
    destruct (chain_snoc _ _ _ _ t a v Hc Hnd HaA Ha) as (w & -> & Hc'). simpl.
    eexists. split; [done|]. exists (A' ++ [t; a]). simpl. split_and!.
    + replace (A' ++ [t; a]) with ((A' ++ [t]) ++ [a]) by by rewrite <- app_assoc.
      apply list.NoDup_app. split_and!; [done|set_solver|apply NoDup_singleton].
    + done.
    + rewrite !dom_insert_L, Hdom, !list_to_set_app_L. set_solver.
    + replace (A' ++ [t; a]) with ((A' ++ [t]) ++ [a]) by by rewrite <- app_assoc. by rewrite last_snoc.
Qed.

Lemma queue_pop_spec q vs : queue_rep q vs →
  ∃ q', queue_pop q = Ret (default (-1) (hd_error vs), q') ∧ queue_rep q' (tail vs).
Proof.
  intros (A & Hnd & Hc & Hdom & Ht). unfold queue_pop. destruct (Z.eqb_spec (q_head q) 0) as [E|E].
  - rewrite E in Hc. apply chain_null in Hc as Hnil. destruct Hnil as [-> ->]. exists q.
    split; [done|]. exists []. simpl. split_and!; [done|by rewrite E|done|done].
  - destruct (chain_load _ _ _ _ Hc E) as (v & n & A' & vs' & -> & -> & -> & Hc'). simpl.
    apply list.NoDup_cons in Hnd as [Ha Hnd]. eexists. split; [done|]. exists A'. simpl.
    split_and!; [done|by apply chain_delete|rewrite dom_delete_L, Hdom; set_solver|].
    destruct A' as [|b A'']; [destruct vs'; simpl in Hc'; [by subst n|done]|].
    destruct vs' as [|w vs']; simpl in Hc'; [done|]. destruct Hc' as (-> & Hb & _).
    rewrite (proj2 (Z.eqb_neq b 0) Hb). rewrite Ht. done.
Qed.

Definition vstack_rep (s : Stack) (vs : list Z) : Prop :=
  v_stack s = reverse vs ∧ v_top s = Z.of_nat (length vs) - 1.

Lemma push_spec s vs v : vstack_rep s vs → Z.of_nat (length vs) < 2 ^ 31 →
  ∃ s', push v s = Ret s' ∧ vstack_rep s' (v :: vs).
Proof.
  intros [Hs Ht] Hlen. unfold push. rewrite Ht. unfold int, int_ok, INT_MIN, INT_MAX.
  rewrite (proj2 (Z.leb_le _ _)), (proj2 (Z.leb_le _ _)) by lia. simpl.
  eexists. split; [done|]. split; simpl; [by rewrite Hs, reverse_cons|lia].
Qed.

Lemma pop_spec s vs : vstack_rep s vs →
  ∃ s', pop s = Ret (default (-1) (hd_error vs), s') ∧ vstack_rep s' (tail vs).
Proof.
  intros [Hs Ht]. unfold pop, isEmpty. destruct vs as [|v vs]; simpl in *.
  - rewrite Ht. simpl. exists s. split; [done|]. by split.
  - destruct (Z.eqb_spec (v_top s) (-1)); [lia|]. rewrite reverse_cons in Hs.
    replace (v_top s) with (Z.of_nat (length (reverse vs))) by (rewrite length_reverse; lia).
    rewrite (proj2 (vget_Ret (v_stack s) _ v))
      by (rewrite Nat2Z.id, Hs; split; [lia|by apply list_lookup_middle]).
    simpl. eexists. split; [done|]. split; simpl; [|rewrite length_reverse; lia].
    by rewrite Hs, length_app, Nat.add_sub, take_app_length.
Qed.

(** ** Runs *)

Inductive op := Push (v : Z) | Pop.

Section runs.
(** [alloc h] is the address that [new] returns on the heap [h]. *)
Context (alloc : gmap Z Node → Z).

Fixpoint run_stack (os : list op) (s : ThreadSafeStack) : outcome (list Z * ThreadSafeStack) :=
  match os with
  | [] => Ret ([], s)
  | Push v :: os => s ← stack_push (alloc (s_heap s)) v s; run_stack os s
  | Pop :: os => r ← stack_pop s; rs ← run_stack os (snd r); Ret (fst r :: fst rs, snd rs)
  end.

Fixpoint run_queue (os : list op) (q : ThreadSafeQueue) : outcome (list Z * ThreadSafeQueue) :=
  match os with
  | [] => Ret ([], q)
  | Push v :: os => q ← queue_push (alloc (q_heap q)) v q; run_queue os q
  | Pop :: os => r ← queue_pop q; rs ← run_queue os (snd r); Ret (fst r :: fst rs, snd rs)
  end.
End runs.

Fixpoint run_vstack (os : list op) (s : Stack) : outcome (list Z * Stack) :=
  match os with
  | [] => Ret ([], s)
  | Push v :: os => s ← push v s; run_vstack os s
  | Pop :: os => r ← pop s; rs ← run_vstack os (snd r); Ret (fst r :: fst rs, snd rs)
  end.

(** The specification: a list, with [add] putting a value in; an empty list
    answers -1. *)
Fixpoint spec (add : Z → list Z → list Z) (os : list op) (vs : list Z) : list Z * list Z :=
  match os with
  | [] => ([], vs)
  | Push v :: os => spec add os (add v vs)
  | Pop :: os => let r := spec add os (tail vs) in (default (-1) (hd_error vs) :: fst r, snd r)
  end.

Definition lifo (v : Z) (vs : list Z) : list Z := v :: vs.
Definition fifo (v : Z) (vs : list Z) : list Z := vs ++ [v].

(** [new] returns a non-null address that is not in use. *)
Definition fresh_addresses (alloc : gmap Z Node → Z) : Prop := ∀ h, alloc h ≠ 0 ∧ h !! alloc h = None.

Lemma run_stack_spec alloc os : fresh_addresses alloc → ∀ s vs, stack_rep s vs →
  ∃ s', run_stack alloc os s = Ret (fst (spec lifo os vs), s') ∧ stack_rep s' (snd (spec lifo os vs)).
Proof.
  intros Hf. induction os as [|[v|] os IH]; intros s vs Hr; simpl; [eauto| |].
  - destruct (Hf (s_heap s)) as [Ha Hn]. destruct (stack_push_spec s vs _ v Hr Ha Hn) as (s' & -> & Hr').
    simpl. by apply IH.
  - destruct (stack_pop_spec s vs Hr) as (s' & -> & Hr'). simpl.
    destruct (IH s' _ Hr') as (s'' & -> & Hr''). simpl. eauto.
Qed.

Lemma run_queue_spec alloc os : fresh_addresses alloc → ∀ q vs, queue_rep q vs →
  ∃ q', run_queue alloc os q = Ret (fst (spec fifo os vs), q') ∧ queue_rep q' (snd (spec fifo os vs)).
Proof.
  intros Hf. induction os as [|[v|] os IH]; intros q vs Hr; simpl; [eauto| |].
  - destruct (Hf (q_heap q)) as [Ha Hn]. destruct (queue_push_spec q vs _ v Hr Ha Hn) as (q' & -> & Hr').
    simpl. by apply IH.
  - destruct (queue_pop_spec q vs Hr) as (q' & -> & Hr'). simpl.
    destruct (IH q' _ Hr') as (q'' & -> & Hr''). simpl. eauto.
Qed.

Lemma run_vstack_spec os : ∀ s vs, vstack_rep s vs → Z.of_nat (length vs + length os) < 2 ^ 31 →
  ∃ s', run_vstack os s = Ret (fst (spec lifo os vs), s') ∧ vstack_rep s' (snd (spec lifo os vs)).
Proof.
  induction os as [|[v|] os IH]; intros s vs Hr Hlen; simpl in *; [eauto| |].
  - destruct (push_spec s vs v Hr) as (s' & -> & Hr'); [lia|]. simpl. apply IH; [done|]. simpl. lia.
  - destruct (pop_spec s vs Hr) as (s' & -> & Hr'). simpl.
    destruct (IH s' (tail vs) Hr') as (s'' & -> & Hr''); [destruct vs; simpl in *; lia|]. simpl. eauto.
Qed.

(** Every sequence of critical sections on the mutex-protected stack and
    queue, and every run of the vector stack, answers like a list used last in
    first out, respectively first in first out, with -1 for an empty container;
    no pointer faults, and the heap holds exactly the nodes of the values that
    are still there. *)
Theorem shared_containers_correct alloc os :
  fresh_addresses alloc → Z.of_nat (length os) < 2 ^ 31 →
  (∃ s, run_stack alloc os new_ThreadSafeStack = Ret (fst (spec lifo os []), s) ∧
     stack_rep s (snd (spec lifo os []))) ∧
  (∃ q, run_queue alloc os new_ThreadSafeQueue = Ret (fst (spec fifo os []), q) ∧
     queue_rep q (snd (spec fifo os []))) ∧
  (∃ s, run_vstack os new_Stack = Ret (fst (spec lifo os []), s)).
Proof.
  intros Hf Hlen. split_and!.
  - apply run_stack_spec; [done|]. exists []. split_and!; [constructor|done|done].
  - apply run_queue_spec; [done|]. exists []. split_and!; [constructor|done|done|done].
  - destruct (run_vstack_spec os new_Stack []) as (s & E & _); [done|simpl; lia|eauto].
Qed.

(** Fresh addresses above zero. *)
Definition demo_alloc (h : gmap Z Node) : Z := fresh ({[0]} ∪ dom h : gset Z).

Lemma demo_alloc_fresh : fresh_addresses demo_alloc.
Proof.
  intros h. pose proof (is_fresh ({[0]} ∪ dom h : gset Z)) as Hf. unfold demo_alloc.
  apply not_elem_of_union in Hf as [H1 H2]. split; [set_solver|by apply not_elem_of_dom].
Qed.

Lemma shared_containers_correct_witness :
  ∃ q, run_queue demo_alloc [Push 1; Push 2; Pop; Pop; Pop] new_ThreadSafeQueue = Ret ([1; 2; -1], q).
Proof.
  destruct (shared_containers_correct demo_alloc [Push 1; Push 2; Pop; Pop; Pop]) as (_ & (q & E & _) & _).
  - exact demo_alloc_fresh.
  - reflexivity.
  - exists q. exact E.
Defined.

(** A stored -1 is answered like an empty queue, which ends the draining loops
    [while ((popValue = queue.pop()) != -1)] early. *)
Lemma stored_minus_one :
  spec fifo [Push (-1); Push 5; Pop] [] = ([-1], [5]) ∧ spec fifo [Pop] [] = ([-1], []).
Proof. split; reflexivity. Qed.
