(* ===== verification/ArrayQueues.v ===== *)
(** * queue/queue.c, queue/queueUsingLinkedList.c and stack/stack.c

    The array queue, the linked queue and the array stack of the C programs.
    The linked queue's insertion and removal are those of
    threadPool/threadSafeQueue.cpp, so its invariant is that of
    SharedContainers. *)

From stdpp Require Import base list gmap numbers.
From Stdlib Require Import ZArith Lia.
From S2P Require Import Prelude LockFreeStack SharedContainers.

(** ** queue.c *)

Record queue_t := mkQueueT { arr : list Z; front_ : Z; rear_ : Z; capacity : Z }.

(** [malloc] leaves the array uninitialised: [garbage] are its contents. *)
Definition queueInit (garbage : list Z) (cap : Z) : queue_t := mkQueueT garbage (-1) (-1) cap.

Definition front (q : queue_t) : outcome Z :=
  if front_ q =? -1 then Ret (-1) else vget (arr q) (front_ q).
Definition rear (q : queue_t) : outcome Z :=
  if rear_ q =? -1 then Ret (-1) else vget (arr q) (rear_ q).
Definition isFull (q : queue_t) : bool := capacity q =? rear_ q + 1.
Definition isEmpty_q (q : queue_t) : bool := front_ q =? -1.

Definition enqueue (q : queue_t) (val : Z) : outcome (Z * queue_t) :=
  if isFull q then Ret (-1, q) else
  let f := if front_ q =? -1 then 0 else front_ q in
  let r := rear_ q + 1 in
  a ← vset (arr q) r val;
  Ret (0, mkQueueT a f r (capacity q)).

Definition dequeue (q : queue_t) : outcome (Z * queue_t) :=
  if isEmpty_q q then Ret (-1, q) else
  v ← vget (arr q) (front_ q);
  if front_ q =? rear_ q then Ret (v, mkQueueT (arr q) (-1) (-1) (capacity q))
  else Ret (v, mkQueueT (arr q) (front_ q + 1) (rear_ q) (capacity q)).

(** ** queueUsingLinkedList.c *)

Definition createQueue : ThreadSafeQueue := new_ThreadSafeQueue.

(** [newNode] is the address [malloc] returns. *)
Definition ll_enqueue (newNode data : Z) (q : ThreadSafeQueue) : outcome ThreadSafeQueue :=
  let h := <[newNode := mkNode data 0]> (q_heap q) in
  if q_tail q =? 0 then Ret (mkQueue h newNode newNode) else
  t ← load h (q_tail q);
  Ret (mkQueue (<[q_tail q := mkNode (LockFreeStack.value t) newNode]> h) (q_head q) newNode).

Definition ll_isEmpty (q : ThreadSafeQueue) : bool := q_head q =? 0.

Definition ll_dequeue (q : ThreadSafeQueue) : outcome (Z * ThreadSafeQueue) :=
  if ll_isEmpty q then Ret (-1, q) else
  let temp := q_head q in
  n ← load (q_heap q) temp;
  let front := next n in
  let rear := if front =? 0 then 0 else q_tail q in
  Ret (value n, mkQueue (delete temp (q_heap q)) front rear).

Definition ll_front (q : ThreadSafeQueue) : outcome Z :=
  if ll_isEmpty q then Ret (-1) else n ← load (q_heap q) (q_head q); Ret (value n).
Definition ll_rear (q : ThreadSafeQueue) : outcome Z :=
  if ll_isEmpty q then Ret (-1) else n ← load (q_heap q) (q_tail q); Ret (value n).

(** ** stack.c *)

Record stack_t := mkStackT { cells : list Z; top : Z; scapacity : Z }.

Definition stackInit (garbage : list Z) (cap : Z) : stack_t := mkStackT garbage (-1) cap.
Definition s_isFull (s : stack_t) : bool := scapacity s =? top s.
Definition s_isEmpty (s : stack_t) : bool := top s =? -1.
Definition s_push (s : stack_t) (val : Z) : outcome (Z * stack_t) :=
  if s_isFull s then Ret (-1, s) else
  let t := top s + 1 in
  c ← vset (cells s) t val;
  Ret (0, mkStackT c t (scapacity s + 1)).
Definition s_pop (s : stack_t) : outcome (Z * stack_t) :=
  if s_isEmpty s then Ret (-1, s) else
  v ← vget (cells s) (top s);
  Ret (v, mkStackT (cells s) (top s - 1) (scapacity s - 1)).

(** ** The array queue *)

(** The queue holds [vs], stored from position [off] on. *)
Definition aq_rep (q : queue_t) (off : nat) (vs : list Z) : Prop :=
  capacity q = Z.of_nat (length (arr q)) ∧
  match vs with
  | [] => off = 0%nat ∧ front_ q = -1 ∧ rear_ q = -1
  | _ => front_ q = Z.of_nat off ∧ rear_ q = Z.of_nat (off + length vs) - 1 ∧
      take (length vs) (drop off (arr q)) = vs
  end.

(** The specification: a list and the number of slots used up in front of it,
    which is forgotten when the queue becomes empty. *)
Definition spec_enqueue (cap off : nat) (vs : list Z) (v : Z) : Z * nat * list Z :=
  if (off + length vs <? cap)%nat then (0, off, vs ++ [v]) else (-1, off, vs).
Definition spec_dequeue (off : nat) (vs : list Z) : Z * nat * list Z :=
  match vs with
  | [] => (-1, off, [])
  | v :: vs => (v, if decide (vs = []) then 0%nat else S off, vs)
  end.

Lemma aq_rep_slots q off vs : aq_rep q off vs →
  rear_ q = Z.of_nat (off + length vs) - 1 ∧ (vs ≠ [] → front_ q = Z.of_nat off) ∧
  (off + length vs ≤ length (arr q))%nat ∧ take (length vs) (drop off (arr q)) = vs ∧
  (front_ q = -1 ↔ vs = []).
Proof.
  intros [Hc Hv]. destruct vs as [|v vs].
  - destruct Hv as (-> & -> & ->). split_and!; simpl; (done || lia).
  - destruct Hv as (Hf & Hr & Ht). split_and!; try done.
    + pose proof (f_equal length Ht) as Hl. rewrite length_take, length_drop in Hl. cbn [length] in *. lia.
    + split; [lia|done].
Qed.

Lemma enqueue_spec q off vs v : aq_rep q off vs →
  let '(r, off', vs') := spec_enqueue (length (arr q)) off vs v in
  ∃ q', enqueue q v = Ret (r, q') ∧ aq_rep q' off' vs' ∧ length (arr q') = length (arr q).
Proof.
  intros Hq. destruct (aq_rep_slots q off vs Hq) as (Hr & Hf & Hle & Ht & Hfe). pose proof Hq as [Hc _].
  unfold spec_enqueue, enqueue, isFull. rewrite Hc, Hr.
  destruct (Nat.ltb_spec (off + length vs) (length (arr q))) as [Hlt|Hge].
  - destruct (Z.eqb_spec (Z.of_nat (length (arr q))) (Z.of_nat (off + length vs) - 1 + 1)); [lia|].
    replace (Z.of_nat (off + length vs) - 1 + 1) with (Z.of_nat (off + length vs)) by lia.
    cbv zeta. rewrite vset_total, bind_Ret by lia. eexists. split; [done|]. simpl arr.
    rewrite length_insert, Nat2Z.id. split; [|done]. split; simpl; [by rewrite length_insert|].
    assert ((if front_ q =? -1 then 0 else front_ q) = Z.of_nat off) as ->.
    { destruct (Z.eqb_spec (front_ q) (-1)) as [E|E].
      - apply Hfe in E. subst vs. destruct Hq as [_ (-> & _)]. done.
      - apply Hf. by rewrite <- Hfe. }
    assert (take (length (vs ++ [v])) (drop off (<[(off + length vs)%nat := v]> (arr q))) = vs ++ [v]) as Hins.
    { rewrite length_app, Nat.add_1_r. rewrite (take_S_r _ _ v).
      - f_equal. rewrite drop_insert_ge by lia.
        replace (off + length vs - off)%nat with (length vs) by lia. by rewrite take_insert_ge.
      - rewrite lookup_drop. by apply list_lookup_insert_eq. }
    destruct (vs ++ [v]) eqn:Ev; [by destruct vs|]. rewrite <- Ev in *.
    split_and!; [done|rewrite length_app; simpl; lia|done].
  - destruct (Z.eqb_spec (Z.of_nat (length (arr q))) (Z.of_nat (off + length vs) - 1 + 1)); [|lia].
    by exists q.
Qed.

Lemma dequeue_spec q off vs : aq_rep q off vs →
  let '(r, off', vs') := spec_dequeue off vs in
  ∃ q', dequeue q = Ret (r, q') ∧ aq_rep q' off' vs' ∧ length (arr q') = length (arr q).
Proof.
  intros Hq. destruct (aq_rep_slots q off vs Hq) as (Hr & Hf & Hle & Ht & Hfe). pose proof Hq as [Hc _].
  unfold dequeue, isEmpty_q. destruct vs as [|v vs]; simpl spec_dequeue.
  - rewrite (proj2 (Z.eqb_eq (front_ q) (-1))) by (by apply Hfe). by exists q.
  - rewrite (proj2 (Z.eqb_neq (front_ q) (-1))) by (by rewrite Hfe). specialize (Hf ltac:(done)).
    assert (arr q !! off = Some v) as Hv.
    { rewrite <- (Nat.add_0_r off), <- lookup_drop. rewrite <- (lookup_take_lt _ (length (v :: vs))) by (simpl; lia).
      by rewrite Ht. }
    rewrite Hf, (proj2 (vget_Ret (arr q) (Z.of_nat off) v)), bind_Ret by (rewrite Nat2Z.id; split; [lia|done]).
    rewrite Hr. simpl length. destruct (decide (vs = [])) as [->|Hne].
    + rewrite (proj2 (Z.eqb_eq _ _)) by (simpl; lia). eexists. split; [done|]. by split.
    + assert (0 < length vs)%nat by (destruct vs; simpl; [done|lia]).
      rewrite (proj2 (Z.eqb_neq _ _)) by lia. eexists. split; [done|]. split; [|done]. split; [done|].
      simpl in Ht |- *. rewrite (drop_S _ _ _ Hv) in Ht. simpl in Ht. injection Ht as Ht.
      destruct vs as [|w vs]; [done|]. split_and!; [lia|simpl; lia|done].
Qed.

(** The node at the end of a chain holds the last value. *)
Lemma chain_last h A t : ∀ p vs, chain h p (A ++ [t]) vs → ∃ v n, list.last vs = Some v ∧ load h t = Ret (mkNode v n).
Proof.
  induction A as [|a A IH]; intros p [|v vs] Hc; simpl in Hc; try done.
  - destruct Hc as (-> & Ha & n & Hn & Hnil). destruct vs; [|done]. exists v, n. unfold load.
    rewrite (proj2 (Z.eqb_neq t 0)) by done. by rewrite Hn.
  - destruct Hc as (-> & Ha & n & Hn & Hc). destruct (IH n vs Hc) as (w & k & Hl & E).
    exists w, k. split; [|done]. destruct vs; [by destruct A|done].
Qed.

Lemma ll_ends q vs : queue_rep q vs →
  ll_front q = Ret (default (-1) (hd_error vs)) ∧ ll_rear q = Ret (default (-1) (list.last vs)).
Proof.
  intros (A & _ & Hc & _ & Ht). unfold ll_front, ll_rear, ll_isEmpty.
  destruct (Z.eqb_spec (q_head q) 0) as [E|E].
  - rewrite E in Hc. apply chain_null in Hc as [-> ->]. done.
  - destruct (chain_load _ _ _ _ Hc E) as (x & n & A' & vs' & HA & Hvs & Hl & _). split.
    + by rewrite Hl, Hvs.
    + destruct (exists_last_or_nil A) as [->|(A0 & t & ->)]; [done|].
      destruct (chain_last _ _ _ _ _ Hc) as (w & k & Hw & Hk). rewrite last_snoc in Ht.
      simpl in Ht. rewrite Ht, Hk, Hw. done.
Qed.

Lemma aq_ends q off vs : aq_rep q off vs →
  front q = Ret (default (-1) (hd_error vs)) ∧ rear q = Ret (default (-1) (list.last vs)).
Proof.
  intros Hq. destruct (aq_rep_slots q off vs Hq) as (Hr & Hf & Hle & Ht & Hfe).
  assert (∀ i, (i < length vs)%nat → arr q !! (off + i)%nat = vs !! i) as Hget.
  { intros i Hi. rewrite <- lookup_drop, <- (lookup_take_lt _ (length vs)) by done. by rewrite Ht. }
  unfold front, rear. destruct vs as [|v vs].
  - destruct Hq as [_ (-> & -> & ->)]. done.
  - rewrite (Hf ltac:(done)), Hr. cbn [length] in *. split.
    + rewrite (proj2 (Z.eqb_neq _ _)) by lia. apply vget_Ret. split; [lia|].
      rewrite Nat2Z.id, <- (Nat.add_0_r off). rewrite Hget by lia. done.
    + rewrite (proj2 (Z.eqb_neq _ _)) by lia. apply vget_Ret. split; [lia|].
      replace (Z.to_nat (Z.of_nat (off + S (length vs)) - 1)) with (off + length vs)%nat by lia.
      rewrite Hget by lia. destruct (list.last (v :: vs)) as [w|] eqn:Hw; [|by apply last_None in Hw].
      rewrite last_lookup in Hw. done.
Qed.

(** The array queue never leaves its array and answers like a list in
    which each slot is used once until the queue runs empty; the linked queue
    is an unbounded first-in first-out list without pointer faults or leaks;
    and [front] and [rear] of both read the two ends, or answer -1. *)
Theorem c_queues_correct q off vs v lq ws a :
  aq_rep q off vs → queue_rep lq ws → a ≠ 0 → q_heap lq !! a = None →
  (let '(r, off', vs') := spec_enqueue (length (arr q)) off vs v in
   ∃ q', enqueue q v = Ret (r, q') ∧ aq_rep q' off' vs' ∧ length (arr q') = length (arr q)) ∧
  (let '(r, off', vs') := spec_dequeue off vs in
   ∃ q', dequeue q = Ret (r, q') ∧ aq_rep q' off' vs' ∧ length (arr q') = length (arr q)) ∧
  (∃ q', ll_enqueue a v lq = Ret q' ∧ queue_rep q' (ws ++ [v])) ∧
  (∃ q', ll_dequeue lq = Ret (default (-1) (hd_error ws), q') ∧ queue_rep q' (tail ws)) ∧
  (front q = Ret (default (-1) (hd_error vs)) ∧ rear q = Ret (default (-1) (list.last vs))) ∧
  (ll_front lq = Ret (default (-1) (hd_error ws)) ∧ ll_rear lq = Ret (default (-1) (list.last ws))).
Proof.
  intros Hq Hl Ha Hf. split_and!;
    [by apply enqueue_spec|by apply dequeue_spec|by apply queue_push_spec|by apply queue_pop_spec|..];
    (eapply aq_ends || eapply ll_ends); done.
Qed.

Lemma c_queues_correct_witness : ∃ q', ll_enqueue 1 5 createQueue = Ret q' ∧ queue_rep q' [5].
Proof.
  destruct (c_queues_correct (queueInit [0; 0] 2) 0 [] 5 createQueue [] 1) as (_ & _ & H & _).
  - by split.
  - exists []. split_and!; [constructor|done|done|done].
  - discriminate.
  - reflexivity.
  - exact H.
Defined.

(** ** The array stack *)

(** [push] also raises [capacity], which therefore never equals [top]: pushing
    one value more than the array holds writes behind it. *)
Lemma stack_overflows garbage : ∀ vs : list Z, length vs = length garbage → ∀ v,
  (foldl (λ o w, r ← o; s_push (snd r) w) (Ret (0, stackInit garbage (Z.of_nat (length garbage)))) (vs ++ [v]))
    = Err OutOfBounds.
Proof.
  intros vs Hlen v. rewrite foldl_snoc.
  assert (∀ n us, n = length us → (n ≤ length garbage)%nat →
    ∃ c r, foldl (λ o w, r ← o; s_push (snd r) w) (Ret (0, stackInit garbage (Z.of_nat (length garbage)))) us =
      Ret (r, mkStackT c (Z.of_nat n - 1) (Z.of_nat (length garbage + n))) ∧ length c = length garbage) as H.
  { intros n us. revert n. induction us as [|u us IH] using rev_ind; intros n -> Hn.
    - exists garbage, 0. simpl. unfold stackInit. rewrite Nat.add_0_r. done.
    - rewrite length_app in *. simpl in *. destruct (IH (length us) eq_refl ltac:(lia)) as (c & r & E & Hc).
      rewrite foldl_snoc, E, bind_Ret. unfold s_push, s_isFull. simpl.
      destruct (Z.eqb_spec (Z.of_nat (length garbage + length us)) (Z.of_nat (length us) - 1)); [lia|].
      rewrite vset_total, bind_Ret by lia. do 2 eexists. split; [|rewrite length_insert; exact Hc].
      f_equal. f_equal. f_equal; lia. }
  destruct (H (length vs) vs eq_refl ltac:(lia)) as (c & r & E & Hc). rewrite E, bind_Ret.
  unfold s_push, s_isFull. simpl.
  destruct (Z.eqb_spec (Z.of_nat (length garbage + length vs)) (Z.of_nat (length vs) - 1)); [lia|].
  unfold vset, in_range. rewrite (proj2 (Z.ltb_ge _ _)) by lia. by rewrite andb_false_r.
Qed.

(** Within the array it is a stack. *)
Lemma s_push_pop s v : -1 ≤ top s < Z.of_nat (length (cells s)) - 1 → top s < scapacity s →
  ∃ s', s_push s v = Ret (0, s') ∧ ∃ s'', s_pop s' = Ret (v, s'') ∧ top s'' = top s ∧ scapacity s'' = scapacity s.
Proof.
  intros Ht Hc. unfold s_push, s_isFull, s_pop, s_isEmpty.
  rewrite (proj2 (Z.eqb_neq (scapacity s) (top s))) by lia. cbv zeta. rewrite vset_total, bind_Ret by lia.
  eexists. split; [done|]. simpl. rewrite (proj2 (Z.eqb_neq (top s + 1) (-1))) by lia.
  rewrite (proj2 (vget_Ret _ _ v)) by (split; [lia|]; apply list_lookup_insert_eq; lia).
  rewrite bind_Ret. eexists. split; [done|]. simpl. lia.
Qed.
