(* ===== verification/MemApis.v ===== *)
(** * mem_apis/memcpy.c and memset.c

    Memory is a finite map from addresses to bytes; an access to an address
    that is not in it is a failure, 0 is the null pointer.  Words are 64-bit
    and little-endian. *)

From stdpp Require Import base list gmap numbers.
From Stdlib Require Import ZArith Lia.
From S2P Require Import Prelude.

Abbreviation memory := (gmap Z Z).

Definition load (m : memory) (a : Z) : outcome Z := of_option OutOfBounds (m !! a).
Definition store (m : memory) (a v : Z) : outcome memory :=
  _ ← load m a; Ret (<[a := v]> m).

(** ** memcpy.c *)

(** [for (i = 0; i < n; i++) d[i] = s[i];] *)
Fixpoint copy_up (n : nat) (i d s : Z) (m : memory) : outcome memory :=
  match n with
  | O => Ret m
  | S n => v ← load m (s + i); m ← store m (d + i) v; copy_up n (i + 1) d s m
  end.

(** [for (i = n; i > 0; i--) d[i - 1] = s[i - 1];] *)
Fixpoint copy_down (i : nat) (d s : Z) (m : memory) : outcome memory :=
  match i with
  | O => Ret m
  | S i => v ← load m (s + Z.of_nat i); m ← store m (d + Z.of_nat i) v; copy_down i d s m
  end.

(** The returned pointer and the memory. *)
Definition robust_memcpy (dest src : Z) (n : nat) (m : memory) : outcome (Z * memory) :=
  if (dest =? 0) || (src =? 0) then Ret (0, m) else
  m ← (if dest <? src then copy_up n 0 dest src m
       else if src <? dest then copy_down n dest src m
       else Ret m);
  Ret (dest, m).

Definition simple_memcpy (dest src : Z) (n : nat) (m : memory) : outcome (Z * memory) :=
  if (dest =? 0) || (src =? 0) then Ret (0, m) else
  m ← copy_up n 0 dest src m;
  Ret (dest, m).

(** ** memset.c *)

(** [for (i = 0; i < n; i++) p[i] = v;], also [while (n--) *p++ = v;] *)
Fixpoint fill_bytes (n : nat) (p v : Z) (m : memory) : outcome memory :=
  match n with
  | O => Ret m
  | S n => m ← store m p v; fill_bytes n (p + 1) v m
  end.

Definition memset_naive (dst val : Z) (n : nat) (m : memory) : outcome (Z * memory) :=
  m ← fill_bytes n dst (u8 val) m; Ret (dst, m).

Definition word_pattern (v : Z) : Z :=
  let pattern := v in
  let pattern := Z.lor pattern (u64 (Z.shiftl pattern 8)) in
  let pattern := Z.lor pattern (u64 (Z.shiftl pattern 16)) in
  Z.lor pattern (u64 (Z.shiftl pattern 32)).

(** [while (n && (p & (sizeof(uintptr_t) - 1)))]: the pointer, the memory and
    the bytes left. *)
Fixpoint align_loop (n : nat) (p v : Z) (m : memory) : outcome (Z * memory * nat) :=
  match n with
  | O => Ret (p, m, O)
  | S n' =>
      if Z.land p 7 =? 0 then Ret (p, m, n)
      else m ← store m p v; align_loop n' (p + 1) v m
  end.

(** The little-endian bytes of a word, [k] of them from address [p]. *)
Fixpoint store_word (k : nat) (p w : Z) (m : memory) : outcome memory :=
  match k with
  | O => Ret m
  | S k => m ← store m p (Z.land w 255); store_word k (p + 1) (Z.shiftr w 8) m
  end.

(** [while (n >= sizeof(uintptr_t))]; [fuel] words at most.  A word may only be
    stored at a multiple of its size. *)
Fixpoint word_loop (fuel n : nat) (wp pattern : Z) (m : memory) : outcome (Z * memory * nat) :=
  match fuel with
  | O => Err OutOfFuel
  | S fuel =>
      if (n <? 8)%nat then Ret (wp, m, n)
      else _ ← check (Z.land wp 7 =? 0) Misaligned;
           m ← store_word 8 wp pattern m; word_loop fuel (n - 8) (wp + 8) pattern m
  end.

Definition memset_fast (dst val : Z) (n : nat) (m : memory) : outcome (Z * memory) :=
  let v := u8 val in
  let pattern := word_pattern v in
  '(p, m, n) ← align_loop n dst v m;
  '(p, m, n) ← word_loop (S n) n p pattern m;
  m ← fill_bytes n p v m;
  Ret (dst, m).

(** ** Specifications *)

(** [n] addresses from [a] on are allocated. *)
Definition allocated (m : memory) (a : Z) (n : nat) : Prop :=
  ∀ i, 0 ≤ i < Z.of_nat n → is_Some (m !! (a + i)).

(** [m'] is [m] with the [n] bytes from [d] replaced by [f 0], ..., [f (n - 1)]. *)
Definition replaced (m m' : memory) (d : Z) (n : nat) (f : Z → option Z) : Prop :=
  ∀ a, m' !! a = if decide (d ≤ a < d + Z.of_nat n) then f (a - d) else m !! a.

Lemma load_alloc m a n i : allocated m a n → 0 ≤ i < Z.of_nat n → ∃ v, load m (a + i) = Ret v ∧ m !! (a + i) = Some v.
Proof. intros Ha Hi. destruct (Ha i Hi) as [v Hv]. exists v. unfold load. by rewrite Hv. Qed.

Lemma store_alloc m a v : is_Some (m !! a) → store m a v = Ret (<[a := v]> m).
Proof. intros [x Hx]. unfold store, load. by rewrite Hx. Qed.

Lemma allocated_insert m b v a n : allocated m a n → allocated (<[b := v]> m) a n.
Proof. intros Ha i Hi. rewrite lookup_insert. case_decide; eauto. Qed.

(** Upwards: the bytes still to be read have not been written yet. *)
Lemma copy_up_spec d s N m0 : allocated m0 s N → allocated m0 d N →
  (d ≤ s ∨ s + Z.of_nat N ≤ d) → ∀ n i m, Z.of_nat n + i = Z.of_nat N → 0 ≤ i →
  replaced m0 m d (Z.to_nat i) (λ k, m0 !! (s + k)) →
  ∃ m', copy_up n i d s m = Ret m' ∧ replaced m0 m' d N (λ k, m0 !! (s + k)).
Proof.
  intros Hs Hd Hov. induction n as [|n IH]; intros i m Hn Hi Hm; cbn [copy_up].
  { exists m. split; [done|]. by replace N with (Z.to_nat i) by lia. }
  destruct (load_alloc m0 s N i Hs) as (v & _ & Hv); [lia|].
  assert (m !! (s + i) = Some v) as Hmv by (rewrite Hm, decide_False by lia; done).
  assert (is_Some (m !! (d + i))) as Hmd by (rewrite Hm, decide_False by lia; apply Hd; lia).
  unfold load. rewrite Hmv. simpl of_option. rewrite bind_Ret, store_alloc, bind_Ret by done.
  apply IH; [lia..|]. intros a. rewrite lookup_insert. case_decide as Ha.
  - subst a. rewrite decide_True by lia. rewrite <- Hv. f_equal. lia.
  - rewrite Hm. repeat case_decide; try lia; done.
Qed.

Lemma copy_down_spec d s N m0 : allocated m0 s N → allocated m0 d N → s < d → ∀ i m, (i ≤ N)%nat →
  (∀ a, m !! a = if decide (d + Z.of_nat i ≤ a < d + Z.of_nat N) then m0 !! (s + (a - d)) else m0 !! a) →
  ∃ m', copy_down i d s m = Ret m' ∧ replaced m0 m' d N (λ k, m0 !! (s + k)).
Proof.
  intros Hs Hd Hov. induction i as [|i IH]; intros m Hi Hm; cbn [copy_down].
  { exists m. split; [done|]. intros a. rewrite Hm. repeat case_decide; try lia; done. }
  destruct (load_alloc m0 s N (Z.of_nat i) Hs) as (v & _ & Hv); [lia|].
  assert (m !! (s + Z.of_nat i) = Some v) as Hmv by (rewrite Hm, decide_False by lia; done).
  assert (is_Some (m !! (d + Z.of_nat i))) as Hmd by (rewrite Hm, decide_False by lia; apply Hd; lia).
  unfold load. rewrite Hmv. simpl of_option. rewrite bind_Ret, store_alloc, bind_Ret by done.
  apply IH; [lia|]. intros a. rewrite lookup_insert. case_decide as Ha.
  - subst a. rewrite decide_True by lia. rewrite <- Hv. f_equal. lia.
  - rewrite Hm. repeat case_decide; try lia; done.
Qed.

(** [robust_memcpy] copies the source bytes to the destination and changes
    nothing else, however the two regions overlap; [simple_memcpy] does so
    whenever the destination does not start inside the source. *)
Theorem memcpy_correct d s n m :
  d ≠ 0 → s ≠ 0 → allocated m s n → allocated m d n →
  (∃ m', robust_memcpy d s n m = Ret (d, m') ∧ replaced m m' d n (λ k, m !! (s + k))) ∧
  (d ≤ s ∨ s + Z.of_nat n ≤ d →
   ∃ m', simple_memcpy d s n m = Ret (d, m') ∧ replaced m m' d n (λ k, m !! (s + k))).
Proof.
  intros Hd0 Hs0 Hs Hd. unfold robust_memcpy, simple_memcpy.
  rewrite (proj2 (Z.eqb_neq d 0) Hd0), (proj2 (Z.eqb_neq s 0) Hs0). cbn [orb].
  assert (replaced m m d (Z.to_nat 0) (λ k, m !! (s + k))) as H0.
  { intros a. rewrite decide_False by lia. done. }
  split.
  - destruct (Z.ltb_spec d s); [|destruct (Z.ltb_spec s d)].
    + destruct (copy_up_spec d s n m Hs Hd ltac:(lia) n 0 m) as (m' & -> & Hm); [lia..|done|].
      exists m'. by rewrite bind_Ret.
    + destruct (copy_down_spec d s n m Hs Hd ltac:(lia) n m) as (m' & -> & Hm); [lia| |].
      { intros a. rewrite decide_False by lia. done. }
      exists m'. by rewrite bind_Ret.
    + assert (d = s) as -> by lia. exists m. split; [done|]. intros a. case_decide; [f_equal; lia|done].
  - intros Hov. destruct (copy_up_spec d s n m Hs Hd Hov n 0 m) as (m' & -> & Hm); [lia..|done|].
    exists m'. by rewrite bind_Ret.
Qed.

(** Ten bytes at address 10, as in [main]. *)
Definition demo_memory : memory :=
  list_to_map (zip (seqZ 10 10) [97; 98; 99; 100; 101; 102; 103; 104; 105; 106]).

Lemma memcpy_correct_witness : ∃ m', robust_memcpy 10 13 5 demo_memory = Ret (10, m') ∧ m' !! 10 = Some 100.
Proof.
  destruct (memcpy_correct 10 13 5 demo_memory) as ((m' & E & H) & _).
  - discriminate.
  - discriminate.
  - intros i Hi. assert (i = 0 ∨ i = 1 ∨ i = 2 ∨ i = 3 ∨ i = 4) as Hc by lia.
    repeat destruct Hc as [->|Hc]; try (vm_compute; eauto; fail). subst. vm_compute. eauto.
  - intros i Hi. assert (i = 0 ∨ i = 1 ∨ i = 2 ∨ i = 3 ∨ i = 4) as Hc by lia.
    repeat destruct Hc as [->|Hc]; try (vm_compute; eauto; fail). subst. vm_compute. eauto.
  - exists m'. split; [exact E|]. rewrite H. reflexivity.
Defined.

(** With the destination inside the source, the forward copy repeats bytes. *)
Lemma simple_memcpy_overlap :
  ∃ m', simple_memcpy 13 10 5 demo_memory = Ret (13, m') ∧ m' !! 16 = Some 97 ∧ demo_memory !! 13 = Some 100.
Proof. eexists. split; [vm_compute; reflexivity|]. split; vm_compute; reflexivity. Qed.

(** ** memset *)

Lemma bind_assoc {A B C} (x : outcome A) (f : A → outcome B) (g : B → outcome C) :
  ((x ≫= f) ≫= g) = x ≫= (λ a, f a ≫= g).
Proof. by destruct x. Qed.

Lemma fill_bytes_add a b p v m :
  fill_bytes (a + b) p v m = (m ← fill_bytes a p v m; fill_bytes b (p + Z.of_nat a) v m).
Proof.
  revert p m. induction a as [|a IH]; intros p m; cbn [fill_bytes Nat.add].
  - by rewrite bind_Ret, Z.add_0_r.
  - rewrite bind_assoc. destruct (store m p v) as [m1|]; [|done]. rewrite !bind_Ret, IH.
    destruct (fill_bytes a (p + 1) v m1); [|done]. rewrite !bind_Ret. f_equal. lia.
Qed.

Lemma align_loop_fill n : ∀ p v m, ∃ j, (j ≤ n)%nat ∧
  align_loop n p v m = (m ← fill_bytes j p v m; Ret (p + Z.of_nat j, m, (n - j)%nat)) ∧
  (∀ m', fill_bytes j p v m = Ret m' → j = n ∨ Z.land (p + Z.of_nat j) 7 = 0).
Proof.
  induction n as [|n IH]; intros p v m; cbn [align_loop].
  { exists 0%nat. split; [done|]. simpl. rewrite Z.add_0_r. auto. }
  destruct (Z.eqb_spec (Z.land p 7) 0).
  { exists 0%nat. split; [lia|]. simpl. rewrite Z.add_0_r. auto. }
  destruct (store m p v) as [m1|f] eqn:E.
  - rewrite bind_Ret. destruct (IH (p + 1) v m1) as (j & Hj & -> & Hal). exists (S j). split; [lia|].
    cbn [fill_bytes]. rewrite E, bind_Ret. replace (p + Z.of_nat (S j)) with (p + 1 + Z.of_nat j) by lia.
    split; [by destruct (fill_bytes j (p + 1) v m1)|]. intros m' Hm'. destruct (Hal m' Hm'); auto.
  - exists 1%nat. split; [lia|]. cbn [fill_bytes]. by rewrite E.
Qed.

(** The bytes that [store_word] writes. *)
Fixpoint word_bytes (k : nat) (w : Z) : list Z :=
  match k with O => [] | S k => Z.land w 255 :: word_bytes k (Z.shiftr w 8) end.

Lemma store_word_fill k : ∀ p w v m, word_bytes k w = replicate k v → store_word k p w m = fill_bytes k p v m.
Proof.
  induction k as [|k IH]; intros p w v m Hw; simpl in *; [done|]. injection Hw as -> Hw.
  destruct (store m p v); [|done]. rewrite !bind_Ret. by apply IH.
Qed.

(** All bytes of the pattern are [v]: checked for the 256 values. *)
Lemma word_pattern_bytes v : 0 ≤ v < 256 → word_bytes 8 (word_pattern v) = replicate 8 v.
Proof.
  intros Hv. assert (Forall (λ v, word_bytes 8 (word_pattern v) = replicate 8 v) (seqZ 0 256)) as H.
  { apply (bool_decide_unpack _). by vm_compute. }
  apply (Forall_lookup_1 _ _ (Z.to_nat v) v) in H; [done|]. apply lookup_seqZ. lia.
Qed.

Lemma aligned_next p : Z.land p 7 = 0 → Z.land (p + 8) 7 = 0.
Proof.
  change 7 with (Z.ones 3). rewrite !Z.land_ones by lia. change 8 with (1 * 2 ^ 3). by rewrite Z.mod_add.
Qed.

Lemma word_loop_fill fuel : ∀ n p v m, (n < fuel)%nat → 0 ≤ v < 256 → n = 0%nat ∨ Z.land p 7 = 0 → ∃ q, (8 * q ≤ n)%nat ∧
  word_loop fuel n p (word_pattern v) m =
    (m ← fill_bytes (8 * q) p v m; Ret (p + Z.of_nat (8 * q), m, (n - 8 * q)%nat)).
Proof.
  induction fuel as [|fuel IH]; intros n p v m Hn Hv Hal; [lia|]. cbn [word_loop].
  destruct (Nat.ltb_spec n 8).
  { exists 0%nat. split; [lia|]. simpl. by rewrite Z.add_0_r, Nat.sub_0_r. }
  destruct Hal as [?|Hal]; [lia|]. rewrite (proj2 (Z.eqb_eq _ _) Hal). cbn [check]. rewrite bind_Ret.
  rewrite (store_word_fill 8 p _ v m (word_pattern_bytes v Hv)).
  destruct (fill_bytes 8 p v m) as [m1|f] eqn:E.
  - rewrite bind_Ret. destruct (IH (n - 8)%nat (p + 8) v m1) as (q & Hq & ->); [lia|done|right; by apply aligned_next|].
    exists (S q). split; [lia|]. replace (8 * S q)%nat with (8 + 8 * q)%nat by lia.
    rewrite fill_bytes_add, E, bind_Ret. change (Z.of_nat 8) with 8.
    destruct (fill_bytes (8 * q) (p + 8) v m1); [|done]. rewrite !bind_Ret.
    replace (p + Z.of_nat (8 + 8 * q)) with (p + 8 + Z.of_nat (8 * q)) by lia.
    by replace (n - (8 + 8 * q))%nat with (n - 8 - 8 * q)%nat by lia.
  - exists 1%nat. split; [lia|]. change (8 * 1)%nat with 8%nat. by rewrite E.
Qed.

Lemma fill_bytes_spec n : ∀ p v m, allocated m p n →
  ∃ m', fill_bytes n p v m = Ret m' ∧ replaced m m' p n (λ _, Some v).
Proof.
  induction n as [|n IH]; intros p v m Ha; cbn [fill_bytes].
  { exists m. split; [done|]. intros a. rewrite decide_False by lia. done. }
  rewrite store_alloc, bind_Ret by (rewrite <- (Z.add_0_r p); apply Ha; lia).
  destruct (IH (p + 1) v (<[p := v]> m)) as (m' & -> & Hm).
  { apply allocated_insert. intros i Hi. replace (p + 1 + i) with (p + (i + 1)) by lia. apply Ha. lia. }
  exists m'. split; [done|]. intros a. rewrite Hm. repeat case_decide; try lia; try done.
  - rewrite lookup_insert. case_decide; [done|lia].
  - rewrite lookup_insert_ne by lia. done.
Qed.

Lemma memset_fast_naive dst val n m : memset_fast dst val n m = memset_naive dst val n m.
Proof.
  unfold memset_fast, memset_naive. cbv zeta.
  assert (0 ≤ u8 val < 256) as Hv by (unfold u8; apply Z.mod_pos_bound; lia).
  destruct (align_loop_fill n dst (u8 val) m) as (j & Hj & -> & Hal).
  assert (fill_bytes n dst (u8 val) m =
    (m ← fill_bytes j dst (u8 val) m; fill_bytes (n - j) (dst + Z.of_nat j) (u8 val) m)) as ->
    by (rewrite <- fill_bytes_add; f_equal; lia).
  rewrite !bind_assoc.
  destruct (fill_bytes j dst (u8 val) m) as [m1|]; [|done]. specialize (Hal m1 eq_refl). rewrite !bind_Ret.
  destruct (word_loop_fill (S (n - j)) (n - j) (dst + Z.of_nat j) (u8 val) m1) as (q & Hq & ->); [lia|done| |].
  { destruct Hal as [-> |?]; [left; lia|by right]. }
  assert (fill_bytes (n - j) (dst + Z.of_nat j) (u8 val) m1 =
    (m ← fill_bytes (8 * q) (dst + Z.of_nat j) (u8 val) m1;
     fill_bytes (n - j - 8 * q) (dst + Z.of_nat j + Z.of_nat (8 * q)) (u8 val) m)) as ->
    by (rewrite <- fill_bytes_add; f_equal; lia).
  rewrite !bind_assoc.
  destruct (fill_bytes (8 * q) (dst + Z.of_nat j) (u8 val) m1) as [m2|]; [|done]. by rewrite !bind_Ret.
Qed.

Lemma memset_naive_spec dst val n m : allocated m dst n →
  ∃ m', memset_naive dst val n m = Ret (dst, m') ∧ replaced m m' dst n (λ _, Some (u8 val)).
Proof.
  intros Ha. destruct (fill_bytes_spec n dst (u8 val) m Ha) as (m' & E & Hm).
  exists m'. unfold memset_naive. by rewrite E, bind_Ret.
Qed.

(** C22: the word-wise [memset_fast] does exactly what the byte-wise
    [memset_naive] does, for every address, alignment, value and length, out of
    bounds accesses included; and on an allocated region both set every byte of
    it and nothing else. *)
Theorem memset_equivalent dst val n m :
  memset_fast dst val n m = memset_naive dst val n m ∧
  (allocated m dst n → ∃ m', memset_naive dst val n m = Ret (dst, m') ∧
     replaced m m' dst n (λ _, Some (u8 val))).
Proof. split; [apply memset_fast_naive|apply memset_naive_spec]. Qed.
