(* ===== verification/Events.v ===== *)
(** * pureStorage/interview.cpp

    [EventManager]: callbacks registered per event type, launched on threads of
    their own when the event is triggered, or at once when it already was.
    Each method is one critical section followed by the launches it decided on;
    launches do not touch the manager, so a concurrent run is a sequence of
    critical sections and the set of launches they led to. *)

From stdpp Require Import base list gmap numbers.
From Stdlib Require Import ZArith Lia.
From S2P Require Import Prelude.

Inductive EventType := DATA_READY | ERROR.

#[export] Instance EventType_eq_dec : EqDecision EventType.
Proof. solve_decision. Defined.
#[export] Program Instance EventType_countable : Countable EventType :=
  inj_countable' (λ e, match e with DATA_READY => true | ERROR => false end)
    (λ b, if b then DATA_READY else ERROR) _.
Next Obligation. by intros []. Qed.

(** A callback is the number of its registration. *)
Record EventManager := mkManager {
  callbacks_ : gmap EventType (list nat);
  eventFired_ : gmap EventType bool;
}.

Definition new_EventManager : EventManager := mkManager ∅ ∅.

(** [m[type]] of an [unordered_map]: a missing entry is created. *)
Definition fired_at (type : EventType) (m : EventManager) : bool := default false (eventFired_ m !! type).
Definition callbacks_at (type : EventType) (m : EventManager) : list nat :=
  default [] (callbacks_ m !! type).

Definition registerCallback (type : EventType) (cb : nat) (m : EventManager)
    : EventManager * list nat :=
  let alreadyFired := fired_at type m in
  let m := mkManager (callbacks_ m) (<[type := alreadyFired]> (eventFired_ m)) in
  if alreadyFired then (m, [cb])
  else (mkManager (<[type := callbacks_at type m ++ [cb]]> (callbacks_ m)) (eventFired_ m), []).

Definition triggerEvent (type : EventType) (m : EventManager) : EventManager * list nat :=
  let m := mkManager (callbacks_ m) (<[type := true]> (eventFired_ m)) in
  let local := match callbacks_ m !! type with Some cbs => cbs | None => [] end in
  (m, local).

(** ** Runs *)

Inductive op := Register (type : EventType) (cb : nat) | Trigger (type : EventType).

Definition exec (o : op) (m : EventManager) : EventManager * list nat :=
  match o with Register ty cb => registerCallback ty cb m | Trigger ty => triggerEvent ty m end.

(** The launches, in the order of the critical sections. *)
Fixpoint launches (os : list op) (m : EventManager) : list nat :=
  match os with [] => [] | o :: os => let r := exec o m in snd r ++ launches os (fst r) end.

Definition registers (cb : nat) (o : op) : Prop := match o with Register _ cb' => cb' = cb | _ => False end.
Definition triggers (type : EventType) (o : op) : bool :=
  match o with Trigger ty => bool_decide (ty = type) | _ => false end.

Definition count (cb : nat) (l : list nat) : nat := countb (Nat.eqb cb) l.

Lemma count_app cb l l' : count cb (l ++ l') = (count cb l + count cb l')%nat.
Proof. unfold count. induction l as [|x l IH]; simpl; [done|]. rewrite IH. lia. Qed.

(** How often a callback waits for each event. *)
Definition waits (cb : nat) (type : EventType) (m : EventManager) : nat := count cb (callbacks_at type m).

Lemma exec_fired o m type : fired_at type (fst (exec o m)) = fired_at type m || triggers type o.
Proof.
  destruct o as [ty cb|ty]; simpl.
  - rewrite orb_false_r. unfold registerCallback. destruct (fired_at ty m) eqn:E;
      unfold fired_at in *; simpl; rewrite lookup_insert; case_decide; subst; simpl; congruence.
  - unfold triggerEvent, fired_at. simpl. rewrite lookup_insert.
    destruct (decide (ty = type)); case_bool_decide; simpl; try done.
    + by rewrite orb_true_r.
    + by rewrite orb_false_r.
Qed.

(** An operation that does not register [cb] launches it as often as it waits
    for the triggered event, and leaves it waiting. *)
Lemma exec_other cb o m : ~ registers cb o →
  (∀ type, waits cb type (fst (exec o m)) = waits cb type m) ∧
  count cb (snd (exec o m)) = match o with Trigger ty => waits cb ty m | _ => 0%nat end.
Proof.
  intros Hr. destruct o as [ty cb'|ty]; simpl in *; [|split; [done|]].
  - assert (Nat.eqb cb cb' = false) as Hne by (apply Nat.eqb_neq; congruence).
    unfold registerCallback, waits, callbacks_at. destruct (fired_at ty m); simpl.
    + split; [done|]. unfold count. simpl. by rewrite Hne.
    + split; [|done]. intros type. rewrite lookup_insert. case_decide as E; [subst|done]. simpl.
      rewrite count_app. unfold count at 2. simpl. rewrite Hne. simpl. lia.
  - unfold triggerEvent, waits, callbacks_at. simpl. by destruct (callbacks_ m !! ty).
Qed.

Lemma launches_other cb os : ∀ m type, Forall (λ o, ~ registers cb o) os →
  (∀ ty, ty ≠ type → waits cb ty m = 0%nat) →
  count cb (launches os m) = (waits cb type m * countb (triggers type) os)%nat.
Proof.
  induction os as [|o os IH]; intros m type Hr Hw; simpl; [unfold count; simpl; lia|].
  apply Forall_cons_1 in Hr as [Ho Hr]. destruct (exec_other cb o m Ho) as [Hkeep Hc].
  rewrite count_app, Hc, (IH _ type Hr), Hkeep by (intros ty Hty; rewrite Hkeep; by apply Hw).
  destruct o as [ty cb'|ty]; simpl; [lia|]. case_bool_decide as E; simpl; [subst; lia|].
  rewrite Hw by done. lia.
Qed.

Lemma launches_app os os' m :
  launches (os ++ os') m = launches os m ++ launches os' (foldl (λ m o, fst (exec o m)) m os).
Proof. revert m. induction os as [|o os IH]; intros m; simpl; [done|]. by rewrite IH, app_assoc. Qed.

Lemma foldl_waits cb os : ∀ m, Forall (λ o, ~ registers cb o) os →
  ∀ type, waits cb type (foldl (λ m o, fst (exec o m)) m os) = waits cb type m.
Proof.
  induction os as [|o os IH]; intros m Hr type; simpl; [done|]. apply Forall_cons_1 in Hr as [Ho Hr].
  rewrite IH by done. by apply exec_other.
Qed.

Lemma foldl_fired os : ∀ m type,
  fired_at type (foldl (λ m o, fst (exec o m)) m os) = fired_at type m || negb (countb (triggers type) os =? 0)%nat.
Proof.
  induction os as [|o os IH]; intros m type; simpl; [by rewrite orb_false_r|].
  rewrite IH, exec_fired. destruct (fired_at type m), (triggers type o); simpl; try done.
Qed.

(** In every sequence of critical sections, a callback is launched exactly
    once, at its registration, if its event was triggered before, and otherwise
    once for every trigger of its event that follows: none is lost and none is
    launched for another event or before its event. *)
Theorem EventManager_launches pre type cb post :
  Forall (λ o, ~ registers cb o) (pre ++ post) →
  count cb (launches (pre ++ Register type cb :: post) new_EventManager) =
  if (countb (triggers type) pre =? 0)%nat then countb (triggers type) post else 1%nat.
Proof.
  intros [Hpre Hpost]%Forall_app. rewrite launches_app, count_app.
  assert (∀ ty, waits cb ty new_EventManager = 0%nat) as Hw0 by done.
  rewrite (launches_other cb pre _ type Hpre) by (intros; apply Hw0). rewrite Hw0.
  set (m := foldl _ new_EventManager pre).
  assert (∀ ty, waits cb ty m = 0%nat) as Hw by (intros ty; subst m; by rewrite foldl_waits).
  assert (fired_at type m = negb (countb (triggers type) pre =? 0)%nat) as Hf by (subst m; apply foldl_fired).
  clearbody m. simpl. rewrite count_app. unfold registerCallback. rewrite Hf.
  assert (count cb [cb] = 1%nat) as H1 by (unfold count; simpl; by rewrite Nat.eqb_refl).
  destruct (countb (triggers type) pre =? 0)%nat; simpl.
  - rewrite (launches_other cb post _ type Hpost).
    + unfold waits, callbacks_at. simpl. rewrite lookup_insert_eq. simpl. rewrite count_app, H1.
      specialize (Hw type). unfold waits, callbacks_at in Hw. rewrite Hw. lia.
    + intros ty Hty. specialize (Hw ty). unfold waits, callbacks_at in *. simpl.
      by rewrite lookup_insert_ne.
  - rewrite H1, (launches_other cb post _ type Hpost); [|intros ty _; exact (Hw ty)].
    specialize (Hw type). unfold waits, callbacks_at in *. simpl. rewrite Hw. lia.
Qed.

(** As in [main]: the event is triggered, then the callback is registered. *)
Lemma EventManager_launches_witness :
  count 0 (launches [Trigger DATA_READY; Register DATA_READY 0; Trigger ERROR] new_EventManager) = 1%nat.
Proof.
  apply (EventManager_launches [Trigger DATA_READY] DATA_READY 0 [Trigger ERROR]).
  repeat constructor; intros [].
Defined.
