(* ===== verification/Filters.v ===== *)
(** * designPatterns/openClosed.cpp, openClosed_original.cpp and
    microsoft/securityPosition/deduplication.cpp

    The product filters, written out per criterion and by combining
    specifications, and the filter that suppresses repeated messages. *)

From stdpp Require Import base list gmap strings numbers.
From Stdlib Require Import ZArith Lia.
From S2P Require Import Prelude.

(** ** Products *)

Inductive Color := red | green | blue.
Inductive Size := small | medium | large.

#[export] Instance Color_eq_dec : EqDecision Color.
Proof. solve_decision. Defined.
#[export] Instance Size_eq_dec : EqDecision Size.
Proof. solve_decision. Defined.

Record product := mkProduct { name : string; color : Color; psize : Size }.

(** [for (auto& i : products) if (...) items.push_back(i);] *)
Fixpoint collect {A} (p : A → bool) (products items : list A) : list A :=
  match products with
  | [] => items
  | i :: products => collect p products (if p i then items ++ [i] else items)
  end.

(** *** openClosed.cpp *)

Definition filter_by_color (products : list product) (c : Color) : list product :=
  collect (λ i, bool_decide (color i = c)) products [].
Definition filter_by_size (products : list product) (s : Size) : list product :=
  collect (λ i, bool_decide (psize i = s)) products [].
Definition filter_by_color_and_size (products : list product) (c : Color) (s : Size) : list product :=
  collect (λ i, bool_decide (color i = c) && bool_decide (psize i = s)) products [].

(** *** openClosed_original.cpp: items are pointers into [mem] *)

Abbreviation Items := (list Z).

Section pointers.
Context (mem : gmap Z product).

(** The items whose product passes the test; a pointer to no product
    is a failure. *)
Fixpoint collect_ptrs (p : product → bool) (items result : Items) : outcome Items :=
  match items with
  | [] => Ret result
  | i :: items =>
      x ← of_option DanglingPtr (mem !! i);
      collect_ptrs p items (if p x then result ++ [i] else result)
  end.

Definition by_color (items : Items) (c : Color) : outcome Items :=
  collect_ptrs (λ x, bool_decide (color x = c)) items [].
Definition by_size (items : Items) (s : Size) : outcome Items :=
  collect_ptrs (λ x, bool_decide (psize x = s)) items [].
Definition by_size_and_color (items : Items) (s : Size) (c : Color) : outcome Items :=
  collect_ptrs (λ x, bool_decide (psize x = s) && bool_decide (color x = c)) items [].

(** The interface [Specification<Product>] and its implementations. *)
Inductive Specification :=
  | ColorSpecification (c : Color)
  | SizeSpecification (s : Size)
  | AndSpecification (first second : Specification).

Fixpoint is_satisfied (spec : Specification) (item : product) : bool :=
  match spec with
  | ColorSpecification c => bool_decide (color item = c)
  | SizeSpecification s => bool_decide (psize item = s)
  | AndSpecification first second => is_satisfied first item && is_satisfied second item
  end.

(** [BetterFilter::filter] *)
Definition better_filter (items : Items) (spec : Specification) : outcome Items :=
  collect_ptrs (is_satisfied spec) items [].

(** *** The filters agree *)

Lemma collect_filter {A} (p : A → bool) (l acc : list A) :
  collect p l acc = acc ++ base.filter (λ x, p x = true) l.
Proof.
  revert acc. induction l as [|x l IH]; intros acc; simpl; [by rewrite filter_nil, app_nil_r|].
  rewrite IH, filter_cons. destruct (p x); [rewrite decide_True by done; by rewrite <- app_assoc|].
  by rewrite decide_False by done.
Qed.

(** The pointers that point to products satisfying [p]. *)
Definition satisfying (p : product → bool) (items : Items) : Items :=
  base.filter (λ i, from_option p false (mem !! i) = true) items.

Lemma collect_ptrs_spec p items : Forall (λ i, is_Some (mem !! i)) items → ∀ acc,
  collect_ptrs p items acc = Ret (acc ++ satisfying p items).
Proof.
  unfold satisfying. induction 1 as [|i items [x Hx] _ IH]; intros acc; cbn [collect_ptrs];
    [by rewrite app_nil_r|].
  rewrite Hx. simpl of_option. rewrite bind_Ret, IH, filter_cons, Hx. simpl from_option.
  destruct (p x); [rewrite decide_True by done; by rewrite <- app_assoc|]. by rewrite decide_False by done.
Qed.

Lemma satisfying_and p q items :
  satisfying (λ x, p x && q x) items = satisfying q (satisfying p items).
Proof.
  unfold satisfying. rewrite list_filter_filter. apply list_filter_iff. intros i.
  destruct (mem !! i) as [x|]; simpl; [|tauto]. rewrite andb_true_iff. tauto.
Qed.

(** The products pointed to. *)
Definition pointees (items : Items) : list product := omap (λ i, mem !! i) items.

(** On valid pointers, filtering by a conjunction of specifications is
    filtering by one after the other, whatever the specifications; the
    open/closed filter agrees with each of the hand-written ones, which in turn
    list the products that the value-based filters of openClosed.cpp list. *)
Theorem filters_agree items a b c s :
  Forall (λ i, is_Some (mem !! i)) items →
  better_filter items (AndSpecification a b) =
    (l ← better_filter items a; better_filter l b) ∧
  better_filter items (AndSpecification (SizeSpecification s) (ColorSpecification c)) =
    by_size_and_color items s c ∧
  better_filter items (ColorSpecification c) = by_color items c ∧
  better_filter items (SizeSpecification s) = by_size items s ∧
  (l ← by_size_and_color items s c; Ret (pointees l)) =
    Ret (filter_by_color_and_size (pointees items) c s).
Proof.
  intros Hv. unfold better_filter, by_size_and_color, by_color, by_size, filter_by_color_and_size.
  rewrite !collect_ptrs_spec by done. simpl. rewrite !collect_ptrs_spec, collect_filter; last first.
  { apply list.Forall_forall. intros i Hi. unfold satisfying in Hi. apply list_elem_of_filter in Hi as [_ Hi].
    by apply (proj1 (list.Forall_forall _ _) Hv). }
  split_and!; [|done..|].
  - f_equal. apply satisfying_and.
  - f_equal. unfold satisfying, pointees. clear -Hv. induction Hv as [|i items [x Hx] _ IH]; [done|].
    rewrite filter_cons. simpl. rewrite Hx. simpl. rewrite filter_cons.
    replace (bool_decide (color x = c) && bool_decide (psize x = s))
      with (bool_decide (psize x = s) && bool_decide (color x = c)) by apply andb_comm.
    destruct (bool_decide (psize x = s) && bool_decide (color x = c)).
    + rewrite !decide_True by done. simpl. rewrite Hx. f_equal. exact IH.
    + rewrite !decide_False by done. exact IH.
Qed.
End pointers.

Definition demo_mem : gmap Z product :=
  {[ 1 := mkProduct "Apple" green small; 2 := mkProduct "Tree" green large;
     3 := mkProduct "House" blue large ]}.

Lemma filters_agree_witness :
  better_filter demo_mem [1; 2; 3] (AndSpecification (SizeSpecification large) (ColorSpecification green)) =
    by_size_and_color demo_mem [1; 2; 3] large green.
Proof.
  apply (filters_agree demo_mem [1; 2; 3] (SizeSpecification large) (ColorSpecification green) green large).
  repeat constructor; vm_compute; eauto.
Defined.

(** ** MessageFilter

    Times are nanoseconds of the steady clock; [hash] is [std::hash<string>],
    code outside the repository. *)

Section messages.
Context (hash : string → Z).

Record MessageFilter := mkFilter { cooldownSeconds : Z; lastSeen : gmap Z Z }.

Definition new_MessageFilter (cooldown : Z) : MessageFilter := mkFilter cooldown ∅.

Definition filter (now : Z) (msg : string) (f : MessageFilter) : bool * MessageFilter :=
  let h := hash msg in
  match lastSeen f !! h with
  | None => (true, mkFilter (cooldownSeconds f) (<[h := now]> (lastSeen f)))
  | Some seen =>
      let elapsed := Z.quot (now - seen) (10 ^ 9) in
      if cooldownSeconds f <=? elapsed
      then (true, mkFilter (cooldownSeconds f) (<[h := now]> (lastSeen f)))
      else (false, f)
  end.

(** A run: the answers with the time and the message. *)
Fixpoint run_filter (ms : list (Z * string)) (f : MessageFilter) : list (Z * string * bool) :=
  match ms with
  | [] => []
  | (t, m) :: ms => let r := filter t m f in (t, m, fst r) :: run_filter ms (snd r)
  end.

(** The last forwarding of a hash before the end of a log. *)
Definition last_forward (h : Z) (log : list (Z * string * bool)) : option Z :=
  foldl (λ acc e, if snd e && (hash (snd (fst e)) =? h) then Some (fst (fst e)) else acc) None log.

Lemma last_forward_snoc h log e : last_forward h (log ++ [e]) =
  if snd e && (hash (snd (fst e)) =? h) then Some (fst (fst e)) else last_forward h log.
Proof. unfold last_forward. by rewrite foldl_snoc. Qed.

(** The verdict on each message depends on the last forwarding of its hash. *)
Definition verdict_ok (c : Z) (before : list (Z * string * bool)) (e : Z * string * bool) : Prop :=
  snd e = match last_forward (hash (snd (fst e))) before with
          | None => true
          | Some t => c <=? Z.quot (fst (fst e) - t) (10 ^ 9)
          end.

Lemma run_filter_spec ms : ∀ f before, (∀ h, lastSeen f !! h = last_forward h before) →
  ∀ k e, run_filter ms f !! k = Some e →
    verdict_ok (cooldownSeconds f) (before ++ take k (run_filter ms f)) e.
Proof.
  induction ms as [|[t m] ms IH]; intros f before Hf k e He; [done|]. simpl in *.
  assert (fst (filter t m f) = match last_forward (hash m) before with
          | None => true | Some t' => cooldownSeconds f <=? Z.quot (t - t') (10 ^ 9) end ∧
    cooldownSeconds (snd (filter t m f)) = cooldownSeconds f ∧
    ∀ h, lastSeen (snd (filter t m f)) !! h = last_forward h (before ++ [(t, m, fst (filter t m f))]))
    as (Hv & Hc & Hf').
  { unfold filter. rewrite Hf. destruct (last_forward (hash m) before) as [t'|] eqn:El.
    - destruct (cooldownSeconds f <=? _) eqn:Ec; simpl; split_and!; try done.
      + intros h. rewrite last_forward_snoc. simpl. rewrite lookup_insert, Hf.
        destruct (Z.eqb_spec (hash m) h), (decide (hash m = h)); congruence.
      + intros h. rewrite last_forward_snoc. simpl. apply Hf.
    - simpl. split_and!; [done..|]. intros h. rewrite last_forward_snoc. simpl. rewrite lookup_insert, Hf.
      destruct (Z.eqb_spec (hash m) h), (decide (hash m = h)); congruence. }
  destruct k as [|k]; simpl in *.
  - injection He as <-. unfold verdict_ok. simpl. by rewrite app_nil_r.
  - rewrite cons_middle, app_assoc, <- Hc. by apply IH.
Qed.

(** In every run, a message is forwarded exactly when no message with the
    same hash was forwarded before it, or the last one that was is at least the
    cooldown (in whole seconds) older; suppressed messages do not count. *)
Theorem MessageFilter_correct cooldown ms k e :
  run_filter ms (new_MessageFilter cooldown) !! k = Some e →
  verdict_ok cooldown (take k (run_filter ms (new_MessageFilter cooldown))) e.
Proof. intros He. by apply (run_filter_spec ms (new_MessageFilter cooldown) [] ltac:(done) k e). Qed.
End messages.

Definition demo_hash (s : string) : Z := Z.of_nat (String.length s).

Lemma MessageFilter_correct_witness :
  verdict_ok demo_hash 3 [(0, "msg1", true)] (1000000000, "msg1", false).
Proof.
  apply (MessageFilter_correct demo_hash 3 [(0, "msg1"%string); (1000000000, "msg1"%string)] 1). reflexivity.
Defined.

(** Only the hash is stored: a different message with the same hash is suppressed. *)
Lemma MessageFilter_collision :
  snd <$> run_filter demo_hash [(0, "msg1"%string); (0, "msg2"%string)] (new_MessageFilter 3) = [true; false].
Proof. reflexivity. Qed.
