(* ===== verification/Dispatcher.v ===== *)
(** * packetHandler/PacketHandler.cpp and PacketHandler.h

    The packet path: the capture callback strips the Ethernet header and queues
    the packet, the processor takes packets in order and dispatches them by the
    protocol of the IP header.  Bytes are [Z]s below 256.  The layouts of
    [struct ip], [tcphdr], [udphdr] and [icmphdr] are the network headers (the
    header length is the low nibble of the first byte); libpcap itself is
    outside the repository. *)

From stdpp Require Import base list gmap sets numbers.
From Stdlib Require Import ZArith Lia.
From S2P Require Import Prelude.

Abbreviation bytes := (list Z).

(** [ntohs] of the two bytes at an offset. *)
Definition port_at (data : bytes) (off : Z) : outcome Z :=
  hi ← vget data off; lo ← vget data (off + 1); Ret (hi * 256 + lo).

(** What a handler prints. *)
Inductive printed :=
  | TCP (source dest : Z)
  | UDP (source dest : Z)
  | ICMP (type code : Z).

(** A handler gets the packet and the offset of its own header in it. *)
Definition TCPHandler (data : bytes) (off : Z) : outcome printed :=
  s ← port_at data off; d ← port_at data (off + 2); Ret (TCP s d).
Definition UDPHandler (data : bytes) (off : Z) : outcome printed :=
  s ← port_at data off; d ← port_at data (off + 2); Ret (UDP s d).
Definition ICMPHandler (data : bytes) (off : Z) : outcome printed :=
  t ← vget data off; c ← vget data (off + 1); Ret (ICMP t c).

Definition IPPROTO_ICMP : Z := 1.
Definition IPPROTO_TCP : Z := 6.
Definition IPPROTO_UDP : Z := 17.

Abbreviation Dispatcher := (gmap Z (bytes → Z → outcome printed)).

Definition new_Dispatcher : Dispatcher :=
  {[ IPPROTO_TCP := TCPHandler; IPPROTO_UDP := UDPHandler; IPPROTO_ICMP := ICMPHandler ]}.

(** [sizeof(struct ip)] *)
Definition sizeof_ip : Z := 20.

Definition dispatch_packet (handlers : Dispatcher) (data : bytes) : outcome (list printed) :=
  if Z.of_nat (length data) <? sizeof_ip then Ret [] else
  b0 ← vget data 0;
  let ip_header_len := Z.land b0 15 * 4 in
  protocol ← vget data 9;
  match handlers !! protocol with
  | Some handle => p ← handle data ip_header_len; Ret [p]
  | None => Ret []
  end.

(** [packet] are the captured bytes, [len] is [header->len], a 32-bit field:
    the copy of [len - 14] bytes from offset 14 must stay inside. *)
Definition pcap_callback (len : Z) (packet : bytes) (packet_queue : list bytes)
    : outcome (list bytes) :=
  let ip_len := u32 (len - 14) in
  _ ← check (14 + ip_len <=? Z.of_nat (length packet)) OutOfBounds;
  Ret (packet_queue ++ [take (Z.to_nat ip_len) (drop 14 packet)]).

(** One round of [processor_loop]; [None] while the queue is empty. *)
Definition process_one (handlers : Dispatcher) (packet_queue : list bytes)
    : outcome (option (list printed * list bytes)) :=
  match packet_queue with
  | [] => Ret None
  | packet :: packet_queue => ps ← dispatch_packet handlers packet; Ret (Some (ps, packet_queue))
  end.

(** ** Properties *)

Definition be16 (n : Z) : bytes := [n / 256; n mod 256].

(** An IP packet: header of [4 * hl] bytes with the protocol, then the payload. *)
Record ip_packet (data : bytes) (proto hl : Z) (payload : bytes) : Prop := {
  ip_hl : data !! 0%nat = Some (64 + hl);
  ip_hl_range : 5 ≤ hl < 16;
  ip_proto : data !! 9%nat = Some proto;
  ip_payload : drop (Z.to_nat (4 * hl)) data = payload;
}.

Lemma vget_payload data proto hl payload k x : ip_packet data proto hl payload →
  payload !! k = Some x → vget data (hl * 4 + Z.of_nat k) = Ret x.
Proof.
  intros [_ Hr _ <-] Hk. apply vget_Ret. split; [lia|]. rewrite lookup_drop in Hk.
  rewrite <- Hk. f_equal. lia.
Qed.

Lemma port_at_payload data proto hl pre n rest : ip_packet data proto hl (pre ++ be16 n ++ rest) →
  port_at data (hl * 4 + Z.of_nat (length pre)) = Ret n.
Proof.
  intros Hip. unfold port_at.
  rewrite (vget_payload data proto hl _ (length pre) (n / 256) Hip) by by apply list_lookup_middle.
  rewrite bind_Ret. replace (hl * 4 + Z.of_nat (length pre) + 1) with (hl * 4 + Z.of_nat (S (length pre))) by lia.
  rewrite (vget_payload data proto hl _ (S (length pre)) (n mod 256) Hip).
  - simpl. f_equal. pose proof (Z.div_mod n 256). lia.
  - rewrite lookup_app_r by lia. by replace (S (length pre) - length pre)%nat with 1%nat by lia.
Qed.

Lemma dispatch_proto data proto hl payload : ip_packet data proto hl payload → payload ≠ [] →
  dispatch_packet new_Dispatcher data =
  match new_Dispatcher !! proto with
  | Some handle => p ← handle data (hl * 4); Ret [p]
  | None => Ret []
  end.
Proof.
  intros Hip Hne. pose proof Hip as [H0 Hr H9 Hp].
  assert (4 * hl < Z.of_nat (length data)) as Hlen.
  { destruct (decide (4 * hl < Z.of_nat (length data))); [done|]. rewrite drop_ge in Hp by lia. congruence. }
  unfold dispatch_packet, sizeof_ip. rewrite (proj2 (Z.ltb_ge _ _)) by lia.
  rewrite (proj2 (vget_Ret data 0 (64 + hl))), bind_Ret by (split; [lia|done]).
  assert (Z.land (64 + hl) 15 = hl) as ->.
  { change 15 with (Z.ones 4). rewrite Z.land_ones by lia.
    change (64 + hl) with (4 * 2 ^ 4 + hl). rewrite Z.add_comm, Z.mod_add, Z.mod_small by lia. done. }
  cbv zeta. rewrite (proj2 (vget_Ret data 9 proto)), bind_Ret by (split; [lia|done]). done.
Qed.

(** A packet whose IP header (with or without options) is followed by its
    transport header is dispatched to the handler of its protocol, which prints
    the ports, or the ICMP type and code, that the packet carries; packets of
    other protocols and those shorter than an IP header print nothing. *)
Theorem dispatch_correct data proto hl payload :
  ip_packet data proto hl payload → payload ≠ [] →
  (∀ s d rest, payload = be16 s ++ be16 d ++ rest →
     (proto = IPPROTO_TCP → dispatch_packet new_Dispatcher data = Ret [TCP s d]) ∧
     (proto = IPPROTO_UDP → dispatch_packet new_Dispatcher data = Ret [UDP s d])) ∧
  (∀ t c rest, payload = t :: c :: rest → proto = IPPROTO_ICMP →
     dispatch_packet new_Dispatcher data = Ret [ICMP t c]) ∧
  (proto ∉ [IPPROTO_TCP; IPPROTO_UDP; IPPROTO_ICMP] → dispatch_packet new_Dispatcher data = Ret []).
Proof.
  intros Hip Hne. rewrite (dispatch_proto data proto hl payload Hip Hne). split_and!.
  - intros s d rest ->. pose proof (port_at_payload data proto hl [] s (be16 d ++ rest) Hip) as E1.
    pose proof (port_at_payload data proto hl (be16 s) d rest Hip) as E2.
    change (Z.of_nat (length (be16 s))) with 2 in E2. change (Z.of_nat (length [])) with 0 in E1.
    rewrite Z.add_0_r in E1.
    split; intros ->.
    + change (new_Dispatcher !! IPPROTO_TCP) with (Some TCPHandler). unfold TCPHandler.
      by rewrite E1, bind_Ret, E2.
    + change (new_Dispatcher !! IPPROTO_UDP) with (Some UDPHandler). unfold UDPHandler.
      by rewrite E1, bind_Ret, E2.
  - intros t c rest -> ->. pose proof (vget_payload data _ hl _ 0 t Hip eq_refl) as E1.
    pose proof (vget_payload data _ hl _ 1 c Hip eq_refl) as E2.
    change (Z.of_nat 0) with 0 in E1. change (Z.of_nat 1) with 1 in E2. rewrite Z.add_0_r in E1.
    change (new_Dispatcher !! IPPROTO_ICMP) with (Some ICMPHandler). unfold ICMPHandler. by rewrite E1, bind_Ret, E2.
  - intros Hn. unfold new_Dispatcher. rewrite !lookup_insert_ne, lookup_singleton_ne by set_solver. done.
Qed.

(** A TCP packet with a 20-byte header. *)
Definition demo_packet : bytes :=
  [69; 0; 0; 40; 0; 0; 0; 0; 64; 6; 0; 0; 1; 2; 3; 4; 5; 6; 7; 8; 0; 80; 31; 144; 1; 2].

Lemma dispatch_correct_witness : dispatch_packet new_Dispatcher demo_packet = Ret [TCP 80 8080].
Proof.
  apply (dispatch_correct demo_packet 6 5 [0; 80; 31; 144; 1; 2]) with (rest := [1; 2]);
    [split; try reflexivity; lia|discriminate|reflexivity|reflexivity].
Defined.

(** Only the length of the fixed IP header is checked: with options that reach
    the end of the packet the handler reads past it. *)
Lemma dispatch_reads_past_end :
  dispatch_packet new_Dispatcher (79 :: replicate 8 0 ++ 6 :: replicate 10 0) = Err OutOfBounds.
Proof. reflexivity. Qed.

(** The callback copies [header->len - 14] bytes: too many when the capture was
    cut, and nearly 2^32 when the frame is shorter than an Ethernet header. *)
Lemma pcap_callback_spec len packet q : 0 ≤ len < 2 ^ 32 →
  pcap_callback len packet q =
  if (14 <=? len) && (len <=? Z.of_nat (length packet))
  then Ret (q ++ [take (Z.to_nat (len - 14)) (drop 14 packet)])
  else if (len <? 14) && (2 ^ 32 + len <=? Z.of_nat (length packet))
       then Ret (q ++ [take (Z.to_nat (2 ^ 32 + len - 14)) (drop 14 packet)]) else Err OutOfBounds.
Proof.
  intros Hlen. unfold pcap_callback, u32. destruct (decide (14 ≤ len)).
  - rewrite Z.mod_small by lia. rewrite (proj2 (Z.leb_le 14 len)), (proj2 (Z.ltb_ge len 14)) by lia. simpl andb.
    replace (14 + (len - 14)) with len by lia. by destruct (len <=? _).
  - replace ((len - 14) mod 2 ^ 32) with (2 ^ 32 + len - 14)
      by (rewrite <- (Z.mod_add (len - 14) 1), Z.mod_small by lia; lia).
    rewrite (proj2 (Z.leb_gt 14 len)), (proj2 (Z.ltb_lt len 14)) by lia. simpl andb.
    replace (14 + (2 ^ 32 + len - 14)) with (2 ^ 32 + len) by lia. by destruct (_ <=? _).
Qed.
