(* ===== verification/Searches.v ===== *)
(** * arista/bitonicPoint.cpp, arista/findPosition.cpp and invertBits.cpp *)

From stdpp Require Import base list sets numbers.
From Stdlib Require Import ZArith Lia.
From S2P Require Import Prelude.

(** ** bitonicPoint.cpp *)

(** The loop of [findMaximumLinear] from [i] on, [k] rounds left. *)
Fixpoint linear_loop (k : nat) (arr : list Z) (i result : Z) : outcome Z :=
  match k with
  | O => Ret result
  | S k =>
      a ← vget arr i;
      b ← vget arr (i - 1);
      if b <? a then linear_loop k arr (i + 1) a else Ret result
  end.

Definition findMaximumLinear (arr : list Z) : outcome Z :=
  result ← vget arr 0;
  let n := to_int (Z.of_nat (length arr)) in
  linear_loop (Z.to_nat (n - 1)) arr 1 result.

(** [arr[mid] > arr[mid - 1] && arr[mid] > arr[mid + 1]]: the second operand is
    evaluated only when the first holds. *)
Fixpoint search_loop (fuel : nat) (arr : list Z) (l r : Z) : outcome Z :=
  match fuel with
  | O => Err OutOfFuel
  | S fuel =>
      if negb (l <=? r) then Ret (-1) else
      let mid := l + Z.quot (r - l) 2 in
      a ← vget arr mid;
      b ← vget arr (mid - 1);
      if b <? a then
        c ← vget arr (mid + 1);
        if c <? a then Ret a else search_loop fuel arr (mid + 1) r
      else search_loop fuel arr l (mid - 1)
  end.

Definition findMaximum (arr : list Z) : outcome Z :=
  let n := to_int (Z.of_nat (length arr)) in
  search_loop (S (length arr)) arr 0 (n - 1).

(** Strictly increasing up to position [p], strictly decreasing from it. *)
Definition bitonic (arr : list Z) (p : nat) : Prop :=
  (p < length arr)%nat ∧
  ∀ i x y, arr !! i = Some x → arr !! S i = Some y → if decide (i < p)%nat then x < y else y < x.

(** The increasing and the decreasing part, for positions at a distance. *)
Lemma bitonic_below arr p : bitonic arr p → ∀ d i x y, (i + d ≤ p)%nat → arr !! i = Some x →
  arr !! (i + d)%nat = Some y → x ≤ y.
Proof.
  intros [Hp Hb]. induction d as [|d IH]; intros i x y Hd Hi Hj.
  { rewrite Nat.add_0_r in Hj. simplify_eq. lia. }
  destruct (lookup_lt_is_Some_2 arr (S i)) as [z Hz]; [lia|].
  pose proof (Hb i x z Hi Hz) as H. rewrite decide_True in H by lia.
  specialize (IH (S i) z y ltac:(lia) Hz ltac:(by rewrite <- Nat.add_succ_comm in Hj)). lia.
Qed.

Lemma bitonic_above arr p : bitonic arr p → ∀ d i x y, (p ≤ i)%nat → arr !! i = Some x →
  arr !! (i + d)%nat = Some y → y ≤ x.
Proof.
  intros [Hp Hb]. induction d as [|d IH]; intros i x y Hd Hi Hj.
  { rewrite Nat.add_0_r in Hj. simplify_eq. lia. }
  pose proof (lookup_lt_Some _ _ _ Hj).
  destruct (lookup_lt_is_Some_2 arr (S i)) as [z Hz]; [lia|].
  pose proof (Hb i x z Hi Hz) as H'. rewrite decide_False in H' by lia.
  specialize (IH (S i) z y ltac:(lia) Hz ltac:(by rewrite <- Nat.add_succ_comm in Hj)). lia.
Qed.

Lemma bitonic_max arr p m : bitonic arr p → arr !! p = Some m → ∀ x, x ∈ arr → x ≤ m.
Proof.
  intros Hb Hm x [i Hi]%list_elem_of_lookup. destruct (decide (i ≤ p)%nat).
  - apply (bitonic_below arr p Hb (p - i) i x m); [lia|done|]. by replace (i + (p - i))%nat with p by lia.
  - apply (bitonic_above arr p Hb (i - p) p m x); [lia|done|]. by replace (p + (i - p))%nat with i by lia.
Qed.

Lemma linear_loop_spec arr p m k : bitonic arr p → arr !! p = Some m → ∀ i x, (i ≤ p)%nat →
  (S i + k = length arr)%nat → arr !! i = Some x → linear_loop k arr (Z.of_nat (S i)) x = Ret m.
Proof.
  intros Hb Hm. pose proof (lookup_lt_Some _ _ _ Hm) as Hp.
  induction k as [|k IH]; intros i x Hi Hk Hx; cbn [linear_loop].
  { assert (i = p) as -> by lia. congruence. }
  destruct (lookup_lt_is_Some_2 arr (S i)) as [y Hy]; [lia|].
  rewrite (proj2 (vget_Ret arr (Z.of_nat (S i)) y)), bind_Ret by (rewrite Nat2Z.id; split; [lia|done]).
  replace (Z.of_nat (S i) - 1) with (Z.of_nat i) by lia.
  rewrite (proj2 (vget_Ret arr (Z.of_nat i) x)), bind_Ret by (rewrite Nat2Z.id; split; [lia|done]).
  pose proof (proj2 Hb i x y Hx Hy) as Hxy. case_decide.
  - rewrite (proj2 (Z.ltb_lt _ _)) by done. replace (Z.of_nat (S i) + 1) with (Z.of_nat (S (S i))) by lia.
    apply IH; [lia..|done].
  - rewrite (proj2 (Z.ltb_ge _ _)) by lia. assert (i = p) as -> by lia. congruence.
Qed.

(** The binary search keeps the peak between its bounds. *)
Lemma search_loop_spec arr p m fuel : bitonic arr p → arr !! p = Some m → ∀ l r x,
  l ≤ Z.of_nat p ≤ r → search_loop fuel arr l r = Ret x → x = m.
Proof.
  intros Hb Hm. induction fuel as [|fuel IH]; intros l r x Hp H; [done|]. cbn [search_loop] in H.
  rewrite (proj2 (Z.leb_le l r)) in H by lia. cbn [negb] in H. cbv zeta in H.
  set (mid := l + Z.quot (r - l) 2) in *.
  assert (l ≤ mid ≤ r) as Hmid.
  { subst mid. rewrite Z.quot_div_nonneg by lia. Z.to_euclidean_division_equations. lia. }
  clearbody mid. apply bind_Ret_inv in H as (a & Ha & H). apply bind_Ret_inv in H as (b & Hb' & H).
  apply vget_Ret in Ha as [Hm0 Ha]. apply vget_Ret in Hb' as [Hm1 Hb'].
  pose proof (proj2 Hb (Z.to_nat (mid - 1)) b a Hb') as Hba.
  replace (S (Z.to_nat (mid - 1))) with (Z.to_nat mid) in Hba by lia. specialize (Hba Ha).
  destruct (Z.ltb_spec b a) as [Hlt|Hge].
  - case_decide as Hd; [|lia]. apply bind_Ret_inv in H as (c & Hc & H). apply vget_Ret in Hc as [_ Hc].
    pose proof (proj2 Hb (Z.to_nat mid) a c Ha) as Hac.
    replace (S (Z.to_nat mid)) with (Z.to_nat (mid + 1)) in Hac by lia. specialize (Hac Hc).
    destruct (Z.ltb_spec c a) as [Hlt2|Hge2]; case_decide as Hd2; try lia.
    + injection H as <-. assert (Z.to_nat mid = p) as E by lia. rewrite E in Ha. congruence.
    + by apply (IH (mid + 1) r); [lia|].
  - case_decide as Hd; [lia|]. by apply (IH l (mid - 1)); [lia|].
Qed.

(** On a strictly bitonic array [findMaximumLinear] returns the maximum,
    and whenever the binary search returns without reading outside the array,
    it returns the same value. *)
Theorem bitonic_maximum arr p :
  bitonic arr p → Z.of_nat (length arr) < 2 ^ 31 →
  ∃ m, findMaximumLinear arr = Ret m ∧ m ∈ arr ∧ (∀ x, x ∈ arr → x ≤ m) ∧
    ∀ x, findMaximum arr = Ret x → x = m.
Proof.
  intros Hb Hlen. pose proof Hb as [Hp _]. destruct (lookup_lt_is_Some_2 arr p Hp) as [m Hm].
  assert (to_int (Z.of_nat (length arr)) = Z.of_nat (length arr)) as E.
  { unfold to_int. rewrite Z.mod_small; lia. }
  exists m. split_and!.
  - unfold findMaximumLinear. destruct (vget_total arr 0) as (x & -> & Hx); [lia|].
    rewrite bind_Ret, E. cbv zeta. apply (linear_loop_spec arr p m _ Hb Hm 0); [lia..|done].
  - by apply list_elem_of_lookup_2 in Hm.
  - by apply (bitonic_max arr p).
  - intros x. unfold findMaximum. rewrite E. cbv zeta. apply (search_loop_spec arr p m); [done..|lia].
Qed.

Lemma bitonic_maximum_witness :
  ∃ m, findMaximumLinear [1; 2; 4; 5; 7; 8; 3] = Ret m ∧ ∀ x, findMaximum [1; 2; 4; 5; 7; 8; 3] = Ret x → x = m.
Proof.
  destruct (bitonic_maximum [1; 2; 4; 5; 7; 8; 3] 5) as (m & E & _ & _ & H).
  - split; [simpl; lia|]. intros i x y. do 7 (destruct i as [|i]; [vm_compute; intros; simplify_eq; done|]).
    simpl. done.
  - reflexivity.
  - exists m. split; [exact E|exact H].
Defined.

(** The binary search reads [arr[-1]] and [arr[n]]: on the increasing and the
    decreasing example of the source, and also for a peak inside the array. *)
Lemma findMaximum_out_of_bounds :
  findMaximum [10; 20; 30; 40; 50] = Err OutOfBounds ∧
  findMaximum [120; 100; 80; 20; 0] = Err OutOfBounds ∧
  findMaximum [1; 9; 5; 4; 3] = Err OutOfBounds ∧
  findMaximum [1; 2; 4; 5; 7; 8; 3] = Ret 8.
Proof. repeat split; reflexivity. Qed.

(** ** findPosition.cpp *)

Inductive tree := Null | Node (data : Z) (lt rt : tree).

(** The loop, by recursion on the tree below [current]. *)
Fixpoint position_loop (current : tree) (key level : Z) : Z :=
  match current with
  | Null => -1
  | Node data lt rt =>
      if key =? data then level
      else if key <? data then position_loop lt key (level + 1)
      else position_loop rt key (level + 1)
  end.

Definition findPosition (root : tree) (key : Z) : Z := position_loop root key 1.

Fixpoint elements (t : tree) : list Z :=
  match t with Null => [] | Node d l r => elements l ++ d :: elements r end.

(** Binary search tree without duplicates. *)
Fixpoint bst (t : tree) : Prop :=
  match t with
  | Null => True
  | Node d l r => bst l ∧ bst r ∧ (∀ x, x ∈ elements l → x < d) ∧ (∀ x, x ∈ elements r → d < x)
  end.

(** [at_level t key n]: the key is in a node [n] levels below the root. *)
Inductive at_level : tree → Z → Z → Prop :=
  | at_root d l r : at_level (Node d l r) d 0
  | at_left d l r key n : at_level l key n → at_level (Node d l r) key (n + 1)
  | at_right d l r key n : at_level r key n → at_level (Node d l r) key (n + 1).

Lemma position_loop_spec t key : ∀ level, bst t →
  (key ∈ elements t ∧ ∃ n, 0 ≤ n ∧ at_level t key n ∧ position_loop t key level = level + n) ∨
  (key ∉ elements t ∧ position_loop t key level = -1).
Proof.
  induction t as [|d l IHl r IHr]; intros level Hb; simpl; [right; split; [apply not_elem_of_nil|done]|].
  destruct Hb as (Hl & Hr & Hlt & Hgt). rewrite elem_of_app, elem_of_cons.
  destruct (Z.eqb_spec key d) as [->|Hne].
  { left. split; [by right; left|]. exists 0. split_and!; [lia|constructor|lia]. }
  destruct (Z.ltb_spec key d) as [Hk|Hk].
  - destruct (IHl (level + 1) Hl) as [(Hin & n & H0 & Ha & ->)|[Hout ->]].
    + left. split; [by left|]. exists (n + 1). split_and!; [lia|by constructor|lia].
    + right. split; [|done]. intros [?|[?|Hx]]; [done..|]. specialize (Hgt key Hx). lia.
  - destruct (IHr (level + 1) Hr) as [(Hin & n & H0 & Ha & ->)|[Hout ->]].
    + left. split; [by right; right|]. exists (n + 1). split_and!; [lia|by constructor|lia].
    + right. split; [|done]. intros [Hx|[?|?]]; [|done..]. specialize (Hlt key Hx). lia.
Qed.

(** [findPosition] answers the level of the key, counted from 1, or -1 when it
    is not in the tree. *)
Lemma findPosition_level t key : bst t →
  (key ∈ elements t ∧ ∃ n, at_level t key n ∧ findPosition t key = n + 1) ∨
  (key ∉ elements t ∧ findPosition t key = -1).
Proof.
  intros Hb. destruct (position_loop_spec t key 1 Hb) as [(Hin & n & _ & Ha & E)|[Hout E]].
  - left. split; [done|]. exists n. split; [done|]. unfold findPosition. lia.
  - by right.
Qed.

(** The tree of [main]: the rank of 0 is 1, its level 5; the comment there
    expects 3. *)
Definition demo_tree : tree :=
  Node 5 (Node 3 (Node 2 (Node 1 (Node 0 Null Null) Null) Null) (Node 4 Null Null))
         (Node 7 (Node 6 Null Null) (Node 8 Null Null)).

Lemma findPosition_demo : findPosition demo_tree 0 = 5 ∧ elements demo_tree = [0; 1; 2; 3; 4; 5; 6; 7; 8].
Proof. split; reflexivity. Qed.

(** ** invertBits.cpp *)

(** [while (n) { bits++; n = n >> 1; }] *)
Fixpoint bits_loop (fuel : nat) (n bits : Z) : outcome Z :=
  match fuel with
  | O => Err OutOfFuel
  | S fuel => if n =? 0 then Ret bits else bits_loop fuel (Z.shiftr n 1) (bits + 1)
  end.

(** [num ^ (1 << bits) - 1], where a shift or a difference that does not fit in
    an [int] is undefined. *)
Definition invertBits (fuel : nat) (num : Z) : outcome Z :=
  bits ← bits_loop fuel num 0;
  m ← int (Z.shiftl 1 bits);
  m ← int (m - 1);
  Ret (Z.lxor num m).

Lemma bits_loop_spec fuel : ∀ n b, 0 ≤ n < 2 ^ Z.of_nat fuel → 0 ≤ b →
  ∃ k, bits_loop (S fuel) n b = Ret (b + k) ∧ 0 ≤ k ≤ Z.of_nat fuel ∧ n < 2 ^ k ∧ (n ≠ 0 → 2 ^ (k - 1) ≤ n).
Proof.
  induction fuel as [|fuel IH]; intros n b Hn Hb.
  { exists 0. assert (n = 0) as -> by (simpl in Hn; lia). simpl. split; [f_equal; lia|lia]. }
  cbn [bits_loop]. destruct (Z.eqb_spec n 0) as [->|Hne].
  { exists 0. split; [f_equal; lia|]. split; [lia|]. split; [simpl; lia|done]. }
  rewrite Nat2Z.inj_succ, Z.pow_succ_r in Hn by lia.
  rewrite Z.shiftr_div_pow2 by lia. change (2 ^ 1) with 2.
  destruct (IH (n / 2) (b + 1)) as (k & E & Hk & H1 & H2); [|lia|].
  { split; [apply Z.div_pos; lia|apply Z.div_lt_upper_bound; lia]. }
  cbn [bits_loop] in E. rewrite E. exists (k + 1). split; [f_equal; lia|]. split; [lia|].
  pose proof (Z.div_mod n 2 ltac:(lia)). pose proof (Z.mod_pos_bound n 2 ltac:(lia)). split.
  - rewrite Z.pow_add_r by lia. change (2 ^ 1) with 2. lia.
  - intros _. replace (k + 1 - 1) with k by lia. destruct (decide (n / 2 = 0)) as [E0|E0].
    + rewrite E0 in *. destruct (decide (k = 0)) as [->|]; [simpl; lia|].
      exfalso. destruct fuel as [|fuel]; [simpl in *; lia|]. cbn [bits_loop] in E. simpl in E.
      injection E as E. lia.
    + specialize (H2 E0). replace k with (Z.succ (k - 1)) by lia.
      destruct (decide (k = 0)) as [->|]; [simpl in H1; lia|]. rewrite Z.pow_succ_r by lia. lia.
Qed.

Lemma lxor_ones n k : 0 ≤ k → 0 ≤ n < 2 ^ k → Z.lxor n (2 ^ k - 1) = 2 ^ k - 1 - n.
Proof.
  intros Hk Hn. replace (2 ^ k - 1) with (Z.ones k) by (rewrite Z.ones_equiv; lia).
  assert (∀ i, 0 ≤ i → k ≤ i → Z.testbit n i = false) as Hhigh.
  { intros i Hi Hki. destruct (decide (n = 0)) as [->|]; [apply Z.bits_0|].
    apply Z.bits_above_log2; [lia|]. apply Z.log2_lt_pow2; [lia|].
    apply Z.lt_le_trans with (2 ^ k); [lia|apply Z.pow_le_mono_r; lia]. }
  rewrite Z.sub_nocarry_ldiff.
  - apply Z.bits_inj'. intros i Hi. rewrite Z.lxor_spec, Z.ldiff_spec.
    destruct (decide (i < k)).
    + rewrite Z.ones_spec_low by lia. by destruct (Z.testbit n i).
    + rewrite Z.ones_spec_high, Hhigh by lia. done.
  - apply Z.bits_inj'. intros i Hi. rewrite Z.ldiff_spec, Z.bits_0.
    destruct (decide (i < k)); [rewrite Z.ones_spec_low by lia; by rewrite andb_false_r|].
    by rewrite Hhigh by lia.
Qed.

(** For [0 <= num < 2^30] the result is the complement of [num] within its
    significant bits. *)
Lemma invertBits_complement num : 0 ≤ num < 2 ^ 30 →
  ∃ k, num < 2 ^ k ∧ (num ≠ 0 → 2 ^ (k - 1) ≤ num) ∧ invertBits 31 num = Ret (2 ^ k - 1 - num).
Proof.
  intros Hn. destruct (bits_loop_spec 30 num 0) as (k & E & Hk & H1 & H2); [simpl in *; lia|lia|].
  exists k. split; [done|]. split; [done|]. unfold invertBits. rewrite E, bind_Ret, Z.add_0_l.
  assert (2 ^ k ≤ 2 ^ 30) by (apply Z.pow_le_mono_r; lia).
  assert (∀ z, 0 ≤ z ≤ 2 ^ 30 → int z = Ret z) as Hint.
  { intros z Hz. unfold int, int_ok, INT_MIN, INT_MAX.
    rewrite (proj2 (Z.leb_le _ _)), (proj2 (Z.leb_le _ _)) by lia. done. }
  rewrite Z.shiftl_mul_pow2, Z.mul_1_l, Hint, bind_Ret, Hint, bind_Ret by lia.
  by rewrite lxor_ones by lia.
Qed.

(** A negative number never becomes 0 by arithmetic shifts: the loop does not
    end; and from [2^30] on the mask overflows. *)
Lemma invertBits_negative fuel num : num < 0 → invertBits fuel num = Err OutOfFuel.
Proof.
  intros Hn. unfold invertBits. enough (∀ b, bits_loop fuel num b = Err OutOfFuel) as -> by done.
  revert num Hn. induction fuel as [|fuel IH]; intros num Hn b; simpl; [done|].
  rewrite (proj2 (Z.eqb_neq num 0)) by lia. apply IH. by apply Z.shiftr_neg.
Qed.

Lemma invertBits_overflow : invertBits 40 (2 ^ 30) = Err SignedOverflow ∧ invertBits 40 1365 = Ret 682.
Proof. split; reflexivity. Qed.
