(* ===== verification/LruSpec.v ===== *)
(** * Least-recently-used caches: the specification and the interface

    The abstract cache is the list of its bindings from the most to the least
    recently used one.  [LruCache] is what an implementation promises: its
    lookups and stores simulate those of the abstract cache.  A client only
    needs the interface: [lru_run_spec] says that an implementation answers
    every sequence of operations like the abstract cache, and
    [spec_keys_recent] says what that cache holds: the most recently used keys,
    as many as its capacity. *)

From stdpp Require Import base list gmap numbers.
From Stdlib Require Import ZArith Lia.
From S2P Require Import Prelude.

(** ** The abstract cache *)

Section Spec.
Context {V : Type}.
Abbreviation bindings := (list (Z * V)).

Fixpoint find_binding (k : Z) (vs : bindings) : option V :=
  match vs with
  | [] => None
  | (k', v) :: vs => if k' =? k then Some v else find_binding k vs
  end.

Fixpoint drop_binding (k : Z) (vs : bindings) : bindings :=
  match vs with
  | [] => []
  | (k', v) :: vs => if k' =? k then vs else (k', v) :: drop_binding k vs
  end.

Definition spec_get (k : Z) (vs : bindings) : option V * bindings :=
  match find_binding k vs with
  | Some v => (Some v, (k, v) :: drop_binding k vs)
  | None => (None, vs)
  end.

Definition spec_put (cap : nat) (k : Z) (v : V) (vs : bindings) : bindings :=
  match find_binding k vs with
  | Some _ => (k, v) :: drop_binding k vs
  | None => (k, v) :: take (cap - 1) vs
  end.

Lemma find_binding_Some k v vs : find_binding k vs = Some v →
  ∃ l r, vs = l ++ (k, v) :: r ∧ k ∉ l.*1 ∧ drop_binding k vs = l ++ r.
Proof.
  induction vs as [|[k' v'] vs IH]; simpl; [done|]. destruct (Z.eqb_spec k' k) as [->|Hne].
  - intros [= ->]. exists [], vs. split_and!; [done|set_solver|done].
  - intros (l & r & -> & Hl & Hd)%IH. exists ((k', v') :: l), r. rewrite Hd. split_and!; [done|set_solver|done].
Qed.

Lemma find_binding_None k vs : find_binding k vs = None ↔ k ∉ vs.*1.
Proof.
  induction vs as [|[k' v'] vs IH]; csimpl; [set_solver|]. destruct (Z.eqb_spec k' k) as [->|Hne].
  - set_solver.
  - rewrite IH. set_solver.
Qed.

Lemma find_binding_unique k v l r : k ∉ l.*1 →
  find_binding k (l ++ (k, v) :: r) = Some v ∧ drop_binding k (l ++ (k, v) :: r) = l ++ r.
Proof.
  induction l as [|[k' v'] l IH]; csimpl; intros Hk.
  - by rewrite Z.eqb_refl.
  - apply not_elem_of_cons in Hk as [Hne Hk]. destruct (Z.eqb_spec k' k) as [->|_]; [done|].
    destruct (IH Hk) as [-> ->]. done.
Qed.

Lemma drop_binding_keys k vs : (drop_binding k vs).*1 ⊆ vs.*1.
Proof. induction vs as [|[k' v'] vs IH]; csimpl; [done|]. destruct (k' =? k); csimpl; set_solver. Qed.

End Spec.

(** ** Operations and their runs *)

Inductive lru_op (V : Type) := Get (k : Z) | Put (k : Z) (v : V).
Arguments Get {V} k.
Arguments Put {V} k v.

Fixpoint spec_run {V} (cap : nat) (os : list (lru_op V)) (vs : list (Z * V)) : list (option V) * list (Z * V) :=
  match os with
  | [] => ([], vs)
  | Get k :: os =>
      let '(r, vs) := spec_get k vs in let '(rs, vs) := spec_run cap os vs in (r :: rs, vs)
  | Put k v :: os => spec_run cap os (spec_put cap k v vs)
  end.

(** ** What the abstract cache holds *)

(** The keys that a run uses, the last one first: a store uses its key, a
    lookup does when it finds it. *)
Fixpoint uses {V} (cap : nat) (os : list (lru_op V)) (vs : list (Z * V)) (acc : list Z) : list Z :=
  match os with
  | [] => acc
  | Get k :: os =>
      let '(r, vs) := spec_get k vs in
      uses cap os vs (match r with Some _ => k :: acc | None => acc end)
  | Put k v :: os => uses cap os (spec_put cap k v vs) (k :: acc)
  end.

(** Distinct keys, by their first occurrence. *)
Fixpoint distinct (l : list Z) : list Z :=
  match l with [] => [] | k :: l => k :: filter (.≠ k) (distinct l) end.

Lemma filter_ne_notin (k : Z) (l : list Z) : k ∉ l → filter (.≠ k) l = l.
Proof.
  induction l as [|x l IH]; intros Hk; [done|]. apply not_elem_of_cons in Hk as [Hx Hk].
  rewrite filter_cons_True by done. by rewrite IH.
Qed.

Lemma take_filter_in (k : Z) n (l : list Z) : NoDup l → k ∈ take n l →
  take (n - 1) (filter (.≠ k) l) = filter (.≠ k) (take n l).
Proof.
  revert n. induction l as [|x l IH]; intros [|n] Hnd Hk; simpl in *; try set_solver.
  apply list.NoDup_cons in Hnd as [Hx Hnd]. rewrite Nat.sub_0_r. destruct (decide (x = k)) as [->|Hne].
  - rewrite !filter_cons_False by tauto. rewrite !filter_ne_notin; [done| |done].
    intros (i & Hi & _)%elem_of_take. apply Hx. by eapply list_elem_of_lookup_2.
  - rewrite !filter_cons_True by done. assert (k ∈ take n l) as Hk' by set_solver.
    destruct n as [|n]; [simpl in Hk'; set_solver|]. simpl. f_equal.
    rewrite <- (IH (S n)) by done. simpl. by rewrite Nat.sub_0_r.
Qed.

Lemma take_filter_notin (k : Z) n (l : list Z) : k ∉ take (S n) l → NoDup l → take n (filter (.≠ k) l) = take n l.
Proof.
  revert n. induction l as [|x l IH]; intros [|n] Hk Hnd; simpl in *; try done.
  apply not_elem_of_cons in Hk as [Hx Hk]. apply list.NoDup_cons in Hnd as [_ Hnd].
  rewrite filter_cons_True by done. simpl. f_equal. by apply IH.
Qed.

Lemma distinct_NoDup l : NoDup (distinct l).
Proof.
  induction l as [|k l IH]; simpl; constructor; [|by apply list.NoDup_filter].
  rewrite list_elem_of_filter. tauto.
Qed.

Section Recency.
Context {V : Type} (cap : nat) (Hcap : (1 ≤ cap)%nat).

(** The keys of the cache are the [cap] most recently used ones. *)
Definition recent (vs : list (Z * V)) (us : list Z) : Prop := vs.*1 = take cap (distinct us).

Lemma drop_binding_fst (k : Z) (v : V) vs : find_binding k vs = Some v → NoDup vs.*1 →
  (drop_binding k vs).*1 = filter (.≠ k) vs.*1.
Proof.
  intros (l & r & -> & Hl & ->)%find_binding_Some Hnd. rewrite !fmap_app, fmap_cons in *. apply list.NoDup_app in Hnd as (_ & _ & Hr). apply list.NoDup_cons in Hr as [Hk _].
  rewrite list.filter_app, filter_cons_False by tauto. by rewrite !filter_ne_notin.
Qed.

Lemma recent_hit (k : Z) (v w : V) vs us : find_binding k vs = Some v → recent vs us →
  recent ((k, w) :: drop_binding k vs) (k :: us).
Proof.
  unfold recent. intros Hf Hr. assert (NoDup vs.*1) as Hnd.
  { rewrite Hr. apply (sublist_NoDup _ (distinct us)); [apply distinct_NoDup|apply sublist_take]. }
  assert (k ∈ vs.*1) as Hk.
  { destruct (decide (k ∈ vs.*1)) as [|Hn]; [done|]. apply find_binding_None in Hn. congruence. }
  csimpl. rewrite (drop_binding_fst k v vs Hf Hnd), Hr.
  destruct cap as [|n] eqn:E; [lia|]. simpl. f_equal.
  rewrite <- (take_filter_in k (S n)); [simpl; by rewrite Nat.sub_0_r|apply distinct_NoDup|by rewrite <- Hr].
Qed.

Lemma recent_miss (k : Z) (v : V) vs us : find_binding k vs = None → recent vs us →
  recent ((k, v) :: take (cap - 1) vs) (k :: us).
Proof.
  unfold recent. intros Hf%find_binding_None Hr. csimpl. rewrite fmap_take, Hr.
  destruct cap as [|n] eqn:E; [lia|]. simpl. rewrite Nat.sub_0_r. f_equal.
  rewrite take_filter_notin; [|by rewrite <- Hr|apply distinct_NoDup]. rewrite take_take. f_equal. lia.
Qed.

Lemma spec_run_recent os : ∀ (vs : list (Z * V)) us, recent vs us →
  recent (snd (spec_run cap os vs)) (uses cap os vs us).
Proof.
  induction os as [|[k|k v] os IH]; intros vs us Hr; simpl; [done| |].
  - unfold spec_get. destruct (find_binding k vs) as [v|] eqn:Hf.
    + specialize (IH ((k, v) :: drop_binding k vs) (k :: us)). destruct (spec_run _ _ _). apply IH.
      by eapply recent_hit.
    + specialize (IH vs us Hr). by destruct (spec_run _ _ _).
  - apply IH. unfold spec_put. destruct (find_binding k vs) eqn:Hf; [by eapply recent_hit|by apply recent_miss].
Qed.

End Recency.

Lemma spec_keys_recent {V} cap (os : list (lru_op V)) : (1 ≤ cap)%nat →
  (snd (spec_run cap os [])).*1 = take cap (distinct (uses cap os [] [])).
Proof. intros Hcap. apply spec_run_recent; [done|]. unfold recent. simpl. by rewrite take_nil. Qed.

(** ** The interface *)

Class LruCache (C V : Type) := {
  lru_cap : nat;
  lru_key : Z → bool;
  lru_rep : C → list (Z * V) → Prop;
  lru_lookup : Z → C → outcome (option V * C);
  lru_store : Z → V → C → outcome C;
  lru_lookup_spec c vs k : lru_rep c vs → lru_key k = true →
    ∃ c', lru_lookup k c = Ret (fst (spec_get k vs), c') ∧ lru_rep c' (snd (spec_get k vs));
  lru_store_spec c vs k v : lru_rep c vs → lru_key k = true →
    ∃ c', lru_store k v c = Ret c' ∧ lru_rep c' (spec_put lru_cap k v vs)
}.
Arguments lru_rep {C V _} c vs.
Arguments lru_lookup {C V _} k c.
Arguments lru_store {C V _} k v c.

Section Client.
Context `{LruCache C V}.

Fixpoint lru_run (os : list (lru_op V)) (c : C) : outcome (list (option V) * C) :=
  match os with
  | [] => Ret ([], c)
  | Get k :: os => '(r, c) ← lru_lookup k c; '(rs, c) ← lru_run os c; Ret (r :: rs, c)
  | Put k v :: os => c ← lru_store k v c; lru_run os c
  end.

Definition op_key (o : lru_op V) : Z := match o with Get k => k | Put k _ => k end.

Lemma lru_run_spec os : ∀ c vs, lru_rep c vs → Forall (λ o, lru_key (op_key o) = true) os →
  ∃ c', lru_run os c = Ret (fst (spec_run lru_cap os vs), c') ∧ lru_rep c' (snd (spec_run lru_cap os vs)).
Proof.
  induction os as [|o os IH]; intros c vs Hr Hk; simpl; [eauto|].
  apply list.Forall_cons in Hk as [Hk Hks]. destruct o as [k|k v]; simpl in *.
  - destruct (lru_lookup_spec c vs k Hr Hk) as (c1 & -> & Hr1). rewrite bind_Ret.
    destruct (spec_get k vs) as [r vs1]. destruct (IH c1 vs1 Hr1 Hks) as (c2 & -> & Hr2). rewrite bind_Ret.
    destruct (spec_run lru_cap os vs1) as [rs vs2]. simpl. eauto.
  - destruct (lru_store_spec c vs k v Hr Hk) as (c1 & -> & Hr1). rewrite bind_Ret. by apply IH.
Qed.

End Client.
