(* ===== verification/ProbeTable.v ===== *)
(** * Open addressing with linear probing

    The hash table that lruCache/simple/lruCacheWithHashing.c and
    lruCache/packet/hash.c share: an array of node indices, -1 for an empty
    slot, searched from the home slot of a key on.  A removal empties a slot and
    inserts the rest of its cluster again, so that no search is cut short.

    The two programs differ in the size of the table, in the hash function and
    in how they reduce a position to a slot; [Geometry] holds what they have in
    common.  The loops are written over it once; the nodes they look at are
    reached through [hit] ([nodes[i].used && nodes[i].key == key]) and
    [node_key] ([nodes[i].key]). *)

From stdpp Require Import base list gmap numbers.
From Stdlib Require Import ZArith Lia.
From S2P Require Import Prelude.

Class Geometry := {
  SIZE : Z;
  home : Z → Z;
  slot_at : Z → Z → Z;
  SIZE_pos : 0 < SIZE;
  home_range k : 0 ≤ home k < SIZE;
  slot_at_mod b p : 0 ≤ b < SIZE → 0 ≤ p ≤ SIZE → slot_at b p = (b + p) mod SIZE
}.

Section Probing.
Context `{Geometry}.
Context (hit : Z → Z → outcome bool) (node_key : Z → outcome Z).

(** [for (probe = ...; probe < SIZE; ++probe)], with [n] rounds left. *)
Fixpoint find_loop (n : nat) (probe base key : Z) (table : list Z) : outcome Z :=
  match n with
  | O => Ret (-1)
  | S n =>
      node ← vget table (slot_at base probe);
      if node =? -1 then Ret (-1) else
      h ← hit node key;
      if h : bool then Ret node else find_loop n (probe + 1) base key table
  end.

Fixpoint insert_loop (n : nat) (probe base node_index : Z) (table : list Z) : outcome (bool * list Z) :=
  match n with
  | O => Ret (false, table)
  | S n =>
      let slot := slot_at base probe in
      node ← vget table slot;
      if node =? -1 then (table ← vset table slot node_index; Ret (true, table))
      else insert_loop n (probe + 1) base node_index table
  end.

Definition probe_find (key : Z) (table : list Z) : outcome Z :=
  find_loop (Z.to_nat SIZE) 0 (home key) key table.
Definition probe_insert (key node_index : Z) (table : list Z) : outcome (bool * list Z) :=
  insert_loop (Z.to_nat SIZE) 0 (home key) node_index table.

(** The [while] loop that inserts the rest of the cluster again. *)
Fixpoint reinsert_loop (fuel : nat) (next_slot : Z) (table : list Z) : outcome (list Z) :=
  match fuel with
  | O => Err OutOfFuel
  | S fuel =>
      re_node ← vget table next_slot;
      if re_node =? -1 then Ret table else
      table ← vset table next_slot (-1);
      k ← node_key re_node;
      '(_, table) ← probe_insert k re_node table;
      reinsert_loop fuel (slot_at next_slot 1) table
  end.

Fixpoint remove_loop (n : nat) (probe base key : Z) (table : list Z) : outcome (bool * list Z) :=
  match n with
  | O => Ret (false, table)
  | S n =>
      let slot := slot_at base probe in
      node ← vget table slot;
      if node =? -1 then Ret (false, table) else
      h ← hit node key;
      if h : bool then
        table ← vset table slot (-1);
        table ← reinsert_loop (Z.to_nat SIZE) (slot_at slot 1) table;
        Ret (true, table)
      else remove_loop n (probe + 1) base key table
  end.

Definition probe_remove (key : Z) (table : list Z) : outcome (bool * list Z) :=
  remove_loop (Z.to_nat SIZE) 0 (home key) key table.

(** ** Cyclic positions *)

(** The slot at any integer position. *)
Definition look (t : list Z) (z : Z) : option Z := t !! Z.to_nat (z mod SIZE).

Lemma slot_mod_range z : 0 ≤ z mod SIZE < SIZE.
Proof. apply Z.mod_pos_bound, SIZE_pos. Qed.

Lemma look_mod t y z : y mod SIZE = z mod SIZE → look t y = look t z.
Proof. unfold look. by intros ->. Qed.

Lemma look_mod_mod t y : look t (y mod SIZE) = look t y.
Proof. apply look_mod, Z.mod_mod. pose proof SIZE_pos. lia. Qed.

Lemma look_total t z : Z.of_nat (length t) = SIZE → ∃ i, look t z = Some i.
Proof.
  intros Hl. pose proof (slot_mod_range z). destruct (lookup_lt_is_Some_2 t (Z.to_nat (z mod SIZE))) as [i Hi]; [lia|].
  by exists i.
Qed.

(** Positions less than [SIZE] apart are the same slot only if they are equal. *)
Lemma window_inj y z : y mod SIZE = z mod SIZE → - SIZE < y - z < SIZE → y = z.
Proof.
  intros Heq Hr. pose proof SIZE_pos as Hpos. assert (SIZE ≠ 0) as Hne by lia.
  pose proof (Z.div_mod y SIZE Hne). pose proof (Z.div_mod z SIZE Hne).
  assert (y - z = SIZE * (y / SIZE - z / SIZE)) as Hq by lia. set (q := y / SIZE - z / SIZE) in *.
  assert (q < 1) by nia. assert (-1 < q) by nia. assert (q = 0) by lia. nia.
Qed.

(** Every position has a copy in the window that starts behind [e]. *)
Lemma window_shift e z : ∃ y, e < y ≤ e + SIZE ∧ y mod SIZE = z mod SIZE.
Proof.
  pose proof SIZE_pos. exists (e + 1 + (z - e - 1) mod SIZE). pose proof (slot_mod_range (z - e - 1)). split; [lia|].
  rewrite Z.add_mod_idemp_r by lia. f_equal. lia.
Qed.

Lemma look_insert t y z v : Z.of_nat (length t) = SIZE →
  look (<[Z.to_nat (y mod SIZE) := v]> t) z = if decide (z mod SIZE = y mod SIZE) then Some v else look t z.
Proof.
  intros Hl. unfold look. pose proof (slot_mod_range y). pose proof (slot_mod_range z). case_decide as E.
  - rewrite E. apply list_lookup_insert_eq. lia.
  - apply list_lookup_insert_ne. lia.
Qed.

Lemma vget_look t z i : look t z = Some i → vget t (z mod SIZE) = Ret i.
Proof. intros Hi. apply vget_Ret. pose proof (slot_mod_range z). split; [lia|done]. Qed.

Lemma vset_look (t : list Z) z v : Z.of_nat (length t) = SIZE →
  vset t (z mod SIZE) v = Ret (<[Z.to_nat (z mod SIZE) := v]> t).
Proof. intros Hl. apply vset_total. pose proof (slot_mod_range z). lia. Qed.

(** ** The invariant *)

(** [keys] are the nodes of the table with their keys.  Each of them sits at a
    position [y] not before the position [a] of its home slot, with no empty
    slot in between. *)
Definition reachable (t : list Z) (k i : Z) : Prop :=
  ∃ d, 0 ≤ d < SIZE ∧ look t (home k + d) = Some i ∧ ∀ d', 0 ≤ d' < d → look t (home k + d') ≠ Some (-1).

Record probe_wf (t : list Z) (keys : gmap Z Z) : Prop := {
  wf_length : Z.of_nat (length t) = SIZE;
  wf_nodes y i : look t y = Some i → i ≠ -1 → is_Some (keys !! i);
  wf_unique y z i : look t y = Some i → look t z = Some i → i ≠ -1 → y mod SIZE = z mod SIZE;
  wf_reach i k : keys !! i = Some k → i ≠ -1 ∧ reachable t k i
}.

Lemma probe_wf_empty t : Z.of_nat (length t) = SIZE → (∀ y i, look t y = Some i → i = -1) → probe_wf t ∅.
Proof.
  intros Hl He. split; [done|intros y i Hy Hi; by apply He in Hy|intros y z i Hy _ Hi; by apply He in Hy|].
  intros i k Hk. by rewrite lookup_empty in Hk.
Qed.

(** Fewer nodes than slots leave a slot empty. *)
Lemma probe_wf_hole t keys : probe_wf t keys → Z.of_nat (size keys) < SIZE → ∃ e, look t e = Some (-1).
Proof.
  intros Hwf Hsz. destruct (decide (-1 ∈ t)) as [Hin|Hno].
  - apply list_elem_of_lookup in Hin as [n Hn]. exists (Z.of_nat n). pose proof (lookup_lt_Some _ _ _ Hn).
    pose proof (wf_length _ _ Hwf). unfold look. rewrite Z.mod_small by lia. by rewrite Nat2Z.id.
  - exfalso. assert (∀ n i, t !! n = Some i → look t (Z.of_nat n) = Some i ∧ i ≠ -1) as Hlook.
    { intros n i Hn. pose proof (lookup_lt_Some _ _ _ Hn). pose proof (wf_length _ _ Hwf). unfold look.
      rewrite Z.mod_small, Nat2Z.id by lia. split; [done|]. intros ->. by apply list_elem_of_lookup_2 in Hn. }
    assert (NoDup t) as Hnd.
    { apply NoDup_alt. intros n m i Hn Hm. destruct (Hlook n i Hn) as [H1 Hi], (Hlook m i Hm) as [H2 _].
      pose proof (wf_unique _ _ Hwf _ _ _ H1 H2 Hi) as E. pose proof (lookup_lt_Some _ _ _ Hn).
      pose proof (lookup_lt_Some _ _ _ Hm). pose proof (wf_length _ _ Hwf).
      rewrite !Z.mod_small in E by lia. lia. }
    assert (list_to_set t ⊆ dom keys) as Hsub.
    { intros i Hi. apply elem_of_list_to_set, list_elem_of_lookup in Hi as [n Hn].
      destruct (Hlook n i Hn) as [H1 H2]. apply elem_of_dom. by eapply wf_nodes. }
    apply subseteq_size in Hsub. rewrite size_list_to_set, size_dom in Hsub by done.
    pose proof (wf_length _ _ Hwf). lia.
Qed.

(** The linear view of [reachable] behind an empty slot [e]. *)
Lemma reachable_window t k i e : reachable t k i → i ≠ -1 → look t e = Some (-1) →
  ∃ a y, e < a ∧ a ≤ y ∧ y < e + SIZE ∧ a mod SIZE = home k ∧ look t y = Some i ∧
    ∀ z, a ≤ z < y → look t z ≠ Some (-1).
Proof.
  intros (d & Hd & Hi & Hp) Hne He. destruct (window_shift e (home k)) as (a & Ha & Hmod).
  assert (∀ x, look t (a + x) = look t (home k + x)) as Hsh.
  { intros x. apply look_mod. pose proof SIZE_pos. rewrite <- Z.add_mod_idemp_l, Hmod, Z.add_mod_idemp_l by lia. done. }
  assert (a + d < e + SIZE) as Hlt.
  { destruct (Z.lt_ge_cases (a + d) (e + SIZE)) as [|Hge]; [done|]. exfalso.
    assert (look t (home k + (e + SIZE - a)) = Some (-1)) as Hbad.
    { rewrite <- Hsh. rewrite <- He. apply look_mod. replace (a + (e + SIZE - a)) with (e + 1 * SIZE) by lia.
      apply Z.mod_add. pose proof SIZE_pos. lia. }
    destruct (Z.eq_dec (e + SIZE - a) d) as [E|E]; [rewrite E, Hi in Hbad; congruence|].
    by apply (Hp (e + SIZE - a)); [lia|]. }
  exists a, (a + d). split_and!; [lia|lia|done| |by rewrite Hsh|].
  - rewrite Hmod. apply Z.mod_small, home_range.
  - intros z Hz. replace z with (a + (z - a)) by lia. rewrite Hsh. apply Hp. lia.
Qed.

Lemma window_reachable t k i a y : a ≤ y → y < a + SIZE → a mod SIZE = home k → look t y = Some i →
  (∀ z, a ≤ z < y → look t z ≠ Some (-1)) → reachable t k i.
Proof.
  intros Hay Hy Ha Hi Hp. exists (y - a).
  assert (∀ x, look t (home k + x) = look t (a + x)) as Hsh.
  { intros x. apply look_mod. pose proof SIZE_pos. rewrite <- Ha, Z.add_mod_idemp_l by lia. done. }
  split; [lia|]. split; [rewrite Hsh; rewrite <- Hi; f_equal; lia|].
  intros d Hd. rewrite Hsh. apply Hp. lia.
Qed.

(** ** Searching *)

(** What [hit] and [node_key] see of the nodes in the table. *)
Definition sees (keys : gmap Z Z) : Prop := ∀ i k key, keys !! i = Some k → hit i key = Ret (k =? key).
Definition knows (keys : gmap Z Z) : Prop := ∀ i k, keys !! i = Some k → node_key i = Ret k.
Definition distinct_keys (keys : gmap Z Z) : Prop :=
  ∀ i j k, keys !! i = Some k → keys !! j = Some k → i = j.

Lemma vget_slot t b p i : 0 ≤ b < SIZE → 0 ≤ p ≤ SIZE → look t (b + p) = Some i → vget t (slot_at b p) = Ret i.
Proof. intros Hb Hp Hi. rewrite slot_at_mod by done. by apply vget_look. Qed.

(** Before the slot of its key a search only meets nodes with other keys. *)
Lemma before_slot t keys k i d p : probe_wf t keys → sees keys → distinct_keys keys → keys !! i = Some k →
  look t (home k + d) = Some i → (∀ d', 0 ≤ d' < d → look t (home k + d') ≠ Some (-1)) → 0 ≤ p < d → d < SIZE →
  ∃ j, vget t (slot_at (home k) p) = Ret j ∧ j ≠ -1 ∧ hit j k = Ret false.
Proof.
  intros Hwf Hs Hd Hk Hi Hp Hpd Hds. destruct (look_total t (home k + p) (wf_length _ _ Hwf)) as [j Hj].
  assert (j ≠ -1) as Hj1 by (intros ->; by apply (Hp p)).
  exists j. split_and!; [apply vget_slot; [apply home_range|lia|done]|done|].
  destruct (wf_nodes _ _ Hwf _ _ Hj Hj1) as [k' Hk']. rewrite (Hs j k' k Hk').
  destruct (Z.eqb_spec k' k) as [->|_]; [|done]. assert (j = i) as -> by (by eapply Hd).
  pose proof (wf_unique _ _ Hwf _ _ _ Hj Hi Hj1) as E. apply window_inj in E; lia.
Qed.

Lemma find_loop_hit t keys k i d : probe_wf t keys → sees keys → distinct_keys keys → keys !! i = Some k →
  look t (home k + d) = Some i → (∀ d', 0 ≤ d' < d → look t (home k + d') ≠ Some (-1)) → d < SIZE → i ≠ -1 →
  ∀ n p, Z.of_nat n = SIZE - p → 0 ≤ p ≤ d → find_loop n p (home k) k t = Ret i.
Proof.
  intros Hwf Hs Hd Hk Hi Hp Hds Hne. induction n as [|n IH]; intros p Hn Hpd; [lia|]. cbn [find_loop].
  destruct (Z.eq_dec p d) as [->|Hpd'].
  - rewrite (vget_slot t (home k) d i), bind_Ret; [|apply home_range|lia|done].
    rewrite (proj2 (Z.eqb_neq _ _) Hne), (Hs i k k Hk), Z.eqb_refl. done.
  - destruct (before_slot t keys k i d p) as (j & -> & Hj & Hh); try done; [lia|]. rewrite bind_Ret.
    rewrite (proj2 (Z.eqb_neq _ _) Hj), Hh, bind_Ret. apply IH; lia.
Qed.

Lemma find_loop_miss t keys k : probe_wf t keys → sees keys → (∀ i, keys !! i ≠ Some k) →
  ∀ n p, Z.of_nat n = SIZE - p → 0 ≤ p → find_loop n p (home k) k t = Ret (-1).
Proof.
  intros Hwf Hs Hk. induction n as [|n IH]; intros p Hn Hp; [done|]. cbn [find_loop].
  destruct (look_total t (home k + p) (wf_length _ _ Hwf)) as [j Hj].
  rewrite (vget_slot t (home k) p j), bind_Ret; [|apply home_range|lia|done].
  destruct (Z.eqb_spec j (-1)) as [->|Hne]; [done|]. destruct (wf_nodes _ _ Hwf _ _ Hj Hne) as [k' Hk'].
  rewrite (Hs j k' k Hk'), bind_Ret. destruct (Z.eqb_spec k' k) as [->|_]; [by apply Hk in Hk'|]. apply IH; lia.
Qed.

Lemma probe_find_spec t keys k : probe_wf t keys → sees keys → distinct_keys keys →
  (∀ i, keys !! i = Some k → probe_find k t = Ret i) ∧
  ((∀ i, keys !! i ≠ Some k) → probe_find k t = Ret (-1)).
Proof.
  intros Hwf Hs Hd. pose proof SIZE_pos. split.
  - intros i Hi. destruct (wf_reach _ _ Hwf _ _ Hi) as (Hne & d & Hds & Hl & Hp).
    eapply (find_loop_hit t keys k i d); eauto; lia.
  - intros Hk. eapply find_loop_miss; eauto; lia.
Qed.

(** ** Inserting *)

Lemma insert_loop_spec t b v d0 : Z.of_nat (length t) = SIZE → 0 ≤ b < SIZE → look t (b + d0) = Some (-1) → d0 < SIZE →
  ∀ n p, Z.of_nat n = SIZE - p → 0 ≤ p ≤ d0 → (∀ d, 0 ≤ d < p → look t (b + d) ≠ Some (-1)) →
  ∃ d, 0 ≤ d ≤ d0 ∧ look t (b + d) = Some (-1) ∧ (∀ d', 0 ≤ d' < d → look t (b + d') ≠ Some (-1)) ∧
    insert_loop n p b v t = Ret (true, <[Z.to_nat ((b + d) mod SIZE) := v]> t).
Proof.
  intros Hl Hb Hd0 Hds. induction n as [|n IH]; intros p Hn Hp Hpath; [lia|]. cbn [insert_loop].
  destruct (look_total t (b + p) Hl) as [j Hj]. rewrite (vget_slot t b p j), bind_Ret by (done || lia).
  destruct (Z.eqb_spec j (-1)) as [->|Hne].
  - exists p. split_and!; [lia..|done|done|]. rewrite slot_at_mod by lia. by rewrite vset_look.
  - assert (p ≠ d0) by congruence. apply IH; [lia|lia|]. intros d Hd.
    destruct (Z.eq_dec d p) as [->|]; [congruence|]. apply Hpath. lia.
Qed.

Lemma probe_insert_at t k i y a : Z.of_nat (length t) = SIZE → look t y = Some (-1) → a mod SIZE = home k →
  a ≤ y < a + SIZE →
  ∃ b, a ≤ b ≤ y ∧ look t b = Some (-1) ∧ (∀ z, a ≤ z < b → look t z ≠ Some (-1)) ∧
    probe_insert k i t = Ret (true, <[Z.to_nat (b mod SIZE) := i]> t).
Proof.
  intros Hl Hy Ha Hay. pose proof SIZE_pos.
  assert (∀ x, (home k + x) mod SIZE = (a + x) mod SIZE) as Hmod.
  { intros x. rewrite <- Ha, Z.add_mod_idemp_l by lia. done. }
  assert (∀ x, look t (home k + x) = look t (a + x)) as Hsh by (intros x; apply look_mod, Hmod).
  destruct (insert_loop_spec t (home k) i (y - a)) with (n := Z.to_nat SIZE) (p := 0) as (d & Hd & He & Hp & E);
    [done|apply home_range|rewrite Hsh; rewrite <- Hy; f_equal; lia|lia|lia|lia|lia|].
  exists (a + d). rewrite <- Hmod, <- Hsh. split_and!; [lia..|done| |exact E].
  intros z Hz. replace z with (a + (z - a)) by lia. rewrite <- Hsh. apply Hp. lia.
Qed.

(** Filling an empty slot keeps the other nodes reachable. *)
Lemma reachable_fill t p i k j : Z.of_nat (length t) = SIZE → look t p = Some (-1) → i ≠ -1 → j ≠ -1 →
  reachable t k j → reachable (<[Z.to_nat (p mod SIZE) := i]> t) k j.
Proof.
  intros Hl Hp Hi Hj (d & Hd & Hd1 & Hd2). exists d. split_and!; [lia..| |].
  - rewrite look_insert by done. rewrite decide_False; [done|]. intros E%(look_mod t). congruence.
  - intros d' Hd'. rewrite look_insert by done. case_decide; [congruence|]. by apply Hd2.
Qed.

Lemma probe_insert_spec t keys k i : probe_wf t keys → keys !! i = None → i ≠ -1 → Z.of_nat (size keys) < SIZE →
  ∃ t', probe_insert k i t = Ret (true, t') ∧ probe_wf t' (<[i := k]> keys).
Proof.
  intros Hwf Hi Hne Hsz. destruct (probe_wf_hole t keys Hwf Hsz) as [e He]. pose proof (wf_length _ _ Hwf) as Hl.
  destruct (window_shift (home k - 1) e) as (y & Hy & Ey). pose proof (home_range k).
  destruct (probe_insert_at t k i y (home k)) as (b & Hb & Hb1 & Hb2 & E);
    [done|by rewrite <- He; apply look_mod|by apply Z.mod_small|lia|].
  eexists. split; [exact E|].
  assert (∀ z j, look (<[Z.to_nat (b mod SIZE) := i]> t) z = Some j → j ≠ -1 →
    (z mod SIZE = b mod SIZE ∧ j = i) ∨ (look t z = Some j ∧ j ≠ i)) as Hcase.
  { intros z j Hz Hj. rewrite look_insert in Hz by done. case_decide; [left; by simplify_eq|right].
    split; [done|]. intros ->. destruct (wf_nodes _ _ Hwf _ _ Hz Hj). congruence. }
  split.
  - by rewrite length_insert.
  - intros z j Hz Hj. destruct (Hcase z j Hz Hj) as [[_ ->]|[Hz' Hji]]; [rewrite lookup_insert_eq; eauto|].
    rewrite lookup_insert_ne by done. by eapply wf_nodes.
  - intros z z' j Hz Hz' Hj.
    destruct (Hcase z j Hz Hj) as [[? ->]|[Hl1 ?]], (Hcase z' _ Hz' Hj) as [[? ?]|[Hl2 ?]]; try congruence.
    by eapply wf_unique.
  - intros j k' [[<- <-]|[Hji Hk]]%lookup_insert_Some.
    + split; [done|]. apply (window_reachable _ k i (home k) b); [lia|lia|by apply Z.mod_small| |].
      * rewrite look_insert by done. by rewrite decide_True.
      * intros z Hz. rewrite look_insert by done. case_decide; [congruence|]. by apply Hb2.
    + destruct (wf_reach _ _ Hwf j k' Hk) as [Hj Hr]. split; [done|]. by apply reachable_fill.
Qed.

(** ** Removing *)

(** The state of the loop that inserts the cluster again: the window starts
    behind the empty slot [e] and the cursor is at [x].  Slots that became
    empty lie before the cursor and concern only nodes behind it. *)
Record reinsert_inv (e x : Z) (t : list Z) (keys : gmap Z Z) : Prop := {
  ri_length : Z.of_nat (length t) = SIZE;
  ri_hole : look t e = Some (-1);
  ri_nodes y i : look t y = Some i → i ≠ -1 → is_Some (keys !! i);
  ri_unique y z i : look t y = Some i → look t z = Some i → i ≠ -1 → y mod SIZE = z mod SIZE;
  ri_reach i k : keys !! i = Some k → i ≠ -1 ∧ ∃ a y, e < a ∧ a ≤ y ∧ y < e + SIZE ∧ a mod SIZE = home k ∧
    look t y = Some i ∧ ∀ z, a ≤ z < y → look t z ≠ Some (-1) ∨ z < x ≤ y
}.

(** At an empty slot the loop is done. *)
Lemma reinsert_done e x t keys : reinsert_inv e x t keys → look t x = Some (-1) → e < x → probe_wf t keys.
Proof.
  intros Hr Hx Hex. split; [apply Hr|apply Hr|apply Hr|]. intros i k Hk.
  destruct (ri_reach _ _ _ _ Hr i k Hk) as (Hne & a & y & Ha & Hay & Hy & Hm & Hi & Hp). split; [done|].
  apply (window_reachable t k i a y); [lia|lia|done|done|]. intros z Hz.
  destruct (Hp z Hz) as [|Hzx]; [done|]. exfalso.
  assert (x ≠ y) by congruence. destruct (Hp x) as [Hb|]; [lia|done|lia].
Qed.

(** Moving the node under the cursor to the first empty slot from its home on. *)
Lemma reinsert_step e x t keys i : reinsert_inv e x t keys → e < x → x < e + SIZE → look t x = Some i → i ≠ -1 →
  ∃ k t', keys !! i = Some k ∧
    probe_insert k i (<[Z.to_nat (x mod SIZE) := -1]> t) = Ret (true, t') ∧ reinsert_inv e (x + 1) t' keys.
Proof.
  intros Hr Hex Hxe Hx Hne. pose proof (ri_length _ _ _ _ Hr) as Hl. destruct (ri_nodes _ _ _ _ Hr x i Hx Hne) as [k Hk].
  destruct (ri_reach _ _ _ _ Hr i k Hk) as (_ & a & y & Ha & Hay & Hy & Hm & Hi & _).
  assert (y = x) as -> by (apply window_inj; [by eapply (ri_unique _ _ _ _ Hr)|lia]).
  set (t1 := <[Z.to_nat (x mod SIZE) := -1]> t).
  assert (Z.of_nat (length t1) = SIZE) as Hl1 by (unfold t1; by rewrite length_insert).
  destruct (probe_insert_at t1 k i x a) as (b & Hb & Hb1 & Hb2 & E);
    [done|unfold t1; rewrite look_insert by done; by rewrite decide_True|done|lia|].
  exists k. eexists. split; [done|]. split; [exact E|]. set (t2 := <[Z.to_nat (b mod SIZE) := i]> t1).
  assert (∀ z, look t2 z = if decide (z mod SIZE = b mod SIZE) then Some i
    else if decide (z mod SIZE = x mod SIZE) then Some (-1) else look t z) as Hlook.
  { intros z. unfold t2, t1. by rewrite !look_insert by (done || by rewrite length_insert). }
  assert (b = x ∨ look t b = Some (-1)) as Hbx.
  { unfold t1 in Hb1. rewrite look_insert in Hb1 by done. case_decide as E'; [left; apply window_inj in E'; lia|by right]. }
  assert (∀ z j, look t2 z = Some j → j ≠ -1 → (z mod SIZE = b mod SIZE ∧ j = i) ∨ (look t z = Some j ∧ j ≠ i)) as Hcase.
  { intros z j Hz Hj. rewrite Hlook in Hz. repeat case_decide; simplify_eq; [by left|right]. split; [done|].
    intros ->. assert (z mod SIZE = x mod SIZE) by (by eapply (ri_unique _ _ _ _ Hr)). done. }
  split.
  - unfold t2. by rewrite length_insert.
  - rewrite Hlook, !decide_False; [apply Hr| |].
    + intros E'. apply window_inj in E'; lia.
    + intros E'. apply window_inj in E'; lia.
  - intros z j Hz Hj. destruct (Hcase z j Hz Hj) as [[_ ->]|[Hz' _]]; [eauto|]. by eapply (ri_nodes _ _ _ _ Hr).
  - intros z z' j Hz Hz' Hj.
    destruct (Hcase z j Hz Hj) as [[? ->]|[? ?]], (Hcase z' _ Hz' Hj) as [[? ?]|[? ?]]; try congruence.
    by eapply (ri_unique _ _ _ _ Hr).
  - intros j k' Hk'. destruct (ri_reach _ _ _ _ Hr j k' Hk') as (Hj & a' & y & Ha' & Hay' & Hy' & Hm' & Hj' & Hp').
    split; [done|]. destruct (decide (j = i)) as [->|Hji].
    + assert (k' = k) as -> by congruence. exists a, b. split_and!; [lia|lia|lia|done| |].
      * rewrite Hlook. by rewrite decide_True.
      * intros z Hz. left. specialize (Hb2 z Hz). rewrite Hlook.
        unfold t1 in Hb2. rewrite look_insert in Hb2 by done. repeat case_decide; congruence.
    + assert (look t2 y = Some j) as Hy2.
      { rewrite Hlook. rewrite !decide_False; [done| |]; intros E'%(look_mod t); destruct Hbx; congruence. }
      exists a', y. split_and!; [lia|lia|lia|done|done|]. intros z Hz. rewrite Hlook.
      assert (y ≠ x) by congruence. destruct (Hp' z Hz) as [Hz1|Hz1]; [|right; lia].
      repeat case_decide; [left; congruence| |by left]. right.
      assert (z = x) as -> by (apply window_inj; [done|lia]). lia.
Qed.

Lemma reinsert_loop_spec e keys : knows keys → ∀ fuel x t, e < x ≤ e + SIZE → e + SIZE - x < Z.of_nat fuel →
  reinsert_inv e x t keys → ∃ t', reinsert_loop fuel (x mod SIZE) t = Ret t' ∧ probe_wf t' keys.
Proof.
  intros Hkn. pose proof SIZE_pos. induction fuel as [|fuel IH]; intros x t Hx Hf Hr; [lia|]. cbn [reinsert_loop].
  destruct (look_total t x (ri_length _ _ _ _ Hr)) as [i Hi]. rewrite (vget_look t x i Hi), bind_Ret.
  destruct (Z.eqb_spec i (-1)) as [->|Hne].
  - exists t. split; [done|]. by apply (reinsert_done e x); [| |lia].
  - assert (x ≠ e + SIZE).
    { intros ->. assert (look t (e + SIZE) = look t e) as E.
      { apply look_mod. replace (e + SIZE) with (e + 1 * SIZE) by lia. apply Z.mod_add. lia. }
      pose proof (ri_hole _ _ _ _ Hr). congruence. }
    destruct (reinsert_step e x t keys i Hr) as (k & t' & Hk & E & Hr'); [lia|lia|done|done|].
    rewrite vset_look, bind_Ret, (Hkn i k Hk), bind_Ret, E, bind_Ret by apply Hr.
    rewrite slot_at_mod, Z.add_mod_idemp_l by (pose proof (slot_mod_range x); lia). apply IH; [lia|lia|done].
Qed.

Lemma remove_loop_hit t keys k i d : probe_wf t keys → sees keys → distinct_keys keys → keys !! i = Some k →
  look t (home k + d) = Some i → (∀ d', 0 ≤ d' < d → look t (home k + d') ≠ Some (-1)) → d < SIZE → i ≠ -1 →
  ∀ n p, Z.of_nat n = SIZE - p → 0 ≤ p ≤ d → remove_loop n p (home k) k t =
    (t' ← reinsert_loop (Z.to_nat SIZE) ((home k + d + 1) mod SIZE) (<[Z.to_nat ((home k + d) mod SIZE) := -1]> t);
     Ret (true, t')).
Proof.
  intros Hwf Hs Hd Hk Hi Hp Hds Hne. pose proof SIZE_pos.
  induction n as [|n IH]; intros p Hn Hpd; [lia|]. cbn [remove_loop].
  destruct (Z.eq_dec p d) as [->|Hpd'].
  - rewrite (vget_slot t (home k) d i), bind_Ret; [|apply home_range|lia|done].
    rewrite (proj2 (Z.eqb_neq _ _) Hne), (Hs i k k Hk), Z.eqb_refl, bind_Ret.
    pose proof (home_range k). pose proof (slot_mod_range (home k + d)).
    rewrite (slot_at_mod (home k) d) by lia. rewrite vset_look, bind_Ret by apply Hwf.
    rewrite slot_at_mod, Z.add_mod_idemp_l by lia. done.
  - destruct (before_slot t keys k i d p) as (j & -> & Hj & Hh); try done; [lia|]. rewrite bind_Ret.
    rewrite (proj2 (Z.eqb_neq _ _) Hj), Hh, bind_Ret. apply IH; lia.
Qed.

Lemma probe_remove_spec t keys k i : probe_wf t keys → sees keys → knows keys → distinct_keys keys →
  keys !! i = Some k → Z.of_nat (size keys) < SIZE →
  ∃ t', probe_remove k t = Ret (true, t') ∧ probe_wf t' (delete i keys).
Proof.
  intros Hwf Hs Hkn Hd Hk Hsz. pose proof SIZE_pos. pose proof (wf_length _ _ Hwf) as Hl.
  destruct (probe_wf_hole t keys Hwf Hsz) as [e He].
  destruct (wf_reach _ _ Hwf i k Hk) as (Hne & d & Hds & Hi & Hp).
  destruct (window_shift e (home k + d)) as (x & Hx & Ex).
  assert (look t x = Some i) as Hxi by (rewrite <- Hi; by apply look_mod).
  assert (x ≠ e + SIZE) as Hxe.
  { intros ->. assert (look t (e + SIZE) = look t e) as E.
    { apply look_mod. replace (e + SIZE) with (e + 1 * SIZE) by lia. apply Z.mod_add. lia. }
    congruence. }
  unfold probe_remove. rewrite (remove_loop_hit t keys k i d) by (done || lia). rewrite <- Ex.
  rewrite <- (Z.add_mod_idemp_l (home k + d)), <- Ex, Z.add_mod_idemp_l by lia.
  set (t1 := <[Z.to_nat (x mod SIZE) := -1]> t).
  assert (∀ z, look t1 z = if decide (z mod SIZE = x mod SIZE) then Some (-1) else look t z) as Hlook
    by (intros z; by apply look_insert).
  assert (∀ z j, look t1 z = Some j → j ≠ -1 → look t z = Some j ∧ j ≠ i) as Hcase.
  { intros z j Hz Hj. rewrite Hlook in Hz. case_decide as E; [congruence|]. split; [done|]. intros ->.
    apply E. by eapply wf_unique. }
  destruct (reinsert_loop_spec e (delete i keys)) with (fuel := Z.to_nat SIZE) (x := x + 1) (t := t1)
    as (t' & -> & Hwf'); [|lia|lia| |by exists t'].
  - intros j k' [_ Hj]%lookup_delete_Some. by apply Hkn.
  - split.
    + unfold t1. by rewrite length_insert.
    + rewrite Hlook, decide_False; [done|]. intros E. apply window_inj in E; lia.
    + intros z j Hz Hj. destruct (Hcase z j Hz Hj) as [Hz' Hji]. rewrite lookup_delete_ne by done. by eapply wf_nodes.
    + intros z z' j Hz Hz' Hj. destruct (Hcase z j Hz Hj), (Hcase z' j Hz' Hj). by eapply wf_unique.
    + intros j k' [Hji Hj]%lookup_delete_Some. destruct (wf_reach _ _ Hwf j k' Hj) as [Hj1 Hr]. split; [done|].
      destruct (reachable_window t k' j e Hr Hj1 He) as (a & y & Ha & Hay & Hy & Hm & Hyj & Hpath).
      exists a, y. split_and!; [lia|lia|lia|done| |].
      * rewrite Hlook, decide_False; [done|]. intros E%(look_mod t). congruence.
      * intros z Hz. rewrite Hlook. case_decide as E; [|left; by apply Hpath]. right.
        apply window_inj in E; lia.
Qed.

Lemma probe_remove_miss t keys k : probe_wf t keys → sees keys → (∀ i, keys !! i ≠ Some k) →
  probe_remove k t = Ret (false, t).
Proof.
  intros Hwf Hs Hk. pose proof SIZE_pos. unfold probe_remove.
  assert (∀ n p, Z.of_nat n = SIZE - p → 0 ≤ p → remove_loop n p (home k) k t = Ret (false, t)) as Hloop.
  { induction n as [|n IH]; intros p Hn Hp; [done|]. cbn [remove_loop].
    destruct (look_total t (home k + p) (wf_length _ _ Hwf)) as [j Hj].
    rewrite (vget_slot t (home k) p j), bind_Ret; [|apply home_range|lia|done].
    destruct (Z.eqb_spec j (-1)) as [->|Hne]; [done|]. destruct (wf_nodes _ _ Hwf _ _ Hj Hne) as [k' Hk'].
    rewrite (Hs j k' k Hk'), bind_Ret. destruct (Z.eqb_spec k' k) as [->|_]; [by apply Hk in Hk'|]. apply IH; lia. }
  apply Hloop; lia.
Qed.

End Probing.
