(* ===== verification/IndexList.v ===== *)
(** * Doubly linked lists threaded through an array

    The recency lists of lruCache/simple/lruCacheWithHashing.c and
    lruCache/packet/lru_packet_cache.c link the nodes of an array by their
    indices, -1 for none.  [LinkNode] is what the list code needs of a node: its
    two links and that writing one of them changes nothing else. *)

From stdpp Require Import base list gmap numbers.
From Stdlib Require Import ZArith Lia.
From S2P Require Import Prelude.

Class LinkNode (Nd P : Type) := {
  prev : Nd → Z;
  next : Nd → Z;
  payload : Nd → P;
  set_prev : Z → Nd → Nd;
  set_next : Z → Nd → Nd;
  prev_set_prev z n : prev (set_prev z n) = z;
  next_set_prev z n : next (set_prev z n) = next n;
  payload_set_prev z n : payload (set_prev z n) = payload n;
  prev_set_next z n : prev (set_next z n) = prev n;
  next_set_next z n : next (set_next z n) = z;
  payload_set_next z n : payload (set_next z n) = payload n
}.

(** [nodes[i].field = ...] *)
Definition update {Nd} (nodes : list Nd) (i : Z) (f : Nd → Nd) : outcome (list Nd) :=
  n ← vget nodes i; vset nodes i (f n).

Section IndexList.
Context {Nd P : Type} `{LinkNode Nd P}.

(** [if (p != -1) nodes[p].next = n; if (n != -1) nodes[n].prev = p;] *)
Definition bypass (nodes : list Nd) (p n : Z) : outcome (list Nd) :=
  nodes ← (if p =? -1 then Ret nodes else update nodes p (set_next n));
  if n =? -1 then Ret nodes else update nodes n (set_prev p).

(** Moving the node [i] in front of a list with the given ends. *)
Definition to_head (i head tail : Z) (nodes : list Nd) : outcome (list Nd * Z * Z) :=
  if head =? i then Ret (nodes, head, tail) else
  nd ← vget nodes i;
  let p := prev nd in
  let n := next nd in
  nodes ← bypass nodes p n;
  let tail := if tail =? i then p else tail in
  nodes ← update nodes i (set_prev (-1));
  nodes ← update nodes i (set_next head);
  nodes ← (if head =? -1 then Ret nodes else update nodes head (set_prev i));
  let head := i in
  let tail := if tail =? -1 then i else tail in
  Ret (nodes, head, tail).

(** ** Views of the array *)

Definition node_at (nodes : list Nd) (i : Z) : option Nd :=
  if 0 <=? i then nodes !! Z.to_nat i else None.

Lemma node_at_Some nodes i n : node_at nodes i = Some n ↔ vget nodes i = Ret n.
Proof.
  unfold node_at. rewrite vget_Ret. destruct (Z.leb_spec 0 i); [|split; [done|lia]].
  split; [by intros ->|by intros [_ ->]].
Qed.

Lemma node_at_range nodes i n : node_at nodes i = Some n → 0 ≤ i < Z.of_nat (length nodes).
Proof.
  unfold node_at. destruct (Z.leb_spec 0 i); [|done]. intros Hi%lookup_lt_Some. lia.
Qed.

Lemma node_at_total nodes i : 0 ≤ i < Z.of_nat (length nodes) → ∃ n, node_at nodes i = Some n.
Proof. intros Hi. destruct (vget_total nodes i Hi) as (n & E & _). exists n. by apply node_at_Some. Qed.

(** A single write, and what it leaves alone. *)
Definition written (nodes nodes' : list Nd) (i : Z) (n : Nd) : Prop :=
  length nodes' = length nodes ∧ ∀ j, node_at nodes' j = if decide (j = i) then Some n else node_at nodes j.

Lemma vset_written nodes i n : 0 ≤ i < Z.of_nat (length nodes) →
  ∃ nodes', vset nodes i n = Ret nodes' ∧ written nodes nodes' i n.
Proof.
  intros Hi. eexists. split; [by apply vset_total|]. split; [apply length_insert|].
  intros j. unfold node_at. destruct (Z.leb_spec 0 j); case_decide; subst; try done; try lia.
  - apply list_lookup_insert_eq. lia.
  - apply list_lookup_insert_ne. lia.
Qed.

Lemma update_written nodes i f n : node_at nodes i = Some n →
  ∃ nodes', update nodes i f = Ret nodes' ∧ written nodes nodes' i (f n).
Proof.
  intros Hn. unfold update. pose proof Hn as Hr%node_at_range. apply node_at_Some in Hn as ->. rewrite bind_Ret.
  by apply vset_written.
Qed.

(** ** Chains *)

(** The nodes [L] are linked in this order, after [p] and before [e]. *)
Fixpoint chained (nodes : list Nd) (p : Z) (L : list Z) (e : Z) : Prop :=
  match L with
  | [] => True
  | i :: L => ∃ n, node_at nodes i = Some n ∧ prev n = p ∧
      next n = default e (head L) ∧ chained nodes i L e
  end.

Definition first (L : list Z) : Z := default (-1) (head L).
Definition final (L : list Z) : Z := default (-1) (list.last L).

Lemma chained_app nodes L1 : ∀ p L2 e, chained nodes p (L1 ++ L2) e ↔
  chained nodes p L1 (default e (head L2)) ∧ chained nodes (default p (list.last L1)) L2 e.
Proof.
  induction L1 as [|i L1 IH]; intros p L2 e; [simpl; tauto|]. rewrite last_cons. cbn [chained app].
  assert (default p (match list.last L1 with Some y => Some y | None => Some i end) = default i (list.last L1)) as ->
    by (by destruct (list.last L1)).
  assert (default e (head (L1 ++ L2)) = default (default e (head L2)) (head L1)) as -> by (by destruct L1).
  setoid_rewrite IH. naive_solver.
Qed.

(** Only the nodes of the chain matter, and of them only the links. *)
Lemma chained_ext nodes nodes' L : ∀ p e, (∀ i n, i ∈ L → node_at nodes i = Some n →
    ∃ n', node_at nodes' i = Some n' ∧ prev n' = prev n ∧ next n' = next n) →
  chained nodes p L e → chained nodes' p L e.
Proof.
  induction L as [|i L IH]; intros p e Hext; simpl; [done|]. intros (n & Hn & Hp & Hx & Hc).
  destruct (Hext i n) as (n' & Hn' & Hp' & Hx'); [left|done|]. exists n'.
  split_and!; [done|congruence|congruence|]. apply IH; [|done]. intros j m Hj. apply Hext. by right.
Qed.

Lemma chained_frame nodes nodes' i n L p e : written nodes nodes' i n → i ∉ L →
  chained nodes p L e → chained nodes' p L e.
Proof.
  intros [_ Hw] Hi. apply chained_ext. intros j m Hj Hm. exists m. rewrite Hw.
  rewrite decide_False by congruence. done.
Qed.

(** Redirecting the last link of a chain, or its first one. *)
Lemma chained_relink_end nodes nodes' L t n p e e' : chained nodes p (L ++ [t]) e → NoDup (L ++ [t]) →
  node_at nodes t = Some n → written nodes nodes' t (set_next e' n) → chained nodes' p (L ++ [t]) e'.
Proof.
  intros [Hc1 (m & Hm & Hp & _ & _)]%chained_app Hnd Hn Hw. apply chained_app. split.
  - eapply chained_frame; [done| |exact Hc1]. apply list.NoDup_app in Hnd as (_ & Hd & _). intros Ht. by apply (Hd t Ht), list_elem_of_singleton.
  - destruct Hw as [_ Hw]. exists (set_next e' n). rewrite Hw, decide_True by done. simplify_eq.
    split_and!; [done|by rewrite prev_set_next|by rewrite next_set_next|done].
Qed.

Lemma chained_relink_start nodes nodes' L t n p p' e : chained nodes p (t :: L) e → NoDup (t :: L) →
  node_at nodes t = Some n → written nodes nodes' t (set_prev p' n) → chained nodes' p' (t :: L) e.
Proof.
  intros (m & Hm & Hp & Hx & Hc) Hnd Hn Hw. apply list.NoDup_cons in Hnd as [Ht _]. exists (set_prev p' n).
  simplify_eq. pose proof Hw as [_ Hw']. rewrite Hw', decide_True by done.
  split_and!; [done|by rewrite prev_set_prev|by rewrite next_set_prev|by eapply chained_frame].
Qed.

Lemma chained_nodes nodes p L e i : chained nodes p L e → i ∈ L → ∃ n, node_at nodes i = Some n.
Proof.
  revert p. induction L as [|j L IH]; intros p Hc Hi; [by apply not_elem_of_nil in Hi|].
  destruct Hc as (n & Hn & _ & _ & Hc). apply elem_of_cons in Hi as [->|Hi]; eauto.
Qed.

Lemma chained_nonneg nodes p L e i : chained nodes p L e → i ∈ L → i ≠ -1.
Proof. intros Hc Hi ->. destruct (chained_nodes nodes p L e (-1) Hc Hi) as [n Hn%node_at_range]. lia. Qed.

(** ** What the list operations leave alone *)

(** [nodes'] differs from [nodes] in the links of the nodes [L] only. *)
Definition relinked (nodes nodes' : list Nd) (L : list Z) : Prop :=
  length nodes' = length nodes ∧
  (∀ j, payload <$> node_at nodes' j = payload <$> node_at nodes j) ∧
  (∀ j, j ∉ L → node_at nodes' j = node_at nodes j).

Lemma il_relinked_refl nodes L : relinked nodes nodes L.
Proof. done. Qed.

Lemma il_relinked_trans nodes1 nodes2 nodes3 L : relinked nodes1 nodes2 L → relinked nodes2 nodes3 L → relinked nodes1 nodes3 L.
Proof.
  intros (E1 & P1 & F1) (E2 & P2 & F2). split_and!; [congruence|congruence|].
  intros j Hj. rewrite F2 by done. by apply F1.
Qed.

Lemma il_relinked_weaken nodes nodes' L L' : relinked nodes nodes' L → L ⊆ L' → relinked nodes nodes' L'.
Proof. intros (E1 & P1 & F1) HL. split_and!; [done|done|]. intros j Hj. apply F1. set_solver. Qed.

Lemma written_relinked nodes nodes' i n n' : node_at nodes i = Some n → payload n' = payload n →
  written nodes nodes' i n' → relinked nodes nodes' [i].
Proof.
  intros Hn Hp [E Hw]. split_and!; [done| |].
  - intros j. rewrite Hw. case_decide; [subst j; rewrite Hn; csimpl; by rewrite Hp|done].
  - intros j Hj. rewrite Hw, decide_False; [done|]. set_solver.
Qed.

Lemma payload_at nodes nodes' L j n : relinked nodes nodes' L → node_at nodes j = Some n →
  ∃ n', node_at nodes' j = Some n' ∧ payload n' = payload n.
Proof.
  intros (_ & Hp & _) Hn. specialize (Hp j). rewrite Hn in Hp. destruct (node_at nodes' j) as [n'|]; [|done].
  exists n'. csimpl in Hp. split; [done|]. congruence.
Qed.

(** ** Taking a node out of the list *)

Lemma set_next_end nodes L e e' : chained nodes (-1) L e → NoDup L →
  ∃ nodes', (if final L =? -1 then Ret nodes else update nodes (final L) (set_next e')) = Ret nodes' ∧
    chained nodes' (-1) L e' ∧ relinked nodes nodes' L.
Proof.
  intros Hc Hnd. unfold final. destruct (exists_last_or_nil L) as [->|(L' & t & ->)]; [by exists nodes|].
  rewrite last_snoc. simpl default. assert (t ∈ L' ++ [t]) as Ht by set_solver.
  rewrite (proj2 (Z.eqb_neq t (-1))) by (by eapply chained_nonneg).
  destruct (chained_nodes _ _ _ _ t Hc Ht) as [n Hn].
  destruct (update_written nodes t (set_next e') n Hn) as (nodes' & E & Hw). exists nodes'. split; [done|].
  split; [by eapply chained_relink_end|]. eapply il_relinked_weaken; [|apply list_subseteq_app_r].
  - eapply written_relinked; [done| |done]. apply payload_set_next.
  - done.
Qed.

Lemma set_prev_start nodes L p p' : chained nodes p L (-1) → NoDup L →
  ∃ nodes', (if first L =? -1 then Ret nodes else update nodes (first L) (set_prev p')) = Ret nodes' ∧
    chained nodes' p' L (-1) ∧ relinked nodes nodes' L.
Proof.
  intros Hc Hnd. destruct L as [|t L]; [by exists nodes|]. unfold first. simpl head. simpl default.
  rewrite (proj2 (Z.eqb_neq t (-1))) by (eapply chained_nonneg; [done|left]).
  destruct (chained_nodes _ _ _ _ t Hc) as [n Hn]; [left|].
  destruct (update_written nodes t (set_prev p') n Hn) as (nodes' & E & Hw). exists nodes'. split; [done|].
  split; [by eapply chained_relink_start|]. eapply il_relinked_weaken.
  - eapply written_relinked; [done| |done]. apply payload_set_prev.
  - set_solver.
Qed.

Lemma bypass_spec nodes L1 i L2 : chained nodes (-1) (L1 ++ i :: L2) (-1) → NoDup (L1 ++ i :: L2) →
  ∃ nodes', bypass nodes (final L1) (first L2) = Ret nodes' ∧
    chained nodes' (-1) (L1 ++ L2) (-1) ∧ relinked nodes nodes' (L1 ++ L2).
Proof.
  intros [Hc1 (n & Hn & Hp & Hx & Hc2)]%chained_app Hnd. unfold bypass.
  apply list.NoDup_app in Hnd as (Hnd1 & Hdis & [Hi Hnd2]%list.NoDup_cons).
  destruct (set_next_end nodes L1 _ (first L2) Hc1 Hnd1) as (nodes1 & -> & Hc1' & Hr1). rewrite bind_Ret.
  assert (chained nodes1 i L2 (-1)) as Hc2'.
  { eapply chained_ext; [|exact Hc2]. intros j m Hj Hm. exists m. destruct Hr1 as (_ & _ & Hf). rewrite Hf; [done|].
    intros Hj1. apply (Hdis j Hj1). by right. }
  destruct (set_prev_start nodes1 L2 i (final L1) Hc2' Hnd2) as (nodes2 & -> & Hc2'' & Hr2).
  exists nodes2. split; [done|]. split.
  - apply chained_app. split; [|done]. eapply chained_ext; [|exact Hc1']. intros j m Hj Hm. exists m.
    destruct Hr2 as (_ & _ & Hf). rewrite Hf; [done|]. intros Hj2. apply (Hdis j Hj). by right.
  - eapply il_relinked_trans; (eapply il_relinked_weaken; [done|]); set_solver.
Qed.

(** The links of a node inside the list. *)
Lemma links_inside nodes L1 i L2 n : chained nodes (-1) (L1 ++ i :: L2) (-1) → node_at nodes i = Some n →
  prev n = final L1 ∧ next n = first L2.
Proof. intros [_ (m & Hm & Hp & Hx & _)]%chained_app Hn. simplify_eq. done. Qed.

(** ** Putting a node in front *)

(** The node [i] already points to the first node; that node is made to point back. *)
Lemma push_front_spec nodes i n L : chained nodes (-1) L (-1) → NoDup (i :: L) → node_at nodes i = Some n →
  prev n = -1 → next n = first L →
  ∃ nodes', (if first L =? -1 then Ret nodes else update nodes (first L) (set_prev i)) = Ret nodes' ∧
    chained nodes' (-1) (i :: L) (-1) ∧ relinked nodes nodes' L.
Proof.
  intros Hc [Hi Hnd]%list.NoDup_cons Hn Hp Hx.
  destruct (set_prev_start nodes L (-1) i Hc Hnd) as (nodes' & E & Hc' & Hr). exists nodes'. split; [done|].
  split; [|done]. exists n. split_and!; [|done|by rewrite Hx; destruct L|done].
  destruct Hr as (_ & _ & Hf). by rewrite Hf.
Qed.

(** ** Whole lists *)

Definition list_ok (nodes : list Nd) (hd tl : Z) (L : list Z) : Prop :=
  chained nodes (-1) L (-1) ∧ NoDup L ∧ hd = first L ∧ tl = final L.

Lemma final_cons i L : final (i :: L) = if decide (L = []) then i else final L.
Proof. unfold final. rewrite last_cons. case_decide; [by subst|]. destruct (list.last L) eqn:E; [done|]. by apply last_None in E. Qed.

Lemma final_app L1 i L2 : final (L1 ++ i :: L2) = final (i :: L2).
Proof. unfold final. rewrite last_app_cons. done. Qed.

Lemma final_app_neq L1 i L2 : i ∉ L2 → final (L1 ++ i :: L2) = i ↔ L2 = [].
Proof.
  intros Hi. rewrite final_app, final_cons. case_decide; [by split|]. split; [|done]. intros E. exfalso. apply Hi.
  unfold final in E. destruct (list.last L2) as [x|] eqn:El; [|by apply last_None in El]. simpl in E. subst x.
  apply last_Some in El as [L' ->]. set_solver.
Qed.

Lemma relinked_chained nodes nodes' L L' p e : relinked nodes nodes' L' → (∀ i, i ∈ L → i ∉ L') →
  chained nodes p L e → chained nodes' p L e.
Proof.
  intros (_ & _ & Hf) Hd. apply chained_ext. intros i n Hi Hn. exists n. rewrite Hf by (by apply Hd). done.
Qed.

(** The new end of the list. *)
Lemma to_head_tail tl h L1 i L2 : i ∉ L2 → tl = final ((h :: L1) ++ i :: L2) →
  (∀ j, j ∈ (h :: L1) ++ L2 → j ≠ -1) →
  (if (if tl =? i then final (h :: L1) else tl) =? -1 then i else if tl =? i then final (h :: L1) else tl) =
  final (i :: (h :: L1) ++ L2).
Proof.
  intros Hi Ht Hn. rewrite (final_cons i), decide_False by done.
  assert (final ((h :: L1) ++ L2) ≠ -1) as Hf.
  { unfold final. destruct (list.last ((h :: L1) ++ L2)) as [x|] eqn:E; [|by apply last_None in E].
    simpl. apply Hn. apply last_Some in E as [l' ->]. set_solver. }
  pose proof (final_app_neq (h :: L1) i L2 Hi) as Hiff. rewrite <- Ht in Hiff.
  destruct (Z.eqb_spec tl i) as [E|E].
  - apply Hiff in E as ->. rewrite app_nil_r in *. by rewrite (proj2 (Z.eqb_neq _ _) Hf).
  - assert (tl = final ((h :: L1) ++ L2)) as ->; [|by rewrite (proj2 (Z.eqb_neq _ _) Hf)].
    destruct L2 as [|y L2]; [tauto|]. rewrite Ht, !final_app, (final_cons i). by rewrite decide_False.
Qed.

Lemma to_head_spec nodes hd tl L1 i L2 : list_ok nodes hd tl (L1 ++ i :: L2) →
  ∃ nodes', to_head i hd tl nodes = Ret (nodes', i, final (i :: L1 ++ L2)) ∧
    list_ok nodes' i (final (i :: L1 ++ L2)) (i :: L1 ++ L2) ∧ relinked nodes nodes' (L1 ++ i :: L2).
Proof.
  intros (Hc & Hnd & Hh & Ht). unfold to_head. destruct L1 as [|h L1].
  { simpl in Hh. subst hd tl. unfold first. simpl. rewrite Z.eqb_refl. exists nodes. done. }
  assert (i ∉ (h :: L1) ++ L2 ∧ NoDup ((h :: L1) ++ L2)) as [Hi Hnd'].
  { by apply NoDup_middle. }
  assert (h ≠ i) as Hhi by set_solver. unfold first in Hh. simpl in Hh. subst hd.
  rewrite (proj2 (Z.eqb_neq h i)) by done.
  destruct (chained_nodes _ _ _ _ i Hc) as [n Hn]; [set_solver|].
  rewrite (proj1 (node_at_Some _ _ _) Hn), bind_Ret.
  destruct (links_inside _ _ _ _ _ Hc Hn) as [-> ->].
  destruct (bypass_spec nodes (h :: L1) i L2 Hc Hnd) as (nodes1 & -> & Hc1 & Hr1). rewrite bind_Ret.
  assert (node_at nodes1 i = Some n) as Hn1 by (destruct Hr1 as (_ & _ & Hf); by rewrite Hf).
  destruct (update_written nodes1 i (set_prev (-1)) n Hn1) as (nodes2 & -> & Hw2). rewrite bind_Ret.
  assert (node_at nodes2 i = Some (set_prev (-1) n)) as Hn2 by (destruct Hw2 as [_ ->]; by rewrite decide_True).
  destruct (update_written nodes2 i (set_next h) _ Hn2) as (nodes3 & -> & Hw3). rewrite bind_Ret.
  assert (chained nodes3 (-1) ((h :: L1) ++ L2) (-1)) as Hc3 by (do 2 (eapply chained_frame; [done..|]); done).
  destruct (push_front_spec nodes3 i (set_next h (set_prev (-1) n)) ((h :: L1) ++ L2)) as (nodes4 & E4 & Hc4 & Hr4);
    [done|by constructor|destruct Hw3 as [_ ->]; by rewrite decide_True|by rewrite prev_set_next, prev_set_prev|
     by rewrite next_set_next|].
  change (first ((h :: L1) ++ L2)) with h in E4. rewrite E4, bind_Ret. exists nodes4.
  assert ((if (if tl =? i then final (h :: L1) else tl) =? -1 then i else if tl =? i then final (h :: L1) else tl) =
    final (i :: (h :: L1) ++ L2)) as ->.
  { apply to_head_tail; [set_solver|done|]. intros j Hj. exact (chained_nonneg _ _ _ _ j Hc1 Hj). }
  split; [done|]. split; [split_and!; [done|by constructor|done|done]|].
  eapply il_relinked_trans; [eapply il_relinked_weaken; [exact Hr1|set_solver]|].
  eapply il_relinked_trans; [eapply il_relinked_weaken; [eapply written_relinked; [exact Hn1|apply payload_set_prev|done]|set_solver]|].
  eapply il_relinked_trans; [eapply il_relinked_weaken; [eapply written_relinked; [exact Hn2|apply payload_set_next|done]|set_solver]|].
  eapply il_relinked_weaken; [exact Hr4|set_solver].
Qed.

End IndexList.
