(* ===== verification/LruCore.v ===== *)
(** * What the array-based caches have in common

    Both caches keep their entries in an array of nodes, threaded by a recency
    list (IndexList) and indexed by a probing table (ProbeTable).  This file
    relates the three views: the list [L] of node indices, the bindings [vs]
    they hold and the keys of the table. *)

From stdpp Require Import base list gmap numbers.
From Stdlib Require Import ZArith Lia.
From S2P Require Import Prelude LruSpec ProbeTable IndexList.

Section Core.
Context {Nd P : Type} `{LinkNode Nd P} `{Geometry} {V : Type}.
Context (pkey : P → Z) (pused : P → bool) (pval : P → V).

(** [nodes[i].used && nodes[i].key == key] *)
Definition node_hit (nodes : list Nd) (i key : Z) : outcome bool :=
  n ← vget nodes i; Ret (pused (payload n) && (pkey (payload n) =? key)).
(** [nodes[i].key] *)
Definition node_key (nodes : list Nd) (i : Z) : outcome Z :=
  n ← vget nodes i; Ret (pkey (payload n)).

(** The node [i] is in use and holds a binding. *)
Definition holds (nodes : list Nd) (i : Z) (b : Z * V) : Prop :=
  ∃ n, node_at nodes i = Some n ∧ pkey (payload n) = fst b ∧ pval (payload n) = snd b ∧ pused (payload n) = true.

Definition keymap (L : list Z) (vs : list (Z * V)) : gmap Z Z := list_to_map (zip L vs.*1).

Definition binds (nodes : list Nd) (L : list Z) (vs : list (Z * V)) : Prop :=
  Forall2 (holds nodes) L vs ∧ NoDup L ∧ NoDup vs.*1.

(** ** The keys of the table *)

Lemma zip_fst (L : list Z) (vs : list (Z * V)) : length L = length vs → (zip L vs.*1).*1 = L.
Proof. intros Hl. apply fst_zip. rewrite length_fmap. lia. Qed.

Lemma keymap_lookup L vs i k : length L = length vs → NoDup L →
  keymap L vs !! i = Some k ↔ (i, k) ∈ zip L vs.*1.
Proof. intros Hl Hnd. symmetry. apply elem_of_list_to_map. by rewrite zip_fst. Qed.

Lemma keymap_None L vs i : length L = length vs → keymap L vs !! i = None ↔ i ∉ L.
Proof. intros Hl. unfold keymap. rewrite <- not_elem_of_list_to_map. by rewrite zip_fst. Qed.

Lemma keymap_middle L1 i L2 l (b : Z * V) r : length L1 = length l →
  keymap (L1 ++ i :: L2) (l ++ b :: r) !! i = Some (fst b) ∨ i ∈ L1.
Proof.
  intros Hl. destruct (decide (i ∈ L1)) as [|Hi]; [by right|left]. unfold keymap.
  rewrite fmap_app, fmap_cons. rewrite zip_with_app by (by rewrite length_fmap). simpl zip_with.
  rewrite list_to_map_app, lookup_union_r; [simpl; by rewrite lookup_insert_eq|].
  apply not_elem_of_list_to_map. by rewrite zip_fst.
Qed.

Lemma keymap_size L vs : length L = length vs → NoDup L → size (keymap L vs) = length L.
Proof.
  intros Hl Hnd. unfold keymap. rewrite map_size_list_to_map by (by rewrite zip_fst).
  rewrite length_zip_with, length_fmap. lia.
Qed.

(** The order of the list does not matter. *)
Lemma keymap_to_front L1 i L2 l (b : Z * V) r : length L1 = length l → length L2 = length r → NoDup (L1 ++ i :: L2) →
  keymap (i :: L1 ++ L2) (b :: l ++ r) = keymap (L1 ++ i :: L2) (l ++ b :: r).
Proof.
  intros H1 H2 Hnd. unfold keymap. apply list_to_map_proper.
  - rewrite zip_fst by (simpl; rewrite !length_app; lia). by apply list.NoDup_cons, NoDup_middle.
  - rewrite fmap_cons, !fmap_app, fmap_cons. simpl zip_with.
    rewrite !zip_with_app by (by rewrite length_fmap). simpl zip_with. by rewrite <- Permutation_middle.
Qed.

Lemma keymap_delete L1 i L2 l (b : Z * V) r : length L1 = length l → length L2 = length r → NoDup (L1 ++ i :: L2) →
  delete i (keymap (L1 ++ i :: L2) (l ++ b :: r)) = keymap (L1 ++ L2) (l ++ r).
Proof.
  intros H1 H2 Hnd. rewrite <- keymap_to_front by done. unfold keymap. rewrite fmap_cons. simpl.
  apply delete_insert_id. apply not_elem_of_list_to_map. rewrite zip_fst by (rewrite !length_app; lia).
  by apply NoDup_middle in Hnd as [Hi _].
Qed.

(** ** Bindings *)

Lemma binds_length nodes L vs : binds nodes L vs → length L = length vs.
Proof. intros (Hf & _). by eapply Forall2_length. Qed.

Lemma binds_zip nodes L vs i k : binds nodes L vs → (i, k) ∈ zip L vs.*1 → ∃ v, holds nodes i (k, v).
Proof.
  intros (Hf & _ & _). induction Hf as [|j [k' v'] L vs Hj Hf IH]; [intros Hin; by apply not_elem_of_nil in Hin|].
  csimpl. rewrite elem_of_cons. intros [[= -> ->]|Hin]; eauto.
Qed.

Lemma binds_sees nodes L vs : binds nodes L vs → sees (node_hit nodes) (keymap L vs).
Proof.
  intros Hb i k key Hk. apply keymap_lookup in Hk; [|by eapply binds_length|apply Hb].
  destruct (binds_zip _ _ _ _ _ Hb Hk) as (v & n & Hn & Hp & _ & Hu). unfold node_hit.
  rewrite (proj1 (node_at_Some _ _ _) Hn), bind_Ret, Hu, Hp. done.
Qed.

Lemma binds_knows nodes L vs : binds nodes L vs → knows (node_key nodes) (keymap L vs).
Proof.
  intros Hb i k Hk. apply keymap_lookup in Hk; [|by eapply binds_length|apply Hb].
  destruct (binds_zip _ _ _ _ _ Hb Hk) as (v & n & Hn & Hp & _ & Hu). unfold node_key.
  by rewrite (proj1 (node_at_Some _ _ _) Hn), bind_Ret, Hp.
Qed.

Lemma binds_distinct nodes L vs : binds nodes L vs → distinct_keys (keymap L vs).
Proof.
  intros Hb i j k Hi Hj. pose proof (binds_length _ _ _ Hb) as Hl. destruct Hb as (_ & Hnd & Hndk).
  apply keymap_lookup in Hi, Hj; try done. apply list_elem_of_lookup in Hi as [a Ha], Hj as [b Hb].
  apply lookup_zip_with_Some in Ha as (x & y & [= <- <-] & Ha1 & Ha2), Hb as (x & y & [= <- <-] & Hb1 & Hb2).
  assert (a = b) as -> by (by eapply (NoDup_lookup vs.*1)). congruence.
Qed.

Lemma binds_relinked nodes nodes' L L' vs : relinked nodes nodes' L' → binds nodes L vs → binds nodes' L vs.
Proof.
  intros Hr (Hf & Hnd & Hk). split_and!; [|done|done]. eapply list.Forall2_impl; [exact Hf|].
  intros i b (n & Hn & Hp). destruct (payload_at _ _ _ _ _ Hr Hn) as (n' & Hn' & E). exists n'. by rewrite E.
Qed.

Lemma binds_split nodes L1 i L2 l b r : length L1 = length l → binds nodes (L1 ++ i :: L2) (l ++ b :: r) →
  length L2 = length r ∧ holds nodes i b ∧ binds nodes (L1 ++ L2) (l ++ r) ∧ i ∉ L1 ++ L2 ∧ fst b ∉ (l ++ r).*1.
Proof.
  intros Hl (Hf & [Hi Hnd]%NoDup_middle & Hk). rewrite fmap_app, fmap_cons in Hk. apply NoDup_middle in Hk as [Hb Hk].
  rewrite <- fmap_app in Hb, Hk. apply list.Forall2_app_inv in Hf as [Hf1 Hf2]; [|done]. inversion Hf2; subst.
  split_and!; [by eapply Forall2_length|done| |done|done]. split_and!; [by apply Forall2_app|done|done].
Qed.

Lemma binds_cons nodes i L b vs : holds nodes i b → binds nodes L vs → i ∉ L → fst b ∉ vs.*1 → binds nodes (i :: L) (b :: vs).
Proof. intros Hh (Hf & Hnd & Hk) Hi Hb. split_and!; [by constructor|by constructor|by constructor]. Qed.

Lemma binds_to_front nodes L1 i L2 l b r : length L1 = length l → binds nodes (L1 ++ i :: L2) (l ++ b :: r) →
  binds nodes (i :: L1 ++ L2) (b :: l ++ r).
Proof. intros Hl Hb. destruct (binds_split _ _ _ _ _ _ _ Hl Hb) as (_ & Hh & Hb' & Hi & Hk). by apply binds_cons. Qed.

(** Rewriting a node outside the list. *)
Lemma binds_frame nodes nodes' i n L vs : written nodes nodes' i n → i ∉ L → binds nodes L vs → binds nodes' L vs.
Proof.
  intros [_ Hw] Hi (Hf & Hnd & Hk). split_and!; [|done|done]. clear Hnd Hk.
  induction Hf as [|j b L vs Hj Hf IH]; constructor; [|apply IH; set_solver].
  destruct Hj as (m & Hm & Hp). exists m. rewrite Hw, decide_False by set_solver. done.
Qed.

(** Overwriting the value of a node. *)
Lemma binds_value nodes nodes' L1 i L2 l b r n v : length L1 = length l → binds nodes (L1 ++ i :: L2) (l ++ b :: r) →
  written nodes nodes' i n → pkey (payload n) = fst b → pval (payload n) = v → pused (payload n) = true →
  binds nodes' (L1 ++ i :: L2) (l ++ (fst b, v) :: r).
Proof.
  intros Hl Hb Hw Hk Hv Hu. destruct Hb as (Hf & Hnd & Hndk). pose proof (proj1 (NoDup_middle _ _ _) Hnd) as [Hi _].
  split_and!; [|done|by rewrite fmap_app, fmap_cons in *].
  apply list.Forall2_app_inv in Hf as [Hf1 Hf2]; [|done]. inversion Hf2 as [|? ? ? ? Hh Hf3]; subst.
  assert (∀ L' vs', Forall2 (holds nodes) L' vs' → i ∉ L' → Forall2 (holds nodes') L' vs') as Hfr.
  { intros L' vs' HF Hi'. induction HF as [|j c L' vs' Hj HF IH]; constructor; [|apply IH; set_solver].
    destruct Hj as (m & Hm & Hp). exists m. destruct Hw as [_ ->]. rewrite decide_False by set_solver. done. }
  apply Forall2_app; [apply Hfr; [done|set_solver]|]. constructor; [|apply Hfr; [done|set_solver]].
  exists n. destruct Hw as [_ ->]. by rewrite decide_True.
Qed.

(** ** Looking a key up in the table *)

Definition table_ok (t : list Z) (L : list Z) (vs : list (Z * V)) : Prop :=
  probe_wf t (keymap L vs) ∧ Z.of_nat (length L) < SIZE.

Lemma core_find_None nodes t L vs k : binds nodes L vs → table_ok t L vs → find_binding k vs = None →
  probe_find (node_hit nodes) k t = Ret (-1).
Proof.
  intros Hb [Hwf _] Hf%find_binding_None. eapply probe_find_spec; [done|by apply binds_sees|by eapply binds_distinct|].
  intros i Hi. apply keymap_lookup in Hi; [|by eapply binds_length|apply Hb]. apply Hf.
  apply list_elem_of_lookup in Hi as [n (x & y & [= <- <-] & _ & Hk)%lookup_zip_with_Some].
  by eapply list_elem_of_lookup_2.
Qed.

(** The place of a binding, in the list and in the array. *)
Lemma core_find_Some nodes t L vs k v : binds nodes L vs → table_ok t L vs → find_binding k vs = Some v →
  ∃ L1 i L2 l r, L = L1 ++ i :: L2 ∧ vs = l ++ (k, v) :: r ∧ length L1 = length l ∧ drop_binding k vs = l ++ r ∧
    probe_find (node_hit nodes) k t = Ret i ∧ i ≠ -1.
Proof.
  intros Hb [Hwf _] (l & r & -> & Hl & Hd)%find_binding_Some. pose proof (binds_length _ _ _ Hb) as Hlen.
  rewrite length_app in Hlen. simpl in Hlen.
  destruct (lookup_lt_is_Some_2 L (length l)) as [i Hi]; [lia|]. exists (take (length l) L), i, (drop (S (length l)) L), l, r.
  assert (L = take (length l) L ++ i :: drop (S (length l)) L) as E by (symmetry; by apply take_drop_middle).
  assert (length (take (length l) L) = length l) as Hl1 by (rewrite length_take; lia).
  assert (i ∉ take (length l) L) as Hnot.
  { destruct Hb as (_ & Hnd & _). rewrite E in Hnd. apply NoDup_middle in Hnd as [Hn _]. set_solver. }
  assert (keymap L (l ++ (k, v) :: r) !! i = Some k) as Hk.
  { rewrite E at 1. destruct (keymap_middle (take (length l) L) i (drop (S (length l)) L) l (k, v) r Hl1); done. }
  split_and!; [done|done|done|done| |by destruct (wf_reach _ _ Hwf i k Hk)].
  destruct (probe_find_spec (node_hit nodes) t _ k Hwf) as [Hfind _];
    [by apply binds_sees|by eapply binds_distinct|by apply Hfind].
Qed.

(** ** Changing the table with the list *)

Lemma table_to_front t L1 i L2 l b r : length L1 = length l → length L2 = length r → NoDup (L1 ++ i :: L2) →
  table_ok t (L1 ++ i :: L2) (l ++ b :: r) → table_ok t (i :: L1 ++ L2) (b :: l ++ r).
Proof.
  intros H1 H2 Hnd [Hwf Hs]. split; [by rewrite keymap_to_front|]. simpl. rewrite !length_app in *. simpl in *. lia.
Qed.

Lemma table_value t L1 i L2 l b r v : length L1 = length l →
  table_ok t (L1 ++ i :: L2) (l ++ b :: r) → table_ok t (L1 ++ i :: L2) (l ++ (fst b, v) :: r).
Proof. intros Hl [Hwf Hs]. split; [|done]. unfold keymap in *. by rewrite fmap_app, fmap_cons in *. Qed.

Lemma core_remove nodes t L1 i L2 l b r : length L1 = length l → binds nodes (L1 ++ i :: L2) (l ++ b :: r) →
  table_ok t (L1 ++ i :: L2) (l ++ b :: r) →
  ∃ t', probe_remove (node_hit nodes) (node_key nodes) (fst b) t = Ret (true, t') ∧ table_ok t' (L1 ++ L2) (l ++ r).
Proof.
  intros Hl Hb [Hwf Hs]. pose proof (binds_length _ _ _ Hb) as Hlen.
  destruct (binds_split _ _ _ _ _ _ _ Hl Hb) as (Hl2 & _ & _ & Hi & _). pose proof Hb as (_ & Hnd & _).
  destruct (probe_remove_spec (node_hit nodes) (node_key nodes) t (keymap (L1 ++ i :: L2) (l ++ b :: r)) (fst b) i)
    as (t' & E & Hwf'); [done|by apply binds_sees|by apply binds_knows|by eapply binds_distinct| |by rewrite keymap_size|].
  - destruct (keymap_middle L1 i L2 l b r Hl) as [|Hin]; [done|set_solver].
  - exists t'. split; [done|]. rewrite keymap_delete in Hwf' by done. split; [done|].
    rewrite !length_app in *. simpl in *. lia.
Qed.

Lemma core_insert t L vs i b : length L = length vs → table_ok t L vs → i ∉ L → i ≠ -1 →
  Z.of_nat (length L) + 1 < SIZE → NoDup L →
  ∃ t', probe_insert (fst b) i t = Ret (true, t') ∧ table_ok t' (i :: L) (b :: vs).
Proof.
  intros Hl [Hwf Hs] Hi Hne Hsz Hnd. destruct (probe_insert_spec t (keymap L vs) (fst b) i Hwf) as (t' & E & Hwf');
    [by apply keymap_None|done|by rewrite keymap_size|]. exists t'. split; [done|]. split; [|simpl; lia].
  unfold keymap. rewrite fmap_cons. exact Hwf'.
Qed.

(** Moving a binding to the front. *)
Lemma core_to_head nodes hd tl t L1 i L2 l b r : length L1 = length l →
  list_ok nodes hd tl (L1 ++ i :: L2) → binds nodes (L1 ++ i :: L2) (l ++ b :: r) → table_ok t (L1 ++ i :: L2) (l ++ b :: r) →
  ∃ nodes', to_head i hd tl nodes = Ret (nodes', i, final (i :: L1 ++ L2)) ∧
    list_ok nodes' i (final (i :: L1 ++ L2)) (i :: L1 ++ L2) ∧ binds nodes' (i :: L1 ++ L2) (b :: l ++ r) ∧
    table_ok t (i :: L1 ++ L2) (b :: l ++ r) ∧ relinked nodes nodes' (L1 ++ i :: L2).
Proof.
  intros Hl Hlist Hb Ht. destruct (to_head_spec nodes hd tl L1 i L2 Hlist) as (nodes' & E & Hlist' & Hr).
  exists nodes'. destruct (binds_split _ _ _ _ _ _ _ Hl Hb) as (Hl2 & _). pose proof Hb as (_ & Hnd & _).
  split_and!; [done|done| |by apply table_to_front|done].
  apply binds_to_front; [done|]. by eapply binds_relinked.
Qed.

End Core.
