(* ===== verification/LruHash.v ===== *)
(** * lruCache/simple/lruCacheWithHashing.c

    The fixed-size cache with an open-addressing table and a recency list
    through array indices.  Its list code is that of IndexList, its table that
    of ProbeTable. *)

From stdpp Require Import base list gmap numbers.
From Stdlib Require Import ZArith Lia.
From S2P Require Import Prelude LruSpec ProbeTable IndexList LruCore.

Definition CAPACITY : Z := 16.
Definition HT_SIZE : Z := 32.
Abbreviation NULL_IDX := (-1).

Record node_t := mkNode { key : Z; value : Z; n_prev : Z; n_next : Z; used : bool }.

#[export] Instance node_t_links : LinkNode node_t (Z * Z * bool) := {|
  prev := n_prev; next := n_next;
  payload n := (key n, value n, used n);
  set_prev z n := mkNode (key n) (value n) z (n_next n) (used n);
  set_next z n := mkNode (key n) (value n) (n_prev n) z (used n);
  prev_set_prev _ _ := eq_refl; next_set_prev _ _ := eq_refl; payload_set_prev _ _ := eq_refl;
  prev_set_next _ _ := eq_refl; next_set_next _ _ := eq_refl; payload_set_next _ _ := eq_refl
|}.

Record lru_cache_t := mkCache {
  nodes : list node_t; head_ : Z; tail_ : Z; free_head : Z; size_ : Z; ht : list Z
}.

Definition ht_mask : Z := HT_SIZE - 1.

Definition hash32 (x : Z) : Z :=
  let x := u32 x in
  let x := Z.lxor x (Z.shiftr x 16) in
  let x := u32 (x * 0x7feb352d) in
  let x := Z.lxor x (Z.shiftr x 15) in
  let x := u32 (x * 0x846ca68b) in
  Z.lxor x (Z.shiftr x 16).

Definition lru_init : lru_cache_t :=
  (* memset and the first loop *)
  let n0 := replicate (Z.to_nat CAPACITY) (mkNode 0 0 NULL_IDX NULL_IDX false) in
  (* the free list *)
  let n1 := imap (λ i n, mkNode (key n) (value n)
    (if Z.of_nat i =? 0 then NULL_IDX else Z.of_nat i - 1)
    (if Z.of_nat i =? CAPACITY - 1 then NULL_IDX else Z.of_nat i + 1) (used n)) n0 in
  mkCache n1 NULL_IDX NULL_IDX 0 0 (replicate (Z.to_nat HT_SIZE) NULL_IDX).

Definition set_nodes (ns : list node_t) (c : lru_cache_t) : lru_cache_t :=
  mkCache ns (head_ c) (tail_ c) (free_head c) (size_ c) (ht c).
Definition set_ht (t : list Z) (c : lru_cache_t) : lru_cache_t :=
  mkCache (nodes c) (head_ c) (tail_ c) (free_head c) (size_ c) t.
Definition set_used (b : bool) (n : node_t) : node_t := mkNode (key n) (value n) (n_prev n) (n_next n) b.
Definition set_value (v : Z) (n : node_t) : node_t := mkNode (key n) v (n_prev n) (n_next n) (used n).
Definition set_key (k : Z) (n : node_t) : node_t := mkNode k (value n) (n_prev n) (n_next n) (used n).

Definition alloc_node (c : lru_cache_t) : outcome (Z * lru_cache_t) :=
  if free_head c =? NULL_IDX then Ret (NULL_IDX, c) else
  let i := free_head c in
  n ← vget (nodes c) i;
  let free_head := n_next n in
  ns ← update (nodes c) i (λ n, set_next NULL_IDX (set_prev NULL_IDX n));
  ns ← update ns i (set_used true);
  Ret (i, mkCache ns (head_ c) (tail_ c) free_head (size_ c) (ht c)).

Definition free_node (i : Z) (c : lru_cache_t) : outcome lru_cache_t :=
  ns ← update (nodes c) i (set_used false);
  ns ← update ns i (set_next (free_head c));
  ns ← update ns i (set_prev NULL_IDX);
  Ret (mkCache ns (head_ c) (tail_ c) i (size_ c) (ht c)).

Definition ht_home (key : Z) : Z := Z.land (hash32 key) ht_mask.
Definition ht_slot (h probe : Z) : Z := Z.land (u32 (h + probe)) ht_mask.

Lemma ht_home_range k : 0 ≤ ht_home k < HT_SIZE.
Proof. unfold ht_home. change ht_mask with (Z.ones 5). rewrite Z.land_ones by lia. by apply Z.mod_pos_bound. Qed.

Lemma ht_slot_mod b p : 0 ≤ b < HT_SIZE → 0 ≤ p ≤ HT_SIZE → ht_slot b p = (b + p) mod HT_SIZE.
Proof.
  intros Hb Hp. unfold HT_SIZE, ht_slot in *. change ht_mask with (Z.ones 5). rewrite Z.land_ones by lia.
  by rewrite u32_small by lia.
Qed.

#[export] Instance ht_geometry : Geometry := {|
  SIZE := HT_SIZE; home := ht_home; slot_at := ht_slot;
  SIZE_pos := eq_refl; home_range := ht_home_range; slot_at_mod := ht_slot_mod
|}.

Definition pkey (p : Z * Z * bool) : Z := p.1.1.
Definition pval (p : Z * Z * bool) : Z := p.1.2.
Definition pused (p : Z * Z * bool) : bool := p.2.

Definition ht_find (c : lru_cache_t) (key : Z) : outcome Z :=
  probe_find (node_hit pkey pused (nodes c)) key (ht c).

Definition ht_insert (key node_idx : Z) (c : lru_cache_t) : outcome (bool * lru_cache_t) :=
  '(ok, t) ← probe_insert key node_idx (ht c);
  Ret (ok, set_ht t c).

Definition ht_remove (key : Z) (c : lru_cache_t) : outcome lru_cache_t :=
  '(_, t) ← probe_remove (node_hit pkey pused (nodes c)) (node_key pkey (nodes c)) key (ht c);
  Ret (set_ht t c).

Definition move_to_head (i : Z) (c : lru_cache_t) : outcome lru_cache_t :=
  '(ns, h, t) ← to_head i (head_ c) (tail_ c) (nodes c);
  Ret (mkCache ns h t (free_head c) (size_ c) (ht c)).

Definition remove_tail (c : lru_cache_t) : outcome (Z * lru_cache_t) :=
  let t := tail_ c in
  if t =? NULL_IDX then Ret (NULL_IDX, c) else
  n ← vget (nodes c) t;
  let p := n_prev n in
  ns ← (if p =? NULL_IDX then Ret (nodes c) else update (nodes c) p (set_next NULL_IDX));
  let tail := p in
  let head := if tail =? NULL_IDX then NULL_IDX else head_ c in
  ns ← update ns t (λ n, set_next NULL_IDX (set_prev NULL_IDX n));
  Ret (t, mkCache ns head tail (free_head c) (size_ c) (ht c)).

(** [want]: the caller passed a pointer for the value. *)
Definition lru_get (want : bool) (key : Z) (c : lru_cache_t) : outcome (bool * option Z * lru_cache_t) :=
  idx ← ht_find c key;
  if idx =? NULL_IDX then Ret (false, None, c) else
  c ← move_to_head idx c;
  out ← (if want then (n ← vget (nodes c) idx; Ret (Some (value n))) else Ret None);
  Ret (true, out, c).

(** The node for a new entry: the evicted one of a full cache, or a free one. *)
Definition claim_node (c : lru_cache_t) : outcome (Z * lru_cache_t) :=
  if CAPACITY <=? size_ c then
    '(ev, c) ← remove_tail c;
    if ev =? NULL_IDX then Ret (NULL_IDX, c) else
    n ← vget (nodes c) ev;
    c ← ht_remove (key n) c;
    Ret (ev, c)
  else
    '(idx, c) ← alloc_node c;
    if idx =? NULL_IDX then Ret (NULL_IDX, c) else
    Ret (idx, mkCache (nodes c) (head_ c) (tail_ c) (free_head c) (size_ c + 1) (ht c)).

(** Filling the node, entering it into the table and pushing it to the head. *)
Definition fill_node (key value idx : Z) (c : lru_cache_t) : outcome (bool * lru_cache_t) :=
  ns ← update (nodes c) idx (set_key key);
  ns ← update ns idx (set_value value);
  ns ← update ns idx (λ n, set_next NULL_IDX (set_prev NULL_IDX n));
  '(ok, c) ← ht_insert key idx (set_nodes ns c);
  if negb ok then
    c ← free_node idx c;
    Ret (false, mkCache (nodes c) (head_ c) (tail_ c) (free_head c) (size_ c - 1) (ht c))
  else
  ns ← (if head_ c =? NULL_IDX then Ret (nodes c) else
    ns ← update (nodes c) idx (set_next (head_ c));
    update ns (head_ c) (set_prev idx));
  let tail := if tail_ c =? NULL_IDX then idx else tail_ c in
  Ret (true, mkCache ns idx tail (free_head c) (size_ c) (ht c)).

Definition lru_put (key value : Z) (c : lru_cache_t) : outcome (bool * lru_cache_t) :=
  idx ← ht_find c key;
  if negb (idx =? NULL_IDX) then
    ns ← update (nodes c) idx (set_value value);
    c ← move_to_head idx (set_nodes ns c);
    Ret (true, c)
  else
  '(idx, c) ← claim_node c;
  if idx =? NULL_IDX then Ret (false, c) else fill_node key value idx c.

(** [lru_dump] prints the entries from the head on. *)
Fixpoint lru_dump (fuel : nat) (i : Z) (ns : list node_t) : outcome (list (Z * Z)) :=
  match fuel with
  | O => Err OutOfFuel
  | S fuel =>
      if i =? NULL_IDX then Ret [] else
      n ← vget ns i;
      rest ← lru_dump fuel (n_next n) ns;
      Ret ((key n, value n) :: rest)
  end.

(** ** The invariant *)

(** The free nodes, linked by [next]. *)
Fixpoint free_chain (ns : list node_t) (h : Z) (F : list Z) : Prop :=
  match F with
  | [] => h = NULL_IDX
  | i :: F => h = i ∧ ∃ n, node_at ns i = Some n ∧ free_chain ns (n_next n) F
  end.

Record lru_inv (c : lru_cache_t) (L F : list Z) (vs : list (Z * Z)) : Prop := {
  li_length : length (nodes c) = 16%nat;
  li_list : list_ok (nodes c) (head_ c) (tail_ c) L;
  li_free : free_chain (nodes c) (free_head c) F;
  li_disjoint : NoDup (L ++ F);
  li_count : (length L + length F = 16)%nat;
  li_size : size_ c = Z.of_nat (length L);
  li_binds : binds pkey pused pval (nodes c) L vs;
  li_table : table_ok (ht c) L vs
}.

Definition lru_hash_rep (c : lru_cache_t) (vs : list (Z * Z)) : Prop := ∃ L F, lru_inv c L F vs.

Lemma free_chain_ext ns ns' F : (∀ i, i ∈ F → node_at ns' i = node_at ns i) → ∀ h, free_chain ns h F → free_chain ns' h F.
Proof.
  induction F as [|i F IH]; intros Hext h; simpl; [done|]. intros (-> & n & Hn & Hc). split; [done|]. exists n.
  rewrite Hext by left. split; [done|]. apply IH; [|done]. intros j Hj. apply Hext. by right.
Qed.

Lemma free_chain_relinked ns ns' L F h : relinked ns ns' L → NoDup (L ++ F) → free_chain ns h F → free_chain ns' h F.
Proof.
  intros (_ & _ & Hf) (_ & Hd & _)%list.NoDup_app. apply free_chain_ext. intros i Hi. apply Hf. intros Hl.
  by apply (Hd i Hl).
Qed.

Lemma lru_init_inv : lru_inv lru_init [] (Z.of_nat <$> seq 0 16) [].
Proof.
  split; [done| | |apply NoDup_fmap_2; [apply _|apply NoDup_seq]|done|done| |].
  - split_and!; [done|constructor|done|done].
  - vm_compute. repeat (split; [done|]; eexists; split; [done|]). done.
  - split_and!; [constructor|constructor|constructor].
  - split; [|done]. apply probe_wf_empty; [done|]. intros y i Hi. unfold look in Hi.
    change (ht lru_init) with (replicate 32 (-1)) in Hi. by apply lookup_replicate in Hi as [-> _].
Qed.

(** ** Lookups *)

Lemma move_to_head_inv c L1 i L2 F l b r : length L1 = length l → lru_inv c (L1 ++ i :: L2) F (l ++ b :: r) →
  ∃ c', move_to_head i c = Ret c' ∧ lru_inv c' (i :: L1 ++ L2) F (b :: l ++ r).
Proof.
  intros Hl Hinv. unfold move_to_head.
  destruct (core_to_head pkey pused pval (nodes c) (head_ c) (tail_ c) (ht c) L1 i L2 l b r) as
    (ns & -> & Hlist & Hb & Ht & Hr); [done|apply Hinv..|]. rewrite bind_Ret. eexists. split; [done|].
  split; simpl; [by destruct Hr as [-> _]; apply Hinv|done| | | | |done|done].
  - eapply free_chain_relinked; [done|apply Hinv|apply Hinv].
  - pose proof (li_disjoint _ _ _ _ Hinv) as Hnd. rewrite <- app_assoc in Hnd |- *. simpl in Hnd.
    by apply list.NoDup_cons, NoDup_middle.
  - pose proof (li_count _ _ _ _ Hinv) as Hc. rewrite !length_app in *. simpl in *. lia.
  - rewrite (li_size _ _ _ _ Hinv), !length_app. simpl. lia.
Qed.

Lemma lru_get_spec want c vs k : lru_hash_rep c vs →
  ∃ c', lru_get want k c = Ret (bool_decide (is_Some (fst (spec_get k vs))),
      (if want then fst (spec_get k vs) else None), c') ∧ lru_hash_rep c' (snd (spec_get k vs)).
Proof.
  intros (L & F & Hinv). unfold lru_get, ht_find, spec_get. destruct (find_binding k vs) as [v|] eqn:Hf.
  - destruct (core_find_Some pkey pused pval (nodes c) (ht c) L vs k v) as
      (L1 & i & L2 & l & r & -> & -> & Hl & -> & -> & Hi); [apply Hinv|apply Hinv|done|].
    rewrite bind_Ret, (proj2 (Z.eqb_neq i NULL_IDX)) by done.
    destruct (move_to_head_inv c L1 i L2 F l (k, v) r Hl Hinv) as (c' & -> & Hinv'). rewrite bind_Ret.
    exists c'. split; [|simpl; unfold lru_hash_rep; eauto].
    pose proof (li_binds _ _ _ _ Hinv') as (Hfa & _ & _). inversion Hfa as [|? ? ? ? (n & Hn & _ & Hv & _)]; subst.
    destruct want; [|done]. rewrite (proj1 (node_at_Some _ _ _) Hn), !bind_Ret. simpl in Hv. unfold pval in Hv. simpl in Hv.
    by rewrite Hv.
  - rewrite (core_find_None pkey pused pval (nodes c) (ht c) L vs k), bind_Ret; [|apply Hinv|apply Hinv|done].
    exists c. destruct want; (split; [done|]; by exists L, F).
Qed.

(** ** Stores *)

(** A cache in which the node [idx] has been claimed for a new entry. *)
Record claimed (c : lru_cache_t) (idx : Z) (L F : list Z) (vs : list (Z * Z)) : Prop := {
  cl_length : length (nodes c) = 16%nat;
  cl_list : list_ok (nodes c) (head_ c) (tail_ c) L;
  cl_free : free_chain (nodes c) (free_head c) F;
  cl_disjoint : NoDup (idx :: L ++ F);
  cl_count : (S (length L) + length F = 16)%nat;
  cl_size : size_ c = Z.of_nat (S (length L));
  cl_binds : binds pkey pused pval (nodes c) L vs;
  cl_table : table_ok (ht c) L vs;
  cl_used : ∃ n, node_at (nodes c) idx = Some n ∧ used n = true
}.

Lemma final_null ns L : chained ns (-1) L (-1) → final L = -1 ↔ L = [].
Proof.
  intros Hc. split; [|by intros ->]. intros E. destruct (exists_last_or_nil L) as [|(L' & t & ->)]; [done|].
  unfold final in E. rewrite last_snoc in E. simpl in E. exfalso. eapply (chained_nonneg _ _ _ _ t); [done|set_solver|done].
Qed.

Lemma remove_tail_spec c L1 t l b : length L1 = length l → lru_inv c (L1 ++ [t]) [] (l ++ [b]) →
  ∃ c', remove_tail c = Ret (t, c') ∧ length (nodes c') = 16%nat ∧ list_ok (nodes c') (head_ c') (tail_ c') L1 ∧
    free_head c' = free_head c ∧ size_ c' = size_ c ∧ ht c' = ht c ∧
    binds pkey pused pval (nodes c') (L1 ++ [t]) (l ++ [b]).
Proof.
  intros Hl Hinv. pose proof (li_list _ _ _ _ Hinv) as (Hc & Hnd & Hh & Ht). unfold remove_tail.
  assert (tail_ c = t) as -> by (rewrite Ht, final_app; done).
  rewrite (proj2 (Z.eqb_neq t NULL_IDX)) by (eapply chained_nonneg; [exact Hc|set_solver]).
  destruct (chained_nodes _ _ _ _ t Hc) as [n Hn]; [set_solver|].
  rewrite (proj1 (node_at_Some _ _ _) Hn), bind_Ret. destruct (links_inside _ _ _ _ _ Hc Hn) as [Hp _].
  simpl in Hp. rewrite Hp. apply NoDup_middle in Hnd as [Htn Hnd]. rewrite app_nil_r in Htn, Hnd.
  apply chained_app in Hc as [Hc1 _].
  destruct (set_next_end (nodes c) L1 _ (-1) Hc1 Hnd) as (ns1 & -> & Hc1' & Hr1). rewrite bind_Ret.
  assert (node_at ns1 t = Some n) as Hn1 by (destruct Hr1 as (_ & _ & Hf); by rewrite Hf).
  destruct (update_written ns1 t (λ n, set_next NULL_IDX (set_prev NULL_IDX n)) n Hn1) as (ns2 & -> & Hw).
  rewrite bind_Ret. eexists. split; [done|]. simpl.
  assert (chained ns2 (-1) L1 (-1)) as Hc2 by (by eapply chained_frame).
  split_and!; [destruct Hw as [-> _], Hr1 as [-> _]; apply Hinv| |done|done|done|].
  - split_and!; [done|done| |done]. destruct (Z.eqb_spec (final L1) NULL_IDX) as [E|E].
    + by apply (final_null _ _ Hc2) in E as ->.
    + rewrite Hh. by destruct L1.
  - eapply binds_relinked; [|eapply binds_relinked; [exact Hr1|apply Hinv]].
    eapply (written_relinked _ _ _ n); [done| |exact Hw]. done.
Qed.

Lemma claim_evicts c L F vs : lru_inv c L F vs → 16 ≤ size_ c →
  ∃ c' idx L' F', claim_node c = Ret (idx, c') ∧ claimed c' idx L' F' (take 15 vs).
Proof.
  intros Hinv Hs. pose proof (li_size _ _ _ _ Hinv). pose proof (li_count _ _ _ _ Hinv).
  assert (F = []) as -> by (destruct F; [done|simpl in *; lia]).
  pose proof (binds_length _ _ _ _ _ _ (li_binds _ _ _ _ Hinv)) as Hlen. simpl in *.
  destruct (exists_last_or_nil L) as [->|(L1 & t & ->)]; [simpl in *; lia|].
  destruct (exists_last_or_nil vs) as [->|(l & b & ->)]; [rewrite length_app in *; simpl in *; lia|].
  rewrite !length_app in *. simpl in *. assert (length L1 = length l) as Hl by lia.
  assert (take 15 (l ++ [b]) = l) as -> by (rewrite take_app_le by lia; apply take_ge; lia).
  unfold claim_node, CAPACITY. rewrite (proj2 (Z.leb_le _ _)) by lia.
  destruct (remove_tail_spec c L1 t l b Hl Hinv) as (c1 & -> & Hlen1 & Hlist & Hfh & Hsz & Hht & Hb). rewrite bind_Ret.
  destruct (binds_split _ _ _ _ _ _ _ _ _ _ Hl Hb) as (_ & (n & Hn & Hk & Hv & Hu) & Hb' & Hti & _).
  rewrite !app_nil_r in *. pose proof (node_at_range _ _ _ Hn).
  rewrite (proj2 (Z.eqb_neq t NULL_IDX)) by lia. rewrite (proj1 (node_at_Some _ _ _) Hn), bind_Ret.
  pose proof (li_table _ _ _ _ Hinv) as Htab. rewrite <- Hht in Htab. unfold ht_remove.
  change (key n) with (pkey (payload n)). rewrite Hk.
  destruct (core_remove pkey pused pval (nodes c1) (ht c1) L1 t [] l b [] Hl Hb Htab) as (tb & -> & Htab').
  rewrite !app_nil_r in Htab'. rewrite !bind_Ret. eexists _, t, L1, []. split; [done|].
  split; simpl; [done|done| | |lia| |done|done|eauto].
  - rewrite Hfh. apply Hinv.
  - rewrite app_nil_r. constructor; [done|apply Hlist].
  - lia.
Qed.

Lemma claim_allocs c L F vs : lru_inv c L F vs → size_ c < 16 →
  ∃ c' idx L' F', claim_node c = Ret (idx, c') ∧ claimed c' idx L' F' (take 15 vs).
Proof.
  intros Hinv Hs. pose proof (li_size _ _ _ _ Hinv). pose proof (li_count _ _ _ _ Hinv).
  pose proof (binds_length _ _ _ _ _ _ (li_binds _ _ _ _ Hinv)) as Hlen.
  rewrite (take_ge vs) by lia. unfold claim_node, CAPACITY. rewrite (proj2 (Z.leb_gt _ _)) by lia.
  destruct F as [|i F]; [simpl in *; lia|]. pose proof (li_free _ _ _ _ Hinv) as (Hfh & n & Hn & Hfc).
  pose proof (node_at_range _ _ _ Hn). unfold alloc_node. rewrite Hfh.
  assert (i ≠ NULL_IDX) as Hi by lia. rewrite (proj2 (Z.eqb_neq _ _) Hi).
  rewrite (proj1 (node_at_Some _ _ _) Hn), bind_Ret.
  destruct (update_written (nodes c) i (λ n, set_next NULL_IDX (set_prev NULL_IDX n)) n Hn) as (ns1 & -> & Hw1).
  rewrite bind_Ret. assert (node_at ns1 i = Some (set_next NULL_IDX (set_prev NULL_IDX n))) as Hn1
    by (destruct Hw1 as [_ ->]; by rewrite decide_True).
  destruct (update_written ns1 i (set_used true) _ Hn1) as (ns2 & -> & Hw2). rewrite !bind_Ret.
  rewrite (proj2 (Z.eqb_neq _ _) Hi). eexists _, i, L, F. split; [done|].
  pose proof (li_disjoint _ _ _ _ Hinv) as [HiLF Hnd]%NoDup_middle.
  split; simpl; [|split_and!| |by constructor|simpl in *; lia|lia| |apply Hinv|].
  - destruct Hw2 as [-> _], Hw1 as [-> _]. apply Hinv.
  - do 2 (eapply chained_frame; [done|set_solver|]). apply Hinv.
  - apply Hinv.
  - apply Hinv.
  - apply Hinv.
  - eapply free_chain_ext; [|exact Hfc]. intros j Hj. destruct Hw2 as [_ ->], Hw1 as [_ ->].
    assert (j ≠ i) by set_solver. by rewrite !decide_False.
  - do 2 (eapply binds_frame; [done|set_solver|]). apply Hinv.
  - destruct Hw2 as [_ ->]. rewrite decide_True by done. eauto.
Qed.

(** Writing the fields of a claimed node. *)
Lemma fill_fields c idx n k v : node_at (nodes c) idx = Some n →
  ∃ ns1 ns2 ns, update (nodes c) idx (set_key k) = Ret ns1 ∧ update ns1 idx (set_value v) = Ret ns2 ∧
    update ns2 idx (λ n, set_next NULL_IDX (set_prev NULL_IDX n)) = Ret ns ∧
    written (nodes c) ns idx (mkNode k v NULL_IDX NULL_IDX (used n)).
Proof.
  intros Hn. destruct (update_written (nodes c) idx (set_key k) n Hn) as (ns1 & E1 & Hw1).
  assert (node_at ns1 idx = Some (set_key k n)) as Hn1 by (destruct Hw1 as [_ ->]; by rewrite decide_True).
  destruct (update_written ns1 idx (set_value v) _ Hn1) as (ns2 & E2 & Hw2).
  assert (node_at ns2 idx = Some (set_value v (set_key k n))) as Hn2 by (destruct Hw2 as [_ ->]; by rewrite decide_True).
  destruct (update_written ns2 idx (λ n, set_next NULL_IDX (set_prev NULL_IDX n)) _ Hn2) as (ns3 & E3 & Hw3).
  exists ns1, ns2, ns3. split_and!; [done..|]. destruct Hw1 as [? H1], Hw2 as [? H2], Hw3 as [? H3]. split; [congruence|].
  intros j. rewrite H3, H2, H1. by repeat case_decide.
Qed.

(** Pushing the filled node to the head. *)
Lemma push_filled ns idx L v k u : chained ns (-1) L (-1) → NoDup (idx :: L) →
  node_at ns idx = Some (mkNode k v NULL_IDX NULL_IDX u) →
  ∃ ns', (if first L =? NULL_IDX then Ret ns else
            ns ← update ns idx (set_next (first L)); update ns (first L) (set_prev idx)) = Ret ns' ∧
    chained ns' (-1) (idx :: L) (-1) ∧ relinked ns ns' (idx :: L).
Proof.
  intros Hc Hnd Hn. destruct L as [|h L].
  { exists ns. split_and!; [done| |apply il_relinked_refl]. by eexists. }
  unfold first. simpl head. simpl default. rewrite (proj2 (Z.eqb_neq h NULL_IDX)) by (eapply chained_nonneg; [done|left]).
  destruct (update_written ns idx (set_next h) _ Hn) as (ns1 & -> & Hw). rewrite bind_Ret.
  pose proof Hnd as [Hi _]%list.NoDup_cons.
  assert (chained ns1 (-1) (h :: L) (-1)) as Hc1 by (by eapply chained_frame).
  destruct (push_front_spec ns1 idx (set_next h (mkNode k v NULL_IDX NULL_IDX u)) (h :: L)) as (ns2 & E & Hc2 & Hr2);
    [done|done|destruct Hw as [_ ->]; by rewrite decide_True|done|done|].
  unfold first in E. simpl head in E. simpl default in E.
  rewrite (proj2 (Z.eqb_neq h (-1))) in E by (eapply chained_nonneg; [exact Hc1|left]).
  exists ns2. split_and!; [done|done|]. eapply il_relinked_trans.
  - eapply il_relinked_weaken; [eapply (written_relinked _ _ _ _ _ Hn); [|exact Hw]; done|set_solver].
  - eapply il_relinked_weaken; [exact Hr2|set_solver].
Qed.

Lemma fill_node_spec c idx L F vs k v : claimed c idx L F vs → k ∉ vs.*1 →
  ∃ c', fill_node k v idx c = Ret (true, c') ∧ lru_inv c' (idx :: L) F ((k, v) :: vs).
Proof.
  intros Hcl Hk. destruct (cl_used _ _ _ _ _ Hcl) as (n & Hn & Hu). pose proof (cl_disjoint _ _ _ _ _ Hcl) as Hnd.
  pose proof Hnd as [Hi HndLF]%list.NoDup_cons. pose proof HndLF as (HndL & _ & _)%list.NoDup_app.
  pose proof (cl_count _ _ _ _ _ Hcl). pose proof (node_at_range _ _ _ Hn).
  pose proof (binds_length _ _ _ _ _ _ (cl_binds _ _ _ _ _ Hcl)) as Hlen.
  pose proof (cl_list _ _ _ _ _ Hcl) as (Hc & _ & Hh & Ht).
  destruct (fill_fields c idx n k v Hn) as (ns1 & ns2 & ns & E1 & E2 & E3 & Hw).
  unfold fill_node, ht_insert. rewrite E1, bind_Ret, E2, bind_Ret, E3, bind_Ret. simpl ht. clear E1 E2 E3.
  destruct (core_insert (ht c) L vs idx (k, v) Hlen (cl_table _ _ _ _ _ Hcl)) as (t & Et & Htab);
    [set_solver|lia|simpl; unfold HT_SIZE; lia|done|].
  simpl fst in Et. rewrite Et, !bind_Ret. cbn [negb set_nodes set_ht nodes head_ tail_ free_head size_ ht]. rewrite Hh.
  assert (node_at ns idx = Some (mkNode k v NULL_IDX NULL_IDX (used n))) as Hns
    by (destruct Hw as [_ ->]; by rewrite decide_True).
  assert (idx ∉ L) as HiL by set_solver.
  destruct (push_filled ns idx L v k (used n)) as (ns' & -> & Hc' & Hr');
    [by eapply chained_frame|by constructor|done|]. rewrite bind_Ret. eexists. split; [done|].
  split; simpl; [| | |done|lia| | |done].
  - destruct Hr' as [-> _], Hw as [-> _]. apply Hcl.
  - split_and!; [done|by constructor|done|]. rewrite final_cons, Ht. pose proof (final_null _ _ Hc) as Hfn.
    destruct (Z.eqb_spec (final L) NULL_IDX) as [E1|E1]; case_decide; tauto.
  - eapply free_chain_ext; [|apply Hcl]. intros j Hj. pose proof HndLF as (_ & Hd & _)%list.NoDup_app.
    assert (j ≠ idx) by set_solver. destruct Hr' as (_ & _ & ->).
    + destruct Hw as [_ ->]. by rewrite decide_False.
    + apply not_elem_of_cons. split; [done|]. intros HjL. by apply (Hd j HjL).
  - rewrite (cl_size _ _ _ _ _ Hcl). done.
  - apply binds_cons; [|eapply binds_relinked; [exact Hr'|]; eapply binds_frame; [exact Hw|done|apply Hcl]|done|done].
    destruct (payload_at _ _ _ _ _ Hr' Hns) as (n' & Hn' & Ep). exists n'. rewrite Ep. by rewrite Hu.
Qed.

Lemma lru_put_spec c vs k v : lru_hash_rep c vs →
  ∃ c', lru_put k v c = Ret (true, c') ∧ lru_hash_rep c' (spec_put 16 k v vs).
Proof.
  intros (L & F & Hinv). unfold lru_put, ht_find, spec_put. destruct (find_binding k vs) as [w|] eqn:Hf.
  - destruct (core_find_Some pkey pused pval (nodes c) (ht c) L vs k w) as
      (L1 & i & L2 & l & r & -> & -> & Hl & -> & -> & Hi); [apply Hinv|apply Hinv|done|].
    rewrite bind_Ret, (proj2 (Z.eqb_neq i NULL_IDX)) by done. cbn [negb].
    destruct (binds_split _ _ _ _ _ _ _ _ _ _ Hl (li_binds _ _ _ _ Hinv)) as (_ & (n & Hn & Hk & _ & Hu) & _ & _ & _).
    destruct (update_written (nodes c) i (set_value v) n Hn) as (ns & -> & Hw). rewrite bind_Ret.
    destruct (move_to_head_inv (set_nodes ns c) L1 i L2 F l (k, v) r Hl) as (c' & -> & Hinv').
    + pose proof (li_list _ _ _ _ Hinv) as (Hc & Hnd & Hh & Ht).
      split; simpl; [destruct Hw as [-> _]; apply Hinv| |
        |apply Hinv|apply Hinv|apply Hinv| |exact (table_value _ _ _ _ _ (k, w) _ v Hl (li_table _ _ _ _ Hinv))].
      * split_and!; [|done|done|done]. eapply chained_ext; [|exact Hc]. intros j m Hj Hm. destruct Hw as [_ Hw].
        setoid_rewrite Hw. case_decide; [subst j; simplify_eq; eauto|eauto].
      * eapply free_chain_ext; [|apply Hinv]. intros j Hj. destruct Hw as [_ ->]. rewrite decide_False; [done|].
        intros ->. pose proof (li_disjoint _ _ _ _ Hinv) as (_ & Hd & _)%list.NoDup_app. apply (Hd i); [set_solver|done].
      * by apply (binds_value _ _ _ _ _ _ _ _ _ (k, w) _ (set_value v n) v Hl (li_binds _ _ _ _ Hinv)).
    + rewrite bind_Ret. exists c'. split; [done|]. unfold lru_hash_rep; eauto.
  - rewrite (core_find_None pkey pused pval (nodes c) (ht c) L vs k), bind_Ret; [|apply Hinv|apply Hinv|done].
    cbn [negb Z.eqb Pos.eqb].
    assert (∃ c' idx L' F', claim_node c = Ret (idx, c') ∧ claimed c' idx L' F' (take 15 vs)) as
      (c1 & idx & L' & F' & -> & Hcl).
    { destruct (Z.lt_ge_cases (size_ c) 16); [by eapply claim_allocs|eapply claim_evicts; [done|lia]]. }
    rewrite bind_Ret. destruct (cl_used _ _ _ _ _ Hcl) as (n & Hn%node_at_range & _).
    rewrite (proj2 (Z.eqb_neq idx NULL_IDX)) by lia.
    destruct (fill_node_spec c1 idx L' F' (take 15 vs) k v Hcl) as (c2 & -> & Hinv').
    + apply find_binding_None in Hf. rewrite fmap_take. intros (j & Hj & _)%elem_of_take. apply Hf.
      by eapply list_elem_of_lookup_2.
    + exists c2. split; [done|]. unfold lru_hash_rep; eauto.
Qed.

(** ** The cache as an instance of the interface *)

Definition hash_lookup (k : Z) (c : lru_cache_t) : outcome (option Z * lru_cache_t) :=
  '(_, r, c) ← lru_get true k c; Ret (r, c).
Definition hash_store (k v : Z) (c : lru_cache_t) : outcome lru_cache_t :=
  '(_, c) ← lru_put k v c; Ret c.

Lemma hash_lookup_spec c vs k : lru_hash_rep c vs → true = true →
  ∃ c', hash_lookup k c = Ret (fst (spec_get k vs), c') ∧ lru_hash_rep c' (snd (spec_get k vs)).
Proof.
  intros Hr _. unfold hash_lookup. destruct (lru_get_spec true c vs k Hr) as (c' & -> & Hr'). by exists c'.
Qed.

Lemma hash_store_spec c vs k v : lru_hash_rep c vs → true = true →
  ∃ c', hash_store k v c = Ret c' ∧ lru_hash_rep c' (spec_put 16 k v vs).
Proof.
  intros Hr _. unfold hash_store. destruct (lru_put_spec c vs k v Hr) as (c' & -> & Hr'). by exists c'.
Qed.

#[export] Instance lru_hash_cache : LruCache lru_cache_t Z := {|
  lru_cap := 16; lru_key _ := true; lru_rep := lru_hash_rep;
  lru_lookup := hash_lookup; lru_store := hash_store;
  lru_lookup_spec := hash_lookup_spec; lru_store_spec := hash_store_spec
|}.

Lemma lru_dump_spec ns L : ∀ p fuel (vs : list (Z * Z)), chained ns p L (-1) →
  Forall2 (holds pkey pused pval ns) L vs → (length L < fuel)%nat → lru_dump fuel (first L) ns = Ret vs.
Proof.
  induction L as [|i L IH]; intros p fuel vs Hc Hf Hl; (destruct fuel as [|fuel]; [simpl in Hl; lia|]).
  - by inversion Hf.
  - inversion Hf as [|? [k v] ? vs' (n & Hn & Hk & Hv & _) Hf']; subst. cbn [lru_dump].
    change (first (i :: L)) with i.
    rewrite (proj2 (Z.eqb_neq i NULL_IDX)) by (eapply chained_nonneg; [exact Hc|left]).
    destruct Hc as (m & Hm & _ & Hx & Hc). assert (m = n) as -> by congruence. rewrite (proj1 (node_at_Some _ _ _) Hn), bind_Ret.
    change (n_next n) with (next n). rewrite Hx. change (default (-1) (head L)) with (first L).
    rewrite (IH i fuel vs' Hc Hf'), bind_Ret by (simpl in Hl; lia). simpl in Hk, Hv. unfold pkey, pval in Hk, Hv.
    simpl in Hk, Hv. by rewrite Hk, Hv.
Qed.

(** C2: the cache answers every sequence of lookups and stores like the
    abstract LRU cache of capacity 16, no store fails and no array is accessed
    out of bounds; the recency list runs through exactly the bindings of the
    abstract cache in their order, and these are the 16 most recently used
    keys. *)
Theorem lru_hash_correct (os : list (lru_op Z)) :
  ∃ c, lru_run os lru_init = Ret (fst (spec_run 16 os []), c) ∧
    lru_dump 17 (head_ c) (nodes c) = Ret (snd (spec_run 16 os [])) ∧
    (∀ k v, ∃ c', lru_put k v c = Ret (true, c')) ∧
    (snd (spec_run 16 os [])).*1 = take 16 (distinct (uses 16 os [] [])).
Proof.
  destruct (lru_run_spec os lru_init []) as (c & E & Hr).
  - exists [], (Z.of_nat <$> seq 0 16). apply lru_init_inv.
  - by apply Forall_true.
  - exists c. split; [done|]. split; [|split; [|by apply spec_keys_recent; lia]].
    + destruct Hr as (L & F & Hinv). pose proof (li_list _ _ _ _ Hinv) as (Hc & _ & -> & _).
      eapply lru_dump_spec; [exact Hc|apply Hinv|]. pose proof (li_count _ _ _ _ Hinv). lia.
    + intros k v. destruct (lru_put_spec c _ k v Hr) as (c' & E' & _). eauto.
Qed.

(** The program's [main]: 18 stores with a lookup after every fifth one. *)
Example lru_main_dump :
  let os := flat_map (λ k, Put k (10 * k) :: if k mod 5 =? 0 then [Get (k - 2)] else []) (Z.of_nat <$> seq 1 18) in
  (r ← lru_run os lru_init; lru_dump 17 (head_ (snd r)) (nodes (snd r))) =
  Ret [(18, 180); (17, 170); (16, 160); (13, 130); (15, 150); (14, 140); (12, 120); (11, 110);
       (8, 80); (10, 100); (9, 90); (7, 70); (6, 60); (3, 30); (5, 50); (4, 40)].
Proof. vm_compute. reflexivity. Qed.

Lemma ht_remove_rep c vs k : lru_hash_rep c vs →
  ∃ c', ht_remove k c = Ret c' ∧ ht_find c' k = Ret (-1) ∧ ∀ k', k' ≠ k → ht_find c' k' = ht_find c k'.
Proof.
  intros (L & F & Hinv). pose proof (li_binds _ _ _ _ Hinv) as Hb. pose proof (li_table _ _ _ _ Hinv) as [Hwf Hs].
  pose proof (binds_sees _ _ _ _ _ _ Hb) as Hsees. pose proof (binds_distinct _ _ _ _ _ _ Hb) as Hdist.
  pose proof (binds_knows _ _ _ _ _ _ Hb) as Hkn. set (K := keymap L vs) in *. unfold ht_remove, ht_find.
  assert (size K = length L) as HK by (apply keymap_size; [by eapply binds_length|apply Hb]).
  destruct (find_binding k vs) as [v|] eqn:Hf.
  - assert (∃ i, K !! i = Some k) as [i Hi].
    { destruct (core_find_Some pkey pused pval (nodes c) (ht c) L vs k v Hb (conj Hwf Hs) Hf)
        as (L1 & i & L2 & l & r & -> & -> & Hl & _ & _ & _). exists i.
      destruct (keymap_middle L1 i L2 l (k, v) r Hl) as [|Hin]; [done|].
      destruct Hb as (_ & [Hn _]%NoDup_middle & _). set_solver. }
    destruct (probe_remove_spec _ _ _ _ k i Hwf Hsees Hkn Hdist Hi) as (t & E & Hwf'); [by rewrite HK|].
    rewrite E, bind_Ret. eexists. split; [done|]. simpl nodes. simpl ht.
    assert (sees (node_hit pkey pused (nodes c)) (delete i K)) as Hsees'
      by (intros j k' key' [_ Hj]%lookup_delete_Some; by apply Hsees).
    assert (distinct_keys (delete i K)) as Hdist'
      by (intros j j' k' [_ Hj]%lookup_delete_Some [_ Hj']%lookup_delete_Some; by eapply Hdist).
    split.
    + eapply probe_find_spec; [done..|]. intros j [Hji Hj]%lookup_delete_Some. apply Hji. by eapply Hdist.
    + intros k' Hk'. destruct (probe_find_spec _ _ _ k' Hwf Hsees Hdist) as [F1 F2].
      destruct (probe_find_spec _ _ _ k' Hwf' Hsees' Hdist') as [G1 G2].
      destruct (decide (Exists (λ p, p.2 = k') (map_to_list K))) as [He|Hno].
      * apply list.Exists_exists in He as ([j q] & Hj%elem_of_map_to_list & Eq). simpl in Eq. subst q.
        rewrite (F1 j Hj). apply G1. apply lookup_delete_Some. split; [|done]. intros ->. congruence.
      * assert (∀ j, K !! j ≠ Some k') as Hnone.
        { intros j Hj. apply Hno. apply list.Exists_exists. exists (j, k'). split; [by apply elem_of_map_to_list|done]. }
        rewrite (F2 Hnone). apply G2. intros j [_ Hj]%lookup_delete_Some. by apply Hnone in Hj.
  - assert (∀ i, K !! i ≠ Some k) as Hno.
    { intros i Hi. pose proof (core_find_None pkey pused pval (nodes c) (ht c) L vs k Hb (conj Hwf Hs) Hf) as Hnone.
      destruct (probe_find_spec _ _ _ k Hwf Hsees Hdist) as [F1 _]. rewrite (F1 i Hi) in Hnone.
      destruct (wf_reach _ _ Hwf i k Hi) as [Hne _]. congruence. }
    rewrite (probe_remove_miss _ _ _ _ k Hwf Hsees Hno), bind_Ret. eexists. split; [done|]. split; [|done].
    by apply (core_find_None pkey pused pval (nodes c) (ht c) L vs k).
Qed.

(** In every cache that a sequence of operations leads to, removing any key
    from the table ends: the loop that inserts the rest of the cluster again
    stops within one round over the table.  Afterwards the key is not found, and
    every other key is found where it was. *)
Theorem ht_remove_terminates (os : list (lru_op Z)) k :
  ∃ c c', lru_run os lru_init = Ret (fst (spec_run 16 os []), c) ∧ ht_remove k c = Ret c' ∧
    ht_find c' k = Ret (-1) ∧ ∀ k', k' ≠ k → ht_find c' k' = ht_find c k'.
Proof.
  destruct (lru_run_spec os lru_init []) as (c & E & Hr).
  - exists [], (Z.of_nat <$> seq 0 16). apply lru_init_inv.
  - by apply Forall_true.
  - destruct (ht_remove_rep c _ k Hr) as (c' & H1 & H2 & H3). exists c, c'. done.
Qed.
