(* ===== verification/PacketLru.v ===== *)
(** * lruCache/packet: hash.c and lru_packet_cache.c

    The packet cache: payloads of up to 1536 bytes under a 32-bit key, in an
    array of 64 nodes with a probing table of 131 slots, a recency list and a
    stack of free nodes. *)

From stdpp Require Import base list gmap numbers.
From Stdlib Require Import ZArith Lia.
From S2P Require Import Prelude LruSpec ProbeTable IndexList LruCore.

Definition CAPACITY : Z := 64.
Definition MAX_PACKET_SIZE : Z := 1536.
Definition HASH_SIZE : Z := 131.

Record lru_node_t := mkNode {
  key : Z; data : list Z; len : Z; valid : bool; n_prev : Z; n_next : Z
}.

#[export] Instance lru_node_links : LinkNode lru_node_t (Z * list Z * Z * bool) := {|
  prev := n_prev; next := n_next;
  payload n := (key n, data n, len n, valid n);
  set_prev z n := mkNode (key n) (data n) (len n) (valid n) z (n_next n);
  set_next z n := mkNode (key n) (data n) (len n) (valid n) (n_prev n) z;
  prev_set_prev _ _ := eq_refl; next_set_prev _ _ := eq_refl; payload_set_prev _ _ := eq_refl;
  prev_set_next _ _ := eq_refl; next_set_next _ _ := eq_refl; payload_set_next _ _ := eq_refl
|}.

Record lru_cache_t := mkCache {
  nodes : list lru_node_t; hash_table : list Z; head_ : Z; tail_ : Z;
  free_count : Z; size_ : Z; free_list : list Z
}.

(** ** hash.c *)

Definition hash_key (k : Z) : Z :=
  let x := u32 k in
  let x := u32 (Z.lxor (Z.shiftr x 16) x * 0x45d9f3b) in
  let x := u32 (Z.lxor (Z.shiftr x 16) x * 0x45d9f3b) in
  let x := Z.lxor (Z.shiftr x 16) x in
  x mod HASH_SIZE.

Definition hash_slot (base probe : Z) : Z := (base + probe) mod HASH_SIZE.

Lemma hash_key_range k : 0 ≤ hash_key k < HASH_SIZE.
Proof. by apply Z.mod_pos_bound. Qed.

#[export] Instance hash_geometry : Geometry := {|
  SIZE := HASH_SIZE; home := hash_key; slot_at := hash_slot;
  SIZE_pos := eq_refl; home_range := hash_key_range; slot_at_mod b p _ _ := eq_refl
|}.

Definition pkey (p : Z * list Z * Z * bool) : Z := p.1.1.1.
Definition pval (p : Z * list Z * Z * bool) : list Z := take (Z.to_nat p.1.2) p.1.1.2.
Definition pused (p : Z * list Z * Z * bool) : bool := p.2.

Definition hash_clear (table : list Z) : list Z := (λ _, -1) <$> table.

(** Returns the home slot of any key whose home slot is occupied: the loop never
    reaches a second round. *)
Definition hash_find_index (table : list Z) (key : Z) : outcome Z :=
  let slot := hash_slot (hash_key key) 0 in
  node_idx ← vget table slot;
  if node_idx =? -1 then Ret (-1) else Ret slot.

Definition set_table (t : list Z) (c : lru_cache_t) : lru_cache_t :=
  mkCache (nodes c) t (head_ c) (tail_ c) (free_count c) (size_ c) (free_list c).
Definition set_nodes (ns : list lru_node_t) (c : lru_cache_t) : lru_cache_t :=
  mkCache ns (hash_table c) (head_ c) (tail_ c) (free_count c) (size_ c) (free_list c).

Definition hash_lookup_node (c : lru_cache_t) (key : Z) : outcome Z :=
  probe_find (node_hit pkey pused (nodes c)) key (hash_table c).

Definition hash_insert (key node_index : Z) (c : lru_cache_t) : outcome (bool * lru_cache_t) :=
  '(ok, t) ← probe_insert key node_index (hash_table c);
  Ret (ok, set_table t c).

Definition hash_remove (key : Z) (c : lru_cache_t) : outcome (bool * lru_cache_t) :=
  '(ok, t) ← probe_remove (node_hit pkey pused (nodes c)) (node_key pkey (nodes c)) key (hash_table c);
  Ret (ok, set_table t c).

(** ** lru_packet_cache.c *)

Definition zero_node : lru_node_t := mkNode 0 (replicate (Z.to_nat MAX_PACKET_SIZE) 0) 0 false 0 0.

Definition lru_init : lru_cache_t :=
  let ns := replicate (Z.to_nat CAPACITY) zero_node in
  let ns := (λ n, mkNode (key n) (data n) (len n) false (-1) (-1)) <$> ns in
  mkCache ns (hash_clear (replicate (Z.to_nat HASH_SIZE) 0)) (-1) (-1) CAPACITY 0
    (Z.of_nat <$> seq 0 (Z.to_nat CAPACITY)).

Definition move_to_head (idx : Z) (c : lru_cache_t) : outcome lru_cache_t :=
  '(ns, h, t) ← to_head idx (head_ c) (tail_ c) (nodes c);
  Ret (mkCache ns (hash_table c) h t (free_count c) (size_ c) (free_list c)).

Definition set_valid (b : bool) (n : lru_node_t) : lru_node_t :=
  mkNode (key n) (data n) (len n) b (n_prev n) (n_next n).
Definition set_key (k : Z) (n : lru_node_t) : lru_node_t :=
  mkNode k (data n) (len n) (valid n) (n_prev n) (n_next n).
Definition set_len (l : Z) (n : lru_node_t) : lru_node_t :=
  mkNode (key n) (data n) l (valid n) (n_prev n) (n_next n).
Definition set_data (d : list Z) (n : lru_node_t) : lru_node_t :=
  mkNode (key n) d (len n) (valid n) (n_prev n) (n_next n).
Definition clear_links (n : lru_node_t) : lru_node_t := set_next (-1) (set_prev (-1) n).

Definition allocate_node (c : lru_cache_t) : outcome (Z * lru_cache_t) :=
  if 0 <? free_count c then
    i ← vget (free_list c) (free_count c - 1);
    Ret (i, mkCache (nodes c) (hash_table c) (head_ c) (tail_ c) (free_count c - 1) (size_ c) (free_list c))
  else
  let evict := tail_ c in
  if evict =? -1 then Ret (-1, c) else
  n ← vget (nodes c) evict;
  '(_, c) ← hash_remove (key n) c;
  n ← vget (nodes c) evict;
  let p := n_prev n in
  ns ← (if p =? -1 then Ret (nodes c) else update (nodes c) p (set_next (-1)));
  let tail := p in
  let head := if tail =? -1 then -1 else head_ c in
  ns ← update ns evict (set_valid false);
  ns ← update ns evict clear_links;
  Ret (evict, mkCache ns (hash_table c) head tail (free_count c) (size_ c - 1) (free_list c)).

(** [memcpy(nodes[i].data, src, n); nodes[i].len = n;] *)
Definition copy_in (src : list Z) (n i : Z) (ns : list lru_node_t) : outcome (list lru_node_t) :=
  nd ← vget ns i;
  _ ← check ((n <=? Z.of_nat (length src)) && (n <=? Z.of_nat (length (data nd)))) OutOfBounds;
  ns ← vset ns i (set_data (take (Z.to_nat n) src ++ drop (Z.to_nat n) (data nd)) nd);
  update ns i (set_len n).

(** Filling the allocated node, entering it into the table and pushing it to the head. *)
Definition fill_entry (key : Z) (src : list Z) (n idx : Z) (c : lru_cache_t) : outcome (bool * lru_cache_t) :=
  ns ← update (nodes c) idx (set_key key);
  ns ← copy_in src n idx ns;
  ns ← update ns idx (set_valid true);
  ns ← update ns idx clear_links;
  '(ok, c) ← hash_insert key idx (set_nodes ns c);
  if negb ok then
    ns ← update (nodes c) idx (set_valid false);
    fl ← vset (free_list c) (free_count c) idx;
    Ret (false, mkCache ns (hash_table c) (head_ c) (tail_ c) (free_count c + 1) (size_ c) fl)
  else
  ns ← update (nodes c) idx (set_next (head_ c));
  ns ← (if head_ c =? -1 then Ret ns else update ns (head_ c) (set_prev idx));
  let tail := if tail_ c =? -1 then idx else tail_ c in
  Ret (true, mkCache ns (hash_table c) idx tail (free_count c) (size_ c + 1) (free_list c)).

Definition lru_put (key : Z) (src : list Z) (n : Z) (c : lru_cache_t) : outcome (bool * lru_cache_t) :=
  if MAX_PACKET_SIZE <? n then Ret (false, c) else
  node_idx ← hash_lookup_node c key;
  if negb (node_idx =? -1) then
    ns ← copy_in src n node_idx (nodes c);
    c ← move_to_head node_idx (set_nodes ns c);
    Ret (true, c)
  else
  '(idx, c) ← allocate_node c;
  if idx <? 0 then Ret (false, c) else fill_entry key src n idx c.

(** The answer of a lookup: the return value, the bytes written to [out] and the
    number written to [out_len]. *)
Abbreviation answer := (bool * option (list Z) * option Z)%type.

(** The part [lru_get] and [lru_peek] share; [None] is the early return.  [out]
    tells whether the pointer is not null, [out_len] what its target holds. *)
Definition copy_out (out : bool) (out_len : option Z) (n : lru_node_t) : outcome (option (option (list Z) * option Z)) :=
  match out, out_len with
  | true, Some room =>
      if room <? len n then Ret None else
      _ ← check (len n <=? Z.of_nat (length (data n))) OutOfBounds;
      Ret (Some (Some (take (Z.to_nat (len n)) (data n)), Some (len n)))
  | false, Some _ => Ret (Some (None, Some (len n)))
  | _, None => Ret (Some (None, None))
  end.

(** Taking a node out of the list and giving it back. *)
Definition release (idx : Z) (c : lru_cache_t) : outcome lru_cache_t :=
  nd ← vget (nodes c) idx;
  let p := n_prev nd in
  let n := n_next nd in
  ns ← bypass (nodes c) p n;
  let head := if idx =? head_ c then n else head_ c in
  let tail := if idx =? tail_ c then p else tail_ c in
  ns ← update ns idx (set_valid false);
  ns ← update ns idx clear_links;
  fl ← vset (free_list c) (free_count c) idx;
  Ret (mkCache ns (hash_table c) head tail (free_count c + 1) (size_ c - 1) fl).

Definition lru_get (key : Z) (out : bool) (out_len : option Z) (c : lru_cache_t) : outcome (answer * lru_cache_t) :=
  idx ← hash_lookup_node c key;
  if idx =? -1 then Ret (false, None, None, c) else
  n ← vget (nodes c) idx;
  r ← copy_out out out_len n;
  match r with
  | None => Ret (false, None, None, c)
  | Some (bytes, l) =>
      '(_, c) ← hash_remove key c;
      c ← release idx c;
      Ret (true, bytes, l, c)
  end.

Definition lru_peek (key : Z) (out : bool) (out_len : option Z) (c : lru_cache_t) : outcome (answer * lru_cache_t) :=
  idx ← hash_lookup_node c key;
  if idx =? -1 then Ret (false, None, None, c) else
  n ← vget (nodes c) idx;
  r ← copy_out out out_len n;
  match r with
  | None => Ret (false, None, None, c)
  | Some (bytes, l) =>
      c ← move_to_head idx c;
      Ret (true, bytes, l, c)
  end.

Definition lru_remove (key : Z) (c : lru_cache_t) : outcome (bool * lru_cache_t) :=
  idx ← hash_lookup_node c key;
  if idx =? -1 then Ret (false, c) else
  '(_, c) ← hash_remove key c;
  c ← release idx c;
  Ret (true, c).

(** ** The invariant *)

Definition sized (ns : list lru_node_t) : Prop :=
  ∀ i n, node_at ns i = Some n → length (data n) = 1536%nat ∧ 0 ≤ len n ≤ MAX_PACKET_SIZE.

(** The free nodes are the first [free_count] entries of [free_list]. *)
Definition stacked (c : lru_cache_t) (F : list Z) : Prop :=
  length (free_list c) = 64%nat ∧ free_count c = Z.of_nat (length F) ∧ take (length F) (free_list c) = F ∧
  Forall (λ i, 0 ≤ i < CAPACITY) F.

Record pkt_inv (c : lru_cache_t) (L F : list Z) (vs : list (Z * list Z)) : Prop := {
  pi_length : length (nodes c) = 64%nat;
  pi_sized : sized (nodes c);
  pi_list : list_ok (nodes c) (head_ c) (tail_ c) L;
  pi_free : stacked c F;
  pi_disjoint : NoDup (L ++ F);
  pi_count : (length L + length F = 64)%nat;
  pi_size : size_ c = Z.of_nat (length L);
  pi_binds : binds pkey pused pval (nodes c) L vs;
  pi_table : table_ok (hash_table c) L vs
}.

Definition pkt_rep (c : lru_cache_t) (vs : list (Z * list Z)) : Prop := ∃ L F, pkt_inv c L F vs.

Lemma sized_relinked ns ns' L : relinked ns ns' L → sized ns → sized ns'.
Proof.
  intros (_ & Hp & _) Hs i n Hn. specialize (Hp i). rewrite Hn in Hp. csimpl in Hp.
  destruct (node_at ns i) as [m|] eqn:Hm; [|done]. csimpl in Hp. injection Hp as Hk Hd Hl Hv. rewrite Hd, Hl.
  by eapply Hs.
Qed.

Lemma sized_written ns ns' i n : written ns ns' i n → length (data n) = 1536%nat → 0 ≤ len n ≤ MAX_PACKET_SIZE →
  sized ns → sized ns'.
Proof. intros [_ Hw] Hd Hl Hs j m Hm. rewrite Hw in Hm. case_decide; [by simplify_eq|by eapply Hs]. Qed.

Lemma lru_init_pinv : pkt_inv lru_init [] (Z.of_nat <$> seq 0 64) [].
Proof.
  assert (nodes lru_init = replicate 64 (mkNode 0 (replicate 1536 0) 0 false (-1) (-1))) as Hns
    by (unfold lru_init; cbn [nodes]; by rewrite fmap_replicate).
  split; [by rewrite Hns, length_replicate| | | |apply NoDup_fmap_2; [apply _|apply NoDup_seq]|done|done| |].
  - intros i n Hn. rewrite Hns in Hn. unfold node_at in Hn. destruct (0 <=? i); [|done].
    apply lookup_replicate in Hn as [-> _]. cbn [data len]. rewrite length_replicate. unfold MAX_PACKET_SIZE. lia.
  - split_and!; [done|constructor|done|done].
  - split_and!; [done|done|done|]. apply list.Forall_forall. intros x (j & -> & Hj%elem_of_seq)%list_elem_of_fmap.
    unfold CAPACITY. lia.
  - split_and!; constructor.
  - split; [|done]. apply probe_wf_empty; [done|]. intros y i Hi. unfold look in Hi.
    change (hash_table lru_init) with (replicate 131 (-1)) in Hi. by apply lookup_replicate in Hi as [-> _].
Qed.

(** ** Copies *)

Lemma copy_in_spec src n i ns nd : sized ns → node_at ns i = Some nd → 0 ≤ n ≤ MAX_PACKET_SIZE →
  n ≤ Z.of_nat (length src) →
  ∃ ns' nd', copy_in src n i ns = Ret ns' ∧ written ns ns' i nd' ∧ sized ns' ∧
    key nd' = key nd ∧ valid nd' = valid nd ∧ prev nd' = prev nd ∧ next nd' = next nd ∧
    pval (payload nd') = take (Z.to_nat n) src.
Proof.
  intros Hs Hn Hr Hsrc. destruct (Hs i nd Hn) as [Hd _]. unfold copy_in, MAX_PACKET_SIZE in *.
  rewrite (proj1 (node_at_Some _ _ _) Hn), bind_Ret, Hd.
  rewrite (proj2 (Z.leb_le n _)), (proj2 (Z.leb_le n _)) by lia. cbn [andb check]. rewrite bind_Ret.
  set (nd1 := set_data (take (Z.to_nat n) src ++ drop (Z.to_nat n) (data nd)) nd).
  destruct (vset_written ns i nd1) as (ns1 & -> & Hw1); [by eapply node_at_range|]. rewrite bind_Ret.
  assert (node_at ns1 i = Some nd1) as Hn1 by (destruct Hw1 as [_ ->]; by rewrite decide_True).
  destruct (update_written ns1 i (set_len n) nd1 Hn1) as (ns2 & -> & Hw2). exists ns2, (set_len n nd1).
  assert (written ns ns2 i (set_len n nd1)) as Hw.
  { destruct Hw1 as [E1 H1], Hw2 as [E2 H2]. split; [congruence|]. intros j. rewrite H2, H1. by case_decide. }
  split_and!; [done|done| |done|done|done|done|].
  - eapply sized_written; [exact Hw| |simpl; unfold MAX_PACKET_SIZE; lia|done]. simpl.
    rewrite length_app, length_take, length_drop. lia.
  - unfold pval. simpl. rewrite take_app_le by (rewrite length_take; lia). rewrite take_take. f_equal. lia.
Qed.

Definition spec_copy (out : bool) (out_len : option Z) (d : list Z) : option (option (list Z) * option Z) :=
  let n := Z.of_nat (length d) in
  match out, out_len with
  | true, Some room => if room <? n then None else Some (Some d, Some n)
  | false, Some _ => Some (None, Some n)
  | _, None => Some (None, None)
  end.

Lemma copy_out_spec out out_len n d : length (data n) = 1536%nat → 0 ≤ len n ≤ MAX_PACKET_SIZE →
  pval (payload n) = d → copy_out out out_len n = Ret (spec_copy out out_len d).
Proof.
  intros Hd Hl <-. unfold MAX_PACKET_SIZE, pval, spec_copy, copy_out in *. simpl.
  rewrite length_take, Hd, Nat.min_l, Z2Nat.id by lia. rewrite (proj2 (Z.leb_le (len n) _)) by lia.
  destruct out, out_len; try done. by destruct (_ <? _).
Qed.

(** ** Recency *)

Lemma move_to_head_pinv c L1 i L2 F l b r : length L1 = length l → pkt_inv c (L1 ++ i :: L2) F (l ++ b :: r) →
  ∃ c', move_to_head i c = Ret c' ∧ pkt_inv c' (i :: L1 ++ L2) F (b :: l ++ r).
Proof.
  intros Hl Hinv. unfold move_to_head.
  destruct (core_to_head pkey pused pval (nodes c) (head_ c) (tail_ c) (hash_table c) L1 i L2 l b r) as
    (ns & -> & Hlist & Hb & Ht & Hr); [done|apply Hinv..|]. rewrite bind_Ret. eexists. split; [done|].
  split; simpl; [by destruct Hr as [-> _]; apply Hinv|eapply sized_relinked; [done|apply Hinv]|done|apply Hinv| | | |done|done].
  - pose proof (pi_disjoint _ _ _ _ Hinv) as Hnd. rewrite <- app_assoc in Hnd |- *. simpl in Hnd.
    by apply list.NoDup_cons, NoDup_middle.
  - pose proof (pi_count _ _ _ _ Hinv) as Hc. rewrite !length_app in *. simpl in *. lia.
  - rewrite (pi_size _ _ _ _ Hinv), !length_app. simpl. lia.
Qed.

(** ** Giving a node back *)

(** [valid = false; prev = next = -1;] *)
Lemma invalidate_spec ns i n : node_at ns i = Some n →
  ∃ ns1 ns2, update ns i (set_valid false) = Ret ns1 ∧ update ns1 i clear_links = Ret ns2 ∧
    written ns ns2 i (clear_links (set_valid false n)).
Proof.
  intros Hn. destruct (update_written ns i (set_valid false) n Hn) as (ns1 & E1 & Hw1).
  assert (node_at ns1 i = Some (set_valid false n)) as Hn1 by (destruct Hw1 as [_ ->]; by rewrite decide_True).
  destruct (update_written ns1 i clear_links _ Hn1) as (ns2 & E2 & Hw2). exists ns1, ns2. split_and!; [done|done|].
  destruct Hw1 as [L1 H1], Hw2 as [L2 H2]. split; [congruence|]. intros j. rewrite H2, H1. by case_decide.
Qed.

Lemma stacked_push c F i fl : stacked c F → 0 ≤ i < CAPACITY → (length F < 64)%nat →
  vset (free_list c) (free_count c) i = Ret fl → ∀ c', free_list c' = fl → free_count c' = free_count c + 1 →
  stacked c' (F ++ [i]).
Proof.
  intros (Hl & Hc & Ht & Hf) Hi HF [_ ->]%vset_Ret c' Hfl Hfc. unfold stacked. rewrite Hfl, Hfc, Hc, length_app.
  rewrite Nat2Z.id. simpl. split_and!; [by rewrite length_insert|lia| |by apply Forall_app_2; [|constructor]].
  rewrite Nat.add_1_r. rewrite (take_S_r _ _ i) by (apply list_lookup_insert_eq; lia).
  rewrite take_insert_ge by lia. by rewrite Ht.
Qed.

Lemma release_spec c L1 i L2 F l b r : length L1 = length l → list_ok (nodes c) (head_ c) (tail_ c) (L1 ++ i :: L2) →
  length (nodes c) = 64%nat → sized (nodes c) → stacked c F → NoDup ((L1 ++ i :: L2) ++ F) →
  (length (L1 ++ i :: L2) + length F = 64)%nat → size_ c = Z.of_nat (length (L1 ++ i :: L2)) →
  binds pkey pused pval (nodes c) (L1 ++ i :: L2) (l ++ b :: r) → table_ok (hash_table c) (L1 ++ L2) (l ++ r) →
  ∃ c', release i c = Ret c' ∧ pkt_inv c' (L1 ++ L2) (F ++ [i]) (l ++ r).
Proof.
  intros Hl (Hc & Hnd & Hh & Ht) Hlen Hs Hst Hdis Hcnt Hsz Hb Htab. unfold release.
  destruct (chained_nodes _ _ _ _ i Hc) as [n Hn]; [set_solver|]. pose proof (node_at_range _ _ _ Hn) as Hir.
  rewrite (proj1 (node_at_Some _ _ _) Hn), bind_Ret. destruct (links_inside _ _ _ _ _ Hc Hn) as [Hp Hx].
  simpl in Hp, Hx. rewrite Hp, Hx.
  destruct (bypass_spec (nodes c) L1 i L2 Hc Hnd) as (ns1 & -> & Hc1 & Hr1). rewrite bind_Ret.
  pose proof (proj1 (NoDup_middle _ _ _) Hnd) as [Hi Hnd'].
  assert (node_at ns1 i = Some n) as Hn1 by (destruct Hr1 as (_ & _ & Hf); by rewrite Hf).
  destruct (invalidate_spec ns1 i n Hn1) as (ns2 & ns3 & -> & E3 & Hw). rewrite bind_Ret, E3, bind_Ret.
  rewrite length_app in Hcnt, Hsz. simpl in Hcnt, Hsz.
  pose proof Hst as (Hfl & Hfc & _). destruct (vset (free_list c) (free_count c) i) as [fl|] eqn:Efl;
    [|rewrite vset_total in Efl by lia; done]. rewrite bind_Ret. eexists. split; [done|].
  destruct (binds_split _ _ _ _ _ _ _ _ _ _ Hl Hb) as (_ & _ & Hb' & _ & _). destruct (Hs i n Hn) as [Hd1 Hd2].
  split; simpl; [| | |eapply (stacked_push c F i fl)| | | | |done]; try done.
  - destruct Hw as [-> _], Hr1 as [-> _]. done.
  - eapply sized_written; [exact Hw|done|done|]. by eapply sized_relinked.
  - split_and!; [by eapply chained_frame|done| |].
    + rewrite Hh. destruct L1 as [|h L1]; unfold first; simpl; [by rewrite Z.eqb_refl|].
      rewrite (proj2 (Z.eqb_neq i h)); [done|]. set_solver.
    + rewrite Ht. assert (i ∉ L2) as Hi2 by set_solver. pose proof (final_app_neq L1 i L2 Hi2) as Hiff.
      destruct (Z.eqb_spec i (final (L1 ++ i :: L2))) as [E|E].
      * symmetry in E. apply Hiff in E as ->. by rewrite app_nil_r.
      * destruct L2 as [|y L2]; [by destruct E; symmetry; apply Hiff|]. rewrite !final_app, (final_cons i). by rewrite decide_False.
  - unfold CAPACITY. lia.
  - lia.
  - rewrite app_assoc. rewrite <- app_assoc in Hdis. simpl in Hdis.
    rewrite (Permutation_app_comm _ [i]). simpl. rewrite <- app_assoc. apply list.NoDup_cons. by apply NoDup_middle.
  - rewrite !length_app. simpl. lia.
  - rewrite length_app. lia.
  - eapply binds_frame; [exact Hw|done|]. by eapply binds_relinked.
Qed.

(** ** Lookups and removals *)

(** Where a present key is, and what its node holds. *)
Lemma lookup_present c L F vs k d : pkt_inv c L F vs → find_binding k vs = Some d →
  ∃ L1 i L2 l r n, L = L1 ++ i :: L2 ∧ vs = l ++ (k, d) :: r ∧ length L1 = length l ∧ drop_binding k vs = l ++ r ∧
    hash_lookup_node c k = Ret i ∧ (i =? -1) = false ∧ vget (nodes c) i = Ret n ∧
    (∀ out out_len, copy_out out out_len n = Ret (spec_copy out out_len d)).
Proof.
  intros Hinv Hf. destruct (core_find_Some pkey pused pval (nodes c) (hash_table c) L vs k d) as
    (L1 & i & L2 & l & r & -> & -> & Hl & Hd & E & Hi); [apply Hinv|apply Hinv|done|].
  destruct (binds_split _ _ _ _ _ _ _ _ _ _ Hl (pi_binds _ _ _ _ Hinv)) as (_ & (n & Hn & Hk & Hv & Hu) & _).
  destruct (pi_sized _ _ _ _ Hinv i n Hn) as [Hs1 Hs2].
  exists L1, i, L2, l, r, n. split_and!; [done..|by apply Z.eqb_neq|by apply node_at_Some|].
  intros out out_len. by apply copy_out_spec.
Qed.

Lemma lookup_absent c L F vs k : pkt_inv c L F vs → find_binding k vs = None → hash_lookup_node c k = Ret (-1).
Proof. intros Hinv Hf. eapply core_find_None; [apply Hinv|apply Hinv|done]. Qed.

Lemma take_out c L1 i L2 F l k d r : length L1 = length l → pkt_inv c (L1 ++ i :: L2) F (l ++ (k, d) :: r) →
  ∃ c1 c2 ok, hash_remove k c = Ret (ok, c1) ∧ release i c1 = Ret c2 ∧ pkt_inv c2 (L1 ++ L2) (F ++ [i]) (l ++ r).
Proof.
  intros Hl Hinv. unfold hash_remove.
  destruct (core_remove pkey pused pval (nodes c) (hash_table c) L1 i L2 l (k, d) r) as (t & E & Htab);
    [done|apply Hinv|apply Hinv|]. simpl fst in E. rewrite E, bind_Ret.
  destruct (release_spec (set_table t c) L1 i L2 F l (k, d) r) as (c2 & E2 & Hinv2);
    [done|apply Hinv|apply Hinv|apply Hinv|apply Hinv|apply Hinv|apply Hinv|apply Hinv|apply Hinv|done|].
  eauto 10.
Qed.

Definition spec_pkt_get (k : Z) (out : bool) (out_len : option Z) (vs : list (Z * list Z)) : answer * list (Z * list Z) :=
  match find_binding k vs with
  | None => (false, None, None, vs)
  | Some d => match spec_copy out out_len d with
              | None => (false, None, None, vs)
              | Some (bytes, l) => (true, bytes, l, drop_binding k vs)
              end
  end.

Definition spec_pkt_peek (k : Z) (out : bool) (out_len : option Z) (vs : list (Z * list Z)) : answer * list (Z * list Z) :=
  match find_binding k vs with
  | None => (false, None, None, vs)
  | Some d => match spec_copy out out_len d with
              | None => (false, None, None, vs)
              | Some (bytes, l) => (true, bytes, l, (k, d) :: drop_binding k vs)
              end
  end.

Definition spec_pkt_remove (k : Z) (vs : list (Z * list Z)) : bool * list (Z * list Z) :=
  match find_binding k vs with None => (false, vs) | Some _ => (true, drop_binding k vs) end.

Lemma pkt_get_spec c vs k out out_len : pkt_rep c vs →
  ∃ c', lru_get k out out_len c = Ret (fst (spec_pkt_get k out out_len vs), c') ∧
    pkt_rep c' (snd (spec_pkt_get k out out_len vs)).
Proof.
  intros (L & F & Hinv). unfold lru_get, spec_pkt_get. destruct (find_binding k vs) as [d|] eqn:Hf.
  - destruct (lookup_present c L F vs k d Hinv Hf) as (L1 & i & L2 & l & r & n & -> & -> & Hl & -> & -> & Hi & Hn & Hc).
    rewrite bind_Ret, Hi, Hn, bind_Ret, Hc, bind_Ret. destruct (spec_copy out out_len d) as [[bytes m]|].
    + destruct (take_out c L1 i L2 F l k d r Hl Hinv) as (c1 & c2 & ok & -> & E2 & Hinv2).
      rewrite bind_Ret, E2, bind_Ret. exists c2. split; [done|]. by exists (L1 ++ L2), (F ++ [i]).
    + exists c. split; [done|]. by eexists _, _.
  - rewrite (lookup_absent c L F vs k Hinv Hf), bind_Ret. exists c. split; [done|]. by exists L, F.
Qed.

Lemma pkt_peek_spec c vs k out out_len : pkt_rep c vs →
  ∃ c', lru_peek k out out_len c = Ret (fst (spec_pkt_peek k out out_len vs), c') ∧
    pkt_rep c' (snd (spec_pkt_peek k out out_len vs)).
Proof.
  intros (L & F & Hinv). unfold lru_peek, spec_pkt_peek. destruct (find_binding k vs) as [d|] eqn:Hf.
  - destruct (lookup_present c L F vs k d Hinv Hf) as (L1 & i & L2 & l & r & n & -> & -> & Hl & -> & -> & Hi & Hn & Hc).
    rewrite bind_Ret, Hi, Hn, bind_Ret, Hc, bind_Ret. destruct (spec_copy out out_len d) as [[bytes m]|].
    + destruct (move_to_head_pinv c L1 i L2 F l (k, d) r Hl Hinv) as (c1 & -> & Hinv1). rewrite bind_Ret.
      exists c1. split; [done|]. by exists (i :: L1 ++ L2), F.
    + exists c. split; [done|]. by eexists _, _.
  - rewrite (lookup_absent c L F vs k Hinv Hf), bind_Ret. exists c. split; [done|]. by exists L, F.
Qed.

Lemma pkt_remove_spec c vs k : pkt_rep c vs →
  ∃ c', lru_remove k c = Ret (fst (spec_pkt_remove k vs), c') ∧ pkt_rep c' (snd (spec_pkt_remove k vs)).
Proof.
  intros (L & F & Hinv). unfold lru_remove, spec_pkt_remove. destruct (find_binding k vs) as [d|] eqn:Hf.
  - destruct (lookup_present c L F vs k d Hinv Hf) as (L1 & i & L2 & l & r & n & -> & -> & Hl & -> & -> & Hi & _ & _).
    rewrite bind_Ret, Hi. destruct (take_out c L1 i L2 F l k d r Hl Hinv) as (c1 & c2 & ok & -> & E2 & Hinv2).
    rewrite bind_Ret, E2, bind_Ret. exists c2. split; [done|]. by exists (L1 ++ L2), (F ++ [i]).
  - rewrite (lookup_absent c L F vs k Hinv Hf), bind_Ret. exists c. split; [done|]. by exists L, F.
Qed.

(** ** Stores *)

Record claimed (c : lru_cache_t) (idx : Z) (L F : list Z) (vs : list (Z * list Z)) : Prop := {
  cl_length : length (nodes c) = 64%nat;
  cl_sized : sized (nodes c);
  cl_list : list_ok (nodes c) (head_ c) (tail_ c) L;
  cl_free : stacked c F;
  cl_disjoint : NoDup (idx :: L ++ F);
  cl_count : (S (length L) + length F = 64)%nat;
  cl_size : size_ c = Z.of_nat (length L);
  cl_binds : binds pkey pused pval (nodes c) L vs;
  cl_table : table_ok (hash_table c) L vs;
  cl_range : 0 ≤ idx < CAPACITY
}.

Lemma stacked_pop c F i : stacked c (F ++ [i]) → vget (free_list c) (free_count c - 1) = Ret i ∧ 0 ≤ i < CAPACITY ∧
  ∀ c', free_list c' = free_list c → free_count c' = free_count c - 1 → stacked c' F.
Proof.
  intros (Hl & Hc & Ht & [Hf [Hi _]%list.Forall_cons]%Forall_app). rewrite length_app in Hc, Ht. simpl in Hc, Ht. split_and!.
  - apply vget_Ret. split; [lia|]. rewrite Hc. replace (Z.to_nat _) with (length F) by lia.
    rewrite <- (lookup_take_lt _ (length F + 1)) by lia. rewrite Ht. by apply list_lookup_middle.
  - apply Hi.
  - apply Hi.
  - intros c' Hfl Hfc. unfold stacked. rewrite Hfl, Hfc, Hc. split_and!; [done|lia| |done].
    apply (f_equal (take (length F))) in Ht. rewrite take_take, Nat.min_l in Ht by lia. rewrite Ht. by rewrite take_app_length.
Qed.

Lemma allocate_free c L F i vs : pkt_inv c L (F ++ [i]) vs →
  ∃ c', allocate_node c = Ret (i, c') ∧ claimed c' i L F vs.
Proof.
  intros Hinv. destruct (stacked_pop c F i (pi_free _ _ _ _ Hinv)) as (E & Hi & Hst).
  pose proof (pi_free _ _ _ _ Hinv) as (_ & Hc & _). pose proof (pi_count _ _ _ _ Hinv) as Hcnt.
  rewrite length_app in Hc, Hcnt. simpl in Hc, Hcnt. unfold allocate_node.
  rewrite (proj2 (Z.ltb_lt _ _)) by lia. rewrite E, bind_Ret. eexists. split; [done|].
  split; simpl; [apply Hinv|apply Hinv|apply Hinv|by apply Hst| |lia|apply Hinv|apply Hinv|apply Hinv|done].
  pose proof (pi_disjoint _ _ _ _ Hinv) as Hnd. rewrite app_assoc, (Permutation_app_comm _ [i]) in Hnd. exact Hnd.
Qed.

Lemma allocate_evicts c L1 t l b : length L1 = length l → pkt_inv c (L1 ++ [t]) [] (l ++ [b]) →
  ∃ c', allocate_node c = Ret (t, c') ∧ claimed c' t L1 [] l.
Proof.
  intros Hl Hinv. pose proof (pi_list _ _ _ _ Hinv) as (Hc & Hnd & Hh & Ht). unfold allocate_node.
  pose proof (pi_free _ _ _ _ Hinv) as (Hfl & Hfc & _). simpl in Hfc. rewrite Hfc. cbn [Z.ltb Z.compare].
  assert (tail_ c = t) as -> by (rewrite Ht, final_app; done).
  destruct (binds_split _ _ _ _ _ _ _ _ _ _ Hl (pi_binds _ _ _ _ Hinv)) as (_ & (n & Hn & Hk & _) & Hb' & Htn & _).
  pose proof (node_at_range _ _ _ Hn) as Htr. rewrite (pi_length _ _ _ _ Hinv) in Htr.
  rewrite (proj2 (Z.eqb_neq t (-1))) by lia. rewrite (proj1 (node_at_Some _ _ _) Hn), bind_Ret. unfold hash_remove.
  destruct (core_remove pkey pused pval (nodes c) (hash_table c) L1 t [] l b []) as (tb & E & Htab);
    [done|apply Hinv|apply Hinv|]. change (key n) with (pkey (payload n)). rewrite Hk, E, !bind_Ret. simpl nodes.
  rewrite (proj1 (node_at_Some _ _ _) Hn), bind_Ret. destruct (links_inside _ _ _ _ _ Hc Hn) as [Hp _].
  simpl in Hp. rewrite Hp. rewrite !app_nil_r in *. apply NoDup_middle in Hnd as [_ Hnd]. rewrite app_nil_r in Hnd.
  apply chained_app in Hc as [Hc1 _].
  destruct (set_next_end (nodes c) L1 _ (-1) Hc1 Hnd) as (ns1 & -> & Hc1' & Hr1). rewrite bind_Ret.
  assert (node_at ns1 t = Some n) as Hn1 by (destruct Hr1 as (_ & _ & Hf); by rewrite Hf).
  destruct (invalidate_spec ns1 t n Hn1) as (ns2 & ns3 & -> & E3 & Hw). rewrite bind_Ret, E3, bind_Ret.
  eexists. split; [done|]. destruct (pi_sized _ _ _ _ Hinv t n Hn) as [Hd1 Hd2].
  pose proof (pi_count _ _ _ _ Hinv) as Hcnt. pose proof (pi_size _ _ _ _ Hinv) as Hsz.
  rewrite length_app in Hcnt, Hsz. simpl in Hcnt, Hsz.
  assert (chained ns3 (-1) L1 (-1)) as Hc3 by (by eapply chained_frame).
  split; simpl; [| | |done|rewrite app_nil_r; by constructor|lia|lia| |done|unfold CAPACITY; lia].
  - destruct Hw as [-> _], Hr1 as [-> _]. apply Hinv.
  - eapply sized_written; [exact Hw|done|done|]. eapply sized_relinked; [done|apply Hinv].
  - split_and!; [done|done| |done]. destruct (Z.eqb_spec (final L1) (-1)) as [E'|E'].
    + destruct (exists_last_or_nil L1) as [->|(L' & x & ->)]; [done|]. unfold final in E'. rewrite last_snoc in E'.
      simpl in E'. exfalso. eapply (chained_nonneg _ _ _ _ x); [exact Hc3|set_solver|done].
    + rewrite Hh. by destruct L1.
  - eapply binds_frame; [exact Hw|done|]. by eapply binds_relinked.
Qed.

Lemma allocate_node_spec c L F vs : pkt_inv c L F vs →
  ∃ c' idx L' F', allocate_node c = Ret (idx, c') ∧ claimed c' idx L' F' (take 63 vs).
Proof.
  intros Hinv. pose proof (pi_count _ _ _ _ Hinv) as Hcnt.
  pose proof (binds_length _ _ _ _ _ _ (pi_binds _ _ _ _ Hinv)) as Hlen.
  destruct (exists_last_or_nil F) as [->|(F1 & i & ->)].
  - simpl in Hcnt. destruct (exists_last_or_nil L) as [->|(L1 & t & ->)]; [simpl in *; lia|].
    rewrite length_app in *. simpl in *. destruct (exists_last_or_nil vs) as [->|(l & b & ->)]; [simpl in *; lia|].
    rewrite length_app in Hlen. simpl in Hlen. assert (length L1 = length l) as Hl by lia.
    rewrite take_app_le, take_ge by lia. destruct (allocate_evicts c L1 t l b Hl Hinv) as (c' & E & Hcl). eauto 10.
  - rewrite length_app in Hcnt. simpl in Hcnt. rewrite take_ge by lia.
    destruct (allocate_free c L F1 i vs Hinv) as (c' & E & Hcl). eauto 10.
Qed.

(** The claimed node with its new contents. *)
Lemma fill_entry_fields ns idx k src n : sized ns → 0 ≤ idx < Z.of_nat (length ns) → 0 ≤ n ≤ MAX_PACKET_SIZE →
  n ≤ Z.of_nat (length src) →
  ∃ ns1 ns2 ns3 ns4 nd, update ns idx (set_key k) = Ret ns1 ∧ copy_in src n idx ns1 = Ret ns2 ∧
    update ns2 idx (set_valid true) = Ret ns3 ∧ update ns3 idx clear_links = Ret ns4 ∧
    written ns ns4 idx nd ∧ sized ns4 ∧ prev nd = -1 ∧ next nd = -1 ∧
    pkey (payload nd) = k ∧ pval (payload nd) = take (Z.to_nat n) src ∧ pused (payload nd) = true.
Proof.
  intros Hs Hi Hn Hsrc. destruct (node_at_total ns idx Hi) as [n0 Hn0]. destruct (Hs idx n0 Hn0) as [Hd Hl].
  destruct (update_written ns idx (set_key k) n0 Hn0) as (ns1 & E1 & Hw1).
  assert (node_at ns1 idx = Some (set_key k n0)) as Hn1 by (destruct Hw1 as [_ ->]; by rewrite decide_True).
  assert (sized ns1) as Hs1 by (by eapply sized_written).
  destruct (copy_in_spec src n idx ns1 _ Hs1 Hn1 Hn Hsrc) as (ns2 & n2 & E2 & Hw2 & Hs2 & Hk2 & _ & _ & _ & Hv2).
  assert (node_at ns2 idx = Some n2) as Hn2 by (destruct Hw2 as [_ ->]; by rewrite decide_True).
  destruct (Hs2 idx n2 Hn2) as [Hd2 Hl2].
  destruct (update_written ns2 idx (set_valid true) n2 Hn2) as (ns3 & E3 & Hw3).
  assert (node_at ns3 idx = Some (set_valid true n2)) as Hn3 by (destruct Hw3 as [_ ->]; by rewrite decide_True).
  destruct (update_written ns3 idx clear_links _ Hn3) as (ns4 & E4 & Hw4).
  exists ns1, ns2, ns3, ns4, (clear_links (set_valid true n2)).
  assert (sized ns4) by (eapply sized_written; [exact Hw4|done|done|]; by eapply sized_written).
  split_and!; try done. destruct Hw1 as [? G1], Hw2 as [? G2], Hw3 as [? G3], Hw4 as [? G4].
  split; [congruence|]. intros j. rewrite G4, G3, G2, G1. by repeat case_decide.
Qed.

Lemma fill_entry_spec c idx L F vs k src n : claimed c idx L F vs → k ∉ vs.*1 → 0 ≤ n ≤ MAX_PACKET_SIZE →
  n ≤ Z.of_nat (length src) →
  ∃ c', fill_entry k src n idx c = Ret (true, c') ∧ pkt_inv c' (idx :: L) F ((k, take (Z.to_nat n) src) :: vs).
Proof.
  intros Hcl Hk Hn Hsrc. pose proof (cl_disjoint _ _ _ _ _ Hcl) as Hnd.
  pose proof Hnd as [Hi HndLF]%list.NoDup_cons. pose proof HndLF as (HndL & _ & _)%list.NoDup_app.
  pose proof (cl_count _ _ _ _ _ Hcl). pose proof (cl_range _ _ _ _ _ Hcl) as Hr. unfold CAPACITY in Hr.
  pose proof (binds_length _ _ _ _ _ _ (cl_binds _ _ _ _ _ Hcl)) as Hlen.
  pose proof (cl_list _ _ _ _ _ Hcl) as (Hc & _ & Hh & Ht). assert (idx ∉ L) as HiL by set_solver.
  destruct (fill_entry_fields (nodes c) idx k src n (cl_sized _ _ _ _ _ Hcl)) as
    (ns1 & ns2 & ns3 & ns4 & nd & E1 & E2 & E3 & E4 & Hw & Hs & Hp & Hx & Hpk & Hpv & Hpu);
    [rewrite (cl_length _ _ _ _ _ Hcl); lia|done|done|].
  unfold fill_entry, hash_insert. rewrite E1, bind_Ret, E2, bind_Ret, E3, bind_Ret, E4, bind_Ret. clear E1 E2 E3 E4.
  simpl hash_table. destruct (core_insert (hash_table c) L vs idx (k, take (Z.to_nat n) src) Hlen (cl_table _ _ _ _ _ Hcl))
    as (t & Et & Htab); [done|lia|simpl; unfold HASH_SIZE; lia|done|]. simpl fst in Et.
  rewrite Et, !bind_Ret. cbn [negb set_nodes set_table nodes head_ tail_ free_count size_ free_list hash_table].
  assert (node_at ns4 idx = Some nd) as Hnd4 by (destruct Hw as [_ ->]; by rewrite decide_True).
  destruct (update_written ns4 idx (set_next (head_ c)) nd Hnd4) as (ns5 & -> & Hw5). rewrite bind_Ret.
  assert (relinked ns4 ns5 [idx]) as Hr5 by (eapply written_relinked; [exact Hnd4| |exact Hw5]; done).
  assert (node_at ns5 idx = Some (set_next (head_ c) nd)) as Hnd5 by (destruct Hw5 as [_ ->]; by rewrite decide_True).
  destruct (push_front_spec ns5 idx (set_next (head_ c) nd) L) as (ns6 & E6 & Hc6 & Hr6);
    [do 2 (eapply chained_frame; [done|done|]); done|by constructor|done|by rewrite prev_set_next|done|].
  rewrite Hh, E6, bind_Ret. eexists. split; [done|].
  split; simpl; [| | |apply Hcl|done|lia| | |done].
  - destruct Hr6 as [-> _], Hr5 as [-> _], Hw as [-> _]. apply Hcl.
  - eapply sized_relinked; [exact Hr6|]. by eapply sized_relinked.
  - split_and!; [done|by constructor|done|]. rewrite final_cons, Ht.
    destruct (Z.eqb_spec (final L) (-1)) as [E|E]; case_decide as E'; try done.
    + destruct (exists_last_or_nil L) as [->|(L' & x & ->)]; [done|]. unfold final in E. rewrite last_snoc in E.
      simpl in E. exfalso. eapply (chained_nonneg _ _ _ _ x); [exact Hc|set_solver|done].
    + by subst L.
  - rewrite (cl_size _ _ _ _ _ Hcl). lia.
  - apply binds_cons; [|do 2 (eapply binds_relinked; [done|]); eapply binds_frame; [exact Hw|done|apply Hcl]|done|done].
    destruct (payload_at _ _ _ _ _ Hr5 Hnd4) as (n5 & Hn5 & Ep5). destruct (payload_at _ _ _ _ _ Hr6 Hn5) as (n6 & Hn6 & Ep6).
    exists n6. by rewrite Ep6, Ep5.
Qed.

(** Overwriting the payload of a present key. *)
Lemma overwrite_inv c L1 i L2 F l k d r src n nd : length L1 = length l →
  pkt_inv c (L1 ++ i :: L2) F (l ++ (k, d) :: r) → node_at (nodes c) i = Some nd → 0 ≤ n ≤ MAX_PACKET_SIZE →
  n ≤ Z.of_nat (length src) →
  ∃ ns, copy_in src n i (nodes c) = Ret ns ∧
    pkt_inv (set_nodes ns c) (L1 ++ i :: L2) F (l ++ (k, take (Z.to_nat n) src) :: r).
Proof.
  intros Hl Hinv Hnd Hn Hsrc.
  destruct (copy_in_spec src n i (nodes c) nd) as (ns & nd' & -> & Hw & Hs & Hk' & Hu' & Hp' & Hx' & Hv');
    [apply Hinv|done|done|done|]. exists ns. split; [done|].
  destruct (binds_split _ _ _ _ _ _ _ _ _ _ Hl (pi_binds _ _ _ _ Hinv)) as (_ & (n0 & Hn0 & Hk & _ & Hu) & _ & _ & _).
  assert (n0 = nd) as -> by congruence. pose proof (pi_list _ _ _ _ Hinv) as (Hc & Hndl & Hh & Ht).
  split; simpl; [destruct Hw as [-> _]; apply Hinv|done| |apply Hinv|apply Hinv|apply Hinv|apply Hinv|
    |exact (table_value _ _ _ _ _ (k, d) _ _ Hl (pi_table _ _ _ _ Hinv))].
  - split_and!; [|done|done|done]. eapply chained_ext; [|exact Hc]. intros j m Hj Hm. destruct Hw as [_ Hw].
    setoid_rewrite Hw. case_decide; [subst j; simplify_eq; eauto|eauto].
  - eapply (binds_value _ _ _ _ _ _ _ _ _ (k, d) _ nd' _ Hl (pi_binds _ _ _ _ Hinv) Hw); [|done|].
    + rewrite <- Hk. unfold pkey. simpl. by rewrite Hk'.
    + rewrite <- Hu. unfold pused. simpl. by rewrite Hu'.
Qed.

Definition spec_pkt_put (k : Z) (src : list Z) (n : Z) (vs : list (Z * list Z)) : bool * list (Z * list Z) :=
  if MAX_PACKET_SIZE <? n then (false, vs) else (true, spec_put 64 k (take (Z.to_nat n) src) vs).

Lemma pkt_put_spec c vs k src n : pkt_rep c vs → 0 ≤ n ≤ Z.of_nat (length src) →
  ∃ c', lru_put k src n c = Ret (fst (spec_pkt_put k src n vs), c') ∧ pkt_rep c' (snd (spec_pkt_put k src n vs)).
Proof.
  intros (L & F & Hinv) Hn. unfold lru_put, spec_pkt_put.
  destruct (Z.ltb_spec MAX_PACKET_SIZE n) as [|Hmax]; [exists c; split; [done|by exists L, F]|].
  unfold spec_put. destruct (find_binding k vs) as [d|] eqn:Hf.
  - destruct (lookup_present c L F vs k d Hinv Hf) as (L1 & i & L2 & l & r & nd & -> & -> & Hl & -> & -> & Hi & Hnd & _).
    apply node_at_Some in Hnd. rewrite bind_Ret, Hi. cbn [negb].
    destruct (overwrite_inv c L1 i L2 F l k d r src n nd) as (ns & -> & Hinv1); [done|done|done|lia|lia|]. rewrite bind_Ret.
    destruct (move_to_head_pinv (set_nodes ns c) L1 i L2 F l (k, take (Z.to_nat n) src) r Hl Hinv1) as (c' & -> & Hinv').
    rewrite bind_Ret. exists c'. split; [done|]. by exists (i :: L1 ++ L2), F.
  - rewrite (lookup_absent c L F vs k Hinv Hf), bind_Ret. cbn [negb Z.eqb Pos.eqb].
    destruct (allocate_node_spec c L F vs Hinv) as (c1 & idx & L' & F' & -> & Hcl).
    rewrite bind_Ret. pose proof (cl_range _ _ _ _ _ Hcl). rewrite (proj2 (Z.ltb_ge idx 0)) by lia.
    destruct (fill_entry_spec c1 idx L' F' (take 63 vs) k src n Hcl) as (c2 & -> & Hinv').
    + apply find_binding_None in Hf. rewrite fmap_take. intros (j & Hj & _)%elem_of_take. apply Hf.
      by eapply list_elem_of_lookup_2.
    + lia.
    + lia.
    + exists c2. split; [done|]. by exists (idx :: L'), F'.
Qed.

(** ** Sequences of operations *)

Inductive pkt_op :=
  | PPut (k : Z) (src : list Z) (n : Z)
  | PGet (k : Z) (out : bool) (out_len : option Z)
  | PPeek (k : Z) (out : bool) (out_len : option Z)
  | PRemove (k : Z).

Definition pkt_step (o : pkt_op) (c : lru_cache_t) : outcome (answer * lru_cache_t) :=
  match o with
  | PPut k src n => '(ok, c) ← lru_put k src n c; Ret (ok, None, None, c)
  | PGet k out out_len => lru_get k out out_len c
  | PPeek k out out_len => lru_peek k out out_len c
  | PRemove k => '(ok, c) ← lru_remove k c; Ret (ok, None, None, c)
  end.

Definition spec_step (o : pkt_op) (vs : list (Z * list Z)) : answer * list (Z * list Z) :=
  match o with
  | PPut k src n => let '(ok, vs) := spec_pkt_put k src n vs in (ok, None, None, vs)
  | PGet k out out_len => spec_pkt_get k out out_len vs
  | PPeek k out out_len => spec_pkt_peek k out out_len vs
  | PRemove k => let '(ok, vs) := spec_pkt_remove k vs in (ok, None, None, vs)
  end.

Fixpoint pkt_run (os : list pkt_op) (c : lru_cache_t) : outcome (list answer * lru_cache_t) :=
  match os with
  | [] => Ret ([], c)
  | o :: os => '(r, c) ← pkt_step o c; '(rs, c) ← pkt_run os c; Ret (r :: rs, c)
  end.

Fixpoint spec_pkt_run (os : list pkt_op) (vs : list (Z * list Z)) : list answer * list (Z * list Z) :=
  match os with
  | [] => ([], vs)
  | o :: os => let '(r, vs) := spec_step o vs in let '(rs, vs) := spec_pkt_run os vs in (r :: rs, vs)
  end.

(** The caller passes a source of at least [n] bytes. *)
Definition op_ok (o : pkt_op) : bool :=
  match o with PPut _ src n => (0 <=? n) && (n <=? Z.of_nat (length src)) | _ => true end.

Lemma pkt_step_spec o c vs : pkt_rep c vs → op_ok o = true →
  ∃ c', pkt_step o c = Ret (fst (spec_step o vs), c') ∧ pkt_rep c' (snd (spec_step o vs)).
Proof.
  intros Hr Ho. destruct o as [k src n|k out out_len|k out out_len|k]; cbn [pkt_step spec_step op_ok] in *.
  - apply andb_true_iff in Ho as [H1%Z.leb_le H2%Z.leb_le].
    destruct (pkt_put_spec c vs k src n Hr) as (c' & -> & Hr'); [lia|]. exists c'. by destruct (spec_pkt_put k src n vs).
  - by apply pkt_get_spec.
  - by apply pkt_peek_spec.
  - destruct (pkt_remove_spec c vs k Hr) as (c' & -> & Hr'). exists c'. by destruct (spec_pkt_remove k vs).
Qed.

Lemma pkt_run_spec os : ∀ c vs, pkt_rep c vs → Forall (λ o, op_ok o = true) os →
  ∃ c', pkt_run os c = Ret (fst (spec_pkt_run os vs), c') ∧ pkt_rep c' (snd (spec_pkt_run os vs)).
Proof.
  induction os as [|o os IH]; intros c vs Hr Ho; simpl; [eauto|]. apply list.Forall_cons in Ho as [Ho Hos].
  destruct (pkt_step_spec o c vs Hr Ho) as (c1 & -> & Hr1). rewrite bind_Ret. destruct (spec_step o vs) as [r vs1].
  destruct (IH c1 vs1 Hr1 Hos) as (c2 & -> & Hr2). rewrite bind_Ret. destruct (spec_pkt_run os vs1) as [rs vs2].
  simpl. eauto.
Qed.

(** C3: every sequence of [lru_put], [lru_get], [lru_peek] and [lru_remove] on
    a fresh packet cache answers like the abstract LRU cache of 64 bindings of a
    key to its bytes: an oversized packet and a too small buffer are refused
    without any change, a get takes its packet out of the cache, and no access
    leaves an array.  The node array, the free stack and the counters stay
    consistent: 64 nodes, [size] of them linked. *)
Theorem packet_lru_correct os : Forall (λ o, op_ok o = true) os →
  ∃ c, pkt_run os lru_init = Ret (fst (spec_pkt_run os []), c) ∧
    size_ c = Z.of_nat (length (snd (spec_pkt_run os []))) ∧ size_ c + free_count c = CAPACITY ∧
    NoDup (snd (spec_pkt_run os [])).*1.
Proof.
  intros Ho. assert (pkt_rep lru_init []) as Hi by (eexists _, _; exact lru_init_pinv).
  destruct (pkt_run_spec os lru_init [] Hi Ho) as (c & E & Hr). destruct Hr as (L & F & Hinv). exists c. split; [done|]. pose proof (pi_size _ _ _ _ Hinv). pose proof (pi_count _ _ _ _ Hinv).
  pose proof (binds_length _ _ _ _ _ _ (pi_binds _ _ _ _ Hinv)). pose proof (pi_free _ _ _ _ Hinv) as (_ & Hfc & _).
  unfold CAPACITY. split_and!; [lia|lia|apply (pi_binds _ _ _ _ Hinv)].
Qed.

Lemma packet_lru_correct_witness : ∃ c, pkt_run
    [PPut 1 [80; 49; 0] 3; PPut 2 [80; 50; 0] 3; PPeek 1 true (Some 2); PPeek 1 true (Some 64); PGet 2 true (Some 64);
     PGet 2 false None; PRemove 1] lru_init =
  Ret ([(true, None, None); (true, None, None); (false, None, None); (true, Some [80; 49; 0], Some 3);
        (true, Some [80; 50; 0], Some 3); (false, None, None); (true, None, None)], c).
Proof.
  destruct (packet_lru_correct [PPut 1 [80; 49; 0] 3; PPut 2 [80; 50; 0] 3; PPeek 1 true (Some 2);
    PPeek 1 true (Some 64); PGet 2 true (Some 64); PGet 2 false None; PRemove 1]) as (c & E & _).
  - repeat constructor.
  - exists c. exact E.
Defined.

(** [hash_find_index] reports an absent key as present when another key
    occupies its home slot. *)
Lemma hash_find_index_wrong : ∃ k k' t, k ≠ k' ∧ probe_insert k 0 (hash_clear (replicate 131 0)) = Ret (true, t) ∧
  hash_find_index t k' = Ret (hash_key k').
Proof.
  exists 2, 395. eexists. split_and!; [done|vm_compute; reflexivity|vm_compute; reflexivity].
Qed.
