(* ===== verification/LruSimple.v ===== *)
(** * lruCache/simple/lruCacheSimple.c

    The pointer-based cache: a doubly linked list between two sentinels and an
    array of 10000 pointers indexed by [key % 10000].  The nodes live in a heap
    from addresses to nodes; 0 is the null pointer. *)

From stdpp Require Import base list gmap numbers.
From Stdlib Require Import ZArith Lia.
From S2P Require Import Prelude LruSpec.

Record Node := mkNode { key : Z; value : Z; prev : Z; next : Z }.
Abbreviation heap := (gmap Z Node).

Record LRUCache := mkCache {
  cells : heap; size_ : Z; capacity : Z; head_ : Z; tail_ : Z; hash : list Z
}.

Definition load (h : heap) (a : Z) : outcome Node :=
  if a =? 0 then Err NullDeref else of_option DanglingPtr (h !! a).
Definition store (h : heap) (a : Z) (f : Node → Node) : outcome heap :=
  n ← load h a; Ret (<[a := f n]> h).
Definition set_prev (p : Z) (n : Node) : Node := mkNode (key n) (value n) p (next n).
Definition set_next (x : Z) (n : Node) : Node := mkNode (key n) (value n) (prev n) x.
Definition set_value (v : Z) (n : Node) : Node := mkNode (key n) v (prev n) (next n).

(** [hd] and [tl] are the addresses of the sentinels, [garbage] what malloc
    leaves in them. *)
Definition createCache (hd tl : Z) (garbage : Node) (cap : Z) : LRUCache :=
  let h := <[tl := set_prev hd garbage]> (<[hd := set_next tl garbage]> ∅) in
  mkCache h 0 cap hd tl (replicate (Z.to_nat 10000) 0).

Definition addNode (node : Z) (c : LRUCache) : outcome LRUCache :=
  h ← store (cells c) node (set_prev (head_ c));
  hn ← load h (head_ c);
  h ← store h node (set_next (next hn));
  hn ← load h (head_ c);
  h ← store h (next hn) (set_prev node);
  h ← store h (head_ c) (set_next node);
  Ret (mkCache h (size_ c) (capacity c) (head_ c) (tail_ c) (hash c)).

Definition removeNode (node : Z) (h : heap) : outcome heap :=
  n ← load h node;
  h ← store h (prev n) (set_next (next n));
  n ← load h node;
  store h (next n) (set_prev (prev n)).

Definition set_cells (h : heap) (c : LRUCache) : LRUCache :=
  mkCache h (size_ c) (capacity c) (head_ c) (tail_ c) (hash c).

Definition moveToHead (node : Z) (c : LRUCache) : outcome LRUCache :=
  h ← removeNode node (cells c);
  addNode node (set_cells h c).

Definition get (key : Z) (c : LRUCache) : outcome (Z * LRUCache) :=
  let idx := Z.rem key 10000 in
  node ← vget (hash c) idx;
  if negb (node =? 0) then
    c ← moveToHead node c;
    n ← load (cells c) node;
    Ret (value n, c)
  else Ret (-1, c).

(** [tail->prev] is unlinked, forgotten by the table and freed. *)
Definition evict (c : LRUCache) : outcome LRUCache :=
  t ← load (cells c) (tail_ c);
  let lru := prev t in
  h ← removeNode lru (cells c);
  n ← load h lru;
  hash ← vset (hash c) (Z.rem (key n) 10000) 0;
  Ret (mkCache (delete lru h) (size_ c - 1) (capacity c) (head_ c) (tail_ c) hash).

(** [fresh] is the address malloc returns. *)
Definition put (fresh key value : Z) (c : LRUCache) : outcome LRUCache :=
  let idx := Z.rem key 10000 in
  node ← vget (hash c) idx;
  if negb (node =? 0) then
    h ← store (cells c) node (set_value value);
    moveToHead node (set_cells h c)
  else
  let h := <[fresh := mkNode key value 0 0]> (cells c) in
  hash ← vset (hash c) idx fresh;
  c ← addNode fresh (mkCache h (size_ c) (capacity c) (head_ c) (tail_ c) hash);
  let c := mkCache (cells c) (size_ c + 1) (capacity c) (head_ c) (tail_ c) (LruSimple.hash c) in
  if capacity c <? size_ c then evict c else Ret c.

(** ** Adjacent nodes *)

Fixpoint adj (h : heap) (X : list Z) : Prop :=
  match X with
  | [] => True
  | a :: X => match X with
              | [] => True
              | b :: _ => next <$> h !! a = Some b ∧ prev <$> h !! b = Some a ∧ adj h X
              end
  end.

Lemma adj_cons2 h a b X : adj h (a :: b :: X) ↔ next <$> h !! a = Some b ∧ prev <$> h !! b = Some a ∧ adj h (b :: X).
Proof. done. Qed.

Lemma adj_app h P p Q : adj h (P ++ p :: Q) ↔ adj h (P ++ [p]) ∧ adj h (p :: Q).
Proof.
  induction P as [|a [|b P] IH]; [simpl; tauto| |].
  - change ([a] ++ p :: Q) with (a :: p :: Q). change ([a] ++ [p]) with [a; p]. rewrite !adj_cons2. simpl. tauto.
  - change ((a :: b :: P) ++ p :: Q) with (a :: b :: (P ++ p :: Q)).
    change ((a :: b :: P) ++ [p]) with (a :: b :: (P ++ [p])). rewrite !adj_cons2.
    change (b :: P ++ p :: Q) with ((b :: P) ++ p :: Q). rewrite IH. simpl. tauto.
Qed.

(** The link before the first node and the one after the last do not matter. *)
Lemma adj_ext h h' X : (∀ a, a ∈ removelast X → next <$> h' !! a = next <$> h !! a) →
  (∀ b, b ∈ tail X → prev <$> h' !! b = prev <$> h !! b) → adj h X → adj h' X.
Proof.
  induction X as [|a [|b X] IH]; intros Hn Hp; [done|done|]. rewrite !adj_cons2. intros (H1 & H2 & H3).
  split_and!.
  - rewrite Hn; [done|left].
  - rewrite Hp; [done|left].
  - apply IH; [| |done]; [intros c Hc; apply Hn; by right|intros c Hc; apply Hp; by right].
Qed.

(** [h'] differs from [h] in links only. *)
Definition same_data (h h' : heap) : Prop :=
  ∀ a, (λ n, (key n, value n)) <$> h' !! a = (λ n, (key n, value n)) <$> h !! a.

Lemma same_data_trans h1 h2 h3 : same_data h1 h2 → same_data h2 h3 → same_data h1 h3.
Proof. intros H1 H2 a. by rewrite H2, H1. Qed.

Lemma same_data_store h a n f : h !! a = Some n → (∀ n, key (f n) = key n ∧ value (f n) = value n) →
  same_data h (<[a := f n]> h).
Proof.
  intros Ha Hf b. destruct (decide (b = a)) as [->|Hne]; [|by rewrite lookup_insert_ne].
  rewrite lookup_insert_eq, Ha. csimpl. destruct (Hf n) as [-> ->]. done.
Qed.

Lemma same_data_dom h h' : same_data h h' → dom h' = dom h.
Proof.
  intros Hs. apply set_eq. intros a. rewrite !elem_of_dom. specialize (Hs a).
  destruct (h' !! a), (h !! a); csimpl in Hs; try done; split; intros [? ?]; eauto.
Qed.

Lemma load_Ret h a n : a ≠ 0 → h !! a = Some n → load h a = Ret n.
Proof. intros Ha Hn. unfold load. by rewrite (proj2 (Z.eqb_neq a 0) Ha), Hn. Qed.

Lemma store_Ret h a n f : a ≠ 0 → h !! a = Some n → store h a f = Ret (<[a := f n]> h).
Proof. intros Ha Hn. unfold store. by rewrite (load_Ret h a n). Qed.

Lemma next_insert (h : heap) a n b : next <$> <[a := n]> h !! b = if decide (b = a) then Some (next n) else next <$> h !! b.
Proof. case_decide; [subst; by rewrite lookup_insert_eq|by rewrite lookup_insert_ne]. Qed.
Lemma prev_insert (h : heap) a n b : prev <$> <[a := n]> h !! b = if decide (b = a) then Some (prev n) else prev <$> h !! b.
Proof. case_decide; [subst; by rewrite lookup_insert_eq|by rewrite lookup_insert_ne]. Qed.

Lemma fmap_next (h : heap) a b : next <$> h !! a = Some b → ∃ n, h !! a = Some n ∧ next n = b.
Proof. intros (n & -> & Hn)%fmap_Some. eauto. Qed.
Lemma fmap_prev (h : heap) a b : prev <$> h !! a = Some b → ∃ n, h !! a = Some n ∧ prev n = b.
Proof. intros (n & -> & Hn)%fmap_Some. eauto. Qed.

Lemma adj_alloc h X a : adj h X → (2 ≤ length X)%nat → a ∈ X → is_Some (h !! a).
Proof.
  induction X as [|b [|c X] IH]; intros Hadj Hl Ha; simpl in Hl; [lia|lia|]. destruct Hadj as (H1 & H2 & H3).
  apply fmap_next in H1 as (n & Hn & _). apply fmap_prev in H2 as (m & Hm & _).
  apply elem_of_cons in Ha as [->|Ha]; [eauto|]. apply elem_of_cons in Ha as [->|Ha]; [eauto|].
  apply IH; [done| |by right]. destruct X; [by apply not_elem_of_nil in Ha|simpl; lia].
Qed.

(** ** Unlinking and linking *)

Lemma removeNode_spec h P p i n Q : adj h (P ++ p :: i :: n :: Q) → NoDup (P ++ p :: i :: n :: Q) →
  0 ∉ P ++ p :: i :: n :: Q →
  ∃ h', removeNode i h = Ret h' ∧ adj h' (P ++ p :: n :: Q) ∧ same_data h h'.
Proof.
  intros Hadj Hnd H0. assert (p ≠ 0 ∧ i ≠ 0 ∧ n ≠ 0) as (Hp0 & Hi0 & Hn0) by set_solver.
  apply adj_app in Hadj as [HP Hadj]. apply adj_cons2 in Hadj as (Hpn & Hip & Hadj).
  apply adj_cons2 in Hadj as (Hin & Hnp & HQ).
  apply fmap_next in Hpn as (np & Hp & Epi). apply fmap_prev in Hip as (ni & Hi & Eip).
  apply fmap_prev in Hnp as (nn & Hn & Eni). rewrite Hi in Hin. csimpl in Hin. injection Hin as Ein.
  apply list.NoDup_app in Hnd as (HndP & Hdis & HndR). apply list.NoDup_cons in HndR as [Hpi HndR].
  apply list.NoDup_cons in HndR as [Hin' HndR]. pose proof HndR as HndQ. apply list.NoDup_cons in HndR as [HnQ _].
  assert (p ≠ i ∧ p ≠ n ∧ i ≠ n) as (Hpi' & Hpn' & Hin'') by set_solver.
  assert (p ∉ P ∧ n ∉ P) as [HpP HnP].
  { split; intros Hx; apply (Hdis _ Hx); set_solver. }
  unfold removeNode. rewrite (load_Ret h i ni), bind_Ret, Eip, Ein by done.
  rewrite (store_Ret h p np), bind_Ret by done.
  rewrite (load_Ret _ i ni), bind_Ret by (done || by rewrite lookup_insert_ne). rewrite Ein, Eip.
  rewrite (store_Ret _ n nn) by (done || by rewrite lookup_insert_ne). eexists. split; [done|]. split.
  - apply adj_app. split; [|apply adj_cons2; split_and!].
    + eapply adj_ext; [| |exact HP].
      * intros a Ha. rewrite removelast_last in Ha. rewrite !next_insert. rewrite !decide_False; [done|set_solver|set_solver].
      * intros b Hb. rewrite !prev_insert. assert (b ∈ P ++ [p]) by (destruct P; set_solver).
        rewrite decide_False by set_solver. case_decide; [by subst b; rewrite Hp|done].
    + rewrite next_insert, decide_False, next_insert by done. by rewrite decide_True.
    + rewrite prev_insert. by rewrite decide_True.
    + eapply adj_ext; [| |exact HQ].
      * intros a Ha. rewrite !next_insert. assert (a ∈ n :: Q).
        { rewrite (app_removelast_last 0 (l := n :: Q)) by done. set_solver. }
        case_decide; [by subst a; rewrite Hn|]. rewrite decide_False; [done|set_solver].
      * intros b Hb. simpl in Hb. rewrite !prev_insert. rewrite !decide_False; [done|set_solver|set_solver].
  - eapply same_data_trans; [by apply (same_data_store h p np (set_next n))|].
    apply (same_data_store _ n nn (set_prev p)); [by rewrite lookup_insert_ne|done].
Qed.

Lemma addNode_spec c i nd n Q : adj (cells c) (head_ c :: n :: Q) → NoDup (i :: head_ c :: n :: Q) →
  0 ∉ i :: head_ c :: n :: Q → cells c !! i = Some nd →
  ∃ h', addNode i c = Ret (set_cells h' c) ∧ adj h' (head_ c :: i :: n :: Q) ∧ same_data (cells c) h'.
Proof.
  destruct c as [h sz cap hd tl hs]. cbn [cells head_]. intros Hadj Hnd H0 Hi.
  assert (hd ≠ 0 ∧ i ≠ 0 ∧ n ≠ 0) as (Hh0 & Hi0 & Hn0) by set_solver.
  apply list.NoDup_cons in Hnd as [HiX HndX]. apply list.NoDup_cons in HndX as [HhX HndQ].
  pose proof HndQ as [HnQ _]%list.NoDup_cons. assert (i ≠ hd ∧ i ≠ n ∧ hd ≠ n) as (Hih & Hin & Hhn) by set_solver.
  apply adj_cons2 in Hadj as (Hhnx & Hnp & HQ). apply fmap_next in Hhnx as (nh & Hh & Enh). apply fmap_prev in Hnp as (nn & Hn & Enn).
  unfold addNode. cbn [cells head_ size_ capacity tail_ hash]. rewrite (store_Ret h i nd), bind_Ret by done.
  rewrite (load_Ret _ hd nh), bind_Ret by (done || by rewrite lookup_insert_ne). rewrite Enh.
  rewrite (store_Ret _ i (set_prev hd nd)), bind_Ret by (done || by rewrite lookup_insert_eq).
  rewrite insert_insert_eq. rewrite (load_Ret _ hd nh), bind_Ret by (done || by rewrite lookup_insert_ne). rewrite Enh.
  rewrite (store_Ret _ n nn), bind_Ret by (done || by rewrite lookup_insert_ne).
  rewrite (store_Ret _ hd nh), bind_Ret by (done || by rewrite !lookup_insert_ne).
  eexists. split; [done|]. split.
  - apply adj_cons2. split; [|split; [|apply adj_cons2; split; [|split]]].
    + rewrite next_insert. by rewrite decide_True.
    + rewrite !prev_insert. repeat case_decide; done || congruence.
    + rewrite !next_insert. repeat case_decide; done || congruence.
    + rewrite !prev_insert. repeat case_decide; done || congruence.
    + eapply adj_ext; [| |exact HQ].
      * intros a Ha. assert (a ∈ n :: Q) by (rewrite (app_removelast_last 0 (l := n :: Q)) by done; set_solver).
        rewrite !next_insert. assert (a ≠ hd ∧ a ≠ i) as [? ?] by set_solver. rewrite decide_False by done.
        case_decide; [by subst a; rewrite Hn|]. by rewrite decide_False.
      * intros b Hb. simpl in Hb. rewrite !prev_insert. assert (b ≠ hd ∧ b ≠ i ∧ b ≠ n) as (? & ? & ?) by set_solver.
        by rewrite !decide_False.
  - eapply same_data_trans; [|eapply same_data_trans].
    + by apply (same_data_store h i nd (λ m, set_next n (set_prev hd m))).
    + apply (same_data_store _ n nn (set_prev i)); [by rewrite lookup_insert_ne|done].
    + apply (same_data_store _ hd nh (set_next i)); [by rewrite !lookup_insert_ne|done].
Qed.

(** ** The invariant *)

Definition holds (h : heap) (a : Z) (b : Z * Z) : Prop := (λ n, (key n, value n)) <$> h !! a = Some b.

(** The table points to the node of each key below 10000 that is present. *)
Definition indexed (hs : list Z) (L : list Z) (vs : list (Z * Z)) : Prop :=
  length hs = Z.to_nat 10000 ∧ Forall (λ b, 0 ≤ fst b < 10000) vs ∧
  (∀ a b, (a, b) ∈ zip L vs → vget hs (fst b) = Ret a) ∧
  (∀ k, 0 ≤ k < 10000 → k ∉ vs.*1 → vget hs k = Ret 0).

Record simple_inv (c : LRUCache) (cap : nat) (L : list Z) (vs : list (Z * Z)) : Prop := {
  si_adj : adj (cells c) (head_ c :: L ++ [tail_ c]);
  si_distinct : NoDup (head_ c :: L ++ [tail_ c]);
  si_nonnull : 0 ∉ head_ c :: L ++ [tail_ c];
  si_dom : dom (cells c) = list_to_set (head_ c :: L ++ [tail_ c]);
  si_holds : Forall2 (holds (cells c)) L vs;
  si_keys : NoDup vs.*1;
  si_index : indexed (hash c) L vs;
  si_size : size_ c = Z.of_nat (length L);
  si_cap : capacity c = Z.of_nat cap
}.

Lemma holds_same h h' a b : same_data h h' → holds h a b → holds h' a b.
Proof. unfold holds. intros Hs. by rewrite (Hs a). Qed.

Lemma zip_middle {A B} (L1 : list A) a L2 (l : list B) b r : length L1 = length l →
  zip (L1 ++ a :: L2) (l ++ b :: r) ≡ₚ (a, b) :: zip (L1 ++ L2) (l ++ r).
Proof. intros Hl. rewrite !zip_with_app by done. simpl. by rewrite <- Permutation_middle. Qed.

(** The table does not depend on the order of the list. *)
Lemma indexed_front hs L1 a L2 l b r : length L1 = length l → indexed hs (L1 ++ a :: L2) (l ++ b :: r) →
  indexed hs (a :: L1 ++ L2) (b :: l ++ r).
Proof.
  intros Hl (H1 & H2 & H3 & H4). split_and!; [done| | |].
  - by rewrite Permutation_middle.
  - intros a' b' Hin. apply H3. by rewrite zip_middle.
  - intros k Hk Hn. apply H4; [done|]. rewrite fmap_app, fmap_cons. rewrite fmap_cons, fmap_app in Hn. set_solver.
Qed.

Lemma indexed_value hs L1 a L2 l k v w r : length L1 = length l → indexed hs (L1 ++ a :: L2) (l ++ (k, v) :: r) →
  indexed hs (L1 ++ a :: L2) (l ++ (k, w) :: r).
Proof.
  intros Hl (H1 & H2 & H3 & H4). split_and!; [done| | |].
  - apply Forall_app in H2 as [Ha [Hb Hc]%list.Forall_cons]. by apply Forall_app_2; [|constructor].
  - intros a' b'. rewrite zip_middle by done. intros [[= -> ->]|Hin]%elem_of_cons.
    + apply (H3 a (k, v)). rewrite zip_middle by done. left.
    + apply H3. rewrite zip_middle by done. by right.
  - intros k' Hk Hn. apply H4; [done|]. by rewrite fmap_app, fmap_cons in *.
Qed.

Lemma holds_unique c cap L1 a L2 l b r : length L1 = length l → simple_inv c cap (L1 ++ a :: L2) (l ++ b :: r) →
  length L2 = length r ∧ holds (cells c) a b ∧ Forall2 (holds (cells c)) (L1 ++ L2) (l ++ r).
Proof.
  intros Hl Hinv. pose proof (si_holds _ _ _ _ Hinv) as [Hf1 Hf2]%list.Forall2_app_inv; [|done].
  inversion Hf2; subst. split_and!; [by eapply Forall2_length|done|by apply Forall2_app].
Qed.

(** A key below 10000 is looked up exactly. *)
Lemma table_present c cap L vs k v : simple_inv c cap L vs → find_binding k vs = Some v →
  ∃ L1 a L2 l r, L = L1 ++ a :: L2 ∧ vs = l ++ (k, v) :: r ∧ length L1 = length l ∧ drop_binding k vs = l ++ r ∧
    vget (hash c) (Z.rem k 10000) = Ret a ∧ a ≠ 0.
Proof.
  intros Hinv (l & r & -> & Hl & Hd)%find_binding_Some.
  pose proof (Forall2_length (si_holds _ _ _ _ Hinv)) as Hlen. rewrite length_app in Hlen. simpl in Hlen.
  destruct (lookup_lt_is_Some_2 L (length l)) as [a Ha]; [lia|].
  exists (take (length l) L), a, (drop (S (length l)) L), l, r.
  assert (L = take (length l) L ++ a :: drop (S (length l)) L) as E by (symmetry; by apply take_drop_middle).
  assert (length (take (length l) L) = length l) as Hl1 by (rewrite length_take; lia).
  split_and!; [done..| |].
  - pose proof (si_index _ _ _ _ Hinv) as (_ & Hr & Hx & _). apply Forall_app in Hr as [_ [Hr _]%list.Forall_cons].
    simpl in Hr. rewrite Z.rem_small by done. apply (Hx a (k, v)). rewrite E, zip_middle by done. left.
  - intros ->. apply (si_nonnull _ _ _ _ Hinv). apply list_elem_of_lookup_2 in Ha. set_solver.
Qed.

Lemma table_absent c cap L vs k : simple_inv c cap L vs → find_binding k vs = None → 0 ≤ k < 10000 →
  vget (hash c) (Z.rem k 10000) = Ret 0.
Proof.
  intros Hinv Hf%find_binding_None Hk. rewrite Z.rem_small by done. by apply (si_index _ _ _ _ Hinv).
Qed.

(** ** Operations *)

Lemma remove_inner h hd tl L1 i L2 : adj h (hd :: (L1 ++ i :: L2) ++ [tl]) → NoDup (hd :: (L1 ++ i :: L2) ++ [tl]) →
  0 ∉ hd :: (L1 ++ i :: L2) ++ [tl] →
  ∃ h', removeNode i h = Ret h' ∧ adj h' (hd :: (L1 ++ L2) ++ [tl]) ∧ same_data h h'.
Proof.
  destruct (exists_last_or_nil (hd :: L1)) as [|(P & p & EP)]; [done|].
  assert (∃ n Q, L2 ++ [tl] = n :: Q) as (n & Q & EQ) by (destruct L2; eexists _, _; done).
  assert (hd :: (L1 ++ i :: L2) ++ [tl] = P ++ p :: i :: n :: Q) as ->.
  { rewrite <- EQ. change (p :: i :: L2 ++ [tl]) with ([p] ++ i :: L2 ++ [tl]). rewrite app_assoc, <- EP.
    simpl. by rewrite <- app_assoc. }
  assert (hd :: (L1 ++ L2) ++ [tl] = P ++ p :: n :: Q) as ->.
  { rewrite <- EQ. change (p :: L2 ++ [tl]) with ([p] ++ L2 ++ [tl]). rewrite app_assoc, <- EP.
    simpl. by rewrite <- app_assoc. }
  apply removeNode_spec.
Qed.

Lemma front_perm (hd : Z) L1 i L2 (tl : Z) : i :: hd :: (L1 ++ L2) ++ [tl] ≡ₚ hd :: (L1 ++ i :: L2) ++ [tl].
Proof.
  etransitivity; [apply perm_swap|apply perm_skip]. rewrite <- !app_assoc. apply Permutation_middle.
Qed.

Lemma front_perm' (hd : Z) L i (tl : Z) : hd :: (i :: L) ++ [tl] ≡ₚ i :: hd :: L ++ [tl].
Proof. apply perm_swap. Qed.

Lemma NoDup_perm {A} (l l' : list A) : l ≡ₚ l' → NoDup l → NoDup l'.
Proof. by intros ->. Qed.
Lemma notin_perm {A} (l l' : list A) x : l ≡ₚ l' → x ∉ l → x ∉ l'.
Proof. by intros ->. Qed.

Lemma moveToHead_inv c cap L1 i L2 l b r : length L1 = length l → simple_inv c cap (L1 ++ i :: L2) (l ++ b :: r) →
  ∃ h, moveToHead i c = Ret (set_cells h c) ∧ simple_inv (set_cells h c) cap (i :: L1 ++ L2) (b :: l ++ r) ∧ holds h i b.
Proof.
  intros Hl Hinv. destruct (holds_unique _ _ _ _ _ _ _ _ Hl Hinv) as (_ & Hib & Hf). unfold moveToHead.
  destruct (remove_inner (cells c) (head_ c) (tail_ c) L1 i L2) as (h1 & -> & Ha1 & Hs1); [apply Hinv..|]. rewrite bind_Ret.
  pose proof (si_distinct _ _ _ _ Hinv) as Hnd. rewrite <- (front_perm (head_ c) L1 i L2 (tail_ c)) in Hnd.
  pose proof (si_nonnull _ _ _ _ Hinv) as H0. rewrite <- (front_perm (head_ c) L1 i L2 (tail_ c)) in H0.
  assert (∃ n Q, (L1 ++ L2) ++ [tail_ c] = n :: Q) as (n & Q & EQ) by (destruct (L1 ++ L2); eexists _, _; done).
  pose proof (holds_same _ _ _ _ Hs1 Hib) as Hib1. apply fmap_Some in Hib1 as (nd & Hnd1 & _).
  destruct (addNode_spec (set_cells h1 c) i nd n Q) as (h2 & E & Ha2 & Hs2);
    [simpl head_; rewrite <- EQ; exact Ha1|simpl head_; rewrite <- EQ; exact Hnd|simpl head_; rewrite <- EQ; exact H0|done|].
  simpl head_ in Ha2. rewrite <- EQ in Ha2. exists h2. split; [done|]. simpl cells in Hs2.
  pose proof (same_data_trans _ _ _ Hs1 Hs2) as Hs. split; [|by eapply holds_same].
  split; simpl cells; simpl head_; simpl tail_.
  - exact Ha2.
  - eapply NoDup_perm; [symmetry; apply front_perm'|done].
  - eapply notin_perm; [symmetry; apply front_perm'|done].
  - rewrite (same_data_dom _ _ Hs), (si_dom _ _ _ _ Hinv). apply list_to_set_perm_L.
    rewrite front_perm'. by rewrite front_perm.
  - constructor; [by eapply holds_same|]. eapply list.Forall2_impl; [exact Hf|]. intros. by eapply holds_same.
  - pose proof (si_keys _ _ _ _ Hinv) as Hk. rewrite fmap_cons, fmap_app. rewrite fmap_app, fmap_cons in Hk.
    by apply list.NoDup_cons, NoDup_middle.
  - by apply indexed_front; [|apply Hinv].
  - simpl. rewrite (si_size _ _ _ _ Hinv), !length_app. simpl. lia.
  - apply Hinv.
Qed.

Lemma get_spec c cap L vs k : simple_inv c cap L vs → 0 ≤ k < 10000 →
  ∃ c' L', get k c = Ret (default (-1) (fst (spec_get k vs)), c') ∧ simple_inv c' cap L' (snd (spec_get k vs)) ∧
    head_ c' = head_ c ∧ tail_ c' = tail_ c.
Proof.
  intros Hinv Hk. unfold get, spec_get. destruct (find_binding k vs) as [v|] eqn:Hf.
  - destruct (table_present c cap L vs k v Hinv Hf) as (L1 & a & L2 & l & r & -> & -> & Hl & -> & -> & Ha).
    rewrite bind_Ret, (proj2 (Z.eqb_neq a 0)) by done. cbn [negb].
    destruct (moveToHead_inv c cap L1 a L2 l (k, v) r Hl Hinv) as (h & -> & Hinv' & Hab). rewrite bind_Ret.
    apply fmap_Some in Hab as (n & Hn & [= -> ->]). simpl cells. rewrite (load_Ret h a n), bind_Ret by done.
    eexists _, _. split; [done|]. split; [exact Hinv'|done].
  - rewrite (table_absent c cap L vs k Hinv Hf Hk), bind_Ret. exists c, L. done.
Qed.

(** Adding a node for a key that is not in the table. *)
Lemma add_fresh c cap L vs a k v hs : simple_inv c cap L vs → a ≠ 0 → cells c !! a = None → 0 ≤ k < 10000 →
  k ∉ vs.*1 → vset (hash c) k a = Ret hs →
  ∃ h, addNode a (mkCache (<[a := mkNode k v 0 0]> (cells c)) (size_ c) (capacity c) (head_ c) (tail_ c) hs) =
      Ret (mkCache h (size_ c) (capacity c) (head_ c) (tail_ c) hs) ∧
    simple_inv (mkCache h (size_ c + 1) (capacity c) (head_ c) (tail_ c) hs) cap (a :: L) ((k, v) :: vs).
Proof.
  intros Hinv Ha Hfresh Hk Hkn Hvs. assert (a ∉ head_ c :: L ++ [tail_ c]) as HaX.
  { intros Hin. apply not_elem_of_dom in Hfresh. rewrite (si_dom _ _ _ _ Hinv), elem_of_list_to_set in Hfresh. done. }
  set (h0 := <[a := mkNode k v 0 0]> (cells c)).
  assert (∃ n Q, L ++ [tail_ c] = n :: Q) as (n & Q & EQ) by (destruct L; eexists _, _; done).
  destruct (addNode_spec (mkCache h0 (size_ c) (capacity c) (head_ c) (tail_ c) hs) a (mkNode k v 0 0) n Q)
    as (h & E & Hadj & Hs); simpl head_; simpl cells; rewrite <- ?EQ.
  - eapply adj_ext; [| |apply Hinv]; intros b Hb; unfold h0; rewrite lookup_insert_ne; try done; intros <-; apply HaX.
    + rewrite (app_removelast_last 0 (l := head_ c :: L ++ [tail_ c])) by done. set_solver.
    + right. exact Hb.
  - constructor; [done|apply Hinv].
  - apply not_elem_of_cons. split; [congruence|apply Hinv].
  - unfold h0. by rewrite lookup_insert_eq.
  - exists h. split; [exact E|]. simpl head_ in Hadj. rewrite <- EQ in Hadj. simpl cells in Hs.
    apply vset_Ret in Hvs as [Hr ->]. pose proof (si_index _ _ _ _ Hinv) as (Hhl & Hrange & Hx & Hz).
    split; simpl cells; simpl head_; simpl tail_; simpl hash; simpl size_; simpl capacity.
    + exact Hadj.
    + eapply NoDup_perm; [symmetry; apply front_perm'|]. constructor; [done|apply Hinv].
    + eapply notin_perm; [symmetry; apply front_perm'|]. apply not_elem_of_cons. split; [congruence|apply Hinv].
    + rewrite (same_data_dom _ _ Hs). unfold h0. rewrite dom_insert_L, (si_dom _ _ _ _ Hinv).
      rewrite (list_to_set_perm_L _ _ (front_perm' (head_ c) L a (tail_ c))). done.
    + constructor; [eapply holds_same; [exact Hs|]; unfold holds, h0; by rewrite lookup_insert_eq|].
      assert (∀ x, x ∈ L → x ≠ a) as Hne by set_solver. pose proof (si_holds _ _ _ _ Hinv) as Hf.
      clear -Hf Hs Hne. induction Hf as [|x b L vs Hx Hf IH]; constructor; [|apply IH; set_solver].
      eapply holds_same; [exact Hs|]. unfold holds, h0. rewrite lookup_insert_ne; [done|]. intros <-. apply (Hne a); [left|done].
    + constructor; [done|apply Hinv].
    + split_and!; [by rewrite length_insert|by constructor| |].
      * intros a' b'. simpl. intros [[= -> ->]|Hin]%elem_of_cons; simpl.
        -- apply vget_Ret. split; [lia|]. apply list_lookup_insert_eq. lia.
        -- specialize (Hx a' b' Hin) as [Hb Hb']%vget_Ret. apply vget_Ret. split; [done|]. rewrite list_lookup_insert_ne; [done|].
           intros E'. apply Hkn. apply elem_of_zip_r in Hin. assert (k = b'.1) as -> by lia. apply list_elem_of_fmap. eauto.
      * intros k' Hk' Hn'. rewrite fmap_cons in Hn'. apply not_elem_of_cons in Hn' as [Hne Hn']. simpl in Hne.
        specialize (Hz k' Hk' Hn') as [_ Hz']%vget_Ret. apply vget_Ret. split; [lia|]. rewrite list_lookup_insert_ne; [done|]. lia.
    + rewrite (si_size _ _ _ _ Hinv). simpl. lia.
    + apply Hinv.
Qed.

Lemma evict_spec c cap L t l b : length L = length l → simple_inv c cap (L ++ [t]) (l ++ [b]) →
  ∃ c', evict c = Ret c' ∧ simple_inv c' cap L l ∧ head_ c' = head_ c ∧ tail_ c' = tail_ c.
Proof.
  intros Hl Hinv. destruct (holds_unique _ _ _ _ _ _ _ _ Hl Hinv) as (_ & Htb & Hf). rewrite !app_nil_r in Hf.
  pose proof (si_distinct _ _ _ _ Hinv) as Hnd. rewrite <- (front_perm (head_ c) L t [] (tail_ c)) in Hnd.
  pose proof (si_nonnull _ _ _ _ Hinv) as H0. rewrite <- (front_perm (head_ c) L t [] (tail_ c)) in H0.
  rewrite app_nil_r in Hnd, H0. apply list.NoDup_cons in Hnd as [HtX Hnd]. apply not_elem_of_cons in H0 as [Ht0 H0].
  destruct (remove_inner (cells c) (head_ c) (tail_ c) L t []) as (h1 & E1 & Ha1 & Hs1); [apply Hinv..|].
  rewrite app_nil_r in Ha1. unfold evict.
  assert (prev <$> cells c !! tail_ c = Some t) as Hpt.
  { pose proof (si_adj _ _ _ _ Hinv) as Hadj. rewrite <- app_assoc in Hadj.
    change (head_ c :: L ++ [t] ++ [tail_ c]) with ((head_ c :: L) ++ t :: [tail_ c]) in Hadj.
    apply adj_app in Hadj as [_ (_ & Hadj & _)]. done. }
  apply fmap_prev in Hpt as (nt & Hnt & Ent). rewrite (load_Ret _ (tail_ c) nt), bind_Ret, Ent, E1, bind_Ret
    by (done || set_solver).
  pose proof (holds_same _ _ _ _ Hs1 Htb) as Htb1. apply fmap_Some in Htb1 as (n & Hn & ->).
  rewrite (load_Ret h1 t n), bind_Ret by congruence. pose proof (si_index _ _ _ _ Hinv) as (Hhl & Hrange & Hx & Hz).
  apply Forall_app in Hrange as [Hrange [Hkr _]%list.Forall_cons]. simpl in Hkr. rewrite Z.rem_small by done.
  rewrite vset_total, bind_Ret by lia. eexists. split; [done|]. split; [|done].
  pose proof (si_keys _ _ _ _ Hinv) as Hk. rewrite fmap_app in Hk. simpl in Hk. apply NoDup_middle in Hk as [Hkn Hk].
  rewrite app_nil_r in Hkn, Hk.
  split; simpl cells; simpl head_; simpl tail_; simpl hash; simpl size_; simpl capacity.
  - eapply adj_ext; [| |exact Ha1]; intros x Hx'; rewrite lookup_delete_ne; try done; intros <-; apply HtX.
    + rewrite (app_removelast_last 0 (l := head_ c :: L ++ [tail_ c])) by done. set_solver.
    + right. exact Hx'.
  - exact Hnd.
  - exact H0.
  - rewrite dom_delete_L, (same_data_dom _ _ Hs1), (si_dom _ _ _ _ Hinv).
    rewrite <- (list_to_set_perm_L _ _ (front_perm (head_ c) L t [] (tail_ c))), app_nil_r. rewrite list_to_set_cons.
    assert (t ∉@{gset Z} list_to_set (head_ c :: L ++ [tail_ c])) by (by rewrite elem_of_list_to_set). set_solver.
  - assert (∀ x, x ∈ L → x ≠ t) as Hne by set_solver. clear -Hf Hs1 Hne.
    induction Hf as [|x b L vs Hx Hf IH]; constructor; [|apply IH; set_solver].
    unfold holds. rewrite lookup_delete_ne; [by apply (holds_same _ _ _ _ Hs1)|]. intros <-. apply (Hne t); [left|done].
  - exact Hk.
  - split_and!; [by rewrite length_insert|done| |].
    + intros a' b' Hin. assert (b'.1 ∈ l.*1) as Hb' by (apply list_elem_of_fmap; eexists; split; [done|]; by eapply elem_of_zip_r).
      destruct (proj1 (vget_Ret _ _ _) (Hx a' b' ltac:(rewrite zip_with_app by done; set_solver))) as [Hp Hq].
      apply vget_Ret. split; [done|]. rewrite list_lookup_insert_ne; [done|]. intros E. apply Hkn.
      by replace (key n) with b'.1 by lia.
    + intros k' Hk' Hn'. apply vget_Ret. split; [lia|]. destruct (decide (k' = key n)) as [->|Hne].
      * apply list_lookup_insert_eq. lia.
      * rewrite list_lookup_insert_ne by lia. apply vget_Ret. apply Hz; [done|]. rewrite fmap_app. simpl. set_solver.
  - rewrite (si_size _ _ _ _ Hinv), length_app. simpl. lia.
  - apply Hinv.
Qed.

Lemma store_value c cap L1 i L2 l k v w r : length L1 = length l → simple_inv c cap (L1 ++ i :: L2) (l ++ (k, v) :: r) →
  ∃ h, store (cells c) i (set_value w) = Ret h ∧ simple_inv (set_cells h c) cap (L1 ++ i :: L2) (l ++ (k, w) :: r).
Proof.
  intros Hl Hinv. destruct (holds_unique _ _ _ _ _ _ _ _ Hl Hinv) as (Hl2 & Hib & Hf).
  apply fmap_Some in Hib as (n & Hn & [= -> ->]). assert (i ≠ 0) as Hi0.
  { intros ->. apply (si_nonnull _ _ _ _ Hinv). set_solver. }
  rewrite (store_Ret _ i n) by done. eexists. split; [done|]. pose proof (si_distinct _ _ _ _ Hinv) as Hnd.
  rewrite <- (front_perm (head_ c) L1 i L2 (tail_ c)) in Hnd. apply list.NoDup_cons in Hnd as [HiX Hnd].
  split; simpl cells; simpl head_; simpl tail_; try apply Hinv.
  - eapply adj_ext; [| |apply Hinv]; intros a Ha; [rewrite next_insert|rewrite prev_insert]; case_decide; try done; subst a; by rewrite Hn.
  - rewrite dom_insert_L, (si_dom _ _ _ _ Hinv). set_solver.
  - apply list.Forall2_app_inv in Hf as [Hf1 Hf2]; [|done].
    assert (∀ L vs, Forall2 (holds (cells c)) L vs → i ∉ L → Forall2 (holds (<[i := set_value w n]> (cells c))) L vs) as Hfr.
    { intros L vs HF Hi. induction HF as [|x b L vs Hx HF IH]; constructor; [|apply IH; set_solver].
      unfold holds. rewrite lookup_insert_ne; [done|]. set_solver. }
    apply Forall2_app; [apply Hfr; [done|set_solver]|constructor; [|apply Hfr; [done|set_solver]]].
    unfold holds. by rewrite lookup_insert_eq.
  - rewrite fmap_app, fmap_cons. pose proof (si_keys _ _ _ _ Hinv) as Hk. by rewrite fmap_app, fmap_cons in Hk.
  - by eapply indexed_value; [|apply Hinv].
Qed.

Lemma put_spec c cap L vs a k v : simple_inv c cap L vs → (1 ≤ cap)%nat → (length L ≤ cap)%nat →
  a ≠ 0 → cells c !! a = None → 0 ≤ k < 10000 →
  ∃ c' L', put a k v c = Ret c' ∧ simple_inv c' cap L' (spec_put cap k v vs) ∧ (length L' ≤ cap)%nat ∧
    head_ c' = head_ c ∧ tail_ c' = tail_ c.
Proof.
  intros Hinv Hcap Hlen Ha Hfresh Hk. unfold put, spec_put. pose proof (Forall2_length (si_holds _ _ _ _ Hinv)) as Hll.
  destruct (find_binding k vs) as [w|] eqn:Hf.
  - destruct (table_present c cap L vs k w Hinv Hf) as (L1 & i & L2 & l & r & -> & -> & Hl & -> & -> & Hi).
    rewrite bind_Ret, (proj2 (Z.eqb_neq i 0)) by done. cbn [negb].
    destruct (store_value c cap L1 i L2 l k w v r Hl Hinv) as (h & -> & Hinv1). rewrite bind_Ret.
    destruct (moveToHead_inv _ cap L1 i L2 l (k, v) r Hl Hinv1) as (h2 & -> & Hinv2 & _).
    eexists _, _. split; [done|]. split; [exact Hinv2|]. split; [|done]. rewrite !length_app in *. simpl in *.
    rewrite length_app. lia.
  - rewrite (table_absent c cap L vs k Hinv Hf Hk), bind_Ret. cbn [negb Z.eqb]. rewrite Z.rem_small by done.
    apply find_binding_None in Hf. pose proof (si_index _ _ _ _ Hinv) as (Hhl & _).
    destruct (vset (hash c) k a) as [hs|] eqn:Ehs; [|rewrite vset_total in Ehs by lia; done]. rewrite bind_Ret.
    destruct (add_fresh c cap L vs a k v hs) as (h & -> & Hinv1); [done..|]. rewrite bind_Ret.
    cbn [cells size_ capacity head_ tail_ hash]. pose proof (si_cap _ _ _ _ Hinv). pose proof (si_size _ _ _ _ Hinv).
    destruct (Z.ltb_spec (capacity c) (size_ c + 1)) as [Hov|Hfit].
    + assert (length L = cap) as Hlc by lia.
      destruct (exists_last_or_nil L) as [->|(L' & t & ->)]; [simpl in *; lia|].
      destruct (exists_last_or_nil vs) as [->|(l & b & ->)]; [rewrite length_app in *; simpl in *; lia|].
      rewrite !length_app in *. simpl in *. rewrite take_app_le, take_ge by lia.
      edestruct (λ H, evict_spec _ cap (a :: L') t ((k, v) :: l) b H Hinv1) as (c' & E & Hinv' & Hh & Ht); [simpl; lia|].
      exists c', (a :: L'). split_and!; [exact E|done|simpl; lia|done|done].
    + rewrite take_ge by lia. eexists _, (a :: L). split; [done|]. split; [exact Hinv1|]. split; [simpl; lia|done].
Qed.

(** ** The cache as an instance of the interface *)

(** [alloc] is malloc: an address that is not null and not in use. *)
Definition fresh_addresses (alloc : heap → Z) : Prop := ∀ h, alloc h ≠ 0 ∧ h !! alloc h = None.

Section Interface.
Context (alloc : heap → Z) (Hfresh : fresh_addresses alloc) (cap : nat) (Hcap : (1 ≤ cap)%nat).

Definition simple_put (k v : Z) (c : LRUCache) : outcome LRUCache := put (alloc (cells c)) k v c.

Fixpoint run_simple (os : list (lru_op Z)) (c : LRUCache) : outcome (list Z * LRUCache) :=
  match os with
  | [] => Ret ([], c)
  | Get k :: os => '(r, c) ← get k c; '(rs, c) ← run_simple os c; Ret (r :: rs, c)
  | Put k v :: os => c ← simple_put k v c; run_simple os c
  end.

Lemma run_simple_spec os : ∀ c L vs, simple_inv c cap L vs → (length L ≤ cap)%nat →
  Forall (λ o, 0 ≤ op_key o < 10000) os →
  ∃ c' L', run_simple os c = Ret (default (-1) <$> fst (spec_run cap os vs), c') ∧
    simple_inv c' cap L' (snd (spec_run cap os vs)).
Proof.
  induction os as [|o os IH]; intros c L vs Hinv Hl Hk; simpl; [eauto|]. apply list.Forall_cons in Hk as [Hk Hks].
  destruct o as [k|k v]; simpl in Hk |- *.
  - destruct (get_spec c cap L vs k Hinv Hk) as (c1 & L1 & -> & Hinv1 & _). rewrite bind_Ret.
    assert (length L1 = length L) as Hl1.
    { pose proof (Forall2_length (si_holds _ _ _ _ Hinv1)) as E1. pose proof (Forall2_length (si_holds _ _ _ _ Hinv)) as E0.
      rewrite E1, E0. unfold spec_get. destruct (find_binding k vs) as [w|] eqn:Hf; [|done].
      apply find_binding_Some in Hf as (l & r & -> & _ & ->). simpl. rewrite !length_app. simpl. lia. }
    destruct (spec_get k vs) as [r vs1]. destruct (IH c1 L1 vs1 Hinv1) as (c2 & L2 & -> & Hinv2); [lia|done|].
    rewrite bind_Ret. destruct (spec_run cap os vs1) as [rs vs2]. eexists _, _. split; [done|exact Hinv2].
  - destruct (Hfresh (cells c)) as [Ha Hn]. unfold simple_put.
    destruct (put_spec c cap L vs _ k v Hinv Hcap Hl Ha Hn Hk) as (c1 & L1 & -> & Hinv1 & Hl1 & _). rewrite bind_Ret.
    by apply (IH c1 L1).
Qed.

Lemma createCache_inv hd tl garbage : hd ≠ 0 → tl ≠ 0 → hd ≠ tl →
  simple_inv (createCache hd tl garbage (Z.of_nat cap)) cap [] [].
Proof.
  intros H1 H2 H3. unfold createCache.
  split; cbn [cells head_ tail_ hash size_ capacity app]; [|..|done|done].
  - split_and!; [|by rewrite lookup_insert_eq|done]. rewrite lookup_insert_ne, lookup_insert_eq by done. done.
  - repeat constructor; set_solver.
  - set_solver.
  - rewrite !dom_insert_L. set_solver.
  - constructor.
  - constructor.
  - split_and!; [apply length_replicate|constructor|intros a b Hin; by apply not_elem_of_nil in Hin|].
    intros k Hk _. apply vget_Ret. split; [lia|]. apply lookup_replicate. split; [done|lia].
Qed.

(** C31: for keys below 10000 and a capacity of at least one, a fresh cache
    answers every sequence of gets and puts like the abstract LRU cache, with
    -1 for a miss; it never dereferences a null or freed pointer, and the heap
    holds exactly the two sentinels and one node per binding. *)
Theorem lru_simple_correct hd tl garbage os : hd ≠ 0 → tl ≠ 0 → hd ≠ tl →
  Forall (λ o, 0 ≤ op_key o < 10000) os →
  ∃ c, run_simple os (createCache hd tl garbage (Z.of_nat cap)) = Ret (default (-1) <$> fst (spec_run cap os []), c) ∧
    size (dom (cells c)) = (2 + length (snd (spec_run cap os [])))%nat ∧
    size_ c = Z.of_nat (length (snd (spec_run cap os []))).
Proof.
  intros H1 H2 H3 Hk. destruct (run_simple_spec os _ _ _ (createCache_inv hd tl garbage H1 H2 H3) (Nat.le_0_l _) Hk)
    as (c & L & E & Hinv). exists c. split; [exact E|]. pose proof (Forall2_length (si_holds _ _ _ _ Hinv)) as Hl.
  rewrite (si_dom _ _ _ _ Hinv), size_list_to_set by apply Hinv. rewrite (si_size _ _ _ _ Hinv), Hl.
  split; [|done]. simpl. rewrite length_app. simpl. lia.
Qed.

End Interface.

(** The first address above all those in use. *)
Definition bump (h : heap) : Z := 1 + foldr Z.max 0 (map_to_list h).*1.

Lemma simple_bump_fresh : fresh_addresses bump.
Proof.
  intros h. unfold bump.
  assert (∀ l : list Z, 0 ≤ foldr Z.max 0 l ∧ ∀ x, x ∈ l → x ≤ foldr Z.max 0 l) as Hmax.
  { induction l as [|y l [IH1 IH2]]; simpl; [split; [lia|intros x Hx; by apply not_elem_of_nil in Hx]|]. split; [lia|].
    intros x [->|Hx]%elem_of_cons; [lia|]. specialize (IH2 x Hx). lia. }
  destruct (Hmax (map_to_list h).*1) as [H1 H2]. split; [lia|]. apply eq_None_not_Some. intros [n Hn].
  apply elem_of_map_to_list in Hn. specialize (H2 (1 + foldr Z.max 0 (map_to_list h).*1)).
  rewrite list_elem_of_fmap in H2. specialize (H2 ltac:(eexists; split; [|exact Hn]; done)). lia.
Qed.

(** The program's [main]: capacity 3, and key 2 is evicted. *)
Lemma lru_simple_correct_witness : ∃ c,
  run_simple bump [Put 1 100; Put 2 200; Put 3 300; Get 1; Put 4 400; Get 2] (createCache 1 2 (mkNode 0 0 0 0) 3) =
    Ret ([100; -1], c) ∧ size_ c = 3.
Proof.
  destruct (lru_simple_correct bump simple_bump_fresh 3 ltac:(lia) 1 2 (mkNode 0 0 0 0)
    [Put 1 100; Put 2 200; Put 3 300; Get 1; Put 4 400; Get 2]) as (c & E & _ & Hs).
  - done.
  - done.
  - done.
  - repeat constructor; vm_compute; congruence.
  - exists c. split; [exact E|exact Hs].
Defined.

(** Keys that agree modulo 10000 share a slot, and the key of the node is not
    compared: a get answers with the value of another key.  A negative key
    indexes before the array. *)
Lemma lru_simple_collides : ∃ c, run_simple bump [Put 1 100; Get 10001] (createCache 1 2 (mkNode 0 0 0 0) 3) = Ret ([100], c).
Proof. eexists. vm_compute. reflexivity. Qed.

Lemma lru_simple_negative c : get (-1) c = Err OutOfBounds.
Proof. done. Qed.
