(* ===== verification/CloneList.v ===== *)
(** * microsoft/cloneLinkedList.cpp: copying a list with random pointers

    [cloneLinkedList2] weaves the copies into the list, links their random
    pointers and takes the two lists apart; [cloneLinkedList] uses a map from
    the nodes to their copies.  The heap maps addresses to nodes, 0 is the null
    pointer, and [alloc] gives the addresses of [new Node].  The loops take the
    number of rounds as fuel; one more than the length of the list is enough. *)

From stdpp Require Import base list gmap numbers.
From Stdlib Require Import ZArith Lia.
From S2P Require Import Prelude.

Record Node := mkNode { data : Z; next : Z; random : Z }.
Abbreviation heap := (gmap Z Node).

Definition load (h : heap) (a : Z) : outcome Node :=
  if a =? 0 then Err NullDeref else of_option DanglingPtr (h !! a).
Definition store (h : heap) (a : Z) (f : Node → Node) : outcome heap :=
  n ← load h a; Ret (<[a := f n]> h).
Definition set_next (x : Z) (n : Node) : Node := mkNode (data n) x (random n).
Definition set_random (x : Z) (n : Node) : Node := mkNode (data n) (next n) x.

Section Code.
Context (alloc : heap → Z).

(** [new Node(x)] *)
Definition new_Node (x : Z) (h : heap) : Z * heap :=
  let a := alloc h in (a, <[a := mkNode x 0 0]> h).

(** ** cloneLinkedList2 *)

Fixpoint weave (fuel : nat) (curr : Z) (h : heap) : outcome heap :=
  match fuel with
  | O => Err OutOfFuel
  | S fuel =>
      if curr =? 0 then Ret h else
      c ← load h curr;
      let '(temp, h) := new_Node (data c) h in
      c ← load h curr;
      h ← store h temp (set_next (next c));
      h ← store h curr (set_next temp);
      t ← load h temp;
      weave fuel (next t) h
  end.

Fixpoint link_randoms (fuel : nat) (curr : Z) (h : heap) : outcome heap :=
  match fuel with
  | O => Err OutOfFuel
  | S fuel =>
      if curr =? 0 then Ret h else
      c ← load h curr;
      h ← (if negb (random c =? 0) then r ← load h (random c); store h (next c) (set_random (next r)) else Ret h);
      c ← load h curr;
      t ← load h (next c);
      link_randoms fuel (next t) h
  end.

Fixpoint unweave (fuel : nat) (original copy : Z) (h : heap) : outcome heap :=
  match fuel with
  | O => Err OutOfFuel
  | S fuel =>
      if (original =? 0) || (copy =? 0) then Ret h else
      o ← load h original;
      x ← (if negb (next o =? 0) then n ← load h (next o); Ret (next n) else Ret (next o));
      h ← store h original (set_next x);
      c ← load h copy;
      y ← (if negb (next c =? 0) then n ← load h (next c); Ret (next n) else Ret (next c));
      h ← store h copy (set_next y);
      o ← load h original;
      c ← load h copy;
      unweave fuel (next o) (next c) h
  end.

Definition cloneLinkedList2 (fuel : nat) (head : Z) (h : heap) : outcome (Z * heap) :=
  if head =? 0 then Ret (0, h) else
  h ← weave fuel head h;
  h ← link_randoms fuel head h;
  n ← load h head;
  let copy := next n in
  h ← unweave fuel head copy h;
  Ret (copy, h).

(** ** cloneLinkedList *)

(** [mp[k]] of a [std::unordered_map]: a missing key is inserted with null. *)
Definition mp_get (k : Z) (mp : gmap Z Z) : Z * gmap Z Z :=
  match mp !! k with Some v => (v, mp) | None => (0, <[k := 0]> mp) end.

Fixpoint create_copies (fuel : nat) (curr : Z) (mp : gmap Z Z) (h : heap) : outcome (gmap Z Z * heap) :=
  match fuel with
  | O => Err OutOfFuel
  | S fuel =>
      if curr =? 0 then Ret (mp, h) else
      c ← load h curr;
      let '(a, h) := new_Node (data c) h in
      let mp := <[curr := a]> mp in
      c ← load h curr;
      create_copies fuel (next c) mp h
  end.

Fixpoint link_copies (fuel : nat) (curr : Z) (mp : gmap Z Z) (h : heap) : outcome (gmap Z Z * heap) :=
  match fuel with
  | O => Err OutOfFuel
  | S fuel =>
      if curr =? 0 then Ret (mp, h) else
      let '(newNode, mp) := mp_get curr mp in
      c ← load h curr;
      let '(x, mp) := mp_get (next c) mp in
      h ← store h newNode (set_next x);
      c ← load h curr;
      let '(y, mp) := mp_get (random c) mp in
      h ← store h newNode (set_random y);
      c ← load h curr;
      link_copies fuel (next c) mp h
  end.

Definition cloneLinkedList (fuel : nat) (head : Z) (h : heap) : outcome (Z * heap) :=
  '(mp, h) ← create_copies fuel head ∅ h;
  '(mp, h) ← link_copies fuel head mp h;
  let '(r, _) := mp_get head mp in
  Ret (r, h).

End Code.

(** ** Lists with random pointers and their copies *)

(** The nodes of the list that starts at [head] are [A]; each random pointer is
    null or leads to one of them. *)
Record rlist (h : heap) (head : Z) (A : list Z) : Prop := {
  rl_distinct : NoDup A;
  rl_nonnull : 0 ∉ A;
  rl_head : head = default 0 (A !! 0%nat);
  rl_node k a : A !! k = Some a → ∃ n, h !! a = Some n ∧ next n = default 0 (A !! S k) ∧ (random n = 0 ∨ random n ∈ A)
}.

(** The copy of a pointer: the node of [B] at the position it has in [A]. *)
Definition copy_ptr (A B : list Z) (x : Z) : Z :=
  match list_find (x =.) A with Some (k, _) => default 0 (B !! k) | None => 0 end.

(** [h'] is [h] with a copy of the list on fresh nodes [B]. *)
Record is_clone (h h' : heap) (A B : list Z) : Prop := {
  ic_length : length B = length A;
  ic_distinct : NoDup B;
  ic_fresh b : b ∈ B → b ≠ 0 ∧ h !! b = None;
  ic_frame x : x ∉ B → h' !! x = h !! x;
  ic_copy k a b n : A !! k = Some a → B !! k = Some b → h !! a = Some n →
    h' !! b = Some (mkNode (data n) (copy_ptr A B (next n)) (copy_ptr A B (random n)))
}.

Definition fresh_addresses (alloc : heap → Z) : Prop := ∀ h, alloc h ≠ 0 ∧ h !! alloc h = None.

Lemma copy_ptr_at A B k a b : NoDup A → A !! k = Some a → B !! k = Some b → copy_ptr A B a = b.
Proof.
  intros Hnd Ha Hb. unfold copy_ptr. assert (list_find (a =.) A = Some (k, a)) as ->; [|by rewrite Hb].
  apply list_find_Some. split_and!; [done|done|]. intros j y Hj Hlt <-.
  assert (j = k) by (by eapply NoDup_lookup). lia.
Qed.

Lemma copy_ptr_null A B x : x ∉ A → copy_ptr A B x = 0.
Proof.
  intros Hx. unfold copy_ptr. assert (list_find (x =.) A = None) as ->; [|done].
  apply list_find_None, list.Forall_forall. by intros y Hy ->.
Qed.

Lemma load_ok h a n : a ≠ 0 → h !! a = Some n → load h a = Ret n.
Proof. intros Ha Hn. unfold load. by rewrite (proj2 (Z.eqb_neq a 0) Ha), Hn. Qed.
Lemma store_ok h a n f : a ≠ 0 → h !! a = Some n → store h a f = Ret (<[a := f n]> h).
Proof. intros Ha Hn. unfold store. by rewrite (load_ok h a n). Qed.

Section Proofs.
Context (h0 : heap) (head : Z) (A : list Z) (Hl : rlist h0 head A).

Lemma rl_in a : a ∈ A → a ≠ 0 ∧ is_Some (h0 !! a).
Proof.
  intros Ha. split; [intros ->; by apply (rl_nonnull _ _ _ Hl)|].
  apply list_elem_of_lookup in Ha as [k Hk]. destruct (rl_node _ _ _ Hl k a Hk) as (n & Hn & _). eauto.
Qed.

(** ** Creating the copies *)

(** The first nodes have been copied to [B]; [fa] and [fb] describe a copied
    node and its copy. *)
Record built (fa fb : Z → Node → Node) (B : list Z) (h : heap) : Prop := {
  bu_length : (length B ≤ length A)%nat;
  bu_distinct : NoDup B;
  bu_fresh b : b ∈ B → b ≠ 0 ∧ h0 !! b = None;
  bu_pair k a b n : A !! k = Some a → B !! k = Some b → h0 !! a = Some n →
    h !! a = Some (fa b n) ∧ h !! b = Some (fb b n);
  bu_rest x : x ∉ B → x ∉ take (length B) A → h !! x = h0 !! x
}.

Lemma built_nil fa fb : built fa fb [] h0.
Proof. split; [simpl; lia|constructor|set_solver|done|done]. Qed.

Lemma built_next fa fb B h : built fa fb B h → ∀ a, A !! length B = Some a → h !! a = h0 !! a.
Proof.
  intros Hb a Ha. apply (bu_rest _ _ _ _ Hb).
  - intros Hin%(bu_fresh _ _ _ _ Hb). destruct (rl_in a) as [_ [n Hn]]; [by eapply list_elem_of_lookup_2|].
    destruct Hin as [_ Hin]. congruence.
  - intros (k & Hk & Hlt)%elem_of_take. assert (k = length B) by (eapply (NoDup_lookup A); [apply Hl|done|done]). lia.
Qed.

Lemma built_unused fa fb B h b : built fa fb B h → h !! b = None → b ∉ B ∧ b ∉ A ∧ h0 !! b = None.
Proof.
  intros Hb Hn. assert (b ∉ B) as HB.
  { intros Hin. apply list_elem_of_lookup in Hin as [k Hk]. pose proof (lookup_lt_Some _ _ _ Hk).
    pose proof (bu_length _ _ _ _ Hb). destruct (lookup_lt_is_Some_2 A k) as [a Ha]; [lia|].
    destruct (rl_node _ _ _ Hl k a Ha) as (n & Hn0 & _). destruct (bu_pair _ _ _ _ Hb k a b n Ha Hk Hn0). congruence. }
  assert (b ∉ take (length B) A) as HT.
  { intros (k & Hk & Hlt)%elem_of_take. destruct (lookup_lt_is_Some_2 B k Hlt) as [c Hc].
    destruct (rl_node _ _ _ Hl k b Hk) as (n & Hn0 & _). destruct (bu_pair _ _ _ _ Hb k b c n Hk Hc Hn0). congruence. }
  rewrite (bu_rest _ _ _ _ Hb b HB HT) in Hn. split_and!; [done| |done].
  intros [_ [m Hm]]%rl_in. congruence.
Qed.

Lemma built_step fa fb B h a b n : built fa fb B h → A !! length B = Some a → h0 !! a = Some n → b ≠ 0 → h !! b = None →
  built fa fb (B ++ [b]) (<[a := fa b n]> (<[b := fb b n]> h)).
Proof.
  intros Hb Ha Hn Hb0 Hbn. destruct (built_unused _ _ _ _ _ Hb Hbn) as (HbB & HbA & Hb0n).
  assert (a ≠ b) as Hab by (intros ->; apply HbA; by eapply list_elem_of_lookup_2).
  assert (a ∉ B) as HaB by (intros Hin%(bu_fresh _ _ _ _ Hb); destruct Hin; congruence).
  pose proof (lookup_lt_Some _ _ _ Ha) as Hlt. split.
  - rewrite length_app. simpl. lia.
  - apply list.NoDup_app. split_and!; [apply Hb|set_solver|apply NoDup_singleton].
  - intros c [Hc| ->%list_elem_of_singleton]%elem_of_app; [by apply (bu_fresh _ _ _ _ Hb)|done].
  - intros k a' b' n' Ha' Hb' Hn'. apply lookup_snoc_Some in Hb' as [[Hb' Hk]|[-> ->]].
    + assert (a' ≠ a) by (intros ->; assert (k = length B) by (eapply (NoDup_lookup A); [apply Hl|done|done]); lia).
      assert (a' ≠ b) by (intros ->; apply HbA; by eapply list_elem_of_lookup_2).
      assert (b' ∈ B) by (by eapply list_elem_of_lookup_2). assert (b' ≠ a ∧ b' ≠ b) as [? ?] by set_solver.
      rewrite !lookup_insert_ne by done. by eapply (bu_pair _ _ _ _ Hb).
    + assert (a' = a) as -> by congruence. assert (n' = n) as -> by congruence.
      rewrite lookup_insert_eq, lookup_insert_ne, lookup_insert_eq by done. done.
  - intros x HxB HxA. rewrite length_app in HxA. simpl in HxA. rewrite Nat.add_1_r, (take_S_r _ _ a Ha) in HxA.
    apply not_elem_of_app in HxB as [HxB Hxb], HxA as [HxA Hxa].
    rewrite !lookup_insert_ne by set_solver. by apply (bu_rest _ _ _ _ Hb).
Qed.

(** The nodes of the list with their copies woven in between. *)
Definition wa (b : Z) (n : Node) : Node := mkNode (data n) b (random n).
Definition wb (b : Z) (n : Node) : Node := mkNode (data n) (next n) 0.

Section Weave.
Context (alloc : heap → Z) (Halloc : fresh_addresses alloc).

Lemma weave_spec fuel : ∀ B h, built wa wb B h → (length A - length B < fuel)%nat →
  ∃ B' h', weave alloc fuel (default 0 (A !! length B)) h = Ret h' ∧ built wa wb B' h' ∧ length B' = length A.
Proof.
  induction fuel as [|fuel IH]; intros B h Hb Hf; [lia|]. cbn [weave]. pose proof (bu_length _ _ _ _ Hb) as Hlen.
  destruct (A !! length B) as [a|] eqn:Ha; simpl default.
  - destruct (rl_in a) as [Ha0 _]; [by eapply list_elem_of_lookup_2|].
    destruct (rl_node _ _ _ Hl _ _ Ha) as (n & Hn & Hnx & _). rewrite (proj2 (Z.eqb_neq a 0) Ha0).
    assert (h !! a = Some n) as Hha by (rewrite <- Hn; by eapply built_next). rewrite (load_ok h a n), bind_Ret by done.
    unfold new_Node. cbv zeta. destruct (Halloc h) as [Hb0 Hbn]. set (b := alloc h) in *.
    assert (a ≠ b) by congruence. rewrite (load_ok _ a n), bind_Ret by (done || by rewrite lookup_insert_ne).
    rewrite (store_ok _ b (mkNode (data n) 0 0)), bind_Ret by (done || by rewrite lookup_insert_eq). rewrite insert_insert_eq.
    rewrite (store_ok _ a n), bind_Ret by (done || by rewrite lookup_insert_ne).
    rewrite (load_ok _ b (wb b n)), bind_Ret by (done || by rewrite lookup_insert_ne, lookup_insert_eq).
    pose proof (built_step _ _ _ _ a b n Hb Ha Hn Hb0 Hbn) as Hb'.
    pose proof (lookup_lt_Some _ _ _ Ha).
    destruct (IH (B ++ [b]) _ Hb') as (B' & h' & E & Hb'' & Hl'); [rewrite length_app; simpl; lia|].
    exists B', h'. split; [|done]. rewrite length_app in E. simpl in E. rewrite Nat.add_1_r, <- Hnx in E. exact E.
  - apply lookup_ge_None in Ha. exists B, h. split_and!; [done|done|lia].
Qed.

End Weave.

(** ** Working through the pairs *)

Context (B : list Z).

(** Every node and its copy, described by their position. *)
Definition paired (fa fb : nat → Z → Node → Node) (h : heap) : Prop :=
  (∀ k a b n, A !! k = Some a → B !! k = Some b → h0 !! a = Some n →
     h !! a = Some (fa k b n) ∧ h !! b = Some (fb k b n)) ∧
  (∀ x, x ∉ A → x ∉ B → h !! x = h0 !! x).

Context (HBl : length B = length A) (HBd : NoDup B) (HBf : ∀ b, b ∈ B → b ≠ 0 ∧ h0 !! b = None).

Lemma pair_at k a : A !! k = Some a → ∃ b, B !! k = Some b ∧ a ≠ 0 ∧ b ≠ 0.
Proof.
  intros Ha. destruct (lookup_lt_is_Some_2 B k) as [b Hb]; [rewrite HBl; by eapply lookup_lt_Some|].
  exists b. split; [done|]. split; [by apply rl_in; eapply list_elem_of_lookup_2|by apply HBf; eapply list_elem_of_lookup_2].
Qed.

Lemma apart a b : a ∈ A → b ∈ B → a ≠ b.
Proof. intros Ha Hb ->. destruct (rl_in b Ha) as [_ [n Hn]], (HBf b Hb). congruence. Qed.

Lemma paired_ext_at fa fb fa' fb' h : (∀ k b n, (k < length A)%nat → fa k b n = fa' k b n) →
  (∀ k b n, (k < length A)%nat → fb k b n = fb' k b n) → paired fa fb h → paired fa' fb' h.
Proof.
  intros Ea Eb [H1 H2]. split; [|done]. intros k a b n Ha Hb Hn.
  rewrite <- Ea, <- Eb by (by eapply lookup_lt_Some). by eapply H1.
Qed.

Lemma paired_set_a fa fb fa' h j a b n : (∀ k b n, k ≠ j → fa' k b n = fa k b n) → paired fa fb h →
  A !! j = Some a → B !! j = Some b → h0 !! a = Some n → paired fa' fb (<[a := fa' j b n]> h).
Proof.
  intros Hfa [H1 H2] Ha Hb Hn. split.
  - intros k a' b' n' Ha' Hb' Hn'. destruct (H1 k a' b' n' Ha' Hb' Hn') as [E1 E2].
    rewrite (lookup_insert_ne h a b') by (apply apart; by eapply list_elem_of_lookup_2). split; [|done].
    destruct (decide (k = j)) as [->|Hne].
    + assert (a' = a) as -> by congruence. rewrite lookup_insert_eq. congruence.
    + rewrite lookup_insert_ne, Hfa by (done || (intros ->; apply Hne; by eapply (NoDup_lookup A); [apply Hl|..])). done.
  - intros x HxA HxB. rewrite lookup_insert_ne; [by apply H2|]. intros ->. apply HxA. by eapply list_elem_of_lookup_2.
Qed.

Lemma paired_set_b fa fb fb' h j a b n : (∀ k b n, k ≠ j → fb' k b n = fb k b n) → paired fa fb h →
  A !! j = Some a → B !! j = Some b → h0 !! a = Some n → paired fa fb' (<[b := fb' j b n]> h).
Proof.
  intros Hfb [H1 H2] Ha Hb Hn. split.
  - intros k a' b' n' Ha' Hb' Hn'. destruct (H1 k a' b' n' Ha' Hb' Hn') as [E1 E2].
    rewrite (lookup_insert_ne h b a') by (apply not_eq_sym, apart; by eapply list_elem_of_lookup_2). split; [done|].
    destruct (decide (k = j)) as [->|Hne].
    + assert (a' = a ∧ b' = b) as [-> ->] by (split; congruence). rewrite lookup_insert_eq. congruence.
    + rewrite lookup_insert_ne, Hfb by (done || (intros ->; apply Hne; by eapply (NoDup_lookup B))). done.
  - intros x HxA HxB. rewrite lookup_insert_ne; [by apply H2|]. intros ->. apply HxB. by eapply list_elem_of_lookup_2.
Qed.

Abbreviation cp := (copy_ptr A B).

(** Pass 2: the copies before position [j] have their random pointer. *)
Definition ra (k : nat) (b : Z) (n : Node) : Node := mkNode (data n) b (random n).
Definition rb (j k : nat) (b : Z) (n : Node) : Node :=
  mkNode (data n) (next n) (if decide (k < j)%nat then cp (random n) else 0).

Lemma link_randoms_spec fuel : ∀ j h, paired ra (rb j) h → (j ≤ length A)%nat → (length A - j < fuel)%nat →
  ∃ h', link_randoms fuel (default 0 (A !! j)) h = Ret h' ∧ paired ra (rb (length A)) h'.
Proof.
  induction fuel as [|fuel IH]; intros j h Hp Hj Hf; [lia|]. cbn [link_randoms].
  destruct (A !! j) as [a|] eqn:Ha; simpl default.
  - destruct (pair_at j a Ha) as (b & Hb & Ha0 & Hb0). destruct (rl_node _ _ _ Hl j a Ha) as (n & Hn & Hnx & Hr).
    rewrite (proj2 (Z.eqb_neq a 0) Ha0). destruct (proj1 Hp j a b n Ha Hb Hn) as [Ea Eb].
    assert (a ≠ b) as Hab by (apply apart; by eapply list_elem_of_lookup_2).
    rewrite (load_ok h a _ Ha0 Ea), bind_Ret. cbn [ra random next].
    assert (∃ h', (if negb (random n =? 0) then r ← load h (random n); store h b (set_random (next r)) else Ret h) = Ret h' ∧
      h' !! a = Some (ra j b n) ∧ h' !! b = Some (rb (S j) j b n) ∧ paired ra (rb (S j)) h') as (h' & -> & Ea' & Eb' & Hp').
    { destruct (Z.eqb_spec (random n) 0) as [E0|E0]; cbn [negb].
      - exists h. split_and!; [done|done| |].
        + rewrite Eb. unfold rb. rewrite decide_False, decide_True by lia. rewrite E0, copy_ptr_null by apply Hl. done.
        + pose proof (paired_set_b ra (rb j) (rb (S j)) h j a b n) as Hset. rewrite insert_id in Hset.
          * apply Hset; try done. intros k b' n' Hk. unfold rb. f_equal. repeat case_decide; (done || lia).
          * rewrite Eb. unfold rb. rewrite decide_False, decide_True by lia. rewrite E0, copy_ptr_null by apply Hl. done.
      - destruct Hr as [|Hr]; [done|]. apply list_elem_of_lookup in Hr as [i Hi].
        destruct (pair_at i _ Hi) as (c & Hc & _ & _). destruct (rl_node _ _ _ Hl i _ Hi) as (m & Hm & _).
        destruct (proj1 Hp i _ c m Hi Hc Hm) as [Er _]. rewrite (load_ok h _ _ E0 Er), bind_Ret. cbn [ra next].
        rewrite (store_ok h b _ _ Hb0 Eb). eexists. split; [done|].
        assert (set_random c (rb j j b n) = rb (S j) j b n) as ->.
        { unfold set_random, rb. cbn [data next]. rewrite (decide_True (P := (j < S j)%nat)) by lia. f_equal.
          symmetry. apply (copy_ptr_at A B i); [apply Hl|done|done]. }
        split_and!; [by rewrite lookup_insert_ne|by rewrite lookup_insert_eq|].
        apply (paired_set_b ra (rb j) (rb (S j)) h j a b n); try done.
        intros k b' n' Hk. unfold rb. f_equal. repeat case_decide; (done || lia). }
    rewrite bind_Ret, (load_ok h' a _ Ha0 Ea'), bind_Ret. cbn [ra next].
    rewrite (load_ok h' b _ Hb0 Eb'), bind_Ret. cbn [rb next]. rewrite Hnx. pose proof (lookup_lt_Some _ _ _ Ha).
    apply IH; [done|lia|lia].
  - apply lookup_ge_None in Ha. exists h. split; [done|]. by assert (j = length A) as <- by lia.
Qed.

(** Pass 3: the pairs before position [j] have been taken apart. *)
Definition ua (j k : nat) (b : Z) (n : Node) : Node := if decide (k < j)%nat then n else mkNode (data n) b (random n).
Definition ub (j k : nat) (b : Z) (n : Node) : Node :=
  mkNode (data n) (if decide (k < j)%nat then cp (next n) else next n) (cp (random n)).

Lemma unweave_spec fuel : ∀ j h, paired (ua j) (ub j) h → (j ≤ length A)%nat → (length A - j < fuel)%nat →
  ∃ h', unweave fuel (default 0 (A !! j)) (default 0 (B !! j)) h = Ret h' ∧ paired (ua (length A)) (ub (length A)) h'.
Proof.
  induction fuel as [|fuel IH]; intros j h Hp Hj Hf; [lia|]. cbn [unweave].
  destruct (A !! j) as [a|] eqn:Ha; simpl default.
  - destruct (pair_at j a Ha) as (b & Hb & Ha0 & Hb0). rewrite Hb. simpl default.
    destruct (rl_node _ _ _ Hl j a Ha) as (n & Hn & Hnx & Hr). pose proof (lookup_lt_Some _ _ _ Ha) as Hlt.
    rewrite (proj2 (Z.eqb_neq a 0) Ha0), (proj2 (Z.eqb_neq b 0) Hb0). cbn [orb].
    destruct (proj1 Hp j a b n Ha Hb Hn) as [Ea Eb]. assert (a ≠ b) as Hab by (apply apart; by eapply list_elem_of_lookup_2).
    assert (ua j j b n = mkNode (data n) b (random n)) as Eua by (unfold ua; by rewrite decide_False by lia).
    assert (ub j j b n = mkNode (data n) (next n) (cp (random n))) as Eub by (unfold ub; by rewrite decide_False by lia).
    rewrite Eua in Ea. rewrite Eub in Eb. rewrite (load_ok h a _ Ha0 Ea), bind_Ret. cbn [next].
    rewrite (proj2 (Z.eqb_neq b 0) Hb0). cbn [negb]. rewrite (load_ok h b _ Hb0 Eb), !bind_Ret. cbn [next].
    rewrite (store_ok h a _ _ Ha0 Ea), bind_Ret.
    assert (set_next (next n) (mkNode (data n) b (random n)) = ua (S j) j b n) as ->.
    { unfold ua. rewrite decide_True by lia. by destruct n. }
    assert (paired (ua (S j)) (ub j) (<[a := ua (S j) j b n]> h)) as Hp1.
    { apply (paired_set_a (ua j) (ub j) (ua (S j)) h j a b n); try done. intros k b' n' Hk. unfold ua.
      repeat case_decide; (done || lia). }
    set (h1 := <[a := ua (S j) j b n]> h) in *. destruct (proj1 Hp1 j a b n Ha Hb Hn) as [Ea1 Eb1]. rewrite Eub in Eb1.
    rewrite (load_ok h1 b _ Hb0 Eb1), bind_Ret. cbn [next].
    assert ((if negb (next n =? 0) then m ← load h1 (next n); Ret (next m) else Ret (next n)) = Ret (cp (next n)) ∧
      cp (next n) = default 0 (B !! S j)) as [-> Ecp].
    { rewrite Hnx. destruct (A !! S j) as [a'|] eqn:Ha'; simpl default.
      - destruct (pair_at (S j) a' Ha') as (b' & Hb' & Ha0' & Hb0'). destruct (rl_node _ _ _ Hl (S j) a' Ha') as (m & Hm & _).
        rewrite (proj2 (Z.eqb_neq a' 0) Ha0'). cbn [negb]. destruct (proj1 Hp1 (S j) a' b' m Ha' Hb' Hm) as [Ea' _].
        rewrite (load_ok h1 a' _ Ha0' Ea'), bind_Ret. unfold ua. rewrite decide_False by lia. cbn [next].
        rewrite (copy_ptr_at A B (S j) a' b'), Hb' by (done || apply Hl). done.
      - rewrite copy_ptr_null by apply Hl. split; [done|]. rewrite (proj2 (lookup_ge_None B (S j))); [done|].
        apply lookup_ge_None in Ha'. lia. }
    rewrite bind_Ret, (store_ok h1 b _ _ Hb0 Eb1), bind_Ret.
    assert (set_next (cp (next n)) (mkNode (data n) (next n) (cp (random n))) = ub (S j) j b n) as ->.
    { unfold ub, set_next. rewrite decide_True by lia. done. }
    assert (paired (ua (S j)) (ub (S j)) (<[b := ub (S j) j b n]> h1)) as Hp2.
    { apply (paired_set_b (ua (S j)) (ub j) (ub (S j)) h1 j a b n); try done. intros k b' n' Hk. unfold ub.
      f_equal. repeat case_decide; (done || lia). }
    set (h2 := <[b := ub (S j) j b n]> h1) in *. destruct (proj1 Hp2 j a b n Ha Hb Hn) as [Ea2 Eb2].
    rewrite (load_ok h2 a _ Ha0 Ea2), bind_Ret, (load_ok h2 b _ Hb0 Eb2), bind_Ret. unfold ua at 1, ub at 1.
    rewrite !decide_True by lia. cbn [next]. rewrite Ecp, Hnx. apply IH; [done|lia|lia].
  - apply lookup_ge_None in Ha. exists h. split; [done|]. by assert (j = length A) as <- by lia.
Qed.

Lemma paired_clone h : paired (ua (length A)) (ub (length A)) h → is_clone h0 h A B.
Proof.
  intros [H1 H2]. split; [done|done|done| |].
  - intros x HxB. destruct (decide (x ∈ A)) as [HxA|HxA]; [|by apply H2].
    apply list_elem_of_lookup in HxA as [k Hk]. destruct (pair_at k x Hk) as (b & Hb & _).
    destruct (rl_node _ _ _ Hl k x Hk) as (n & Hn & _). destruct (H1 k x b n Hk Hb Hn) as [-> _]. rewrite Hn.
    unfold ua. rewrite decide_True; [done|by eapply lookup_lt_Some].
  - intros k a b n Ha Hb Hn. destruct (H1 k a b n Ha Hb Hn) as [_ ->]. unfold ub.
    rewrite decide_True; [done|by eapply lookup_lt_Some].
Qed.

(** ** The copies of cloneLinkedList *)

(** The map leads from the nodes to their copies, and from null to null. *)
Definition mp_ok (mp : gmap Z Z) : Prop :=
  (∀ k a b, A !! k = Some a → B !! k = Some b → mp !! a = Some b) ∧ (mp !! 0 = None ∨ mp !! 0 = Some 0).

Lemma mp_get_spec mp x : mp_ok mp → x = 0 ∨ x ∈ A → ∃ mp', mp_get x mp = (cp x, mp') ∧ mp_ok mp'.
Proof.
  intros [H1 H2] [->|Hx]; unfold mp_get.
  - rewrite copy_ptr_null by apply Hl. destruct H2 as [H2|H2]; rewrite H2; [|exists mp; split; [done|split; [done|by right]]].
    eexists. split; [done|]. split; [|right; by rewrite lookup_insert_eq].
    intros k a b Ha Hb. destruct (rl_in a) as [Ha0 _]; [by eapply list_elem_of_lookup_2|].
    rewrite lookup_insert_ne by done. by eapply H1.
  - apply list_elem_of_lookup in Hx as [k Hk]. destruct (pair_at k x Hk) as (b & Hb & _).
    rewrite (H1 k x b Hk Hb). exists mp. split; [|done]. by rewrite (copy_ptr_at A B k x b) by (done || apply Hl).
Qed.

Definition ca (k : nat) (b : Z) (n : Node) : Node := n.
Definition cb (j k : nat) (b : Z) (n : Node) : Node :=
  if decide (k < j)%nat then mkNode (data n) (cp (next n)) (cp (random n)) else mkNode (data n) 0 0.

Lemma link_copies_spec fuel : ∀ j mp h, paired ca (cb j) h → mp_ok mp → (j ≤ length A)%nat → (length A - j < fuel)%nat →
  ∃ mp' h', link_copies fuel (default 0 (A !! j)) mp h = Ret (mp', h') ∧ mp_ok mp' ∧ paired ca (cb (length A)) h'.
Proof.
  induction fuel as [|fuel IH]; intros j mp h Hp Hmp Hj Hf; [lia|]. cbn [link_copies].
  destruct (A !! j) as [a|] eqn:Ha; simpl default.
  - destruct (pair_at j a Ha) as (b & Hb & Ha0 & Hb0). destruct (rl_node _ _ _ Hl j a Ha) as (n & Hn & Hnx & Hr).
    assert (a ∈ A) as HaA by (by eapply list_elem_of_lookup_2).
    rewrite (proj2 (Z.eqb_neq a 0) Ha0). destruct (mp_get_spec mp a Hmp (or_intror HaA)) as (mp1 & -> & Hmp1).
    rewrite (copy_ptr_at A B j a b) by (done || apply Hl). destruct (proj1 Hp j a b n Ha Hb Hn) as [Ea Eb].
    assert (a ≠ b) as Hab by (apply apart; by eapply list_elem_of_lookup_2).
    unfold ca in Ea. unfold cb in Eb. rewrite decide_False in Eb by lia. rewrite (load_ok h a n Ha0 Ea), bind_Ret.
    destruct (mp_get_spec mp1 (next n) Hmp1) as (mp2 & -> & Hmp2).
    { rewrite Hnx. destruct (A !! S j) as [a'|] eqn:E; simpl; [right; by eapply list_elem_of_lookup_2|by left]. }
    rewrite (store_ok h b _ _ Hb0 Eb), bind_Ret, (load_ok _ a n), bind_Ret by (done || by rewrite lookup_insert_ne).
    destruct (mp_get_spec mp2 (random n) Hmp2 Hr) as (mp3 & -> & Hmp3).
    rewrite (store_ok _ b (mkNode (data n) (cp (next n)) 0)), bind_Ret by (done || by rewrite lookup_insert_eq).
    rewrite insert_insert_eq, (load_ok _ a n), bind_Ret by (done || by rewrite lookup_insert_ne). cbn [set_random data next].
    pose proof (lookup_lt_Some _ _ _ Ha).
    assert (paired ca (cb (S j)) (<[b := cb (S j) j b n]> h)) as Hp'.
    { apply (paired_set_b ca (cb j) (cb (S j)) h j a b n); try done. intros k b' n' Hk. unfold cb.
      repeat case_decide; (done || lia). }
    unfold cb at 2 in Hp'. rewrite decide_True in Hp' by lia.
    destruct (IH (S j) mp3 _ Hp' Hmp3) as (mp' & h' & E & H1 & H2); [lia|lia|]. rewrite <- Hnx in E. eauto.
  - apply lookup_ge_None in Ha. exists mp, h. split; [done|]. split; [done|]. by assert (j = length A) as <- by lia.
Qed.

Lemma paired_clone_map h : paired ca (cb (length A)) h → is_clone h0 h A B.
Proof.
  intros Hp. apply paired_clone. eapply paired_ext_at; [| |exact Hp]; intros k b n Hk; unfold ua, ub, ca, cb;
    rewrite !(decide_True _ _ Hk); done.
Qed.

End Proofs.

Section Create.
Context (alloc : heap → Z) (Halloc : fresh_addresses alloc).
Context (h0 : heap) (head : Z) (A : list Z) (Hl : rlist h0 head A).

Definition ka (b : Z) (n : Node) : Node := n.
Definition kb (b : Z) (n : Node) : Node := mkNode (data n) 0 0.

(** The map of the nodes copied so far. *)
Definition mp_built (mp : gmap Z Z) (B : list Z) : Prop :=
  (∀ k a b, A !! k = Some a → B !! k = Some b → mp !! a = Some b) ∧ mp !! 0 = None.

Lemma create_copies_spec fuel : ∀ B mp h, built h0 A ka kb B h → mp_built mp B → (length A - length B < fuel)%nat →
  ∃ B' mp' h', create_copies alloc fuel (default 0 (A !! length B)) mp h = Ret (mp', h') ∧
    built h0 A ka kb B' h' ∧ mp_built mp' B' ∧ length B' = length A.
Proof.
  induction fuel as [|fuel IH]; intros B mp h Hb Hmp Hf; [lia|]. cbn [create_copies].
  pose proof (bu_length _ _ _ _ _ _ Hb) as Hlen. destruct (A !! length B) as [a|] eqn:Ha; simpl default.
  - destruct (rl_in h0 head A Hl a) as [Ha0 _]; [by eapply list_elem_of_lookup_2|].
    destruct (rl_node _ _ _ Hl _ _ Ha) as (n & Hn & Hnx & _). rewrite (proj2 (Z.eqb_neq a 0) Ha0).
    assert (h !! a = Some n) as Hha by (rewrite <- Hn; by eapply built_next). rewrite (load_ok h a n), bind_Ret by done.
    unfold new_Node. cbv zeta. destruct (Halloc h) as [Hb0 Hbn]. set (b := alloc h) in *.
    assert (a ≠ b) as Hab by congruence. rewrite (load_ok _ a n), bind_Ret by (done || by rewrite lookup_insert_ne).
    pose proof (built_step h0 head A Hl _ _ _ _ a b n Hb Ha Hn Hb0 Hbn) as Hb'. pose proof (lookup_lt_Some _ _ _ Ha).
    unfold ka at 2 in Hb'. rewrite insert_id in Hb' by (by rewrite lookup_insert_ne).
    destruct (IH (B ++ [b]) (<[a := b]> mp) _ Hb') as (B' & mp' & h' & E & H1 & H2 & H3).
    + destruct Hmp as [M1 M2]. split; [|by rewrite lookup_insert_ne]. intros k a' b' Ha' Hb1.
      apply lookup_snoc_Some in Hb1 as [[Hb1 Hk]|[-> ->]].
      * rewrite lookup_insert_ne; [by eapply M1|]. intros ->.
        assert (k = length B) by (eapply (NoDup_lookup A); [apply Hl|done|done]). lia.
      * assert (a' = a) as -> by congruence. by rewrite lookup_insert_eq.
    + rewrite length_app. simpl. lia.
    + exists B', mp', h'. split; [|done]. rewrite length_app in E. simpl in E. rewrite Nat.add_1_r, <- Hnx in E. exact E.
  - apply lookup_ge_None in Ha. exists B, mp, h. do 3 (split; [done|]). lia.
Qed.

End Create.

(** ** Both algorithms *)

Lemma built_paired h0 A fa fb B h : built h0 A fa fb B h → length B = length A →
  paired h0 A B (λ _, fa) (λ _, fb) h.
Proof.
  intros Hb Hl. split; [apply Hb|]. intros x HA HB. apply (bu_rest _ _ _ _ _ _ Hb x HB). by rewrite Hl, firstn_all.
Qed.

Lemma clone_nil h0 head : rlist h0 head [] → is_clone h0 h0 [] [] ∧ head = 0.
Proof. intros Hr. split; [|apply Hr]. split; [done|constructor|set_solver|done|done]. Qed.

Lemma cloneLinkedList2_spec alloc h0 head A fuel : fresh_addresses alloc → rlist h0 head A → (length A < fuel)%nat →
  ∃ B h, cloneLinkedList2 alloc fuel head h0 = Ret (default 0 (B !! 0%nat), h) ∧ is_clone h0 h A B.
Proof.
  intros Ha Hr Hf. pose proof (rl_head _ _ _ Hr) as Hh.
  unfold cloneLinkedList2. destruct A as [|a0 A0] eqn:EA.
  { destruct (clone_nil h0 head Hr) as [Hc ->]. exists [], h0. done. }
  rewrite <- EA in *. assert (head = a0) as Ea0 by (by rewrite Hh, EA).
  destruct (rl_in h0 head A Hr a0) as [Hn0 _]; [rewrite EA; left|]. rewrite (proj2 (Z.eqb_neq head 0)) by congruence.
  destruct (weave_spec h0 head A Hr alloc Ha fuel [] h0 (built_nil h0 head A Hr _ _)) as (B & h1 & E1 & Hb & HB); [simpl; lia|].
  simpl length in E1. rewrite <- Hh in E1. rewrite E1, bind_Ret. clear E1.
  pose proof (bu_distinct _ _ _ _ _ _ Hb) as HBd. pose proof (bu_fresh _ _ _ _ _ _ Hb) as HBf.
  destruct (link_randoms_spec h0 head A Hr B HB HBd HBf fuel 0 h1) as (h2 & E2 & Hp2); [|lia|lia|].
  { eapply paired_ext_at; [| |exact (built_paired _ _ _ _ _ _ Hb HB)]; intros; [done|]. unfold rb. by rewrite decide_False by lia. }
  rewrite <- Hh in E2. rewrite E2, bind_Ret. clear E2.
  destruct (pair_at h0 head A Hr B HB HBf 0 a0) as (b0 & Hb0 & _ & _); [by rewrite EA|].
  destruct (rl_node _ _ _ Hr 0 a0) as (n0 & Hn & _); [by rewrite EA|].
  destruct (proj1 Hp2 0%nat a0 b0 n0) as [Ea _]; [by rewrite EA|done|done|].
  rewrite (load_ok h2 head _ ltac:(congruence) ltac:(rewrite Ea0; exact Ea)), bind_Ret. cbn [ra next].
  destruct (unweave_spec h0 head A Hr B HB HBd HBf fuel 0 h2) as (h3 & E3 & Hp3); [|lia|lia|].
  { eapply paired_ext_at; [| |exact Hp2]; intros k b n Hk; unfold ra, rb, ua, ub; rewrite ?(decide_True _ _ Hk);
      rewrite ?decide_False by lia; done. }
  rewrite Hb0 in E3. simpl default in E3. rewrite <- Hh in E3. rewrite E3, bind_Ret. exists B, h3.
  rewrite Hb0. split; [done|]. by eapply paired_clone.
Qed.

Lemma cloneLinkedList_spec alloc h0 head A fuel : fresh_addresses alloc → rlist h0 head A → (length A < fuel)%nat →
  ∃ B h, cloneLinkedList alloc fuel head h0 = Ret (default 0 (B !! 0%nat), h) ∧ is_clone h0 h A B.
Proof.
  intros Ha Hr Hf. pose proof (rl_head _ _ _ Hr) as Hh.
  unfold cloneLinkedList.
  destruct (create_copies_spec alloc Ha h0 head A Hr fuel [] ∅ h0 (built_nil h0 head A Hr _ _)) as (B & mp & h1 & E1 & Hb & Hmp & HB);
    [done|simpl; lia|]. simpl length in E1. rewrite <- Hh in E1. rewrite E1, bind_Ret. clear E1.
  pose proof (bu_distinct _ _ _ _ _ _ Hb) as HBd. pose proof (bu_fresh _ _ _ _ _ _ Hb) as HBf.
  assert (mp_ok A B mp) as Hmp' by (split; [apply Hmp|left; apply Hmp]).
  destruct (link_copies_spec h0 head A Hr B HB HBd HBf fuel 0 mp h1) as (mp2 & h2 & E2 & Hmp2 & Hp2); [|done|lia|lia|].
  { eapply paired_ext_at; [| |exact (built_paired _ _ _ _ _ _ Hb HB)]; intros; [done|]. unfold cb. by rewrite decide_False by lia. }
  rewrite <- Hh in E2. rewrite E2, bind_Ret. clear E2.
  destruct (mp_get_spec h0 head A Hr B HB HBf mp2 head Hmp2) as (mp3 & -> & _).
  { rewrite Hh. destruct (A !! 0%nat) eqn:E; simpl; [right; by eapply list_elem_of_lookup_2|by left]. }
  exists B, h2. split; [|by eapply paired_clone_map]. f_equal. f_equal. rewrite Hh.
  destruct (A !! 0%nat) as [a|] eqn:E; simpl default.
  - destruct (pair_at h0 head A Hr B HB HBf 0 a E) as (b & Hb0 & _). rewrite Hb0. simpl.
    eapply copy_ptr_at; [apply Hr|done|done].
  - rewrite copy_ptr_null by apply Hr. apply lookup_ge_None in E. by rewrite (proj2 (lookup_ge_None B 0%nat)) by lia.
Qed.

(** C25: both algorithms copy every list, whatever its random pointers inside
    it: they return the first node of a list of fresh nodes, which carries the
    same data and whose next and random pointers lead to the copies of the
    nodes the original ones lead to.  Nothing else of the heap changes; in
    particular the original list, taken apart and woven together again by the
    first algorithm, is as it was.  One round more than the list has nodes
    is enough for every loop. *)
Theorem clones_correct alloc h0 head A fuel : fresh_addresses alloc → rlist h0 head A → (length A < fuel)%nat →
  (∃ B h, cloneLinkedList2 alloc fuel head h0 = Ret (default 0 (B !! 0%nat), h) ∧ is_clone h0 h A B) ∧
  (∃ B h, cloneLinkedList alloc fuel head h0 = Ret (default 0 (B !! 0%nat), h) ∧ is_clone h0 h A B).
Proof. intros Ha Hr Hf. split; [by apply cloneLinkedList2_spec|by apply cloneLinkedList_spec]. Qed.

Definition demo_alloc (h : heap) : Z := fresh ({[0]} ∪ dom h : gset Z).

Lemma clone_alloc_fresh : fresh_addresses demo_alloc.
Proof.
  intros h. pose proof (is_fresh ({[0]} ∪ dom h : gset Z)) as Hf. unfold demo_alloc.
  split; [set_solver|]. apply not_elem_of_dom. set_solver.
Qed.

(** The list of the program's [main]. *)
Definition demo_heap : heap :=
  {[ 1 := mkNode 1 2 3; 2 := mkNode 2 3 1; 3 := mkNode 3 4 5; 4 := mkNode 4 5 3; 5 := mkNode 5 0 2 ]}.

Lemma clones_correct_witness : ∃ B h, cloneLinkedList2 demo_alloc 6 1 demo_heap = Ret (default 0 (B !! 0%nat), h) ∧
  is_clone demo_heap h [1; 2; 3; 4; 5] B.
Proof.
  destruct (clones_correct demo_alloc demo_heap 1 [1; 2; 3; 4; 5] 6) as [H _].
  - exact clone_alloc_fresh.
  - split; [by repeat constructor; set_solver|set_solver|done|].
    intros [|[|[|[|[|k]]]]] a [= <-]; eexists; (split; [reflexivity|]); (split; [reflexivity|]); right; set_solver.
  - simpl. lia.
  - exact H.
Defined.
