(* ===== verification/SignalBuffer.v ===== *)
(** * circularQueue/circularBufferStaticProdCons.c

    The blocking buffer in C, stopped by a signal handler.  The critical
    sections are those of the C++ version (ProdCons), but [handle_sigint] runs
    without the mutex: it can come between the test of a wait loop and the
    [pthread_cond_wait] that follows, so both are steps of their own here.  A
    thread in one of the states [PushTested] and [PopTested] holds the mutex. *)

From stdpp Require Import base list numbers relations.
From Stdlib Require Import ZArith Lia.
From S2P Require Import Prelude Ring CircularBuffer ProdCons.

(** ** The operations *)

(** [garbage] is what malloc returned, [None] if it failed. *)
Definition cb_init (garbage : option (list Z)) (capacity : Z) : option (CircularBuffer Z) :=
  match garbage with
  | None => None
  | Some b => Some (mkCircularBuffer b capacity 0 0 0)
  end.

Definition cb_destroy (cb : CircularBuffer Z) : CircularBuffer Z :=
  mkCircularBuffer [] 0 (head_ cb) (tail_ cb) 0.

Definition cb_empty (cb : CircularBuffer Z) : bool := size_ cb =? 0.
Definition cb_full (cb : CircularBuffer Z) : bool := size_ cb =? capacity_ cb.

(** The rest of [cb_push] and [cb_pop] after their loop. *)
Definition cb_push_rest (keep_running : bool) (value : Z) (cb : CircularBuffer Z) : outcome (bool * CircularBuffer Z) :=
  if negb keep_running then Ret (false, cb) else
  b ← vset (buffer_ cb) (head_ cb) value;
  h ← umod (u64 (head_ cb + 1)) (capacity_ cb);
  Ret (true, mkCircularBuffer b (capacity_ cb) h (tail_ cb) (u64 (size_ cb + 1))).

Definition cb_pop_rest (cb : CircularBuffer Z) : outcome (option Z * CircularBuffer Z) :=
  if cb_empty cb then Ret (None, cb) else
  v ← vget (buffer_ cb) (tail_ cb);
  t ← umod (u64 (tail_ cb + 1)) (capacity_ cb);
  Ret (Some v, mkCircularBuffer (buffer_ cb) (capacity_ cb) (head_ cb) t (u64 (size_ cb - 1))).

(** ** Threads *)

Inductive cthread :=
  | CIdle
  | CPushing (x : Z)
  | CPopping
  | PushTested (x : Z)
  | PopTested
  | CPushWaits (x : Z)
  | CPopWaits.

Record csystem := mkC {
  c_cb : CircularBuffer Z; keep_running : bool; c_threads : list cthread; c_pushed : list Z; c_popped : list Z
}.

Definition tested (t : cthread) : bool := match t with PushTested _ | PopTested => true | _ => false end.
Definition cwake (t : cthread) : cthread :=
  match t with CPushWaits x => CPushing x | CPopWaits => CPopping | t => t end.
Definition cwaits_full (t : cthread) : bool := match t with CPushWaits _ => true | _ => false end.
Definition cwaits_empty (t : cthread) : bool := match t with CPopWaits => true | _ => false end.

(** [pthread_cond_signal] *)
Inductive cond_signal (waits : cthread → bool) (ts : list cthread) : list cthread → Prop :=
  | signal_none : countb waits ts = 0%nat → cond_signal waits ts ts
  | signal_some i t : ts !! i = Some t → waits t = true → cond_signal waits ts (<[i := cwake t]> ts).

Definition unlocked (s : csystem) : Prop := countb tested (c_threads s) = 0%nat.

(** The handler broadcasts to both condition variables, without the mutex. *)
Definition handle_sigint (s : csystem) : csystem :=
  mkC (c_cb s) false (cwake <$> c_threads s) (c_pushed s) (c_popped s).

Inductive cstep : csystem → csystem → Prop :=
  | c_call s i t : c_threads s !! i = Some CIdle → (t = CPopping ∨ ∃ x, t = CPushing x) →
      cstep s (mkC (c_cb s) (keep_running s) (<[i := t]> (c_threads s)) (c_pushed s) (c_popped s))
  | c_push_test s i x : c_threads s !! i = Some (CPushing x) → unlocked s → cb_full (c_cb s) && keep_running s = true →
      cstep s (mkC (c_cb s) (keep_running s) (<[i := PushTested x]> (c_threads s)) (c_pushed s) (c_popped s))
  | c_push_wait s i x : c_threads s !! i = Some (PushTested x) →
      cstep s (mkC (c_cb s) (keep_running s) (<[i := CPushWaits x]> (c_threads s)) (c_pushed s) (c_popped s))
  | c_push_fails s i x cb : c_threads s !! i = Some (CPushing x) → unlocked s → cb_full (c_cb s) && keep_running s = false →
      cb_push_rest (keep_running s) x (c_cb s) = Ret (false, cb) →
      cstep s (mkC cb (keep_running s) (<[i := CIdle]> (c_threads s)) (c_pushed s) (c_popped s))
  | c_push s i x cb ts : c_threads s !! i = Some (CPushing x) → unlocked s → cb_full (c_cb s) && keep_running s = false →
      cb_push_rest (keep_running s) x (c_cb s) = Ret (true, cb) → cond_signal cwaits_empty (<[i := CIdle]> (c_threads s)) ts →
      cstep s (mkC cb (keep_running s) ts (c_pushed s ++ [x]) (c_popped s))
  | c_pop_test s i : c_threads s !! i = Some CPopping → unlocked s → cb_empty (c_cb s) && keep_running s = true →
      cstep s (mkC (c_cb s) (keep_running s) (<[i := PopTested]> (c_threads s)) (c_pushed s) (c_popped s))
  | c_pop_wait s i : c_threads s !! i = Some PopTested →
      cstep s (mkC (c_cb s) (keep_running s) (<[i := CPopWaits]> (c_threads s)) (c_pushed s) (c_popped s))
  | c_pop_fails s i cb : c_threads s !! i = Some CPopping → unlocked s → cb_empty (c_cb s) && keep_running s = false →
      cb_pop_rest (c_cb s) = Ret (None, cb) →
      cstep s (mkC cb (keep_running s) (<[i := CIdle]> (c_threads s)) (c_pushed s) (c_popped s))
  | c_pop s i x cb ts : c_threads s !! i = Some CPopping → unlocked s → cb_empty (c_cb s) && keep_running s = false →
      cb_pop_rest (c_cb s) = Ret (Some x, cb) → cond_signal cwaits_full (<[i := CIdle]> (c_threads s)) ts →
      cstep s (mkC cb (keep_running s) ts (c_pushed s) (c_popped s ++ [x]))
  | c_sigint s : cstep s (handle_sigint s)
  | c_spurious s i t : c_threads s !! i = Some t → cwaits_full t || cwaits_empty t = true →
      cstep s (mkC (c_cb s) (keep_running s) (<[i := cwake t]> (c_threads s)) (c_pushed s) (c_popped s)).

Definition cinitial (cb : CircularBuffer Z) (n : nat) : csystem := mkC cb true (replicate n CIdle) [] [].

(** ** First in, first out *)

Record cinv (capacity : Z) (s : csystem) : Prop := {
  ci_rep : ∃ vs, cb_rep (c_cb s) vs ∧ c_pushed s = c_popped s ++ vs;
  ci_cap : capacity_ (c_cb s) = capacity;
  ci_lock : (countb tested (c_threads s) ≤ 1)%nat;
  ci_full i x : c_threads s !! i = Some (PushTested x) → cb_full (c_cb s) = true;
  ci_empty i : c_threads s !! i = Some PopTested → cb_empty (c_cb s) = true
}.

Lemma cb_init_rep garbage capacity : Z.of_nat (length garbage) = capacity → capacity < 2 ^ 64 →
  ∃ cb, cb_init (Some garbage) capacity = Some cb ∧ cb_rep cb [] ∧ capacity_ cb = capacity.
Proof.
  intros Hl Hc. eexists. split; [done|]. split; [|done]. split; simpl; try lia.
  - destruct (Z.eq_dec capacity 0) as [->|]; [done|]. by rewrite Z.mod_0_l.
  - apply ring_rep_nil.
Qed.

Lemma cb_push_rest_rep cb vs x run : cb_rep cb vs → cb_full cb && run = false →
  (run = false ∧ cb_push_rest run x cb = Ret (false, cb)) ∨
  (run = true ∧ ∃ cb', cb_push_rest run x cb = Ret (true, cb') ∧ cb_rep cb' (vs ++ [x]) ∧ capacity_ cb' = capacity_ cb).
Proof.
  intros R Hf. destruct run; [right|by left]. split; [done|]. rewrite andb_true_r in Hf.
  unfold cb_full in Hf. apply Z.eqb_neq in Hf. rewrite (rep_size _ _ R) in Hf.
  destruct (push_rep cb vs x R Hf) as (cb' & E & R' & Hc). exists cb'. split; [|done].
  unfold push in E. rewrite (full_rep cb vs R), (proj2 (Z.eqb_neq _ _) Hf) in E. unfold cb_push_rest. cbn [negb].
  apply bind_Ret_inv in E as (b & -> & E). apply bind_Ret_inv in E as (h & -> & E). by injection E as <-.
Qed.

Lemma cb_pop_rest_rep cb vs : cb_rep cb vs →
  (vs = [] ∧ cb_pop_rest cb = Ret (None, cb)) ∨
  (∃ v vs' cb', vs = v :: vs' ∧ cb_pop_rest cb = Ret (Some v, cb') ∧ cb_rep cb' vs' ∧ capacity_ cb' = capacity_ cb).
Proof.
  intros R. unfold cb_pop_rest, cb_empty. rewrite (rep_size _ _ R). destruct vs as [|v vs]; [by left|right].
  destruct (pop_rep cb v vs R) as (cb' & E & R' & Hc). exists v, vs, cb'. split; [done|]. split; [|done].
  simpl. unfold pop in E. rewrite (empty_rep cb _ R) in E. simpl in E. rewrite (rep_size _ _ R) in E.
  apply bind_Ret_inv in E as (w & -> & E). apply bind_Ret_inv in E as (h & -> & E). by injection E as <- <-.
Qed.

Lemma tested_wake t : tested (cwake t) = tested t.
Proof. by destruct t. Qed.

Lemma countb_same {A} (p : A → bool) l i x y : l !! i = Some x → p x = p y → countb p (<[i := y]> l) = countb p l.
Proof. intros Hi Hp. pose proof (countb_insert p l i x y Hi). rewrite Hp in *. lia. Qed.

Lemma countb_ext {A} (p q : A → bool) l : (∀ x, p x = q x) → countb p l = countb q l.
Proof. intros Hpq. induction l as [|x l IH]; simpl; [done|]. by rewrite Hpq, IH. Qed.

Lemma signal_tested w ts ts' : cond_signal w ts ts' → countb tested ts' = countb tested ts.
Proof. intros [|i t Hi Hw]; [done|]. apply (countb_same _ _ _ t); [done|by rewrite tested_wake]. Qed.

Lemma none_tested ts i t : countb tested ts = 0%nat → ts !! i = Some t → tested t = false.
Proof. intros Hz Hi. by eapply countb_zero. Qed.

(** Steps that leave the buffer alone and test nothing. *)
Lemma cinv_threads capacity s i t t' : cinv capacity s → c_threads s !! i = Some t → tested t' = false →
  cinv capacity (mkC (c_cb s) (keep_running s) (<[i := t']> (c_threads s)) (c_pushed s) (c_popped s)).
Proof.
  intros [Hr Hc Hk Hf He] Hi Ht'. split; simpl; [done|done| | |].
  - pose proof (countb_insert tested _ _ _ t' Hi) as Hn. rewrite Ht' in Hn. simpl in Hn. lia.
  - intros j x [(-> & -> & _)|[_ Hj]]%list_lookup_insert_Some; [done|by eapply Hf].
  - intros j [(-> & -> & _)|[_ Hj]]%list_lookup_insert_Some; [done|by eapply He].
Qed.

(** Steps that change the buffer, with nobody else holding the mutex. *)
Lemma cinv_unlocked capacity s cb ts pu po vs : countb tested ts = 0%nat → cb_rep cb vs → pu = po ++ vs →
  capacity_ cb = capacity → cinv capacity (mkC cb (keep_running s) ts pu po).
Proof.
  intros Hz R Hq Hc. split; simpl; [eauto|done|lia| |].
  - intros i x Hi. by pose proof (none_tested _ _ _ Hz Hi).
  - intros i Hi. by pose proof (none_tested _ _ _ Hz Hi).
Qed.

Lemma cinv_step capacity s s' : cinv capacity s → cstep s s' → cinv capacity s'.
Proof.
  intros Hinv Hs. pose proof Hinv as [(vs & R & Hq) Hc Hk Hf He]. destruct Hs as
    [s i t Hi Ht|s i x Hi Hu Ht|s i x Hi|s i x cb Hi Hu Ht E|s i x cb ts Hi Hu Ht E Hn|s i Hi Hu Ht|s i Hi
    |s i cb Hi Hu Ht E|s i x cb ts Hi Hu Ht E Hn|s|s i t Hi Hw]; unfold unlocked in *.
  - apply (cinv_threads _ s i CIdle); [done|done|]. by destruct Ht as [->|[x ->]].
  - apply andb_true_iff in Ht as [Ht _]. pose proof (countb_insert tested _ _ _ (PushTested x) Hi) as Hcnt. simpl in Hcnt.
    split; simpl; [eauto|done|lia| |].
    + done.
    + intros j [(_ & [=] & _)|[_ Hj]]%list_lookup_insert_Some. by eapply He.
  - by apply (cinv_threads _ s i (PushTested x)).
  - destruct (cb_push_rest_rep _ vs x (keep_running s) R Ht) as [[_ E']|(_ & cb' & E' & _)]; rewrite E in E'; [|done].
    injection E' as ->. by apply (cinv_threads _ s i (CPushing x)).
  - destruct (cb_push_rest_rep _ vs x (keep_running s) R Ht) as [[_ E']|(_ & cb' & E' & R' & Hc')]; rewrite E in E'; [done|].
    injection E' as ->. apply (cinv_unlocked _ s _ _ _ _ (vs ++ [x])); [|done|by rewrite Hq, app_assoc|congruence].
    rewrite (signal_tested _ _ _ Hn), (countb_same _ _ _ _ _ Hi); done.
  - apply andb_true_iff in Ht as [Ht _]. pose proof (countb_insert tested _ _ _ PopTested Hi) as Hcnt. simpl in Hcnt.
    split; simpl; [eauto|done|lia| |].
    + intros j x [(_ & [=] & _)|[_ Hj]]%list_lookup_insert_Some. by eapply Hf.
    + done.
  - by apply (cinv_threads _ s i PopTested).
  - destruct (cb_pop_rest_rep _ vs R) as [[_ E']|(v & vs' & cb' & _ & E' & _)]; rewrite E in E'; [|done].
    injection E' as ->. by apply (cinv_threads _ s i CPopping).
  - destruct (cb_pop_rest_rep _ vs R) as [[_ E']|(v & vs' & cb' & -> & E' & R' & Hc')]; rewrite E in E'; [done|].
    injection E' as -> ->. apply (cinv_unlocked _ s _ _ _ _ vs'); [|done|by rewrite Hq, <- app_assoc|congruence].
    rewrite (signal_tested _ _ _ Hn), (countb_same _ _ _ _ _ Hi); done.
  - split; simpl; [eauto|done| | |].
    + rewrite countb_fmap. rewrite (countb_ext _ tested); [done|]. apply tested_wake.
    + intros i x. rewrite list_lookup_fmap. intros ([] & Hi & Hw)%fmap_Some; try done. injection Hw as ->. by eapply Hf.
    + intros i. rewrite list_lookup_fmap. intros ([] & Hi & Hw)%fmap_Some; try done. by eapply He.
  - destruct t; try done; by eapply cinv_threads.
Qed.

(** ** Until the signal: the C++ buffer

    A thread that has tested its condition and holds the mutex corresponds to
    one that is about to enter its critical section. *)

Definition abs_thread (t : cthread) : thread (T := Z) :=
  match t with
  | CIdle => Idle
  | CPushing x | PushTested x => Pushing x
  | CPopping | PopTested => Popping
  | CPushWaits x => PushWaits x
  | CPopWaits => PopWaits
  end.

Definition abs (s : csystem) : system (T := Z) :=
  mkSystem (mkBuffer (c_cb s) (keep_running s)) (abs_thread <$> c_threads s) (c_pushed s) (c_popped s).

Lemma abs_wake t : abs_thread (cwake t) = wake (abs_thread t).
Proof. by destruct t. Qed.

Lemma signal_abs w w' ts ts' : (∀ t, w' (abs_thread t) = w t) → cond_signal w ts ts' →
  notify_one w' (abs_thread <$> ts) (abs_thread <$> ts').
Proof.
  intros Hw [Hz|i t Hi Ht].
  - apply notify_none. rewrite countb_fmap. rewrite (countb_ext _ w); [done|apply Hw].
  - rewrite list_fmap_insert, abs_wake. apply notify_some; [by rewrite list_lookup_fmap, Hi|by rewrite Hw].
Qed.

Lemma cstep_running s s' : cstep s s' → keep_running s' = true → keep_running s = true.
Proof. by destruct 1. Qed.

Lemma cstep_simulates capacity s s' : cinv capacity s → cstep s s' → keep_running s' = true →
  abs s' = abs s ∨ step (abs s) (abs s').
Proof.
  intros [(vs & R & _) Hc _ Hf He] Hs Hrun. pose proof (rep_size _ _ R) as Hsz. pose proof (rep_cap _ _ R) as Hcap.
  pose proof (rep_bound _ _ R) as Hb. destruct Hs as
    [s i t Hi Ht|s i x Hi Hu Ht|s i x Hi|s i x cb Hi Hu Ht E|s i x cb ts Hi Hu Ht E Hn|s i Hi Hu Ht|s i Hi
    |s i cb Hi Hu Ht E|s i x cb ts Hi Hu Ht E Hn|s|s i t Hi Hw]; simpl in Hrun; try done;
    unfold abs; cbn [c_cb keep_running c_threads c_pushed c_popped]; rewrite ?list_fmap_insert, Hrun.
  - right. apply (step_call (mkSystem _ _ _ _) i); [simpl; by rewrite list_lookup_fmap, Hi|].
    destruct Ht as [->|[x ->]]; simpl; eauto.
  - left. f_equal. simpl. apply list_insert_id. by rewrite list_lookup_fmap, Hi.
  - right. apply (step_push_blocks (mkSystem _ _ _ _) i x); [simpl; by rewrite list_lookup_fmap, Hi|].
    unfold push_section. simpl. specialize (Hf i x Hi). unfold cb_full in Hf. apply Z.eqb_eq in Hf.
    rewrite orb_false_r, (proj2 (Z.ltb_ge _ _)) by lia. done.
  - rewrite Hrun in E, Ht. destruct (cb_push_rest_rep _ vs x true R Ht) as [[? _]|(_ & cb' & E' & _)]; congruence.
  - right. rewrite Hrun in E, Ht. rewrite andb_true_r in Ht. apply (step_push (mkSystem _ _ _ _) i x);
      [simpl; by rewrite list_lookup_fmap, Hi| |].
    + unfold push_section. simpl. unfold cb_full in Ht. apply Z.eqb_neq in Ht.
      rewrite (proj2 (Z.ltb_lt _ _)) by lia. simpl. unfold cb_push_rest in E. cbn [negb] in E.
      apply bind_Ret_inv in E as (b & -> & E). apply bind_Ret_inv in E as (h & -> & E). by injection E as <-.
    + simpl. change Idle with (abs_thread CIdle). rewrite <- list_fmap_insert. apply (signal_abs cwaits_empty); [by intros []|done].
  - left. f_equal. simpl. apply list_insert_id. by rewrite list_lookup_fmap, Hi.
  - right. apply (step_pop_blocks (mkSystem _ _ _ _) i); [simpl; by rewrite list_lookup_fmap, Hi|].
    unfold pop_section. simpl. specialize (He i Hi). unfold cb_empty in He. apply Z.eqb_eq in He. rewrite He. done.
  - rewrite Hrun, andb_true_r in Ht. unfold cb_pop_rest in E. rewrite Ht in E.
    apply bind_Ret_inv in E as (w & _ & E). apply bind_Ret_inv in E as (h & _ & E). done.
  - right. rewrite Hrun, andb_true_r in Ht. apply (step_pop (mkSystem _ _ _ _) i x);
      [simpl; by rewrite list_lookup_fmap, Hi| |].
    + unfold pop_section. simpl. unfold cb_pop_rest in E. rewrite Ht in E. unfold cb_empty in Ht. rewrite Ht.
      apply Z.eqb_neq in Ht. rewrite (proj2 (Z.ltb_lt 0 _)) by lia. simpl.
      apply bind_Ret_inv in E as (w & -> & E). apply bind_Ret_inv in E as (h & -> & E). by injection E as <- <-.
    + simpl. change Idle with (abs_thread CIdle). rewrite <- list_fmap_insert. apply (signal_abs cwaits_full); [by intros []|done].
  - right. rewrite abs_wake. apply (step_spurious (mkSystem _ _ _ _) i); [simpl; by rewrite list_lookup_fmap, Hi|]. by destruct t.
Qed.

Lemma cinitial_inv cb capacity n : cb_rep cb [] → capacity_ cb = capacity →
  cinv capacity (cinitial cb n) ∧ inv capacity (abs (cinitial cb n)).
Proof.
  intros R Hc. assert (∀ p : cthread → bool, p CIdle = false → countb p (replicate n CIdle) = 0%nat) as Hz.
  { intros p Hp. induction n; simpl; [done|]. by rewrite Hp. }
  split; split; simpl; try done; try (rewrite ?fmap_replicate; left; by apply countb_replicate_Idle).
  - by exists [].
  - rewrite Hz by done. lia.
  - by intros i x [? _]%lookup_replicate.
  - by intros i [? _]%lookup_replicate.
  - by exists [].
Qed.

Lemma creachable_inv cb capacity n s : cb_rep cb [] → capacity_ cb = capacity → rtc cstep (cinitial cb n) s →
  cinv capacity s ∧ (keep_running s = true → inv capacity (abs s)).
Proof.
  intros R Hc Hr. destruct (cinitial_inv cb capacity n R Hc) as [Hi Ha]. assert (keep_running (cinitial cb n) = true →
    inv capacity (abs (cinitial cb n))) as Ha' by done. clear Ha. revert Hi Ha'.
  induction Hr as [|s1 s2 s3 Hs _ IH]; [done|]. intros Hi Ha. apply IH; [by eapply cinv_step|].
  intros Hrun. pose proof (cstep_running _ _ Hs Hrun) as Hrun1.
  destruct (cstep_simulates capacity s1 s2 Hi Hs Hrun) as [->|Hstep]; [by apply Ha|].
  eapply inv_step; [by apply Ha|done].
Qed.

(** Whatever the threads and the signal handler do, the values popped so
    far followed by those in the buffer are the values pushed so far, in order,
    and the buffer holds at most its capacity.  As long as no signal has
    arrived, no wake-up is lost: when no thread is awake inside a call, a thread
    waits in [cb_pop] only on an empty and in [cb_push] only on a full buffer. *)
Theorem SignalBuffer_correct garbage capacity n cb s :
  0 < capacity < 2 ^ 64 → Z.of_nat (length garbage) = capacity → cb_init (Some garbage) capacity = Some cb →
  rtc cstep (cinitial cb n) s →
  (∃ vs, c_pushed s = c_popped s ++ vs ∧ size_ (c_cb s) = Z.of_nat (length vs) ∧ Z.of_nat (length vs) ≤ capacity) ∧
  (keep_running s = true → (∀ i t, c_threads s !! i = Some t → t = CIdle ∨ cwaits_full t || cwaits_empty t = true) →
   (countb cwaits_empty (c_threads s) ≠ 0%nat → c_pushed s = c_popped s) ∧
   (countb cwaits_full (c_threads s) ≠ 0%nat → size_ (c_cb s) = capacity)).
Proof.
  intros Hc Hl Hi Hr. destruct (cb_init_rep garbage capacity Hl) as (cb' & E & R & Hcap); [lia|].
  assert (cb' = cb) as -> by congruence. destruct (creachable_inv cb capacity n s R Hcap Hr) as [[(vs & R' & Hq) Hc' _ _ _] Ha].
  pose proof (rep_size _ _ R'). pose proof (rep_bound _ _ R'). pose proof (rep_cap _ _ R').
  split; [exists vs; split; [done|lia]|]. intros Hrun Hidle. destruct (Ha Hrun) as [_ _ Hce Hcf _]. simpl in Hce, Hcf.
  rewrite !countb_fmap in Hce, Hcf. rewrite (countb_ext _ cwaits_empty) in Hce by (by intros []).
  rewrite (countb_ext _ cwaits_full) in Hcf by (by intros []).
  assert (countb (λ t, in_pop (abs_thread t)) (c_threads s) = 0%nat) as Hpop.
  { apply countb_zero. intros i t Ht. destruct (Hidle i t Ht) as [->|Hw]; [done|]. by destruct t. }
  assert (countb (λ t, in_push (abs_thread t)) (c_threads s) = 0%nat) as Hpush.
  { apply countb_zero. intros i t Ht. destruct (Hidle i t Ht) as [->|Hw]; [done|]. by destruct t. }
  split; intros Hw; [|lia]. destruct vs as [|v vs]; [by rewrite app_nil_r in Hq|]. simpl in *. lia.
Qed.

Definition demo_cb : CircularBuffer Z := mkCircularBuffer [0] 1 0 0 0.

(** A consumer waits, a producer pushes 7 and wakes it up. *)
Definition full_cb : CircularBuffer Z := mkCircularBuffer [7] 1 0 0 1.

Lemma SignalBuffer_correct_witness : ∃ vs, [7] = [] ++ vs ∧ 1 = Z.of_nat (length vs) ∧ Z.of_nat (length vs) ≤ 1.
Proof.
  apply (SignalBuffer_correct [0] 1 2 demo_cb (mkC full_cb true [CPopping; CIdle] [7] [])); [lia|reflexivity|reflexivity|].
  eapply rtc_l; [apply (c_call (cinitial demo_cb 2) 0 CPopping); [reflexivity|by left]|].
  eapply rtc_l; [by apply (c_pop_test (mkC demo_cb true [CPopping; CIdle] [] []) 0)|].
  eapply rtc_l; [by apply (c_pop_wait (mkC demo_cb true [PopTested; CIdle] [] []) 0)|].
  eapply rtc_l; [apply (c_call (mkC demo_cb true [CPopWaits; CIdle] [] []) 1 (CPushing 7)); [reflexivity|right; by exists 7]|].
  apply rtc_once. apply (c_push (mkC demo_cb true [CPopWaits; CPushing 7] [] []) 1 7 full_cb [CPopping; CIdle]);
    [reflexivity|reflexivity|reflexivity|reflexivity|]. by apply (signal_some cwaits_empty [CPopWaits; CIdle] 0 CPopWaits).
Defined.

(** The signal can come after the test of a wait loop and before the wait: the
    consumer then sleeps, the mutex is free, nobody is left to wake it up, and
    the program has been told to stop. *)
Lemma sigint_lost : rtc cstep (cinitial demo_cb 1) (mkC demo_cb false [CPopWaits] [] []) ∧
  ∀ s, cstep (mkC demo_cb false [CPopWaits] [] []) s →
    s = mkC demo_cb false [CPopping] [] [].
Proof.
  split.
  - eapply rtc_l; [apply (c_call (cinitial demo_cb 1) 0 CPopping); [done|by left]|].
    eapply rtc_l; [by apply (c_pop_test (mkC demo_cb true [CPopping] [] []) 0)|].
    eapply rtc_l; [apply (c_sigint (mkC demo_cb true [PopTested] [] []))|].
    apply rtc_once. by apply (c_pop_wait (mkC demo_cb false [PopTested] [] []) 0).
  - intros s Hs. inversion Hs; subst; simpl in *;
      try match goal with H : [CPopWaits] !! ?i = Some _ |- _ => destruct i as [|i]; simpl in H; simplify_eq end; auto.
Qed.
