(* ===== verification/Semaphore.v ===== *)
(** * semaphore/countingSemaphore.c and pureStorage/threadCallbackEventSync.cpp

    A counting semaphore from a mutex and a condition variable, with the worker
    threads of its [main], and the callbacks that wait for an event.  A step is
    a critical section of one thread, a notification or a spurious wake-up. *)

From stdpp Require Import base list numbers relations.
From Stdlib Require Import ZArith Lia.
From S2P Require Import Prelude.

(** ** The counting semaphore *)

(** [sem_wait_custom] with the mutex held: [None] is [pthread_cond_wait]. *)
Definition sem_wait_custom (count : Z) : outcome (option Z) :=
  if count =? 0 then Ret None else c ← int (count - 1); Ret (Some c).
Definition sem_post_custom (count : Z) : outcome Z := int (count + 1).

(** [worker]: acquire, work, release. *)
Inductive sem_worker :=
  | Acquiring        (* in [sem_wait_custom], about to test the count *)
  | Sleeping         (* blocked on the condition variable *)
  | Critical         (* between [sem_wait_custom] and [sem_post_custom] *)
  | Finished.

Record semaphore_t := mkSem { count : Z; sem_threads : list sem_worker }.

Definition acquiring (t : sem_worker) : bool := match t with Acquiring => true | _ => false end.
Definition sleeping (t : sem_worker) : bool := match t with Sleeping => true | _ => false end.
Definition critical (t : sem_worker) : bool := match t with Critical => true | _ => false end.

Inductive sem_signal (ts : list sem_worker) : list sem_worker → Prop :=
  | sem_signal_none : countb sleeping ts = 0%nat → sem_signal ts ts
  | sem_signal_some i : ts !! i = Some Sleeping → sem_signal ts (<[i := Acquiring]> ts).

Inductive sem_step : semaphore_t → semaphore_t → Prop :=
  | sem_blocks s i : sem_threads s !! i = Some Acquiring → sem_wait_custom (count s) = Ret None →
      sem_step s (mkSem (count s) (<[i := Sleeping]> (sem_threads s)))
  | sem_enters s i c : sem_threads s !! i = Some Acquiring → sem_wait_custom (count s) = Ret (Some c) →
      sem_step s (mkSem c (<[i := Critical]> (sem_threads s)))
  | sem_leaves s i c ts : sem_threads s !! i = Some Critical → sem_post_custom (count s) = Ret c →
      sem_signal (<[i := Finished]> (sem_threads s)) ts → sem_step s (mkSem c ts)
  | sem_spurious s i : sem_threads s !! i = Some Sleeping →
      sem_step s (mkSem (count s) (<[i := Acquiring]> (sem_threads s))).

(** [main]: [sem_init_custom(&sem, k)] and [n] workers. *)
Definition sem_init_custom (k : Z) (n : nat) : semaphore_t := mkSem k (replicate n Acquiring).

Record sem_inv (k : Z) (s : semaphore_t) : Prop := {
  se_count : count s + Z.of_nat (countb critical (sem_threads s)) = k;
  se_nonneg : 0 ≤ count s;
  se_awake : countb sleeping (sem_threads s) = 0%nat ∨ count s ≤ Z.of_nat (countb acquiring (sem_threads s))
}.

Ltac sem_counts Hi t :=
  pose proof (countb_insert critical _ _ _ t Hi); pose proof (countb_insert sleeping _ _ _ t Hi);
  pose proof (countb_insert acquiring _ _ _ t Hi); simpl in *.

Lemma sem_inv_init k n : 0 ≤ k → sem_inv k (sem_init_custom k n).
Proof.
  intros Hk. assert (countb critical (replicate n Acquiring) = 0%nat ∧ countb sleeping (replicate n Acquiring) = 0%nat) as [H1 H2]
    by (induction n; simpl; auto). split; simpl; lia.
Qed.

Lemma sem_inv_step k s s' : 0 ≤ k ≤ INT_MAX → sem_inv k s → sem_step s s' → sem_inv k s'.
Proof.
  intros Hk Hinv Hst. destruct Hst as [s0 i Hi E|s0 i c Hi E|s0 i c ts Hi E Hs|s0 i Hi]; destruct Hinv as [Hc Hn Ha].
  - unfold sem_wait_custom in E. destruct (Z.eqb_spec (count s0) 0) as [E0|E0].
    + sem_counts Hi Sleeping. split; simpl; lia.
    + by apply bind_Ret_inv in E as (c & _ & E).
  - unfold sem_wait_custom in E. destruct (Z.eqb_spec (count s0) 0) as [E0|E0]; [done|].
    apply bind_Ret_inv in E as (c' & Ec & [= ->]). unfold int in Ec. destruct (int_ok _); [|done]. injection Ec as <-.
    sem_counts Hi Critical. split; simpl; lia.
  - unfold sem_post_custom, int in E. destruct (int_ok _); [|done]. injection E as <-. sem_counts Hi Finished.
    destruct Hs as [Hz|j Hj].
    + split; simpl; lia.
    + sem_counts Hj Acquiring. split; simpl; lia.
  - sem_counts Hi Acquiring. split; simpl; lia.
Qed.

Lemma sem_reachable k n s : 0 ≤ k ≤ INT_MAX → rtc sem_step (sem_init_custom k n) s → sem_inv k s.
Proof.
  intros Hk Hr. pose proof (sem_inv_init k n ltac:(lia)) as Hi. revert Hi.
  induction Hr as [|s1 s2 s3 Hs _ IH]; [done|]. intros Hi. apply IH. by eapply sem_inv_step.
Qed.

Lemma sem_signal_total ts : ∃ ts', sem_signal ts ts'.
Proof.
  destruct (decide (countb sleeping ts = 0%nat)) as [Hz|Hz]; [exists ts; by apply sem_signal_none|].
  enough (∃ i, ts !! i = Some Sleeping) as [i Hi] by (eexists; by apply (sem_signal_some ts i)).
  induction ts as [|t ts IH]; simpl in Hz; [done|]. destruct t; try (destruct IH as [i Hi]; [done|]; by exists (S i)).
  by exists 0%nat.
Qed.

(** Every thread that is awake can take its step. *)
Lemma sem_awake_steps k s i t : 0 ≤ k ≤ INT_MAX → sem_inv k s → sem_threads s !! i = Some t →
  acquiring t || critical t = true → ∃ s', sem_step s s' ∧ sem_threads s' !! i ≠ Some t.
Proof.
  intros Hk [Hc Hn Ha] Hi Ht. assert (i < length (sem_threads s))%nat by (by eapply lookup_lt_Some). destruct t; try done.
  - assert (int_ok (count s - 1) = true) as Hok by (unfold int_ok, INT_MIN, INT_MAX in *; rewrite andb_true_iff, !Z.leb_le; lia).
    destruct (Z.eqb_spec (count s) 0) as [E|E]; eexists.
    + split; [eapply sem_blocks; [done|]; unfold sem_wait_custom, int; by rewrite E|].
      simpl. by rewrite list_lookup_insert_eq.
    + split; [eapply sem_enters; [done|]; unfold sem_wait_custom, int; by rewrite (proj2 (Z.eqb_neq _ _) E), Hok|].
      simpl. by rewrite list_lookup_insert_eq.
  - destruct (sem_signal_total (<[i := Finished]> (sem_threads s))) as [ts Hs].
    assert (0 < countb critical (sem_threads s))%nat by (by eapply countb_pos).
    eexists. split; [eapply sem_leaves; [done| |done]|].
    + unfold sem_post_custom, int.
      assert (int_ok (count s + 1) = true) as -> by (unfold int_ok, INT_MIN, INT_MAX in *; rewrite andb_true_iff, !Z.leb_le; lia).
      done.
    + simpl. destruct Hs as [_|j Hj]; [by rewrite list_lookup_insert_eq|].
      rewrite list_lookup_insert_ne; [by rewrite list_lookup_insert_eq|]. intros ->. by rewrite list_lookup_insert_eq in Hj.
Qed.

(** With a permit the threads never all sleep. *)
Lemma sem_not_stuck k s : 0 < k → sem_inv k s →
  (∀ i t, sem_threads s !! i = Some t → t = Sleeping ∨ t = Finished) →
  ∀ i t, sem_threads s !! i = Some t → t = Finished.
Proof.
  intros Hpos [Hc Hn Ha] Hall i t Hi. destruct (Hall i t Hi) as [->|]; [|done]. exfalso.
  assert (countb critical (sem_threads s) = 0%nat) by (apply countb_zero; intros j u Hj; by destruct (Hall j u Hj) as [-> | ->]).
  assert (countb acquiring (sem_threads s) = 0%nat) by (apply countb_zero; intros j u Hj; by destruct (Hall j u Hj) as [-> | ->]).
  assert (0 < countb sleeping (sem_threads s))%nat by (by eapply countb_pos). lia.
Qed.

(** C28: with [k] permits, at most [k] threads are between [sem_wait_custom] and
    [sem_post_custom] in every interleaving, and the count is the number of
    permits left (so it neither becomes negative nor overflows); every thread
    that is awake can take its step; and if there is a permit at all, the
    threads never all get stuck: when none of them is awake, all have finished. *)
Theorem semaphore_correct k n s : 0 ≤ k ≤ INT_MAX → rtc sem_step (sem_init_custom k n) s →
  Z.of_nat (countb critical (sem_threads s)) ≤ k ∧
  0 ≤ count s ∧ count s = k - Z.of_nat (countb critical (sem_threads s)) ∧
  (∀ i t, sem_threads s !! i = Some t → acquiring t || critical t = true → ∃ s', sem_step s s') ∧
  (0 < k → (∀ i t, sem_threads s !! i = Some t → t = Sleeping ∨ t = Finished) →
   ∀ i t, sem_threads s !! i = Some t → t = Finished).
Proof.
  intros Hk Hr. pose proof (sem_reachable k n s Hk Hr) as Hinv. pose proof Hinv as [Hc Hn Ha]. split_and!; [lia|lia|lia| |].
  - intros i t Hi Ht. destruct (sem_awake_steps k s i t Hk Hinv Hi Ht) as (s' & Hs & _). eauto.
  - intros Hpos. by apply (sem_not_stuck k).
Qed.

(** The program's [main]: five workers, two permits. *)
Lemma semaphore_correct_witness : Z.of_nat (countb critical [Critical; Critical; Acquiring; Acquiring; Acquiring]) ≤ 2.
Proof.
  apply (semaphore_correct 2 5 (mkSem 0 [Critical; Critical; Acquiring; Acquiring; Acquiring])); [vm_compute; split; discriminate|].
  eapply rtc_l; [by apply (sem_enters (sem_init_custom 2 5) 0 1)|].
  apply rtc_once. by apply (sem_enters (mkSem 1 [Critical; Acquiring; Acquiring; Acquiring; Acquiring]) 1 0).
Defined.

(** The loop tests [count == 0]: a semaphore with a negative count never blocks. *)
Lemma negative_semaphore_admits c : INT_MIN < c < 0 → sem_wait_custom c = Ret (Some (c - 1)).
Proof.
  intros Hc. unfold sem_wait_custom, int. rewrite (proj2 (Z.eqb_neq c 0)) by lia.
  assert (int_ok (c - 1) = true) as ->; [|done]. unfold int_ok, INT_MIN, INT_MAX in *. rewrite andb_true_iff, !Z.leb_le. lia.
Qed.

(** ** Callbacks that wait for an event *)

Inductive user := Registering | AwaitsEvent | Executed.
Inductive handler := EventRunning | EventNotifying | EventOver.
Record event_system := mkEvent { event_complete : bool; users : list user; event_handler_at : handler }.

(** [reg_cb] with the mutex held: whether the wait returns. *)
Definition reg_cb (event_complete : bool) : user := if event_complete then Executed else AwaitsEvent.
Definition notify_user (u : user) : user := match u with AwaitsEvent => Registering | u => u end.

Inductive event_step : event_system → event_system → Prop :=
  | ev_reg_cb s i : users s !! i = Some Registering →
      event_step s (mkEvent (event_complete s) (<[i := reg_cb (event_complete s)]> (users s)) (event_handler_at s))
  | ev_spurious s i : users s !! i = Some AwaitsEvent →
      event_step s (mkEvent (event_complete s) (<[i := Registering]> (users s)) (event_handler_at s))
  | ev_arrives s : event_step s (mkEvent (event_complete s) (users s ++ [Registering]) (event_handler_at s))
  | ev_completes s : event_handler_at s = EventRunning →
      event_step s (mkEvent true (users s) EventNotifying)
  | ev_notify_all s : event_handler_at s = EventNotifying →
      event_step s (mkEvent (event_complete s) (notify_user <$> users s) EventOver).

Definition event_init : event_system := mkEvent false [] EventRunning.

Definition event_inv (s : event_system) : Prop :=
  match event_handler_at s with
  | EventRunning => event_complete s = false ∧ Executed ∉ users s
  | EventNotifying => event_complete s = true
  | EventOver => event_complete s = true ∧ AwaitsEvent ∉ users s
  end.

Lemma elem_of_inserted {A} (l : list A) i x y : x ∈ <[i := y]> l → x = y ∨ x ∈ l.
Proof.
  intros (j & Hj)%list_elem_of_lookup. apply list_lookup_insert_Some in Hj as [(_ & -> & _)|[_ Hj]]; [by left|].
  right. by eapply list_elem_of_lookup_2.
Qed.

Lemma event_inv_step s s' : event_inv s → event_step s s' → event_inv s'.
Proof.
  unfold event_inv. intros Hinv Hst. destruct Hst as [s0 i Hi|s0 i Hi|s0|s0 Hh|s0 Hh]; simpl in *.
  - destruct (event_handler_at s0); [destruct Hinv as [Hc Hu]|done|destruct Hinv as [Hc Hu]]; rewrite Hc in *; simpl;
      (split; [done|]); intros [?|?]%elem_of_inserted; done.
  - destruct (event_handler_at s0); try done; destruct Hinv as [Hc Hu]; (split; [done|]).
    + intros [?|?]%elem_of_inserted; done.
    + intros [?|?]%elem_of_inserted; done.
  - destruct (event_handler_at s0); try done; destruct Hinv as [Hc Hu]; (split; [done|]); set_solver.
  - done.
  - rewrite Hh in Hinv. split; [done|]. intros (u & Hu & _)%list_elem_of_fmap. by destruct u.
Qed.

(** No callback is executed before the event has completed, and none is
    forgotten: once the handler has notified, no user stays blocked, so a user
    that is still inside [reg_cb], whenever it came, is awake and executes its
    callback in its next step. *)
Theorem event_callbacks_run s : rtc event_step event_init s →
  (Executed ∈ users s → event_complete s = true) ∧
  (event_handler_at s = EventOver → ∀ i u, users s !! i = Some u → u = Executed ∨
     (u = Registering ∧ event_step s (mkEvent true (<[i := Executed]> (users s)) EventOver))).
Proof.
  intros Hr. assert (event_inv s) as Hinv.
  { assert (event_inv event_init) as H0 by (split; [done|set_solver]). revert H0.
    induction Hr as [|s1 s2 s3 Hs _ IH]; [done|]. intros Hi. apply IH. by eapply event_inv_step. }
  unfold event_inv in Hinv. split.
  - intros Hu. destruct (event_handler_at s); [by destruct Hinv as [_ []]|done|by destruct Hinv].
  - intros Hh i u Hi. rewrite Hh in Hinv. destruct Hinv as [Hc Hn]. destruct u.
    + right. split; [done|]. pose proof (ev_reg_cb s i Hi) as Hs. by rewrite Hc, Hh in Hs.
    + exfalso. apply Hn. by eapply list_elem_of_lookup_2.
    + by left.
Qed.

Lemma event_callbacks_run_witness : Executed ∈ [Executed] → true = true.
Proof.
  apply (event_callbacks_run (mkEvent true [Executed] EventOver)).
  eapply rtc_l; [apply ev_arrives|]. eapply rtc_l; [by apply (ev_reg_cb (mkEvent false [Registering] EventRunning) 0)|].
  eapply rtc_l; [by apply (ev_completes (mkEvent false [AwaitsEvent] EventRunning))|].
  eapply rtc_l; [by apply (ev_notify_all (mkEvent true [AwaitsEvent] EventNotifying))|].
  apply rtc_once. by apply (ev_reg_cb (mkEvent true [Registering] EventOver) 0).
Defined.
