(* ===== verification/QueueThreads.v ===== *)
(** * concurrency/producerConsumer/mutex.cpp, mutex_cv.cpp and mutex_cv_refactor.cpp

    Two producers that push the numbers below a bound into a shared queue, and
    consumers: in mutex.cpp a consumer empties the queue once, in the other two
    it waits for values for ever.  A step is one critical section; values carry
    the number of their producer. *)

From stdpp Require Import base list numbers relations.
From Stdlib Require Import ZArith Lia.
From S2P Require Import Prelude.

Definition ITEMS : Z := 1000000.

Inductive consumer :=
  | NotStarted      (* mutex.cpp: before its critical section *)
  | Finished        (* mutex.cpp: after it *)
  | Testing         (* about to test the predicate of [cv.wait] *)
  | Waiting.        (* blocked in [cv.wait] *)

(** [prods]: the loop counters [i] of the producers. *)
Record queue_system := mkQ {
  q : list (nat * Z); prods : list Z; consumers : list consumer; popped : list (nat * Z)
}.

(** ** mutex.cpp *)

Definition producer_push (p : nat) (i : Z) (s : queue_system) : queue_system :=
  mkQ (q s ++ [(p, i)]) (<[p := i + 1]> (prods s)) (consumers s) (popped s).

(** The loop of [consumer]. *)
Fixpoint consumer_drain (q popped : list (nat * Z)) : list (nat * Z) :=
  match q with [] => popped | v :: q => consumer_drain q (popped ++ [v]) end.

Inductive mutex_step (n : Z) : queue_system → queue_system → Prop :=
  | mx_produce s p i : prods s !! p = Some i → i < n → mutex_step n s (producer_push p i s)
  | mx_consume s c : consumers s !! c = Some NotStarted →
      mutex_step n s (mkQ [] (prods s) (<[c := Finished]> (consumers s)) (consumer_drain (q s) (popped s))).

Definition mutex_start (np nc : nat) : queue_system := mkQ [] (replicate np 0) (replicate nc NotStarted) [].

(** ** mutex_cv.cpp and mutex_cv_refactor.cpp *)

(** [cv.wait] and [pop], with the mutex held. *)
Definition consumer_take (q : list (nat * Z)) : option ((nat * Z) * list (nat * Z)) :=
  match q with [] => None | v :: q => Some (v, q) end.

Definition waiting (c : consumer) : bool := match c with Waiting => true | _ => false end.
Definition testing (c : consumer) : bool := match c with Testing => true | _ => false end.

Inductive cv_notify (cs : list consumer) : list consumer → Prop :=
  | cv_notify_none : countb waiting cs = 0%nat → cv_notify cs cs
  | cv_notify_one i : cs !! i = Some Waiting → cv_notify cs (<[i := Testing]> cs).

Inductive cv_step (n : Z) : queue_system → queue_system → Prop :=
  | cv_produce s p i cs : prods s !! p = Some i → i < n → cv_notify (consumers s) cs →
      cv_step n s (mkQ (q s ++ [(p, i)]) (<[p := i + 1]> (prods s)) cs (popped s))
  | cv_waits s c : consumers s !! c = Some Testing → consumer_take (q s) = None →
      cv_step n s (mkQ (q s) (prods s) (<[c := Waiting]> (consumers s)) (popped s))
  | cv_takes s c v q' : consumers s !! c = Some Testing → consumer_take (q s) = Some (v, q') →
      cv_step n s (mkQ q' (prods s) (consumers s) (popped s ++ [v]))
  | cv_spurious s c : consumers s !! c = Some Waiting →
      cv_step n s (mkQ (q s) (prods s) (<[c := Testing]> (consumers s)) (popped s)).

Definition cv_start (np nc : nat) : queue_system := mkQ [] (replicate np 0) (replicate nc Testing) [].

(** ** Every value once and in the order of its producer *)

Definition values_of (p : nat) (l : list (nat * Z)) : list Z := (filter (λ v, v.1 = p) l).*2.

Lemma values_of_app p l k : values_of p (l ++ k) = values_of p l ++ values_of p k.
Proof. unfold values_of. by rewrite list.filter_app, fmap_app. Qed.

Lemma values_of_one p p' v : values_of p [(p', v)] = if decide (p' = p) then [v] else [].
Proof.
  unfold values_of. destruct (decide (p' = p)) as [->|Hn]; [by rewrite filter_cons_True|by rewrite filter_cons_False].
Qed.

Definition in_order (n : Z) (s : queue_system) : Prop :=
  ∀ p i, prods s !! p = Some i → 0 ≤ i ≤ n ∧ values_of p (popped s ++ q s) = seqZ 0 i.

Lemma consumer_drain_all l : ∀ done, consumer_drain l done = done ++ l.
Proof. induction l as [|v l IH]; intros done; simpl; [by rewrite app_nil_r|]. by rewrite IH, <- app_assoc. Qed.

Lemma in_order_push n s p i cs : in_order n s → prods s !! p = Some i → i < n →
  in_order n (mkQ (q s ++ [(p, i)]) (<[p := i + 1]> (prods s)) cs (popped s)).
Proof.
  intros Hin Hp Hi p' i' Hp'. simpl in *. rewrite app_assoc, values_of_app, values_of_one.
  apply list_lookup_insert_Some in Hp' as [(-> & <- & _)|[Hne Hp']].
  - destruct (Hin p' i Hp) as [Hb ->]. rewrite decide_True by done. split; [lia|].
    by rewrite (seqZ_app 0 i 1) by lia.
  - destruct (Hin p' i' Hp') as [Hb ->]. rewrite decide_False by done. by rewrite app_nil_r.
Qed.

Lemma in_order_start n np cs : 0 ≤ n → in_order n (mkQ [] (replicate np 0) cs []).
Proof. intros Hn p i [-> _]%lookup_replicate. split; [lia|done]. Qed.

Lemma in_order_ext n s s' : prods s' = prods s → popped s' ++ q s' = popped s ++ q s → in_order n s → in_order n s'.
Proof. intros Hp Hq Hin p i. rewrite Hp, Hq. apply Hin. Qed.

Lemma mutex_in_order n np nc s : 0 ≤ n → rtc (mutex_step n) (mutex_start np nc) s → in_order n s.
Proof.
  intros Hn Hr. pose proof (in_order_start n np (replicate nc NotStarted) Hn) as H0. revert H0. unfold mutex_start in Hr.
  induction Hr as [|s1 s2 s3 Hs _ IH]; [done|]. intros Hin. apply IH. destruct Hs as [s p i Hp Hi|s c Hc].
  - by apply in_order_push.
  - apply (in_order_ext n s); [done| |done]. simpl. by rewrite consumer_drain_all, app_nil_r.
Qed.

Record cv_inv (n : Z) (s : queue_system) : Prop := {
  cv_order : in_order n s;
  cv_awake : countb waiting (consumers s) = 0%nat ∨ (length (q s) ≤ countb testing (consumers s))%nat;
  cv_kinds c : c ∈ consumers s → c = Testing ∨ c = Waiting
}.

Lemma cv_inv_step n s s' : cv_inv n s → cv_step n s s' → cv_inv n s'.
Proof.
  intros [Ho Ha Hk] Hs. assert (∀ c d, (d = Testing ∨ d = Waiting) → ∀ x, x ∈ <[c := d]> (consumers s) → x = Testing ∨ x = Waiting) as Hk'.
  { intros c d Hd x (j & Hj)%list_elem_of_lookup. apply list_lookup_insert_Some in Hj as [(_ & -> & _)|[_ Hj]]; [done|].
    by eapply Hk, list_elem_of_lookup_2. }
  destruct Hs as [s p i cs Hp Hi Hn|s c Hc Hq|s c v q' Hc Hq|s c Hc].
  - split; simpl; [by apply in_order_push| |].
    + rewrite length_app. simpl. destruct Hn as [Hz|j Hj]; [by left|]. pose proof (countb_insert waiting _ _ _ Testing Hj).
      pose proof (countb_insert testing _ _ _ Testing Hj). simpl in *. right. destruct Ha; [|lia].
      pose proof (countb_pos waiting _ _ _ Hj eq_refl). lia.
    + destruct Hn as [Hz|j Hj]; [done|]. apply Hk'. by left.
  - split; simpl; [apply (in_order_ext n s); done| |apply Hk'; by right]. right. destruct (q s); [simpl; lia|done].
  - destruct (q s) as [|v' q0] eqn:E; [done|]. injection Hq as -> ->. split; simpl; [|simpl in Ha; lia|done].
    apply (in_order_ext n s); [done| |done]. simpl. by rewrite E, <- app_assoc.
  - split; simpl; [apply (in_order_ext n s); done| |apply Hk'; by left]. pose proof (countb_insert waiting _ _ _ Testing Hc).
    pose proof (countb_insert testing _ _ _ Testing Hc). simpl in *. right. destruct Ha; [|lia].
    pose proof (countb_pos waiting _ _ _ Hc eq_refl). lia.
Qed.

Lemma cv_inv_reachable n np nc s : 0 ≤ n → rtc (cv_step n) (cv_start np nc) s → cv_inv n s.
Proof.
  intros Hn Hr. assert (cv_inv n (cv_start np nc)) as H0.
  { split; [by apply in_order_start| |].
    - left. simpl. clear. induction nc; simpl; done.
    - intros c (j & Hj)%list_elem_of_lookup. simpl in Hj. apply lookup_replicate in Hj as [-> _]. by left. }
  revert H0. induction Hr as [|s1 s2 s3 Hs _ IH]; [done|]. intros Hin. apply IH. by eapply cv_inv_step.
Qed.

(** In every interleaving of the three programs each value of each producer
    is taken out at most once, in the order in which the producer pushed them,
    and what has not been taken is in the queue.  With the condition variable
    nothing stays behind: when the producers have finished and every consumer
    is blocked, the consumers have processed everything. *)
Theorem queue_threads_correct n np nc s : 0 ≤ n →
  (rtc (mutex_step n) (mutex_start np nc) s → ∀ p i, prods s !! p = Some i →
     values_of p (popped s) ++ values_of p (q s) = seqZ 0 i) ∧
  (rtc (cv_step n) (cv_start np nc) s → ∀ p i, prods s !! p = Some i →
     values_of p (popped s) ++ values_of p (q s) = seqZ 0 i ∧
     ((∀ c, c ∈ consumers s → c = Waiting) → (0 < nc)%nat → i = n → values_of p (popped s) = seqZ 0 n)).
Proof.
  intros Hn. split.
  - intros Hr p i Hp. rewrite <- values_of_app. by apply (mutex_in_order n np nc s Hn Hr).
  - intros Hr p i Hp. destruct (cv_inv_reachable n np nc s Hn Hr) as [Ho Ha Hk]. rewrite <- values_of_app.
    destruct (Ho p i Hp) as [_ Hv]. split; [done|]. intros Hall Hnc ->.
    assert (countb testing (consumers s) = 0%nat) as Ht.
    { apply countb_zero. intros j c Hj. by rewrite (Hall c) by (by eapply list_elem_of_lookup_2). }
    assert (length (consumers s) = nc) as Hl.
    { assert (length (consumers (cv_start np nc)) = nc) as <- by (simpl; apply length_replicate).
      clear -Hr. induction Hr as [|s1 s2 s3 Hs _ IH]; [done|]. rewrite IH.
      destruct Hs as [s p i cs _ _ []| | |]; simpl; by rewrite ?length_insert. }
    destruct (consumers s) as [|c cs] eqn:E; [simpl in Hl; lia|]. pose proof (Hall c ltac:(by left)) as ->.
    destruct Ha as [Ha|Ha]; [done|]. destruct (q s); [by rewrite app_nil_r in Hv|simpl in *; lia].
Qed.

Lemma queue_threads_correct_witness : 0 ≤ ITEMS ∧ values_of 0 [(0%nat, 0)] ++ values_of 0 [(1%nat, 0)] = seqZ 0 1.
Proof.
  split; [vm_compute; discriminate|].
  apply (proj2 (queue_threads_correct ITEMS 2 2 (mkQ [(1%nat, 0)] [1; 1] [Testing; Testing] [(0%nat, 0)]) ltac:(vm_compute; discriminate)))
    with (p := 0%nat) (i := 1); [|reflexivity].
  eapply rtc_l; [by apply (cv_produce ITEMS (cv_start 2 2) 0 0 [Testing; Testing]); [|vm_compute|apply cv_notify_none]|].
  eapply rtc_l; [by apply (cv_produce ITEMS (mkQ [(0%nat, 0)] [1; 0] [Testing; Testing] []) 1 0 [Testing; Testing]);
    [|vm_compute|apply cv_notify_none]|].
  apply rtc_once. by apply (cv_takes ITEMS (mkQ [(0%nat, 0); (1%nat, 0)] [1; 1] [Testing; Testing] []) 0 (0%nat, 0) [(1%nat, 0)]).
Defined.

(** In mutex.cpp the consumers may be scheduled before the producers: they find
    the queue empty and end, and everything that is produced stays in it. *)
Lemma mutex_consumes_nothing n : (0 ≤ n) → ∃ s,
  rtc (mutex_step n) (mutex_start 1 1) s ∧ prods s = [n] ∧ consumers s = [Finished] ∧ popped s = [].
Proof.
  intros Hn. assert (∀ k, (Z.of_nat k ≤ n) → ∃ s, rtc (mutex_step n) (mutex_start 1 1) s ∧
    prods s = [Z.of_nat k] ∧ consumers s = [Finished] ∧ popped s = []) as H.
  { induction k as [|k IH]; intros Hk.
    - eexists. split; [apply rtc_once; by apply (mx_consume n (mutex_start 1 1) 0)|done].
    - destruct IH as (s & Hr & Hp & Hc & Hpop); [lia|]. exists (producer_push 0 (Z.of_nat k) s). split.
      + eapply rtc_r; [done|]. apply mx_produce; [by rewrite Hp|lia].
      + simpl. rewrite Hp, Hc, Hpop. simpl. split; [f_equal; lia|done]. }
  destruct (H (Z.to_nat n) ltac:(lia)) as (s & Hr & Hp & Hc & Hpop). exists s. rewrite Z2Nat.id in Hp by lia. done.
Qed.

(** In the other two a consumer never ends: [main] does not return from its joins. *)
Lemma cv_consumers_never_end n np nc s : rtc (cv_step n) (cv_start np nc) s → Finished ∉ consumers s.
Proof.
  intros Hr. assert (Finished ∉ consumers (cv_start np nc)) as H0.
  { simpl. intros (j & Hj)%list_elem_of_lookup. by apply lookup_replicate in Hj as [? _]. }
  revert H0. induction Hr as [|s1 s2 s3 Hs _ IH]; [done|]. intros Hf. apply IH.
  assert (∀ s c d, d ≠ Finished → Finished ∉ consumers s → Finished ∉ <[c := d]> (consumers s)) as Hins.
  { clear. intros s c d Hd Hn (j & Hj)%list_elem_of_lookup. apply list_lookup_insert_Some in Hj as [(_ & ? & _)|[_ Hj]]; [congruence|].
    by apply Hn, list_elem_of_lookup_2 with j. }
  destruct Hs as [s p i cs _ _ []| | |]; simpl; try done; by apply Hins.
Qed.
