(* ===== verification/CondWait.v ===== *)
(** * concurrency/producerConsumer/producerConsumer.c

    One consumer and several producers around a buffer of 24 characters.  The
    producers test [i < MAX] without the mutex; the consumer waits for a signal
    without looking at the buffer.  A step is a test, a critical section or a
    (possibly spurious) wake-up. *)

From stdpp Require Import base list numbers relations.
From Stdlib Require Import ZArith Lia.
From S2P Require Import Prelude.

Definition MAX : Z := 50.
Definition BUFLEN : Z := 24.

(** "hello world!" *)
Definition source : list Z := [104; 101; 108; 108; 111; 32; 119; 111; 114; 108; 100; 33; 0] ++ replicate 11 0.
Definition buflen : Z := 12.

Inductive cthread := ConsumerStarts | ConsumerWaits | ConsumerWoken | ConsumerDone.
Inductive pthread := ProducerTests | ProducerPassed | ProducerDone.

Record pc_state := mkPC {
  buffer : list Z; rCount : Z; wCount : Z; i : Z; j : Z; cons : cthread; prods : list pthread; consumed : list Z
}.

(** The consumer, from the test of its loop to [pthread_cond_wait] or its end. *)
Definition consumer_test (j : Z) : cthread := if j <? MAX then ConsumerWaits else ConsumerDone.

(** ... and from the return of [pthread_cond_wait] to the next test. *)
Definition consumer_takes (s : pc_state) : outcome pc_state :=
  v ← vget (buffer s) (rCount s);
  j' ← int (j s + 1);
  Ret (mkPC (buffer s) (Z.rem (rCount s + 1) BUFLEN) (wCount s) (i s) j' (consumer_test j') (prods s) (consumed s ++ [v])).

(** The critical section of a producer, up to its signal. *)
Definition producer_puts (s : pc_state) : outcome pc_state :=
  b ← vset (buffer s) 0 0;
  c ← vget source (Z.rem (wCount s) buflen);
  b ← vset b (wCount s) c;
  i' ← int (i s + 1);
  Ret (mkPC b (rCount s) (Z.rem (wCount s + 1) BUFLEN) i' (j s) (cons s) (prods s) (consumed s)).

Definition signal_nonEmpty (s : pc_state) : pc_state :=
  mkPC (buffer s) (rCount s) (wCount s) (i s) (j s)
    (match cons s with ConsumerWaits => ConsumerWoken | c => c end) (prods s) (consumed s).
Definition set_cons (c : cthread) (s : pc_state) : pc_state :=
  mkPC (buffer s) (rCount s) (wCount s) (i s) (j s) c (prods s) (consumed s).
Definition set_prod (p : nat) (t : pthread) (s : pc_state) : pc_state :=
  mkPC (buffer s) (rCount s) (wCount s) (i s) (j s) (cons s) (<[p := t]> (prods s)) (consumed s).

Inductive pc_step : pc_state → pc_state → Prop :=
  | pc_cons_starts s : cons s = ConsumerStarts → pc_step s (set_cons (consumer_test (j s)) s)
  | pc_cons_spurious s : cons s = ConsumerWaits → pc_step s (set_cons ConsumerWoken s)
  | pc_cons_takes s s' : cons s = ConsumerWoken → consumer_takes s = Ret s' → pc_step s s'
  | pc_prod_tests s p : prods s !! p = Some ProducerTests →
      pc_step s (set_prod p (if i s <? MAX then ProducerPassed else ProducerDone) s)
  | pc_prod_puts s p s' : prods s !! p = Some ProducerPassed → producer_puts s = Ret s' →
      pc_step s (set_prod p ProducerTests (signal_nonEmpty s')).

Definition pc_start (np : nat) : pc_state :=
  mkPC (replicate 24 0) 0 0 0 0 ConsumerStarts (replicate np ProducerTests) [].

Definition passed (t : pthread) : bool := match t with ProducerPassed => true | _ => false end.

Record pc_inv (np : nat) (s : pc_state) : Prop := {
  pc_buf : length (buffer s) = 24%nat;
  pc_r : 0 ≤ rCount s < BUFLEN;
  pc_w : 0 ≤ wCount s < BUFLEN;
  pc_np : length (prods s) = np;
  pc_i : 0 ≤ i s ∧ i s + Z.of_nat (countb passed (prods s)) ≤ MAX - 1 + Z.of_nat np;
  pc_j : 0 ≤ j s ∧ j s = Z.of_nat (length (consumed s));
  pc_c : match cons s with ConsumerDone => j s = MAX | ConsumerStarts => j s = 0 | _ => j s < MAX end
}.

Lemma pc_rem x : 0 ≤ x < BUFLEN → 0 ≤ Z.rem (x + 1) BUFLEN < BUFLEN.
Proof. intros H. apply Z.rem_bound_pos; unfold BUFLEN in *; lia. Qed.

Lemma countb_le {A} (p : A → bool) l : (countb p l ≤ length l)%nat.
Proof. induction l as [|x l IH]; simpl; [done|]. destruct (p x); simpl; lia. Qed.

Lemma int_nonneg z : 0 ≤ z ≤ INT_MAX → int z = Ret z.
Proof.
  intros H. unfold int. assert (int_ok z = true) as ->; [|done]. unfold int_ok, INT_MIN. rewrite andb_true_iff, !Z.leb_le.
  unfold INT_MAX in *. lia.
Qed.

(** Both critical sections stay inside their arrays. *)
Lemma consumer_takes_ok np s : pc_inv np s → cons s = ConsumerWoken →
  ∃ s', consumer_takes s = Ret s' ∧ pc_inv np s'.
Proof.
  intros [Hb Hr Hw Hnp Hi Hj Hc] Hs. rewrite Hs in Hc. unfold consumer_takes.
  destruct (vget_total (buffer s) (rCount s)) as (v & -> & _); [rewrite Hb; unfold BUFLEN in *; lia|]. cbn [mbind outcome_bind].
  rewrite int_nonneg by (unfold MAX, INT_MAX in *; lia). cbn [mbind outcome_bind].
  eexists. split; [done|]. split; simpl; try done; [by apply pc_rem|rewrite length_app; simpl; lia|].
  unfold consumer_test. destruct (Z.ltb_spec (j s + 1) MAX); lia.
Qed.

Lemma producer_puts_ok np p s : Z.of_nat np ≤ 1000 → pc_inv np s → prods s !! p = Some ProducerPassed →
  ∃ s', producer_puts s = Ret s' ∧ pc_inv np (set_prod p ProducerTests (signal_nonEmpty s')).
Proof.
  intros Hlim [Hb Hr Hw Hnp Hi Hj Hc] Hp. unfold producer_puts. pose proof (countb_insert passed _ _ _ ProducerTests Hp) as Hcnt.
  simpl in Hcnt. rewrite vset_total by (rewrite Hb; lia). cbn [mbind outcome_bind].
  assert (0 ≤ Z.rem (wCount s) buflen < 24) as Hrem.
  { pose proof (Z.rem_bound_pos (wCount s) buflen ltac:(lia) ltac:(unfold buflen; lia)). unfold buflen in *. lia. }
  destruct (vget_total source (Z.rem (wCount s) buflen)) as (c & -> & _); [done|]. cbn [mbind outcome_bind].
  rewrite vset_total by (rewrite length_insert, Hb; unfold BUFLEN in *; lia). cbn [mbind outcome_bind].
  rewrite int_nonneg by (unfold MAX, INT_MAX in *; lia). cbn [mbind outcome_bind].
  eexists. split; [done|]. split; cbn [buffer rCount wCount i j cons prods consumed set_prod signal_nonEmpty]; try done.
  - by rewrite !length_insert.
  - by apply pc_rem.
  - by rewrite length_insert.
  - lia.
  - destruct (cons s); done.
Qed.

Lemma pc_inv_step np s s' : Z.of_nat np ≤ 1000 → pc_inv np s → pc_step s s' → pc_inv np s'.
Proof.
  intros Hlim Hinv Hs. pose proof Hinv as [Hb Hr Hw Hnp Hi Hj Hc]. destruct Hs as [s Hcs|s Hcs|s s' Hcs E|s p Hp|s p s' Hp E].
  - rewrite Hcs in Hc. split; simpl; try done. unfold consumer_test. rewrite Hc. done.
  - rewrite Hcs in Hc. by split.
  - destruct (consumer_takes_ok np s Hinv Hcs) as (s2 & E2 & H2). assert (s2 = s') as -> by congruence. done.
  - split; simpl; try done; [by rewrite length_insert|].
    destruct (Z.ltb_spec (i s) MAX) as [Hlt|Hge]; pose proof (countb_insert passed _ _ _ (if i s <? MAX then ProducerPassed else ProducerDone) Hp) as Hcnt.
    + rewrite (proj2 (Z.ltb_lt _ _) Hlt) in Hcnt. simpl in Hcnt.
      pose proof (countb_le passed (<[p := ProducerPassed]> (prods s))) as Hle. rewrite length_insert in Hle. lia.
    + rewrite (proj2 (Z.ltb_ge _ _) Hge) in Hcnt. simpl in Hcnt. lia.
  - destruct (producer_puts_ok np p s Hlim Hinv Hp) as (s2 & E2 & H2). assert (s2 = s') as -> by congruence. done.
Qed.

Lemma pc_reachable np s : Z.of_nat np ≤ 1000 → rtc pc_step (pc_start np) s → pc_inv np s.
Proof.
  intros Hlim Hr. assert (pc_inv np (pc_start np)) as H0.
  { split; simpl; try done; [apply length_replicate|]. split; [lia|].
    assert (countb passed (replicate np ProducerTests) = 0%nat) as -> by (clear; induction np; done). unfold MAX. lia. }
  revert H0. induction Hr as [|s1 s2 s3 Hs _ IH]; [done|]. intros Hin. apply IH. by eapply pc_inv_step.
Qed.

(** With two producers, in every interleaving: the indices stay inside the
    buffer and no critical section leaves an array, at most 51 characters are
    produced (one more than [MAX], because the test is not under the mutex) and
    at most 50 consumed, and the consumer ends exactly after 50. *)
Theorem producer_consumer_bounds s : rtc pc_step (pc_start 2) s →
  0 ≤ rCount s < BUFLEN ∧ 0 ≤ wCount s < BUFLEN ∧ 0 ≤ i s ≤ MAX + 1 ∧ Z.of_nat (length (consumed s)) ≤ MAX ∧
  (cons s = ConsumerDone → Z.of_nat (length (consumed s)) = MAX) ∧
  (cons s = ConsumerWoken → ∃ s', consumer_takes s = Ret s') ∧
  (∀ p, prods s !! p = Some ProducerPassed → ∃ s', producer_puts s = Ret s').
Proof.
  intros Hr. pose proof (pc_reachable 2 s ltac:(lia) Hr) as Hinv. pose proof Hinv as [Hb Hrc Hw Hnp Hi Hj Hc].
  split_and!; try lia.
  - destruct (cons s); unfold MAX in *; lia.
  - intros E. rewrite E in Hc. lia.
  - intros E. destruct (consumer_takes_ok 2 s Hinv E) as (s' & ? & _). eauto.
  - intros p Hp. destruct (producer_puts_ok 2 p s ltac:(lia) Hinv Hp) as (s' & ? & _). eauto.
Qed.

Lemma producer_consumer_bounds_witness : 0 ≤ wCount (set_cons ConsumerWaits (pc_start 2)) < BUFLEN.
Proof.
  apply (producer_consumer_bounds (set_cons ConsumerWaits (pc_start 2))). apply rtc_once.
  by apply (pc_cons_starts (pc_start 2)).
Defined.

(** ** Lost signals *)

(** [n] rounds of one producer while the consumer has not started. *)
Lemma produce_rounds n : Z.of_nat n ≤ MAX → ∃ s, rtc pc_step (pc_start 1) s ∧ i s = Z.of_nat n ∧ j s = 0 ∧
  cons s = ConsumerStarts ∧ prods s = [ProducerTests].
Proof.
  induction n as [|n IH]; intros Hn; [exists (pc_start 1); split; [apply rtc_refl|done]|].
  destruct IH as (s & Hr & Hi & Hj & Hc & Hp); [lia|].
  assert (rtc pc_step (pc_start 1) (set_prod 0 ProducerPassed s)) as Hr1.
  { eapply rtc_r; [done|]. pose proof (pc_prod_tests s 0) as Ht. rewrite (proj2 (Z.ltb_lt _ _)) in Ht by lia. apply Ht. by rewrite Hp. }
  pose proof (pc_reachable 1 _ ltac:(lia) Hr1) as Hinv.
  destruct (producer_puts_ok 1 0 (set_prod 0 ProducerPassed s) ltac:(lia) Hinv) as (s' & E & _); [simpl; by rewrite Hp|].
  exists (set_prod 0 ProducerTests (signal_nonEmpty s')). split.
  - eapply rtc_r; [done|]. eapply pc_prod_puts; [simpl; by rewrite Hp|done].
  - unfold producer_puts in E. apply bind_Ret_inv in E as (b & _ & E). apply bind_Ret_inv in E as (c & _ & E).
    apply bind_Ret_inv in E as (b2 & _ & E). apply bind_Ret_inv in E as (i' & Ei & [= <-]). simpl in *.
    rewrite int_nonneg in Ei by (unfold MAX, INT_MAX in *; lia). injection Ei as <-. rewrite Hc, Hp, Hi. split; [lia|done].
Qed.

(** If the producer is done before the consumer waits, nobody signals any more:
    the consumer is blocked for ever and [main] does not return. *)
Lemma consumer_misses_signals : ∃ s, rtc pc_step (pc_start 1) s ∧ cons s = ConsumerWaits ∧ prods s = [ProducerDone] ∧
  ∀ s', pc_step s s' → s' = set_cons ConsumerWoken s.
Proof.
  destruct (produce_rounds 50 ltac:(done)) as (s & Hr & Hi & Hj & Hc & Hp).
  exists (set_cons ConsumerWaits (set_prod 0 ProducerDone s)). split; [|split; [done|split; [simpl; by rewrite Hp|]]].
  - eapply rtc_r; [eapply rtc_r; [done|]|].
    + pose proof (pc_prod_tests s 0) as Ht. rewrite Hi in Ht. apply Ht. by rewrite Hp.
    + pose proof (pc_cons_starts (set_prod 0 ProducerDone s) Hc) as Ht. simpl in Ht. rewrite Hj in Ht. done.
  - intros s' Hs. inversion Hs as [? E|? E|? ? E|? p E|? p ? E]; subst; simpl in E; try done; rewrite Hp in E; by destruct p.
Qed.

(** Every production clears the first character: unless it is written itself,
    the consumer reads the empty character there. *)
Lemma producer_clears_first s s' : producer_puts s = Ret s' → wCount s ≠ 0 → 0 ≤ wCount s → buffer s' !! 0%nat = Some 0.
Proof.
  intros E Hw Hw0. unfold producer_puts in E. apply bind_Ret_inv in E as (b & Eb & E). apply bind_Ret_inv in E as (c & _ & E).
  apply bind_Ret_inv in E as (b2 & Eb2 & E). apply bind_Ret_inv in E as (i' & _ & [= <-]). simpl.
  apply vset_Ret in Eb as [Hl ->]. apply vset_Ret in Eb2 as [_ ->]. rewrite list_lookup_insert_ne by lia.
  apply list_lookup_insert_eq. lia.
Qed.
