(* ===== verification/Singletons.v ===== *)
(** * singleton/singleton_manual_thread_safe.cpp and singleton_no_thread_safe.cpp

    The static pointer [ptr] of the class, the instances that have been created
    and not destroyed, and threads that run [work].  With the mutex a critical
    section is one step, and the [return ptr] after it another; without it the
    test and the assignment are steps of their own. *)

From stdpp Require Import base list gmap numbers relations.
From Stdlib Require Import ZArith Lia.
From S2P Require Import Prelude.

(** Instances are numbered in the order of their creation. *)
Record singleton := mkS { ptr : option nat; live : gset nat; created : nat; destroyed : nat }.

Definition new_instance (s : singleton) : singleton :=
  mkS (Some (created s)) ({[created s]} ∪ live s) (S (created s)) (destroyed s).

(** [delete] of an instance that is not alive is undefined. *)
Definition delete_instance (p : nat) (s : singleton) : outcome singleton :=
  if bool_decide (p ∈ live s) then Ret (mkS (ptr s) (live s ∖ {[p]}) (created s) (S (destroyed s))) else Err DanglingPtr.

(** ** With the mutex *)

Definition CreateInstance (s : singleton) : singleton :=
  match ptr s with None => new_instance s | Some _ => s end.

Definition DestroyInstance (s : singleton) : outcome singleton :=
  s ← match ptr s with Some p => delete_instance p s | None => Ret s end;
  Ret (mkS None (live s) (created s) (destroyed s)).

(** [Holds r]: [CreateInstance] has returned [r]. *)
Inductive worker := Starts | Created | Holds (r : option nat) | Ends.

Inductive locked_step : singleton * list worker → singleton * list worker → Prop :=
  | lk_create s ws i : ws !! i = Some Starts → locked_step (s, ws) (CreateInstance s, <[i := Created]> ws)
  | lk_return s ws i : ws !! i = Some Created → locked_step (s, ws) (s, <[i := Holds (ptr s)]> ws)
  | lk_destroy s s' ws i r : ws !! i = Some (Holds r) → DestroyInstance s = Ret s' →
      locked_step (s, ws) (s', <[i := Ends]> ws).

Definition no_instance : singleton := mkS None ∅ 0 0.
Definition locked_start (n : nat) : singleton * list worker := (no_instance, replicate n Starts).

(** The one live instance is the one that [ptr] points to. *)
Record single (s : singleton) : Prop := {
  si_live x : x ∈ live s ↔ ptr s = Some x;
  si_new x : x ∈ live s → (x < created s)%nat;
  si_count : created s = (destroyed s + size (live s))%nat
}.

Lemma single_size s : single s → (size (live s) ≤ 1)%nat ∧ (ptr s = None → live s = ∅).
Proof.
  intros [Hl _ _]. assert (ptr s = None → live s = ∅) as Hn.
  { intros E. apply set_eq. intros x. rewrite Hl, E. set_solver. }
  split; [|done]. destruct (ptr s) as [p|] eqn:E; [|rewrite Hn, size_empty by done; lia].
  assert (live s = {[p]}) as ->; [|rewrite size_singleton; lia]. apply set_eq. intros x. rewrite Hl, elem_of_singleton. split; congruence.
Qed.

Lemma CreateInstance_single s : single s → single (CreateInstance s).
Proof.
  intros Hs. pose proof (single_size s Hs) as [_ Hn]. pose proof Hs as [Hl Hne Hc]. unfold CreateInstance.
  destruct (ptr s) as [p|] eqn:E; [done|]. specialize (Hn eq_refl). split; simpl.
  - intros x. rewrite elem_of_union, elem_of_singleton, Hl. split; [intros [->|?]; congruence|intros [= ->]; by left].
  - intros x. rewrite Hn. set_solver by lia.
  - rewrite Hn, Hc, Hn, (right_id_L ∅ (∪)), size_singleton, size_empty. lia.
Qed.

Lemma DestroyInstance_single s : single s → ∃ s', DestroyInstance s = Ret s' ∧ single s' ∧ live s' = ∅ ∧ created s' = created s.
Proof.
  intros Hs. pose proof (single_size s Hs) as [_ Hn]. destruct Hs as [Hl Hne Hc]. unfold DestroyInstance.
  destruct (ptr s) as [p|] eqn:E; simpl.
  - unfold delete_instance. rewrite bool_decide_eq_true_2 by (by apply Hl). simpl.
    assert (live s ∖ {[p]} = ∅) as Hempty by (apply set_eq; intros x; rewrite elem_of_difference, Hl; set_solver).
    eexists. split; [done|]. split; [|done]. simpl. split; simpl; [rewrite Hempty; set_solver|rewrite Hempty; set_solver|].
    assert (live s = {[p]}) as Hp; [|rewrite Hc, Hp, size_singleton, difference_diag_L, size_empty; lia].
    apply set_eq. intros x. rewrite Hl, elem_of_singleton. split; congruence.
  - specialize (Hn eq_refl). eexists. split; [done|]. simpl. rewrite Hn in *. split; [|done]. split; simpl; [set_solver|set_solver|done].
Qed.

Definition pending (w : worker) : bool := match w with Created | Holds _ => true | _ => false end.

Definition locked_ok (c : singleton * list worker) : Prop :=
  single c.1 ∧ (live c.1 ≠ ∅ → (0 < countb pending c.2)%nat).

Lemma locked_ok_start n : locked_ok (locked_start n).
Proof. split; [|done]. split; simpl; [set_solver|set_solver|reflexivity]. Qed.

Lemma locked_ok_step c c' : locked_ok c → locked_step c c' → locked_ok c'.
Proof.
  intros [H1 H2] Hs. destruct Hs as [s ws i Hi|s ws i Hi|s s' ws i r Hi Ed]; simpl in *.
  - split; [by apply CreateInstance_single|]. intros _. pose proof (countb_insert pending _ _ _ Created Hi). simpl in *. lia.
  - split; [done|]. intros Hne. pose proof (countb_insert pending _ _ _ (Holds (ptr s)) Hi). specialize (H2 Hne). simpl in *. lia.
  - destruct (DestroyInstance_single s H1) as (s2 & E2 & Hs2 & Hl2 & _). assert (s2 = s') as -> by congruence.
    split; [done|]. simpl. by rewrite Hl2.
Qed.

Lemma locked_inv n c : rtc locked_step (locked_start n) c → locked_ok c.
Proof. intros Hr. pose proof (locked_ok_start n) as H. revert H. induction Hr; eauto using locked_ok_step. Qed.

Lemma locked_all_ended s ws : locked_ok (s, ws) → (∀ i w, ws !! i = Some w → w = Ends) →
  created s = destroyed s ∧ ptr s = None.
Proof.
  intros [[Hl _ Hc] Hp] Hall. simpl in *.
  assert (countb pending ws = 0%nat) as Hz by (apply countb_zero; intros i w Hi; by rewrite (Hall i w Hi)).
  assert (live s = ∅) as He.
  { destruct (decide (live s = ∅)) as [|Hne]; [done|]. specialize (Hp Hne). lia. }
  rewrite Hc, He, size_empty. split; [lia|]. destruct (ptr s) as [p|] eqn:E; [|done].
  assert (p ∈ live s) as Hin by (by apply Hl). rewrite He in Hin. by apply elem_of_empty in Hin.
Qed.

(** With the mutex, in every interleaving of any number of threads that
    create and destroy: at most one instance is alive, and it is the one [ptr]
    points to; no instance is destroyed twice, [DestroyInstance] never deletes
    a dead one, and when all threads have ended everything that was created has
    been destroyed. *)
Theorem singleton_correct n s ws : rtc locked_step (locked_start n) (s, ws) →
  (size (live s) ≤ 1)%nat ∧ (∀ x, x ∈ live s ↔ ptr s = Some x) ∧ created s = (destroyed s + size (live s))%nat ∧
  (∃ s', DestroyInstance s = Ret s') ∧
  ((∀ i w, ws !! i = Some w → w = Ends) → created s = destroyed s ∧ ptr s = None).
Proof.
  intros Hr. pose proof (locked_inv n _ Hr) as Hok. pose proof Hok as [Hs _]. pose proof (single_size s Hs) as [H1 _].
  pose proof Hs as [Hl _ Hc]. split_and!; try done.
  - destruct (DestroyInstance_single s Hs) as (s' & ? & _). eauto.
  - by apply locked_all_ended.
Qed.

Definition one_instance : singleton := mkS (Some 0%nat) {[0%nat]} 1 0.
Lemma singleton_correct_witness : (size (live one_instance) ≤ 1)%nat ∧ created one_instance = (destroyed one_instance + size (live one_instance))%nat.
Proof.
  destruct (singleton_correct 2 one_instance [Created; Starts]) as (H1 & _ & H2 & _); [|by split].
  apply rtc_once. replace one_instance with (CreateInstance no_instance) by (vm_compute; reflexivity).
  by apply (lk_create no_instance (replicate 2 Starts) 0).
Defined.

(** [return ptr] reads the pointer after the mutex has been released: another
    thread can destroy the instance in between and the caller gets null, or
    after it and the caller holds a dead instance. *)
Lemma create_returns_dead :
  (∃ s, rtc locked_step (locked_start 2) (s, [Holds None; Ends])) ∧
  (∃ s, rtc locked_step (locked_start 2) (s, [Holds (Some 0%nat); Ends]) ∧ live s = ∅).
Proof.
  assert (∃ d, DestroyInstance (CreateInstance no_instance) = Ret d ∧ ptr d = None ∧ live d = ∅) as (d & Ed & Hp & Hl).
  { eexists. split; [reflexivity|]. split; [reflexivity|]. vm_compute. reflexivity. }
  assert (rtc locked_step (locked_start 2) (CreateInstance no_instance, [Created; Created])) as Hr.
  { eapply rtc_l; [by apply (lk_create no_instance (replicate 2 Starts) 0)|]. apply rtc_once.
    by apply (lk_create (CreateInstance no_instance) [Created; Starts] 1). }
  split; exists d.
  - etransitivity; [exact Hr|]. eapply rtc_l; [by apply (lk_return (CreateInstance no_instance) [Created; Created] 1)|].
    eapply rtc_l; [by apply (lk_destroy (CreateInstance no_instance) d [Created; Holds (Some 0%nat)] 1 (Some 0%nat))|].
    apply rtc_once. pose proof (lk_return d [Created; Ends] 0 eq_refl) as Hs. by rewrite Hp in Hs.
  - split; [|done]. etransitivity; [exact Hr|]. eapply rtc_l; [by apply (lk_return (CreateInstance no_instance) [Created; Created] 0)|].
    eapply rtc_l; [by apply (lk_return (CreateInstance no_instance) [Holds (Some 0%nat); Created] 1)|].
    apply rtc_once. by apply (lk_destroy (CreateInstance no_instance) d [Holds (Some 0%nat); Holds (Some 0%nat)] 1 (Some 0%nat)).
Qed.

(** ** Without the mutex *)

(** [Decided]: has found [ptr == nullptr]. *)
Inductive racer := Enters | Decided | Got (r : option nat).

Inductive racy_step : singleton * list racer → singleton * list racer → Prop :=
  | rc_test s ws i : ws !! i = Some Enters → ptr s = None → racy_step (s, ws) (s, <[i := Decided]> ws)
  | rc_skip s ws i : ws !! i = Some Enters → ptr s ≠ None → racy_step (s, ws) (s, <[i := Got (ptr s)]> ws)
  | rc_new s ws i : ws !! i = Some Decided → racy_step (s, ws) (new_instance s, <[i := Got (Some (created s))]> ws).

(** One thread alone gets one instance, and calls that do not overlap share it. *)
Lemma sequential_single s i ws : ws !! i = Some Enters → single s →
  ∃ s' r, rtc racy_step (s, ws) (s', <[i := Got r]> ws) ∧ s' = CreateInstance s ∧ r = ptr (CreateInstance s).
Proof.
  intros Hi Hs. unfold CreateInstance. destruct (ptr s) as [p|] eqn:E.
  - exists s, (Some p). split; [|by rewrite E]. apply rtc_once. rewrite <- E. apply rc_skip; congruence.
  - exists (new_instance s), (Some (created s)). split; [|done]. eapply rtc_l; [by apply rc_test|]. apply rtc_once.
    pose proof (rc_new s (<[i := Decided]> ws) i) as Hn. rewrite list_insert_insert_eq in Hn. apply Hn.
    apply list_lookup_insert_eq. by eapply lookup_lt_Some.
Qed.

(** Two threads that both find the null pointer create two instances; the first
    is never destroyed, since [ptr] no longer points to it. *)
Lemma racy_two_instances : ∃ s, rtc racy_step (no_instance, [Enters; Enters]) (s, [Got (Some 0%nat); Got (Some 1%nat)]) ∧
  live s = {[0%nat; 1%nat]} ∧ ptr s = Some 1%nat.
Proof.
  eexists. split.
  - eapply rtc_l; [by apply (rc_test no_instance [Enters; Enters] 0)|]. eapply rtc_l; [by apply (rc_test no_instance [Decided; Enters] 1)|].
    eapply rtc_l; [by apply (rc_new no_instance [Decided; Decided] 0)|]. apply rtc_once.
    by apply (rc_new (new_instance no_instance) [Got (Some 0%nat); Decided] 1).
  - vm_compute. split; reflexivity.
Qed.
