(* ===== verification/Posix.v ===== *)
(** * System calls

    The programs under pollMechanisms/ are made of system calls.  A program is
    a tree that asks the operating system for an [answer] after each [call];
    the operating system itself is not modelled: every answer that its manual
    allows ([documented]) is possible.  What is modelled is what the program
    may rely on about its file descriptors ([os]), and which calls make sense
    in which state ([legal]).  [run] executes a program against a script of
    answers; [wp] is the weakest precondition that the theorems about all
    scripts are proved with, in the number of answers that are still to come. *)

From stdpp Require Import base list gmap numbers strings.
From Stdlib Require Import ZArith Lia.
From S2P Require Import Prelude.

(** ** Calls and answers *)

Definition EPOLLIN : Z := 1.
Definition EPOLLERR : Z := 8.
Definition EPOLLHUP : Z := 16.
Definition EPOLLET : Z := 2 ^ 31.
Definition O_NONBLOCK : Z := 2048.

Inductive family := AF_NETLINK | AF_UNIX.
Inductive sockaddr := sockaddr_nl (groups : Z) | sockaddr_un.

Inductive call :=
  | epoll_create1
  | socket (f : family)
  | bind (fd : Z) (a : sockaddr)
  | listen (fd backlog : Z)
  | fcntl_GETFL (fd : Z)
  | fcntl_SETFL (fd flags : Z)
  | unlink
  | timerfd_create
  | timerfd_settime (fd sec : Z)
  | sigprocmask
  | signalfd
  | epoll_ctl_ADD (epfd fd events : Z)
  | epoll_wait (epfd maxevents : Z)
  | accept (fd : Z)
  | recv (fd size : Z)
  | read (fd size : Z)
  | close (fd : Z).

Inductive errno_t := EAGAIN | EWOULDBLOCK | EINTR | EOTHER.
#[export] Instance errno_eq_dec : EqDecision errno_t.
Proof. solve_decision. Defined.

(** [events]: what [epoll_wait] reports, descriptor and event mask; [types]: the
    types of the messages in a netlink datagram. *)
Record answer := mkAnswer { ret : Z; errno : errno_t; events : list (Z * Z); types : list Z }.
Definition returns (r : Z) : answer := mkAnswer r EOTHER [] [].
Definition fails (e : errno_t) : answer := mkAnswer (-1) e [] [].

(** ** Descriptors *)

Inductive kind := Epoll | Netlink | UnixSocket | Timer | Signal | Client | Other.
#[export] Instance kind_eq_dec : EqDecision kind.
Proof. solve_decision. Defined.

Inductive sock_state := Unbound | Bound | Listening.
#[export] Instance sock_state_eq_dec : EqDecision sock_state.
Proof. solve_decision. Defined.

(** [d_edge]: an edge-triggered event has been reported and the descriptor has
    not been read empty since; no further event comes for what is left. *)
Record desc := mkDesc { d_kind : kind; d_state : sock_state; d_nonblock : bool; d_edge : bool }.
#[export] Instance desc_eq_dec : EqDecision desc.
Proof. solve_decision. Defined.

Definition is_kind (k : kind) (d : desc) : bool := bool_decide (d_kind d = k).

Inductive output :=
  | Perror (what : string)
  | NetlinkMessage (type : Z)
  | NetlinkError
  | AcceptedClient (fd : Z)
  | ClientRead (fd n : Z)
  | ClientClosed (fd : Z)
  | TimerFired
  | SignalReceived.

Record os := mkOs { fds : gmap Z desc; interest : gmap Z Z; log : list output }.

Definition set_fds (f : gmap Z desc → gmap Z desc) (o : os) : os := mkOs (f (fds o)) (interest o) (log o).
Definition set_desc (fd : Z) (f : desc → desc) : os → os := set_fds (alter f fd).
Definition logged (m : output) (o : os) : os := mkOs (fds o) (interest o) (log o ++ [m]).

Definition open_as (o : os) (fd : Z) (p : desc → bool) : bool :=
  match fds o !! fd with Some d => p d | None => false end.

(** ** What a call needs *)

Definition legal (o : os) (c : call) : bool :=
  match c with
  | epoll_create1 | socket _ | unlink | timerfd_create | sigprocmask | signalfd => true
  | bind fd (sockaddr_nl _) => open_as o fd (λ d, is_kind Netlink d && bool_decide (d_state d = Unbound))
  | bind fd sockaddr_un => open_as o fd (λ d, is_kind UnixSocket d && bool_decide (d_state d = Unbound))
  | listen fd _ => open_as o fd (λ d, is_kind UnixSocket d && bool_decide (d_state d = Bound))
  | fcntl_GETFL fd | fcntl_SETFL fd _ => open_as o fd (λ _, true)
  | timerfd_settime fd _ => open_as o fd (is_kind Timer)
  | epoll_ctl_ADD epfd fd _ => open_as o epfd (is_kind Epoll) && open_as o fd (λ _, true)
  | epoll_wait epfd maxevents =>
      open_as o epfd (is_kind Epoll) && (0 <? maxevents) && forallb (λ p, negb (d_edge (p.2))) (map_to_list (fds o))
  | accept fd => open_as o fd (λ d, is_kind UnixSocket d && bool_decide (d_state d = Listening) && d_nonblock d)
  | recv fd size => (0 <? size) && open_as o fd (λ d, is_kind Netlink d && bool_decide (d_state d = Bound) && d_nonblock d)
  | read fd size => (0 <? size) &&
      open_as o fd (λ d, is_kind Client d || ((is_kind Timer d || is_kind Signal d) && d_nonblock d))
  | close fd => open_as o fd (λ _, true)
  end.

(** ** What the manual says about the answer *)

Definition new_fd (o : os) (r : Z) : bool := (r =? -1) || ((0 <=? r) && bool_decide (fds o !! r = None)).

Definition reported_event (o : os) (e : Z * Z) : bool :=
  match interest o !! e.1 with
  | Some _ => bool_decide (is_Some (fds o !! e.1)) && negb (Z.land e.2 (Z.lor EPOLLIN (Z.lor EPOLLHUP EPOLLERR)) =? 0)
  | None => false
  end.

Definition documented (o : os) (c : call) (a : answer) : bool :=
  match c with
  | epoll_create1 | socket _ | timerfd_create | signalfd | accept _ => new_fd o (ret a)
  | epoll_wait _ maxevents =>
      (ret a =? -1) ||
      ((ret a =? Z.of_nat (length (events a))) && (ret a <=? maxevents) &&
       bool_decide (NoDup ((events a).*1)) && forallb (reported_event o) (events a))
  | recv _ size | read _ size => (-1 <=? ret a) && (ret a <=? size)
  | _ => -1 <=? ret a
  end.

(** ** What a call changes *)

Definition fresh_desc (k : kind) (nonblock : bool) : desc := mkDesc k Unbound nonblock false.
Definition opened (a : answer) (d : desc) (o : os) : os := if ret a =? -1 then o else set_fds (insert (ret a) d) o.
Definition when_ok (a : answer) (f : os → os) (o : os) : os := if ret a =? -1 then o else f o.

Definition to_state (s : sock_state) (d : desc) : desc := mkDesc (d_kind d) s (d_nonblock d) (d_edge d).
Definition to_nonblock (b : bool) (d : desc) : desc := mkDesc (d_kind d) (d_state d) b (d_edge d).
Definition to_edge (b : bool) (d : desc) : desc := mkDesc (d_kind d) (d_state d) (d_nonblock d) b.

Definition edge_triggered (o : os) (fd : Z) : bool :=
  match interest o !! fd with Some m => negb (Z.land m EPOLLET =? 0) | None => false end.
Definition report (o : os) (e : Z * Z) : os := if edge_triggered o (e.1) then set_desc (e.1) (to_edge true) o else o.

Definition after (o : os) (c : call) (a : answer) : os :=
  match c with
  | epoll_create1 => opened a (fresh_desc Epoll false) o
  | socket AF_NETLINK => opened a (fresh_desc Netlink false) o
  | socket AF_UNIX => opened a (fresh_desc UnixSocket false) o
  | timerfd_create => opened a (fresh_desc Timer true) o
  | signalfd => opened a (fresh_desc Signal true) o
  | accept _ => opened a (fresh_desc Client false) o
  | bind fd _ => when_ok a (set_desc fd (to_state Bound)) o
  | listen fd _ => when_ok a (set_desc fd (to_state Listening)) o
  | fcntl_SETFL fd flags => when_ok a (set_desc fd (to_nonblock (negb (Z.land flags O_NONBLOCK =? 0)))) o
  | epoll_ctl_ADD _ fd evs => when_ok a (λ o, mkOs (fds o) (<[fd := evs]> (interest o)) (log o)) o
  | epoll_wait _ _ => when_ok a (λ o, foldl report o (events a)) o
  | read fd _ => if (ret a =? -1) && bool_decide (errno a = EAGAIN ∨ errno a = EWOULDBLOCK)
                 then set_desc fd (to_edge false) o else o
  | close fd => mkOs (delete fd (fds o)) (delete fd (interest o)) (log o)
  | fcntl_GETFL _ | timerfd_settime _ _ | unlink | sigprocmask | recv _ _ => o
  end.

(** ** Programs *)

Inductive prog (A : Type) :=
  | Done (a : A)
  | OutFuel
  | Out (m : output) (p : prog A)
  | Sys (c : call) (k : answer → prog A).
Arguments Done {A} a.
Arguments OutFuel {A}.
Arguments Out {A} m p.
Arguments Sys {A} c k.

#[export] Instance prog_ret : MRet prog := @Done.
#[export] Instance prog_bind : MBind prog := λ A B f,
  fix go (p : prog A) : prog B :=
    match p with
    | Done a => f a
    | OutFuel => OutFuel
    | Out m p => Out m (go p)
    | Sys c k => Sys c (λ a, go (k a))
    end.

Definition sys (c : call) : prog answer := Sys c Done.
Definition print (m : output) : prog unit := Out m (Done tt).

Inductive result (A : Type) :=
  | Finished (a : A) (o : os)
  | Waiting (c : call) (o : os)     (* the script is over *)
  | Illegal (c : call)
  | NoFuel
  | Undocumented.
Arguments Finished {A} a o.
Arguments Waiting {A} c o.
Arguments Illegal {A} c.
Arguments NoFuel {A}.
Arguments Undocumented {A}.

(** The outputs of a program up to its next call. *)
Fixpoint flush {A} (p : prog A) (o : os) : prog A * os :=
  match p with Out m p => flush p (logged m o) | p => (p, o) end.

Fixpoint run {A} (script : list answer) (p : prog A) (o : os) : result A :=
  match flush p o with
  | (Done a, o) => Finished a o
  | (Sys c k, o) =>
      if legal o c then
        match script with
        | [] => Waiting c o
        | a :: script => if documented o c a then run script (k a) (after o c a) else Undocumented
        end
      else Illegal c
  | (_, _) => NoFuel
  end.

(** ** Weakest preconditions *)

Fixpoint wp {A} (n : nat) (p : prog A) (Q : A → os → Prop) (o : os) {struct p} : Prop :=
  match p with
  | Done a => Q a o
  | OutFuel => False
  | Out m p => wp n p Q (logged m o)
  | Sys c k => legal o c = true ∧
      match n with
      | O => True
      | S n => ∀ a, documented o c a = true → wp n (k a) Q (after o c a)
      end
  end.

Section Wp.
Context {A : Type}.
Implicit Types (p : prog A) (Q : A → os → Prop).

Lemma wp_down n p Q : ∀ n' o, (n' ≤ n)%nat → wp n p Q o → wp n' p Q o.
Proof.
  revert n. induction p as [a| |m p IH|c k IH]; intros n n' o Hle Hp; simpl in *; [done|done|by eapply IH|].
  destruct Hp as [Hl Hp]. split; [done|]. destruct n' as [|n']; [done|]. destruct n as [|n]; [lia|].
  intros a Ha. apply (IH a n); [lia|by apply Hp].
Qed.

Lemma wp_mono n p Q Q' o : (∀ a o, Q a o → Q' a o) → wp n p Q o → wp n p Q' o.
Proof.
  intros HQ. revert n o. induction p as [a| |m p IH|c k IH]; intros n o Hp; simpl in *; [by apply HQ|done|by apply IH|].
  destruct Hp as [Hl Hp]. split; [done|]. destruct n as [|n]; [done|]. intros a Ha. by apply IH, Hp.
Qed.

Lemma wp_flush n p Q o : wp n p Q o → wp n (flush p o).1 Q (flush p o).2 ∧
  match (flush p o).1 with Out _ _ => False | _ => True end.
Proof. revert o. induction p as [a| |m p IH|c k IH]; intros o Hp; simpl in *; auto. Qed.

(** A program with a weakest precondition neither makes an illegal call nor
    runs out of fuel, whatever the operating system answers. *)
Definition safe_result (Q : A → os → Prop) (r : result A) : Prop :=
  match r with
  | Finished a o => Q a o
  | Waiting _ _ | Undocumented => True
  | Illegal _ | NoFuel => False
  end.

Lemma wp_run n p Q o script : wp n p Q o → (length script ≤ n)%nat → safe_result Q (run script p o).
Proof.
  revert n p o. induction script as [|a script IH]; intros n p o Hp Hn; destruct (wp_flush n p Q o Hp) as [Hf Ho];
    unfold run; fold (@run A); destruct (flush p o) as [q o']; simpl in *; destruct q as [b| |m q|c k]; try done.
  - destruct Hf as [-> _]. done.
  - destruct Hf as [-> Hk]. destruct (documented o' c a) eqn:Ha; [|done]. destruct n as [|n]; [simpl in Hn; lia|].
    apply (IH n); [by apply Hk|simpl in Hn; lia].
Qed.
End Wp.

Lemma wp_bind {A B} n (p : prog B) (f : B → prog A) Q o :
  wp n p (λ b o, ∀ n', (n' ≤ n)%nat → wp n' (f b) Q o) o → wp n (p ≫= f) Q o.
Proof.
  revert n o. induction p as [a| |m p IH|c k IH]; intros n o Hp; simpl in *; [by apply Hp|done|by apply IH|].
  destruct Hp as [Hl Hp]. split; [done|]. destruct n as [|n]; [done|]. intros a Ha. apply IH.
  eapply wp_mono; [|by apply Hp]. intros b o' Hb n' Hn'. apply Hb. lia.
Qed.

(** The rule for one call. *)
Lemma wp_sys {A} n c (f : answer → prog A) Q o : legal o c = true →
  (∀ a n', n = S n' → documented o c a = true → wp n' (f a) Q (after o c a)) → wp n (sys c ≫= f) Q o.
Proof. intros Hl Hf. simpl. split; [done|]. destruct n as [|n]; [done|]. intros a Ha. by apply Hf. Qed.

Lemma open_as_true o fd d p : fds o !! fd = Some d → p d = true → open_as o fd p = true.
Proof. unfold open_as. by intros ->. Qed.

Lemma new_fd_true o r : new_fd o r = true → r = -1 ∨ (0 ≤ r ∧ fds o !! r = None).
Proof. unfold new_fd. rewrite orb_true_iff, andb_true_iff, Z.eqb_eq, Z.leb_le, bool_decide_eq_true. tauto. Qed.

Lemma opened_fails a d o : ret a = -1 → opened a d o = o.
Proof. unfold opened. by intros ->. Qed.
Lemma opened_ok a d o : 0 ≤ ret a → opened a d o = set_fds (insert (ret a) d) o.
Proof. unfold opened. intros. by rewrite (proj2 (Z.eqb_neq _ _)) by lia. Qed.
