(* ===== verification/Hostapd.v ===== *)
(** * pollMechanisms/epoll/hostapd.c

    The event loop over a netlink socket, a UNIX listener with its clients, a
    timer and a signal descriptor: the set-up functions with their error paths,
    the handlers and [main], as programs over the system calls of Posix.  The
    theorem is about the descriptors: whatever the system answers, every call
    is made on an open descriptor of the right kind and in the right state, an
    edge-triggered descriptor is read empty before the loop waits again, and
    [main] leaves no descriptor open except those named in the theorem. *)

From stdpp Require Import base list gmap numbers strings.
From Stdlib Require Import ZArith Lia.
From S2P Require Import Prelude Posix.

(** ** The program *)

Definition EPOLL_MAX_EVENTS : Z := 10.
Definition TIMER_INTERVAL_SEC : Z := 5.
Definition RTMGRP_LINK : Z := 1.
Definition RTMGRP_IPV4_IFADDR : Z := 16.
Definition RTMGRP_IPV6_IFADDR : Z := 256.
Definition NLMSG_ERROR : Z := 2.
Definition NLMSG_DONE : Z := 3.
Definition sizeof_expirations : Z := 8.
Definition sizeof_siginfo : Z := 128.

Definition again (e : errno_t) : bool := bool_decide (e = EAGAIN ∨ e = EWOULDBLOCK).

Definition make_nonblocking (fd : Z) : prog Z :=
  flags ← sys (fcntl_GETFL fd);
  if ret flags =? -1 then Done (-1) else
  r ← sys (fcntl_SETFL fd (Z.lor (ret flags) O_NONBLOCK));
  Done (ret r).

Definition fail_closing (what : string) (fd : Z) : prog Z :=
  _ ← print (Perror what); _ ← sys (close fd); Done (-1).

Definition setup_netlink_socket : prog Z :=
  s ← sys (socket AF_NETLINK);
  let nl := ret s in
  if nl <? 0 then _ ← print (Perror "socket(AF_NETLINK)"); Done (-1) else
  b ← sys (bind nl (sockaddr_nl (Z.lor RTMGRP_LINK (Z.lor RTMGRP_IPV4_IFADDR RTMGRP_IPV6_IFADDR))));
  if ret b <? 0 then fail_closing "bind(netlink)" nl else
  r ← make_nonblocking nl;
  if r <? 0 then fail_closing "make_nonblocking(netlink)" nl else
  Done nl.

Definition setup_unix_socket : prog Z :=
  s ← sys (socket AF_UNIX);
  let us := ret s in
  if us <? 0 then _ ← print (Perror "socket(AF_UNIX)"); Done (-1) else
  _ ← sys unlink;
  b ← sys (bind us sockaddr_un);
  if ret b <? 0 then fail_closing "bind(unix)" us else
  l ← sys (listen us 5);
  if ret l <? 0 then fail_closing "listen(unix)" us else
  r ← make_nonblocking us;
  if r <? 0 then fail_closing "make_nonblocking(unix)" us else
  Done us.

Definition setup_timerfd (sec_interval : Z) : prog Z :=
  t ← sys timerfd_create;
  let tfd := ret t in
  if tfd <? 0 then _ ← print (Perror "timerfd_create"); Done (-1) else
  r ← sys (timerfd_settime tfd sec_interval);
  if ret r <? 0 then fail_closing "timerfd_settime" tfd else
  Done tfd.

Definition setup_signalfd : prog Z :=
  m ← sys sigprocmask;
  if ret m <? 0 then _ ← print (Perror "sigprocmask"); Done (-1) else
  s ← sys signalfd;
  if ret s <? 0 then _ ← print (Perror "signalfd"); Done (-1) else
  Done (ret s).

(** The loop over the messages of one datagram. *)
Fixpoint netlink_messages (types : list Z) : prog unit :=
  match types with
  | [] => Done tt
  | t :: types =>
      if t =? NLMSG_DONE then Done tt
      else if t =? NLMSG_ERROR then _ ← print NetlinkError; netlink_messages types
      else _ ← print (NetlinkMessage t); netlink_messages types
  end.

Fixpoint handle_netlink (fuel : nat) (nl_fd : Z) : prog unit :=
  match fuel with
  | O => OutFuel
  | S fuel =>
      a ← sys (recv nl_fd 4096);
      if 0 <? ret a then _ ← netlink_messages (types a); handle_netlink fuel nl_fd
      else if (ret a <? 0) && negb (again (errno a)) then print (Perror "recv(netlink)")
      else Done tt
  end.

Fixpoint handle_unix_listener (fuel : nat) (us_fd epfd : Z) : prog unit :=
  match fuel with
  | O => OutFuel
  | S fuel =>
      a ← sys (accept us_fd);
      let c := ret a in
      if c <? 0 then (if again (errno a) then Done tt else print (Perror "accept")) else
      _ ← make_nonblocking c;
      r ← sys (epoll_ctl_ADD epfd c (Z.lor EPOLLIN EPOLLET));
      _ ← (if ret r <? 0 then _ ← print (Perror "epoll_ctl add client"); _ ← sys (close c); Done tt
           else print (AcceptedClient c));
      handle_unix_listener fuel us_fd epfd
  end.

Fixpoint handle_unix_client (fuel : nat) (client_fd : Z) : prog unit :=
  match fuel with
  | O => OutFuel
  | S fuel =>
      a ← sys (read client_fd 512);
      let n := ret a in
      if 0 <? n then _ ← print (ClientRead client_fd n); handle_unix_client fuel client_fd
      else if n =? 0 then _ ← print (ClientClosed client_fd); _ ← sys (close client_fd); Done tt
      else if again (errno a) then Done tt
      else _ ← print (Perror "read(unix client)"); _ ← sys (close client_fd); Done tt
  end.

(** One event; the result is [running]. *)
Definition dispatch (fuel : nat) (epfd nl us tfd sfd : Z) (e : Z * Z) : prog bool :=
  let '(fd, evts) := e in
  if fd =? nl then _ ← handle_netlink fuel nl; Done true
  else if fd =? us then _ ← handle_unix_listener fuel us epfd; Done true
  else if fd =? tfd then
    r ← sys (read tfd sizeof_expirations);
    if ret r =? sizeof_expirations then _ ← print TimerFired; Done true else Done true
  else if fd =? sfd then
    r ← sys (read sfd sizeof_siginfo);
    if ret r =? sizeof_siginfo then _ ← print SignalReceived; Done false else Done true
  else if negb (Z.land evts (Z.lor EPOLLIN (Z.lor EPOLLHUP EPOLLERR)) =? 0)
    then _ ← handle_unix_client fuel fd; Done true
  else Done true.

Fixpoint dispatch_events (fuel : nat) (epfd nl us tfd sfd : Z) (es : list (Z * Z)) : prog bool :=
  match es with
  | [] => Done true
  | e :: es =>
      running ← dispatch fuel epfd nl us tfd sfd e;
      if (running : bool) then dispatch_events fuel epfd nl us tfd sfd es else Done false
  end.

Fixpoint event_loop (fuel : nat) (epfd nl us tfd sfd : Z) : prog unit :=
  match fuel with
  | O => OutFuel
  | S fuel =>
      a ← sys (epoll_wait epfd EPOLL_MAX_EVENTS);
      if ret a <? 0 then
        (if bool_decide (errno a = EINTR) then event_loop fuel epfd nl us tfd sfd else print (Perror "epoll_wait"))
      else
        running ← dispatch_events fuel epfd nl us tfd sfd (take (Z.to_nat (ret a)) (events a));
        if (running : bool) then event_loop fuel epfd nl us tfd sfd else Done tt
  end.

Definition register (epfd fd : Z) : prog unit := _ ← sys (epoll_ctl_ADD epfd fd EPOLLIN); Done tt.

Fixpoint close_all (l : list Z) : prog unit :=
  match l with [] => Done tt | fd :: l => _ ← sys (close fd); close_all l end.

Definition main (fuel : nat) : prog Z :=
  e ← sys epoll_create1;
  let epfd := ret e in
  if epfd <? 0 then _ ← print (Perror "epoll_create1"); Done 1 else
  nl ← setup_netlink_socket;
  if nl <? 0 then Done 1 else
  us ← setup_unix_socket;
  if us <? 0 then _ ← close_all [nl]; Done 1 else
  tfd ← setup_timerfd TIMER_INTERVAL_SEC;
  if tfd <? 0 then _ ← close_all [nl; us]; Done 1 else
  sfd ← setup_signalfd;
  if sfd <? 0 then _ ← close_all [nl; us; tfd]; Done 1 else
  _ ← register epfd nl; _ ← register epfd us; _ ← register epfd tfd; _ ← register epfd sfd;
  _ ← event_loop fuel epfd nl us tfd sfd;
  _ ← close_all [nl; us]; _ ← sys unlink; _ ← close_all [tfd; sfd; epfd];
  Done 0.

(** ** Setting up descriptors *)

Lemma nonblocking_flag x : negb (Z.land (Z.lor x O_NONBLOCK) O_NONBLOCK =? 0) = true.
Proof.
  apply negb_true_iff, Z.eqb_neq. intros E. assert (Z.testbit (Z.land (Z.lor x O_NONBLOCK) O_NONBLOCK) 11 = true) as Hb.
  { by rewrite Z.land_spec, Z.lor_spec, orb_true_r. }
  by rewrite E in Hb.
Qed.

(** The descriptors and the interest list of [o] are these; the log is free. *)
Definition has (F : gmap Z desc) (I : gmap Z Z) (o : os) : Prop := fds o = F ∧ interest o = I.

Lemma legal_open F I o fd d : has F I o → F !! fd = Some d → open_as o fd (λ _, true) = true.
Proof. intros [<- _] Hfd. by eapply open_as_true. Qed.

Lemma open_kind F I o fd d p : has F I o → F !! fd = Some d → p d = true → open_as o fd p = true.
Proof. intros [<- _] Hfd. by apply open_as_true. Qed.

Lemma has_set_desc F I o fd f d : has F I o → F !! fd = Some d → has (<[fd := f d]> F) I (set_desc fd f o).
Proof.
  intros [<- <-] Hd. split; [|done]. simpl. apply map_eq. intros i. destruct (decide (i = fd)) as [->|Hi].
  - by rewrite lookup_alter_eq, lookup_insert_eq, Hd.
  - by rewrite lookup_alter_ne, lookup_insert_ne.
Qed.

Lemma ret_cases a : -1 ≤ ret a → (ret a = -1 ∧ (ret a <? 0) = true ∧ (ret a =? -1) = true) ∨
  (0 ≤ ret a ∧ (ret a <? 0) = false ∧ (ret a =? -1) = false).
Proof. intros. destruct (Z.eq_dec (ret a) (-1)) as [->|]; [by left|right]. rewrite Z.ltb_ge, Z.eqb_neq. lia. Qed.

Lemma wp_make_nonblocking n fd d F I o : has F I o → F !! fd = Some d →
  wp n (make_nonblocking fd) (λ r o', (r = -1 ∧ has F I o') ∨ (0 ≤ r ∧ has (<[fd := to_nonblock true d]> F) I o')) o.
Proof.
  intros Ho Hd. unfold make_nonblocking. apply wp_sys; [by eapply (legal_open F)|]. intros a n1 _ Ha. simpl in *.
  apply Z.leb_le in Ha. destruct (ret_cases a Ha) as [(E & _ & ->)|(E & _ & ->)]; [by left|].
  apply wp_sys; [by eapply (legal_open F)|]. intros r n2 _ Hr. simpl in *. apply Z.leb_le in Hr. unfold when_ok.
  destruct (ret_cases r Hr) as [(E2 & _ & ->)|(E2 & _ & ->)]; [left; split; [lia|done]|]. right. split; [done|].
  rewrite nonblocking_flag. by apply has_set_desc.
Qed.

Lemma wp_fail_closing n what fd F I o (Q : Z → os → Prop) : has F I o → is_Some (F !! fd) →
  (∀ o', has (delete fd F) (delete fd I) o' → Q (-1) o') → wp n (fail_closing what fd) Q o.
Proof.
  intros Ho [d Hd] HQ. unfold fail_closing. cbn -[sys]. apply wp_sys; [by eapply (legal_open F I)|]. intros a n1 _ _.
  apply HQ. destruct Ho as [<- <-]. done.
Qed.

(** A set-up function gives back a new descriptor in state [d], or -1 and
    leaves nothing open. *)
Definition acquires (d : desc) (F : gmap Z desc) (r : Z) (o' : os) : Prop :=
  (r = -1 ∧ has F ∅ o') ∨ (0 ≤ r ∧ F !! r = None ∧ has (<[r := d]> F) ∅ o').

Lemma has_opened F I o a d : has F I o → 0 ≤ ret a → has (<[ret a := d]> F) I (opened a d o).
Proof. intros [<- <-] Ha. by rewrite opened_ok. Qed.

Lemma closed_again (d : desc) (F : gmap Z desc) r : F !! r = None → delete r (<[r := d]> F) = F.
Proof. intros. by apply delete_insert_id. Qed.

Lemma acquire_fails n what d (F : gmap Z desc) r o : has (<[r := d]> F) ∅ o → F !! r = None → ∀ d',
  wp n (fail_closing what r) (acquires d' F) o.
Proof.
  intros Ho Hr d'. eapply wp_fail_closing; [done|by rewrite lookup_insert_eq|]. intros o' Ho'. left. split; [done|].
  by rewrite closed_again, delete_empty in Ho'.
Qed.

Ltac solve_nodup :=
  rewrite ?list.NoDup_cons; split_and?; rewrite ?elem_of_cons, ?elem_of_nil; try apply NoDup_nil_2; intuition congruence.
Ltac sys_step := apply wp_sys; [|intros ?a ?n' ?Hn ?Ha; cbn [documented after] in *].
Ltac ret_case a Ha :=
  let E1 := fresh in let E2 := fresh in
  destruct (ret_cases a Ha) as [(? & E1 & E2)|(? & E1 & E2)]; unfold when_ok; rewrite ?E1, ?E2; clear E1 E2.

Lemma wp_setup_netlink n F o : has F ∅ o →
  wp n setup_netlink_socket (acquires (mkDesc Netlink Bound true false) F) o.
Proof.
  intros Ho. unfold setup_netlink_socket. sys_step; [done|]. apply new_fd_true in Ha as [E|[E Hnew]].
  { rewrite E, opened_fails by done. by left. }
  rewrite (proj2 (Z.ltb_ge _ _)) by done. pose proof (has_opened _ _ _ a (fresh_desc Netlink false) Ho E) as Ho1.
  destruct Ho as [<- _]. sys_step; [eapply open_kind; [done|apply lookup_insert_eq|done]|]. apply Z.leb_le in Ha.
  ret_case a0 Ha; [by eapply acquire_fails|].
  eapply has_set_desc in Ho1; [|apply lookup_insert_eq]. rewrite insert_insert_eq in Ho1.
  apply wp_bind. eapply wp_mono; [|eapply wp_make_nonblocking; [done|apply lookup_insert_eq]].
  intros r o2 [[-> Ho2]|[Hr Ho2]] n2 _; simpl; [by eapply acquire_fails|].
  rewrite (proj2 (Z.ltb_ge _ _)) by done. right. rewrite insert_insert_eq in Ho2. done.
Qed.

Lemma wp_setup_unix n F o : has F ∅ o →
  wp n setup_unix_socket (acquires (mkDesc UnixSocket Listening true false) F) o.
Proof.
  intros Ho. unfold setup_unix_socket. sys_step; [done|]. apply new_fd_true in Ha as [E|[E Hnew]].
  { rewrite E, opened_fails by done. by left. }
  rewrite (proj2 (Z.ltb_ge _ _)) by done. pose proof (has_opened _ _ _ a (fresh_desc UnixSocket false) Ho E) as Ho1.
  destruct Ho as [<- _]. sys_step; [done|]. sys_step; [eapply open_kind; [done|apply lookup_insert_eq|done]|].
  apply Z.leb_le in Ha0. ret_case a1 Ha0; [by eapply acquire_fails|].
  eapply has_set_desc in Ho1; [|apply lookup_insert_eq]. rewrite insert_insert_eq in Ho1.
  sys_step; [eapply open_kind; [done|apply lookup_insert_eq|done]|]. apply Z.leb_le in Ha1.
  ret_case a2 Ha1; [by eapply acquire_fails|].
  eapply has_set_desc in Ho1; [|apply lookup_insert_eq]. rewrite insert_insert_eq in Ho1.
  apply wp_bind. eapply wp_mono; [|eapply wp_make_nonblocking; [done|apply lookup_insert_eq]].
  intros r o2 [[-> Ho2]|[Hr Ho2]] n2 _; simpl; [by eapply acquire_fails|].
  rewrite (proj2 (Z.ltb_ge _ _)) by done. right. rewrite insert_insert_eq in Ho2. done.
Qed.

Lemma wp_setup_timerfd n sec F o : has F ∅ o →
  wp n (setup_timerfd sec) (acquires (mkDesc Timer Unbound true false) F) o.
Proof.
  intros Ho. unfold setup_timerfd. sys_step; [done|]. apply new_fd_true in Ha as [E|[E Hnew]].
  { rewrite E, opened_fails by done. by left. }
  rewrite (proj2 (Z.ltb_ge _ _)) by done. pose proof (has_opened _ _ _ a (fresh_desc Timer true) Ho E) as Ho1.
  destruct Ho as [<- _]. sys_step; [eapply open_kind; [done|apply lookup_insert_eq|done]|]. apply Z.leb_le in Ha.
  ret_case a0 Ha; [by eapply acquire_fails|]. by right.
Qed.

Lemma wp_setup_signalfd n F o : has F ∅ o →
  wp n setup_signalfd (acquires (mkDesc Signal Unbound true false) F) o.
Proof.
  intros Ho. unfold setup_signalfd. sys_step; [done|]. apply Z.leb_le in Ha. ret_case a Ha; [by left|].
  sys_step; [done|]. apply new_fd_true in Ha0 as [E'|[E' Hnew]].
  { rewrite E', opened_fails by done. by left. }
  rewrite (proj2 (Z.ltb_ge _ _)) by done. right. split; [done|]. pose proof Ho as [<- _]. split; [done|].
  by apply has_opened.
Qed.

(** ** The event loop

    [base] are the descriptors that were open before [main]; [core] the five
    that the set-up created.  [E] are the descriptors whose events are still to
    be handled. *)

Section Loop.
Context (base : gmap Z desc) (epfd nl us tfd sfd : Z).

Definition core : gmap Z desc :=
  <[sfd := mkDesc Signal Unbound true false]> (<[tfd := mkDesc Timer Unbound true false]>
  (<[us := mkDesc UnixSocket Listening true false]> (<[nl := mkDesc Netlink Bound true false]>
  (<[epfd := fresh_desc Epoll false]> ∅)))).

Record inv (E : list Z) (o : os) : Prop := {
  i_core fd d : core !! fd = Some d → fds o !! fd = Some d;
  i_base fd d : base !! fd = Some d → fds o !! fd = Some d;
  i_rest fd d : fds o !! fd = Some d → core !! fd = Some d ∨ base !! fd = Some d ∨
    (core !! fd = None ∧ base !! fd = None ∧ d_kind d = Client);
  i_interest fd m : interest o !! fd = Some m → is_Some (fds o !! fd) ∧ base !! fd = None ∧ fd ≠ epfd ∧
    (Z.land m EPOLLET ≠ 0 → core !! fd = None);
  i_edge fd d : fds o !! fd = Some d → d_edge d = true → fd ∈ E;
  i_todo fd : fd ∈ E → is_Some (fds o !! fd) ∧ base !! fd = None ∧ fd ≠ epfd
}.

Context (Hdis : base ##ₘ core) (Hne : NoDup [epfd; nl; us; tfd; sfd]) (Hbase : ∀ fd d, base !! fd = Some d → d_edge d = false).

Lemma inv_same E o o' : fds o' = fds o → interest o' = interest o → inv E o → inv E o'.
Proof. intros Hf Hi [H1 H2 H3 H4 H5 H6]. split; rewrite ?Hf, ?Hi; auto. Qed.

Lemma core_at : core !! epfd = Some (fresh_desc Epoll false) ∧ core !! nl = Some (mkDesc Netlink Bound true false) ∧
  core !! us = Some (mkDesc UnixSocket Listening true false) ∧ core !! tfd = Some (mkDesc Timer Unbound true false) ∧
  core !! sfd = Some (mkDesc Signal Unbound true false).
Proof.
  rewrite !list.NoDup_cons in Hne. unfold core. split_and!;
    repeat (rewrite lookup_insert_eq || rewrite lookup_insert_ne by set_solver); done.
Qed.

(** A change at one descriptor that is neither in [base] nor in [core]. *)
Lemma inv_at E E' o o' c : inv E o → base !! c = None → core !! c = None →
  (∀ fd, fd ≠ c → fds o' !! fd = fds o !! fd ∧ interest o' !! fd = interest o !! fd) →
  (∀ d, fds o' !! c = Some d → d_kind d = Client ∧ (d_edge d = true → c ∈ E')) →
  (is_Some (interest o' !! c) → is_Some (fds o' !! c)) →
  (∀ fd, fd ∈ E' → fd ∈ E ∧ (fd = c → is_Some (fds o' !! c))) → (∀ fd, fd ∈ E → fd ≠ c → fd ∈ E') → inv E' o'.
Proof.
  intros [H1 H2 H3 H4 H5 H6] Hb Hc Hsame Hd Hi HE HE'. split.
  - intros fd d Hfd. destruct (decide (fd = c)) as [->|Hn]; [congruence|]. rewrite (proj1 (Hsame fd Hn)). auto.
  - intros fd d Hfd. destruct (decide (fd = c)) as [->|Hn]; [congruence|]. rewrite (proj1 (Hsame fd Hn)). auto.
  - intros fd d Hfd. destruct (decide (fd = c)) as [->|Hn]; [|rewrite (proj1 (Hsame fd Hn)) in Hfd; auto].
    right. right. split; [done|]. split; [done|]. by apply Hd.
  - intros fd m Hm. destruct (decide (fd = c)) as [->|Hn].
    + split; [apply Hi; eauto|]. split; [done|]. split; [|done]. intros ->. by rewrite (proj1 core_at) in Hc.
    + destruct (Hsame fd Hn) as [-> E2]. rewrite E2 in Hm. eauto.
  - intros fd d Hfd He. destruct (decide (fd = c)) as [->|Hn]; [by eapply Hd|].
    rewrite (proj1 (Hsame fd Hn)) in Hfd. eauto.
  - intros fd Hfd. destruct (HE fd Hfd) as [HinE Hcc]. destruct (H6 fd HinE) as (? & ? & ?). split; [|done].
    destruct (decide (fd = c)) as [->|Hn]; [by apply Hcc|]. by rewrite (proj1 (Hsame fd Hn)).
Qed.

Lemma core_only fd d : core !! fd = Some d → fd = epfd ∨ fd = nl ∨ fd = us ∨ fd = tfd ∨ fd = sfd.
Proof.
  unfold core. intros [[<- _]|[_ H]]%lookup_insert_Some; [auto 6|]. apply lookup_insert_Some in H as [[<- _]|[_ H]]; [auto 6|].
  apply lookup_insert_Some in H as [[<- _]|[_ H]]; [auto 6|]. apply lookup_insert_Some in H as [[<- _]|[_ H]]; [auto 6|].
  apply lookup_insert_Some in H as [[<- _]|[_ H]]; [auto|]. done.
Qed.

Lemma inv_open E o fd d p : inv E o → core !! fd = Some d → p d = true → open_as o fd p = true.
Proof. intros Hinv Hd Hp. eapply open_as_true; [by eapply i_core|done]. Qed.

Lemma inv_client E o fd : inv E o → fd ∈ E → core !! fd = None → ∃ d, fds o !! fd = Some d ∧ d_kind d = Client ∧ base !! fd = None.
Proof.
  intros Hinv HE Hc. destruct (i_todo _ _ Hinv fd HE) as ([d Hd] & Hb & _). exists d. split; [done|].
  destruct (i_rest _ _ Hinv fd d Hd) as [?|[?|(_ & _ & ?)]]; [congruence|congruence|done].
Qed.

Lemma wp_netlink_messages n ts Q o : (∀ o', fds o' = fds o → interest o' = interest o → Q tt o') →
  wp n (netlink_messages ts) Q o.
Proof.
  revert o. induction ts as [|t ts IH]; intros o HQ; simpl; [by apply HQ|].
  destruct (t =? NLMSG_DONE); [by apply HQ|]. destruct (t =? NLMSG_ERROR); simpl; apply IH; intros o' Hf Hi; apply HQ; done.
Qed.

Lemma wp_handle_netlink E fuel : ∀ n o, (n < fuel)%nat → inv E o → wp n (handle_netlink fuel nl) (λ _ o', inv E o') o.
Proof.
  induction fuel as [|fuel IH]; intros n o Hn Hinv; [lia|]. cbn [handle_netlink]. sys_step.
  { cbn [legal]. apply andb_true_iff. split; [done|]. by eapply inv_open; [|apply core_at|]. }
  destruct (0 <? ret a).
  - apply wp_bind, wp_netlink_messages. intros o' Hf Hi n2 Hn2. apply IH; [lia|]. by apply (inv_same _ o).
  - destruct ((ret a <? 0) && _); simpl; [|done]. by apply (inv_same _ o).
Qed.

Lemma wp_handle_listener E fuel : ∀ n o, (n < fuel)%nat → inv E o →
  wp n (handle_unix_listener fuel us epfd) (λ _ o', inv E o') o.
Proof.
  induction fuel as [|fuel IH]; intros n o Hn Hinv; [lia|]. cbn [handle_unix_listener]. sys_step.
  { by eapply inv_open; [|apply core_at|]. }
  apply new_fd_true in Ha as [E1|[E1 Hnew]].
  { rewrite E1, opened_fails by done. cbn [Z.ltb Z.compare]. destruct (again _); simpl; [done|]. by apply (inv_same _ o). }
  rewrite (proj2 (Z.ltb_ge _ _)) by done. set (c := ret a) in *.
  assert (core !! c = None ∧ base !! c = None ∧ c ∉ E ∧ interest o !! c = None) as (Hcc & Hcb & HcE & Hci).
  { split_and!.
    - destruct (core !! c) eqn:E2; [|done]. apply (i_core _ _ Hinv) in E2. congruence.
    - destruct (base !! c) eqn:E2; [|done]. apply (i_base _ _ Hinv) in E2. congruence.
    - intros HE. destruct (i_todo _ _ Hinv c HE) as [[? ?] _]. congruence.
    - destruct (interest o !! c) eqn:E2; [|done]. apply (i_interest _ _ Hinv) in E2 as [[? ?] _]. congruence. }
  pose proof (has_opened (fds o) (interest o) o a (fresh_desc Client false) (conj eq_refl eq_refl) E1) as Ho1. fold c in Ho1.
  apply wp_bind. eapply wp_mono; [|eapply wp_make_nonblocking; [done|apply lookup_insert_eq]].
  intros r o2 Ho2 n2 Hn2. assert (∃ b, has (<[c := fresh_desc Client b]> (fds o)) (interest o) o2) as [b Ho3].
  { destruct Ho2 as [[_ ?]|[_ Ho2]]; [by exists false|]. rewrite insert_insert_eq in Ho2. by exists true. }
  clear Ho1 Ho2. pose proof Ho3 as [Hf3 Hi3].
  assert (∀ o', (∀ fd, fd ≠ c → fds o' !! fd = fds o2 !! fd ∧ interest o' !! fd = interest o2 !! fd) →
    (fds o' !! c = fds o2 !! c ∨ fds o' !! c = None ∧ interest o' !! c = None) → inv E o') as Hnext.
  { intros o' Hs Hcase. rewrite Hf3, lookup_insert_eq in Hcase. apply (inv_at E E o o' c); try done.
    - intros fd Hfd. destruct (Hs fd Hfd) as [-> ->]. rewrite Hf3, Hi3. by rewrite lookup_insert_ne.
    - intros d Hd. destruct Hcase as [Hc|[Hc _]]; [|congruence]. assert (d = fresh_desc Client b) as -> by congruence. done.
    - intros [m Hm]. destruct Hcase as [->|[_ Hc]]; [done|congruence].
    - intros fd Hfd. split; [done|]. by intros ->. }
  sys_step.
  { cbn [legal]. apply andb_true_iff. split; [|by eapply (open_kind (<[c:=fresh_desc Client b]> (fds o))); [|apply lookup_insert_eq|]].
    eapply open_as_true; [rewrite Hf3, lookup_insert_ne; [apply (i_core _ _ Hinv), core_at|]|done].
    intros ->. by rewrite (proj1 core_at) in Hcc. }
  apply Z.leb_le in Ha. apply wp_bind. ret_case a0 Ha.
  - cbn -[sys]. sys_step; [eapply open_as_true; [simpl; by rewrite Hf3, lookup_insert_eq|done]|]. intros n4 Hn4.
    apply IH; [lia|]. apply Hnext; simpl; [|right; by rewrite !lookup_delete_eq]. intros fd Hfd. by rewrite !lookup_delete_ne.
  - simpl. intros n4 Hn4. apply IH; [lia|]. apply Hnext; simpl; [|by left]. intros fd Hfd. by rewrite lookup_insert_ne.
Qed.

Lemma wp_handle_client E fuel fd : fd ∉ E → core !! fd = None → ∀ n o, (n < fuel)%nat → inv (fd :: E) o →
  wp n (handle_unix_client fuel fd) (λ _ o', inv E o') o.
Proof.
  intros HE Hc. induction fuel as [|fuel IH]; intros n o Hn Hinv; [lia|]. cbn [handle_unix_client].
  destruct (inv_client _ _ fd Hinv ltac:(set_solver) Hc) as (d & Hd & Hk & Hb).
  assert (∀ o', (∀ x, x ≠ fd → fds o' !! x = fds o !! x ∧ interest o' !! x = interest o !! x) →
    (fds o' !! fd = Some (to_edge false d) ∨ fds o' !! fd = None ∧ interest o' !! fd = None) → inv E o') as Hnext.
  { intros o' Hs Hcase. apply (inv_at (fd :: E) E o o' fd); try done.
    - intros d' Hd'. destruct Hcase as [Hc'|[Hc' _]]; [|congruence]. assert (d' = to_edge false d) as -> by congruence. done.
    - intros [m Hm]. destruct Hcase as [->|[_ Hc']]; [done|congruence].
    - intros x Hx. split; [set_solver|]. by intros ->.
    - set_solver. }
  sys_step.
  { cbn [legal]. apply andb_true_iff. split; [done|]. eapply open_as_true; [done|]. unfold is_kind. by rewrite Hk. }
  apply andb_true_iff in Ha as [Ha _]. apply Z.leb_le in Ha.
  assert (∀ o', fds o' = fds o → interest o' = interest o → ∀ n, wp n (_ ← sys (close fd); Done tt) (λ _ o', inv E o') o') as Hclose.
  { intros o' Hf Hi m. sys_step; [eapply open_as_true; [by rewrite Hf|done]|]. apply Hnext; simpl; rewrite Hf, Hi.
    - intros x Hx. by rewrite !lookup_delete_ne.
    - right. by rewrite !lookup_delete_eq. }
  destruct (Z.ltb_spec 0 (ret a)) as [H0|H0].
  - rewrite (proj2 (Z.eqb_neq (ret a) (-1))) by lia. simpl. apply IH; [lia|]. by apply (inv_same _ o).
  - destruct (Z.eqb_spec (ret a) 0) as [H1|H1]; [rewrite H1; by apply Hclose|].
    assert (ret a = -1) as -> by lia. simpl. unfold again. destruct (bool_decide _); [|by apply Hclose].
    apply Hnext; simpl.
    + intros x Hx. by rewrite lookup_alter_ne.
    + left. by rewrite lookup_alter_eq, Hd.
Qed.

Lemma core_edge fd d : core !! fd = Some d → d_edge d = false.
Proof.
  intros H. pose proof core_at as (? & ? & ? & ? & ?).
  destruct (core_only fd d H) as [->|[->|[->|[->| ->]]]]; by simplify_eq.
Qed.

Lemma inv_drop E o fd d : inv (fd :: E) o → core !! fd = Some d → inv E o.
Proof.
  intros [H1 H2 H3 H4 H5 H6] Hc. split; auto; [|intros x Hx; apply H6; set_solver].
  intros x dx Hx Hedge. pose proof (H5 x dx Hx Hedge) as Hin. apply elem_of_cons in Hin as [->|]; [|done].
  pose proof (H1 _ _ Hc) as Hx'. assert (dx = d) as -> by congruence. by rewrite (core_edge _ _ Hc) in Hedge.
Qed.

Lemma inv_read E o fd d a : inv E o → core !! fd = Some d → inv E (after o (read fd 1) a).
Proof.
  intros Hinv Hc. simpl. destruct (_ && _); [|done]. apply (inv_same _ o); [|done|done].
  pose proof (i_core _ _ Hinv _ _ Hc) as Ht. pose proof (core_edge _ _ Hc) as He. simpl. apply map_eq. intros i.
  destruct (decide (i = fd)) as [->|]; [|by rewrite lookup_alter_ne].
  rewrite lookup_alter_eq, Ht. destruct d. simpl in *. by rewrite He.
Qed.

(** One event: a descriptor outside [core] is a client. *)
Lemma wp_dispatch E fuel n o e : (n < fuel)%nat → e.1 ∉ E →
  Z.land e.2 (Z.lor EPOLLIN (Z.lor EPOLLHUP EPOLLERR)) ≠ 0 → inv (e.1 :: E) o →
  wp n (dispatch fuel epfd nl us tfd sfd e) (λ r o', ∃ E', inv E' o' ∧ (r = true → E' = E)) o.
Proof.
  destruct e as [fd evts]. simpl. intros Hn HE Hev Hinv. unfold dispatch.
  assert (∀ d, core !! fd = Some d → inv E o) as Hcore by (intros d; by eapply inv_drop).
  assert (∀ r o', inv E o' → ∃ E', inv E' o' ∧ (r = true → E' = E)) as Hend by eauto.
  destruct core_at as (Hep & Hnl & Hus & Htf & Hsf).
  destruct (Z.eqb_spec fd nl) as [->|N1].
  { apply wp_bind. eapply wp_mono; [|apply wp_handle_netlink; [done|by eapply Hcore]]. intros ? o' Ho' n2 _. by apply Hend. }
  destruct (Z.eqb_spec fd us) as [->|N2].
  { apply wp_bind. eapply wp_mono; [|apply wp_handle_listener; [done|by eapply Hcore]]. intros ? o' Ho' n2 _. by apply Hend. }
  destruct (Z.eqb_spec fd tfd) as [->|N3].
  { sys_step; [cbn [legal]; apply andb_true_iff; split; [done|by eapply inv_open; [by eapply Hcore|done|]]|].
    pose proof (inv_read E o tfd _ a (Hcore _ Htf) Htf) as Hinv'.
    destruct (ret a =? sizeof_expirations); simpl; apply Hend; [|done]. by (eapply inv_same; [| |exact Hinv']). }
  destruct (Z.eqb_spec fd sfd) as [->|N4].
  { sys_step; [cbn [legal]; apply andb_true_iff; split; [done|by eapply inv_open; [by eapply Hcore|done|]]|].
    pose proof (inv_read E o sfd _ a (Hcore _ Hsf) Hsf) as Hinv'.
    destruct (ret a =? sizeof_siginfo); simpl; apply Hend; [|done]. by (eapply inv_same; [| |exact Hinv']). }
  rewrite (proj2 (Z.eqb_neq _ _) Hev). simpl. apply wp_bind.
  assert (core !! fd = None) as Hc.
  { destruct (core !! fd) as [d|] eqn:E1; [|done]. destruct (i_todo _ _ Hinv fd ltac:(set_solver)) as (_ & _ & ?).
    by destruct (core_only _ _ E1) as [?|[?|[?|[?|?]]]]. }
  eapply wp_mono; [|by apply wp_handle_client]. intros ? o' Ho' n2 _. by apply Hend.
Qed.

Lemma inv_report E o e : inv E o → reported_event o e = true → inv (E ++ [e.1]) (report o e).
Proof.
  destruct e as [fd evts]. unfold reported_event, report, edge_triggered. simpl. intros Hinv Hr.
  destruct (interest o !! fd) as [m|] eqn:Hm; [|done]. destruct (i_interest _ _ Hinv fd m Hm) as ([d Hd] & Hb & Hep & Hce).
  assert (inv (E ++ [fd]) o) as Hgrow.
  { destruct Hinv as [H1 H2 H3 H4 H5 H6]. split; auto.
    - intros x dx Hx Hed. apply elem_of_app. left. by eapply H5.
    - intros x [Hx| ->%list_elem_of_singleton]%elem_of_app; [auto|eauto]. }
  destruct (Z.eqb_spec (Z.land m EPOLLET) 0) as [E0|E0]; simpl; [done|].
  apply (inv_at (E ++ [fd]) (E ++ [fd]) o _ fd); try done; [by apply Hce| | | |].
  - intros x Hx. simpl. by rewrite lookup_alter_ne.
  - intros d'. simpl. rewrite lookup_alter_eq, Hd. intros [= <-]. split; [|set_solver]. simpl.
    destruct (i_rest _ _ Hinv _ _ Hd) as [Hx|[Hx|(_ & _ & ?)]]; [rewrite (Hce E0) in Hx; done|congruence|done].
  - intros _. simpl. by rewrite lookup_alter_eq, Hd.
  - intros x Hx. split; [done|]. intros ->. simpl. by rewrite lookup_alter_eq, Hd.
Qed.

Lemma report_still o e e' : reported_event (report o e) e' = reported_event o e'.
Proof.
  unfold reported_event, report. destruct (edge_triggered o e.1); [|done]. simpl.
  destruct (interest o !! e'.1); [|done]. f_equal. apply bool_decide_ext. destruct (decide (e'.1 = e.1)) as [->|].
  - rewrite lookup_alter_eq. apply fmap_is_Some.
  - by rewrite lookup_alter_ne.
Qed.

Lemma inv_reports es : ∀ E o, inv E o → forallb (reported_event o) es = true → inv (E ++ es.*1) (foldl report o es).
Proof.
  induction es as [|e es IH]; intros E o Hinv Hr; simpl; [by rewrite app_nil_r|].
  apply andb_true_iff in Hr as [He Hr]. rewrite cons_middle, app_assoc. apply IH; [by apply inv_report|].
  rewrite <- Hr. clear IH Hr. induction es as [|e' es IH]; simpl; [done|]. by rewrite report_still, IH.
Qed.

Lemma wp_dispatch_events fuel es : ∀ n o, (n < fuel)%nat → NoDup es.*1 →
  Forall (λ e, Z.land e.2 (Z.lor EPOLLIN (Z.lor EPOLLHUP EPOLLERR)) ≠ 0) es → inv es.*1 o →
  wp n (dispatch_events fuel epfd nl us tfd sfd es) (λ r o', ∃ E', inv E' o' ∧ (r = true → E' = [])) o.
Proof.
  induction es as [|e es IH]; intros n o Hn Hnd Hall Hinv; [by exists []|]. cbn [dispatch_events].
  rewrite fmap_cons in *. apply list.NoDup_cons in Hnd as [He Hnd]. apply list.Forall_cons in Hall as [Hev Hall].
  apply wp_bind. eapply wp_mono; [|by apply (wp_dispatch (es.*1))]. intros r o' (E' & Hinv' & Hr) n2 Hn2. destruct r.
  - rewrite (Hr eq_refl) in Hinv'. apply IH; [lia|done|done|done].
  - by exists E'.
Qed.

Lemma wp_event_loop fuel : ∀ n o, (n < fuel)%nat → inv [] o →
  wp n (event_loop fuel epfd nl us tfd sfd) (λ _ o', ∃ E', inv E' o') o.
Proof.
  induction fuel as [|fuel IH]; intros n o Hn Hinv; [lia|]. cbn [event_loop]. sys_step.
  { cbn [legal]. rewrite !andb_true_iff. split_and!; [by eapply inv_open; [|apply core_at|]|done|].
    apply forallb_forall. intros [x dx] Hx. apply list_elem_of_In, elem_of_map_to_list in Hx. simpl. apply negb_true_iff.
    destruct (d_edge dx) eqn:He; [|done]. by pose proof (i_edge _ _ Hinv x dx Hx He) as ?%elem_of_nil. }
  apply orb_true_iff in Ha as [Ha|Ha].
  - apply Z.eqb_eq in Ha. unfold when_ok. rewrite Ha. cbn [Z.ltb Z.compare Z.eqb Pos.eqb].
    destruct (bool_decide _); [apply IH; [lia|done]|]. simpl. exists []. by apply (inv_same _ o).
  - rewrite !andb_true_iff in Ha. destruct Ha as [[[Hl _] Hnd] Hr]. apply Z.eqb_eq in Hl. apply bool_decide_eq_true in Hnd.
    unfold when_ok. rewrite (proj2 (Z.eqb_neq _ _)), (proj2 (Z.ltb_ge _ _)) by lia.
    rewrite Hl, Nat2Z.id, firstn_all. apply wp_bind. eapply wp_mono; [|apply wp_dispatch_events; [lia|done| |by apply (inv_reports _ [])]].
    + intros r o' (E' & Hinv' & Hrun) n2 Hn2. destruct r; [|by exists E']. rewrite (Hrun eq_refl) in Hinv'. apply IH; [lia|done].
    + apply list.Forall_forall. intros e He. rewrite forallb_forall in Hr. apply list_elem_of_In in He. specialize (Hr e He).
      unfold reported_event in Hr. destruct (interest o !! e.1); [|done]. apply andb_true_iff in Hr as [_ Hr].
      by apply negb_true_iff, Z.eqb_neq in Hr.
Qed.

Lemma inv_start o : fds o = core ∪ base → interest o = ∅ → inv [] o.
Proof.
  intros Hf Hi. split; rewrite ?Hf, ?Hi.
  - intros fd d Hd. by apply lookup_union_Some_l.
  - intros fd d Hd. apply lookup_union_Some_r; [by symmetry|done].
  - intros fd d [Hd|[Hn Hd]]%lookup_union_Some_raw; auto.
  - done.
  - intros fd d [Hd|[_ Hd]]%lookup_union_Some_raw He; [by rewrite (core_edge _ _ Hd) in He|by rewrite (Hbase _ _ Hd) in He].
  - intros fd ?%elem_of_nil. done.
Qed.

Lemma wp_register n fd d o (Q : unit → os → Prop) : inv [] o → core !! fd = Some d → fd ≠ epfd →
  (∀ o', inv [] o' → Q tt o') → wp n (register epfd fd) Q o.
Proof.
  intros Hinv Hd Hne' HQ. unfold register. pose proof (i_core _ _ Hinv _ _ Hd) as Hfd. sys_step.
  { cbn [legal]. apply andb_true_iff. split; [by eapply inv_open; [|apply core_at|]|by eapply open_as_true]. }
  apply HQ. unfold when_ok. destruct (ret a =? -1); [done|]. pose proof Hinv as [H1 H2 H3 H4 H5 H6]. split; simpl; auto.
  intros x m [[<- <-]|[Hx Hm]]%lookup_insert_Some; [|eauto]. split; [eauto|]. split; [|split; [done|done]].
  destruct (base !! fd) eqn:Hb; [|done]. exfalso. by apply (proj1 (map_disjoint_spec base core) Hdis fd _ _ Hb Hd).
Qed.
End Loop.

Lemma wp_close_all n l o (Q : unit → os → Prop) : NoDup l → (∀ fd, fd ∈ l → is_Some (fds o !! fd)) →
  (∀ o', (∀ fd, fds o' !! fd = if decide (fd ∈ l) then None else fds o !! fd) → Q tt o') → wp n (close_all l) Q o.
Proof.
  revert n o. induction l as [|fd l IH]; intros n o Hnd Hl HQ; [by apply HQ|]. cbn [close_all].
  apply list.NoDup_cons in Hnd as [Hfd Hnd]. destruct (Hl fd ltac:(set_solver)) as [d Hd]. sys_step; [by eapply open_as_true|].
  apply IH; [done| |].
  - intros x Hx. simpl. rewrite lookup_delete_ne by (by intros ->). apply Hl. set_solver.
  - intros o' Ho'. apply HQ. intros x. rewrite Ho'. simpl. destruct (decide (x = fd)) as [->|Hx].
    + rewrite (decide_True (P := fd ∈ fd :: l)) by set_solver. destruct (decide _); [done|]. apply lookup_delete_eq.
    + rewrite lookup_delete_ne by done. destruct (decide (x ∈ l)); [by rewrite decide_True by set_solver|].
      by rewrite decide_False by set_solver.
Qed.

(** ** [main] *)

Definition main_post (base : gmap Z desc) (r : Z) (o : os) : Prop :=
  (r = 1 ∧ (fds o = base ∨ ∃ epfd, base !! epfd = None ∧ fds o = <[epfd := fresh_desc Epoll false]> base)) ∨
  (r = 0 ∧ (∀ fd d, base !! fd = Some d → fds o !! fd = Some d) ∧
   ∀ fd d, fds o !! fd = Some d → base !! fd = Some d ∨ (base !! fd = None ∧ d_kind d = Client)).

(** Descriptors opened one after the other, the last one first. *)
Definition with_fds (L : list (Z * desc)) (F : gmap Z desc) : gmap Z desc := foldr (λ p m, <[p.1 := p.2]> m) F L.

Lemma with_fds_in L (F : gmap Z desc) fd : fd ∈ L.*1 → is_Some (with_fds L F !! fd).
Proof.
  induction L as [|[x d] L IH]; simpl; [by intros ?%elem_of_nil|]. intros [->|Hfd]%elem_of_cons; [by rewrite lookup_insert_eq|].
  rewrite lookup_insert_is_Some. destruct (decide (x = fd)); [by left|]. right. auto.
Qed.

Lemma with_fds_out L (F : gmap Z desc) fd : fd ∉ L.*1 → with_fds L F !! fd = F !! fd.
Proof.
  induction L as [|[x d] L IH]; simpl; [done|]. intros Hfd. rewrite lookup_insert_ne by set_solver. apply IH. set_solver.
Qed.

Lemma wp_close_opened {A} n l L (F : gmap Z desc) o (k : prog A) Q : has (with_fds L F) ∅ o → NoDup l →
  (∀ fd, fd ∈ l ↔ fd ∈ L.*1) → (∀ fd, fd ∈ L.*1 → F !! fd = None) →
  (∀ n' o', fds o' = F → wp n' k Q o') → wp n (_ ← close_all l; k) Q o.
Proof.
  intros [Hf _] Hnd HlL HF HQ. apply wp_bind, wp_close_all; [done| |].
  - intros fd Hfd. rewrite Hf. by apply with_fds_in, HlL.
  - intros o' Ho' n' _. apply HQ. apply map_eq. intros fd. rewrite Ho', Hf. destruct (decide (fd ∈ l)) as [Hin|Hin].
    + symmetry. by apply HF, HlL.
    + apply with_fds_out. by rewrite <- HlL.
Qed.

Lemma main_fails base epfd n o : base !! epfd = None → fds o = <[epfd := fresh_desc Epoll false]> base →
  wp n (Done 1) (main_post base) o.
Proof. intros. left. eauto. Qed.

Lemma core_union base epfd nl us tfd sfd :
  <[sfd := mkDesc Signal Unbound true false]> (<[tfd := mkDesc Timer Unbound true false]>
  (<[us := mkDesc UnixSocket Listening true false]> (<[nl := mkDesc Netlink Bound true false]>
  (<[epfd := fresh_desc Epoll false]> base)))) = core epfd nl us tfd sfd ∪ base.
Proof. unfold core. by rewrite <- !insert_union_l, map_empty_union. Qed.

(** What [main] does once everything is set up. *)
Lemma wp_main_runs base epfd nl us tfd sfd fuel n o : (n < fuel)%nat →
  base ##ₘ core epfd nl us tfd sfd → NoDup [epfd; nl; us; tfd; sfd] → (∀ fd d, base !! fd = Some d → d_edge d = false) →
  has (core epfd nl us tfd sfd ∪ base) ∅ o →
  wp n (_ ← register epfd nl; _ ← register epfd us; _ ← register epfd tfd; _ ← register epfd sfd;
        _ ← event_loop fuel epfd nl us tfd sfd;
        _ ← close_all [nl; us]; _ ← sys unlink; _ ← close_all [tfd; sfd; epfd]; Done 0) (main_post base) o.
Proof.
  intros Hn Hdis Hne Hbase [Hf Hi]. pose proof (core_at base epfd nl us tfd sfd Hdis Hne Hbase) as (C1 & C2 & C3 & C4 & C5).
  pose proof (inv_start base _ _ _ _ _ Hdis Hne Hbase o Hf Hi) as Hinv. rewrite !list.NoDup_cons in Hne.
  assert (nl ≠ epfd ∧ us ≠ epfd ∧ tfd ≠ epfd ∧ sfd ≠ epfd) as (N1 & N2 & N3 & N4) by set_solver.
  assert (NoDup [epfd; nl; us; tfd; sfd]) as Hnd by (rewrite !list.NoDup_cons; done).
  apply wp_bind. eapply (wp_register base); [done|done|done|done|apply C2|done|]. clear o Hf Hi Hinv. intros o Hinv n1 H1.
  apply wp_bind. eapply (wp_register base); [done|done|done|done|apply C3|done|]. clear o Hinv. intros o Hinv n2 H2.
  apply wp_bind. eapply (wp_register base); [done|done|done|done|apply C4|done|]. clear o Hinv. intros o Hinv n3 H3.
  apply wp_bind. eapply (wp_register base); [done|done|done|done|apply C5|done|]. clear o Hinv. intros o Hinv n4 H4.
  apply wp_bind. eapply wp_mono; [|eapply (wp_event_loop base); [done|done|done|lia|done]]. clear o Hinv.
  intros ? o (E & [I1 I2 I3 I4 I5 I6]) n5 H5.
  apply wp_bind, wp_close_all; [solve_nodup|set_solver|]. intros o1 Ho1 n6 H6.
  sys_step; [done|]. apply wp_bind, wp_close_all; [solve_nodup| |].
  { intros fd Hfd. rewrite Ho1, decide_False by set_solver. set_solver. }
  intros o2 Ho2 n7 H7. right. split; [done|]. split; intros fd d Hd.
  - assert (core epfd nl us tfd sfd !! fd = None) as Hc by (by eapply map_disjoint_Some_l).
    rewrite Ho2, Ho1, !decide_False by set_solver. auto.
  - rewrite Ho2, Ho1 in Hd. destruct (decide (fd ∈ [tfd; sfd; epfd])) as [|Hx]; [done|].
    destruct (decide (fd ∈ [nl; us])) as [|Hy]; [done|]. destruct (I3 fd d Hd) as [Hc|[?|(_ & ? & ?)]]; [|by left|by right].
    destruct (core_only _ _ _ _ _ _ _ Hc) as [->|[->|[->|[->| ->]]]]; set_solver.
Qed.

Lemma wp_main fuel n o : (n < fuel)%nat → interest o = ∅ → (∀ fd d, fds o !! fd = Some d → d_edge d = false) →
  wp n (main fuel) (main_post (fds o)) o.
Proof.
  intros Hn Hi Hb. remember (fds o) as base eqn:HB. unfold main. sys_step; [done|].
  apply new_fd_true in Ha as [E|[E Hnew]]; [rewrite E, opened_fails by done; left; simpl; auto|]. rewrite <- HB in Hnew.
  rewrite (proj2 (Z.ltb_ge _ _)) by done.
  pose proof (has_opened base ∅ o a (fresh_desc Epoll false) (conj (eq_sym HB) Hi) E) as Ho1.
  remember (ret a) as epfd eqn:Hep. remember (opened a _ o) as o1. clear HB Heqo1 o a Hep Hi.
  apply wp_bind. eapply wp_mono; [|by apply wp_setup_netlink]. intros nl o2 Ho2 n2 Hn2. cbn beta.
  destruct Ho2 as [[-> [Hf2 _]]|(Hnl & Hnl' & Ho2)]; [by eapply main_fails|]. rewrite (proj2 (Z.ltb_ge _ _)) by done.
  apply wp_bind. eapply wp_mono; [|by apply wp_setup_unix]. intros us o3 Ho3 n3 Hn3. cbn beta.
  destruct Ho3 as [[-> Ho3]|(Hus & Hus' & Ho3)].
  { apply (wp_close_opened _ [nl] [(nl, _)] _ _ _ _ Ho3); [apply NoDup_singleton|set_solver|set_solver|].
    intros. by eapply main_fails. }
  rewrite (proj2 (Z.ltb_ge _ _)) by done. apply lookup_insert_None in Hus' as [Hus' Hus2].
  apply wp_bind. eapply wp_mono; [|by apply wp_setup_timerfd]. intros tfd o4 Ho4 n4 Hn4. cbn beta.
  destruct Ho4 as [[-> Ho4]|(Htf & Htf' & Ho4)].
  { apply (wp_close_opened _ [nl; us] [(us, _); (nl, _)] _ _ _ _ Ho4);
      [solve_nodup|set_solver|set_solver|]. intros. by eapply main_fails. }
  rewrite (proj2 (Z.ltb_ge _ _)) by done. apply lookup_insert_None in Htf' as [Htf' Htf2].
  apply lookup_insert_None in Htf' as [Htf' Htf3].
  apply wp_bind. eapply wp_mono; [|by apply wp_setup_signalfd]. intros sfd o5 Ho5 n5 Hn5. cbn beta.
  destruct Ho5 as [[-> Ho5]|(Hsf & Hsf' & Ho5)].
  { apply (wp_close_opened _ [nl; us; tfd] [(tfd, _); (us, _); (nl, _)] _ _ _ _ Ho5);
      [solve_nodup|set_solver|set_solver|]. intros. by eapply main_fails. }
  rewrite (proj2 (Z.ltb_ge _ _)) by done. apply lookup_insert_None in Hsf' as [Hsf' Hsf2].
  apply lookup_insert_None in Hsf' as [Hsf' Hsf3]. apply lookup_insert_None in Hsf' as [Hsf' Hsf4].
  apply lookup_insert_None in Hnl' as [Hnlb Hnle]. apply lookup_insert_None in Hus' as [Husb Huse].
  apply lookup_insert_None in Htf' as [Htfb Htfe]. apply lookup_insert_None in Hsf' as [Hsfb Hsfe].
  rewrite core_union in Ho5. apply wp_main_runs; [lia| |solve_nodup|done|done].
  unfold core. rewrite !map_disjoint_insert_r. split_and!; try done. apply map_disjoint_empty_r.
Qed.

(** C7: whatever the operating system answers, [main] makes every call on a
    descriptor that is open, of the right kind and in the right state (a bound
    and non-blocking netlink socket, a listening and non-blocking UNIX socket,
    clients for everything else), never waits while an edge-triggered client
    has not been read empty, and does not run out of fuel when the fuel exceeds
    the number of answers.  If it returns 1 nothing is left open but possibly
    the epoll descriptor, and if it returns 0 nothing but clients. *)
Theorem hostapd_descriptors fuel script o : interest o = ∅ → (∀ fd d, fds o !! fd = Some d → d_edge d = false) →
  (length script < fuel)%nat → safe_result (main_post (fds o)) (run script (main fuel) o).
Proof. intros Hi Hb Hf. eapply (wp_run (length script)); [by apply wp_main|done]. Qed.

(** A session: a client connects and sends five bytes, then SIGINT arrives. *)
Definition demo_script : list answer :=
  [returns 3;                                                                              (* epoll_create1 *)
   returns 4; returns 0; returns 2; returns 0;                                             (* netlink *)
   returns 5; fails EOTHER; returns 0; returns 0; returns 2; returns 0;                    (* listener *)
   returns 6; returns 0; returns 0; returns 7;                                             (* timer, signals *)
   returns 0; returns 0; returns 0; returns 0;                                             (* registered *)
   mkAnswer 1 EOTHER [(5, EPOLLIN)] []; returns 8; returns 2; returns 0; returns 0; fails EAGAIN;
   mkAnswer 1 EOTHER [(8, EPOLLIN)] []; returns 5; fails EAGAIN;
   mkAnswer 1 EOTHER [(7, EPOLLIN)] []; returns 128;
   returns 0; returns 0; returns 0; returns 0; returns 0; returns 0].

Lemma hostapd_descriptors_witness : ∃ o, run demo_script (main 40) (mkOs ∅ ∅ []) = Finished 0 o ∧
  log o = [AcceptedClient 8; ClientRead 8 5; SignalReceived] ∧ main_post ∅ 0 o.
Proof.
  pose proof (hostapd_descriptors 40 demo_script (mkOs ∅ ∅ []) eq_refl
    ltac:(simpl; intros fd d Hd; by rewrite lookup_empty in Hd) ltac:(vm_compute; lia)) as H.
  set (r := run demo_script (main 40) (mkOs ∅ ∅ [])) in *. vm_compute in r. subst r.
  eexists. split; [reflexivity|]. split; [reflexivity|]. exact H.
Defined.

(** The client of that session is still open at the end, and a failing set-up
    leaves the epoll descriptor open. *)
Lemma hostapd_leaks :
  (∃ o, run demo_script (main 40) (mkOs ∅ ∅ []) = Finished 0 o ∧ fds o = {[8 := mkDesc Client Unbound true false]}) ∧
  (∃ o, run [returns 3; fails EOTHER] (main 3) (mkOs ∅ ∅ []) = Finished 1 o ∧ fds o = {[3 := fresh_desc Epoll false]}).
Proof. split; eexists; (split; [vm_compute; reflexivity|vm_compute; reflexivity]). Qed.

(** The result of [make_nonblocking] is not looked at for a client: the loop
    registers it all the same, and reads it in blocking mode. *)
Lemma client_stays_blocking : ∃ o,
  run [returns 8; fails EOTHER; returns 0] (handle_unix_listener 9 5 3)
    (mkOs {[5 := mkDesc UnixSocket Listening true false; 3 := fresh_desc Epoll false]} ∅ []) = Waiting (accept 5) o ∧
  fds o !! 8 = Some (mkDesc Client Unbound false false) ∧ is_Some (interest o !! 8).
Proof. eexists. split; [vm_compute; reflexivity|]. split; [reflexivity|]. vm_compute. eauto. Qed.

(** ** What a client sends *)

Lemma run_sys {A} a script c (k : answer → prog A) o : legal o c = true → documented o c a = true →
  run (a :: script) (Sys c k) o = run script (k a) (after o c a).
Proof. intros Hl Hd. simpl. by rewrite Hl, Hd. Qed.

Definition is_client (fd : Z) (o : os) : Prop := ∃ d, fds o !! fd = Some d ∧ d_kind d = Client.

Lemma client_readable fd o : is_client fd o → legal o (read fd 512) = true.
Proof. intros (d & Hd & Hk). cbn [legal]. apply andb_true_iff. split; [done|]. eapply open_as_true; [done|]. unfold is_kind. by rewrite Hk. Qed.

Lemma run_client_reads fd ns : ∀ fuel script o, is_client fd o → Forall (λ n, 0 < n ≤ 512) ns → (length ns < fuel)%nat →
  ∃ o', run ((returns <$> ns) ++ script) (handle_unix_client fuel fd) o = run script (handle_unix_client (fuel - length ns) fd) o' ∧
    fds o' = fds o ∧ interest o' = interest o ∧ log o' = log o ++ (ClientRead fd <$> ns).
Proof.
  induction ns as [|n ns IH]; intros fuel script o Hc Hall Hf.
  - exists o. rewrite app_nil_r. by rewrite Nat.sub_0_r.
  - apply list.Forall_cons in Hall as [Hn Hall]. destruct fuel as [|fuel]; [simpl in Hf; lia|]. rewrite fmap_cons. cbn [app].
    cbn [handle_unix_client]. unfold sys. cbn [mbind prog_bind]. rewrite run_sys; [|by apply client_readable|].
    2:{ simpl. rewrite andb_true_iff, !Z.leb_le. lia. }
    simpl. rewrite (proj2 (Z.ltb_lt 0 n)), (proj2 (Z.eqb_neq n (-1))) by lia. cbn [andb].
    destruct (IH fuel script (logged (ClientRead fd n) o) Hc Hall ltac:(simpl in Hf; lia)) as (o' & E & Hfd & Hi & Hl).
    exists o'. split; [|split; [done|split; [done|by rewrite Hl; simpl; rewrite <- app_assoc]]].
    rewrite <- E. clear. destruct ((returns <$> ns) ++ script); reflexivity.
Qed.

(** The handler of a client reads everything that has arrived: on reads of
    [ns] bytes followed by EAGAIN it reports exactly those reads, in order, and
    returns with the client open and drained; followed by an end of file or
    another error it reports them, closes the client and returns. *)
Theorem handle_unix_client_reads fd ns fuel d o : fds o !! fd = Some d → d_kind d = Client →
  Forall (λ n, 0 < n ≤ 512) ns → (length ns < fuel)%nat →
  (∃ o', run ((returns <$> ns) ++ [fails EAGAIN]) (handle_unix_client fuel fd) o = Finished tt o' ∧
     log o' = log o ++ (ClientRead fd <$> ns) ∧ fds o' !! fd = Some (to_edge false d)) ∧
  (∃ o', run ((returns <$> ns) ++ [returns 0; returns 0]) (handle_unix_client fuel fd) o = Finished tt o' ∧
     log o' = log o ++ (ClientRead fd <$> ns) ++ [ClientClosed fd] ∧ fds o' = delete fd (fds o)) ∧
  (∃ o', run ((returns <$> ns) ++ [fails EOTHER; returns 0]) (handle_unix_client fuel fd) o = Finished tt o' ∧
     log o' = log o ++ (ClientRead fd <$> ns) ++ [Perror "read(unix client)"] ∧ fds o' = delete fd (fds o)).
Proof.
  intros Hd Hk Hall Hf. assert (is_client fd o) as Hc by (by exists d).
  assert (∀ script, ∃ o', run ((returns <$> ns) ++ script) (handle_unix_client fuel fd) o =
    run script (handle_unix_client (S (fuel - S (length ns))) fd) o' ∧
    fds o' = fds o ∧ log o' = log o ++ (ClientRead fd <$> ns)) as Hrun.
  { intros script. destruct (run_client_reads fd ns fuel script o Hc Hall Hf) as (o' & E & Hfd & _ & Hl).
    exists o'. rewrite E. by replace (S (fuel - S (length ns))) with (fuel - length ns)%nat by lia. }
  assert (∀ o', fds o' = fds o → legal o' (read fd 512) = true) as Hleg.
  { intros o' Ho'. apply client_readable. exists d. by rewrite Ho'. }
  assert (∀ o', fds o' = fds o → open_as o' fd (λ _, true) = true) as Hop.
  { intros o' Ho'. eapply open_as_true; [by rewrite Ho'|done]. }
  split_and!.
  - destruct (Hrun [fails EAGAIN]) as (o' & -> & Hfd & Hl). cbn -[legal documented]. rewrite (Hleg _ Hfd). cbn -[open_as].
    eexists. split; [done|]. split; [done|]. simpl. by rewrite lookup_alter_eq, Hfd, Hd.
  - destruct (Hrun [returns 0; returns 0]) as (o' & -> & Hfd & Hl). cbn -[legal documented]. rewrite (Hleg _ Hfd). cbn -[open_as].
    rewrite Hop by done. eexists. split; [done|]. simpl. by rewrite Hl, Hfd, app_assoc.
  - destruct (Hrun [fails EOTHER; returns 0]) as (o' & -> & Hfd & Hl). cbn -[legal documented]. rewrite (Hleg _ Hfd). cbn -[open_as bool_decide]. unfold again. rewrite !(bool_decide_eq_false_2 (EOTHER = EAGAIN ∨ EOTHER = EWOULDBLOCK)) by (by intros []). cbn -[open_as].
    rewrite Hop by done. eexists. split; [done|]. simpl. by rewrite Hl, Hfd, app_assoc.
Qed.

Lemma handle_unix_client_reads_witness : ∃ o', run [returns 512; returns 7; fails EAGAIN] (handle_unix_client 5 8)
  (mkOs {[8 := mkDesc Client Unbound true true]} ∅ []) = Finished tt o' ∧
  log o' = [ClientRead 8 512; ClientRead 8 7] ∧ fds o' !! 8 = Some (mkDesc Client Unbound true false).
Proof.
  apply (handle_unix_client_reads 8 [512; 7] 5 (mkDesc Client Unbound true true) (mkOs {[8 := mkDesc Client Unbound true true]} ∅ []));
    [reflexivity|reflexivity|repeat constructor; lia|simpl; lia].
Defined.
