(* ===== verification/PipePolls.v ===== *)
(** * pollMechanisms/poll/poll.c, epoll/epoll.c and select/select.c

    [N] pipes are shared out among [M] writer processes, and the parent reads
    one byte from every pipe that [poll], [epoll_wait] or [select] reports.  The
    pipes are a map from their read end to the bytes in them; reading an empty
    pipe would block the parent. *)

From stdpp Require Import base list gmap numbers strings.
From Stdlib Require Import ZArith Lia.
From S2P Require Import Prelude.

(** ** Arguments *)

(** [atoi] of the argument, if there is one. *)
Definition num_fds (arg : option Z) : Z := let N := default 1000 arg in if N <=? 0 then 1000 else N.
Definition num_writers (arg : option Z) : Z := let M := default 10 arg in if M <=? 0 then 10 else M.
Definition select_fds (arg : option Z) : Z :=
  match arg with Some v => if (v =? 3) || (v =? 5) then v else 3 | None => 3 end.

(** ** Pipes *)

Abbreviation pipe := (Z * Z)%type.   (* read end, write end *)
Abbreviation data := (gmap Z (list Z)).

Definition write_byte (fds : list pipe) (i c : Z) (d : data) : outcome data :=
  p ← vget fds i; Ret (alter (λ bs, bs ++ [c]) p.1 d).

Definition read_byte (fd : Z) (d : data) : outcome data :=
  match d !! fd with
  | Some (_ :: bs) => Ret (<[fd := bs]> d)
  | _ => Err (Exn "read blocks")
  end.

(** ** The writers *)

(** [start] and [end] of writer [w]. *)
Definition writer_range (w N M : Z) : outcome (Z * Z) :=
  a ← int (w * N);
  b ← int ((w + 1) * N);
  Ret (Z.quot a M, Z.quot b M).

Fixpoint range_writes (n : nat) (i c : Z) : list (Z * Z) :=
  match n with O => [] | S n => (i, c) :: range_writes n (i + 1) c end.

(** The writes of writer [w]: [letter] is its byte. *)
Definition writer (letter : Z → Z) (w N M : Z) : outcome (list (Z * Z)) :=
  '(start, end_) ← writer_range w N M;
  Ret (range_writes (Z.to_nat (end_ - start)) start (letter w)).

Definition poll_letter (w : Z) : Z := 97 + w mod 26.
Definition epoll_letter (w : Z) : Z := 48 + w mod 10.

(** The child of select.c writes to every pipe. *)
Fixpoint select_writes (n : nat) (i : Z) : list (Z * Z) :=
  match n with O => [] | S n => (i, 65 + i) :: select_writes n (i + 1) end.

Fixpoint run_writes (fds : list pipe) (ws : list (Z * Z)) (d : data) : outcome data :=
  match ws with
  | [] => Ret d
  | (i, c) :: ws => d ← write_byte fds i c d; run_writes fds ws d
  end.

(** ** The reader *)

Definition POLLIN : Z := 1.

(** [pfds]: read ends with their [revents], from index [i] on. *)
Fixpoint poll_reads (pfds : list (Z * Z)) (seen rv : Z) (d : data) : outcome data :=
  match pfds with
  | [] => Ret d
  | (fd, revents) :: pfds =>
      if negb (seen <? rv) then Ret d else
      if negb (Z.land revents POLLIN =? 0) then
        d ← read_byte fd d; poll_reads pfds (seen + 1) rv d
      else poll_reads pfds seen rv d
  end.

Fixpoint epoll_reads (events : list Z) (d : data) : outcome data :=
  match events with
  | [] => Ret d
  | fd :: events => d ← read_byte fd d; epoll_reads events d
  end.

(** [readset]: the descriptors that [select] left in the set. *)
Fixpoint select_reads (fds : list pipe) (readset : gset Z) (d : data) : outcome data :=
  match fds with
  | [] => Ret d
  | (fd, _) :: fds =>
      if bool_decide (fd ∈ readset) then d ← read_byte fd d; select_reads fds readset d
      else select_reads fds readset d
  end.

(** [FD_SET] of all read ends, and [maxfd]. *)
Fixpoint select_set (fds : list pipe) (readset : gset Z) (maxfd : Z) : gset Z * Z :=
  match fds with
  | [] => (readset, maxfd)
  | (fd, _) :: fds => select_set fds ({[fd]} ∪ readset) (if maxfd <? fd then fd else maxfd)
  end.

(** What the system calls report about pipes with contents [d]. *)
Definition is_ready (d : data) (fd : Z) : bool := match d !! fd with Some (_ :: _) => true | _ => false end.
Definition poll_answer (fds : list pipe) (d : data) : list (Z * Z) * Z :=
  ((λ p, (p.1, if is_ready d p.1 then POLLIN else 0)) <$> fds, Z.of_nat (countb (λ p, is_ready d p.1) fds)).
Definition epoll_answer (fds : list pipe) (d : data) (events : list Z) : Prop :=
  events ≡ₚ filter (λ fd, is_ready d fd = true) fds.*1.
Definition select_answer (readset : gset Z) (d : data) : gset Z := filter (λ fd, is_ready d fd = true) readset.

(** One byte less in every pipe that had one. *)
Definition drained (fds : list pipe) (d d' : data) : Prop :=
  ∀ fd, d' !! fd = if bool_decide (fd ∈ fds.*1) then tail <$> d !! fd else d !! fd.

(** ** Every pipe gets one byte *)

Lemma range_writes_fst n i c : (range_writes n i c).*1 = seqZ i (Z.of_nat n).
Proof.
  revert i. induction n as [|n IH]; intros i; [done|]. cbn [range_writes]. rewrite fmap_cons, IH, (seqZ_cons i) by lia. simpl.
  f_equal. f_equal; lia.
Qed.

Lemma range_writes_snd n i c x : x ∈ range_writes n i c → x.2 = c.
Proof. revert i. induction n as [|n IH]; intros i; simpl; [by intros ?%elem_of_nil|]. intros [->|?]%elem_of_cons; eauto. Qed.

Definition bound (N M w : Z) : Z := w * N / M.

Lemma bound_mono N M w : 0 < N → 0 < M → bound N M w ≤ bound N M (w + 1).
Proof. intros. unfold bound. apply Z.div_le_mono; lia. Qed.

Lemma writer_range_ok w N M : 0 < N → 0 < M → M * N ≤ INT_MAX → 0 ≤ w < M →
  writer_range w N M = Ret (bound N M w, bound N M (w + 1)).
Proof.
  intros HN HM Hmax Hw. unfold writer_range, int. assert (0 ≤ w * N ∧ (w + 1) * N ≤ M * N) as [H1 H2] by nia.
  assert (int_ok (w * N) = true) as -> by (unfold int_ok, INT_MIN in *; rewrite andb_true_iff, !Z.leb_le; nia).
  assert (int_ok ((w + 1) * N) = true) as -> by (unfold int_ok, INT_MIN in *; rewrite andb_true_iff, !Z.leb_le; nia).
  simpl. unfold bound. by rewrite !Z.quot_div_nonneg by nia.
Qed.

(** The indices of the first [m] writers, one after the other. *)
Lemma writers_cover letter N M m ws : 0 < N → 0 < M → M * N ≤ INT_MAX → Z.of_nat m ≤ M → length ws = m →
  (∀ k l, ws !! k = Some l → writer letter (Z.of_nat k) N M = Ret l) →
  (concat ws).*1 = seqZ 0 (bound N M (Z.of_nat m)) ∧
  ∀ i c, (i, c) ∈ concat ws → ∃ w, 0 ≤ w < Z.of_nat m ∧ bound N M w ≤ i < bound N M (w + 1) ∧ c = letter w.
Proof.
  intros HN HM Hmax. revert ws. induction m as [|m IH]; intros ws Hm Hl Hw.
  { destruct ws; [|done]. unfold bound. rewrite Z.div_0_l by lia. split; [done|]. by intros i c ?%elem_of_nil. }
  destruct (exists_last_or_nil ws) as [->|(ws' & l & ->)]; [done|]. rewrite length_app in Hl. simpl in Hl.
  destruct (IH ws' ltac:(lia) ltac:(lia)) as [IH1 IH2].
  { intros k l' Hk. apply Hw. by apply lookup_app_l_Some. }
  assert (writer letter (Z.of_nat m) N M = Ret l) as Hlast.
  { apply Hw. rewrite lookup_app_r by lia. by replace (m - length ws')%nat with 0%nat by lia. }
  unfold writer in Hlast. rewrite writer_range_ok in Hlast by lia. simpl in Hlast. injection Hlast as <-.
  pose proof (bound_mono N M (Z.of_nat m) HN HM) as Hmono.
  assert (0 ≤ bound N M (Z.of_nat m)) by (apply Z.div_pos; nia).
  rewrite concat_app. simpl. rewrite app_nil_r. replace (Z.of_nat (S m)) with (Z.of_nat m + 1) by lia. split.
  - rewrite fmap_app, IH1, range_writes_fst, Z2Nat.id by lia.
    rewrite <- (Z.add_0_l (bound N M (Z.of_nat m))) at 2. rewrite <- seqZ_app by lia. f_equal. lia.
  - intros i c [Hin|Hin]%elem_of_app.
    + destruct (IH2 i c Hin) as (w & ? & ?). exists w. split; [lia|done].
    + exists (Z.of_nat m). split; [lia|]. split; [|by apply range_writes_snd in Hin].
      apply (list_elem_of_fmap_2 fst) in Hin. rewrite range_writes_fst in Hin. apply elem_of_seqZ in Hin. simpl in Hin. lia.
Qed.

Lemma run_writes_spec fds : NoDup fds.*1 → ∀ ws d, NoDup ws.*1 → (∀ i, i ∈ ws.*1 → 0 ≤ i < Z.of_nat (length fds)) →
  ∃ d', run_writes fds ws d = Ret d' ∧
    (∀ i c p, (i, c) ∈ ws → fds !! Z.to_nat i = Some p → d' !! p.1 = (λ bs, bs ++ [c]) <$> d !! p.1) ∧
    (∀ fd, (∀ i p, i ∈ ws.*1 → fds !! Z.to_nat i = Some p → p.1 ≠ fd) → d' !! fd = d !! fd).
Proof.
  intros Hfds. induction ws as [|[i c] ws IH]; intros d Hnd Hr.
  { exists d. split; [done|]. split; [|done]. by intros i c p ?%elem_of_nil. }
  rewrite fmap_cons in *. apply list.NoDup_cons in Hnd as [Hi Hnd]. simpl in Hi.
  destruct (vget_total fds i) as (q & Hq & Hqi); [apply Hr; set_solver|].
  assert (write_byte fds i c d = Ret (alter (λ bs, bs ++ [c]) q.1 d)) as Hwr by (unfold write_byte; by rewrite Hq).
  cbn [run_writes]. rewrite Hwr. cbn [mbind outcome_bind].
  destruct (IH (alter (λ bs, bs ++ [c]) q.1 d) Hnd ltac:(set_solver)) as (d' & -> & H1 & H2). exists d'. split; [done|].
  assert (∀ j p, fds !! Z.to_nat j = Some p → 0 ≤ j → p.1 = q.1 → j = i) as Hinj.
  { intros j p Hj Hj0 Hpq. assert (fds.*1 !! Z.to_nat j = Some q.1) as F1 by (by rewrite list_lookup_fmap, Hj, <- Hpq).
    assert (fds.*1 !! Z.to_nat i = Some q.1) as F2 by (by rewrite list_lookup_fmap, Hqi).
    pose proof (NoDup_lookup _ _ _ _ Hfds F1 F2). specialize (Hr i ltac:(set_solver)). lia. }
  split.
  - intros j e p [[= -> ->]|Hin]%elem_of_cons Hp.
    + assert (p = q) as -> by congruence. rewrite H2; [by rewrite lookup_alter_eq|]. intros j p Hj Hp' Heq.
      pose proof (Hr j ltac:(set_solver)). assert (j = i) by (eapply Hinj; eauto; lia). congruence.
    + rewrite (H1 j e p Hin Hp). f_equal. rewrite lookup_alter_ne; [done|]. intros Heq.
      assert (j ∈ ws.*1) as Hj by (apply list_elem_of_fmap; by exists (j, e)). pose proof (Hr j ltac:(set_solver)).
      assert (j = i) by (eapply Hinj; eauto; lia). congruence.
  - intros fd Hfd. rewrite H2; [|intros j p Hj; apply Hfd; set_solver]. apply lookup_alter_ne. apply (Hfd i q); [set_solver|done].
Qed.

Definition empty_pipes (fds : list pipe) : data := list_to_map ((λ p, (p.1, [])) <$> fds).

Lemma empty_pipes_at fds i p : NoDup fds.*1 → fds !! i = Some p → empty_pipes fds !! p.1 = Some [].
Proof.
  intros Hnd Hp. apply elem_of_list_to_map_1.
  - rewrite <- list_fmap_compose. done.
  - apply list_elem_of_fmap. exists p. split; [done|]. by eapply list_elem_of_lookup_2.
Qed.

(** The ranges of the writers divide up the pipes: in whatever order the
    writes of the [M] processes are executed, every one of the [N] pipes gets
    exactly one byte, the letter of the writer in whose range it is, and no
    write leaves the array. *)
Theorem every_pipe_written letter N M fds ws sched : 0 < N → 0 < M → M * N ≤ INT_MAX →
  Z.of_nat (length fds) = N → NoDup fds.*1 → Z.of_nat (length ws) = M →
  (∀ w l, ws !! w = Some l → writer letter (Z.of_nat w) N M = Ret l) → sched ≡ₚ concat ws →
  ∃ d, run_writes fds sched (empty_pipes fds) = Ret d ∧
    ∀ i p, fds !! i = Some p → ∃ w, 0 ≤ w < M ∧ bound N M w ≤ Z.of_nat i < bound N M (w + 1) ∧ d !! p.1 = Some [letter w].
Proof.
  intros HN HM Hmax Hfds Hnd Hlen Hws Hsched.
  destruct (writers_cover letter N M (length ws) ws HN HM Hmax ltac:(lia) eq_refl Hws) as [Hfst Hsnd].
  rewrite Hlen in Hfst, Hsnd. replace (bound N M M) with N in Hfst by (unfold bound; rewrite Z.mul_comm, Z.div_mul; lia).
  assert (sched.*1 ≡ₚ seqZ 0 N) as Hs by (by rewrite Hsched, Hfst).
  assert (∀ i, i ∈ sched.*1 ↔ 0 ≤ i < N) as Hin by (intros i; rewrite Hs, elem_of_seqZ; lia).
  destruct (run_writes_spec fds Hnd sched (empty_pipes fds)) as (d & E & H1 & _).
  { rewrite Hs. apply NoDup_seqZ. }
  { intros i Hi. apply Hin in Hi. lia. }
  exists d. split; [done|]. intros i p Hp. assert (Z.of_nat i ∈ sched.*1) as Hi.
  { apply Hin. apply lookup_lt_Some in Hp. lia. }
  apply list_elem_of_fmap in Hi as ([j c] & Hj & Hi). simpl in Hj. subst j.
  destruct (Hsnd (Z.of_nat i) c) as (w & Hw & Hb & ->); [by rewrite <- Hsched|]. exists w. split; [done|]. split; [done|].
  rewrite (H1 _ _ p Hi); [|by rewrite Nat2Z.id]. by rewrite (empty_pipes_at fds i p Hnd Hp).
Qed.

(** Three writers and seven pipes; the second writer is scheduled first. *)
Definition demo_pipes : list pipe := [(3, 4); (5, 6); (7, 8); (9, 10); (11, 12); (13, 14); (15, 16)].
Lemma every_pipe_written_witness : ∃ d,
  run_writes demo_pipes ([(2, 98); (3, 98)] ++ [(0, 97); (1, 97)] ++ [(4, 99); (5, 99); (6, 99)]) (empty_pipes demo_pipes) = Ret d ∧
  ∀ i p, demo_pipes !! i = Some p → ∃ w, 0 ≤ w < 3 ∧ bound 7 3 w ≤ Z.of_nat i < bound 7 3 (w + 1) ∧ d !! p.1 = Some [poll_letter w].
Proof.
  apply (every_pipe_written poll_letter 7 3 demo_pipes [[(0, 97); (1, 97)]; [(2, 98); (3, 98)]; [(4, 99); (5, 99); (6, 99)]]);
    [lia|lia|vm_compute; discriminate|reflexivity|by apply (bool_decide_unpack _); vm_compute|reflexivity| |].
  - intros [|[|[|w]]] l Hl; simpl in Hl; simplify_eq; vm_compute; reflexivity.
  - apply (bool_decide_unpack _). vm_compute. exact I.
Defined.

(** ** The reader empties what is ready *)

Lemma read_byte_ready fd d : is_ready d fd = true → ∃ d', read_byte fd d = Ret d' ∧
  ∀ x, d' !! x = if decide (x = fd) then tail <$> d !! fd else d !! x.
Proof.
  unfold is_ready, read_byte. destruct (d !! fd) as [[|b bs]|] eqn:E; try done. intros _. eexists. split; [done|].
  intros x. destruct (decide (x = fd)) as [->|]; [by rewrite lookup_insert_eq|by rewrite lookup_insert_ne].
Qed.

Lemma epoll_reads_spec l : ∀ d, NoDup l → (∀ fd, fd ∈ l → is_ready d fd = true) →
  ∃ d', epoll_reads l d = Ret d' ∧ ∀ x, d' !! x = if bool_decide (x ∈ l) then tail <$> d !! x else d !! x.
Proof.
  induction l as [|fd l IH]; intros d Hnd Hr; [by exists d|]. apply list.NoDup_cons in Hnd as [Hfd Hnd].
  destruct (read_byte_ready fd d) as (d1 & E & H1); [set_solver|]. cbn [epoll_reads]. rewrite E. cbn [mbind outcome_bind].
  destruct (IH d1 Hnd) as (d2 & -> & H2).
  { intros x Hx. unfold is_ready. rewrite H1, decide_False by (by intros ->). apply Hr. set_solver. }
  exists d2. split; [done|]. intros x. rewrite H2, H1. destruct (decide (x = fd)) as [->|Hx].
  - rewrite (bool_decide_eq_false_2 (fd ∈ l)) by done. by rewrite bool_decide_eq_true_2 by set_solver.
  - rewrite (bool_decide_ext (x ∈ fd :: l) (x ∈ l)) by set_solver. done.
Qed.

Definition ready_fds (fds : list pipe) (d : data) : list Z := filter (λ fd, is_ready d fd = true) fds.*1.

Lemma ready_reads fds d evs : NoDup fds.*1 → evs ≡ₚ ready_fds fds d → ∃ d', epoll_reads evs d = Ret d' ∧ drained fds d d'.
Proof.
  intros Hnd Hev. destruct (epoll_reads_spec evs d) as (d' & E & Hd').
  { rewrite Hev. by apply list.NoDup_filter. }
  { intros fd. rewrite Hev. unfold ready_fds. rewrite list_elem_of_filter. by intros [? _]. }
  exists d'. split; [done|]. intros fd. rewrite Hd'. destruct (bool_decide (fd ∈ evs)) eqn:E1.
  - apply bool_decide_eq_true in E1. rewrite Hev in E1. apply list_elem_of_filter in E1 as [_ ?]. by rewrite bool_decide_eq_true_2.
  - destruct (bool_decide (fd ∈ fds.*1)) eqn:E2; [|done]. apply bool_decide_eq_false in E1. apply bool_decide_eq_true in E2.
    destruct (d !! fd) as [[|b bs]|] eqn:E3; try done. exfalso. apply E1. rewrite Hev. apply list_elem_of_filter. split; [|done].
    unfold is_ready. by rewrite E3.
Qed.

(** [poll] and [select] read the same descriptors in the order of the pipes. *)
Lemma none_ready d0 fds : countb (λ p : pipe, is_ready d0 p.1) fds = 0%nat → ready_fds fds d0 = [].
Proof.
  unfold ready_fds. induction fds as [|[fd x] fds IH]; [done|]. rewrite fmap_cons. cbn [countb fst].
  destruct (is_ready d0 fd) eqn:E; simpl; [done|]. intros Hc. rewrite filter_cons_False by (by rewrite E). auto.
Qed.

Lemma poll_reads_ready d0 fds : ∀ seen d, poll_reads ((λ p, (p.1, if is_ready d0 p.1 then POLLIN else 0)) <$> fds) seen
  (seen + Z.of_nat (countb (λ p : pipe, is_ready d0 p.1) fds)) d = epoll_reads (ready_fds fds d0) d.
Proof.
  induction fds as [|[fd x] fds IH]; intros seen d; [done|]. pose proof (none_ready d0 ((fd, x) :: fds)) as Hnone.
  unfold ready_fds in *. rewrite !fmap_cons in *. cbn [poll_reads countb fst] in *. destruct (is_ready d0 fd) eqn:E.
  - rewrite filter_cons_True by done. rewrite (proj2 (Z.ltb_lt _ _)) by (simpl; lia). cbn [negb Z.land POLLIN Pos.land Z.eqb epoll_reads].
    destruct (read_byte fd d) as [d1|]; [|done]. simpl. rewrite <- (IH (seen + 1)). f_equal. lia.
  - destruct (Z.ltb_spec seen (seen + Z.of_nat (Nat.b2n false + countb (λ p : pipe, is_ready d0 p.1) fds))) as [Hlt|Hge].
    + rewrite filter_cons_False by (by rewrite E). simpl. apply IH.
    + rewrite Hnone by (simpl in *; lia). done.
Qed.

Lemma select_reads_ready d0 S fds : (∀ fd, fd ∈ fds.*1 → fd ∈ S) → ∀ d,
  select_reads fds (select_answer S d0) d = epoll_reads (ready_fds fds d0) d.
Proof.
  unfold ready_fds, select_answer. induction fds as [|[fd x] fds IH]; intros HS d; [done|]. rewrite fmap_cons in *.
  cbn [select_reads fst]. rewrite (bool_decide_ext (fd ∈ filter _ _) (is_ready d0 fd = true)) by (rewrite elem_of_filter; set_solver).
  destruct (is_ready d0 fd) eqn:E.
  - rewrite filter_cons_True by done. cbn [epoll_reads]. rewrite bool_decide_eq_true_2 by done.
    destruct (read_byte fd d); simpl; [|done]. apply IH. set_solver.
  - rewrite filter_cons_False by (by rewrite E). rewrite bool_decide_eq_false_2 by done. apply IH. set_solver.
Qed.

Lemma select_set_spec fds : ∀ S m, let r := select_set fds S m in
  (∀ fd, fd ∈ r.1 ↔ fd ∈ S ∨ fd ∈ fds.*1) ∧ m ≤ r.2 ∧ ∀ fd, fd ∈ fds.*1 → fd < r.2 + 1.
Proof.
  induction fds as [|[fd x] fds IH]; intros S m; simpl; [set_solver by lia|].
  destruct (IH ({[fd]} ∪ S) (if m <? fd then fd else m)) as (H1 & H2 & H3). split; [|split].
  - intros y. rewrite H1. set_solver.
  - destruct (Z.ltb_spec m fd); lia.
  - intros y [->|Hy]%elem_of_cons; [|by apply H3]. destruct (Z.ltb_spec m fd); lia.
Qed.

(** Whatever is in the pipes, the three readers do the same: each takes one
    byte out of every pipe that is not empty and leaves the others alone,
    without ever reading from a pipe that would block; the count that stops the
    loop over [pfds] does not make it miss a pipe, the order in which [epoll]
    reports does not matter, and the [nfds] given to [select] is large enough. *)
Theorem readers_agree fds d evs : NoDup fds.*1 → epoll_answer fds d evs →
  let '(pfds, rv) := poll_answer fds d in
  let '(readset, maxfd) := select_set fds ∅ 0 in
  (∀ fd, fd ∈ fds.*1 → fd < maxfd + 1) ∧
  ∃ d', drained fds d d' ∧ poll_reads pfds 0 rv d = Ret d' ∧ epoll_reads evs d = Ret d' ∧
    select_reads fds (select_answer readset d) d = Ret d'.
Proof.
  intros Hnd Hev. cbn [poll_answer]. pose proof (select_set_spec fds ∅ 0) as Hsel. destruct (select_set fds ∅ 0) as [S m].
  simpl in Hsel. destruct Hsel as (HS & _ & Hmax). split; [done|].
  destruct (ready_reads fds d evs Hnd Hev) as (d' & E & Hd). destruct (ready_reads fds d (ready_fds fds d) Hnd) as (d2 & E2 & Hd2); [done|].
  assert (d2 = d') as -> by (apply map_eq; intros fd; by rewrite Hd, Hd2).
  exists d'. split; [done|]. split; [by rewrite <- E2, <- (poll_reads_ready d fds 0)|]. split; [done|].
  rewrite <- E2. apply select_reads_ready. intros fd Hfd. apply HS. by right.
Qed.

Lemma readers_agree_witness : ∃ d', epoll_reads [7; 3] {[3 := [97]; 5 := []; 7 := [98; 99]]} = Ret d' ∧
  poll_reads [(3, 1); (5, 0); (7, 1)] 0 2 {[3 := [97]; 5 := []; 7 := [98; 99]]} = Ret d'.
Proof.
  destruct (readers_agree [(3, 4); (5, 6); (7, 8)] {[3 := [97]; 5 := []; 7 := [98; 99]]} [7; 3]) as [_ (d' & _ & H1 & H2 & _)];
    [by apply (bool_decide_unpack _); vm_compute| |by exists d'].
  unfold epoll_answer. apply (bool_decide_unpack _). vm_compute. exact I.
Defined.

(** ** Arguments, and the child of select.c *)

Lemma arguments_positive arg : 0 < num_fds arg ∧ 0 < num_writers arg ∧ (select_fds arg = 3 ∨ select_fds arg = 5).
Proof.
  unfold num_fds, num_writers, select_fds. split_and!; [zcases; lia|zcases; lia|]. destruct arg as [v|]; [|by left].
  destruct (Z.eqb_spec v 3), (Z.eqb_spec v 5); simpl; auto.
Qed.

Lemma select_writes_spec n : ∀ i, (select_writes n i).*1 = seqZ i (Z.of_nat n) ∧ ∀ x, x ∈ select_writes n i → x.2 = 65 + x.1.
Proof.
  induction n as [|n IH]; intros i; [split; [done|by intros x ?%elem_of_nil]|]. destruct (IH (i + 1)) as [H1 H2]. cbn [select_writes]. split.
  - rewrite fmap_cons, H1, (seqZ_cons i) by lia. simpl. f_equal. f_equal; lia.
  - intros x [->|Hx]%elem_of_cons; [done|by apply H2].
Qed.

Lemma select_child_writes fds : NoDup fds.*1 → ∃ d,
  run_writes fds (select_writes (length fds) 0) (empty_pipes fds) = Ret d ∧
  ∀ i p, fds !! i = Some p → d !! p.1 = Some [65 + Z.of_nat i].
Proof.
  intros Hnd. destruct (select_writes_spec (length fds) 0) as [Hf Hs].
  destruct (run_writes_spec fds Hnd (select_writes (length fds) 0) (empty_pipes fds)) as (d & E & H1 & _).
  { rewrite Hf. apply NoDup_seqZ. }
  { intros i. rewrite Hf, elem_of_seqZ. lia. }
  exists d. split; [done|]. intros i p Hp. assert (Z.of_nat i ∈ (select_writes (length fds) 0).*1) as Hi.
  { rewrite Hf, elem_of_seqZ. apply lookup_lt_Some in Hp. lia. }
  apply list_elem_of_fmap in Hi as ([j c] & Hj & Hi). simpl in Hj. subst j. pose proof (Hs _ Hi) as Hc. simpl in Hc. subst c.
  rewrite (H1 _ _ p Hi); [|by rewrite Nat2Z.id]. by rewrite (empty_pipes_at fds i p Hnd Hp).
Qed.
