(* ===== verification/Cat.v ===== *)
(** * pollMechanisms/io_uring/cat_io_uring.c

    Copying files to /dev/null with read and write, and with io_uring.  A file
    is its content; what is written is collected in [out].  What the system does
    is taken from a script of choices: every number of bytes that [read] and
    [write] may return, and every order in which io_uring may complete. *)

From stdpp Require Import base list numbers sets.
From Stdlib Require Import ZArith Lia.
From S2P Require Import Prelude.

Definition QUEUE_DEPTH : nat := Z.to_nat 128.
Definition BLOCK_SIZE : nat := Z.to_nat (64 * 1024).

Lemma sizes_positive : (0 < QUEUE_DEPTH)%nat ∧ (0 < BLOCK_SIZE)%nat.
Proof. unfold QUEUE_DEPTH, BLOCK_SIZE. lia. Qed.
#[global] Opaque QUEUE_DEPTH BLOCK_SIZE.

(** ** read and write *)

Inductive sys_result :=
  | Bytes (n : nat)
  | Interrupted       (* -1 with EINTR *)
  | Failed.           (* -1 with another error *)

(** The manual: a read returns at least one byte before the end of the file, no
    more than a block, and none at the end; a write takes at most what it is
    given.  Every such result is given by some choice. *)
Definition read_result (choice : sys_result) (len : nat) : sys_result :=
  match choice with Bytes n => Bytes (Nat.min (S n) (Nat.min BLOCK_SIZE len)) | r => r end.
Definition write_result (choice : sys_result) (len : nat) : sys_result :=
  match choice with Bytes n => Bytes (Nat.min n len) | r => r end.

Inductive copy (A : Type) :=
  | Returned (a : A) (script : list sys_result) (out : list Z)
  | Exited (out : list Z)          (* exit(1) *)
  | Starved (out : list Z).        (* waiting for the next system call *)
Arguments Returned {A} a script out.
Arguments Exited {A} out.
Arguments Starved {A} out.

(** The loop that writes [n] bytes [chunk] from offset [off] on. *)
Fixpoint write_all (script : list sys_result) (chunk : list Z) (off : nat) (out : list Z) : copy unit :=
  if (off <? length chunk)%nat then
    match script with
    | [] => Starved out
    | choice :: script =>
        match write_result choice (length chunk - off) with
        | Bytes w => write_all script chunk (off + w) (out ++ take w (drop off chunk))
        | Interrupted => write_all script chunk off out
        | Failed => Exited out
        end
    end
  else Returned tt script out.

(** The loop over one open file, with [rest] still to be read; the result says
    that no [read] failed. *)
Fixpoint copy_file (fuel : nat) (script : list sys_result) (rest : list Z) (out : list Z) : copy bool :=
  match fuel, script with
  | O, _ | _, [] => Starved out
  | S fuel, choice :: script =>
      match read_result choice (length rest) with
      | Bytes O => Returned true script out
      | Bytes n =>
          match write_all script (take n rest) 0 out with
          | Returned _ script out => copy_file fuel script (drop n rest) out
          | Exited out => Exited out
          | Starved out => Starved out
          end
      | _ => Returned false script out
      end
  end.

(** [None]: the file cannot be opened. *)
Fixpoint cat_traditional_multi (script : list sys_result) (files : list (option (list Z))) (out : list Z) : copy bool :=
  match files with
  | [] => Returned true script out
  | None :: _ => Exited out
  | Some content :: files =>
      match copy_file (S (length script)) script content out with
      | Returned ok script out =>
          match cat_traditional_multi script files out with
          | Returned ok' script out => Returned (ok && ok') script out
          | r => r
          end
      | Exited out => Exited out
      | Starved out => Starved out
      end
  end.

(** [cat_traditional]: one file, and [write] is called once per block. *)
Fixpoint cat_traditional (fuel : nat) (script : list sys_result) (rest out : list Z) : copy unit :=
  match fuel, script with
  | O, _ | _, [] => Starved out
  | S fuel, choice :: script =>
      match read_result choice (length rest) with
      | Bytes (S n) =>
          match script with
          | [] => Starved out
          | choice :: script =>
              cat_traditional fuel script (drop (S n) rest)
                (match write_result choice (length (take (S n) rest)) with
                 | Bytes w => out ++ take w (take (S n) rest)
                 | _ => out
                 end)
          end
      | _ => Returned tt script out
      end
  end.

(** ** The copy is exact *)

Definition copied {A} (r : copy A) : list Z :=
  match r with Returned _ _ out | Exited out | Starved out => out end.

Lemma write_all_spec script chunk : ∀ off out, (off ≤ length chunk)%nat →
  match write_all script chunk off out with
  | Returned _ script' out' => out' = out ++ drop off chunk ∧ (length script' ≤ length script)%nat
  | Exited out' | Starved out' => ∃ k, out' = out ++ take k (drop off chunk)
  end.
Proof.
  induction script as [|c script IH]; intros off out Hoff; simpl.
  { destruct (Nat.ltb_spec off (length chunk)); [exists 0%nat; by rewrite app_nil_r|].
    rewrite drop_ge, app_nil_r by lia. done. }
  destruct (Nat.ltb_spec off (length chunk)) as [Hlt|Hge]; [|by rewrite drop_ge, app_nil_r by lia].
  destruct c as [w| |]; simpl.
  - set (v := Nat.min w (length chunk - off)). specialize (IH (off + v)%nat (out ++ take v (drop off chunk)) ltac:(lia)).
    destruct (write_all script chunk (off + v) _) as [[] s' o'|o'|o'].
    + destruct IH as [-> Hl]. split; [|lia]. by rewrite <- app_assoc, <- (drop_drop _ v off), take_drop.
    + destruct IH as [k ->]. exists (v + k)%nat. rewrite <- app_assoc, <- (drop_drop _ v off). by rewrite take_take_drop.
    + destruct IH as [k ->]. exists (v + k)%nat. rewrite <- app_assoc, <- (drop_drop _ v off). by rewrite take_take_drop.
  - specialize (IH off out Hoff). destruct (write_all script chunk off out) as [[] s' o'|o'|o']; [|done|done].
    destruct IH as [-> ?]. split; [done|lia].
  - exists 0%nat. by rewrite app_nil_r.
Qed.

Lemma copy_file_spec fuel : ∀ script rest out, (length script < fuel)%nat →
  match copy_file fuel script rest out with
  | Returned ok script' out' => (length script' ≤ length script)%nat ∧
      ∃ k, out' = out ++ take k rest ∧ (ok = true → k = length rest)
  | Exited out' | Starved out' => ∃ k, out' = out ++ take k rest
  end.
Proof.
  induction fuel as [|fuel IH]; intros script rest out Hf; [lia|]. cbn [copy_file].
  assert (∃ k, out = out ++ take k rest) as H0 by (exists 0%nat; by rewrite app_nil_r).
  destruct script as [|c script]; [done|]. simpl in Hf. destruct c as [n| |]; cbn [read_result].
  2,3: simpl; split; [lia|]; exists 0%nat; by rewrite app_nil_r.
  pose proof sizes_positive as [_ Hblock]. revert Hblock. generalize BLOCK_SIZE as block. intros block Hblock.
  set (m := Nat.min (S n) (Nat.min block (length rest))). assert (m ≤ length rest)%nat as Hm by lia.
  assert (m = 0%nat → length rest = 0%nat) as Hz.
  { lia. }
  clearbody m. destruct m as [|m].
  { simpl. split; [lia|]. exists 0%nat. rewrite app_nil_r. split; [done|]. intros _. by rewrite Hz. }
  pose proof (write_all_spec script (take (S m) rest) 0 out ltac:(lia)) as Hw. rewrite drop_0 in Hw.
  destruct (write_all script (take (S m) rest) 0 out) as [[] s' o'|o'|o'].
  - destruct Hw as [-> Hl]. specialize (IH s' (drop (S m) rest) (out ++ take (S m) rest) ltac:(lia)).
    destruct (copy_file fuel s' (drop (S m) rest) _) as [ok s2 o2|o2|o2].
    + destruct IH as (Hl2 & k & -> & Hk). split; [simpl; lia|]. exists (S m + k)%nat. rewrite <- app_assoc, take_take_drop. split; [done|].
      intros Hok. rewrite (Hk Hok), length_drop. lia.
    + destruct IH as [k ->]. exists (S m + k)%nat. by rewrite <- app_assoc, take_take_drop.
    + destruct IH as [k ->]. exists (S m + k)%nat. by rewrite <- app_assoc, take_take_drop.
  - destruct Hw as [k ->]. exists (Nat.min k (S m)). by rewrite take_take.
  - destruct Hw as [k ->]. exists (Nat.min k (S m)). by rewrite take_take.
Qed.

(** Every file is copied up to some point, in the order of the files. *)
Definition copied_prefixes (files : list (option (list Z))) (out : list Z) : Prop :=
  ∃ cs, Forall2 (λ c f, c `prefix_of` default [] f) cs files ∧ out = concat cs.

Lemma no_prefixes (files : list (option (list Z))) : Forall2 (λ c f, c `prefix_of` default [] f) (replicate (length files) []) files.
Proof. induction files as [|f files IH]; simpl; constructor; [apply prefix_nil|done]. Qed.

Lemma concat_nils {A} n : concat (replicate n (@nil A)) = [].
Proof. by induction n. Qed.

Lemma multi_spec files : ∀ script out, match cat_traditional_multi script files out with
  | Returned ok _ out' => (ok = true → out' = out ++ concat (default [] <$> files)) ∧
      ∃ o, copied_prefixes files o ∧ out' = out ++ o
  | Exited out' | Starved out' => ∃ o, copied_prefixes files o ∧ out' = out ++ o
  end.
Proof.
  assert (∀ c (content : list Z) files o, c `prefix_of` content → copied_prefixes files o →
    copied_prefixes (Some content :: files) (c ++ o)) as Hcons.
  { intros c content fs o Hc (cs & Hcs & ->). exists (c :: cs). split; [|done]. by constructor. }
  assert (∀ fs, copied_prefixes fs []) as Hnil.
  { intros fs. exists (replicate (length fs) []). split; [apply no_prefixes|by rewrite concat_nils]. }
  induction files as [|[content|] files IH]; intros script out; cbn [cat_traditional_multi].
  - rewrite app_nil_r. split; [done|]. exists []. by rewrite app_nil_r.
  - pose proof (copy_file_spec (S (length script)) script content out ltac:(lia)) as Hc.
    assert (∀ k, take k content `prefix_of` content) as Hp by (intros k; apply prefix_take).
    destruct (copy_file _ script content out) as [ok s' o'|o'|o'].
    + destruct Hc as (_ & k & -> & Hk). specialize (IH s' (out ++ take k content)).
      destruct (cat_traditional_multi s' files _) as [ok' s2 o2|o2|o2].
      * destruct IH as (Hall & o & Ho & ->). split; [|exists (take k content ++ o); split; [by apply Hcons|by rewrite app_assoc]].
        intros [-> ->]%andb_true_iff. rewrite (Hall eq_refl), (Hk eq_refl), firstn_all. csimpl. by rewrite app_assoc.
      * destruct IH as (o & Ho & ->). exists (take k content ++ o). split; [by apply Hcons|by rewrite app_assoc].
      * destruct IH as (o & Ho & ->). exists (take k content ++ o). split; [by apply Hcons|by rewrite app_assoc].
    + destruct Hc as [k ->]. exists (take k content). split; [|done]. rewrite <- (app_nil_r (take k content)). by apply Hcons.
    + destruct Hc as [k ->]. exists (take k content). split; [|done]. rewrite <- (app_nil_r (take k content)). by apply Hcons.
  - exists []. by rewrite app_nil_r.
Qed.

(** ** When every call makes progress, the copy ends *)

Definition progress (c : sys_result) : Prop := match c with Bytes (S _) => True | _ => False end.

Lemma write_all_ends script chunk : ∀ off out, Forall progress script → (length chunk - off ≤ length script)%nat →
  ∃ s', write_all script chunk off out = Returned tt s' (out ++ drop off chunk) ∧ Forall progress s' ∧
    (length script - (length chunk - off) ≤ length s' ≤ length script)%nat.
Proof.
  induction script as [|c script IH]; intros off out Hp Hl; simpl.
  { destruct (Nat.ltb_spec off (length chunk)); [simpl in Hl; lia|]. exists []. rewrite drop_ge, app_nil_r by lia. done. }
  apply list.Forall_cons in Hp as [Hc Hp]. simpl in Hl. destruct (Nat.ltb_spec off (length chunk)) as [Hlt|Hge].
  - destruct c as [[|w]| |]; try done. cbn [write_result]. set (v := Nat.min (S w) (length chunk - off)).
    destruct (IH (off + v)%nat (out ++ take v (drop off chunk)) Hp ltac:(lia)) as (s' & E & Hs & Hl').
    exists s'. split; [|split; [done|lia]]. etransitivity; [exact E|].
    by rewrite <- app_assoc, <- (drop_drop _ v off), take_drop.
  - exists (c :: script). rewrite drop_ge, app_nil_r by lia. split; [done|]. split; [by constructor|simpl; lia].
Qed.

Lemma copy_file_ends fuel : ∀ script rest out, (length script < fuel)%nat → Forall progress script →
  (2 * length rest < length script)%nat →
  ∃ s', copy_file fuel script rest out = Returned true s' (out ++ rest) ∧ Forall progress s' ∧
    (length script - (2 * length rest + 1) ≤ length s')%nat.
Proof.
  induction fuel as [|fuel IH]; intros script rest out Hf Hp Hl; [lia|]. destruct script as [|c script]; [simpl in Hl; lia|].
  apply list.Forall_cons in Hp as [Hc Hp]. simpl in Hf, Hl. destruct c as [[|n]| |]; try done. cbn [copy_file read_result].
  pose proof sizes_positive as [_ Hblock]. set (m := Nat.min (S (S n)) (Nat.min BLOCK_SIZE (length rest))).
  assert (m ≤ length rest ∧ (m = 0 → length rest = 0))%nat as [Hm Hz] by lia. clearbody m. destruct m as [|m].
  - exists script. destruct rest; [|simpl in Hz; lia]. rewrite app_nil_r. simpl. split; [done|]. split; [done|lia].
  - destruct (write_all_ends script (take (S m) rest) 0 out Hp) as (s1 & -> & Hs1 & Hl1); [rewrite length_take; lia|].
    rewrite length_take in Hl1. rewrite drop_0.
    destruct (IH s1 (drop (S m) rest) (out ++ take (S m) rest)) as (s2 & E & Hs2 & Hl2); [|done|rewrite length_drop; lia|].
    { lia. }
    exists s2. split; [|split; [done|rewrite length_drop in Hl2; simpl; lia]]. etransitivity; [exact E|].
    by rewrite <- app_assoc, take_drop.
Qed.

Lemma multi_ends files : ∀ script out, Forall progress script →
  (sum_list_with (λ f, 2 * length f + 1)%nat files ≤ length script)%nat →
  ∃ s', cat_traditional_multi script (Some <$> files) out = Returned true s' (out ++ concat files).
Proof.
  induction files as [|f files IH]; intros script out Hp Hl; [exists script; simpl; by rewrite app_nil_r|].
  rewrite !fmap_cons in *. cbn [sum_list_with] in Hl.
  destruct (copy_file_ends (S (length script)) script f out ltac:(lia) Hp) as (s' & E & Hs' & Hl'); [lia|].
  cbn [cat_traditional_multi]. rewrite E. destruct (IH s' (out ++ f) Hs') as (s2 & ->); [lia|].
  exists s2. simpl. by rewrite app_assoc.
Qed.

(** C33: whatever the system calls return (short reads, short and interrupted
    writes, errors), [cat_traditional_multi] has at every moment written
    prefixes of the files in their order, and when it returns and no read has
    failed it has written exactly the files one after the other.  With calls
    that make progress it does return, after at most two calls per byte and one
    per file. *)
Theorem cat_traditional_multi_copies files script :
  copied_prefixes files (copied (cat_traditional_multi script files [])) ∧
  (∀ s out, cat_traditional_multi script files [] = Returned true s out → out = concat (default [] <$> files)) ∧
  (Forall progress script → Forall is_Some files →
   (sum_list_with (λ f, 2 * length (default [] f) + 1)%nat files ≤ length script)%nat →
   ∃ s, cat_traditional_multi script files [] = Returned true s (concat (default [] <$> files))).
Proof.
  pose proof (multi_spec files script []) as Hm. split; [|split].
  - destruct (cat_traditional_multi script files []) as [ok s o|o|o]; simpl.
    + destruct Hm as (_ & o' & Ho & ->). done.
    + destruct Hm as (o' & Ho & ->). done.
    + destruct Hm as (o' & Ho & ->). done.
  - intros s out E. rewrite E in Hm. destruct Hm as [Hm _]. by apply Hm.
  - intros Hp Hs Hl. assert (files = Some <$> (default [] <$> files)) as Hf.
    { clear -Hs. induction Hs as [|? files [f ->] _ IH]; [done|]. csimpl. by rewrite <- IH. }
    destruct (multi_ends (default [] <$> files) script [] Hp) as [s E]; [|rewrite <- Hf in E; by exists s].
    etransitivity; [|exact Hl]. apply Nat.eq_le_incl. clear. induction files as [|f files IH]; [done|]. rewrite fmap_cons. cbn [sum_list_with]. rewrite IH. done.
Qed.

(** [cat_traditional] ignores what [write] returns: after a short write the rest
    of the block is lost, and the next block follows. *)
Lemma cat_traditional_short_write :
  cat_traditional 9 [Bytes 2; Bytes 1; Bytes 9; Bytes 9; Bytes 0] [1; 2; 3; 4] [] = Returned tt [] [1; 4].
Proof. vm_compute. reflexivity. Qed.

Lemma cat_traditional_multi_copies_witness : ∃ s,
  cat_traditional_multi (replicate 9 (Bytes 1)) [Some [1; 2]; Some []; Some [3]] [] = Returned true s [1; 2; 3].
Proof.
  apply (cat_traditional_multi_copies [Some [1; 2]; Some []; Some [3]] (replicate 9 (Bytes 1)));
    [by repeat constructor|repeat constructor; by eexists|simpl; lia].
Defined.

(** ** One file with io_uring

    [block] and [depth] are [BLOCK_SIZE] and [QUEUE_DEPTH].  A round submits
    [depth] reads; [order] says in which order they complete. *)

Section IoUring.
Context (block depth : nat).

Definition read_at (content : list Z) (offset : nat) : list Z := take block (drop offset content).

Fixpoint collect (content : list Z) (offset : nat) (order : list nat) (completed : nat) (out : list Z) : nat * list Z :=
  match order with
  | [] => (completed, out)
  | idx :: order =>
      let buffer := read_at content (offset + idx * block) in
      if (length buffer =? 0)%nat then (completed, out)
      else collect content offset order (S completed) (out ++ buffer)
  end.

(** [None]: more rounds are needed than [orders] has. *)
Fixpoint cat_io_uring (content : list Z) (offset : nat) (orders : list (list nat)) (out : list Z) : option (list Z) :=
  match orders with
  | [] => None
  | order :: orders =>
      let '(completed, out) := collect content offset order 0 out in
      if (completed <? depth)%nat then Some out
      else cat_io_uring content (offset + depth * block) orders out
  end.

Context (Hblock : (0 < block)%nat) (Hdepth : (0 < depth)%nat).

Lemma collect_in_order content offset n : ∀ i done,
  let '(c, out') := collect content offset (seq i n) done (take (offset + i * block) content) in
  (c = (done + n)%nat ∧ out' = take (offset + (i + n) * block) content ∧
   (n = 0 ∨ offset + i * block < length content)%nat) ∨ ((c < done + n)%nat ∧ out' = content).
Proof.
  induction n as [|n IH]; intros i done; simpl.
  { left. rewrite !Nat.add_0_r. auto. }
  unfold read_at at 1. rewrite length_take, length_drop. destruct (Nat.eqb_spec (Nat.min block (length content - (offset + i * block))) 0) as [E|E].
  - right. split; [lia|]. apply take_ge. lia.
  - unfold read_at. rewrite take_take_drop. specialize (IH (S i) (S done)).
    replace (offset + i * block + block)%nat with (offset + S i * block)%nat by lia.
    destruct (collect content offset (seq (S i) n) (S done) _) as [c out'].
    replace (done + S n)%nat with (S done + n)%nat by lia. replace (i + S n)%nat with (S i + n)%nat by lia.
    destruct IH as [(-> & -> & _)|IH]; [|by right]. left. split; [done|]. split; [done|]. right. lia.
Qed.

(** When the reads complete in the order in which they were submitted, the file
    is copied, in as many rounds as it has batches and one more. *)
Lemma cat_io_uring_in_order content k : ∀ offset, (length content ≤ offset + k * (depth * block))%nat →
  cat_io_uring content offset (replicate (S k) (seq 0 depth)) (take offset content) = Some content.
Proof.
  induction k as [|k IH]; intros offset Hk; rewrite replicate_S; cbn [cat_io_uring];
    pose proof (collect_in_order content offset depth 0 0) as Hc; rewrite Nat.add_0_r in Hc;
    destruct (collect content offset (seq 0 depth) 0 _) as [c out]; destruct Hc as [(-> & -> & Hn)|[Hlt ->]]; try lia;
    try by rewrite (proj2 (Nat.ltb_lt _ _)) by lia.
  rewrite (proj2 (Nat.ltb_ge _ _)) by lia. apply IH. lia.
Qed.
End IoUring.

(** When a read behind the end of the file completes first, the loop stops and
    what the others have read is not written. *)
Lemma cat_io_uring_reordered : cat_io_uring 4 2 [1; 2; 3] 0 [[1; 0]%nat] [] = Some [].
Proof. reflexivity. Qed.

(** ** Several files with io_uring

    One request per open file and round; each file has one buffer.  Before each
    look at the completion queue the kernel does what [kact] says. *)

Record io_task := mkTask { t_open : bool; t_buf : list Z; t_offset : nat }.
Inductive kact := CompleteAll | CompleteNth (k : nat).

(** [inflight]: file and offset of the submitted reads; [cq]: file and result of
    the completed ones; [written]: the writes, with the file they come from. *)
Record ring := mkRing {
  tasks : list io_task; active : Z; inflight : list (nat * nat); cq : list (nat * nat); written : list (nat * list Z)
}.

Section IoUringMulti.
Context (block depth : nat) (contents : list (list Z)).

(** The loop that submits one read per open file, from file [i] on; [free] is the
    number of free submission entries. *)
Fixpoint submit_reads (i free : nat) (ts : list io_task) : list io_task * list (nat * nat) :=
  match ts with
  | [] => ([], [])
  | t :: rest =>
      if t_open t then
        match free with
        | O => (ts, [])
        | S free =>
            let '(rest, reqs) := submit_reads (S i) free rest in
            (mkTask true (t_buf t) (t_offset t + block) :: rest, (i, t_offset t) :: reqs)
        end
      else let '(rest, reqs) := submit_reads (S i) free rest in (t :: rest, reqs)
  end.

Definition set_buf (b : list Z) (t : io_task) : io_task := mkTask (t_open t) b (t_offset t).
Definition shut (t : io_task) : io_task := mkTask false (t_buf t) (t_offset t).

(** The kernel executes a read: it fills the buffer of the file. *)
Definition complete (r : ring) (req : nat * nat) : ring :=
  let chunk := read_at block (nth (req.1) contents []) (req.2) in
  mkRing (alter (λ t, set_buf (chunk ++ drop (length chunk) (t_buf t)) t) (req.1) (tasks r)) (active r) (inflight r)
    (cq r ++ [(req.1, length chunk)]) (written r).

Definition kernel (act : option kact) (r : ring) : ring :=
  match act with
  | None => r
  | Some CompleteAll => foldl complete (mkRing (tasks r) (active r) [] (cq r) (written r)) (inflight r)
  | Some (CompleteNth k) =>
      match inflight r !! k with
      | Some req => complete (mkRing (tasks r) (active r) (delete k (inflight r)) (cq r) (written r)) req
      | None => r
      end
  end.

(** One completion. *)
Definition consume (r : ring) (idx res : nat) (cq' : list (nat * nat)) : ring :=
  if (0 <? res)%nat then
    mkRing (tasks r) (active r) (inflight r) cq' (written r ++ [(idx, take res (t_buf (nth idx (tasks r) (mkTask false [] 0))))])
  else mkRing (alter shut idx (tasks r)) (active r - 1) (inflight r) cq' (written r).

(** The loop over the completions, at most [n] of them. *)
Fixpoint collect_multi (n : nat) (acts : list kact) (r : ring) : ring :=
  match n with
  | O => r
  | S n =>
      let r := kernel (head acts) r in
      match cq r with
      | [] => r
      | (idx, res) :: cq' => collect_multi n (tail acts) (consume r idx res cq')
      end
  end.

Definition multi_round (acts : list kact) (r : ring) : ring :=
  let '(ts, reqs) := submit_reads 0 depth (tasks r) in
  collect_multi (length ts) acts (mkRing ts (active r) (inflight r ++ reqs) (cq r) (written r)).

Fixpoint cat_io_uring_multi (acts : list (list kact)) (r : ring) : option ring :=
  if 0 <? active r then
    match acts with [] => None | a :: acts => cat_io_uring_multi acts (multi_round a r) end
  else Some r.

Definition multi_start : ring :=
  mkRing (replicate (length contents) (mkTask true [] 0)) (Z.of_nat (length contents)) [] [] [].

(** What has been written of file [i]. *)
Definition written_of (i : nat) (r : ring) : list Z := concat ((filter (λ w, w.1 = i) (written r)).*2).

(** ** Rounds that complete *)

Definition advance (t : io_task) : io_task := if t_open t then mkTask true (t_buf t) (t_offset t + block) else t.

Lemma submit_reads_spec ts : ∀ i free, (countb t_open ts ≤ free)%nat →
  let '(ts', reqs) := submit_reads i free ts in
  ts' = advance <$> ts ∧ NoDup reqs.*1 ∧ (length reqs ≤ length ts)%nat ∧
  ∀ j o, (j, o) ∈ reqs ↔ ∃ k t, j = (i + k)%nat ∧ ts !! k = Some t ∧ t_open t = true ∧ t_offset t = o.
Proof.
  induction ts as [|t ts IH]; intros i free Hf; simpl in *.
  { split_and!; [done|constructor|lia|]. intros j o. split; [by intros ?%elem_of_nil|]. by intros (k & t & _ & ? & _). }
  unfold advance at 1. assert (∀ j o (P : nat → io_task → Prop), (∃ k t', j = (i + k)%nat ∧ (t :: ts) !! k = Some t' ∧ P o t') ↔
    (j = i ∧ P o t) ∨ ∃ k t', j = (S i + k)%nat ∧ ts !! k = Some t' ∧ P o t') as Hsplit.
  { intros j o P. split.
    - intros ([|k] & t' & -> & Hk & HP); simpl in Hk; simplify_eq; [left; by rewrite Nat.add_0_r|]. right. exists k, t'. split; [lia|done].
    - intros [[-> HP]|(k & t' & -> & Hk & HP)]; [exists 0%nat, t; by rewrite Nat.add_0_r|]. exists (S k), t'. split; [lia|done]. }
  destruct (t_open t) eqn:Ho; simpl in Hf.
  - destruct free as [|free]; [lia|]. specialize (IH (S i) free ltac:(lia)).
    destruct (submit_reads (S i) free ts) as [ts' reqs]. destruct IH as (-> & Hnd & Hl & Hr). split_and!; [done| |simpl; lia|].
    + rewrite fmap_cons. apply list.NoDup_cons. split; [|done]. intros ([j o] & Hj & (k & t' & -> & _)%Hr)%list_elem_of_fmap. simpl in Hj. lia.
    + intros j o. rewrite elem_of_cons, Hr, (Hsplit j o (λ o t', t_open t' = true ∧ t_offset t' = o)). split; [|naive_solver].
      intros [[= -> ->]|?]; [by left|by right].
  - specialize (IH (S i) free ltac:(lia)). destruct (submit_reads (S i) free ts) as [ts' reqs].
    destruct IH as (-> & Hnd & Hl & Hr). split_and!; [done|done|simpl; lia|].
    intros j o. rewrite Hr, (Hsplit j o (λ o t', t_open t' = true ∧ t_offset t' = o)). split; [by right|].
    intros [[_ [? _]]|?]; [congruence|done].
Qed.

Definition chunk_of (req : nat * nat) : list Z := read_at block (nth (req.1) contents []) (req.2).

(** The kernel fills the buffers of distinct files. *)
Lemma complete_all reqs : ∀ r, NoDup reqs.*1 → let r' := foldl complete r reqs in
  active r' = active r ∧ inflight r' = inflight r ∧ written r' = written r ∧
  cq r' = cq r ++ ((λ q, (q.1, length (chunk_of q))) <$> reqs) ∧
  (∀ q, q ∈ reqs → tasks r' !! q.1 = (λ t, set_buf (chunk_of q ++ drop (length (chunk_of q)) (t_buf t)) t) <$> tasks r !! q.1) ∧
  (∀ j, j ∉ reqs.*1 → tasks r' !! j = tasks r !! j).
Proof.
  induction reqs as [|q reqs IH]; intros r Hnd; simpl.
  { split_and!; try done; [by rewrite app_nil_r|]. by intros q ?%elem_of_nil. }
  rewrite fmap_cons in Hnd. apply list.NoDup_cons in Hnd as [Hq Hnd]. destruct (IH (complete r q) Hnd) as (H1 & H2 & H3 & H4 & H5 & H6).
  rewrite H1, H2, H3, H4. split_and!; try done.
  - simpl. by rewrite <- app_assoc.
  - intros q' [->|Hq']%elem_of_cons; [rewrite (H6 _ Hq); simpl; by rewrite list_lookup_alter_eq|].
    rewrite (H5 _ Hq'). simpl. rewrite list_lookup_alter_ne; [done|]. intros E. apply Hq. rewrite E. apply list_elem_of_fmap. by exists q'.
  - intros j Hj. rewrite H6 by set_solver. simpl. rewrite list_lookup_alter_ne; [done|]. set_solver.
Qed.

Lemma alter_as_insert {A} (f : A → A) (l : list A) i x : l !! i = Some x → alter f i l = <[i := f x]> l.
Proof.
  intros Hx. apply list_eq. intros j. destruct (decide (j = i)) as [->|Hj].
  - rewrite list_lookup_alter_eq, Hx, list_lookup_insert_eq; [done|by eapply lookup_lt_Some].
  - by rewrite list_lookup_alter_ne, list_lookup_insert_ne.
Qed.

(** Consuming the completions of distinct open files. *)
Lemma collect_completions L : ∀ n r, cq r = L → (length L ≤ n)%nat → NoDup L.*1 →
  (∀ j res, (j, res) ∈ L → ∃ t, tasks r !! j = Some t ∧ t_open t = true) → active r = Z.of_nat (countb t_open (tasks r)) →
  let r' := collect_multi n [] r in
  inflight r' = inflight r ∧ cq r' = [] ∧ active r' = Z.of_nat (countb t_open (tasks r')) ∧ length (tasks r') = length (tasks r) ∧
  (∀ j t res, (j, res) ∈ L → tasks r !! j = Some t →
     tasks r' !! j = Some (if (0 <? res)%nat then t else shut t) ∧
     written_of j r' = written_of j r ++ (if (0 <? res)%nat then take res (t_buf t) else [])) ∧
  (∀ j, j ∉ L.*1 → tasks r' !! j = tasks r !! j ∧ written_of j r' = written_of j r).
Proof.
  induction L as [|[idx res] L IH]; intros n r Hcq Hn Hnd Hopen Hact.
  { assert (collect_multi n [] r = r) as -> by (destruct n; simpl; [done|by rewrite Hcq]). split_and!; try done.
    by intros j t res ?%elem_of_nil. }
  destruct n as [|n]; [simpl in Hn; lia|]. cbn [collect_multi kernel head tail]. rewrite Hcq.
  rewrite fmap_cons in Hnd. apply list.NoDup_cons in Hnd as [Hidx Hnd]. simpl in Hidx.
  destruct (Hopen idx res ltac:(set_solver)) as (t & Ht & Hto). set (r1 := consume r idx res L).
  assert (∀ j res', (j, res') ∈ L → j ≠ idx) as Hne.
  { intros j res' Hj ->. apply Hidx. apply list_elem_of_fmap. by exists (idx, res'). }
  assert (inflight r1 = inflight r ∧ cq r1 = L ∧ length (tasks r1) = length (tasks r) ∧
    tasks r1 !! idx = Some (if (0 <? res)%nat then t else shut t) ∧
    written_of idx r1 = written_of idx r ++ (if (0 <? res)%nat then take res (t_buf t) else []) ∧
    (∀ j, j ≠ idx → tasks r1 !! j = tasks r !! j ∧ written_of j r1 = written_of j r) ∧
    active r1 = Z.of_nat (countb t_open (tasks r1))) as (R1 & R2 & R3 & R4 & R5 & R6 & R7).
  { unfold r1, consume. destruct (0 <? res)%nat; simpl.
    - split_and!; try done.
      + unfold written_of. simpl. rewrite list.filter_app, fmap_app, concat_app. f_equal. rewrite filter_cons_True by done. simpl.
        rewrite app_nil_r. by rewrite (nth_lookup_Some _ _ _ _ Ht).
      + intros j Hj. split; [done|]. unfold written_of. simpl. rewrite list.filter_app, filter_cons_False by (by simpl). by rewrite app_nil_r.
    - rewrite length_alter. split_and!; try done; [by rewrite list_lookup_alter_eq, Ht|by rewrite app_nil_r| |].
      + intros j Hj. by rewrite list_lookup_alter_ne.
      + rewrite (alter_as_insert _ _ _ _ Ht).
        pose proof (countb_insert t_open _ _ _ (shut t) Ht) as Hc. rewrite Hto in Hc. simpl in Hc. lia. }
  destruct (IH n r1 R2 ltac:(simpl in Hn; lia) Hnd) as (I1 & I2 & I3 & I4 & I5 & I6); [|done|].
  { intros j res' Hj. rewrite (proj1 (R6 j (Hne _ _ Hj))). apply (Hopen j res'). set_solver. }
  cbv zeta. rewrite I1, I2, I4. split_and!; try done.
  - intros j t' res' [[= -> ->]|Hj]%elem_of_cons Hj'.
    + assert (t' = t) as -> by congruence. destruct (I6 idx Hidx) as [-> ->]. done.
    + destruct (R6 j (Hne _ _ Hj)) as [E1 E2]. destruct (I5 j t' res' Hj) as [-> ->]; [by rewrite E1|]. by rewrite E2.
  - intros j Hj. rewrite fmap_cons, not_elem_of_cons in Hj. destruct Hj as [Hj1 Hj2]. destruct (I6 j Hj2) as [-> ->]. by apply R6.
Qed.

(** Before round [k]: file [j] is written up to [k] blocks, and it is open
    unless round [k - 1] has found its end. *)
Record multi_inv (k : nat) (r : ring) : Prop := {
  mi_len : length (tasks r) = length contents;
  mi_idle : inflight r = [] ∧ cq r = [];
  mi_active : active r = Z.of_nat (countb t_open (tasks r));
  mi_task j t c : tasks r !! j = Some t → contents !! j = Some c →
    t_open t = match k with O => true | S k => (k * block <? length c)%nat end ∧
    (t_open t = true → t_offset t = (k * block)%nat) ∧ written_of j r = take (k * block) c
}.

Lemma multi_inv_start : multi_inv 0 multi_start.
Proof.
  split; simpl; [by rewrite length_replicate|done| |].
  - f_equal. generalize (length contents). intros n. induction n; simpl; lia.
  - by intros j t c [-> _]%lookup_replicate Hc.
Qed.

Lemma collect_first n r : collect_multi (S n) [CompleteAll] r = collect_multi (S n) [] (kernel (Some CompleteAll) r).
Proof. done. Qed.

Lemma complete_opens reqs : ∀ r, t_open <$> tasks (foldl complete r reqs) = t_open <$> tasks r.
Proof.
  induction reqs as [|q reqs IH]; intros r; simpl; [done|]. rewrite IH. simpl. apply list_eq. intros i.
  rewrite !list_lookup_fmap. destruct (decide (i = q.1)) as [->|Hi]; [|by rewrite list_lookup_alter_ne].
  rewrite list_lookup_alter_eq. by destruct (tasks r !! q.1).
Qed.

(** Advancing the offsets and completing requests leaves the files open. *)
Lemma round_opens reqs r : let r1 := foldl complete (mkRing (advance <$> tasks r) (active r) [] [] (written r)) reqs in
  length (tasks r1) = length (tasks r) ∧ countb t_open (tasks r1) = countb t_open (tasks r).
Proof.
  intros r1. assert (t_open <$> tasks r1 = t_open <$> tasks r) as Hopens.
  { unfold r1. rewrite complete_opens. simpl. rewrite <- list_fmap_compose. apply list_fmap_ext. intros i t _. simpl.
    unfold advance. by destruct (t_open t) eqn:E; simpl; rewrite ?E. }
  split; [rewrite <- (length_fmap t_open), Hopens; apply length_fmap|].
  pose proof (countb_fmap (λ b : bool, b) t_open (tasks r1)) as E. rewrite Hopens, countb_fmap in E. by symmetry.
Qed.

(** What one round adds to a file, and whether the file is over then. *)
Lemma next_block c k (buf : list Z) : (0 < block)%nat →
  let b := read_at block c (k * block) in
  (0 <? length b)%nat = (k * block <? length c)%nat ∧
  take (S k * block) c = take (k * block) c ++ take (length b) (b ++ buf) ∧
  ((k * block <? length c)%nat = false → take (S k * block) c = take (k * block) c).
Proof.
  intros Hb b. unfold b, read_at. rewrite length_take, length_drop.
  assert (take (S k * block) c = take (k * block) c ++ take block (drop (k * block) c)) as Htk.
  { rewrite take_take_drop. f_equal. lia. }
  split_and!.
  - apply Bool.eq_iff_eq_true. rewrite !Nat.ltb_lt. lia.
  - rewrite Htk, take_app_le by (rewrite length_take, length_drop; lia).
    by rewrite (take_ge (take block _)) by (rewrite length_take, length_drop; lia).
  - intros Hge%Nat.ltb_ge. by rewrite !take_ge by lia.
Qed.

Lemma multi_inv_round k r : (0 < block)%nat → (length contents ≤ depth)%nat → 0 < active r → multi_inv k r →
  multi_inv (S k) (multi_round [CompleteAll] r).
Proof.
  intros Hblock Hd Hact [Hlen [Hif Hcq] Ha Ht]. pose proof (countb_length t_open (tasks r)) as Hcl.
  unfold multi_round. pose proof (submit_reads_spec (tasks r) 0 depth ltac:(lia)) as Hs.
  destruct (submit_reads 0 depth (tasks r)) as [ts reqs]. destruct Hs as (-> & Hnd & Hlr & Hreq).
  rewrite Hif, Hcq. destruct (length (advance <$> tasks r)) as [|n] eqn:En; [rewrite length_fmap in En; lia|].
  rewrite collect_first. cbn [kernel inflight tasks active cq written app].
  destruct (complete_all reqs (mkRing (advance <$> tasks r) (active r) [] [] (written r)) Hnd) as (C1 & C2 & C3 & C4 & C5 & C6).
  pose proof (round_opens reqs r) as [Hlen1 Hcount].
  set (r1 := foldl complete _ reqs) in *. cbn [inflight tasks active cq written app] in C1, C2, C3, C4, C5, C6.
  clearbody r1.
  assert ((cq r1).*1 = reqs.*1) as Hfst by (rewrite C4, <- list_fmap_compose; done).
  assert (∀ j, j ∈ reqs.*1 ↔ ∃ t, tasks r !! j = Some t ∧ t_open t = true) as Hin.
  { intros j. rewrite list_elem_of_fmap. split.
    - intros ([j' o] & -> & (k' & t & -> & Hk & Ho & _)%Hreq). by exists t.
    - intros (t & Hj & Ho). exists (j, t_offset t). split; [done|]. apply Hreq. by exists j, t. }
  assert (∀ j t, tasks r !! j = Some t → t_open t = true → ∀ c, contents !! j = Some c →
    let b := read_at block c (k * block) in tasks r1 !! j = Some (mkTask true (b ++ drop (length b) (t_buf t)) (k * block + block)) ∧
    (j, length b) ∈ cq r1) as Hdone.
  { intros j t Hj Ho c Hc. assert ((j, (k * block)%nat) ∈ reqs) as Hq.
    { apply Hreq. exists j, t. split; [done|]. split; [done|]. split; [done|]. by apply (Ht j t c). }
    assert (chunk_of (j, (k * block)%nat) = read_at block c (k * block)) as Hch.
    { unfold chunk_of. simpl. by rewrite (nth_lookup_Some _ _ _ _ Hc). }
    split.
    - pose proof (C5 _ Hq) as Hq'. simpl in Hq'. rewrite Hq', Hch, list_lookup_fmap, Hj. simpl. unfold advance. rewrite Ho. unfold set_buf. simpl.
      by rewrite (proj1 (proj2 (Ht j t c Hj Hc)) Ho).
    - rewrite C4. apply list_elem_of_fmap. exists (j, (k * block)%nat). by rewrite Hch. }
  destruct (collect_completions (cq r1) (S n) r1) as (I1 & I2 & I3 & I4 & I5 & I6); [done| |by rewrite Hfst| | |].
  { rewrite C4, length_fmap. rewrite length_fmap in En. lia. }
  { intros j res Hj. assert (j ∈ reqs.*1) as Hjr by (rewrite <- Hfst; apply list_elem_of_fmap; by exists (j, res)).
    apply Hin in Hjr as (t & Hjt & Ho). destruct (lookup_lt_is_Some_2 contents j) as [c Hc]; [apply lookup_lt_Some in Hjt; lia|].
    destruct (Hdone j t Hjt Ho c Hc) as [E _]. eauto. }
  { by rewrite C1, Ha, Hcount. }
  split; [lia|by rewrite I1, I2|done|]. intros j t' c Hj' Hc.
  destruct (lookup_lt_is_Some_2 (tasks r) j) as [t Hj]; [apply lookup_lt_Some in Hc; lia|].
  destruct (Ht j t c Hj Hc) as (Hop & Hoff & Hw). assert (written_of j r1 = written_of j r) as Hw1 by (unfold written_of; by rewrite C3).
  destruct (t_open t) eqn:Ho.
  - destruct (Hdone j t Hj Ho c Hc) as [E1 E2]. destruct (I5 j _ _ E2 E1) as [E3 E4]. rewrite E3 in Hj'. injection Hj' as <-.
    destruct (next_block c k (drop (length (read_at block c (k * block))) (t_buf t)) Hblock) as (B1 & B2 & B3).
    rewrite E4, Hw1, Hw, B1. cbn [t_buf]. destruct (k * block <? length c)%nat; simpl t_open; cbv iota.
    + split; [done|]. split; [simpl; lia|by rewrite B2].
    + split; [done|]. split; [done|]. rewrite app_nil_r. symmetry. by apply B3.
  - assert (j ∉ reqs.*1) as Hjn by (rewrite Hin; intros (t2 & ? & ?); congruence).
    destruct (I6 j) as [E1 E2]; [by rewrite Hfst|]. rewrite E1, (C6 j Hjn), list_lookup_fmap, Hj in Hj'. simpl in Hj'.
    unfold advance in Hj'. rewrite Ho in Hj'. injection Hj' as <-. rewrite E2, Hw1, Hw, Ho.
    destruct k as [|k]; [done|]. symmetry in Hop. apply Nat.ltb_ge in Hop. split; [symmetry; apply Nat.ltb_ge; lia|]. split; [done|].
    rewrite !take_ge by lia. done.
Qed.

Lemma multi_rounds n : ∀ k r, (0 < block)%nat → (length contents ≤ depth)%nat → multi_inv k r → (1 ≤ k)%nat →
  (∀ c, c ∈ contents → (length c ≤ (k + n - 1) * block)%nat) →
  ∃ r', cat_io_uring_multi (replicate n [CompleteAll]) r = Some r' ∧ ∀ i c, contents !! i = Some c → written_of i r' = c.
Proof.
  induction n as [|n IH]; intros k r Hb Hd Hinv Hk Hlen.
  - assert (countb t_open (tasks r) = 0%nat) as Hz.
    { apply countb_zero. intros j t Hj. destruct (lookup_lt_is_Some_2 contents j) as [c Hc].
      { apply lookup_lt_Some in Hj. rewrite <- (mi_len _ _ Hinv). done. }
      destruct (mi_task _ _ Hinv j t c Hj Hc) as (-> & _). destruct k as [|k]; [lia|]. apply Nat.ltb_ge.
      specialize (Hlen c ltac:(by eapply list_elem_of_lookup_2)). replace (S k + 0 - 1)%nat with k in Hlen by lia. done. }
    exists r. simpl. rewrite (mi_active _ _ Hinv), Hz. simpl. split; [done|]. intros i c Hc.
    destruct (lookup_lt_is_Some_2 (tasks r) i) as [t Hj]; [rewrite (mi_len _ _ Hinv); by eapply lookup_lt_Some|].
    destruct (mi_task _ _ Hinv i t c Hj Hc) as (_ & _ & ->). apply take_ge.
    specialize (Hlen c ltac:(by eapply list_elem_of_lookup_2)). etransitivity; [exact Hlen|]. apply Nat.mul_le_mono_r. lia.
  - rewrite replicate_S. cbn [cat_io_uring_multi]. destruct (Z.ltb_spec 0 (active r)) as [Ha|Ha].
    + apply (IH (S k)); [done|done|by apply multi_inv_round|lia|]. intros c Hc. specialize (Hlen c Hc).
      by replace (S k + n - 1)%nat with (k + S n - 1)%nat by lia.
    + exists r. split; [done|]. intros i c Hc.
      destruct (lookup_lt_is_Some_2 (tasks r) i) as [t Hj]; [rewrite (mi_len _ _ Hinv); by eapply lookup_lt_Some|].
      destruct (mi_task _ _ Hinv i t c Hj Hc) as (Hop & _ & ->). assert (t_open t = false) as Hf.
      { pose proof (mi_active _ _ Hinv) as Hact. apply (proj1 (countb_zero t_open (tasks r)) ltac:(lia) i t Hj). }
      rewrite Hf in Hop. destruct k as [|k]; [lia|]. symmetry in Hop. apply Nat.ltb_ge in Hop. apply take_ge. lia.
Qed.
End IoUringMulti.

(** A file whose end has been read once is read again before its completion has
    been seen: two empty reads of the first file make [active] 0, and nothing of
    the second file is written. *)
Lemma cat_io_uring_multi_double_eof : ∃ r,
  cat_io_uring_multi 4 8 [[]; [1; 2; 3]] [[]; [CompleteNth 0; CompleteNth 1]] (multi_start [[]; [1; 2; 3]]) = Some r ∧
  active r = 0 ∧ written r = [].
Proof. eexists. split; [vm_compute; reflexivity|done]. Qed.

(** Two reads of one file that are in flight at the same time share a buffer. *)
Lemma cat_io_uring_multi_overwrites : ∃ r,
  cat_io_uring_multi 2 8 [[1; 2; 3; 4]] [[]; [CompleteAll]; [CompleteAll]; [CompleteAll]] (multi_start [[1; 2; 3; 4]]) = Some r ∧
  written_of 0 r = [3; 4; 3; 4].
Proof. eexists. split; [vm_compute; reflexivity|vm_compute; reflexivity]. Qed.

(** Rounds in which every read completes before the program looks for it. *)
Lemma io_uring_multi_ends contents n : (length contents ≤ QUEUE_DEPTH)%nat →
  (∀ c, c ∈ contents → (length c ≤ n * BLOCK_SIZE)%nat) →
  ∃ r, cat_io_uring_multi BLOCK_SIZE QUEUE_DEPTH contents (replicate (S n) [CompleteAll]) (multi_start contents) = Some r ∧
    ∀ i c, contents !! i = Some c → written_of i r = c.
Proof.
  pose proof sizes_positive as [Hq Hb]. intros Hd Hn.
  rewrite replicate_S. cbn [cat_io_uring_multi]. pose proof (multi_inv_start BLOCK_SIZE contents) as Hinv.
  destruct (Z.ltb_spec 0 (active (multi_start contents))) as [Ha|Ha].
  - apply (multi_rounds _ _ _ n 1); [done|done|by apply multi_inv_round|lia|]. intros c Hc.
    replace (1 + n - 1)%nat with n by lia. by apply Hn.
  - exists (multi_start contents). split; [done|]. simpl in Ha. destruct contents; [done|simpl in Ha; lia].
Qed.

(** The io_uring copies are right when the reads complete in the order in
    which they were submitted and before the program looks for them: the single
    file is written from beginning to end, and of each of several files (at most
    [QUEUE_DEPTH]) exactly its content; both loops end after one round more than
    the longest file has batches or blocks. *)
Theorem io_uring_copies_in_order content contents k n :
  (length content ≤ k * (QUEUE_DEPTH * BLOCK_SIZE))%nat → (length contents ≤ QUEUE_DEPTH)%nat →
  (∀ c, c ∈ contents → (length c ≤ n * BLOCK_SIZE)%nat) →
  cat_io_uring BLOCK_SIZE QUEUE_DEPTH content 0 (replicate (S k) (seq 0 QUEUE_DEPTH)) [] = Some content ∧
  ∃ r, cat_io_uring_multi BLOCK_SIZE QUEUE_DEPTH contents (replicate (S n) [CompleteAll]) (multi_start contents) = Some r ∧
    ∀ i c, contents !! i = Some c → written_of i r = c.
Proof.
  pose proof sizes_positive as [Hq Hb]. intros Hk Hd Hn. split; [|by apply io_uring_multi_ends].
  apply (cat_io_uring_in_order BLOCK_SIZE QUEUE_DEPTH Hb Hq content k 0). lia.
Qed.

Lemma io_uring_copies_in_order_witness : ∃ r,
  cat_io_uring_multi BLOCK_SIZE QUEUE_DEPTH [[1; 2]; []; [3]] (replicate 2 [CompleteAll]) (multi_start [[1; 2]; []; [3]]) = Some r ∧
  ∀ i c, [[1; 2]; []; [3]] !! i = Some c → written_of i r = c.
Proof.
  apply (io_uring_copies_in_order [] [[1; 2]; []; [3]] 0 1); [simpl; lia|apply Nat.leb_le; vm_compute; reflexivity|].
  intros c Hc. apply Nat.leb_le. repeat (apply elem_of_cons in Hc as [->|Hc]; [vm_compute; reflexivity|]). by apply elem_of_nil in Hc.
Defined.
