(* ===== verification/Squares.v ===== *)
(** * pureStorage/isSquare.cpp

    Four points are tested for being the corners of a square by the six squared
    distances between them.  The theorem says that this is right: the answer is
    true exactly when the points can be ordered so that they go round a square. *)

From stdpp Require Import base list numbers sets sorting.
From Stdlib Require Import ZArith Lia.
From S2P Require Import Prelude.

Record Point := mkPoint { x : Z; y : Z }.

Definition llong (z : Z) : outcome Z := if (- 2 ^ 63 <=? z) && (z <? 2 ^ 63) then Ret z else Err SignedOverflow.

Definition distSq (p1 p2 : Point) : outcome Z :=
  dx ← int (x p1 - x p2);
  dy ← int (y p1 - y p2);
  a ← llong (dx * dx);
  b ← llong (dy * dy);
  llong (a + b).

(** [std::sort] *)
Definition sort (l : list Z) : list Z := merge_sort Z.le l.

Definition isSquare (p1 p2 p3 p4 : Point) : outcome bool :=
  d12 ← distSq p1 p2; d13 ← distSq p1 p3; d14 ← distSq p1 p4;
  d23 ← distSq p2 p3; d24 ← distSq p2 p4; d34 ← distSq p3 p4;
  match sort [d12; d13; d14; d23; d24; d34] with
  | [d0; d1; d2; d3; d4; d5] =>
      if (0 <? d0) && (d0 =? d1) && (d1 =? d2) && (d2 =? d3) && (d4 =? d5)
      then s ← llong (2 * d0); Ret (d4 =? s) else Ret false
  | _ => Err OutOfBounds
  end.

(** ** Squares *)

Definition dist (p q : Point) : Z := (x p - x q) * (x p - x q) + (y p - y q) * (y p - y q).

(** [a], [b], [c], [d] go round a square: [abcd] is a parallelogram with two
    orthogonal sides of the same length, which is not 0. *)
Definition square (a b c d : Point) : Prop :=
  x c - x b = x d - x a ∧ y c - y b = y d - y a ∧
  (x b - x a) * (x d - x a) + (y b - y a) * (y d - y a) = 0 ∧
  dist a b = dist a d ∧ 0 < dist a b.

Definition form_square (p1 p2 p3 p4 : Point) : Prop :=
  ∃ a b c d, [a; b; c; d] ≡ₚ [p1; p2; p3; p4] ∧ square a b c d.

(** ** The distances of a square *)

Definition dists (p1 p2 p3 p4 : Point) : list Z :=
  [dist p1 p2; dist p1 p3; dist p1 p4; dist p2 p3; dist p2 p4; dist p3 p4].

Lemma dist_comm p q : dist p q = dist q p.
Proof. unfold dist. ring. Qed.

Lemma square_dists a b c d : square a b c d →
  let s := dist a b in dist b c = s ∧ dist c d = s ∧ dist d a = s ∧ dist a c = 2 * s ∧ dist b d = 2 * s.
Proof.
  unfold square, dist. destruct a as [ax ay], b as [bx b_y], c as [cx cy], d as [dx dy]. simpl.
  intros (Hx & Hy & Ho & Hl & _). assert (cx = bx + dx - ax) as -> by lia. assert (cy = b_y + dy - ay) as -> by lia.
  split_and!; nia.
Qed.

Lemma sum_squares_zero a b : a * a + b * b = 0 → a = 0 ∧ b = 0.
Proof.
  intros H. pose proof (Z.square_nonneg a). pose proof (Z.square_nonneg b).
  assert (a * a = 0) as Ha by lia. assert (b * b = 0) as Hb by lia.
  apply Z.mul_eq_0 in Ha. apply Z.mul_eq_0 in Hb. lia.
Qed.

(** Four equal sides and equal diagonals between opposite corners: a square. *)
Lemma opposite_square a b c d s : 0 < s → dist a c = s → dist a d = s → dist b c = s → dist b d = s →
  dist a b = 2 * s → dist c d = 2 * s → square a c b d.
Proof.
  unfold square, dist. destruct a as [ax ay], b as [bx b_y], c as [cx cy], d as [dx dy]. simpl.
  intros Hs H1 H2 H3 H4 H5 H6. set (u := cx - ax). set (v := cy - ay). set (w := dx - ax). set (z := dy - ay).
  set (p := bx - ax). set (r := b_y - ay).
  assert (u * u + v * v = s) as E1 by (subst u v; lia). assert (w * w + z * z = s) as E2 by (subst w z; lia).
  assert (p * p + r * r = 2 * s) as E5 by (subst p r; lia).
  assert ((p - u) * (p - u) + (r - v) * (r - v) = s) as E3 by (subst p r u v; lia).
  assert ((p - w) * (p - w) + (r - z) * (r - z) = s) as E4 by (subst p r w z; lia).
  assert ((u - w) * (u - w) + (v - z) * (v - z) = 2 * s) as E6 by (subst u v w z; lia).
  assert (u * w + v * z = 0) as Ho by lia. assert (p * u + r * v = s) as Hu by lia. assert (p * w + r * z = s) as Hw by lia.
  assert ((p - u - w) * (p - u - w) + (r - v - z) * (r - v - z) = 0) as Hzero by lia.
  destruct (sum_squares_zero _ _ Hzero) as [Hp Hr]. split_and!; subst u v w z p r; lia.
Qed.

(** Diagonals with a common corner are impossible. *)
Lemma no_kite a b c d s : 0 < s → dist a b = 2 * s → dist a c = 2 * s → dist a d = s → dist b c = s → dist b d = s →
  dist c d = s → False.
Proof.
  unfold dist. destruct a as [ax ay], b as [bx b_y], c as [cx cy], d as [dx dy]. simpl. intros Hs H1 H2 H3 H4 H5 H6.
  set (u := ax - dx). set (v := ay - dy). set (p := bx - dx). set (r := b_y - dy). set (w := cx - dx). set (z := cy - dy).
  assert (u * u + v * v = s) as E1 by (subst u v; lia). assert (p * p + r * r = s) as E2 by (subst p r; lia).
  assert (w * w + z * z = s) as E3 by (subst w z; lia).
  assert ((u - p) * (u - p) + (v - r) * (v - r) = 2 * s) as E4 by (subst u v p r; lia).
  assert ((u - w) * (u - w) + (v - z) * (v - z) = 2 * s) as E5 by (subst u v w z; lia).
  assert ((p - w) * (p - w) + (r - z) * (r - z) = s) as E6 by (subst p r w z; lia).
  clearbody u v p r w z. assert (u * p + v * r = 0) as F1 by lia. assert (u * w + v * z = 0) as F2 by lia.
  assert (2 * (p * w + r * z) = s) as F3 by lia.
  assert (s * (p * z - r * w) = 0) as F4.
  { rewrite <- E1. transitivity ((u * p + v * r) * (u * z - v * w) - (u * w + v * z) * (u * r - v * p)); [ring|]. rewrite F1, F2. ring. }
  assert (p * z - r * w = 0) as F5 by nia.
  assert ((p * w + r * z) * (p * w + r * z) + (p * z - r * w) * (p * z - r * w) = s * s) as F6 by (rewrite <- E2 at 1; rewrite <- E3; ring).
  rewrite F5 in F6. nia.
Qed.

(** ** The six distances do not depend on the order of the points *)

Fixpoint pair_dists (l : list Point) : list Z :=
  match l with [] => [] | p :: l => (dist p <$> l) ++ pair_dists l end.

Lemma pair_dists_perm l k : l ≡ₚ k → pair_dists l ≡ₚ pair_dists k.
Proof.
  induction 1 as [|p l k H IH|p q l|l k m _ IH1 _ IH2]; simpl; [done| | |by rewrite IH1].
  - by rewrite IH, H.
  - rewrite (dist_comm q p). apply perm_skip. rewrite !(assoc_L (++)). f_equiv. apply (comm (++)).
Qed.

Lemma dists_perm a b c d p1 p2 p3 p4 : [a; b; c; d] ≡ₚ [p1; p2; p3; p4] → dists a b c d ≡ₚ dists p1 p2 p3 p4.
Proof. intros H. apply (pair_dists_perm _ _ H). Qed.

(** ** Squares are recognised by their distances *)

Definition square_dist_list (s : Z) : list Z := [s; s; s; s; 2 * s; 2 * s].

Lemma form_square_dists p1 p2 p3 p4 : form_square p1 p2 p3 p4 → ∃ s, 0 < s ∧ dists p1 p2 p3 p4 ≡ₚ square_dist_list s.
Proof.
  intros (a & b & c & d & Hp & Hs). pose proof Hs as (_ & _ & _ & _ & Hpos). destruct (square_dists a b c d Hs) as (E1 & E2 & E3 & E4 & E5).
  exists (dist a b). split; [done|]. rewrite <- (dists_perm _ _ _ _ _ _ _ _ Hp). unfold dists, square_dist_list.
  rewrite E1, E2, E4, E5, (dist_comm a d), E3. generalize (dist a b). clear. intros s. solve_Permutation.
Qed.

Ltac by_dist := first [assumption | rewrite dist_comm; assumption].
Ltac kite a b c d := exfalso; apply (no_kite a b c d _ ltac:(eassumption)); by_dist.
Ltac quad a b c d := exists a, c, b, d; split; [solve_Permutation|apply (opposite_square a b c d _ ltac:(eassumption)); by_dist].

Lemma dists_form_square p1 p2 p3 p4 s : 0 < s → dists p1 p2 p3 p4 ≡ₚ square_dist_list s → form_square p1 p2 p3 p4.
Proof.
  intros Hs Hp. assert (foldr Z.add 0 (dists p1 p2 p3 p4) = 8 * s) as Hsum.
  { rewrite (foldr_permutation_proper' (=) Z.add 0 _ _ Hp); [|lia..]. simpl. lia. }
  assert (∀ d, d ∈ dists p1 p2 p3 p4 → d = s ∨ d = 2 * s) as Hin.
  { intros d Hd. rewrite Hp in Hd. unfold square_dist_list in Hd. rewrite !elem_of_cons, elem_of_nil in Hd. tauto. }
  unfold dists in *. simpl in Hsum. unfold form_square.
  destruct (Hin (dist p1 p2) ltac:(set_solver)) as [D12|D12], (Hin (dist p1 p3) ltac:(set_solver)) as [D13|D13],
    (Hin (dist p1 p4) ltac:(set_solver)) as [D14|D14], (Hin (dist p2 p3) ltac:(set_solver)) as [D23|D23],
    (Hin (dist p2 p4) ltac:(set_solver)) as [D24|D24], (Hin (dist p3 p4) ltac:(set_solver)) as [D34|D34];
    clear Hin Hp; try (exfalso; lia); clear Hsum;
    first [quad p1 p2 p3 p4 | quad p1 p3 p2 p4 | quad p1 p4 p2 p3
          | kite p1 p2 p3 p4 | kite p1 p2 p4 p3 | kite p1 p3 p4 p2 | kite p2 p1 p3 p4 | kite p2 p1 p4 p3 | kite p2 p3 p4 p1
          | kite p3 p1 p2 p4 | kite p3 p1 p4 p2 | kite p3 p2 p4 p1 | kite p4 p1 p2 p3 | kite p4 p1 p3 p2 | kite p4 p2 p3 p1].
Qed.

(** ** [isSquare] *)

Definition in_box (p : Point) : Prop := - 2 ^ 29 ≤ x p ≤ 2 ^ 29 ∧ - 2 ^ 29 ≤ y p ≤ 2 ^ 29.

Lemma distSq_dist p1 p2 : in_box p1 → in_box p2 → distSq p1 p2 = Ret (dist p1 p2) ∧ 0 ≤ dist p1 p2 ≤ 2 ^ 61.
Proof.
  unfold in_box, distSq, dist. intros [Hx1 Hy1] [Hx2 Hy2]. set (u := x p1 - x p2). set (v := y p1 - y p2).
  assert (- 2 ^ 30 ≤ u ≤ 2 ^ 30 ∧ - 2 ^ 30 ≤ v ≤ 2 ^ 30) as [Hu Hv] by (subst u v; lia). clearbody u v.
  assert (∀ z, - 2 ^ 30 ≤ z ≤ 2 ^ 30 → int z = Ret z) as Hint.
  { intros z Hz. unfold int. assert (int_ok z = true) as ->; [|done]. unfold int_ok, INT_MIN, INT_MAX. rewrite andb_true_iff, !Z.leb_le. lia. }
  assert (∀ z, 0 ≤ z ≤ 2 ^ 61 → llong z = Ret z) as Hll.
  { intros z Hz. unfold llong. by rewrite (proj2 (Z.leb_le _ _)), (proj2 (Z.ltb_lt _ _)) by lia. }
  assert (∀ z, - 2 ^ 30 ≤ z ≤ 2 ^ 30 → 0 ≤ z * z ≤ 2 ^ 60) as Hsq.
  { intros z Hz. split; [apply Z.square_nonneg|]. replace (2 ^ 60) with (2 ^ 30 * 2 ^ 30) by done. nia. }
  pose proof (Hsq u Hu). pose proof (Hsq v Hv). rewrite !Hint by done. cbn [mbind outcome_bind].
  rewrite !Hll by lia. cbn [mbind outcome_bind]. rewrite Hll by lia. split; [done|lia].
Qed.

Lemma sort_unique l k : l ≡ₚ k → Sorted Z.le k → sort l = k.
Proof.
  intros Hp Hk. apply (Sorted_unique Z.le); [apply Sorted_merge_sort; intros a b; lia|done|].
  unfold sort. by rewrite merge_sort_Permutation.
Qed.

(** C20: for points with coordinates of at most 2^29 in absolute value, where no
    subtraction and no product overflows, [isSquare] answers true exactly when
    the four points, in some order, are the corners of a square: the six sorted
    distances suffice to recognise one. *)
Theorem isSquare_correct p1 p2 p3 p4 : in_box p1 → in_box p2 → in_box p3 → in_box p4 →
  ∃ b, isSquare p1 p2 p3 p4 = Ret b ∧ (b = true ↔ form_square p1 p2 p3 p4).
Proof.
  intros B1 B2 B3 B4. unfold isSquare. destruct (distSq_dist p1 p2 B1 B2) as [-> R12], (distSq_dist p1 p3 B1 B3) as [-> R13],
    (distSq_dist p1 p4 B1 B4) as [-> R14], (distSq_dist p2 p3 B2 B3) as [-> R23], (distSq_dist p2 p4 B2 B4) as [-> R24],
    (distSq_dist p3 p4 B3 B4) as [-> R34]. cbn [mbind outcome_bind]. change [dist p1 p2; _; _; _; _; _] with (dists p1 p2 p3 p4).
  assert (sort (dists p1 p2 p3 p4) ≡ₚ dists p1 p2 p3 p4) as Hperm by apply merge_sort_Permutation.
  destruct (sort (dists p1 p2 p3 p4)) as [|d0 [|d1 [|d2 [|d3 [|d4 [|d5 [|? ?]]]]]]] eqn:Es;
    try (apply Permutation_length in Hperm; simpl in Hperm; lia).
  assert (∀ s, 0 < s → dists p1 p2 p3 p4 ≡ₚ square_dist_list s → [d0; d1; d2; d3; d4; d5] = square_dist_list s) as Huniq.
  { intros s Hs Hp. rewrite <- Es. apply sort_unique; [done|]. unfold square_dist_list. repeat constructor; lia. }
  assert (d0 ≤ 2 ^ 61) as Hd0.
  { assert (d0 ∈ dists p1 p2 p3 p4) as Hin by (rewrite <- Hperm; left). unfold dists in Hin.
    rewrite !elem_of_cons, elem_of_nil in Hin. naive_solver lia. }
  destruct ((0 <? d0) && (d0 =? d1) && (d1 =? d2) && (d2 =? d3) && (d4 =? d5)) eqn:Ec.
  - rewrite !andb_true_iff, Z.ltb_lt, !Z.eqb_eq in Ec. destruct Ec as [[[[Hs <-] <-] <-] <-].
    unfold llong. rewrite (proj2 (Z.leb_le _ _)), (proj2 (Z.ltb_lt _ _)) by lia. cbn [andb mbind outcome_bind]. eexists. split; [done|].
    rewrite Z.eqb_eq. split.
    + intros ->. apply (dists_form_square _ _ _ _ d0 Hs). by rewrite <- Hperm.
    + intros (s & Hs' & Hp)%form_square_dists. pose proof (Huniq s Hs' Hp) as E. injection E. intros. lia.
  - exists false. split; [done|]. split; [done|]. intros (s & Hs' & Hp)%form_square_dists.
    pose proof (Huniq s Hs' Hp) as E. unfold square_dist_list in E. simplify_eq. rewrite !Z.eqb_refl, (proj2 (Z.ltb_lt _ _) Hs') in Ec. done.
Qed.

Lemma isSquare_correct_witness : ∃ b,
  isSquare (mkPoint 0 0) (mkPoint 3 1) (mkPoint 2 4) (mkPoint (-1) 3) = Ret b ∧
  (b = true ↔ form_square (mkPoint 0 0) (mkPoint 3 1) (mkPoint 2 4) (mkPoint (-1) 3)).
Proof. apply isSquare_correct; unfold in_box; simpl; lia. Defined.

(** The subtractions are in [int]: far apart points overflow. *)
Lemma distSq_overflows : distSq (mkPoint 2000000000 0) (mkPoint (-2000000000) 0) = Err SignedOverflow.
Proof. reflexivity. Qed.
