(* ===== verification/CDigits.v ===== *)
(** * arista/removeOneDigitToMin.c

    The C version of [removeOneDigitToMin] works in place on the buffer of its
    argument.  It leaves in the buffer the string that the C++ version (in
    DigitStrings) returns, and stays inside the buffer when that has room for
    two characters. *)

From stdpp Require Import base list numbers sets.
From Stdlib Require Import ZArith Lia.
From S2P Require Import Prelude DigitStrings.

(** ** string.h *)

Fixpoint strlen (s : list Z) : outcome Z :=
  match s with
  | [] => Err OutOfBounds
  | c :: s => if c =? 0 then Ret 0 else n ← strlen s; Ret (n + 1)
  end.

Definition memmove (b : list Z) (dst src n : Z) : outcome (list Z) :=
  if (0 <=? dst) && (0 <=? src) && (0 <=? n) && (dst + n <=? Z.of_nat (length b)) && (src + n <=? Z.of_nat (length b)) then
    Ret (take (Z.to_nat dst) b ++ take (Z.to_nat n) (drop (Z.to_nat src) b) ++ drop (Z.to_nat (dst + n)) b)
  else Err OutOfBounds.

(** ** The function *)

(** The loop over [i]; the result is [found]. *)
Fixpoint find_peak (k i : nat) (n : Z) (num : list Z) : outcome (bool * list Z) :=
  match k with
  | O => Ret (false, num)
  | S k =>
      a ← vget num (Z.of_nat i);
      b ← vget num (Z.of_nat i + 1);
      if b <? a then num ← memmove num (Z.of_nat i) (Z.of_nat i + 1) (n - Z.of_nat i); Ret (true, num)
      else find_peak k (S i) n num
  end.

Fixpoint skip_zeros (fuel : nat) (start : Z) (num : list Z) : outcome Z :=
  match fuel with
  | O => Err OutOfFuel
  | S fuel =>
      a ← vget num start;
      if a =? 48 then
        b ← vget num (start + 1);
        if negb (b =? 0) then skip_zeros fuel (start + 1) num else Ret start
      else Ret start
  end.

Definition removeOneToMin (num : list Z) : outcome (list Z) :=
  len ← strlen num;
  let n := to_int len in
  if n <=? 1 then num ← vset num 0 48; vset num 1 0 else
  r ← find_peak (Z.to_nat (n - 1)) 0 n num;
  let '(found, num) := r in
  num ← if (found : bool) then Ret num else vset num (n - 1) 0;
  start ← skip_zeros (length num) 0 num;
  if 0 <? start then
    l ← strlen (drop (Z.to_nat start) num);
    memmove num 0 start (l + 1)
  else Ret num.

(** ** The string in a buffer *)

Definition holds (num s : list Z) : Prop := 0 ∉ s ∧ ∃ rest, num = s ++ 0 :: rest.

Lemma strlen_holds s rest : 0 ∉ s → strlen (s ++ 0 :: rest) = Ret (Z.of_nat (length s)).
Proof.
  induction s as [|c s IH]; intros Hs; [done|]. simpl. rewrite (proj2 (Z.eqb_neq c 0)) by set_solver.
  rewrite IH by set_solver. simpl. f_equal. lia.
Qed.

Lemma not_in_part (s : list Z) n : 0 ∉ s → 0 ∉ take n s ∧ 0 ∉ drop n s.
Proof. rewrite <- (take_drop n s) at 1. by rewrite not_elem_of_app. Qed.

Lemma vget_prefix (s rest : list Z) i c : s !! i = Some c → vget (s ++ rest) (Z.of_nat i) = Ret c.
Proof. intros Hi. apply vget_Ret. rewrite Nat2Z.id. split; [lia|]. by apply lookup_app_l_Some. Qed.

Lemma memmove_ok b dst src n : (dst + n ≤ length b)%nat → (src + n ≤ length b)%nat →
  memmove b (Z.of_nat dst) (Z.of_nat src) (Z.of_nat n) = Ret (take dst b ++ take n (drop src b) ++ drop (dst + n) b).
Proof.
  intros H1 H2. unfold memmove. rewrite <- !Nat2Z.inj_add, !(proj2 (Z.leb_le _ _)) by lia. simpl.
  by rewrite !Nat2Z.id.
Qed.

(** The loop does to the buffer what [erase_loop] does to the string. *)
Lemma find_peak_erase s rest k : ∀ i, (i + S k = length s)%nat →
  ∃ b l, erase_loop k i s = Ret (b, l) ∧
    find_peak k i (Z.of_nat (length s)) (s ++ 0 :: rest) = Ret (b, if (b : bool) then l ++ 0 :: 0 :: rest else s ++ 0 :: rest) ∧
    (b = false → l = s) ∧ (b = true → ∃ j, (j < length s)%nat ∧ l = without s j).
Proof.
  induction k as [|k IH]; intros i Hi; cbn [erase_loop find_peak].
  { exists false, s. split_and!; done. }
  destruct (lookup_lt_is_Some_2 s i) as [a Ha]; [lia|]. destruct (lookup_lt_is_Some_2 s (S i)) as [b Hb]; [lia|].
  replace (Z.of_nat i + 1) with (Z.of_nat (S i)) by lia.
  rewrite (vget_lookup _ _ _ Ha), (vget_lookup _ _ _ Hb), (vget_prefix _ _ _ _ Ha), (vget_prefix _ _ _ _ Hb), !bind_Ret.
  destruct (b <? a); [|by apply IH; lia]. exists true, (without s i). split; [done|]. split; [|split; [done|intros _; exists i; split; [lia|done]]].
  replace (Z.of_nat (length s) - Z.of_nat i) with (Z.of_nat (length s - i)) by lia.
  rewrite memmove_ok by (rewrite length_app; simpl; lia). cbn [mbind outcome_bind]. do 2 f_equal.
  unfold without. rewrite take_app_le by lia. rewrite <- app_assoc. f_equal.
  rewrite drop_app_le by lia. replace (i + (length s - i))%nat with (length s + 0)%nat by lia.
  rewrite drop_app_add. replace (length s - i)%nat with (length (drop (S i) s) + 1)%nat by (rewrite length_drop; lia).
  rewrite take_app_add. simpl. by rewrite <- app_assoc.
Qed.

(** The number of leading zeros, without the last character. *)
Lemma skip_zeros_strip p rest : ∀ pre s fuel, s ≠ [] → 0 ∉ s → (length s ≤ fuel)%nat → length pre = p →
  ∃ k, skip_zeros fuel (Z.of_nat p) (pre ++ s ++ 0 :: rest) = Ret (Z.of_nat (p + k)) ∧ (k < length s)%nat ∧ drop k s = strip_zeros s.
Proof.
  intros pre s. revert p pre. induction s as [|c s IH]; intros p pre fuel Hne Hs Hf Hp; [done|].
  destruct fuel as [|fuel]; [simpl in Hf; lia|]. cbn [skip_zeros strip_zeros].
  assert (∀ (l : list Z) x, vget (pre ++ x :: l) (Z.of_nat p) = Ret x) as Hget.
  { intros l x. apply vget_Ret. split; [lia|]. rewrite Nat2Z.id, lookup_app_r by lia. by replace (p - length pre)%nat with 0%nat by lia. }
  simpl. rewrite Hget. cbn [mbind outcome_bind]. destruct (Z.eqb_spec c 48) as [->|Hc].
  2:{ exists 0%nat. rewrite Nat.add_0_r. split; [done|]. split; [lia|done]. }
  replace (Z.of_nat p + 1) with (Z.of_nat (S p)) by lia. destruct s as [|d s].
  - assert (vget (pre ++ 48 :: [] ++ 0 :: rest) (Z.of_nat (S p)) = Ret 0) as ->.
    { apply vget_Ret. split; [lia|]. rewrite Nat2Z.id, lookup_app_r by lia. by replace (S p - length pre)%nat with 1%nat by lia. }
    cbn [mbind outcome_bind]. exists 0%nat. rewrite Nat.add_0_r. split; [done|]. split; [simpl; lia|done].
  - assert (vget (pre ++ 48 :: (d :: s) ++ 0 :: rest) (Z.of_nat (S p)) = Ret d) as ->.
    { apply vget_Ret. split; [lia|]. rewrite Nat2Z.id, lookup_app_r by lia. by replace (S p - length pre)%nat with 1%nat by lia. }
    cbn [mbind outcome_bind]. rewrite (proj2 (Z.eqb_neq d 0)) by set_solver. simpl negb. cbv iota.
    destruct (IH (S p) (pre ++ [48]) fuel) as (k & E & Hk & Hd); [done|set_solver|simpl in *; lia|rewrite length_app; simpl; lia|].
    exists (S k). rewrite <- app_assoc in E. replace (p + S k)%nat with (S p + k)%nat by lia. split; [exact E|]. split; [simpl in *; lia|done].
Qed.

(** The last part of the function: the leading zeros. *)
Lemma strip_in_place s rest : s ≠ [] → 0 ∉ s →
  ∃ num', (start ← skip_zeros (length (s ++ 0 :: rest)) 0 (s ++ 0 :: rest);
           if 0 <? start then l ← strlen (drop (Z.to_nat start) (s ++ 0 :: rest)); memmove (s ++ 0 :: rest) 0 start (l + 1)
           else Ret (s ++ 0 :: rest)) = Ret num' ∧ holds num' (strip_zeros s) ∧ length num' = length (s ++ 0 :: rest).
Proof.
  intros Hne Hs. destruct (skip_zeros_strip 0 rest [] s (length (s ++ 0 :: rest)) Hne Hs) as (k & E & Hk & Hd);
    [rewrite length_app; lia|done|]. simpl app in E. rewrite Nat.add_0_l in E. change (Z.of_nat 0) with 0 in E. rewrite E. cbn [mbind outcome_bind].
  assert (0 ∉ strip_zeros s) as Hns by (rewrite <- Hd; by apply not_in_part).
  destruct (Z.ltb_spec 0 (Z.of_nat k)) as [H0|H0].
  - rewrite Nat2Z.id, drop_app_le, Hd, strlen_holds by (done || lia). cbn [mbind outcome_bind].
    assert (length (strip_zeros s) = length s - k)%nat as Hl by (by rewrite <- Hd, length_drop).
    replace (Z.of_nat (length (strip_zeros s)) + 1) with (Z.of_nat (length (strip_zeros s) + 1)) by lia.
    change 0 with (Z.of_nat 0). rewrite memmove_ok by (rewrite length_app; simpl; lia). eexists. split; [done|].
    simpl. rewrite drop_app_le, Hd, take_app_add by lia. simpl. rewrite <- app_assoc. split; [split; [done|by eexists]|].
    rewrite length_app. simpl. rewrite length_drop, !length_app. simpl. lia.
  - assert (k = 0%nat) as -> by lia. rewrite drop_0 in Hd. rewrite <- Hd. eexists. split; [done|]. split; [|done]. split; [done|by eexists].
Qed.

Lemma to_int_len (s : list Z) : Z.of_nat (length s) < 2 ^ 31 → to_int (Z.of_nat (length s)) = Z.of_nat (length s).
Proof. intros. unfold to_int. rewrite Z.mod_small; lia. Qed.

(** On a buffer with room for at least two characters that holds the string
    [s], [removeOneToMin] stays inside the buffer and leaves in it exactly the
    string that the C++ [removeOneDigitToMin] returns for [s]. *)
Theorem removeOneToMin_agrees num s : holds num s → 2 ≤ Z.of_nat (length num) → Z.of_nat (length s) < 2 ^ 31 →
  ∃ num' r, removeOneToMin num = Ret num' ∧ removeOneDigitToMin s = Ret r ∧ holds num' r ∧ length num' = length num.
Proof.
  intros [Hs [rest ->]] Hroom Hlen. unfold removeOneToMin, removeOneDigitToMin. rewrite strlen_holds by done. cbn [mbind outcome_bind].
  rewrite to_int_len by done. destruct (Z.leb_spec (Z.of_nat (length s)) 1) as [H1|H1].
  - rewrite vset_total by lia. cbn [mbind outcome_bind]. rewrite vset_total by (rewrite length_insert; lia).
    do 2 eexists. split; [done|]. split; [done|]. rewrite !length_insert. split; [|done]. split; [set_solver|].
    rewrite length_app in Hroom. simpl in Hroom.
    destruct s as [|c [|? ?]]; [|by eexists|simpl in H1; lia]. destruct rest as [|d rest]; [simpl in Hroom; lia|]. by eexists.
  - destruct (find_peak_erase s rest (Z.to_nat (Z.of_nat (length s) - 1)) 0) as (b & l & E1 & E2 & Hf & Ht); [lia|].
    rewrite E1, E2. cbn [mbind outcome_bind]. destruct b.
    + destruct (Ht eq_refl) as (j & Hj & ->). destruct (strip_in_place (without s j) (0 :: rest)) as (num' & E & Hh & Hl').
      { intros E0. apply (f_equal length) in E0. unfold without in E0. rewrite length_app, length_take, length_drop in E0. simpl in E0. lia. }
      { unfold without. rewrite not_elem_of_app. split; by apply not_in_part. }
      cbn [mbind outcome_bind] in *. rewrite E. do 2 eexists. split; [done|]. split; [done|]. split; [done|]. rewrite Hl'.
      unfold without. rewrite !length_app, length_take, length_drop. simpl. lia.
    + rewrite (Hf eq_refl). assert (take (length s - 1) s ≠ []) as Hne.
      { intros E0. apply (f_equal length) in E0. rewrite length_take in E0. simpl in E0. lia. }
      assert (0 ∉ take (length s - 1) s) as Hnz by (by apply not_in_part).
      rewrite vset_total by (rewrite length_app; simpl; lia). cbn [mbind outcome_bind].
      assert (<[Z.to_nat (Z.of_nat (length s) - 1) := 0]> (s ++ 0 :: rest) = take (length s - 1) s ++ 0 :: 0 :: rest) as ->.
      { replace (Z.to_nat (Z.of_nat (length s) - 1)) with (length s - 1)%nat by lia.
        rewrite insert_app_l by lia. rewrite insert_take_drop by lia. rewrite (drop_ge _ (S (length s - 1))) by lia. by rewrite <- app_assoc. }
      destruct (strip_in_place _ (0 :: rest) Hne Hnz) as (num' & E & Hh & Hl'). cbn [mbind outcome_bind] in *. rewrite E.
      do 2 eexists. split; [done|]. split; [done|]. split; [done|]. rewrite Hl', !length_app, length_take. simpl. lia.
Qed.

Lemma removeOneToMin_agrees_witness : ∃ num' r, removeOneToMin [49; 48; 50; 0] = Ret num' ∧
  removeOneDigitToMin [49; 48; 50] = Ret r ∧ holds num' r ∧ length num' = 4%nat.
Proof.
  apply (removeOneToMin_agrees [49; 48; 50; 0] [49; 48; 50]); [|vm_compute; discriminate|vm_compute; reflexivity].
  split; [set_solver|by exists []].
Defined.

(** The empty string in a buffer of one character: the write of the terminator
    is behind the buffer. *)
Lemma removeOneToMin_overruns : removeOneToMin [0] = Err OutOfBounds.
Proof. reflexivity. Qed.
