(* ===== verification/Devices.v ===== *)
(** * amazon/emergingDevices/portMapSet.cpp, rolloverTimeStamp.cpp, routingTable.cpp
    and systemDesign/sensorFilter.cpp

    A LED behind a memory-mapped port, the unwrapping of a counter that rolls
    over, a table of routes, and a filter of sensor readings. *)

From stdpp Require Import base list gmap numbers strings.
From Stdlib Require Import ZArith Lia.
From S2P Require Import Prelude.

(** ** toggleLedStatus *)

(** The static variable and the port it is written to. *)
Record led := mkLed { lastValue : Z; port : Z }.

Definition toggleLedStatus (l : led) : led :=
  let v := u8 (Z.lxor (lastValue l) (Z.shiftl 1 3)) in mkLed v v.

Lemma u8_bits z k : 0 ≤ k < 8 → Z.testbit (u8 z) k = Z.testbit z k.
Proof. intros Hk. unfold u8. rewrite Z.mod_pow2_bits_low by lia. done. Qed.

(** The [n]-th call writes a value to the port that differs from the last
    one in bit 3 only: the LED is on after an odd and off after an even number
    of calls. *)
Theorem led_toggles n port0 :
  let l := Nat.iter n toggleLedStatus (mkLed 0 port0) in
  lastValue l = (if Nat.odd n then 8 else 0) ∧ ((0 < n)%nat → port l = lastValue l) ∧
  ∀ k, 0 ≤ k < 8 → Z.testbit (lastValue (toggleLedStatus l)) k = xorb (Z.testbit (lastValue l) k) (k =? 3).
Proof.
  assert (lastValue (Nat.iter n toggleLedStatus (mkLed 0 port0)) = (if Nat.odd n then 8 else 0) ∧
    ((0 < n)%nat → port (Nat.iter n toggleLedStatus (mkLed 0 port0)) = lastValue (Nat.iter n toggleLedStatus (mkLed 0 port0)))) as [H1 H2].
  { induction n as [|n [IH _]]; [split; [done|lia]|]. rewrite Nat.iter_succ, Nat.odd_succ, <- Nat.negb_odd. simpl. rewrite IH.
    split; [by destruct (Nat.odd n)|done]. }
  split; [done|]. split; [done|]. intros k Hk. simpl. rewrite u8_bits, Z.lxor_spec by done. f_equal.
  rewrite Z.shiftl_1_l, Z.pow2_bits_eqb by lia. apply Z.eqb_sym.
Qed.

(** What the port held before is not read: the first call clears its other bits. *)
Lemma led_clears_port : port (toggleLedStatus (mkLed 0 255)) = 8.
Proof. reflexivity. Qed.

(** ** processTimestamp *)

Definition RANGE : Z := 30.

Record unwrapper := mkUnwrapper { storage : list Z; previous : Z; multiplier : Z }.
Definition new_unwrapper : unwrapper := mkUnwrapper [] (-1) 0.

Definition processTimestamp (ts : Z) (u : unwrapper) : unwrapper :=
  let m := if negb (previous u =? -1) && (ts <? previous u) then multiplier u + 1 else multiplier u in
  mkUnwrapper (storage u ++ [ts + m * RANGE]) ts m.

Fixpoint process_all (tss : list Z) (u : unwrapper) : unwrapper :=
  match tss with [] => u | ts :: tss => process_all tss (processTimestamp ts u) end.

(** The times of a clock that is read at least once per period. *)
Fixpoint clock_from (t : Z) (times : list Z) : Prop :=
  match times with [] => True | t' :: times => t ≤ t' < t + RANGE ∧ clock_from t' times end.

Lemma process_all_spec times : ∀ t u, 0 ≤ t → previous u = t mod RANGE → multiplier u = t / RANGE → clock_from t times →
  storage (process_all ((λ t, t mod RANGE) <$> times) u) = storage u ++ times.
Proof.
  induction times as [|t' times IH]; intros t u Ht Hp Hm Hc; [by rewrite app_nil_r|]. destruct Hc as [Hr Hc].
  rewrite fmap_cons. cbn [process_all]. unfold RANGE in *.
  pose proof (Z.div_mod t 30 ltac:(lia)). pose proof (Z.div_mod t' 30 ltac:(lia)).
  pose proof (Z.mod_pos_bound t 30 ltac:(lia)). pose proof (Z.mod_pos_bound t' 30 ltac:(lia)).
  assert ((if negb (previous u =? -1) && (t' mod 30 <? previous u) then multiplier u + 1 else multiplier u) = t' / 30) as E.
  { rewrite Hp, Hm, (proj2 (Z.eqb_neq _ _)) by lia. simpl. destruct (Z.ltb_spec (t' mod 30) (t mod 30)); lia. }
  rewrite (IH t'); [|lia|done|exact E|done]. unfold processTimestamp, RANGE. rewrite E. cbn [storage]. rewrite <- app_assoc. simpl.
  do 2 f_equal. lia.
Qed.

(** For a counter with the period [RANGE] that is sampled at least once per
    period, the storage is the sequence of the true times. *)
Theorem rollover_unwrapped t times : 0 ≤ t < RANGE → clock_from t times →
  storage (process_all ((λ t, t mod RANGE) <$> (t :: times)) new_unwrapper) = t :: times.
Proof.
  intros Ht Hc. rewrite fmap_cons. cbn [process_all]. unfold RANGE in *. rewrite Z.mod_small by lia.
  rewrite (process_all_spec times t); [|lia|by rewrite Z.mod_small|by rewrite Z.div_small|done].
  cbn -[Z.add Z.mul]. f_equal. lia.
Qed.

Lemma rollover_unwrapped_witness :
  storage (process_all [28; 29; 0; 17; 3] new_unwrapper) = [28; 29; 30; 47; 63].
Proof. apply (rollover_unwrapped 28 [29; 30; 47; 63]); unfold clock_from, RANGE; lia. Defined.

(** The comment describes a counter of 5 bits, 0 to 31: with it the times
    repeat. *)
Lemma rollover_5_bits : storage (process_all [30; 31; 0; 1] new_unwrapper) = [30; 31; 30; 31].
Proof. reflexivity. Qed.

(** ** RoutingTable *)

Abbreviation routes := (gmap string string).

Definition insert_route (destination nextHop : string) (table : routes) : routes := <[destination := nextHop]> table.
Definition remove_route (destination : string) (table : routes) : routes := delete destination table.
Definition forward (destination : string) (table : routes) : string :=
  match table !! destination with Some hop => hop | None => "No route found" end.

Inductive route_op := Insert (d h : string) | Remove (d : string).
Definition route_step (t : routes) (o : route_op) : routes :=
  match o with Insert d h => insert_route d h t | Remove d => remove_route d t end.

Definition concerns (d : string) (o : route_op) : bool :=
  match o with Insert d' _ | Remove d' => bool_decide (d' = d) end.

(** After any sequence of insertions and removals [forward] answers with the
    hop of the last operation on the destination, and "No route found" when that
    was a removal or there was none. *)
Theorem routing_table_correct ops d :
  forward d (foldl route_step ∅ ops) =
  match last (filter (λ o, concerns d o = true) ops) with
  | Some (Insert _ h) => h
  | Some (Remove _) | None => "No route found"
  end.
Proof.
  induction ops as [|o ops IH] using rev_ind; [done|]. rewrite foldl_app, list.filter_app. simpl.
  destruct (concerns d o) eqn:E.
  - rewrite (filter_cons_True _ o) by done. rewrite filter_nil, last_snoc. unfold forward.
    destruct o as [d' h|d']; simpl in *; apply bool_decide_eq_true in E as ->; unfold insert_route, remove_route.
    + by rewrite lookup_insert_eq.
    + by rewrite lookup_delete_eq.
  - rewrite (filter_cons_False _ o) by (by rewrite E). rewrite filter_nil, app_nil_r, <- IH. unfold forward.
    destruct o as [d' h|d']; simpl in *; apply bool_decide_eq_false in E; unfold insert_route, remove_route.
    + by rewrite lookup_insert_ne.
    + by rewrite lookup_delete_ne.
Qed.

(** ** SensorFilter (systemDesign/sensorFilter.cpp)

    Nothing is used of [double] but the test of the threshold, which is a
    parameter here: [significant v w] is [std::abs(v - w) >= threshold]. *)

Section SensorFilter.
Context {double : Type} (zero : double) (significant : double → double → bool) (heartbeatIntervalMs : Z).

Record SensorFilter := mkFilter { lastReading : double; lastSentTime : Z }.
Definition new_SensorFilter : SensorFilter := mkFilter zero 0.

Definition shouldUpdate (now : Z) (newValue : double) (f : SensorFilter) : bool * SensorFilter :=
  let significanceTrigger := significant newValue (lastReading f) in
  let heartbeatTrigger := heartbeatIntervalMs <=? now - lastSentTime f in
  if significanceTrigger || heartbeatTrigger then (true, mkFilter newValue now) else (false, f).

(** Every reading is represented: it is sent, or it differs insignificantly from
    the last one sent, less than a heartbeat ago. *)
Definition represented (r : Z * double) (last : Z * double) : Prop :=
  r = last ∨ (significant r.2 last.2 = false ∧ r.1 - last.1 < heartbeatIntervalMs).

Fixpoint covered (readings : list (Z * double)) (f : SensorFilter) (last : Z * double) : Prop :=
  match readings with
  | [] => True
  | r :: readings =>
      let '(b, f) := shouldUpdate r.1 r.2 f in
      let last := if b then r else last in represented r last ∧ covered readings f last
  end.

(** After its first reading the filter loses nothing: at every reading the
    last one sent is the reading itself, or differs from it by less than the
    threshold and is younger than the heartbeat interval. *)
Theorem sensor_readings_covered readings f : covered readings f (lastSentTime f, lastReading f).
Proof.
  revert f. induction readings as [|[now v] readings IH]; intros f; simpl; [done|]. unfold shouldUpdate.
  destruct (significant v (lastReading f)) eqn:E; simpl; [split; [by left|apply (IH (mkFilter v now))]|].
  destruct (Z.leb_spec heartbeatIntervalMs (now - lastSentTime f)) as [H|H]; [split; [by left|apply (IH (mkFilter v now))]|].
  split; [right; simpl; split; [done|lia]|apply IH].
Qed.
End SensorFilter.
