(* ===== verification/PacketThreads.v ===== *)
(** * The programs around the packet rings: cQueuePacketsDynamic.c and .cpp

    [main] starts a producer of ten packets and a consumer of ten packets on a
    ring of five and joins them.  The C program then clears [running] and
    signals the condition, both without the mutex, so a thread that has tested
    the wait condition and not yet slept is a state of its own ([CTested]).

    The two programs are given to one transition system as a record
    [ring_program] of the functions they call; what the proofs need of these
    functions is the class [RingProgram], with an instance for each.  Steps of
    the threads ([dstep]) are kept apart from spurious wake-ups ([wakeup]), which
    nobody can rely on. *)

From stdpp Require Import base list gmap numbers sets relations.
From Stdlib Require Import ZArith Lia.
From S2P Require Import Prelude Ring PacketRing.

(** ** Creating and destroying the ring of the C program *)

Definition with_heap (h : gmap Z Packet) (pb : PacketBuffer) : PacketBuffer :=
  mkPacketBuffer (buffer pb) (head pb) (tail pb) (capacity pb) (isFull pb) h.

(** The arguments tell whether [malloc] and [calloc] succeed; neither result is
    tested.  A null array is the array without a slot. *)
Definition create_buffer (malloc_ok calloc_ok : bool) (cap : Z) : outcome (PacketBuffer * bool) :=
  if negb malloc_ok then Err NullDeref else
  Ret (mkPacketBuffer (if calloc_ok then replicate (Z.to_nat cap) 0 else []) 0 0 cap false ∅, true).

Fixpoint free_slots (n : nat) (i : Z) (pb : PacketBuffer) (h : gmap Z Packet) : outcome (gmap Z Packet) :=
  match n with
  | O => Ret h
  | S n =>
      p ← vget (buffer pb) i;
      h ← (if p =? 0 then Ret h else delete_packet h p);
      free_slots n (i + 1) pb h
  end.

Definition destroy_buffer (pb : PacketBuffer) : outcome PacketBuffer :=
  h ← free_slots (Z.to_nat (capacity pb)) 0 pb (heap pb);
  Ret (mkPacketBuffer [] 0 0 (capacity pb) false h).

(** ** The threads *)

Definition ITEMS : Z := 10.

Definition sample_data (i : Z) : bytes := [u8 i; u8 (i + 1)].

Inductive producer_pc := PLoop (i : Z) | PDone.

Inductive consumer_pc :=
  | CTop (i : Z)               (* in round [i], about to take the mutex *)
  | CTested (i : Z)            (* has found the ring empty, holds the mutex *)
  | CWaits (i : Z)             (* blocked on the condition *)
  | CHas (i : Z) (p : Z)       (* has the packet [p], which it will free *)
  | CDone.

Inductive main_pc := JoinProducer | Stopped | JoinConsumer | Finished.

#[export] Instance main_pc_eq_dec : EqDecision main_pc.
Proof. solve_decision. Defined.

Definition next_round {A} (loop : Z → A) (fin : A) (i : Z) : A :=
  if i + 1 <? ITEMS then loop (i + 1) else fin.

Record ring_program := mkProgram {
  rp_enqueue : Z → Z → bytes → PacketBuffer → outcome PacketBuffer;
  rp_dequeue : bool → PacketBuffer → outcome (option (Z * PacketBuffer));
  rp_destroy : PacketBuffer → outcome PacketBuffer;
  rp_stops : bool;             (* does [main] clear [running]? *)
}.

Definition c_program : ring_program := mkProgram enqueue_c dequeue_c destroy_buffer true.
Definition cpp_program : ring_program :=
  mkProgram enqueue (λ _, dequeue) destroy_PacketBuffer false.

Record psystem := mkPS {
  ps_pb : PacketBuffer;
  ps_running : bool;
  ps_producer : producer_pc;
  ps_consumer : consumer_pc;
  ps_main : main_pc;
  ps_out : list bytes;         (* the packets printed by the consumer *)
}.

(** [pthread_cond_signal]: there is one thread that can wait. *)
Definition signal_consumer (c : consumer_pc) : consumer_pc :=
  match c with CWaits i => CTop i | c => c end.

Definition mutex_free (c : consumer_pc) : bool := match c with CTested _ => false | _ => true end.

Section program.
Context (P : ring_program) (alloc : gmap Z Packet → Z).

Inductive dstep : psystem → psystem → Prop :=
  | d_produce pb run i c m out now pb' :
      mutex_free c = true →
      rp_enqueue P (alloc (heap pb)) now (sample_data i) pb = Ret pb' →
      dstep (mkPS pb run (PLoop i) c m out)
            (mkPS pb' run (next_round PLoop PDone i) (signal_consumer c) m out)
  | d_test pb run p i m out :
      rp_dequeue P run pb = Ret None →
      dstep (mkPS pb run p (CTop i) m out) (mkPS pb run p (CTested i) m out)
  | d_wait pb run p i m out :
      dstep (mkPS pb run p (CTested i) m out) (mkPS pb run p (CWaits i) m out)
  | d_null pb run p i m out pb' :
      rp_dequeue P run pb = Ret (Some (0, pb')) →
      dstep (mkPS pb run p (CTop i) m out) (mkPS pb' run p (next_round CTop CDone i) m out)
  | d_take pb run p i m out q pb' :
      rp_dequeue P run pb = Ret (Some (q, pb')) → q ≠ 0 →
      dstep (mkPS pb run p (CTop i) m out) (mkPS pb' run p (CHas i q) m out)
  | d_consume pb run p i m out q a pb' :
      consume (Some (q, pb)) pb = Ret (Some a, pb') →
      dstep (mkPS pb run p (CHas i q) m out) (mkPS pb' run p (next_round CTop CDone i) m (out ++ [a]))
  | d_stop pb run c out :
      rp_stops P = true →
      dstep (mkPS pb run PDone c JoinProducer out) (mkPS pb false PDone c Stopped out)
  | d_join pb run c out :
      rp_stops P = false →
      dstep (mkPS pb run PDone c JoinProducer out) (mkPS pb run PDone c JoinConsumer out)
  | d_signal pb run p c out :
      dstep (mkPS pb run p c Stopped out) (mkPS pb run p (signal_consumer c) JoinConsumer out)
  | d_destroy pb run p out pb' :
      rp_destroy P pb = Ret pb' →
      dstep (mkPS pb run p CDone JoinConsumer out) (mkPS pb' run p CDone Finished out).

(** A thread that is about to run a section that faults: a null or dangling
    pointer, an index out of range.  [dstep] has no step for it. *)
Inductive faults : psystem → fault → Prop :=
  | f_produce pb run i c m out now f :
      mutex_free c = true →
      rp_enqueue P (alloc (heap pb)) now (sample_data i) pb = Err f →
      faults (mkPS pb run (PLoop i) c m out) f
  | f_dequeue pb run p i m out f :
      rp_dequeue P run pb = Err f → faults (mkPS pb run p (CTop i) m out) f
  | f_consume pb run p i m out q f :
      consume (Some (q, pb)) pb = Err f → faults (mkPS pb run p (CHas i q) m out) f
  | f_destroy pb run p out f :
      rp_destroy P pb = Err f → faults (mkPS pb run p CDone JoinConsumer out) f.

Inductive wakeup : psystem → psystem → Prop :=
  | w_spurious pb run p i m out :
      wakeup (mkPS pb run p (CWaits i) m out) (mkPS pb run p (CTop i) m out).

Definition pstep (s s' : psystem) : Prop := dstep s s' ∨ wakeup s s'.

End program.

(** The state of [main] after the threads are created. *)
Definition started (pb : PacketBuffer) (running : bool) : psystem :=
  mkPS pb running (PLoop 0) (CTop 0) JoinProducer [].

(** ** What the proofs need of the two programs

    [h] is the part of the heap that the ring owns and [F] the rest: the packet
    that the consumer has dequeued and not yet freed. *)

Class RingProgram (P : ring_program) := {
  rp_enqueue_law pb h F ps vs a now d :
    pb_rep (with_heap h pb) ps vs → heap pb = h ∪ F → h ##ₘ F → a ≠ 0 → a ∉ dom (heap pb) →
    ∃ pb' h' ps', rp_enqueue P a now d pb = Ret pb' ∧ heap pb' = h' ∪ F ∧ h' ##ₘ F ∧
      pb_rep (with_heap h' pb') ps' (slide (length (buffer pb)) vs d) ∧
      length (buffer pb') = length (buffer pb);
  rp_dequeue_law pb : rp_dequeue P true pb = dequeue pb;
  rp_stop_law pb : rp_stops P = true → rp_dequeue P false pb = Ret (Some (0, pb));
  rp_destroy_law pb ps vs : pb_rep pb ps vs → ∃ pb', rp_destroy P pb = Ret pb' ∧ heap pb' = ∅;
}.

Lemma with_heap_id pb : with_heap (heap pb) pb = pb.
Proof. by destruct pb. Qed.

(** An operation that leaves the cells of [F] alone commutes with adding them. *)
Lemma delete_packet_frame (h F : gmap Z Packet) p h' :
  h ##ₘ F → delete_packet h p = Ret h' → delete_packet (h ∪ F) p = Ret (h' ∪ F) ∧ h' ##ₘ F.
Proof.
  intros Hd. unfold delete_packet. destruct (Z.eqb_spec p 0) as [->|Hp]; [by intros [= <-]|].
  destruct (h !! p) as [x|] eqn:E; [|done]. intros [= <-].
  rewrite (lookup_union_Some_l _ _ _ _ E), delete_union.
  assert (F !! p = None) as HF by (by eapply map_disjoint_Some_l).
  rewrite (delete_id F) by done. split; [done|]. by apply map_disjoint_delete_l.
Qed.

Lemma insert_frame (h F : gmap Z Packet) a x :
  h ##ₘ F → a ∉ dom (h ∪ F) → <[a := x]> (h ∪ F) = <[a := x]> h ∪ F ∧ <[a := x]> h ##ₘ F.
Proof.
  intros Hd [_ HF]%not_elem_of_dom%lookup_union_None. split; [apply insert_union_l|].
  by apply map_disjoint_insert_l_2.
Qed.

Lemma delete_packet_dom (h : gmap Z Packet) p h' : delete_packet h p = Ret h' → dom h' ⊆ dom h.
Proof.
  unfold delete_packet. destruct (p =? 0); [by intros [= <-]|]. destruct (h !! p); [|done].
  intros [= <-]. rewrite dom_delete_L. set_solver.
Qed.

(** Both versions of [enqueue] leave a framed heap alone. *)
Lemma enqueue_frame (h F : gmap Z Packet) pb a now d pb' :
  h ##ₘ F → a ∉ dom (h ∪ F) → enqueue a now d (with_heap h pb) = Ret pb' →
  enqueue a now d (with_heap (h ∪ F) pb) = Ret (with_heap (heap pb' ∪ F) pb') ∧ heap pb' ##ₘ F.
Proof.
  intros Hd Ha. unfold enqueue. simpl. destruct (isFull pb); intros E.
  - apply bind_Ret_inv in E as (old & -> & E). apply bind_Ret_inv in E as (h1 & Hx & E).
    apply bind_Ret_inv in E as (b & -> & E). apply bind_Ret_inv in E as (t & -> & [= <-]).
    pose proof (delete_packet_dom _ _ _ Hx). destruct (delete_packet_frame _ F _ _ Hd Hx) as [E Hd'].
    rewrite bind_Ret, E, !bind_Ret.
    destruct (insert_frame _ F a (mkPacket d now) Hd') as [-> ?]; [set_solver|]. done.
  - apply bind_Ret_inv in E as (b & -> & E). apply bind_Ret_inv in E as (t & -> & [= <-]).
    rewrite !bind_Ret. by destruct (insert_frame h F a (mkPacket d now) Hd Ha) as [-> ?].
Qed.

Lemma enqueue_c_frame (h F : gmap Z Packet) pb a now d pb' :
  h ##ₘ F → a ∉ dom (h ∪ F) → enqueue_c a now d (with_heap h pb) = Ret pb' →
  enqueue_c a now d (with_heap (h ∪ F) pb) = Ret (with_heap (heap pb' ∪ F) pb') ∧ heap pb' ##ₘ F.
Proof.
  intros Hd Ha. unfold enqueue_c. simpl. destruct (isFull pb); intros E.
  - apply bind_Ret_inv in E as ([h1 t] & E1 & E). apply bind_Ret_inv in E1 as (old & -> & E1).
    apply bind_Ret_inv in E as (u & -> & E). rewrite bind_Ret. apply bind_Ret_inv in E1 as (h2 & Hx & E1). destruct (old =? 0); [done|].
    apply bind_Ret_inv in E1 as (t2 & -> & [= -> ->]).
    apply bind_Ret_inv in E as (b & -> & E). apply bind_Ret_inv in E as (hd & -> & [= <-]).
    pose proof (delete_packet_dom _ _ _ Hx). destruct (delete_packet_frame _ F _ _ Hd Hx) as [E Hd'].
    rewrite E, !bind_Ret.
    destruct (insert_frame _ F a (mkPacket d now) Hd') as [-> ?]; [set_solver|]. done.
  - rewrite bind_Ret in E |- *. apply bind_Ret_inv in E as (u & -> & E). apply bind_Ret_inv in E as (b & -> & E).
    apply bind_Ret_inv in E as (hd & -> & [= <-]). rewrite !bind_Ret.
    by destruct (insert_frame h F a (mkPacket d now) Hd Ha) as [-> ?].
Qed.

Lemma capacity_length pb ps vs pb' ps' vs' :
  pb_rep pb ps vs → pb_rep pb' ps' vs' → capacity pb' = capacity pb → length (buffer pb') = length (buffer pb).
Proof. intros R R' Hc. pose proof (pr_cap _ _ _ R). pose proof (pr_cap _ _ _ R'). lia. Qed.

Lemma free_slots_delete_all pb l r h :
  buffer pb = r ++ l →
  free_slots (length l) (Z.of_nat (length r)) pb h = delete_all h l.
Proof.
  revert r h. induction l as [|p l IH]; intros r h Hb; simpl; [done|].
  assert (vget (buffer pb) (Z.of_nat (length r)) = Ret p) as ->.
  { apply vget_Ret. split; [lia|]. rewrite Hb, Nat2Z.id, lookup_app_r, Nat.sub_diag by lia. done. }
  rewrite bind_Ret. assert ((if p =? 0 then Ret h else delete_packet h p) = delete_packet h p) as ->.
  { unfold delete_packet. by destruct (p =? 0). }
  destruct (delete_packet h p) as [h'|]; [|done]. rewrite !bind_Ret.
  rewrite <-(IH (r ++ [p])); [|by rewrite <-app_assoc]. f_equal. rewrite length_app. simpl. lia.
Qed.

(** [destroy_buffer] does what the destructor of the C++ class does. *)
Lemma destroy_buffer_delete_all pb :
  capacity pb = Z.of_nat (length (buffer pb)) → destroy_buffer pb = destroy_PacketBuffer pb.
Proof.
  intros Hc. unfold destroy_buffer, destroy_PacketBuffer. rewrite Hc, Nat2Z.id.
  by rewrite (free_slots_delete_all pb (buffer pb) []).
Qed.

Lemma with_heap_rep h h' pb ps vs : pb_rep (with_heap h pb) ps vs → pb_rep (with_heap h (with_heap h' pb)) ps vs.
Proof. done. Qed.

#[export] Instance cpp_RingProgram : RingProgram cpp_program.
Proof.
  split; simpl; try done; [|intros; by eapply destroy_rep].
  intros pb h F ps vs a now d R Hh Hd Ha Hfr. rewrite Hh in Hfr.
  destruct (enqueue_rep _ _ _ a now d R Ha) as (pb' & ps' & E & _ & R' & Hc).
  { simpl. rewrite dom_union_L in Hfr. set_solver. }
  destruct (enqueue_frame h F pb a now d pb' Hd Hfr E) as [E' Hd'].
  rewrite <-Hh, with_heap_id in E'. exists (with_heap (heap pb' ∪ F) pb'), (heap pb'), ps'.
  do 3 (split; [done|]). split; [apply with_heap_rep; by rewrite with_heap_id|].
  exact (capacity_length _ _ _ _ _ _ R R' Hc).
Qed.

#[export] Instance c_RingProgram : RingProgram c_program.
Proof.
  split; simpl; [|apply dequeue_c_running| |].
  - intros pb h F ps vs a now d R Hh Hd Ha Hfr. rewrite Hh in Hfr.
    destruct (enqueue_rep _ _ _ a now d R Ha) as (pb' & ps' & E & Ec & R' & Hc).
    { simpl. rewrite dom_union_L in Hfr. set_solver. }
    destruct (enqueue_c_frame h F pb a now d pb' Hd Hfr Ec) as [E' Hd'].
    rewrite <-Hh, with_heap_id in E'. exists (with_heap (heap pb' ∪ F) pb'), (heap pb'), ps'.
    do 3 (split; [done|]). split; [apply with_heap_rep; by rewrite with_heap_id|].
    exact (capacity_length _ _ _ _ _ _ R R' Hc).
  - intros pb _. unfold dequeue_c. by rewrite andb_false_r.
  - intros pb ps vs R. rewrite destroy_buffer_delete_all by apply R. by eapply destroy_rep.
Qed.

Lemma create_buffer_new cap : create_buffer true true cap = Ret (new_PacketBuffer cap, true).
Proof. done. Qed.

(** [dequeue] alone: it takes the oldest packet out of the ring and leaves the
    heap, so the packet is now the caller's. *)
Lemma dequeue_empty pb h ps vs : pb_rep (with_heap h pb) ps vs →
  (dequeue pb = Ret None ↔ vs = []).
Proof.
  intros R. unfold dequeue, isEmpty. pose proof (fr_empty _ _ _ _ _ (pr_flag _ _ _ R)) as He. simpl in He.
  rewrite He. pose proof (pr_data _ _ _ R) as HD. case_bool_decide as E.
  - subst ps. by apply Forall2_nil_inv_l in HD as ->.
  - split; [|intros ->; by apply Forall2_nil_inv_r in HD].
    destruct (vget _ _); [|done]. rewrite bind_Ret. destruct (vset _ _ _); [|done].
    rewrite bind_Ret. destruct (umod _ _); [|done]. done.
Qed.

Lemma dequeue_takes pb h ps v vs : pb_rep (with_heap h pb) ps (v :: vs) →
  ∃ p x pb' ps', dequeue pb = Ret (Some (p, pb')) ∧ p ≠ 0 ∧ h !! p = Some x ∧ data x = v ∧
    heap pb' = heap pb ∧ length (buffer pb') = length (buffer pb) ∧
    pb_rep (with_heap (delete p h) pb') ps' vs.
Proof.
  intros R. pose proof (dequeue_rep _ _ _ R) as (pb1 & ps1 & E & R1 & _ & Hl).
  pose proof (pr_null _ _ _ (match ps with p :: _ => p | [] => 0 end) R) as Hnull.
  unfold dequeue, isEmpty in *. simpl in E.
  pose proof (fr_empty _ _ _ _ _ (pr_flag _ _ _ R)) as He. simpl in He. rewrite He in E |- *.
  pose proof (pr_data _ _ _ R) as HD. destruct ps as [|p ps]; [by apply Forall2_nil_inv_l in HD|].
  rewrite bool_decide_eq_false_2 in E |- * by done.
  destruct (fr_pop _ _ _ _ _ _ (pr_flag _ _ _ R)) as [Hs _]. simpl in Hs.
  pose proof (fr_tail _ _ _ _ _ (pr_flag _ _ _ R)) as Ht. simpl in Ht.
  assert (vget (buffer pb) (tail pb) = Ret p) as Hg by (apply vget_Ret; split; [lia|done]).
  rewrite Hg in E |- *. rewrite bind_Ret in E |- *.
  destruct (vset (buffer pb) (tail pb) 0) as [b|] eqn:Eb; [|done]. rewrite bind_Ret in E |- *.
  destruct (umod _ _) as [t|]; [|done]. rewrite !bind_Ret in E |- *. simpl in E.
  destruct (h !! p) as [x|] eqn:Ex; [|done]. simpl of_option in E. rewrite bind_Ret in E.
  assert (p ≠ 0) as Hp by (apply Hnull; by left).
  unfold delete_packet in E. rewrite (proj2 (Z.eqb_neq p 0) Hp), Ex, bind_Ret in E. injection E as Ev <-.
  exists p, x. do 2 eexists. split; [done|]. do 3 (split; [done|]). split; [done|].
  split; [exact Hl|]. exact R1.
Qed.

(** ** The invariant

    The heap holds exactly the packets of the ring and the one in the consumer's
    hands; what was printed, followed by that packet and the ring, is a
    subsequence of what was produced; a consumer that sleeps or is about to has
    an empty ring in front of it. *)

Definition produced (p : producer_pc) : Z := match p with PLoop i => i | PDone => ITEMS end.

Definition packets_upto (n : Z) : list bytes := sample_data ∘ Z.of_nat <$> seq 0 (Z.to_nat n).

(** The cell the consumer owns, and its payload. *)
Definition held (c : consumer_pc) (F : gmap Z Packet) (hv : list bytes) : Prop :=
  match c with
  | CHas _ p => p ≠ 0 ∧ ∃ x, F = {[p := x]} ∧ hv = [data x]
  | _ => F = ∅ ∧ hv = []
  end.

(** Rounds of the consumer that are over. *)
Definition rounds (c : consumer_pc) : Z :=
  match c with CTop i | CTested i | CWaits i | CHas i _ => i | CDone => ITEMS end.

Definition asleep (c : consumer_pc) : bool := match c with CTested _ | CWaits _ => true | _ => false end.

Record pinv (P : ring_program) (s : psystem) : Prop := {
  pi_mem : ps_main s ≠ Finished → ∃ h F ps vs hv,
    heap (ps_pb s) = h ∪ F ∧ h ##ₘ F ∧ pb_rep (with_heap h (ps_pb s)) ps vs ∧
    held (ps_consumer s) F hv ∧
    ps_out s ++ hv ++ vs `sublist_of` packets_upto (produced (ps_producer s)) ∧
    (asleep (ps_consumer s) = true → vs = []);
  pi_produced : 0 ≤ produced (ps_producer s) ≤ ITEMS ∧
    (∀ i, ps_producer s = PLoop i → i < ITEMS ∧ ps_main s = JoinProducer);
  pi_rounds : 0 ≤ rounds (ps_consumer s) ≤ ITEMS ∧ (ps_consumer s ≠ CDone → rounds (ps_consumer s) < ITEMS);
  pi_running : ps_main s = JoinProducer ∨ rp_stops P = false → ps_running s = true;
  pi_counts : rp_stops P = false → Z.of_nat (length (ps_out s)) = rounds (ps_consumer s);
  pi_stopped : rp_stops P = false → ps_main s ≠ Stopped;
  pi_done : ps_main s = Finished → heap (ps_pb s) = ∅ ∧ ps_consumer s = CDone ∧
              ps_out s `sublist_of` packets_upto ITEMS;
}.

Lemma packets_upto_S n : 0 ≤ n → packets_upto (n + 1) = packets_upto n ++ [sample_data n].
Proof.
  intros Hn. unfold packets_upto. replace (Z.to_nat (n + 1)) with (S (Z.to_nat n)) by lia.
  rewrite seq_S, fmap_app. simpl. by rewrite Z2Nat.id by lia.
Qed.

Lemma next_round_produced i : 0 ≤ i < ITEMS → produced (next_round PLoop PDone i) = i + 1.
Proof. unfold next_round. destruct (Z.ltb_spec (i + 1) ITEMS); simpl; lia. Qed.

Lemma next_round_rounds i : 0 ≤ i < ITEMS → rounds (next_round CTop CDone i) = i + 1 ∧
  (next_round CTop CDone i ≠ CDone → i + 1 < ITEMS) ∧ asleep (next_round CTop CDone i) = false ∧
  ∀ F hv, held (next_round CTop CDone i) F hv ↔ F = ∅ ∧ hv = [].
Proof. unfold next_round. destruct (Z.ltb_spec (i + 1) ITEMS); simpl; (split; [|split; [|split]]); try done; lia. Qed.

Lemma signal_consumer_same c : rounds (signal_consumer c) = rounds c ∧
  (signal_consumer c = CDone ↔ c = CDone) ∧ (∀ F hv, held (signal_consumer c) F hv ↔ held c F hv) ∧
  (asleep (signal_consumer c) = true → ∃ i, c = CTested i).
Proof. destruct c; simpl; (split; [|split; [|split]]); try done; eauto. Qed.

Section invariant.
Context (P : ring_program) `{!RingProgram P} (alloc : gmap Z Packet → Z).
Hypothesis (Hal : ∀ h, alloc h ≠ 0 ∧ alloc h ∉ dom h).

Lemma unfinished s : pinv P s → ps_consumer s ≠ CDone ∨ ps_producer s ≠ PDone → ps_main s ≠ Finished.
Proof.
  intros [_ [_ Hp] _ _ _ _ Hd] Hc Hm. destruct (Hd Hm) as (_ & ? & _). destruct Hc as [|Hc]; [done|].
  destruct (ps_producer s) as [i|]; [|done]. destruct (Hp i eq_refl). congruence.
Qed.

(** While running, a dequeue never answers null; after the stop it always does. *)
Lemma rp_dequeue_cases s : pinv P s → ps_main s ≠ Finished →
  (ps_running s = true ∧ rp_dequeue P (ps_running s) (ps_pb s) = dequeue (ps_pb s)) ∨
  (ps_running s = false ∧ rp_stops P = true ∧
   rp_dequeue P (ps_running s) (ps_pb s) = Ret (Some (0, ps_pb s))).
Proof.
  intros I _. destruct (ps_running s) eqn:Hr; [left; by rewrite rp_dequeue_law|right].
  destruct (rp_stops P) eqn:Hs; [by rewrite rp_stop_law|].
  pose proof (pi_running _ _ I (or_intror Hs)). congruence.
Qed.

Lemma pinv_produce pb run i c m out now pb' :
  pinv P (mkPS pb run (PLoop i) c m out) → mutex_free c = true →
  rp_enqueue P (alloc (heap pb)) now (sample_data i) pb = Ret pb' →
  pinv P (mkPS pb' run (next_round PLoop PDone i) (signal_consumer c) m out).
Proof.
  intros I Hc He. assert (m ≠ Finished) as Hm by (apply (unfinished _ I); by right).
  destruct I as [Hmem [Hp0 Hp] Hr Hrun Hcnt Hst Hd]. simpl in *. destruct (Hp i eq_refl) as [Hi Hj].
  destruct (Hmem Hm) as (h & F & ps & vs & hv & Hh & Hdj & R & Hheld & Hsub & Has).
  destruct (Hal (heap pb)) as [Ha Hfr].
  destruct (rp_enqueue_law pb h F ps vs _ now (sample_data i) R Hh Hdj Ha Hfr)
    as (pb1 & h' & ps' & E & Hh' & Hdj' & R' & _). rewrite He in E. injection E as <-.
  destruct (signal_consumer_same c) as (Er & Ed & El & Es).
  split; simpl; rewrite ?Er, ?Ed, ?next_round_produced by lia; try done.
  - intros _. exists h', F, ps', (slide (length (buffer pb)) vs (sample_data i)), hv.
    do 3 (split; [done|]). split; [by apply El|]. split.
    + rewrite packets_upto_S by lia. rewrite app_assoc in Hsub |- *. by apply slide_sublist.
    + intros [j ->]%Es. done.
  - split; [lia|]. intros j. unfold next_round. destruct (Z.ltb_spec (i + 1) ITEMS); [|done].
    by intros [= <-].
Qed.

(** The consumer moves on inside a round, or to the next one. *)
Lemma pinv_consumer pb run p c m out pb' c' out' :
  pinv P (mkPS pb run p c m out) → c ≠ CDone → rounds c ≤ rounds c' ≤ ITEMS →
  (c' ≠ CDone → rounds c' < ITEMS) →
  (rp_stops P = false → Z.of_nat (length out') = rounds c') →
  (∃ h F ps vs hv, heap pb' = h ∪ F ∧ h ##ₘ F ∧ pb_rep (with_heap h pb') ps vs ∧
    held c' F hv ∧ out' ++ hv ++ vs `sublist_of` packets_upto (produced p) ∧ (asleep c' = true → vs = [])) →
  pinv P (mkPS pb' run p c' m out').
Proof.
  intros I Hc Hr Hr' Hcnt Hmem. pose proof (unfinished _ I (or_introl Hc)) as Hm.
  destruct I as [_ Hp [Hr0 _] Hrun _ Hst Hd]. simpl in *. split; simpl; try done. split; [lia|done].
Qed.

Lemma pinv_test pb run p i m out :
  pinv P (mkPS pb run p (CTop i) m out) → rp_dequeue P run pb = Ret None →
  pinv P (mkPS pb run p (CTested i) m out).
Proof.
  intros I He. assert (m ≠ Finished) as Hm by (apply (unfinished _ I); by left).
  destruct (pi_mem _ _ I Hm) as (h & F & ps & vs & hv & Hh & Hdj & R & Hheld & Hsub & _).
  destruct (pi_rounds _ _ I) as [Hr Hr']. simpl in *.
  apply (pinv_consumer _ _ _ _ _ _ _ (CTested i) _ I); simpl; [done|lia|by intros _; apply Hr'|apply I|].
  exists h, F, ps, vs, hv. do 5 (split; [done|]). intros _.
  destruct (rp_dequeue_cases _ I Hm) as [[_ E]|(_ & _ & E)]; simpl in E; rewrite He in E; [|done].
  by apply (dequeue_empty pb h ps vs R).
Qed.

Lemma pinv_wait pb run p i m out :
  pinv P (mkPS pb run p (CTested i) m out) → pinv P (mkPS pb run p (CWaits i) m out).
Proof.
  intros I. assert (m ≠ Finished) as Hm by (apply (unfinished _ I); by left).
  destruct (pi_rounds _ _ I) as [Hr Hr']. simpl in *.
  apply (pinv_consumer _ _ _ _ _ _ _ (CWaits i) _ I); simpl; [done|lia|by intros _; apply Hr'|apply I|by apply I].
Qed.

(** The next round begins; [out'] has one packet more if the round gave one. *)
Lemma pinv_next pb run p c i m out pb' out' h ps vs :
  pinv P (mkPS pb run p c m out) → c ≠ CDone → rounds c = i →
  (rp_stops P = false → length out' = S (length out)) →
  heap pb' = h → pb_rep (with_heap h pb') ps vs → out' ++ vs `sublist_of` packets_upto (produced p) →
  pinv P (mkPS pb' run p (next_round CTop CDone i) m out').
Proof.
  intros I Hc Hi Hl Hh R Hsub. destruct (pi_rounds _ _ I) as [Hr Hr']. simpl in *. specialize (Hr' Hc).
  destruct (next_round_rounds i) as (E1 & E2 & E3 & E4); [lia|].
  apply (pinv_consumer _ _ _ _ _ _ _ _ _ I Hc); rewrite ?E1, ?E3; [lia|done| |].
  - intros Hs. rewrite Hl by done. pose proof (pi_counts _ _ I Hs). simpl in *. lia.
  - exists h, ∅, ps, vs, []. rewrite (right_id_L ∅ (∪)), E4. split_and!; try done. apply map_disjoint_empty_r.
Qed.

Lemma pinv_null pb run p i m out pb' :
  pinv P (mkPS pb run p (CTop i) m out) → rp_dequeue P run pb = Ret (Some (0, pb')) →
  pinv P (mkPS pb' run p (next_round CTop CDone i) m out).
Proof.
  intros I He. assert (m ≠ Finished) as Hm by (apply (unfinished _ I); by left).
  destruct (pi_mem _ _ I Hm) as (h & F & ps & vs & hv & Hh & Hdj & R & [-> ->] & Hsub & _). simpl in *.
  rewrite (right_id_L ∅ (∪)) in Hh.
  destruct (rp_dequeue_cases _ I Hm) as [[_ E]|(Hrun & Hs & E)]; simpl in E; rewrite He in E.
  - destruct vs as [|v vs]; [by rewrite (proj2 (dequeue_empty _ _ _ _ R)) in E|].
    destruct (dequeue_takes _ _ _ _ _ R) as (q & x & pb1 & ps' & E' & Hq & _). congruence.
  - injection E as ->. apply (pinv_next _ _ _ _ _ _ _ _ _ h ps vs I); try done. congruence.
Qed.

Lemma pinv_take pb run p i m out q pb' :
  pinv P (mkPS pb run p (CTop i) m out) → rp_dequeue P run pb = Ret (Some (q, pb')) → q ≠ 0 →
  pinv P (mkPS pb' run p (CHas i q) m out).
Proof.
  intros I He Hq. assert (m ≠ Finished) as Hm by (apply (unfinished _ I); by left).
  destruct (pi_mem _ _ I Hm) as (h & F & ps & vs & hv & Hh & Hdj & R & [-> ->] & Hsub & _).
  destruct (pi_rounds _ _ I) as [Hr Hr']. simpl in *. rewrite (right_id_L ∅ (∪)) in Hh.
  destruct (rp_dequeue_cases _ I Hm) as [[_ E]|(Hrun & Hs & E)]; simpl in E; rewrite He in E; [|congruence].
  destruct vs as [|v vs]; [by rewrite (proj2 (dequeue_empty _ _ _ _ R)) in E|].
  destruct (dequeue_takes _ _ _ _ _ R) as (q' & x & pb1 & ps' & E' & _ & Hx & <- & Hh' & _ & R').
  rewrite E' in E. injection E as -> ->.
  apply (pinv_consumer _ _ _ _ _ _ _ (CHas i q') _ I); simpl; [done|lia|by intros _; apply Hr'|apply I|].
  exists (delete q' h), {[q' := x]}, ps', vs, [data x]. split_and!; try done; [|by apply map_disjoint_singleton_r, lookup_delete_eq|by exists x].
  rewrite Hh', Hh. rewrite <-(insert_delete_id h q' x Hx) at 1.
  rewrite insert_union_singleton_l. apply map_union_comm.
  by apply map_disjoint_singleton_l, lookup_delete_eq.
Qed.

Lemma pinv_consume pb run p i m out q a pb' :
  pinv P (mkPS pb run p (CHas i q) m out) → consume (Some (q, pb)) pb = Ret (Some a, pb') →
  pinv P (mkPS pb' run p (next_round CTop CDone i) m (out ++ [a])).
Proof.
  intros I He. assert (m ≠ Finished) as Hm by (apply (unfinished _ I); by left).
  destruct (pi_mem _ _ I Hm) as (h & F & ps & vs & hv & Hh & Hdj & R & (Hq & x & -> & ->) & Hsub & _). simpl in *.
  assert (h !! q = None) as Hn by (by eapply map_disjoint_singleton_r).
  rewrite Hh, lookup_union_r, lookup_singleton_eq in He by done. simpl of_option in He. rewrite bind_Ret in He.
  rewrite delete_packet_Some in He; [|rewrite dom_union_L; set_solver|done].
  rewrite bind_Ret in He. injection He as <- <-.
  assert (delete q (h ∪ {[q := x]}) = h) as Hdel.
  { rewrite delete_union, delete_singleton_eq, (right_id_L ∅ (∪)). by apply delete_id. }
  rewrite Hdel. apply (pinv_next _ _ _ _ _ _ _ _ _ h ps vs I); try done.
  - intros _. rewrite length_app. simpl. lia.
  - by rewrite <-app_assoc.
Qed.

Lemma pinv_dstep s s' : pinv P s → dstep P alloc s s' → pinv P s'.
Proof.
  intros I Hs. destruct Hs as
    [pb run i c m out now pb' Hc He|pb run p i m out He|pb run p i m out|pb run p i m out pb' He
    |pb run p i m out q pb' He Hq|pb run p i m out q a pb' He|pb run c out Hs|pb run c out Hs
    |pb run p c out|pb run p out pb' He].
  - by eapply pinv_produce.
  - by apply pinv_test.
  - by apply pinv_wait.
  - by eapply pinv_null.
  - by eapply pinv_take.
  - by eapply pinv_consume.
  - destruct I as [Hmem Hp Hr Hrun Hcnt Hst Hd]. simpl in *. split; simpl; try done; [by intros _; apply Hmem|intros [?|?]; congruence|congruence].
  - destruct I as [Hmem Hp Hr Hrun Hcnt Hst Hd]. simpl in *. split; simpl; try done; [by intros _; apply Hmem|].
    intros _. apply Hrun. by left.
  - destruct I as [Hmem [Hp0 Hp] Hr Hrun Hcnt Hst Hd]. simpl in *.
    destruct (signal_consumer_same c) as (Er & Ed & El & Es).
    split; simpl; rewrite ?Er, ?Ed; try done; [|split; [done|intros i Hi; by destruct (Hp i Hi)]|].
    + intros _. destruct (Hmem ltac:(done)) as (h & F & ps & vs & hv & ? & ? & ? & ? & ? & Has).
      exists h, F, ps, vs, hv. rewrite El. split_and!; try done. intros [j ->]%Es. by apply Has.
    + intros [?|?]; [done|]. by destruct (Hst ltac:(done)).
  - destruct I as [Hmem [Hp0 Hp] Hr Hrun Hcnt Hst Hd]. simpl in *.
    destruct (Hmem ltac:(done)) as (h & F & ps & vs & hv & Hh & _ & R & [-> ->] & Hsub & _).
    rewrite (right_id_L ∅ (∪)) in Hh. rewrite <-Hh, with_heap_id in R.
    destruct (rp_destroy_law _ _ _ R) as (pb1 & E & Hempty). rewrite He in E. injection E as <-.
    assert (p = PDone) as ->. { destruct p as [i|]; [|done]. by destruct (Hp i eq_refl). }
    split; simpl; try done; [intros [?|?]; [done|by apply Hrun; right]|].
    intros _. split_and!; try done. etransitivity; [|exact Hsub]. simpl. by apply sublist_inserts_r.
Qed.

Lemma pinv_wakeup s s' : pinv P s → wakeup s s' → pinv P s'.
Proof.
  intros I Hs. destruct Hs as [pb run p i m out].
  destruct (pi_rounds _ _ I) as [Hr Hr']. simpl in *.
  assert (m ≠ Finished) as Hm by (apply (unfinished _ I); by left).
  destruct (pi_mem _ _ I Hm) as (h & F & ps & vs & hv & ? & ? & ? & ? & ? & _).
  apply (pinv_consumer _ _ _ _ _ _ _ (CTop i) _ I); simpl; [done|lia|by intros _; apply Hr'|apply I|].
  by exists h, F, ps, vs, hv.
Qed.
End invariant.

(** ** Progress and termination *)

Section progress.
Context (P : ring_program) `{!RingProgram P} (alloc : gmap Z Packet → Z).
Hypothesis (Hal : ∀ h, alloc h ≠ 0 ∧ alloc h ∉ dom h).

Definition blocked (s : psystem) : Prop :=
  ps_main s = JoinConsumer ∧ ps_producer s = PDone ∧ ∃ i, ps_consumer s = CWaits i.

(** The packet in the consumer's hands is live, and freeing it succeeds. *)
Lemma holds_packet pb run p i m out q : pinv P (mkPS pb run p (CHas i q) m out) →
  ∃ x, heap pb !! q = Some x ∧ consume (Some (q, pb)) pb = Ret (Some (data x), with_heap (delete q (heap pb)) pb).
Proof.
  intros I. assert (m ≠ Finished) as Hm by (apply (unfinished _ _ I); by left).
  destruct (pi_mem _ _ I Hm) as (h & F & ps & vs & hv & Hh & Hd & R & (Hq & x & -> & ->) & _). simpl in *.
  assert (heap pb !! q = Some x) as Hx.
  { rewrite Hh, lookup_union_r; [apply lookup_singleton_eq|by eapply map_disjoint_singleton_r]. }
  exists x. split; [done|]. rewrite Hx. simpl. rewrite delete_packet_Some; [done|by eapply elem_of_dom_2|done].
Qed.

Lemma consumer_progress pb run p i m out : pinv P (mkPS pb run p (CTop i) m out) →
  ∃ s', dstep P alloc (mkPS pb run p (CTop i) m out) s'.
Proof.
  intros I. assert (m ≠ Finished) as Hm by (apply (unfinished _ _ I); by left).
  destruct (pi_mem _ _ I Hm) as (h & F & ps & vs & hv & _ & _ & R & _ & _ & _). simpl in *.
  destruct (rp_dequeue_cases _ _ I Hm) as [[_ E]|(_ & _ & E)]; simpl in E.
  - destruct vs as [|v vs].
    + rewrite (proj2 (dequeue_empty _ _ _ _ R)) in E by done. eexists. by apply d_test.
    + destruct (dequeue_takes _ _ _ _ _ R) as (q & x & pb1 & ps' & E' & Hq & _).
      rewrite E' in E. eexists. by eapply d_take.
  - eexists. by apply d_null.
Qed.

Lemma producer_progress pb run j c m out : pinv P (mkPS pb run (PLoop j) c m out) → mutex_free c = true →
  ∃ s', dstep P alloc (mkPS pb run (PLoop j) c m out) s'.
Proof.
  intros I Hc. destruct (pi_produced _ _ I) as [_ Hj]. destruct (Hj j eq_refl) as [_ Hm]. simpl in Hm.
  destruct (pi_mem _ _ I) as (h & F & ps & vs & hv & Hh & Hd & R & _); [simpl; congruence|]. simpl in *.
  destruct (Hal (heap pb)) as [Ha Hfr].
  destruct (rp_enqueue_law pb h F ps vs _ 0 (sample_data j) R Hh Hd Ha Hfr) as (pb' & h' & ps' & E & _).
  eexists. by eapply d_produce.
Qed.

(** No section of any thread faults. *)
Lemma program_no_fault s f : pinv P s → ¬ faults P alloc s f.
Proof.
  intros I Hf. destruct Hf as [pb run i c m out now f Hc E|pb run p i m out f E|pb run p i m out q f E|pb run p out f E].
  - destruct (pi_produced _ _ I) as [_ Hj]. destruct (Hj i eq_refl) as [_ Hm]. simpl in Hm.
    destruct (pi_mem _ _ I) as (h & F & ps & vs & hv & Hh & Hd & R & _); [simpl; congruence|]. simpl in *.
    destruct (Hal (heap pb)) as [Ha Hfr].
    destruct (rp_enqueue_law pb h F ps vs _ now (sample_data i) R Hh Hd Ha Hfr) as (pb' & h' & ps' & E' & _). congruence.
  - assert (m ≠ Finished) as Hm by (apply (unfinished _ _ I); by left).
    destruct (pi_mem _ _ I Hm) as (h & F & ps & vs & hv & _ & _ & R & _ & _ & _). simpl in *.
    destruct (rp_dequeue_cases _ _ I Hm) as [[_ E']|(_ & _ & E')]; simpl in E'; [|congruence].
    destruct vs as [|v vs]; [rewrite (proj2 (dequeue_empty _ _ _ _ R)) in E' by done; congruence|].
    destruct (dequeue_takes _ _ _ _ _ R) as (q & x & pb1 & ps' & E1 & _). congruence.
  - destruct (holds_packet _ _ _ _ _ _ _ I) as (x & Hx & E'). congruence.
  - destruct (pi_mem _ _ I) as (h & F & ps & vs & hv & Hh & Hd & R & [-> ->] & _); [done|]. simpl in *.
    rewrite (right_id_L ∅ (∪)) in Hh. rewrite <-Hh, with_heap_id in R.
    destruct (rp_destroy_law _ _ _ R) as (pb1 & E' & _). congruence.
Qed.

(** A thread that is neither blocked nor done can go on; the system comes to rest only when [main] has returned or the consumer
    sleeps after everybody else is done. *)
Lemma program_progress s : pinv P s →
  (∃ s', dstep P alloc s s') ∨ ps_main s = Finished ∨ blocked s.
Proof.
  intros I. destruct s as [pb run p c m out]. destruct c as [i|i|i|i q|].
  - left. by apply consumer_progress.
  - left. eexists. apply d_wait.
  - destruct p as [j|].
    + left. by apply producer_progress.
    + destruct m; [left|left|right; right; split_and!; eauto|right; by left].
      * destruct (rp_stops P) eqn:Hs; eexists; [by apply d_stop|by apply d_join].
      * eexists. apply d_signal.
  - left. destruct (holds_packet _ _ _ _ _ _ _ I) as (x & Hx & E). eexists. by eapply d_consume.
  - destruct p as [j|].
    + left. by apply producer_progress.
    + destruct m; [left|left|left|right; by left].
      * destruct (rp_stops P) eqn:Hs; eexists; [by apply d_stop|by apply d_join].
      * eexists. apply d_signal.
      * destruct (pi_mem _ _ I) as (h & F & ps & vs & hv & Hh & Hd & R & [-> ->] & _); [done|]. simpl in *.
        rewrite (right_id_L ∅ (∪)) in Hh. rewrite <-Hh, with_heap_id in R.
        destruct (rp_destroy_law _ _ _ R) as (pb1 & E & _). eexists. by apply d_destroy.
Qed.

(** Every step of a thread uses up some of the ten rounds, and a signal, which
    sends the consumer back, is paid for by the step that gives it. *)
Definition consumer_left (c : consumer_pc) : Z :=
  match c with
  | CTop i => 4 * (ITEMS - i)
  | CTested i => 4 * (ITEMS - i) - 1
  | CWaits i => 4 * (ITEMS - i) - 2
  | CHas i _ => 4 * (ITEMS - i) - 3
  | CDone => 0
  end.

Definition steps_left (s : psystem) : Z :=
  4 * (ITEMS - produced (ps_producer s)) + consumer_left (ps_consumer s) +
  match ps_main s with JoinProducer => 6 | Stopped => 5 | JoinConsumer => 1 | Finished => 0 end.

Lemma steps_left_nonneg s : pinv P s → 0 ≤ steps_left s.
Proof.
  intros I. destruct (pi_produced _ _ I) as [Hp _]. destruct (pi_rounds _ _ I) as [Hr Hr'].
  destruct s as [pb run p c m out]; simpl in *. unfold steps_left; simpl.
  assert (0 ≤ consumer_left c) by (destruct c; simpl in *; try specialize (Hr' ltac:(done)); lia).
  destruct m; lia.
Qed.

Lemma signal_left c : consumer_left (signal_consumer c) ≤ consumer_left c + 2.
Proof. destruct c; simpl; lia. Qed.

Lemma next_left i : 0 ≤ i < ITEMS → consumer_left (next_round CTop CDone i) = 4 * (ITEMS - i) - 4.
Proof. intros Hi. unfold next_round. destruct (Z.ltb_spec (i + 1) ITEMS); simpl; lia. Qed.

Lemma dstep_decreases s s' : pinv P s → dstep P alloc s s' → steps_left s' < steps_left s.
Proof.
  intros I Hs. destruct (pi_produced _ _ I) as [Hp Hp']. destruct (pi_rounds _ _ I) as [Hr Hr']. unfold steps_left.
  destruct Hs as
    [pb run i c m out now pb' Hc He|pb run p i m out He|pb run p i m out|pb run p i m out pb' He
    |pb run p i m out q pb' He Hq|pb run p i m out q a pb' He|pb run c out Hs|pb run c out Hs
    |pb run p c out|pb run p out pb' He]; simpl in *; try specialize (Hr' ltac:(done));
    rewrite ?next_left by lia; try lia.
  - destruct (Hp' i eq_refl). rewrite next_round_produced by lia. pose proof (signal_left c). lia.
  - pose proof (signal_left c). lia.
Qed.

Lemma program_terminates n s s' : pinv P s → nsteps (dstep P alloc) n s s' → Z.of_nat n ≤ steps_left s.
Proof.
  intros I Hn. revert I. induction Hn as [s|n s1 s2 s3 Hs _ IH]; intros I; [pose proof (steps_left_nonneg s I); lia|].
  pose proof (dstep_decreases _ _ I Hs). assert (pinv P s2) as I2 by (by eapply pinv_dstep). specialize (IH I2). lia.
Qed.
End progress.

(** ** The programs *)

(** Nothing but a spurious wake-up can happen. *)
Definition at_rest (P : ring_program) (alloc : gmap Z Packet → Z) (s : psystem) : Prop :=
  ∀ s', ¬ dstep P alloc s s'.

Lemma started_inv P cap : 0 < cap → pinv P (started (new_PacketBuffer cap) true).
Proof.
  intros Hc. split; simpl; try done.
  - intros _. exists ∅, ∅, [], [], []. split_and!; try done. apply (new_PacketBuffer_rep cap Hc).
  - unfold ITEMS. split; [lia|]. by intros i [= <-].
Qed.

Lemma program_invariant P `{!RingProgram P} alloc cap s : (∀ h, alloc h ≠ 0 ∧ alloc h ∉ dom h) → 0 < cap →
  rtc (pstep P alloc) (started (new_PacketBuffer cap) true) s → pinv P s.
Proof.
  intros Hal Hc Hr. pose proof (started_inv P cap Hc) as I. revert I.
  induction Hr as [|s1 s2 s3 [Hs|Hs] _ IH]; [done|..]; intros I; apply IH;
    [by eapply pinv_dstep|by eapply pinv_wakeup].
Qed.

Lemma out_sublist P s : pinv P s → ps_out s `sublist_of` packets_upto (produced (ps_producer s)).
Proof.
  intros I. destruct (decide (ps_main s = Finished)) as [E|E].
  - destruct (pi_done _ _ I E) as (_ & _ & H). destruct (pi_produced _ _ I) as [_ Hp].
    destruct (ps_producer s) as [i|]; [|done]. destruct (Hp i eq_refl). congruence.
  - destruct (pi_mem _ _ I E) as (h & F & ps & vs & hv & _ & _ & _ & _ & H & _).
    etransitivity; [|exact H]. by apply sublist_inserts_r.
Qed.

Lemma sublist_same_length {A} (l k : list A) : l `sublist_of` k → (length k ≤ length l)%nat → l = k.
Proof.
  induction 1 as [|x l k _ IH|x l k Hs _]; simpl; intros Hl; [done|by rewrite IH by lia|].
  apply sublist_length in Hs. lia.
Qed.

(** C6: the C program of cQueuePacketsDynamic.c, when every [malloc] and [calloc]
    gives memory: in every interleaving of producer, consumer and [main], the
    packets printed are packets produced, in order and without repetition; no
    thread is ever about to run a section that faults (a null or freed packet, an
    index out of range); the threads take at most 86 steps of their own until
    nothing but a spurious wake-up is possible, and then either [main] has
    returned, with every packet freed exactly once, or the consumer sleeps with
    [main] waiting for it. *)
Theorem packet_program_correct alloc pb running s :
  (∀ h, alloc h ≠ 0 ∧ alloc h ∉ dom h) →
  create_buffer true true 5 = Ret (pb, running) → rtc (pstep c_program alloc) (started pb running) s →
  ps_out s `sublist_of` packets_upto (produced (ps_producer s)) ∧
  (∀ f, ¬ faults c_program alloc s f) ∧
  (∀ n s', nsteps (dstep c_program alloc) n s s' → Z.of_nat n ≤ 86) ∧
  (at_rest c_program alloc s → ps_main s = Finished ∨ blocked s) ∧
  (ps_main s = Finished → heap (ps_pb s) = ∅).
Proof.
  intros Hal Hcr Hr. rewrite create_buffer_new in Hcr. injection Hcr as <- <-.
  pose proof (program_invariant c_program alloc 5 s Hal ltac:(lia) Hr) as I.
  split; [by eapply out_sublist|]. split; [intros f; exact (program_no_fault c_program alloc Hal s f I)|]. split; [|split].
  - intros n s' Hn. pose proof (program_terminates _ _ Hal _ _ _ I Hn) as Hle.
    destruct (pi_produced _ _ I) as [Hp _]. destruct (pi_rounds _ _ I) as [Hrd _].
    unfold steps_left in Hle. assert (consumer_left (ps_consumer s) ≤ 40) by (destruct (ps_consumer s); simpl in *; unfold ITEMS; lia).
    unfold ITEMS in *. destruct (ps_main s); lia.
  - intros Hrest. destruct (program_progress c_program alloc Hal s I) as [[s' Hs]|[?|?]]; auto. by destruct (Hrest s').
  - intros Hf. by apply (pi_done _ _ I Hf).
Qed.

(** The C++ program has no [running] flag.  It comes to rest with [main]
    returned and all ten packets printed, or with the consumer asleep for ever
    because packets were overwritten: fewer than ten were printed. *)
Theorem packet_program_cpp alloc s :
  (∀ h, alloc h ≠ 0 ∧ alloc h ∉ dom h) →
  rtc (pstep cpp_program alloc) (started (new_PacketBuffer 5) true) s →
  at_rest cpp_program alloc s →
  (ps_main s = Finished ∧ ps_out s = packets_upto ITEMS ∧ heap (ps_pb s) = ∅) ∨
  (blocked s ∧ (length (ps_out s) < 10)%nat ∧ isEmpty (ps_pb s) = true).
Proof.
  intros Hal Hr Hrest. pose proof (program_invariant cpp_program alloc 5 s Hal ltac:(lia) Hr) as I.
  pose proof (pi_counts _ _ I eq_refl) as Hcnt. pose proof (pi_rounds _ _ I) as [Hrd Hrd'].
  destruct (program_progress cpp_program alloc Hal s I) as [[s' Hs]|[Hf|Hb]]; [by destruct (Hrest s')|left|right].
  - destruct (pi_done _ _ I Hf) as (Hh & Hc & Hsub). rewrite Hc in Hcnt. simpl in Hcnt. split_and!; [done| |done].
    apply sublist_same_length; [done|]. unfold packets_upto. rewrite length_fmap, length_seq. lia.
  - split; [done|]. destruct Hb as (Hm & Hp & i & Hc). rewrite Hc in *. simpl in *.
    specialize (Hrd' ltac:(done)). unfold ITEMS in *. split; [lia|].
    destruct (pi_mem _ _ I) as (h & F & ps & vs & hv & _ & _ & R & _ & _ & Has); [congruence|].
    rewrite Hc in Has. specialize (Has eq_refl). subst vs.
    pose proof (fr_empty _ _ _ _ _ (pr_flag _ _ _ R)) as He. simpl in He. unfold isEmpty. rewrite He.
    apply bool_decide_eq_true_2. pose proof (pr_data _ _ _ R) as HD. by apply Forall2_nil_inv_r in HD.
Qed.

(** ** Executing a schedule

    One step of the chosen thread, with the clock at 0. *)

Inductive actor := Producer | Consumer | Main.

Definition exec (P : ring_program) (alloc : gmap Z Packet → Z) (a : actor) (s : psystem) : option psystem :=
  let '(mkPS pb run p c m out) := s in
  match a, p, c, m with
  | Producer, PLoop i, _, _ =>
      if negb (mutex_free c) then None else
      match rp_enqueue P (alloc (heap pb)) 0 (sample_data i) pb with
      | Ret pb' => Some (mkPS pb' run (next_round PLoop PDone i) (signal_consumer c) m out)
      | Err _ => None
      end
  | Consumer, _, CTop i, _ =>
      match rp_dequeue P run pb with
      | Ret None => Some (mkPS pb run p (CTested i) m out)
      | Ret (Some (q, pb')) =>
          if q =? 0 then Some (mkPS pb' run p (next_round CTop CDone i) m out)
          else Some (mkPS pb' run p (CHas i q) m out)
      | Err _ => None
      end
  | Consumer, _, CTested i, _ => Some (mkPS pb run p (CWaits i) m out)
  | Consumer, _, CHas i q, _ =>
      match consume (Some (q, pb)) pb with
      | Ret (Some a, pb') => Some (mkPS pb' run p (next_round CTop CDone i) m (out ++ [a]))
      | _ => None
      end
  | Main, PDone, _, JoinProducer =>
      Some (if rp_stops P then mkPS pb false p c Stopped out else mkPS pb run p c JoinConsumer out)
  | Main, _, _, Stopped => Some (mkPS pb run p (signal_consumer c) JoinConsumer out)
  | Main, _, CDone, JoinConsumer =>
      match rp_destroy P pb with Ret pb' => Some (mkPS pb' run p c Finished out) | Err _ => None end
  | _, _, _, _ => None
  end.

Fixpoint exec_all P alloc (sched : list actor) (s : psystem) : option psystem :=
  match sched with [] => Some s | a :: sched => exec P alloc a s ≫= exec_all P alloc sched end.

Lemma exec_dstep P alloc a s s' : exec P alloc a s = Some s' → dstep P alloc s s'.
Proof.
  destruct s as [pb run p c m out]. destruct a; simpl.
  - destruct p as [i|]; [|done]. destruct (mutex_free c) eqn:Hc; [|done]. simpl.
    destruct (rp_enqueue _ _ _ _ _) eqn:E; [|done]. intros [= <-]. by eapply d_produce.
  - assert (∀ r, match c with
      | CTop i => match rp_dequeue P run pb with
        | Ret None => Some (mkPS pb run p (CTested i) m out)
        | Ret (Some (q, pb')) => if q =? 0 then Some (mkPS pb' run p (next_round CTop CDone i) m out)
                                 else Some (mkPS pb' run p (CHas i q) m out)
        | Err _ => None end
      | CTested i => Some (mkPS pb run p (CWaits i) m out)
      | CHas i q => match consume (Some (q, pb)) pb with
        | Ret (Some a, pb') => Some (mkPS pb' run p (next_round CTop CDone i) m (out ++ [a]))
        | _ => None end
      | _ => None end = Some r → dstep P alloc (mkPS pb run p c m out) r) as Hc.
    { intros r. destruct c as [i|i|i|i q|]; try done.
      - destruct (rp_dequeue P run pb) as [[[q pb']|]|] eqn:E; [|intros [= <-]; by apply d_test|done].
        destruct (Z.eqb_spec q 0) as [->|Hq]; intros [= <-]; [by apply d_null|by eapply d_take].
      - intros [= <-]. apply d_wait.
      - destruct (consume _ _) as [[[b|] pb']|] eqn:E; try done. intros [= <-]. by eapply d_consume. }
    destruct p; apply Hc.
  - destruct p as [i|], m; try done; destruct c; try done; intros H;
      try (destruct (rp_stops P) eqn:Hs; injection H as <-; [by apply d_stop|by apply d_join]);
      try (injection H as <-; apply (d_signal P alloc pb run));
      destruct (rp_destroy P pb) eqn:E; simplify_eq; by apply d_destroy.
Qed.

Lemma exec_all_dsteps P alloc sched s s' : exec_all P alloc sched s = Some s' → rtc (dstep P alloc) s s'.
Proof.
  revert s. induction sched as [|a sched IH]; intros s; simpl; [by intros [= <-]|].
  intros (s1 & H1 & H2)%bind_Some. eapply rtc_l; [by eapply exec_dstep|by apply IH].
Qed.

Lemma exec_all_steps P alloc sched s s' : exec_all P alloc sched s = Some s' → rtc (pstep P alloc) s s'.
Proof. intros H%exec_all_dsteps. eapply rtc_subrel; [|exact H]. intros ?? ?. by left. Qed.

Definition alternating : list actor :=
  concat (replicate 10 [Producer; Consumer; Consumer]) ++ [Main; Main; Main].

Lemma packet_program_correct_witness :
  ∃ s, exec_all c_program bump alternating (started (new_PacketBuffer 5) true) = Some s ∧
    ps_main s = Finished ∧ ps_out s = packets_upto 10 ∧
    ps_out s `sublist_of` packets_upto (produced (ps_producer s)) ∧ heap (ps_pb s) = ∅.
Proof.
  destruct (exec_all c_program bump alternating (started (new_PacketBuffer 5) true)) as [s|] eqn:E;
    [|vm_compute in E; discriminate].
  exists s. split; [reflexivity|].
  destruct (packet_program_correct bump (new_PacketBuffer 5) true s bump_fresh eq_refl
              (exec_all_steps _ _ _ _ _ E)) as (Hsub & _ & _ & _ & Hdone).
  assert (ps_main s = Finished) as Hf by (vm_compute in E; injection E as <-; reflexivity).
  split; [exact Hf|]. split; [vm_compute in E; injection E as <-; vm_compute; reflexivity|].
  split; [exact Hsub|exact (Hdone Hf)].
Defined.

(** The flag is cleared and the condition signalled without the mutex, so both
    can fall between the consumer's test and its wait: the consumer then sleeps
    for ever and [main] never returns, although it has asked the consumer to
    stop. *)
Definition lost_wakeup : list actor :=
  replicate 10 Producer ++ concat (replicate 5 [Consumer; Consumer]) ++ [Consumer; Main; Main; Consumer].

Lemma stop_lost :
  ∃ s, rtc (pstep c_program bump) (started (new_PacketBuffer 5) true) s ∧
    blocked s ∧ ps_running s = false ∧ at_rest c_program bump s.
Proof.
  destruct (exec_all c_program bump lost_wakeup (started (new_PacketBuffer 5) true)) as [s|] eqn:E;
    [|vm_compute in E; discriminate].
  exists s. split; [by eapply exec_all_steps|].
  assert (ps_main s = JoinConsumer ∧ ps_producer s = PDone ∧ ps_consumer s = CWaits 5 ∧ ps_running s = false)
    as (Hm & Hp & Hc & Hr) by (vm_compute in E; by injection E as <-).
  split; [split_and!; eauto|]. split; [done|]. intros s' Hs. destruct Hs; simpl in *; congruence.
Qed.

(** The stop also discards: if the consumer only starts when [running] is off,
    nothing of what was produced is printed. *)
Definition late_consumer : list actor := replicate 10 Producer ++ [Main; Main] ++ replicate 10 Consumer ++ [Main].

Lemma stop_discards :
  (λ s, (ps_main s, ps_out s)) <$> exec_all c_program bump late_consumer (started (new_PacketBuffer 5) true)
    = Some (Finished, []).
Proof. vm_compute. reflexivity. Qed.

(** Without the memory it asks for, [create_buffer] dereferences null, and the
    first packet is stored through a null array. *)
Lemma create_buffer_no_memory :
  create_buffer false true 5 = Err NullDeref ∧
  ∃ pb running, create_buffer true false 5 = Ret (pb, running) ∧
    ∀ a now d, a ≠ 0 → enqueue_c a now d pb = Err OutOfBounds.
Proof.
  split; [done|]. do 2 eexists. split; [done|]. intros a now d Ha. unfold enqueue_c. simpl. by rewrite (proj2 (Z.eqb_neq a 0) Ha).
Qed.

(** So does a failing [malloc] in the producer's [enqueue]. *)
Lemma enqueue_no_memory alloc run i c m out : mutex_free c = true → (∀ h, alloc h = 0) →
  faults c_program alloc (mkPS (new_PacketBuffer 5) run (PLoop i) c m out) NullDeref.
Proof. intros Hc Ha. apply (f_produce _ _ _ _ _ _ _ _ 0); [done|]. simpl. by rewrite Ha. Qed.
