(* ===== verification/StaticThreads.v ===== *)
(** * The program around the static packet ring: cQueuePacketsStatic.c

    A producer and a consumer loop until SIGINT clears [g_running]; the handler
    then signals the condition.  It takes no mutex, so its two statements are
    steps that fall anywhere between those of the threads, and a consumer that
    has tested its wait condition and not yet slept is a state of its own. *)

From stdpp Require Import base list numbers relations.
From Stdlib Require Import ZArith Lia.
From S2P Require Import Prelude Ring PacketRing.

(** The payload of packet [packet_id]: int arithmetic, then conversion to a byte. *)
Definition payload_byte (packet_id j : Z) : outcome Z :=
  x ← int (packet_id * 10);
  y ← int (x + j);
  Ret (u8 y).

Fixpoint payload_from (packet_id j : Z) (n : nat) : outcome bytes :=
  match n with
  | O => Ret []
  | S n => b ← payload_byte packet_id j; bs ← payload_from packet_id (j + 1) n; Ret (b :: bs)
  end.

Definition payload_of (packet_id : Z) : outcome bytes := payload_from packet_id 0 8.

Inductive sproducer :=
  | SLoop (packet_id : Z)            (* about to test [g_running] *)
  | SPush (packet_id : Z) (d : bytes)
  | SProducerExits.

Inductive sconsumer :=
  | SConsLoop                        (* about to test [g_running] *)
  | SPop                             (* in [packet_buffer_pop], about to take the mutex *)
  | STested                          (* has found the ring empty, holds the mutex *)
  | SWaits                           (* blocked on [not_empty] *)
  | SConsumerExits.

Record ssystem := mkSS {
  g_buffer : SBuffer;
  g_running : bool;
  s_producer : sproducer;
  s_consumer : sconsumer;
  s_handlers : nat;                  (* handlers that have cleared the flag and not yet signalled *)
  s_pushed : list bytes;             (* payloads pushed *)
  s_out : list bytes;                (* payloads printed by the consumer *)
}.

Definition s_signal (c : sconsumer) : sconsumer := match c with SWaits => SPop | c => c end.
Definition s_mutex_free (c : sconsumer) : bool := match c with STested => false | _ => true end.

(** The steps of the threads and the second half of the handler. *)
Inductive sstep : ssystem → ssystem → Prop :=
  | s_payload b id c k pu out d : payload_of id = Ret d →
      sstep (mkSS b true (SLoop id) c k pu out) (mkSS b true (SPush id d) c k pu out)
  | s_producer_exit b id c k pu out :
      sstep (mkSS b false (SLoop id) c k pu out) (mkSS b false SProducerExits c k pu out)
  | s_push b run id d c k pu out now b' : s_mutex_free c = true →
      packet_buffer_push now d b = Ret (0, b') → int_ok (id + 1) = true →
      sstep (mkSS b run (SPush id d) c k pu out) (mkSS b' run (SLoop (id + 1)) (s_signal c) k (pu ++ [d]) out)
  | s_cons_loop b p k pu out :
      sstep (mkSS b true p SConsLoop k pu out) (mkSS b true p SPop k pu out)
  | s_consumer_exit b p k pu out :
      sstep (mkSS b false p SConsLoop k pu out) (mkSS b false p SConsumerExits k pu out)
  | s_test b run p k pu out : packet_buffer_pop run b = Ret None →
      sstep (mkSS b run p SPop k pu out) (mkSS b run p STested k pu out)
  | s_wait b run p k pu out :
      sstep (mkSS b run p STested k pu out) (mkSS b run p SWaits k pu out)
  | s_pop b run p k pu out pkt b' : packet_buffer_pop run b = Ret (Some (0, Some pkt, b')) →
      sstep (mkSS b run p SPop k pu out) (mkSS b' run p SConsLoop k pu (out ++ [payload pkt]))
  | s_pop_stopped b run p k pu out b' : packet_buffer_pop run b = Ret (Some (-1, None, b')) →
      sstep (mkSS b run p SPop k pu out) (mkSS b' run p SConsLoop k pu out)
  | s_handler_signals b run p c k pu out :
      sstep (mkSS b run p c (S k) pu out) (mkSS b run p (s_signal c) k pu out).

(** [signal_handler] begins, and spurious wake-ups. *)
Inductive senv : ssystem → ssystem → Prop :=
  | s_sigint b run p c k pu out : senv (mkSS b run p c k pu out) (mkSS b false p c (S k) pu out)
  | s_spurious b run p k pu out : senv (mkSS b run p SWaits k pu out) (mkSS b run p SPop k pu out).

Definition s_initial (b : SBuffer) : ssystem :=
  mkSS (packet_buffer_init b) true (SLoop 0) SConsLoop 0 [] [].

(** ** The payloads *)

Definition ideal_payload (packet_id : Z) : bytes := (λ j, u8 (packet_id * 10 + Z.of_nat j)) <$> seq 0 8.

(** The last packet whose payload can be computed. *)
Definition LAST_ID : Z := 214748364.

Lemma int_ok_spec z : int_ok z = true ↔ INT_MIN ≤ z ≤ INT_MAX.
Proof. unfold int_ok. rewrite andb_true_iff, !Z.leb_le. done. Qed.

Lemma payload_byte_ok id j : 0 ≤ id ≤ LAST_ID → 0 ≤ j < 8 → payload_byte id j = Ret (u8 (id * 10 + j)).
Proof.
  intros Hi Hj. unfold payload_byte, int, LAST_ID in *.
  rewrite (proj2 (int_ok_spec (id * 10))), bind_Ret by (unfold INT_MIN, INT_MAX; lia).
  by rewrite (proj2 (int_ok_spec (id * 10 + j))) by (unfold INT_MIN, INT_MAX; lia).
Qed.

Lemma payload_of_ok id : 0 ≤ id ≤ LAST_ID → payload_of id = Ret (ideal_payload id).
Proof. intros Hi. unfold payload_of, ideal_payload. simpl. by rewrite !payload_byte_ok, !bind_Ret by lia. Qed.

(** One packet later the multiplication overflows. *)
Lemma payload_of_overflows : payload_of (LAST_ID + 1) = Err SignedOverflow.
Proof. reflexivity. Qed.

Lemma payload_of_length id d : payload_of id = Ret d → length d = 8%nat.
Proof.
  unfold payload_of. generalize 0. change 8%nat with (length (replicate 8 tt)).
  generalize (replicate 8 tt) as l. intros l. revert d.
  induction l as [|x l IH]; intros d j; simpl; [by intros [= <-]|].
  intros (b & _ & E)%bind_Ret_inv. apply bind_Ret_inv in E as (bs & E & [= <-]). simpl. f_equal. by eapply IH.
Qed.

Lemma payload_of_bound id d : 0 ≤ id → payload_of id = Ret d → id ≤ LAST_ID ∧ d = ideal_payload id.
Proof.
  intros Hi E. assert (id ≤ LAST_ID) as Hle; [|split; [done|]; rewrite payload_of_ok in E by lia; by injection E].
  apply Z.nlt_ge. intros Hgt. unfold payload_of in E. simpl in E. unfold payload_byte, int in E.
  destruct (int_ok (id * 10)) eqn:Ho; [|done]. apply int_ok_spec in Ho. unfold LAST_ID, INT_MAX in *. lia.
Qed.

Lemma ideal_payload_fits id now : fits (OEnq (ideal_payload id) now) = true.
Proof. reflexivity. Qed.

#[global] Opaque LAST_ID payload_of ideal_payload.

(** ** The invariant *)

Definition payloads (n : Z) : list bytes := ideal_payload ∘ Z.of_nat <$> seq 0 (Z.to_nat n).

Definition s_asleep (c : sconsumer) : bool := match c with STested | SWaits => true | _ => false end.

(** What the producer has pushed. *)
Definition producer_ok (p : sproducer) (pu : list bytes) : Prop :=
  match p with
  | SLoop id => 0 ≤ id ≤ LAST_ID + 1 ∧ pu = payloads id
  | SPush id d => 0 ≤ id ≤ LAST_ID ∧ d = ideal_payload id ∧ pu = payloads id
  | SProducerExits => ∃ id, 0 ≤ id ≤ LAST_ID + 1 ∧ pu = payloads id
  end.

Record sinv (s : ssystem) : Prop := {
  si_ring : ∃ ps vs, sb_rep (g_buffer s) ps vs ∧ s_out s ++ vs `sublist_of` s_pushed s ∧
              (s_asleep (s_consumer s) = true → vs = []);
  si_producer : producer_ok (s_producer s) (s_pushed s);
  si_handlers : s_handlers s ≠ 0%nat → g_running s = false;
  si_exits : s_producer s = SProducerExits ∨ s_consumer s = SConsumerExits → g_running s = false;
}.

Lemma payloads_S n : 0 ≤ n → payloads (n + 1) = payloads n ++ [ideal_payload n].
Proof.
  intros Hn. unfold payloads. replace (Z.to_nat (n + 1)) with (S (Z.to_nat n)) by lia.
  rewrite seq_S, fmap_app. simpl. by rewrite Z2Nat.id by lia.
Qed.

Lemma pop_stopped b : packet_buffer_pop false b = Ret (Some (-1, None, b)).
Proof. unfold packet_buffer_pop. by rewrite andb_false_r. Qed.

Lemma sinv_push b run id d c k pu out now b' :
  sinv (mkSS b run (SPush id d) c k pu out) → s_mutex_free c = true → packet_buffer_push now d b = Ret (0, b') →
  sinv (mkSS b' run (SLoop (id + 1)) (s_signal c) k (pu ++ [d]) out).
Proof.
  intros [(ps & vs & R & Hsub & Has) Hp Hh He] Hc E. simpl in *. destruct Hp as (Hid & -> & ->).
  destruct (push_static_rep now (ideal_payload id) b ps vs R (ideal_payload_fits id now)) as (b1 & ps' & E' & R').
  rewrite E in E'. injection E' as <-. split; simpl.
  - exists ps', (slide 8 vs (ideal_payload id)). split; [done|]. split; [by apply slide_sublist|]. by destruct c.
  - split; [lia|]. symmetry. apply payloads_S. lia.
  - done.
  - intros [?|?]; [done|]. apply He. right. by destruct c.
Qed.

Lemma sinv_pop b run p k pu out pkt b' :
  sinv (mkSS b run p SPop k pu out) → packet_buffer_pop run b = Ret (Some (0, Some pkt, b')) →
  sinv (mkSS b' run p SConsLoop k pu (out ++ [payload pkt])).
Proof.
  intros [(ps & vs & R & Hsub & Has) Hp Hh He] E. simpl in *. destruct run; [|by rewrite pop_stopped in E].
  destruct (pop_static_rep b ps vs R) as [[_ E']|(x & b1 & ps' & E' & Hhd & R')]; rewrite E in E'; [done|].
  injection E' as <- <-. destruct vs as [|v vs]; [done|]. simpl in *. injection Hhd as ->.
  split; simpl; try done; [|intros [?|?]; [apply He; by left|done]].
  exists ps', vs. by rewrite <-app_assoc.
Qed.

Lemma sinv_test b run p k pu out :
  sinv (mkSS b run p SPop k pu out) → packet_buffer_pop run b = Ret None → sinv (mkSS b run p STested k pu out).
Proof.
  intros [(ps & vs & R & Hsub & Has) Hp Hh He] E. simpl in *. destruct run; [|by rewrite pop_stopped in E].
  split; simpl; try done; [|intros [?|?]; [apply He; by left|done]].
  exists ps, vs. split; [done|]. split; [done|]. intros _.
  destruct (pop_static_rep b ps vs R) as [[? _]|(x & b1 & ps' & E' & _)]; [done|]. by rewrite E in E'.
Qed.

Lemma sinv_sstep s s' : sinv s → sstep s s' → sinv s'.
Proof.
  intros I Hs. destruct Hs as
    [b id c k pu out d E|b id c k pu out|b run id d c k pu out now b' Hc E Ho|b p k pu out|b p k pu out
    |b run p k pu out E|b run p k pu out|b run p k pu out pkt b' E|b run p k pu out b' E|b run p c k pu out].
  - destruct I as [Hr Hp Hh He]. simpl in *. destruct Hp as [Hid ->].
    destruct (payload_of_bound id d ltac:(lia) E) as [Hle ->]. clear E.
    split; simpl; [done|split; [lia|by split]|done|intros [?|?]; [done|by apply He; right]].
  - destruct I as [Hr Hp Hh He]. simpl in *. split; simpl; try done. by exists id.
  - by eapply sinv_push.
  - destruct I as [(ps & vs & R & Hsub & _) Hp Hh He]. split; simpl in *; try done; [by exists ps, vs|].
    intros [?|?]; [apply He; by left|done].
  - destruct I as [(ps & vs & R & Hsub & _) Hp Hh He]. split; simpl in *; try done. by exists ps, vs.
  - by apply sinv_test.
  - destruct I as [Hr Hp Hh He]. split; simpl in *; try done. intros [?|?]; [apply He; by left|done].
  - by eapply sinv_pop.
  - destruct I as [(ps & vs & R & Hsub & _) Hp Hh He]. simpl in *. destruct run.
    + destruct (pop_static_rep b ps vs R) as [[_ E']|(x & b1 & ps' & E' & _)]; by rewrite E in E'.
    + rewrite pop_stopped in E. injection E as <-. split; simpl; try done. by exists ps, vs.
  - destruct I as [(ps & vs & R & Hsub & Has) Hp Hh He]. simpl in *. split; simpl; try done.
    + exists ps, vs. split; [done|]. split; [done|]. by destruct c.
    + intros _. by apply Hh.
    + intros [?|?]; apply He; [by left|right]. by destruct c.
Qed.

Lemma sinv_senv s s' : sinv s → senv s s' → sinv s'.
Proof.
  intros [(ps & vs & R & Hsub & Has) Hp Hh He] Hs. destruct Hs; simpl in *; split; simpl; try done.
  - by exists ps, vs.
  - by exists ps, vs.
  - intros [?|?]; [apply He; by left|done].
Qed.

Definition sany (s s' : ssystem) : Prop := sstep s s' ∨ senv s s'.

Lemma static_reachable b s : length (sbuffer b) = 8%nat → rtc sany (s_initial b) s → sinv s.
Proof.
  intros Hl Hr. assert (sinv (s_initial b)) as I.
  { split; simpl; try done; [|by intros [?|?]]. exists [], []. split; [|done]. split; [done| |done]. simpl.
    split; simpl; rewrite ?Hl; try done; try lia; apply ring_rep_nil. }
  revert I. induction Hr as [|s1 s2 s3 [Hs|Hs] _ IH]; [done|..]; intros I; apply IH;
    [by eapply sinv_sstep|by eapply sinv_senv].
Qed.

(** ** Progress, and the end after a signal *)

(** At rest: no thread can move, only a signal or a spurious wake-up. *)
Definition s_at_rest (s : ssystem) : Prop := ∀ s', ¬ sstep s s'.

Lemma LAST_ID_int id : id ≤ LAST_ID → 0 ≤ id → int_ok (id + 1) = true.
Proof. Transparent LAST_ID. intros H1 H2. apply int_ok_spec. unfold LAST_ID, INT_MIN, INT_MAX in *. lia. Opaque LAST_ID. Qed.

Lemma producer_moves b run p c k pu out : sinv (mkSS b run p c k pu out) → s_mutex_free c = true →
  (∃ s', sstep (mkSS b run p c k pu out) s') ∨ p = SProducerExits ∨ (run = true ∧ p = SLoop (LAST_ID + 1)).
Proof.
  intros [(ps & vs & R & _) Hp _ _] Hc. simpl in *. destruct p as [id|id d|]; [| |auto].
  - destruct run; [|left; eexists; apply s_producer_exit]. destruct Hp as [Hid ->].
    destruct (decide (id ≤ LAST_ID)) as [Hle|Hgt].
    + left. eexists. apply s_payload, payload_of_ok. lia.
    + right; right. split; [done|]. f_equal. lia.
  - left. destruct Hp as (Hid & -> & ->).
    destruct (push_static_rep 0 (ideal_payload id) b ps vs R (ideal_payload_fits id 0)) as (b' & ps' & E & _).
    eexists. eapply s_push; [done|exact E|apply LAST_ID_int; lia].
Qed.

Lemma consumer_moves b run p c k pu out : sinv (mkSS b run p c k pu out) →
  (∃ s', sstep (mkSS b run p c k pu out) s') ∨ c = SConsumerExits ∨ c = SWaits.
Proof.
  intros [(ps & vs & R & _) _ _ _]. simpl in *. destruct c; auto; left.
  - destruct run; eexists; [apply s_cons_loop|apply s_consumer_exit].
  - destruct run; [|eexists; apply s_pop_stopped, pop_stopped].
    destruct (pop_static_rep b ps vs R) as [[_ E]|(x & b1 & ps' & E & _)]; eexists; [by apply s_test|by eapply s_pop].
  - eexists. apply s_wait.
Qed.

Lemma static_progress s : sinv s → s_at_rest s →
  s_handlers s = 0%nat ∧ (s_consumer s = SConsumerExits ∨ s_consumer s = SWaits) ∧
  (s_producer s = SProducerExits ∨ (g_running s = true ∧ s_producer s = SLoop (LAST_ID + 1))).
Proof.
  intros I Hrest. destruct s as [b run p c k pu out]. simpl.
  destruct k as [|k]; [|by destruct (Hrest _ (s_handler_signals b run p c k pu out))].
  destruct (consumer_moves _ _ _ _ _ _ _ I) as [[s' Hs]|Hc]; [by destruct (Hrest s')|].
  destruct (producer_moves _ _ _ _ _ _ _ I) as [[s' Hs]|Hp]; [by destruct Hc as [->| ->]|by destruct (Hrest s')|].
  done.
Qed.

(** What the threads still do once the flag is off. *)
Definition s_left (s : ssystem) : nat :=
  match s_producer s with SPush _ _ => 2 | SLoop _ => 1 | SProducerExits => 0 end +
  match s_consumer s with STested => 4 | SWaits => 3 | SPop => 2 | SConsLoop => 1 | SConsumerExits => 0 end +
  s_handlers s.

Lemma sstep_stopped s s' : sstep s s' → g_running s = false → g_running s' = false ∧ (s_left s' < s_left s)%nat.
Proof.
  intros Hs. destruct Hs; simpl; intros Hr; subst; try done; split; try done; unfold s_left; simpl; try lia.
  - destruct c; simpl in *; lia || done.
  - by rewrite pop_stopped in *.
  - by destruct c; simpl; lia.
Qed.

Lemma static_stops n s s' : g_running s = false → nsteps sstep n s s' → (n ≤ s_left s)%nat.
Proof.
  intros Hr Hn. revert Hr. induction Hn as [s|n s1 s2 s3 Hs _ IH]; intros Hr; [lia|].
  destruct (sstep_stopped _ _ Hs Hr) as [Hr' Hlt]. specialize (IH Hr'). lia.
Qed.

(** In every interleaving of the producer, the consumer and the signal
    handler, what the consumer prints is a subsequence of the payloads
    0, 1, 2, ... in order, each computed with the bytes it should have, and a
    consumer sleeps only on an empty ring.  Once SIGINT has cleared the flag the
    threads take a bounded number of steps, and when nobody can move the producer
    has left and the consumer has left or sleeps; without a signal the program
    only comes to rest when the packet number overflows. *)
Theorem static_program_correct b s :
  length (sbuffer b) = 8%nat → rtc sany (s_initial b) s →
  (∃ id vs, 0 ≤ id ≤ LAST_ID + 1 ∧ s_pushed s = payloads id ∧ s_out s ++ vs `sublist_of` payloads id ∧
     (s_consumer s = SWaits → vs = [] ∧ shead (g_buffer s) = stail (g_buffer s))) ∧
  (g_running s = false → ∀ n s', nsteps sstep n s s' → (n ≤ 6 + s_handlers s)%nat) ∧
  (s_at_rest s →
     (s_consumer s = SConsumerExits ∨ s_consumer s = SWaits) ∧
     (s_producer s = SProducerExits ∨ (g_running s = true ∧ s_producer s = SLoop (LAST_ID + 1)))).
Proof.
  intros Hl Hr. pose proof (static_reachable b s Hl Hr) as I. split; [|split].
  - destruct (si_ring _ I) as (ps & vs & R & Hsub & Has).
    assert (∃ id, 0 ≤ id ≤ LAST_ID + 1 ∧ s_pushed s = payloads id) as (id & Hid & Hpu).
    { pose proof (si_producer _ I) as Hp. destruct (s_producer s) as [id|id d|]; simpl in Hp; [by exists id| |done].
      exists id. destruct Hp as (? & _ & ?). split; [lia|done]. }
    exists id, vs. rewrite <-Hpu. split; [done|]. split; [done|]. split; [done|].
    intros Hw. rewrite Hw in Has. specialize (Has eq_refl). split; [done|].
    pose proof (fr_empty _ _ _ _ _ (sb_flag _ _ _ R)) as He. pose proof (sb_data _ _ _ R) as Hd.
    rewrite Has in Hd. apply fmap_nil_inv in Hd. rewrite bool_decide_eq_true_2 in He by done.
    apply andb_true_iff in He as [_ He]. by apply Z.eqb_eq.
  - intros Hrun n s' Hn. pose proof (static_stops n s s' Hrun Hn) as Hle. unfold s_left in Hle.
    destruct (s_producer s), (s_consumer s); lia.
  - intros Hrest. by apply static_progress.
Qed.

(** The buffer of the program: a zero-initialised global. *)
Definition zero_buffer : SBuffer := mkSBuffer (replicate 8 (mkSPacket (replicate 1024 0) 0 0)) 0 0 false.

(** One packet goes through, and the next round of the consumer sleeps. *)
Lemma one_packet : ∃ s, rtc sany (s_initial zero_buffer) s ∧
  s_out s = [ideal_payload 0] ∧ s_pushed s = [ideal_payload 0] ∧ s_consumer s = SWaits ∧
  s_producer s = SLoop 1 ∧ g_running s = true ∧ s_handlers s = 0%nat.
Proof.
  Transparent ideal_payload payload_of. eexists. split.
  { unfold s_initial.
    eapply rtc_l; [left; eapply s_payload; reflexivity|].
    eapply rtc_l; [left; eapply (s_push _ _ _ _ _ _ _ _ 0); reflexivity|].
    eapply rtc_l; [left; apply s_cons_loop|].
    eapply rtc_l; [left; eapply s_pop; reflexivity|].
    eapply rtc_l; [left; apply s_cons_loop|].
    eapply rtc_l; [left; eapply s_test; reflexivity|].
    eapply rtc_l; [left; apply s_wait|]. reflexivity. }
  split_and!; reflexivity. Opaque ideal_payload payload_of.
Qed.

Lemma static_program_correct_witness : ∃ s id vs,
  rtc sany (s_initial zero_buffer) s ∧ s_out s = [ideal_payload 0] ∧
  s_pushed s = payloads id ∧ s_out s ++ vs `sublist_of` payloads id ∧
  (s_consumer s = SWaits → vs = [] ∧ shead (g_buffer s) = stail (g_buffer s)).
Proof.
  destruct one_packet as (s & Hr & Ho & _).
  destruct (static_program_correct zero_buffer s eq_refl Hr) as ((id & vs & _ & Hpu & Hsub & Hw) & _).
  exists s, id, vs. split; [exact Hr|]. split; [exact Ho|]. split; [exact Hpu|]. split; [exact Hsub|exact Hw].
Defined.

(** The handler can run between the consumer's test and its wait: both threads
    are then at rest with the consumer asleep, and [main] never returns. *)
Lemma sigint_between_test_and_wait : ∃ s, rtc sany (s_initial zero_buffer) s ∧
  g_running s = false ∧ s_consumer s = SWaits ∧ s_at_rest s.
Proof.
  eexists. split; [|split; [|split]].
  { unfold s_initial.
    eapply rtc_l; [left; apply s_cons_loop|].
    eapply rtc_l; [left; eapply s_test; reflexivity|].
    eapply rtc_l; [right; apply s_sigint|].
    eapply rtc_l; [left; apply s_handler_signals|].
    eapply rtc_l; [left; apply s_wait|].
    eapply rtc_l; [left; apply s_producer_exit|]. reflexivity. }
  - done.
  - done.
  - intros s' Hs. inversion Hs.
Qed.
