(* ===== verification/QueuePrograms.v ===== *)
(** * The programs around the work queues

    The mains of threadPool/main_w_function.cpp, main_w_functor.cpp,
    main_w_lambda.cpp, blockingQueueThreadPool.cpp, pureStorage/rateLimiter.cpp
    and concurrency/producerConsumer/mutex_cv_refactor.cpp are one program with
    different parts: producers (or [main] itself) push a finite list of items, of
    which an admission test may refuse some; [main] joins them, stops the queue
    and joins the workers.  A [queue_program] holds the functions one program
    calls, [QueueProgram] what the proofs need of them.

    The states of the queue and of the workers are those of WorkQueue, and every
    step of a program is a step or two of [WorkQueue.step], so its invariant
    holds here; what is new is the whole program: it always ends, and at the end
    every admitted item has been processed exactly once. *)

From stdpp Require Import base list numbers relations.
From Stdlib Require Import ZArith Lia.
From S2P Require Import Prelude WorkQueue.

Record queue_program (T L : Type) := mkQP {
  qp_push : T → list T → list T;
  qp_shutdown : bool → bool;                  (* the stop flag after stopping *)
  qp_section : bool → list T → section_end (T := T);
  qp_admit : L → T → Z → bool * L;            (* with the time of the request *)
  qp_stops : bool;                            (* does [main] stop the queue? *)
  qp_notify_inside : bool;                    (* is [notify_one] called under the mutex? *)
}.
Arguments mkQP {T L}.
Arguments qp_push {T L}.
Arguments qp_shutdown {T L}.
Arguments qp_section {T L}.
Arguments qp_admit {T L}.
Arguments qp_stops {T L}.
Arguments qp_notify_inside {T L}.

Class QueueProgram {T L} (P : queue_program T L) := {
  qp_push_law x ts : qp_push P x ts = enqueue x ts;
  qp_shutdown_law b : qp_stops P = true → qp_shutdown P b = true;
  qp_section_law stop ts : qp_stops P = true ∨ stop = false → qp_section P stop ts = workerThread stop ts;
}.

Section program.
Context {T L : Type}.

Inductive producer :=
  | Loop (rest : list T)             (* about to offer the next item *)
  | Pushing (x : T) (rest : list T)  (* the item was admitted *)
  | Notifying (rest : list T).       (* pushed, about to call [notify_one] *)

Inductive main_pc := JoinProducers | NotifyAll | JoinWorkers | Returned.

Record program := mkProg {
  queue : system (T := T);
  limiter : L;
  producers : list producer;
  main : main_pc;
  offered : list (T * Z * bool);     (* the requests, their times and the answers *)
}.

Definition finished (p : producer) : bool := match p with Loop [] => true | _ => false end.
Definition exited (w : worker (T := T)) : bool := is_exited w.

(** The worker sections, with the section of the program. *)
Inductive worker_step (section : bool → list T → section_end) : system → system (T := T) → Prop :=
  | w_waits s i : workers s !! i = Some Testing → section (stop s) (tasks s) = Waits →
      worker_step section s (with_workers s (<[i := Waiting]> (workers s)))
  | w_exits s i : workers s !! i = Some Testing → section (stop s) (tasks s) = Exits →
      worker_step section s (with_workers s (<[i := Exited]> (workers s)))
  | w_takes s i x ts : workers s !! i = Some Testing → section (stop s) (tasks s) = Takes x ts →
      worker_step section s (mkSystem ts (stop s) (<[i := Running x]> (workers s)) (notifies s) (stopping s)
                       (pushed s) (taken s ++ [x]) (at_stop s))
  | w_finish s i x : workers s !! i = Some (Running x) →
      worker_step section s (with_workers s (<[i := Testing]> (workers s))).

Definition push_item (P : queue_program T L) (x : T) (q : system (T := T)) : system (T := T) :=
  mkSystem (qp_push P x (tasks q)) (stop q) (workers q) (S (notifies q)) (stopping q)
    (pushed q ++ [x]) (taken q) (at_stop q).

Definition notified (n : nat) (ws : list worker) (q : system (T := T)) : system (T := T) :=
  mkSystem (tasks q) (stop q) ws n (stopping q) (pushed q) (taken q) (at_stop q).

Definition stop_queue (P : queue_program T L) (q : system (T := T)) : system (T := T) :=
  mkSystem (tasks q) (qp_shutdown P (stop q)) (workers q) (notifies q) true (pushed q) (taken q)
    (Some (default (pushed q) (at_stop q))).

Definition wake_all (q : system (T := T)) : system (T := T) :=
  mkSystem (tasks q) (stop q) (wake <$> workers q) (notifies q) false (pushed q) (taken q) (at_stop q).

Inductive pstep (P : queue_program T L) : program → program → Prop :=
  | p_offer q l ps m off i x rest now l' :
      ps !! i = Some (Loop (x :: rest)) → qp_admit P l x now = (true, l') →
      pstep P (mkProg q l ps m off) (mkProg q l' (<[i := Pushing x rest]> ps) m (off ++ [(x, now, true)]))
  | p_drop q l ps m off i x rest now l' :
      ps !! i = Some (Loop (x :: rest)) → qp_admit P l x now = (false, l') →
      pstep P (mkProg q l ps m off) (mkProg q l' (<[i := Loop rest]> ps) m (off ++ [(x, now, false)]))
  | p_push q l ps m off i x rest :
      ps !! i = Some (Pushing x rest) → qp_notify_inside P = false →
      pstep P (mkProg q l ps m off) (mkProg (push_item P x q) l (<[i := Notifying rest]> ps) m off)
  | p_notify q l ps m off i rest n ws :
      ps !! i = Some (Notifying rest) → notifies q = S n → notify_one (workers q) ws →
      pstep P (mkProg q l ps m off) (mkProg (notified n ws q) l (<[i := Loop rest]> ps) m off)
  | p_push_notify q l ps m off i x rest ws :
      ps !! i = Some (Pushing x rest) → qp_notify_inside P = true → notify_one (workers q) ws →
      pstep P (mkProg q l ps m off)
              (mkProg (notified (notifies q) ws (push_item P x q)) l (<[i := Loop rest]> ps) m off)
  | p_worker q l ps m off q' :
      worker_step (qp_section P) q q' → pstep P (mkProg q l ps m off) (mkProg q' l ps m off)
  | p_stop q l ps off :
      countb finished ps = length ps → qp_stops P = true →
      pstep P (mkProg q l ps JoinProducers off) (mkProg (stop_queue P q) l ps NotifyAll off)
  | p_notify_all q l ps off :
      pstep P (mkProg q l ps NotifyAll off) (mkProg (wake_all q) l ps JoinWorkers off)
  | p_join q l ps off :
      countb finished ps = length ps → qp_stops P = false →
      pstep P (mkProg q l ps JoinProducers off) (mkProg q l ps JoinWorkers off)
  | p_return q l ps off :
      countb exited (workers q) = length (workers q) →
      pstep P (mkProg q l ps JoinWorkers off) (mkProg q l ps Returned off).

Inductive pspurious : program → program → Prop :=
  | p_spurious q l ps m off i : workers q !! i = Some Waiting →
      pspurious (mkProg q l ps m off) (mkProg (with_workers q (<[i := Testing]> (workers q))) l ps m off).

(** [n] workers started, [items] for the producers. *)
Definition launch (n : nat) (l : L) (items : list (list T)) : program :=
  mkProg (mkSystem [] false (replicate n Testing) 0 false [] [] None) l (Loop <$> items) JoinProducers [].

Definition reachable (P : queue_program T L) (s0 s : program) : Prop :=
  rtc (λ s s', pstep P s s' ∨ pspurious s s') s0 s.

(** ** The steps of the queue *)

Section simulation.
Context (P : queue_program T L) `{!QueueProgram P}.

(** No worker sees the stop flag unless the program stops its queue. *)
Definition stop_ok (q : system (T := T)) : Prop := qp_stops P = true ∨ stop q = false.

Lemma worker_step_sim q q' : stop_ok q → worker_step (qp_section P) q q' → step q q'.
Proof.
  intros Hs Hw. destruct Hw as [s i Hi E|s i Hi E|s i x ts Hi E|s i x Hi];
    try (rewrite (qp_section_law _ _ Hs) in E).
  - by apply step_waits.
  - by apply step_exits.
  - by eapply step_takes.
  - by eapply step_finish.
Qed.

Lemma push_item_sim x q : step q (push_item P x q).
Proof. unfold push_item. rewrite qp_push_law. apply step_push. Qed.

Lemma stop_queue_sim q : qp_stops P = true → step q (stop_queue P q).
Proof. intros Hs. unfold stop_queue. rewrite qp_shutdown_law by done. apply step_stop. Qed.

(** ** The invariant *)

Definition notifying (p : producer) : bool := match p with Notifying _ => true | _ => false end.
Definition unoffered (p : producer) : list T :=
  match p with Loop rest | Pushing _ rest | Notifying rest => rest end.
Definition in_hand (p : producer) : list T := match p with Pushing x _ => [x] | _ => [] end.

Definition requests (off : list (T * Z * bool)) : list T := (λ o : T * Z * bool, o.1.1) <$> off.
Definition admitted (off : list (T * Z * bool)) : list T := off ≫= λ o : T * Z * bool, if o.2 then [o.1.1] else [].

(** The flags of the queue while [main] is at [m]. *)
Definition main_ok (m : main_pc) (q : system (T := T)) : Prop :=
  match m with
  | JoinProducers => stop q = false ∧ stopping q = false
  | NotifyAll => qp_stops P = true ∧ stop q = true ∧ stopping q = true ∧ at_stop q = Some (pushed q)
  | JoinWorkers | Returned => stop q = qp_stops P ∧ stopping q = false ∧
                                (qp_stops P = true → at_stop q = Some (pushed q))
  end.

Record prog_inv (n : nat) (items : list (list T)) (s : program) : Prop := {
  gi_queue : inv (queue s);
  gi_notifies : notifies (queue s) = countb notifying (producers s);
  gi_main : main_ok (main s) (queue s);
  gi_joined : main s ≠ JoinProducers → countb finished (producers s) = length (producers s);
  gi_items : requests (offered s) ++ (producers s ≫= unoffered) ≡ₚ concat items;
  gi_admitted : admitted (offered s) ≡ₚ pushed (queue s) ++ (producers s ≫= in_hand);
  gi_workers : length (workers (queue s)) = n;
  gi_returned : main s = Returned → countb exited (workers (queue s)) = n;
}.

Lemma main_ok_stop m q : main_ok m q → stop_ok q.
Proof. unfold stop_ok, main_ok. destruct m; [tauto|tauto|..]; intros (-> & _); by destruct (qp_stops P); auto. Qed.

Lemma launch_inv n l items : prog_inv n items (launch n l items).
Proof.
  split; simpl; try done.
  - apply wq_inv_initial, Forall_replicate. done.
  - induction items as [|it items IH]; [done|]. rewrite fmap_cons. exact IH.
  - induction items as [|it items IH]; [done|]. rewrite fmap_cons, bind_cons. simpl. by rewrite IH.
  - induction items as [|it items IH]; [done|]. rewrite fmap_cons, bind_cons. simpl. by rewrite <-IH.
  - by rewrite length_replicate.
Qed.

Lemma unfinished_joins n items s i p :
  prog_inv n items s → producers s !! i = Some p → finished p = false → main s = JoinProducers.
Proof.
  intros I Hi Hp. pose proof (gi_joined _ _ _ I) as Hj. destruct (main s); [done|..];
    (rewrite (proj1 (countb_all _ _) (Hj ltac:(done)) i p Hi) in Hp; done).
Qed.

(** A producer moves from [p] to [p'], before [main] has joined it. *)
Lemma prog_inv_producer n items q l ps off i p p' q' l' off' :
  prog_inv n items (mkProg q l ps JoinProducers off) → ps !! i = Some p →
  inv q' → stop q' = false → stopping q' = false → length (workers q') = n →
  (notifies q' + Nat.b2n (notifying p) = notifies q + Nat.b2n (notifying p'))%nat →
  requests off' ++ unoffered p' ≡ₚ requests off ++ unoffered p →
  admitted off' ++ pushed q ++ in_hand p ≡ₚ admitted off ++ pushed q' ++ in_hand p' →
  prog_inv n items (mkProg q' l' (<[i := p']> ps) JoinProducers off').
Proof.
  intros [Iq In Im Ij Ii Ia Iw Ir] Hi Hq Hs Hst Hw Hn Hu Ha. simpl in *. split; simpl; try done.
  - pose proof (countb_insert notifying ps i p p' Hi). lia.
  - pose proof (bind_insert unoffered ps i p p' Hi) as Hb. rewrite <-Ii.
    apply (Permutation_app_inv_l (unoffered p)). rewrite Permutation_app_swap_app, Hb.
    rewrite (app_assoc (requests off')), Hu. solve_Permutation.
  - pose proof (bind_insert in_hand ps i p p' Hi) as Hb.
    apply (Permutation_app_inv_r (pushed q ++ in_hand p)). rewrite Ha, Ia.
    transitivity (pushed q ++ pushed q' ++ in_hand p' ++ (ps ≫= in_hand)); [solve_Permutation|].
    rewrite <-Hb. solve_Permutation.
Qed.

Lemma notify_one_length (ws ws' : list (worker (T := T))) : notify_one ws ws' → length ws' = length ws.
Proof. intros [_|j _]; [done|apply length_insert]. Qed.

Lemma requests_app off o : requests (off ++ [o]) = requests off ++ [o.1.1].
Proof. unfold requests. by rewrite fmap_app. Qed.

Lemma admitted_app off x t b : admitted (off ++ [(x, t, b)]) = admitted off ++ (if b : bool then [x] else []).
Proof. unfold admitted. rewrite bind_app. simpl. by rewrite app_nil_r. Qed.

(** A step of the workers changes the queue only. *)
Lemma worker_step_same q q' : worker_step (qp_section P) q q' →
  stop q' = stop q ∧ stopping q' = stopping q ∧ notifies q' = notifies q ∧ pushed q' = pushed q ∧
  at_stop q' = at_stop q ∧ length (workers q') = length (workers q).
Proof. intros Hw. destruct Hw; simpl; rewrite length_insert; done. Qed.

Lemma worker_step_exited q q' : worker_step (qp_section P) q q' →
  countb exited (workers q) ≠ length (workers q).
Proof.
  intros Hw Hall. rewrite countb_all in Hall.
  destruct Hw as [s i Hi E|s i Hi E|s i x ts Hi E|s i x Hi]; by specialize (Hall _ _ Hi).
Qed.

Lemma prog_inv_worker n items q l ps m off q' :
  prog_inv n items (mkProg q l ps m off) → worker_step (qp_section P) q q' →
  prog_inv n items (mkProg q' l ps m off).
Proof.
  intros [Iq In Im Ij Ii Ia Iw Ir] Hw. simpl in *.
  destruct (worker_step_same _ _ Hw) as (E1 & E2 & E3 & E4 & E5 & E6).
  split; simpl; rewrite ?E3, ?E4, ?E6; try done.
  - eapply wq_inv_step; [exact Iq|]. apply worker_step_sim; [by eapply main_ok_stop|done].
  - unfold main_ok in *. by rewrite E1, E2, E4, E5.
  - intros Hm. destruct (worker_step_exited _ _ Hw). rewrite Iw. by apply Ir.
Qed.

Lemma prog_inv_push n items q l ps m off i x rest :
  prog_inv n items (mkProg q l ps m off) → ps !! i = Some (Pushing x rest) →
  m = JoinProducers ∧ prog_inv n items (mkProg (push_item P x q) l (<[i := Notifying rest]> ps) m off).
Proof.
  intros I Hi. assert (m = JoinProducers) as ->.
  { exact (unfinished_joins _ _ _ _ _ I Hi eq_refl). }
  split; [done|]. destruct (gi_main _ _ _ I) as [Hs Hst]. simpl in *.
  apply (prog_inv_producer n items q l ps off i (Pushing x rest)); simpl; try done; try apply I.
  - eapply wq_inv_step; [apply I|apply push_item_sim].
  - rewrite app_nil_r, !app_assoc. done.
Qed.

Lemma prog_inv_notify n items q l ps m off i rest k ws :
  prog_inv n items (mkProg q l ps m off) → ps !! i = Some (Notifying rest) → notifies q = S k →
  notify_one (workers q) ws →
  prog_inv n items (mkProg (notified k ws q) l (<[i := Loop rest]> ps) m off).
Proof.
  intros I Hi Hk Hws. assert (m = JoinProducers) as ->.
  { exact (unfinished_joins _ _ _ _ _ I Hi eq_refl). }
  destruct (gi_main _ _ _ I) as [Hs Hst]. simpl in *.
  apply (prog_inv_producer n items q l ps off i (Notifying rest)); simpl; try done; [| |lia].
  - eapply wq_inv_step; [apply I|by apply step_notify].
  - rewrite (notify_one_length _ _ Hws). apply I.
Qed.

Lemma prog_inv_offer n items q l ps m off i x rest now l' b :
  prog_inv n items (mkProg q l ps m off) → ps !! i = Some (Loop (x :: rest)) →
  prog_inv n items (mkProg q l' (<[i := if b : bool then Pushing x rest else Loop rest]> ps) m (off ++ [(x, now, b)])).
Proof.
  intros I Hi. assert (m = JoinProducers) as -> by exact (unfinished_joins _ _ _ _ _ I Hi eq_refl).
  destruct (gi_main _ _ _ I) as [Hs Hst]. simpl in *.
  apply (prog_inv_producer n items q l ps off i (Loop (x :: rest))); try done; try apply I.
  - by destruct b.
  - rewrite requests_app, <-app_assoc. by destruct b.
  - rewrite admitted_app. destruct b; simpl; solve_Permutation.
Qed.

Lemma prog_inv_pstep n items s s' : prog_inv n items s → pstep P s s' → prog_inv n items s'.
Proof.
  intros I Hs. destruct Hs as
    [q l ps m off i x rest now l' Hi E|q l ps m off i x rest now l' Hi E|q l ps m off i x rest Hi E
    |q l ps m off i rest k ws Hi Hk Hws|q l ps m off i x rest ws Hi E Hws|q l ps m off q' Hw
    |q l ps off Hf Hst|q l ps off|q l ps off Hf Hst|q l ps off Hf].
  - exact (prog_inv_offer n items q l ps m off i x rest now l' true I Hi).
  - exact (prog_inv_offer n items q l ps m off i x rest now l' false I Hi).
  - by apply prog_inv_push.
  - by eapply prog_inv_notify.
  - destruct (prog_inv_push _ _ _ _ _ _ _ _ _ _ I Hi) as [-> I'].
    rewrite <-(list_insert_insert_eq ps i (Loop rest) (Notifying rest)).
    apply (prog_inv_notify n items _ l _ JoinProducers off i rest); [done| |done|done].
    apply list_lookup_insert_eq. by eapply lookup_lt_Some.
  - by eapply prog_inv_worker.
  - destruct I as [Iq In Im Ij Ii Ia Iw Ir]. simpl in *. destruct Im as [Hs Hsp].
    split; simpl; try done.
    + eapply wq_inv_step; [exact Iq|apply stop_queue_sim; done].
    + rewrite qp_shutdown_law by done. split_and!; try done.
      destruct (at_stop q) eqn:Ea; [|done]. pose proof (inv_stopped _ Iq) as Hx. rewrite Ea, Hs in Hx.
      destruct Hx as [_ Hx]. by discriminate Hx.
  - destruct I as [Iq In Im Ij Ii Ia Iw Ir]. simpl in *. destruct Im as (H1 & H2 & H3 & H4).
    split; simpl; try done.
    + eapply wq_inv_step; [exact Iq|by apply step_notify_all].
    + split_and!; congruence.
    + intros _. by apply Ij.
    + rewrite <-Iw. apply length_fmap.
  - destruct I as [Iq In Im Ij Ii Ia Iw Ir]. simpl in *. destruct Im as [H1 H2].
    split; simpl; try done; [split_and!; congruence].
  - destruct I as [Iq In Im Ij Ii Ia Iw Ir]. simpl in *. split; simpl; try done.
    + intros _. by apply Ij.
    + intros _. by rewrite Hf.
Qed.

Lemma prog_inv_spurious n items s s' : prog_inv n items s → pspurious s s' → prog_inv n items s'.
Proof.
  intros [Iq In Im Ij Ii Ia Iw Ir] Hs. destruct Hs as [q l ps m off i Hi]. simpl in *.
  split; simpl; try done.
  - eapply wq_inv_step; [exact Iq|by apply step_spurious].
  - by rewrite length_insert.
  - intros Hm. rewrite <-Iw in Ir. specialize (Ir Hm). rewrite countb_all in Ir. by specialize (Ir _ _ Hi).
Qed.

Lemma program_inv n l items s : reachable P (launch n l items) s → prog_inv n items s.
Proof.
  intros Hr. pose proof (launch_inv n l items) as I. revert I.
  induction Hr as [|s1 s2 s3 [Hs|Hs] _ IH]; [done|..]; intros I; apply IH;
    [by eapply prog_inv_pstep|by eapply prog_inv_spurious].
Qed.

(** ** Progress *)

Definition at_rest (s : program) : Prop := ∀ s', ¬ pstep P s s'.

Lemma notify_exists (ws : list (worker (T := T))) : ∃ ws', notify_one ws ws'.
Proof.
  destruct (decide (countb is_waiting ws = 0%nat)) as [E|E]; [eexists; by apply notify_none|].
  enough (∃ i, ws !! i = Some Waiting) as [i Hi] by (eexists; by eapply notify_some).
  induction ws as [|w ws IH]; simpl in E; [done|]. destruct w; simpl in E; try (by exists 0%nat);
    destruct (IH E) as [i Hi]; by exists (S i).
Qed.

Lemma rest_producers n items s : prog_inv n items s → at_rest s →
  countb finished (producers s) = length (producers s).
Proof.
  intros I Hr. apply countb_all. intros i p Hi. destruct (finished p) eqn:Hp; [done|exfalso].
  destruct s as [q l ps m off]. simpl in *. destruct p as [[|x rest]|x rest|rest]; [done|..].
  - destruct (qp_admit P l x 0) as [[] l'] eqn:E; [by apply (Hr _ (p_offer _ _ _ _ _ _ _ _ _ _ _ Hi E))|].
    by apply (Hr _ (p_drop _ _ _ _ _ _ _ _ _ _ _ Hi E)).
  - destruct (qp_notify_inside P) eqn:E; [|by apply (Hr _ (p_push _ _ _ _ _ _ _ _ _ Hi E))].
    destruct (notify_exists (workers q)) as [ws Hws]. by apply (Hr _ (p_push_notify _ _ _ _ _ _ _ _ _ _ Hi E Hws)).
  - pose proof (gi_notifies _ _ _ I) as Hn. simpl in Hn. pose proof (countb_pos notifying ps i _ Hi eq_refl).
    destruct (notifies q) as [|k] eqn:Ek; [lia|]. destruct (notify_exists (workers q)) as [ws Hws].
    by apply (Hr _ (p_notify _ _ _ _ _ _ _ _ _ _ Hi Ek Hws)).
Qed.

Lemma rest_main n items s : prog_inv n items s → at_rest s → main s = JoinWorkers ∨ main s = Returned.
Proof.
  intros I Hr. pose proof (rest_producers _ _ _ I Hr) as Hf. destruct s as [q l ps m off]. simpl in *.
  destruct m; auto; exfalso.
  - destruct (qp_stops P) eqn:E; [by apply (Hr _ (p_stop _ _ _ _ _ Hf E))|by apply (Hr _ (p_join _ _ _ _ _ Hf E))].
  - by apply (Hr _ (p_notify_all _ _ _ _ _)).
Qed.

Lemma rest_workers n items s i w : prog_inv n items s → at_rest s → workers (queue s) !! i = Some w →
  w = Waiting ∨ w = Exited.
Proof.
  intros I Hr Hi. pose proof (main_ok_stop _ _ (gi_main _ _ _ I)) as Hs. destruct s as [q l ps m off]. simpl in *.
  assert (∀ q', ¬ worker_step (qp_section P) q q') as Hw by (intros q' H; by apply (Hr _ (p_worker _ _ _ _ _ _ _ H))).
  destruct w as [| |x|]; auto; exfalso.
  - destruct (workerThread (stop q) (tasks q)) as [| |x ts|] eqn:E; rewrite <-(qp_section_law _ _ Hs) in E.
    + by apply (Hw _ (w_waits _ _ _ Hi E)).
    + by apply (Hw _ (w_exits _ _ _ Hi E)).
    + by apply (Hw _ (w_takes _ _ _ _ _ Hi E)).
    + rewrite (qp_section_law _ _ Hs) in E. by eapply workerThread_no_fault.
  - by apply (Hw _ (w_finish _ _ _ _ Hi)).
Qed.

(** Nobody waits in a stopped queue, and nobody has left one that is not. *)
Lemma rest_all n items s i w : prog_inv n items s → at_rest s → workers (queue s) !! i = Some w →
  w = if qp_stops P then Exited else Waiting.
Proof.
  intros I Hr Hi. pose proof (gi_queue _ _ _ I) as Q. pose proof (gi_main _ _ _ I) as Hm.
  assert (stop (queue s) = qp_stops P ∧ stopping (queue s) = false) as [Hs Hst].
  { destruct (rest_main _ _ _ I Hr) as [E|E]; rewrite E in Hm; by destruct Hm as (? & ? & _). }
  destruct (rest_workers _ _ _ _ _ I Hr Hi) as [-> | ->]; destruct (qp_stops P); try done; exfalso.
  - pose proof (countb_pos is_waiting _ _ _ Hi eq_refl).
    destruct (inv_stop _ Q Hs) as [?|?]; [lia|congruence].
  - destruct (inv_exited _ Q (countb_pos is_exited _ _ _ Hi eq_refl)) as (l & Hl & _).
    pose proof (proj2 (inv_stopped _ Q) (mk_is_Some _ _ Hl)). congruence.
Qed.

Lemma rest_tasks n items s : (0 < n)%nat → prog_inv n items s → at_rest s → tasks (queue s) = [].
Proof.
  intros Hn I Hr. pose proof (gi_queue _ _ _ I) as Q. pose proof (gi_main _ _ _ I) as Hm.
  destruct (lookup_lt_is_Some_2 (workers (queue s)) 0) as [w Hw]; [rewrite (gi_workers _ _ _ I); lia|].
  pose proof (rest_all _ _ _ _ _ I Hr Hw) as Ew. destruct (qp_stops P) eqn:Es; subst w.
  - destruct (inv_exited _ Q (countb_pos is_exited _ _ _ Hw eq_refl)) as (l & Hl & Hpre).
    assert (at_stop (queue s) = Some (pushed (queue s))) as Ha.
    { destruct (rest_main _ _ _ I Hr) as [E|E]; rewrite E in Hm; destruct Hm as (_ & _ & Hm); by apply Hm. }
    rewrite Ha in Hl. injection Hl as <-. rewrite (inv_fifo _ Q) in Hpre. apply prefix_length in Hpre.
    rewrite length_app in Hpre. destruct (tasks (queue s)); [done|]. simpl in Hpre. lia.
  - pose proof (countb_pos is_waiting _ _ _ Hw eq_refl). destruct (inv_wake _ Q) as [?|Hl]; [lia|].
    assert (countb is_testing (workers (queue s)) = 0%nat) as Ht.
    { apply countb_zero. intros j w Hj. rewrite (rest_all _ _ _ _ _ I Hr Hj). by rewrite Es. }
    rewrite Ht, (gi_notifies _ _ _ I) in Hl. assert (countb notifying (producers s) = 0%nat) as Hz.
    { apply countb_zero. intros j p Hj. pose proof (rest_producers _ _ _ I Hr) as Hf.
      rewrite countb_all in Hf. specialize (Hf j p Hj). by destruct p. }
    rewrite Hz in Hl. destruct (tasks (queue s)); [done|]. simpl in Hl. lia.
Qed.

(** ** Termination

    Every item is offered, pushed, notified, taken and finished once; a
    notification lets one worker test its condition again, [notify_all] each. *)

Definition producer_left (p : producer) : nat :=
  match p with
  | Loop rest => 6 * length rest
  | Pushing _ rest => 6 * length rest + 5
  | Notifying rest => 6 * length rest + 2
  end.

Definition worker_left (w : worker (T := T)) : nat :=
  match w with Testing => 2 | Waiting => 1 | Running _ => 3 | Exited => 0 end.

Definition main_left (m : main_pc) (n : nat) : nat :=
  match m with JoinProducers => n + 3 | NotifyAll => n + 2 | JoinWorkers => 1 | Returned => 0 end.

Definition steps_left (s : program) : nat :=
  total producer_left (producers s) + 2 * length (tasks (queue s)) +
  total worker_left (workers (queue s)) + main_left (main s) (length (workers (queue s))).

Lemma notify_one_left ws ws' : notify_one ws ws' →
  (total worker_left ws' ≤ total worker_left ws + 1)%nat ∧ length ws' = length ws.
Proof.
  intros [_|i Hi]; [lia|]. pose proof (total_insert worker_left ws i _ Testing Hi). simpl in *.
  rewrite length_insert. lia.
Qed.

Lemma wake_all_left ws : (total worker_left (wake <$> ws) ≤ total worker_left ws + length ws)%nat.
Proof. induction ws as [|w ws IH]; [done|]. rewrite fmap_cons. simpl. destruct w; simpl; lia. Qed.

Lemma worker_step_left q q' : stop_ok q → worker_step (qp_section P) q q' →
  (2 * length (tasks q') + total worker_left (workers q') <
   2 * length (tasks q) + total worker_left (workers q))%nat.
Proof.
  intros Hs Hw. destruct Hw as [s i Hi E|s i Hi E|s i x ts Hi E|s i x Hi]; simpl.
  - pose proof (total_insert worker_left _ _ _ Waiting Hi). simpl in *. lia.
  - pose proof (total_insert worker_left _ _ _ Exited Hi). simpl in *. lia.
  - pose proof (total_insert worker_left _ _ _ (Running x) Hi). simpl in *.
    rewrite (qp_section_law _ _ Hs) in E. unfold workerThread in E.
    destruct (stop s), (tasks s) as [|y tl]; try done; injection E as -> ->; simpl; lia.
  - pose proof (total_insert worker_left _ _ _ Testing Hi). simpl in *. lia.
Qed.

Lemma pstep_decreases s s' : stop_ok (queue s) → pstep P s s' → (steps_left s' < steps_left s)%nat.
Proof.
  intros Hok Hs. unfold steps_left. destruct Hs as
    [q l ps m off i x rest now l' Hi E|q l ps m off i x rest now l' Hi E|q l ps m off i x rest Hi E
    |q l ps m off i rest k ws Hi Hk Hws|q l ps m off i x rest ws Hi E Hws|q l ps m off q' Hw
    |q l ps off Hf Hst|q l ps off|q l ps off Hf Hst|q l ps off Hf]; simpl in *.
  - pose proof (total_insert producer_left _ _ _ (Pushing x rest) Hi). simpl in *. lia.
  - pose proof (total_insert producer_left _ _ _ (Loop rest) Hi). simpl in *. lia.
  - pose proof (total_insert producer_left _ _ _ (Notifying rest) Hi). simpl in *.
    rewrite qp_push_law. unfold enqueue. rewrite length_app. simpl. lia.
  - pose proof (total_insert producer_left _ _ _ (Loop rest) Hi). simpl in *.
    destruct (notify_one_left _ _ Hws) as [? ->]. lia.
  - pose proof (total_insert producer_left _ _ _ (Loop rest) Hi). simpl in *.
    destruct (notify_one_left _ _ Hws) as [? ->]. rewrite qp_push_law. unfold enqueue. rewrite length_app. simpl. lia.
  - pose proof (worker_step_left _ _ Hok Hw). destruct (worker_step_same _ _ Hw) as (_ & _ & _ & _ & _ & ->). lia.
  - lia.
  - pose proof (wake_all_left (workers q)). pose proof (length_fmap wake (workers q)) as E. simpl in E. lia.
  - lia.
  - lia.
Qed.

Lemma program_steps n items k s s' : prog_inv n items s → nsteps (pstep P) k s s' → (k ≤ steps_left s)%nat.
Proof.
  intros I Hn. revert I. induction Hn as [s|k s1 s2 s3 Hs _ IH]; intros I; [lia|].
  pose proof (pstep_decreases _ _ (main_ok_stop _ _ (gi_main _ _ _ I)) Hs).
  specialize (IH (prog_inv_pstep _ _ _ _ I Hs)). lia.
Qed.

Lemma launch_left n l items : steps_left (launch n l items) = (6 * length (concat items) + 3 * n + 3)%nat.
Proof.
  unfold steps_left. simpl. rewrite (total_const worker_left (replicate n Testing) 2), length_replicate.
  2: { intros x [-> _]%elem_of_replicate. done. }
  assert (total producer_left (Loop <$> items) = (6 * length (concat items))%nat) as ->; [|lia].
  induction items as [|it items IH]; [done|]. rewrite fmap_cons. simpl. rewrite IH, length_app. lia.
Qed.
End simulation.

(** The whole program, at rest. *)
Lemma whole_program (P : queue_program T L) `{!QueueProgram P} n l items s :
  (0 < n)%nat → reachable P (launch n l items) s → at_rest P s →
  requests (offered s) ≡ₚ concat items ∧ admitted (offered s) ≡ₚ taken (queue s) ∧
  tasks (queue s) = [] ∧
  main s = (if qp_stops P then Returned else JoinWorkers) ∧
  Forall (λ w, w = if qp_stops P then Exited else Waiting) (workers (queue s)).
Proof.
  intros Hn Hr Hrest. pose proof (program_inv P n l items s Hr) as I.
  assert (producers s ≫= unoffered = [] ∧ producers s ≫= in_hand = []) as [Hu Hh].
  { pose proof (rest_producers P _ _ _ I Hrest) as Hf. rewrite countb_all in Hf. revert Hf. clear.
    induction (producers s) as [|p ps IH]; [done|]. intros Hf. rewrite !bind_cons.
    destruct IH as [-> ->]; [intros i; apply (Hf (S i))|]. specialize (Hf 0%nat p eq_refl).
    by destruct p as [[]| |]. }
  pose proof (rest_tasks P _ _ _ Hn I Hrest) as Ht.
  pose proof (gi_items _ _ _ _ I) as Hi. pose proof (gi_admitted _ _ _ _ I) as Ha.
  pose proof (inv_fifo _ (gi_queue _ _ _ _ I)) as Hq. rewrite Hu, app_nil_r in Hi. rewrite Hh, Hq, Ht, !app_nil_r in Ha.
  assert (Forall (λ w, w = if qp_stops P then Exited else Waiting) (workers (queue s))) as Hw.
  { apply Forall_lookup. intros i w Hi'. by apply (rest_all P _ _ _ _ _ I Hrest Hi'). }
  split_and!; try done. pose proof (gi_workers _ _ _ _ I) as Hlen.
  destruct (workers (queue s)) as [|w ws] eqn:Ew; [simpl in Hlen; lia|].
  pose proof (gi_returned _ _ _ _ I) as Hret.
  destruct (rest_main P _ _ _ I Hrest) as [Em|Em], (qp_stops P) eqn:Es; try done; exfalso.
  - destruct s as [q l' ps m off]. simpl in *. subst m. eapply (Hrest _), p_return. apply countb_all.
    rewrite Forall_lookup, <-Ew in Hw. intros i w' Hi'. by rewrite (Hw _ _ Hi').
  - specialize (Hret Em). rewrite <-Hlen, Ew in Hret. rewrite countb_all in Hret.
    apply Forall_cons in Hw as [-> _]. by specialize (Hret 0%nat _ eq_refl).
Qed.

(** C5: every program of this shape with at least one worker is correct as a
    whole: in every interleaving, the threads take at most
    6 * items + 3 * workers + 3 steps until nothing but a spurious wake-up is
    possible; then every item has been offered, the items taken by the workers
    are exactly the admitted ones, each once, and the queue is empty.  A
    program that stops its queue has returned from [main] with all workers gone;
    one that does not waits for ever for workers that all sleep. *)
Theorem queue_program_correct (P : queue_program T L) `{!QueueProgram P} n l items :
  (0 < n)%nat →
  (∀ k s, nsteps (pstep P) k (launch n l items) s → (k ≤ 6 * length (concat items) + 3 * n + 3)%nat) ∧
  (∀ s, reachable P (launch n l items) s → at_rest P s →
     requests (offered s) ≡ₚ concat items ∧ admitted (offered s) ≡ₚ taken (queue s) ∧
     tasks (queue s) = [] ∧
     main s = (if qp_stops P then Returned else JoinWorkers) ∧
     Forall (λ w, w = if qp_stops P then Exited else Waiting) (workers (queue s))).
Proof.
  intros Hn. split.
  - intros k s Hk. rewrite <-(launch_left n l items).
    exact (program_steps P _ _ _ _ _ (launch_inv P n l items) Hk).
  - intros s. by apply whole_program.
Qed.
End program.

Arguments Loop {T}.
Arguments launch {T L}.

(** ** The programs *)

(** threadPool/main_w_function.cpp; the destructor of the pool is what stops it. *)
Definition function_shutdown (stop : bool) : bool := true.
Definition function_program : queue_program Z unit :=
  mkQP enqueue function_shutdown workerThread (λ l _ _, (true, l)) true false.
Definition function_main : program (T := Z) (L := unit) :=
  mkProg (new_ThreadPool 2) tt [Loop (Z.of_nat <$> seq 0 4)] JoinProducers [].

(** threadPool/main_w_functor.cpp *)
Definition functor_enqueue (task : Z) (tasks : list Z) : list Z := tasks ++ [task].
Definition functor_shutdown (stop : bool) : bool := true.
Definition functor_new_ThreadPool (numThreads : nat) : system (T := Z) :=
  mkSystem [] false (replicate (if (numThreads =? 0)%nat then 1 else numThreads) Testing) 0 false [] [] None.
Definition functor_program : queue_program Z unit :=
  mkQP functor_enqueue functor_shutdown functor_workerThread (λ l _ _, (true, l)) true false.
Definition functor_main : program (T := Z) (L := unit) :=
  mkProg (functor_new_ThreadPool 2) tt [Loop (Z.of_nat <$> seq 0 4)] JoinProducers [].

(** threadPool/main_w_lambda.cpp *)
Definition lambda_enqueue (task : Z) (tasks : list Z) : list Z := tasks ++ [task].
Definition lambda_shutdown (stop : bool) : bool := true.
Definition lambda_program : queue_program Z unit :=
  mkQP lambda_enqueue lambda_shutdown lambda_worker (λ l _ _, (true, l)) true false.
Definition lambda_main : program (T := Z) (L := unit) :=
  mkProg (new_ThreadPool_lambda 2) tt [Loop (Z.of_nat <$> seq 0 4)] JoinProducers [].

(** threadPool/blockingQueueThreadPool.cpp; [consumer_work] is the worker's loop
    around [pop]. *)
Definition bq_push (value : Z) (internal_queue : list Z) : list Z := internal_queue ++ [value].
Definition bq_shutdown (done : bool) : bool := true.
Definition bq_program : queue_program Z unit :=
  mkQP bq_push bq_shutdown WorkQueue.pop (λ l _ _, (true, l)) true false.
Definition bq_main : program (T := Z) (L := unit) := launch 3 tt [Z.of_nat <$> seq 0 10].

(** concurrency/producerConsumer/mutex_cv_refactor.cpp: no stop, and [notify_one]
    under the mutex. *)
Definition tsq_push (val : Z) (q : list Z) : list Z := q ++ [val].
Definition tsq_program : queue_program Z unit :=
  mkQP tsq_push id (λ _, tsq_pop) (λ l _ _, (true, l)) false true.
Definition TSQ_ITEMS : nat := Z.to_nat 1000000.
Definition tsq_items : list Z := Z.of_nat <$> seq 0 TSQ_ITEMS.
Definition tsq_main : program (T := Z) (L := unit) := launch 2 tt [tsq_items; tsq_items].
#[global] Opaque TSQ_ITEMS tsq_items.

#[export] Instance function_QueueProgram : QueueProgram function_program.
Proof. by split. Qed.
#[export] Instance functor_QueueProgram : QueueProgram functor_program.
Proof. by split. Qed.
#[export] Instance lambda_QueueProgram : QueueProgram lambda_program.
Proof. split; try done. intros stop ts _. apply worker_sections_agree. Qed.
#[export] Instance bq_QueueProgram : QueueProgram bq_program.
Proof. split; try done. intros stop ts _. apply worker_sections_agree. Qed.
#[export] Instance tsq_QueueProgram : QueueProgram tsq_program.
Proof. split; try done. intros stop ts [?| ->]; [done|]. by apply worker_sections_agree. Qed.

(** The four pools do the same work. *)
Lemma pool_mains : function_main = launch 2 tt [[0; 1; 2; 3]] ∧ functor_main = launch 2 tt [[0; 1; 2; 3]] ∧
  lambda_main = launch 2 tt [[0; 1; 2; 3]] ∧ bq_main = launch 3 tt [[0; 1; 2; 3; 4; 5; 6; 7; 8; 9]].
Proof. done. Qed.

(** When everybody is admitted, the requests are the admissions. *)
Lemma admit_all {T L} (P : queue_program T L) s0 s : (∀ l x t, (qp_admit P l x t).1 = true) →
  admitted (offered s0) = requests (offered s0) → reachable P s0 s → admitted (offered s) = requests (offered s).
Proof.
  intros Hadm H0 Hr. revert H0. induction Hr as [|s1 s2 s3 [Hs|Hs] _ IH]; [done|..]; intros H0; apply IH; [|by destruct Hs].
  destruct Hs as [q l ps m off i x rest now l' Hi E|q l ps m off i x rest now l' Hi E| | | | | | | | ]; simpl in *; try done.
  - by rewrite admitted_app, requests_app, H0.
  - specialize (Hadm l x now). by rewrite E in Hadm.
Qed.

(** With one producer that is always admitted, the items are pushed in their
    order. *)
Lemma single_producer_order {T L} (P : queue_program T L) n l it s : (∀ l x t, (qp_admit P l x t).1 = true) →
  reachable P (launch n l [it]) s →
  ∃ p, producers s = [p] ∧ it = pushed (queue s) ++ in_hand p ++ unoffered p.
Proof.
  intros Hadm Hr. assert (∃ p, producers (launch n l [it]) = [p] ∧
    it = pushed (queue (launch n l [it])) ++ in_hand p ++ unoffered p) as H0 by (by eexists).
  revert H0. induction Hr as [|s1 s2 s3 [Hs|Hs] _ IH]; [done|..]; intros (p & Hp & Hit); apply IH; clear IH.
  2: { destruct Hs. simpl in *. eauto. }
  destruct Hs as
    [q l1 ps m off i x rest now l' Hi E|q l1 ps m off i x rest now l' Hi E|q l1 ps m off i x rest Hi E
    |q l1 ps m off i rest k ws Hi Hk Hws|q l1 ps m off i x rest ws Hi E Hws|q l1 ps m off q' Hw
    |q l1 ps off Hf Hst|q l1 ps off|q l1 ps off Hf Hst|q l1 ps off Hf]; simpl in *; try (by exists p); subst ps;
    try (destruct i as [|i]; simpl in Hi; [|done]; injection Hi as ->).
  - by eexists.
  - specialize (Hadm l1 x now). by rewrite E in Hadm.
  - eexists. split; [done|]. simpl in *. by rewrite Hit, <-app_assoc.
  - by eexists.
  - eexists. split; [done|]. simpl in *. by rewrite Hit, <-app_assoc.
  - exists p. by destruct Hw.
Qed.

(** A program with one producer, at rest: the workers have taken its items in
    their order. *)
Lemma single_producer_rest {T L} (P : queue_program T L) `{!QueueProgram P} n l it s : (0 < n)%nat →
  (∀ l x t, (qp_admit P l x t).1 = true) → reachable P (launch n l [it]) s → at_rest P s →
  main s = (if qp_stops P then Returned else JoinWorkers) ∧ taken (queue s) = it.
Proof.
  intros Hn Hadm Hr Hrest. pose proof (program_inv P n l [it] s Hr) as I.
  destruct (whole_program P n l [it] s Hn Hr Hrest) as (_ & _ & Ht & Hm & _). split; [done|].
  destruct (single_producer_order P n l it s Hadm Hr) as (p & Hp & ->).
  pose proof (rest_producers P _ _ _ I Hrest) as Hf. rewrite Hp, countb_all in Hf. specialize (Hf 0%nat p eq_refl).
  destruct p as [[]| |]; try done. simpl. rewrite app_nil_r, (inv_fifo _ (gi_queue _ _ _ _ I)), Ht. by rewrite app_nil_r.
Qed.

(** The thread pools and the blocking queue take every job once and in order, and
    return; the queue without a stop processes two million numbers and never
    returns. *)
Theorem pool_programs_complete :
  (∀ s, reachable function_program function_main s → at_rest function_program s →
     main s = Returned ∧ taken (queue s) = [0; 1; 2; 3]) ∧
  (∀ s, reachable functor_program functor_main s → at_rest functor_program s →
     main s = Returned ∧ taken (queue s) = [0; 1; 2; 3]) ∧
  (∀ s, reachable lambda_program lambda_main s → at_rest lambda_program s →
     main s = Returned ∧ taken (queue s) = [0; 1; 2; 3]) ∧
  (∀ s, reachable bq_program bq_main s → at_rest bq_program s →
     main s = Returned ∧ taken (queue s) = [0; 1; 2; 3; 4; 5; 6; 7; 8; 9]) ∧
  (∀ s, reachable tsq_program tsq_main s → at_rest tsq_program s →
     main s = JoinWorkers ∧ taken (queue s) ≡ₚ tsq_items ++ tsq_items).
Proof.
  destruct pool_mains as (-> & -> & -> & ->). split_and!; intros s Hr Hrest.
  - exact (single_producer_rest function_program 2 tt _ s ltac:(lia) ltac:(done) Hr Hrest).
  - exact (single_producer_rest functor_program 2 tt _ s ltac:(lia) ltac:(done) Hr Hrest).
  - exact (single_producer_rest lambda_program 2 tt _ s ltac:(lia) ltac:(done) Hr Hrest).
  - exact (single_producer_rest bq_program 3 tt _ s ltac:(lia) ltac:(done) Hr Hrest).
  - destruct (whole_program tsq_program 2 tt [tsq_items; tsq_items] s ltac:(lia) Hr Hrest) as (H1 & H2 & _ & Hm & _).
    split; [done|]. rewrite <-H2, (admit_all tsq_program tsq_main s ltac:(done) eq_refl Hr), H1.
    cbn [concat]. rewrite app_nil_r. reflexivity.
Qed.

(** Four jobs and two workers: 33 steps. *)
Lemma queue_program_correct_witness : (0 < 2)%nat ∧
  ∀ k s, nsteps (pstep function_program) k (launch 2 tt [[0; 1; 2; 3]]) s → (k ≤ 33)%nat.
Proof.
  split; [apply Nat.lt_0_succ|].
  exact (proj1 (queue_program_correct function_program 2 tt [[0; 1; 2; 3]] (Nat.lt_0_succ 1))).
Defined.

(** ** What the workers do with the items

    Above, an item that a worker has taken is work in progress: the step that ends
    it has no effect.  Here a program runs together with a state [W] of the world
    (a file, a terminal), and a worker that finishes an item has run [work] on it:
    a call that faults ([Err]) is a fault of the program, not a step.  With one
    worker the effects are those of the items in the order in which the worker
    took them. *)

Section effects.
Context {T L W : Type} (P : queue_program T L) (work : T → W → outcome W).

(** The program and the state of the world. *)
Definition world : Type := program (T := T) (L := L) * W.

(** A worker finishes its item, with the effect of the work; or another step. *)
Inductive estep : world → world → Prop :=
  | e_work s s' i x w w' :
      pstep P s s' → workers (queue s) !! i = Some (Running x) → workers (queue s') !! i = Some Testing →
      work x w = Ret w' → estep (s, w) (s', w')
  | e_other s s' w :
      pstep P s s' →
      (∀ i x, workers (queue s) !! i = Some (Running x) → workers (queue s') !! i = Some (Running x)) →
      estep (s, w) (s', w).

Inductive espurious : world → world → Prop :=
  | e_spurious s s' w : pspurious s s' → espurious (s, w) (s', w).

(** A worker is about to run work that faults. *)
Inductive efaults : world → fault → Prop :=
  | e_faults s w i x f : workers (queue s) !! i = Some (Running x) → work x w = Err f → efaults (s, w) f.

Definition ereachable (c0 c : world) : Prop := rtc (λ c c', estep c c' ∨ espurious c c') c0 c.
Definition e_at_rest (c : world) : Prop := ∀ c', ¬ estep c c'.

(** The item a worker is at, and the work on a list of items. *)
Definition busy (w : worker (T := T)) : list T := match w with Running x => [x] | _ => [] end.

Fixpoint works (xs : list T) (w : W) : outcome W :=
  match xs with [] => Ret w | x :: xs => w' ← work x w; works xs w' end.

(** *** The program underneath *)

Lemma estep_pstep c c' : estep c c' → pstep P c.1 c'.1.
Proof. by intros []. Qed.

Lemma ereachable_reachable c0 c : ereachable c0 c → reachable P c0.1 c.1.
Proof.
  induction 1 as [|c1 c2 c3 Hs _ IH]; [apply rtc_refl|]. eapply rtc_l; [|exact IH].
  destruct Hs as [Hs|[]]; [left; by apply estep_pstep|by right].
Qed.

Lemma esteps_psteps k c0 c : nsteps estep k c0 c → nsteps (pstep P) k c0.1 c.1.
Proof.
  induction 1 as [|k c1 c2 c3 Hs _ IH]; [apply nsteps_O|]. eapply nsteps_l; [|exact IH]. by apply estep_pstep.
Qed.

Lemma works_app xs ys w : works (xs ++ ys) w = (w' ← works xs w; works ys w').
Proof.
  revert w. induction xs as [|x xs IH]; intros w; simpl; [done|].
  destruct (work x w); [|done]. rewrite !bind_Ret. apply IH.
Qed.

(** *** One worker *)

(** What a step does to the only worker. *)
Inductive only_worker : worker → list T → worker → list T → Prop :=
  | ow_same v v' ts : busy v = busy v' → only_worker v ts v' ts
  | ow_takes v x ts : busy v = [] → only_worker v ts (Running x) (ts ++ [x])
  | ow_finish x ts : only_worker (Running x) ts Testing ts.

Lemma notify_one_single v ws : notify_one [v] ws → ∃ v', ws = [v'] ∧ busy v = busy v'.
Proof.
  inversion 1 as [|j Hj]; subst; [by exists v|]. destruct j as [|j]; [|done]. injection Hj as ->. by exists Testing.
Qed.

Lemma worker_step_only q q' v : worker_step (qp_section P) q q' → workers q = [v] →
  ∃ v', workers q' = [v'] ∧ only_worker v (taken q) v' (taken q').
Proof.
  intros Hw Hv. destruct Hw as [q i Hi E|q i Hi E|q i x ts Hi E|q i x Hi]; simpl in *; rewrite Hv in *;
    (destruct i as [|i]; [|done]); injection Hi as ->; (eexists; split; [done|]); by constructor.
Qed.

Lemma pstep_only s s' v : pstep P s s' → workers (queue s) = [v] →
  ∃ v', workers (queue s') = [v'] ∧ only_worker v (taken (queue s)) v' (taken (queue s')).
Proof.
  intros Hs Hv. destruct Hs as
    [q l ps m off i x rest now l' Hi E|q l ps m off i x rest now l' Hi E|q l ps m off i x rest Hi E
    |q l ps m off i rest k ws Hi Hk Hws|q l ps m off i x rest ws Hi E Hws|q l ps m off q' Hw
    |q l ps off Hf Hst|q l ps off|q l ps off Hf Hst|q l ps off Hf]; simpl in *;
    try (exists v; split; [done|by apply ow_same]).
  - rewrite Hv in Hws. destruct (notify_one_single _ _ Hws) as (v' & -> & E). exists v'. split; [done|by apply ow_same].
  - rewrite Hv in Hws. destruct (notify_one_single _ _ Hws) as (v' & -> & E'). exists v'. split; [done|by apply ow_same].
  - by apply worker_step_only.
  - exists (wake v). rewrite Hv. split; [done|]. apply ow_same. by destruct v.
Qed.

(** The effects so far are those of the items taken, but the one at work. *)
Definition effects_of (w0 : W) (c : world) : Prop :=
  ∃ v done, workers (queue c.1) = [v] ∧ taken (queue c.1) = done ++ busy v ∧ works done w0 = Ret c.2.

Lemma effects_estep w0 c c' : effects_of w0 c → estep c c' → effects_of w0 c'.
Proof.
  intros (v & dn & Hv & Ht & Hw) Hs. destruct Hs as [s s' i x w w' Hs Hi Hi' E|s s' w Hs Hrun]; simpl in *;
    destruct (pstep_only _ _ _ Hs Hv) as (v' & Hv' & Ho).
  - rewrite Hv in Hi. rewrite Hv' in Hi'. destruct i as [|i]; [|done]. injection Hi as ->. injection Hi' as ->.
    assert (taken (queue s') = taken (queue s)) as E' by (by inversion Ho).
    exists Testing, (dn ++ [x]). simpl. rewrite E', Ht, app_nil_r, works_app, Hw, bind_Ret. simpl. by rewrite E.
  - unfold effects_of. simpl. remember (taken (queue s)) as ts eqn:Ets. remember (taken (queue s')) as ts' eqn:Ets'.
    destruct Ho as [v v' ts E|v x ts E|x ts].
    + exists v', dn. by rewrite <-E.
    + exists (Running x), dn. rewrite E, app_nil_r in Ht. by rewrite Ht.
    + specialize (Hrun 0%nat x). rewrite Hv, Hv' in Hrun. by specialize (Hrun eq_refl).
Qed.

Lemma effects_spurious w0 c c' : effects_of w0 c → espurious c c' → effects_of w0 c'.
Proof.
  intros He Hs. destruct Hs as [s s' w Hs]. destruct Hs as [q l ps m off i Hi].
  destruct He as (v & dn & Hv & Ht & Hw). simpl in *. rewrite Hv in Hi. destruct i as [|i]; [|done]. injection Hi as ->. exists Testing, dn. simpl. by rewrite Hv.
Qed.

Lemma effects_inv l items w0 c : ereachable (launch 1 l items, w0) c → effects_of w0 c.
Proof.
  intros Hr. assert (effects_of w0 (launch 1 l items, w0)) as H0 by (by exists Testing, []).
  revert H0. induction Hr as [|c1 c2 c3 [Hs|Hs] _ IH]; [done|..]; intros H0; apply IH;
    [by eapply effects_estep|by eapply effects_spurious].
Qed.

(** A step of the program is a step with its effect, unless the work faults. *)
Lemma pstep_estep s s' w v : workers (queue s) = [v] → (∀ f, ¬ efaults (s, w) f) → pstep P s s' →
  ∃ c', estep (s, w) c'.
Proof.
  intros Hv Hnf Hs. destruct (pstep_only _ _ _ Hs Hv) as (v' & Hv' & Ho).
  destruct v as [| |x|].
  1, 2, 4: exists (s', w); apply e_other; [done|]; rewrite Hv; intros [|i] y Hi; by simplify_eq/=.
  destruct v' as [| |y|]; try (inversion Ho; simplify_eq/=; fail).
  - destruct (work x w) as [w'|f] eqn:E.
    + exists (s', w'). apply (e_work s s' 0 x w w'); by rewrite ?Hv, ?Hv'.
    + destruct (Hnf f). apply (e_faults s w 0 x f); [by rewrite Hv|done].
  - exists (s', w). apply e_other; [done|]. inversion Ho; simplify_eq/=.
    rewrite Hv, Hv'. intros [|i] z Hi; by simplify_eq/=.
Qed.

Lemma e_rest l items w0 s w : ereachable (launch 1 l items, w0) (s, w) → (∀ f, ¬ efaults (s, w) f) →
  e_at_rest (s, w) → at_rest P s.
Proof.
  intros Hr Hnf Hrest s' Hs. destruct (effects_inv _ _ _ _ Hr) as (v & _ & Hv & _).
  destruct (pstep_estep s s' w v Hv Hnf Hs) as [c' Hc]. exact (Hrest c' Hc).
Qed.

(** At rest all the work has been done. *)
Lemma e_rest_done `{!QueueProgram P} l items w0 s w : ereachable (launch 1 l items, w0) (s, w) →
  (∀ f, ¬ efaults (s, w) f) → e_at_rest (s, w) → works (taken (queue s)) w0 = Ret w.
Proof.
  intros Hr Hnf Hrest. destruct (effects_inv _ _ _ _ Hr) as (v & dn & Hv & Ht & Hw). simpl in *.
  destruct (whole_program P 1 l items s ltac:(lia) (ereachable_reachable _ _ Hr) (e_rest _ _ _ _ _ Hr Hnf Hrest))
    as (_ & _ & _ & _ & Hws).
  rewrite Hv in Hws. apply list.Forall_cons in Hws as [-> _]. rewrite Ht. by destruct (qp_stops P); rewrite app_nil_r.
Qed.

(** The threads take a bounded number of steps. *)
Lemma esteps_bound `{!QueueProgram P} l items w0 k c : nsteps estep k (launch 1 l items, w0) c →
  (k ≤ 6 * length (concat items) + 6)%nat.
Proof.
  intros Hk. pose proof (program_steps P _ _ _ _ _ (launch_inv P 1 l items) (esteps_psteps _ _ _ Hk)) as H.
  rewrite launch_left in H. lia.
Qed.
End effects.
