(* ===== verification/LogProgram.v ===== *)
(** * pureStorage/rateLimiter.cpp: the program

    Three producers offer ten messages each to the limiter and push the admitted
    ones into the blocking queue; a consumer appends them to a file; [main] joins
    the producers, shuts the queue down and joins the consumer.  The theorem
    composes the limiter (RateLimiter) with the queue (WorkQueue, QueuePrograms)
    and the file that the consumer writes. *)

From stdpp Require Import base list gmap numbers strings pretty relations.
From Stdlib Require Import ZArith Lia.
From S2P Require Import Prelude WorkQueue RateLimiter QueuePrograms.

(** A message and the user that sends it. *)
Definition log_message : Type := string * string.

(** [BlockingQueue::push] and [shutdown]. *)
Definition log_push (msg : log_message) (q : list log_message) : list log_message := q ++ [msg].
Definition log_shutdown (stop : bool) : bool := true.

(** The messages of [producer(limiter, bq, id)]. *)
Definition user_of (id : Z) : string := "user" +:+ pretty id.
Definition messages (id : Z) : list log_message :=
  (λ i : nat, (user_of id, "Thread " +:+ pretty id +:+ " log " +:+ pretty (Z.of_nat i))) <$> seq 0 10.

(** The test of [producer]. *)
Definition log_admit (rl : RateLimiter) (msg : log_message) (now : Z) : bool * RateLimiter :=
  allowRequest msg.1 now rl.

Definition log_program : queue_program log_message RateLimiter :=
  mkQP log_push log_shutdown log_pop log_admit true false.

Definition log_main : program (T := log_message) (L := RateLimiter) :=
  launch 1 (new_RateLimiter 3 2000) [messages 1; messages 2; messages 3].

(** What a round of [consumer]'s loop changes: the file, opened with [ios::app],
    and the lines it prints.  Writes to a file that could not be opened are lost;
    those to an open one succeed. *)
Record consumer_output := mkOutput { log_text : string; console : list string }.

Definition endl : string := String.String (Ascii.ascii_of_nat 10) "".

Definition consumer_round (opens : bool) (msg : log_message) (w : consumer_output) : outcome consumer_output :=
  Ret (mkOutput (if opens then log_text w +:+ (msg.2 +:+ endl) else log_text w)
         (console w ++ ["[FILE WRITE] " +:+ msg.2])).

(** One line for each message. *)
Definition log_file (msgs : list log_message) : string := String.concat "" ((λ m, m.2 +:+ endl) <$> msgs).

#[export] Instance log_QueueProgram : QueueProgram log_program.
Proof. split; try done. intros stop ts _. apply worker_sections_agree. Qed.

(** ** The limiter of a program sees the requests in the order of [offered] *)

Definition timed (off : list (log_message * Z * bool)) : list (string * Z) := (λ o, (o.1.1.1, o.1.2)) <$> off.
Definition answers (off : list (log_message * Z * bool)) : list bool := snd <$> off.

Lemma run_app r1 r2 rl : run (r1 ++ r2) rl =
  let '(a1, rl1) := run r1 rl in let '(a2, rl2) := run r2 rl1 in (a1 ++ a2, rl2).
Proof.
  revert rl. induction r1 as [|[k t] r1 IH]; intros rl; simpl; [by destruct (run r2 rl)|].
  destruct (allowRequest k t rl) as [a rl1]. rewrite IH. destruct (run r1 rl1) as [a1 rl2].
  by destruct (run r2 rl2).
Qed.

Lemma limiter_replay s0 s : reachable log_program s0 s → offered s0 = [] →
  run (timed (offered s)) (limiter s0) = (answers (offered s), limiter s).
Proof.
  intros Hr H0. assert (run (timed (offered s0)) (limiter s0) = (answers (offered s0), limiter s0)) as Hrun by (by rewrite H0).
  clear H0. revert Hrun. generalize (limiter s0) at 1 3. intros rl0. induction Hr as [|s1 s2 s3 [Hs|Hs] _ IH]; [done|..];
    intros Hrun; apply IH; [|by destruct Hs].
  destruct Hs as [q l ps m off i x rest now l' Hi E|q l ps m off i x rest now l' Hi E| | | | | | | | ]; simpl in *; try done;
    (unfold timed, answers in *; rewrite !fmap_app, run_app, Hrun; simpl; unfold log_admit in E; by rewrite E).
Qed.

(** The lines of one user are its grants. *)
Lemma lines_of_user user off :
  length (filter (λ m : log_message, m.1 = user) (admitted off)) = length (granted user (timed off) (answers off)).
Proof.
  induction off as [|[[m t] b] off IH]; [done|]. unfold admitted, timed, answers in *.
  rewrite bind_cons, list.filter_app, length_app, IH, !fmap_cons. simpl. rewrite length_app. f_equal.
  destruct b; [|by rewrite andb_false_r]. rewrite andb_true_r, filter_cons, filter_nil.
  by case_decide; case_bool_decide.
Qed.

(** The clock of [allowRequest] is steady and each user is one thread: the
    requests of one user reach the limiter in the order of their times, those of
    different users in any order. *)
Definition steady (user : string) (off : list (log_message * Z * bool)) : Prop :=
  ordered 0 (filter (λ r, r.1 = user) (timed off)).

Lemma allowRequest_key rl last G key k now :
  0 ≤ max_requests rl ≤ INT_MAX → log_inv rl last G (key_log rl key) → (k = key → last ≤ now) →
  let '(a, rl') := allowRequest k now rl in
  same_limits rl rl' ∧
  log_inv rl' (if bool_decide (k = key) then now else last)
    (G ++ (if bool_decide (k = key) && a then [now] else [])) (key_log rl' key).
Proof.
  intros Hmax Hinv Hle. unfold allowRequest. fold (key_log rl k). case_bool_decide as E.
  - subst k. pose proof (log_inv_request rl now G (key_log rl key) Hmax
      (log_inv_later _ _ _ _ _ Hinv (Hle eq_refl))) as Hreq. cbv zeta in Hreq |- *.
    destruct (_ <? _); split; try done; apply (log_inv_limits rl); try done;
      unfold key_log; cbn [logs andb]; rewrite lookup_insert_eq; [done|]. rewrite app_nil_r. apply Hreq.
  - cbv zeta. destruct (_ <? _); split; try done; apply (log_inv_limits rl); try done;
      unfold key_log; cbn [logs andb]; rewrite lookup_insert_ne, app_nil_r by done; done.
Qed.

Lemma run_key key reqs : ∀ rl last G,
  0 ≤ max_requests rl ≤ INT_MAX → log_inv rl last G (key_log rl key) →
  ordered last (filter (λ r, r.1 = key) reqs) →
  let '(ans, rl') := run reqs rl in
  ∃ last', same_limits rl rl' ∧ log_inv rl' last' (G ++ granted key reqs ans) (key_log rl' key).
Proof.
  induction reqs as [|[k now] reqs IH]; intros rl last G Hmax Hinv Hord; simpl.
  { exists last. by rewrite app_nil_r. }
  rewrite filter_cons in Hord. simpl in Hord.
  assert ((k = key → last ≤ now) ∧ ordered (if bool_decide (k = key) then now else last)
            (filter (λ r, r.1 = key) reqs)) as [Hle Hord'].
  { destruct (decide (k = key)); case_bool_decide; try done. by destruct Hord. }
  pose proof (allowRequest_key rl last G key k now Hmax Hinv Hle) as Hreq.
  destruct (allowRequest k now rl) as [a rl1]. destruct Hreq as [[Hm Hw] Hinv1].
  specialize (IH rl1 _ _ ltac:(by rewrite Hm) Hinv1 Hord'). destruct (run reqs rl1) as [ans rl'].
  destruct IH as (last' & [Hm' Hw'] & Hinv'). exists last'. rewrite <-app_assoc in Hinv'.
  split; [split; congruence|done].
Qed.

Lemma limiter_spaced maxReq window_ms key reqs ans rl : 0 ≤ maxReq ≤ INT_MAX →
  ordered 0 (filter (λ r, r.1 = key) reqs) → run reqs (new_RateLimiter maxReq window_ms) = (ans, rl) →
  ∀ i a b, granted key reqs ans !! i = Some a → granted key reqs ans !! (i + Z.to_nat maxReq)%nat = Some b →
    window_ms < Z.quot (b - a) (10 ^ 6).
Proof.
  intros Hmax Hord Hrun. pose proof (run_key key reqs (new_RateLimiter maxReq window_ms) 0 [] Hmax) as Hinv.
  assert (log_inv (new_RateLimiter maxReq window_ms) 0 [] (key_log (new_RateLimiter maxReq window_ms) key)) as H0.
  { unfold key_log. simpl. rewrite lookup_empty. simpl. split; [by exists []|constructor|done|simpl; lia]. }
  specialize (Hinv H0 Hord). rewrite Hrun in Hinv. destruct Hinv as (last' & [Hm Hw] & Hinv).
  intros i a b Ha Hb. pose proof (li_spaced _ _ _ _ Hinv i a b) as Hs. simpl in Hs.
  rewrite Hm in Hs. specialize (Hs Ha Hb). unfold expired in Hs. rewrite Hw in Hs. by apply Z.ltb_lt in Hs.
Qed.

(** ** The consumer *)

Abbreviation log_state := (world (T := log_message) (L := RateLimiter) (W := consumer_output)).
Abbreviation log_step opens := (estep log_program (consumer_round opens)).

(** The program as it starts, with [old] in the file. *)
Definition log_start (old : string) : log_state := (log_main, mkOutput old []).

Lemma consumer_no_fault opens (c : log_state) f : ¬ efaults (consumer_round opens) c f.
Proof. by intros []. Qed.

Lemma log_file_cons m msgs : log_file (m :: msgs) = (m.2 +:+ endl) +:+ log_file msgs.
Proof.
  unfold log_file. rewrite fmap_cons. destruct msgs as [|m' msgs]; [|done]. cbn. by rewrite append_nil_r.
Qed.

Lemma consumer_works opens msgs w : works (consumer_round opens) msgs w =
  Ret (mkOutput (if opens then log_text w +:+ log_file msgs else log_text w)
         (console w ++ ((λ m, "[FILE WRITE] " +:+ m.2) <$> msgs))).
Proof.
  revert w. induction msgs as [|m msgs IH]; intros w.
  - cbn. rewrite append_nil_r, app_nil_r. by destruct w, opens.
  - cbn [works]. unfold consumer_round at 2. rewrite bind_Ret, IH, log_file_cons. cbn [log_text console].
    rewrite fmap_cons, <-app_assoc. by destruct opens; rewrite ?append_assoc.
Qed.

(** C36: the whole logging program, with the file [logs.txt], whatever it held and
    whether or not it can be opened, provided that writes to an open file
    succeed.  In every interleaving of the producers, the consumer and [main],
    the threads take at most 186 steps, spurious wake-ups apart, and in every
    reachable state: of the lines granted to one user the third after any line
    comes more than two seconds later, when the requests of that user, which one
    thread makes with a steady clock, come in the order of their times (the other
    users' may come in any order); the file is what it held, followed by one line
    for each message taken, in that order, but the one the consumer is at; and
    when no thread can move, [main] has returned, all thirty messages have been
    offered, those taken are exactly the admitted ones, each once and as many for
    each user as it was granted, and all of them are lines of the file. *)
Theorem log_program_correct opens old :
  (∀ k c, nsteps (log_step opens) k (log_start old) c → (k ≤ 186)%nat) ∧
  ∀ s w, ereachable log_program (consumer_round opens) (log_start old) (s, w) →
  (∀ user, steady user (offered s) → ∀ i a b,
     granted user (timed (offered s)) (answers (offered s)) !! i = Some a →
     granted user (timed (offered s)) (answers (offered s)) !! (i + 3)%nat = Some b →
     2000 < Z.quot (b - a) (10 ^ 6)) ∧
  (∃ written, taken (queue s) = written ++ (workers (queue s) ≫= busy) ∧
     log_text w = (if opens then old +:+ log_file written else old) ∧
     console w = (λ m, "[FILE WRITE] " +:+ m.2) <$> written) ∧
  (e_at_rest log_program (consumer_round opens) (s, w) →
     main s = Returned ∧ requests (offered s) ≡ₚ messages 1 ++ messages 2 ++ messages 3 ∧
     taken (queue s) ≡ₚ admitted (offered s) ∧
     (∀ user, length (filter (λ m : log_message, m.1 = user) (taken (queue s))) =
              length (granted user (timed (offered s)) (answers (offered s)))) ∧
     log_text w = (if opens then old +:+ log_file (taken (queue s)) else old)).
Proof.
  split; [intros k c Hk; exact (esteps_bound _ _ _ _ _ _ _ Hk)|].
  intros s w He. pose proof (ereachable_reachable _ _ _ _ He) as Hr. split_and!.
  - intros user Hst. apply (limiter_spaced 3 2000 user _ _ (limiter s)); [unfold INT_MAX; lia|done|].
    by apply (limiter_replay log_main).
  - destruct (effects_inv _ _ _ _ _ _ He) as (v & written & Hv & Ht & Hw). simpl in *.
    rewrite consumer_works in Hw. injection Hw as <-. exists written. rewrite Hv, Ht. simpl.
    by rewrite app_nil_r.
  - intros Hrest. pose proof (consumer_no_fault opens (s, w)) as Hnf.
    destruct (whole_program log_program 1 _ _ s ltac:(lia) Hr (e_rest _ _ _ _ _ _ _ He Hnf Hrest)) as (H1 & H2 & _ & Hm & _).
    pose proof (e_rest_done _ _ _ _ _ _ _ He Hnf Hrest) as Hw. rewrite consumer_works in Hw. injection Hw as <-.
    split_and!; try done.
    intros user. rewrite <-lines_of_user. apply Permutation_length, filter_Permutation. done.
Qed.

(** The first request of the first user was admitted. *)
Definition first_message : log_message := (user_of 1, "Thread " +:+ pretty 1 +:+ " log " +:+ pretty 0).

Definition one_request : program (T := log_message) (L := RateLimiter) :=
  mkProg (mkSystem [] false [Testing] 0 false [] [] None)
    (mkRateLimiter 3 2000 (<[user_of 1 := [0]]> ∅))
    [Pushing first_message (drop 1 (messages 1)); Loop (messages 2); Loop (messages 3)]
    JoinProducers [(first_message, 0, true)].

Lemma first_admitted : log_admit (new_RateLimiter 3 2000) first_message 0 =
  (true, mkRateLimiter 3 2000 (<[user_of 1 := [0]]> ∅)).
Proof. unfold log_admit, allowRequest, first_message. cbn [fst new_RateLimiter logs]. by rewrite lookup_empty. Qed.

Lemma log_program_correct_witness :
  ereachable log_program (consumer_round true) (log_start "old") (one_request, mkOutput "old" []) ∧
  (∀ user i a b, granted user [(user_of 1, 0)] [true] !! i = Some a →
   granted user [(user_of 1, 0)] [true] !! (i + 3)%nat = Some b → 2000 < Z.quot (b - a) (10 ^ 6)) ∧
  ∃ written, [] = written ++ [] ∧ "old" = "old" +:+ log_file written.
Proof.
  assert (ereachable log_program (consumer_round true) (log_start "old") (one_request, mkOutput "old" [])) as Hr.
  { apply rtc_once. left. apply e_other; [|by intros [|i] x].
    exact (p_offer log_program _ _ [Loop (messages 1); Loop (messages 2); Loop (messages 3)] JoinProducers [] 0
             first_message (drop 1 (messages 1)) 0 _ eq_refl first_admitted). }
  split; [exact Hr|]. destruct (proj2 (log_program_correct true "old") _ _ Hr) as (H & Hw & _). split.
  - intros user. apply H. unfold steady. simpl. rewrite filter_cons, filter_nil. case_decide; simpl; lia.
  - destruct Hw as (written & H1 & H2 & _). by exists written.
Defined.
