(* ===== verification/Receiver.v ===== *)
(** * packetHandler/PacketHandler.cpp: PacketReceiver

    [start] runs [processor_loop] in a thread and captures packets in the calling
    thread until [pcap_loop] returns; libpcap is outside the repository, so the
    result of opening the device and the frames that [pcap_loop] delivers before
    it returns are arguments.  The queue is the one of WorkQueue with one worker,
    whose work is the call of the dispatcher (QueuePrograms). *)

From stdpp Require Import base list numbers relations.
From Stdlib Require Import ZArith Lia.
From S2P Require Import Prelude WorkQueue QueuePrograms Dispatcher.

Record PacketReceiver := mkReceiver {
  handle_open : bool;                (* [handle] is an open capture *)
  running : bool;
  dispatcher : Dispatcher;
}.

(** The constructor; [None] is [exit(1)] after a failed [pcap_open_live]. *)
Definition new_PacketReceiver (pcap_open_live : bool) : option PacketReceiver :=
  if negb pcap_open_live then None else Some (mkReceiver true true new_Dispatcher).

(** [~PacketReceiver] *)
Definition destroy_PacketReceiver (r : PacketReceiver) : PacketReceiver :=
  mkReceiver false false (dispatcher r).

(** A frame as [pcap_callback] gets it: [header->len] and the captured bytes. *)
Definition frame : Type := Z * bytes.

(** What [pcap_callback] makes of a frame. *)
Definition strip_frame (f : frame) : outcome bytes :=
  let ip_len := u32 (f.1 - 14) in
  _ ← check (14 + ip_len <=? Z.of_nat (length f.2)) OutOfBounds;
  Ret (take (Z.to_nat ip_len) (drop 14 f.2)).

Fixpoint strip_all (fs : list frame) : outcome (list bytes) :=
  match fs with [] => Ret [] | f :: fs => p ← strip_frame f; ps ← strip_all fs; Ret (p :: ps) end.

(** The push and the section of [processor_loop]: with [running] on it waits for a
    packet; the loop ends when it finds [running] off. *)
Definition receiver_push (pkt : bytes) (packet_queue : list bytes) : list bytes := packet_queue ++ [pkt].

Definition processor_section (stopped : bool) (packet_queue : list bytes) : section_end (T := bytes) :=
  if stopped then Exits else
  match packet_queue with [] => Waits | packet :: packet_queue => Takes packet packet_queue end.

(** [start]: the destructor, which clears [running], comes after it. *)
Definition receiver_program : queue_program bytes unit :=
  mkQP receiver_push id processor_section (λ l _ _, (true, l)) false false.

Definition start (packets : list bytes) : program (T := bytes) (L := unit) := launch 1 tt [packets].

(** [start] with the frames that the capture delivers. *)
Definition capture (frames : list frame) : outcome (program (T := bytes) (L := unit)) :=
  packets ← strip_all frames; Ret (start packets).

(** The end of a round of [processor_loop]: the packet is dispatched; [out] is
    what has been printed. *)
Definition processor_work (packet : bytes) (out : list printed) : outcome (list printed) :=
  ps ← dispatch_packet new_Dispatcher packet; Ret (out ++ ps).

Abbreviation receiver_step := (estep receiver_program processor_work).

(** ** What should be printed *)

(** A complete Ethernet frame: 14 bytes of header and the packet [ip], with the
    length of both in [header->len]. *)
Definition complete (f : frame) (ip : bytes) : Prop :=
  ∃ hdr, length hdr = 14%nat ∧ f = (14 + Z.of_nat (length ip), hdr ++ ip) ∧ 14 + Z.of_nat (length ip) < 2 ^ 32.

(** The line that belongs to an IP packet: the two ports of TCP (protocol 6) and
    UDP (17), type and code of ICMP (1), nothing for another protocol or for less
    than an IP header. *)
Inductive prints : bytes → list printed → Prop :=
  | prints_tcp data hl s d rest : ip_packet data 6 hl (be16 s ++ be16 d ++ rest) → prints data [TCP s d]
  | prints_udp data hl s d rest : ip_packet data 17 hl (be16 s ++ be16 d ++ rest) → prints data [UDP s d]
  | prints_icmp data hl t c rest : ip_packet data 1 hl (t :: c :: rest) → prints data [ICMP t c]
  | prints_other data proto hl payload : ip_packet data proto hl payload → payload ≠ [] →
      proto ∉ [1; 6; 17] → prints data []
  | prints_short data : (length data < 20)%nat → prints data [].

#[export] Instance receiver_QueueProgram : QueueProgram receiver_program.
Proof. split; try done. intros stop ts [?| ->]; [done|]. by destruct ts. Qed.

(** The callback is the strip followed by the push. *)
Lemma pcap_callback_strip f q :
  pcap_callback f.1 f.2 q = (p ← strip_frame f; Ret (receiver_push p q)).
Proof. unfold pcap_callback, strip_frame. by destruct (check _ _). Qed.

Lemma strip_complete f ip : complete f ip → strip_frame f = Ret ip.
Proof.
  intros (hdr & Hh & -> & Hlt). unfold strip_frame. cbn [fst snd]. cbv zeta.
  replace (14 + Z.of_nat (length ip) - 14) with (Z.of_nat (length ip)) by lia.
  unfold u32. rewrite Z.mod_small by lia. rewrite length_app, Hh.
  rewrite (proj2 (Z.leb_le _ _)) by lia. cbn [check]. rewrite bind_Ret, Nat2Z.id.
  rewrite <-Hh, drop_app_length, take_ge by done. done.
Qed.

Lemma strip_all_complete frames ips : Forall2 complete frames ips → strip_all frames = Ret ips.
Proof.
  induction 1 as [|f ip frames ips Hf _ IH]; [done|]. cbn [strip_all]. by rewrite (strip_complete f ip Hf), bind_Ret, IH.
Qed.

Lemma dispatch_prints data out : prints data out → dispatch_packet new_Dispatcher data = Ret out.
Proof.
  intros Hp. destruct Hp as [data hl s d rest Hip|data hl s d rest Hip|data hl t c rest Hip
    |data proto hl payload Hip Hne Hn|data Hlen].
  - by apply (dispatch_correct data 6 hl _ Hip ltac:(done)) with (rest := rest).
  - by apply (dispatch_correct data 17 hl _ Hip ltac:(done)) with (rest := rest).
  - by apply (dispatch_correct data 1 hl _ Hip ltac:(done)) with (rest := rest).
  - apply (dispatch_correct data proto hl payload Hip Hne). unfold IPPROTO_TCP, IPPROTO_UDP, IPPROTO_ICMP. set_solver.
  - unfold dispatch_packet, sizeof_ip. by rewrite (proj2 (Z.ltb_lt _ _)) by lia.
Qed.

Lemma works_prints ips outs out : Forall2 prints ips outs → works processor_work ips out = Ret (out ++ concat outs).
Proof.
  intros Hp. revert out. induction Hp as [|ip o ips outs Hp _ IH]; intros out; simpl; [by rewrite app_nil_r|].
  unfold processor_work at 2. by rewrite (dispatch_prints ip o Hp), !bind_Ret, IH, <-app_assoc.
Qed.

Lemma receiver_taken packets s : reachable receiver_program (start packets) s → taken (queue s) `prefix_of` packets.
Proof.
  intros Hr. pose proof (program_inv receiver_program 1 tt [packets] s Hr) as I.
  destruct (single_producer_order receiver_program 1 tt packets s ltac:(done) Hr) as (p & _ & ->).
  rewrite (inv_fifo _ (gi_queue _ _ _ _ I)), <-app_assoc. by apply prefix_app_r.
Qed.

Lemma receiver_stays packets s : reachable receiver_program (start packets) s → main s ≠ Returned.
Proof.
  intros Hr Hm. pose proof (program_inv receiver_program 1 tt [packets] s Hr) as I.
  pose proof (gi_returned _ _ _ _ I Hm) as Hex. pose proof (gi_main _ _ _ _ I) as Hok.
  rewrite Hm in Hok. destruct Hok as (Hs & _).
  destruct (inv_exited _ (gi_queue _ _ _ _ I)) as (l & Hl & _).
  { change (countb is_exited (workers (queue s)) = 1%nat) in Hex. lia. }
  pose proof (proj2 (inv_stopped _ (gi_queue _ _ _ _ I)) (mk_is_Some _ _ Hl)). simpl in Hs. congruence.
Qed.

(** What the processor has printed are the lines of the first packets. *)
Lemma receiver_printed ips outs s out : Forall2 prints ips outs →
  ereachable receiver_program processor_work (start ips, []) (s, out) →
  ∃ v k, workers (queue s) = [v] ∧ taken (queue s) = take k ips ++ busy v ∧ out = concat (take k outs).
Proof.
  intros Hp He. destruct (effects_inv _ _ _ _ _ _ He) as (v & dn & Hv & Ht & Hw). simpl in *.
  destruct (receiver_taken ips s (ereachable_reachable _ _ _ _ He)) as [rest Hpre].
  rewrite Ht, <-app_assoc in Hpre. assert (dn = take (length dn) ips) as E by (by rewrite Hpre, take_app_length).
  exists v, (length dn). split; [done|]. split; [by rewrite <-E|].
  rewrite E, (works_prints _ _ [] (Forall2_take _ _ _ (length dn) Hp)) in Hw. by injection Hw as <-.
Qed.

(** No packet that has a line makes the dispatcher read past it. *)
Lemma receiver_no_fault ips outs s out f : Forall2 prints ips outs →
  ereachable receiver_program processor_work (start ips, []) (s, out) → ¬ efaults processor_work (s, out) f.
Proof.
  intros Hp He Hf. inversion Hf as [s' out' i x f' Hi E]; subst.
  destruct (receiver_printed ips outs s out Hp He) as (v & k & Hv & Ht & _).
  rewrite Hv in Hi. destruct i as [|i]; [|done]. injection Hi as ->.
  destruct (receiver_taken ips s (ereachable_reachable _ _ _ _ He)) as [rest Hpre].
  assert (x ∈ ips) as Hx by (rewrite Hpre, Ht; set_solver).
  apply list_elem_of_lookup in Hx as [j Hj]. destruct (Forall2_lookup_l _ _ _ _ _ Hp Hj) as (o & _ & Ho).
  unfold processor_work in E. by rewrite (dispatch_prints x o Ho) in E.
Qed.

(** C37: for complete Ethernet frames with packets [ips], each of which is an IP
    packet with its transport header, one of another protocol, or too short for
    an IP header, and whose lines are [outs]: the capture strips the frames
    without a fault, and in every interleaving of the capture and the processor
    the threads take at most 6 * frames + 6 steps, spurious wake-ups apart; at
    every moment the lines printed are those of the first packets, in order and
    none twice, the packets taken are these and the one being dispatched, and no
    dispatch reads past its packet; [start] never returns; and when no thread can
    move, every line has been printed and [start] waits for ever for the
    processor, which waits for a packet: the destructor that clears [running] is
    never reached. *)
Theorem receiver_correct frames ips outs :
  Forall2 complete frames ips → Forall2 prints ips outs →
  ∃ s0, capture frames = Ret s0 ∧
  (∀ k c, nsteps receiver_step k (s0, []) c → (k ≤ 6 * length frames + 6)%nat) ∧
  ∀ s out, ereachable receiver_program processor_work (s0, []) (s, out) →
  (∃ v k, workers (queue s) = [v] ∧ taken (queue s) = take k ips ++ busy v ∧ out = concat (take k outs)) ∧
  (∀ f, ¬ efaults processor_work (s, out) f) ∧
  main s ≠ Returned ∧
  (e_at_rest receiver_program processor_work (s, out) →
     out = concat outs ∧ main s = JoinWorkers ∧ workers (queue s) = [Waiting]).
Proof.
  intros Hc Hp. exists (start ips). split; [unfold capture; by rewrite (strip_all_complete _ _ Hc)|]. split.
  { intros k c Hk. pose proof (esteps_bound _ _ _ _ _ _ _ Hk) as H. simpl in H.
    by rewrite app_nil_r, <-(Forall2_length _ _ _ Hc) in H. }
  intros s out He. pose proof (ereachable_reachable _ _ _ _ He) as Hr. pose proof (λ f, receiver_no_fault ips outs s out f Hp He) as Hnf.
  split; [by apply receiver_printed|]. split; [done|]. split; [by apply (receiver_stays ips)|].
  intros Hrest. pose proof (e_rest _ _ _ _ _ _ _ He Hnf Hrest) as Hrest'.
  pose proof (e_rest_done _ _ _ _ _ _ _ He Hnf Hrest) as Hw.
  destruct (single_producer_rest receiver_program 1 tt ips s ltac:(lia) ltac:(done) Hr Hrest') as [Hm Ht].
  rewrite Ht, (works_prints _ _ _ Hp) in Hw. injection Hw as <-. split_and!; try done.
  destruct (whole_program receiver_program 1 tt [ips] s ltac:(lia) Hr Hrest') as (_ & _ & _ & _ & Hws).
  destruct (effects_inv _ _ _ _ _ _ He) as (v & _ & Hv & _). simpl in Hv. rewrite Hv in Hws |- *.
  apply list.Forall_cons in Hws as [-> _]. done.
Qed.

(** A TCP packet and one that is too short, behind Ethernet headers. *)
Definition demo_frames : list frame := [(40, replicate 14 0 ++ demo_packet); (17, replicate 14 0 ++ [1; 2; 3])].

Lemma receiver_correct_witness : ∃ s0, capture demo_frames = Ret s0 ∧
  ∀ s out, ereachable receiver_program processor_work (s0, []) (s, out) →
    e_at_rest receiver_program processor_work (s, out) → out = [TCP 80 8080].
Proof.
  destruct (receiver_correct demo_frames [demo_packet; [1; 2; 3]] [[TCP 80 8080]; []]) as (s0 & E & _ & H).
  - repeat constructor; by exists (replicate 14 0).
  - apply Forall2_cons_2; [|apply Forall2_cons_2; [apply prints_short; simpl; lia|constructor]].
    apply (prints_tcp _ 5 80 8080 [1; 2]). split; try reflexivity. lia.
  - exists s0. split; [exact E|]. intros s out He. apply (proj2 (proj2 (proj2 (H s out He)))).
Defined.
