(* ===== verification/HeapTable.v ===== *)
(** * pureStorage/getRandom.cpp: the chains of CustomHashTable in memory

    RandomSet models a chain as the list of its nodes.  Here the nodes are cells
    of a heap linked by pointers, as in the source, and [new] and [delete] are
    explicit; every operation is proved to do what the one on lists does, so
    that no operation faults, leaks or uses a deleted node, and the destructor
    frees every node exactly once.  The table is a second instance of the class
    [IntTable], so what RandomSet proves of the set holds for it too. *)

From stdpp Require Import base list gmap sets numbers.
From Stdlib Require Import ZArith Lia.
From S2P Require Import Prelude RandomSet.

Record HNode := mkHNode { hkey : Z; hvalue : Z; hnext : Z }.

Record HeapTable := mkHT {
  hbuckets : list Z;           (* pointers to the first node, 0 for nullptr *)
  hsize : Z;
  hheap : gmap Z HNode;
}.

Abbreviation cells := (gmap Z HNode).

Definition hload (h : cells) (p : Z) : outcome HNode :=
  if p =? 0 then Err NullDeref else of_option DanglingPtr (h !! p).

Definition new_HeapTable : HeapTable := mkHT (vresize [] (Z.to_nat CAPACITY) 0) CAPACITY ∅.

(** The loops of [insert] and [find]: the node with the key, if there is one. *)
Fixpoint search (fuel : nat) (h : cells) (k p : Z) : outcome (option Z) :=
  if p =? 0 then Ret None else
  match fuel with
  | O => Err OutOfFuel
  | S fuel => n ← hload h p; if hkey n =? k then Ret (Some p) else search fuel h k (hnext n)
  end.

(** Chains are at most as long as the heap has nodes. *)
Definition chain_fuel (t : HeapTable) : nat := S (base.size (hheap t)).

Definition heap_insert (alloc : cells → Z) (k v : Z) (t : HeapTable) : outcome HeapTable :=
  index ← hash k;
  p ← vget (hbuckets t) index;
  r ← search (chain_fuel t) (hheap t) k p;
  match r with
  | Some q =>
      n ← hload (hheap t) q;
      Ret (mkHT (hbuckets t) (hsize t) (<[q := mkHNode (hkey n) v (hnext n)]> (hheap t)))
  | None =>
      let newNode := alloc (hheap t) in
      bs ← vset (hbuckets t) index newNode;
      Ret (mkHT bs (hsize t) (<[newNode := mkHNode k v p]> (hheap t)))
  end.

Definition heap_find (k : Z) (t : HeapTable) : outcome (option Z) :=
  index ← hash k;
  p ← vget (hbuckets t) index;
  r ← search (chain_fuel t) (hheap t) k p;
  match r with
  | Some q => n ← hload (hheap t) q; Ret (Some (hvalue n))
  | None => Ret None
  end.

(** The loop of [erase]: the node with the key and the one before it. *)
Fixpoint search_prev (fuel : nat) (h : cells) (k prev current : Z) : outcome (option (Z * Z)) :=
  if current =? 0 then Ret None else
  match fuel with
  | O => Err OutOfFuel
  | S fuel =>
      n ← hload h current;
      if hkey n =? k then Ret (Some (prev, current)) else search_prev fuel h k current (hnext n)
  end.

Definition heap_erase (k : Z) (t : HeapTable) : outcome (bool * HeapTable) :=
  index ← hash k;
  p ← vget (hbuckets t) index;
  r ← search_prev (chain_fuel t) (hheap t) k 0 p;
  match r with
  | None => Ret (false, t)
  | Some (prev, current) =>
      n ← hload (hheap t) current;
      if prev =? 0 then
        bs ← vset (hbuckets t) index (hnext n);
        Ret (true, mkHT bs (hsize t) (delete current (hheap t)))
      else
        pn ← hload (hheap t) prev;
        Ret (true, mkHT (hbuckets t) (hsize t)
                     (delete current (<[prev := mkHNode (hkey pn) (hvalue pn) (hnext n)]> (hheap t))))
  end.

(** [~CustomHashTable] *)
Fixpoint delete_chain (fuel : nat) (h : cells) (current : Z) : outcome cells :=
  if current =? 0 then Ret h else
  match fuel with
  | O => Err OutOfFuel
  | S fuel => n ← hload h current; delete_chain fuel (delete current h) (hnext n)
  end.

Fixpoint delete_buckets (n : nat) (i : Z) (t : HeapTable) (h : cells) : outcome cells :=
  match n with
  | O => Ret h
  | S n => p ← vget (hbuckets t) i; h ← delete_chain (chain_fuel t) h p; delete_buckets n (i + 1) t h
  end.

Definition destroy_CustomHashTable (t : HeapTable) : outcome cells :=
  delete_buckets (Z.to_nat (hsize t)) 0 t (hheap t).

(** ** Chains *)

(** The nodes [c], with their addresses, from [p] to the null pointer. *)
Fixpoint chain (h : cells) (p : Z) (c : list (Z * Node)) : Prop :=
  match c with
  | [] => p = 0
  | (a, n) :: c => p = a ∧ a ≠ 0 ∧ ∃ q, h !! a = Some (mkHNode (key n) (value n) q) ∧ chain h q c
  end.

Lemma chain_frame h h' p c : (∀ a, a ∈ c.*1 → h' !! a = h !! a) → chain h p c → chain h' p c.
Proof.
  revert p. induction c as [|[a n] c IH]; intros p Hf; simpl; [done|].
  intros (-> & Ha & q & Hq & Hc). do 2 (split; [done|]). exists q.
  split; [rewrite Hf; [done|rewrite fmap_cons; by left]|]. apply IH; [|done].
  intros b Hb. apply Hf. rewrite fmap_cons. by right.
Qed.

Lemma hload_Some h p n : h !! p = Some n → p ≠ 0 → hload h p = Ret n.
Proof. intros Hp Hne. unfold hload. by rewrite (proj2 (Z.eqb_neq p 0) Hne), Hp. Qed.

(** A chain splits at any of its nodes. *)
Lemma chain_app h p c1 c2 : chain h p (c1 ++ c2) ↔
  ∃ q, chain h q c2 ∧ ∀ h', (∀ a, a ∈ c1.*1 → h' !! a = h !! a) → ∀ c2', chain h' q c2' → chain h' p (c1 ++ c2').
Proof.
  split.
  - revert p. induction c1 as [|[a n] c1 IH]; intros p Hc; simpl in *.
    + exists p. split; [done|]. auto.
    + destruct Hc as (-> & Ha & q & Hq & Hc). destruct (IH q Hc) as (r & Hr & Hall). exists r. split; [done|].
      intros h' Hf c2' Hc2. do 2 (split; [done|]). exists q. split; [rewrite Hf; [done|by left]|].
      apply Hall; [|done]. intros b Hb. apply Hf. by right.
  - intros (q & Hq & Hall). by apply (Hall h).
Qed.

(** The searches on a chain, with what the operations on lists do there. *)
Lemma search_split fuel h k p c prev : chain h p c → (length c < fuel)%nat →
  (k ∉ key <$> c.*2 ∧ search fuel h k p = Ret None ∧ search_prev fuel h k prev p = Ret None) ∨
  ∃ c1 a n c2, c = c1 ++ (a, n) :: c2 ∧ key n = k ∧ k ∉ key <$> c1.*2 ∧ a ≠ 0 ∧
    search fuel h k p = Ret (Some a) ∧
    search_prev fuel h k prev p = Ret (Some (default prev (list.last c1.*1), a)).
Proof.
  revert fuel p prev. induction c as [|[a n] c IH]; intros [|fuel] p prev Hc Hf; try (simpl in Hf; lia).
  { left. simpl in Hc. subst p. split; [apply not_elem_of_nil|done]. }
  destruct Hc as (-> & Ha & q & Hq & Hc). simpl. rewrite (proj2 (Z.eqb_neq a 0) Ha), (hload_Some _ _ _ Hq Ha), !bind_Ret.
  simpl. destruct (Z.eqb_spec (key n) k) as [Hk|Hk].
  - right. exists [], a, n, c. split_and!; try done. apply not_elem_of_nil.
  - destruct (IH fuel q a Hc) as [(Hn & E1 & E2)|(c1 & b & n' & c2 & -> & Hn' & Hn & Hb & E1 & E2)]; [simpl in Hf; lia|left|right].
    + rewrite E1, E2. split; [|done]. apply not_elem_of_cons. by split.
    + exists ((a, n) :: c1), b, n', c2. rewrite E1, E2. split_and!; try done.
      * csimpl. apply not_elem_of_cons. by split.
      * csimpl. destruct (c1.*1) as [|x l] eqn:El; [done|]. by rewrite last_cons_cons; destruct (list.last (x :: l)) eqn:E; [|apply last_None in E].
Qed.

Lemma list_ops_split k v c1 n c2 : key n = k → k ∉ key <$> c1 →
  find_chain k (c1 ++ n :: c2) = Some (value n) ∧
  update_value k v (c1 ++ n :: c2) = Some (c1 ++ mkNode k v :: c2) ∧
  erase_chain k (c1 ++ n :: c2) = Some (c1 ++ c2).
Proof.
  intros Hk. induction c1 as [|m c1 IH]; intros Hn; simpl.
  - by rewrite Hk, Z.eqb_refl.
  - rewrite fmap_cons in Hn. apply not_elem_of_cons in Hn as [Hm Hn]. rewrite (proj2 (Z.eqb_neq (key m) k)) by done.
    destruct (IH Hn) as (-> & -> & ->). done.
Qed.

Lemma list_ops_absent k v c : k ∉ key <$> c →
  find_chain k c = None ∧ update_value k v c = None ∧ erase_chain k c = None.
Proof.
  induction c as [|m c IH]; intros Hn; simpl; [done|].
  rewrite fmap_cons in Hn. apply not_elem_of_cons in Hn as [Hm Hn]. rewrite (proj2 (Z.eqb_neq (key m) k)) by done.
  destruct (IH Hn) as (-> & -> & ->). done.
Qed.

(** ** The table in memory *)

Definition addrs (cs : list (list (Z * Node))) : list Z := cs ≫= λ c, c.*1.

Record hrep (t : HeapTable) (cs : list (list (Z * Node))) : Prop := {
  hr_chains : Forall2 (chain (hheap t)) (hbuckets t) cs;
  hr_nodup : NoDup (addrs cs);
  hr_dom : dom (hheap t) = list_to_set (addrs cs);
}.

(** The table of RandomSet with the same chains. *)
Definition as_table (t : HeapTable) (cs : list (list (Z * Node))) : CustomHashTable :=
  mkTable ((λ c, c.*2) <$> cs) (hsize t).

Lemma addrs_split cs i c : cs !! i = Some c →
  ∃ rest, addrs cs ≡ₚ c.*1 ++ rest ∧ (∀ c', addrs (<[i := c']> cs) ≡ₚ c'.*1 ++ rest) ∧
    ∀ j c', j ≠ i → cs !! j = Some c' → ∀ a, a ∈ c'.*1 → a ∈ rest.
Proof.
  intros Hi. exists (addrs (take i cs) ++ addrs (drop (S i) cs)).
  assert (i < length cs)%nat by (by eapply lookup_lt_Some).
  split; [|split].
  - rewrite <-(take_drop_middle cs i c Hi) at 1. unfold addrs. rewrite bind_app, bind_cons. solve_Permutation.
  - intros c'. rewrite insert_take_drop by done. unfold addrs. rewrite bind_app, bind_cons. solve_Permutation.
  - intros j c' Hj Hc a Ha. apply elem_of_app. unfold addrs. rewrite !list_elem_of_bind.
    destruct (decide (j < i)%nat).
    + left. exists c'. split; [done|]. apply list_elem_of_lookup. exists j. by rewrite lookup_take_lt.
    + right. exists c'. split; [done|]. apply list_elem_of_lookup. exists (j - S i)%nat.
      rewrite lookup_drop. by replace (S i + (j - S i))%nat with j by lia.
Qed.

(** Replacing the chain of one bucket by one with cells of its own. *)
Lemma hrep_replace t cs i c p' c' h' : hrep t cs → cs !! i = Some c → chain h' p' c' →
  NoDup c'.*1 → (∀ a, a ∈ c'.*1 → a ∈ c.*1 ∨ a ∉ dom (hheap t)) →
  (∀ a, a ∉ c.*1 → a ∉ c'.*1 → h' !! a = hheap t !! a) →
  dom h' = (dom (hheap t) ∖ list_to_set c.*1) ∪ list_to_set c'.*1 →
  hrep (mkHT (<[i := p']> (hbuckets t)) (hsize t) h') (<[i := c']> cs).
Proof.
  intros [Hch Hnd Hdom] Hi Hc Hnd' Hnew Hframe Hd. destruct (addrs_split cs i c Hi) as (rest & H1 & H2 & H3).
  rewrite H1 in Hnd. apply list.NoDup_app in Hnd as (Hndc & Hdisj & Hndr).
  assert (∀ a, a ∈ c'.*1 → a ∉ rest) as Hnr.
  { intros a Ha Hr. destruct (Hnew a Ha) as [Hin|Hout]; [by apply (Hdisj a)|]. apply Hout. rewrite Hdom, H1. set_solver. }
  split; simpl.
  - apply Forall2_same_length_lookup_2; [rewrite !length_insert; by eapply Forall2_length|].
    intros j p d Hp Hdj. destruct (decide (j = i)) as [->|Hj].
    + assert (i < length cs)%nat by (by eapply lookup_lt_Some). assert (length (hbuckets t) = length cs) by (by eapply Forall2_length).
      rewrite list_lookup_insert_eq in Hp by lia. rewrite list_lookup_insert_eq in Hdj by lia. by simplify_eq.
    + rewrite list_lookup_insert_ne in Hp by done. rewrite list_lookup_insert_ne in Hdj by done. pose proof (Forall2_lookup_lr _ _ _ _ _ _ Hch Hp Hdj) as Hcj.
      apply (chain_frame (hheap t)); [|done]. intros a Ha. pose proof (H3 j d Hj Hdj a Ha) as Har.
      apply Hframe; [intros Hin; by apply (Hdisj a)|intros Hin; by apply (Hnr a)].
  - rewrite H2. apply list.NoDup_app. split; [done|]. by split.
  - rewrite Hd, Hdom, H2. apply leibniz_equiv. apply (list_to_set_perm (C := gset Z)) in H1. rewrite H1.
    rewrite !list_to_set_app. set_solver.
Qed.

(** The bucket of a key. *)
Lemma bucket_of t cs k : hrep t cs → length cs = 100%nat → key_ok k →
  ∃ p c, vget (hbuckets t) (Z.abs k mod 100) = Ret p ∧ hbuckets t !! Z.to_nat (Z.abs k mod 100) = Some p ∧
    cs !! Z.to_nat (Z.abs k mod 100) = Some c ∧ chain (hheap t) p c ∧ NoDup c.*1 ∧ (length c < chain_fuel t)%nat ∧
    list_to_set c.*1 ⊆ dom (hheap t) ∧ vget (buckets (as_table t cs)) (Z.abs k mod 100) = Ret c.*2.
Proof.
  intros [Hch Hnd Hdom] Hlen Hk. destruct (hash_Ret k Hk) as [_ Hb].
  assert (length (hbuckets t) = length cs) as Hl by (by eapply Forall2_length).
  destruct (vget_total (hbuckets t) (Z.abs k mod 100)) as (p & Ep & Hp); [lia|].
  destruct (lookup_lt_is_Some_2 cs (Z.to_nat (Z.abs k mod 100))) as [c Hc]; [lia|].
  destruct (addrs_split cs _ c Hc) as (rest & H1 & _).
  exists p, c. split; [done|]. split; [done|]. split; [done|]. split; [by eapply Forall2_lookup_lr|].
  assert (NoDup c.*1) as Hnc by (rewrite H1 in Hnd; by apply list.NoDup_app in Hnd as [? _]).
  split; [done|]. split; [|split].
  - unfold chain_fuel. rewrite <-size_dom, Hdom, size_list_to_set by done. rewrite H1, length_app, length_fmap. lia.
  - rewrite Hdom, H1. set_solver.
  - apply vget_Ret. split; [lia|]. simpl. by rewrite list_lookup_fmap, Hc.
Qed.

Lemma heap_find_spec t cs k : hrep t cs → length cs = 100%nat → key_ok k →
  heap_find k t = find k (as_table t cs).
Proof.
  intros R Hlen Hk. destruct (bucket_of t cs k R Hlen Hk) as (p & c & E & _ & _ & Hc & _ & Hf & _ & E').
  unfold heap_find, find. rewrite (proj1 (hash_Ret k Hk)), !bind_Ret, E, E', !bind_Ret.
  destruct (search_split (chain_fuel t) (hheap t) k p c 0 Hc Hf) as [(Hn & -> & _)|(c1 & a & n & c2 & -> & Hk' & Hn & Ha & -> & _)].
  - by rewrite bind_Ret, (proj1 (list_ops_absent k 0 _ Hn)).
  - rewrite bind_Ret. apply chain_app in Hc as (q & (-> & _ & r & Hr & _) & _).
    rewrite (hload_Some _ _ _ Hr Ha), bind_Ret. simpl. rewrite fmap_app, fmap_cons.
    by rewrite (proj1 (list_ops_split k 0 _ n _ Hk' Hn)).
Qed.

(** Writing a value into a node of a chain. *)
Lemma chain_write h p c1 a n c2 v : NoDup (c1 ++ (a, n) :: c2).*1 → chain h p (c1 ++ (a, n) :: c2) →
  ∃ q, h !! a = Some (mkHNode (key n) (value n) q) ∧
    chain (<[a := mkHNode (key n) v q]> h) p (c1 ++ (a, mkNode (key n) v) :: c2).
Proof.
  intros Hnd Hc. rewrite fmap_app, fmap_cons in Hnd. apply NoDup_middle in Hnd as [Hin _]. apply not_elem_of_app in Hin as [H1 H2].
  apply chain_app in Hc as (q & (-> & Ha & r & Hr & Hc) & Hall). exists r. split; [done|].
  apply Hall.
  - intros b Hb. apply lookup_insert_ne. simpl in H1. by intros ->.
  - do 2 (split; [done|]). exists r. split; [apply lookup_insert_eq|].
    apply (chain_frame h); [|done]. intros b Hb. apply lookup_insert_ne. simpl in H2. by intros ->.
Qed.

Lemma heap_insert_spec alloc t cs k v : (∀ h, alloc h ≠ 0 ∧ alloc h ∉ dom h) →
  hrep t cs → length cs = 100%nat → key_ok k →
  ∃ t' cs', heap_insert alloc k v t = Ret t' ∧ hrep t' cs' ∧ length cs' = 100%nat ∧ hsize t' = hsize t ∧
    insert_key k v (as_table t cs) = Ret (as_table t' cs').
Proof.
  intros Hal R Hlen Hk. destruct (bucket_of t cs k R Hlen Hk) as (p & c & E & Hp & Hi & Hc & Hnd & Hf & Hsub & E').
  destruct (hash_Ret k Hk) as [Hh Hb]. set (i := Z.abs k mod 100) in *.
  assert (∀ c', vset (buckets (as_table t cs)) i c'.*2 = Ret ((λ c, c.*2) <$> (<[Z.to_nat i := c']> cs))) as Hset.
  { intros c'. rewrite list_fmap_insert. apply vset_total. simpl. rewrite length_fmap. lia. }
  assert (length (hbuckets t) = length cs) as Hl by (by eapply Forall2_length, R).
  unfold heap_insert, insert_key. rewrite Hh, !bind_Ret, E, E', !bind_Ret.
  destruct (search_split (chain_fuel t) (hheap t) k p c 0 Hc Hf) as [(Hn & -> & _)|(c1 & a & n & c2 & -> & Hk' & Hn & Ha & -> & _)].
  - rewrite bind_Ret, vset_total, bind_Ret by lia. destruct (Hal (hheap t)) as [Ha Hfr]. set (a := alloc (hheap t)) in *.
    eexists. exists (<[Z.to_nat i := (a, mkNode k v) :: c]> cs). split; [done|]. split; [|split; [by rewrite length_insert|]].
    + apply (hrep_replace t cs _ c); try done.
      * do 2 (split; [done|]). exists p. split; [apply lookup_insert_eq|]. apply (chain_frame (hheap t)); [|done].
        intros b Hb'. apply lookup_insert_ne. intros <-. apply Hfr, Hsub. set_solver.
      * rewrite fmap_cons. constructor; [|done]. intros Hin. apply Hfr, Hsub. set_solver.
      * intros b. rewrite fmap_cons. intros [->|?]%elem_of_cons; auto.
      * intros b _ Hb'. apply lookup_insert_ne. intros <-. apply Hb'. rewrite fmap_cons. by left.
      * rewrite dom_insert_L, fmap_cons. simpl. apply set_eq. intros x. specialize (Hsub x).
        destruct (decide (x ∈ (list_to_set c.*1 : gset Z))); set_solver.
    + rewrite (proj1 (proj2 (list_ops_absent k v _ Hn))). split; [done|].
      change (mkNode k v :: c.*2) with (((a, mkNode k v) :: c).*2). by rewrite Hset, bind_Ret.
  - rewrite bind_Ret. destruct (chain_write _ _ _ _ _ _ v Hnd Hc) as (q & Hq & Hc'). rewrite Hk' in *.
    rewrite (hload_Some _ _ _ Hq Ha), bind_Ret. simpl. eexists.
    exists (<[Z.to_nat i := c1 ++ (a, mkNode k v) :: c2]> cs). split; [done|]. split; [|split; [by rewrite length_insert|]].
    + rewrite <-(list_insert_id (hbuckets t) (Z.to_nat i) p) by done. apply (hrep_replace t cs _ _ p _ _ R Hi).
      * done.
      * by rewrite fmap_app, fmap_cons in Hnd |- *.
      * intros b Hb'. left. by rewrite fmap_app, fmap_cons in Hb' |- *.
      * intros b Hb' _. apply lookup_insert_ne. intros <-. apply Hb'. rewrite fmap_app, fmap_cons. set_solver.
      * rewrite dom_insert_L. rewrite !fmap_app, !fmap_cons in *. simpl in *. apply set_eq. intros x. specialize (Hsub x).
        destruct (decide (x ∈ (list_to_set (c1.*1 ++ a :: c2.*1) : gset Z))); set_solver.
    + split; [done|]. rewrite !fmap_app, !fmap_cons. cbn [snd]. destruct (list_ops_split k v c1.*2 n c2.*2 Hk' Hn) as (_ & -> & _).
      specialize (Hset (c1 ++ (a, mkNode k v) :: c2)). rewrite fmap_app, fmap_cons in Hset. cbn [snd as_table buckets] in Hset. by rewrite Hset, bind_Ret.
Qed.

(** Unlinking a node: from the bucket, or from the node before it. *)
Lemma chain_unlink_first h a n c2 : NoDup ((a, n) :: c2).*1 → chain h a ((a, n) :: c2) →
  ∃ q, h !! a = Some (mkHNode (key n) (value n) q) ∧ chain (delete a h) q c2.
Proof.
  intros Hnd (_ & Ha & q & Hq & Hc). rewrite fmap_cons in Hnd. apply list.NoDup_cons in Hnd as [Hin _].
  exists q. split; [done|]. apply (chain_frame h); [|done]. intros b Hb. apply lookup_delete_ne. by intros <-.
Qed.

Lemma chain_unlink h p c0 b m a n c2 : NoDup (c0 ++ (b, m) :: (a, n) :: c2).*1 →
  chain h p (c0 ++ (b, m) :: (a, n) :: c2) →
  ∃ q, h !! a = Some (mkHNode (key n) (value n) q) ∧ h !! b = Some (mkHNode (key m) (value m) a) ∧ b ≠ 0 ∧
    chain (delete a (<[b := mkHNode (key m) (value m) q]> h)) p (c0 ++ (b, m) :: c2).
Proof.
  intros Hnd Hc. rewrite fmap_app, !fmap_cons in Hnd. simpl in Hnd.
  apply NoDup_middle in Hnd as [Hb Hnd]. apply NoDup_middle in Hnd as [Ha _].
  apply not_elem_of_app in Hb as [Hb0 Hb]. apply not_elem_of_cons in Hb as [Hba Hb2].
  apply not_elem_of_app in Ha as [Ha0 Ha2].
  apply chain_app in Hc as (r & (-> & Hb' & q' & Hbq & (-> & Ha' & q & Haq & Hc)) & Hall).
  exists q. split; [done|]. split; [done|]. split; [done|].
  apply Hall.
  - intros x Hx. rewrite lookup_delete_ne, lookup_insert_ne; [done|by intros <-|by intros <-].
  - do 2 (split; [done|]). exists q. split; [by rewrite lookup_delete_ne, lookup_insert_eq by done|].
    apply (chain_frame h); [|done]. intros x Hx.
    rewrite lookup_delete_ne, lookup_insert_ne; [done|by intros <-|by intros <-].
Qed.

Lemma heap_erase_spec t cs k : hrep t cs → length cs = 100%nat → key_ok k →
  ∃ b t' cs', heap_erase k t = Ret (b, t') ∧ hrep t' cs' ∧ length cs' = 100%nat ∧ hsize t' = hsize t ∧
    erase k (as_table t cs) = Ret (b, as_table t' cs').
Proof.
  intros R Hlen Hk. destruct (bucket_of t cs k R Hlen Hk) as (p & c & E & Hp & Hi & Hc & Hnd & Hf & Hsub & E').
  destruct (hash_Ret k Hk) as [Hh Hb]. set (i := Z.abs k mod 100) in *.
  assert (∀ c', vset (buckets (as_table t cs)) i c'.*2 = Ret ((λ c, c.*2) <$> (<[Z.to_nat i := c']> cs))) as Hset.
  { intros c'. rewrite list_fmap_insert. apply vset_total. simpl. rewrite length_fmap. lia. }
  assert (length (hbuckets t) = length cs) as Hl by (by eapply Forall2_length, R).
  unfold heap_erase, erase. rewrite Hh, !bind_Ret, E, E', !bind_Ret.
  destruct (search_split (chain_fuel t) (hheap t) k p c 0 Hc Hf) as [(Hn & _ & ->)|(c1 & a & n & c2 & -> & Hk' & Hn & Ha & _ & ->)].
  { rewrite bind_Ret, (proj2 (proj2 (list_ops_absent k 0 _ Hn))). by exists false, t, cs. }
  rewrite bind_Ret, fmap_app, fmap_cons. cbn [snd]. destruct (list_ops_split k 0 c1.*2 n c2.*2 Hk' Hn) as (_ & _ & ->).
  rewrite <-fmap_app, Hset, bind_Ret. destruct (exists_last_or_nil c1) as [->|(c0 & [b m] & ->)]; simpl app in *.
  - assert (p = a) as -> by (by destruct Hc). destruct (chain_unlink_first _ _ _ _ Hnd Hc) as (q & Hq & Hc').
    simpl. rewrite (hload_Some _ _ _ Hq Ha), bind_Ret. simpl. rewrite vset_total, bind_Ret by lia.
    exists true. eexists. exists (<[Z.to_nat i := c2]> cs). split; [done|]. split; [|split; [by rewrite length_insert|done]].
    rewrite fmap_cons in Hnd. apply list.NoDup_cons in Hnd as [Hin Hnd].
    apply (hrep_replace t cs _ _ q _ _ R Hi); try done.
    + intros x Hx. left. rewrite fmap_cons. by right.
    + intros x Hx _. apply lookup_delete_ne. intros <-. apply Hx. rewrite fmap_cons. by left.
    + rewrite dom_delete_L, fmap_cons in *. simpl in *. apply set_eq. intros x. specialize (Hsub x).
      destruct (decide (x ∈ (list_to_set c2.*1 : gset Z))); set_solver.
  - rewrite <-app_assoc in Hc, Hnd, Hi, Hsub |- *. simpl app in *.
    destruct (chain_unlink _ _ _ _ _ _ _ _ Hnd Hc) as (q & Hq & Hm & Hb0 & Hc').
    assert (list.last (c0 ++ [(b, m)]).*1 = Some b) as -> by (rewrite fmap_app; apply last_snoc).
    simpl default. rewrite (hload_Some _ _ _ Hq Ha), bind_Ret.
    rewrite (proj2 (Z.eqb_neq b 0) Hb0), (hload_Some _ _ _ Hm Hb0), bind_Ret. simpl.
    exists true. eexists. exists (<[Z.to_nat i := c0 ++ (b, m) :: c2]> cs). split; [done|].
    split; [|split; [by rewrite length_insert|done]].
    rewrite fmap_app, !fmap_cons in Hnd. rewrite <-(list_insert_id (hbuckets t) (Z.to_nat i) p) by done.
    apply (hrep_replace t cs _ _ p _ _ R Hi); try done; rewrite ?fmap_app, ?fmap_cons; simpl in *.
    + apply NoDup_middle in Hnd as [H1 H2]. apply NoDup_middle in H2 as [H2 H3]. apply NoDup_middle. split; [set_solver|done].
    + intros x Hx. left. set_solver.
    + intros x Hx _. rewrite lookup_delete_ne, lookup_insert_ne; [done|set_solver|set_solver].
    + rewrite dom_delete_L, dom_insert_L. rewrite fmap_app, !fmap_cons in Hsub. simpl in Hsub.
      apply NoDup_middle in Hnd as [H1 H2]. apply NoDup_middle in H2 as [H2 H3].
      apply set_eq. intros x. specialize (Hsub x).
      destruct (decide (x ∈ (list_to_set (c0.*1 ++ b :: c2.*1) : gset Z))); set_solver.
Qed.

(** ** The destructor *)

Lemma delete_chain_spec fuel h p c : chain h p c → NoDup c.*1 → (length c < fuel)%nat →
  ∃ h', delete_chain fuel h p = Ret h' ∧ dom h' = dom h ∖ list_to_set c.*1 ∧
    ∀ a, a ∉ c.*1 → h' !! a = h !! a.
Proof.
  revert fuel h p. induction c as [|[a n] c IH]; intros [|fuel] h p Hc Hnd Hf; try (simpl in Hf; lia).
  { simpl in Hc. subst p. exists h. split; [done|]. split; [set_solver|done]. }
  pose proof Hc as (-> & Ha & q0 & Hq0 & _). destruct (chain_unlink_first _ _ _ _ Hnd Hc) as (q & Hq & Hc').
  rewrite fmap_cons in Hnd. apply list.NoDup_cons in Hnd as [Hin Hnd]. simpl.
  rewrite (proj2 (Z.eqb_neq a 0) Ha), (hload_Some _ _ _ Hq Ha), bind_Ret. simpl.
  destruct (IH fuel _ _ Hc' Hnd) as (h' & -> & Hd & Hfr); [simpl in Hf; lia|]. exists h'. split; [done|]. split.
  - rewrite Hd, dom_delete_L. set_solver.
  - intros b Hb. rewrite Hfr by set_solver. apply lookup_delete_ne. set_solver.
Qed.

Lemma delete_buckets_spec t bs cs pre h : hbuckets t = pre ++ bs → Forall2 (chain h) bs cs →
  NoDup (addrs cs) → dom h = list_to_set (addrs cs) → Forall (λ c, length c < chain_fuel t)%nat cs →
  delete_buckets (length bs) (Z.of_nat (length pre)) t h = Ret ∅.
Proof.
  revert cs pre h. induction bs as [|p bs IH]; intros cs pre h Hb Hch Hnd Hdom Hf; cbn [length delete_buckets].
  { inversion Hch; subst. simpl in Hdom. f_equal. by apply dom_empty_inv_L. }
  inversion Hch as [|? c ? cs' Hc Hch' E1 E2]; subst. apply list.Forall_cons in Hf as [Hfc Hf].
  unfold addrs in Hnd, Hdom. rewrite bind_cons in Hnd, Hdom. apply list.NoDup_app in Hnd as (Hndc & Hdisj & Hnd).
  assert (vget (hbuckets t) (Z.of_nat (length pre)) = Ret p) as ->.
  { apply vget_Ret. split; [lia|]. by rewrite Hb, Nat2Z.id, lookup_app_r, Nat.sub_diag by lia. }
  rewrite bind_Ret. destruct (delete_chain_spec _ _ _ _ Hc Hndc Hfc) as (h' & -> & Hd & Hfr). rewrite bind_Ret.
  replace (Z.of_nat (length pre) + 1) with (Z.of_nat (length (pre ++ [p]))) by (rewrite length_app; simpl; lia).
  apply (IH cs'); [by rewrite <-app_assoc| |done| |done].
  - apply Forall2_same_length_lookup_2; [by eapply Forall2_length|]. intros j q d Hq Hdj.
    apply (chain_frame h); [|by eapply Forall2_lookup_lr]. intros a Ha. apply Hfr. intros Hin.
    apply (Hdisj a Hin). apply list_elem_of_bind. exists d. split; [done|]. by eapply list_elem_of_lookup_2.
  - rewrite Hd, Hdom, list_to_set_app_L. apply set_eq. intros x. specialize (Hdisj x). unfold addrs. set_solver.
Qed.

Lemma destroy_spec t cs : hrep t cs → hsize t = Z.of_nat (length cs) → destroy_CustomHashTable t = Ret ∅.
Proof.
  intros [Hch Hnd Hdom] Hs. unfold destroy_CustomHashTable. rewrite Hs, Nat2Z.id.
  assert (length cs = length (hbuckets t)) as -> by (symmetry; by eapply Forall2_length).
  apply (delete_buckets_spec t (hbuckets t) cs []); try done.
  apply Forall_lookup. intros i c Hc. destruct (addrs_split cs i c Hc) as (rest & H1 & _).
  unfold chain_fuel. rewrite <-size_dom, Hdom, size_list_to_set by done. rewrite H1, length_app, length_fmap. lia.
Qed.

(** ** The table in memory is a table *)

Definition heap_wf (t : HeapTable) : Prop :=
  ∃ cs, hrep t cs ∧ length cs = 100%nat ∧ hsize t = 100 ∧ table_wf (as_table t cs).

Definition heap_model (t : HeapTable) (k : Z) : option Z :=
  match heap_find k t with Ret r => r | Err _ => None end.

Lemma heap_model_table t cs k : hrep t cs → length cs = 100%nat → table_wf (as_table t cs) → key_ok k →
  heap_model t k = table_model (as_table t cs) k.
Proof.
  intros R Hl Hwf Hk. unfold heap_model. rewrite (heap_find_spec t cs k R Hl Hk).
  pose proof (t_find_spec (as_table t cs) k Hwf Hk) as E. simpl in E. by rewrite E.
Qed.

Lemma heap_model_bad t k : ¬ key_ok k → heap_model t k = None.
Proof.
  intros Hk. unfold heap_model, heap_find, hash, int. destruct (int_ok (Z.abs k)) eqn:E; [|done].
  destruct Hk. unfold key_ok, int_ok, INT_MIN, INT_MAX in *. rewrite andb_true_iff, !Z.leb_le in E. lia.
Qed.

#[export] Instance key_ok_dec k : Decision (key_ok k).
Proof. unfold key_ok. apply _. Defined.

(** An operation that agrees with the one on lists changes the model as it does. *)
Lemma heap_model_step t cs t' cs' k r : hrep t cs → length cs = 100%nat → table_wf (as_table t cs) →
  hrep t' cs' → length cs' = 100%nat → table_wf (as_table t' cs') → key_ok k →
  (∀ k', table_model (as_table t' cs') k' = if decide (k' = k) then r else table_model (as_table t cs) k') →
  ∀ k', heap_model t' k' = if decide (k' = k) then r else heap_model t k'.
Proof.
  intros R Hl Hw R' Hl' Hw' Hk Hm k'. destruct (decide (key_ok k')) as [Hk'|Hk'].
  - rewrite (heap_model_table t' cs'), (heap_model_table t cs) by done. apply Hm.
  - rewrite !heap_model_bad by done. by case_decide; subst.
Qed.

Section instance.
Context (alloc : cells → Z) (Hal : ∀ h, alloc h ≠ 0 ∧ alloc h ∉ dom h).

Lemma new_heap_wf : heap_wf new_HeapTable ∧ ∀ k, heap_model new_HeapTable k = None.
Proof.
  assert (hrep new_HeapTable (replicate 100 [])) as R.
  { split; simpl; [|by vm_compute; constructor|by vm_compute]. by repeat constructor. }
  assert (table_wf (as_table new_HeapTable (replicate 100 []))) as Hw by (split; [done|by repeat constructor]).
  split; [by exists (replicate 100 [])|]. intros k. destruct (decide (key_ok k)) as [Hk|Hk]; [|by apply heap_model_bad].
  rewrite (heap_model_table _ _ k R eq_refl Hw Hk). exact (proj2 (t_new_spec (H := CustomHashTable)) k).
Qed.

#[export] Program Instance heap_IntTable : IntTable HeapTable := {|
  t_new := new_HeapTable;
  t_insert := heap_insert alloc;
  t_find := heap_find;
  t_erase := heap_erase;
  t_model := heap_model;
  t_wf := heap_wf;
|}.
Next Obligation. exact new_heap_wf. Qed.
Next Obligation.
  intros t k (cs & R & Hl & _ & Hw) Hk. rewrite (heap_model_table t cs k R Hl Hw Hk), (heap_find_spec t cs k R Hl Hk).
  exact (t_find_spec (as_table t cs) k Hw Hk).
Qed.
Next Obligation.
  intros t k v (cs & R & Hl & Hs & Hw) Hk.
  destruct (heap_insert_spec alloc t cs k v Hal R Hl Hk) as (t' & cs' & E & R' & Hl' & Hs' & E').
  destruct (@t_insert_spec CustomHashTable table_IntTable (as_table t cs) k v Hw Hk) as (T' & ET & HwT & Hm). simpl in ET, HwT, Hm. rewrite E' in ET. injection ET as <-.
  exists t'. split; [done|]. split; [exists cs'; split_and!; try done; congruence|].
  by apply (heap_model_step t cs t' cs').
Qed.
Next Obligation.
  intros t k (cs & R & Hl & Hs & Hw) Hk.
  destruct (heap_erase_spec t cs k R Hl Hk) as (b & t' & cs' & E & R' & Hl' & Hs' & E').
  destruct (@t_erase_spec CustomHashTable table_IntTable (as_table t cs) k Hw Hk) as (T' & ET & HwT & Hm). simpl in ET, HwT, Hm. rewrite E' in ET. injection ET as -> <-.
  exists t'. split; [rewrite (heap_model_table t cs k R Hl Hw Hk); done|].
  split; [exists cs'; split_and!; try done; congruence|]. by apply (heap_model_step t cs t' cs').
Qed.
End instance.

(** C16: the randomized set over the table in memory, for any allocator that gives
    unused addresses: every run of insertions and removals answers and leaves
    what a mathematical set does, no operation dereferences a null or deleted
    node, and the destructor of the table then frees every node exactly once:
    nothing is left allocated. *)
Theorem heap_set_correct alloc (Hal : ∀ h, alloc h ≠ 0 ∧ alloc h ∉ dom h) os :
  Forall (key_ok ∘ op_val) os → Z.of_nat (length os) < 2 ^ 31 →
  let _ := heap_IntTable alloc Hal in
  ∃ s : RandomizedSet (H := HeapTable),
    run os new_RandomizedSet = Ret (fst (spec_run os ∅), s) ∧
    NoDup (vals s) ∧ list_to_set (vals s) = snd (spec_run os ∅) ∧
    destroy_CustomHashTable (indexMap s) = Ret ∅.
Proof.
  intros Hks Hlen inst.
  destruct (run_spec (H := HeapTable) os new_RandomizedSet ∅ new_wf Hks) as (s & E & Hwf & HX & _);
    [simpl; lia|set_solver|].
  exists s. split; [done|]. split; [by apply wf_NoDup|]. split; [set_solver|].
  destruct (wf_table _ Hwf) as (cs & R & Hl & Hs & _). apply (destroy_spec _ cs R). by rewrite Hl.
Qed.

(** An allocator: some address that is not in use. *)
Definition fresh_cell (h : cells) : Z := fresh ({[0]} ∪ dom h).

Lemma fresh_cell_ok h : fresh_cell h ≠ 0 ∧ fresh_cell h ∉ dom h.
Proof. pose proof (is_fresh (C := gset Z) ({[0]} ∪ dom h)) as Hf. unfold fresh_cell. set_solver. Qed.

Lemma heap_set_correct_witness :
  let _ := heap_IntTable fresh_cell fresh_cell_ok in
  ∃ s : RandomizedSet (H := HeapTable),
    run demo_ops new_RandomizedSet = Ret ([true; true; true; false; true; false], s) ∧
    destroy_CustomHashTable (indexMap s) = Ret ∅.
Proof.
  intros inst. destruct (heap_set_correct fresh_cell fresh_cell_ok demo_ops) as (s & E & _ & _ & Hd).
  - repeat constructor; vm_compute; try discriminate.
  - reflexivity.
  - exists s. split; [etransitivity; [exact E|reflexivity]|exact Hd].
Defined.
