(* ===== verification/ContainerPrograms.v ===== *)
(** * The programs around the shared containers

    threadPool/threadPoolStack.cpp and threadSafeQueue.cpp: [main] starts ten
    threads that push one number each, joins them, and pops until the container
    answers -1.  Both programs are one step relation over the class [Container],
    which SharedContainers' stack and queue implement.  The third program,
    lockFreeStack.cpp, has the same [main]; its pushes take several steps and are
    in LockFreeProgram. *)

From stdpp Require Import base list gmap sets numbers relations.
From Stdlib Require Import ZArith Lia.
From S2P Require Import Prelude LockFreeStack SharedContainers.

(** What [main] needs of a container of numbers. *)
Class Container (C : Type) := {
  c_new : C;
  c_push : Z → C → outcome C;
  c_pop : C → outcome (Z * C);
  c_rep : C → list Z → Prop;
  c_cells : C → gmap Z Node;                    (* the nodes in memory *)
  c_new_ok : c_rep c_new [];
  c_push_ok v c vs : c_rep c vs → ∃ c' vs', c_push v c = Ret c' ∧ c_rep c' vs' ∧ vs' ≡ₚ v :: vs;
  c_pop_ok c vs : c_rep c vs → ∃ c', c_pop c = Ret (default (-1) (hd_error vs), c') ∧ c_rep c' (tail vs);
  c_cells_ok c : c_rep c [] → c_cells c = ∅;
}.

Section instances.
Context (alloc : gmap Z Node → Z) (Hal : fresh_addresses alloc).

Lemma empty_cells (h : gmap Z Node) p A : chain h p A [] → dom h = list_to_set A → h = ∅.
Proof. destruct A; simpl; [|done]. intros _ Hd. by apply dom_empty_inv_L. Qed.

#[export, refine] Instance stack_Container : Container ThreadSafeStack := {|
  c_new := new_ThreadSafeStack; c_push v s := stack_push (alloc (s_heap s)) v s;
  c_pop := stack_pop; c_rep := stack_rep; c_cells := s_heap |}.
Proof.
  - exists []. split_and!; [constructor|done|done].
  - intros v s vs R. destruct (Hal (s_heap s)) as [Ha Hn].
    destruct (stack_push_spec s vs _ v R Ha Hn) as (s' & E & R'). by exists s', (v :: vs).
  - exact stack_pop_spec.
  - intros s (A & _ & Hc & Hd). by eapply empty_cells.
Defined.

#[export, refine] Instance queue_Container : Container ThreadSafeQueue := {|
  c_new := new_ThreadSafeQueue; c_push v q := queue_push (alloc (q_heap q)) v q;
  c_pop := queue_pop; c_rep := queue_rep; c_cells := q_heap |}.
Proof.
  - exists []. split_and!; [constructor|done|done|done].
  - intros v q vs R. destruct (Hal (q_heap q)) as [Ha Hn].
    destruct (queue_push_spec q vs _ v R Ha Hn) as (q' & E & R'). exists q', (vs ++ [v]).
    split; [done|]. split; [done|]. by rewrite Permutation_app_comm.
  - exact queue_pop_spec.
  - intros q (A & _ & Hc & Hd & _). by eapply empty_cells.
Defined.
End instances.

(** ** The program *)

Definition THREADS : nat := 10.

(** A thread of [pushToStack] or [pushToQueue]. *)
Inductive pusher := Pushing (v : Z) | Pushed.

Inductive cmain :=
  | Spawn                (* the loop that starts the threads *)
  | Join (i : nat)       (* waiting for thread [i] *)
  | Drain                (* [while ((popValue = pop()) != -1)] *)
  | Done.

Record cprogram (C : Type) := mkCP {
  container : C;
  pushers : list pusher;
  cp_main : cmain;
  popped : list Z;       (* what was printed *)
}.
Arguments mkCP {C}.
Arguments container {C}.
Arguments pushers {C}.
Arguments cp_main {C}.
Arguments popped {C}.

Section program.
Context `{Container C}.

Inductive cstep : cprogram C → cprogram C → Prop :=
  | c_spawn c ps out : (length ps < THREADS)%nat →
      cstep (mkCP c ps Spawn out) (mkCP c (ps ++ [Pushing (Z.of_nat (length ps))]) Spawn out)
  | c_spawned c ps out : (THREADS ≤ length ps)%nat → cstep (mkCP c ps Spawn out) (mkCP c ps (Join 0) out)
  | c_pushes c ps m out i v c' : ps !! i = Some (Pushing v) → c_push v c = Ret c' →
      cstep (mkCP c ps m out) (mkCP c' (<[i := Pushed]> ps) m out)
  | c_join c ps i out : ps !! i = Some Pushed → cstep (mkCP c ps (Join i) out) (mkCP c ps (Join (S i)) out)
  | c_joined c ps i out : (length ps ≤ i)%nat → cstep (mkCP c ps (Join i) out) (mkCP c ps Drain out)
  | c_prints c ps out v c' : c_pop c = Ret (v, c') → v ≠ -1 →
      cstep (mkCP c ps Drain out) (mkCP c' ps Drain (out ++ [v]))
  | c_ends c ps out c' : c_pop c = Ret (-1, c') →
      cstep (mkCP c ps Drain out) (mkCP c' ps Done out).

Definition cstart : cprogram C := mkCP c_new [] Spawn [].

Definition to_push (p : pusher) : list Z := match p with Pushing v => [v] | Pushed => [] end.

(** The numbers of the threads started so far are printed, stored, or still to
    be pushed. *)
Record cinv (s : cprogram C) (vs : list Z) : Prop := {
  ci_rep : c_rep (container s) vs;
  ci_len : (length (pushers s) ≤ THREADS)%nat;
  ci_all : popped s ++ vs ++ (pushers s ≫= to_push) ≡ₚ Z.of_nat <$> seq 0 (length (pushers s));
  ci_main : match cp_main s with
            | Spawn => popped s = []
            | Join i => length (pushers s) = THREADS ∧ popped s = [] ∧
                        (i ≤ THREADS)%nat ∧ Forall (λ p, p = Pushed) (take i (pushers s))
            | Drain => length (pushers s) = THREADS ∧ Forall (λ p, p = Pushed) (pushers s)
            | Done => length (pushers s) = THREADS ∧ Forall (λ p, p = Pushed) (pushers s) ∧ vs = []
            end;
}.

Lemma all_pushed ps : Forall (λ p, p = Pushed) ps → ps ≫= to_push = [].
Proof. induction 1 as [|p ps -> _ IH]; [done|]. by rewrite bind_cons, IH. Qed.

Lemma cinv_nonneg s vs v : cinv s vs → v ∈ vs → 0 ≤ v.
Proof.
  intros I Hv. assert (v ∈ popped s ++ vs ++ (pushers s ≫= to_push)) as Hin by set_solver.
  rewrite (ci_all _ _ I) in Hin. apply list_elem_of_fmap in Hin as (n & -> & _). lia.
Qed.

Lemma pushers_insert ps i v : ps !! i = Some (Pushing v) →
  ps ≫= to_push ≡ₚ v :: (<[i := Pushed]> ps ≫= to_push).
Proof. intros Hi. symmetry. exact (bind_insert to_push ps i _ Pushed Hi). Qed.

Lemma no_pusher_left ps i v : Forall (λ p, p = Pushed) ps → ps !! i ≠ Some (Pushing v).
Proof. intros HF Hi. eapply Forall_lookup in HF; [|exact Hi]. done. Qed.

Lemma take_insert_pushed ps i j v : ps !! i = Some (Pushing v) → Forall (λ p, p = Pushed) (take j ps) →
  take j (<[i := Pushed]> ps) = take j ps.
Proof.
  intros Hi HF. rewrite take_insert. destruct (decide (i < j)%nat) as [Hlt|]; [|done].
  exfalso. eapply no_pusher_left; [exact HF|]. by rewrite lookup_take_lt.
Qed.

Lemma cstep_inv s s' vs : cinv s vs → cstep s s' → ∃ vs', cinv s' vs'.
Proof.
  intros [R Hlen Hall Hm]. inversion 1 as [c ps out Hl|c ps out Hl|c ps m out i v c' Hi Hp|c ps i out Hi|
    c ps i out Hi|c ps out v c' Hp Hv|c ps out c' Hp]; subst; simpl in *.
  - exists vs. split; simpl; rewrite ?length_app; simpl; [done|lia| |done].
    rewrite bind_app, seq_app, fmap_app, <-Hall. simpl. by rewrite !app_assoc.
  - exists vs. split; simpl; try done. split_and!; [lia|done|lia|constructor].
  - destruct (c_push_ok v c vs R) as (c1 & vs' & E & R' & Hvs). rewrite E in Hp. injection Hp as ->.
    exists vs'. split; simpl; rewrite ?length_insert; [done|done| |].
    + rewrite <-Hall, Hvs, (pushers_insert ps i v Hi). f_equiv. simpl. by rewrite Permutation_middle.
    + destruct m as [|j| |]; [done| | |].
      * destruct Hm as (? & ? & ? & HF). split_and!; try done. by rewrite (take_insert_pushed _ _ _ v).
      * destruct Hm as [? HF]. by destruct (no_pusher_left ps i v HF).
      * destruct Hm as (? & HF & _). by destruct (no_pusher_left ps i v HF).
  - exists vs. destruct Hm as (? & ? & ? & HF). apply lookup_lt_Some in Hi as Hlt.
    split; simpl; try done. split_and!; [done|done|lia|].
    rewrite (take_S_r _ _ _ Hi). apply Forall_app. split; [done|by repeat constructor].
  - exists vs. destruct Hm as (? & ? & ? & HF). split; simpl; try done. split; [done|].
    by rewrite take_ge in HF.
  - destruct (c_pop_ok c vs R) as (c1 & E & R'). rewrite E in Hp. injection Hp as Hp ->.
    destruct vs as [|x vs]; simpl in *; [by subst|subst x]. exists vs. split; simpl; try done.
    rewrite <-Hall. by rewrite <-app_assoc.
  - destruct (c_pop_ok c vs R) as (c1 & E & R'). rewrite E in Hp. injection Hp as Hp ->.
    destruct vs as [|x vs]; simpl in *.
    + exists []. destruct Hm. by split.
    + subst x. assert (0 ≤ -1); [|lia]. eapply (cinv_nonneg (mkCP c ps Drain out)); [by split|]. set_solver.
Qed.

Lemma cstep_reachable s : rtc cstep cstart s → ∃ vs, cinv s vs.
Proof.
  intros Hr. assert (∃ vs, cinv cstart vs) as H0.
  { exists []. split; simpl; [apply c_new_ok|unfold THREADS; lia|done|done]. }
  revert H0. induction Hr as [|s1 s2 s3 Hs _ IH]; [done|]. intros [vs I]. apply IH. by eapply cstep_inv.
Qed.

(** The program is never stuck. *)
Lemma cstep_progress s vs : cinv s vs → cp_main s = Done ∨ ∃ s', cstep s s'.
Proof.
  intros [R Hlen Hall Hm]. destruct s as [c ps [|i| |] out]; simpl in *; [| | |by left]; right.
  - destruct (decide (length ps < THREADS)%nat); eexists; [by apply c_spawn|apply c_spawned; lia].
  - destruct (ps !! i) as [[v|]|] eqn:E.
    + destruct (c_push_ok v c vs R) as (c' & vs' & Ep & _). eexists. by eapply c_pushes.
    + eexists. by apply c_join.
    + eexists. apply c_joined. by apply lookup_ge_None.
  - destruct (c_pop_ok c vs R) as (c' & Ep & _). destruct (decide (default (-1) (hd_error vs) = -1)) as [Ed|Ed].
    + rewrite Ed in Ep. eexists. by eapply c_ends.
    + eexists. by eapply c_prints.
Qed.

Definition main_rounds (m : cmain) (started : nat) : nat :=
  match m with
  | Spawn => (THREADS - started) + 1 + THREADS + 2
  | Join i => (THREADS - i) + 2
  | Drain => 1
  | Done => 0
  end.

(** Steps still to come; every number costs a push and a pop. *)
Definition csteps_left (s : cprogram C) (vs : list Z) : nat :=
  2 * length (pushers s ≫= to_push) + length vs + 2 * (THREADS - length (pushers s)) + main_rounds (cp_main s) (length (pushers s)).

Lemma cstep_decreases s s' vs : cinv s vs → cstep s s' →
  ∃ vs', cinv s' vs' ∧ (csteps_left s' vs' < csteps_left s vs)%nat.
Proof.
  intros I Hs. destruct (cstep_inv s s' vs I Hs) as [vs' I']. exists vs'. split; [done|].
  pose proof (Permutation_length (ci_all _ _ I)) as H1. pose proof (Permutation_length (ci_all _ _ I')) as H2.
  rewrite !length_app, length_fmap, length_seq in H1. rewrite !length_app, length_fmap, length_seq in H2.
  pose proof (ci_main _ _ I) as Hm. unfold csteps_left.
  destruct Hs as [c ps out Hl|c ps out Hl|c ps m out i v c' Hi Hp|c ps i out Hi|c ps i out Hi|c ps out v c' Hp Hv|c ps out c' Hp];
    simpl in *; rewrite ?bind_app, ?length_app, ?length_insert in *; unfold THREADS in *; simpl in *; try lia.
  - pose proof (Permutation_length (pushers_insert ps i v Hi)) as H3. simpl in H3. lia.
  - destruct Hm as (? & ? & ? & ?). apply lookup_lt_Some in Hi. lia.
Qed.

Lemma cprogram_bound n s s' vs : cinv s vs → nsteps cstep n s s' → (n ≤ csteps_left s vs)%nat.
Proof.
  intros I Hn. revert vs I. induction Hn as [|n s1 s2 s3 Hs Hn IH]; intros vs I; [lia|].
  destruct (cstep_decreases _ _ _ I Hs) as (vs' & I' & Hlt). specialize (IH vs' I'). lia.
Qed.
End program.

(** The two programs as they start. *)
Definition stack_main alloc Hal : cprogram ThreadSafeStack := cstart (H := stack_Container alloc Hal).
Definition queue_main alloc Hal : cprogram ThreadSafeQueue := cstart (H := queue_Container alloc Hal).

(** The programs around the mutex-protected stack and queue: in every
    interleaving of the ten pushing threads and [main], no operation faults, the
    program ends after at most 43 steps, and then [main] has returned, the
    numbers printed are 0 to 9, each once, in some order, and no node is left in
    memory. *)
Theorem container_program_correct `{Container C} s :
  rtc cstep cstart s →
  (∀ n s', nsteps cstep n cstart s' → (n ≤ 43)%nat) ∧
  (cp_main s = Done ∨ ∃ s', cstep s s') ∧
  (cp_main s = Done → popped s ≡ₚ Z.of_nat <$> seq 0 10 ∧ c_cells (container s) = ∅).
Proof.
  intros Hr. destruct (cstep_reachable s Hr) as [vs I]. split; [|split].
  - intros n s' Hn. destruct (cstep_reachable cstart (rtc_refl _ _)) as [vs0 I0].
    pose proof (cprogram_bound n _ _ vs0 I0 Hn) as Hb. pose proof (Permutation_length (ci_all _ _ I0)) as H0.
    simpl in H0. rewrite app_nil_r in H0. unfold csteps_left in Hb. simpl in Hb. lia.
  - by eapply cstep_progress.
  - intros Hd. pose proof (ci_main _ _ I) as Hm. rewrite Hd in Hm. destruct Hm as (Hlen & HF & ->).
    pose proof (ci_all _ _ I) as Ha. rewrite (all_pushed _ HF), !app_nil_r, Hlen in Ha.
    split; [done|]. apply c_cells_ok, (ci_rep _ _ I).
Qed.

(** Every state has a run to the end. *)
Lemma cprogram_ends `{Container C} s vs : cinv s vs → ∃ s', rtc cstep s s' ∧ cp_main s' = Done.
Proof.
  remember (csteps_left s vs) as n eqn:Hn. revert s vs Hn.
  induction (lt_wf n) as [n _ IH]; intros s vs -> I.
  destruct (cstep_progress s vs I) as [Hd|[s1 Hs]]; [by exists s|].
  destruct (cstep_decreases s s1 vs I Hs) as (vs1 & I1 & Hlt).
  destruct (IH _ Hlt s1 vs1 eq_refl I1) as (s' & Hr & Hd). exists s'. split; [by eapply rtc_l|done].
Qed.

Lemma container_program_correct_witness :
  ∃ s : cprogram ThreadSafeQueue, popped s ≡ₚ [0; 1; 2; 3; 4; 5; 6; 7; 8; 9] ∧ q_heap (container s) = ∅.
Proof.
  pose (Q := queue_Container demo_alloc demo_alloc_fresh).
  destruct (cstep_reachable cstart (rtc_refl _ _)) as [vs0 I0].
  destruct (cprogram_ends cstart vs0 I0) as (s & Hr & Hd). exists s.
  exact (proj2 (proj2 (container_program_correct s Hr)) Hd).
Defined.
