(* ===== verification/LockFreeProgram.v ===== *)
(** * The program around the lock-free stack

    [main] of threadPool/lockFreeStack.cpp starts ten threads that push one
    number each, joins them, and pops until the stack answers -1.  The steps of a
    push and of a pop are those of LockFreeStack, here each bound to its thread:
    threads 0 to 9 push, thread 10 is [main].  A weak exchange may fail although
    the head is the expected one; such a failure is a step of [lspurious], all
    others are steps of [lstep]. *)

From stdpp Require Import base list gmap sets numbers relations.
From Stdlib Require Import ZArith Lia.
From S2P Require Import Prelude LockFreeStack.

Definition PUSHERS : nat := 10.
Definition MAIN : nat := 10.

Inductive task := TNew (v : Z) | TRun (v : Z) | TDone.

Inductive lmain := LSpawn | LJoin (i : nat) | LDrain | LDone.

Record lprogram := mkLP { lsys : system; ltasks : list task; lpc : lmain }.

(** The [while] of [main]: -1 ends it, whether the stack was empty or held -1. *)
Definition after_pop (v : Z) : lmain := if v =? -1 then LDone else LDrain.
(** Where [main] is when the loop of [pop] has loaded [oldHead]. *)
Definition after_load (oldHead : Z) : lmain := if oldHead =? 0 then after_pop (-1) else LDrain.

Definition cas_done (s : system) (i : nat) (a v : Z) : system :=
  mkSystem (heap s) a (<[i := Idle]> (threads s)) (v :: stack s) (taken s) (returned s).
Definition pop_done (s : system) (o d : Z) : system :=
  mkSystem (heap s) d (<[MAIN := PopWon o]> (threads s)) (tail (stack s)) (taken s ++ take 1 (stack s)) (returned s).
Definition node_freed (s : system) (o v : Z) : system :=
  mkSystem (delete o (heap s)) (head s) (<[MAIN := Idle]> (threads s)) (stack s) (taken s) (returned s ++ [v]).

Inductive lstep : lprogram → lprogram → Prop :=
  | l_spawn s ts : (length ts < PUSHERS)%nat →
      lstep (mkLP s ts LSpawn) (mkLP s (ts ++ [TNew (Z.of_nat (length ts))]) LSpawn)
  | l_spawned s ts : (PUSHERS ≤ length ts)%nat → lstep (mkLP s ts LSpawn) (mkLP s ts (LJoin 0))
  | l_begin s ts m i v a : ts !! i = Some (TNew v) → threads s !! i = Some Idle → a ≠ 0 → heap s !! a = None →
      lstep (mkLP s ts m)
            (mkLP (with_heap (goto s i (PushLoad a)) (<[a := mkNode v 0]> (heap s))) (<[i := TRun v]> ts) m)
  | l_load s ts m i a n : (i < PUSHERS)%nat → threads s !! i = Some (PushLoad a) → heap s !! a = Some n →
      lstep (mkLP s ts m) (mkLP (with_heap (goto s i (PushCas a)) (<[a := mkNode (value n) (head s)]> (heap s))) ts m)
  | l_cas s ts m i a n : (i < PUSHERS)%nat → threads s !! i = Some (PushCas a) → heap s !! a = Some n → next n = head s →
      lstep (mkLP s ts m) (mkLP (cas_done s i a (value n)) (<[i := TDone]> ts) m)
  | l_retry s ts m i a n : (i < PUSHERS)%nat → threads s !! i = Some (PushCas a) → heap s !! a = Some n → next n ≠ head s →
      lstep (mkLP s ts m) (mkLP (with_heap s (<[a := mkNode (value n) (head s)]> (heap s))) ts m)
  | l_join s ts i : ts !! i = Some TDone → lstep (mkLP s ts (LJoin i)) (mkLP s ts (LJoin (S i)))
  | l_joined s ts i : (length ts ≤ i)%nat → lstep (mkLP s ts (LJoin i)) (mkLP s ts LDrain)
  | l_pop s ts : threads s !! MAIN = Some Idle → lstep (mkLP s ts LDrain) (mkLP (goto s MAIN PopLoad) ts LDrain)
  | l_pop_load s ts : threads s !! MAIN = Some PopLoad →
      lstep (mkLP s ts LDrain) (mkLP (goto s MAIN (pop_retry (head s))) ts (after_load (head s)))
  | l_pop_next s ts o n : threads s !! MAIN = Some (PopNext o) → heap s !! o = Some n →
      lstep (mkLP s ts LDrain) (mkLP (goto s MAIN (PopCas o (next n))) ts LDrain)
  | l_pop_next_fault s ts o : threads s !! MAIN = Some (PopNext o) → heap s !! o = None →
      lstep (mkLP s ts LDrain) (mkLP (goto s MAIN Fault) ts LDrain)
  | l_pop_cas s ts o d : threads s !! MAIN = Some (PopCas o d) → head s = o →
      lstep (mkLP s ts LDrain) (mkLP (pop_done s o d) ts LDrain)
  | l_pop_fail s ts o d : threads s !! MAIN = Some (PopCas o d) → head s ≠ o →
      lstep (mkLP s ts LDrain) (mkLP (goto s MAIN (pop_retry (head s))) ts (after_load (head s)))
  | l_pop_won s ts o n : threads s !! MAIN = Some (PopWon o) → heap s !! o = Some n →
      lstep (mkLP s ts LDrain) (mkLP (node_freed s o (value n)) ts (after_pop (value n)))
  | l_pop_won_fault s ts o : threads s !! MAIN = Some (PopWon o) → heap s !! o = None →
      lstep (mkLP s ts LDrain) (mkLP (goto s MAIN Fault) ts LDrain).

(** The exchange fails although it found the expected head. *)
Inductive lspurious : lprogram → lprogram → Prop :=
  | l_spurious_push s ts m i a n : (i < PUSHERS)%nat → threads s !! i = Some (PushCas a) → heap s !! a = Some n →
      next n = head s →
      lspurious (mkLP s ts m) (mkLP (with_heap s (<[a := mkNode (value n) (head s)]> (heap s))) ts m)
  | l_spurious_pop s ts o d : threads s !! MAIN = Some (PopCas o d) → head s = o →
      lspurious (mkLP s ts LDrain) (mkLP (goto s MAIN (pop_retry (head s))) ts (after_load (head s))).

Definition lany (s s' : lprogram) : Prop := lstep s s' ∨ lspurious s s'.

Definition lstart : lprogram := mkLP (new_LockFreeStack (S PUSHERS)) [] LSpawn.

(** ** The invariant *)

Definition task_values (t : task) : list Z := match t with TNew v | TRun v => [v] | TDone => [] end.

(** The thread of a task. *)
Definition task_ok (h : gmap Z Node) (o : option task) (t : thread) : Prop :=
  match o with
  | Some (TRun v) => ∃ a d, (t = PushLoad a ∨ t = PushCas a) ∧ h !! a = Some (mkNode v d)
  | _ => t = Idle
  end.

Definition all_done (ts : list task) : Prop := length ts = PUSHERS ∧ Forall (λ t, t = TDone) ts.

(** Every node in memory is in the stack or belongs to a thread. *)
Definition no_garbage (s : system) (A : list Z) : Prop :=
  ∀ a, is_Some (heap s !! a) → a ∈ A ∨ ∃ i t, threads s !! i = Some t ∧ owned t = Some a.

Record linv (s : lprogram) (A : list Z) : Prop := {
  li_inv : inv (lsys s) A;
  li_garbage : no_garbage (lsys s) A;
  li_threads : length (threads (lsys s)) = S PUSHERS;
  li_len : (length (ltasks s) ≤ PUSHERS)%nat;
  li_task i t : (i < PUSHERS)%nat → threads (lsys s) !! i = Some t → task_ok (heap (lsys s)) (ltasks s !! i) t;
  li_main t : threads (lsys s) !! MAIN = Some t →
    match lpc s with LDrain => popping t = true ∨ t = Idle | _ => t = Idle end;
  li_head o d : threads (lsys s) !! MAIN = Some (PopNext o) ∨ threads (lsys s) !! MAIN = Some (PopCas o d) →
    head (lsys s) = o;
  li_all : taken (lsys s) ++ stack (lsys s) ++ (ltasks s ≫= task_values) ≡ₚ
           Z.of_nat <$> seq 0 (length (ltasks s));
  li_pc : match lpc s with
          | LSpawn => True
          | LJoin i => length (ltasks s) = PUSHERS ∧ (i ≤ PUSHERS)%nat ∧ Forall (λ t, t = TDone) (take i (ltasks s))
          | LDrain => all_done (ltasks s)
          | LDone => all_done (ltasks s) ∧ stack (lsys s) = []
          end;
}.

(** ** The steps of the stack *)

Lemma chain_unique h p A A' vs : chain h p A vs → chain h p A' vs → A = A'.
Proof.
  revert p A' vs. induction A as [|a A IH]; intros p [|a' A'] [|v vs]; simpl; try done.
  intros (-> & _ & n & Hn & Hc) (-> & _ & n' & Hn' & Hc'). rewrite Hn in Hn'. injection Hn' as <-. f_equal. by eapply IH.
Qed.

Lemma owned_keeps (ts : list thread) i t t' a :
  ts !! i = Some t → (owned t = Some a → owned t' = Some a) →
  (∃ j u, ts !! j = Some u ∧ owned u = Some a) → ∃ j u, <[i := t']> ts !! j = Some u ∧ owned u = Some a.
Proof.
  intros Hi Hk (j & u & Hj & Hu). destruct (decide (j = i)) as [->|Hne].
  - exists i, t'. rewrite Hi in Hj. injection Hj as ->. split; [|by apply Hk].
    apply list_lookup_insert_eq. by eapply lookup_lt_Some.
  - exists j, u. by rewrite list_lookup_insert_ne.
Qed.

Ltac owned_keeps_tac := eapply owned_keeps; [eassumption|simpl; congruence|eassumption].

Lemma owned_gets (ts : list thread) i t t' a : ts !! i = Some t → owned t' = Some a →
  ∃ j u, <[i := t']> ts !! j = Some u ∧ owned u = Some a.
Proof. intros Hi Ho. exists i, t'. split; [apply list_lookup_insert_eq; by eapply lookup_lt_Some|done]. Qed.

(** No step loses a node. *)
Lemma no_garbage_step s s' A A' : inv s A → inv s' A' → no_garbage s A → step one_popper s s' → no_garbage s' A'.
Proof.
  intros I I' Hg Hs. pose proof (inv_chain _ _ I) as Hc. pose proof (inv_chain _ _ I') as Hc'.
  destruct Hs as [s i v a Hi Ha0 Hf|s i a n Hi Hh|s i a n Hi Hh Hnx|s i a n Hi Hh|s i Hi Hgd|s i Hi
    |s i o n Hi Hh|s i o Hi Hh|s i o d Hi Hhd|s i o d Hi|s i o n Hi Hh|s i o Hi Hh];
    pose proof (inv_threads _ _ I _ _ Hi) as Hok; simpl in Hok; intros b Hb; simpl in *.
  - assert (A' = A) as ->. { eapply chain_unique; [exact Hc'|]. apply chain_insert; [|done]. intros Ha.
      destruct (chain_in _ _ _ _ _ Hc Ha) as [_ [? ?]]. congruence. }
    destruct (decide (b = a)) as [->|Hne]; [right; by eapply owned_gets|]. rewrite lookup_insert_ne in Hb by done.
    destruct (Hg b Hb) as [?|Ho]; [by left|right; by owned_keeps_tac].
  - assert (A' = A) as -> by (eapply chain_unique; [exact Hc'|]; apply chain_insert; [apply Hok|done]).
    destruct (decide (b = a)) as [->|Hne]; [right; by eapply owned_gets|]. rewrite lookup_insert_ne in Hb by done.
    destruct (Hg b Hb) as [?|Ho]; [by left|right; by owned_keeps_tac].
  - assert (A' = a :: A) as ->. { eapply chain_unique; [exact Hc'|]. simpl. split; [done|]. split; [apply Hok|].
      exists (next n). split; [by destruct n|by rewrite Hnx]. }
    destruct (Hg b Hb) as [?|Ho]; [left; set_solver|]. destruct (decide (b = a)) as [->|Hne]; [left; set_solver|].
    right. by owned_keeps_tac.
  - assert (A' = A) as -> by (eapply chain_unique; [exact Hc'|]; apply chain_insert; [apply Hok|done]).
    destruct (decide (b = a)) as [->|Hne]; [right; by exists i, (PushCas a)|]. rewrite lookup_insert_ne in Hb by done. by apply Hg.
  - assert (A' = A) as -> by (by eapply chain_unique). destruct (Hg b Hb) as [?|Ho]; [by left|right; by owned_keeps_tac].
  - assert (A' = A) as -> by (by eapply chain_unique). destruct (Hg b Hb) as [?|Ho]; [by left|right; by owned_keeps_tac].
  - assert (A' = A) as -> by (by eapply chain_unique). destruct (Hg b Hb) as [?|Ho]; [by left|right; by owned_keeps_tac].
  - destruct (chain_in _ _ _ _ _ Hc Hok) as [_ [? ?]]. congruence.
  - destruct Hok as [HoA (v & Hv)]. destruct A as [|o' A]; [by apply elem_of_nil in HoA|].
    destruct (stack s) as [|v' vs]; simpl in Hc; [done|]. destruct Hc as (<- & _ & m & Hm & Hc). subst o.
    rewrite Hv in Hm. injection Hm as <- <-. assert (A' = A) as -> by (by eapply chain_unique).
    destruct (Hg b Hb) as [[->|?]%elem_of_cons|Ho]; [right; by eapply owned_gets|by left|right; by owned_keeps_tac].
  - assert (A' = A) as -> by (by eapply chain_unique). destruct (Hg b Hb) as [?|Ho]; [by left|right; by owned_keeps_tac].
  - destruct Hok as (HoA & _). assert (A' = A) as -> by (eapply chain_unique; [exact Hc'|]; by apply chain_delete).
    destruct (decide (b = o)) as [->|Hne]; [rewrite lookup_delete_eq in Hb; by destruct Hb|]. rewrite lookup_delete_ne in Hb by done.
    destruct (Hg b Hb) as [?|Ho]; [by left|right]. by owned_keeps_tac.
  - destruct Hok as (_ & ? & ? & ? & _). congruence.
Qed.

(** ** The steps of the program *)

Lemma pusher_not_popping s A j t : linv s A → (j < PUSHERS)%nat → threads (lsys s) !! j = Some t → popping t = false.
Proof.
  intros I Hj Ht. pose proof (li_task _ _ I j t Hj Ht) as Hok. unfold task_ok in Hok.
  destruct (ltasks s !! j) as [[]|]; try by subst t. by destruct Hok as (? & ? & [-> | ->] & _).
Qed.

Lemma nobody_pops s A : linv s A → threads (lsys s) !! MAIN = Some Idle → one_popper (threads (lsys s)).
Proof.
  intros I Hm. apply countb_zero. intros j t Hj. destruct (decide (j < PUSHERS)%nat) as [Hlt|Hge].
  - by eapply pusher_not_popping.
  - apply lookup_lt_Some in Hj as Hlen. rewrite (li_threads _ _ I) in Hlen.
    replace j with MAIN in Hj by (unfold MAIN, PUSHERS in *; lia). by simplify_eq.
Qed.

(** Every step of the program is a step of the stack or leaves it alone. *)
Lemma lany_simulates s s' A : linv s A → lany s s' → lsys s' = lsys s ∨ step one_popper (lsys s) (lsys s').
Proof.
  intros I [Hs|Hs]; destruct Hs; simpl; try (by left); right; try (by econstructor).
  apply step_pop; [done|]. exact (nobody_pops _ _ I H).
Qed.

Lemma lany_inv s s' A : linv s A → lany s s' → ∃ A', inv (lsys s') A' ∧ no_garbage (lsys s') A'.
Proof.
  intros I Hs. destruct (lany_simulates _ _ _ I Hs) as [->|Hst].
  - exists A. split; apply I.
  - destruct (lf_inv_step _ _ _ (li_inv _ _ I) Hst) as [A' I']. exists A'. split; [done|].
    eapply no_garbage_step; [apply I|exact I'|apply I|done].
Qed.

(** A task keeps its node when the heap changes elsewhere. *)
Lemma task_ok_heap h h' o t : task_ok h o t → (∀ a, owned t = Some a → h' !! a = h !! a) → task_ok h' o t.
Proof.
  destruct o as [[v|v|]|]; simpl; try done. intros (a & d & Ht & Ha) Hk. exists a, d. split; [done|].
  rewrite Hk; [done|]. by destruct Ht as [-> | ->].
Qed.

(** The other threads do not own the node of thread [i]. *)
Lemma not_owned s A i j t u a b : inv s A → threads s !! i = Some t → owned t = Some a →
  threads s !! j = Some u → j ≠ i → owned u = Some b → b ≠ a.
Proof. intros I Hi Ht Hj Hne Hu ->. apply Hne. by eapply (inv_owned _ _ I j i). Qed.

Lemma unused_not_owned s A a : inv s A → heap s !! a = None → ∀ j u, threads s !! j = Some u → owned u ≠ Some a.
Proof.
  intros I Hf j u Hj Hu. pose proof (inv_threads _ _ I j u Hj) as Hok.
  destruct u; simplify_eq/=; [destruct Hok as (_ & _ & [? ?])..|destruct Hok as (_ & ? & ? & ? & _)]; congruence.
Qed.

Lemma task_values_insert ts i t t' : ts !! i = Some t →
  task_values t ++ (<[i := t']> ts ≫= task_values) ≡ₚ task_values t' ++ (ts ≫= task_values).
Proof. apply bind_insert. Qed.

(** The program counter of [main] while task [i] is not done. *)
Lemma pc_insert s A i t t' : linv s A → ltasks s !! i = Some t → t ≠ TDone →
  match lpc s with
  | LSpawn => True
  | LJoin j => length (<[i := t']> (ltasks s)) = PUSHERS ∧ (j ≤ PUSHERS)%nat ∧
               Forall (λ t, t = TDone) (take j (<[i := t']> (ltasks s)))
  | LDrain | LDone => False
  end.
Proof.
  intros I Hi Hne. pose proof (li_pc _ _ I) as Hp. destruct (lpc s) as [|j| |]; [done| | |].
  - destruct Hp as (Hl & Hj & HF). rewrite length_insert. split_and!; [done|done|]. rewrite take_insert.
    destruct (decide (i < j)%nat) as [Hlt|]; [|done]. destruct Hne.
    eapply Forall_lookup in HF; [exact HF|]. by rewrite lookup_take_lt.
  - destruct Hne. by eapply Forall_lookup in Hi; [|apply Hp].
  - destruct Hne. destruct Hp as [Hp _]. by eapply Forall_lookup in Hi; [|apply Hp].
Qed.

Lemma task_of s A i a : linv s A → (i < PUSHERS)%nat →
  threads (lsys s) !! i = Some (PushLoad a) ∨ threads (lsys s) !! i = Some (PushCas a) →
  ∃ v d, ltasks s !! i = Some (TRun v) ∧ heap (lsys s) !! a = Some (mkNode v d).
Proof.
  intros I Hi Ht. assert (∃ t, threads (lsys s) !! i = Some t ∧ (t = PushLoad a ∨ t = PushCas a)) as (t & Et & Hc)
    by (destruct Ht; eauto).
  pose proof (li_task _ _ I i t Hi Et) as Hok. unfold task_ok in Hok.
  destruct (ltasks s !! i) as [[v|v|]|]; try (destruct Hc; congruence).
  destruct Hok as (a' & d & Hc' & Hn). exists v, d. split; [done|]. destruct Hc, Hc'; congruence.
Qed.

(** A step of pusher [i]. *)
Lemma pusher_step s A A' sys' i k k' t' :
  linv s A → (i < PUSHERS)%nat → ltasks s !! i = Some k → k ≠ TDone →
  inv sys' A' → no_garbage sys' A' → threads sys' = <[i := t']> (threads (lsys s)) →
  task_ok (heap sys') (Some k') t' →
  (∀ j u b, j ≠ i → threads (lsys s) !! j = Some u → owned u = Some b → heap sys' !! b = heap (lsys s) !! b) →
  taken sys' = taken (lsys s) → stack sys' ++ task_values k' ≡ₚ stack (lsys s) ++ task_values k →
  linv (mkLP sys' (<[i := k']> (ltasks s)) (lpc s)) A'.
Proof.
  intros I Hi Hk Hne Hinv Hg Hth Hok Hheap Htk Hst. pose proof (pc_insert s A i k k' I Hk Hne) as Hpc.
  split; simpl; try done.
  - by rewrite Hth, length_insert, (li_threads _ _ I).
  - rewrite length_insert. apply I.
  - intros j u Hj. rewrite Hth. intros [[-> ->]|[Hji Hu]]%insert_cases.
    + by rewrite list_lookup_insert_eq by (by eapply lookup_lt_Some).
    + rewrite list_lookup_insert_ne by done. eapply task_ok_heap; [by apply (li_task _ _ I)|].
      intros b Hb. by eapply Hheap.
  - intros u. rewrite Hth, list_lookup_insert_ne by (unfold MAIN, PUSHERS in *; lia). intros Hu.
    by apply (li_main _ _ I).
  - intros o d. rewrite Hth, list_lookup_insert_ne by (unfold MAIN, PUSHERS in *; lia). intros Hm.
    assert (∃ t, threads (lsys s) !! MAIN = Some t ∧ t ≠ Idle) as (t & Ht & Hidle) by (destruct Hm; eauto).
    apply (li_main _ _ I) in Ht. destruct (lpc s); done.
  - rewrite length_insert, <-(li_all _ _ I), Htk. apply Permutation_app_head.
    apply (Permutation_app_inv_l (task_values k)). rewrite Permutation_app_swap_app, (task_values_insert _ _ _ k' Hk).
    rewrite !app_assoc, Hst. solve_Permutation.
  - destruct (lpc s); try done; by destruct Hpc.
Qed.

(** A step of [main] in its last loop. *)
Lemma main_step s A A' sys' m' t' :
  linv s A → lpc s = LDrain → inv sys' A' → no_garbage sys' A' →
  threads sys' = <[MAIN := t']> (threads (lsys s)) →
  taken sys' ++ stack sys' ≡ₚ taken (lsys s) ++ stack (lsys s) →
  (∀ o d, t' = PopNext o ∨ t' = PopCas o d → head sys' = o) →
  match m' with LDrain => popping t' = true ∨ t' = Idle | LDone => t' = Idle ∧ stack sys' = [] | _ => False end →
  linv (mkLP sys' (ltasks s) m') A'.
Proof.
  intros I Hpc Hinv Hg Hth Hst Hhd Hm. pose proof (li_pc _ _ I) as Hd. rewrite Hpc in Hd. split; simpl; try done.
  - by rewrite Hth, length_insert, (li_threads _ _ I).
  - apply I.
  - intros j u Hj. rewrite Hth, list_lookup_insert_ne by (unfold MAIN, PUSHERS in *; lia). intros Hu.
    pose proof (li_task _ _ I j u Hj Hu) as Hok. destruct (ltasks s !! j) as [k|] eqn:Ek; [|done].
    destruct Hd as [_ HF]. eapply Forall_lookup in HF; [|exact Ek]. by subst k.
  - intros u. rewrite Hth. intros [[_ ->]|[Hji _]]%insert_cases; [|done]. destruct m'; try done. by destruct Hm.
  - intros o d. rewrite Hth, list_lookup_insert_eq by (rewrite (li_threads _ _ I); unfold MAIN, PUSHERS; lia).
    intros Ht. apply (Hhd o d). destruct Ht; [left|right]; congruence.
  - by rewrite app_assoc, Hst, <-app_assoc, (li_all _ _ I).
  - destruct m'; try done. by destruct Hm.
Qed.

Lemma lany_spawn s A : linv s A → lpc s = LSpawn → (length (ltasks s) < PUSHERS)%nat →
  linv (mkLP (lsys s) (ltasks s ++ [TNew (Z.of_nat (length (ltasks s)))]) LSpawn) A.
Proof.
  intros I Hp Hlt. split; simpl; try apply I; rewrite ?length_app; simpl; try done; [lia| | |].
  - intros i t Hi Ht. pose proof (li_task _ _ I i t Hi Ht) as Hok.
    destruct (decide (i < length (ltasks s))%nat); [by rewrite lookup_app_l|].
    rewrite (lookup_ge_None_2 (ltasks s)) in Hok by lia. simpl in Hok. subst t. rewrite lookup_app_r by lia.
    by destruct (i - length (ltasks s))%nat as [|[]].
  - intros t Ht. pose proof (li_main _ _ I t Ht) as Hm. by rewrite Hp in Hm.
  - rewrite bind_app, seq_app, fmap_app, <-(li_all _ _ I). simpl. by rewrite <-!app_assoc.
Qed.

(** A step of [main] that only moves its counter. *)
Lemma linv_pc s A m' : linv s A → lpc s ≠ LDrain → m' ≠ LDone →
  match m' with
  | LSpawn | LDone => True
  | LJoin i => length (ltasks s) = PUSHERS ∧ (i ≤ PUSHERS)%nat ∧ Forall (λ t, t = TDone) (take i (ltasks s))
  | LDrain => all_done (ltasks s)
  end → linv (mkLP (lsys s) (ltasks s) m') A.
Proof.
  intros I Hp Hne Hm. split; simpl; try apply I; [|by destruct m'].
  intros t Ht. pose proof (li_main _ _ I t Ht) as Ht'. destruct (lpc s); try done; subst t; destruct m'; auto.
Qed.

Lemma empty_stack s A : inv s A → head s = 0 → stack s = [] ∧ A = [].
Proof.
  intros I E. pose proof (inv_chain _ _ I) as Hc. rewrite E in Hc.
  destruct A, (stack s); simpl in Hc; try done. by destruct Hc as (<- & ? & _).
Qed.

(** The counter of [main] and its thread after the loop of [pop] has loaded the head. *)
Lemma loaded_ok s A : inv s A →
  match after_load (head s) with
  | LDrain => popping (pop_retry (head s)) = true ∨ pop_retry (head s) = Idle
  | LDone => pop_retry (head s) = Idle ∧ stack s = []
  | _ => False
  end.
Proof.
  intros I. unfold after_load, pop_retry. destruct (Z.eqb_spec (head s) 0) as [E|E]; simpl; [|by left].
  split; [done|]. exact (proj1 (empty_stack s A I E)).
Qed.

Lemma retry_head p : ∀ o d, pop_retry p = PopNext o ∨ pop_retry p = PopCas o d → p = o.
Proof. intros o d. unfold pop_retry. destruct (p =? 0); intros [?|?]; congruence. Qed.

Lemma stored_nonneg s A v : linv s A → v ∈ taken (lsys s) → 0 ≤ v.
Proof.
  intros I Hv. assert (v ∈ taken (lsys s) ++ stack (lsys s) ++ (ltasks s ≫= task_values)) as Hin by set_solver.
  rewrite (li_all _ _ I) in Hin. apply list_elem_of_fmap in Hin as (n & -> & _). lia.
Qed.

(** What [main] pops is a number of a thread. *)
Lemma popped_nonneg s A o n : linv s A → threads (lsys s) !! MAIN = Some (PopWon o) → heap (lsys s) !! o = Some n → 0 ≤ value n.
Proof.
  intros I Hm Hn. destruct (inv_threads _ _ (li_inv _ _ I) _ _ Hm) as (_ & v & d & Hv & Ht). rewrite Hn in Hv.
  injection Hv as ->. eapply stored_nonneg; [exact I|]. rewrite Ht. set_solver.
Qed.

Lemma pushes_linv s s' A A' i a n : linv s A → (i < PUSHERS)%nat → 
  threads (lsys s) !! i = Some (PushLoad a) ∨ threads (lsys s) !! i = Some (PushCas a) →
  heap (lsys s) !! a = Some n → inv s' A' → no_garbage s' A' →
  s' = with_heap (goto (lsys s) i (PushCas a)) (<[a := mkNode (value n) (head (lsys s))]> (heap (lsys s))) →
  linv (mkLP s' (ltasks s) (lpc s)) A'.
Proof.
  intros I Hi Ht Hn HI HG ->. destruct (task_of s A i a I Hi Ht) as (v & d & Hk & Ha). rewrite Hn in Ha. injection Ha as ->.
  assert (∃ t, threads (lsys s) !! i = Some t ∧ owned t = Some a) as (t & Et & Ho) by (destruct Ht; eauto).
  rewrite <-(list_insert_id (ltasks s) i (TRun v)) by done.
  eapply pusher_step; try done; simpl.
  - exists a, (head (lsys s)). rewrite lookup_insert_eq. eauto.
  - intros j u b Hne Hj Hb. rewrite lookup_insert_ne; [done|]. apply not_eq_sym. eapply (not_owned (lsys s) A i j); eauto using li_inv.
Qed.

Lemma linv_step s s' A : linv s A → lany s s' → ∃ A', linv s' A'.
Proof.
  intros I Hs. destruct (lany_inv s s' A I Hs) as (A' & HI & HG). destruct Hs as [Hs|Hs].
  - destruct Hs as [s ts Hl|s ts Hl|s ts m i v a Hk Hi Ha Hf|s ts m i a n Hi Ht Hn|s ts m i a n Hi Ht Hn Hx|s ts m i a n Hi Ht Hn Hx
      |s ts i Hk|s ts i Hl|s ts Hm|s ts Hm|s ts o n Hm Hn|s ts o Hm Hn|s ts o d Hm Hh|s ts o d Hm Hh|s ts o n Hm Hn|s ts o Hm Hn];
      simpl in *; try pose proof (li_pc _ _ I) as Hpc; simpl in Hpc.
    + exists A. by apply (lany_spawn (mkLP s ts LSpawn)).
    + exists A. pose proof (li_len _ _ I). simpl in *. apply (linv_pc (mkLP s ts LSpawn)); try done.
      split_and!; [simpl; lia|lia|constructor].
    + exists A'. assert (i < PUSHERS)%nat as Hlt by (apply lookup_lt_Some in Hk; pose proof (li_len _ _ I); simpl in *; lia).
      eapply (pusher_step (mkLP s ts m)); try done; simpl.
      * exists a, 0. rewrite lookup_insert_eq. eauto.
      * intros j u b Hne Hj Hb. rewrite lookup_insert_ne; [done|]. intros <-. by eapply (unused_not_owned s A a); [apply (li_inv _ _ I)|..].
    + exists A'. apply (pushes_linv (mkLP s ts m) _ A A' i a n); auto.
    + exists A'. destruct (task_of _ _ i a I Hi (or_intror Ht)) as (v & d & Hk & Ha). simpl in *. rewrite Hn in Ha. injection Ha as ->.
      eapply (pusher_step (mkLP s ts m)); try done. simpl. rewrite app_nil_r. by rewrite Permutation_app_comm.
    + exists A'. apply (pushes_linv (mkLP s ts m) _ A A' i a n); auto. unfold with_heap, goto. simpl. by rewrite list_insert_id.
    + exists A. destruct Hpc as (Hl & Hle & HF). apply lookup_lt_Some in Hk as Hlt.
      apply (linv_pc (mkLP s ts (LJoin i))); try done. simpl. split_and!; [done|lia|].
      rewrite (take_S_r _ _ _ Hk). apply Forall_app. split; [done|by repeat constructor].
    + exists A. destruct Hpc as (Hle & _ & HF). apply (linv_pc (mkLP s ts (LJoin i))); try done.
      rewrite take_ge in HF by done. by split.
    + exists A'. eapply (main_step (mkLP s ts LDrain)); try done; [|by left]. intros ? ? [?|?]; simplify_eq.
    + exists A'. eapply (main_step (mkLP s ts LDrain)); try done; [|exact (loaded_ok s A (li_inv _ _ I))]. apply retry_head.
    + exists A'. eapply (main_step (mkLP s ts LDrain)); try done; [|by left]. intros ? ? [?|?]; simplify_eq. by apply (li_head _ _ I o0 0); left.
    + destruct (chain_in _ _ _ _ _ (inv_chain _ _ (li_inv _ _ I)) (inv_threads _ _ (li_inv _ _ I) _ _ Hm)) as [_ [? ?]]. simpl in *. congruence.
    + exists A'. eapply (main_step (mkLP s ts LDrain)); try done; simpl; [| |by left].
      * rewrite <-app_assoc. by destruct (stack s).
      * by intros ? ? [?|?].
    + exists A'. eapply (main_step (mkLP s ts LDrain)); try done; [|exact (loaded_ok s A (li_inv _ _ I))]. apply retry_head.
    + exists A'. pose proof (popped_nonneg _ _ o n I Hm Hn) as H0. simpl in H0.
      eapply (main_step (mkLP s ts LDrain)); try done; [by intros ? ? [?|?]|]. unfold after_pop. rewrite (proj2 (Z.eqb_neq _ (-1))) by lia. by right.
    + destruct (inv_threads _ _ (li_inv _ _ I) _ _ Hm) as (_ & v & d & Hv & _). simpl in *. congruence.
  - destruct Hs as [s ts m i a n Hi Ht Hn Hx|s ts o d Hm Hh]; exists A'.
    + apply (pushes_linv (mkLP s ts m) _ A A' i a n); auto. unfold with_heap, goto. simpl. by rewrite list_insert_id.
    + eapply (main_step (mkLP s ts LDrain)); try done; [|exact (loaded_ok s A (li_inv _ _ I))]. apply retry_head.
Qed.


Lemma lprogram_inv s : rtc lany lstart s → ∃ A, linv s A.
Proof.
  intros Hr. assert (∃ A, linv lstart A) as H0.
  { destruct (lf_inv_reachable (S PUSHERS) (new_LockFreeStack (S PUSHERS)) (rtc_refl _ _)) as [A I]. exists A.
    split; simpl; try done.
    - intros a [? Ha]. done.
    - unfold PUSHERS. lia.
    - intros i t _ [-> _]%(lookup_replicate (S PUSHERS)). done.
    - by intros t [= <-].
    - by intros o d [Ht|Ht]. }
  revert H0. induction Hr as [|s1 s2 s3 Hs _ IH]; [done|]. intros [A I]. apply IH. by eapply linv_step.
Qed.

(** ** Progress *)

Lemma thread_exists s A i : linv s A → (i ≤ PUSHERS)%nat → is_Some (threads (lsys s) !! i).
Proof. intros I Hi. apply lookup_lt_is_Some_2. rewrite (li_threads _ _ I). lia. Qed.

Lemma fresh_node (h : gmap Z Node) : ∃ a, a ≠ 0 ∧ h !! a = None.
Proof.
  exists (fresh ({[0]} ∪ dom h : gset Z)). pose proof (is_fresh ({[0]} ∪ dom h : gset Z)) as Hf.
  apply not_elem_of_union in Hf as [H1 H2]. split; [set_solver|by apply not_elem_of_dom].
Qed.

(** A task that is not done can move. *)
Lemma task_progress s A i k : linv s A → ltasks s !! i = Some k → k ≠ TDone → ∃ s', lstep s s'.
Proof.
  intros I Hk Hne. pose proof (li_len _ _ I) as Hlen. apply lookup_lt_Some in Hk as Hlt.
  destruct (thread_exists s A i I ltac:(lia)) as [t Ht]. pose proof (li_task _ _ I i t ltac:(lia) Ht) as Hok.
  rewrite Hk in Hok. destruct s as [sy ts m]. simpl in *. destruct k as [v|v|]; [| |done]; simpl in Hok.
  - subst t. destruct (fresh_node (heap sy)) as (a & Ha & Hf). eexists. by apply (l_begin _ _ _ i v a).
  - destruct Hok as (a & d & [-> | ->] & Hn).
    + eexists. eapply l_load; [|done|done]. lia.
    + destruct (decide (d = head sy)) as [E|E]; eexists; [eapply l_cas|eapply l_retry]; try done; lia.
Qed.

Lemma lstep_progress s A : linv s A → lpc s = LDone ∨ ∃ s', lstep s s'.
Proof.
  intros I. destruct (thread_exists s A MAIN I ltac:(unfold MAIN, PUSHERS; lia)) as [t Ht].
  pose proof (li_main _ _ I t Ht) as Hm. pose proof (inv_threads _ _ (li_inv _ _ I) _ _ Ht) as Hok.
  pose proof (task_progress s A) as Htask.
  destruct s as [sy ts [|i| |]]; simpl in *; [| | |by left]; right.
  - destruct (decide (length ts < PUSHERS)%nat); eexists; [by apply l_spawn|apply l_spawned; lia].
  - destruct (ts !! i) as [k|] eqn:E.
    + destruct k; [by apply (Htask i _ I E)..|eexists; by apply l_join].
    + eexists. apply l_joined. by apply lookup_ge_None.
  - destruct t as [| | | |o|o d|o|]; simpl in Hm; try (by destruct Hm).
    + eexists. by apply l_pop.
    + eexists. by apply l_pop_load.
    + destruct (chain_in _ _ _ _ _ (inv_chain _ _ (li_inv _ _ I)) Hok) as [_ [n Hn]]. eexists. by apply (l_pop_next _ _ o n).
    + pose proof (li_head _ _ I o d (or_intror Ht)) as Hh. eexists. by apply (l_pop_cas _ _ o d).
    + destruct Hok as (_ & v & d & Hn & _). eexists. by eapply l_pop_won.
Qed.

(** ** Termination

    A successful exchange makes the nodes of the other pushers stale, which costs
    each of them one more failure. *)

Definition thread_cost (h : gmap Z Node) (hd : Z) (t : thread) : nat :=
  match t with
  | PushLoad _ => 14
  | PushCas a => match h !! a with Some n => if next n =? hd then 12 else 13 | None => 12 end
  | _ => 0
  end.

Definition task_cost (t : task) : nat := match t with TNew _ => 15 | _ => 0 end.

(** The steps of a pop up to its exchange, and the last, unsuccessful pop. *)
Definition pop_stage (t : thread) : nat :=
  match t with Idle => 3 | PopLoad => 2 | PopNext _ => 1 | PopWon _ => 4 | _ => 0 end.

Definition main_cost (m : lmain) (started : nat) (t : thread) : nat :=
  match m with
  | LSpawn => (PUSHERS - started) + PUSHERS + 2 + 3
  | LJoin i => (PUSHERS - i) + 1 + 3
  | LDrain => pop_stage t
  | LDone => 0
  end.

Definition lsteps_left (s : lprogram) : nat :=
  15 * (PUSHERS - length (ltasks s)) + total task_cost (ltasks s) +
  total (thread_cost (heap (lsys s)) (head (lsys s))) (threads (lsys s)) +
  5 * (PUSHERS - length (taken (lsys s))) +
  main_cost (lpc s) (length (ltasks s)) (default Idle (threads (lsys s) !! MAIN)).

Lemma thread_cost_ext h h' hd t : (∀ a, owned t = Some a → h' !! a = h !! a) → thread_cost h' hd t = thread_cost h hd t.
Proof. destruct t; simpl; try done. intros Hk. by rewrite Hk. Qed.

(** Thread [i] moves and writes to a node that no other thread owns. *)
Lemma write_cost h hd ts i t t' a n : ts !! i = Some t →
  (∀ j u, j ≠ i → ts !! j = Some u → owned u ≠ Some a) →
  (total (thread_cost (<[a := n]> h) hd) (<[i := t']> ts) + thread_cost h hd t =
   total (thread_cost h hd) ts + thread_cost (<[a := n]> h) hd t')%nat.
Proof.
  intros Hi Ho. pose proof (total_insert (thread_cost h hd) ts i t Idle Hi) as H1.
  pose proof (total_insert (thread_cost (<[a := n]> h) hd) (<[i := t']> ts) i t' Idle) as H2.
  rewrite list_insert_insert_eq in H2. specialize (H2 (list_lookup_insert_eq _ _ _ (lookup_lt_Some _ _ _ Hi))).
  rewrite (total_ext (thread_cost (<[a := n]> h) hd) (thread_cost h hd) (<[i := Idle]> ts)) in H2; [simpl in *; lia|].
  intros u (j & Hj)%list_elem_of_lookup. apply insert_cases in Hj as [[-> ->]|[Hne Hj]]; [done|].
  apply thread_cost_ext. intros b Hb. rewrite lookup_insert_ne; [done|]. intros ->. by apply (Ho j u).
Qed.

(** A new head costs every thread at most one step. *)
Lemma head_cost h hd hd' ts : (total (thread_cost h hd') ts ≤ total (thread_cost h hd) ts + length ts)%nat.
Proof.
  rewrite <-(Nat.mul_1_l (length ts)). apply total_le. intros t _. destruct t; simpl; try lia.
  destruct (h !! newNode) as [n|]; [|lia]. repeat case_match; lia.
Qed.

(** Once [main] drains the stack the pushers cost nothing. *)
Lemma drain_cost s A h hd : linv s A → lpc s = LDrain ∨ lpc s = LDone → total (thread_cost h hd) (threads (lsys s)) = 0%nat.
Proof.
  intros I Hpc. rewrite (total_const _ _ 0); [done|]. intros t (i & Hi)%list_elem_of_lookup.
  assert (all_done (ltasks s)) as [Hl HF] by (pose proof (li_pc _ _ I) as Hp; destruct Hpc as [E|E]; rewrite E in Hp; [done|apply Hp]).
  destruct (decide (i < PUSHERS)%nat) as [Hlt|Hge].
  - pose proof (li_task _ _ I i t Hlt Hi) as Hok. destruct (lookup_lt_is_Some_2 (ltasks s) i) as [k Hk]; [lia|].
    rewrite Hk in Hok. eapply Forall_lookup in HF; [|exact Hk]. subst k. by rewrite Hok.
  - apply lookup_lt_Some in Hi as Hlt. rewrite (li_threads _ _ I) in Hlt.
    replace i with MAIN in Hi by (unfold MAIN, PUSHERS in *; lia). pose proof (li_main _ _ I t Hi) as Hm.
    destruct Hpc as [E|E]; rewrite E in Hm; [|by subst t]. destruct Hm as [Hm| ->]; [by destruct t|done].
Qed.

Lemma taken_room s A : linv s A → (length (taken (lsys s)) + length (stack (lsys s)) ≤ PUSHERS)%nat.
Proof.
  intros I. pose proof (Permutation_length (li_all _ _ I)) as H. rewrite !length_app, length_fmap, length_seq in H.
  pose proof (li_len _ _ I). lia.
Qed.

(** Nobody else owns the node that pusher [i] works on. *)
Lemma others_not_owning s A i t a : inv s A → threads s !! i = Some t → owned t = Some a →
  ∀ j u, j ≠ i → threads s !! j = Some u → owned u ≠ Some a.
Proof. intros I Hi Ht j u Hne Hj Hu. by eapply (not_owned s A i j t u a a). Qed.

(** A step of a pusher: the measure changes by what its thread costs. *)
Lemma pusher_cost s A i t t' a n v : linv s A → (i < PUSHERS)%nat → threads (lsys s) !! i = Some t →
  (∀ j u, j ≠ i → threads (lsys s) !! j = Some u → owned u ≠ Some a) →
  (lsteps_left (mkLP (with_heap (goto (lsys s) i t') (<[a := mkNode v n]> (heap (lsys s)))) (ltasks s) (lpc s)) +
    thread_cost (heap (lsys s)) (head (lsys s)) t =
   lsteps_left s + thread_cost (<[a := mkNode v n]> (heap (lsys s))) (head (lsys s)) t')%nat.
Proof.
  intros I Hi Ht Ho. unfold lsteps_left. simpl.
  pose proof (write_cost (heap (lsys s)) (head (lsys s)) _ i t t' a (mkNode v n) Ht Ho) as Hw.
  rewrite list_lookup_insert_ne by (unfold MAIN, PUSHERS in *; lia). lia.
Qed.

Lemma begin_cost s A i v a : linv s A → ltasks s !! i = Some (TNew v) → threads (lsys s) !! i = Some Idle →
  heap (lsys s) !! a = None →
  (lsteps_left (mkLP (with_heap (goto (lsys s) i (PushLoad a)) (<[a := mkNode v 0]> (heap (lsys s))))
                  (<[i := TRun v]> (ltasks s)) (lpc s)) < lsteps_left s)%nat.
Proof.
  intros I Hk Ht Hf. assert (i < PUSHERS)%nat as Hi by (apply lookup_lt_Some in Hk; pose proof (li_len _ _ I); lia).
  pose proof (pusher_cost s A i Idle (PushLoad a) a 0 v I Hi Ht) as Hc.
  pose proof (total_insert task_cost (ltasks s) i _ (TRun v) Hk) as Htk. unfold lsteps_left in *. simpl in *.
  rewrite length_insert. specialize (Hc (λ j u _, unused_not_owned _ A a (li_inv _ _ I) Hf j u)). lia.
Qed.

Lemma cas_cost s A i a n : linv s A → (i < PUSHERS)%nat → threads (lsys s) !! i = Some (PushCas a) →
  heap (lsys s) !! a = Some n → next n = head (lsys s) →
  (lsteps_left (mkLP (cas_done (lsys s) i a (value n)) (<[i := TDone]> (ltasks s)) (lpc s)) < lsteps_left s)%nat.
Proof.
  intros I Hi Ht Hn Hx. destruct (task_of s A i a I Hi (or_intror Ht)) as (v & d & Hk & _).
  pose proof (total_insert task_cost (ltasks s) i _ TDone Hk) as Htk.
  pose proof (total_insert (thread_cost (heap (lsys s)) (head (lsys s))) _ i _ Idle Ht) as Hc.
  pose proof (head_cost (heap (lsys s)) (head (lsys s)) a (<[i := Idle]> (threads (lsys s)))) as Hh.
  rewrite length_insert, (li_threads _ _ I) in Hh. unfold lsteps_left. simpl in *. rewrite Hn, Hx, Z.eqb_refl in Hc.
  rewrite length_insert, list_lookup_insert_ne by (unfold MAIN, PUSHERS in *; lia). unfold PUSHERS in *. lia.
Qed.

(** While [main] drains the stack. *)
Lemma drained_left s A : linv s A → lpc s = LDrain ∨ lpc s = LDone →
  lsteps_left s = (total task_cost (ltasks s) + 15 * (PUSHERS - length (ltasks s)) + 5 * (PUSHERS - length (taken (lsys s))) +
    main_cost (lpc s) (length (ltasks s)) (default Idle (threads (lsys s) !! MAIN)))%nat.
Proof. intros I Hp. unfold lsteps_left. rewrite (drain_cost s A _ _ I Hp). lia. Qed.

(** A pop that is about to exchange has a value to take. *)
Lemma pop_has_value s A o d : inv s A → threads s !! MAIN = Some (PopCas o d) → ∃ v vs, stack s = v :: vs.
Proof.
  intros I Hm. destruct (inv_threads _ _ I _ _ Hm) as [Ho _]. pose proof (inv_chain _ _ I) as Hc.
  destruct A as [|a A]; [by apply elem_of_nil in Ho|]. destruct (stack s) as [|v vs]; [done|]. by exists v, vs.
Qed.

Lemma after_cases p : after_load p = LDrain ∧ p ≠ 0 ∨ after_load p = LDone ∧ p = 0.
Proof. unfold after_load. destruct (Z.eqb_spec p 0); simpl; auto. Qed.

Lemma write_left s A i t a n : linv s A → (i < PUSHERS)%nat → threads (lsys s) !! i = Some t → owned t = Some a →
  (lsteps_left (mkLP (with_heap (goto (lsys s) i (PushCas a)) (<[a := mkNode (value n) (head (lsys s))]> (heap (lsys s))))
                  (ltasks s) (lpc s)) + thread_cost (heap (lsys s)) (head (lsys s)) t = lsteps_left s + 12)%nat.
Proof.
  intros I Hi Ht Ho. pose proof (pusher_cost s A i t (PushCas a) a (head (lsys s)) (value n) I Hi Ht) as Hc.
  specialize (Hc (others_not_owning _ A i t a (li_inv _ _ I) Ht Ho)). rewrite Hc. simpl.
  by rewrite lookup_insert_eq, Z.eqb_refl.
Qed.

Lemma lstep_decreases s s' A : linv s A → lstep s s' → (lsteps_left s' < lsteps_left s)%nat.
Proof.
  intros I Hs. destruct (linv_step s s' A I (or_introl Hs)) as [A' I'].
  assert (MAIN < length (threads (lsys s)))%nat as HM by (rewrite (li_threads _ _ I); unfold MAIN, PUSHERS; lia).
  destruct Hs as [s ts Hl|s ts Hl|s ts m i v a Hk Hi Ha Hf|s ts m i a n Hi Ht Hn|s ts m i a n Hi Ht Hn Hx|s ts m i a n Hi Ht Hn Hx
    |s ts i Hk|s ts i Hl|s ts Hm|s ts Hm|s ts o n Hm Hn|s ts o Hm Hn|s ts o d Hm Hh|s ts o d Hm Hh|s ts o n Hm Hn|s ts o Hm Hn]; simpl in HM.
  - unfold lsteps_left. simpl. rewrite total_app, length_app. unfold PUSHERS in *. simpl. lia.
  - unfold lsteps_left. simpl. unfold PUSHERS in *. lia.
  - by apply (begin_cost (mkLP s ts m) A).
  - pose proof (write_left (mkLP s ts m) A i _ a n I Hi Ht eq_refl) as Hc. simpl in Hc. lia.
  - by apply (cas_cost (mkLP s ts m) A).
  - pose proof (write_left (mkLP s ts m) A i _ a n I Hi Ht eq_refl) as Hc. simpl in Hc.
    rewrite Hn, (proj2 (Z.eqb_neq _ _) Hx) in Hc. unfold goto in Hc. rewrite list_insert_id in Hc by done.
    unfold with_heap in *. simpl in Hc. lia.
  - pose proof (li_pc _ _ I) as (Hl & Hle & _). apply lookup_lt_Some in Hk. unfold lsteps_left. simpl in *. unfold PUSHERS in *. lia.
  - pose proof (li_main _ _ I) as Hm. destruct (lookup_lt_is_Some_2 _ _ HM) as [t Ht]. specialize (Hm t Ht). simpl in Hm. subst t.
    unfold lsteps_left. simpl. rewrite Ht. simpl. lia.
  - rewrite (drained_left _ _ I), (drained_left _ _ I') by auto. simpl. rewrite Hm, list_lookup_insert_eq by done. simpl. lia.
  - destruct (after_cases (head s)) as [[E Hp]|[E Hp]]; rewrite E in *;
      rewrite (drained_left _ _ I), (drained_left _ _ I') by auto; simpl; rewrite Hm, ?list_lookup_insert_eq by done; simpl; [|lia].
    unfold pop_retry. rewrite (proj2 (Z.eqb_neq _ 0) Hp). simpl. lia.
  - rewrite (drained_left _ _ I), (drained_left _ _ I') by auto. simpl. rewrite Hm, list_lookup_insert_eq by done. simpl. lia.
  - destruct (inv_threads _ _ (li_inv _ _ I') MAIN Fault). simpl. by apply list_lookup_insert_eq.
  - pose proof (taken_room _ _ I') as Hroom. rewrite (drained_left _ _ I), (drained_left _ _ I') by auto. simpl in *.
    destruct (pop_has_value s A o d (li_inv _ _ I) Hm) as (v & vs & E). rewrite E in *. simpl in *. rewrite length_app in *. simpl in *.
    rewrite Hm, list_lookup_insert_eq by done. simpl. lia.
  - destruct Hh. exact (li_head _ _ I o d (or_intror Hm)).
  - pose proof (popped_nonneg _ _ o n I Hm Hn) as H0. unfold after_pop in *. simpl in H0.
    rewrite (proj2 (Z.eqb_neq _ (-1))) in * by lia. rewrite (drained_left _ _ I), (drained_left _ _ I') by auto. simpl.
    rewrite Hm, list_lookup_insert_eq by done. simpl. lia.
  - destruct (inv_threads _ _ (li_inv _ _ I') MAIN Fault). simpl. by apply list_lookup_insert_eq.
Qed.

Lemma lspurious_left s s' A : linv s A → lspurious s s' → (lsteps_left s' ≤ lsteps_left s + 1)%nat.
Proof.
  intros I Hs. destruct (linv_step s s' A I (or_intror Hs)) as [A' I'].
  assert (MAIN < length (threads (lsys s)))%nat as HM by (rewrite (li_threads _ _ I); unfold MAIN, PUSHERS; lia).
  destruct Hs as [s ts m i a n Hi Ht Hn Hx|s ts o d Hm Hh]; simpl in HM.
  - pose proof (write_left (mkLP s ts m) A i _ a n I Hi Ht eq_refl) as Hc. simpl in Hc.
    rewrite Hn, Hx, Z.eqb_refl in Hc. unfold goto in Hc. rewrite list_insert_id in Hc by done.
    unfold with_heap in *. simpl in *. lia.
  - destruct (after_cases (head s)) as [[E Hp]|[E Hp]]; rewrite E in *;
      rewrite (drained_left _ _ I), (drained_left _ _ I') by auto; simpl; rewrite Hm, ?list_lookup_insert_eq by done; simpl; [|lia].
    unfold pop_retry. rewrite (proj2 (Z.eqb_neq _ 0) Hp). simpl. lia.
Qed.

(** Runs of [n] steps, [k] of which are spurious failures. *)
Inductive lrun : nat → nat → lprogram → lprogram → Prop :=
  | lrun_nil s : lrun 0 0 s s
  | lrun_step n k s s1 s2 : lstep s s1 → lrun n k s1 s2 → lrun (S n) k s s2
  | lrun_spurious n k s s1 s2 : lspurious s s1 → lrun n k s1 s2 → lrun (S n) (S k) s s2.

Lemma lrun_bound n k s s' A : linv s A → lrun n k s s' → (n ≤ lsteps_left s + 2 * k)%nat.
Proof.
  intros I Hr. revert A I. induction Hr as [s|n k s s1 s2 Hs Hr IH|n k s s1 s2 Hs Hr IH]; intros A I; [lia| |].
  - destruct (linv_step s s1 A I (or_introl Hs)) as [A1 I1]. pose proof (lstep_decreases s s1 A I Hs).
    specialize (IH A1 I1). lia.
  - destruct (linv_step s s1 A I (or_intror Hs)) as [A1 I1]. pose proof (lspurious_left s s1 A I Hs).
    specialize (IH A1 I1). lia.
Qed.

(** Once [main] has returned, nobody is inside an operation. *)
Lemma all_idle s A i t : linv s A → lpc s = LDone → threads (lsys s) !! i = Some t → t = Idle.
Proof.
  intros I Hd Hi. pose proof (li_pc _ _ I) as Hp. rewrite Hd in Hp. destruct Hp as [[Hl HF] _].
  destruct (decide (i < PUSHERS)%nat) as [Hlt|Hge].
  - pose proof (li_task _ _ I i t Hlt Hi) as Hok. destruct (lookup_lt_is_Some_2 (ltasks s) i) as [k Hk]; [lia|].
    rewrite Hk in Hok. eapply Forall_lookup in HF; [|exact Hk]. by subst k.
  - apply lookup_lt_Some in Hi as Hlt. rewrite (li_threads _ _ I) in Hlt.
    replace i with MAIN in Hi by (unfold MAIN, PUSHERS in *; lia). pose proof (li_main _ _ I t Hi) as Hm. by rewrite Hd in Hm.
Qed.

Lemma finished_program s A : linv s A → lpc s = LDone →
  returned (lsys s) ≡ₚ Z.of_nat <$> seq 0 PUSHERS ∧ heap (lsys s) = ∅.
Proof.
  intros I Hd. pose proof (li_pc _ _ I) as Hp. rewrite Hd in Hp. destruct Hp as [[Hl HF] Hst]. split.
  - rewrite (inv_done _ _ (li_inv _ _ I)).
    + pose proof (li_all _ _ I) as Ha. rewrite Hst, Hl in Ha.
      assert (ltasks s ≫= task_values = []) as E by (clear -HF; induction HF as [|t ts -> _ IH]; [done|]; by rewrite bind_cons, IH).
      by rewrite E, !app_nil_r in Ha.
    + apply countb_zero. intros i t Hi. by rewrite (all_idle s A i t I Hd Hi).
  - apply map_empty. intros a. destruct (heap (lsys s) !! a) as [n|] eqn:E; [exfalso|done].
    destruct (li_garbage _ _ I a (mk_is_Some _ _ E)) as [Ha|(i & t & Hi & Ho)].
    + pose proof (inv_chain _ _ (li_inv _ _ I)) as Hc. rewrite Hst in Hc. destruct A; [by apply elem_of_nil in Ha|done].
    + rewrite (all_idle s A i t I Hd Hi) in Ho. done.
Qed.

(** C10: the program around the lock-free stack: in every interleaving of the ten
    pushing threads and [main], no thread touches a deleted node; apart from
    spurious failures of the weak exchange, each of which costs at most two
    steps, the program takes at most 225 steps, and it can always go on until
    [main] has returned; then the numbers printed are 0 to 9, each once, and no
    node is left in memory. *)
Theorem lock_free_program_correct s :
  rtc lany lstart s →
  (∀ i, threads (lsys s) !! i ≠ Some Fault) ∧
  (∀ n k s', lrun n k lstart s' → (n ≤ 225 + 2 * k)%nat) ∧
  (lpc s = LDone ∨ ∃ s', lstep s s') ∧
  (lpc s = LDone → returned (lsys s) ≡ₚ Z.of_nat <$> seq 0 10 ∧ heap (lsys s) = ∅).
Proof.
  intros Hr. destruct (lprogram_inv s Hr) as [A I]. split; [|split; [|split]].
  - intros i Hi. by apply (inv_threads _ _ (li_inv _ _ I) i Fault).
  - intros n k s' Hn. destruct (lprogram_inv lstart (rtc_refl _ _)) as [A0 I0].
    exact (lrun_bound n k lstart s' A0 I0 Hn).
  - by eapply lstep_progress.
  - intros Hd. by eapply finished_program.
Qed.

(** Every state has a run to the end. *)
Lemma lprogram_ends s A : linv s A → ∃ s', rtc lany s s' ∧ lpc s' = LDone.
Proof.
  remember (lsteps_left s) as n eqn:Hn. revert s A Hn.
  induction (lt_wf n) as [n _ IH]; intros s A -> I.
  destruct (lstep_progress s A I) as [Hd|[s1 Hs]]; [by exists s|].
  destruct (linv_step s s1 A I (or_introl Hs)) as [A1 I1].
  destruct (IH _ (lstep_decreases s s1 A I Hs) s1 A1 eq_refl I1) as (s' & Hr & Hd).
  exists s'. split; [eapply rtc_l; [by left|done]|done].
Qed.

Lemma lock_free_program_correct_witness :
  ∃ s, returned (lsys s) ≡ₚ [0; 1; 2; 3; 4; 5; 6; 7; 8; 9] ∧ heap (lsys s) = ∅.
Proof.
  destruct (lprogram_inv lstart (rtc_refl _ _)) as [A0 I0]. destruct (lprogram_ends lstart A0 I0) as (s & Hr & Hd).
  exists s. destruct (lock_free_program_correct s Hr) as (_ & _ & _ & Hf). exact (Hf Hd).
Defined.
