(* ===== verification/SensorThreads.v ===== *)
(** * amazon/emergingDevices/producerConsumer.cpp: the threads

    The producer, the two consumers and [main] around the ring of SensorRing.
    Every load and store of a shared variable is a step, and the copy of a sample
    in or out of the buffer is one step too, so all interleavings of those are
    covered (the source copies a sample without synchronisation; a copy that is
    torn by another one is not modelled, nor is weak-memory reordering).
    [to_float] is the conversion [static_cast<float>], as bit pattern. *)

From stdpp Require Import base list numbers relations.
From Stdlib Require Import ZArith Lia.
From S2P Require Import Prelude SensorRing.

(** ** The operations, cut into their accesses *)

Definition produce_write (idx : Z) (s : Sample) (rb : LockFreeRingBuffer) : outcome LockFreeRingBuffer :=
  b ← vset (buffer rb) (Z.land idx (BUFFER_SIZE - 1)) s; Ret (mkRing b (writeIndex rb) (readIndex rb)).

Definition produce_publish (idx : Z) (rb : LockFreeRingBuffer) : LockFreeRingBuffer :=
  mkRing (buffer rb) (u64 (idx + 1)) (readIndex rb).

(** The position to read at, when there is new data; [w - BUFFER_SIZE] skips ahead. *)
Definition consume_check (r w : Z) : option Z :=
  if w <=? r then None else Some (if BUFFER_SIZE <? u64 (w - r) then u64 (w - BUFFER_SIZE) else r).

Definition consume_copy (r : Z) (rb : LockFreeRingBuffer) : outcome Sample :=
  vget (buffer rb) (Z.land r (BUFFER_SIZE - 1)).

Definition consume_advance (consumerId r : Z) (rb : LockFreeRingBuffer) : outcome LockFreeRingBuffer :=
  ri ← vset (readIndex rb) consumerId (u64 (r + 1)); Ret (mkRing (buffer rb) (writeIndex rb) ri).

(** Together they are the operations of SensorRing. *)
Lemma produce_cut s rb :
  produce s rb = (rb' ← produce_write (writeIndex rb) s rb; Ret (produce_publish (writeIndex rb) rb')).
Proof. unfold produce, produce_write. by destruct (vset _ _ _). Qed.

Lemma consume_cut k rb :
  consume k rb = (r ← vget (readIndex rb) k;
                  match consume_check r (writeIndex rb) with
                  | None => Ret (None, rb)
                  | Some r => out ← consume_copy r rb; rb ← consume_advance k r rb; Ret (Some out, rb)
                  end).
Proof.
  unfold consume, consume_load, consume_check. destruct (vget (readIndex rb) k) as [r|e]; [|done]. rewrite !bind_Ret.
  destruct (_ <=? _); [done|]. rewrite bind_Ret. unfold consume_read, consume_copy, consume_advance.
  destruct (vget _ _); [|done]. rewrite !bind_Ret. by destruct (vset _ _ _).
Qed.

(** ** The threads *)

Inductive sensor_producer :=
  | PLoop (counter : Z)              (* at [while (running)] *)
  | PBody (counter : Z)              (* before [writeIndex.load] *)
  | PWrite (counter idx : Z)         (* before the store into the buffer *)
  | PPublish (counter idx : Z)       (* before [writeIndex.store] *)
  | PEnd.

Inductive sensor_consumer :=
  | CLoop
  | CLoadR                           (* before [readIndex.load] *)
  | CLoadW (r : Z)                   (* before [writeIndex.load] *)
  | CCopy (r : Z)                    (* before the copy out of the buffer *)
  | CStore (r w : Z) (s : Sample)    (* before [readIndex.store] *)
  | CEnd.

Inductive sensor_main := MSleep | MJoin (k : nat) | MReturned.

(** A sample that was printed: the position it was read at, how many samples
    had been stored then, and the sample. *)
Record printed := mkPrinted { p_pos : Z; p_made : Z; p_sample : Sample }.

Record sensors := mkSensors {
  ring : LockFreeRingBuffer;
  running : bool;
  producer : sensor_producer;
  consumers : list sensor_consumer;
  main : sensor_main;
  made : Z;                          (* samples stored in the buffer so far *)
  outs : list (list printed);        (* per consumer *)
}.

Section program.
Context (to_float : Z → Z).

Definition sample_of (counter : Z) : Sample := mkSample counter (to_float counter).

(** [running] is tested at the head of each loop. *)
Inductive sensor_step : sensors → sensors → Prop :=
  | sp_test rb run cs m n out c :
      sensor_step (mkSensors rb run (PLoop c) cs m n out)
                  (mkSensors rb run (if run then PBody c else PEnd) cs m n out)
  | sp_load rb run cs m n out c :
      sensor_step (mkSensors rb run (PBody c) cs m n out) (mkSensors rb run (PWrite c (writeIndex rb)) cs m n out)
  | sp_write rb run cs m n out c idx rb' : produce_write idx (sample_of c) rb = Ret rb' →
      sensor_step (mkSensors rb run (PWrite c idx) cs m n out) (mkSensors rb' run (PPublish c idx) cs m (n + 1) out)
  | sp_publish rb run cs m n out c idx :
      sensor_step (mkSensors rb run (PPublish c idx) cs m n out)
                  (mkSensors (produce_publish idx rb) run (PLoop (u64 (c + 1))) cs m n out)
  | sc_test rb run p cs m n out k : cs !! k = Some CLoop →
      sensor_step (mkSensors rb run p cs m n out)
                  (mkSensors rb run p (<[k := if run then CLoadR else CEnd]> cs) m n out)
  | sc_load_r rb run p cs m n out k r : cs !! k = Some CLoadR → vget (readIndex rb) (Z.of_nat k) = Ret r →
      sensor_step (mkSensors rb run p cs m n out) (mkSensors rb run p (<[k := CLoadW r]> cs) m n out)
  | sc_load_w rb run p cs m n out k r : cs !! k = Some (CLoadW r) →
      sensor_step (mkSensors rb run p cs m n out)
        (mkSensors rb run p (<[k := match consume_check r (writeIndex rb) with Some r => CCopy r | None => CLoop end]> cs) m n out)
  | sc_copy rb run p cs m n out k r s : cs !! k = Some (CCopy r) → consume_copy r rb = Ret s →
      sensor_step (mkSensors rb run p cs m n out) (mkSensors rb run p (<[k := CStore r n s]> cs) m n out)
  | sc_store rb run p cs m n out k r w s rb' : cs !! k = Some (CStore r w s) →
      consume_advance (Z.of_nat k) r rb = Ret rb' →
      sensor_step (mkSensors rb run p cs m n out)
        (mkSensors rb' run p (<[k := CLoop]> cs) m n (alter (λ l, l ++ [mkPrinted r w s]) k out))
  | sm_stop rb run p cs n out :
      sensor_step (mkSensors rb run p cs MSleep n out) (mkSensors rb false p cs (MJoin 0) n out)
  | sm_join_producer rb run cs n out :
      sensor_step (mkSensors rb run PEnd cs (MJoin 0) n out) (mkSensors rb run PEnd cs (MJoin 1) n out)
  | sm_join rb run p cs k n out : cs !! k = Some CEnd →
      sensor_step (mkSensors rb run p cs (MJoin (S k)) n out) (mkSensors rb run p cs (MJoin (S (S k))) n out)
  | sm_return rb run p cs k n out : (NUM_CONSUMERS < k)%nat →
      sensor_step (mkSensors rb run p cs (MJoin k) n out) (mkSensors rb run p cs MReturned n out).

Definition sensors_start : sensors :=
  mkSensors new_LockFreeRingBuffer true (PLoop 0) (replicate NUM_CONSUMERS CLoop) MSleep 0 (replicate NUM_CONSUMERS []).

(** ** The invariant *)

(** The newest of the first [n] samples that goes to the slot of position [r]. *)
Definition slot_holds (r n : Z) : Z := n - 1 - (n - 1 - r) mod BUFFER_SIZE.

Definition printed_ok (n : Z) (e : printed) : Prop :=
  0 ≤ p_pos e < p_made e ∧ p_made e ≤ n ∧ p_sample e = sample_of (slot_holds (p_pos e) (p_made e)).

Fixpoint increasing (l : list printed) : Prop :=
  match l with
  | [] => True
  | e :: l => Forall (λ e', p_pos e < p_pos e') l ∧ increasing l
  end.

(** What a consumer knows; [ri] is its read index. *)
Definition consumer_ok (w n ri : Z) (c : sensor_consumer) : Prop :=
  match c with
  | CLoadW r => r = ri
  | CCopy r => ri ≤ r < w
  | CStore r w' s => ri ≤ r < w ∧ r < w' ≤ n ∧ s = sample_of (slot_holds r w')
  | _ => True
  end.

Definition producer_ok (w n : Z) (p : sensor_producer) : Prop :=
  match p with
  | PLoop c | PBody c => c = n ∧ w = n
  | PWrite c idx => c = n ∧ idx = n ∧ w = n
  | PPublish c idx => c = n - 1 ∧ idx = n - 1 ∧ w = n - 1
  | PEnd => w = n
  end.

Record sensor_inv (s : sensors) : Prop := {
  si_len : length (buffer (ring s)) = Z.to_nat BUFFER_SIZE;
  si_made : 0 ≤ made s;
  si_write : 0 ≤ writeIndex (ring s) ≤ made s;
  si_slots i : 0 ≤ i → made s - BUFFER_SIZE ≤ i < made s →
    buffer (ring s) !! Z.to_nat (i mod BUFFER_SIZE) = Some (sample_of i);
  si_producer : producer_ok (writeIndex (ring s)) (made s) (producer s);
  si_consumers : length (consumers s) = NUM_CONSUMERS ∧ length (readIndex (ring s)) = NUM_CONSUMERS ∧
                 length (outs s) = NUM_CONSUMERS;
  si_consumer k c ri : consumers s !! k = Some c → readIndex (ring s) !! k = Some ri →
    0 ≤ ri ≤ writeIndex (ring s) ∧ consumer_ok (writeIndex (ring s)) (made s) ri c;
  si_out k l ri : outs s !! k = Some l → readIndex (ring s) !! k = Some ri →
    increasing l ∧ Forall (λ e, printed_ok (made s) e ∧ p_pos e < ri) l;
  si_running : running s = false ↔ main s ≠ MSleep;
  si_join : match main s with
            | MSleep => True
            | MJoin k => (0 < k)%nat → producer s = PEnd ∧ (∀ j, (S j < k)%nat → (j < NUM_CONSUMERS)%nat → consumers s !! j = Some CEnd)
            | MReturned => producer s = PEnd ∧ (∀ j, (j < NUM_CONSUMERS)%nat → consumers s !! j = Some CEnd)
            end;
}.

Lemma slot_spec r n : 0 ≤ r < n →
  r ≤ slot_holds r n < n ∧ n - BUFFER_SIZE ≤ slot_holds r n ∧ slot_holds r n mod BUFFER_SIZE = r mod BUFFER_SIZE.
Proof.
  intros Hr. unfold slot_holds. pose proof (Z.mod_pos_bound (n - 1 - r) BUFFER_SIZE ltac:(done)).
  pose proof (Z.mod_le (n - 1 - r) BUFFER_SIZE ltac:(lia) ltac:(done)). split; [lia|]. split; [lia|].
  rewrite Zminus_mod_idemp_r. f_equal. lia.
Qed.

Lemma consumer_ok_mono w w' n n' ri c : w ≤ w' → n ≤ n' → consumer_ok w n ri c → consumer_ok w' n' ri c.
Proof. intros Hw Hn. destruct c; simpl; try done; lia || (intros (? & ? & ->); split; [lia|split; [lia|done]]). Qed.

Lemma printed_ok_mono n n' e : n ≤ n' → printed_ok n e → printed_ok n' e.
Proof. intros Hn (? & ? & ?). split; [done|]. split; [lia|done]. Qed.

Lemma consume_check_spec r w : 0 ≤ r ≤ w → w < 2 ^ 64 →
  consume_check r w = None ∧ r = w ∨ ∃ r', consume_check r w = Some r' ∧ r ≤ r' < w ∧ w - BUFFER_SIZE ≤ r'.
Proof.
  intros Hr Hw. unfold consume_check. destruct (Z.leb_spec w r); [left; split; [done|lia]|right].
  rewrite (u64_small (w - r)) by lia. destruct (Z.ltb_spec BUFFER_SIZE (w - r)).
  - rewrite u64_small by (unfold BUFFER_SIZE in *; lia). eexists. split; [done|]. unfold BUFFER_SIZE in *. lia.
  - eexists. split; [done|]. lia.
Qed.

Lemma copy_reads s r : sensor_inv s → 0 ≤ r < made s → consume_copy r (ring s) = Ret (sample_of (slot_holds r (made s))).
Proof.
  intros I Hr. destruct (slot_spec r (made s) Hr) as (H1 & H2 & H3). unfold consume_copy. rewrite mask_mod by lia.
  apply vget_Ret. split; [by apply Z.mod_pos_bound|]. rewrite <-H3. apply (si_slots s I); lia.
Qed.

Lemma write_stores s idx smp : sensor_inv s → 0 ≤ idx →
  produce_write idx smp (ring s) =
    Ret (mkRing (<[Z.to_nat (idx mod BUFFER_SIZE) := smp]> (buffer (ring s))) (writeIndex (ring s)) (readIndex (ring s))).
Proof.
  intros I Hi. unfold produce_write. rewrite mask_mod by lia.
  pose proof (mod_range idx). rewrite vset_total; [done|]. rewrite (si_len s I). unfold BUFFER_SIZE in *. lia.
Qed.

Lemma written_slots s i : sensor_inv s → 0 ≤ i → made s + 1 - BUFFER_SIZE ≤ i < made s + 1 →
  <[Z.to_nat (made s mod BUFFER_SIZE) := sample_of (made s)]> (buffer (ring s)) !! Z.to_nat (i mod BUFFER_SIZE) = Some (sample_of i).
Proof.
  intros I Hi Hr. pose proof (mod_range (made s)). pose proof (mod_range i). destruct (decide (i = made s)) as [->|Hne].
  - apply list_lookup_insert_eq. rewrite (si_len s I). unfold BUFFER_SIZE in *. lia.
  - rewrite list_lookup_insert_ne; [apply (si_slots s I); lia|]. intros E%Z2Nat.inj; [|lia..].
    symmetry in E. apply window_distinct in E; [done|lia].
Qed.

Lemma advance_stores s k r ri : sensor_inv s → readIndex (ring s) !! k = Some ri → 0 ≤ r < 2 ^ 64 - 1 →
  consume_advance (Z.of_nat k) r (ring s) =
    Ret (mkRing (buffer (ring s)) (writeIndex (ring s)) (<[k := r + 1]> (readIndex (ring s)))).
Proof.
  intros I Hk Hr. apply lookup_lt_Some in Hk. unfold consume_advance. rewrite vset_total by lia.
  rewrite bind_Ret, Nat2Z.id, u64_small by lia. done.
Qed.

Lemma increasing_snoc l e : increasing l → Forall (λ e', p_pos e' < p_pos e) l → increasing (l ++ [e]).
Proof.
  induction l as [|x l IH]; simpl; [by intros _ _; repeat constructor|].
  intros [Hx Hl] [Hxe Hle]%list.Forall_cons. split; [apply Forall_app; split; [done|by repeat constructor]|by apply IH].
Qed.

(** A consumer moves without touching the ring. *)
Lemma sensor_consumer_moves s k c c' : sensor_inv s → consumers s !! k = Some c → c ≠ CEnd →
  (c' = CEnd → running s = false) →
  (∀ ri, readIndex (ring s) !! k = Some ri → 0 ≤ ri ≤ writeIndex (ring s) →
    consumer_ok (writeIndex (ring s)) (made s) ri c → consumer_ok (writeIndex (ring s)) (made s) ri c') →
  sensor_inv (mkSensors (ring s) (running s) (producer s) (<[k := c']> (consumers s)) (main s) (made s) (outs s)).
Proof.
  intros I Hk Hne Hend Hok. destruct I as [? ? ? ? ? (Hc & Hr & Ho) Hcon ? ? Hj]. split; simpl; try done.
  - by rewrite length_insert.
  - intros j d ri [[-> ->]|[Hne' Hd]]%insert_cases Hri; [|by apply (Hcon j)].
    destruct (Hcon k c ri Hk Hri). split; [done|]. by apply Hok.
  - assert (∀ j, consumers s !! j = Some CEnd → <[k := c']> (consumers s) !! j = Some CEnd) as Hkeep.
    { intros j Hj'. rewrite list_lookup_insert_ne; [done|]. intros ->. congruence. }
    destruct (main s); [done| |].
    + intros H0. destruct (Hj H0) as [? Hall]. split; [done|]. intros j ? ?. apply Hkeep. by apply Hall.
    + destruct Hj as [? Hall]. split; [done|]. intros j ?. apply Hkeep. by apply Hall.
Qed.

(** The producer moves; the ring may get a sample or a new write index. *)
Lemma sensor_producer_moves s rb' p' n' : sensor_inv s →
  length (buffer rb') = Z.to_nat BUFFER_SIZE → readIndex rb' = readIndex (ring s) →
  writeIndex (ring s) ≤ writeIndex rb' ≤ n' → made s ≤ n' →
  (∀ i, 0 ≤ i → n' - BUFFER_SIZE ≤ i < n' → buffer rb' !! Z.to_nat (i mod BUFFER_SIZE) = Some (sample_of i)) →
  producer_ok (writeIndex rb') n' p' → producer s ≠ PEnd →
  sensor_inv (mkSensors rb' (running s) p' (consumers s) (main s) n' (outs s)).
Proof.
  intros I Hl Hr Hw Hn Hs Hp Hne. destruct I as [? ? Hw0 ? ? ? Hcon Hout ? Hj]. split; simpl; rewrite ?Hr; try done; [lia|lia| | |].
  - intros k c ri Hk Hri. destruct (Hcon k c ri Hk Hri) as [? Hok]. split; [lia|]. by eapply consumer_ok_mono; [| |exact Hok]; [lia|].
  - intros k l ri Hk Hri. destruct (Hout k l ri Hk Hri) as [? HF]. split; [done|]. eapply Forall_impl; [exact HF|].
    intros e [He ?]. split; [by eapply printed_ok_mono; [|exact He]|done].
  - destruct (main s); [done| |by destruct Hj]. intros H0. by destruct (Hj H0).
Qed.

Lemma store_moves s k r w smp ri : sensor_inv s → made s < 2 ^ 64 →
  consumers s !! k = Some (CStore r w smp) → readIndex (ring s) !! k = Some ri →
  sensor_inv (mkSensors (mkRing (buffer (ring s)) (writeIndex (ring s)) (<[k := r + 1]> (readIndex (ring s))))
    (running s) (producer s) (<[k := CLoop]> (consumers s)) (main s) (made s)
    (alter (λ l, l ++ [mkPrinted r w smp]) k (outs s))).
Proof.
  intros I H64 Hk Hri. pose proof (sensor_consumer_moves s k _ CLoop I Hk ltac:(done) ltac:(done) ltac:(done)) as I1.
  destruct (si_consumer s I k _ ri Hk Hri) as [Hr0 (Hr & Hw & ->)].
  destruct I1 as [? ? ? ? ? (Hc & Hrl & Ho) Hcon Hout ? Hj]. simpl in *. split; simpl; try done.
  - split_and!; [done|by rewrite length_insert|by rewrite length_alter].
  - intros j c rj Hj'. intros [[-> ->]|[Hne Hrj]]%insert_cases; [|by apply (Hcon j)].
    rewrite list_lookup_insert_eq in Hj' by (by eapply lookup_lt_Some). injection Hj' as <-. simpl. split; [lia|done].
  - intros j l rj. destruct (decide (j = k)) as [->|Hne].
    + rewrite list_lookup_alter, decide_True, list_lookup_insert_eq by (done || by eapply lookup_lt_Some). intros (l0 & Hl0 & ->)%fmap_Some [= <-].
      destruct (Hout k l0 ri Hl0 Hri) as [Hinc HF]. split.
      * apply increasing_snoc; [done|]. eapply Forall_impl; [exact HF|]. intros e [_ He]. simpl. lia.
      * apply Forall_app. split.
        -- eapply Forall_impl; [exact HF|]. intros e [He ?]. split; [done|lia].
        -- repeat constructor; simpl; lia || done.
    + rewrite list_lookup_alter, decide_False, list_lookup_insert_ne by done. apply Hout.
Qed.

Lemma sensor_inv_step s s' : sensor_inv s → sensor_step s s' → made s' < 2 ^ 64 → sensor_inv s'.
Proof.
  intros I Hs H64. pose proof (si_write s I) as Hw. pose proof (si_made s I) as H0. pose proof (si_producer s I) as Hp.
  pose proof (si_running s I) as Hrun. pose proof (si_slots s I) as Hsl. pose proof (si_len s I) as Hlen.
  destruct Hs as [rb run cs m n out c|rb run cs m n out c|rb run cs m n out c idx rb' E|rb run cs m n out c idx
    |rb run p cs m n out k Hk|rb run p cs m n out k r Hk E|rb run p cs m n out k r Hk|rb run p cs m n out k r smp Hk E
    |rb run p cs m n out k r w smp rb' Hk E|rb run p cs n out|rb run cs n out|rb run p cs k n out Hk|rb run p cs k n out Hk]; simpl in *.
  - apply (sensor_producer_moves _ rb _ n I); simpl; try done; try lia. destruct run; simpl; lia.
  - apply (sensor_producer_moves _ rb _ n I); simpl; try done; lia.
  - destruct Hp as (-> & -> & Hp). pose proof (write_stores _ n (sample_of n) I ltac:(lia)) as Ew. simpl in Ew. rewrite Ew in E. injection E as <-.
    eapply (sensor_producer_moves _ _ _ (n + 1) I); simpl; rewrite ?length_insert; try done; try lia.
    intros i Hi Hr. by apply (written_slots _ i I).
  - destruct Hp as (-> & -> & Hp). eapply (sensor_producer_moves _ _ _ n I); simpl; try done; rewrite ?u64_small by lia; try lia.
  - apply (sensor_consumer_moves _ k CLoop _ I Hk); simpl; try done; destruct run; done.
  - apply (sensor_consumer_moves _ k CLoadR _ I Hk); simpl; try done. intros ri Hri _ _.
    apply vget_Ret in E as [_ E]. rewrite Nat2Z.id in E. congruence.
  - apply (sensor_consumer_moves _ k (CLoadW r) _ I Hk); simpl; try done.
    + destruct (consume_check r (writeIndex rb)); done.
    + intros ri Hri Hr ->. destruct (consume_check_spec ri (writeIndex rb) Hr ltac:(lia)) as [[-> _]|(r' & -> & ? & _)]; simpl; [done|lia].
  - apply (sensor_consumer_moves _ k (CCopy r) _ I Hk); simpl; try done. intros ri Hri Hr Hok.
    pose proof (copy_reads _ r I) as Ec. simpl in Ec. rewrite Ec in E by lia. injection E as <-. split; [lia|]. split; [lia|done].
  - pose proof (si_consumers _ I) as (Hc & Hrl & _). simpl in *. apply lookup_lt_Some in Hk as Hlt.
    destruct (lookup_lt_is_Some_2 (readIndex rb) k) as [ri Hri]; [lia|].
    destruct (si_consumer _ I k _ ri Hk Hri) as [Hr0 (Hr & Hw' & _)]. simpl in *.
    pose proof (advance_stores _ k r ri I Hri ltac:(simpl; lia)) as Ea. simpl in Ea. rewrite Ea in E. injection E as <-. by apply (store_moves _ k r w smp ri I).
  - destruct I as [? ? ? ? ? ? ? ? ? ?]. split; simpl in *; try done. lia.
  - destruct I as [? ? ? ? ? ? ? ? ? Hj]. split; simpl in *; try done; [by split; [|intros _; apply Hrun]|].
    intros _. split; [done|]. intros j ? ?. lia.
  - destruct I as [? ? ? ? ? ? ? ? ? Hj]. split; simpl in *; try done; [by split; [|intros _; apply Hrun]|].
    intros _. destruct (Hj ltac:(lia)) as [? Hall].
    split; [done|]. intros j Hj1 Hj2. destruct (decide (j = k)) as [->|]; [done|]. apply Hall; [lia|done].
  - destruct I as [? ? ? ? ? ? ? ? ? Hj]. split; simpl in *; try done; [by split; [|intros _; apply Hrun]|].
    destruct (Hj ltac:(lia)) as [? Hall]. split; [done|]. intros j Hj1. apply Hall; [lia|done].
Qed.

Lemma made_grows s s' : sensor_step s s' → made s ≤ made s'.
Proof. destruct 1; simpl; lia. Qed.

Lemma sensors_inv s : rtc sensor_step sensors_start s → made s < 2 ^ 64 → sensor_inv s.
Proof.
  intros Hr. assert (sensor_inv sensors_start) as H0.
  { split; simpl; try done; try lia.
    - intros k c ri Hk Hri. assert (c = CLoop ∧ ri = 0) as [-> ->]; [|done].
      destruct k as [|[|[]]]; simpl in *; by simplify_eq.
    - intros k l ri Hk _. destruct k as [|[|[]]]; simpl in *; by simplify_eq. }
  revert s Hr. apply (rtc_ind_r (λ s, made s < 2 ^ 64 → sensor_inv s)); [done|]. intros s1 s2 _ Hs IH H64.
  pose proof (made_grows _ _ Hs). eapply sensor_inv_step; [apply IH; lia|done|done].
Qed.

(** ** Nobody waits for anybody

    A thread that has not ended can always take its next step. *)

Lemma producer_can_move s : sensor_inv s → producer s ≠ PEnd →
  ∃ s', sensor_step s s' ∧ consumers s' = consumers s ∧ main s' = main s ∧ producer s' ≠ producer s.
Proof.
  intros I Hne. pose proof (si_producer s I) as Hp. pose proof (si_made s I) as Hn. pose proof (write_stores s) as Hw.
  destruct s as [rb run p cs m n out]. simpl in *. destruct p as [c|c|c idx|c idx|]; simpl in *; [| | | |done].
  - eexists. split; [apply sp_test|]. by destruct run.
  - eexists. split; [apply sp_load|done].
  - destruct Hp as (-> & -> & _). eexists. split; [eapply sp_write; by apply Hw|done].
  - eexists. split; [apply sp_publish|done].
Qed.

Lemma consumer_can_move s k c : sensor_inv s → made s < 2 ^ 64 → consumers s !! k = Some c → c ≠ CEnd →
  ∃ s', sensor_step s s' ∧ consumers s' !! k ≠ Some c ∧ producer s' = producer s ∧ main s' = main s.
Proof.
  intros I H64 Hk Hne. apply lookup_lt_Some in Hk as Hlt. pose proof (si_consumers s I) as (Hc & Hrl & _).
  destruct (lookup_lt_is_Some_2 (readIndex (ring s)) k) as [ri Hri]; [lia|].
  destruct (si_consumer s I k c ri Hk Hri) as [Hr0 Hok]. pose proof (si_write s I) as Hw.
  pose proof (copy_reads s) as Hcopy. pose proof (advance_stores s k) as Hadv.
  destruct s as [rb run p cs m n out]. simpl in *. destruct c as [| |r|r|r w smp|]; simpl in *; [| | | | |done].
  - eexists. split; [by apply sc_test|]. simpl. rewrite list_lookup_insert_eq by done. by destruct run.
  - eexists. split; [eapply sc_load_r; [done|]; apply vget_Ret; split; [lia|by rewrite Nat2Z.id]|].
    simpl. by rewrite list_lookup_insert_eq.
  - eexists. split; [by apply sc_load_w|]. simpl. rewrite list_lookup_insert_eq by done.
    by destruct (consume_check r (writeIndex rb)).
  - eexists. split; [eapply sc_copy; [done|]; apply Hcopy; [done|lia]|]. simpl. by rewrite list_lookup_insert_eq.
  - eexists. split; [eapply sc_store; [done|]; eapply Hadv; [done|done|lia]|]. simpl. by rewrite list_lookup_insert_eq.
Qed.

(** ** Stopping *)

Definition producer_left (p : sensor_producer) : nat :=
  match p with PBody _ => 4 | PWrite _ _ => 3 | PPublish _ _ => 2 | PLoop _ => 1 | PEnd => 0 end.
Definition consumer_left (c : sensor_consumer) : nat :=
  match c with CLoadR => 5 | CLoadW _ => 4 | CCopy _ => 3 | CStore _ _ _ => 2 | CLoop => 1 | CEnd => 0 end.
Definition main_left (m : sensor_main) : nat :=
  match m with MSleep => 0 | MJoin k => (4 - k) + 1 | MReturned => 0 end.

Definition sensors_left (s : sensors) : nat :=
  producer_left (producer s) + total consumer_left (consumers s) + main_left (main s).

Lemma join_bound s s' : sensor_inv s → sensor_step s s' → main s ≠ main s' → main s ≠ MSleep → (main_left (main s') < main_left (main s))%nat.
Proof.
  intros I Hs Hne Hm. pose proof (si_consumers s I) as (Hc & _).
  destruct Hs; simpl in *; try done; try lia.
  match goal with H : _ !! _ = Some CEnd |- _ => apply lookup_lt_Some in H end. unfold NUM_CONSUMERS in *. lia.
Qed.

Lemma stopped_decreases s s' : sensor_inv s → running s = false → sensor_step s s' →
  running s' = false ∧ (sensors_left s' < sensors_left s)%nat.
Proof.
  intros I Hrun Hs. pose proof (join_bound s s' I Hs) as Hj. pose proof (proj1 (si_running s I) Hrun) as Hm.
  unfold sensors_left.
  destruct Hs as [rb run cs m n out c|rb run cs m n out c|rb run cs m n out c idx rb' E|rb run cs m n out c idx
    |rb run p cs m n out k Hk|rb run p cs m n out k r Hk E|rb run p cs m n out k r Hk|rb run p cs m n out k r smp Hk E
    |rb run p cs m n out k r w smp rb' Hk E|rb run p cs n out|rb run cs n out|rb run p cs k n out Hk|rb run p cs k n out Hk];
    simpl in *; subst run; (split; [done|]); simpl; try lia.
  - pose proof (total_insert consumer_left cs k _ CEnd Hk). simpl in *. lia.
  - pose proof (total_insert consumer_left cs k _ (CLoadW r) Hk). simpl in *. lia.
  - destruct (consume_check r (writeIndex rb)) as [r'|].
    + pose proof (total_insert consumer_left cs k _ (CCopy r') Hk). simpl in *. lia.
    + pose proof (total_insert consumer_left cs k _ CLoop Hk). simpl in *. lia.
  - pose proof (total_insert consumer_left cs k _ (CStore r n smp) Hk). simpl in *. lia.
  - pose proof (total_insert consumer_left cs k _ CLoop Hk). simpl in *. lia.
  - done.
  - specialize (Hj ltac:(intros [= E]; lia) ltac:(done)). lia.
Qed.

Lemma stopped_bound n s s' : sensor_inv s → made s' < 2 ^ 64 → running s = false → nsteps sensor_step n s s' →
  (n ≤ sensors_left s)%nat.
Proof.
  intros I H64 Hrun Hn. assert (∀ x y k, nsteps sensor_step k x y → made x ≤ made y) as Hmono.
  { clear. intros x y k. induction 1 as [|k x z y Hs _ IH]; [lia|]. pose proof (made_grows _ _ Hs). lia. }
  induction Hn as [|n s s1 s' Hs Hn IH]; [lia|]. destruct (stopped_decreases s s1 I Hrun Hs) as [Hrun' Hlt].
  assert (sensor_inv s1) as I1. { eapply sensor_inv_step; [done|done|]. specialize (Hmono _ _ _ Hn). lia. }
  specialize (IH I1 H64 Hrun'). lia.
Qed.

Lemma left_bound s : sensor_inv s → (sensors_left s ≤ 19)%nat.
Proof.
  intros I. pose proof (si_consumers s I) as (Hc & _). unfold sensors_left.
  assert (total consumer_left (consumers s) ≤ 10)%nat.
  { destruct (consumers s) as [|c1 [|c2 [|]]]; try done. simpl. destruct c1, c2; simpl; lia. }
  destruct (producer s), (main s); simpl; lia.
Qed.

(** A stopped program is at rest only when [main] has returned. *)
Lemma sensors_progress s : sensor_inv s → made s < 2 ^ 64 → main s = MReturned ∨ ∃ s', sensor_step s s'.
Proof.
  intros I H64. pose proof (producer_can_move s I) as Hp. pose proof (consumer_can_move s) as Hcm.
  pose proof (si_consumers s I) as (Hc & _). destruct s as [rb run p cs [|k|] n out]; simpl in *; [right; eexists; apply sm_stop| |by left].
  right. destruct k as [|k].
  - assert (p = PEnd ∨ p ≠ PEnd) as [->|Hne] by (destruct p; auto); [eexists; apply sm_join_producer|].
    destruct (Hp Hne) as (s' & Hs & _). by exists s'.
  - destruct (cs !! k) as [c|] eqn:E.
    + assert (c = CEnd ∨ c ≠ CEnd) as [->|Hne] by (destruct c; auto); [eexists; by apply sm_join|].
      destruct (Hcm k c I H64 E Hne) as (s' & Hs & _). by exists s'.
    + apply lookup_ge_None in E. eexists. apply sm_return. lia.
Qed.

(** C40: in every interleaving of the producer, the consumers and [main], while
    fewer than 2^64 samples have been stored: every sample a consumer prints
    after reading position [r] is the newest stored sample whose number is
    congruent to [r], so it is number [r] itself unless the producer overtook the
    consumer during the read; positions never repeat or go back; every thread
    that has not ended can take its next step whatever the others do; and once
    [main] has cleared [running] all threads and [main] end within 19 steps. *)
Theorem sensor_program_correct s : rtc sensor_step sensors_start s → made s < 2 ^ 64 →
  (∀ k l, outs s !! k = Some l → increasing l ∧ Forall (printed_ok (made s)) l ∧
     Forall (λ e, p_made e ≤ p_pos e + BUFFER_SIZE → timestamp (p_sample e) = p_pos e) l) ∧
  (producer s ≠ PEnd → ∃ s', sensor_step s s' ∧ producer s' ≠ producer s) ∧
  (∀ k c, consumers s !! k = Some c → c ≠ CEnd → ∃ s', sensor_step s s' ∧ consumers s' !! k ≠ Some c) ∧
  (running s = false → ∀ n s', made s' < 2 ^ 64 → nsteps sensor_step n s s' → (n ≤ 19)%nat) ∧
  (main s = MReturned ∨ ∃ s', sensor_step s s').
Proof.
  intros Hr H64. pose proof (sensors_inv s Hr H64) as I. split; [|split; [|split; [|split]]].
  - intros k l Hl. pose proof (si_consumers s I) as (_ & Hrl & Ho). apply lookup_lt_Some in Hl as Hlt.
    destruct (lookup_lt_is_Some_2 (readIndex (ring s)) k) as [ri Hri]; [lia|].
    destruct (si_out s I k l ri Hl Hri) as [Hinc HF]. split; [done|]. split; (eapply Forall_impl; [exact HF|]); intros e [He _]; [done|].
    destruct He as (Hpos & _ & ->). intros Hnear. simpl. unfold slot_holds. rewrite Z.mod_small by lia. lia.
  - intros Hne. destruct (producer_can_move s I Hne) as (s' & ? & _ & _ & ?). by exists s'.
  - intros k c Hk Hne. destruct (consumer_can_move s k c I H64 Hk Hne) as (s' & ? & ? & _). by exists s'.
  - intros Hrun n s' Hn' Hn. pose proof (stopped_bound n s s' I Hn' Hrun Hn). pose proof (left_bound s I). lia.
  - by apply sensors_progress.
Qed.
End program.

(** One sample goes through. *)
Lemma one_sample_run : ∃ s, rtc (sensor_step id) sensors_start s ∧ made s = 1 ∧
  outs s = [[mkPrinted 0 1 (mkSample 0 0)]; []].
Proof.
  eexists. split.
  - unfold sensors_start.
    eapply rtc_l; [apply sp_test|]. eapply rtc_l; [apply sp_load|]. eapply rtc_l; [eapply sp_write; reflexivity|].
    eapply rtc_l; [apply sp_publish|].
    eapply rtc_l; [eapply (sc_test _ _ _ _ _ _ _ _ 0); reflexivity|].
    eapply rtc_l; [eapply (sc_load_r _ _ _ _ _ _ _ _ 0); reflexivity|].
    eapply rtc_l; [eapply (sc_load_w _ _ _ _ _ _ _ _ 0); reflexivity|].
    eapply rtc_l; [eapply (sc_copy _ _ _ _ _ _ _ _ 0); reflexivity|].
    eapply rtc_l; [eapply (sc_store _ _ _ _ _ _ _ _ 0); reflexivity|]. apply rtc_refl.
  - split; reflexivity.
Qed.

Lemma sensor_program_correct_witness : ∃ s, made s = 1 ∧
  ∀ k l, outs s !! k = Some l → increasing l ∧ Forall (printed_ok id (made s)) l.
Proof.
  destruct one_sample_run as (s & Hr & Hm & Ho). exists s. split; [exact Hm|]. intros k l Hl.
  destruct (sensor_program_correct id s Hr ltac:(rewrite Hm; lia)) as [H _]. destruct (H k l Hl) as (H1 & H2 & _). by split.
Defined.
