(* ===== verification/PollPrograms.v ===== *)
(** * pollMechanisms/: the mains of poll.c, epoll.c and select.c

    PipePolls models the writers and the reading loops; here are the programs
    around them: the pipes are created, the writers forked, the ready pipes read,
    and everything closed, with the early returns for every call that fails.
    What the operating system answers is a parameter ([os_answers]); the state is
    the set of open descriptors of the process and the bytes in the pipes.
    [close] of a descriptor that is not open is a fault of the program. *)

From stdpp Require Import base list gmap sets numbers strings.
From Stdlib Require Import ZArith Lia.
From S2P Require Import Prelude PipePolls.

Record os_answers := mkAnswers {
  a_malloc : bool;                       (* does the allocation succeed? *)
  a_calloc : bool;
  a_pipe : Z → option pipe;              (* the [i]-th call; [None]: it fails *)
  a_fork : Z → Z;                        (* the [w]-th call *)
  a_bytes : data;                        (* what is in the pipes when the wait returns *)
  a_poll : list pipe → data → list (Z * Z) * Z;
  a_epoll_create : Z;
  a_epoll_ctl : Z → Z;
  a_epoll_wait : list pipe → data → list Z * Z;
  a_select : gset Z → data → gset Z * Z;
}.

(** How a process ends: its exit code, the descriptors it has left open, and the
    bytes that are left in the pipes. *)
Record ended := mkEnded { e_code : Z; e_open : gset Z; e_bytes : data }.

(** The loop of [pipe] calls; on failure the descriptors that are open. *)
Fixpoint make_pipes (n : nat) (i : Z) (mk : Z → option pipe) (fds : list pipe) (opened : gset Z) :
    (list (Z * Z) * gset Z) + gset Z :=
  match n with
  | O => inl (fds, opened)
  | S n =>
      match mk i with
      | None => inr opened
      | Some p => make_pipes n (i + 1) mk (fds ++ [p]) ({[p.1; p.2]} ∪ opened)
      end
  end.

Inductive forked := ForkFails | Child (w : Z) | Parent (pids : list Z).

Fixpoint fork_writers (n : nat) (w : Z) (fork : Z → Z) (pids : list Z) : forked :=
  match n with
  | O => Parent pids
  | S n =>
      let p := fork w in
      if p <? 0 then ForkFails else if p =? 0 then Child w else fork_writers n (w + 1) fork (pids ++ [p])
  end.

Definition close_fd (fd : Z) (opened : gset Z) : outcome (gset Z) :=
  if decide (fd ∈ opened) then Ret (opened ∖ {[fd]}) else Err (Exn "close: bad descriptor").

Fixpoint close_pipes (fds : list pipe) (opened : gset Z) : outcome (gset Z) :=
  match fds with
  | [] => Ret opened
  | p :: fds => opened ← close_fd p.1 opened; opened ← close_fd p.2 opened; close_pipes fds opened
  end.

(** The child: it writes its bytes and leaves without closing anything. *)
Definition child_exits (letter : Z → Z) (w N M : Z) (fds : list pipe) (opened : gset Z) (d : data) : outcome ended :=
  ws ← writer letter w N M; d ← run_writes fds ws d; Ret (mkEnded 0 opened d).

Section programs.
Context (os : os_answers).

(** poll.c *)
Definition poll_main (argN argM : option Z) : outcome ended :=
  let N := num_fds argN in
  let M := num_writers argM in
  if negb (a_malloc os) then Ret (mkEnded 1 ∅ (a_bytes os)) else
  match make_pipes (Z.to_nat N) 0 (a_pipe os) [] ∅ with
  | inr opened => Ret (mkEnded 1 opened (a_bytes os))
  | inl (fds, opened) =>
      match fork_writers (Z.to_nat M) 0 (a_fork os) [] with
      | ForkFails => Ret (mkEnded 1 opened (a_bytes os))
      | Child w => child_exits poll_letter w N M fds opened (a_bytes os)
      | Parent _ =>
          if negb (a_calloc os) then Err NullDeref else       (* pfds[0].fd = ... *)
          let '(pfds, rv) := a_poll os fds (a_bytes os) in
          d ← (if rv <? 0 then Ret (a_bytes os) else poll_reads pfds 0 rv (a_bytes os));
          opened ← close_pipes fds opened;
          Ret (mkEnded 0 opened d)
      end
  end.

(** epoll.c *)
Fixpoint add_interest (n : nat) (i : Z) (ctl : Z → Z) : bool :=
  match n with O => true | S n => if ctl i <? 0 then false else add_interest n (i + 1) ctl end.

Definition epoll_main (argN argM : option Z) : outcome ended :=
  let N := num_fds argN in
  let M := num_writers argM in
  if negb (a_malloc os) then Ret (mkEnded 1 ∅ (a_bytes os)) else
  match make_pipes (Z.to_nat N) 0 (a_pipe os) [] ∅ with
  | inr opened => Ret (mkEnded 1 opened (a_bytes os))
  | inl (fds, opened) =>
      let epfd := a_epoll_create os in
      if epfd <? 0 then Ret (mkEnded 1 opened (a_bytes os)) else
      let opened := {[epfd]} ∪ opened in
      if negb (add_interest (Z.to_nat N) 0 (a_epoll_ctl os)) then Ret (mkEnded 1 opened (a_bytes os)) else
      match fork_writers (Z.to_nat M) 0 (a_fork os) [] with
      | ForkFails => Ret (mkEnded 1 opened (a_bytes os))
      | Child w => child_exits epoll_letter w N M fds opened (a_bytes os)
      | Parent _ =>
          let '(events, rv) := a_epoll_wait os fds (a_bytes os) in
          d ← (if rv <? 0 then Ret (a_bytes os) else epoll_reads (take (Z.to_nat rv) events) (a_bytes os));
          opened ← close_pipes fds opened;
          opened ← close_fd epfd opened;
          Ret (mkEnded 0 opened d)
      end
  end.

(** select.c; the child closes each write end after writing to it, the parent
    closes them all before it waits. *)
Fixpoint close_writers (fds : list pipe) (opened : gset Z) : outcome (gset Z) :=
  match fds with [] => Ret opened | p :: fds => opened ← close_fd p.2 opened; close_writers fds opened end.
Fixpoint close_readers (fds : list pipe) (opened : gset Z) : outcome (gset Z) :=
  match fds with [] => Ret opened | p :: fds => opened ← close_fd p.1 opened; close_readers fds opened end.

Definition select_main (arg : option Z) : outcome ended :=
  let N := select_fds arg in
  match make_pipes (Z.to_nat N) 0 (a_pipe os) [] ∅ with
  | inr opened => Ret (mkEnded 1 opened (a_bytes os))
  | inl (fds, opened) =>
      let p := a_fork os 0 in
      if p <? 0 then Ret (mkEnded 1 opened (a_bytes os)) else
      if p =? 0 then
        d ← run_writes fds (select_writes (Z.to_nat N) 0) (a_bytes os);
        opened ← close_writers fds opened;
        Ret (mkEnded 0 opened d)
      else
        opened ← close_writers fds opened;
        let '(readset, maxfd) := select_set fds ∅ 0 in
        let '(readset, rv) := a_select os readset (a_bytes os) in
        d ← (if rv <? 0 then Ret (a_bytes os) else select_reads fds readset (a_bytes os));
        opened ← close_readers fds opened;
        Ret (mkEnded 0 opened d)
  end.
End programs.

(** ** The pipes *)

Definition ends (fds : list pipe) : list Z := fds ≫= λ p, [p.1; p.2].

(** [pipe] answers with pairs of descriptors that are not in use. *)
Definition fresh_pipes (mk : Z → option pipe) (N : nat) (fds : list pipe) : Prop :=
  length fds = N ∧ NoDup (ends fds) ∧ ∀ i p, fds !! i = Some p → mk (Z.of_nat i) = Some p.

Lemma make_pipes_spec (mk : Z → option pipe) k done opened fds :
  (∀ i p, fds !! i = Some p → mk (k + Z.of_nat i) = Some p) →
  make_pipes (length fds) k mk done opened = inl (done ++ fds, list_to_set (ends fds) ∪ opened).
Proof.
  revert k done opened. induction fds as [|p fds IH]; intros k done opened Hp; simpl.
  - rewrite app_nil_r. f_equal. f_equal. set_solver.
  - pose proof (Hp 0%nat p eq_refl) as H0. rewrite Z.add_0_r in H0. rewrite H0, IH.
    + rewrite <-app_assoc. simpl. f_equal. f_equal. set_solver.
    + intros i q Hq. specialize (Hp (S i) q Hq). by replace (k + 1 + Z.of_nat i) with (k + Z.of_nat (S i)) by lia.
Qed.

(** The first call that fails ends the loop; the pipes made before stay open. *)
Lemma make_pipes_fails (mk : Z → option pipe) n fds k done opened :
  (∀ i p, fds !! i = Some p → mk (k + Z.of_nat i) = Some p) → mk (k + Z.of_nat (length fds)) = None →
  (length fds < n)%nat → make_pipes n k mk done opened = inr (list_to_set (ends fds) ∪ opened).
Proof.
  revert n k done opened. induction fds as [|p fds IH]; intros [|n] k done opened Hp Hn Hlt; simpl in *; try lia.
  - rewrite Z.add_0_r in Hn. rewrite Hn. f_equal. set_solver.
  - pose proof (Hp 0%nat p eq_refl) as H0. rewrite Z.add_0_r in H0. rewrite H0, IH; [f_equal; set_solver| | |lia].
    + intros i q Hq. specialize (Hp (S i) q Hq). by replace (k + 1 + Z.of_nat i) with (k + Z.of_nat (S i)) by lia.
    + by replace (k + 1 + Z.of_nat (length fds)) with (k + Z.pos (Pos.of_succ_nat (length fds))) by lia.
Qed.

Lemma fork_writers_spec fork n w pids : (∀ i, w ≤ i < w + Z.of_nat n → 0 < fork i) →
  ∃ pids', fork_writers n w fork pids = Parent pids'.
Proof.
  revert w pids. induction n as [|n IH]; intros w pids Hf; [by eexists|]. simpl. pose proof (Hf w ltac:(lia)).
  rewrite (proj2 (Z.ltb_ge _ _)), (proj2 (Z.eqb_neq _ 0)) by lia. apply IH. intros i Hi. apply Hf. lia.
Qed.

Lemma close_fd_open fd (o : gset Z) : fd ∈ o → close_fd fd o = Ret (o ∖ {[fd]}).
Proof. intros H. unfold close_fd. by rewrite decide_True. Qed.

Lemma close_pipes_spec fds (rest : gset Z) : NoDup (ends fds) → (∀ x, x ∈ ends fds → x ∉ rest) →
  close_pipes fds (list_to_set (ends fds) ∪ rest) = Ret rest.
Proof.
  induction fds as [|[r w] fds IH]; intros Hnd Hrest; [simpl; f_equal; set_solver|].
  change (ends ((r, w) :: fds)) with (r :: w :: ends fds) in *. apply list.NoDup_cons in Hnd as [Hr Hnd].
  apply list.NoDup_cons in Hnd as [Hw Hnd]. simpl. rewrite close_fd_open by set_solver. rewrite bind_Ret.
  rewrite close_fd_open by set_solver. rewrite bind_Ret.
  assert (({[r]} ∪ ({[w]} ∪ list_to_set (ends fds)) ∪ rest) ∖ {[r]} ∖ {[w]} = list_to_set (ends fds) ∪ rest) as -> by set_solver.
  apply IH; [done|]. intros x Hx. apply Hrest. by do 2 right.
Qed.

Lemma close_writers_spec fds (rest : gset Z) : NoDup (ends fds) → (∀ x, x ∈ ends fds → x ∉ rest) →
  close_writers fds (list_to_set (ends fds) ∪ rest) = Ret (list_to_set fds.*1 ∪ rest).
Proof.
  revert rest. induction fds as [|[r w] fds IH]; intros rest Hnd Hrest; [done|].
  change (ends ((r, w) :: fds)) with (r :: w :: ends fds) in *. apply list.NoDup_cons in Hnd as [Hr Hnd].
  apply list.NoDup_cons in Hnd as [Hw Hnd]. simpl. rewrite close_fd_open by set_solver. rewrite bind_Ret.
  assert (({[r]} ∪ ({[w]} ∪ list_to_set (ends fds)) ∪ rest) ∖ {[w]} = list_to_set (ends fds) ∪ ({[r]} ∪ rest)) as -> by set_solver.
  rewrite IH; [f_equal; set_solver|done|]. intros x Hx [->%elem_of_singleton|Hxr]%elem_of_union; [|by apply (Hrest x); [do 2 right|]].
  apply Hr. by right.
Qed.

Lemma close_readers_spec fds (rest : gset Z) : NoDup fds.*1 → (∀ x, x ∈ fds.*1 → x ∉ rest) →
  close_readers fds (list_to_set fds.*1 ∪ rest) = Ret rest.
Proof.
  induction fds as [|[r w] fds IH]; intros Hnd Hrest; [simpl; f_equal; set_solver|]. rewrite fmap_cons in *. simpl in *.
  apply list.NoDup_cons in Hnd as [Hr Hnd]. rewrite close_fd_open by set_solver. rewrite bind_Ret.
  assert (({[r]} ∪ list_to_set fds.*1 ∪ rest) ∖ {[r]} = list_to_set fds.*1 ∪ rest) as -> by set_solver.
  apply IH; [done|]. intros x Hx. apply Hrest. by right.
Qed.

Lemma ends_readers fds : NoDup (ends fds) → NoDup fds.*1.
Proof.
  induction fds as [|[r w] fds IH]; [constructor|]. change (ends ((r, w) :: fds)) with (r :: w :: ends fds).
  intros [Hr [Hw Hnd]%list.NoDup_cons]%list.NoDup_cons. rewrite fmap_cons. constructor; [|by apply IH].
  intros Hin. apply list_elem_of_fmap in Hin as (p & E & Hp). apply Hr. right. apply list_elem_of_bind. exists p.
  simpl in E. rewrite E. split; [left|done].
Qed.

(** ** What the programs do *)

(** Every call succeeds: all pipes are made with descriptors of their own, the
    process is the parent of all its children, and the waits report what is in
    the pipes. *)
Record all_succeed (os : os_answers) (N M : Z) (fds : list pipe) : Prop := {
  ok_malloc : a_malloc os = true;
  ok_calloc : a_calloc os = true;
  ok_pipes : fresh_pipes (a_pipe os) (Z.to_nat N) fds;
  ok_fork w : 0 ≤ w < M → 0 < a_fork os w;
  ok_poll d : a_poll os fds d = poll_answer fds d;
  ok_create : 0 ≤ a_epoll_create os ∧ a_epoll_create os ∉ ends fds;
  ok_ctl i : 0 ≤ i < N → 0 ≤ a_epoll_ctl os i;
  ok_wait d : ∃ evs, a_epoll_wait os fds d = (evs, Z.of_nat (length evs)) ∧ epoll_answer fds d evs;
  ok_select S d : a_select os S d = (select_answer S d, Z.of_nat (base.size (select_answer S d)));
}.

Lemma add_interest_spec ctl n i : (∀ k, i ≤ k < i + Z.of_nat n → 0 ≤ ctl k) → add_interest n i ctl = true.
Proof.
  revert i. induction n as [|n IH]; intros i Hc; [done|]. simpl. pose proof (Hc i ltac:(lia)).
  rewrite (proj2 (Z.ltb_ge _ _)) by lia. apply IH. intros k Hk. apply Hc. lia.
Qed.

Lemma pipes_made os N M fds : all_succeed os N M fds → 0 < N →
  make_pipes (Z.to_nat N) 0 (a_pipe os) [] ∅ = inl (fds, list_to_set (ends fds)).
Proof.
  intros Hok HN. destruct (ok_pipes _ _ _ _ Hok) as (Hl & _ & Hp). rewrite <-Hl, (make_pipes_spec _ 0 [] ∅ fds) by done.
  simpl. by rewrite union_empty_r_L.
Qed.

(** When the operating system grants every call, each of the three programs
    reads one byte from exactly the pipes that hold one, without ever blocking,
    closes each descriptor exactly once, and ends with code 0 and nothing open. *)
Theorem poll_programs_clean os argN argM arg fds fds3 :
  all_succeed os (num_fds argN) (num_writers argM) fds →
  all_succeed os (select_fds arg) 1 fds3 →
  (∃ d, poll_main os argN argM = Ret (mkEnded 0 ∅ d) ∧ drained fds (a_bytes os) d) ∧
  (∃ d, epoll_main os argN argM = Ret (mkEnded 0 ∅ d) ∧ drained fds (a_bytes os) d) ∧
  (∃ d, select_main os arg = Ret (mkEnded 0 ∅ d) ∧ drained fds3 (a_bytes os) d).
Proof.
  intros Hok Hok3. destruct (arguments_positive argN) as (HN & _ & _). destruct (arguments_positive argM) as (_ & HM & _).
  destruct (ok_pipes _ _ _ _ Hok) as (_ & Hnd & _). pose proof (ends_readers fds Hnd) as Hrd.
  destruct (fork_writers_spec (a_fork os) (Z.to_nat (num_writers argM)) 0 []) as [pids Hf].
  { intros i Hi. apply (ok_fork _ _ _ _ Hok). lia. }
  split; [|split].
  - destruct (ready_reads fds (a_bytes os) _ Hrd (reflexivity _)) as (d & E & Hd). exists d. split; [|done].
    unfold poll_main. rewrite (ok_malloc _ _ _ _ Hok). simpl negb. cbv iota.
    rewrite (pipes_made _ _ _ _ Hok HN), Hf, (ok_calloc _ _ _ _ Hok), (ok_poll _ _ _ _ Hok). unfold poll_answer. simpl negb. cbv iota.
    rewrite (proj2 (Z.ltb_ge _ _)) by lia. pose proof (poll_reads_ready (a_bytes os) fds 0 (a_bytes os)) as Hp. rewrite Z.add_0_l in Hp.
    rewrite Hp, E, bind_Ret. pose proof (close_pipes_spec fds ∅ Hnd) as Hc. rewrite union_empty_r_L in Hc. rewrite Hc by set_solver. done.
  - destruct (ok_wait _ _ _ _ Hok (a_bytes os)) as (evs & Hw & Hev).
    destruct (ready_reads fds (a_bytes os) evs Hrd Hev) as (d & E & Hd). exists d. split; [|done].
    destruct (ok_create _ _ _ _ Hok) as [He1 He2].
    unfold epoll_main. rewrite (ok_malloc _ _ _ _ Hok). simpl negb. cbv iota.
    rewrite (pipes_made _ _ _ _ Hok HN), (proj2 (Z.ltb_ge _ _)) by lia.
    rewrite add_interest_spec by (intros k Hk; apply (ok_ctl _ _ _ _ Hok); lia). simpl negb. cbv iota.
    rewrite Hf, Hw, (proj2 (Z.ltb_ge _ _)), Nat2Z.id, firstn_all, E, bind_Ret by lia.
    rewrite (union_comm_L {[_]} (list_to_set _)), close_pipes_spec, bind_Ret by set_solver.
    rewrite close_fd_open, bind_Ret by set_solver. by rewrite difference_diag_L.
  - destruct (ok_pipes _ _ _ _ Hok3) as (_ & Hnd3 & _). pose proof (ends_readers fds3 Hnd3) as Hrd3.
    destruct (ready_reads fds3 (a_bytes os) _ Hrd3 (reflexivity _)) as (d & E & Hd). exists d. split; [|done].
    unfold select_main. rewrite (pipes_made _ _ _ _ Hok3) by (destruct (arguments_positive arg) as (_ & _ & [->| ->]); lia).
    pose proof (ok_fork _ _ _ _ Hok3 0 ltac:(lia)). rewrite (proj2 (Z.ltb_ge _ _)), (proj2 (Z.eqb_neq _ 0)) by lia.
    pose proof (close_writers_spec fds3 ∅ Hnd3) as Hc. rewrite !union_empty_r_L in Hc. rewrite Hc, bind_Ret by set_solver.
    pose proof (select_set_spec fds3 ∅ 0) as Hsel. destruct (select_set fds3 ∅ 0) as [S m]. simpl in Hsel. destruct Hsel as (HS & _ & _).
    rewrite (ok_select _ _ _ _ Hok3), (proj2 (Z.ltb_ge _ _)) by lia.
    rewrite (select_reads_ready (a_bytes os) S fds3), E, bind_Ret by (intros fd Hfd; apply HS; by right).
    pose proof (close_readers_spec fds3 ∅ Hrd3) as Hc2. rewrite union_empty_r_L in Hc2. rewrite Hc2 by set_solver. done.
Qed.

(** Two pipes (three for select.c), the first with a byte in it. *)
Definition demo_answers : os_answers :=
  mkAnswers true true (λ i, Some (3 + 2 * i, 4 + 2 * i)) (λ w, 100 + w) {[3 := [97]; 5 := []; 7 := []]}
    poll_answer 20 (λ _, 0) (λ fds d, (ready_fds fds d, Z.of_nat (length (ready_fds fds d))))
    (λ S d, (select_answer S d, Z.of_nat (base.size (select_answer S d)))).

Lemma demo_succeeds n : (0 < n ≤ 3)%nat →
  all_succeed demo_answers (Z.of_nat n) 1 ((λ i, (3 + 2 * Z.of_nat i, 4 + 2 * Z.of_nat i)) <$> seq 0 n).
Proof.
  intros Hn. split; try done.
  - rewrite Nat2Z.id. split; [by rewrite length_fmap, length_seq|]. split.
    + destruct n as [|[|[|[|]]]]; [lia|..|lia]; simpl; apply (bool_decide_unpack _); vm_compute; exact I.
    + intros i p (k & -> & Hk)%list_lookup_fmap_Some. apply lookup_seq in Hk as [-> _]. done.
  - intros w Hw. simpl. lia.
  - split; [done|]. destruct n as [|[|[|[|]]]]; [lia|..|lia]; simpl; apply (bool_decide_unpack _); vm_compute; exact I.
  - intros d. eexists. split; [reflexivity|]. unfold epoll_answer. reflexivity.
Qed.

Lemma poll_programs_clean_witness :
  (∃ d, poll_main demo_answers (Some 2) (Some 1) = Ret (mkEnded 0 ∅ d)) ∧
  (∃ d, select_main demo_answers None = Ret (mkEnded 0 ∅ d)).
Proof.
  destruct (poll_programs_clean demo_answers (Some 2) (Some 1) None _ _ (demo_succeeds 2 ltac:(lia)) (demo_succeeds 3 ltac:(lia)))
    as ((d & E & _) & _ & (d' & E' & _)). split; [by exists d|by exists d'].
Defined.

(** A call that fails ends the program with code 1 and everything that was opened
    before still open. *)
Theorem poll_programs_fail os argN argM fds :
  (a_malloc os = false → poll_main os argN argM = Ret (mkEnded 1 ∅ (a_bytes os)) ∧
                         epoll_main os argN argM = Ret (mkEnded 1 ∅ (a_bytes os))) ∧
  (a_malloc os = true → (length fds < Z.to_nat (num_fds argN))%nat →
   (∀ i p, fds !! i = Some p → a_pipe os (Z.of_nat i) = Some p) → a_pipe os (Z.of_nat (length fds)) = None →
   poll_main os argN argM = Ret (mkEnded 1 (list_to_set (ends fds)) (a_bytes os)) ∧
   epoll_main os argN argM = Ret (mkEnded 1 (list_to_set (ends fds)) (a_bytes os))).
Proof.
  unfold poll_main, epoll_main. split; [intros ->; by split|]. intros -> Hlt Hp Hn. simpl negb. cbv iota.
  rewrite (make_pipes_fails _ (Z.to_nat (num_fds argN)) fds 0 [] ∅) by done. by rewrite union_empty_r_L.
Qed.

(** The array for [poll] is written without a test of [calloc]. *)
Definition no_calloc (os : os_answers) : os_answers :=
  mkAnswers (a_malloc os) false (a_pipe os) (a_fork os) (a_bytes os) (a_poll os) (a_epoll_create os) (a_epoll_ctl os)
    (a_epoll_wait os) (a_select os).

Lemma poll_calloc_unchecked os argN argM fds : all_succeed os (num_fds argN) (num_writers argM) fds →
  poll_main (no_calloc os) argN argM = Err NullDeref.
Proof.
  intros Hok. destruct (arguments_positive argN) as (HN & _ & _). unfold poll_main, no_calloc. simpl a_malloc.
  rewrite (ok_malloc _ _ _ _ Hok). simpl negb. cbv iota. simpl a_pipe.
  rewrite (pipes_made _ _ _ _ Hok HN). simpl a_fork.
  destruct (fork_writers_spec (a_fork os) (Z.to_nat (num_writers argM)) 0 []) as [pids ->]; [|done].
  intros i Hi. apply (ok_fork _ _ _ _ Hok). destruct (arguments_positive argM) as (_ & ? & _). lia.
Qed.
