(* ===== verification/ListDemos.v ===== *)
(** * The mains of the linked-list, queue and stack programs

    Each [main] builds a list, calls the functions of the file and prints; it is
    modelled with the calls in order and evaluated.  [new] and [malloc] take the
    address behind the highest one in use.  What is printed is the list of the
    values, without the text around them. *)

From stdpp Require Import base list gmap numbers.
From Stdlib Require Import ZArith Lia.
From S2P Require Import Prelude CloneList LockFreeStack SharedContainers ArrayQueues.
From S2P Require Import ListHeap LoopLists MergeLists Intersection DeleteNode.

(** ** Building lists *)

Definition new_address {V} (h : gmap Z V) : Z := 1 + map_fold (λ a _ m, Z.max a m) 0 h.

(** [new ListNode(x)] *)
Definition new_ListNode (x : Z) (h : heap) : Z * heap :=
  let a := new_address h in (a, <[a := mkListNode x 0]> h).

(** [p->next->...->next], [k] times. *)
Fixpoint nth_next (k : nat) (h : heap) (p : Z) : outcome Z :=
  match k with O => Ret p | S k => q ← get_next h p; nth_next k h q end.

(** [head->next->...->next = new ListNode(x)], with [k] dereferences on the left,
    for each [x] of the list, one further each time. *)
Fixpoint append_nodes (k : nat) (xs : list Z) (head : Z) (h : heap) : outcome heap :=
  match xs with
  | [] => Ret h
  | x :: xs =>
      let '(a, h) := new_ListNode x h in
      p ← nth_next k h head; h ← set_next h p a; append_nodes (S k) xs head h
  end.

Definition build (x : Z) (xs : list Z) (h : heap) : outcome (Z * heap) :=
  let '(head, h) := new_ListNode x h in h ← append_nodes 0 xs head h; Ret (head, h).

(** The loops that print a list. *)
Fixpoint print_list (fuel : nat) (h : heap) (curr : Z) : outcome (list Z) :=
  if curr =? 0 then Ret [] else
  match fuel with
  | O => Err OutOfFuel
  | S fuel => nd ← load h curr; rest ← print_list fuel h (next nd); Ret (val nd :: rest)
  end.

(** [node->val], unless the node is null. *)
Definition value_of (h : heap) (node : Z) : outcome (option Z) :=
  if node =? 0 then Ret None else nd ← load h node; Ret (Some (val nd)).

(** More than the nodes of any of the lists. *)
Definition FUEL : nat := 20.

(** ** pureStorage/middleNodeLinkedList.cpp *)

Definition middle_main : outcome (Z * heap) :=
  '(head, h) ← build 1 [2; 3; 4; 5] ∅;
  middle ← middleNode FUEL h head;
  nd ← load h middle;
  h ← destroy_from FUEL h head;
  Ret (val nd, h).

(** ** pureStorage/mergeLinkedList.cpp *)

Definition merge_main : outcome (list Z) :=
  '(l1, h) ← build 1 [3; 5] ∅;
  '(l2, h) ← build 2 [4; 6] h;
  '(merged, h) ← mergeTwoListsRecursive FUEL h l1 l2;
  print_list FUEL h merged.

(** ** pureStorage/detectLoopLinkedList.cpp: whether there is a loop, where it
    starts, whether it was fixed, and whether there is one afterwards *)

Definition loop_start (hasLoop : bool) (h : heap) (head : Z) : outcome (option Z) :=
  if hasLoop then s ← startOfLoop FUEL h head; value_of h s else Ret None.
Definition loop_fixed (hasLoop : bool) (h : heap) (head : Z) : outcome (bool * heap) :=
  if hasLoop then fixLoop FUEL h head else Ret (false, h).

Definition loop_main : outcome (bool * option Z * bool * bool) :=
  '(head, h) ← build 1 [2; 3; 4] ∅;
  p ← nth_next 3 h head;
  q ← get_next h head;
  h ← set_next h p q;
  hasLoop ← detectLoop FUEL h head;
  start ← loop_start hasLoop h head;
  '(loopFixed, h) ← loop_fixed hasLoop h head;
  after ← detectLoop FUEL h head;
  Ret (hasLoop, start, loopFixed, after).

(** ** packetHandler/intersectionOfLinkedLists.cpp *)

Definition intersection_main : outcome (list (option Z)) :=
  '(common, h) ← build 8 [4; 5] ∅;
  '(headA, h) ← build 4 [1; 2] h;
  p ← nth_next 2 h headA;
  h ← set_next h p common;
  '(headB, h) ← build 5 [0; 1] h;
  p ← nth_next 2 h headB;
  h ← set_next h p common;
  i ← getIntersectionNode FUEL h headA headB; a ← value_of h i;
  i ← getIntersectionNodeBruteForce FUEL h headA headB; b ← value_of h i;
  i ← getIntersectionNodeUsingHashing FUEL h headA headB; c ← value_of h i;
  Ret [a; b; c].

(** ** arista/deleteNode.cpp *)

Definition printList (l : SingleLinkedList) : outcome (list Z) := print_list FUEL (nodes l) (head l).
Definition getHead (l : SingleLinkedList) : Z := head l.

Definition insert_new (v : Z) (l : SingleLinkedList) : outcome SingleLinkedList :=
  insert FUEL (new_address (nodes l)) v l.

(** The list printed first, the value of the deleted node, the list printed
    afterwards, and the heap behind the destructor. *)
Definition delete_main : outcome (list Z * Z * list Z * heap) :=
  l ← insert_new 1 (new_SingleLinkedList ∅);
  l ← insert_new 2 l;
  l ← insert_new 3 l;
  l ← insert_new 4 l;
  before ← printList l;
  node_to_delete ← get_next (nodes l) (getHead l);
  nd ← load (nodes l) node_to_delete;
  l ← deleteNode node_to_delete l;
  after ← printList l;
  h ← destroy FUEL l;
  Ret (before, val nd, after, h).

(** ** microsoft/cloneLinkedList.cpp *)

Module Clone.
Import CloneList.

(** Each node with the data of its random node. *)
Fixpoint printList (fuel : nat) (h : gmap Z Node) (head : Z) : outcome (list (Z * option Z)) :=
  if head =? 0 then Ret [] else
  match fuel with
  | O => Err OutOfFuel
  | S fuel =>
      n ← load h head;
      r ← (if random n =? 0 then Ret None else m ← load h (random n); Ret (Some (data m)));
      rest ← printList fuel h (next n);
      Ret ((data n, r) :: rest)
  end.

Fixpoint nth_node (k : nat) (h : gmap Z Node) (p : Z) : outcome Z :=
  match k with O => Ret p | S k => n ← load h p; nth_node k h (next n) end.

Fixpoint append_nodes (k : nat) (xs : list Z) (head : Z) (h : gmap Z Node) : outcome (gmap Z Node) :=
  match xs with
  | [] => Ret h
  | x :: xs =>
      let '(a, h) := new_Node new_address x h in
      p ← nth_node k h head; h ← store h p (set_next a); append_nodes (S k) xs head h
  end.

(** [head->next^k->random = head->next^j] *)
Definition set_random_of (k j : nat) (head : Z) (h : gmap Z Node) : outcome (gmap Z Node) :=
  p ← nth_node k h head; q ← nth_node j h head; store h p (set_random q).

Definition main : outcome (list (Z * option Z) * list (Z * option Z)) :=
  let '(head, h) := new_Node new_address 1 ∅ in
  h ← append_nodes 0 [2; 3; 4; 5] head h;
  h ← set_random_of 0 2 head h;
  h ← set_random_of 1 0 head h;
  h ← set_random_of 2 4 head h;
  h ← set_random_of 3 2 head h;
  h ← set_random_of 4 1 head h;
  original ← printList FUEL h head;
  '(clonedList, h) ← cloneLinkedList new_address FUEL head h;
  cloned ← printList FUEL h clonedList;
  Ret (original, cloned).
End Clone.

(** ** The queues and stacks in C, and the stack in C++ *)

Module Queues.
Import SharedContainers ArrayQueues.

Fixpoint times {S} (n : nat) (op : S → outcome (Z * S)) (s : S) : outcome (list Z) :=
  match n with O => Ret [] | S n => '(v, s) ← op s; vs ← times n op s; Ret (v :: vs) end.

Fixpoint each {S} (op : S → Z → outcome (Z * S)) (vs : list Z) (s : S) : outcome S :=
  match vs with [] => Ret s | v :: vs => '(_, s) ← op s v; each op vs s end.

(** queue/queue.c and stack/stack.c; [garbage] is what [malloc] returns. *)
Definition queue_main (garbage : list Z) : outcome (list Z) :=
  q ← each enqueue [1; 2; 3; 4; 5] (queueInit garbage 4); times 5 dequeue q.
Definition stack_main (garbage : list Z) : outcome (list Z) :=
  s ← each s_push [1; 2; 3; 4; 5] (stackInit garbage 10); times 6 s_pop s.

(** queue/queueUsingLinkedList.c *)
Fixpoint ll_enqueue_all (vs : list Z) (q : ThreadSafeQueue) : outcome ThreadSafeQueue :=
  match vs with [] => Ret q | v :: vs => q ← ll_enqueue (new_address (q_heap q)) v q; ll_enqueue_all vs q end.
Definition ll_queue_main : outcome (list Z) := q ← ll_enqueue_all [10; 20; 30] createQueue; times 4 ll_dequeue q.

(** stack/stack.cpp *)
Definition cpp_stack_main : outcome (list Z) :=
  s ← push 10 new_Stack; s ← push 20 s; s ← push 30 s; times 4 pop s.
End Queues.

(** ** What they print *)

(** The list programs print what their comments announce, and the two that clean
    up leave nothing on the heap. *)
Theorem list_mains_print :
  middle_main = Ret (3, ∅) ∧
  merge_main = Ret [1; 2; 3; 4; 5; 6] ∧
  loop_main = Ret (true, Some 2, true, false) ∧
  intersection_main = Ret [Some 8; Some 8; Some 8] ∧
  delete_main = Ret ([1; 2; 3; 4], 2, [1; 3; 4], ∅) ∧
  Clone.main = Ret ([(1, Some 3); (2, Some 1); (3, Some 5); (4, Some 3); (5, Some 2)],
                    [(1, Some 3); (2, Some 1); (3, Some 5); (4, Some 3); (5, Some 2)]).
Proof. split_and!; vm_compute; reflexivity. Qed.

(** So do the queues; -1 is answered for an empty one. *)
Theorem queue_mains_print a b c d e f g h i j :
  Queues.queue_main [a; b; c; d] = Ret [1; 2; 3; 4; -1] ∧
  Queues.stack_main [a; b; c; d; e; f; g; h; i; j] = Ret [5; 4; 3; 2; 1; -1] ∧
  Queues.ll_queue_main = Ret [10; 20; 30; -1] ∧
  Queues.cpp_stack_main = Ret [30; 20; 10; -1].
Proof. split_and!; vm_compute; reflexivity. Qed.
