(* ===== verification/AlgorithmDemos.v ===== *)
(** * The mains of the algorithm programs

    Each [main] applies the functions of its file to fixed inputs and prints the
    results; it is modelled as the list of the results in the order of printing
    and evaluated.  Strings are lists of character codes, as in the files they
    come from ([chars]). *)

From stdpp Require Import base list gmap strings numbers.
From Stdlib Require Import ZArith Lia.
From S2P Require Import Prelude MaxXor Tries Uuid DnsHash Palindromes ArithString DigitStrings Sequences Searches Squares CDigits Devices.

(** Applies a function to the inputs one after the other. *)
Fixpoint each_of {A B} (f : A → outcome B) (l : list A) : outcome (list B) :=
  match l with [] => Ret [] | x :: l => y ← f x; ys ← each_of f l; Ret (y :: ys) end.

(** ** Numbers *)

(** arithmeticString.cpp *)
Definition arith_main : outcome (list Z) :=
  each_of (λ s, evaluateExpression (chars s)) ["12 + 3 * 5"; "10*20+30"; "123*2+1"; "9*80*7"].

(** maxXOR/main.cpp *)
Definition xor_main : outcome Z := findMaximumXOR [3; 10; 5; 25; 2; 8].

(** invertBits.cpp *)
Definition invert_main : outcome Z := invertBits 32 1365.

(** pureStorage/longestConsecutiveSequence.cpp *)
Definition sequence_main : outcome (Z * Z) :=
  let nums := [100; 4; 200; 1; 3; 2] in
  a ← longestConsecutive nums; b ← longestConsecutiveSorting nums; Ret (a, b).

(** arista/bitonicPoint.cpp *)
Definition bitonic_main : outcome (Z * Z) :=
  let arr := [1; 2; 4; 5; 7; 8; 3] in
  a ← findMaximum arr; b ← findMaximumLinear arr; Ret (a, b).

(** arista/findPosition.cpp: the nodes are attached one by one, each in place of
    a null pointer of its parent; [false] goes to the left. *)
Fixpoint attach (path : list bool) (d : Z) (t : tree) : outcome tree :=
  match path, t with
  | [], Null => Ret (Node d Null Null)
  | false :: path, Node e l r => l ← attach path d l; Ret (Node e l r)
  | true :: path, Node e l r => r ← attach path d r; Ret (Node e l r)
  | _, _ => Err NullDeref
  end.

Definition position_main : outcome Z :=
  root ← attach [] 5 Null;
  root ← attach [false] 3 root;
  root ← attach [true] 7 root;
  root ← attach [false; false] 2 root;
  root ← attach [false; true] 4 root;
  root ← attach [true; false] 6 root;
  root ← attach [true; true] 8 root;
  root ← attach [false; false; false] 1 root;
  root ← attach [false; false; false; false] 0 root;
  Ret (findPosition root 0).

(** pureStorage/isSquare.cpp *)
Definition square_main : outcome (bool * bool) :=
  a ← isSquare (mkPoint 0 0) (mkPoint 1 1) (mkPoint 1 0) (mkPoint 0 1);
  b ← isSquare (mkPoint 0 0) (mkPoint 1 2) (mkPoint 2 1) (mkPoint 0 1);
  Ret (a, b).

(** amazon/emergingDevices/rolloverTimeStamp.cpp *)
Definition rollover_main : list Z :=
  storage (process_all ((Z.of_nat <$> seq 0 30) ++ (Z.of_nat <$> seq 0 5)) new_unwrapper).

(** ** Strings *)

(** arista/nextGreaterElement.cpp *)
Definition next_main : outcome (list Z * Z) :=
  r ← nextPermutation (chars "218765"); result ← nextGreaterElement 218765; Ret (r, result).

(** arista/removeDigit.cpp, removeOneDigitToMin.cpp and removeOneDigitToMin.c,
    where the string is in a buffer of 100 characters *)
Definition remove_main : outcome (list Z) := removeDigit (chars "123151") 49.
Definition remove_min_main : outcome (list Z) := removeOneDigitToMin (chars "14356").
Definition remove_min_c_main : outcome (list Z) := removeOneToMin (chars "14356" ++ replicate 95 0).

(** pureStorage/countPalindromes.cpp: the count, the palindromes and their number *)
Definition count_main : outcome (Z * list (list Z) * Z) :=
  '(count, result) ← countPalindromes (chars "ababa") [];
  Ret (count, result, Z.of_nat (length result)).

(** pureStorage/longestPalindrome.cpp *)
Definition palindrome_main : outcome (list Z * list Z) :=
  a ← longestPalindrome (chars "babad"); b ← longestPalindromeBruteForce (chars "babad"); Ret (a, b).

(** trie/trie.cpp *)
Definition trie_main : outcome (list bool) :=
  t ← insert "apple" new_Trie; t ← insert "app" t; t ← insert "banana" t;
  each_of (λ w, search w t) ["apple"; "app"; "banana"; "orange"; "a"].

(** dnsCache/dnsCacheTrie.cpp *)
Definition dns_trie_main : outcome (option string) :=
  t ← dns_insert "www.samsung.com" "107.108.11.123" newTrieNode;
  t ← dns_insert "www.samsung.net" "107.109.123.255" t;
  t ← dns_insert "www.google.in" "74.125.200.106" t;
  searchDNSCache "www.samsung.com" t.

(** dnsCache/dnsCacheHashMap.cpp; [mem]: [malloc] succeeds, [t0], [t1] and [now]
    are what the three functions read from the clock. *)
Definition dns_hash_main (t0 t1 : Z) (now : Z → Z) : outcome (list message) :=
  let ips := [chars "1.1.1.1"; chars "1.1.1.2"] in
  t ← insert_a_record true t0 (chars "server.com") ips 2 60 empty_table;
  t ← insert_cname_record true t1 (chars "www.server.com") (chars "server.com") 60 t;
  '(_, out) ← resolve 10 now t (chars "www.server.com") 0;
  _ ← cleanup t;
  Ret out.

(** ** UUIDs *)

(** bl-ble/convertUUIDStrtoInt.cpp: the text or "parse error" for each string,
    and the comparison; objects that a failed parse leaves unset are not read. *)
Definition uuid_show (s : string) : outcome (option (list Z)) :=
  u ← parseUUID128 (chars s);
  Ret (match u with Some u => Some (uuidToString u) | None => None end).

Definition uuid_main : outcome (list (option (list Z)) * option bool) :=
  shown ← each_of uuid_show
    ["550e8400-e29b-41d4-a716-446655440000"; "0000180d-0000-1000-8000-00805f9b34fb";
     "550e8400e29b41d4a716446655440000"; "180D"; "12345678"];
  a ← parseUUID128 (chars "550e8400-e29b-41d4-a716-446655440000");
  b ← parseUUID128 (chars "550e8400e29b41d4a716446655440000");
  Ret (shown, match a, b with Some a, Some b => Some (uuid_eqb a b) | _, _ => None end).

(** bl-ble/convertUUIDStrtoInt.c; [garbage] is the uninitialised variable. *)
Definition uuid_c_show (garbage : Z) (s : string) : outcome (option (list Z)) :=
  '(r, out) ← parse_uuid128 (Some (chars s)) (Some garbage);
  match out with
  | Some u => if r =? 0 then t ← print_uuid128 u; Ret (Some t) else Ret None
  | None => Ret None
  end.

Definition uuid_c_main (garbage : Z) : outcome (list (option (list Z))) :=
  each_of (uuid_c_show garbage)
    ["550e8400-e29b-41d4-a716-446655440000"; "12345678-1234-5678-9abc-def012345678";
     "00000000-0000-1000-8000-00805f9b34fb"; " 550e8400 - e29b - 41d4 - a716 - 446655440000 ";
     "180D"; "12345678"].

(** ** What they print *)

Theorem number_mains_print :
  arith_main = Ret [27; 230; 247; 5040] ∧ xor_main = Ret 28 ∧ invert_main = Ret 682 ∧
  sequence_main = Ret (4, 4) ∧ bitonic_main = Ret (8, 8) ∧ position_main = Ret 5 ∧
  square_main = Ret (true, false) ∧ rollover_main = Z.of_nat <$> seq 0 35.
Proof. split_and!; vm_compute; reflexivity. Qed.

Theorem string_mains_print :
  next_main = Ret (chars "251678", 251678) ∧
  remove_main = Ret (chars "23151") ∧ remove_min_main = Ret (chars "1356") ∧
  remove_min_c_main = Ret (chars "1356" ++ replicate 96 0) ∧
  count_main = Ret (9, chars <$> ["a"; "b"; "aba"; "a"; "bab"; "ababa"; "b"; "aba"; "a"], 9) ∧
  palindrome_main = Ret (chars "bab", chars "bab") ∧
  trie_main = Ret [true; true; true; false; false] ∧
  dns_trie_main = Ret (Some "107.108.11.123").
Proof. split_and!; vm_compute; reflexivity. Qed.

(** The dashes, the missing dashes and the spaces make no difference; the short
    strings are refused; the C program never shows its uninitialised variable. *)
Theorem uuid_mains_print garbage :
  uuid_main = Ret ([Some (chars "550e8400e29b41d4a716446655440000");
                    Some (chars "0000180d00001000800000805f9b34fb");
                    Some (chars "550e8400e29b41d4a716446655440000"); None; None], Some true) ∧
  uuid_c_main garbage = Ret [Some (chars "550e8400e29b41d4a716446655440000");
                             Some (chars "12345678123456789abcdef012345678");
                             Some (chars "0000000000001000800000805f9b34fb");
                             Some (chars "550e8400e29b41d4a716446655440000"); None; None].
Proof. split; vm_compute; reflexivity. Qed.

(** The table after the two insertions. *)
Lemma dns_demo_table t0 t1 : ∃ u t t',
  insert_a_record true t0 (chars "server.com") [chars "1.1.1.1"; chars "1.1.1.2"] 2 60 empty_table = Ret u ∧
  insert_cname_record true t1 (chars "www.server.com") (chars "server.com") 60 u = Ret t ∧
  find_record (chars "www.server.com") t =
    Ret (Some (mkRecord (chars "www.server.com") RECORD_CNAME [] 0 (chars "server.com") (t1 + 60))) ∧
  find_record (chars "server.com") t =
    Ret (Some (mkRecord (chars "server.com") RECORD_A [chars "1.1.1.1"; chars "1.1.1.2"] 2 [] (t0 + 60))) ∧
  cleanup t = Ret t'.
Proof. eexists _, _, _. split_and!; vm_compute; reflexivity. Qed.

(** The answer to a name that is an alias of a name with addresses. *)
Lemma resolve_alias f now t d c e ips n e' :
  find_record d t = Ret (Some (mkRecord d RECORD_CNAME [] 0 c e)) →
  find_record c t = Ret (Some (mkRecord c RECORD_A ips n [] e')) →
  snd <$> resolve (S (S f)) now t d 0 = Ret (
    if e <? now 0 then [Expired d]
    else IsCname d c :: (if e' <? now 1 then [Expired c] else [ARecord c (take (Z.to_nat n) ips)])).
Proof.
  intros Ed Ec. simpl. rewrite Ed. simpl. destruct (e <? now 0); [done|].
  change (0 + 1) with 1. rewrite Ec. simpl. by destruct (e' <? now 1).
Qed.

(** The demonstration of the hash table prints the alias and the two addresses,
    unless a minute passes between an insertion and the read of its record. *)
Theorem dns_hash_main_prints t0 t1 now :
  dns_hash_main t0 t1 now = Ret (
    if t1 + 60 <? now 0 then [Expired (chars "www.server.com")]
    else IsCname (chars "www.server.com") (chars "server.com") ::
      (if t0 + 60 <? now 1 then [Expired (chars "server.com")]
       else [ARecord (chars "server.com") [chars "1.1.1.1"; chars "1.1.1.2"]])).
Proof.
  destruct (dns_demo_table t0 t1) as (u & t & t' & Ea & Eu & Ew & Es & Ec).
  pose proof (resolve_alias 8 now t _ _ _ _ _ _ Ew Es) as Er.
  unfold dns_hash_main. cbv zeta. rewrite Ea, bind_Ret, Eu, bind_Ret.
  destruct (resolve 10 now t (chars "www.server.com") 0) as [[r out]|]; [|discriminate Er].
  rewrite bind_Ret. cbn beta match. rewrite Ec, bind_Ret.
  injection Er as ->. reflexivity.
Qed.
