(* ===== verification/CacheDemos.v ===== *)
(** * The mains of the caches and of the other stateful components

    Each [main] is the sequence of its calls with what it prints as the result.
    What the programs take from outside (addresses, clock, random numbers, the
    real allocator) is a parameter, and the theorems hold for all of its
    behaviours or say for which. *)

From stdpp Require Import base list gmap strings numbers.
From Stdlib Require Import ZArith Lia.
From S2P Require Import Prelude Tries CircularBuffer LruSpec IndexList LruHash PacketLru LruSimple RandomSet Fragmentation LeakDetector Filters Events.

(** ** lruCache/packet/main.c *)

Module PacketCache.
(** [dump_cache_state]: the size and the keys from the head on. *)
Fixpoint dump_keys (fuel : nat) (idx : Z) (ns : list PacketLru.lru_node_t) : outcome (list Z) :=
  match fuel with
  | O => Err OutOfFuel
  | S fuel =>
      if idx =? -1 then Ret [] else
      n ← vget ns idx;
      ks ← dump_keys fuel (PacketLru.n_next n) ns;
      Ret (PacketLru.key n :: ks)
  end.

Definition dump_cache_state (c : PacketLru.lru_cache_t) : outcome (Z * list Z) :=
  ks ← dump_keys 65 (PacketLru.head_ c) (PacketLru.nodes c); Ret (PacketLru.size_ c, ks).

(** [snprintf(payload, sizeof(payload), "P%u", i)] for a digit [i]: the
    characters and the null byte; the rest of the array is not looked at. *)
Definition payload (i : Z) : list Z := [80; 48 + i; 0].

Fixpoint put_packets (ks : list Z) (c : PacketLru.lru_cache_t) : outcome PacketLru.lru_cache_t :=
  match ks with
  | [] => Ret c
  | k :: ks => '(_, c) ← PacketLru.lru_put k (payload k) 3 c; put_packets ks c
  end.

(** A line of a lookup is the bytes found, or [None] for "not found". *)
Inductive line := State (size : Z) (keys : list Z) | Found (data : option (list Z)).

Definition main : outcome (list line) :=
  c ← put_packets [1; 2; 3; 4; 5] PacketLru.lru_init;
  '(n1, k1) ← dump_cache_state c;
  '(_, p, _, c) ← PacketLru.lru_peek 2 true (Some 64) c;
  '(n2, k2) ← dump_cache_state c;
  c ← put_packets [6; 7; 8] c;
  '(n3, k3) ← dump_cache_state c;
  '(_, g, _, c) ← PacketLru.lru_get 4 true (Some 64) c;
  '(n4, k4) ← dump_cache_state c;
  c ← put_packets [9] c;
  '(n5, k5) ← dump_cache_state c;
  '(_, g1, _, c) ← PacketLru.lru_get 1 true (Some 64) c;
  '(n6, k6) ← dump_cache_state c;
  Ret [State n1 k1; Found p; State n2 k2; State n3 k3; Found g; State n4 k4; State n5 k5; Found g1; State n6 k6].
End PacketCache.

(** ** lruCache/simple/lruCacheWithHashing.c *)

Module HashCache.
(** The loop over [k]: the lines for every fifth key. *)
Fixpoint fill (ks : list Z) (c : LruHash.lru_cache_t) : outcome (list (Z * option Z) * LruHash.lru_cache_t) :=
  match ks with
  | [] => Ret ([], c)
  | k :: ks =>
      '(_, c) ← LruHash.lru_put k (u32 (k * 10)) c;
      if k mod 5 =? 0 then
        '(_, v, c) ← LruHash.lru_get true (k - 2) c;
        '(out, c) ← fill ks c;
        Ret ((k - 2, v) :: out, c)
      else fill ks c
  end.

Definition main : outcome (list (Z * option Z) * Z * list (Z * Z)) :=
  '(out, c) ← fill (Z.of_nat <$> seq 1 18) LruHash.lru_init;
  d ← lru_dump 17 (LruHash.head_ c) (LruHash.nodes c);
  Ret (out, LruHash.size_ c, d).
End HashCache.

(** ** lruCache/simple/lruCacheSimple.c

    [alloc] chooses the address of a new node, [hd], [tl] and [garbage] are what
    the allocation of the sentinels gives. *)

Module SimpleCache.
Definition CAPACITY : Z := 3.

Definition main (alloc : LruSimple.heap → Z) (hd tl : Z) (garbage : LruSimple.Node) : outcome (Z * Z) :=
  let c := createCache hd tl garbage CAPACITY in
  c ← put (alloc (cells c)) 1 100 c;
  c ← put (alloc (cells c)) 2 200 c;
  c ← put (alloc (cells c)) 3 300 c;
  '(r1, c) ← get 1 c;
  c ← put (alloc (cells c)) 4 400 c;
  '(r2, _) ← get 2 c;
  Ret (r1, r2).
End SimpleCache.

Lemma packet_cache_prints : PacketCache.main = Ret [
  PacketCache.State 5 [5; 4; 3; 2; 1]; PacketCache.Found (Some [80; 50; 0]);
  PacketCache.State 5 [2; 5; 4; 3; 1];
  PacketCache.State 8 [8; 7; 6; 2; 5; 4; 3; 1]; PacketCache.Found (Some [80; 52; 0]);
  PacketCache.State 7 [8; 7; 6; 2; 5; 3; 1];
  PacketCache.State 8 [9; 8; 7; 6; 2; 5; 3; 1]; PacketCache.Found (Some [80; 49; 0]);
  PacketCache.State 7 [9; 8; 7; 6; 2; 5; 3]].
Proof. vm_compute. reflexivity. Qed.

Lemma hash_cache_prints : HashCache.main = Ret ([(3, Some 30); (8, Some 80); (13, Some 130)], 16,
  (λ k, (k, k * 10)) <$> [18; 17; 16; 13; 15; 14; 12; 11; 8; 10; 9; 7; 6; 3; 5; 4]).
Proof. vm_compute. reflexivity. Qed.

Lemma simple_cache_prints alloc hd tl garbage : fresh_addresses alloc → hd ≠ 0 → tl ≠ 0 → hd ≠ tl →
  SimpleCache.main alloc hd tl garbage = Ret (100, -1).
Proof.
  intros Ha H1 H2 H3.
  pose (os := [Put 1 100; Put 2 200; Put 3 300; Get 1; Put 4 400; Get 2]).
  destruct (run_simple_spec alloc Ha 3 ltac:(lia) os _ _ _ (createCache_inv _ Ha 3 ltac:(lia) hd tl garbage H1 H2 H3)
    (Nat.le_0_l _)) as (c & L & E & _); [repeat constructor; simpl; lia|].
  unfold SimpleCache.main. change (Z.of_nat 3) with SimpleCache.CAPACITY in E.
  cbn [run_simple os] in E. unfold simple_put in E.
  repeat match type of E with
  | context [put ?a ?k ?v ?c ≫= _] => destruct (put a k v c); cbn beta iota zeta in *; simpl in E |- *; [|discriminate E]
  | context [get ?k ?c ≫= _] => destruct (get k c) as [[? ?]|]; simpl in E |- *; [|discriminate E]
  end.
  by injection E as -> -> _.
Qed.

(** ** circularQueue/circularBufferStatic.cpp: the values popped *)

Module Circular.
Definition main : outcome (Z * list Z) :=
  let cb := new_CircularBuffer 0 3 in
  cb ← push 1 cb; cb ← push 2 cb; cb ← push 3 cb;
  '(first, cb) ← pop cb;
  cb ← push 4 cb;
  '(all, _) ← drain 4 cb;
  Ret (first, all).
End Circular.

(** ** pureStorage/getRandom.cpp: the results of the calls in order *)

Module Random.
Definition main {G} (dis : Z → Z → G → Z * G) (gen : G) : outcome (list bool * Z * list bool * Z) :=
  '(a, rs) ← RandomSet.run [RandomSet.Insert 1; RandomSet.Insert 2; RandomSet.Insert 3; RandomSet.Insert 1]
               (new_RandomizedSet (H := CustomHashTable));
  '(r1, gen) ← getRandom dis gen rs;
  '(b, rs) ← RandomSet.run [RandomSet.Remove 1; RandomSet.Insert 4] rs;
  '(r2, _) ← getRandom dis gen rs;
  Ret (a, r1, b, r2).
End Random.

(** ** arista/interview1/packetFragmentation.cpp

    [clock i] is the time that the [i]-th call of [processFragment] reads, [late]
    the time of the clean-up. *)

Module Fragments.
Definition msg : list Z := chars "FragmentationDemoExample".

(** The packets of the third case: fragment 1 is lost. *)
Fixpoint without_1 (frags : list (list Z)) : outcome (list (list Z)) :=
  match frags with
  | [] => Ret []
  | f :: frags =>
      hdr ← decode_header f;
      rest ← without_1 frags;
      Ret (if fragment_id hdr =? 1 then rest else f :: rest)
  end.

Definition main (clock : nat → Z) (late : Z) : outcome (list event * list event * list event * list event) :=
  let r := mkReassembler ∅ 3 in
  '(e1, r) ← processAll (zip (clock <$> seq 0 3) (fragment msg 1)) r;
  '(e2, r) ← processAll (zip (clock <$> seq 3 3) (reverse (fragment msg 2))) r;
  frags3 ← without_1 (fragment msg 3);
  '(e3, r) ← processAll (zip (clock <$> seq 6 2) frags3) r;
  Ret (e1, e2, e3, (cleanupExpired late r).1).
End Fragments.

(** ** memoryLeakDetector/detector.cpp: what is reported at exit *)

Module Leaks.
Definition main `{Allocator H} (h : H) : outcome (Z * list mem_entry_t * H) :=
  '(a, head, h) ← my_malloc 100 "detector.cpp" 139 [] h;
  '(b, head, h) ← my_malloc 200 "detector.cpp" 140 head h;
  let '(_, head, h) := my_free a head h in
  '(b, head, h) ← my_realloc b 300 "detector.cpp" 144 head h;
  Ret (b, report_leaks head, h).
End Leaks.

(** ** The filters: openClosed.cpp, openClosed_original.cpp and deduplication.cpp *)

Module FilterMains.
Definition apple : product := mkProduct "Apple" green small.
Definition tree : product := mkProduct "Tree" green large.
Definition house : product := mkProduct "House" blue large.

Definition main : list string :=
  let items := [apple; tree; house] in
  (name <$> filter_by_color items green) ++ (name <$> filter_by_size items large) ++
  (name <$> filter_by_color_and_size items green large).

(** [green && large] *)
Definition and_operator (first second : Specification) : Specification := AndSpecification first second.

Definition name_at (mem : gmap Z product) (i : Z) : outcome string :=
  p ← of_option DanglingPtr (mem !! i); Ret (name p).

Fixpoint names (mem : gmap Z product) (items : list Z) : outcome (list string) :=
  match items with
  | [] => Ret []
  | i :: items => n ← name_at mem i; ns ← names mem items; Ret (n :: ns)
  end.

(** [pa], [pt] and [ph] are the addresses of the three objects. *)
Definition original_main (pa pt ph : Z) : outcome (list string * list string) :=
  let mem : gmap Z product := <[pa := apple]> (<[pt := tree]> (<[ph := house]> ∅)) in
  let all := [pa; pt; ph] in
  green_things ← better_filter mem all (ColorSpecification green);
  n1 ← names mem green_things;
  l ← better_filter mem all (and_operator (ColorSpecification green) (SizeSpecification large));
  n2 ← names mem l;
  Ret (n1, n2).

(** [hash] and the times at which the messages come are parameters. *)
Definition messages : list string :=
  ["msg1"; "msg2"; "msg3"; "msg1"; "msg1"; "msg1"; "msg4"; "msg2"; "msg3"; "msg4"].
Definition dedup_main (hash : string → Z) (times : list Z) : list (Z * string * bool) :=
  run_filter hash (zip times messages) (new_MessageFilter 3).
End FilterMains.

(** ** pureStorage/interview.cpp: the callbacks launched *)

Definition event_main : list nat := launches [Trigger DATA_READY; Register DATA_READY 0] new_EventManager.

(** ** What they print *)

Lemma getRandom_member {G} (dis : Z → Z → G → Z * G) g (s : RandomizedSet (H := CustomHashTable)) :
  in_bounds dis → (0 < length (vals s) < 1000)%nat →
  ∃ x, getRandom dis g s = Ret (x, snd (dis 0 (Z.of_nat (length (vals s)) - 1) g)) ∧ x ∈ vals s.
Proof.
  intros Hd Hl. unfold getRandom. rewrite u64_small, to_int_small by lia.
  rewrite (proj2 (Z.leb_le 0 _)) by lia. cbn [check]. rewrite bind_Ret. cbv zeta.
  specialize (Hd 0 (Z.of_nat (length (vals s)) - 1) g ltac:(lia)).
  destruct (vget_total (vals s) (dis 0 (Z.of_nat (length (vals s)) - 1) g).1) as (x & Ex & Hx); [lia|].
  exists x. rewrite Ex. split; [done|]. by eapply list_elem_of_lookup_2.
Qed.

(** [main] prints true, true, true, false, a member of 1, 2, 3, true, true and a
    member of 2, 3, 4. *)
Theorem random_main_prints {G} (dis : Z → Z → G → Z * G) g : in_bounds dis →
  ∃ r1 r2, Random.main dis g = Ret ([true; true; true; false], r1, [true; true], r2) ∧
    r1 ∈ [1; 2; 3] ∧ r2 ∈ [3; 2; 4].
Proof.
  intros Hd. unfold Random.main.
  destruct (RandomSet.run [RandomSet.Insert 1; RandomSet.Insert 2; RandomSet.Insert 3; RandomSet.Insert 1]
    (new_RandomizedSet (H := CustomHashTable))) as [[a s1]|] eqn:E1; [|vm_compute in E1; discriminate].
  destruct (RandomSet.run [RandomSet.Remove 1; RandomSet.Insert 4] s1) as [[b s2]|] eqn:E2;
    [|vm_compute in E1; injection E1 as <- <-; vm_compute in E2; discriminate].
  assert (a = [true; true; true; false] ∧ b = [true; true] ∧ vals s1 = [1; 2; 3] ∧ vals s2 = [3; 2; 4])
    as (-> & -> & V1 & V2).
  { vm_compute in E1. injection E1 as <- <-. vm_compute in E2. injection E2 as <- <-. done. }
  rewrite bind_Ret. cbn beta match.
  destruct (getRandom_member dis g s1 Hd) as (r1 & -> & H1); [rewrite V1; simpl; lia|].
  rewrite bind_Ret. cbn beta match. rewrite E2, bind_Ret. cbn beta match.
  destruct (getRandom_member dis (dis 0 (Z.of_nat (length (vals s1)) - 1) g).2 s2 Hd) as (r2 & -> & H2);
    [rewrite V2; simpl; lia|].
  rewrite V1 in H1. rewrite V2 in H2. by exists r1, r2.
Qed.

Theorem demo_mains_print :
  Circular.main = Ret (1, [2; 3; 4]) ∧
  FilterMains.main = ["Apple"; "Tree"; "Tree"; "House"; "Tree"] ∧
  event_main = [0%nat].
Proof. split_and!; vm_compute; reflexivity. Qed.

(** The conjunction built by the operator selects the tree. *)
Theorem original_main_prints pa pt ph : pa ≠ pt → pa ≠ ph → pt ≠ ph →
  FilterMains.original_main pa pt ph = Ret (["Apple"; "Tree"], ["Tree"]).
Proof.
  intros H1 H2 H3. unfold FilterMains.original_main. cbv zeta.
  set (mem := <[pa := _]> _).
  assert (mem !! pa = Some FilterMains.apple ∧ mem !! pt = Some FilterMains.tree ∧ mem !! ph = Some FilterMains.house)
    as (Ea & Et & Eh) by (subst mem; split_and!; by simplify_map_eq).
  clearbody mem. unfold better_filter. simpl.
  repeat (first [rewrite Ea|rewrite Et|rewrite Eh]; simpl; unfold FilterMains.name_at). done.
Qed.

(** Each time is at least one and less than one and a half seconds after the
    one before: the pause and what the loop takes. *)
Fixpoint spaced (times : list Z) : Prop :=
  match times with
  | s :: (t :: _) as rest => (10 ^ 9 ≤ t - s ∧ 2 * (t - s) < 3 * 10 ^ 9) ∧ spaced rest
  | _ => True
  end.

Lemma filter_forwards hash t m f :
  match lastSeen f !! hash m with None => True | Some s => cooldownSeconds f * 10 ^ 9 ≤ t - s end →
  0 ≤ cooldownSeconds f →
  Filters.filter hash t m f = (true, mkFilter (cooldownSeconds f) (<[hash m := t]> (lastSeen f))).
Proof.
  unfold Filters.filter. destruct (lastSeen f !! hash m) as [s|]; [|done]. intros Hs Hc.
  destruct (Z.leb_spec (cooldownSeconds f) (Z.quot (t - s) (10 ^ 9))) as [|Hq]; [done|].
  assert (cooldownSeconds f ≤ Z.quot (t - s) (10 ^ 9)); [apply Z.quot_le_lower_bound; lia|lia].
Qed.

Lemma filter_suppresses hash t m f s : lastSeen f !! hash m = Some s → 0 ≤ t - s < cooldownSeconds f * 10 ^ 9 →
  Filters.filter hash t m f = (false, f).
Proof.
  unfold Filters.filter. intros -> Hs.
  destruct (Z.leb_spec (cooldownSeconds f) (Z.quot (t - s) (10 ^ 9))) as [Hq|]; [|done].
  assert (Z.quot (t - s) (10 ^ 9) < cooldownSeconds f); [apply Z.quot_lt_upper_bound; lia|lia].
Qed.

(** The two repetitions of "msg1" within three seconds are suppressed, and
    nothing else is. *)
Theorem dedup_main_prints hash times :
  NoDup (hash <$> ["msg1"; "msg2"; "msg3"; "msg4"]) → length times = 10%nat → spaced times →
  snd <$> FilterMains.dedup_main hash times = [true; true; true; true; false; false; true; true; true; true].
Proof.
  intros Hh Hl Hg. do 10 (destruct times as [|? times]; [done|]). destruct times; [|done].
  rewrite !fmap_cons, !list.NoDup_cons, !not_elem_of_cons in Hh. simpl in Hg. destruct_and?.
  unfold FilterMains.dedup_main, FilterMains.messages, new_MessageFilter. cbn [zip zip_with].
  repeat (cbn [run_filter];
    first [rewrite filter_forwards by (simpl; simplify_map_eq; lia)
          |erewrite filter_suppresses by (simpl; first [by simplify_map_eq|lia])];
    cbn [fst snd lastSeen cooldownSeconds]).
  reflexivity.
Qed.

(** What is waiting for its lost fragment after the three cases. *)
Definition waiting (t : Z) : ReassemblyBuffer :=
  mkReassemblyBuffer 3 [take 8 Fragments.msg; []; drop 16 Fragments.msg] [true; false; true] 2 t.

Lemma cleanup_waiting late t : t ≤ late →
  (cleanupExpired late (mkReassembler {[3 := waiting t]} 3)).1 =
  if 4 * 10 ^ 9 <=? late - t then [Discarded 3] else [].
Proof.
  intros Hl. unfold cleanupExpired. cbn [fst reassembly_map_]. rewrite map_filter_singleton.
  unfold expired, elapsed_seconds. cbn [snd timeout_seconds_ first_receive_time waiting].
  assert ((3 <? Z.quot (late - t) (10 ^ 9)) = (4 * 10 ^ 9 <=? late - t)) as ->.
  { rewrite Z.quot_div_nonneg by lia. apply Bool.eq_iff_eq_true.
    rewrite Z.ltb_lt, Z.leb_le. pose proof (Z.div_mod (late - t) (10 ^ 9) ltac:(lia)).
    pose proof (Z.mod_pos_bound (late - t) (10 ^ 9) ltac:(lia)). lia. }
  destruct (4 * 10 ^ 9 <=? late - t).
  - rewrite decide_True by done. by rewrite map_to_list_singleton.
  - rewrite decide_False by done. by rewrite map_to_list_empty.
Qed.

(** The message is printed in the first two cases, whatever the order; in the
    third it never is, and the clean-up discards it exactly when four whole
    seconds have passed since its first fragment. *)
Theorem fragments_main_prints clock late : clock 6%nat ≤ late →
  Fragments.main clock late = Ret (
    [Received 0; Received 1; Received 2; Reassembled Fragments.msg],
    [Received 2; Received 1; Received 0; Reassembled Fragments.msg],
    [Received 0; Received 2],
    if 4 * 10 ^ 9 <=? late - clock 6%nat then [Discarded 3] else []).
Proof.
  intros Hl. rewrite <- cleanup_waiting by done. unfold Fragments.main. cbv zeta.
  assert (processAll (zip (clock <$> seq 0 3) (fragment Fragments.msg 1)) (mkReassembler ∅ 3) =
    Ret ([Received 0; Received 1; Received 2; Reassembled Fragments.msg], mkReassembler ∅ 3)) as ->
    by (vm_compute; reflexivity). rewrite bind_Ret. cbn beta match.
  assert (processAll (zip (clock <$> seq 3 3) (reverse (fragment Fragments.msg 2))) (mkReassembler ∅ 3) =
    Ret ([Received 2; Received 1; Received 0; Reassembled Fragments.msg], mkReassembler ∅ 3)) as ->
    by (vm_compute; reflexivity). rewrite bind_Ret. cbn beta match.
  assert (Fragments.without_1 (fragment Fragments.msg 3) =
    Ret [fragment_at Fragments.msg 3 0; fragment_at Fragments.msg 3 2]) as -> by (vm_compute; reflexivity).
  rewrite bind_Ret. cbn beta match.
  assert (processAll (zip (clock <$> seq 6 2) [fragment_at Fragments.msg 3 0; fragment_at Fragments.msg 3 2])
    (mkReassembler ∅ 3) = Ret ([Received 0; Received 2], mkReassembler {[3 := waiting (clock 6%nat)]} 3)) as ->
    by (vm_compute; reflexivity). reflexivity.
Qed.

(** A successful [my_malloc]: null and nothing recorded, or a block that was not
    live, recorded in front and live now. *)
Lemma my_malloc_cases `{Allocator H} n f l head (h : H) p head' h' :
  my_malloc n f l head h = Ret (p, head', h') →
  (p = 0 ∧ head' = head) ∨
  (p ≠ 0 ∧ live h !! p = None ∧ is_Some (live h' !! p) ∧ ∃ e, head' = (e, mkEntry p n f l) :: head).
Proof.
  unfold my_malloc. pose proof (malloc_spec n h) as Hm. destruct (real_malloc n h) as [q h1].
  destruct (Z.eqb_spec q 0) as [->|Hq]; [intros [= <- <- <-]; by left|].
  destruct Hm as [[? _]|(_ & Hn & Hm)]; [done|]. unfold add_entry.
  pose proof (malloc_spec sizeof_entry h1) as He. destruct (real_malloc sizeof_entry h1) as [e h2].
  destruct (Z.eqb_spec e 0) as [|He0]; [done|]. simpl. intros [= <- <- <-]. right.
  destruct He as [[? _]|(_ & Hne & He)]; [done|]. split_and!; [done|done| |eauto].
  rewrite He, Hm, lookup_insert_ne, lookup_insert_eq by (intros ->; rewrite Hm, lookup_insert_eq in Hne; done).
  by eexists.
Qed.

(** The list holds the record of the block [b] and no other; null has none. *)
Definition only_record (b n : Z) (f : string) (l : Z) (head : entries) : Prop :=
  if b =? 0 then head = [] else ∃ e, head = [(e, mkEntry b n f l)].

Lemma free_first_of_two `{Allocator H} n m f l l' (h : H) a hd1 h1 b hd2 h2 :
  my_malloc n f l [] h = Ret (a, hd1, h1) → my_malloc m f l' hd1 h1 = Ret (b, hd2, h2) →
  only_record b m f l' (my_free a hd2 h2).1.2.
Proof.
  intros Ea%my_malloc_cases Eb%my_malloc_cases. unfold my_free, remove_entry, only_record.
  destruct Ea as [[-> ->]|(Ha & _ & [va Hva] & ea & ->)], Eb as [[-> ->]|(Hb & Hbn & _ & eb & ->)]; simpl;
    rewrite ?(proj2 (Z.eqb_neq a 0)), ?(proj2 (Z.eqb_neq b 0)) by done; simpl; rewrite ?Z.eqb_refl; simpl; eauto.
  assert (b ≠ a) by congruence. rewrite (proj2 (Z.eqb_neq b a)) by done. simpl. eauto.
Qed.

Lemma realloc_only `{Allocator H} b m f l n g k head (h : H) q head' h' :
  only_record b m f l head → my_realloc b n g k head h = Ret (q, head', h') →
  only_record q n g k head'.
Proof.
  unfold only_record, my_realloc. intros Hb.
  assert (∃ w h1, (if b =? 0 then (false, head, h) else remove_entry b head h) = (w, [], h1)) as (w & h1 & ->).
  { destruct (b =? 0); [subst; eauto|]. destruct Hb as (e & ->). unfold remove_entry. simpl.
    rewrite Z.eqb_refl. eauto. }
  destruct (real_realloc b n h1) as [r h2]. destruct (r =? 0) eqn:Er; [intros [= <- <- _]; by rewrite Er|].
  unfold add_entry. destruct (real_malloc sizeof_entry h2) as [e h3]. destruct (e =? 0); [done|]. simpl.
  intros [= <- <- _]. rewrite Er. eauto.
Qed.

(** Whatever the real allocator does, what is reported at exit is the block that
    [realloc] returned; when it failed nothing is, although a block of 200
    bytes may be left. *)
Theorem leaks_main_reports `{Allocator H} (h : H) b report h' :
  Leaks.main h = Ret (b, report, h') →
  report = if b =? 0 then [] else [mkEntry b 300 "detector.cpp" 144].
Proof.
  unfold Leaks.main.
  destruct (my_malloc 100 "detector.cpp" 139 [] h) as [[[a hd1] h1]|] eqn:Ea; [|done]. rewrite bind_Ret. cbn beta match.
  destruct (my_malloc 200 "detector.cpp" 140 hd1 h1) as [[[b1 hd2] h2]|] eqn:Eb; [|done]. rewrite bind_Ret. cbn beta match.
  pose proof (free_first_of_two _ _ _ _ _ _ _ _ _ _ _ _ Ea Eb) as Ho.
  destruct (my_free a hd2 h2) as [[w hd3] h3]. simpl in Ho.
  destruct (my_realloc b1 300 "detector.cpp" 144 hd3 h3) as [[[q hd4] h4]|] eqn:Er; [|done]. rewrite bind_Ret.
  intros [= <- <- _]. apply (realloc_only _ _ _ _ _ _ _ _ _ _ _ _ Ho) in Er. unfold only_record in Er.
  destruct (q =? 0); [by subst|]. by destruct Er as (e & ->).
Qed.

Lemma leaks_main_leaks : ∃ b h, Leaks.main (∅ : gmap Z Z) = Ret (b, [mkEntry b 300 "detector.cpp" 144], h).
Proof. eexists _, _. vm_compute. reflexivity. Qed.
