(* ===== verification/TimerProgram.v ===== *)
(** * The program of timer/timer_pthread.cpp

    The two threads and [main] around the timers of Timer.v: the interrupt
    thread ticks once a second, the task thread empties the queue under the
    mutex, [main] starts three timers, sleeps and stops them.  Each critical
    section is a step and the steps of the threads interleave in any order; the
    sleeps are not modelled, so the results hold for every speed of the threads. *)

From stdpp Require Import base list strings relations numbers.
From Stdlib Require Import ZArith Lia.
From S2P Require Import Prelude Timer.

(** What the callbacks [Task1] to [Task5] print. *)
Definition task_line (callback : Z) : string :=
  match callback with
  | 1 => "Task1 " | 2 => "Task2 " | 3 => "Task3 " | 4 => "Task4 " | 5 => "Task5 " | _ => ""
  end.

(** The three calls of [timer_start]: timeout and period flag. *)
Definition settings : list (nat * bool) := [(2%nat, true); (5%nat, true); (15%nat, false)].

Inductive main_position :=
  | Starting (n : nat)     (* about to start timer [n] *)
  | Asleep
  | Stopping (n : nat)     (* about to stop timer [n] *)
  | Cancelled.             (* the threads are cancelled, [main] has returned *)

Record program := mkProgram {
  timers : state;
  counter : Z;             (* of the interrupt thread *)
  timerIds : list Z;       (* [timerId1], ... as far as they are set *)
  main_at : main_position;
  ages : list nat;         (* for the statements: ticks since each timer was started *)
}.

(** [timerId] keeps an arbitrary value when [timer_start] finds no slot. *)
Definition id_set (r : option Z) (id : Z) : Prop := match r with Some i => id = i | None => True end.

Definition next_start (n : nat) : main_position := if (n <? 2)%nat then Starting (S n) else Asleep.
Definition next_stop (n : nat) : main_position := if (n <? 2)%nat then Stopping (S n) else Cancelled.

Inductive timer_step : program → program → Prop :=
  | t_interrupt s : main_at s ≠ Cancelled →
      timer_step s (mkProgram (TimerInterruptFunction (timers s)) (u32 (counter s + 1)) (timerIds s)
        (main_at s) (S <$> ages s))
  | t_run s ts : main_at s ≠ Cancelled → RunTasks (timers s) = Ret ts →
      timer_step s (mkProgram ts (counter s) (timerIds s) (main_at s) (ages s))
  | t_start s n timeout per r ts id : main_at s = Starting n → settings !! n = Some (timeout, per) →
      timer_start (Some (Z.of_nat (S n))) (Z.of_nat timeout) per (timers s) = (r, ts) → id_set r id →
      timer_step s (mkProgram ts (counter s) (timerIds s ++ [id]) (next_start n) (ages s ++ [0%nat]))
  | t_wake s : main_at s = Asleep →
      timer_step s (mkProgram (timers s) (counter s) (timerIds s) (Stopping 0) (ages s))
  | t_stop s n id ts : main_at s = Stopping n → timerIds s !! n = Some id → timer_stop id (timers s) = Ret ts →
      timer_step s (mkProgram ts (counter s) (timerIds s) (next_stop n) (ages s)).

(** [main] has called [InitTimerTask] and created the threads. *)
Definition timer_main : outcome program :=
  s ← InitTimerTask initial; Ret (mkProgram s 0 [] (Starting 0) []).

(** ** Single timers *)

(** How often a task runs in [k] ticks when it runs every [n] ticks, or once after
    [n] ticks: what the messages of [main] announce for a timer of timeout [n],
    with a tick per second. *)
Definition announced (n : nat) (per : bool) (k : nat) : nat :=
  if per then (k / n)%nat else if decide (n ≤ k)%nat then 1%nat else 0%nat.

Definition started (n : nat) (per : bool) (cb : option Z) : TimerTask_t :=
  mkTimerTask true per (Z.of_nat n) (Z.of_nat n) cb.

Lemma tick_many_announced n per cb k : Z.of_nat n < 2 ^ 32 →
  (tick_many k (started n per cb)).2 = announced (S n) per k ∧
  (per = true → timer_enable (tick_many k (started n per cb)).1 = true).
Proof.
  intros Hn. unfold started, announced. destruct per.
  - pose proof (Nat.div_mod k (S n) ltac:(lia)) as Ek. pose proof (Nat.mod_upper_bound k (S n) ltac:(lia)).
    rewrite Ek at 1 3. rewrite (Nat.mul_comm (S n)), tick_many_period by lia. done.
  - destruct (decide (S n ≤ k)%nat) as [Hk|Hk].
    + by rewrite tick_many_oneshot by done.
    + by rewrite tick_many_down by lia.
Qed.

Lemma tick_many_snoc k t : (tick_many (S k) t).1 = (tick_task (tick_many k t).1).1 ∧
  (tick_many (S k) t).2 = ((tick_many k t).2 + Nat.b2n (tick_task (tick_many k t).1).2)%nat.
Proof.
  replace (S k) with (k + 1)%nat by lia. rewrite tick_many_add. destruct (tick_many k t) as [t1 n1]. simpl.
  destruct (tick_task t1). simpl. split; [done|lia].
Qed.

Lemma tick_many_Callback k t : Callback (tick_many k t).1 = Callback t.
Proof.
  induction k as [|k IH]; [done|]. rewrite (proj1 (tick_many_snoc k t)), <-IH. unfold tick_task.
  destruct (timer_enable _); [|done]. by destruct (curr_timeout_value _ =? 0), (periodic _).
Qed.

Lemma interrupt_loop_queue ts : ∀ i q z, z ∈ (interrupt_loop i ts q).2 →
  z ∈ q ∨ ∃ j t, ts !! j = Some t ∧ timer_enable t = true ∧ z = i + Z.of_nat j.
Proof.
  induction ts as [|t ts IH]; intros i q z; simpl; [by left|]. destruct (tick_task t) as [t' f] eqn:Et.
  specialize (IH (i + 1) (if f then q ++ [i] else q) z). destruct (interrupt_loop (i + 1) ts _) as [ts' q']. simpl in *.
  intros [Hz|(j & u & Hj & Hu & ->)]%IH.
  - destruct f; [|by left]. apply elem_of_app in Hz as [Hz|Hz%list_elem_of_singleton]; [by left|]. right.
    exists 0%nat, t. split_and!; [done| |lia]. unfold tick_task in Et. by destruct (timer_enable t).
  - right. exists (S j), u. split_and!; [done|done|lia].
Qed.

(** ** The invariant *)

(** The entry of slot [i] when the timers of the given ages have been started. *)
Definition entry_of (ages : list nat) (i : nat) : TimerTask_t :=
  match ages !! i, settings !! i with
  | Some k, Some (timeout, per) => (tick_many k (started timeout per (Some (Z.of_nat (S i))))).1
  | _, _ => blank_task
  end.

(** The times that a task is queued or was called. *)
Definition tallied (s : state) (i : nat) : nat :=
  countb (Z.eqb (Z.of_nat i)) (Task_queue s) + countb (Z.eqb (Z.of_nat (S i))) (called s).

Record running (s : program) (n : nat) : Prop := {
  r_length : length (TimerTask (timers s)) = 5%nat;
  r_table i : (i < 5)%nat → TimerTask (timers s) !! i = Some (entry_of (ages s) i);
  r_ages : length (ages s) = n ∧ (n ≤ 3)%nat;
  r_ids : timerIds s = Z.of_nat <$> seq 0 n;
  r_tally i k timeout per : ages s !! i = Some k → settings !! i = Some (timeout, per) →
    tallied (timers s) i = (tick_many k (started timeout per (Some (Z.of_nat (S i))))).2;
  r_queue z : z ∈ Task_queue (timers s) → ∃ i, (i < n)%nat ∧ z = Z.of_nat i;
  r_called z : z ∈ called (timers s) → ∃ i, (i < n)%nat ∧ z = Z.of_nat (S i);
}.

(** The first [n] of the three timers are stopped, the other two slots were
    never used. *)
Record stopping (s : program) (n : nat) : Prop := {
  st_length : length (TimerTask (timers s)) = 5%nat;
  st_ids : timerIds s = [0; 1; 2];
  st_disabled i t : TimerTask (timers s) !! i = Some t → (i < n ∨ 3 ≤ i)%nat → timer_enable t = false;
}.

Definition timer_inv (s : program) : Prop :=
  match main_at s with
  | Starting n => (n ≤ 2)%nat ∧ running s n
  | Asleep => running s 3
  | Stopping n => (n ≤ 2)%nat ∧ stopping s n
  | Cancelled => stopping s 3
  end.

Lemma entry_of_tick ages i : entry_of (S <$> ages) i = (tick_task (entry_of ages i)).1.
Proof.
  unfold entry_of. rewrite list_lookup_fmap. destruct (ages !! i) as [k|]; [|done]. simpl fmap. cbv iota beta.
  destruct (settings !! i) as [[timeout per]|]; [|done]. apply tick_many_snoc.
Qed.

Lemma entry_of_enabled ages i : timer_enable (entry_of ages i) = true → (i < length ages)%nat.
Proof. unfold entry_of. destruct (ages !! i) eqn:E; [|done]. intros _. by eapply lookup_lt_Some. Qed.

Lemma entry_of_Callback ages i : (i < length ages)%nat → (i < 3)%nat →
  Callback (entry_of ages i) = Some (Z.of_nat (S i)).
Proof.
  intros Hi H3. unfold entry_of. destruct (lookup_lt_is_Some_2 ages i Hi) as [k ->].
  destruct (lookup_lt_is_Some_2 settings i H3) as [[timeout per] ->]. by rewrite tick_many_Callback.
Qed.

Lemma running_interrupt s n c m : running s n →
  running (mkProgram (TimerInterruptFunction (timers s)) c (timerIds s) m (S <$> ages s)) n.
Proof.
  intros [Hlen Htab [Ha Hn] Hids Htal Hq Hc]. unfold TimerInterruptFunction.
  destruct (interrupt_loop_spec (TimerTask (timers s)) 0 (Task_queue (timers s))) as [E1 E2].
  pose proof (interrupt_loop_queue (TimerTask (timers s)) 0 (Task_queue (timers s))) as E3.
  destruct (interrupt_loop 0 (TimerTask (timers s)) (Task_queue (timers s))) as [ts q]. simpl in *. subst ts.
  split; simpl; [by rewrite length_fmap| |by rewrite length_fmap|done| | |done].
  - intros i Hi. rewrite list_lookup_fmap, Htab by done. simpl. by rewrite entry_of_tick.
  - intros i k timeout per Hi Hs. rewrite list_lookup_fmap in Hi. apply fmap_Some in Hi as (k0 & Hk & ->).
    assert (i < 5)%nat as H5 by (apply lookup_lt_Some in Hk; lia).
    rewrite (proj2 (tick_many_snoc _ _)), <-(Htal i k0 timeout per) by done. unfold tallied. simpl.
    specialize (E2 i _ (Htab i H5)). rewrite Z.add_0_l in E2. rewrite E2. unfold entry_of. rewrite Hk, Hs. lia.
  - intros z Hz. destruct (E3 z Hz) as [|(j & t & Hj & Ht & ->)]; [by apply Hq|]. exists j. split; [|lia].
    pose proof (lookup_lt_Some _ _ _ Hj) as Hj5. rewrite Htab in Hj by lia. injection Hj as <-.
    apply entry_of_enabled in Ht. lia.
Qed.

(** The task thread calls the callback of every queued timer. *)
Lemma run_queue_running s n q : running s n → (∀ z, z ∈ q → ∃ i, (i < n)%nat ∧ z = Z.of_nat i) →
  run_queue (TimerTask (timers s)) q = Ret (Z.succ <$> q).
Proof.
  intros R Hq. induction q as [|z q IH]; [done|]. cbn [run_queue].
  destruct (Hq z) as (i & Hi & ->); [left|]. destruct (r_ages s n R) as [Ha Hn].
  rewrite (proj2 (vget_Ret _ _ (entry_of (ages s) i))) by (split; [lia|rewrite Nat2Z.id; apply (r_table s n R); lia]).
  rewrite bind_Ret, entry_of_Callback by lia. cbn [of_option]. rewrite bind_Ret, IH by (intros; apply Hq; by right).
  rewrite bind_Ret, fmap_cons. by rewrite Nat2Z.inj_succ.
Qed.

Lemma running_run s n ts c m : running s n → RunTasks (timers s) = Ret ts →
  running (mkProgram ts c (timerIds s) m (ages s)) n.
Proof.
  intros R. unfold RunTasks. rewrite (run_queue_running s n _ R) by apply R. rewrite bind_Ret. intros [= <-].
  destruct R as [Hlen Htab [Ha Hn] Hids Htal Hq Hc]. split; cbn [timers ages timerIds TimerTask Task_queue called]; [done|done|done|done| | |].
  - intros i k timeout per Hi Hs. rewrite <-(Htal i k timeout per) by done. unfold tallied.
    cbn [timers Task_queue called countb]. rewrite countb_app, countb_fmap. assert (∀ l, countb (λ z, Z.eqb (Z.of_nat (S i)) (Z.succ z)) l =
      countb (Z.eqb (Z.of_nat i)) l) as ->; [|lia].
    induction l as [|z l IH]; cbn [countb]; [done|]. rewrite IH. do 2 f_equal. apply Bool.eq_iff_eq_true. rewrite !Z.eqb_eq. lia.
  - intros z Hz. by apply not_elem_of_nil in Hz.
  - intros z [Hz|(y & -> & Hy)%list_elem_of_fmap]%elem_of_app; [by apply Hc|].
    destruct (Hq y Hy) as (i & Hi & ->). exists i. split; [done|lia].
Qed.

(** [timer_start] takes the first slot whose timer is not enabled. *)
Lemma find_slot_first ts : ∀ i k t, ts !! k = Some t → timer_enable t = false →
  (∀ j u, (j < k)%nat → ts !! j = Some u → timer_enable u = true) → find_slot i ts = Some (i + Z.of_nat k).
Proof.
  induction ts as [|u ts IH]; intros i [|k] t Hk Ht Hlow; simplify_eq/=.
  - rewrite Ht. simpl. f_equal. lia.
  - rewrite (Hlow 0%nat u) by (done || lia). simpl. rewrite (IH (i + 1) k t); [f_equal; lia|done|done|].
    intros j v Hj Hv. apply (Hlow (S j)); [lia|done].
Qed.

Lemma entry_of_snoc ages i : entry_of (ages ++ [0%nat]) i =
  if decide (i = length ages) then
    match settings !! i with Some (timeout, per) => started timeout per (Some (Z.of_nat (S i))) | None => blank_task end
  else entry_of ages i.
Proof.
  unfold entry_of. destruct (decide (i = length ages)) as [->|Hne].
  - rewrite lookup_app_r, Nat.sub_diag by lia. simpl. by destruct (settings !! length ages) as [[? ?]|].
  - destruct (decide (i < length ages)%nat).
    + by rewrite lookup_app_l by lia.
    + rewrite !lookup_ge_None_2; [done|lia|rewrite length_app; simpl; lia].
Qed.

Lemma running_enabled s n j : running s n → (j < n)%nat → (n ≤ 2)%nat → timer_enable (entry_of (ages s) j) = true.
Proof.
  intros R Hj Hn. destruct (r_ages s n R) as [Ha _]. unfold entry_of.
  destruct (lookup_lt_is_Some_2 (ages s) j) as [k ->]; [lia|].
  assert (∃ timeout, settings !! j = Some (timeout, true) ∧ (timeout < 10)%nat) as (timeout & -> & Hlt).
  { destruct j as [|[|j]]; [eexists; split; [done|lia]..|lia]. }
  apply tick_many_announced; [lia|done].
Qed.

Lemma countb_none (p : Z → bool) l : (∀ z, z ∈ l → p z = false) → countb p l = 0%nat.
Proof. intros Hp. apply countb_zero. intros i x Hx. apply Hp. by eapply list_elem_of_lookup_2. Qed.

Lemma running_start s n timeout per r ts id : running s n → (n ≤ 2)%nat → settings !! n = Some (timeout, per) →
  timer_start (Some (Z.of_nat (S n))) (Z.of_nat timeout) per (timers s) = (r, ts) → id_set r id →
  running (mkProgram ts (counter s) (timerIds s ++ [id]) (next_start n) (ages s ++ [0%nat])) (S n).
Proof.
  intros R Hn Hs. pose proof R as [Hlen Htab [Ha _] Hids Htal Hq Hc].
  assert (entry_of (ages s) n = blank_task) as Eb.
  { unfold entry_of. by rewrite lookup_ge_None_2 by lia. }
  unfold timer_start. rewrite (find_slot_first _ 0 n blank_task); [|rewrite Htab, Eb by lia; done|done|].
  2: { intros j u Hj Hu. rewrite Htab in Hu by lia. injection Hu as <-. by apply (running_enabled s n). }
  rewrite Z.add_0_l, Nat2Z.id. intros [= <- <-] ->.
  split; cbn [timers ages timerIds TimerTask Task_queue called].
  - by rewrite length_insert.
  - intros i Hi. rewrite entry_of_snoc, Ha. destruct (decide (i = n)) as [->|Hne].
    + rewrite list_lookup_insert_eq, Hs by lia. done.
    + rewrite list_lookup_insert_ne by done. by apply Htab.
  - rewrite length_app. simpl. lia.
  - rewrite Hids, seq_S, fmap_app. done.
  - intros i k t' per' Hi Hs'. unfold tallied. cbn [Task_queue called]. destruct (decide (i = n)) as [->|Hne].
    + rewrite lookup_app_r, Ha, Nat.sub_diag in Hi by lia. injection Hi as <-. cbn [tick_many snd].
      rewrite !countb_none; [done| |]; intros z Hz; apply Z.eqb_neq.
      * destruct (Hc z Hz) as (j & ? & ->). lia.
      * destruct (Hq z Hz) as (j & ? & ->). lia.
    + assert (i < length (ages s))%nat as Hi'.
      { apply lookup_lt_Some in Hi. rewrite length_app in Hi. simpl in Hi. lia. }
      rewrite lookup_app_l in Hi by done. by apply Htal.
  - intros z (i & ? & ->)%Hq. exists i. split; [lia|done].
  - intros z (i & ? & ->)%Hc. exists i. split; [lia|done].
Qed.

Lemma running_stopping s : running s 3 → stopping s 0.
Proof.
  intros R. split; [apply R|apply (r_ids s 3 R)|]. intros i t Hi [|H3]; [lia|].
  pose proof (lookup_lt_Some _ _ _ Hi). rewrite (r_table s 3 R) in Hi by (rewrite (r_length s 3 R) in *; lia).
  injection Hi as <-. destruct (timer_enable (entry_of (ages s) i)) eqn:E; [|done].
  apply entry_of_enabled in E. destruct (r_ages s 3 R). lia.
Qed.

Lemma stopping_same_table s s' n : stopping s n → timerIds s' = timerIds s →
  TimerTask (timers s') = TimerTask (timers s) → stopping s' n.
Proof. intros [Hl Hi Hd] E1 E2. split; rewrite ?E1, ?E2; done. Qed.

Lemma stopping_interrupt s n c m a : stopping s n →
  stopping (mkProgram (TimerInterruptFunction (timers s)) c (timerIds s) m a) n.
Proof.
  intros [Hl Hi Hd]. unfold TimerInterruptFunction.
  destruct (interrupt_loop_spec (TimerTask (timers s)) 0 (Task_queue (timers s))) as [E1 _].
  destruct (interrupt_loop 0 _ _) as [ts q]. simpl in E1. subst ts. split; simpl; [by rewrite length_fmap|done|].
  intros i t Ht Hor. rewrite list_lookup_fmap in Ht. apply fmap_Some in Ht as (u & Hu & ->).
  specialize (Hd i u Hu Hor). unfold tick_task. by rewrite Hd.
Qed.

(** [main] stops the timers it started: no index is out of range. *)
Lemma stopping_stop s n : stopping s n → (n ≤ 2)%nat →
  ∃ ts, timerIds s !! n = Some (Z.of_nat n) ∧ timer_stop (Z.of_nat n) (timers s) = Ret ts ∧
    ∀ c m a, stopping (mkProgram ts c (timerIds s) m a) (S n).
Proof.
  intros [Hl Hids Hd] Hn. unfold timer_stop.
  destruct (lookup_lt_is_Some_2 (TimerTask (timers s)) n) as [t Ht]; [lia|].
  rewrite (proj2 (vget_Ret _ _ t)) by (rewrite Nat2Z.id; split; [lia|done]). rewrite bind_Ret.
  assert (timerIds s !! n = Some (Z.of_nat n)) as Hid by (rewrite Hids; destruct n as [|[|[|n]]]; (done || lia)).
  destruct (timer_enable t) eqn:Et; cbn [negb].
  - rewrite (proj2 (Z.ltb_lt _ MAX_TASK)) by (unfold MAX_TASK; lia).
    rewrite vset_total by lia. rewrite bind_Ret, Nat2Z.id. eexists. split_and!; [done|done|].
    intros c m a. split; cbn [timers timerIds TimerTask]; [by rewrite length_insert|done|].
    intros i u Hu Hor. destruct (decide (i = n)) as [->|Hne].
    + rewrite list_lookup_insert_eq in Hu by lia. by injection Hu as <-.
    + rewrite list_lookup_insert_ne in Hu by done. apply (Hd i u Hu). lia.
  - eexists. split_and!; [done|done|]. intros c m a. split; simpl; [done|done|].
    intros i u Hu Hor. destruct (decide (i = n)) as [->|Hne]; [by simplify_eq|]. apply (Hd i u Hu). lia.
Qed.

Lemma timer_inv_step s s' : timer_inv s → timer_step s s' → timer_inv s'.
Proof.
  unfold timer_inv. intros Hi Hst.
  destruct Hst as [s Hm|s ts Hm E|s n timeout per r ts id Hm Hs E Hid|s Hm|s n id ts Hm Hid E]; simpl.
  - destruct (main_at s); [destruct Hi; split; [done|]; by apply running_interrupt|by apply running_interrupt| |done].
    destruct Hi. split; [done|]. by apply stopping_interrupt.
  - destruct (main_at s) eqn:Em; [destruct Hi; split; [done|]; by apply running_run|by apply running_run| |done].
    destruct Hi. split; [done|]. apply (stopping_same_table s); [done..|]. unfold RunTasks in E.
    destruct (run_queue _ _); [|done]. by injection E as <-.
  - rewrite Hm in Hi. destruct Hi as [Hn R]. pose proof (running_start s n _ _ _ _ _ R Hn Hs E Hid) as R'.
    unfold next_start in *. destruct (Nat.ltb_spec n 2); [by split; [lia|]|]. replace 3%nat with (S n) by lia. done.
  - rewrite Hm in Hi. split; [lia|]. by apply (stopping_same_table s); [apply running_stopping|..].
  - rewrite Hm in Hi. destruct Hi as [Hn R]. destruct (stopping_stop s n R Hn) as (ts' & Hid' & E' & R').
    rewrite Hid in Hid'. injection Hid' as ->. rewrite E in E'. injection E' as <-.
    unfold next_stop. destruct (Nat.ltb_spec n 2); [split; [lia|]; apply R'|]. replace 3%nat with (S n) by lia. apply R'.
Qed.

(** [InitTimerTask] finds all timers stopped. *)
Lemma timer_main_value : timer_main = Ret (mkProgram initial 0 [] (Starting 0) []).
Proof. vm_compute. reflexivity. Qed.

Lemma timer_main_inv p : timer_main = Ret p → timer_inv p.
Proof.
  rewrite timer_main_value. intros [= <-]. split; [lia|]. split; cbn [timers ages timerIds initial TimerTask Task_queue called].
  - done.
  - intros i Hi. change (Z.to_nat MAX_TASK) with 5%nat. by rewrite lookup_replicate_2.
  - split; [done|lia].
  - done.
  - intros i k timeout per Hi. by rewrite lookup_nil in Hi.
  - intros z Hz. by apply not_elem_of_nil in Hz.
  - intros z Hz. by apply not_elem_of_nil in Hz.
Qed.

Lemma timer_inv_reached p s : timer_main = Ret p → rtc timer_step p s → timer_inv s.
Proof. intros Hp Hr. pose proof (timer_main_inv p Hp) as Hi. clear Hp. induction Hr; eauto using timer_inv_step. Qed.

Lemma settings_small i timeout per : settings !! i = Some (timeout, per) → (0 < timeout)%nat ∧ Z.of_nat timeout < 2 ^ 32.
Proof. destruct i as [|[|[|i]]]; intros [= <- <-]; lia. Qed.

Lemma running_start_possible s n : running s n → (n ≤ 2)%nat → main_at s = Starting n →
  ∃ s', timer_step s s' ∧ main_at s' ≠ main_at s.
Proof.
  intros R Hn Hm. destruct (lookup_lt_is_Some_2 settings n) as [[timeout per] Hs]; [simpl; lia|].
  destruct (timer_start (Some (Z.of_nat (S n))) (Z.of_nat timeout) per (timers s)) as [r ts] eqn:E.
  eexists. split; [eapply (t_start s n timeout per r ts (default 0 r)); [done..|]; by destruct r|].
  simpl. rewrite Hm. unfold next_start. destruct (n <? 2)%nat; [intros [= ?]; lia|done].
Qed.

(** A longer interval announces no more runs. *)
Lemma announced_late n per k : (0 < n)%nat → (announced (S n) per k ≤ announced n per k)%nat.
Proof.
  intros Hn. unfold announced. destruct per; [apply Nat.div_le_compat_l; lia|].
  destruct (decide (S n ≤ k)%nat), (decide (n ≤ k)%nat); lia.
Qed.

(** C32: the timer program, in every interleaving.  Until [main] begins to stop
    the timers the task thread never faults: it calls the callback of each queued
    timer.  The messages of [main] announce the tasks every 2 and every 5 ticks
    and after 15; the interrupt counts the timeout down to 0 and only then expires,
    so each task has in fact been queued or called at intervals that are one tick
    longer, every 3 and every 6 ticks and once on the 16th, which is never more
    often than announced.  [main] can always go on, with indices in range, and
    when it has returned no timer is enabled. *)
Theorem timer_program_correct p s : timer_main = Ret p → rtc timer_step p s →
  match main_at s with
  | Starting _ | Asleep =>
      RunTasks (timers s) = Ret (mkState (TimerTask (timers s)) []
        (called (timers s) ++ (Z.succ <$> Task_queue (timers s)))) ∧
      (∀ i k timeout per, ages s !! i = Some k → settings !! i = Some (timeout, per) →
         tallied (timers s) i = announced (S timeout) per k ∧
         (tallied (timers s) i ≤ announced timeout per k)%nat) ∧
      (∀ z, z ∈ called (timers s) → z ∈ [1; 2; 3])
  | Stopping _ => True
  | Cancelled => ∀ i t, TimerTask (timers s) !! i = Some t → timer_enable t = false
  end ∧
  (main_at s ≠ Cancelled → ∃ s', timer_step s s' ∧ main_at s' ≠ main_at s).
Proof.
  intros Hp Hr. pose proof (timer_inv_reached p s Hp Hr) as Hi. unfold timer_inv in Hi.
  assert (∀ n, running s n → RunTasks (timers s) = Ret (mkState (TimerTask (timers s)) []
      (called (timers s) ++ (Z.succ <$> Task_queue (timers s)))) ∧
    (∀ i k timeout per, ages s !! i = Some k → settings !! i = Some (timeout, per) →
       tallied (timers s) i = announced (S timeout) per k ∧
       (tallied (timers s) i ≤ announced timeout per k)%nat) ∧ (∀ z, z ∈ called (timers s) → z ∈ [1; 2; 3])) as HR.
  { intros n R. split_and!.
    - unfold RunTasks. by rewrite (run_queue_running s n _ R) by apply R.
    - intros i k timeout per Hk Hs. destruct (settings_small i timeout per Hs).
      rewrite (r_tally s n R i k timeout per Hk Hs), (proj1 (tick_many_announced _ _ _ _ ltac:(done))).
      split; [done|by apply announced_late].
    - intros z (i & Hin & ->)%(r_called s n R). destruct (r_ages s n R). destruct i as [|[|[|i]]]; [set_solver..|lia]. }
  destruct (main_at s) as [n| |n|] eqn:Em.
  - destruct Hi as [Hn R]. split; [by apply (HR n)|]. intros _. rewrite <-Em. by apply (running_start_possible s n).
  - split; [by apply (HR 3%nat)|]. intros _. eexists. split; [by apply t_wake|done].
  - destruct Hi as [Hn R]. split; [done|]. intros _. destruct (stopping_stop s n R Hn) as (ts & Hid & E & _).
    eexists. split; [by eapply t_stop|]. simpl. unfold next_stop. destruct (n <? 2)%nat; [intros [= ?]; lia|done].
  - split; [|done]. intros i t Ht. apply (st_disabled s 3 Hi i t Ht). lia.
Qed.

(** A run as a function of what is scheduled: the interrupt, the task thread or
    [main]. *)
Inductive turn := Interrupt | Tasks | Main.

Definition take_turn (t : turn) (s : program) : outcome program :=
  match t, main_at s with
  | _, Cancelled => Ret s
  | Interrupt, _ => Ret (mkProgram (TimerInterruptFunction (timers s)) (u32 (counter s + 1)) (timerIds s)
                       (main_at s) (S <$> ages s))
  | Tasks, _ => ts ← RunTasks (timers s); Ret (mkProgram ts (counter s) (timerIds s) (main_at s) (ages s))
  | Main, Starting n =>
      match settings !! n with
      | Some (timeout, per) =>
          let '(r, ts) := timer_start (Some (Z.of_nat (S n))) (Z.of_nat timeout) per (timers s) in
          Ret (mkProgram ts (counter s) (timerIds s ++ [default 0 r]) (next_start n) (ages s ++ [0%nat]))
      | None => Ret s
      end
  | Main, Asleep => Ret (mkProgram (timers s) (counter s) (timerIds s) (Stopping 0) (ages s))
  | Main, Stopping n =>
      id ← vget (timerIds s) (Z.of_nat n);
      ts ← timer_stop id (timers s);
      Ret (mkProgram ts (counter s) (timerIds s) (next_stop n) (ages s))
  end.

Fixpoint take_turns (l : list turn) (s : program) : outcome program :=
  match l with [] => Ret s | t :: l => s ← take_turn t s; take_turns l s end.

Lemma take_turn_step t s s' : take_turn t s = Ret s' → rtc timer_step s s'.
Proof.
  unfold take_turn. destruct t, (main_at s) as [n| |n|] eqn:Em; try (intros [= <-]; try reflexivity; rewrite <-?Em;
    apply rtc_once; first [apply t_interrupt; by rewrite Em|by apply t_wake]).
  1-3: destruct (RunTasks (timers s)) as [ts|] eqn:E; [|done]; intros [= <-]; rewrite <-Em;
    apply rtc_once, t_run; [by rewrite Em|done].
  - destruct (settings !! n) as [[timeout per]|] eqn:Hs; [|by intros [= <-]].
    destruct (timer_start _ _ _ _) as [r ts] eqn:E. intros [= <-]. apply rtc_once.
    eapply t_start; [done..|]. by destruct r.
  - destruct (vget (timerIds s) (Z.of_nat n)) as [id|] eqn:Ei; [|done]. rewrite bind_Ret.
    destruct (timer_stop id (timers s)) as [ts|] eqn:E; [|done]. intros [= <-]. apply rtc_once.
    eapply t_stop; [done| |done]. apply vget_Ret in Ei as [_ Ei]. by rewrite Nat2Z.id in Ei.
Qed.

Lemma take_turns_steps l : ∀ s s', take_turns l s = Ret s' → rtc timer_step s s'.
Proof.
  induction l as [|t l IH]; intros s s'; simpl; [by intros [= <-]|].
  destruct (take_turn t s) as [s1|] eqn:E; [|done]. intros Hl. etransitivity; [by eapply take_turn_step|by apply IH].
Qed.

(** Thirty ticks with the task thread keeping up: Task1 is called ten times, not
    fifteen, Task2 five and Task3 once. *)
Definition thirty : list turn := [Main; Main; Main] ++ concat (replicate 30 [Interrupt; Tasks]).

Lemma thirty_runs : ∃ p s, timer_main = Ret p ∧ take_turns thirty p = Ret s ∧
  main_at s = Asleep ∧ ages s = [30%nat; 30%nat; 30%nat].
Proof.
  eexists _, _. split; [vm_compute; reflexivity|]. split; [vm_compute; reflexivity|]. split; reflexivity.
Qed.

Lemma timer_program_correct_witness :
  ∃ p s, timer_main = Ret p ∧ take_turns thirty p = Ret s ∧
    tallied (timers s) 0 = 10%nat ∧ tallied (timers s) 1 = 5%nat ∧ tallied (timers s) 2 = 1%nat.
Proof.
  destruct thirty_runs as (p & s & Hp & Hs & Hm & Ha).
  pose proof (timer_program_correct p s Hp (take_turns_steps thirty p s Hs)) as [Ht _]. rewrite Hm in Ht.
  destruct Ht as (_ & Ht & _). exists p, s.
  split_and!; [done|done|apply (Ht 0%nat 30%nat 2%nat true)|apply (Ht 1%nat 30%nat 5%nat true)|
    apply (Ht 2%nat 30%nat 15%nat false)]; by rewrite ?Ha.
Defined.

(** When the task thread is behind, stopping a timer whose task is queued makes
    it call a null pointer: [main] of this program can crash. *)
Theorem timer_program_crashes : ∃ p s, timer_main = Ret p ∧ rtc timer_step p s ∧
  RunTasks (timers s) = Err NullDeref.
Proof.
  eexists _, _. split; [vm_compute; reflexivity|].
  split; [apply (take_turns_steps ([Main; Main; Main] ++ replicate 3 Interrupt ++ [Main; Main])); vm_compute; reflexivity|].
  vm_compute. reflexivity.
Qed.

(** ** Types *)

(** The values that a slot can hold: 32-bit numbers, and a callback whenever the
    timer is enabled. *)
Definition task_typed (t : TimerTask_t) : Prop :=
  0 ≤ reload_timeout_value t < 2 ^ 32 ∧ 0 ≤ curr_timeout_value t < 2 ^ 32 ∧
  (timer_enable t = true → Callback t ≠ None).

Record program_typed (s : program) : Prop := {
  ty_table : length (TimerTask (timers s)) = 5%nat ∧ Forall task_typed (TimerTask (timers s));
  ty_queue : Forall (λ i, 0 ≤ i < MAX_TASK) (Task_queue (timers s));
  ty_counter : 0 ≤ counter s < 2 ^ 32;
}.

Lemma tick_task_typed t : task_typed t → task_typed (tick_task t).1.
Proof.
  unfold task_typed, tick_task. intros (Hr & Hc & Hcb). destruct (timer_enable t) eqn:Et; [|simpl; split_and!; (lia || congruence)].
  destruct (Z.eqb_spec (curr_timeout_value t) 0); [destruct (periodic t); simpl; split_and!; (lia || auto)|]. simpl.
  rewrite u32_small by lia. split_and!; (lia || done).
Qed.

Lemma program_typed_step s s' : program_typed s → timer_step s s' → program_typed s'.
Proof.
  intros [[Hl Ht] Hq Hc] Hst.
  destruct Hst as [s _|s ts _ E|s n timeout per r ts id _ Hs E _|s _|s n id ts _ _ E]; split; simpl; try done.
  - unfold TimerInterruptFunction.
    destruct (interrupt_loop_spec (TimerTask (timers s)) 0 (Task_queue (timers s))) as [E _].
    destruct (interrupt_loop 0 _ _) as [ts q]. simpl in *. subst ts. rewrite length_fmap. split; [done|].
    apply Forall_fmap. eapply list.Forall_impl; [exact Ht|]. intros t. apply tick_task_typed.
  - unfold TimerInterruptFunction.
    pose proof (interrupt_loop_queue (TimerTask (timers s)) 0 (Task_queue (timers s))) as E.
    destruct (interrupt_loop 0 _ _) as [ts q]. simpl in *. apply list.Forall_forall. intros z Hz.
    destruct (E z Hz) as [Hz'|(j & t & Hj & _ & ->)]; [by apply (proj1 (list.Forall_forall _ _) Hq)|].
    apply lookup_lt_Some in Hj. unfold MAX_TASK. lia.
  - unfold u32. by apply Z.mod_pos_bound.
  - unfold RunTasks in E. destruct (run_queue _ _); [|done]. by injection E as <-.
  - unfold RunTasks in E. destruct (run_queue _ _); [|done]. injection E as <-. constructor.
  - unfold timer_start in E. destruct (find_slot 0 _) as [i|] eqn:Ei; injection E as <- <-; [|done]. simpl.
    rewrite length_insert. split; [done|]. apply list.Forall_insert; [done|]. apply settings_small in Hs.
    unfold task_typed. simpl. split_and!; (lia || done).
  - unfold timer_start in E. destruct (find_slot 0 _) as [i|] eqn:Ei; by injection E as <- <-.
  - unfold timer_stop in E. destruct (vget _ id) as [t|]; [|done]. rewrite bind_Ret in E.
    destruct (negb _); [by injection E as <-|]. destruct (_ <? _); [|by injection E as <-].
    destruct (vset _ id _) as [l|] eqn:Ev; [|done]. rewrite bind_Ret in E. injection E as <-. simpl.
    apply vset_Ret in Ev as [_ ->]. rewrite length_insert. split; [done|]. apply list.Forall_insert; [done|].
    unfold task_typed. simpl. split_and!; (lia || done).
  - unfold timer_stop in E. destruct (vget _ id) as [t|]; [|done]. rewrite bind_Ret in E.
    destruct (negb _); [by injection E as <-|]. destruct (_ <? _); [|by injection E as <-].
    destruct (vset _ id _) as [l|] eqn:Ev; [|done]. rewrite bind_Ret in E. by injection E as <-.
Qed.

(** C38: the state of the timer program stays well typed in every interleaving,
    the stopping phase included: the table has its five entries, timeouts and
    counter are 32-bit numbers, a queued index is one of the table, and a timer
    that is enabled has a callback. *)
Theorem timer_program_typed p s : timer_main = Ret p → rtc timer_step p s → program_typed s.
Proof.
  intros Hp Hr. assert (program_typed p) as Ht.
  { rewrite timer_main_value in Hp. injection Hp as <-. split; simpl; [split; [done|]|done|lia].
    assert (task_typed blank_task) by (unfold task_typed; simpl; split_and!; (lia || done)). by repeat constructor. }
  clear Hp. induction Hr; eauto using program_typed_step.
Qed.

Lemma timer_program_typed_witness : ∃ s, program_typed s ∧ main_at s = Asleep.
Proof.
  destruct thirty_runs as (p & s & Hp & Hs & Hm & _). exists s. split; [|done].
  exact (timer_program_typed p s Hp (take_turns_steps thirty p s Hs)).
Defined.
