(* ===== verification/ThreadMains.v ===== *)
(** * Mains that create threads and join them

    countingSemaphore.c, threadCallbackEventSync.cpp and the three singleton
    programs have the same [main]: it creates its threads one after the other
    and joins them all.  The class [ThreadGroup] is what the threads of
    such a program promise; [main] is modelled and proved to end once, for any
    instance, and the programs are instances. *)

From stdpp Require Import base list gmap relations numbers.
From Stdlib Require Import ZArith Lia.
From S2P Require Import Prelude Semaphore Singletons.

(** ** The interface

    [tg_thread] is where a thread is, [tg_join n] the thread that [main] joins as
    its [n]-th, [tg_measure] bounds the steps that are
    left; a spurious wake-up may raise it by [tg_slack]. *)

Class ThreadGroup (St T : Type) := {
  tg_size : nat;
  tg_step : St → St → Prop;
  tg_spurious : St → St → Prop;
  tg_thread : St → nat → option T;
  tg_done : T → bool;
  tg_inv : St → Prop;
  tg_measure : St → nat;
  tg_slack : nat;
  tg_join : nat → nat;
  tg_dom s i : tg_inv s → is_Some (tg_thread s i) ↔ (i < tg_size)%nat;
  tg_preserved s s' : tg_inv s → tg_step s s' → tg_inv s';
  tg_decreases s s' : tg_inv s → tg_step s s' →
    (tg_measure s' < tg_measure s)%nat ∨ (tg_spurious s s' ∧ (tg_measure s' ≤ tg_measure s + tg_slack)%nat);
  (** Finished threads stay finished. *)
  tg_stable s s' i t : tg_step s s' → tg_thread s i = Some t → tg_done t = true → tg_thread s' i = Some t;
  (** While a thread is not finished some thread can go on. *)
  tg_progress s i t : tg_inv s → tg_thread s i = Some t → tg_done t = false →
    ∃ s', tg_step s s' ∧ ¬ tg_spurious s s';
  (** Every thread is joined. *)
  tg_join_range n : (n < tg_size)%nat → (tg_join n < tg_size)%nat;
  tg_join_onto i : (i < tg_size)%nat → ∃ n, (n < tg_size)%nat ∧ tg_join n = i;
}.

Inductive join_main := Creating (n : nat) | Joining (n : nat) | Returned.

Section Join.
Context {St T : Type} `{ThreadGroup St T}.
Abbreviation N := tg_size.

(** [for (i = 0; i < N; i++) create(i); for (i = 0; i < N; i++) join(order(i));] *)
Definition created_upto (m : join_main) : nat := match m with Creating n => n | _ => N end.
Definition after_create (n : nat) : join_main := if (n =? N)%nat then Joining 0 else Creating n.
Definition after_join (n : nat) : join_main := if (n =? N)%nat then Returned else Joining n.
Definition join_start : join_main := Creating 0.

(** Threads that are not created yet do not take part in a step. *)
Inductive join_step : St * join_main → St * join_main → Prop :=
  | j_thread s s' m : tg_step s s' →
      (∀ i, (created_upto m ≤ i)%nat → tg_thread s' i = tg_thread s i) → join_step (s, m) (s', m)
  | j_create s n : (n < N)%nat → join_step (s, Creating n) (s, after_create (S n))
  | j_join s n t : tg_thread s (tg_join n) = Some t → tg_done t = true →
      join_step (s, Joining n) (s, after_join (S n)).

Definition join_spurious (c c' : St * join_main) : Prop := tg_spurious c.1 c'.1 ∧ c.2 = c'.2.

(** A run of [n] steps and [k] spurious wake-ups. *)
Inductive join_run : nat → nat → St * join_main → St * join_main → Prop :=
  | run_nil c : join_run 0 0 c c
  | run_step n k c c1 c' : join_step c c1 → ¬ join_spurious c c1 → join_run n k c1 c' → join_run (S n) k c c'
  | run_spurious n k c c1 c' : join_step c c1 → join_spurious c c1 → join_run n k c1 c' → join_run n (S k) c c'.

(** Creations, joins and the steps of the threads that are left. *)
Definition main_left (m : join_main) : nat :=
  match m with Creating n => N - n + N | Joining n => N - n | Returned => 0 end.
Definition join_left (c : St * join_main) : nat := tg_measure c.1 + main_left c.2.

(** What is joined is finished. *)
Definition joined (m : join_main) : nat := match m with Creating _ => 0 | Joining n => n | Returned => N end.
Definition main_ok (m : join_main) : Prop :=
  match m with Creating n | Joining n => (n < N)%nat | Returned => True end.
Record join_inv (c : St * join_main) : Prop := {
  ji_inv : tg_inv c.1;
  ji_main : main_ok c.2;
  ji_joined i : (i < joined c.2)%nat → ∃ t, tg_thread c.1 (tg_join i) = Some t ∧ tg_done t = true;
}.

Lemma join_inv_start s : (0 < N)%nat → tg_inv s → join_inv (s, join_start).
Proof. intros HN Hi. split; simpl; [done|done|lia]. Qed.

Lemma join_inv_step c c' : join_inv c → join_step c c' → join_inv c' ∧
  ((join_left c' < join_left c)%nat ∨ (join_spurious c c' ∧ (join_left c' ≤ join_left c + tg_slack)%nat)).
Proof.
  intros [Hi Hm Hj] Hst. destruct Hst as [s s' m Hs Hun|s n Hn|s n t Ht Hd]; simpl in *; unfold join_left; simpl.
  - split.
    + split; simpl; [by eapply tg_preserved|done|]. intros i Hlt. destruct (Hj i Hlt) as (t & Ht & Hd).
      exists t. split; [by eapply tg_stable|done].
    + destruct (tg_decreases s s' Hi Hs) as [|[Hsp ?]]; [left; lia|right; split; [by split|lia]].
  - unfold after_create. destruct (Nat.eqb_spec (S n) N); simpl.
    + split; [|left; lia]. split; simpl; [done|lia|lia].
    + split; [|left; lia]. split; simpl; [done|lia|lia].
  - assert (∀ i, (i < S n)%nat → ∃ t, tg_thread s (tg_join i) = Some t ∧ tg_done t = true) as Hj'.
    { intros i Hlt. destruct (decide (i = n)) as [->|]; [eauto|]. apply Hj. lia. }
    unfold after_join. destruct (Nat.eqb_spec (S n) N) as [E|]; simpl.
    + split; [|left; lia]. split; simpl; [done|done|]. by rewrite <-E.
    + split; [|left; lia]. split; simpl; [done|lia|done].
Qed.

Lemma join_run_inv n k c c' : join_run n k c c' → join_inv c →
  join_inv c' ∧ (n + join_left c' ≤ join_left c + tg_slack * k)%nat.
Proof.
  induction 1 as [c|n k c c1 c' Hs Hn _ IH|n k c c1 c' Hs Hsp _ IH]; intros Hi; [split; [done|lia]|..];
    destruct (join_inv_step c c1 Hi Hs) as [Hi1 Hdec]; destruct (IH Hi1) as [Hi' Hb]; (split; [done|]).
  - destruct Hdec as [|[? _]]; [lia|done].
  - destruct Hdec as [|[_ ?]]; lia.
Qed.

Lemma join_progress c : join_inv c → c.2 ≠ Returned → ∃ c', join_step c c' ∧ ¬ join_spurious c c'.
Proof.
  destruct c as [s [n|n|]]; intros [Hi Hm Hj] Hr; simpl in *; [| |done].
  - exists (s, after_create (S n)). split; [by apply j_create|]. intros [_ E]. simpl in E.
    unfold after_create in E. destruct (S n =? N)%nat; [done|]. injection E. lia.
  - destruct (proj2 (tg_dom s (tg_join n) Hi) (tg_join_range n Hm)) as [t Ht]. destruct (tg_done t) eqn:Hd.
    + exists (s, after_join (S n)). split; [by eapply j_join|]. intros [_ E]. simpl in E.
      unfold after_join in E. destruct (S n =? N)%nat; [done|]. injection E. lia.
    + destruct (tg_progress s (tg_join n) t Hi Ht Hd) as (s' & Hs & Hns). exists (s', Joining n).
      split; [|by intros [? _]]. apply j_thread; [done|]. simpl. intros i Hle.
      assert (∀ s0, tg_inv s0 → tg_thread s0 i = None) as Hnone.
      { intros s0 H0. apply eq_None_not_Some. rewrite tg_dom by done. lia. }
      rewrite !Hnone; [done|done|by eapply tg_preserved].
Qed.
End Join.

(** ** semaphore/countingSemaphore.c *)

Definition NUM_THREADS : nat := 5.

Definition sem_weight (t : sem_worker) : nat :=
  match t with Acquiring => 4 | Critical => 3 | Sleeping => 2 | Finished => 0 end.
Definition sem_spurious_step (s s' : semaphore_t) : Prop :=
  ∃ i, sem_threads s !! i = Some Sleeping ∧ s' = mkSem (count s) (<[i := Acquiring]> (sem_threads s)).
Definition sem_finished (t : sem_worker) : bool := match t with Finished => true | _ => false end.

(** Every step but a spurious wake-up brings the threads closer to their end. *)
Lemma sem_weight_step s s' : sem_step s s' →
  (total sem_weight (sem_threads s') < total sem_weight (sem_threads s))%nat ∨
  (sem_spurious_step s s' ∧ (total sem_weight (sem_threads s') ≤ total sem_weight (sem_threads s) + 2)%nat).
Proof.
  intros [s0 i Hi _|s0 i c Hi _|s0 i c ts Hi _ Hs|s0 i Hi]; simpl.
  - pose proof (total_insert sem_weight _ _ _ Sleeping Hi). simpl in *. lia.
  - pose proof (total_insert sem_weight _ _ _ Critical Hi). simpl in *. lia.
  - pose proof (total_insert sem_weight _ _ _ Finished Hi). simpl in *.
    destruct Hs as [_|j Hj]; [lia|]. pose proof (total_insert sem_weight _ _ _ Acquiring Hj). simpl in *. lia.
  - right. pose proof (total_insert sem_weight _ _ _ Acquiring Hi). simpl in *. split; [by exists i|lia].
Qed.

Lemma sem_length_step s s' : sem_step s s' → length (sem_threads s') = length (sem_threads s).
Proof.
  intros [s0 i _ _|s0 i c _ _|s0 i c ts _ _ Hs|s0 i _]; simpl; rewrite ?length_insert; [done..| |done].
  destruct Hs; by rewrite !length_insert.
Qed.

Lemma sem_finished_step s s' i : sem_step s s' → sem_threads s !! i = Some Finished → sem_threads s' !! i = Some Finished.
Proof.
  intros [s0 j Hj _|s0 j c Hj _|s0 j c ts Hj _ Hs|s0 j Hj] Hi; simpl in *.
  all: assert (i ≠ j) by congruence.
  1,2,4: by rewrite list_lookup_insert_ne.
  destruct Hs as [_|l Hl]; [by rewrite list_lookup_insert_ne|].
  assert (<[j := Finished]> (sem_threads s0) !! i = Some Finished) as Hi' by (by rewrite list_lookup_insert_ne).
  rewrite list_lookup_insert_ne; [done|congruence].
Qed.

Lemma sem_someone_steps k s i t : 0 < k ≤ INT_MAX → sem_inv k s → sem_threads s !! i = Some t → t ≠ Finished →
  ∃ s', sem_step s s' ∧ ¬ sem_spurious_step s s'.
Proof.
  intros Hk Hinv Hi Ht.
  destruct (decide (Exists (λ t, acquiring t || critical t = true) (sem_threads s))) as [He|He].
  - apply list.Exists_exists in He as (u & (j & Hj)%list_elem_of_lookup & Hu).
    destruct (sem_awake_steps k s j u ltac:(lia) Hinv Hj Hu) as (s' & Hs & Hne). exists s'. split; [done|].
    intros (l & Hl & ->). apply Hne. simpl. rewrite list_lookup_insert_ne; [done|]. intros ->.
    rewrite Hl in Hj. by injection Hj as <-.
  - exfalso. apply Ht. apply (sem_not_stuck k s ltac:(lia) Hinv) with i; [|done]. intros j u Hj.
    destruct u; [|by left| |by right]; exfalso; apply He, list.Exists_exists; (eexists; split; [by eapply list_elem_of_lookup_2|done]).
Qed.

#[export] Program Instance sem_group : ThreadGroup semaphore_t sem_worker := {|
  tg_size := NUM_THREADS;
  tg_step := sem_step;
  tg_spurious := sem_spurious_step;
  tg_thread s i := sem_threads s !! i;
  tg_done := sem_finished;
  tg_inv s := sem_inv 2 s ∧ length (sem_threads s) = NUM_THREADS;
  tg_measure s := total sem_weight (sem_threads s);
  tg_slack := 2;
  tg_join n := n;
|}.
Next Obligation. intros s i [_ Hl]. simpl. by rewrite lookup_lt_is_Some, Hl. Qed.
Next Obligation.
  intros s s' [Hi Hl] Hs. split; [by eapply sem_inv_step; [unfold INT_MAX; lia|..]|]. by rewrite (sem_length_step s s').
Qed.
Next Obligation. intros s s' _ Hs. by apply sem_weight_step. Qed.
Next Obligation. intros s s' i t Hs Ht Hd. destruct t; try done. by eapply sem_finished_step. Qed.
Next Obligation.
  intros s i t [Hi _] Ht Hd. apply (sem_someone_steps 2 s i t); [unfold INT_MAX; lia|done|done|]. by intros ->.
Qed.
Next Obligation. done. Qed.
Next Obligation. intros i Hi. by exists i. Qed.

(** ** pureStorage/threadCallbackEventSync.cpp

    The threads in the order of their creation: users 1 and 2, the event handler
    and user 3. *)

Definition event_threads : event_system := mkEvent false (replicate 3 Registering) EventRunning.

Definition event_thread (s : event_system) (i : nat) : option (user + handler) :=
  match i with
  | 0%nat => inl <$> users s !! 0%nat
  | 1%nat => inl <$> users s !! 1%nat
  | 2%nat => Some (inr (event_handler_at s))
  | 3%nat => inl <$> users s !! 2%nat
  | _ => None
  end.
(** [main] joins the three users before the event handler. *)
Definition event_join (n : nat) : nat := match n with 2%nat => 3%nat | 3%nat => 2%nat | n => n end.

Definition event_done (t : user + handler) : bool :=
  match t with inl Executed | inr EventOver => true | _ => false end.

(** The three users of the program; no other arrives. *)
Definition event_program_step (s s' : event_system) : Prop :=
  event_step s s' ∧ length (users s') = length (users s).
Definition event_spurious (s s' : event_system) : Prop :=
  ∃ i, users s !! i = Some AwaitsEvent ∧
    s' = mkEvent (event_complete s) (<[i := Registering]> (users s)) (event_handler_at s).

Definition user_weight (h : handler) (u : user) : nat :=
  match h, u with
  | _, Executed => 0
  | EventOver, Registering => 1
  | EventOver, AwaitsEvent => 0
  | _, Registering => 3
  | _, AwaitsEvent => 2
  end.
Definition handler_weight (h : handler) : nat :=
  match h with EventRunning => 2 | EventNotifying => 1 | EventOver => 0 end.
Definition event_weight (s : event_system) : nat :=
  total (user_weight (event_handler_at s)) (users s) + handler_weight (event_handler_at s).

Lemma event_weight_step s s' : event_inv s → event_program_step s s' →
  (event_weight s' < event_weight s)%nat ∨ (event_spurious s s' ∧ (event_weight s' ≤ event_weight s + 1)%nat).
Proof.
  unfold event_inv, event_weight. intros Hinv [Hs Hl].
  destruct Hs as [s i Hi|s i Hi|s|s Hh|s Hh]; simpl in *.
  - left. pose proof (total_insert (user_weight (event_handler_at s)) _ _ _ (reg_cb (event_complete s)) Hi).
    destruct (event_handler_at s); [destruct Hinv as [E _]|rename Hinv into E|destruct Hinv as [E _]];
      rewrite E in *; simpl in *; lia.
  - right. split; [by exists i|].
    pose proof (total_insert (user_weight (event_handler_at s)) _ _ _ Registering Hi).
    destruct (event_handler_at s); simpl in *; lia.
  - rewrite length_app in Hl. simpl in Hl. lia.
  - left. rewrite Hh. simpl. assert (total (user_weight EventNotifying) (users s) = total (user_weight EventRunning) (users s))
      as -> by (by apply total_ext). lia.
  - left. rewrite Hh. simpl. assert (∀ us, total (user_weight EventOver) (notify_user <$> us) ≤
      total (user_weight EventNotifying) us)%nat as Hle.
    { induction us as [|u us IH]; [done|]. rewrite fmap_cons. cbn [total]. destruct u; simpl; lia. }
    specialize (Hle (users s)). lia.
Qed.

Lemma event_executed_step s s' i : event_step s s' → users s !! i = Some Executed → users s' !! i = Some Executed.
Proof.
  intros [s0 j Hj|s0 j Hj|s0|s0 _|s0 _] Hi; simpl in *.
  - rewrite list_lookup_insert_ne; [done|congruence].
  - rewrite list_lookup_insert_ne; [done|congruence].
  - by apply lookup_app_l_Some.
  - done.
  - by rewrite list_lookup_fmap, Hi.
Qed.

Lemma event_over_step s s' : event_step s s' → event_handler_at s = EventOver → event_handler_at s' = EventOver.
Proof. intros [s0 j _|s0 j _|s0|s0 Hh|s0 Hh] Ho; simpl in *; congruence. Qed.

(** The handler can always go on; after it every user that has not executed its
    callback can. *)
Lemma event_someone_steps s i t : event_inv s → event_thread s i = Some t → event_done t = false →
  ∃ s', event_program_step s s' ∧ ¬ event_spurious s s'.
Proof.
  intros Hinv Ht Hd. destruct (event_handler_at s) eqn:Eh.
  - eexists. split; [split; [by apply ev_completes|done]|]. intros (j & Hj & [= _ _ E]). congruence.
  - eexists. split; [split; [by apply ev_notify_all|simpl; by rewrite length_fmap]|]. intros (j & Hj & [= _ E]). congruence.
  - unfold event_inv in Hinv. rewrite Eh in Hinv. destruct Hinv as [Hc Hn].
    assert (∃ j, users s !! j = Some Registering) as [j Hj].
    { assert (∃ j u, users s !! j = Some u ∧ u ≠ Executed) as (j & u & Hj & Hu).
      { destruct i as [|[|[|[|i]]]]; simpl in Ht; [| |rewrite Eh in Ht; injection Ht as <-; done| |done];
          apply fmap_Some in Ht as (u & Hu & ->); eexists _, u; (split; [exact Hu|by intros ->]). }
      exists j. destruct u; [done| |done]. exfalso. apply Hn. by eapply list_elem_of_lookup_2. }
    eexists. split; [split; [by eapply ev_reg_cb|simpl; by rewrite length_insert]|].
    rewrite Hc. intros (l & Hl & _). apply Hn. by eapply list_elem_of_lookup_2.
Qed.

#[export] Program Instance event_group : ThreadGroup event_system (user + handler) := {|
  tg_size := 4;
  tg_step := event_program_step;
  tg_spurious := event_spurious;
  tg_thread := event_thread;
  tg_done := event_done;
  tg_inv s := event_inv s ∧ length (users s) = 3%nat;
  tg_measure := event_weight;
  tg_slack := 1;
  tg_join := event_join;
|}.
Next Obligation.
  intros s i [_ Hl]. simpl. destruct (users s) as [|u0 [|u1 [|u2 [|]]]] eqn:E; try done.
  destruct i as [|[|[|[|i]]]]; simpl; rewrite ?E; [split; [lia|by eexists]..|]. split; [by intros [? ?]|lia].
Qed.
Next Obligation. intros s s' [Hi Hl] [Hs El]. split; [by eapply event_inv_step|lia]. Qed.
Next Obligation. intros s s' [Hi _] Hs. by apply event_weight_step. Qed.
Next Obligation.
  intros s s' i t [Hs _] Ht Hd. destruct i as [|[|[|[|i]]]]; simpl in *; [| | | |done];
    try (apply fmap_Some in Ht as (u & Hu & ->); destruct u; [done..|]; by rewrite (event_executed_step s s')).
  injection Ht as <-. destruct (event_handler_at s) eqn:E; [done..|]. by rewrite (event_over_step s s').
Qed.
Next Obligation. intros s i t [Hi _] Ht Hd. by apply (event_someone_steps s i t). Qed.
Next Obligation. intros [|[|[|[|n]]]] Hn; simpl in *; lia. Qed.
Next Obligation. intros [|[|[|[|i]]]] Hi; [exists 0%nat|exists 1%nat|exists 3%nat|exists 2%nat|lia]; split; [lia|done|lia|done|lia|done|lia|done]. Qed.

(** ** The singletons: ten threads each *)

Definition WORKERS : nat := 10.

(** Threads in a list where each step moves one of them on. *)
Section Lists.
Context {C W : Type} (step : C * list W → C * list W → Prop) (weight : W → nat) (ok : C * list W → Prop).
Hypothesis step_shape : ∀ c c', step c c' →
  ∃ i x y, c.2 !! i = Some x ∧ c'.2 = <[i := y]> c.2 ∧ (weight y < weight x)%nat.
Hypothesis step_ok : ∀ c c', ok c → step c c' → ok c'.
Hypothesis step_possible : ∀ c i x, ok c → c.2 !! i = Some x → (0 < weight x)%nat → ∃ c', step c c'.

#[program] Definition list_group : ThreadGroup (C * list W) W := {|
  tg_size := WORKERS;
  tg_step := step;
  tg_spurious _ _ := False;
  tg_thread c i := c.2 !! i;
  tg_done x := (weight x =? 0)%nat;
  tg_inv c := ok c ∧ length c.2 = WORKERS;
  tg_measure c := total weight c.2;
  tg_slack := 0;
  tg_join n := n;
|}.
Next Obligation. intros c i [_ Hl]. simpl. by rewrite lookup_lt_is_Some, Hl. Qed.
Next Obligation.
  intros c c' [Hi Hl] Hs. split; [by eapply step_ok|].
  destruct (step_shape c c' Hs) as (i & x & y & _ & -> & _). by rewrite length_insert.
Qed.
Next Obligation.
  intros c c' _ Hs. left. destruct (step_shape c c' Hs) as (i & x & y & Hi & -> & Hw).
  pose proof (total_insert weight _ _ _ y Hi). lia.
Qed.
Next Obligation.
  intros c c' j t Hs Hj Ht%Nat.eqb_eq. destruct (step_shape c c' Hs) as (i & x & y & Hi & -> & Hw).
  simpl in *. rewrite list_lookup_insert_ne; [done|]. intros ->. assert (x = t) as -> by congruence. lia.
Qed.
Next Obligation.
  intros c i t [Hok _] Ht Hd%Nat.eqb_neq. destruct (step_possible c i t Hok Ht ltac:(lia)) as (c' & Hs).
  exists c'. split; [done|by intros []].
Qed.
Next Obligation. done. Qed.
Next Obligation. intros i Hi. by exists i. Qed.
End Lists.

(** singleton_manual_thread_safe.cpp *)
Definition worker_weight (w : worker) : nat := match w with Starts => 3 | Created => 2 | Holds _ => 1 | Ends => 0 end.

#[export] Instance locked_group : ThreadGroup (singleton * list worker) worker.
Proof.
  refine (list_group locked_step worker_weight locked_ok _ locked_ok_step _).
  - intros c c' [s ws i Hi|s ws i Hi|s s' ws i r Hi _]; eexists i, _, _; (split_and!; [exact Hi|done|simpl; lia]).
  - intros [s ws] i t [Hs _] Ht Hw. simpl in *. destruct (DestroyInstance_single s Hs) as (s' & Ed & _).
    destruct t as [| |r|]; simpl in Hw; [..|lia]; eexists; [by apply lk_create|by apply lk_return|by eapply lk_destroy].
Defined.

(** singleton_no_thread_safe.cpp *)
Definition racer_weight (w : racer) : nat := match w with Enters => 2 | Decided => 1 | Got _ => 0 end.
Definition got (w : racer) : bool := match w with Got _ => true | _ => false end.

(** Every thread creates at most one instance, and a thread that has returned
    found or created one. *)
Definition racy_ok (c : singleton * list racer) : Prop :=
  (created c.1 + countb (λ w, negb (got w)) c.2 ≤ length c.2)%nat ∧
  (ptr c.1 ≠ None → (0 < created c.1)%nat) ∧ ((0 < countb got c.2)%nat → (0 < created c.1)%nat).

Lemma racy_ok_step c c' : racy_ok c → racy_step c c' → racy_ok c'.
Proof.
  intros Hok Hs. destruct Hs as [s ws i Hi Hp|s ws i Hi Hp|s ws i Hi]; destruct Hok as (H1 & H2 & H3); unfold racy_ok; simpl in *; rewrite length_insert.
  - pose proof (countb_insert (λ w, negb (got w)) _ _ _ Decided Hi).
    pose proof (countb_insert got _ _ _ Decided Hi). simpl in *. split_and!; [lia|done|intros; apply H3; lia].
  - pose proof (countb_insert (λ w, negb (got w)) _ _ _ (Got (ptr s)) Hi). simpl in *. split_and!; [lia|done|auto].
  - pose proof (countb_insert (λ w, negb (got w)) _ _ _ (Got (Some (created s))) Hi). simpl in *. split_and!; [lia|intros; lia..].
Qed.

#[export] Instance racy_group : ThreadGroup (singleton * list racer) racer.
Proof.
  refine (list_group racy_step racer_weight racy_ok _ racy_ok_step _).
  - intros c c' [s ws i Hi _|s ws i Hi _|s ws i Hi]; eexists i, _, _; (split_and!; [exact Hi|done|simpl; lia]).
  - intros [s ws] i t _ Ht Hw. simpl in *. destruct t as [| |r]; simpl in Hw; [..|lia].
    + destruct (ptr s) as [p|] eqn:E; eexists; [by apply rc_skip; [|rewrite E]|by apply rc_test].
    + eexists. by apply rc_new.
Defined.

(** singleton_modern_thread_safe.cpp: the instance is a static variable of
    [GetInstance].  The language runs its constructor once, in the first call;
    calls that come meanwhile wait; the destructor runs after [main]. *)
Inductive static_guard := Uninitialised | Initialising | Initialised.
Inductive caller := Calls | Constructs | HasInstance.
Record static_instance := mkStatic { guard : static_guard; constructed : nat }.

Inductive static_step : static_instance * list caller → static_instance * list caller → Prop :=
  | st_first s ws i : ws !! i = Some Calls → guard s = Uninitialised →
      static_step (s, ws) (mkStatic Initialising (constructed s), <[i := Constructs]> ws)
  | st_built s ws i : ws !! i = Some Constructs →
      static_step (s, ws) (mkStatic Initialised (S (constructed s)), <[i := HasInstance]> ws)
  | st_later s ws i : ws !! i = Some Calls → guard s = Initialised →
      static_step (s, ws) (s, <[i := HasInstance]> ws).

(** The destructions at exit. *)
Definition static_exit (s : static_instance) : nat := match guard s with Initialised => 1 | _ => 0 end.

Definition caller_weight (w : caller) : nat := match w with Calls => 2 | Constructs => 1 | HasInstance => 0 end.
Definition constructing (w : caller) : bool := match w with Constructs => true | _ => false end.
Definition has_instance (w : caller) : bool := match w with HasInstance => true | _ => false end.

Definition static_ok (c : static_instance * list caller) : Prop :=
  match guard c.1 with
  | Uninitialised => constructed c.1 = 0%nat ∧ countb constructing c.2 = 0%nat ∧ countb has_instance c.2 = 0%nat
  | Initialising => constructed c.1 = 0%nat ∧ countb constructing c.2 = 1%nat ∧ countb has_instance c.2 = 0%nat
  | Initialised => constructed c.1 = 1%nat ∧ countb constructing c.2 = 0%nat
  end.

Lemma static_ok_step c c' : static_ok c → static_step c c' → static_ok c'.
Proof.
  unfold static_ok. intros Hok Hs. destruct Hs as [s ws i Hi Hg|s ws i Hi|s ws i Hi Hg]; simpl in *.
  - pose proof (countb_insert constructing _ _ _ Constructs Hi). pose proof (countb_insert has_instance _ _ _ Constructs Hi).
    rewrite Hg in Hok. simpl in *. lia.
  - pose proof (countb_insert constructing _ _ _ HasInstance Hi). simpl in *. destruct (guard s); lia.
  - pose proof (countb_insert constructing _ _ _ HasInstance Hi). rewrite Hg in *. simpl in *. lia.
Qed.

#[export] Instance static_group : ThreadGroup (static_instance * list caller) caller.
Proof.
  refine (list_group static_step caller_weight static_ok _ static_ok_step _).
  - intros c c' [s ws i Hi _|s ws i Hi|s ws i Hi _]; eexists i, _, _; (split_and!; [exact Hi|done|simpl; lia]).
  - intros [s ws] i t Hok Ht Hw. unfold static_ok in Hok. simpl in *. destruct t; simpl in Hw; [| |lia].
    + destruct (guard s) eqn:Eg; [eexists; by eapply st_first| |eexists; by eapply st_later].
      destruct (countb_pos_inv constructing ws ltac:(lia)) as (j & u & Hj & Hu). destruct u; try done.
      eexists. by apply (st_built s ws j).
    + eexists. by apply (st_built s ws i).
Defined.

(** ** The programs *)

(** The threads that each [main] creates, and [main] about to create them. *)
Definition sem_program : semaphore_t * join_main := (sem_init_custom 2 NUM_THREADS, join_start).
Definition event_program : event_system * join_main := (event_threads, join_start).
Definition locked_program : singleton * list worker * join_main := (locked_start WORKERS, join_start).
Definition racy_program : singleton * list racer * join_main := (no_instance, replicate WORKERS Enters, join_start).
Definition static_program : static_instance * list caller * join_main :=
  (mkStatic Uninitialised 0, replicate WORKERS Calls, join_start).

(** What holds of a program at any time: the steps taken are bounded, [main] or
    a thread can go on until [main] has returned, and then all threads are
    finished. *)
Definition ends_well {St T} `{ThreadGroup St T} (start : St * join_main) (bound : nat) (final : St → Prop) : Prop :=
  ∀ n k c, join_run n k start c →
    (n ≤ bound + tg_slack * k)%nat ∧
    (c.2 ≠ Returned → ∃ c', join_step c c' ∧ ¬ join_spurious c c') ∧
    (c.2 = Returned → final c.1).

(** Creations, joins and steps of the threads: [main] ends for every group. *)
Lemma group_ends_well {St T} `{ThreadGroup St T} start bound final :
  bound = (tg_measure start + 2 * tg_size)%nat → (0 < tg_size)%nat → tg_inv start →
  (∀ s, tg_inv s → (∀ i, (i < tg_size)%nat → ∃ t, tg_thread s i = Some t ∧ tg_done t = true) → final s) →
  ends_well (start, join_start) bound final.
Proof.
  intros -> HN Hi Hf n k c Hr. destruct (join_run_inv n k _ c Hr (join_inv_start start HN Hi)) as [Hc Hb].
  split_and!.
  - unfold join_left in Hb. simpl in Hb. lia.
  - by apply join_progress.
  - intros E. pose proof Hc as [Hinv _ Hj]. rewrite E in Hj. apply Hf; [done|].
    intros i Hlt. destruct (tg_join_onto i Hlt) as (j & Hj' & <-). by apply Hj.
Qed.

Lemma list_all_done {W} (ws : list W) (weight : W → nat) n : length ws = n →
  (∀ i, (i < n)%nat → ∃ t, ws !! i = Some t ∧ (weight t =? 0)%nat = true) →
  ∀ i w, ws !! i = Some w → weight w = 0%nat.
Proof.
  intros Hl Hall i w Hi. pose proof (lookup_lt_Some _ _ _ Hi). destruct (Hall i ltac:(lia)) as (t & Ht & Hw%Nat.eqb_eq).
  congruence.
Qed.

Lemma sem_program_ends : ends_well sem_program 30
  (λ s, count s = 2 ∧ ∀ i t, sem_threads s !! i = Some t → t = Finished).
Proof.
  apply group_ends_well; [done|by apply Nat.ltb_lt|split; [by apply sem_inv_init|done]|].
  intros s [[Hc _ _] Hl] Hall. simpl in *.
  assert (∀ i t, sem_threads s !! i = Some t → t = Finished) as Hf.
  { intros i t Hi. pose proof (lookup_lt_Some _ _ _ Hi). destruct (Hall i ltac:(lia)) as (u & Hu & Hd).
    assert (u = t) as -> by congruence. by destruct t. }
  split; [|done]. assert (countb critical (sem_threads s) = 0%nat); [|lia].
  apply countb_zero. intros i t Hi. by rewrite (Hf i t Hi).
Qed.

Lemma event_program_ends : ends_well event_program 19
  (λ s, event_complete s = true ∧ users s = replicate 3 Executed).
Proof.
  apply group_ends_well; [done|by apply Nat.ltb_lt|split; [by split; [done|set_solver]|done]|].
  intros s [Hi Hl] Hall. simpl in *. unfold event_inv in Hi.
  pose proof (Hall 0%nat ltac:(lia)) as (t0 & H0 & D0). pose proof (Hall 1%nat ltac:(lia)) as (t1 & H1 & D1).
  pose proof (Hall 2%nat ltac:(lia)) as (t2 & H2 & D2). pose proof (Hall 3%nat ltac:(lia)) as (t3 & H3 & D3).
  destruct (users s) as [|u0 [|u1 [|u2 [|]]]] eqn:E; try done. simpl in *. rewrite E in *. simpl in *. simplify_eq/=.
  destruct (event_handler_at s); [done..|]. split; [by destruct Hi|]. by destruct u0, u1, u2.
Qed.

Lemma locked_program_ends : ends_well locked_program 50 (λ c, created c.1 = destroyed c.1 ∧ ptr c.1 = None).
Proof.
  apply group_ends_well; [done|by apply Nat.ltb_lt|split; [apply locked_ok_start|done]|].
  intros [s ws] [Hok Hl] Hall. simpl in *. apply (locked_all_ended s ws Hok). intros i w Hi.
  pose proof (list_all_done ws worker_weight _ Hl Hall i w Hi) as Hw. by destruct w.
Qed.

Lemma racy_program_ends : ends_well racy_program 40 (λ c, (1 ≤ created c.1 ≤ 10)%nat).
Proof.
  apply group_ends_well; [done|by apply Nat.ltb_lt|split; [by split_and!; simpl; [lia|..]|done]|].
  intros [s ws] [(H1 & _ & H3) Hl] Hall. simpl in *. unfold WORKERS in *.
  assert (∀ i w, ws !! i = Some w → got w = true) as Hg.
  { intros i w Hi. pose proof (list_all_done ws racer_weight _ Hl Hall i w Hi). by destruct w. }
  apply countb_all in Hg. split; [apply H3|]; lia.
Qed.

Lemma static_program_ends : ends_well static_program 40
  (λ c, constructed c.1 = 1%nat ∧ static_exit c.1 = 1%nat).
Proof.
  apply group_ends_well; [done|by apply Nat.ltb_lt|done|].
  intros [s ws] [Hok Hl] Hall. unfold static_ok, static_exit in *. simpl in *. unfold WORKERS in *.
  assert (∀ i w, ws !! i = Some w → has_instance w = true) as Hg.
  { intros i w Hi. pose proof (list_all_done ws caller_weight _ Hl Hall i w Hi). by destruct w. }
  apply countb_all in Hg. destruct (guard s); lia.
Qed.

(** C26: the five programs end, in every interleaving of their threads and
    whatever the scheduler does: apart from spurious wake-ups the semaphore
    program takes at most 30 steps, the callback program 19, and the singleton
    programs 50, 40 and 40; until [main] has returned something can always
    go on.  In the end the semaphore has its two permits again, every
    callback was executed after the event, the mutex-protected singleton was
    destroyed as often as created, the unprotected one was created at least
    once and at most ten times and never destroyed, and the static one was
    created and destroyed exactly once. *)
Theorem thread_mains_end :
  ends_well sem_program 30
    (λ s, count s = 2 ∧ ∀ i t, sem_threads s !! i = Some t → t = Finished) ∧
  ends_well event_program 19 (λ s, event_complete s = true ∧ users s = replicate 3 Executed) ∧
  ends_well locked_program 50 (λ c, created c.1 = destroyed c.1 ∧ ptr c.1 = None) ∧
  ends_well racy_program 40 (λ c, (1 ≤ created c.1 ≤ 10)%nat) ∧
  ends_well static_program 40
    (λ c, constructed c.1 = 1%nat ∧ static_exit c.1 = 1%nat).
Proof.
  exact (conj sem_program_ends (conj event_program_ends (conj locked_program_ends
    (conj racy_program_ends static_program_ends)))).
Qed.
