(* ===== verification/LanguageDemos.v ===== *)
(** * The language demonstrations

    arista/container_of.c, pointer_types.c, sizeof.c and interview1/cQuestion.c
    compute with addresses of the parts of an object; builtinFunctions.c uses
    two compiler intrinsics; memoryLayout/ has variables in every segment.
    Addresses are 64-bit numbers, an [int] has 4 bytes and a pointer 8, as on
    the x86-64 and AArch64 Linux the programs are written for. *)

From stdpp Require Import base list strings numbers.
From Stdlib Require Import ZArith Lia.
From S2P Require Import Prelude.

Definition sizeof_int : Z := 4.
Definition sizeof_ptr : Z := 8.

(** ** Layout of structs *)

(** A member: its size and alignment. *)
Record member := mkMember { msize : Z; malign : Z }.

Definition align_up (a n : Z) : Z := (n + a - 1) / a * a.

(** [offsetof]: members in order, each at the next multiple of its alignment. *)
Fixpoint offsets (at_ : Z) (ms : list member) : list Z :=
  match ms with
  | [] => []
  | m :: ms => let o := align_up (malign m) at_ in o :: offsets (o + msize m) ms
  end.
Definition offsetof (ms : list member) (i : nat) : outcome Z := of_option OutOfBounds (offsets 0 ms !! i).

(** [struct student]: [char name[20]; int roll_no; int course_code; int marks;] *)
Definition student : list member := [mkMember 20 1; mkMember 4 4; mkMember 4 4; mkMember 4 4].
Definition marks : nat := 3.

(** [(type* )((char* )__mptr - offsetof(type, member))] *)
Definition container_of (ptr : Z) (type : list member) (i : nat) : outcome Z :=
  o ← offsetof type i; Ret (u64 (ptr - o)).

(** Whether the success message is printed; [stu] is the address of the object. *)
Definition container_main (stu : Z) : outcome bool :=
  o ← offsetof student marks;
  let pMarks := u64 (stu + o) in
  pStu ← container_of pMarks student marks;
  Ret (pStu =? stu).

(** ** Arrays *)

(** [p + n] for a pointer to objects of a size, and the difference of two. *)
Definition ptr_add (size p n : Z) : Z := u64 (p + size * n).
Definition ptr_diff (size p q : Z) : Z := Z.quot (p - q) size.

Definition arr : list Z := [1; 2; 3; 4; 5].
Definition sizeof_arr : Z := sizeof_int * Z.of_nat (length arr).

(** pointer_types.c: [a] is the address of the array; the four addresses and
    the difference that are printed. *)
Definition pointer_types_main (a : Z) : list Z * Z :=
  ([a; a; ptr_add sizeof_int a 1; ptr_add sizeof_arr a 1], ptr_add sizeof_arr a 1 - a).

(** sizeof.c: the addresses, the length and the size of a pointer. *)
Definition sizeof_main (a : Z) : list Z * Z * Z :=
  ([a; a; ptr_add sizeof_int a 1; ptr_add sizeof_arr a 1; ptr_add sizeof_arr a 1],
   ptr_diff sizeof_int (ptr_add sizeof_arr a 1) a, sizeof_ptr).

(** A read of the array through a pointer to [int]. *)
Definition read_int (a p : Z) : outcome Z :=
  if (p - a) mod sizeof_int =? 0 then vget arr ((p - a) / sizeof_int) else Err OutOfBounds.

(** interview1/cQuestion.c *)
Definition question_main (a : Z) : outcome (Z * Z) :=
  let ptr := ptr_add sizeof_arr a 1 in
  x ← read_int a (ptr_add sizeof_int a 1);
  y ← read_int a (ptr_add sizeof_int ptr (-1));
  Ret (x, y).

(** ** Intrinsics (builtinFunctions.c) *)

(** [__builtin_clz]: undefined for 0. *)
Definition builtin_clz (x : Z) : outcome Z := if x =? 0 then Err (Exn "clz of 0") else Ret (31 - Z.log2 x).
(** [__builtin_popcountl] *)
Fixpoint popcount_pos (p : positive) : Z :=
  match p with xH => 1 | xO p => popcount_pos p | xI p => 1 + popcount_pos p end.
Definition builtin_popcountl (x : Z) : Z := match x with Z.pos p => popcount_pos p | _ => 0 end.

Definition builtin_main : outcome (Z * Z) :=
  leading_zeros ← builtin_clz 0xF000000;
  let pop_count := builtin_popcountl 42 in
  Ret (leading_zeros, pop_count).

(** ** memoryLayout/ *)

Record segments := mkSegments { main_global : Z; call_count : Z }.
Definition loaded : segments := mkSegments 100 0.

Definition library_api (g : segments) : outcome segments :=
  c ← int (call_count g + 1); Ret (mkSegments (main_global g) c).

(** [mem]: [malloc] succeeds, which is not tested.  What is printed, and the
    globals at the end. *)
Definition layout_main (mem : bool) (g : segments) : outcome (Z * Z * Z * segments) :=
  let local_var := 5 in
  _ ← check mem NullDeref;
  let dynamic := 0 in
  g' ← library_api g;
  Ret (local_var, main_global g, dynamic, g').

(** ** What they show *)

Lemma align_up_spec a n : 0 < a → (a | align_up a n) ∧ n ≤ align_up a n < n + a.
Proof.
  intros Ha. unfold align_up. split; [apply Z.divide_factor_r|].
  pose proof (Z.div_mod (n + a - 1) a ltac:(lia)). pose proof (Z.mod_pos_bound (n + a - 1) a ltac:(lia)). nia.
Qed.

Definition member_ok (m : member) : Prop := 0 < msize m ∧ 0 < malign m.

(** The members are aligned, in order, and do not overlap. *)
Lemma offsets_spec ms : Forall member_ok ms → ∀ at_ i o m, offsets at_ ms !! i = Some o → ms !! i = Some m →
  (malign m | o) ∧ at_ ≤ o ∧ ∀ j o', (i < j)%nat → offsets at_ ms !! j = Some o' → o + msize m ≤ o'.
Proof.
  induction 1 as [|m ms [Hs Ha] Hms IH]; intros at_ i o m' Ho Hm; [done|].
  pose proof (align_up_spec (malign m) at_ Ha) as [Hd Hr]. destruct i as [|i]; simplify_eq/=.
  - split_and!; [done|lia|]. intros [|j] o' Hj Ho'; [lia|]. simpl in Ho'.
    destruct (lookup_lt_is_Some_2 ms j) as [n Hn].
    { assert (∀ l a, length (offsets a l) = length l) as Hlen by (induction l as [|? ? IHl]; intros; simpl; auto).
      apply lookup_lt_Some in Ho'. by rewrite Hlen in Ho'. }
    by destruct (IH _ j o' n Ho' Hn) as (_ & ? & _).
  - destruct (IH _ i o m' Ho Hm) as (Hd' & Hle & Hnext). split_and!; [done|lia|].
    intros [|j] o' Hj Ho'; [lia|]. apply (Hnext j); [lia|done].
Qed.

(** [container_of] inverts taking the address of a member, for every struct and
    member, wherever the object is. *)
Theorem container_of_member type i o base : offsetof type i = Ret o → 0 ≤ base < 2 ^ 64 →
  container_of (u64 (base + o)) type i = Ret base.
Proof.
  intros Ho Hb. unfold container_of. rewrite Ho, bind_Ret. unfold u64.
  rewrite Zminus_mod_idemp_l. replace (base + o - o) with base by lia. by rewrite Z.mod_small.
Qed.

(** The programs print what they announce, wherever their array is: the length
    is 5, the pointers differ by 20 bytes, the question's answer is 2 and 5. *)
Theorem language_demos a : 0 ≤ a < 2 ^ 64 - sizeof_arr →
  offsetof student marks = Ret 28 ∧ container_main a = Ret true ∧
  pointer_types_main a = ([a; a; a + 4; a + 20], 20) ∧
  sizeof_main a = ([a; a; a + 4; a + 20; a + 20], 5, 8) ∧
  question_main a = Ret (2, 5) ∧ builtin_main = Ret (4, 3) ∧
  layout_main true loaded = Ret (5, 100, 0, mkSegments 100 1) ∧ layout_main false loaded = Err NullDeref.
Proof.
  change (sizeof_arr) with 20. intros Ha.
  assert (ptr_add sizeof_int a 1 = a + 4) as E4 by (unfold ptr_add, sizeof_int; rewrite u64_small; lia).
  assert (ptr_add sizeof_arr a 1 = a + 20) as E20 by (unfold ptr_add; change sizeof_arr with 20; rewrite u64_small; lia).
  assert (ptr_add sizeof_int (a + 20) (-1) = a + 16) as E16 by (unfold ptr_add, sizeof_int; rewrite u64_small; lia).
  split_and!.
  - reflexivity.
  - unfold container_main. change (offsetof student marks) with (@Ret Z 28). rewrite bind_Ret. cbv zeta.
    rewrite (container_of_member student marks 28 a) by (done || lia). rewrite bind_Ret. by rewrite Z.eqb_refl.
  - unfold pointer_types_main. rewrite E4, E20. f_equal. lia.
  - unfold sizeof_main, ptr_diff. rewrite E4, E20. replace (a + 20 - a) with 20 by lia. reflexivity.
  - unfold question_main, read_int. rewrite E4, E20, E16. replace (a + 4 - a) with 4 by lia.
    replace (a + 16 - a) with 16 by lia. reflexivity.
  - reflexivity.
  - reflexivity.
  - reflexivity.
Qed.
