(* ===== verification/PoolDemos.v ===== *)
(** * memorypool/: visualisation and the demonstration programs

    Each allocator has a function that prints its blocks and a [main] that
    allocates, frees and prints.  The printing functions are modelled as the rows
    they print (without the layout of the line), and each [main] as the sequence
    of its calls.  A [main] is a client of the class [Pool], so it is executed
    once, on block lists ([plan]), for every implementation and every address of
    the buffer. *)

From stdpp Require Import base list gmap numbers.
From Stdlib Require Import ZArith Lia.
From S2P Require Import Prelude Blocks PoolClient MemPoolDLL MemPoolSLL.

(** ** What is printed *)

Record dll_row := mkDllRow { d_addr : Z; d_size : Z; d_free : bool; d_prev : Z; d_next : Z }.
Record sll_row := mkSllRow { s_addr : Z; s_size : Z; s_free : bool; s_next : Z }.

(** The walk of [visualize] over the doubly linked headers. *)
Fixpoint dll_walk (fuel : nat) (m : gmap Z MemPoolDLL.MemBlock) (current : Z) : outcome (list dll_row) :=
  if current =? 0 then Ret [] else
  match fuel with
  | O => Err OutOfFuel
  | S fuel =>
      b ← MemPoolDLL.load m current;
      rows ← dll_walk fuel m (MemPoolDLL.next b);
      Ret (mkDllRow current (MemPoolDLL.size b) (MemPoolDLL.is_free b) (MemPoolDLL.prev b) (MemPoolDLL.next b) :: rows)
  end.

(** memorypoolDLL.cpp *)
Definition dll_visualize (mp : MemPoolDLL.MemPool) : outcome (list dll_row) :=
  dll_walk (S (base.size (MemPoolDLL.mem mp))) (MemPoolDLL.mem mp) (MemPoolDLL.head mp).

(** memorypoolDLL.c: nothing for a null pool. *)
Definition mempool_visualize_dll (mp : option MemPoolDLL.MemPool) : outcome (list dll_row) :=
  match mp with None => Ret [] | Some mp => dll_walk (S (base.size (MemPoolDLL.mem mp))) (MemPoolDLL.mem mp) (MemPoolDLL.head mp) end.

Fixpoint sll_walk (fuel : nat) (m : gmap Z MemBlock) (current : Z) : outcome (list sll_row) :=
  if current =? 0 then Ret [] else
  match fuel with
  | O => Err OutOfFuel
  | S fuel =>
      b ← load m current;
      rows ← sll_walk fuel m (next b);
      Ret (mkSllRow current (size b) (is_free b) (next b) :: rows)
  end.

(** memorypoolSLL.c *)
Definition mempool_visualize_sll (mp : option MemPool) : outcome (list sll_row) :=
  match mp with None => Ret [] | Some mp => sll_walk (S (base.size (mem mp))) (mem mp) (head mp) end.

(** memorypool.c *)
Definition visualize_memory_pool (mp : MemPool) : outcome (list sll_row) :=
  sll_walk (S (base.size (mem mp))) (mem mp) (head mp).

(** memorypoolSLL.cpp prints sizes and flags only. *)
Definition sll_visualize (mp : MemPool) : outcome (list (Z * bool)) :=
  rows ← sll_walk (S (base.size (mem mp))) (mem mp) (head mp);
  Ret (List.map (λ r, (s_size r, s_free r)) rows).

(** The rows of a block list that starts at [a]. *)
Fixpoint dll_rows (p a : Z) (bs : blocks) : list dll_row :=
  match bs with
  | [] => []
  | (s, f) :: bs =>
      mkDllRow a s f p (match bs with [] => 0 | _ => a + MemPoolDLL.sizeof_MemBlock + s end)
        :: dll_rows a (a + MemPoolDLL.sizeof_MemBlock + s) bs
  end.

Fixpoint sll_rows (a : Z) (bs : blocks) : list sll_row :=
  match bs with
  | [] => []
  | (s, f) :: bs =>
      mkSllRow a s f (match bs with [] => 0 | _ => a + sizeof_MemBlock + s end) :: sll_rows (a + sizeof_MemBlock + s) bs
  end.

Lemma dll_walk_rows fuel m p a bs : sizes_ok bs → 0 < a → MemPoolDLL.chain m p a bs 0 → (length bs ≤ fuel)%nat →
  dll_walk fuel m (match bs with [] => 0 | _ => a end) = Ret (dll_rows p a bs).
Proof.
  revert fuel p a. induction bs as [|[s f] bs IH]; intros fuel p a Hok Ha Hc Hf; [by destruct fuel|].
  destruct fuel as [|fuel]; [simpl in Hf; lia|]. apply sizes_ok_cons in Hok as [Hs Hok].
  destruct Hc as [Hm Hc]. cbn [dll_walk]. rewrite (proj2 (Z.eqb_neq a 0)) by lia.
  rewrite (dll_load_Some _ _ _ Hm), bind_Ret by lia. cbn [MemPoolDLL.next MemPoolDLL.size MemPoolDLL.is_free MemPoolDLL.prev].
  pose proof dll_H_pos. specialize (IH fuel a (a + MemPoolDLL.sizeof_MemBlock + s) Hok ltac:(lia) Hc ltac:(simpl in Hf; lia)).
  unfold MemPoolDLL.link. by rewrite IH.
Qed.

Lemma sll_walk_rows fuel m a bs : sizes_ok bs → 0 < a → chain m a bs 0 → (length bs ≤ fuel)%nat →
  sll_walk fuel m (match bs with [] => 0 | _ => a end) = Ret (sll_rows a bs).
Proof.
  revert fuel a. induction bs as [|[s f] bs IH]; intros fuel a Hok Ha Hc Hf; [by destruct fuel|].
  destruct fuel as [|fuel]; [simpl in Hf; lia|]. apply sizes_ok_cons in Hok as [Hs Hok].
  destruct Hc as [Hm Hc]. cbn [sll_walk]. rewrite (proj2 (Z.eqb_neq a 0)) by lia.
  rewrite (sll_load_Some _ _ _ Hm), bind_Ret by lia. cbn [next size is_free].
  pose proof sll_H_pos. specialize (IH fuel (a + sizeof_MemBlock + s) Hok ltac:(lia) Hc ltac:(simpl in Hf; lia)).
  unfold link. by rewrite IH.
Qed.

(** The printing functions show the blocks, all of them and in order. *)
Lemma dll_visualize_rep mp bs : MemPoolDLL.rep mp bs → dll_visualize mp = Ret (dll_rows 0 (MemPoolDLL.pool mp) bs).
Proof.
  intros [Hh [Hb _] _ Hok Hne Hc]. unfold dll_visualize. rewrite Hh.
  pose proof (dll_walk_rows (S (base.size (MemPoolDLL.mem mp))) _ _ _ _ Hok Hb Hc) as Hw.
  pose proof (dll_chain_length _ _ _ _ _ Hok Hc). destruct bs; [done|]. apply Hw. lia.
Qed.

Lemma sll_visualize_rep mp bs : rep mp bs → visualize_memory_pool mp = Ret (sll_rows (pool mp) bs).
Proof.
  intros [Hh [Hb _] _ Hok Hne Hc]. unfold visualize_memory_pool. rewrite Hh.
  pose proof (sll_walk_rows (S (base.size (mem mp))) _ _ _ Hok Hb Hc) as Hw.
  pose proof (sll_chain_length _ _ _ _ Hok Hc). destruct bs; [done|]. apply Hw. lia.
Qed.

(** ** Demonstrations *)

(** A call of [main]; pointers are numbered in the order they were returned. *)
Inductive call := DAlloc (sz : Z) | DFree (k : nat) | DShow.

Section demo.
Context `{Pool M} {R : Type} (show : M → outcome R) (row : Z → blocks → R).
Hypothesis (show_rep : ∀ mp bs, p_rep mp bs → show mp = Ret (row (p_base mp) bs)).

Fixpoint run_demo (calls : list call) (mp : M) (ptrs : list Z) : outcome (list R * M) :=
  match calls with
  | [] => Ret ([], mp)
  | DAlloc sz :: calls => '(p, mp) ← p_alloc mp sz; run_demo calls mp (ptrs ++ [p])
  | DFree k :: calls =>
      p ← of_option OutOfBounds (ptrs !! k); mp ← p_free mp p; run_demo calls mp ptrs
  | DShow :: calls => v ← show mp; '(rest, mp) ← run_demo calls mp ptrs; Ret (v :: rest, mp)
  end.

(** The allocated block whose payload begins at offset [p]. *)
Fixpoint split_at (a p : Z) (bs : blocks) : option (blocks * Z * blocks) :=
  match bs with
  | [] => None
  | (s, f) :: bs =>
      if (a + p_hdr =? p) && negb f then Some ([], s, bs)
      else '(l, s', r) ← split_at (a + p_hdr + s) p bs; Some ((s, f) :: l, s', r)
  end.

(** The same calls on block lists, with offsets for pointers: the lists shown. *)
Fixpoint plan (calls : list call) (bs : blocks) (ptrs : list Z) : option (list blocks) :=
  match calls with
  | [] => Some []
  | DAlloc sz :: calls =>
      '(p, bs) ← first_fit p_hdr p_slack 0 bs (p_round sz); plan calls bs (ptrs ++ [p])
  | DFree k :: calls =>
      p ← ptrs !! k; '(l, s, r) ← split_at 0 p bs; plan calls (p_release l s r) ptrs
  | DShow :: calls => rest ← plan calls bs ptrs; Some (bs :: rest)
  end.

Lemma first_fit_shift slack d a bs sz :
  first_fit p_hdr slack (a + d) bs sz = (λ '(p, bs), (p + d, bs)) <$> first_fit p_hdr slack a bs sz.
Proof.
  revert a. induction bs as [|[s f] bs IH]; intros a; simpl; [done|].
  destruct (f && _); [simpl; f_equal; f_equal; lia|].
  replace (a + d + p_hdr + s) with (a + p_hdr + s + d) by lia. rewrite IH.
  by destruct (first_fit p_hdr slack (a + p_hdr + s) bs sz) as [[p bs']|].
Qed.

Lemma split_at_Some a p bs l s r : split_at a p bs = Some (l, s, r) →
  bs = l ++ (s, false) :: r ∧ p = a + Blocks.span p_hdr l + p_hdr.
Proof.
  revert a l. induction bs as [|[s0 f0] bs IH]; intros a l; simpl; [done|].
  destruct (Z.eqb_spec (a + p_hdr) p) as [E|E], f0; simpl; try (intros ([[l' s'] r'] & E' & [= <- <- <-])%bind_Some;
    destruct (IH _ _ E') as [-> ->]; simpl; split; [done|lia]).
  intros [= <- <- <-]. simpl. split; [done|lia].
Qed.

Lemma run_demo_plan calls : ∀ mp bs ptrs out, p_rep mp bs →
  Forall (λ c, match c with DAlloc sz => 0 ≤ sz < 2 ^ 64 | _ => True end) calls →
  plan calls bs ptrs = Some out →
  ∃ mp' bs', run_demo calls mp ((λ p, p_base mp + p) <$> ptrs) = Ret (row (p_base mp) <$> out, mp') ∧ p_rep mp' bs'.
Proof.
  induction calls as [|c calls IH]; intros mp bs ptrs out R0 Hok; simpl; [intros [= <-]; by exists mp, bs|].
  apply list.Forall_cons in Hok as [Hc Hok]. destruct c as [sz|k|].
  - pose proof (p_alloc_ok mp bs sz R0 Hc) as Ha. pose proof (first_fit_shift p_slack (p_base mp) 0 bs (p_round sz)) as Hs.
    rewrite Z.add_0_l in Hs. rewrite Hs in Ha. intros ([p bs'] & E & Hp)%bind_Some. rewrite E in Ha. simpl in Ha.
    destruct Ha as (mp' & -> & R' & Hb & _). rewrite bind_Ret. specialize (IH mp' bs' (ptrs ++ [p]) out R' Hok Hp).
    rewrite fmap_app, Hb in IH. simpl in IH. by rewrite (Z.add_comm (p_base mp) p) in IH.
  - intros (p & Hk & E)%bind_Some. apply bind_Some in E as ([[l s] r] & E & Hp). rewrite list_lookup_fmap, Hk. simpl.
    destruct (split_at_Some _ _ _ _ _ _ E) as [-> ->]. destruct (p_free_ok mp l s r R0) as (mp' & Ef & R' & Hb & _).
    replace (p_base mp + (0 + Blocks.span p_hdr l + p_hdr)) with (p_base mp + Blocks.span p_hdr l + p_hdr) by lia.
    rewrite Ef, bind_Ret. specialize (IH mp' _ ptrs out R' Hok Hp). by rewrite Hb in IH.
  - intros (rest & E & [= <-])%bind_Some. rewrite (show_rep mp bs R0), bind_Ret.
    destruct (IH mp bs ptrs rest R0 Hok E) as (mp' & bs' & -> & R'). by exists mp', bs'.
Qed.
End demo.

(** The calls of memorypoolDLL.cpp, memorypoolDLL.c and memorypoolSLL.c, and
    those of memorypoolSLL.cpp and memorypool.c. *)
Definition long_demo : list call :=
  [DShow; DAlloc 100; DAlloc 200; DAlloc 300; DShow; DFree 1; DShow; DFree 2; DShow; DFree 0; DShow].
Definition short_demo : list call := [DAlloc 100; DAlloc 200; DAlloc 300; DShow; DFree 2; DShow].

(** The C functions of memorypoolDLL.c as a pool. *)
Definition DLL_c_pool : Pool (option MemPoolDLL.MemPool).
Proof.
  refine {| p_hdr := MemPoolDLL.sizeof_MemBlock; p_slack := 0; p_base := from_option MemPoolDLL.pool 0;
            p_size := from_option MemPoolDLL.poolSize 0; p_round := id;
            p_alloc := MemPoolDLL.mempool_alloc; p_free := MemPoolDLL.mempool_free;
            p_rep := λ o bs, ∃ mp, o = Some mp ∧ MemPoolDLL.rep mp bs; p_release := free_merge MemPoolDLL.sizeof_MemBlock |}.
  - done.
  - done.
  - intros o bs (mp & -> & R). exact (p_rep_ok (Pool := DLL_pool) mp bs R).
  - intros o bs sz (mp & -> & R) Hsz. unfold MemPoolDLL.mempool_alloc. simpl from_option.
    pose proof (MemPoolDLL.rep_base _ _ R). rewrite (MemPoolDLL.rep_head _ _ R), (proj2 (Z.eqb_neq _ 0)) by lia.
    pose proof (MemPoolDLL.alloc_rep mp bs sz R ltac:(lia)) as Ha. unfold id.
    destruct (first_fit _ _ _ _ _) as [[q bs']|].
    + destruct Ha as (mp' & -> & R' & ? & ?). rewrite bind_Ret. eexists. split; [done|]. split; [by exists mp'|done].
    + by rewrite Ha.
  - intros o l s r (mp & -> & R). simpl from_option. destruct (MemPoolDLL.free_rep mp l s r R) as (mp' & E & R' & ? & ?).
    unfold MemPoolDLL.mempool_free. rewrite E, bind_Ret. eexists. split; [done|]. split; [by exists mp'|done].
  - exact (p_release_ok (Pool := DLL_pool)).
Defined.

(** The [main]s; [base] is the address of the buffer, [garbage] the uninitialised
    pool of the C programs.  Those two end with [mempool_destroy]. *)
Definition dll_main (base : Z) : outcome (list (list dll_row)) :=
  '(shown, _) ← run_demo (H := DLL_pool) dll_visualize long_demo (MemPoolDLL.new_MemPool base 1024) [];
  Ret shown.
Definition dll_c_main (garbage : MemPoolDLL.MemPool) (base : Z) :
    outcome (list (list dll_row) * option MemPoolDLL.MemPool) :=
  '(shown, mp) ← run_demo (H := DLL_c_pool) mempool_visualize_dll long_demo
                   (MemPoolDLL.mempool_init (Some garbage) base 1024) [];
  Ret (shown, MemPoolDLL.mempool_destroy mp).
Definition sll_c_main (garbage : MemPool) (base : Z) : outcome (list (list sll_row) * option MemPool) :=
  '(shown, mp) ← run_demo (H := SLL_c_pool) mempool_visualize_sll long_demo (mempool_init (Some garbage) base 1024) [];
  Ret (shown, mempool_destroy mp).
Definition sll_main (base : Z) : outcome (list (list (Z * bool))) :=
  '(shown, _) ← run_demo (H := SLL_cpp_pool) sll_visualize short_demo (new_MemPool base 1024) []; Ret shown.
Definition static_main (pool_memory : Z) : outcome (list (list sll_row)) :=
  '(shown, _) ← run_demo (H := static_pool) visualize_memory_pool short_demo (static_mempool_init pool_memory) [];
  Ret shown.

Lemma dll_init_rep garbage base : 0 < base → base + 1024 ≤ 2 ^ 64 →
  ∃ mp, MemPoolDLL.mempool_init (Some garbage) base 1024 = Some mp ∧ MemPoolDLL.rep mp [(992, true)] ∧ MemPoolDLL.pool mp = base.
Proof.
  intros Hb H64. unfold MemPoolDLL.mempool_init. rewrite (proj2 (Z.eqb_neq base 0)) by lia. simpl.
  eexists. split; [done|]. split; [|done]. split; simpl; try done; try lia.
  - repeat constructor. simpl. lia.
  - split; [apply lookup_insert_eq|done].
Qed.

(** What the long and the short demonstration show with headers of [H] bytes. *)
Definition long_shown (H : Z) : list blocks :=
  [ [(1024 - H, true)];
    [(100, false); (200, false); (300, false); (424 - 4 * H, true)];
    [(100, false); (200, true); (300, false); (424 - 4 * H, true)];
    [(100, false); (924 - 2 * H, true)];
    [(1024 - H, true)] ].

Definition short_shown (last : blocks) (H : Z) : list blocks :=
  [ [(100, false); (200, false); (300, false); (424 - 4 * H, true)]; [(100, false); (200, false)] ++ last ].

Lemma dll_c_visualize_rep (o : option MemPoolDLL.MemPool) bs : p_rep (Pool := DLL_c_pool) o bs →
  mempool_visualize_dll o = Ret (dll_rows 0 (p_base (Pool := DLL_c_pool) o) bs).
Proof. intros (mp & -> & R). by apply dll_visualize_rep. Qed.

Lemma sll_c_visualize_rep (o : option MemPool) bs : p_rep (Pool := SLL_c_pool) o bs →
  mempool_visualize_sll o = Ret (sll_rows (p_base (Pool := SLL_c_pool) o) bs).
Proof. intros (mp & -> & R). by apply sll_visualize_rep. Qed.

Lemma static_visualize_rep (mp : MemPool) bs : p_rep (Pool := static_pool) mp bs →
  visualize_memory_pool mp = Ret (sll_rows (p_base (Pool := static_pool) mp) bs).
Proof. intros (R & _). by apply sll_visualize_rep. Qed.

Lemma sll_rows_columns a bs : List.map (λ r, (s_size r, s_free r)) (sll_rows a bs) = bs.
Proof. revert a. induction bs as [|[s f] bs IH]; intros a; simpl; [done|]. by rewrite IH. Qed.

Lemma sll_cpp_visualize_rep (mp : MemPool) bs : p_rep (Pool := SLL_cpp_pool) mp bs → sll_visualize mp = Ret bs.
Proof.
  intros R. unfold sll_visualize. pose proof (sll_visualize_rep mp bs R) as E. unfold visualize_memory_pool in E.
  by rewrite E, bind_Ret, sll_rows_columns.
Qed.

Lemma static_init_rep base : 0 < base → base + 1024 ≤ 2 ^ 64 →
  p_rep (Pool := static_pool) (static_mempool_init base) [(1000, true)].
Proof.
  intros Hb H64. split; [by apply (sll_new_MemPool_rep base POOL_SIZE)|]. split; [done|]. repeat constructor. by exists 250.
Qed.

Ltac demo_ok := repeat constructor; lia.

Abbreviation no_dll_pool := (MemPoolDLL.mkMemPool 0 0 0 ∅).
Abbreviation no_sll_pool := (mkMemPool 0 0 0 ∅).

Lemma pool_demo_run `{P : Pool M} {R} (show : M → outcome R) (row : Z → blocks → R) calls mp bs out
    {B} (k : list R → M → B) (b : B) :
  (∀ mp bs, p_rep mp bs → show mp = Ret (row (p_base mp) bs)) →
  Forall (λ c, match c with DAlloc sz => 0 ≤ sz < 2 ^ 64 | _ => True end) calls →
  plan calls bs [] = Some out → p_rep mp bs →
  (∀ mp' bs', p_rep mp' bs' → k (row (p_base mp) <$> out) mp' = b) →
  ('(shown, mp') ← run_demo show calls mp []; Ret (k shown mp')) = Ret b.
Proof.
  intros Hshow Hok Hplan Hrep Hk. destruct (run_demo_plan show row Hshow calls mp bs [] out Hrep Hok Hplan) as (mp' & bs' & E & R').
  csimpl in E. rewrite E, bind_Ret. f_equal. by eapply Hk.
Qed.

(** Every demonstration runs without a fault and prints, for every address of
    the buffer and whatever the uninitialised pool held: one free block at first,
    then three blocks and the rest, and after each free what its comment
    announces: freeing the last block of the three merges it with the free
    blocks on both sides, and freeing everything leaves one block.  The C
    programs leave a destroyed pool. *)
Theorem pool_demos_print base gd gs : 0 < base → base + 1024 ≤ 2 ^ 64 →
  dll_main base = Ret (dll_rows 0 base <$> long_shown 32) ∧
  dll_c_main gd base = Ret (dll_rows 0 base <$> long_shown 32, Some no_dll_pool) ∧
  sll_c_main gs base = Ret (sll_rows base <$> long_shown 24, Some no_sll_pool) ∧
  sll_main base = Ret (short_shown [(652, true)] 24) ∧
  static_main base = Ret (sll_rows base <$> short_shown [(652, true)] 24).
Proof.
  intros Hb H64. split_and!.
  - apply (pool_demo_run (P := DLL_pool) dll_visualize (dll_rows 0) long_demo _ [(992, true)] (long_shown 32) (λ s _, s));
      [exact dll_visualize_rep|demo_ok|done|by apply dll_new_MemPool_rep|done].
  - destruct (dll_init_rep gd base Hb H64) as (mp & E & R & Hp). unfold dll_c_main. rewrite E, <-Hp.
    apply (pool_demo_run (P := DLL_c_pool) mempool_visualize_dll (dll_rows 0) long_demo (Some mp) [(992, true)] (long_shown 32)
      (λ s mp, (s, MemPoolDLL.mempool_destroy mp)));
      [exact dll_c_visualize_rep|demo_ok|done|by exists mp|by intros ? ? (? & -> & _)].
  - destruct (mempool_init_rep gs base 1024 Hb H64 ltac:(done)) as (mp & E & Hp & _ & R). unfold sll_c_main. rewrite E, <-Hp.
    apply (pool_demo_run (P := SLL_c_pool) mempool_visualize_sll sll_rows long_demo (Some mp) [(1000, true)] (long_shown 24)
      (λ s mp, (s, mempool_destroy mp)));
      [exact sll_c_visualize_rep|demo_ok|done|by exists mp|by intros ? ? (? & -> & _)].
  - apply (pool_demo_run (P := SLL_cpp_pool) sll_visualize (λ _ bs, bs) short_demo _ [(1000, true)] (short_shown [(652, true)] 24) (λ s _, s));
      [exact sll_cpp_visualize_rep|demo_ok|done|by apply sll_new_MemPool_rep|done].
  - apply (pool_demo_run (P := static_pool) visualize_memory_pool sll_rows short_demo _ [(1000, true)] (short_shown [(652, true)] 24) (λ s _, s));
      [exact static_visualize_rep|demo_ok|done|by apply static_init_rep|done].
Qed.

Lemma pool_demos_print_witness :
  dll_main 4096 = Ret (dll_rows 0 4096 <$> long_shown 32) ∧ sll_main 4096 = Ret (short_shown [(652, true)] 24).
Proof.
  destruct (pool_demos_print 4096 (MemPoolDLL.new_MemPool 8 32) (new_MemPool 8 24)) as (H1 & _ & _ & H2 & _); [lia|lia|].
  split; [exact H1|exact H2].
Defined.
