(* ===== verification/Journal.v ===== *)
(** * designPatterns/SingleResponsibility.cpp and SingleResponsibility_original.cpp

    The journals: entries are appended in memory and written to a file, one per
    line, by a method of the journal or by a class of its own.  Files are a map
    from names to contents; opening a file for writing truncates it, or fails,
    in which case everything written to the stream is dropped without notice.
    The standard output is the string printed. *)

From stdpp Require Import base list gmap strings numbers.
From Stdlib Require Import Ascii.
From S2P Require Import Prelude.

Definition newline : ascii := ascii_of_nat 10.

(** [ofs << i << endl] for every entry. *)
Fixpoint put_lines (l : list string) : string :=
  match l with [] => "" | s :: l => s +:+ String newline (put_lines l) end.

Abbreviation files := (gmap string string).

(** [ofstream ofs(file_name)] and the text written through it; [opens] tells which
    names can be opened. *)
Definition write_file (opens : string → bool) (file_name text : string) (fs : files) : files :=
  if opens file_name then <[file_name := text]> fs else fs.

(** ** SingleResponsibility.cpp *)

Record journal := mkJournal { title : string; entries : list string }.

Definition new_journal (title : string) : journal := mkJournal title [].
Definition add_entry (entry : string) (j : journal) : journal := mkJournal (title j) (entries j ++ [entry]).

Definition show_journal (j : journal) : string :=
  "Title: " +:+ title j +:+ String newline (put_lines (entries j)).

(** The references that [get_entries] and [get_title] return are only read. *)
Definition get_entries (j : journal) : list string := entries j.
Definition get_title (j : journal) : string := title j.

(** [journal::save] *)
Definition save (opens : string → bool) (file_name : string) (j : journal) (fs : files) : files :=
  write_file opens file_name (put_lines (entries j)) fs.

(** [persist::save]: what it prints, and the files. *)
Definition persist_save (opens : string → bool) (j : journal) (file_name : string) (fs : files) : string * files :=
  ("Saving " +:+ file_name +:+ String newline "", write_file opens file_name (put_lines (get_entries j)) fs).

(** The output and the files of [main]. *)
Definition journal_main (opens : string → bool) (fs : files) : string * files :=
  let j := add_entry "Entry 3" (add_entry "Entry 2" (add_entry "Entry 1" (new_journal "DearDiary"))) in
  let '(out, fs) := persist_save opens j ("/Users/ppadmoh/workspace/C++/patterns/" +:+ get_title j +:+ ".txt") fs in
  (show_journal j +:+ out, fs).

(** ** SingleResponsibility_original.cpp *)

Record Journal := mkJournalO { jtitle : string; jentries : list string }.

Definition new_Journal (title : string) : Journal := mkJournalO title [].
Definition add (entry : string) (j : Journal) : Journal := mkJournalO (jtitle j) (jentries j ++ [entry]).
Definition Journal_save (opens : string → bool) (filename : string) (j : Journal) (fs : files) : files :=
  write_file opens filename (put_lines (jentries j)) fs.
Definition PersistenceManager_save (opens : string → bool) (j : Journal) (filename : string) (fs : files) : files :=
  write_file opens filename (put_lines (jentries j)) fs.

(** ** Reading back *)

(** The lines of a text, as [getline] gives them. *)
Fixpoint get_lines (cur : string) (s : string) : list string :=
  match s with
  | EmptyString => if bool_decide (cur = "") then [] else [cur]
  | String c s => if bool_decide (c = newline) then cur :: get_lines "" s
                  else get_lines (cur +:+ String c "") s
  end.

Fixpoint one_line (s : string) : bool :=
  match s with EmptyString => true | String c s => negb (bool_decide (c = newline)) && one_line s end.

Lemma get_lines_one cur s rest : one_line s = true →
  get_lines cur (s +:+ String newline rest) = (cur +:+ s) :: get_lines "" rest.
Proof.
  revert cur. induction s as [|c s IH]; intros cur.
  - intros _. simpl. f_equal. symmetry. apply append_nil_r.
  - change (String c s +:+ String newline rest) with (String c (s +:+ String newline rest)). cbn [one_line get_lines].
    rewrite andb_true_iff, negb_true_iff. intros [-> Hs]. rewrite (IH _ Hs). f_equal. apply append_assoc.
Qed.

Lemma get_put_lines l : Forall (λ s, one_line s = true) l → get_lines "" (put_lines l) = l.
Proof.
  induction l as [|s l IH]; intros Hf; [done|]. apply list.Forall_cons in Hf as [Hs Hf]. simpl.
  by rewrite (get_lines_one "" s _ Hs), (IH Hf).
Qed.

(** The entries after a series of additions. *)
Definition add_all (es : list string) (j : journal) : journal := foldl (λ j e, add_entry e j) j es.
Definition add_all_o (es : list string) (j : Journal) : Journal := foldl (λ j e, add e j) j es.

Lemma add_all_entries es j : entries (add_all es j) = entries j ++ es ∧ title (add_all es j) = title j.
Proof.
  revert j. induction es as [|e es IH]; intros j; simpl; [by rewrite app_nil_r|].
  destruct (IH (add_entry e j)) as [-> ->]. simpl. by rewrite <-app_assoc.
Qed.

Lemma add_all_o_entries es j : jentries (add_all_o es j) = jentries j ++ es.
Proof.
  revert j. induction es as [|e es IH]; intros j; simpl; [by rewrite app_nil_r|].
  rewrite (IH (add e j)). simpl. by rewrite <-app_assoc.
Qed.

(** A journal written to a file that can be opened is read back entry by
    entry, whatever the file held before, by all four ways to save it; this needs
    entries of one line. *)
Theorem journal_roundtrip opens t es file_name fs :
  opens file_name = true → Forall (λ s, one_line s = true) es →
  get_lines "" <$> save opens file_name (add_all es (new_journal t)) fs !! file_name = Some es ∧
  get_lines "" <$> (persist_save opens (add_all es (new_journal t)) file_name fs).2 !! file_name = Some es ∧
  get_lines "" <$> Journal_save opens file_name (add_all_o es (new_Journal t)) fs !! file_name = Some es ∧
  get_lines "" <$> PersistenceManager_save opens (add_all_o es (new_Journal t)) file_name fs !! file_name = Some es.
Proof.
  intros Ho Hes. unfold save, persist_save, get_entries, Journal_save, PersistenceManager_save, write_file.
  rewrite Ho, (proj1 (add_all_entries es (new_journal t))), (add_all_o_entries es (new_Journal t)). simpl.
  rewrite !lookup_insert_eq. simpl. by rewrite (get_put_lines es Hes).
Qed.

Lemma journal_roundtrip_witness :
  get_lines "" <$> save (λ _, true) "d.txt" (add_all ["I ate a bug"; ""; "I cried today"] (new_journal "Dear Diary"))
    {["d.txt" := "old text"]} !! "d.txt" = Some ["I ate a bug"; ""; "I cried today"].
Proof.
  apply (journal_roundtrip (λ _, true) "Dear Diary" ["I ate a bug"; ""; "I cried today"] "d.txt" {["d.txt" := "old text"]}).
  - reflexivity.
  - repeat constructor.
Defined.

(** An entry of two lines comes back as two entries, and a file that cannot be
    opened is silently not written. *)
Lemma journal_two_lines :
  get_lines "" (put_lines (entries (add_entry (String "a" (String newline "b")) (new_journal "t")))) = ["a"; "b"].
Proof. reflexivity. Qed.

Lemma save_unwritable opens file_name j fs : opens file_name = false → save opens file_name j fs = fs.
Proof. intros Ho. unfold save, write_file. by rewrite Ho. Qed.
