(* ===== verification/CQuestion.v ===== *)
(** * microsoft/cQuestion.c: the program at its beginning

    [findlength], [AddnewlinetoString] and [main]; the rest of the file is notes
    of an interview.  A C string is the list of its characters before the
    terminating zero, [None] the null pointer. *)

From stdpp Require Import base list numbers.
From Stdlib Require Import ZArith Lia.
From S2P Require Import Prelude.

Definition MAX_SIZE : Z := 1024.

(** [while (counter < min((int)strlen(s), MAX_SIZE)) counter++;] *)
Fixpoint count_up (fuel : nat) (limit counter : Z) : outcome Z :=
  if counter <? limit then
    match fuel with O => Err OutOfFuel | S fuel => c ← int (counter + 1); count_up fuel limit c end
  else Ret counter.

(** The loop runs at most [MAX_SIZE + 1] times. *)
Definition findlength (s : option (list Z)) : outcome Z :=
  match s with
  | None => Ret 0
  | Some s => count_up (Z.to_nat (MAX_SIZE + 1)) (Z.min (to_int (Z.of_nat (length s))) MAX_SIZE) (-1)
  end.

(** [char buffer = (char)malloc(...)]: the address is cut to one byte, and the
    test of it is the wrong way round.  [malloc] is the address returned. *)
Definition AddnewlinetoString (malloc : Z) (s : option (list Z)) : outcome (option (list Z)) :=
  match s with
  | None => Ret None
  | Some s =>
      let buffer := u8 malloc in
      if negb (buffer =? 0) then Ret None else
      Err NullDeref                     (* strcpy(0, s) *)
  end.

(** [main]: its result; [sizeof(argv)] is the size of a pointer. *)
Definition cq_main (malloc : Z) (argv1 : option (list Z)) : outcome Z :=
  if 8 <? 2 then Ret (-1) else
  len ← findlength argv1;
  if len =? 0 then Ret (-1) else
  str1 ← AddnewlinetoString malloc argv1;
  match str1 with None => Ret (-2) | Some _ => Ret 0 end.

Lemma count_to_limit fuel limit counter : limit ≤ counter + Z.of_nat fuel → - 2 ≤ counter → limit ≤ MAX_SIZE →
  count_up fuel limit counter = Ret (Z.max limit counter).
Proof.
  unfold MAX_SIZE. revert counter. induction fuel as [|fuel IH]; intros c Hf Hc Hm; simpl; destruct (Z.ltb_spec c limit) as [Hlt|Hge].
  - lia.
  - f_equal. lia.
  - unfold int, int_ok, INT_MIN, INT_MAX. rewrite (proj2 (Z.leb_le _ _)), (proj2 (Z.leb_le _ _)) by lia. simpl.
    rewrite IH by lia. f_equal. lia.
  - f_equal. lia.
Qed.

(** For strings that an [int] can measure, [findlength] is the length cut off at
    1024; a longer one, whose length becomes negative, gives -1. *)
Lemma findlength_spec s : Z.of_nat (length s) < 2 ^ 32 →
  findlength (Some s) = Ret (if Z.of_nat (length s) <=? INT_MAX then Z.min (Z.of_nat (length s)) MAX_SIZE else -1).
Proof.
  intros Hl. unfold findlength. rewrite count_to_limit; [|unfold MAX_SIZE; lia|lia|lia]. f_equal.
  unfold to_int, INT_MAX, MAX_SIZE. destruct (Z.leb_spec (Z.of_nat (length s)) (2 ^ 31 - 1)).
  - rewrite Z.mod_small by lia. lia.
  - replace ((Z.of_nat (length s) + 2 ^ 31) mod 2 ^ 32) with (Z.of_nat (length s) - 2 ^ 31); [lia|].
    apply (Z.mod_unique _ _ 1); lia.
Qed.

(** No call ever returns a string: it is refused when the allocation succeeds
    with an address whose last byte is not zero, and otherwise the null pointer
    is written to. *)
Lemma AddnewlinetoString_never malloc s r : AddnewlinetoString malloc s = Ret (Some r) → False.
Proof. unfold AddnewlinetoString. destruct s; [|done]. by destruct (negb _). Qed.

Lemma cq_main_never_succeeds malloc argv1 r : cq_main malloc argv1 = Ret r → r = -1 ∨ r = -2.
Proof.
  unfold cq_main. simpl. intros (len & _ & E)%bind_Ret_inv. destruct (len =? 0); [left; by injection E|].
  apply bind_Ret_inv in E as ([str|] & Ea & E); [by destruct (AddnewlinetoString_never _ _ _ Ea)|right; by injection E].
Qed.
