(* ===== verification/BufferPrograms.v ===== *)
(** * The programs of circularQueue/circularBufferStaticProdCons.cpp and .c

    The blocking buffers of ProdCons and SignalBuffer as their own files use
    them: one thread pushes 1, 2, 3, ... into a buffer of five slots, one thread
    pops and prints, and the program is stopped by the Enter key (C++) or by
    SIGINT (C).  A step is a critical section of the buffer or a line of a
    thread's loop; sleeping only lets the other threads run.  With one producer
    and one consumer a notification has one possible receiver, so the steps of
    a thread are functions. *)

From stdpp Require Import base list numbers relations.
From Stdlib Require Import ZArith Lia.
From S2P Require Import Prelude Ring CircularBuffer ProdCons SignalBuffer.

(** A line of output. *)
Inductive line :=
  | Starting
  | Pushing_ (i : Z)        (* "Producer: Pushing i" *)
  | ProducerStopped
  | Popped_ (v : Z)         (* "Consumer: Popped v" *)
  | ConsumerStopped
  | Stopping
  | InitFailed.

Definition announced (l : line) : option Z := match l with Pushing_ i => Some i | _ => None end.
Definition reported (l : line) : option Z := match l with Popped_ v => Some v | _ => None end.

Lemma seqZ_snoc (l : list Z) : l = seqZ 1 (Z.of_nat (length l)) →
  l ++ [Z.of_nat (length l) + 1] = seqZ 1 (Z.of_nat (length l) + 1).
Proof.
  intros Hl. rewrite seqZ_app, <- Hl by lia. f_equal. unfold seqZ. simpl. f_equal. lia.
Qed.

Lemma omap_announced o l : omap announced (o ++ [l]) = omap announced o ++ option_list (announced l).
Proof. rewrite omap_app. by destruct l. Qed.
Lemma omap_reported o l : omap reported (o ++ [l]) = omap reported o ++ option_list (reported l).
Proof. rewrite omap_app. by destruct l. Qed.

Lemma seqZ_prefix (l k : list Z) n : 0 ≤ n → l ++ k = seqZ 1 n → l = seqZ 1 (Z.of_nat (length l)).
Proof.
  intros Hn E. assert (n = Z.of_nat (length l) + Z.of_nat (length k)) as ->.
  { apply (f_equal length) in E. rewrite length_app, length_seqZ in E. lia. }
  rewrite seqZ_app in E by lia. apply app_inj_1 in E as [-> _]; [by rewrite length_seqZ, Nat2Z.id|].
  rewrite length_seqZ. lia.
Qed.

(** ** The C++ program *)

Module Enter.

(** Where the producer is: not created yet; about to do [i++]; in [push], about
    to test; blocked on [not_full_]; returned. *)
Inductive prod_pc := PNew | PNext (i : Z) | PPush (i : Z) | PBlocked (i : Z) | PStopped.

(** The consumer: not created yet; in [pop], about to test; blocked on
    [not_empty_]; about to print what it popped; returned. *)
Inductive cons_pc := CNew | CPop | CBlocked | CPrint (v : Z) | CStopped.

Inductive main_pc := Greet | SpawnProd | SpawnCons | AwaitEnter | StopNext | JoinProd | JoinCons | Returned.

#[export] Instance main_pc_eq_dec : EqDecision main_pc.
Proof. solve_decision. Defined.

Record program := mkProgram {
  g_cb : Buffer (T := Z);
  prod : prod_pc;
  cons : cons_pc;
  main_ : main_pc;
  pushed_ : list Z;         (* the values of the pushes that returned true *)
  popped_ : list Z;         (* the values [pop] has delivered *)
  out : list line;
}.

Definition wake_prod (p : prod_pc) : prod_pc := match p with PBlocked i => PPush i | p => p end.
Definition wake_cons (c : cons_pc) : cons_pc := match c with CBlocked => CPop | c => c end.

(** One step of [producer]; [None] when it cannot run. *)
Definition producer (s : program) : outcome (option program) :=
  match prod s with
  | PNext i =>
      j ← int (i + 1);
      Ret (Some (mkProgram (g_cb s) (PPush j) (cons s) (main_ s) (pushed_ s) (popped_ s) (out s ++ [Pushing_ j])))
  | PPush i =>
      e ← push_section i (g_cb s);
      Ret (Some (match e with
        | Blocks => mkProgram (g_cb s) (PBlocked i) (cons s) (main_ s) (pushed_ s) (popped_ s) (out s)
        | Returns true _ b =>
            mkProgram b (PNext i) (wake_cons (cons s)) (main_ s) (pushed_ s ++ [i]) (popped_ s) (out s)
        | Returns false _ b =>
            mkProgram b PStopped (cons s) (main_ s) (pushed_ s) (popped_ s) (out s ++ [ProducerStopped])
        end))
  | PNew | PBlocked _ | PStopped => Ret None
  end.

Definition consumer (s : program) : outcome (option program) :=
  match cons s with
  | CPop =>
      e ← pop_section (g_cb s);
      Ret (Some (match e with
        | Blocks => mkProgram (g_cb s) (prod s) CBlocked (main_ s) (pushed_ s) (popped_ s) (out s)
        | Returns true (Some v) b =>
            mkProgram b (wake_prod (prod s)) (CPrint v) (main_ s) (pushed_ s) (popped_ s ++ [v]) (out s)
        | Returns _ _ b =>
            mkProgram b (prod s) CStopped (main_ s) (pushed_ s) (popped_ s) (out s ++ [ConsumerStopped])
        end))
  | CPrint v =>
      Ret (Some (mkProgram (g_cb s) (prod s) CPop (main_ s) (pushed_ s) (popped_ s) (out s ++ [Popped_ v])))
  | CNew | CBlocked | CStopped => Ret None
  end.

(** One step of [main]; [cin.get] returns when the user presses Enter, which can
    be at any time. *)
Definition main (s : program) : option program :=
  match main_ s with
  | Greet => Some (mkProgram (g_cb s) (prod s) (cons s) SpawnProd (pushed_ s) (popped_ s) (out s ++ [Starting]))
  | SpawnProd => Some (mkProgram (g_cb s) (PNext 0) (cons s) SpawnCons (pushed_ s) (popped_ s) (out s))
  | SpawnCons => Some (mkProgram (g_cb s) (prod s) CPop AwaitEnter (pushed_ s) (popped_ s) (out s))
  | AwaitEnter => Some (mkProgram (g_cb s) (prod s) (cons s) StopNext (pushed_ s) (popped_ s) (out s ++ [Stopping]))
  | StopNext =>
      Some (mkProgram (stop_section (g_cb s)) (wake_prod (prod s)) (wake_cons (cons s)) JoinProd
              (pushed_ s) (popped_ s) (out s))
  | JoinProd =>
      match prod s with
      | PStopped => Some (mkProgram (g_cb s) PStopped (cons s) JoinCons (pushed_ s) (popped_ s) (out s))
      | _ => None
      end
  | JoinCons =>
      match cons s with
      | CStopped => Some (mkProgram (g_cb s) (prod s) CStopped Returned (pushed_ s) (popped_ s) (out s))
      | _ => None
      end
  | Returned => None
  end.

(** [run] is a step of one of the three threads; [spurious] ones are wake-ups
    without a notification. *)
Inductive run (s s' : program) : Prop :=
  | run_producer : producer s = Ret (Some s') → run s s'
  | run_consumer : consumer s = Ret (Some s') → run s s'
  | run_main : main s = Some s' → run s s'.

Inductive spurious (s : program) : program → Prop :=
  | spurious_prod i : prod s = PBlocked i →
      spurious s (mkProgram (g_cb s) (PPush i) (cons s) (main_ s) (pushed_ s) (popped_ s) (out s))
  | spurious_cons : cons s = CBlocked →
      spurious s (mkProgram (g_cb s) (prod s) CPop (main_ s) (pushed_ s) (popped_ s) (out s)).

Definition next (s s' : program) : Prop := run s s' ∨ spurious s s'.

(** The program before [main]: the global buffer is constructed. *)
Definition start : program := mkProgram (new_Buffer 0 5) PNew CNew Greet [] [] [].

(** ** The program as a system of ProdCons *)

Definition abs_prod (p : prod_pc) : thread (T := Z) :=
  match p with PPush i => Pushing i | PBlocked i => PushWaits i | _ => Idle end.
Definition abs_cons (c : cons_pc) : thread (T := Z) :=
  match c with CPop => Popping | CBlocked => PopWaits | _ => Idle end.

Definition abs (s : program) : system (T := Z) :=
  mkSystem (g_cb s) [abs_prod (prod s); abs_cons (cons s)] (pushed_ s) (popped_ s).

Lemma push_section_shape (i : Z) b ok item b' :
  push_section i b = Ret (Returns ok item b') → item = None.
Proof.
  unfold push_section. intros E. repeat case_match; simplify_eq; try done.
  repeat (apply bind_Ret_inv in E as (? & _ & E)). congruence.
Qed.

Lemma pop_section_shape (b : Buffer (T := Z)) ok item b' :
  pop_section b = Ret (Returns ok item b') → if ok then is_Some item else item = None.
Proof.
  unfold pop_section. intros E. repeat case_match; simplify_eq; try done;
    repeat (apply bind_Ret_inv in E as (? & _ & E)); simplify_eq; eauto.
Qed.

Lemma abs_producer s s' : producer s = Ret (Some s') → step (abs s) (abs s').
Proof.
  unfold producer. destruct s as [b p c m pu po o]. set (s := mkProgram b p c m pu po o).
  destruct p as [|i|i|i|]; subst s; cbn; try done; intros E.
  - apply bind_Ret_inv in E as (j & _ & E). injection E as <-.
    refine (step_call (abs (mkProgram b (PNext i) c m pu po o)) 0 (Pushing j) _ _); eauto.
  - apply bind_Ret_inv in E as (e & He & E). injection E as <-. set (s := abs (mkProgram b (PPush i) c m pu po o)).
    destruct e as [|ok item b']; [by refine (step_push_blocks s 0 i _ _)|].
    pose proof (push_section_shape _ _ _ _ _ He) as ->. destruct ok; [|by refine (step_push_fails s 0 i b' _ _)].
    refine (step_push s 0 i b' [Idle; abs_cons (wake_cons c)] _ _ _); [done|done|].
    destruct c; try by apply notify_none. by apply (notify_some _ [_; _] 1 PopWaits).
Qed.

Lemma abs_consumer s s' : consumer s = Ret (Some s') → step (abs s) (abs s').
Proof.
  unfold consumer. destruct s as [b p c m pu po o]. destruct c as [| | |v|]; cbn; try done; intros E.
  - apply bind_Ret_inv in E as (e & He & E). injection E as <-. set (s := abs (mkProgram b p CPop m pu po o)).
    destruct e as [|ok item b']; [by refine (step_pop_blocks s 1 _ _)|].
    pose proof (pop_section_shape _ _ _ _ He) as Hi. destruct ok.
    + destruct Hi as [v ->]. refine (step_pop s 1 v b' [abs_prod (wake_prod p); Idle] _ _ _); [done|done|].
      destruct p as [| | |i|]; try by apply notify_none. by apply (notify_some _ [_; _] 0 (PushWaits i)).
    + subst item. by refine (step_pop_fails s 1 b' _ _).
  - injection E as <-. refine (step_call (abs (mkProgram b p (CPrint v) m pu po o)) 1 Popping _ _); auto.
Qed.

Lemma abs_spurious s s' : spurious s s' → step (abs s) (abs s').
Proof.
  intros Hs. destruct Hs as [i Hi|Hc].
  - refine (step_spurious (abs s) 0 (PushWaits i) _ eq_refl). cbn. by rewrite Hi.
  - refine (step_spurious (abs s) 1 PopWaits _ eq_refl). cbn. by rewrite Hc.
Qed.

(** ** The invariant of the program *)

Definition stopped (m : main_pc) : bool :=
  match m with JoinProd | JoinCons | Returned => true | _ => false end.

Definition count (s : program) : Z := Z.of_nat (length (pushed_ s)).

(** Which threads exist and have returned. *)
Definition main_ok (s : program) : Prop :=
  match main_ s with
  | Greet | SpawnProd => prod s = PNew ∧ cons s = CNew
  | SpawnCons => prod s ≠ PNew ∧ cons s = CNew
  | AwaitEnter | StopNext | JoinProd => prod s ≠ PNew ∧ cons s ≠ CNew
  | JoinCons => prod s = PStopped ∧ cons s ≠ CNew
  | Returned => prod s = PStopped ∧ cons s = CStopped
  end.

(** The producer has announced what it pushed and what it is about to push. *)
Definition prod_ok (s : program) : Prop :=
  match prod s with
  | PNew => pushed_ s = [] ∧ omap announced (out s) = []
  | PNext i => i = count s ∧ omap announced (out s) = pushed_ s
  | PPush i | PBlocked i => i = count s + 1 ∧ omap announced (out s) = pushed_ s ++ [i]
  | PStopped => running_ (g_cb s) = false ∧ omap announced (out s) = pushed_ s ++ [count s + 1]
  end.

(** The consumer has printed what it popped, but for the value in its hands. *)
Definition cons_ok (s : program) : Prop :=
  match cons s with
  | CPrint v => popped_ s = omap reported (out s) ++ [v]
  | CStopped => running_ (g_cb s) = false ∧ popped_ s = omap reported (out s) ∧ pushed_ s = popped_ s
  | _ => popped_ s = omap reported (out s)
  end.

Record ok (s : program) : Prop := {
  ok_abs : inv 5 (abs s);
  ok_running : running_ (g_cb s) = negb (stopped (main_ s));
  ok_pushed : pushed_ s = seqZ 1 (count s);
  ok_main : main_ok s;
  ok_prod : prod_ok s;
  ok_cons : cons_ok s;
}.

Lemma ok_start : ok start.
Proof. split; try done. apply (inv_initial (T := Z) 0 5 2). lia. Qed.

(** What a critical section of a program in a good state does. *)
Lemma ok_push s i : ok s → ∃ e, push_section i (g_cb s) = Ret e ∧
  match e with
  | Blocks => stopped (main_ s) = false
  | Returns r _ b => r = negb (stopped (main_ s)) ∧ running_ b = running_ (g_cb s)
  end.
Proof.
  intros [[(vs & R & _) _ _ _ _] Hr _ _ _ _]. destruct (g_cb s) as [cb r] eqn:E; simpl in *. rewrite E in R. simpl in *. 
  destruct (push_section_rep cb vs i r R) as [(-> & _ & ->)|[(-> & ->)|(-> & _ & cb' & -> & _)]];
    (eexists; split; [done|]); destruct (stopped (main_ s)); done.
Qed.

Lemma ok_pop s : ok s → ∃ e, pop_section (g_cb s) = Ret e ∧
  match e with
  | Blocks => stopped (main_ s) = false
  | Returns true (Some _) b => running_ b = running_ (g_cb s)
  | Returns true None b => False
  | Returns false _ b => stopped (main_ s) = true ∧ running_ b = running_ (g_cb s) ∧ pushed_ s = popped_ s
  end.
Proof.
  intros [[(vs & R & Hq) _ _ _ _] Hr _ _ _ _]. simpl in *. destruct (g_cb s) as [cb r] eqn:E; simpl in *.
  destruct (pop_section_rep cb vs r R) as [(-> & _ & ->)|[(-> & -> & ->)|(v & vs' & cb' & _ & _ & _ & ->)]];
    (eexists; split; [done|]); destruct (stopped (main_ s)); try done.
  by rewrite app_nil_r in Hq.
Qed.

Ltac ok_split := split; unfold main_ok, prod_ok, cons_ok, count; simpl; try done.

Lemma ok_producer s s' : ok s → producer s = Ret (Some s') → ok s'.
Proof.
  intros Hok E. pose proof (abs_producer _ _ E) as Hs. pose proof (inv_step _ _ _ (ok_abs _ Hok) Hs) as Ha.
  pose proof (λ i, ok_push s i Hok) as Hp. destruct Hok as [_ Hr Hpu Hm Hpr Hc].
  unfold producer in E. unfold main_ok, prod_ok, cons_ok, count in *. destruct s as [b p c m pu po o]; simpl in *.
  destruct p as [|i|i|i|]; try done.
  - apply bind_Ret_inv in E as (j & Hj & E). injection E as <-. unfold int in Hj. case_match; [|done].
    injection Hj as <-. destruct Hpr as [-> Ho].
    ok_split.
    + destruct m; try done; destruct Hm; done.
    + by rewrite omap_announced, Ho.
    + rewrite omap_reported. simpl. by rewrite app_nil_r.
  - destruct (Hp i) as (e & He & Hcase). rewrite He in E. injection E as <-. destruct Hpr as [-> Ho].
    destruct e as [|[] item b']; simpl in *.
    + ok_split. destruct m; try done; destruct Hm; done.
    + destruct Hcase as [Hst Hb]. ok_split.
      * congruence.
      * rewrite length_app, Nat2Z.inj_add. by apply seqZ_snoc.
      * destruct m; try done; destruct Hm; destruct c; done.
      * split; [|done]. rewrite length_app. simpl. lia.
      * destruct c; try done. destruct Hc as [Hc _]. rewrite Hr, <- Hst in Hc. done.
    + destruct Hcase as [Hst Hb]. ok_split.
      * congruence.
      * destruct m; try done; destruct Hm; done.
      * split; [|by rewrite omap_announced, Ho; simpl; rewrite app_nil_r]. destruct (stopped m); simpl in *; congruence.
      * rewrite omap_reported. simpl. rewrite app_nil_r. by rewrite Hb.
Qed.

Lemma ok_consumer s s' : ok s → consumer s = Ret (Some s') → ok s'.
Proof.
  intros Hok E. pose proof (abs_consumer _ _ E) as Hs. pose proof (inv_step _ _ _ (ok_abs _ Hok) Hs) as Ha.
  pose proof (ok_pop s Hok) as Hp. destruct Hok as [_ Hr Hpu Hm Hpr Hc].
  unfold consumer in E. unfold main_ok, prod_ok, cons_ok, count in *. destruct s as [b p c m pu po o]; simpl in *.
  destruct c as [| | |v|]; try done.
  - destruct Hp as (e & He & Hcase). rewrite He in E. injection E as <-.
    destruct e as [|[] item b']; simpl in *.
    + ok_split. destruct m; try done; destruct Hm; done.
    + destruct item as [v|]; [|done]. ok_split.
      * congruence.
      * destruct m; try done; destruct Hm; destruct p; done.
      * destruct p; try done. by rewrite Hcase.
      * by rewrite Hc.
    + destruct Hcase as (Hst & Hb & Hq). ok_split.
      * congruence.
      * destruct m; try done; destruct Hm; done.
      * rewrite omap_announced. simpl. by rewrite app_nil_r, Hb.
      * rewrite omap_reported. simpl. rewrite app_nil_r, Hb, Hr, Hst. done.
  - injection E as <-. ok_split.
    + destruct m; try done; destruct Hm; done.
    + rewrite omap_announced. simpl. by rewrite app_nil_r.
    + by rewrite omap_reported.
Qed.

Lemma abs_main s s' : ok s → main s = Some s' → abs s' = abs s ∨ step (abs s) (abs s').
Proof.
  intros [_ _ _ Hm _ _]. unfold main, main_ok in *. destruct s as [b p c m pu po o]; simpl in *.
  destruct m; intros E; simplify_eq; try by left.
  - destruct Hm as [-> ->]. by left.
  - destruct Hm as [_ ->]. right. refine (step_call (abs (mkProgram b p CNew SpawnCons pu po o)) 1 Popping _ _); auto.
  - right. pose proof (step_stop (abs (mkProgram b p c StopNext pu po o))) as Hs. by destruct p, c.
  - left. destruct p; try done. by injection E as <-.
  - left. destruct c; try done. by injection E as <-.
Qed.

Lemma ok_main_step s s' : ok s → main s = Some s' → ok s'.
Proof.
  intros Hok E. assert (inv 5 (abs s')) as Ha.
  { pose proof (ok_abs _ Hok). destruct (abs_main s s' Hok E) as [->|Hs]; [done|by eapply inv_step]. }
  destruct Hok as [_ Hr Hpu Hm Hpr Hc].
  unfold main in E. unfold main_ok, prod_ok, cons_ok, count in *. destruct s as [b p c m pu po o]; simpl in *.
  destruct m; simplify_eq.
  - ok_split; [by rewrite omap_announced; simpl; rewrite app_nil_r|by rewrite omap_reported; simpl; rewrite app_nil_r].
  - destruct Hm as [-> ->]. ok_split. destruct Hpr as [-> ->]. done.
  - destruct Hm as [? ->]. ok_split.
  - ok_split; [by rewrite omap_announced; simpl; rewrite app_nil_r|by rewrite omap_reported; simpl; rewrite app_nil_r].
  - ok_split; destruct p, c; naive_solver.
  - destruct p; try done. injection E as <-. destruct Hm. ok_split.
  - destruct c; try done. injection E as <-. destruct Hm. ok_split.
Qed.

Lemma ok_spurious s s' : ok s → spurious s s' → ok s'.
Proof.
  intros Hok Hs. pose proof (inv_step _ _ _ (ok_abs _ Hok) (abs_spurious _ _ Hs)) as Ha.
  destruct Hok as [_ Hr Hpu Hm Hpr Hc]. unfold main_ok, prod_ok, cons_ok, count in *.
  destruct Hs as [i Hi|Hi]; destruct s as [b p c m pu po o]; simpl in *; subst; ok_split; destruct m; naive_solver.
Qed.

Lemma ok_next s s' : ok s → next s s' → ok s'.
Proof.
  intros Hok [[E|E|E]|Hs].
  - by eapply ok_producer.
  - by eapply ok_consumer.
  - by eapply ok_main_step.
  - by eapply ok_spurious.
Qed.

Lemma ok_reachable s : rtc next start s → ok s.
Proof.
  intros Hr. pose proof ok_start as Hok. induction Hr as [|s1 s2 s3 Hs _ IH]; [done|]. by eapply IH, ok_next.
Qed.

(** ** After [stop] *)

Definition pending (s : program) : nat := length (pushed_ s) - length (popped_ s).

(** The number of steps left once the buffer has been stopped. *)
Definition left (s : program) : nat :=
  (match prod s with PNew => 3 | PNext _ => 2 | PPush _ => 1 | PBlocked _ | PStopped => 0 end +
   match cons s with CPrint _ => 2 + 2 * pending s | CPop => 1 + 2 * pending s | CNew | CBlocked | CStopped => 0 end +
   match main_ s with JoinProd => 2 | JoinCons => 1 | _ => 0 end)%nat.

Lemma ok_bounds s : ok s → pushed_ s = popped_ s ++ drop (length (popped_ s)) (pushed_ s) ∧
  (length (popped_ s) ≤ length (pushed_ s) ≤ length (popped_ s) + 5)%nat.
Proof.
  intros [[(vs & R & Hq) Hc _ _ _] _ _ _ _ _]. simpl in *. rewrite Hq, drop_app_length.
  pose proof (rep_bound _ _ R). pose proof (rep_cap _ _ R). rewrite length_app. split; [done|]. lia.
Qed.

Lemma drain_bound s : ok s → stopped (main_ s) = true → (left s ≤ 16)%nat.
Proof.
  intros Hok Hst. pose proof (ok_bounds s Hok) as [_ Hb]. destruct Hok as [_ _ _ Hm _ _].
  unfold left, pending, main_ok in *. destruct (main_ s); try done; destruct Hm as [Hp Hc];
    destruct (prod s); try done; destruct (cons s); try done; lia.
Qed.

(** Nobody is blocked after [stop]. *)
Lemma stopped_awake s : ok s → stopped (main_ s) = true → (∀ i, prod s ≠ PBlocked i) ∧ cons s ≠ CBlocked.
Proof.
  intros [[_ _ _ _ Hw] Hr _ _ _ _] Hst. rewrite Hst in Hr. destruct (Hw Hr) as [He Hf]. simpl in *.
  destruct (prod s), (cons s); done.
Qed.

Lemma stopped_producer s s' : ok s → stopped (main_ s) = true → producer s = Ret (Some s') →
  (left s' < left s)%nat ∧ main_ s' = main_ s ∧ pushed_ s' = pushed_ s.
Proof.
  intros Hok Hst E. pose proof (λ i, ok_push s i Hok) as Hp. unfold producer in E.
  destruct s as [b p c m pu po o]; simpl in *. destruct p as [|i|i|i|]; try done.
  - apply bind_Ret_inv in E as (j & _ & E). injection E as <-. unfold left, pending; simpl. split; [lia|done].
  - destruct (Hp i) as (e & He & Hcase). rewrite He in E. injection E as <-. rewrite Hst in Hcase.
    destruct e as [|[] ? b']; [done|by destruct Hcase|]. unfold left, pending; simpl. split; [lia|done].
Qed.

Lemma stopped_consumer s s' : ok s → stopped (main_ s) = true → consumer s = Ret (Some s') →
  (left s' < left s)%nat ∧ main_ s' = main_ s ∧ pushed_ s' = pushed_ s.
Proof.
  intros Hok Hst E. pose proof (ok_pop s Hok) as Hp. pose proof (ok_bounds s' (ok_consumer _ _ Hok E)) as [_ Hb].
  pose proof (stopped_awake s Hok Hst) as [Hpb _]. unfold consumer in E.
  destruct s as [b p c m pu po o]; simpl in *. destruct c as [| | |v|]; try done.
  - destruct Hp as (e & He & Hcase). rewrite He in E. injection E as <-. rewrite Hst in Hcase.
    destruct e as [|[] [v|] b']; try done; unfold left, pending in *; simpl in *; (split; [|done]); [|lia..].
    rewrite length_app in *. simpl in *. destruct p as [| | |i|]; simpl; try lia. by destruct (Hpb i).
  - injection E as <-. unfold left, pending; simpl. split; [lia|done].
Qed.

Lemma stopped_next s s' : ok s → stopped (main_ s) = true → next s s' →
  (left s' < left s)%nat ∧ stopped (main_ s') = true ∧ pushed_ s' = pushed_ s.
Proof.
  intros Hok Hst [[E|E|E]|Hs].
  - by destruct (stopped_producer s s' Hok Hst E) as (? & -> & ?).
  - by destruct (stopped_consumer s s' Hok Hst E) as (? & -> & ?).
  - unfold main in E. unfold left, pending. destruct s as [b p c m pu po o]; simpl in *.
    destruct m; try done; [destruct p|destruct c]; try done; injection E as <-; simpl; (split; [lia|done]).
  - destruct (stopped_awake s Hok Hst) as [Hp Hc]. destruct Hs as [i Hi|Hi]; [by destruct (Hp i)|done].
Qed.

(** Neither thread faults while the producer's counter is an [int]. *)
Lemma threads_ok s : ok s → count s < INT_MAX →
  ∃ p c, producer s = Ret p ∧ consumer s = Ret c ∧
    (p = None ↔ match prod s with PNew | PBlocked _ | PStopped => True | _ => False end) ∧
    (c = None ↔ match cons s with CNew | CBlocked | CStopped => True | _ => False end).
Proof.
  intros Hok Hn. pose proof (λ i, ok_push s i Hok) as Hpu. destruct (ok_pop s Hok) as (e & He & _).
  destruct Hok as [_ _ _ _ Hp _]. unfold prod_ok, count in *.
  assert (∃ p, producer s = Ret p ∧ (p = None ↔ match prod s with PNew | PBlocked _ | PStopped => True | _ => False end))
    as (p & -> & Ep).
  { unfold producer, int, int_ok. destruct (prod s) as [|i|i|i|]; try by eexists.
    - destruct Hp as [-> _]. rewrite (proj2 (Z.leb_le _ _)), (proj2 (Z.leb_le _ _)) by (unfold INT_MIN, INT_MAX in *; lia). by eexists.
    - destruct (Hpu i) as (e' & -> & _). by eexists. }
  assert (∃ c, consumer s = Ret c ∧ (c = None ↔ match cons s with CNew | CBlocked | CStopped => True | _ => False end))
    as (c & -> & Ec).
  { unfold consumer. destruct (cons s); try by eexists. rewrite He. by eexists. }
  by exists p, c.
Qed.

Lemma stopped_progress s : ok s → stopped (main_ s) = true → count s < INT_MAX → main_ s ≠ Returned → ∃ s', run s s'.
Proof.
  intros Hok Hst Hn Hm. destruct (threads_ok s Hok Hn) as (p & c & Ep & Ec & Hp & Hc).
  destruct p as [p|]; [by exists p; apply run_producer|]. destruct c as [c|]; [by exists c; apply run_consumer|].
  destruct (stopped_awake s Hok Hst) as [Hpb Hcb]. destruct Hok as [_ _ _ Hmain _ _]. unfold main_ok in *.
  enough (is_Some (main s)) as [s' ?] by (exists s'; by apply run_main). unfold main.
  pose proof (proj1 Hp eq_refl) as Hp'. pose proof (proj1 Hc eq_refl) as Hc'. clear Hp Hc.
  destruct (main_ s); try done; destruct Hmain as [Hm1 Hm2].
  - destruct (prod s) as [| | |i|]; try done. by destruct (Hpb i).
  - destruct (cons s); done.
Qed.

Lemma ok_popped s : ok s → popped_ s = seqZ 1 (Z.of_nat (length (popped_ s))).
Proof.
  intros Hok. destruct (ok_bounds s Hok) as [Hq _]. pose proof (ok_pushed s Hok) as Hp. rewrite Hq in Hp.
  eapply seqZ_prefix; [|exact Hp]. unfold count. lia.
Qed.

(** C?: whatever the schedule, the program pushes 1, 2, 3, ..., pops the same
    sequence, never holds more than five values back, prints every value it pops
    in order (at most the last is not printed yet) and announces at most one push
    ahead; no thread ever faults (until the counter would exceed [INT_MAX]); and
    the two threads are never blocked at the same time. *)
Theorem ProdConsProgram_safe s :
  rtc next start s →
  pushed_ s = seqZ 1 (count s) ∧
  (∃ k, popped_ s = seqZ 1 k ∧ 0 ≤ k ≤ count s ∧ count s ≤ k + 5 ∧
     (omap reported (out s) = seqZ 1 k ∨ omap reported (out s) = seqZ 1 (k - 1) ∧ cons s = CPrint k)) ∧
  (omap announced (out s) = seqZ 1 (count s) ∨ omap announced (out s) = seqZ 1 (count s + 1)) ∧
  (count s < INT_MAX → ∃ p c, producer s = Ret p ∧ consumer s = Ret c) ∧
  ¬ ((∃ i, prod s = PBlocked i) ∧ cons s = CBlocked).
Proof.
  intros Hr. pose proof (ok_reachable s Hr) as Hok. pose proof (ok_popped s Hok) as Hpo.
  destruct (ok_bounds s Hok) as [_ Hb]. pose proof (ok_pushed s Hok) as Hpu. split; [done|]. split_and!.
  - exists (Z.of_nat (length (popped_ s))). unfold count. split; [done|]. split; [lia|]. split; [lia|].
    pose proof (ok_cons s Hok) as Hc. unfold cons_ok in Hc. destruct (cons s) as [| | |v|];
      try (left; congruence); [|left; destruct Hc as (_ & Hc & _); congruence].
    right. rewrite Hc, length_app. simpl length. rewrite Hc, length_app in Hpo. simpl length in Hpo.
    rewrite Nat2Z.inj_add, seqZ_app in Hpo by lia. apply app_inj_2 in Hpo as [Hpo Hv]; [|done].
    unfold seqZ in Hv. simpl in Hv. injection Hv as Hv. split; [rewrite Hpo at 1; f_equal; lia|f_equal; lia].
  - pose proof (ok_prod s Hok) as Hp. unfold prod_ok in Hp. unfold count in *. destruct (prod s) as [|i|i|i|].
    + left. destruct Hp as [Hp ->]. by rewrite Hp.
    + left. destruct Hp as [_ ->]. done.
    + right. destruct Hp as [-> ->]. by apply seqZ_snoc.
    + right. destruct Hp as [-> ->]. by apply seqZ_snoc.
    + right. destruct Hp as [_ ->]. by apply seqZ_snoc.
  - intros Hn. destruct (threads_ok s Hok Hn) as (p & c & ? & ? & _). by exists p, c.
  - intros [[i Hi] Hc]. destruct (ok_abs s Hok) as [_ _ Hce Hcf _]. simpl in *. rewrite Hi, Hc in *. simpl in *. lia.
Qed.

Lemma stopped_nsteps s n s' : ok s → stopped (main_ s) = true → nsteps next n s s' →
  (n + left s' ≤ left s)%nat ∧ ok s' ∧ stopped (main_ s') = true ∧ pushed_ s' = pushed_ s.
Proof.
  intros Hok Hst Hn. induction Hn as [s|n s1 s2 s3 Hs _ IH]; [done|].
  destruct (stopped_next s1 s2 Hok Hst Hs) as (Hl & Hst2 & Hp).
  destruct IH as (? & ? & ? & ?); [by eapply ok_next|done|]. split_and!; [lia|done|done|congruence].
Qed.

(** C14: once [stop] has been called the program ends: it takes at most 16 more
    steps in any schedule (spurious wake-ups included), it cannot get stuck before
    [main] returns, and when it is over the consumer has printed every value that
    was ever pushed, in order: nothing is lost in the buffer. *)
Theorem ProdConsProgram_drains s n s' :
  rtc next start s → stopped (main_ s) = true → count s < INT_MAX → nsteps next n s s' →
  (n ≤ 16)%nat ∧
  ((∃ s'', run s' s'') ∨ main_ s' = Returned ∧ omap reported (out s') = seqZ 1 (count s)).
Proof.
  intros Hr Hst Hn Hs. pose proof (ok_reachable s Hr) as Hok.
  destruct (stopped_nsteps s n s' Hok Hst Hs) as (Hl & Hok' & Hst' & Hp). pose proof (drain_bound s Hok Hst).
  split; [lia|]. destruct (decide (main_ s' = Returned)) as [Hm|Hm].
  - right. split; [done|]. pose proof (ok_main s' Hok') as Hmain. unfold main_ok in Hmain. rewrite Hm in Hmain.
    pose proof (ok_cons s' Hok') as Hc. unfold cons_ok in Hc. destruct Hmain as [_ Hcs]. rewrite Hcs in Hc.
    destruct Hc as (_ & Hc & Hq). rewrite <- Hc, <- Hq, Hp. apply (ok_pushed s Hok).
  - left. apply stopped_progress; [done|done| |done]. unfold count. by rewrite Hp.
Qed.

(** ** Runs of a given schedule *)

Inductive who := P | C | M.

Definition turn (w : who) (s : program) : outcome (option program) :=
  match w with P => producer s | C => consumer s | M => Ret (main s) end.

Fixpoint play (schedule : list who) (s : program) : outcome (option program) :=
  match schedule with
  | [] => Ret (Some s)
  | w :: rest => s' ← turn w s; match s' with Some s' => play rest s' | None => Ret None end
  end.

Lemma play_nsteps schedule s s' : play schedule s = Ret (Some s') → nsteps next (length schedule) s s'.
Proof.
  revert s. induction schedule as [|w rest IH]; simpl; intros s E.
  { injection E as <-. apply nsteps_O. }
  apply bind_Ret_inv in E as ([s1|] & E1 & E); [|done]. apply (nsteps_l _ _ _ s1); [|by apply IH]. left.
  destruct w; [by apply run_producer|by apply run_consumer|]. apply run_main. by injection E1.
Qed.

(** The consumer runs first and blocks; the producer pushes 1, 2 and 3 and is
    stopped with two values in the buffer. *)
Definition demo : list who := [M; M; M; C; P; P; C; P; P; P; P; M; M].
Definition demo_end : list who := [C; C; P; P; C; C; M; C; C; M].

Definition state_after (schedule : list who) : program :=
  match play schedule start with Ret (Some s) => s | _ => start end.

Lemma ProdConsProgram_safe_witness : pushed_ (state_after demo) = [1; 2; 3].
Proof.
  apply (ProdConsProgram_safe (state_after demo)). eapply rtc_nsteps. eexists. apply (play_nsteps demo). vm_compute. reflexivity.
Defined.

Lemma ProdConsProgram_drains_witness :
  play demo_end (state_after demo) = Ret (Some (state_after (demo ++ demo_end))) ∧
  main_ (state_after (demo ++ demo_end)) = Returned ∧
  omap reported (out (state_after (demo ++ demo_end))) = [1; 2; 3] ∧ (length demo_end ≤ 16)%nat.
Proof.
  split; [by vm_compute|].
  destruct (ProdConsProgram_drains (state_after demo) (length demo_end) (state_after (demo ++ demo_end))) as [Hn [[s Hs]|H]].
  - eapply rtc_nsteps. eexists. apply (play_nsteps demo). vm_compute. reflexivity.
  - reflexivity.
  - by vm_compute.
  - apply play_nsteps; vm_compute; reflexivity.
  - exfalso. destruct Hs as [E|E|E]; vm_compute in E; discriminate E.
  - split_and!; [by vm_compute|by vm_compute|exact Hn].
Defined.
End Enter.

(** ** The C program *)

Module Sigint.

(** The producer: not created; at the test of its loop; in [cb_push], about to
    take the lock; holding the lock, its wait condition tested; waiting on
    [not_full]; returned. *)
Inductive prod_pc := QNew | QTest (i : Z) | QPush (i : Z) | QTested (i : Z) | QBlocked (i : Z) | QDone.
Inductive cons_pc := KNew | KTest | KPop | KTested | KBlocked | KPrint (v : Z) | KDone.
Inductive main_pc := SpawnProd | SpawnCons | JoinProd | JoinCons | Destroy | Returned (code : Z).

Record program := mkProgram {
  cb : CircularBuffer Z;
  keep : bool;              (* keep_running *)
  prod : prod_pc;
  cons : cons_pc;
  main_ : main_pc;
  pushed_ : list Z;
  popped_ : list Z;
  out : list line;
}.

Definition holds_prod (p : prod_pc) : bool := match p with QTested _ => true | _ => false end.
Definition holds_cons (c : cons_pc) : bool := match c with KTested => true | _ => false end.
Definition wake_prod (p : prod_pc) : prod_pc := match p with QBlocked i => QPush i | p => p end.
Definition wake_cons (c : cons_pc) : cons_pc := match c with KBlocked => KPop | c => c end.

Definition producer (s : program) : outcome (option program) :=
  match prod s with
  | QTest i =>
      if keep s then
        j ← int (i + 1);
        Ret (Some (mkProgram (cb s) (keep s) (QPush j) (cons s) (main_ s) (pushed_ s) (popped_ s) (out s ++ [Pushing_ j])))
      else Ret (Some (mkProgram (cb s) (keep s) QDone (cons s) (main_ s) (pushed_ s) (popped_ s) (out s)))
  | QPush i =>
      if holds_cons (cons s) then Ret None else
      if cb_full (cb s) && keep s then
        Ret (Some (mkProgram (cb s) (keep s) (QTested i) (cons s) (main_ s) (pushed_ s) (popped_ s) (out s)))
      else
        r ← cb_push_rest (keep s) i (cb s);
        Ret (Some (match r with
          | (true, cb') => mkProgram cb' (keep s) (QTest i) (wake_cons (cons s)) (main_ s) (pushed_ s ++ [i]) (popped_ s) (out s)
          | (false, cb') => mkProgram cb' (keep s) QDone (cons s) (main_ s) (pushed_ s) (popped_ s) (out s)
          end))
  | QTested i => Ret (Some (mkProgram (cb s) (keep s) (QBlocked i) (cons s) (main_ s) (pushed_ s) (popped_ s) (out s)))
  | QNew | QBlocked _ | QDone => Ret None
  end.

Definition consumer (s : program) : outcome (option program) :=
  match cons s with
  | KTest =>
      Ret (Some (mkProgram (cb s) (keep s) (prod s) (if keep s then KPop else KDone) (main_ s) (pushed_ s) (popped_ s) (out s)))
  | KPop =>
      if holds_prod (prod s) then Ret None else
      if cb_empty (cb s) && keep s then
        Ret (Some (mkProgram (cb s) (keep s) (prod s) KTested (main_ s) (pushed_ s) (popped_ s) (out s)))
      else
        r ← cb_pop_rest (cb s);
        Ret (Some (match r with
          | (Some v, cb') => mkProgram cb' (keep s) (wake_prod (prod s)) (KPrint v) (main_ s) (pushed_ s) (popped_ s ++ [v]) (out s)
          | (None, cb') => mkProgram cb' (keep s) (prod s) KDone (main_ s) (pushed_ s) (popped_ s) (out s)
          end))
  | KTested => Ret (Some (mkProgram (cb s) (keep s) (prod s) KBlocked (main_ s) (pushed_ s) (popped_ s) (out s)))
  | KPrint v => Ret (Some (mkProgram (cb s) (keep s) (prod s) KTest (main_ s) (pushed_ s) (popped_ s) (out s ++ [Popped_ v])))
  | KNew | KBlocked | KDone => Ret None
  end.

(** [main] up to [g_cb = &cb]; [garbage] is what malloc returns to [cb_init]. *)
Definition boot (garbage : option (list Z)) : program :=
  match cb_init garbage 5 with
  | None => mkProgram (mkCircularBuffer [] 0 0 0 0) true QNew KNew (Returned 1) [] [] [InitFailed]
  | Some b => mkProgram b true QNew KNew SpawnProd [] [] []
  end.

(** The rest of [main], a call per step. *)
Definition main (s : program) : option program :=
  match main_ s with
  | SpawnProd => Some (mkProgram (cb s) (keep s) (QTest 0) (cons s) SpawnCons (pushed_ s) (popped_ s) (out s))
  | SpawnCons => Some (mkProgram (cb s) (keep s) (prod s) KTest JoinProd (pushed_ s) (popped_ s) (out s))
  | JoinProd =>
      match prod s with
      | QDone => Some (mkProgram (cb s) (keep s) QDone (cons s) JoinCons (pushed_ s) (popped_ s) (out s))
      | _ => None
      end
  | JoinCons =>
      match cons s with
      | KDone => Some (mkProgram (cb s) (keep s) (prod s) KDone Destroy (pushed_ s) (popped_ s) (out s))
      | _ => None
      end
  | Destroy =>
      Some (mkProgram (cb_destroy (cb s)) (keep s) (prod s) (cons s) (Returned 0) (pushed_ s) (popped_ s) (out s))
  | Returned _ => None
  end.

(** [handle_sigint], run on top of any thread at any moment. *)
Definition handler (s : program) : program :=
  mkProgram (cb s) false (wake_prod (prod s)) (wake_cons (cons s)) (main_ s) (pushed_ s) (popped_ s) (out s).

Inductive run (s s' : program) : Prop :=
  | run_producer : producer s = Ret (Some s') → run s s'
  | run_consumer : consumer s = Ret (Some s') → run s s'
  | run_main : main s = Some s' → run s s'.

Inductive spurious (s : program) : program → Prop :=
  | spurious_prod i : prod s = QBlocked i →
      spurious s (mkProgram (cb s) (keep s) (QPush i) (cons s) (main_ s) (pushed_ s) (popped_ s) (out s))
  | spurious_cons : cons s = KBlocked →
      spurious s (mkProgram (cb s) (keep s) (prod s) KPop (main_ s) (pushed_ s) (popped_ s) (out s)).

Inductive next (s s' : program) : Prop :=
  | next_run : run s s' → next s s'
  | next_spurious : spurious s s' → next s s'
  | next_signal : (∀ code, main_ s ≠ Returned code) → s' = handler s → next s s'.

(** ** The program as a system of SignalBuffer *)

Definition abs_prod (p : prod_pc) : cthread :=
  match p with QPush i => CPushing i | QTested i => PushTested i | QBlocked i => CPushWaits i | _ => CIdle end.
Definition abs_cons (c : cons_pc) : cthread :=
  match c with KPop => CPopping | KTested => PopTested | KBlocked => CPopWaits | _ => CIdle end.

Definition abs (s : program) : csystem :=
  mkC (cb s) (keep s) [abs_prod (prod s); abs_cons (cons s)] (pushed_ s) (popped_ s).

Lemma sig_abs_producer s s' : producer s = Ret (Some s') → abs s' = abs s ∨ cstep (abs s) (abs s').
Proof.
  unfold producer. destruct s as [b k p c m pu po o]. destruct p as [|i|i|i|i|]; cbn; try done; intros E.
  - destruct k; [|left; by injection E as <-]. apply bind_Ret_inv in E as (j & _ & E). injection E as <-. right.
    refine (c_call (abs (mkProgram b true (QTest i) c m pu po o)) 0 (CPushing j) _ _); eauto.
  - destruct (holds_cons c) eqn:Hh; [done|]. set (s := abs (mkProgram b k (QPush i) c m pu po o)). right.
    assert (unlocked s) as Hu by (by destruct c). destruct (cb_full b && k) eqn:Hf.
    + injection E as <-. by refine (c_push_test s 0 i _ Hu Hf).
    + apply bind_Ret_inv in E as ([[] b'] & Hr & E); injection E as <-; [|by refine (c_push_fails s 0 i b' _ Hu Hf Hr)].
      refine (c_push s 0 i b' [CIdle; abs_cons (wake_cons c)] _ Hu Hf Hr _); [done|].
      destruct c; try by apply signal_none. by apply (signal_some _ [_; _] 1 CPopWaits).
  - injection E as <-. right. by refine (c_push_wait (abs (mkProgram b k (QTested i) c m pu po o)) 0 i _).
Qed.

Lemma sig_abs_consumer s s' : consumer s = Ret (Some s') → abs s' = abs s ∨ cstep (abs s) (abs s').
Proof.
  unfold consumer. destruct s as [b k p c m pu po o]. destruct c as [| | | | |v|]; cbn; try done; intros E.
  - injection E as <-. destruct k; [right|by left].
    refine (c_call (abs (mkProgram b true p KTest m pu po o)) 1 CPopping _ _); auto.
  - destruct (holds_prod p) eqn:Hh; [done|]. set (s := abs (mkProgram b k p KPop m pu po o)). right.
    assert (unlocked s) as Hu by (by destruct p). destruct (cb_empty b && k) eqn:Hf.
    + injection E as <-. by refine (c_pop_test s 1 _ Hu Hf).
    + apply bind_Ret_inv in E as ([[v|] b'] & Hr & E); injection E as <-; [|by refine (c_pop_fails s 1 b' _ Hu Hf Hr)].
      refine (c_pop s 1 v b' [abs_prod (wake_prod p); CIdle] _ Hu Hf Hr _); [done|].
      destruct p as [| | | |i|]; try by apply signal_none. by apply (signal_some _ [_; _] 0 (CPushWaits i)).
  - injection E as <-. right. by refine (c_pop_wait (abs (mkProgram b k p KTested m pu po o)) 1 _).
  - injection E as <-. by left.
Qed.

Lemma sig_abs_handler s : cstep (abs s) (abs (handler s)).
Proof.
  pose proof (c_sigint (abs s)) as Hs. destruct s as [b k p c m pu po o]. unfold handle_sigint in Hs. simpl in *.
  by destruct p, c.
Qed.

Lemma sig_abs_spurious s s' : spurious s s' → cstep (abs s) (abs s').
Proof.
  intros Hs. destruct Hs as [i Hi|Hc].
  - refine (c_spurious (abs s) 0 (CPushWaits i) _ eq_refl). cbn. by rewrite Hi.
  - refine (c_spurious (abs s) 1 CPopWaits _ eq_refl). cbn. by rewrite Hc.
Qed.

(** ** The invariant of the program *)

Definition count (s : program) : Z := Z.of_nat (length (pushed_ s)).

Definition main_ok (s : program) : Prop :=
  match main_ s with
  | SpawnProd => prod s = QNew ∧ cons s = KNew
  | SpawnCons => prod s ≠ QNew ∧ cons s = KNew
  | JoinProd => prod s ≠ QNew ∧ cons s ≠ KNew
  | JoinCons => prod s = QDone ∧ cons s ≠ KNew
  | Destroy => prod s = QDone ∧ cons s = KDone
  | Returned 0 => prod s = QDone ∧ cons s = KDone
  | Returned _ => prod s = QNew ∧ cons s = KNew ∧ keep s = true
  end.

Definition prod_ok (s : program) : Prop :=
  match prod s with
  | QNew => pushed_ s = [] ∧ omap announced (out s) = []
  | QTest i => i = count s ∧ omap announced (out s) = pushed_ s
  | QPush i | QTested i | QBlocked i => i = count s + 1 ∧ omap announced (out s) = pushed_ s ++ [i]
  | QDone => keep s = false ∧
      (omap announced (out s) = pushed_ s ∨ omap announced (out s) = pushed_ s ++ [count s + 1])
  end.

Definition cons_ok (s : program) : Prop :=
  match cons s with
  | KPrint v => popped_ s = omap reported (out s) ++ [v]
  | KDone => keep s = false ∧ popped_ s = omap reported (out s)
  | _ => popped_ s = omap reported (out s)
  end.

(** What the threads know by themselves. *)
Record local_ok (s : program) : Prop := {
  lo_pushed : pushed_ s = seqZ 1 (count s);
  lo_main : main_ok s;
  lo_prod : prod_ok s;
  lo_cons : cons_ok s;
}.

Ltac lo_split := split; unfold main_ok, prod_ok, cons_ok, count; simpl; try done.
Ltac lo_main m Hm := destruct m as [| | | | |[]]; try done; destruct_and? Hm; done.

Lemma push_rest_false k i b b' : cb_push_rest k i b = Ret (false, b') → k = false.
Proof.
  unfold cb_push_rest. destruct k; [|done]. cbn [negb]. intros E. by repeat (apply bind_Ret_inv in E as (? & _ & E)).
Qed.

Lemma pop_rest_None b b' : cb_pop_rest b = Ret (None, b') → cb_empty b = true.
Proof.
  unfold cb_pop_rest. destruct (cb_empty b); [done|]. intros E. by repeat (apply bind_Ret_inv in E as (? & _ & E)).
Qed.

Lemma local_producer s s' : local_ok s → producer s = Ret (Some s') → local_ok s'.
Proof.
  intros [Hpu Hm Hpr Hc] E. unfold producer in E. unfold main_ok, prod_ok, cons_ok, count in *.
  destruct s as [b k p c m pu po o]; simpl in *. destruct p as [|i|i|i|i|]; try done; destruct Hpr as [-> Ho].
  - destruct k; [|injection E as <-; lo_split; [lo_main m Hm|auto]].
    apply bind_Ret_inv in E as (j & Hj & E). injection E as <-. unfold int in Hj. case_match; [|done].
    injection Hj as <-. lo_split; [lo_main m Hm|by rewrite omap_announced, Ho|].
    rewrite omap_reported. simpl. by rewrite app_nil_r.
  - destruct (holds_cons c); [done|]. destruct (cb_full b && k).
    { injection E as <-. lo_split. lo_main m Hm. }
    apply bind_Ret_inv in E as ([[] b'] & Hr & E); injection E as <-.
    + lo_split.
      * rewrite length_app, Nat2Z.inj_add. by apply seqZ_snoc.
      * destruct c; lo_main m Hm.
      * split; [|done]. rewrite length_app. simpl. lia.
      * by destruct c.
    + apply push_rest_false in Hr as ->. lo_split; [lo_main m Hm|auto].
  - injection E as <-. lo_split. lo_main m Hm.
Qed.

Lemma local_consumer s s' : local_ok s → consumer s = Ret (Some s') → local_ok s'.
Proof.
  intros [Hpu Hm Hpr Hc] E. unfold consumer in E. unfold main_ok, prod_ok, cons_ok, count in *.
  destruct s as [b k p c m pu po o]; simpl in *. destruct c as [| | | | |v|]; try done.
  - injection E as <-. destruct k; lo_split; lo_main m Hm.
  - destruct (holds_prod p); [done|]. destruct (cb_empty b && k) eqn:Hf.
    { injection E as <-. lo_split. lo_main m Hm. }
    apply bind_Ret_inv in E as ([[v|] b'] & Hr & E); injection E as <-.
    + lo_split; [destruct p; lo_main m Hm|by destruct p|by rewrite Hc].
    + apply pop_rest_None in Hr. rewrite Hr in Hf. simpl in Hf. subst k. lo_split. lo_main m Hm.
  - injection E as <-. lo_split. lo_main m Hm.
  - injection E as <-. lo_split; [lo_main m Hm| |by rewrite omap_reported].
    rewrite omap_announced. simpl. by rewrite app_nil_r.
Qed.

Lemma local_main s s' : local_ok s → main s = Some s' → local_ok s'.
Proof.
  intros [Hpu Hm Hpr Hc] E. unfold main in E. unfold main_ok, prod_ok, cons_ok, count in *.
  destruct s as [b k p c m pu po o]; simpl in *. destruct m; simplify_eq.
  - destruct Hm as [-> ->]. lo_split. destruct Hpr as [-> ->]. done.
  - destruct Hm as [? ->]. lo_split.
  - destruct p; try done. injection E as <-. destruct Hm. lo_split.
  - destruct c; try done. injection E as <-. destruct Hm. lo_split.
  - lo_split.
Qed.

Lemma local_next s s' : local_ok s → next s s' → local_ok s'.
Proof.
  intros Hok [[E|E|E]|Hs|Hm ->].
  - by eapply local_producer.
  - by eapply local_consumer.
  - by eapply local_main.
  - destruct Hok as [Hpu Hm Hpr Hc]. unfold main_ok, prod_ok, cons_ok, count in *.
    destruct Hs as [i Hi|Hi]; destruct s as [b k p c m pu po o]; simpl in *; subst; lo_split; lo_main m Hm.
  - destruct Hok as [Hpu Hm' Hpr Hc]. unfold main_ok, prod_ok, cons_ok, count in *.
    destruct s as [b k p c m pu po o]; simpl in *. lo_split.
    + destruct m as [| | | | |[]]; try done; destruct p, c; naive_solver.
    + destruct p; naive_solver.
    + destruct c; naive_solver.
Qed.

Definition alive (s : program) : Prop := match main_ s with Returned _ => False | _ => True end.

Record ok (s : program) : Prop := {
  sk_local : local_ok s;
  sk_abs : alive s → cinv 5 (abs s);
  sk_running : alive s → keep s = true → inv 5 (SignalBuffer.abs (abs s));
  sk_fifo : ∃ vs, pushed_ s = popped_ s ++ vs ∧ (length vs ≤ 5)%nat;
}.

Lemma cinv_fifo s : cinv 5 (abs s) → ∃ vs, pushed_ s = popped_ s ++ vs ∧ (length vs ≤ 5)%nat.
Proof.
  intros [(vs & R & Hq) Hc _ _ _]. simpl in *. exists vs. split; [done|].
  pose proof (rep_bound _ _ R). pose proof (rep_cap _ _ R). lia.
Qed.

(** A step that the system of SignalBuffer takes, or does not notice. *)
Lemma ok_of_abs s s' : ok s → local_ok s' → alive s → abs s' = abs s ∨ cstep (abs s) (abs s') → ok s'.
Proof.
  intros [_ Ha Hrun _] Hl Hal Hs. assert (cinv 5 (abs s')) as Hc.
  { destruct Hs as [->|Hs]; [by apply Ha|]. eapply cinv_step; [by apply Ha|done]. }
  split; [done|done| |by apply cinv_fifo]. intros _ Hk. destruct Hs as [E|Hs].
  - rewrite E. apply Hrun; [done|]. apply (f_equal keep_running) in E. simpl in E. congruence.
  - pose proof (cstep_running _ _ Hs Hk) as Hk0. specialize (Hrun Hal Hk0).
    destruct (cstep_simulates 5 _ _ (Ha Hal) Hs Hk) as [->|Hst]; [done|by eapply inv_step].
Qed.

Lemma sig_ok_next s s' : ok s → next s s' → ok s'.
Proof.
  intros Hok Hs. pose proof (local_next s s' (sk_local _ Hok) Hs) as Hl.
  pose proof (lo_main _ (sk_local _ Hok)) as Hm. unfold main_ok in Hm.
  assert (alive s ∨ ∃ code, main_ s = Returned code) as [Hal|[code Hr]] by (unfold alive; destruct (main_ s); eauto).
  - destruct Hs as [[E|E|E]|Hs|_ ->].
    + apply (ok_of_abs s); [done..|by apply sig_abs_producer].
    + apply (ok_of_abs s); [done..|by apply sig_abs_consumer].
    + unfold main in E. destruct (main_ s) eqn:Em; simplify_eq.
      * apply (ok_of_abs s); [done..|]. destruct Hm as [Hp Hc]. left. unfold abs. simpl. by rewrite Hp.
      * apply (ok_of_abs s); [done..|]. destruct Hm as [Hp Hc]. left. unfold abs. simpl. by rewrite Hc.
      * destruct (prod s) eqn:Ep; try done. injection E as <-. apply (ok_of_abs s); [done..|]. left. unfold abs. simpl. by rewrite Ep.
      * destruct (cons s) eqn:Ec; try done. injection E as <-. apply (ok_of_abs s); [done..|]. left. unfold abs. simpl. by rewrite Ec.
      * split; [done..|apply (sk_fifo _ Hok)].
    + apply (ok_of_abs s); [done..|]. right. by apply sig_abs_spurious.
    + apply (ok_of_abs s); [done..|]. right. apply sig_abs_handler.
  - rewrite Hr in Hm. exfalso. assert (abs_prod (prod s) = CIdle ∧ abs_cons (cons s) = CIdle ∧
      producer s = Ret None ∧ consumer s = Ret None) as (Hp & Hc & Ep & Ec).
    { unfold producer, consumer. destruct code; [destruct Hm as [-> ->]|destruct Hm as (-> & -> & _)..]; done. }
    destruct Hs as [[E|E|E]|Hs|Hn _]; [congruence|congruence| | |by eapply Hn].
    + unfold main in E. by rewrite Hr in E.
    + destruct Hs as [i Hi|Hi]; [by rewrite Hi in Hp|by rewrite Hi in Hc].
Qed.

Lemma boot_ok garbage : (∀ b, garbage = Some b → length b = 5%nat) → ok (boot garbage).
Proof.
  intros Hg. unfold boot. destruct garbage as [b|]; simpl.
  - pose proof (cinitial_inv (mkCircularBuffer b 5 0 0 0) 5 2) as Hi. destruct Hi as [Hc Hi]; [|done|].
    { destruct (cb_init_rep b 5) as (cb & E & R & _); [by rewrite (Hg b)|lia|]. by injection E as <-. }
    split; [by split|done|done|]. exists []. split; [done|simpl; lia].
  - split; [by split|done|done|]. exists []. split; [done|simpl; lia].
Qed.

Lemma sig_ok_reachable garbage s : (∀ b, garbage = Some b → length b = 5%nat) → rtc next (boot garbage) s → ok s.
Proof.
  intros Hg Hr. pose proof (boot_ok garbage Hg) as Hok. revert Hok.
  induction Hr as [|s1 s2 s3 Hs _ IH]; [done|]. intros Hok. by eapply IH, sig_ok_next.
Qed.

(** ** After the signal *)

(** Nobody holds the mutex between a test and a wait, and nobody waits. *)
Definition awake (s : program) : Prop :=
  match prod s with QTested _ | QBlocked _ => False | _ => True end ∧
  match cons s with KTested | KBlocked => False | _ => True end.

(** The number of steps left. *)
Definition left (s : program) : nat :=
  (match prod s with QTest _ | QPush _ => 1 | _ => 0 end +
   match cons s with KPop => 3 | KPrint _ => 2 | KTest => 1 | _ => 0 end +
   match main_ s with
   | SpawnProd => 7 | SpawnCons => 5 | JoinProd => 3 | JoinCons => 2 | Destroy => 1 | Returned _ => 0
   end)%nat.

Lemma sig_left_bound s : ok s → (left s ≤ 7)%nat.
Proof.
  intros [[_ Hm _ _] _ _ _]. unfold left, main_ok in *.
  destruct (main_ s) as [| | | | |[]]; destruct Hm as [Hp Hc]; rewrite ?Hp, ?Hc; destruct (prod s), (cons s); try done; lia.
Qed.

Lemma awake_run s s' : ok s → keep s = false → awake s → run s s' →
  (left s' < left s)%nat ∧ keep s' = false ∧ awake s' ∧ pushed_ s' = pushed_ s.
Proof.
  intros [[_ Hm _ _] _ _ _] Hk [Hp Hc] [E|E|E]; unfold left, awake, main_ok in *; destruct s as [b k p c m pu po o]; simpl in *; subst k.
  - unfold producer in E. simpl in E. destruct p as [|i|i|i|i|]; try done; [by injection E as <-; simpl; split_and!; [lia|..]|].
    destruct (holds_cons c); [done|]. rewrite andb_false_r in E. simpl in E. injection E as <-. simpl. split_and!; [lia|done..].
  - unfold consumer in E. simpl in E. destruct c as [| | | | |v|]; try done; try (injection E as <-; simpl; split_and!; [lia|done..]).
    destruct (holds_prod p); [done|]. rewrite andb_false_r in E.
    apply bind_Ret_inv in E as ([[v|] b'] & Hr & E); injection E as <-; destruct p; simpl; try done; split_and!; (done || lia).
  - unfold main in E. simpl in E. destruct m; simplify_eq; simpl.
    + destruct Hm as [-> ->]. split_and!; (done || lia).
    + destruct Hm as [? ->]. split_and!; (done || lia).
    + destruct p; try done. injection E as <-. simpl. split_and!; (done || lia).
    + destruct c; try done. injection E as <-. simpl. split_and!; (done || lia).
    + split_and!; (done || lia).
Qed.

Lemma sig_critical s i : ok s → alive s →
  (cb_full (cb s) && keep s = false → ∃ r, cb_push_rest (keep s) i (cb s) = Ret r) ∧ (∃ r, cb_pop_rest (cb s) = Ret r).
Proof.
  intros [_ Ha _ _] Hal. destruct (Ha Hal) as [(vs & R & _) _ _ _ _]. simpl in R. split.
  - intros Hf. destruct (cb_push_rest_rep _ vs i (keep s) R Hf) as [[_ ->]|(_ & b & -> & _)]; eauto.
  - destruct (cb_pop_rest_rep _ vs R) as [[_ ->]|(v & vs' & b & _ & -> & _)]; eauto.
Qed.

(** Neither thread faults while the producer's counter is an [int]. *)
Lemma sig_threads_ok s : ok s → alive s → count s < INT_MAX → ∃ p c, producer s = Ret p ∧ consumer s = Ret c.
Proof.
  intros Hok Hal Hn. pose proof (λ i, sig_critical s i Hok Hal) as Hcr. destruct Hok as [[_ _ Hp _] _ _ _].
  assert (∃ p, producer s = Ret p) as [p Ep].
  { unfold producer, prod_ok, int, int_ok in *. destruct (prod s) as [|i|i|i|i|]; eauto.
    - destruct Hp as [-> _]. rewrite (proj2 (Z.leb_le _ _)), (proj2 (Z.leb_le _ _)) by (unfold INT_MIN, INT_MAX, count in *; lia).
      destruct (keep s); eauto.
    - destruct (holds_cons (cons s)); [eauto|]. destruct (cb_full (cb s) && keep s) eqn:Hf; [eauto|].
      destruct (proj1 (Hcr i) eq_refl) as [[[] b] ->]; simpl; eauto. }
  assert (∃ c, consumer s = Ret c) as [c Ec]; [|eauto].
  unfold consumer. destruct (cons s); eauto. destruct (holds_prod (prod s)); [eauto|].
  destruct (cb_empty (cb s) && keep s); [eauto|]. destruct (proj2 (Hcr 0)) as [[[] b] ->]; simpl; eauto.
Qed.

Lemma awake_progress s : ok s → keep s = false → awake s → alive s → ∃ s', run s s'.
Proof.
  intros Hok Hk [Hp Hc] Hal. destruct (sig_critical s 0 Hok Hal) as [_ [[r b] Hpop]]. destruct Hok as [[_ Hm _ _] _ _ _].
  assert (∀ i, prod s = QTest i ∨ prod s = QPush i → ∃ s', producer s = Ret (Some s')) as Hprod.
  { unfold producer. intros i [-> | ->]; rewrite Hk; [eauto|]. rewrite andb_false_r. destruct (cons s); simpl; eauto; done. }
  assert (cons s = KPop ∨ cons s = KTest ∨ (∃ v, cons s = KPrint v) → ∃ s', consumer s = Ret (Some s')) as Hcons.
  { unfold consumer. intros [-> | [-> | [v ->]]]; [|eauto..]. rewrite Hk, andb_false_r, Hpop. destruct (prod s); simpl; eauto; done. }
  assert (main_ s = JoinProd ∧ prod s ≠ QDone ∨ main_ s = JoinCons ∧ cons s ≠ KDone ∨ ∃ s', main s = Some s') as Hmain.
  { unfold main, alive in *. destruct (main_ s); [eauto|eauto|destruct (prod s)|destruct (cons s)|eauto|done]; eauto. }
  unfold main_ok in Hm. destruct Hmain as [[Em Hn]|[[Em Hn]|[s' E]]]; [| |exists s'; by apply run_main]; rewrite Em in Hm; destruct Hm as [Hm1 Hm2].
  - destruct (prod s) as [|i|i|i|i|] eqn:Ep; try done; destruct (Hprod i) as [s' E]; auto; exists s'; by apply run_producer.
  - destruct (cons s) as [| | | | |v|] eqn:Ec; try done; destruct Hcons as [s' E]; eauto; exists s'; by apply run_consumer.
Qed.

Lemma awake_nsteps s n s' : ok s → keep s = false → awake s → nsteps run n s s' →
  (n + left s' ≤ left s)%nat ∧ ok s' ∧ keep s' = false ∧ awake s' ∧ pushed_ s' = pushed_ s.
Proof.
  intros Hok Hk Ha Hn. induction Hn as [s|n s1 s2 s3 Hs _ IH]; [done|].
  destruct (awake_run s1 s2 Hok Hk Ha Hs) as (Hl & Hk2 & Ha2 & Hp).
  destruct IH as (? & ? & ? & ? & ?); [by eapply sig_ok_next, next_run|done|done|]. split_and!; [lia|done|done|done|congruence].
Qed.

(** When the handler finds nobody between a test and its wait, everybody is awake. *)
Lemma handler_awake s : holds_prod (prod s) = false → holds_cons (cons s) = false →
  keep (handler s) = false ∧ awake (handler s).
Proof. intros Hp Hc. split; [done|]. unfold awake, handler. simpl. by destruct (prod s), (cons s). Qed.

Lemma sig_printed s : ok s → cons s = KDone →
  ∃ k, omap reported (out s) = seqZ 1 k ∧ 0 ≤ k ≤ count s ∧ count s ≤ k + 5.
Proof.
  intros [[Hpu _ _ Hc] _ _ (vs & Hq & Hl)] Hd. unfold cons_ok in Hc. rewrite Hd in Hc. destruct Hc as [_ Hc].
  exists (Z.of_nat (length (popped_ s))). rewrite <- Hc, Hq in *. unfold count in *. rewrite Hq, length_app in *. split; [|lia].
  eapply seqZ_prefix; [|exact Hpu]. lia.
Qed.

(** Whatever the schedule and whenever SIGINT comes, the C program pushes 1, 2,
    3, ..., pops a prefix of it, prints what it pops, faults in no thread, and
    until the signal the two threads are never both blocked; when the allocation
    fails it returns 1 at once. *)
Theorem SignalProgram_safe garbage s :
  (∀ b, garbage = Some b → length b = 5%nat) → rtc next (boot garbage) s →
  pushed_ s = seqZ 1 (count s) ∧
  (∃ k, popped_ s = seqZ 1 k ∧ 0 ≤ k ≤ count s ∧ count s ≤ k + 5 ∧
     (omap reported (out s) = popped_ s ∨ ∃ v, omap reported (out s) ++ [v] = popped_ s ∧ cons s = KPrint v)) ∧
  (alive s → count s < INT_MAX → ∃ p c, producer s = Ret p ∧ consumer s = Ret c) ∧
  (alive s → keep s = true → ¬ ((∃ i, prod s = QBlocked i) ∧ cons s = KBlocked)) ∧
  (garbage = None → main_ s = Returned 1 ∧ pushed_ s = []).
Proof.
  intros Hg Hr. pose proof (sig_ok_reachable garbage s Hg Hr) as Hok. split_and!.
  - apply (lo_pushed _ (sk_local _ Hok)).
  - destruct Hok as [[Hpu _ _ Hc] _ _ (vs & Hq & Hl)]. exists (Z.of_nat (length (popped_ s))).
    unfold count in *. rewrite Hq, length_app in *. split; [eapply seqZ_prefix; [|exact Hpu]; lia|]. split; [lia|]. split; [lia|].
    unfold cons_ok in Hc. destruct (cons s); eauto. destruct Hc as [_ Hc]. auto.
  - intros Hal Hn. by apply sig_threads_ok.
  - intros Hal Hk [[i Hi] Hc]. destruct (sk_running _ Hok Hal Hk) as [_ _ Hce Hcf _]. simpl in *. rewrite Hi, Hc in *. simpl in *. lia.
  - intros ->. clear -Hr. apply rtc_inv in Hr as [<-|(s1 & Hs & _)]; [done|].
    exfalso. destruct Hs as [[E|E|E]|Hs|Hm _]; [discriminate E..| |by apply (Hm 1)]. destruct Hs; discriminate.
Qed.

(** C29: when SIGINT finds no thread between the test of a wait loop and its wait,
    the C program ends: at most seven more steps in any schedule, no state in
    which it is stuck before [main] returns 0, and then both threads have
    returned, the buffer is freed, and the lines printed are an initial part of
    what was pushed that misses at most the five values of the buffer. *)
Theorem SignalProgram_stops garbage s n s' :
  (∀ b, garbage = Some b → length b = 5%nat) → rtc next (boot garbage) s → alive s →
  holds_prod (prod s) = false → holds_cons (cons s) = false → nsteps run n (handler s) s' →
  (n ≤ 7)%nat ∧
  ((∃ s'', run s' s'') ∨
   main_ s' = Returned 0 ∧ prod s' = QDone ∧ cons s' = KDone ∧
   ∃ k, omap reported (out s') = seqZ 1 k ∧ 0 ≤ k ≤ count s ∧ count s ≤ k + 5).
Proof.
  intros Hg Hr Hal Hp Hc Hs. destruct (handler_awake s Hp Hc) as [Hk Ha].
  assert (ok (handler s)) as Hok.
  { eapply sig_ok_next; [by eapply sig_ok_reachable|]. apply next_signal; [|done]. unfold alive in Hal. by intros code E; rewrite E in Hal. }
  destruct (awake_nsteps _ n s' Hok Hk Ha Hs) as (Hl & Hok' & Hk' & Ha' & Hpu). pose proof (sig_left_bound _ Hok).
  split; [lia|]. assert (alive s' ∨ ∃ code, main_ s' = Returned code) as [Hal'|[code E]]
    by (unfold alive; destruct (main_ s'); eauto); [left; by apply awake_progress|right].
  pose proof (lo_main _ (sk_local _ Hok')) as Hm. unfold main_ok in Hm. rewrite E in Hm.
  destruct code; [|by destruct Hm as (_ & _ & ?); congruence..]. destruct Hm as [Hp' Hc']. split_and!; [done..|].
  destruct (sig_printed s' Hok' Hc') as (k & Hk1 & Hk2). exists k. unfold count in *. rewrite Hpu in Hk2. done.
Qed.

(** ** Runs of a given schedule *)

Inductive who := P | C | M | Signal.

Definition turn (w : who) (s : program) : outcome (option program) :=
  match w with
  | P => producer s
  | C => consumer s
  | M => Ret (main s)
  | Signal => Ret (match main_ s with Returned _ => None | _ => Some (handler s) end)
  end.

Fixpoint play (schedule : list who) (s : program) : outcome (option program) :=
  match schedule with
  | [] => Ret (Some s)
  | w :: rest => s' ← turn w s; match s' with Some s' => play rest s' | None => Ret None end
  end.

Lemma turn_next w s s' : turn w s = Ret (Some s') → next s s' ∧ (w ≠ Signal → run s s').
Proof.
  destruct w; simpl; intros E.
  - assert (run s s') by (by apply run_producer). split; [by apply next_run|done].
  - assert (run s s') by (by apply run_consumer). split; [by apply next_run|done].
  - injection E as E. assert (run s s') by (by apply run_main). split; [by apply next_run|done].
  - injection E as E. split; [|done]. destruct (main_ s) eqn:Em; try done; injection E as <-; apply next_signal; congruence.
Qed.

Lemma play_reaches schedule s s' : play schedule s = Ret (Some s') → rtc next s s'.
Proof.
  revert s. induction schedule as [|w rest IH]; simpl; intros s E; [by injection E as <-|].
  apply bind_Ret_inv in E as ([s1|] & E1 & E); [|done]. apply (rtc_l _ _ s1); [by eapply turn_next|by apply IH].
Qed.

Lemma play_runs schedule s s' : Forall (λ w, w ≠ Signal) schedule → play schedule s = Ret (Some s') →
  nsteps run (length schedule) s s'.
Proof.
  intros Hf. revert s. induction Hf as [|w rest Hw _ IH]; simpl; intros s E; [injection E as <-; apply nsteps_O|].
  apply bind_Ret_inv in E as ([s1|] & E1 & E); [|done]. apply (nsteps_l _ _ _ s1); [by eapply turn_next|by apply IH].
Qed.

Definition begin : program := boot (Some (replicate 5 0)).
Definition state_after (schedule : list who) : program :=
  match play schedule begin with Ret (Some s) => s | _ => begin end.

(** Two values are pushed, one is printed; the other one is lost. *)
Definition demo : list who := [M; M; P; P; P; P; C; C].
Definition demo_end : list who := [P; C; C; M; M; M].

Lemma SignalProgram_safe_witness : pushed_ (state_after demo) = [1; 2].
Proof.
  apply (SignalProgram_safe (Some (replicate 5 0)) (state_after demo)); [by intros b [= <-]|].
  apply (play_reaches demo). vm_compute. reflexivity.
Defined.

Lemma SignalProgram_stops_witness :
  main_ (state_after (demo ++ Signal :: demo_end)) = Returned 0 ∧
  omap reported (out (state_after (demo ++ Signal :: demo_end))) = [1] ∧ (length demo_end ≤ 7)%nat.
Proof.
  destruct (SignalProgram_stops (Some (replicate 5 0)) (state_after demo) (length demo_end)
              (state_after (demo ++ Signal :: demo_end))) as [Hn _].
  - by intros b [= <-].
  - apply (play_reaches demo). vm_compute. reflexivity.
  - vm_compute. exact I.
  - reflexivity.
  - reflexivity.
  - apply play_runs; [repeat (constructor; [discriminate|]); constructor|vm_compute; reflexivity].
  - split_and!; [by vm_compute|by vm_compute|exact Hn].
Defined.

(** The remaining case: the signal comes while the consumer is between its test
    and its wait.  The producer ends, but the consumer sleeps, and [main] waits
    for it in [pthread_join] without end, unless another signal or a spurious
    wake-up comes. *)
Lemma SignalProgram_hangs :
  let s := state_after [M; M; C; C; Signal; C; P; M] in
  rtc next begin s ∧ keep s = false ∧ main_ s = JoinCons ∧ ∀ s', ¬ run s s'.
Proof.
  split; [apply (play_reaches [M; M; C; C; Signal; C; P; M]); vm_compute; reflexivity|].
  split; [done|]. split; [done|]. intros s' [E|E|E]; vm_compute in E; discriminate E.
Qed.
End Sigint.
