(* ===== verification/SensorDoubles.v ===== *)
(** * The sensor filter on doubles (systemDesign/sensorFilter.cpp)

    Devices models [SensorFilter] for any test of the threshold.  Here the test
    is the one of the program, in IEEE 754 binary64 arithmetic (the Standard
    Library's SpecFloat with 53 bits of precision, rounding to nearest even),
    and [main] is run on its readings. *)

From stdpp Require Import base list numbers.
From Stdlib Require Import ZArith Lia SpecFloat.
From S2P Require Import Prelude Devices.

Definition prec : Z := 53.
Definition emax : Z := 1024.

(** The literal [n / d] (the integers are exact, so the division rounds once). *)
Definition literal (n d : Z) : spec_float :=
  SFdiv prec emax (binary_normalize prec emax n 0 false) (binary_normalize prec emax d 0 false).

(** [std::abs(newValue - lastValue) >= threshold] *)
Definition significant (threshold newValue lastValue : spec_float) : bool :=
  SFleb threshold (SFabs (SFsub prec emax newValue lastValue)).

Definition lastValue_init : spec_float := S754_zero false.

Inductive line := Transmitting (r : spec_float) | Collapsed (r : spec_float).

(** [main]'s loop; [clock] holds what [getCurrentTimeMs] answers to each call. *)
Fixpoint readings_loop (threshold : spec_float) (heartbeat : Z) (readings : list spec_float) (clock : list Z)
    (f : SensorFilter) : list line :=
  match readings, clock with
  | r :: readings, now :: clock =>
      let '(update, f) := shouldUpdate (significant threshold) heartbeat now r f in
      (if update then Transmitting r else Collapsed r) :: readings_loop threshold heartbeat readings clock f
  | _, _ => []
  end.

Definition readings : list spec_float :=
  [literal 220 10; literal 221 10; literal 222 10; literal 227 10; literal 227 10; literal 228 10].

Definition sensor_main (clock : list Z) : list line :=
  readings_loop (literal 5 10) 5000 readings clock (new_SensorFilter lastValue_init).

(** ** NaN *)

Definition is_nan (x : spec_float) : bool := match x with S754_nan => true | _ => false end.

(** A NaN is never significant, and nothing is significant after a NaN: once one
    has been sent by the heartbeat, only the heartbeat sends until a number is. *)
Lemma nan_insignificant threshold v w : is_nan v || is_nan w = true → significant threshold v w = false.
Proof.
  unfold significant. intros Hn. assert (SFsub prec emax v w = S754_nan) as -> by (by destruct v as [[]|[]| |], w as [[]|[]| |]).
  by destruct threshold as [[]|[]| |].
Qed.

(** A reading equal to the last one sent is redundant, for a positive threshold. *)
Lemma same_insignificant threshold v : SFltb (S754_zero false) threshold = true → significant threshold v v = false.
Proof.
  intros Ht. unfold significant.
  assert (SFabs (SFsub prec emax v v) = S754_zero false ∨ SFabs (SFsub prec emax v v) = S754_nan) as [-> | ->].
  { destruct v as [[]|[]| |b m e]; simpl; auto. left.
    replace (cond_Zopp b _ - cond_Zopp b _) with 0 by lia. done. }
  - by destruct threshold as [[]|[]| |[] m e].
  - by destruct threshold as [[]|[]| |].
Qed.

(** ** The program *)

(** With readings less than five seconds apart from the last one sent, [main]
    transmits 22.0 and 22.7 and collapses the others; 22.7 is sent because the
    collapsed readings left 22.0 as the value to compare with. *)
Theorem sensor_main_prints t0 t1 t2 t3 t4 t5 :
  t1 - t0 < 5000 → t2 - t0 < 5000 → t4 - t3 < 5000 → t5 - t3 < 5000 →
  sensor_main [t0; t1; t2; t3; t4; t5] =
    [Transmitting (literal 22 1); Collapsed (literal 221 10); Collapsed (literal 222 10);
     Transmitting (literal 227 10); Collapsed (literal 227 10); Collapsed (literal 228 10)].
Proof.
  intros H1 H2 H4 H5. unfold sensor_main, readings, readings_loop, shouldUpdate, new_SensorFilter.
  cbn [lastReading lastSentTime].
  replace (significant (literal 5 10) (literal 220 10) lastValue_init) with true by (vm_compute; reflexivity).
  cbn [orb lastReading lastSentTime].
  replace (significant (literal 5 10) (literal 221 10) (literal 220 10)) with false by (vm_compute; reflexivity).
  rewrite (proj2 (Z.leb_gt 5000 (t1 - t0))) by lia. cbn [orb lastReading lastSentTime].
  replace (significant (literal 5 10) (literal 222 10) (literal 220 10)) with false by (vm_compute; reflexivity).
  rewrite (proj2 (Z.leb_gt 5000 (t2 - t0))) by lia. cbn [orb lastReading lastSentTime].
  replace (significant (literal 5 10) (literal 227 10) (literal 220 10)) with true by (vm_compute; reflexivity).
  cbn [orb lastReading lastSentTime].
  replace (significant (literal 5 10) (literal 227 10) (literal 227 10)) with false by (vm_compute; reflexivity).
  rewrite (proj2 (Z.leb_gt 5000 (t4 - t3))) by lia. cbn [orb lastReading lastSentTime].
  replace (significant (literal 5 10) (literal 228 10) (literal 227 10)) with false by (vm_compute; reflexivity).
  rewrite (proj2 (Z.leb_gt 5000 (t5 - t3))) by lia. reflexivity.
Qed.

(** ** Rounding

    Whether a change of exactly half a degree is reported depends on how the two
    readings are rounded.  Around the readings of [main] the test on doubles is
    the exact one, for readings with one decimal. *)

Definition exact_test (i j : Z) : bool := 5 <=? Z.abs (i - j).

Lemma threshold_exact_tenths i j : 200 ≤ i ≤ 250 → 200 ≤ j ≤ 250 →
  significant (literal 5 10) (literal i 10) (literal j 10) = exact_test i j.
Proof.
  assert (forallb (λ i, forallb (λ j, Bool.eqb (significant (literal 5 10) (literal i 10) (literal j 10)) (exact_test i j))
    (seqZ 200 51)) (seqZ 200 51) = true) as Hall by (vm_compute; reflexivity).
  intros Hi Hj. rewrite forallb_forall in Hall. specialize (Hall i). rewrite forallb_forall in Hall.
  apply eqb_true_iff, Hall; apply list_elem_of_In, elem_of_seqZ; lia.
Qed.

(** Where the binary exponent changes between the readings it is not: a step from
    15.9 to 16.4 degrees is half a degree, and is collapsed. *)
Lemma threshold_missed :
  exact_test 164 159 = true ∧ significant (literal 5 10) (literal 164 10) (literal 159 10) = false.
Proof. split; vm_compute; reflexivity. Qed.
