(* ===== verification/MemPrograms.v ===== *)
(** * The programs of mem_apis/memcpy.c and mem_apis/memset.c

    [main] of memcpy.c moves five characters inside an array and prints the two
    halves of it; [main] of memset.c fills a static buffer of 100 MB three times
    and prints how long it took, in doubles (IEEE binary64, as in
    SensorDoubles).  Addresses are those the loader or the stack chooses, so the
    theorems hold for any. *)

From stdpp Require Import base list numbers gmap strings.
From Stdlib Require Import ZArith Lia SpecFloat.
From S2P Require Import Prelude MemApis SensorDoubles.

(** ** memcpy.c *)

(** An array of bytes at address [a]. *)
Fixpoint array_at (a : Z) (bytes : list Z) : memory :=
  match bytes with [] => ∅ | b :: bytes => <[a := b]> (array_at (a + 1) bytes) end.

(** The two [printf] loops: the characters from [a + i]. *)
Fixpoint print_chars (n : nat) (a : Z) (m : memory) : outcome (list Z) :=
  match n with
  | O => Ret []
  | S n => c ← load m a; rest ← print_chars n (a + 1) m; Ret (c :: rest)
  end.

Definition arr_init : list Z := [97; 98; 99; 100; 101; 102; 103; 104; 105; 106].

Definition memcpy_main (arr : Z) : outcome (list Z * list Z) :=
  '(_, m) ← robust_memcpy arr (arr + 3) 5 (array_at arr arr_init);
  src ← print_chars 5 arr m;
  dst ← print_chars 5 (arr + 5) m;
  Ret (src, dst).

Lemma array_at_lookup bytes : ∀ a i, array_at a bytes !! (a + Z.of_nat i) = bytes !! i.
Proof.
  induction bytes as [|b bytes IH]; intros a i; [done|]. cbn [array_at]. destruct i as [|i].
  - rewrite Z.add_0_r, lookup_insert. by rewrite decide_True.
  - rewrite lookup_insert_ne by lia. replace (a + Z.of_nat (S i)) with (a + 1 + Z.of_nat i) by lia. apply IH.
Qed.

Lemma array_at_allocated bytes a k n : (k + n ≤ length bytes)%nat → allocated (array_at a bytes) (a + Z.of_nat k) n.
Proof.
  intros Hk i Hi. replace (a + Z.of_nat k + i) with (a + Z.of_nat (k + Z.to_nat i)) by lia.
  rewrite array_at_lookup. apply lookup_lt_is_Some. lia.
Qed.

Lemma print_chars_spec n : ∀ a m cs, length cs = n → (∀ i c, cs !! i = Some c → m !! (a + Z.of_nat i) = Some c) →
  print_chars n a m = Ret cs.
Proof.
  induction n as [|n IH]; intros a m cs Hl Hm; destruct cs as [|c cs]; try done. cbn [print_chars].
  pose proof (Hm 0%nat c eq_refl) as H0. rewrite Z.add_0_r in H0. unfold load. rewrite H0. cbn [of_option].
  rewrite bind_Ret, (IH (a + 1) m cs); [done|by injection Hl|].
  intros i c' Hi. replace (a + 1 + Z.of_nat i) with (a + Z.of_nat (S i)) by lia. by apply (Hm (S i)).
Qed.

(** What the loop of [robust_memcpy] leaves, for [arr] anywhere but at the null
    pointer: the first half is "d e f g h", the second half is as it was. *)
Theorem memcpy_main_prints arr : 0 < arr → memcpy_main arr = Ret ([100; 101; 102; 103; 104], [102; 103; 104; 105; 106]).
Proof.
  intros Ha. unfold memcpy_main, robust_memcpy.
  rewrite (proj2 (Z.eqb_neq arr 0)), (proj2 (Z.eqb_neq (arr + 3) 0)), (proj2 (Z.ltb_lt arr (arr + 3))) by lia. cbn [orb].
  pose proof (array_at_allocated arr_init arr 3 5 ltac:(simpl; lia)) as Hs.
  pose proof (array_at_allocated arr_init arr 0 5 ltac:(simpl; lia)) as Hd. change (Z.of_nat 3) with 3 in Hs. rewrite Z.add_0_r in Hd.
  destruct (copy_up_spec arr (arr + 3) 5 _ Hs Hd ltac:(lia) 5 0 (array_at arr arr_init)) as (m & -> & Hm); [lia..| |].
  { intros a. rewrite decide_False by lia. done. }
  rewrite !bind_Ret. pose proof (array_at_lookup arr_init arr) as Hl.
  rewrite (print_chars_spec 5 arr m [100; 101; 102; 103; 104]), (print_chars_spec 5 (arr + 5) m [102; 103; 104; 105; 106]); try done.
  - intros i c Hi. rewrite Hm, decide_False by lia. replace (arr + 5 + Z.of_nat i) with (arr + Z.of_nat (5 + i)) by lia.
    by rewrite Hl.
  - intros i c Hi. pose proof (lookup_lt_Some _ _ _ Hi). simpl length in *. rewrite Hm, decide_True by lia.
    replace (arr + 3 + (arr + Z.of_nat i - arr)) with (arr + Z.of_nat (3 + i)) by lia. rewrite Hl.
    by do 5 (destruct i as [|i]; [done|]).
Qed.

(** ** memset.c *)

Definition BUFFER_SIZE : Z := 1024 * 1024 * 100.

Definition of_int (z : Z) : spec_float := binary_normalize prec emax z 0 false.

(** A [timespec] is a pair of seconds and nanoseconds. *)
Definition time_sec (t : Z * Z) : spec_float :=
  SFadd prec emax (of_int t.1) (SFdiv prec emax (of_int t.2) (of_int 1000000000)).

(** The C library's [memset]. *)
Definition memset (dst val : Z) (n : nat) (m : memory) : outcome (Z * memory) :=
  m ← fill_bytes n dst (u8 val) m; Ret (dst, m).

(** A line of the table: name, elapsed seconds, MB/s. *)
Record result := mkResult { bench_name : string; elapsed : spec_float; mbps : spec_float }.

(** [clock] holds the times of the two calls of [clock_gettime]. *)
Definition benchmark (buffer : Z) (name : string) (func : Z → Z → nat → memory → outcome (Z * memory))
    (clock : (Z * Z) * (Z * Z)) (m : memory) : outcome (result * memory) :=
  let start := time_sec clock.1 in
  '(_, m) ← func buffer 170 (Z.to_nat BUFFER_SIZE) m;
  let end_ := time_sec clock.2 in
  let elapsed := SFsub prec emax end_ start in
  let megabytes := SFdiv prec emax (of_int BUFFER_SIZE) (SFmul prec emax (of_int 1024) (of_int 1024)) in
  _ ← load m buffer;
  Ret (mkResult name elapsed (SFdiv prec emax megabytes elapsed), m).

Definition memset_main (buffer : Z) (c1 c2 c3 : (Z * Z) * (Z * Z)) (m : memory) : outcome (list result * memory) :=
  '(r1, m) ← benchmark buffer "Naive byte" memset_naive c1 m;
  '(r2, m) ← benchmark buffer "Word-wise fast" memset_fast c2 m;
  '(r3, m) ← benchmark buffer "Standard memset" memset c3 m;
  Ret ([r1; r2; r3], m).

(** The line that a benchmark prints: it has 100 MB to set. *)
Definition row (name : string) (clock : (Z * Z) * (Z * Z)) : result :=
  let elapsed := SFsub prec emax (time_sec clock.2) (time_sec clock.1) in
  mkResult name elapsed (SFdiv prec emax (of_int 100) elapsed).

Definition filled (buffer : Z) (m m' : memory) : Prop :=
  replaced m m' buffer (Z.to_nat BUFFER_SIZE) (λ _, Some 170).

Lemma memset_is_naive dst val n m : memset dst val n m = memset_naive dst val n m.
Proof. reflexivity. Qed.

Lemma benchmark_spec buffer name func clock m :
  (∀ m, func buffer 170 (Z.to_nat BUFFER_SIZE) m = memset_naive buffer 170 (Z.to_nat BUFFER_SIZE) m) →
  allocated m buffer (Z.to_nat BUFFER_SIZE) →
  ∃ m', benchmark buffer name func clock m = Ret (row name clock, m') ∧ filled buffer m m'.
Proof.
  intros Hf Ha. destruct (memset_naive_spec buffer 170 (Z.to_nat BUFFER_SIZE) m Ha) as (m' & E & Hm).
  exists m'. split; [|exact Hm]. unfold benchmark, row. rewrite Hf, E, bind_Ret. unfold load.
  rewrite Hm, decide_True by (unfold BUFFER_SIZE; lia). cbn [of_option]. rewrite bind_Ret.
  replace (SFdiv prec emax (of_int BUFFER_SIZE) (SFmul prec emax (of_int 1024) (of_int 1024))) with (of_int 100)
    by (vm_compute; reflexivity). done.
Qed.

Lemma filled_allocated buffer m m' : filled buffer m m' → allocated m' buffer (Z.to_nat BUFFER_SIZE).
Proof. intros Hm i Hi. rewrite Hm, decide_True by lia. eauto. Qed.

Lemma filled_trans buffer m m1 m2 : filled buffer m m1 → filled buffer m1 m2 → filled buffer m m2.
Proof. intros H1 H2 a. rewrite H2. case_decide; [done|]. rewrite H1. by rewrite decide_False. Qed.

(** Wherever the loader puts the buffer and whatever the clock says, the program
    prints its three lines and leaves every byte of the buffer 0xAA and all other
    memory alone. *)
Theorem memset_main_prints buffer c1 c2 c3 m :
  allocated m buffer (Z.to_nat BUFFER_SIZE) →
  ∃ m', memset_main buffer c1 c2 c3 m =
          Ret ([row "Naive byte" c1; row "Word-wise fast" c2; row "Standard memset" c3], m') ∧ filled buffer m m'.
Proof.
  intros Ha. unfold memset_main.
  destruct (benchmark_spec buffer "Naive byte" memset_naive c1 m) as (m1 & -> & H1); [done|done|]. rewrite bind_Ret.
  destruct (benchmark_spec buffer "Word-wise fast" memset_fast c2 m1) as (m2 & -> & H2);
    [intros m0; apply memset_fast_naive|by eapply filled_allocated|]. rewrite bind_Ret.
  destruct (benchmark_spec buffer "Standard memset" memset c3 m2) as (m3 & -> & H3); [intros m0; apply memset_is_naive|by eapply filled_allocated|].
  rewrite bind_Ret. exists m3. split; [done|]. by eapply filled_trans; [eapply filled_trans|].
Qed.

(** A clock too coarse to see the call gives an infinite rate, not a fault. *)
Lemma zero_elapsed name t : (∃ b, time_sec t = S754_zero b) ∨ (∃ b x e, time_sec t = S754_finite b x e) →
  mbps (row name (t, t)) = S754_infinity false.
Proof.
  intros Ht. unfold row. cbn [mbps fst snd]. destruct Ht as [[[] ->]|(b & x & e & ->)]; [vm_compute; reflexivity..|].
  replace (SFsub prec emax (S754_finite b x e) (S754_finite b x e)) with (S754_zero false); [vm_compute; reflexivity|].
  cbn [SFsub]. match goal with |- _ = binary_normalize _ _ ?z _ _ => replace z with 0 by lia end. done.
Qed.
