(* ===== verification/ToolMains.v ===== *)
(** * The mains of cat_io_uring.c, packetHandler/main.cpp and SingleResponsibility_original.cpp

    The command-line programs around components modelled elsewhere, with the
    clock functions they and the pollers print times with. *)

From stdpp Require Import base list numbers gmap strings relations.
From Stdlib Require Import ZArith Lia SpecFloat.
From S2P Require Import Prelude WorkQueue QueuePrograms Dispatcher Receiver Cat SensorDoubles MemPrograms Journal.

(** ** Clocks *)

(** A result of type [long]. *)
Definition long (z : Z) : outcome Z := if (- 2 ^ 63 <=? z) && (z <? 2 ^ 63) then Ret z else Err SignedOverflow.

(** [now_ms] of the pollers, on the [timespec] (seconds, nanoseconds). *)
Definition now_ms (ts : Z * Z) : outcome Z :=
  s ← long (ts.1 * 1000);
  long (s + Z.quot ts.2 1000000).

(** [now_sec] of cat_io_uring.c, on the [timeval] (seconds, microseconds). *)
Definition now_sec (tv : Z * Z) : spec_float :=
  SFadd prec emax (of_int tv.1) (SFdiv prec emax (of_int tv.2) (of_int 1000000)).

(** The nanoseconds of a [timespec]. *)
Definition nanoseconds (ts : Z * Z) : Z := ts.1 * 1000000000 + ts.2.
Definition timespec_ok (ts : Z * Z) : Prop := 0 ≤ ts.1 < 2 ^ 53 ∧ 0 ≤ ts.2 < 1000000000.

Lemma now_ms_floor ts : timespec_ok ts → now_ms ts = Ret (nanoseconds ts / 1000000).
Proof.
  intros [Hs Hn]. unfold now_ms, long. rewrite Z.quot_div_nonneg by lia.
  assert (0 ≤ ts.2 / 1000000 < 1000) as Hq by (split; [apply Z.div_pos; lia|apply Z.div_lt_upper_bound; lia]).
  rewrite (proj2 (Z.leb_le _ (ts.1 * 1000))), (proj2 (Z.ltb_lt (ts.1 * 1000) _)) by lia. cbn [andb]. rewrite bind_Ret.
  rewrite (proj2 (Z.leb_le _ _)), (proj2 (Z.ltb_lt _ _)) by lia. cbn [andb]. f_equal. unfold nanoseconds.
  replace (ts.1 * 1000000000) with (ts.1 * 1000 * 1000000) by lia. by rewrite Z.div_add_l by lia.
Qed.

(** The clock of the pollers never goes back when CLOCK_MONOTONIC does not. *)
Lemma now_ms_monotone t1 t2 : timespec_ok t1 → timespec_ok t2 → nanoseconds t1 ≤ nanoseconds t2 →
  ∃ m1 m2, now_ms t1 = Ret m1 ∧ now_ms t2 = Ret m2 ∧ 0 ≤ m2 - m1 ≤ (nanoseconds t2 - nanoseconds t1) / 1000000 + 1.
Proof.
  intros H1 H2 Hle. do 2 eexists. split; [by apply now_ms_floor|]. split; [by apply now_ms_floor|].
  set (a := nanoseconds t1) in *. set (b := nanoseconds t2) in *.
  pose proof (Z.div_mod a 1000000 ltac:(lia)). pose proof (Z.mod_pos_bound a 1000000 ltac:(lia)).
  pose proof (Z.div_mod b 1000000 ltac:(lia)). pose proof (Z.mod_pos_bound b 1000000 ltac:(lia)).
  pose proof (Z.div_mod (b - a) 1000000 ltac:(lia)). pose proof (Z.mod_pos_bound (b - a) 1000000 ltac:(lia)). lia.
Qed.

(** ** cat_io_uring.c *)

Inductive cat_end :=
  | CatUsage                                      (* return 1 after the usage line *)
  | CatExit1 (first : list Z)                     (* exit(1) inside [cat_traditional_multi] *)
  | CatRuns                                       (* waiting for a system call *)
  | CatDone (first : list Z) (second : ring) (traditional io_uring : spec_float).

(** [files]: what the arguments name; [script] and [acts]: what the system does in
    the two copies; [t1] to [t4]: the four readings of the clock. *)
Definition cat_main (files : list (option (list Z))) (script : list sys_result) (acts : list (list kact))
    (t1 t2 t3 t4 : Z * Z) : cat_end :=
  match files with
  | [] => CatUsage
  | _ =>
      match cat_traditional_multi script files [] with
      | Exited out => CatExit1 out
      | Starved _ => CatRuns
      | Cat.Returned _ _ out =>
          let contents := default [] <$> files in
          match cat_io_uring_multi BLOCK_SIZE QUEUE_DEPTH contents acts (multi_start contents) with
          | None => CatRuns
          | Some r =>
              CatDone out r (SFsub prec emax (now_sec t2) (now_sec t1)) (SFsub prec emax (now_sec t4) (now_sec t3))
          end
      end
  end.

(** With system calls that make progress and reads completed round by round, the
    program copies all files twice and ends: once in the order of the arguments,
    once with the blocks of each file in order. *)
Theorem cat_main_copies contents script n t1 t2 t3 t4 :
  contents ≠ [] → Forall progress script → (sum_list_with (λ f, 2 * length f + 1)%nat contents ≤ length script)%nat →
  (length contents ≤ QUEUE_DEPTH)%nat → (∀ c, c ∈ contents → (length c ≤ n * BLOCK_SIZE)%nat) →
  ∃ r e1 e2, cat_main (Some <$> contents) script (replicate (S n) [CompleteAll]) t1 t2 t3 t4 = CatDone (concat contents) r e1 e2 ∧
    ∀ i c, contents !! i = Some c → written_of i r = c.
Proof.
  intros Hne Hp Hl Hd Hn. destruct (multi_ends contents script [] Hp Hl) as [s E].
  destruct (io_uring_multi_ends contents n Hd Hn) as (r & Er & Hr).
  assert (default [] <$> (Some <$> contents) = contents) as Hid.
  { rewrite <- list_fmap_compose. etransitivity; [|apply list_fmap_id]. by apply list_fmap_ext. }
  do 3 eexists. split; [|exact Hr]. unfold cat_main. rewrite E, Hid, Er. by destruct contents.
Qed.

(** ** packetHandler/main.cpp *)

Inductive packet_end :=
  | PacketExit (code : Z)
  | Capturing (receiver : PacketReceiver) (p : program (T := bytes) (L := unit)).

(** [opens]: which interfaces [pcap_open_live] can open; [packets]: what the
    capture delivers before it ends. *)
Definition packet_main (argv : list string) (opens : string → bool) (packets : list bytes) : packet_end :=
  match argv with
  | _ :: interface_name :: _ =>
      match new_PacketReceiver (opens interface_name) with
      | None => PacketExit 1
      | Some receiver => Capturing receiver (start packets)
      end
  | _ => PacketExit 1
  end.

(** The program fails at once exactly when no interface is named or it cannot be
    opened, and otherwise never ends, so it never returns 0. *)
Theorem packet_main_never_returns argv opens packets :
  match packet_main argv opens packets with
  | PacketExit code => code = 1 ∧ (argv !! 1%nat = None ∨ ∃ i, argv !! 1%nat = Some i ∧ opens i = false)
  | Capturing receiver p =>
      (∃ i, argv !! 1%nat = Some i ∧ opens i = true) ∧ handle_open receiver = true ∧
      ∀ s, reachable receiver_program p s → QueuePrograms.main s ≠ QueuePrograms.Returned
  end.
Proof.
  destruct argv as [|a [|i argv]]; simpl; [by auto..|]. unfold new_PacketReceiver.
  destruct (opens i) eqn:Hi; simpl; [|by eauto]. split; [by eauto|]. split; [done|]. apply receiver_stays.
Qed.

(** ** SingleResponsibility_original.cpp *)

Definition diary_main (opens : string → bool) (fs : files) : files :=
  let journal := Journal.add "I cried today" (Journal.add "I ate a bug" (new_Journal "Dear Diary")) in
  PersistenceManager_save opens journal "diary.txt" fs.

(** The diary on disk is the diary in memory, whatever the file held. *)
Lemma diary_main_saves opens fs : opens "diary.txt" = true →
  get_lines "" <$> diary_main opens fs !! "diary.txt" = Some ["I ate a bug"; "I cried today"].
Proof.
  intros Ho. unfold diary_main, PersistenceManager_save, write_file. rewrite Ho, lookup_insert_eq. vm_compute. reflexivity.
Qed.
